(* ===== verification/_CoqProject ===== *)
-Q . S2P
Prelude.v
Utf8.v
BTree.v
Decimal.v
TextTokens.v
TextSegments.v
TextStream.v
TextLines.v
TextLinesFacts.v
Paths.v
Merkle.v
MerkleDiffs.v
MerkleBuild.v
MerkleRefresh.v
MerkleStamps.v
Lru.v
Languages.v
Chunking.v
Presentation.v
Caches.v
Jobs.v
Budget.v
Queue.v
Staging.v
Io.v
IndexGc.v
VectorTopK.v
VectorMetadata.v
Boolean.v
PathGlob.v
ModeLock.v
SearchRegistry.v
InflightIndexes.v
WatchControl.v
IndexableFacts.v
ChunkingFacts.v
StructuralChunks.v
StructuralChunksFacts.v
CoalesceFacts.v
SubstringCandidates.v
LineMatcher.v
Decoding.v
LiteralCount.v
TopK.v
LiteralFiles.v
ContextTokens.v
ContextPreview.v
ContextChanges.v
ContextRender.v
ContextAssembly.v
ContextMetricsFacts.v
ContextAssemblyFacts.v
ChunkTable.v
IndexStats.v
Tombstones.v
IndexPersist.v
IndexPublishFacts.v
EmbeddingRows.v
Enhancement.v
EnhancementRunFacts.v
Compression.v
IndexProducer.v
IndexRun.v
PathNames.v
DocIncludes.v
GitChanges.v
ContextSeeds.v
TaskPaths.v
ConfinedFiles.v
Leases.v
LeasesFacts.v
FilteredChunks.v
SemanticRefill.v
GitState.v
QueryResults.v
ContextPool.v
SymbolLines.v
F32.v
DenseFusion.v
SpanPromotion.v
