(* ===== verification/Prelude.v ===== *)
(** * ivygrep: a verification library

  ivygrep is a local code search engine.  A daemon keeps an index per workspace:
  it snapshots the file tree, tokenizes and chunks the files into Tantivy, SQLite
  and vector stores, answers searches, and runs enhancement workers beside them.
  This library models the parts with logic of their own as executable
  definitions, one file per part (large parts keep their facts in files of their own), and
  proves what makes them correct.

  ** How the parts interact

  The tokenizers feed the index and the search; files are split into chunks for the
  index ([Chunking], [StructuralChunks]) with the languages of [Languages].  Snapshots
  decide which files an update touches.  A full rebuild is staged and promoted over the
  live index ([Staging]); threads of a build share a byte budget ([Budget]).  An update
  publishes rows, statistics, documents and deletion journals in a fixed order
  ([IndexPersist]), beside a worker that embeds the rows outside the index lock
  ([Enhancement]).  Workers of all processes report in a job ledger ([Jobs]), which the enhancement queue's host and
  the garbage collector consult; the collector ([IndexGc]) removes indexes whose root
  is gone, under the same job and lock discipline.  The daemon serializes work on a
  workspace with leases ([ModeLock]), joins equal index requests ([InflightIndexes]),
  keeps indexes fresh with watchers ([WatchControl]) and cancels searches through a
  registry ([SearchRegistry]).  A search filters paths ([PathGlob]), parses Boolean
  requests ([Boolean]), asks the index for files that can match
  ([SubstringCandidates]), reads and counts them ([LineMatcher], [LiteralCount],
  [LiteralFiles]), selects chunks under filters ([FilteredChunks]), ranks vector matches ([VectorTopK],
  [SemanticRefill]) and presents hits
  ([Presentation]) from cached files ([Caches]).  Context for a task is assembled from
  ranked candidates within a token budget ([ContextAssembly]).

  ** Foundations

  - [Prelude]: results, checked 64-bit arithmetic, tactics, shared lemmas.
  - [Utf8]: characters, strings, byte offsets and slices; a slice off a character
    boundary is [None] where the code panics.
  - [Decimal]: printing and parsing of integers, and their round trip.
  - [Paths]: Unix paths as bytes, components, lossy decoding.
  - [BTree]: ordered maps as sorted association lists, behind the interface
    [OrdKey].
  - [Lru]: the interface of the lru crate, its laws and an implementation.
  - [Io]: computations that query an arbitrary, freely changing world and leave a
    trace, with the rules of a small program logic ([post]).

  ** Components, by source file under src/src

  - text.rs: [TextTokens] (trigram and code tokenizers as cursor machines),
    [TextSegments] and [TextStream] (the streams refine a declarative
    segmentation of the text, terminate, and never slice off a boundary),
    [TextLines] and [TextLinesFacts] (singular forms; the scanner of code lines,
    its fuel and its ranges).
  - merkle.rs (with walker.rs and workspace.rs helpers): [Merkle] has the data and
    the operations; [MerkleDiffs] the merge loop against a set difference, and
    reconciliation; [MerkleBuild] the parallel walk, all or nothing and
    independent of its schedule; [MerkleRefresh] the targeted refresh;
    [MerkleStamps] the corruption check, its memo, and hash encodings.
  - byte_cache.rs and search_file_cache.rs: [Caches], byte counters exact and
    within limits, and a stamped read that never serves stale content.
  - search_presentation.rs (with chunking.rs, protocol.rs, search.rs helpers):
    [Presentation], line spans, focus lines, snippets.
  - jobs.rs: [Jobs], the ledger as interleaved atomic edits whose lock, read and write may
    fail, ownership by nonce, status, process identity and its cache.
  - indexer/batch_budget.rs: [Budget], an interleaving model of the condition
    variable with exact accounting, bounds and no lost wake-up.
  - enhancement_queue.rs: [Queue], bounds and fairness of the
    queue for every host.
  - indexer/staging.rs: [Staging], promotion, rollback, the marker of a kept backup and the
    later cleanup, when any file operation may fail.
  - indexer.rs: [ChunkTable] (the table of chunks), [IndexStats] (incremental
    statistics), [Tombstones] (deletion journals and interrupted appends),
    [IndexPersist] and [IndexPublishFacts] (the transactions of an
    update, as what they make durable), [EmbeddingRows] (the cursor of a worker, over a
    table that updates change between its batches).
  - indexer.rs, indexer/enhancement.rs and workspace.rs: [Enhancement] and
    [EnhancementRunFacts], the hash worker beside updates and rebuilds that may stop
    anywhere, its status, and an undisturbed pass.  A rebuild holds the index lock from its
    first removal to its last rename, so it is one step: the whole replacement, or a stop on
    the way that leaves an incomplete index with any stores.
  - index_gc.rs and config.rs ([index_gc_grace]): [IndexGc], a
    pass as a traced computation, with the answers of the host in the trace, and what may be
    removed in it.
  - vector_store.rs and vector_store/metadata.rs: [VectorTopK], [VectorMetadata].
  - search_boolean.rs: [Boolean].
  - path_glob.rs: [PathGlob].
  - daemon.rs: [ModeLock] (WorkspaceModeCoordinator), [Leases] and [LeasesFacts] (the leases
    of a request on several workspaces, and threads that take them one after another),
    [SearchRegistry] (SearchCancellation and its registry),
    [InflightIndexes] (coalescing of index requests), [WatchControl] (the watcher's control block and worker), each a step relation
    over arbitrarily many concurrent parties; [QueryResults] (cached answers and their
    revision), [ContextPool] (idle contexts under shared atomic counters).
  - chunking.rs: [Languages] (the registry of languages and their
    line tests), [Chunking], [IndexableFacts] and [ChunkingFacts] (indexability, windows,
    heuristic chunks, stored headers), [StructuralChunks], [StructuralChunksFacts] and
    [CoalesceFacts] (chunks from the line ranges of a parse).
  - search.rs and regex_search.rs prefilters: [SubstringCandidates].
  - search.rs, workspace.rs: [FilteredChunks], the query that filters are pushed into and
    the overlay over its base.
  - search_semantic_visibility.rs and vector_store/optimized.rs: [SemanticRefill], the
    approximate rounds and the exact scan of a filtered semantic search.
  - search_literal.rs: [LineMatcher] (the failure table), [LiteralCount]
    (streamed counts, hits and their previews), [LiteralFiles] (ranking, parallel selection, rereading); [TopK] has bounded heaps under any plan of
    folds and reductions, [Decoding] the UTF-8 decoder on split input.
  - context.rs and context_input.rs: [ContextTokens] (the token estimate),
    [ContextPreview] (previews within a budget), [ContextChanges] (changes and their scope),
    [ContextRender] (the Markdown of a bundle), [ContextAssembly],
    [ContextMetricsFacts] and [ContextAssemblyFacts] (selection under the budget);
    [GitChanges] (the records of git and their merge), [TaskPaths] (files a task names),
    [ContextSeeds] (what seeds a bundle), over the normalized paths of [PathNames].
  - indexer/compression.rs: [Compression], the stored text of a chunk.
  - indexer.rs, [spawn_index_batch_producer]: [IndexProducer] (vector keys, source and
    prepared batches, the thread) and [IndexRun], which composes it with [IndexPersist].
  - indexer.rs, [load_rust_doc_includes]: [DocIncludes].
  - indexer/git_state.rs: [GitState], the marker of a clean checkout, with every process and
    file it reads.
  - workspace_file.rs: [ConfinedFiles], the Unix opener as a traced computation.
  - symbols.rs, without a grammar: [SymbolLines], queries, masking and the uses of a name.
  - search_fusion.rs, [fuse_dense_file_order]: [DenseFusion]; the promotion of spans after it
    and the ratios that follow: [SpanPromotion].  Single-precision floats: [F32].

  ** Theorems

  Safety under faults and interleavings: promotion is all or nothing or leaves
  a backup with its marker; a collector removes only what stayed abandoned and is needed by no
  overlay in use; a marker vouches only for an unchanged checkout, for a digest that does not
  collide and ignore files that are text; a replaced worker cannot write, and the record that
  replaced it is lost only when a ledger could not be read; a vector store said to be complete
  is; leases of a workspace exclude each other, no wake-up is
  lost, and requests on several workspaces never deadlock; a watcher loses no change and reports readiness only when caught up; an early
  cancellation is kept; the daemon serves no stale answer; its idle contexts, the budget, the queue and the caches stay in their bounds.
  Refinement and equivalence: token streams against a segmentation, the snapshot
  merge against a set difference, builds across schedules, bounded heaps against
  sorting, incremental statistics against counting, streamed counts and checks against whole files, Boolean trees against set
  semantics.  Completeness: every line of a file is in some chunk, prefilters and filters
  pushed into SQL lose no match, a refill of semantic matches and the lines that use a name
  are exact, file search returns the best files exactly.  Ranking:
  late fusion moves only eligible files among their places, and choosing spans leaves scores,
  files and ratios in place and shows the chunk each promotion asks for.  Bounds: previews and bundles
  stay within token budgets and report their exact estimate.  Round trips: stored chunk text, the
  records of git, glob lists, verified stamps, reconciliation, stored headers.  The remaining theorems give
  the result of an operation on every branch; a few show what the code does not do
  ([late_drop_displaces_lead], [stop_can_miss_worker], [annotated_classes_lose_lines],
  [signature_lost_to_trailing_space], [backticks_drop_candidate_silently],
  [escaped_glob_pushed_down], [dotfile_glob_pushed_down], [ignore_framing_confuses],
  [tied_leader_stays], [qualified_name_undoes_literal_span], [unreadable_ledger_erased]).

  ** Conventions

  - [usize], [u64], [i32] are [Z] or [N] with explicit checks or wrap-around;
    [nat] is used for lengths and offsets of data in memory.  Floating-point
    scores are bit patterns or exact multiples, as each file says; where they are computed
    with, [F32] gives the IEEE operations.
  - Code outside the repository is a parameter: digests, the tree walker's items,
    file-system answers, Git's output, the grammar of queries, glob matching, the
    native header reader, the ranges tree-sitter captures, the parsed form of a regular
    expression, JSON text.  Unicode's lowercase table is a parameter of literal search,
    with what is used of it as the hypothesis [lowercase_table]; a regular expression matches
    without regard to case, with what is used of Unicode's case folding as the hypothesis
    [simple_folding].  The models of a host quantify over a world that may
    change at every call.
  - A loop that is not structural has fuel taken from its input: the length of a
    text for cursor machines, the number of entries for evictions and merges, the
    number of components for [comparable_path], the rows plus one for
    [read_count], the matched prefix for the failure table, the buffer for the decoder,
    the lines for a window of context, the items for dropping items, the pages left for the rows
    of a worker, the keys for their batches, the text for masking and the suffix for qualifiers.
    Running out is a distinct result ([None] or an error) or, as for masking, shown not to
    happen by a lemma on the fuel; the theorems show that the result is reached; for
    [read_count] this is part of the equivalence.
  - Trace events and decision logs exist only in the model.

  ** Not modelled, and the plan

  Not modelled: serialization by serde, logging, error texts, the Windows branches,
  sockets, user interfaces, SQLite and Tantivy themselves, power loss that undoes a commit,
  the graph and symbol tables, neural inference,
  the scores and boosts of ranking, and the queries over tree-sitter trees.  Next: the neural
  worker, which shares the journals and rows of the hash worker;
  the votes and boosts before late fusion. *)
From stdpp Require Export base tactics list list_numbers numbers option strings gmap sorting.
From Stdlib Require Export ZArith NArith Lia.

(** ** Notation scope of the development *)
Declare Scope ivy_scope.
Delimit Scope ivy_scope with ivy.

(** ** Results: [anyhow::Result] and [std::io::Result] *)
Inductive Result (E A : Type) : Type :=
| Ok (a : A)
| Err (e : E).
Arguments Ok {E A} _.
Arguments Err {E A} _.

#[global] Instance result_ret {E} : MRet (Result E) := fun A => Ok.
#[global] Instance result_bind {E} : MBind (Result E) :=
  fun A B f m => match m with Ok a => f a | Err e => Err e end.
#[global] Instance result_fmap {E} : FMap (Result E) :=
  fun A B f m => match m with Ok a => Ok (f a) | Err e => Err e end.

#[global] Instance result_eq_dec {E A} `{EqDecision E} `{EqDecision A} :
  EqDecision (Result E A).
Proof. solve_decision. Defined.

Definition is_ok {E A} (r : Result E A) : bool :=
  match r with Ok _ => true | Err _ => false end.

Definition ok {E A} (r : Result E A) : option A :=
  match r with Ok a => Some a | Err _ => None end.

Definition of_option {E A} (e : E) (o : option A) : Result E A :=
  match o with Some a => Ok a | None => Err e end.

Definition unwrap_or {A} (d : A) (o : option A) : A :=
  match o with Some a => a | None => d end.

Definition is_some {A} (o : option A) : bool :=
  match o with Some _ => true | None => false end.
Definition is_none {A} (o : option A) : bool := negb (is_some o).

(** ** Machine integers: [u64]/[usize] at 64 bits *)
Definition U64_MAX : Z := 2 ^ 64 - 1.
Definition in_u64 (x : Z) : Prop := (0 <= x <= U64_MAX)%Z.
#[global] Instance in_u64_dec x : Decision (in_u64 x).
Proof. unfold in_u64. apply _. Defined.

Definition checked_u64 (x : Z) : option Z :=
  if decide (in_u64 x) then Some x else None.
Definition checked_add (a b : Z) : option Z := checked_u64 (a + b).
Definition checked_sub (a b : Z) : option Z := checked_u64 (a - b).
Definition checked_mul (a b : Z) : option Z := checked_u64 (a * b).
Definition saturating_sub (a b : Z) : Z := Z.max 0 (a - b).
Definition saturating_add (a b : Z) : Z := Z.min U64_MAX (a + b).

(** [to_le_bytes] of a [n]-byte integer, signed or unsigned. *)
Fixpoint to_le_bytes (n : nat) (x : Z) : list N :=
  match n with
  | O => []
  | S n => Z.to_N (x mod 256) :: to_le_bytes n (x / 256)
  end.
(** [from_le_bytes] of an unsigned integer. *)
Fixpoint from_le_bytes (bytes : list N) : Z :=
  match bytes with [] => 0 | b :: bytes => Z.of_N b + 256 * from_le_bytes bytes end.

(** ** Tactics *)

(** Case analysis on the boolean tests and matches of a goal or hypothesis. *)
Ltac cases :=
  repeat (case_match || case_decide || case_bool_decide); simplify_eq/=.

(** Boolean comparisons to propositions, in every hypothesis and the goal. *)
Ltac bool_to_prop :=
  repeat match goal with
  | H : andb _ _ = true |- _ => apply andb_true_iff in H as [? ?]
  | H : andb _ _ = false |- _ => apply andb_false_iff in H
  | H : orb _ _ = true |- _ => apply orb_true_iff in H
  | H : orb _ _ = false |- _ => apply orb_false_iff in H as [? ?]
  | H : negb _ = true |- _ => apply negb_true_iff in H
  | H : negb _ = false |- _ => apply negb_false_iff in H
  | H : N.eqb _ _ = true |- _ => apply N.eqb_eq in H
  | H : N.eqb _ _ = false |- _ => apply N.eqb_neq in H
  | H : N.leb _ _ = true |- _ => apply N.leb_le in H
  | H : N.leb _ _ = false |- _ => apply N.leb_gt in H
  | H : N.ltb _ _ = true |- _ => apply N.ltb_lt in H
  | H : N.ltb _ _ = false |- _ => apply N.ltb_ge in H
  | H : Nat.eqb _ _ = true |- _ => apply Nat.eqb_eq in H
  | H : Nat.eqb _ _ = false |- _ => apply Nat.eqb_neq in H
  | H : Nat.leb _ _ = true |- _ => apply Nat.leb_le in H
  | H : Nat.leb _ _ = false |- _ => apply Nat.leb_gt in H
  | H : Nat.ltb _ _ = true |- _ => apply Nat.ltb_lt in H
  | H : Nat.ltb _ _ = false |- _ => apply Nat.ltb_ge in H
  | H : Z.eqb _ _ = true |- _ => apply Z.eqb_eq in H
  | H : Z.eqb _ _ = false |- _ => apply Z.eqb_neq in H
  | H : Z.leb _ _ = true |- _ => apply Z.leb_le in H
  | H : Z.leb _ _ = false |- _ => apply Z.leb_gt in H
  | H : Z.ltb _ _ = true |- _ => apply Z.ltb_lt in H
  | H : Z.ltb _ _ = false |- _ => apply Z.ltb_ge in H
  end.

(** ** Generic lemmas *)

Create HintDb ivy.
Create Rewrite HintDb ivy.

Lemma checked_u64_Some x y : checked_u64 x = Some y <-> y = x /\ in_u64 x.
Proof. unfold checked_u64. case_decide; naive_solver. Qed.

Lemma checked_u64_in x : in_u64 x -> checked_u64 x = Some x.
Proof. intros. by apply checked_u64_Some. Qed.

Lemma bind_Ok {E A B} (m : Result E A) (f : A -> Result E B) b :
  m ≫= f = Ok b <-> exists a, m = Ok a /\ f a = Ok b.
Proof. destruct m; naive_solver. Qed.

Lemma fold_left_inv {A B} (P : A -> Prop) (f : A -> B -> A) l a :
  P a -> (forall a b, b ∈ l -> P a -> P (f a b)) -> P (foldl f a l).
Proof.
  revert a. induction l as [|b l IH]; intros a Ha Hf; simpl; [done|].
  apply IH; [apply Hf; [left|done] | intros; apply Hf; [by right|done]].
Qed.

Lemma Forall_filter_keep {A} (P Q : A -> Prop) `{forall x, Decision (Q x)} l : Forall P l -> Forall P (filter Q l).
Proof. rewrite !Forall_forall. intros HP x [_ Hx]%list_elem_of_filter. by apply HP. Qed.

Lemma filter_sorted {A} (R : relation A) (P : A -> Prop) `{forall x, Decision (P x)} l :
  StronglySorted R l -> StronglySorted R (filter P l).
Proof.
  induction 1 as [|x l Hs IH Hx]; [constructor|]. rewrite filter_cons. case_decide; [|done].
  constructor; [done|]. by apply Forall_filter_keep.
Qed.
Lemma filter_none {A} (P : A -> Prop) `{forall x, Decision (P x)} l : Forall (fun x => ~ P x) l -> filter P l = [].
Proof. induction 1 as [|x l Hx Hl IH]; [done|]. by rewrite filter_cons, decide_False. Qed.
Lemma filter_all {A} (P : A -> Prop) `{forall x, Decision (P x)} l : Forall P l -> filter P l = l.
Proof. induction 1 as [|x l Hx Hl IH]; [done|]. by rewrite filter_cons, decide_True, IH. Qed.

#[export] Hint Resolve checked_u64_in : ivy.

(** ** Stable sorting: [sort_by] and its variants *)

Fixpoint insert_by {A} (leb : A -> A -> bool) (x : A) (l : list A) : list A :=
  match l with
  | [] => [x]
  | y :: l' => if leb x y then x :: l else y :: insert_by leb x l'
  end.
Definition sort_by {A} (leb : A -> A -> bool) (l : list A) : list A := foldr (insert_by leb) [] l.

Section SortBy.
Context {A : Type} (leb : A -> A -> bool).

Lemma insert_by_perm x l : insert_by leb x l ≡ₚ x :: l.
Proof.
  induction l as [|y l IH]; [done|]. cbn [insert_by]. destruct (leb x y); [done|].
  rewrite IH. apply Permutation_swap.
Qed.
Lemma sort_by_perm l : sort_by leb l ≡ₚ l.
Proof. induction l as [|x l IH]; [done|]. cbn [sort_by foldr]. rewrite insert_by_perm. by f_equiv. Qed.

Context (Htotal : forall a b, leb a b = true \/ leb b a = true).
Context (Htrans : forall a b c, leb a b = true -> leb b c = true -> leb a c = true).
Notation sorted := (StronglySorted (fun a b => leb a b = true)).

Lemma insert_by_sorted x l : sorted l -> sorted (insert_by leb x l).
Proof using Htotal Htrans.
  induction 1 as [|y l Hs IH Hy]; [by repeat constructor|]. cbn [insert_by].
  destruct (leb x y) eqn:E.
  - repeat constructor; try done. eapply Forall_impl; [exact Hy|]. cbn. intros z Hz. by eapply Htrans.
  - constructor; [done|]. rewrite insert_by_perm. constructor; [|done].
    destruct (Htotal x y) as [H|H]; [congruence|done].
Qed.
Lemma sort_by_sorted l : sorted (sort_by leb l).
Proof using Htotal Htrans. induction l as [|x l IH]; [constructor|by apply insert_by_sorted]. Qed.
End SortBy.

Lemma StronglySorted_impl {A} (R S : relation A) l :
  (forall a b, R a b -> S a b) -> StronglySorted R l -> StronglySorted S l.
Proof. intros H. induction 1 as [|x l Hs IH Hx]; constructor; [done|]. eapply Forall_impl; eauto. Qed.
Lemma sorted_lookup {A} (R : relation A) l i j x y :
  StronglySorted R l -> l !! i = Some x -> l !! j = Some y -> i < j -> R x y.
Proof.
  intros Hs. revert i j. induction Hs as [|z l Hs IH Hz]; intros i j Hi Hj Hlt; [done|].
  destruct j as [|j]; [lia|]. destruct i as [|i]; cbn in Hi, Hj.
  - injection Hi as ->. rewrite Forall_forall in Hz. apply Hz. by eapply list_elem_of_lookup_2.
  - apply (IH i j Hi Hj). lia.
Qed.

(** ** Infixes *)

Definition infix {A} (p s : list A) : Prop := exists a b, s = a ++ p ++ b.
Lemma infix_refl {A} (s : list A) : infix s s.
Proof. exists [], []. by rewrite app_nil_r. Qed.
Lemma infix_trans {A} (p q s : list A) : infix p q -> infix q s -> infix p s.
Proof. intros (a & b & ->) (c & d & ->). exists (c ++ a), (b ++ d). by rewrite <- !app_assoc. Qed.
Lemma infix_app_l {A} (p s t : list A) : infix p s -> infix p (s ++ t).
Proof. intros (a & b & ->). exists a, (b ++ t). by rewrite <- !app_assoc. Qed.
Lemma infix_app_r {A} (p s t : list A) : infix p t -> infix p (s ++ t).
Proof. intros (a & b & ->). exists (s ++ a), b. by rewrite <- !app_assoc. Qed.
