(* ===== verification/Utf8.v ===== *)
(** * Rust strings and characters.

  A [char] is a Unicode scalar value, a [str] the list of its characters.
  [bytes] is its UTF-8 encoding; byte offsets and slices are computed from the
  encoded lengths, and a slice off a character boundary is [None] where the
  Rust code panics. *)
From S2P Require Import Prelude.

Abbreviation char := N.
Abbreviation str := (list N).

Definition len_utf8 (c : char) : nat :=
  if (c <? 0x80)%N then 1
  else if (c <? 0x800)%N then 2
  else if (c <? 0x10000)%N then 3 else 4.

(** Bytes of one character. *)
Definition encode_utf8 (c : char) : list N :=
  if (c <? 0x80)%N then [c]
  else if (c <? 0x800)%N then [0xC0 + c / 0x40; 0x80 + c mod 0x40]%N
  else if (c <? 0x10000)%N then
    [0xE0 + c / 0x1000; 0x80 + c / 0x40 mod 0x40; 0x80 + c mod 0x40]%N
  else
    [0xF0 + c / 0x40000; 0x80 + c / 0x1000 mod 0x40;
     0x80 + c / 0x40 mod 0x40; 0x80 + c mod 0x40]%N.

Definition bytes (s : str) : list N := s ≫= encode_utf8.

(** [str::len]: the number of bytes. *)
Fixpoint blen (s : str) : nat :=
  match s with [] => 0 | c :: s' => len_utf8 c + blen s' end.

(** [s[n..]] and [s[..n]]. *)
Fixpoint drop_bytes (n : nat) (s : str) : option str :=
  match n with
  | 0 => Some s
  | _ =>
    match s with
    | [] => None
    | c :: s' => if len_utf8 c <=? n then drop_bytes (n - len_utf8 c) s' else None
    end
  end.

Fixpoint take_bytes (n : nat) (s : str) : option str :=
  match n with
  | 0 => Some []
  | _ =>
    match s with
    | [] => None
    | c :: s' =>
      if len_utf8 c <=? n then cons c <$> take_bytes (n - len_utf8 c) s' else None
    end
  end.

(** [s[from..to]]. *)
Definition slice (s : str) (from to : nat) : option str :=
  if from <=? to then drop_bytes from s ≫= take_bytes (to - from) else None.

(** [str::char_indices], from a starting offset. *)
Fixpoint char_indices (off : nat) (s : str) : list (nat * char) :=
  match s with
  | [] => []
  | c :: s' => (off, c) :: char_indices (off + len_utf8 c) s'
  end.

(** ASCII classes ([u8::is_ascii_*] and [char::is_ascii_*] agree). *)
Definition between (lo hi c : N) : bool := ((lo <=? c) && (c <=? hi))%N.
Definition is_ascii (c : char) : bool := (c <? 0x80)%N.
Definition is_ascii_lowercase (c : char) : bool := between 97 122 c.
Definition is_ascii_uppercase (c : char) : bool := between 65 90 c.
Definition is_ascii_digit (c : char) : bool := between 48 57 c.
Definition is_ascii_alphabetic (c : char) : bool :=
  is_ascii_lowercase c || is_ascii_uppercase c.
Definition is_ascii_alphanumeric (c : char) : bool :=
  is_ascii_alphabetic c || is_ascii_digit c.
(** [u8::is_ascii_whitespace]: space, tab, LF, FF, CR. *)
Definition is_ascii_whitespace (c : N) : bool :=
  (c =? 32)%N || (c =? 9)%N || (c =? 10)%N || (c =? 12)%N || (c =? 13)%N.
Definition to_ascii_lowercase (c : char) : char :=
  if is_ascii_uppercase c then (c + 32)%N else c.

(** [char::is_whitespace]: the Unicode property White_Space. *)
Definition is_whitespace (c : char) : bool :=
  between 9 13 c || (c =? 0x20)%N || (c =? 0x85)%N || (c =? 0xA0)%N ||
  (c =? 0x1680)%N || between 0x2000 0x200A c || (c =? 0x2028)%N ||
  (c =? 0x2029)%N || (c =? 0x202F)%N || (c =? 0x205F)%N || (c =? 0x3000)%N.

(** Literals: a string of ASCII characters, and its first one. *)
Fixpoint lit (s : string) : str :=
  match s with
  | EmptyString => []
  | String a s' => Ascii.N_of_ascii a :: lit s'
  end.
Definition chr (s : string) : char := hd 0%N (lit s).
Definition of_str (s : str) : string :=
  fold_right (fun c r => String (Ascii.ascii_of_N c) r) EmptyString s.

(** [strip_prefix], [starts_with], [ends_with], [contains]. *)
Fixpoint strip_prefix (p s : str) : option str :=
  match p, s with
  | [], _ => Some s
  | x :: p', c :: s' => if (x =? c)%N then strip_prefix p' s' else None
  | _ :: _, [] => None
  end.
Definition starts_with (p s : str) : bool :=
  match strip_prefix p s with Some _ => true | None => false end.
Definition strip_suffix (p s : str) : option str :=
  reverse <$> strip_prefix (reverse p) (reverse s).
Definition ends_with (p s : str) : bool := starts_with (reverse p) (reverse s).
Fixpoint contains (p s : str) : bool :=
  starts_with p s || match s with [] => false | _ :: s' => contains p s' end.

(** [str::split_once] of a character. *)
Fixpoint split_once (sep : char) (s : str) : option (str * str) :=
  match s with
  | [] => None
  | c :: s' =>
    if (c =? sep)%N then Some ([], s') else '(a, b) ← split_once sep s'; Some (c :: a, b)
  end.

(** [str::split] by a predicate. *)
Fixpoint split_where (f : char -> bool) (s : str) : list str :=
  match s with
  | [] => [[]]
  | c :: s' =>
    if f c then [] :: split_where f s'
    else match split_where f s' with
         | [] => [[c]]
         | w :: ws => (c :: w) :: ws
         end
  end.

(** Trimming. *)
Fixpoint drop_while {A} (f : A -> bool) (l : list A) : list A :=
  match l with
  | [] => []
  | x :: l' => if f x then drop_while f l' else l
  end.
Fixpoint take_while {A} (f : A -> bool) (l : list A) : list A :=
  match l with
  | [] => []
  | x :: l' => if f x then x :: take_while f l' else []
  end.
Definition trim_start (s : str) : str := drop_while is_whitespace s.
Definition trim_end (s : str) : str := reverse (drop_while is_whitespace (reverse s)).
Definition trim (s : str) : str := trim_end (trim_start s).

(** [str::to_ascii_lowercase], [to_ascii_uppercase], [eq_ignore_ascii_case]. *)
Definition to_ascii_uppercase (c : char) : char :=
  if is_ascii_lowercase c then (c - 32)%N else c.
Definition ascii_lower : str -> str := map to_ascii_lowercase.
Definition ascii_upper : str -> str := map to_ascii_uppercase.
Definition eq_ignore_ascii_case (a b : str) : bool := bool_decide (ascii_lower a = ascii_lower b).

(** [str::split_whitespace]: the words, with the one being read before [w]. *)
Fixpoint split_whitespace_loop (s : str) (w : str) : list str :=
  match s with
  | [] => if decide (w = []) then [] else [w]
  | c :: s' =>
    if is_whitespace c then
      if decide (w = []) then split_whitespace_loop s' []
      else w :: split_whitespace_loop s' []
    else split_whitespace_loop s' (w ++ [c])
  end.
Definition split_whitespace (s : str) : list str := split_whitespace_loop s [].

(** [[String]::join]. *)
Fixpoint join (sep : str) (l : list str) : str :=
  match l with
  | [] => []
  | [s] => s
  | s :: l' => s ++ sep ++ join sep l'
  end.

(** [str::lines]: a line break is [\n] or [\r\n]; [w] is the line being read. *)
Definition strip_cr (w : str) : str := unwrap_or w (strip_suffix [13%N] w).
Fixpoint lines_loop (s : str) (w : str) : list str :=
  match s with
  | [] => if decide (w = []) then [] else [w]
  | c :: s' => if (c =? 10)%N then strip_cr w :: lines_loop s' [] else lines_loop s' (w ++ [c])
  end.
Definition str_lines (s : str) : list str := lines_loop s [].

(** ** Lemmas *)

Lemma len_utf8_pos c : 0 < len_utf8 c.
Proof. unfold len_utf8. cases; lia. Qed.

Lemma length_encode c : length (encode_utf8 c) = len_utf8 c.
Proof. unfold encode_utf8, len_utf8. by cases. Qed.

Lemma length_bytes s : length (bytes s) = blen s.
Proof.
  induction s as [|c s IH]; [done|].
  change (bytes (c :: s)) with (encode_utf8 c ++ bytes s).
  by rewrite length_app, length_encode, IH.
Qed.

Lemma blen_app s1 s2 : blen (s1 ++ s2) = blen s1 + blen s2.
Proof. induction s1 as [|c s1 IH]; simpl; [done|]. rewrite IH. lia. Qed.

Lemma bytes_app s1 s2 : bytes (s1 ++ s2) = bytes s1 ++ bytes s2.
Proof. unfold bytes. apply bind_app. Qed.

Lemma blen_nil_inv s : blen s = 0 -> s = [].
Proof. destruct s as [|c s]; [done|]. simpl. pose proof (len_utf8_pos c). lia. Qed.

Lemma drop_bytes_app s1 s2 : drop_bytes (blen s1) (s1 ++ s2) = Some s2.
Proof.
  induction s1 as [|c s1 IH]; simpl.
  - by destruct s2.
  - pose proof (len_utf8_pos c).
    destruct (len_utf8 c + blen s1) eqn:E; [lia|]. rewrite <- E.
    rewrite (proj2 (Nat.leb_le _ _)) by lia.
    by replace (len_utf8 c + blen s1 - len_utf8 c) with (blen s1) by lia.
Qed.

Lemma drop_bytes_Some n s r :
  drop_bytes n s = Some r -> exists p, s = p ++ r /\ blen p = n.
Proof.
  revert n. induction s as [|c s IH]; intros [|n] H; simpl in H; simplify_eq/=.
  - by exists [].
  - by exists [].
  - case_match; [|done]. bool_to_prop.
    apply IH in H as (p & -> & Hp). exists (c :: p). simpl. split; [done|lia].
Qed.

Lemma take_bytes_app s1 s2 : take_bytes (blen s1) (s1 ++ s2) = Some s1.
Proof.
  induction s1 as [|c s1 IH]; simpl; [by destruct s2|].
  pose proof (len_utf8_pos c).
  destruct (len_utf8 c + blen s1) eqn:E; [lia|]. rewrite <- E.
  rewrite (proj2 (Nat.leb_le _ _)) by lia.
  replace (len_utf8 c + blen s1 - len_utf8 c) with (blen s1) by lia.
  by rewrite IH.
Qed.

Lemma slice_app s1 s2 s3 :
  slice (s1 ++ s2 ++ s3) (blen s1) (blen s1 + blen s2) = Some s2.
Proof.
  unfold slice. rewrite (proj2 (Nat.leb_le _ _)) by lia.
  rewrite drop_bytes_app. simpl.
  replace (blen s1 + blen s2 - blen s1) with (blen s2) by lia.
  apply take_bytes_app.
Qed.

Lemma char_indices_app off s1 s2 :
  char_indices off (s1 ++ s2) = char_indices off s1 ++ char_indices (off + blen s1) s2.
Proof.
  revert off. induction s1 as [|c s1 IH]; intros off; simpl.
  - by rewrite Nat.add_0_r.
  - rewrite IH. by rewrite Nat.add_assoc.
Qed.

Lemma len_utf8_ascii c : is_ascii c = true -> len_utf8 c = 1.
Proof. unfold is_ascii, len_utf8. by intros ->. Qed.

Lemma drop_while_split {A} (f : A -> bool) l :
  l = take_while f l ++ drop_while f l.
Proof. induction l as [|x l IH]; simpl; [done|]. case_match; simpl; congruence. Qed.

Lemma take_while_all {A} (f : A -> bool) l : Forall (fun x => f x = true) (take_while f l).
Proof. induction l; simpl; [done|]. case_match; by constructor. Qed.

#[export] Hint Resolve len_utf8_pos : ivy.
#[export] Hint Rewrite length_encode length_bytes blen_app : ivy.

Lemma split_once_app (sep : char) a b : sep ∉ a -> split_once sep (a ++ [sep] ++ b) = Some (a, b).
Proof.
  induction a as [|c a IH]; intros H.
  - cbn [app split_once]. by rewrite N.eqb_refl.
  - apply not_elem_of_cons in H as [Hc Ha]. cbn [app split_once]. destruct (N.eqb_spec c sep); [congruence|].
    cbn [app] in IH. by rewrite IH.
Qed.
Lemma strip_prefix_app p s : strip_prefix p (p ++ s) = Some s.
Proof. induction p as [|c p IH]; [done|]. cbn [app strip_prefix]. by rewrite N.eqb_refl. Qed.
Lemma starts_with_app p s : starts_with p (p ++ s) = true.
Proof. unfold starts_with. by rewrite strip_prefix_app. Qed.
Lemma strip_prefix_Some p s r : strip_prefix p s = Some r -> s = p ++ r.
Proof.
  revert s. induction p as [|c p IH]; intros s H; [injection H as ->; done|].
  destruct s as [|x s]; [done|]. cbn [strip_prefix] in H. destruct (N.eqb_spec c x) as [->|]; [|done].
  cbn [app]. f_equal. by apply IH.
Qed.

(** ** Substrings, and ASCII characters among the bytes *)

Lemma starts_with_spec p s : starts_with p s = true <-> exists r, s = p ++ r.
Proof.
  unfold starts_with. split.
  - destruct (strip_prefix p s) as [r|] eqn:E; [|done]. intros _. exists r. by apply strip_prefix_Some.
  - intros (r & ->). by rewrite strip_prefix_app.
Qed.
Lemma contains_spec p s : contains p s = true <-> infix p s.
Proof.
  induction s as [|c s IH]; cbn [contains]; rewrite orb_true_iff, starts_with_spec.
  - split; [intros [(r & H)|[=]]|intros (a & b & H)].
    + exists [], r. done.
    + left. exists b. destruct a; [done|discriminate].
  - rewrite IH. split.
    + intros [(r & H)|H]; [by exists [], r|]. by apply (infix_app_r _ [c]).
    + intros ([|x a] & b & H); [left; by exists b|right]. injection H as -> H. by exists a, b.
Qed.

Lemma encoded_ascii c b : b ∈ encode_utf8 c -> (b < 0x80)%N -> is_ascii c = true /\ b = c.
Proof.
  unfold encode_utf8, is_ascii. destruct (N.ltb_spec c 0x80) as [Hc|Hc].
  { by intros ->%list_elem_of_singleton. }
  intros H Hb. exfalso. revert H. repeat case_match; rewrite !elem_of_cons, elem_of_nil; intros Hin;
    repeat destruct Hin as [Hin|Hin]; try done; subst b; revert Hb;
    match goal with |- (_ + ?x < _)%N -> _ => generalize x end; lia.
Qed.

(** An ASCII byte is a character of its own. *)
Lemma bytes_ascii_split s : forall pre b post,
  bytes s = pre ++ b :: post -> (b < 0x80)%N ->
  exists p q, s = p ++ b :: q /\ bytes p = pre /\ bytes q = post.
Proof.
  induction s as [|c s IH]; intros pre b post H Hb; [by destruct pre|].
  change (bytes (c :: s)) with (encode_utf8 c ++ bytes s) in H.
  apply app_eq_inv in H as [(k & Hk & Hs)|(k & -> & Hs)].
  - destruct k as [|x k]; cbn [app] in Hs.
    + rewrite app_nil_r in Hk. destruct (IH [] b post) as (p & q & -> & Hp & Hq); [by rewrite <- Hs|done|].
      exists (c :: p), q. split_and!; [done| |done]. change (bytes (c :: p)) with (encode_utf8 c ++ bytes p).
      by rewrite Hp, app_nil_r.
    + injection Hs as <- Hs. destruct (encoded_ascii c b) as [Hc ->]; [rewrite Hk; apply elem_of_app; right; left|done|].
      exists [], s. unfold encode_utf8 in Hk. unfold is_ascii in Hc. rewrite Hc in Hk.
      destruct pre as [|y pre]; [|destruct pre; discriminate]. injection Hk as <-. done.
  - destruct (IH k b post Hs Hb) as (p & q & -> & Hp & Hq). exists (c :: p), q. split_and!; [done| |done].
    change (bytes (c :: p)) with (encode_utf8 c ++ bytes p). by rewrite Hp.
Qed.
Lemma bytes_ascii_run run : forall s pre post,
  bytes s = pre ++ run ++ post -> Forall (fun b => (b < 0x80)%N) run -> run <> [] ->
  exists p q, s = p ++ run ++ q /\ bytes p = pre /\ bytes q = post.
Proof.
  induction run as [|b run IH]; intros s pre post H Hall Hne; [done|].
  apply Forall_cons in Hall as [Hb Hall]. cbn [app] in H.
  destruct (bytes_ascii_split s _ _ _ H Hb) as (p & q & -> & Hp & Hq).
  destruct run as [|b' run]; [by exists p, q|].
  destruct (IH q [] post Hq Hall ltac:(done)) as (p' & q' & -> & Hp' & Hq').
  assert (p' = []) as -> by (apply blen_nil_inv; rewrite <- length_bytes, Hp'; done).
  exists p, q'. done.
Qed.
Lemma ascii_bytes s : Forall (fun b => (b < 0x80)%N) s -> bytes s = s.
Proof.
  induction 1 as [|c s Hc _ IH]; [done|]. change (bytes (c :: s)) with (encode_utf8 c ++ bytes s).
  unfold encode_utf8. rewrite (proj2 (N.ltb_lt _ _)) by done. by rewrite IH.
Qed.
Lemma strip_cr_infix w : infix (strip_cr w) w.
Proof.
  unfold strip_cr, strip_suffix, unwrap_or. destruct (strip_prefix _ _) as [r|] eqn:E; [|apply infix_refl].
  cbn [fmap option_fmap option_map]. apply strip_prefix_Some in E. exists [], [13%N].
  rewrite <- (reverse_involutive w), E, reverse_app. done.
Qed.

Lemma lines_loop_plain x s : 10%N ∉ x -> forall w, lines_loop (x ++ s) w = lines_loop s (w ++ x).
Proof.
  induction x as [|c x IH]; intros H w; [by rewrite app_nil_r|].
  apply not_elem_of_cons in H as [Hc Hx]. cbn [app lines_loop].
  rewrite (proj2 (N.eqb_neq c 10)) by congruence. rewrite IH by done. by rewrite <- app_assoc.
Qed.

Lemma strip_suffix_snoc s c d :
  strip_suffix [c] (s ++ [d]) = if (c =? d)%N then Some s else None.
Proof.
  unfold strip_suffix. rewrite reverse_snoc. simpl. destruct (c =? d)%N; [|done].
  simpl. by rewrite reverse_involutive.
Qed.

Lemma strip_suffix_none s c : c ∉ s -> strip_suffix [c] s = None.
Proof.
  intros Hn. destruct s as [|d s _] using rev_ind; [done|]. rewrite strip_suffix_snoc.
  destruct (N.eqb_spec c d) as [->|]; [|done]. destruct Hn. set_solver.
Qed.
