(* ===== verification/BTree.v ===== *)
(** * Ordered maps: Rust's [BTreeMap].

  A map is its entries in key order, so iteration, ranges and the order of a
  fold are the ones the code sees.  The order of the keys is the interface
  [OrdKey]; byte strings and integers implement it. *)
From S2P Require Import Prelude.

Class OrdKey (K : Type) := {
  kcmp : K -> K -> comparison;
  kcmp_eq a b : kcmp a b = Eq <-> a = b;
  kcmp_sym a b : kcmp b a = CompOpp (kcmp a b);
  kcmp_trans a b c : kcmp a b = Lt -> kcmp b c = Lt -> kcmp a c = Lt;
}.

Definition klt {K} `{OrdKey K} (a b : K) : Prop := kcmp a b = Lt.

Lemma kcmp_refl {K} `{OrdKey K} (a : K) : kcmp a a = Eq.
Proof. by apply kcmp_eq. Qed.

Lemma kcmp_Gt {K} `{OrdKey K} (a b : K) : kcmp a b = Gt <-> kcmp b a = Lt.
Proof. rewrite (kcmp_sym a b). destruct (kcmp a b); simpl; naive_solver. Qed.

#[export] Instance klt_irrefl {K} `{OrdKey K} : Irreflexive (klt (K := K)).
Proof. intros a H1. unfold klt in H1. by rewrite kcmp_refl in H1. Qed.

#[export] Instance klt_trans {K} `{OrdKey K} : Transitive (klt (K := K)).
Proof. intros a b c. apply kcmp_trans. Qed.

#[export] Instance N_OrdKey : OrdKey N.
Proof.
  refine {| kcmp := N.compare |}.
  - apply N.compare_eq_iff.
  - intros a b. apply N.compare_antisym.
  - intros a b c. rewrite !N.compare_lt_iff. lia.
Defined.

(** Lexicographic order: the order of [str], [String] and byte slices. *)
Fixpoint lex (a b : list N) : comparison :=
  match a, b with
  | [], [] => Eq
  | [], _ => Lt
  | _, [] => Gt
  | x :: a', y :: b' => match N.compare x y with Eq => lex a' b' | c => c end
  end.

#[export] Instance bytes_OrdKey : OrdKey (list N).
Proof.
  refine {| kcmp := lex |}.
  - induction a as [|x a IH]; intros [|y b]; simpl; try done.
    destruct (N.compare_spec x y); simplify_eq/=; [|naive_solver lia..].
    rewrite IH. naive_solver.
  - induction a as [|x a IH]; intros [|y b]; simpl; try done.
    rewrite (N.compare_antisym x y). destruct (N.compare x y); simpl; [apply IH|done..].
  - induction a as [|x a IH]; intros [|y b] [|z c]; simpl; try done.
    destruct (N.compare_spec x y), (N.compare_spec y z), (N.compare_spec x z);
      subst; try done; try lia; eauto.
Defined.

(** Lists of keys, lexicographically; not an instance, since byte strings have one. *)
Fixpoint lex_by {K} (cmp : K -> K -> comparison) (a b : list K) : comparison :=
  match a, b with
  | [], [] => Eq
  | [], _ => Lt
  | _, [] => Gt
  | x :: a', y :: b' => match cmp x y with Eq => lex_by cmp a' b' | c => c end
  end.
Definition list_OrdKey {K} (O : OrdKey K) : OrdKey (list K).
Proof.
  refine {| kcmp := lex_by kcmp |}.
  - induction a as [|x a IH]; intros [|y b]; simpl; try done.
    destruct (kcmp x y) eqn:E; [apply kcmp_eq in E as ->; rewrite IH; naive_solver|..];
      (split; [done|]); intros [= -> ->]; rewrite (proj2 (kcmp_eq _ _) eq_refl) in E; done.
  - induction a as [|x a IH]; intros [|y b]; simpl; try done.
    rewrite (kcmp_sym x y). destruct (kcmp x y); simpl; [apply IH|done..].
  - induction a as [|x a IH]; intros [|y b] [|z c]; simpl; try done.
    destruct (kcmp x y) eqn:E1; [| |done]; destruct (kcmp y z) eqn:E2; try done; intros H1 H2.
    + apply kcmp_eq in E1 as ->. rewrite E2. by eapply IH.
    + apply kcmp_eq in E1 as ->. by rewrite E2.
    + apply kcmp_eq in E2 as <-. by rewrite E1.
    + by rewrite (kcmp_trans _ _ _ E1 E2).
Defined.

#[global] Arguments kcmp {K OrdKey} a b : simpl never.

Section Map.
Context {K V : Type} `{OrdKey K}.

Fixpoint bt_get (k : K) (m : list (K * V)) : option V :=
  match m with
  | [] => None
  | (k', v) :: m' =>
    match kcmp k k' with Eq => Some v | _ => bt_get k m' end
  end.

Fixpoint bt_insert (k : K) (v : V) (m : list (K * V)) : list (K * V) :=
  match m with
  | [] => [(k, v)]
  | (k', v') :: m' =>
    match kcmp k k' with
    | Lt => (k, v) :: m
    | Eq => (k, v) :: m'
    | Gt => (k', v') :: bt_insert k v m'
    end
  end.

Fixpoint bt_remove (k : K) (m : list (K * V)) : list (K * V) :=
  match m with
  | [] => []
  | (k', v') :: m' =>
    match kcmp k k' with Eq => m' | _ => (k', v') :: bt_remove k m' end
  end.

(** [range(k..)]. *)
Fixpoint bt_range_from (k : K) (m : list (K * V)) : list (K * V) :=
  match m with
  | [] => []
  | (k', _) :: m' => match kcmp k' k with Lt => bt_range_from k m' | _ => m end
  end.

Definition bt_of_list (l : list (K * V)) : list (K * V) :=
  foldl (fun m kv => bt_insert (fst kv) (snd kv) m) [] l.

(** The invariant of a [BTreeMap]. *)
Definition bt_wf (m : list (K * V)) : Prop := StronglySorted klt (map fst m).

Lemma bt_wf_cons k v m : bt_wf ((k, v) :: m) <-> Forall (klt k) (map fst m) /\ bt_wf m.
Proof. unfold bt_wf. simpl. split; [by inversion 1|intros []; by constructor]. Qed.

Lemma bt_get_lt k (m : list (K * V)) : Forall (klt k) (map fst m) -> bt_get k m = None.
Proof.
  induction m as [|[k' v'] m IH]; simpl; [done|]. intros [Hk Hf]%Forall_cons.
  unfold klt in Hk. rewrite Hk. by apply IH.
Qed.

Lemma Forall_klt_trans k k' (m : list (K * V)) : klt k k' -> Forall (klt k') (map fst m) -> Forall (klt k) (map fst m).
Proof. intros Hk Hf. eapply Forall_impl; [exact Hf|]. intros x Hx. by etrans. Qed.

Lemma bt_key_lt k (m : list (K * V)) kv :
  Forall (klt k) (map fst m) -> kv ∈ m -> klt k (fst kv).
Proof. intros Hf Hin. eapply Forall_forall in Hf; [exact Hf|]. by apply list_elem_of_fmap_2. Qed.

Lemma bt_get_In k v m : bt_wf m -> bt_get k m = Some v <-> (k, v) ∈ m.
Proof.
  induction m as [|[k' v'] m IH]; simpl.
  - intros _. split; [done|]. by intros ?%not_elem_of_nil.
  - intros [Hf Hwf]%bt_wf_cons. rewrite elem_of_cons.
    destruct (kcmp k k') eqn:E.
    + apply kcmp_eq in E. subst k'. split; [intros [= <-]; by left|].
      intros [[= <-]|Hin]; [done|]. exfalso.
      apply (list_elem_of_fmap_2 fst) in Hin. eapply Forall_forall in Hf; [|exact Hin].
      by apply (irreflexivity klt) in Hf.
    + rewrite IH by done. split; [by right|]. intros [[= -> ->]|]; [|done].
      by rewrite kcmp_refl in E.
    + rewrite IH by done. split; [by right|]. intros [[= -> ->]|]; [|done].
      by rewrite kcmp_refl in E.
Qed.

Lemma bt_get_insert k v m j :
  bt_get j (bt_insert k v m) = if kcmp j k is Eq then Some v else bt_get j m.
Proof.
  induction m as [|[k' v'] m IH]; simpl; [done|].
  destruct (kcmp k k') eqn:E; simpl.
  - apply kcmp_eq in E. subst k'. by destruct (kcmp j k).
  - done.
  - rewrite IH. destruct (kcmp j k') eqn:Ej; try done.
    apply kcmp_eq in Ej. subst k'. rewrite kcmp_sym, E. done.
Qed.

Lemma bt_get_insert_eq k v m : bt_get k (bt_insert k v m) = Some v.
Proof. by rewrite bt_get_insert, kcmp_refl. Qed.

Lemma bt_get_insert_ne j k v m : j <> k -> bt_get j (bt_insert k v m) = bt_get j m.
Proof.
  intros Hne. rewrite bt_get_insert. destruct (kcmp j k) eqn:E; try done.
  by apply kcmp_eq in E.
Qed.

Lemma bt_get_remove k m j :
  bt_wf m -> bt_get j (bt_remove k m) = if kcmp j k is Eq then None else bt_get j m.
Proof.
  induction m as [|[k' v'] m IH]; simpl; [by destruct (kcmp j k)|].
  intros [Hf Hwf]%bt_wf_cons. destruct (kcmp k k') eqn:E; simpl.
  - apply kcmp_eq in E. subst k'. destruct (kcmp j k) eqn:Ej; try done.
    apply kcmp_eq in Ej. subst k. by apply bt_get_lt.
  - rewrite IH by done. destruct (kcmp j k') eqn:Ej; try done.
    apply kcmp_eq in Ej. subst k'. by rewrite kcmp_sym, E.
  - rewrite IH by done. destruct (kcmp j k') eqn:Ej; try done.
    apply kcmp_eq in Ej. subst k'. by rewrite kcmp_sym, E.
Qed.

Lemma bt_get_remove_eq k m : bt_wf m -> bt_get k (bt_remove k m) = None.
Proof. intros. by rewrite bt_get_remove, kcmp_refl. Qed.

Lemma bt_get_remove_ne j k m : bt_wf m -> j <> k -> bt_get j (bt_remove k m) = bt_get j m.
Proof.
  intros Hwf Hne. rewrite bt_get_remove by done. destruct (kcmp j k) eqn:E; try done.
  by apply kcmp_eq in E.
Qed.

Lemma bt_insert_keys k v m x : x ∈ map fst (bt_insert k v m) -> x = k \/ x ∈ map fst m.
Proof.
  induction m as [|[k' v'] m IH]; simpl; [set_solver|].
  destruct (kcmp k k'); simpl; set_solver.
Qed.

Lemma bt_remove_keys k m x : x ∈ map fst (bt_remove k m) -> x ∈ map fst m.
Proof.
  induction m as [|[k' v'] m IH]; simpl; [done|].
  destruct (kcmp k k'); simpl; set_solver.
Qed.

Lemma bt_insert_wf k v m : bt_wf m -> bt_wf (bt_insert k v m).
Proof.
  induction m as [|[k' v'] m IH]; simpl.
  - intros _. apply bt_wf_cons. split; constructor.
  - intros Hw. pose proof Hw as [Hf Hwf]%bt_wf_cons. destruct (kcmp k k') eqn:E.
    + apply kcmp_eq in E. subst k'. by apply bt_wf_cons.
    + apply bt_wf_cons. split; [|done]. simpl. constructor; [done|]. by eapply Forall_klt_trans.
    + apply bt_wf_cons. split; [|by apply IH]. apply Forall_forall. intros x Hx.
      apply bt_insert_keys in Hx as [->|Hx].
      * by apply kcmp_Gt.
      * by eapply Forall_forall in Hf.
Qed.

Lemma bt_remove_wf k m : bt_wf m -> bt_wf (bt_remove k m).
Proof.
  induction m as [|[k' v'] m IH]; simpl; [done|]. intros [Hf Hwf]%bt_wf_cons.
  assert (bt_wf ((k', v') :: bt_remove k m)) as Hc.
  { apply bt_wf_cons. split; [|by apply IH]. apply Forall_forall. intros x Hx.
    apply bt_remove_keys in Hx. by eapply Forall_forall in Hf. }
  by destruct (kcmp k k').
Qed.

Lemma bt_of_list_wf l : bt_wf (bt_of_list l).
Proof.
  unfold bt_of_list. assert (bt_wf []) as H0 by constructor. revert H0.
  generalize (@nil (K * V)). induction l as [|[k v] l IH]; intros m Hm; simpl; [done|].
  apply IH. by apply bt_insert_wf.
Qed.

(** Two maps with the same lookups are the same list. *)
Lemma bt_ext m1 m2 :
  bt_wf m1 -> bt_wf m2 -> (forall k, bt_get k m1 = bt_get k m2) -> m1 = m2.
Proof.
  revert m2. induction m1 as [|[k1 v1] m1 IH]; intros [|[k2 v2] m2] Hw1 Hw2 Hg.
  - done.
  - specialize (Hg k2). simpl in Hg. by rewrite kcmp_refl in Hg.
  - specialize (Hg k1). simpl in Hg. by rewrite kcmp_refl in Hg.
  - apply bt_wf_cons in Hw1 as [Hf1 Hw1], Hw2 as [Hf2 Hw2].
    assert (k1 = k2) as ->.
    { destruct (kcmp k1 k2) eqn:E; [by apply kcmp_eq in E| |].
      - pose proof (Hg k1) as Hk. simpl in Hk. rewrite kcmp_refl, E in Hk.
        rewrite bt_get_lt in Hk; [done|]. by eapply Forall_klt_trans.
      - apply kcmp_Gt in E. pose proof (Hg k2) as Hk. simpl in Hk. rewrite kcmp_refl, E in Hk.
        rewrite bt_get_lt in Hk; [done|]. by eapply Forall_klt_trans. }
    pose proof (Hg k2) as Hk. simpl in Hk. rewrite kcmp_refl in Hk. simplify_eq.
    f_equal. apply IH; [done..|]. intros k. specialize (Hg k). simpl in Hg.
    destruct (kcmp k k2) eqn:E; [|done..]. apply kcmp_eq in E. subst k.
    by rewrite !bt_get_lt.
Qed.

(** Equal keys carry equal values. *)
Definition functional_pairs (l : list (K * V)) : Prop :=
  forall k v1 v2, (k, v1) ∈ l -> (k, v2) ∈ l -> v1 = v2.

(** Collecting pairs that agree on equal keys, in any order. *)
Lemma bt_of_list_get l k v :
  functional_pairs l -> bt_get k (bt_of_list l) = Some v <-> (k, v) ∈ l.
Proof.
  induction l as [|[k' v'] l IH] using rev_ind; intros Hf.
  - split; [done|]. by intros ?%not_elem_of_nil.
  - unfold bt_of_list. rewrite foldl_app. cbn [foldl fst snd]. fold (bt_of_list l).
    assert (functional_pairs l) as Hl.
    { intros ?????. eapply Hf; apply elem_of_app; by left. }
    rewrite elem_of_app, list_elem_of_singleton. destruct (kcmp k k') eqn:E.
    + apply kcmp_eq in E as ->. rewrite bt_get_insert_eq. split.
      * intros [= ->]. by right.
      * intros [Hin|[= ->]]; [|done]. f_equal.
        eapply Hf; apply elem_of_app; [right; by apply list_elem_of_singleton|by left].
    + rewrite bt_get_insert_ne by (intros ->; by rewrite kcmp_refl in E).
      rewrite IH by done. split; [by left|]. intros [|[= -> ->]]; [done|].
      by rewrite kcmp_refl in E.
    + rewrite bt_get_insert_ne by (intros ->; by rewrite kcmp_refl in E).
      rewrite IH by done. split; [by left|]. intros [|[= -> ->]]; [done|].
      by rewrite kcmp_refl in E.
Qed.

End Map.

#[export] Hint Resolve bt_insert_wf bt_remove_wf bt_of_list_wf : ivy.
