(* ===== verification/Decimal.v ===== *)
(** * Decimal integers: [Display] and [FromStr] of the Rust integer types. *)
From S2P Require Import Prelude Utf8.
Local Open Scope Z_scope.

Definition digit (d : Z) : N := (48 + Z.to_N d)%N.

(** Digits of [x], most significant first, before [acc]. *)
Fixpoint digits_loop (fuel : nat) (x : Z) (acc : str) : str :=
  match fuel with
  | O => acc
  | S fuel =>
    let acc := digit (x mod 10) :: acc in
    if x <? 10 then acc else digits_loop fuel (x / 10) acc
  end.

Definition format_nat (x : Z) : str := digits_loop (S (Z.to_nat (Z.log2 x))) x [].

(** [to_string] of an integer of any width. *)
Definition format_int (x : Z) : str :=
  if x <? 0 then chr "-" :: format_nat (- x) else format_nat x.

Definition digit_value (c : char) : option Z :=
  if is_ascii_digit c then Some (Z.of_N c - 48) else None.

Fixpoint parse_digits (s : str) (acc : Z) : option Z :=
  match s with
  | [] => Some acc
  | c :: s' => d ← digit_value c; parse_digits s' (10 * acc + d)
  end.

Definition parse_nat (s : str) : option Z :=
  match s with [] => None | _ => parse_digits s 0 end.

(** [str::parse] for the type whose range is [lo, hi]: an optional sign, at
    least one digit, only digits, and no overflow. *)
Definition parse_int (lo hi : Z) (s : str) : option Z :=
  x ←
    match s with
    | c :: s' =>
      if (c =? chr "+")%N then parse_nat s'
      else if (c =? chr "-")%N && (lo <? 0) then Z.opp <$> parse_nat s'
      else parse_nat s
    | [] => None
    end;
  if (lo <=? x) && (x <=? hi) then Some x else None.

Definition parse_u64 : str -> option Z := parse_int 0 U64_MAX.

(** ** Lemmas *)

Lemma digit_value_digit d : 0 <= d < 10 -> digit_value (digit d) = Some d.
Proof.
  intros Hd. unfold digit_value, digit, is_ascii_digit, between.
  rewrite (proj2 (N.leb_le _ _)), (proj2 (N.leb_le _ _)) by lia. simpl. f_equal. lia.
Qed.

Lemma digits_loop_parse fuel : forall x acc s,
  0 <= x -> x < 10 ^ Z.of_nat fuel ->
  exists k, parse_digits (digits_loop fuel x acc ++ s) 0 = parse_digits (acc ++ s) (k * 0 + x) /\
            (fuel <> 0%nat -> digits_loop fuel x acc <> []).
Proof.
  induction fuel as [|fuel IH]; intros x acc s Hx Hlt.
  - exists 0. simpl in *. assert (x = 0) as -> by lia. done.
  - exists 0. simpl. destruct (x <? 10) eqn:E; bool_to_prop.
    + split; [|done]. simpl. rewrite Z.mod_small by lia. by rewrite digit_value_digit by lia.
    + assert (0 <= x mod 10 < 10) as Hm by by apply Z.mod_pos_bound.
      destruct (IH (x / 10) (digit (x mod 10) :: acc) s) as (k & Hk & Hne).
      { apply Z.div_pos; lia. }
      { apply Z.div_lt_upper_bound; [lia|]. by rewrite <- Z.pow_succ_r, <- Nat2Z.inj_succ by lia. }
      split.
      * rewrite Hk. simpl. rewrite digit_value_digit by done. simpl.
        f_equal. rewrite (Z.div_mod x 10) at 3 by lia. lia.
      * intros _. apply Hne. intros ->. simpl in Hlt. lia.
Qed.

Lemma log2_bound x : 0 <= x -> x < 10 ^ Z.of_nat (S (Z.to_nat (Z.log2 x))).
Proof.
  intros Hx. rewrite Nat2Z.inj_succ, Z2Nat.id by apply Z.log2_nonneg.
  destruct (decide (x = 0)) as [->|]; [done|].
  destruct (Z.log2_spec x) as [_ H2]; [lia|]. pose proof (Z.log2_nonneg x).
  eapply Z.lt_le_trans; [exact H2|]. apply Z.pow_le_mono_l. lia.
Qed.

Lemma parse_format_nat x : 0 <= x -> parse_nat (format_nat x) = Some x.
Proof.
  intros Hx. unfold format_nat.
  destruct (digits_loop_parse (S (Z.to_nat (Z.log2 x))) x [] [] Hx (log2_bound x Hx))
    as (k & Hk & Hne).
  rewrite !app_nil_r in Hk. unfold parse_nat.
  destruct (digits_loop _ _ _); [by destruct Hne|]. rewrite Hk. simpl. f_equal. lia.
Qed.

Lemma digits_loop_digits fuel : forall x acc, 0 <= x ->
  Forall (fun c => is_ascii_digit c = true) acc ->
  Forall (fun c => is_ascii_digit c = true) (digits_loop fuel x acc).
Proof.
  induction fuel as [|fuel IH]; intros x acc Hx Ha; [done|]. simpl.
  assert (0 <= x mod 10 < 10) as Hm by by apply Z.mod_pos_bound.
  assert (is_ascii_digit (digit (x mod 10)) = true) as Hd.
  { unfold is_ascii_digit, between, digit. apply andb_true_iff. rewrite !N.leb_le. lia. }
  case_match; [by constructor|]. apply IH; [apply Z.div_pos; lia|by constructor].
Qed.

Lemma format_nat_digits x : 0 <= x -> Forall (fun c => is_ascii_digit c = true) (format_nat x).
Proof. intros. by apply digits_loop_digits. Qed.

Lemma format_int_nonempty x : format_int x <> [].
Proof.
  unfold format_int. destruct (x <? 0) eqn:E; [done|]. bool_to_prop. intros Hf.
  pose proof (parse_format_nat x ltac:(lia)) as Hp. by rewrite Hf in Hp.
Qed.

(** Printing then parsing gives the integer back, in every range that holds it. *)
Lemma parse_format_int lo hi x :
  lo <= x <= hi -> parse_int lo hi (format_int x) = Some x.
Proof.
  intros Hx. unfold parse_int, format_int. destruct (x <? 0) eqn:E; bool_to_prop.
  - rewrite N.eqb_refl. change (chr "-" =? chr "+")%N with false. simpl.
    rewrite (proj2 (Z.ltb_lt _ _)) by lia. rewrite parse_format_nat by lia. simpl.
    rewrite Z.opp_involutive. by rewrite !(proj2 (Z.leb_le _ _)) by lia.
  - pose proof (parse_format_nat x ltac:(lia)) as Hp.
    pose proof (format_nat_digits x ltac:(lia)) as Hd.
    destruct (format_nat x) as [|c s]; [done|]. apply Forall_cons in Hd as [Hc _].
    unfold is_ascii_digit, between in Hc. bool_to_prop.
    replace (c =? chr "+")%N with false by (symmetry; apply N.eqb_neq; unfold chr; simpl; lia).
    replace (c =? chr "-")%N with false by (symmetry; apply N.eqb_neq; unfold chr; simpl; lia).
    simpl andb. cbv iota. rewrite Hp. simpl. by rewrite !(proj2 (Z.leb_le _ _)) by lia.
Qed.

(** A printed integer is digits, perhaps after a minus sign: no white space. *)
Lemma format_int_no_space x : Forall (fun c => is_whitespace c = false) (format_int x).
Proof.
  assert (forall c, is_ascii_digit c = true -> is_whitespace c = false) as Hd.
  { intros c Hc. unfold is_ascii_digit, between in Hc. bool_to_prop.
    assert (c = 48 \/ c = 49 \/ c = 50 \/ c = 51 \/ c = 52 \/ c = 53 \/ c = 54 \/ c = 55 \/
            c = 56 \/ c = 57)%N as Hc by lia.
    by repeat destruct Hc as [-> | Hc]; [..|subst c]. }
  unfold format_int. case_match; bool_to_prop.
  - constructor; [done|]. eapply Forall_impl; [apply format_nat_digits; lia|]. done.
  - eapply Forall_impl; [apply format_nat_digits; lia|]. done.
Qed.
