(* ===== verification/TextTokens.v ===== *)
(** * src/text.rs, first half: the trigram and the code tokenizer.

  Both tokenizers are [TokenStream]s: a cursor over the text and an [advance]
  that writes the next token.  [Token] carries the fields that [advance] sets. *)
From S2P Require Import Prelude Utf8.

Record Token := mkToken {
  offset_from : nat;
  offset_to : nat;
  position : nat;
  text : str;
  position_length : nat;
}.

(** The token before the first [advance]. Every [advance] that returns [true]
    overwrites each field but [position_length], which tantivy starts at 1; the
    start value of [position] ([usize::MAX] there) is never read. *)
Definition token_default : Token :=
  {| offset_from := 0; offset_to := 0; position := 0; text := []; position_length := 1 |}.

(** ** ASCII trigrams *)
Module Trigram.

Record AsciiTrigramTokenStream := mkStream {
  tbytes : list N;         (* [text.as_bytes()] *)
  cursor : nat;
  token : Token;
}.

Definition token_stream (s : str) : AsciiTrigramTokenStream :=
  {| tbytes := bytes s; cursor := 0; token := token_default |}.

(** The [while] of [advance]: [fuel] bounds the bytes left. *)
Fixpoint advance_loop (fuel : nat) (st : AsciiTrigramTokenStream) :
    bool * AsciiTrigramTokenStream :=
  match fuel with
  | 0 => (false, st)
  | S fuel =>
    if cursor st + 3 <=? length (tbytes st) then
      let start := cursor st in
      let trigram := take 3 (drop start (tbytes st)) in
      let st := {| tbytes := tbytes st; cursor := S start; token := token st |} in
      if negb (forallb is_ascii_alphanumeric trigram) then advance_loop fuel st
      else
        (true,
         {| tbytes := tbytes st; cursor := cursor st;
            token := {| offset_from := start; offset_to := start + 3; position := start;
                        text := map to_ascii_lowercase trigram;
                        position_length := position_length (token st) |} |})
    else (false, st)
  end.

Definition advance (st : AsciiTrigramTokenStream) : bool * AsciiTrigramTokenStream :=
  advance_loop (S (length (tbytes st))) st.

(** Every token of a stream, as a consumer's [while stream.advance()] sees them. *)
Fixpoint collect (fuel : nat) (st : AsciiTrigramTokenStream) : list Token :=
  match fuel with
  | 0 => []
  | S fuel =>
    match advance st with
    | (true, st') => token st' :: collect fuel st'
    | (false, _) => []
    end
  end.

Definition tokens (s : str) : list Token :=
  collect (S (blen s)) (token_stream s).

End Trigram.

(** ** The code tokenizer *)
Module Code.

Record PendingSegment := mkSegment { seg_from : nat; seg_to : nat }.

Definition is_code_separator (ch : char) : bool :=
  bool_decide (ch ∈ lit ".:/\-()[]{}<>=,;'`!@#$%^&*+|~?" ++ [34%N]).

(** *** Identifier segments *)

(** The locals of the segment loops, with the output vector. *)
Record SegState := mkSeg {
  segments : list PendingSegment;
  current_start : option nat;
  current_end : nat;
  prev_is_lower : bool;
  prev_is_alpha : bool;
}.

(** [push_current_segment]: takes [current_start]. *)
Definition push_current_segment (base_offset offset_to : nat) (st : SegState) : SegState :=
  match current_start st with
  | None => st
  | Some offset_from =>
    {| segments := segments st ++ [mkSegment (base_offset + offset_from) offset_to];
       current_start := None; current_end := current_end st;
       prev_is_lower := prev_is_lower st; prev_is_alpha := prev_is_alpha st |}
  end.

Definition push_current (base : nat) (st : SegState) : SegState :=
  push_current_segment base (base + current_end st) st.

Definition set_prev (lower alpha : bool) (st : SegState) : SegState :=
  {| segments := segments st; current_start := current_start st;
     current_end := current_end st; prev_is_lower := lower; prev_is_alpha := alpha |}.

Definition seg_init (out : list PendingSegment) : SegState :=
  {| segments := out; current_start := None; current_end := 0;
     prev_is_lower := false; prev_is_alpha := false |}.

(** One iteration of the [char_indices] loop. *)
Definition seg_step (base : nat) (st : SegState) (oc : nat * char) : SegState :=
  let '(offset, ch) := oc in
  if negb (is_ascii_alphanumeric ch) then
    set_prev false false (push_current base st)
  else
    let is_upper := is_ascii_uppercase ch in
    let is_alpha := is_ascii_alphabetic ch in
    let st :=
      if is_some (current_start st) && is_upper && prev_is_lower st
      then push_current base st else st in
    let st :=
      if is_some (current_start st) && negb (eqb is_alpha (prev_is_alpha st))
      then push_current base st else st in
    {| segments := segments st;
       current_start := Some (match current_start st with Some s => s | None => offset end);
       current_end := offset + len_utf8 ch;
       prev_is_lower := is_ascii_lowercase ch; prev_is_alpha := is_alpha |}.

(** One iteration of the byte loop of the ASCII path. *)
Definition seg_step_ascii (base : nat) (st : SegState) (ob : nat * N) : SegState :=
  let '(offset, byte) := ob in
  if negb (is_ascii_alphanumeric byte) then
    set_prev false false (push_current base st)
  else
    let is_upper := is_ascii_uppercase byte in
    let is_alpha := is_ascii_alphabetic byte in
    let st :=
      if is_some (current_start st) && is_upper && prev_is_lower st
      then push_current base st else st in
    let st :=
      if is_some (current_start st) && negb (eqb is_alpha (prev_is_alpha st))
      then push_current base st else st in
    {| segments := segments st;
       current_start := Some (match current_start st with Some s => s | None => offset end);
       current_end := offset + 1;
       prev_is_lower := is_ascii_lowercase byte; prev_is_alpha := is_alpha |}.

Definition split_ascii_identifier_segments_with_offsets
    (token : list N) (base_offset : nat) (out : list PendingSegment) : list PendingSegment :=
  if forallb is_ascii_lowercase token || forallb is_ascii_digit token then
    match token with
    | [] => out
    | _ => out ++ [mkSegment base_offset (base_offset + length token)]
    end
  else
    segments (push_current base_offset
      (foldl (seg_step_ascii base_offset) (seg_init out)
         (imap pair token))).

(** The general loop of [split_identifier_segments_with_offsets]. *)
Definition split_general (token : str) (base_offset : nat) (out : list PendingSegment) :
    list PendingSegment :=
  segments (push_current base_offset
    (foldl (seg_step base_offset) (seg_init out) (char_indices 0 token))).

Definition split_identifier_segments_with_offsets
    (token : str) (base_offset : nat) (out : list PendingSegment) : list PendingSegment :=
  if forallb is_ascii token then
    split_ascii_identifier_segments_with_offsets (bytes token) base_offset out
  else split_general token base_offset out.

(** [split_identifier_segments]; [None] is a slice off a character boundary. *)
Definition split_identifier_segments (token : str) : option (list str) :=
  mapM (M := option)
    (fun seg => map to_ascii_lowercase <$> slice token (seg_from seg) (seg_to seg))
    (split_identifier_segments_with_offsets token 0 []).

Definition push_ascii_lowercase (output text : str) : str :=
  if existsb is_ascii_uppercase (bytes text)
  then output ++ map to_ascii_lowercase (bytes text)
  else output ++ text.

(** *** The stream *)
Record CodeTokenStream := mkStream {
  ctext : str;
  cursor : nat;
  pending : list PendingSegment;
  pending_index : nat;
  cposition : nat;
  token : Token;
}.

Definition token_stream (s : str) : CodeTokenStream :=
  {| ctext := s; cursor := 0; pending := []; pending_index := 0;
     cposition := 0; token := token_default |}.

Definition is_word_break (ch : char) : bool := is_whitespace ch || is_code_separator ch.

(** The two [while] loops of [next_word_range], over the text from the cursor. *)
Fixpoint skip_breaks (rest : str) (cursor : nat) : nat :=
  match rest with
  | [] => cursor
  | ch :: rest' => if is_word_break ch then skip_breaks rest' (cursor + len_utf8 ch) else cursor
  end.
Fixpoint skip_word (rest : str) (cursor : nat) : nat :=
  match rest with
  | [] => cursor
  | ch :: rest' => if is_word_break ch then cursor else skip_word rest' (cursor + len_utf8 ch)
  end.

(** [next_word_range]: the range, if any, and the new cursor.  The outer option
    is a slice panic. *)
Definition next_word_range (text : str) (cursor : nat) : option (option (nat * nat) * nat) :=
  rest ← drop_bytes cursor text;
  let start := skip_breaks rest cursor in
  if blen text <=? start then Some (None, start)
  else
    rest' ← drop_bytes start text;
    let stop := skip_word rest' start in
    Some (Some (start, stop), stop).

(** [fill_next_word_segments]. *)
Fixpoint fill_next_word_segments (fuel : nat) (st : CodeTokenStream) :
    option (bool * CodeTokenStream) :=
  match fuel with
  | 0 => None
  | S fuel =>
    '(range, cur) ← next_word_range (ctext st) (cursor st);
    match range with
    | None =>
      Some (false, {| ctext := ctext st; cursor := cur; pending := []; pending_index := 0;
                      cposition := cposition st; token := token st |})
    | Some (from, to) =>
      word ← slice (ctext st) from to;
      let pending := split_identifier_segments_with_offsets word from [] in
      let st := {| ctext := ctext st; cursor := cur; pending := pending; pending_index := 0;
                   cposition := cposition st; token := token st |} in
      match pending with
      | [] => fill_next_word_segments fuel st
      | _ => Some (true, st)
      end
    end
  end.

(** [advance]: at most one refill is needed, because a refill that succeeds
    leaves a pending segment. *)
Definition emit (st : CodeTokenStream) (segment : PendingSegment) : option CodeTokenStream :=
  piece ← slice (ctext st) (seg_from segment) (seg_to segment);
  Some {| ctext := ctext st; cursor := cursor st; pending := pending st;
          pending_index := S (pending_index st); cposition := S (cposition st);
          token := {| offset_from := seg_from segment; offset_to := seg_to segment;
                      position := cposition st;
                      text := push_ascii_lowercase [] piece;
                      position_length := 1 |} |}.

Fixpoint advance_loop (fuel : nat) (st : CodeTokenStream) : option (bool * CodeTokenStream) :=
  match fuel with
  | 0 => None
  | S fuel =>
    match pending st !! pending_index st with
    | Some segment => st' ← emit st segment; Some (true, st')
    | None =>
      '(filled, st') ← fill_next_word_segments (S (blen (ctext st))) st;
      if (filled : bool) then advance_loop fuel st' else Some (false, st')
    end
  end.

Definition advance (st : CodeTokenStream) : option (bool * CodeTokenStream) :=
  advance_loop 2 st.

Fixpoint collect (fuel : nat) (st : CodeTokenStream) : option (list Token) :=
  match fuel with
  | 0 => None
  | S fuel =>
    '(more, st') ← advance st;
    if (more : bool) then cons (token st') <$> collect fuel st' else Some []
  end.

(** Every token of a text.  [None] would be a panic or a stream that does not end. *)
Definition tokens (s : str) : option (list Token) :=
  collect (S (blen s)) (token_stream s).

End Code.
