(* ===== verification/TextSegments.v ===== *)
(** * src/text.rs: what the identifier splitter promises.

  [segmentation] is the declarative specification of the segments of a word:
  maximal runs of ASCII letters or of ASCII digits, cut where a lowercase
  letter meets an uppercase one.  The general loop, the byte loop for ASCII
  words and the shortcut for lowercase-only or digit-only words all meet it. *)
From S2P Require Import Prelude Utf8 TextTokens.
Import Code.

(** A cut between two neighbouring characters of a run. *)
Definition is_boundary (p c : char) : bool :=
  (is_ascii_uppercase c && is_ascii_lowercase p) ||
  negb (eqb (is_ascii_alphabetic c) (is_ascii_alphabetic p)).

Definition cut (p : option char) (c : char) : Prop :=
  match p with None => True | Some p => is_boundary p c = true end.

(** No cut inside [w] when [p] comes before it. *)
Fixpoint chain (p : option char) (w : str) : Prop :=
  match w with
  | [] => True
  | c :: w' =>
    match p with None => True | Some p => is_boundary p c = false end /\ chain (Some c) w'
  end.

Inductive segmentation : nat -> option char -> str -> list PendingSegment -> Prop :=
| segmentation_nil o p : segmentation o p [] []
| segmentation_gap o p c s l :
    is_ascii_alphanumeric c = false ->
    segmentation (o + len_utf8 c) None s l ->
    segmentation o p (c :: s) l
| segmentation_word o p c w s l :
    Forall (fun c => is_ascii_alphanumeric c = true) (c :: w) ->
    cut p c -> chain None (c :: w) ->
    segmentation (o + blen (c :: w)) (last (c :: w)) s l ->
    segmentation o p ((c :: w) ++ s) (mkSegment o (o + blen (c :: w)) :: l).

(** ** Facts on [chain] *)

Lemma chain_app p w1 w2 :
  chain p (w1 ++ w2) <-> chain p w1 /\ chain (if w1 is [] then p else last w1) w2.
Proof.
  revert p. induction w1 as [|c w1 IH]; intros p; simpl; [naive_solver|].
  rewrite IH. destruct w1; simpl; naive_solver.
Qed.

Lemma chain_snoc w c :
  chain None w -> match last w with None => True | Some p => is_boundary p c = false end ->
  chain None (w ++ [c]).
Proof. intros Hw Hc. apply chain_app. split; [done|]. destruct w; simpl in *; auto. Qed.

(** ** The specification determines the segments *)

Lemma segmentation_not_extended o p s l c r :
  segmentation o (Some p) s l -> s = c :: r -> is_ascii_alphanumeric c = true ->
  is_boundary p c = true.
Proof. intros H. inversion H; intros; simplify_eq/=; congruence. Qed.

Lemma word_prefix_unique o1 c w1 s1 l1 w2 s2 :
  Forall (fun c => is_ascii_alphanumeric c = true) (c :: w2) ->
  chain None (c :: w2) ->
  segmentation o1 (last (c :: w1)) s1 l1 ->
  w1 ++ s1 = w2 ++ s2 -> length w1 <= length w2 -> w1 = w2 /\ s1 = s2.
Proof.
  intros Hal Hch Hseg Heq Hlen.
  apply app_eq_inv in Heq as [(k & -> & ->)|(k & -> & ->)].
  - rewrite length_app in Hlen. destruct k; simpl in Hlen; [|lia].
    by rewrite app_nil_r.
  - destruct k as [|d k]; [by rewrite app_nil_r|]. exfalso.
    apply Forall_cons in Hal as [_ Hal]. apply Forall_app in Hal as [_ Hal].
    apply Forall_cons in Hal as [Hd _].
    change (c :: w1 ++ d :: k) with ((c :: w1) ++ d :: k) in Hch.
    apply chain_app in Hch as [_ Hch].
    destruct (last (c :: w1)) as [q|] eqn:Hq; [|by apply last_None in Hq].
    simpl in Hch. destruct Hch as [Hch _].
    pose proof (segmentation_not_extended _ _ _ _ _ _ Hseg eq_refl Hd). congruence.
Qed.

Lemma segmentation_unique o p s l1 l2 :
  segmentation o p s l1 -> segmentation o p s l2 -> l1 = l2.
Proof.
  intros H1. revert l2. induction H1 as [o p|o p c s l Hc _ IH|o p c w s l Ha Hcut Hch Hs IH];
    intros l2 H2.
  - inversion H2; done.
  - inversion H2 as [|? ? ? ? ? _ Hseg|? ? ? w' s' l' Ha' _ _ _]; simplify_eq/=.
    + by apply IH.
    + apply Forall_cons in Ha' as [? _]. congruence.
  - inversion H2 as [|? ? ? ? ? Hc _|? ? c' w' s' l' Ha' Hcut' Hch' Hs']; simplify_eq/=.
    + apply Forall_cons in Ha as [? _]. congruence.
    + assert (w = w' /\ s = s') as [-> ->].
      { destruct (decide (length w <= length w')).
        - eapply word_prefix_unique with (l1 := l); eauto.
        - assert (w' = w /\ s' = s) as [-> ->]; [|done].
          eapply (word_prefix_unique _ c w' s' l' w s); eauto. lia. }
      f_equal. by apply IH.
Qed.

(** ** The general loop meets the specification *)

Definition last_is (f : char -> bool) (w : str) : bool :=
  match last w with Some c => f c | None => false end.

(** The state of the loop inside the run [cur], which started at offset [s]. *)
Definition in_run (st : SegState) (s : nat) (cur : str) : Prop :=
  current_start st = Some s /\ current_end st = s + blen cur /\ cur <> [] /\
  prev_is_lower st = last_is is_ascii_lowercase cur /\
  prev_is_alpha st = last_is is_ascii_alphabetic cur /\
  Forall (fun c => is_ascii_alphanumeric c = true) cur /\ chain None cur.

Definition run_loop (base off : nat) (st : SegState) (rest : str) : list PendingSegment :=
  segments (push_current base (foldl (seg_step base) st (char_indices off rest))).

Lemma run_loop_cons base off st c rest :
  run_loop base off st (c :: rest) =
  run_loop base (off + len_utf8 c) (seg_step base st (off, c)) rest.
Proof. done. Qed.

#[local] Arguments seg_step : simpl never.
#[local] Arguments seg_step_ascii : simpl never.

(** A step on an alphanumeric character continues the run or starts a new one. *)
Lemma seg_step_continue base st s cur off c :
  in_run st s cur -> off = s + blen cur -> is_ascii_alphanumeric c = true ->
  match last cur with Some p => is_boundary p c = false | None => False end ->
  in_run (seg_step base st (off, c)) s (cur ++ [c]) /\
  segments (seg_step base st (off, c)) = segments st.
Proof.
  intros (Hs & He & Hne & Hl & Ha & Hall & Hch) -> Hc Hb.
  destruct (last cur) as [p|] eqn:Hp; [|done].
  unfold last_is in *. rewrite Hp in Hl, Ha.
  unfold is_boundary in Hb. apply orb_false_iff in Hb as [Hb1 Hb2].
  unfold seg_step. rewrite Hc. simpl. rewrite Hs, Hl.
  simpl. rewrite Hb1. rewrite Hs.
  simpl. rewrite Ha, Hb2. rewrite Hs.
  split; [|done]. unfold in_run, last_is; simpl. rewrite last_snoc, blen_app; simpl.
  repeat split; try done; try lia.
  - by destruct cur.
  - apply Forall_app; split; [done|]. by constructor.
  - apply chain_snoc; [done|]. rewrite Hp. unfold is_boundary. by rewrite Hb1, Hb2.
Qed.

Lemma seg_step_cut base st s cur off c :
  in_run st s cur -> off = s + blen cur -> is_ascii_alphanumeric c = true ->
  cut (last cur) c ->
  in_run (seg_step base st (off, c)) off [c] /\
  segments (seg_step base st (off, c)) =
    segments st ++ [mkSegment (base + s) (base + (s + blen cur))].
Proof.
  intros (Hs & He & Hne & Hl & Ha & Hall & Hch) -> Hc Hb.
  destruct (last cur) as [p|] eqn:Hp; [|by apply last_None in Hp].
  unfold last_is in *. rewrite Hp in Hl, Ha. simpl in Hb.
  unfold is_boundary in Hb. unfold seg_step. rewrite Hc. simpl.
  rewrite Hs, Hl. simpl.
  destruct (is_ascii_uppercase c && is_ascii_lowercase p) eqn:Hb1.
  - unfold push_current, push_current_segment. rewrite Hs. simpl. rewrite He.
    split; [|done]. unfold in_run, last_is; simpl.
    repeat split; try done; try lia. by constructor.
  - simpl in Hb. rewrite Hs. simpl. rewrite Ha, Hb.
    unfold push_current, push_current_segment. rewrite Hs. simpl. rewrite He.
    split; [|done]. unfold in_run, last_is; simpl.
    repeat split; try done; try lia. by constructor.
Qed.

Lemma seg_step_start base st off c :
  current_start st = None -> is_ascii_alphanumeric c = true ->
  in_run (seg_step base st (off, c)) off [c] /\
  segments (seg_step base st (off, c)) = segments st.
Proof.
  intros Hs Hc. unfold seg_step. rewrite Hc. simpl. rewrite Hs. simpl. rewrite Hs. simpl.
  rewrite Hs. split; [|done]. unfold in_run, last_is; simpl.
  repeat split; try done; try lia. by constructor.
Qed.

Lemma seg_step_gap_none base st off c :
  current_start st = None -> is_ascii_alphanumeric c = false ->
  current_start (seg_step base st (off, c)) = None /\
  segments (seg_step base st (off, c)) = segments st.
Proof.
  intros Hs Hc. unfold seg_step, push_current, push_current_segment. rewrite Hc. simpl.
  by rewrite Hs.
Qed.

Lemma seg_step_gap_run base st s cur off c :
  in_run st s cur -> is_ascii_alphanumeric c = false ->
  current_start (seg_step base st (off, c)) = None /\
  segments (seg_step base st (off, c)) =
    segments st ++ [mkSegment (base + s) (base + (s + blen cur))].
Proof.
  intros (Hs & He & _) Hc. unfold seg_step, push_current, push_current_segment.
  rewrite Hc. simpl. rewrite Hs. simpl. by rewrite He.
Qed.

(** A finished run is one word of the specification. *)
Lemma in_run_word base st s cur p rest l :
  in_run st s cur -> cut p (default 0%N (head cur)) ->
  segmentation (base + (s + blen cur)) (last cur) rest l ->
  segmentation (base + s) p (cur ++ rest) (mkSegment (base + s) (base + (s + blen cur)) :: l).
Proof.
  intros (_ & _ & Hne & _ & _ & Hall & Hch) Hcut Hs. destruct cur as [|c cur]; [done|].
  rewrite Nat.add_assoc in *. by apply segmentation_word.
Qed.

Lemma loop_spec base rest :
  (forall st off, current_start st = None ->
     exists l, run_loop base off st rest = segments st ++ l /\
               segmentation (base + off) None rest l) /\
  (forall st s cur p, in_run st s cur -> cut p (default 0%N (head cur)) ->
     exists l, run_loop base (s + blen cur) st rest = segments st ++ l /\
               segmentation (base + s) p (cur ++ rest) l).
Proof.
  induction rest as [|c rest [IHn IHr]]; split.
  - intros st off Hs. exists []. unfold run_loop, push_current, push_current_segment; simpl.
    rewrite Hs, app_nil_r. split; [done|constructor].
  - intros st s cur p (Hs & He & Hne & _ & _ & Hall & Hch) Hcut.
    exists [mkSegment (base + s) (base + (s + blen cur))].
    unfold run_loop, push_current, push_current_segment; simpl. rewrite Hs, He.
    split; [done|]. destruct cur as [|c cur]; [done|].
    rewrite Nat.add_assoc. apply segmentation_word; [done..|constructor].
  - intros st off Hs. rewrite run_loop_cons.
    destruct (is_ascii_alphanumeric c) eqn:Hc.
    + destruct (seg_step_start base st off c Hs Hc) as [Hr Hseg].
      destruct (IHr _ _ _ None Hr I) as (l & Hl & Hsegm). simpl in Hl. rewrite Nat.add_0_r in Hl.
      exists l. rewrite <- Hseg, <- Hl. by split.
    + destruct (seg_step_gap_none base st off c Hs Hc) as [Hn Hseg].
      destruct (IHn _ (off + len_utf8 c) Hn) as (l & Hl & Hsegm).
      exists l. rewrite Hl, Hseg. split; [done|].
      apply segmentation_gap; [done|]. by rewrite <- Nat.add_assoc.
  - intros st s cur p Hrun Hcut. rewrite run_loop_cons.
    destruct (is_ascii_alphanumeric c) eqn:Hc.
    + destruct (last cur) as [q|] eqn:Hq; [|apply last_None in Hq; by destruct Hrun as (?&?&?&_)].
      destruct (is_boundary q c) eqn:Hb.
      * destruct (seg_step_cut base st s cur (s + blen cur) c Hrun eq_refl Hc) as [Hr Hseg].
        { by rewrite Hq. }
        destruct (IHr _ _ _ (Some q) Hr Hb) as (l & Hl & Hsegm). simpl in Hl. rewrite Nat.add_0_r in Hl.
        exists (mkSegment (base + s) (base + (s + blen cur)) :: l).
        rewrite Hl, Hseg, <- app_assoc. split; [done|].
        apply (in_run_word base st s cur p); [done..|]. by rewrite Hq.
      * destruct (seg_step_continue base st s cur (s + blen cur) c Hrun eq_refl Hc) as [Hr Hseg].
        { by rewrite Hq. }
        destruct (IHr _ _ _ p Hr) as (l & Hl & Hsegm).
        { destruct cur; [by destruct Hrun as (?&?&?&_)|done]. }
        exists l. rewrite blen_app in Hl. simpl in Hl. rewrite Nat.add_0_r, Nat.add_assoc in Hl.
        rewrite Hl, Hseg. split; [done|]. by rewrite <- app_assoc in Hsegm.
    + destruct (seg_step_gap_run base st s cur (s + blen cur) c Hrun Hc) as [Hn Hseg].
      destruct (IHn _ (s + blen cur + len_utf8 c) Hn) as (l & Hl & Hsegm).
      exists (mkSegment (base + s) (base + (s + blen cur)) :: l).
      rewrite Hl, Hseg, <- app_assoc. split; [done|].
      apply (in_run_word base st s cur p); [done..|].
      apply segmentation_gap; [done|]. by rewrite <- !Nat.add_assoc in *.
Qed.

Lemma split_general_spec token base out :
  exists l, split_general token base out = out ++ l /\ segmentation base None token l.
Proof.
  destruct (proj1 (loop_spec base token) (seg_init out) 0 eq_refl) as (l & Hl & Hs).
  exists l. rewrite Nat.add_0_r in Hs. by split.
Qed.

(** ** The ASCII paths *)

Lemma bytes_ascii s : forallb is_ascii s = true -> bytes s = s.
Proof.
  induction s as [|c s IH]; [done|]. simpl. intros H. bool_to_prop.
  change (bytes (c :: s)) with (encode_utf8 c ++ bytes s).
  rewrite IH by done. unfold encode_utf8, is_ascii in *. by case_match.
Qed.

Lemma char_indices_ascii off s :
  forallb is_ascii s = true -> char_indices off s = imap (fun i c => (off + i, c)) s.
Proof.
  revert off. induction s as [|c s IH]; intros off; [done|]. simpl. intros H. bool_to_prop.
  rewrite len_utf8_ascii, Nat.add_0_r by done. f_equal.
  rewrite IH by done. apply imap_ext. intros i x _. simpl. f_equal. lia.
Qed.

Lemma blen_ascii s : forallb is_ascii s = true -> blen s = length s.
Proof.
  induction s as [|c s IH]; [done|]. simpl. intros H. bool_to_prop.
  rewrite len_utf8_ascii, IH by done. lia.
Qed.

Lemma seg_step_ascii_eq base st off c :
  is_ascii c = true -> seg_step_ascii base st (off, c) = seg_step base st (off, c).
Proof. intros Hc. unfold seg_step, seg_step_ascii. by rewrite len_utf8_ascii. Qed.

Lemma forallb_Forall' {A} (f : A -> bool) l : forallb f l = true <-> Forall (fun x => f x = true) l.
Proof. rewrite Forall_forall, forallb_forall. setoid_rewrite list_elem_of_In. done. Qed.

Lemma foldl_ascii base st token off :
  forallb is_ascii token = true ->
  foldl (seg_step_ascii base) st (imap (fun i c => (off + i, c)) token) =
  foldl (seg_step base) st (char_indices off token).
Proof.
  intros Ha. rewrite <- char_indices_ascii by done. revert st off Ha.
  induction token as [|c token IH]; intros st off Ha; [done|]. simpl in *. bool_to_prop.
  rewrite seg_step_ascii_eq by done. by apply IH.
Qed.

Lemma uniform_word o w :
  w <> [] ->
  Forall (fun c => is_ascii_lowercase c = true) w \/ Forall (fun c => is_ascii_digit c = true) w ->
  segmentation o None w [mkSegment o (o + blen w)].
Proof.
  intros Hne Hw. destruct w as [|c w]; [done|]. rewrite <- (app_nil_r (c :: w)) at 1.
  assert (forall x y, is_ascii_lowercase x = true /\ is_ascii_lowercase y = true \/
                      is_ascii_digit x = true /\ is_ascii_digit y = true ->
                      is_boundary x y = false) as Hxy.
  { intros x y Hc. unfold is_boundary, is_ascii_alphabetic, is_ascii_uppercase,
      is_ascii_lowercase, is_ascii_digit, between in *.
    repeat match goal with |- context [(?a <=? ?b)%N] => destruct (N.leb_spec a b) end;
      simpl; try done; destruct Hc as [[? ?]|[? ?]]; bool_to_prop; lia. }
  apply segmentation_word; [| |clear Hne|constructor].
  - destruct Hw as [Hw|Hw]; (eapply Forall_impl; [exact Hw|]); simpl; intros x Hx;
      unfold is_ascii_alphanumeric, is_ascii_alphabetic; rewrite Hx; by rewrite ?orb_true_r.
  - done.
  - split; [done|].
    assert (forall d v, (is_ascii_lowercase d = true /\ Forall (fun c => is_ascii_lowercase c = true) v) \/
                        (is_ascii_digit d = true /\ Forall (fun c => is_ascii_digit c = true) v) ->
                        chain (Some d) v) as Hch.
    { intros d v. revert d. induction v as [|e v IH]; intros d Hd; [done|]. simpl.
      rewrite !Forall_cons in Hd. split; [apply Hxy|apply IH]; naive_solver. }
    apply Hch. rewrite !Forall_cons in Hw. naive_solver.
Qed.

(** The splitter, whichever path it takes, appends the specified segments. *)
Lemma split_correct token base out :
  exists l, split_identifier_segments_with_offsets token base out = out ++ l /\
            segmentation base None token l.
Proof.
  unfold split_identifier_segments_with_offsets. destruct (forallb is_ascii token) eqn:Ha;
    [|apply split_general_spec].
  rewrite bytes_ascii by done. unfold split_ascii_identifier_segments_with_offsets.
  destruct (_ || _) eqn:Hs.
  - destruct token as [|c token]; [exists []; rewrite app_nil_r; split; [done|constructor]|].
    rewrite <- blen_ascii by done. eexists. split; [done|].
    apply uniform_word; [done|]. apply orb_true_iff in Hs.
    by rewrite !forallb_Forall' in Hs.
  - destruct (split_general_spec token base out) as (l & Hl & Hseg).
    exists l. split; [|done]. rewrite <- Hl. unfold split_general. do 2 f_equal.
    by apply (foldl_ascii base (seg_init out) token 0).
Qed.

Lemma split_fast_path token base out :
  split_identifier_segments_with_offsets token base out = split_general token base out.
Proof.
  destruct (split_correct token base out) as (l1 & -> & H1).
  destruct (split_general_spec token base out) as (l2 & -> & H2).
  f_equal. by eapply segmentation_unique.
Qed.

(** ** The segments as slices of the text *)

Lemma segmentation_slices o p s l pre post :
  segmentation o p s l -> blen pre = o ->
  exists ws,
    Forall2 (fun seg w =>
      slice (pre ++ s ++ post) (seg_from seg) (seg_to seg) = Some w /\ w <> [] /\
      Forall (fun c => is_ascii_alphanumeric c = true) w /\ chain None w) l ws /\
    concat ws = filter (fun c => is_ascii_alphanumeric c = true) s.
Proof.
  intros H. revert pre. induction H as [o p|o p c s l Hc _ IH|o p c w s l Ha Hcut Hch _ IH];
    intros pre Hpre.
  - by exists [].
  - destruct (IH (pre ++ [c])) as (ws & Hws & Hcat).
    { rewrite blen_app. simpl. lia. }
    exists ws. rewrite filter_cons_False by congruence. split; [|done].
    by rewrite <- app_assoc in Hws.
  - destruct (IH (pre ++ c :: w)) as (ws & Hws & Hcat).
    { rewrite blen_app. lia. }
    exists ((c :: w) :: ws). split.
    + constructor; [|by rewrite <- !app_assoc in *].
      simpl seg_from. simpl seg_to. subst o. rewrite <- app_assoc. by rewrite slice_app.
    + rewrite filter_app. cbn [concat]. rewrite Hcat. f_equal. symmetry.
      by apply filter_all.
Qed.

Lemma segmentation_bounds o p s l :
  segmentation o p s l ->
  Forall (fun seg => o <= seg_from seg < seg_to seg /\ seg_to seg <= o + blen s) l /\
  StronglySorted (fun a b => seg_to a <= seg_from b) l.
Proof.
  induction 1 as [o p|o p c s l Hc _ [IHb IHs]|o p c w s l Ha Hcut Hch _ [IHb IHs]].
  - split; constructor.
  - split; [|done]. eapply Forall_impl; [done|]. simpl. intros. lia.
  - pose proof (len_utf8_pos c). split.
    + constructor; [rewrite blen_app; simpl; lia|].
      eapply Forall_impl; [done|]. simpl. intros. rewrite blen_app in *. simpl in *. lia.
    + constructor; [done|]. eapply Forall_impl; [done|]. simpl. intros. lia.
Qed.
