(* ===== verification/TextStream.v ===== *)
(** * src/text.rs: what the token streams promise.

  The code tokenizer works word by word.  Its stream is shown to emit, for any
  text, exactly the [segmentation] of the whole text: it never slices off a
  character boundary, it ends, and positions count from zero.  The trigram
  stream is the filter of all three-byte windows. *)
From S2P Require Import Prelude Utf8 TextTokens TextSegments.
Import Code.

(** The token that the stream writes for its [i]-th segment. *)
Definition segment_token (s : str) (i : nat) (seg : PendingSegment) : Token :=
  {| offset_from := seg_from seg; offset_to := seg_to seg; position := i;
     text := map to_ascii_lowercase (default [] (slice s (seg_from seg) (seg_to seg)));
     position_length := 1 |}.

(** ** Words and segments *)

Definition at_break (s : str) : Prop :=
  match s with [] => True | c :: _ => is_word_break c = true end.

Lemma break_not_alnum c : is_word_break c = true -> is_ascii_alphanumeric c = false.
Proof.
  unfold is_word_break, is_code_separator. intros [H|H]%orb_true_iff.
  - unfold is_whitespace in H. repeat (apply orb_true_iff in H as [H|H]);
      unfold is_ascii_alphanumeric, is_ascii_alphabetic, is_ascii_uppercase,
        is_ascii_lowercase, is_ascii_digit, between in *; bool_to_prop;
      repeat match goal with |- context [(?a <=? ?b)%N] => destruct (N.leb_spec a b) end;
      simpl; try done; lia.
  - apply bool_decide_eq_true in H. vm_compute in H.
    repeat (apply elem_of_cons in H as [->|H]; [done|]). by apply not_elem_of_nil in H.
Qed.

Lemma skip_breaks_spec rest cur :
  exists brk rest', rest = brk ++ rest' /\ skip_breaks rest cur = cur + blen brk /\
    Forall (fun c => is_word_break c = true) brk /\
    match rest' with [] => True | c :: _ => is_word_break c = false end.
Proof.
  revert cur. induction rest as [|c rest IH]; intros cur; simpl.
  - exists [], []. simpl. by rewrite Nat.add_0_r.
  - destruct (is_word_break c) eqn:Hc.
    + destruct (IH (cur + len_utf8 c)) as (brk & rest' & -> & -> & Hb & Hr).
      exists (c :: brk), rest'. simpl. rewrite Nat.add_assoc. repeat split; [|done]. by constructor.
    + exists [], (c :: rest). simpl. rewrite Nat.add_0_r. by repeat split.
Qed.

Lemma skip_word_spec rest cur :
  exists w rest', rest = w ++ rest' /\ skip_word rest cur = cur + blen w /\ at_break rest' /\
    (match rest with [] => False | c :: _ => is_word_break c = false end -> w <> []).
Proof.
  revert cur. induction rest as [|c rest IH]; intros cur; simpl.
  - exists [], []. simpl. by rewrite Nat.add_0_r.
  - destruct (is_word_break c) eqn:Hc.
    + exists [], (c :: rest). simpl. rewrite Nat.add_0_r. by repeat split.
    + destruct (IH (cur + len_utf8 c)) as (w & rest' & -> & -> & Hb & _).
      exists (c :: w), rest'. simpl. rewrite Nat.add_assoc. by repeat split.
Qed.

#[local] Arguments skip_word : simpl never.
#[local] Arguments skip_breaks : simpl never.

Lemma segmentation_breaks o p brk s l :
  Forall (fun c => is_word_break c = true) brk ->
  segmentation (o + blen brk) None s l -> at_break (brk ++ s) \/ p = None ->
  segmentation o p (brk ++ s) l.
Proof.
  revert o p. induction brk as [|c brk IH]; intros o p Hb Hs Hp; simpl in *.
  - rewrite Nat.add_0_r in Hs. destruct Hp as [Hp| ->]; [|done].
    inversion Hs; subst; simpl in Hp.
    + constructor.
    + by constructor.
    + apply Forall_cons in H as [Ha _]. apply break_not_alnum in Hp. congruence.
  - apply Forall_cons in Hb as [Hc Hb]. apply segmentation_gap; [by apply break_not_alnum|].
    apply IH; [done| |by right]. by rewrite <- Nat.add_assoc.
Qed.

Lemma segmentation_app o p w l1 s l2 :
  segmentation o p w l1 -> at_break s -> segmentation (o + blen w) None s l2 ->
  segmentation o p (w ++ s) (l1 ++ l2).
Proof.
  intros H Hb. induction H as [o p|o p c w l Hc _ IH|o p c w w' l Ha Hcut Hch _ IH]; intros Hs;
    simpl in Hs.
  - apply (segmentation_breaks _ _ []); [done|done|by left].
  - apply segmentation_gap; [done|]. apply IH. by rewrite <- Nat.add_assoc.
  - rewrite <- app_assoc. apply (segmentation_word _ _ _ _ _ (l ++ l2)); [done..|]. apply IH.
    rewrite blen_app in Hs. simpl in Hs. simpl. by rewrite <- !Nat.add_assoc in *.
Qed.

Lemma segmentation_length o p s l : segmentation o p s l -> length l <= blen s.
Proof.
  induction 1 as [| |o p c w s l _ _ _ _ IH]; simpl; [lia|lia|].
  rewrite blen_app. pose proof (len_utf8_pos c). lia.
Qed.

(** ** The stream invariant *)

(** A pending segment is a run of ASCII letters and digits of the text. *)
Definition segment_ok (s : str) (seg : PendingSegment) : Prop :=
  exists w, slice s (seg_from seg) (seg_to seg) = Some w /\
            Forall (fun c => is_ascii_alphanumeric c = true) w.

(** The unread text of [st] is [rest], whose segments are [l]. *)
Definition unread (s : str) (st : CodeTokenStream) (rest : str) (l : list PendingSegment) : Prop :=
  ctext st = s /\
  exists pre, s = pre ++ rest /\ cursor st = blen pre /\ segmentation (blen pre) None rest l.

(** [st] is a stream over [s] that still has to emit [todo]. *)
Definition stream_at (s : str) (st : CodeTokenStream) (todo : list PendingSegment) : Prop :=
  exists rest l, unread s st rest l /\ todo = drop (pending_index st) (pending st) ++ l /\
                 Forall (segment_ok s) (pending st).

Lemma alnum_ascii w :
  Forall (fun c => is_ascii_alphanumeric c = true) w -> forallb is_ascii w = true.
Proof.
  intros H. apply forallb_Forall'. eapply Forall_impl; [exact H|]. simpl. intros c Hc.
  unfold is_ascii_alphanumeric, is_ascii_alphabetic, is_ascii_lowercase, is_ascii_uppercase,
    is_ascii_digit, between, is_ascii in *. apply N.ltb_lt.
  repeat (apply orb_true_iff in Hc as [Hc|Hc]); bool_to_prop; lia.
Qed.

Lemma push_ascii_lowercase_alnum w :
  Forall (fun c => is_ascii_alphanumeric c = true) w ->
  push_ascii_lowercase [] w = map to_ascii_lowercase w.
Proof.
  intros Hw. unfold push_ascii_lowercase. rewrite bytes_ascii by by apply alnum_ascii.
  destruct (existsb is_ascii_uppercase w) eqn:E; [done|]. simpl. clear Hw.
  induction w as [|c w IH]; [done|]. simpl in *. apply orb_false_iff in E as [Hc E].
  rewrite <- IH by done. unfold to_ascii_lowercase. by rewrite Hc.
Qed.

Lemma segments_ok s pre w rest l :
  s = pre ++ w ++ rest -> segmentation (blen pre) None w l -> Forall (segment_ok s) l.
Proof.
  intros -> H. destruct (segmentation_slices _ _ _ _ pre rest H eq_refl) as (ws & Hws & _).
  clear H. induction Hws as [|seg v l ws (Hs & _ & Ha & _) _ IH]; constructor; [|done].
  by exists v.
Qed.

(** One refill either finds the next word with segments or reaches the end. *)
Lemma fill_spec fuel s st rest l :
  unread s st rest l -> length rest < fuel ->
  exists b st', fill_next_word_segments fuel st = Some (b, st') /\
    cposition st' = cposition st /\ pending_index st' = 0 /\ stream_at s st' l /\
    if (b : bool) then pending st' <> [] else l = [].
Proof.
  revert st rest l. induction fuel as [|fuel IH]; intros st rest l (Ht & pre & Hs & Hc & Hl) Hf; [lia|].
  simpl. unfold next_word_range. rewrite Hc, Ht, Hs, drop_bytes_app. simpl.
  destruct (skip_breaks_spec rest (blen pre)) as (brk & rest1 & -> & Hsk & Hbrk & Hr1).
  rewrite Hsk. rewrite !blen_app.
  destruct rest1 as [|c rest1].
  { rewrite (proj2 (Nat.leb_le _ _)) by (simpl; lia). simpl.
    eexists false, _. split; [done|]. simpl. split; [done|]. split; [done|].
    assert (l = []) as ->.
    { eapply segmentation_unique; [exact Hl|].
      apply segmentation_breaks; [done|constructor|by right]. }
    split; [|done]. exists [], []. split; [|split; [done|constructor]].
    split; [done|]. exists (pre ++ brk). rewrite blen_app, !app_nil_r. by repeat split; try constructor. }
  rewrite (proj2 (Nat.leb_gt _ _)) by (simpl; pose proof (len_utf8_pos c); lia).
  rewrite (app_assoc pre), <- blen_app, drop_bytes_app. simpl mbind. cbv beta iota.
  destruct (skip_word_spec (c :: rest1) (blen (pre ++ brk))) as (w & rest2 & Hw & Hsw & Hb2 & Hne).
  specialize (Hne Hr1). rewrite Hsw, Hw. rewrite slice_app. simpl mbind. cbv beta iota.
  destruct (split_correct w (blen (pre ++ brk)) []) as (l1 & Hl1 & Hseg1).
  destruct (split_general_spec rest2 (blen ((pre ++ brk) ++ w)) []) as (l2 & _ & Hseg2).
  assert (l = l1 ++ l2) as ->.
  { eapply segmentation_unique; [exact Hl|]. rewrite Hw.
    apply segmentation_breaks; [done| |by right]. rewrite <- blen_app.
    apply segmentation_app; [done..|]. by rewrite <- blen_app. }
  rewrite Hl1. simpl app.
  assert (unread s {| ctext := s; cursor := blen (pre ++ brk) + blen w; pending := l1;
                      pending_index := 0; cposition := cposition st; token := token st |} rest2 l2) as Hun.
  { split; [done|]. exists ((pre ++ brk) ++ w). simpl.
    split; [by rewrite Hs, <- !app_assoc, Hw|]. split; [by rewrite !blen_app|done]. }
  assert (s = (pre ++ brk) ++ w ++ rest2) as Hs' by by rewrite Hs, <- app_assoc, Hw.
  rewrite <- Hs'. destruct l1 as [|seg l1].
  - destruct (IH _ _ _ Hun) as (b & st' & Hfill & Hpos & Hidx & Hat & Hbb).
    { rewrite Hw in Hf. rewrite !length_app in Hf. destruct w; [done|]. simpl in Hf. lia. }
    by exists b, st'.
  - eexists true, _. split; [done|]. simpl. repeat split; try done.
    exists rest2, l2. split; [done|]. simpl. split; [done|].
    by apply (segments_ok s (pre ++ brk) w rest2).
Qed.

#[local] Arguments fill_next_word_segments : simpl never.
#[local] Arguments emit : simpl never.

Lemma emit_spec s st seg todo :
  stream_at s st (seg :: todo) -> pending st !! pending_index st = Some seg ->
  exists st', emit st seg = Some st' /\ token st' = segment_token s (cposition st) seg /\
    stream_at s st' todo /\ cposition st' = S (cposition st) /\ pending st' = pending st.
Proof.
  intros (rest & l & (Ht & pre & Hs & Hc & Hl) & Htodo & Hok) Hi.
  destruct (proj1 (Forall_lookup _ _) Hok _ _ Hi) as (w & Hw & Ha).
  unfold emit. rewrite Ht, Hw. simpl. eexists. split; [done|]. simpl.
  unfold segment_token. rewrite Hw, push_ascii_lowercase_alnum by done. simpl.
  repeat split. exists rest, l. split; [|split; [|done]].
  - split; [done|]. by exists pre.
  - simpl. erewrite drop_S in Htodo by done. by simplify_eq/=.
Qed.

Lemma advance_spec s st todo :
  stream_at s st todo ->
  match todo with
  | [] => exists st', advance st = Some (false, st')
  | seg :: todo' =>
    exists st', advance st = Some (true, st') /\
      token st' = segment_token s (cposition st) seg /\ stream_at s st' todo' /\
      cposition st' = S (cposition st)
  end.
Proof.
  intros Hat. pose proof Hat as (rest & l & Hun & Htodo & Hok).
  unfold advance. simpl. destruct (pending st !! pending_index st) as [seg|] eqn:Hi.
  - erewrite drop_S in Htodo by done. simpl in Htodo. subst todo.
    destruct (emit_spec _ _ _ _ Hat Hi) as (st' & -> & ? & ? & ? & _). simpl. by exists st'.
  - rewrite drop_ge in Htodo by by apply lookup_ge_None. simpl in Htodo. subst todo.
    destruct (fill_spec (S (blen (ctext st))) s st rest l) as (b & st' & Hfill & Hpos & Hidx & Hat' & Hb);
      [done| |].
    { destruct Hun as (-> & pre & -> & _). rewrite blen_app.
      assert (forall r, length r <= blen r) as Hlen; [|specialize (Hlen rest); lia].
      induction r as [|c r IH]; simpl; [done|]. pose proof (len_utf8_pos c). lia. }
    rewrite Hfill. simpl. destruct b.
    + destruct (pending st' !! pending_index st') as [seg|] eqn:Hi'.
      * destruct Hat' as (rest' & l' & Hun' & Htodo' & Hok').
        assert (stream_at s st' l) as Hat' by by exists rest', l'.
        erewrite drop_S in Htodo' by done. subst l. simpl in *.
        destruct (emit_spec _ _ _ _ Hat' Hi') as (st2 & -> & Htok & ? & ? & _). simpl.
        exists st2. rewrite <- Hpos. by rewrite Htok.
      * rewrite Hidx in Hi'. destruct (pending st'); done.
    + subst l. by exists st'.
Qed.

Lemma collect_spec s todo fuel st :
  stream_at s st todo -> length todo < fuel ->
  collect fuel st = Some (imap (fun i => segment_token s (cposition st + i)) todo).
Proof.
  revert fuel st. induction todo as [|seg todo IH]; intros [|fuel] st Hat Hf; simpl in Hf; [lia| |lia|].
  - apply advance_spec in Hat as (st' & Ha). simpl. by rewrite Ha.
  - apply advance_spec in Hat as (st' & Ha & Htok & Hat & Hpos). simpl. rewrite Ha. simpl.
    rewrite (IH fuel st' Hat) by lia. simpl. rewrite Htok, Nat.add_0_r, Hpos. do 2 f_equal.
    apply imap_ext. intros i x _. simpl. by rewrite Nat.add_succ_r.
Qed.

Lemma stream_at_start s : stream_at s (token_stream s) (split_general s 0 []).
Proof.
  destruct (split_general_spec s 0 []) as (l & -> & Hl). simpl.
  exists s, l. split; [|done]. split; [done|]. by exists [].
Qed.

(** ** The trigram stream *)
Module TrigramFacts.
Import Trigram.

Definition window (b : list N) (i : nat) : list N := take 3 (drop i b).
Definition window_ok (b : list N) (i : nat) : bool := forallb is_ascii_alphanumeric (window b i).
Definition trigram_token (b : list N) (i : nat) : Token :=
  {| offset_from := i; offset_to := i + 3; position := i;
     text := map to_ascii_lowercase (window b i); position_length := 1 |}.

(** Window starts that the stream has still to visit. *)
Definition starts (b : list N) (cur : nat) : list nat :=
  filter (fun i => window_ok b i = true) (seq cur (length b - 2 - cur)).

Definition trigram_at (b : list N) (st : AsciiTrigramTokenStream) : Prop :=
  tbytes st = b /\ position_length (token st) = 1.

Lemma advance_loop_spec fuel b st :
  trigram_at b st -> length b < fuel + cursor st ->
  match starts b (cursor st) with
  | [] => exists st', advance_loop fuel st = (false, st')
  | i :: rest =>
    exists st', advance_loop fuel st = (true, st') /\ token st' = trigram_token b i /\
      trigram_at b st' /\ starts b (cursor st') = rest
  end.
Proof.
  revert st. induction fuel as [|fuel IH]; intros st [Hb Hp] Hf.
  { unfold starts. replace (length b - 2 - cursor st) with 0 by lia. simpl. by exists st. }
  simpl. rewrite Hb. destruct (cursor st + 3 <=? length b) eqn:Hc; bool_to_prop.
  - unfold starts. replace (length b - 2 - cursor st) with (S (length b - 2 - S (cursor st))) by lia.
    simpl. fold (window b (cursor st)).
    destruct (forallb is_ascii_alphanumeric (window b (cursor st))) eqn:Hw; simpl.
    + rewrite filter_cons_True by done.
      eexists. split; [done|]. simpl. split; [|done]. unfold trigram_token. by rewrite Hp.
    + rewrite filter_cons_False by (unfold window_ok; congruence).
      apply (IH {| tbytes := b; cursor := S (cursor st); token := token st |}); simpl; [done|lia].
  - unfold starts. replace (length b - 2 - cursor st) with 0 by lia. simpl. by exists st.
Qed.

Lemma trigram_collect_spec b fuel st todo :
  trigram_at b st -> starts b (cursor st) = todo -> length todo < fuel ->
  collect fuel st = map (trigram_token b) todo.
Proof.
  revert fuel st. induction todo as [|i todo IH]; intros [|fuel] st Hat Hs Hf; simpl in Hf;
    [lia| |lia|]; pose proof (advance_loop_spec (S (length (tbytes st))) b st Hat) as Ha;
    (destruct Hat as [Hb Hp]; rewrite Hs, Hb in Ha; specialize (Ha ltac:(lia)));
    simpl collect; unfold advance; rewrite Hb.
  - destruct Ha as (st' & ->). done.
  - destruct Ha as (st' & -> & Htok & Hat' & Hs'). simpl. rewrite Htok. f_equal.
    apply IH; [done..|lia].
Qed.

Lemma length_starts b cur : length (starts b cur) <= length b - cur.
Proof. unfold starts. etrans; [apply length_filter|]. rewrite length_seq. lia. Qed.

End TrigramFacts.

(** ** Properties *)

(** C36. The code tokenizer implements the segmentation of the whole text: for
    every text the stream never slices off a character boundary, it ends, and
    its tokens are exactly the maximal runs of ASCII letters or digits (cut at
    each lowercase/uppercase and letter/digit boundary), lowercased, in order,
    with their byte offsets and consecutive positions. *)
Theorem code_tokenizer_refines_segmentation (s : str) :
  exists l, segmentation 0 None s l /\ Code.tokens s = Some (imap (segment_token s) l).
Proof.
  destruct (split_general_spec s 0 []) as (l & Hl & Hseg). simpl in Hl.
  exists l. split; [done|]. unfold Code.tokens.
  rewrite (collect_spec s l); [done| |].
  - rewrite <- Hl. apply stream_at_start.
  - pose proof (segmentation_length _ _ _ _ Hseg). lia.
Qed.

(** The ASCII byte loop and the shortcut for all-lowercase or all-digit
    words give the segments of the general character loop, for every token,
    base offset and output vector. *)
Theorem split_identifier_fast_path (token : str) (base : nat) (out : list PendingSegment) :
  split_identifier_segments_with_offsets token base out = split_general token base out.
Proof. apply split_fast_path. Qed.

(** [split_identifier_segments] never panics; its segments are the nonempty
    uniform runs of the token lowercased, and together they are exactly the
    ASCII letters and digits of the token, in order. *)
Theorem split_identifier_segments_lossless (token : str) :
  exists ws, split_identifier_segments token = Some (map (map to_ascii_lowercase) ws) /\
    Forall (fun w => w <> [] /\ chain None w) ws /\
    concat ws = filter (fun c => is_ascii_alphanumeric c = true) token.
Proof.
  destruct (split_correct token 0 []) as (l & Hl & Hseg).
  destruct (segmentation_slices _ _ _ _ [] [] Hseg eq_refl) as (ws & Hws & Hcat).
  exists ws. unfold split_identifier_segments. rewrite Hl. simpl in *. rewrite app_nil_r in Hws.
  split; [|split; [|done]]; clear Hcat Hl Hseg.
  - induction Hws as [|seg w l ws (Hs & _) _ IH]; [done|]. simpl. rewrite Hs. simpl.
    unfold mapM in IH |- *. simpl in *. by rewrite IH.
  - by induction Hws as [|seg w l ws (_ & ? & _ & ?) _ IH]; constructor.
Qed.

(** The trigram stream yields one token for every window of three ASCII
    letters or digits of the UTF-8 bytes, in order and overlapping, lowercased,
    and nothing else. *)
Theorem trigram_tokens_are_the_windows (s : str) :
  Trigram.tokens s =
  map (TrigramFacts.trigram_token (bytes s))
    (filter (fun i => TrigramFacts.window_ok (bytes s) i = true) (seq 0 (blen s - 2))).
Proof.
  unfold Trigram.tokens. apply TrigramFacts.trigram_collect_spec; [done| |].
  - unfold TrigramFacts.starts. simpl. by rewrite length_bytes, Nat.sub_0_r.
  - eapply Nat.le_lt_trans; [apply length_filter|]. rewrite length_seq. lia.
Qed.
