(* ===== verification/TextLines.v ===== *)
(** * src/text.rs, second half: singular forms and code lines.

  [singularize_token] with its irregular table, and the scanner that finds the
  source lines behind generated headers, comments and annotations.  Slices that
  the Rust code takes are [option]s: [None] is the panic it must avoid. *)
From S2P Require Import Prelude Utf8.

(** ** Singular forms *)

Definition irregular_table : list (str * str) :=
  map (fun '(k, v) => (lit k, lit v))
  [("analyses", "analysis"); ("children", "child"); ("criteria", "criterion");
   ("feet", "foot"); ("geese", "goose"); ("indices", "index"); ("matrices", "matrix");
   ("men", "man"); ("mice", "mouse"); ("people", "person"); ("quizzes", "quiz");
   ("teeth", "tooth"); ("vertices", "vertex"); ("women", "woman");
   ("alias", "alias"); ("aliases", "alias"); ("atlas", "atlas"); ("atlases", "atlas");
   ("bias", "bias"); ("biases", "bias"); ("bonuses", "bonus"); ("buses", "bus");
   ("canvas", "canvas"); ("canvases", "canvas"); ("focuses", "focus");
   ("lens", "lens"); ("lenses", "lens"); ("statuses", "status"); ("viruses", "virus");
   ("caches", "cache"); ("cookies", "cookie"); ("movies", "movie"); ("niches", "niche");
   ("zombies", "zombie"); ("series", "series"); ("species", "species")]%string.

Definition irregular_singular (token : str) : option str :=
  snd <$> List.find (fun kv => bool_decide (fst kv = token)) irregular_table.

Definition sibilant_suffixes : list str :=
  map lit ["ches"; "shes"; "sses"; "xes"; "zzes"; "tzes"]%string.

(** The [for suffix in [...]] loop. *)
Fixpoint strip_sibilant (suffixes : list str) (token : str) : option str :=
  match suffixes with
  | [] => None
  | suffix :: rest =>
    match strip_suffix suffix token with
    | Some stem =>
      if 2 <=? blen stem then Some (stem ++ take (length suffix - 2) suffix)
      else strip_sibilant rest token
    | None => strip_sibilant rest token
    end
  end.

Definition strip_ies (token : str) : option str :=
  match strip_suffix (lit "ies") token with
  | Some stem => if 2 <=? blen stem then Some (stem ++ lit "y") else None
  | None => None
  end.

Definition strip_s (token : str) : option str :=
  match strip_suffix (lit "s") token with
  | Some stem =>
    if negb (ends_with (lit "ss") token) && negb (ends_with (lit "us") token) &&
       negb (ends_with (lit "is") token) && (3 <=? blen stem)
    then Some stem else None
  | None => None
  end.

Definition singularize_token (token : str) : str :=
  if (blen token <=? 3) || negb (forallb is_ascii_alphabetic token) then token
  else
    let token := map to_ascii_lowercase token in
    match irregular_singular token with
    | Some singular => singular
    | None =>
      match strip_ies token with
      | Some r => r
      | None =>
        match strip_sibilant sibilant_suffixes token with
        | Some r => r
        | None =>
          match strip_s token with
          | Some stem => stem
          | None => token
          end
        end
      end
    end.

(** ** Open brackets across lines *)

Record OpenBrackets := mkOpen {
  depth : nat;
  ostring : option (list N);      (* a backtick or triple-quoted string *)
  block_comment : bool;
}.
Definition open_default : OpenBrackets :=
  {| depth := 0; ostring := None; block_comment := false |}.

Inductive LineComments := Hash | Mixed.

Definition for_language (language : str) : LineComments :=
  if eq_ignore_ascii_case language (lit "python") then Hash else Mixed.

Definition DQ : N := 34.
Definition STRING_DELIMITERS : list (list N) :=
  [[DQ; DQ; DQ]; lit "'''"; [DQ]; lit "'"; lit "`"].

(** [rest.windows(2).position(|pair| pair == b"*/")]. *)
Fixpoint find_comment_end (rest : list N) : option nat :=
  match rest with
  | a :: ((b :: _) as tl) =>
    if ((a =? 42) && (b =? 47))%N then Some 0 else S <$> find_comment_end tl
  | _ => None
  end.

Definition is_open_bracket (b : N) : bool := bool_decide (b ∈ lit "([{").
Definition is_close_bracket (b : N) : bool := bool_decide (b ∈ lit ")]}").

(** Whether a line comment starts at [offset]. *)
Definition comment_here (comments : LineComments) (bs : list N) (offset : nat) : bool :=
  let rest := drop offset bs in
  match comments with
  | Hash => bool_decide (head rest = Some (chr "#"))
  | Mixed =>
    if starts_with (lit "//") rest then true
    else
      bool_decide (head rest = Some (chr "#")) &&
      ((offset =? 0) ||
       match bs !! (offset - 1) with Some b => is_ascii_whitespace b | None => false end) &&
      match rest !! 1 with None => true | Some b => is_ascii_whitespace b end
  end.

(** The end of the scan: only backtick and triple-quoted strings carry over. *)
Definition still_open (open : OpenBrackets) (string : option (list N)) : OpenBrackets :=
  {| depth := depth open; block_comment := block_comment open;
     ostring :=
       match string with
       | Some d => if (length d =? 3) || bool_decide (head d = Some (chr "`")) then Some d else None
       | None => None
       end |}.

(** The [while offset < bytes.len()] loop; every iteration advances [offset]. *)
Fixpoint scan_brackets (fuel : nat) (comments : LineComments) (bs : list N) (offset : nat)
    (string : option (list N)) (open : OpenBrackets) : Result OpenBrackets nat :=
  match fuel with
  | 0 => Err (still_open open string)
  | S fuel =>
    match drop offset bs with
    | [] => Err (still_open open string)
    | b0 :: _ as rest =>
      match string with
      | Some delimiter =>
        if (b0 =? chr "\")%N then scan_brackets fuel comments bs (offset + 2) string open
        else if starts_with delimiter rest then
          scan_brackets fuel comments bs (offset + length delimiter) None open
        else scan_brackets fuel comments bs (offset + 1) string open
      | None =>
        if block_comment open then
          match find_comment_end rest with
          | None => Err (still_open open string)
          | Some e =>
            scan_brackets fuel comments bs (offset + (e + 2)) string
              {| depth := depth open; ostring := ostring open; block_comment := false |}
          end
        else
          match List.find (fun d => starts_with d rest) STRING_DELIMITERS with
          | Some delimiter =>
            scan_brackets fuel comments bs (offset + length delimiter) (Some delimiter) open
          | None =>
            if starts_with (lit "/*") rest then
              scan_brackets fuel comments bs (offset + 2) string
                {| depth := depth open; ostring := ostring open; block_comment := true |}
            else if comment_here comments bs offset then Err (still_open open string)
            else if is_open_bracket b0 then
              scan_brackets fuel comments bs (offset + 1) string
                {| depth := S (depth open); ostring := ostring open;
                   block_comment := block_comment open |}
            else if is_close_bracket b0 then
              let open := {| depth := depth open - 1; ostring := ostring open;
                             block_comment := block_comment open |} in
              if depth open =? 0 then Ok (offset + 1)
              else scan_brackets fuel comments bs (offset + 1) string open
            else scan_brackets fuel comments bs (offset + 1) string open
          end
      end
    end
  end.

Definition close_open_brackets (text : str) (open : OpenBrackets) (comments : LineComments) :
    Result OpenBrackets nat :=
  scan_brackets (S (blen text)) comments (bytes text) 0 (ostring open)
    {| depth := depth open; ostring := None; block_comment := block_comment open |}.

(** ** Annotation prefixes *)

(** [s.find(pred).unwrap_or(s.len())]. *)
Definition find_or_len (pred : char -> bool) (s : str) : nat :=
  blen (take_while (fun c => negb (pred c)) s).

Definition csharp_attribute_has_arguments (rest : str) : option bool :=
  let attribute := rest in
  let target_end :=
    find_or_len (fun c => negb (is_ascii_alphanumeric c) && negb (c =? chr "_")%N) attribute in
  attribute ←
    (if 0 <? target_end then
       suffix ← drop_bytes target_end attribute;
       match strip_prefix (lit ":") (trim_start suffix) with
       | Some after_target =>
         if negb (starts_with (lit ":") after_target) then Some (trim_start after_target)
         else Some attribute
       | None => Some attribute
       end
     else Some attribute);
  let name_end :=
    find_or_len (fun c => negb (is_ascii_alphanumeric c) && negb (bool_decide (c ∈ lit "_.:")))
      attribute in
  if 0 <? name_end then
    tail ← drop_bytes name_end attribute; Some (starts_with (lit "(") (trim_start tail))
  else Some false.

(** [rest[close_open_brackets(rest, default, comments)?..]]. *)
Definition after_brackets (rest : str) (comments : LineComments) : option (Result OpenBrackets str) :=
  match close_open_brackets rest open_default comments with
  | Err open => Some (Err open)
  | Ok e => Ok <$> drop_bytes e rest
  end.

Definition or_else {A} (a b : option A) : option A :=
  match a with Some _ => a | None => b end.

(** The [loop] of [strip_annotation_prefix]; [None] is a panic or lack of fuel. *)
Fixpoint strip_annotation_loop (fuel : nat) (line : str) (comments : LineComments) :
    option (Result OpenBrackets str) :=
  match fuel with
  | 0 => None
  | S fuel =>
    let continue_at (r : option (Result OpenBrackets str)) :=
      match r with
      | Some (Ok rest) => strip_annotation_loop fuel (trim_start rest) comments
      | _ => r
      end in
    match strip_prefix (lit "@") line with
    | Some rest =>
      let identifier_end :=
        find_or_len (fun c => negb (is_ascii_alphanumeric c) &&
                              negb (bool_decide (c ∈ lit "_.$"))) rest in
      if identifier_end =? 0 then Some (Ok line)
      else
        rest ← drop_bytes identifier_end rest;
        continue_at (if starts_with (lit "(") rest then after_brackets rest comments
                     else Some (Ok rest))
    | None =>
      match or_else (strip_prefix (lit "#!") line) (strip_prefix (lit "#") line) with
      | Some rest =>
        if starts_with (lit "[") rest then continue_at (after_brackets rest comments)
        else Some (Ok line)    (* a line that starts with # is no C# attribute *)
      | None =>
        match strip_prefix (lit "[") line with
        | Some rest =>
          has_arguments ← csharp_attribute_has_arguments rest;
          if (has_arguments : bool) then continue_at (after_brackets line comments)
          else Some (Ok line)
        | None => Some (Ok line)
        end
      end
    end
  end.

Definition strip_annotation_prefix (line : str) (comments : LineComments) :
    option (Result OpenBrackets str) :=
  strip_annotation_loop (S (blen line)) line comments.

(** ** Code lines *)

(** [str::split_inclusive('\n')]. *)
Fixpoint split_inclusive (s : str) : list str :=
  match s with
  | [] => []
  | c :: s' =>
    if (c =? 10)%N then [c] :: split_inclusive s'
    else match split_inclusive s' with
         | [] => [[c]]
         | l :: ls => (c :: l) :: ls
         end
  end.

Record LineState := mkLines {
  loffset : nat;
  in_block_comment : bool;
  open_brackets : option OpenBrackets;
}.

Definition strip_suffix_or (p s : str) : str :=
  match strip_suffix p s with Some r => r | None => s end.

Definition is_skipped_code (code : str) : bool :=
  match code with
  | [] => true
  | _ =>
    starts_with (lit "//") code || starts_with (lit "#") code || starts_with (lit "*") code ||
    starts_with (lit "@") code || starts_with (lit "*/") code ||
    (starts_with (lit "[") code && ends_with (lit "]") code)
  end.

(** The part of the line after brackets that earlier lines left open. *)
Definition resume_brackets (trimmed : str) (open : option OpenBrackets) (comments : LineComments) :
    option (Result OpenBrackets str) :=
  match open with
  | None => Some (Ok trimmed)
  | Some open =>
    match close_open_brackets trimmed open comments with
    | Ok e => Ok ∘ trim_start <$> drop_bytes e trimmed
    | Err still => Some (Err still)
    end
  end.

(** The closure of [filter_map]; the outer [None] is a slice panic. *)
Definition line_step (comments : LineComments) (st : LineState) (line : str) :
    option (LineState * option (nat * nat)) :=
  let line_start := loffset st in
  let offset := loffset st + blen line in
  let line_without_newline := strip_suffix_or [13%N] (strip_suffix_or [10%N] line) in
  let trimmed := trim line_without_newline in
  let skip b o := Some (mkLines offset b o, None) in
  if in_block_comment st then
    skip (negb (contains (lit "*/") trimmed)) (open_brackets st)
  else
    resumed ← resume_brackets trimmed (open_brackets st) comments;
    match resumed with
    | Err still => skip false (Some still)
    | Ok rest =>
      if starts_with (lit "/*") rest then skip (negb (contains (lit "*/") rest)) None
      else
        stripped ← strip_annotation_prefix rest comments;
        match stripped with
        | Err still => skip false (Some still)
        | Ok code =>
          if is_skipped_code code then skip false None
          else
            let leading := (blen line_without_newline - blen (trim_start line_without_newline))
                           + (blen trimmed - blen code) in
            let trailing := blen line_without_newline - blen (trim_end line_without_newline) in
            Some (mkLines offset false None,
                  Some (line_start + leading, line_start + blen line_without_newline - trailing))
        end
    end.

Fixpoint code_lines_from (comments : LineComments) (st : LineState) (lines : list str) :
    option (list (nat * nat)) :=
  match lines with
  | [] => Some []
  | line :: lines =>
    '(st, r) ← line_step comments st line;
    rest ← code_lines_from comments st lines;
    Some (match r with Some range => range :: rest | None => rest end)
  end.

Definition code_line_ranges (text language : str) : option (list (nat * nat)) :=
  code_lines_from (for_language language) (mkLines 0 false None) (split_inclusive text).

Definition first_code_line_range (text language : str) : option (option (nat * nat)) :=
  head <$> code_line_ranges text language.
