(* ===== verification/TextLinesFacts.v ===== *)
(** * src/text.rs, second half: what the scanners promise.

  No slice of the code-line scanner leaves a character boundary, its loops end
  within the fuel, and the ranges it yields are the trimmed code of their
  lines.  [singularize_token] is stable on its regular results. *)
From S2P Require Import Prelude Utf8 TextLines.

#[local] Arguments is_whitespace : simpl never.

(** ** Boundaries *)

Lemma encode_high c b : (0x80 <= c)%N -> b ∈ encode_utf8 c -> (0x80 <= b)%N.
Proof.
  intros Hc Hb. unfold encode_utf8 in Hb.
  destruct (c <? 0x80)%N eqn:E; bool_to_prop; [lia|].
  repeat case_match;
    repeat (apply elem_of_cons in Hb as [->|Hb]; [etrans; [|apply N.le_add_r]; done|]);
    by apply not_elem_of_nil in Hb.
Qed.

(** An ASCII byte of the encoding is a whole character. *)
Lemma ascii_byte_boundary s i b :
  bytes s !! i = Some b -> (b < 0x80)%N ->
  exists p r, s = p ++ b :: r /\ blen p = i.
Proof.
  revert i. induction s as [|c s IH]; intros i Hi Hb; [done|].
  change (bytes (c :: s)) with (encode_utf8 c ++ bytes s) in Hi.
  apply lookup_app_Some in Hi as [Hi|[Hlen Hi]].
  - exists [], s. assert (c < 0x80)%N as Hc.
    { apply list_elem_of_lookup_2 in Hi. destruct (N.lt_ge_cases c 0x80); [done|].
      pose proof (encode_high c b H Hi). lia. }
    unfold encode_utf8 in Hi. rewrite (proj2 (N.ltb_lt _ _)) in Hi by done.
    destruct i; [|done]. by simplify_eq/=.
  - rewrite length_encode in *. destruct (IH _ Hi Hb) as (p & r & -> & Hp).
    exists (c :: p), r. simpl. split; [done|lia].
Qed.

Lemma drop_bytes_find f s : drop_bytes (find_or_len f s) s = Some (drop_while (fun c => negb (f c)) s).
Proof.
  unfold find_or_len. rewrite (drop_while_split (fun c => negb (f c)) s) at 2.
  apply drop_bytes_app.
Qed.

(** ** The bracket scanner *)

Definition delimiter_wf (string : option (list N)) : Prop :=
  match string with Some d => d <> [] | None => True end.

Lemma find_delimiter rest d :
  List.find (fun d => starts_with d rest) STRING_DELIMITERS = Some d -> d <> [].
Proof.
  intros H. apply find_some in H as [H _].
  repeat (destruct H as [<-|H]; [done|]). by destruct H.
Qed.

Lemma scan_fuel fuel1 : forall fuel2 comments bs offset string open,
  delimiter_wf string -> length bs < fuel1 + offset -> length bs < fuel2 + offset ->
  scan_brackets fuel1 comments bs offset string open =
  scan_brackets fuel2 comments bs offset string open.
Proof.
  induction fuel1 as [|fuel1 IH]; intros [|fuel2] comments bs offset string open Hwf H1 H2;
    [done| | |].
  1,2: simpl; rewrite (drop_ge bs offset) by lia; done.
  cbn [scan_brackets]. destruct (drop offset bs) as [|b0 rest]; [done|].
  destruct string as [d|].
  - assert (0 < length d) by (simpl in Hwf; destruct d; simpl; [done|lia]).
    repeat case_match; apply IH; (done || lia).
  - cbv beta. destruct (@List.find (list N) _ _) as [d|] eqn:Hd.
    + apply find_delimiter in Hd. assert (0 < length d) by (destruct d; simpl; [done|lia]).
      repeat case_match; try done; apply IH; (done || lia).
    + repeat case_match; try done; apply IH; (done || lia).
Qed.

(** A successful scan ends just past a closing bracket. *)
Lemma scan_closing fuel comments bs : forall offset string open e,
  scan_brackets fuel comments bs offset string open = Ok e ->
  exists i b, e = i + 1 /\ bs !! i = Some b /\ is_close_bracket b = true.
Proof.
  induction fuel as [|fuel IH]; intros offset string open e H; [done|]. simpl in H.
  destruct (drop offset bs) as [|b0 rest] eqn:Hd; [done|].
  assert (bs !! offset = Some b0) as Hb0.
  { rewrite <- (Nat.add_0_r offset), <- lookup_drop, Hd. done. }
  repeat case_match; simplify_eq/=; try (by eapply IH); try done.
  by exists offset, b0.
Qed.

Lemma close_bracket_ascii b : is_close_bracket b = true -> (b < 0x80)%N.
Proof.
  intros H. apply bool_decide_eq_true in H. vm_compute in H.
  repeat (apply elem_of_cons in H as [->|H]; [lia|]). by apply not_elem_of_nil in H.
Qed.

Lemma close_open_brackets_slice text open comments e :
  close_open_brackets text open comments = Ok e ->
  exists p r, text = p ++ r /\ p <> [] /\ drop_bytes e text = Some r.
Proof.
  intros H. apply scan_closing in H as (i & b & -> & Hi & Hb).
  apply close_bracket_ascii in Hb.
  destruct (ascii_byte_boundary _ _ _ Hi Hb) as (p & r & -> & <-).
  exists (p ++ [b]), r. split; [by rewrite <- app_assoc|]. split; [by destruct p|].
  change (p ++ b :: r) with (p ++ [b] ++ r). rewrite app_assoc.
  replace (blen p + 1) with (blen (p ++ [b])); [apply drop_bytes_app|].
  rewrite blen_app. simpl. rewrite len_utf8_ascii; [lia|]. by apply N.ltb_lt.
Qed.

(** ** Trimming *)

Definition starts_clean (s : str) : Prop :=
  match s with [] => True | c :: _ => is_whitespace c = false end.

Lemma trim_start_clean s : starts_clean (trim_start s).
Proof. unfold trim_start. induction s as [|c s IH]; simpl; [done|]. by case_match. Qed.

Lemma trim_start_suffix s : exists p, s = p ++ trim_start s.
Proof. eexists. apply drop_while_split. Qed.

Lemma trim_end_prefix s : exists q, s = trim_end s ++ q.
Proof.
  unfold trim_end. exists (reverse (take_while is_whitespace (reverse s))).
  rewrite <- reverse_app, <- drop_while_split. by rewrite reverse_involutive.
Qed.

Lemma drop_while_id {A} (f : A -> bool) l :
  match l with [] => True | x :: _ => f x = false end -> drop_while f l = l.
Proof. destruct l; simpl; [done|]. by intros ->. Qed.

Lemma take_while_all_id {A} (f : A -> bool) l :
  Forall (fun x => f x = true) l -> take_while f l = l /\ drop_while f l = [].
Proof. induction 1 as [|x l Hx _ [IH1 IH2]]; simpl; [done|]. rewrite Hx. by rewrite IH1. Qed.

Lemma drop_while_app {A} (f : A -> bool) l1 l2 :
  drop_while f (l1 ++ l2) =
  match drop_while f l1 with [] => drop_while f l2 | r => r ++ l2 end.
Proof. induction l1 as [|x l1 IH]; simpl; [done|]. by destruct (f x). Qed.

(** A line is white space, the trimmed line, white space. *)
Lemma trim_decompose s :
  exists p q, s = p ++ trim s ++ q /\ trim_start s = trim s ++ q /\
    (trim s <> [] -> trim_end s = p ++ trim s) /\ starts_clean (trim s).
Proof.
  unfold trim. destruct (trim_start_suffix s) as [p Hp]. destruct (trim_end_prefix (trim_start s)) as [q Hq].
  exists p, q. rewrite <- Hq. split; [done|]. split; [done|]. split.
  - intros Hne. unfold trim_end. rewrite Hp at 1. rewrite reverse_app, drop_while_app.
    fold (trim_end (trim_start s)). unfold trim_end in Hne |- *.
    destruct (drop_while is_whitespace (reverse (trim_start s))) as [|x l] eqn:E; [done|].
    by rewrite reverse_app, reverse_involutive.
  - pose proof (trim_start_clean s) as Hc. rewrite Hq in Hc.
    destruct (trim_end (trim_start s)) as [|c t]; [done|]. done.
Qed.

Definition ends_clean (s : str) : Prop :=
  match last s with None => True | Some c => is_whitespace c = false end.

Lemma trim_end_clean s : ends_clean (trim_end s).
Proof.
  unfold ends_clean, trim_end. rewrite last_reverse.
  pose proof (trim_start_clean (reverse s)) as H. unfold trim_start in H.
  by destruct (drop_while is_whitespace (reverse s)).
Qed.

(** ** Annotations *)

(** [code] is a clean suffix of [line]. *)
Definition clean_suffix (line code : str) : Prop :=
  starts_clean code /\ exists p, line = p ++ code.

Lemma clean_suffix_refl line : starts_clean line -> clean_suffix line line.
Proof. intros. split; [done|]. by exists []. Qed.

Lemma clean_suffix_step line p rest code :
  line = p ++ rest -> clean_suffix (trim_start rest) code -> clean_suffix line code.
Proof.
  intros -> [Hc [q Hq]]. split; [done|]. destruct (trim_start_suffix rest) as [r Hr].
  exists (p ++ r ++ q). rewrite Hr at 1. by rewrite Hq, <- !app_assoc.
Qed.

Lemma csharp_never_panics rest : is_Some (csharp_attribute_has_arguments rest).
Proof.
  unfold csharp_attribute_has_arguments. cbv zeta.
  match goal with |- is_Some (?a ≫= _) => assert (is_Some a) as [x Hx] end.
  - destruct (0 <? _); [|by eexists]. rewrite drop_bytes_find. cbn [mbind option_bind].
    destruct (strip_prefix (lit ":") _); [|by eexists]. destruct (negb _); by eexists.
  - rewrite Hx. cbn [mbind option_bind]. clear Hx. case_match; [|by eexists].
    rewrite drop_bytes_find. by eexists.
Qed.

Lemma after_brackets_spec rest comments :
  exists r, after_brackets rest comments = Some r /\
    match r with Ok s => exists p, p <> [] /\ rest = p ++ s | Err _ => True end.
Proof.
  unfold after_brackets. destruct (close_open_brackets rest open_default comments) as [e|o] eqn:E.
  - destruct (close_open_brackets_slice _ _ _ _ E) as (p & r & -> & Hp & ->). simpl.
    eexists. split; [done|]. by exists p.
  - by eexists.
Qed.

Lemma length_trim_start s : length (trim_start s) <= length s.
Proof. destruct (trim_start_suffix s) as [p Hp]. rewrite Hp at 2. rewrite length_app. lia. Qed.

Lemma strip_annotation_spec fuel line comments :
  starts_clean line -> length line < fuel ->
  exists r, strip_annotation_loop fuel line comments = Some r /\
    match r with Ok code => clean_suffix line code | Err _ => True end.
Proof.
  revert line. induction fuel as [|fuel IH]; intros line Hclean Hf; [lia|]. cbn [strip_annotation_loop].
  assert (forall p s, p <> [] -> line = p ++ s ->
            exists r, strip_annotation_loop fuel (trim_start s) comments = Some r /\
              match r with Ok code => clean_suffix line code | Err _ => True end) as Hstep.
  { intros p s Hp Hline. destruct (IH (trim_start s)) as (r & -> & Hr).
    - apply trim_start_clean.
    - pose proof (length_trim_start s). rewrite Hline, length_app in Hf. destruct p; [done|].
      simpl in Hf. lia.
    - exists r. split; [done|]. destruct r; [|done]. by eapply clean_suffix_step. }
  assert (forall p s, line = p ++ s ->
            exists r, match after_brackets s comments with
                      | Some (Ok rest) => strip_annotation_loop fuel (trim_start rest) comments
                      | _ => after_brackets s comments
                      end = Some r /\
              match r with Ok code => clean_suffix line code | Err _ => True end) as Hbr.
  { intros p s Hline. destruct (after_brackets_spec s comments) as ([t|o] & -> & Hr).
    - destruct Hr as (q & Hq & ->). apply (Hstep (p ++ q)).
      + by destruct p, q.
      + by rewrite <- app_assoc.
    - by exists (Err o). }
  assert (exists r, Some (Ok (E := OpenBrackets) line) = Some r /\
            match r with Ok code => clean_suffix line code | Err _ => True end) as Hdone.
  { exists (Ok line). split; [done|]. by apply clean_suffix_refl. }
  destruct (strip_prefix (lit "@") line) as [rest|] eqn:Hat.
  { case_match; [done|]. apply strip_prefix_Some in Hat. rewrite drop_bytes_find. cbn [mbind option_bind].
    set (tail := drop_while _ rest).
    assert (exists p, p <> [] /\ line = p ++ tail) as (p & Hp & Hline).
    { rewrite Hat. exists (lit "@" ++ take_while (fun c => negb (negb (is_ascii_alphanumeric c) &&
        negb (bool_decide (c ∈ lit "_.$")))) rest).
      split; [done|]. rewrite <- app_assoc. f_equal. apply drop_while_split. }
    destruct (starts_with _ tail); [by apply (Hbr p)|by apply (Hstep p)]. }
  destruct (or_else _ _) as [rest|] eqn:Hhash.
  { assert (exists p, line = p ++ rest) as (p & Hline).
    { destruct (strip_prefix (lit "#!") line) eqn:E; cbn [or_else] in Hhash;
        [injection Hhash as <-|]; eexists; eapply strip_prefix_Some; eassumption. }
    destruct (starts_with _ rest); [by apply (Hbr p)|done]. }
  destruct (strip_prefix (lit "[") line) as [rest|] eqn:Hbk; [|done].
  destruct (csharp_never_panics rest) as [b ->]. cbn [mbind option_bind].
  destruct b; [by apply (Hbr [])|done].
Qed.

(** ** Lines *)

Lemma strip_suffix_app p s : strip_suffix p (s ++ p) = Some s.
Proof.
  unfold strip_suffix. rewrite reverse_app, strip_prefix_app. simpl. by rewrite reverse_involutive.
Qed.

Lemma strip_suffix_Some p s r : strip_suffix p s = Some r -> s = r ++ p.
Proof.
  unfold strip_suffix. intros H. apply fmap_Some in H as (t & H & ->).
  apply strip_prefix_Some in H. rewrite <- (reverse_involutive s), H, reverse_app.
  by rewrite reverse_involutive.
Qed.

Lemma strip_suffix_or_spec p s : exists q, s = strip_suffix_or p s ++ q.
Proof.
  unfold strip_suffix_or. destruct (strip_suffix p s) as [r|] eqn:E.
  - exists p. by apply strip_suffix_Some.
  - exists []. by rewrite app_nil_r.
Qed.

Definition is_line (l : str) : Prop := exists b, (l = b ++ [10%N] \/ l = b) /\ 10%N ∉ b.

Lemma split_inclusive_spec s : concat (split_inclusive s) = s /\ Forall is_line (split_inclusive s).
Proof.
  induction s as [|c s [IHc IHl]]; simpl; [done|]. destruct (c =? 10)%N eqn:E; bool_to_prop.
  - subst c. simpl. split; [by f_equal|]. constructor; [|done]. exists []. split; [by left|].
    apply not_elem_of_nil.
  - destruct (split_inclusive s) as [|l ls]; simpl in *.
    + split; [by f_equal|]. constructor; [|done]. exists [c]. split; [by right|].
      rewrite elem_of_cons. set_solver.
    + split; [by f_equal|]. apply Forall_cons in IHl as [(b & Hb & Hn) Hls]. constructor; [|done].
      exists (c :: b). split; [destruct Hb as [-> | ->]; [by left|by right]|]. set_solver.
Qed.

Lemma line_body l :
  is_line l ->
  exists q, l = strip_suffix_or [13%N] (strip_suffix_or [10%N] l) ++ q /\
            10%N ∉ strip_suffix_or [13%N] (strip_suffix_or [10%N] l).
Proof.
  intros (b & Hb & Hn). set (l1 := strip_suffix_or [10%N] l).
  assert (l1 = b) as ->.
  { unfold l1, strip_suffix_or. destruct Hb as [-> | ->]; [by rewrite strip_suffix_app|].
    destruct (strip_suffix [10%N] b) as [r|] eqn:E; [|done].
    apply strip_suffix_Some in E. subst b. set_solver. }
  destruct (strip_suffix_or_spec [13%N] b) as [q2 Hq2].
  assert (10%N ∉ strip_suffix_or [13%N] b) as Hn2.
  { intros Hin. apply Hn. rewrite Hq2. set_solver. }
  destruct Hb as [-> | ->].
  - exists (q2 ++ [10%N]). split; [|done]. by rewrite app_assoc, <- Hq2.
  - by exists q2.
Qed.

(** What a yielded range is, in the text. *)
Definition range_ok (text : str) (r : nat * nat) : Prop :=
  exists code, slice text (fst r) (snd r) = Some code /\ code <> [] /\
    starts_clean code /\ ends_clean code /\ (10%N ∉ code) /\ is_skipped_code code = false.

Lemma resume_spec trimmed open comments :
  starts_clean trimmed ->
  exists r, resume_brackets trimmed open comments = Some r /\
    match r with Ok rest => clean_suffix trimmed rest | Err _ => True end.
Proof.
  intros Hc. unfold resume_brackets. destruct open as [open|].
  - destruct (close_open_brackets trimmed open comments) as [e|o] eqn:E; [|by eexists].
    destruct (close_open_brackets_slice _ _ _ _ E) as (p & r & -> & Hp & ->). simpl.
    eexists. split; [done|]. split; [apply trim_start_clean|].
    destruct (trim_start_suffix r) as [q Hq]. exists (p ++ q). by rewrite <- app_assoc, <- Hq.
  - eexists. split; [done|]. by apply clean_suffix_refl.
Qed.

(** The range arithmetic of one line. *)
Lemma range_of_code pre lwn q post code p' :
  let trimmed := trim lwn in
  trimmed = p' ++ code -> code <> [] -> starts_clean code -> 10%N ∉ lwn ->
  is_skipped_code code = false ->
  let leading := (blen lwn - blen (trim_start lwn)) + (blen trimmed - blen code) in
  let trailing := blen lwn - blen (trim_end lwn) in
  let a := blen pre + leading in
  let b := blen pre + blen lwn - trailing in
  blen pre <= a /\ a < b /\ b <= blen pre + blen lwn /\
  range_ok (pre ++ (lwn ++ q) ++ post) (a, b).
Proof.
  intros trimmed Ht Hne Hclean Hnl Hskip leading trailing a b.
  destruct (trim_decompose lwn) as (P & Q & Hl & Hts & Hte & _). fold trimmed in Hl, Hts, Hte.
  assert (trimmed <> []) as Htne by (rewrite Ht; by destruct p').
  specialize (Hte Htne).
  assert (leading = blen P + blen p') as Hlead.
  { unfold leading. rewrite Hts, Hl, Ht, !blen_app. lia. }
  assert (blen lwn = blen P + (blen p' + blen code) + blen Q) as Hlen.
  { rewrite Hl, Ht, !blen_app. lia. }
  assert (b = blen pre + blen P + blen p' + blen code) as Hb.
  { unfold b, trailing. rewrite Hte, Hlen, Ht, !blen_app. lia. }
  assert (0 < blen code).
  { destruct code as [|c code]; [done|]. simpl. pose proof (len_utf8_pos c). lia. }
  unfold a. rewrite Hlead, Hb. repeat split; [lia..|].
  exists code. simpl. split; [|split; [done|]]; [|split; [done|]].
  - replace (pre ++ (lwn ++ q) ++ post) with ((pre ++ P ++ p') ++ code ++ (Q ++ q ++ post)).
    + replace (blen pre + (blen P + blen p')) with (blen (pre ++ P ++ p')) by (rewrite !blen_app; lia).
      replace (blen pre + blen P + blen p' + blen code) with (blen (pre ++ P ++ p') + blen code)
        by (rewrite !blen_app; lia).
      apply slice_app.
    + rewrite Hl, Ht. by rewrite <- !app_assoc.
  - split; [|split; [|done]].
    + assert (ends_clean trimmed) as He by apply trim_end_clean.
      rewrite Ht in He. unfold ends_clean in *. rewrite last_app in He.
      destruct (last code) eqn:E; [done|]. by apply last_None in E.
    + intros Hin. apply Hnl. rewrite Hl, Ht. set_solver.
Qed.

Lemma line_step_spec comments st line pre post :
  is_line line -> loffset st = blen pre ->
  exists st' r, line_step comments st line = Some (st', r) /\
    loffset st' = blen (pre ++ line) /\
    match r with
    | Some (a, b) => blen pre <= a /\ a < b /\ b <= blen (pre ++ line) /\
                     range_ok (pre ++ line ++ post) (a, b)
    | None => True
    end.
Proof.
  intros Hline Hoff. destruct (line_body line Hline) as (q & Hq & Hnl).
  unfold line_step. set (lwn := strip_suffix_or [13%N] (strip_suffix_or [10%N] line)) in *.
  destruct (trim_decompose lwn) as (_ & _ & _ & _ & _ & Hclean).
  rewrite Hoff, blen_app.
  destruct (in_block_comment st); [by eexists _, None|].
  destruct (resume_spec (trim lwn) (open_brackets st) comments Hclean) as (resumed & -> & Hres).
  cbn [mbind option_bind]. destruct resumed as [rest|still]; [|by eexists _, None].
  destruct (starts_with _ rest); [by eexists _, None|].
  destruct (strip_annotation_spec (S (blen rest)) rest comments) as (stripped & Hs & Hcode).
  { apply Hres. }
  { assert (forall r, length r <= blen r) as Hlen; [|specialize (Hlen rest); lia].
    induction r as [|c r IH]; simpl; [done|]. pose proof (len_utf8_pos c). lia. }
  unfold strip_annotation_prefix. rewrite Hs. cbn [mbind option_bind].
  destruct stripped as [code|still]; [|by eexists _, None].
  destruct (is_skipped_code code) eqn:Hskip; [by eexists _, None|].
  destruct Hres as [_ [p1 Hp1]], Hcode as [Hcl [p2 Hp2]].
  destruct (range_of_code pre lwn q post code (p1 ++ p2)) as (H1 & H2 & H3 & H4); try done.
  { by rewrite Hp1, Hp2, app_assoc. }
  { by destruct code. }
  eexists _, (Some _). split; [done|]. split; [done|]. rewrite <- Hq in H4.
  split; [done|]. split; [done|]. split; [|done].
  pose proof (f_equal blen Hq) as Hlen. rewrite blen_app in Hlen. lia.
Qed.

Lemma code_lines_spec comments text lines : forall st pre,
  Forall is_line lines -> text = pre ++ concat lines -> loffset st = blen pre ->
  exists rs, code_lines_from comments st lines = Some rs /\
    Forall (fun r => blen pre <= fst r /\ fst r < snd r /\ range_ok text r) rs /\
    StronglySorted (fun r1 r2 => snd r1 <= fst r2) rs.
Proof.
  induction lines as [|line lines IH]; intros st pre Hl Ht Hoff.
  { exists []. split; [done|]. split; constructor. }
  apply Forall_cons in Hl as [Hline Hl]. simpl in Ht.
  destruct (line_step_spec comments st line pre (concat lines) Hline Hoff)
    as (st' & r & Hstep & Hoff' & Hr).
  destruct (IH st' (pre ++ line) Hl) as (rs & Hrs & Hf & Hsort); [by rewrite <- app_assoc|done|].
  cbn [code_lines_from]. rewrite Hstep. cbn [mbind option_bind]. rewrite Hrs. cbn [mbind option_bind].
  eexists. split; [done|].
  assert (Forall (fun r => blen pre <= fst r /\ fst r < snd r /\ range_ok text r) rs) as Hf'.
  { eapply Forall_impl; [exact Hf|]. simpl. intros x. rewrite blen_app. naive_solver lia. }
  destruct r as [[a b]|]; [|done]. rewrite <- Ht in Hr. split.
  - constructor; [|done]. naive_solver.
  - constructor; [done|]. eapply Forall_impl; [exact Hf|]. simpl. intros x. naive_solver lia.
Qed.

(** ** Singular forms *)

Definition lowercase (s : str) : Prop := Forall (fun c => is_ascii_lowercase c = true) s.

Lemma to_ascii_lowercase_id s : lowercase s -> map to_ascii_lowercase s = s.
Proof.
  induction 1 as [|c s Hc _ IH]; [done|]. simpl. rewrite IH. f_equal.
  unfold to_ascii_lowercase. case_match eqn:E; [|done].
  unfold is_ascii_lowercase, is_ascii_uppercase, between in *. bool_to_prop. lia.
Qed.

Lemma lowercase_map s : forallb is_ascii_alphabetic s = true -> lowercase (map to_ascii_lowercase s).
Proof.
  induction s as [|c s IH]; simpl; [constructor|]. intros H. bool_to_prop. constructor; [|by apply IH].
  unfold to_ascii_lowercase, is_ascii_alphabetic, is_ascii_lowercase, is_ascii_uppercase, between in *.
  destruct (N.leb_spec 65 c), (N.leb_spec c 90), (N.leb_spec 97 c), (N.leb_spec c 122);
    simpl in *; try done; try lia;
    apply andb_true_iff; rewrite !N.leb_le; lia.
Qed.

Lemma lowercase_alphabetic s : lowercase s -> forallb is_ascii_alphabetic s = true.
Proof.
  induction 1 as [|c s Hc _ IH]; [done|]. simpl. rewrite IH, andb_true_r.
  unfold is_ascii_alphabetic. by rewrite Hc.
Qed.

(** Words that no plural rule applies to: they do not end in [s], or they end in [ss]. *)
Definition no_plural_ending (s : str) : Prop :=
  match reverse s with
  | [] => True
  | c :: l => c <> chr "s" \/ head l = Some (chr "s")
  end.

Lemma no_es_suffix s p q :
  no_plural_ending s -> reverse p = chr "s" :: chr "e" :: q -> strip_suffix p s = None.
Proof.
  intros Hn Hp. destruct (strip_suffix p s) as [r|] eqn:E; [|done].
  apply strip_suffix_Some in E. subst s. unfold no_plural_ending in Hn.
  rewrite reverse_app, Hp in Hn. simpl in Hn. by destruct Hn as [Hn|[=]].
Qed.

Lemma strip_sibilant_none sfxs s :
  Forall (fun p => strip_suffix p s = None) sfxs -> strip_sibilant sfxs s = None.
Proof. induction 1 as [|p sfxs Hp _ IH]; [done|]. cbn [strip_sibilant]. by rewrite Hp. Qed.

Lemma no_plural_rules s :
  no_plural_ending s ->
  strip_ies s = None /\ strip_sibilant sibilant_suffixes s = None /\ strip_s s = None.
Proof.
  intros Hn. split; [|split].
  - unfold strip_ies. by rewrite (no_es_suffix s _ [chr "i"] Hn).
  - apply strip_sibilant_none.
    repeat (apply Forall_cons; split; [by eapply no_es_suffix|]). apply Forall_nil_2.
  - unfold strip_s. destruct (strip_suffix (lit "s") s) as [r|] eqn:E; [|done].
    apply strip_suffix_Some in E. subst s. unfold no_plural_ending, ends_with, starts_with in *.
    rewrite reverse_app in *. destruct Hn as [Hn|Hn]; [by destruct Hn|].
    destruct (reverse r) as [|c l]; [done|]. injection Hn as ->. done.
Qed.

Lemma singularize_stable s :
  lowercase s -> no_plural_ending s ->
  irregular_singular s = None \/ irregular_singular s = Some s -> singularize_token s = s.
Proof.
  intros Hl Hn Hi. unfold singularize_token. case_match; [done|].
  rewrite to_ascii_lowercase_id by done. destruct Hi as [-> | ->]; [|done].
  by destruct (no_plural_rules s Hn) as (-> & -> & ->).
Qed.

Lemma irregular_values_stable :
  forallb (fun kv => bool_decide (singularize_token (snd kv) = snd kv)) irregular_table = true.
Proof. vm_compute. reflexivity. Qed.

Lemma irregular_Some k v : irregular_singular k = Some v -> singularize_token v = v.
Proof.
  unfold irregular_singular. intros Hf. apply fmap_Some in Hf as ([k' v'] & Hf & ->).
  apply find_some in Hf as [Hin _].
  pose proof (proj1 (forallb_forall _ _) irregular_values_stable _ Hin) as H.
  by apply bool_decide_eq_true in H.
Qed.

Lemma lowercase_app s1 s2 : lowercase (s1 ++ s2) <-> lowercase s1 /\ lowercase s2.
Proof. apply Forall_app. Qed.

Lemma strip_sibilant_inv sfxs token r :
  strip_sibilant sfxs token = Some r ->
  exists sfx stem, List.In sfx sfxs /\ token = stem ++ sfx /\ r = stem ++ take (length sfx - 2) sfx.
Proof.
  induction sfxs as [|sfx sfxs IH]; [done|]. cbn [strip_sibilant]. intros H.
  assert (strip_sibilant sfxs token = Some r ->
          exists sfx' stem, List.In sfx' (sfx :: sfxs) /\ token = stem ++ sfx' /\
                            r = stem ++ take (length sfx' - 2) sfx') as Hrest.
  { intros Hr. destruct (IH Hr) as (sfx' & stem & Hin & Ht). exists sfx', stem. split; [by right|done]. }
  destruct (strip_suffix sfx token) as [stem|] eqn:E; [|by apply Hrest].
  destruct (2 <=? blen stem); [|by apply Hrest]. injection H as <-.
  exists sfx, stem. split; [by left|]. split; [by apply strip_suffix_Some|done].
Qed.

Lemma sibilant_result token r :
  lowercase token -> strip_sibilant sibilant_suffixes token = Some r ->
  lowercase r /\ no_plural_ending r.
Proof.
  intros Hl H. apply strip_sibilant_inv in H as (sfx & stem & Hin & -> & ->).
  apply lowercase_app in Hl as [Hst Hsf]. split.
  - apply lowercase_app. split; [done|]. by apply Forall_take.
  - unfold no_plural_ending. rewrite reverse_app.
    repeat (destruct Hin as [<-|Hin]; [vm_compute; naive_solver|]). by destruct Hin.
Qed.

Lemma ies_result token r :
  lowercase token -> strip_ies token = Some r -> lowercase r /\ no_plural_ending r.
Proof.
  unfold strip_ies. intros Hl H. destruct (strip_suffix _ token) as [stem|] eqn:E; [|done].
  case_match; [|done]. simplify_eq. apply strip_suffix_Some in E as ->.
  apply lowercase_app in Hl as [Hst _]. split.
  - apply lowercase_app. split; [done|]. by repeat constructor.
  - unfold no_plural_ending. rewrite reverse_app. by left.
Qed.

Lemma s_result token r :
  lowercase token -> strip_s token = Some r -> lowercase r /\ no_plural_ending r.
Proof.
  unfold strip_s. intros Hl H. destruct (strip_suffix _ token) as [stem|] eqn:E; [|done].
  case_match eqn:Hc; [|done]. simplify_eq. apply strip_suffix_Some in E as ->.
  apply lowercase_app in Hl as [Hst _]. split; [done|].
  bool_to_prop. unfold no_plural_ending, ends_with, starts_with in *.
  rewrite reverse_app in *. simpl in *. destruct (reverse r) as [|c l]; [done|]. left. intros ->.
  by destruct l.
Qed.

Lemma singularize_result t r :
  singularize_token t = r ->
  r = t \/ singularize_token r = r \/ (lowercase r /\ no_plural_ending r) \/
  r = map to_ascii_lowercase t.
Proof.
  unfold singularize_token at 1. destruct (_ || _) eqn:Hshort; [by left|].
  apply orb_false_iff in Hshort as [_ Ha]. apply negb_false_iff, lowercase_map in Ha.
  destruct (irregular_singular _) as [v|] eqn:Hirr.
  { intros <-. right; left. by eapply irregular_Some. }
  destruct (strip_ies _) as [?|] eqn:Hies; [intros <-; right; right; left; by eapply ies_result|].
  destruct (strip_sibilant _ _) as [?|] eqn:Hsib;
    [intros <-; right; right; left; by eapply sibilant_result|].
  destruct (strip_s _) as [?|] eqn:Hs; [intros <-; right; right; left; by eapply s_result|].
  intros <-. by right; right; right.
Qed.

Lemma map_lower_idem t : map to_ascii_lowercase (map to_ascii_lowercase t) = map to_ascii_lowercase t.
Proof.
  rewrite map_map. apply map_ext. intros c. unfold to_ascii_lowercase.
  destruct (is_ascii_uppercase c) eqn:E; [|by rewrite E].
  case_match eqn:E2; [|done]. unfold is_ascii_uppercase, between in *. bool_to_prop. lia.
Qed.

Lemma blen_lower t : forallb is_ascii_alphabetic t = true -> blen (map to_ascii_lowercase t) = blen t.
Proof.
  induction t as [|c t IH]; simpl; [done|]. intros H. bool_to_prop. rewrite IH by done. f_equal.
  unfold is_ascii_alphabetic, is_ascii_lowercase, is_ascii_uppercase, between in *.
  assert (c <= 122)%N by (repeat match goal with H : _ || _ = true |- _ => apply orb_true_iff in H as [H|H] end;
    bool_to_prop; lia).
  unfold to_ascii_lowercase, is_ascii_uppercase, between, len_utf8.
  repeat case_match; bool_to_prop; try done; lia.
Qed.

Lemma singularize_lower t :
  singularize_token t = map to_ascii_lowercase t ->
  singularize_token (map to_ascii_lowercase t) = map to_ascii_lowercase t.
Proof.
  unfold singularize_token.
  destruct ((blen t <=? 3) || negb (forallb is_ascii_alphabetic t)) eqn:Hshort.
  - intros <-. by rewrite Hshort.
  - apply orb_false_iff in Hshort as [Hlen Ha]. apply negb_false_iff in Ha.
    rewrite blen_lower, Hlen, lowercase_alphabetic by (done || by apply lowercase_map).
    simpl. by rewrite map_lower_idem.
Qed.

(** ** Properties *)

(** The code-line scanner never slices off a character boundary and ends, on
    any text and language.  Its ranges are nonempty, increasing and disjoint;
    each is one line's code: within one line, without surrounding white space,
    and not a comment, an attribute line or an annotation start. *)
Theorem code_line_ranges_are_code_lines (text language : str) :
  exists rs, code_line_ranges text language = Some rs /\
    Forall (fun r => fst r < snd r /\ range_ok text r) rs /\
    StronglySorted (fun r1 r2 => snd r1 <= fst r2) rs.
Proof.
  destruct (split_inclusive_spec text) as [Hc Hl].
  destruct (code_lines_spec (for_language language) text (split_inclusive text)
              (mkLines 0 false None) [] Hl) as (rs & Hrs & Hf & Hs); [by rewrite Hc|done|].
  exists rs. split; [done|]. split; [|done]. eapply Forall_impl; [exact Hf|]. naive_solver.
Qed.

(** [close_open_brackets] ends: any fuel above the length of the text gives
    the same answer, whatever string or comment is open, so the model's fuel
    never decides a result. *)
Theorem close_open_brackets_fuel (text : str) (open : OpenBrackets) (comments : LineComments)
    (fuel : nat) :
  delimiter_wf (ostring open) -> blen text < fuel ->
  close_open_brackets text open comments =
  scan_brackets fuel comments (bytes text) 0 (ostring open)
    {| depth := depth open; ostring := None; block_comment := block_comment open |}.
Proof. intros Hwf Hf. apply scan_fuel; [done| |]; rewrite length_bytes; lia. Qed.

Lemma close_open_brackets_fuel_witness :
  close_open_brackets (lit "@get('/a)') def") open_default Hash =
  scan_brackets 100 Hash (bytes (lit "@get('/a)') def")) 0 None open_default /\
  close_open_brackets (lit "@get('/a)') def") open_default Hash = Ok 11.
Proof.
  split; [|vm_compute; reflexivity].
  apply (close_open_brackets_fuel (lit "@get('/a)') def") open_default Hash 100).
  - exact I.
  - vm_compute. lia.
Defined.

(** [singularize_token] is idempotent, except where its result happens to be
    the key of an irregular plural (as [childrens], [children], [child]). *)
Theorem singularize_token_idempotent (token : str) :
  irregular_singular (singularize_token token) = None \/
  irregular_singular (singularize_token token) = Some (singularize_token token) ->
  singularize_token (singularize_token token) = singularize_token token.
Proof.
  intros Hi. destruct (singularize_result token _ eq_refl) as [Ht|[Hv|[[Hl Hn]|Ht]]].
  - by rewrite !Ht.
  - done.
  - by apply singularize_stable.
  - rewrite Ht at 1. rewrite singularize_lower by done. by rewrite Ht.
Qed.

Lemma singularize_token_idempotent_witness :
  singularize_token (singularize_token (lit "Queries")) = singularize_token (lit "Queries").
Proof.
  apply (singularize_token_idempotent (lit "Queries")). left. vm_compute. reflexivity.
Defined.

(** The irregular entry for [men] is never used: a three-letter token is
    returned before the table is read, so [men] stays [men] while the table maps
    it to [man], and [women], read through the same table, becomes [woman]. *)
Lemma singularize_men_unreachable :
  irregular_singular (lit "men") = Some (lit "man") /\
  singularize_token (lit "men") = lit "men" /\
  singularize_token (lit "women") = lit "woman".
Proof. vm_compute. done. Qed.
