(* ===== verification/Paths.v ===== *)
(** * Unix paths as byte strings: [std::path] and [index_path_string].

  A path is its bytes.  [components] is [Path::components], [push] is
  [PathBuf::push]; [to_str] succeeds on well-formed UTF-8 and
  [to_string_lossy] substitutes U+FFFD for every maximal ill-formed part. *)
From S2P Require Import Prelude Utf8 BTree.

Abbreviation path := (list N).

Definition SEP : N := chr "/".

(** One step of the standard library's UTF-8 decoder: whether the next bytes
    are a character, and how many they are. *)
Definition utf8_step (l : list N) : option (bool * nat) :=
  match l with
  | [] => None
  | b0 :: l' =>
    let get i := nth i l' 0%N in
    let cont b := between 0x80 0xBF b in
    Some
      (if (b0 <? 0x80)%N then (true, 1)
       else if between 0xC2 0xDF b0 then if cont (get 0) then (true, 2) else (false, 1)
       else if between 0xE0 0xEF b0 then
         if (if (b0 =? 0xE0)%N then between 0xA0 0xBF (get 0)
             else if (b0 =? 0xED)%N then between 0x80 0x9F (get 0)
             else cont (get 0))
         then if cont (get 1) then (true, 3) else (false, 2)
         else (false, 1)
       else if between 0xF0 0xF4 b0 then
         if (if (b0 =? 0xF0)%N then between 0x90 0xBF (get 0)
             else if (b0 =? 0xF4)%N then between 0x80 0x8F (get 0)
             else cont (get 0))
         then if cont (get 1) then if cont (get 2) then (true, 4) else (false, 3)
              else (false, 2)
         else (false, 1)
       else (false, 1))
  end.

Fixpoint valid_utf8_loop (fuel : nat) (l : list N) : bool :=
  match fuel with
  | O => match l with [] => true | _ => false end
  | S fuel =>
    match utf8_step l with
    | None => true
    | Some (true, n) => valid_utf8_loop fuel (drop n l)
    | Some (false, _) => false
    end
  end.
Definition valid_utf8 (l : list N) : bool := valid_utf8_loop (length l) l.

Definition to_str (p : path) : option (list N) :=
  if valid_utf8 p then Some p else None.

Fixpoint lossy_loop (fuel : nat) (l : list N) : list N :=
  match fuel with
  | O => []
  | S fuel =>
    match utf8_step l with
    | None => []
    | Some (true, n) => take n l ++ lossy_loop fuel (drop n l)
    | Some (false, n) => [0xEF; 0xBF; 0xBD]%N ++ lossy_loop fuel (drop n l)
    end
  end.
Definition to_string_lossy (p : path) : list N :=
  if valid_utf8 p then p else lossy_loop (length p) p.

(** The characters of the lossy decoding, which [String::from_utf8_lossy] gives. *)
Definition REPLACEMENT : char := 0xFFFD%N.
Definition decode_char (l : list N) : char :=
  match l with
  | [b0] => b0
  | [b0; b1] => (b0 - 0xC0) * 0x40 + (b1 - 0x80)
  | [b0; b1; b2] => (b0 - 0xE0) * 0x1000 + (b1 - 0x80) * 0x40 + (b2 - 0x80)
  | [b0; b1; b2; b3] => (b0 - 0xF0) * 0x40000 + (b1 - 0x80) * 0x1000 + (b2 - 0x80) * 0x40 + (b3 - 0x80)
  | _ => REPLACEMENT
  end%N.
Fixpoint chars_loop (fuel : nat) (l : list N) : str :=
  match fuel with
  | O => []
  | S fuel =>
    match utf8_step l with
    | None => []
    | Some (true, n) => decode_char (take n l) :: chars_loop fuel (drop n l)
    | Some (false, n) => REPLACEMENT :: chars_loop fuel (drop n l)
    end
  end.
Definition lossy_chars (l : list N) : str := chars_loop (length l) l.

(** [std::str::from_utf8]: where the first error is, and whether it is a character
    cut off by the end ([error_len] is [None]). *)
Inductive Utf8Check := Valid | Invalid (valid_up_to : nat) (cut_off : bool).
Fixpoint from_utf8_loop (fuel pos : nat) (l : list N) : Utf8Check :=
  match fuel with
  | O => Valid
  | S fuel =>
    match utf8_step l with
    | None => Valid
    | Some (true, n) => from_utf8_loop fuel (pos + n) (drop n l)
    | Some (false, n) => Invalid pos (between 0xC2 0xF4 (hd 0%N l) && (n =? length l))
    end
  end.
Definition from_utf8 (l : list N) : Utf8Check := from_utf8_loop (length l) 0 l.

(** [str::replace] of one byte by another. *)
Definition replace_byte (a b : N) (s : list N) : list N :=
  map (fun c => if (c =? a)%N then b else c) s.

(** workspace.rs: the key under which a relative path is persisted. *)
Definition index_path_string (p : path) : list N :=
  replace_byte SEP SEP (to_string_lossy p).

(** ** Components *)

Inductive Component :=
| RootDir
| CurDir
| ParentDir
| Normal (name : list N).

Definition as_os_str (c : Component) : list N :=
  match c with
  | RootDir => [SEP]
  | CurDir => lit "."
  | ParentDir => lit ".."
  | Normal name => name
  end.

Fixpoint split_on (sep : N) (s : list N) : list (list N) :=
  match s with
  | [] => [[]]
  | c :: s' =>
    if (c =? sep)%N then [] :: split_on sep s'
    else match split_on sep s' with
         | [] => [[c]]
         | w :: ws => (c :: w) :: ws
         end
  end.

Definition component_of (seg : list N) : option Component :=
  if decide (seg = []) then None
  else if decide (seg = lit ".") then None
  else if decide (seg = lit "..") then Some ParentDir
  else Some (Normal seg).

Definition components (p : path) : list Component :=
  match split_on SEP p with
  | [] => []
  | seg :: segs =>
    (if starts_with [SEP] p then [RootDir]
     else if decide (seg = lit ".") then [CurDir] else [])
    ++ omap component_of (seg :: segs)
  end.

(** [PathBuf::push]. *)
Definition push (p q : path) : path :=
  if starts_with [SEP] q then q
  else if decide (p = []) then q
  else if ends_with [SEP] p then p ++ q
  else p ++ SEP :: q.

(** [Path::file_name]. *)
Definition file_name (p : path) : option (list N) :=
  match last (components p) with
  | Some (Normal name) => Some name
  | _ => None
  end.

(** [Path::parent]: [None] at the root and for the empty path. *)
(** [Path::extension]: the part after the last dot, unless the name is [..] or has
    its only dot in front. *)
Definition extension (p : path) : option (list N) :=
  n ← file_name p;
  let after := reverse (take_while (fun c => negb (c =? chr ".")%N) (reverse n)) in
  match drop_while (fun c => negb (c =? chr ".")%N) (reverse n) with
  | _ :: before => if bool_decide (before = []) || bool_decide (n = lit "..") then None else Some after
  | [] => None
  end.

Definition join_components (cs : list Component) : path :=
  foldl (fun p c => push p (as_os_str c)) [] cs.
Definition parent (p : path) : option path :=
  match last (components p) with
  | Some (Normal _ | ParentDir | CurDir) =>
    Some (join_components (take (length (components p) - 1) (components p)))
  | _ => None
  end.

#[global] Instance component_eq_dec : EqDecision Component.
Proof. solve_decision. Defined.

Fixpoint strip_components (p q : list Component) : option (list Component) :=
  match p, q with
  | [], _ => Some q
  | a :: p', b :: q' => if decide (a = b) then strip_components p' q' else None
  | _ :: _, [] => None
  end.

(** [Path::strip_prefix] and [Path::starts_with], by components. *)
Definition path_strip_prefix (p base : path) : option path :=
  join_components <$> strip_components (components base) (components p).
Definition path_starts_with (p base : path) : bool := is_some (path_strip_prefix p base).

(** ** Lemmas *)

Lemma replace_byte_same a s : replace_byte a a s = s.
Proof.
  unfold replace_byte. induction s as [|c s IH]; simpl; [done|]. rewrite IH.
  destruct (N.eqb_spec c a); by subst.
Qed.

(** On Unix the key of a UTF-8 path is the path. *)
Lemma index_path_string_utf8 p s : to_str p = Some s -> index_path_string p = p /\ s = p.
Proof.
  unfold to_str, index_path_string, to_string_lossy. destruct (valid_utf8 p); [|done].
  intros [= <-]. by rewrite replace_byte_same.
Qed.

(** ** Order *)

(** [Ord for Path]: components in turn, the kinds in the order of their
    declaration. *)
Definition component_key (c : Component) : list N :=
  match c with
  | RootDir => [1%N]
  | CurDir => [2%N]
  | ParentDir => [3%N]
  | Normal name => 4%N :: name
  end.
Definition path_ord (p : path) : list (list N) := map component_key (components p).
Definition path_cmp (a b : path) : comparison :=
  lex_by kcmp (path_ord a) (path_ord b).
