(* ===== verification/Merkle.v ===== *)
(** * Merkle snapshots: the data, the hashes and the operations of merkle.rs.

  Paths, keys, file contents and hashes are byte strings.  The digest
  (hex-encoded XXH3) is the third-party parameter [xxh3_hex]; what the file
  system answers is the parameter [fs]. *)
From S2P Require Import Prelude Utf8 BTree Decimal Paths.

Definition MAX_INDEXABLE_FILE_BYTES : Z := 16 * 1024 * 1024.
Definition VANISHED_FILE_HASH : list N := lit "vanished".

(** ** Content normalization *)

(** [bytes.windows(2)], each window with its index. *)
Fixpoint windows2 (i : nat) (l : list N) : list (nat * (N * N)) :=
  match l with
  | a :: (b :: _) as l' => (i, (a, b)) :: windows2 (S i) l'
  | _ => []
  end.

Definition is_crlf (w : N * N) : bool := ((fst w =? 13) && (snd w =? 10))%N.

Definition normalize_step (bs : list N) (st : list N * nat) (iw : nat * (N * N)) : list N * nat :=
  let '(normalized, start) := st in
  let '(index, window) := iw in
  if is_crlf window
  then (normalized ++ take (index - start) (drop start bs), index + 1)
  else st.

(** [indexable] is what chunking.rs answers for the path and its bytes. *)
Definition normalized_indexable_content (indexable : bool) (bs : list N) : list N :=
  if negb indexable || negb (existsb (fun iw => is_crlf (snd iw)) (windows2 0 bs)) then bs
  else
    let '(normalized, start) := foldl (normalize_step bs) ([], 0) (windows2 0 bs) in
    normalized ++ drop start bs.

(** ** Data *)

Record MerkleSnapshot := MkSnapshot {
  root_hash_of : list N;
  files : list (list N * list N)
}.

Record MerkleDiff := MkDiff {
  added_or_modified : list (list N * bool);
  deleted : list (list N)
}.
Definition diff_default : MerkleDiff := MkDiff [] [].
Definition empty : MerkleSnapshot := MkSnapshot [] [].

(** ** Metadata *)

Inductive ErrorKind := NotFound | NotADirectory | PermissionDenied | OtherKind.
#[global] Instance error_kind_eq_dec : EqDecision ErrorKind.
Proof. solve_decision. Defined.

Inductive FileKind := IsFile | IsDir | IsSymlink | IsOther.
#[global] Instance file_kind_eq_dec : EqDecision FileKind.
Proof. solve_decision. Defined.

(** [fs::Metadata] on Unix; [m_modified] is the signed distance from the epoch
    in nanoseconds, [None] where the platform has no modification time. *)
Record Metadata := MkMetadata {
  m_kind : FileKind;
  m_len : Z;
  m_modified : option Z;
  m_ino : Z;
  m_ctime : Z;
  m_ctime_nsec : Z
}.
Definition is_file (m : Metadata) : bool := bool_decide (m_kind m = IsFile).
Definition is_dir (m : Metadata) : bool := bool_decide (m_kind m = IsDir).
Definition is_symlink (m : Metadata) : bool := bool_decide (m_kind m = IsSymlink).

(** [modified().ok()?.duration_since(UNIX_EPOCH).ok()?.as_nanos()]. *)
Definition modified_nanos_of (m : Metadata) : option Z :=
  t ← m_modified m; if (0 <=? t)%Z then Some t else None.

Definition metadata_bytes (m : Metadata) : list N :=
  to_le_bytes 8 (m_len m)
  ++ match modified_nanos_of m with Some t => to_le_bytes 16 t | None => [] end
  ++ to_le_bytes 8 (m_ctime m) ++ to_le_bytes 8 (m_ctime_nsec m).

(** ** Stamps of a verified snapshot file *)

Record SnapshotStamp := MkStamp {
  stamp_len : Z;
  stamp_modified_nanos : Z;
  stamp_inode : Z;
  stamp_changed_nanos : Z
}.
#[global] Instance stamp_eq_dec : EqDecision SnapshotStamp.
Proof. solve_decision. Defined.

Definition snapshot_stamp (r : Result ErrorKind Metadata) : option SnapshotStamp :=
  m ← ok r; t ← modified_nanos_of m;
  Some (MkStamp (m_len m) t (m_ino m) (m_ctime m * 1000000000 + m_ctime_nsec m)).

Definition U128_MAX : Z := 2 ^ 128 - 1.
Definition parse_u128 : str -> option Z := parse_int 0 U128_MAX.
Definition parse_i128 : str -> option Z := parse_int (- 2 ^ 127) (2 ^ 127 - 1).

(** [raw] is the sidecar's content, [None] where it cannot be read. *)
Definition read_verified_stamp (raw : option str) : option SnapshotStamp :=
  raw ← raw;
  let fields := split_whitespace raw in
  l ← head fields ≫= parse_u64;
  m ← fields !! 1 ≫= parse_u128;
  i ← fields !! 2 ≫= parse_u64;
  c ← fields !! 3 ≫= parse_i128;
  if decide (fields !! 4 = None) then Some (MkStamp l m i c) else None.

Definition stamp_payload (s : SnapshotStamp) : str :=
  format_int (stamp_len s) ++ lit " " ++ format_int (stamp_modified_nanos s) ++ lit " "
  ++ format_int (stamp_inode s) ++ lit " " ++ format_int (stamp_changed_nanos s) ++ [10%N].

(** Rust's ranges for the four fields. *)
Definition stamp_in_range (s : SnapshotStamp) : Prop :=
  in_u64 (stamp_len s) /\ (0 <= stamp_modified_nanos s <= U128_MAX)%Z /\
  in_u64 (stamp_inode s) /\ (- 2 ^ 127 <= stamp_changed_nanos s <= 2 ^ 127 - 1)%Z.

(** The snapshot file and its sidecar, as far as these operations see them:
    [sf_written] says whether writing the temporary sidecar and renaming it
    succeeds ([write_verified_stamp] ignores both errors). *)
Record SnapshotFile := MkSnapshotFile {
  sf_metadata : Result ErrorKind Metadata;
  sf_content : Result ErrorKind (list N);
  sf_sidecar : option str;
  sf_writable : bool
}.

Definition write_verified_stamp (f : SnapshotFile) (s : SnapshotStamp) : SnapshotFile :=
  if sf_writable f
  then MkSnapshotFile (sf_metadata f) (sf_content f) (Some (stamp_payload s)) true
  else f.

Section Serde.
(** [serde_json] for [MerkleSnapshot]. *)
Context (from_slice : list N -> option MerkleSnapshot).

Definition file_is_corrupt (f : SnapshotFile) : bool * SnapshotFile :=
  match snapshot_stamp (sf_metadata f) with
  | None => (false, f)
  | Some stamp =>
    if decide (read_verified_stamp (sf_sidecar f) = Some stamp) then (false, f)
    else
      match sf_content f with
      | Ok data =>
        let corrupt := is_none (from_slice data) in
        (corrupt, if corrupt then f else write_verified_stamp f stamp)
      | Err _ => (false, f)
      end
  end.

(** [path.exists()] is false on any metadata error. *)
Definition load (f : SnapshotFile) : Result ErrorKind MerkleSnapshot :=
  if negb (is_ok (sf_metadata f)) then Ok empty
  else
    data ← sf_content f;
    match from_slice data with
    | Some snapshot => Ok snapshot
    | None => Ok empty
    end.
End Serde.

(** ** Diff *)

Definition ends_with_1 (hash : list N) : bool := ends_with (lit "-1") hash.

(** The merge loop and the two loops after it; the fuel is the number of
    entries, one of which each round consumes. *)
Fixpoint diff_loop (fuel : nat) (old new : list (list N * list N)) (d : MerkleDiff)
  : MerkleDiff :=
  match fuel with
  | O => d
  | S fuel =>
    match old, new with
    | (old_path, old_hash) :: old', (new_path, new_hash) :: new' =>
      match kcmp old_path new_path with
      | Lt => diff_loop fuel old' new (MkDiff (added_or_modified d) (deleted d ++ [old_path]))
      | Eq =>
        diff_loop fuel old' new'
          (if decide (old_hash = new_hash) then d
           else MkDiff (added_or_modified d ++ [(new_path, ends_with_1 new_hash)]) (deleted d))
      | Gt =>
        diff_loop fuel old new'
          (MkDiff (added_or_modified d ++ [(new_path, ends_with_1 new_hash)]) (deleted d))
      end
    | (p, _) :: old', [] =>
      diff_loop fuel old' [] (MkDiff (added_or_modified d) (deleted d ++ [p]))
    | [], (p, h) :: new' =>
      diff_loop fuel [] new' (MkDiff (added_or_modified d ++ [(p, ends_with_1 h)]) (deleted d))
    | [], [] => d
    end
  end.

Definition diff (old newer : MerkleSnapshot) : MerkleDiff :=
  if decide (root_hash_of old = root_hash_of newer) then diff_default
  else diff_loop (length (files old) + length (files newer)) (files old) (files newer)
         diff_default.

(** ** The walk *)

(** [ignore::Error], the walker's error. *)
#[warnings="-register-all"]
Inductive IgnoreError :=
| Partial (errs : list IgnoreError)
| WithLineNumber (line : Z) (err : IgnoreError)
| WithPath (p : path) (err : IgnoreError)
| WithDepth (depth : Z) (err : IgnoreError)
| Loop (ancestor child : path)
| Io (kind : ErrorKind)
| Glob (glob : option (list N)) (err : list N)
| UnrecognizedFileType (name : list N)
| InvalidDefinition.

(** walker.rs: the pure pattern warnings. *)
Fixpoint is_ignore_pattern_warning (e : IgnoreError) : bool :=
  match e with
  | Glob _ _ => true
  | Partial errors =>
    match errors with [] => false | _ => true end
    && (fix all l := match l with
                     | [] => true
                     | e :: l' => is_ignore_pattern_warning e && all l'
                     end) errors
  | WithLineNumber _ err | WithPath _ err | WithDepth _ err => is_ignore_pattern_warning err
  | _ => false
  end.

(** Why a build failed ([anyhow::Error] with its context). *)
Inductive MerkleError :=
| WalkFailed (e : IgnoreError)
| MetadataFailed (p : path) (k : ErrorKind)
| ReadFailed (p : path) (k : ErrorKind)
| RootUnreadable (k : ErrorKind)
| RootNotDirectory.

(** [ignore::DirEntry]. *)
Record DirEntry := MkDirEntry {
  de_path : path;
  de_file_type : option FileKind
}.
Definition WalkItem : Type := Result IgnoreError DirEntry.
Definition entry_is_file (e : DirEntry) : bool :=
  bool_decide (de_file_type e = Some IsFile).

(** What the file system answers. *)
Record Fs := MkFs {
  fs_metadata : path -> Result ErrorKind Metadata;
  fs_symlink_metadata : path -> Result ErrorKind Metadata;
  fs_read : path -> Result ErrorKind (list N)
}.

Definition validate_workspace_root (root : Result ErrorKind Metadata) : Result MerkleError unit :=
  match root with
  | Err k => Err (RootUnreadable k)
  | Ok m => if is_dir m then Ok tt else Err RootNotDirectory
  end.

(** workspace.rs. *)
Definition root_is_gone (root : Result ErrorKind Metadata) : bool :=
  match root with
  | Ok m => negb (is_dir m)
  | Err k => bool_decide (k = NotFound) || bool_decide (k = NotADirectory)
  end.

(** [OnceLock::set]: the first error stays. *)
Definition once_set {A} (cell : option A) (a : A) : option A :=
  match cell with Some _ => cell | None => Some a end.

Section Build.
(** The digest, the kind of the I/O error inside a walker error, and
    chunking.rs's answer for a path and its content. *)
Context (xxh3_hex : list N -> list N).
Context (io_error_kind : IgnoreError -> option ErrorKind).
Context (is_indexable_file : path -> list N -> bool).

Definition metadata_file_hash (m : Metadata) : list N := xxh3_hex (metadata_bytes m).

Definition root_hash (fs : list (list N * list N)) : list N :=
  xxh3_hex (foldl (fun data kv => (data ++ fst kv) ++ snd kv) [] fs).

Definition is_vanished_path (e : IgnoreError) : bool :=
  bool_decide (io_error_kind e = Some NotFound).

(** The first, ignore-aware walk: the set of visible keys. *)
Definition unignored_step (root : path) (st : option MerkleError * list path) (item : WalkItem)
  : option MerkleError * list path :=
  let '(scan_error, paths) := st in
  match item with
  | Err e =>
    if is_ignore_pattern_warning e || is_vanished_path e then st
    else (once_set scan_error (WalkFailed e), paths)
  | Ok entry =>
    if entry_is_file entry then
      match path_strip_prefix (de_path entry) root with
      | Some rel =>
        if is_some (to_str rel) then (scan_error, index_path_string rel :: paths) else st
      | None => st
      end
    else st
  end.

(** What the closure does with one item of the main walk: nothing, a failure,
    or a pair for the worker's buffer. *)
Inductive Visit :=
| Skip
| Failed (e : MerkleError)
| Push (key hash : list N).

Definition visit (fs : Fs) (root : path) (content_based skip_gitignore : bool)
    (unignored : list path) (item : WalkItem) : Visit :=
  match item with
  | Err e =>
    if is_ignore_pattern_warning e || is_vanished_path e then Skip else Failed (WalkFailed e)
  | Ok entry =>
    if negb (entry_is_file entry) then Skip
    else
      let p := de_path entry in
      match path_strip_prefix p root with
      | None => Skip
      | Some rel =>
        if is_none (to_str rel) then Skip
        else
          match fs_metadata fs p with
          | Err NotFound => Skip
          | Err k => Failed (MetadataFailed p k)
          | Ok metadata =>
            if (MAX_INDEXABLE_FILE_BYTES <? m_len metadata)%Z then Skip
            else
              let finish file_hash :=
                let rel_str := index_path_string rel in
                let is_ignored :=
                  skip_gitignore && negb (bool_decide (rel_str ∈ unignored)) in
                Push rel_str (file_hash ++ if is_ignored then lit "-1" else lit "-0") in
              if content_based then
                match fs_read fs p with
                | Err NotFound => Skip
                | Err k => Failed (ReadFailed p k)
                | Ok content =>
                  finish (xxh3_hex (index_path_string rel
                            ++ normalized_indexable_content (is_indexable_file p content) content))
                end
              else finish (metadata_file_hash metadata)
          end
      end
  end.

(** The workers' shared state: the first error, and each thread's buffer.  A
    visit is tagged with the thread that makes it. *)
Definition visit_step (v : WalkItem -> Visit)
    (st : option MerkleError * gmap nat (list (list N * list N))) (ti : nat * WalkItem)
  : option MerkleError * gmap nat (list (list N * list N)) :=
  let '(scan_error, bufs) := st in
  let '(t, item) := ti in
  match v item with
  | Skip => st
  | Failed e => (once_set scan_error e, bufs)
  | Push k h => (scan_error, <[t := unwrap_or [] (bufs !! t) ++ [(k, h)]]> bufs)
  end.

(** One run: [standard] the items of the ignore-aware walk, [visits] those of
    the main walk in the order the threads handled them, [flush] the order in
    which the threads' guards are dropped, and the two looks at the root. *)
Record Run := MkRun {
  run_root_before : Result ErrorKind Metadata;
  run_standard : list WalkItem;
  run_visits : list (nat * WalkItem);
  run_flush : list nat;
  run_root_after : Result ErrorKind Metadata
}.

Definition build_inner (fs : Fs) (root : path) (content_based skip_gitignore : bool) (r : Run)
  : Result MerkleError MerkleSnapshot :=
  _ ← validate_workspace_root (run_root_before r);
  let '(scan_error, unignored) :=
    if skip_gitignore then foldl (unignored_step root) (None, []) (run_standard r)
    else (None, []) in
  match scan_error with
  | Some e => Err e
  | None =>
    let '(scan_error, bufs) :=
      foldl (visit_step (visit fs root content_based skip_gitignore unignored))
        (None, ∅) (run_visits r) in
    match scan_error with
    | Some e => Err e
    | None =>
      _ ← validate_workspace_root (run_root_after r);
      let all_pairs := run_flush r ≫= (fun t => unwrap_or [] (bufs !! t)) in
      let files := bt_of_list all_pairs in
      Ok (MkSnapshot (root_hash files) files)
    end
  end.

Definition build (fs : Fs) (root : path) (skip_gitignore : bool) (r : Run) :=
  build_inner fs root false skip_gitignore r.
Definition build_content_based (fs : Fs) (root : path) (skip_gitignore : bool) (r : Run) :=
  build_inner fs root true skip_gitignore r.

Definition path_matches_metadata_snapshot (fs : Fs) (p : path) (snapshot_hash : list N) : bool :=
  match (match strip_suffix (lit "-0") snapshot_hash with
         | Some h => Some h
         | None => strip_suffix (lit "-1") snapshot_hash
         end) with
  | None => false
  | Some expected_hash =>
    match ok (fs_metadata fs p) with
    | Some metadata =>
      (m_len metadata <=? MAX_INDEXABLE_FILE_BYTES)%Z
      && bool_decide (metadata_file_hash metadata = expected_hash)
    | None => false
    end
  end.

(** ** Targeted refresh *)

(** The walk from the root down one changed path.  [inl] is the early return
    [Ok(None)]. *)
Fixpoint inspect_parents (fs : Fs) (p : path) (cs : list Component) (metadata : option Metadata)
  : Result MerkleError (unit + option Metadata) :=
  match cs with
  | [] => Ok (inr metadata)
  | component :: cs' =>
    let p := push p (as_os_str component) in
    match fs_symlink_metadata fs p with
    | Ok current =>
      if is_symlink current then Ok (inl tt)
      else if match cs' with [] => false | _ => true end && negb (is_dir current) then Ok (inl tt)
      else inspect_parents fs p cs' (Some current)
    | Err NotFound => Ok (inr None)
    | Err k => Err (MetadataFailed p k)
    end
  end.

Definition updates_map : Type := list (list N * option (list N)).

(** One path of the list: [None] is the early return [Ok(None)]. *)
Definition refresh_path (fs : Fs) (root : path) (snap : MerkleSnapshot) (updates : updates_map)
    (rel_path : path) : Result MerkleError (option updates_map) :=
  if is_none (to_str rel_path) then Ok (Some updates)
  else if bool_decide (rel_path = [])
     || bool_decide (file_name rel_path = Some (lit ".gitignore"))
     || bool_decide (file_name rel_path = Some (lit ".ignore"))
  then Ok None
  else
    inspected ← inspect_parents fs root (components rel_path) None;
    match inspected with
    | inl _ => Ok None
    | inr metadata =>
      let key := index_path_string rel_path in
      let next :=
        match metadata with
        | Some m =>
          if is_file m && (m_len m <=? MAX_INDEXABLE_FILE_BYTES)%Z then
            let is_ignored :=
              match bt_get key (files snap) with
              | Some hash => ends_with_1 hash | None => false
              end in
            inr (Some (metadata_file_hash m ++ if is_ignored then lit "-1" else lit "-0"))
          else if is_dir m then inl tt
          else inr None
        | None => inr None
        end in
      match next with
      | inl _ => Ok None
      | inr (Some hash) =>
        if is_none (bt_get key (files snap)) then Ok None
        else Ok (Some (bt_insert key (Some hash) updates))
      | inr None =>
        let dir_prefix := key ++ [SEP] in
        match head (bt_range_from dir_prefix (files snap)) with
        | Some (existing, _) =>
          if starts_with dir_prefix existing then Ok None
          else Ok (Some (bt_insert key None updates))
        | None => Ok (Some (bt_insert key None updates))
        end
      end
    end.

Fixpoint collect_updates (fs : Fs) (root : path) (snap : MerkleSnapshot) (rel_paths : list path)
    (updates : updates_map) : Result MerkleError (option updates_map) :=
  match rel_paths with
  | [] => Ok (Some updates)
  | rel_path :: rest =>
    next ← refresh_path fs root snap updates rel_path;
    match next with
    | None => Ok None
    | Some updates => collect_updates fs root snap rest updates
    end
  end.

Definition apply_update (st : list (list N * list N) * MerkleDiff)
    (u : list N * option (list N)) : list (list N * list N) * MerkleDiff :=
  let '(fs, d) := st in
  let '(key, next_hash) := u in
  match next_hash with
  | Some hash =>
    if decide (bt_get key fs = Some hash) then st
    else (bt_insert key hash fs,
          MkDiff (added_or_modified d ++ [(key, ends_with_1 hash)]) (deleted d))
  | None =>
    match bt_get key fs with
    | Some _ => (bt_remove key fs, MkDiff (added_or_modified d) (deleted d ++ [key]))
    | None => st
    end
  end.

(** The result and the snapshot left behind [&mut self]. *)
Definition refresh_paths_in_place (fs : Fs) (root : path) (rel_paths : list path)
    (skip_gitignore : bool) (snap : MerkleSnapshot)
  : Result MerkleError (option MerkleDiff) * MerkleSnapshot :=
  if skip_gitignore then (Ok None, snap)
  else
    match validate_workspace_root (fs_metadata fs root) with
    | Err e => (Err e, snap)
    | Ok _ =>
      match collect_updates fs root snap rel_paths [] with
      | Err e => (Err e, snap)
      | Ok None => (Ok None, snap)
      | Ok (Some updates) =>
        let '(fs', d) := foldl apply_update (files snap, diff_default) updates in
        let changed := match added_or_modified d, deleted d with [], [] => false | _, _ => true end in
        (Ok (Some d), MkSnapshot (if changed then root_hash fs' else root_hash_of snap) fs')
      end
    end.

Definition refresh_paths (fs : Fs) (root : path) (rel_paths : list path) (skip_gitignore : bool)
    (snap : MerkleSnapshot) : Result MerkleError (option (MerkleSnapshot * MerkleDiff)) :=
  if skip_gitignore then Ok None
  else
    let '(r, newer) := refresh_paths_in_place fs root rel_paths skip_gitignore snap in
    match r with
    | Err e => Err e
    | Ok r => Ok ((fun d => (newer, d)) <$> r)
    end.

Definition vanished_hash (hash : list N) : list N :=
  VANISHED_FILE_HASH ++ lit "-" ++ if ends_with_1 hash then lit "1" else lit "0".

Definition mark_vanished (rel_paths : list path) (snap : MerkleSnapshot) : MerkleSnapshot :=
  let fs' :=
    foldl (fun fs rel_path =>
             let key := index_path_string rel_path in
             match bt_get key fs with
             | Some hash => bt_insert key (vanished_hash hash) fs
             | None => fs
             end) (files snap) rel_paths in
  MkSnapshot (root_hash fs') fs'.
End Build.
