(* ===== verification/MerkleDiffs.v ===== *)
(** * Snapshot comparison: the merge loop against a set difference, its use to
    reconcile an index, and the limits of the root hash. *)
From S2P Require Import Prelude Utf8 BTree Paths Merkle.

(** ** The specification: what changed, and what is gone *)

Definition changed_files (old new : list (list N * list N)) : list (list N * bool) :=
  omap (fun kh => if decide (bt_get (fst kh) old = Some (snd kh)) then None
                  else Some (fst kh, ends_with_1 (snd kh))) new.

Definition missing_files (old new : list (list N * list N)) : list (list N) :=
  omap (fun kh => if decide (bt_get (fst kh) new = None) then Some (fst kh) else None) old.

Lemma omap_ext_elem {A B} (f g : A -> option B) (l : list A) :
  (forall x, x ∈ l -> f x = g x) -> omap f l = omap g l.
Proof.
  induction l as [|x l IH]; intros Hfg; [done|]. cbn [omap list_omap].
  rewrite (Hfg x) by by left. rewrite IH by (intros; apply Hfg; by right). done.
Qed.

Lemma Forall_klt_ne (k : list N) (m : list (list N * list N)) kv :
  Forall (klt k) (map fst m) -> kv ∈ m -> kcmp (fst kv) k = Gt.
Proof.
  intros Hf Hin. apply kcmp_Gt.
  eapply (Forall_forall (klt k)) in Hf; [exact Hf|]. by apply list_elem_of_fmap_2.
Qed.

Lemma changed_files_skip k h old new :
  Forall (klt k) (map fst new) -> changed_files ((k, h) :: old) new = changed_files old new.
Proof.
  intros Hf. apply omap_ext_elem. intros [k' h'] Hin.
  apply (Forall_klt_ne _ _ _ Hf) in Hin. simpl in *. by rewrite Hin.
Qed.

Lemma missing_files_skip k h old new :
  Forall (klt k) (map fst old) -> missing_files old ((k, h) :: new) = missing_files old new.
Proof.
  intros Hf. apply omap_ext_elem. intros [k' h'] Hin.
  apply (Forall_klt_ne _ _ _ Hf) in Hin. simpl in *. by rewrite Hin.
Qed.

Lemma changed_files_cons old k h new :
  changed_files old ((k, h) :: new) =
  (if decide (bt_get k old = Some h) then [] else [(k, ends_with_1 h)]) ++ changed_files old new.
Proof. unfold changed_files. cbn [omap list_omap fst snd]. by case_decide. Qed.

Lemma missing_files_cons k h old new :
  missing_files ((k, h) :: old) new =
  (if decide (bt_get k new = None) then [k] else []) ++ missing_files old new.
Proof. unfold missing_files. cbn [omap list_omap fst snd]. by case_decide. Qed.

Lemma diff_loop_spec fuel : forall old new d,
  bt_wf old -> bt_wf new -> (length old + length new <= fuel)%nat ->
  diff_loop fuel old new d =
  MkDiff (added_or_modified d ++ changed_files old new) (deleted d ++ missing_files old new).
Proof.
  induction fuel as [|fuel IH]; intros [|[ko ho] old] [|[kn hn] new] d Hwo Hwn Hlen;
    cbn [length] in Hlen; try lia; cbn [diff_loop].
  1,2: by rewrite !app_nil_r; destruct d.
  - apply bt_wf_cons in Hwn as [_ Hwn]. rewrite IH by (done || simpl; lia). simpl.
    by rewrite <- app_assoc.
  - apply bt_wf_cons in Hwo as [_ Hwo]. rewrite IH by (done || simpl; lia). simpl.
    by rewrite <- app_assoc.
  - pose proof Hwo as [Hfo Hwo']%bt_wf_cons. pose proof Hwn as [Hfn Hwn']%bt_wf_cons.
    destruct (kcmp ko kn) eqn:E.
    + apply kcmp_eq in E as <-. rewrite IH by (done || simpl; lia).
      rewrite changed_files_cons, missing_files_cons. cbn [bt_get]. rewrite kcmp_refl.
      rewrite changed_files_skip, missing_files_skip by done. rewrite (decide_False (P := _ = None)) by done.
      destruct (decide (ho = hn)) as [->|Hne].
      * by rewrite decide_True by done.
      * rewrite decide_False by congruence. simpl. by rewrite <- app_assoc.
    + assert (Forall (klt ko) (map fst ((kn, hn) :: new))) as Hk.
      { constructor; [done|]. by eapply Forall_klt_trans. }
      rewrite IH by (done || simpl in *; lia). cbn [added_or_modified deleted].
      rewrite changed_files_skip, missing_files_cons by done.
      rewrite decide_True by by apply bt_get_lt. by rewrite <- app_assoc.
    + apply kcmp_Gt in E.
      assert (Forall (klt kn) (map fst ((ko, ho) :: old))) as Hk.
      { constructor; [done|]. by eapply Forall_klt_trans. }
      rewrite IH by (done || simpl in *; lia). cbn [added_or_modified deleted].
      rewrite missing_files_skip, changed_files_cons by done.
      rewrite decide_False by by rewrite bt_get_lt. by rewrite <- app_assoc.
Qed.

Lemma diff_spec old newer :
  bt_wf (files old) -> bt_wf (files newer) -> root_hash_of old <> root_hash_of newer ->
  diff old newer =
  MkDiff (changed_files (files old) (files newer)) (missing_files (files old) (files newer)).
Proof.
  intros. unfold diff. rewrite decide_False by done. by rewrite diff_loop_spec by done.
Qed.

Lemma changed_files_In old new k b :
  bt_wf new ->
  (k, b) ∈ changed_files old new <->
  exists h, bt_get k new = Some h /\ bt_get k old <> Some h /\ b = ends_with_1 h.
Proof.
  intros Hw. unfold changed_files. rewrite list_elem_of_omap. split.
  - intros ([k' h] & Hin & Heq). simpl in Heq. case_decide; [done|]. simplify_eq.
    exists h. by rewrite bt_get_In.
  - intros (h & Hg & Hne & ->). exists (k, h). rewrite <- bt_get_In by done. simpl.
    by rewrite decide_False.
Qed.

Lemma missing_files_In old new k :
  bt_wf old -> k ∈ missing_files old new <-> bt_get k new = None /\ bt_get k old <> None.
Proof.
  intros Hw. unfold missing_files. rewrite list_elem_of_omap. split.
  - intros ([k' h] & Hin & Heq). simpl in Heq. case_decide; [|done]. simplify_eq.
    apply bt_get_In in Hin; [|done]. by rewrite Hin.
  - intros [Hn Ho]. destruct (bt_get k old) as [h|] eqn:E; [|done]. exists (k, h).
    rewrite <- bt_get_In by done. simpl. by rewrite decide_True.
Qed.

(** ** Reconciling an index with a diff *)

(** What the indexer does with a diff: drop the deleted paths, then take the
    newer hash of every added or modified one. *)
Definition apply_diff (d : MerkleDiff) (newer old : list (list N * list N))
  : list (list N * list N) :=
  foldl (fun m kb => match bt_get (fst kb) newer with
                     | Some h => bt_insert (fst kb) h m
                     | None => m
                     end)
    (foldl (fun m k => bt_remove k m) old (deleted d)) (added_or_modified d).

Lemma foldl_remove_spec ks : forall m k,
  bt_wf m ->
  bt_wf (foldl (fun m k => bt_remove k m) m ks) /\
  bt_get k (foldl (fun m k => bt_remove k m) m ks) =
  if decide (k ∈ ks) then None else (bt_get k m : option (list N)).
Proof.
  induction ks as [|k' ks IH]; intros m k Hw; cbn [foldl].
  - split; [done|]. rewrite decide_False; [done|]. apply not_elem_of_nil.
  - destruct (IH (bt_remove k' m) k) as [Hw' Hg]; [auto with ivy|]. split; [done|].
    rewrite Hg. destruct (decide (k = k')) as [->|Hne].
    + rewrite (decide_True (P := _ ∈ _ :: _)) by by left.
      case_decide; [done|]. by apply bt_get_remove_eq.
    + rewrite bt_get_remove_ne by done.
      destruct (decide (k ∈ ks)); [rewrite decide_True|rewrite decide_False]; try done; set_solver.
Qed.

Lemma foldl_take_spec newer kbs : forall m k,
  bt_wf m ->
  let m' := foldl (fun m kb => match bt_get (fst kb) newer with
                               | Some h => bt_insert (fst kb) h m
                               | None => m
                               end) m kbs in
  bt_wf m' /\
  bt_get k m' = if decide (k ∈ map fst (kbs : list (list N * bool))) then
                  match bt_get k newer with Some h => Some h | None => bt_get k m end
                else (bt_get k m : option (list N)).
Proof.
  induction kbs as [|[k' b] kbs IH]; intros m k Hw; cbn [foldl fst].
  - split; [done|]. rewrite decide_False; [done|]. apply not_elem_of_nil.
  - set (m1 := match bt_get k' newer with Some h => bt_insert k' h m | None => m end).
    assert (bt_wf m1) as Hw1 by (unfold m1; case_match; auto with ivy).
    destruct (IH m1 k Hw1) as [Hw' Hg]. split; [done|]. rewrite Hg. clear Hg IH.
    destruct (decide (k = k')) as [->|Hne].
    + rewrite (decide_True (P := _ ∈ map fst (_ :: _))) by by left.
      unfold m1. destruct (bt_get k' newer) eqn:E.
      * rewrite bt_get_insert_eq. by case_decide.
      * by case_decide.
    + assert (bt_get k m1 = bt_get k m) as ->.
      { unfold m1. case_match; [by apply bt_get_insert_ne|done]. }
      simpl. destruct (decide (k ∈ map fst kbs)); [rewrite decide_True|rewrite decide_False];
        try done; set_solver.
Qed.

Lemma apply_diff_changes old new :
  bt_wf old -> bt_wf new ->
  apply_diff (MkDiff (changed_files old new) (missing_files old new)) new old = new.
Proof.
  intros Ho Hn. unfold apply_diff. cbn [added_or_modified deleted].
  assert (Hr := foldl_remove_spec (missing_files old new) old).
  set (m := foldl _ old _) in *.
  assert (bt_wf m) as Hm by apply (Hr [] Ho).
  apply bt_ext; [by apply foldl_take_spec with (k := [])|done|]. intros k.
  destruct (foldl_take_spec new (changed_files old new) m k Hm) as [_ ->].
  destruct (Hr k Ho) as [_ ->].
  destruct (decide (k ∈ map fst (changed_files old new))) as [Hin|Hnin].
  - apply list_elem_of_fmap in Hin as ([k' b] & -> & Hin). simpl.
    apply changed_files_In in Hin as (h & -> & _); done.
  - case_decide as Hmiss.
    + apply missing_files_In in Hmiss as [-> _]; done.
    + destruct (bt_get k new) as [h|] eqn:Eh.
      * destruct (decide (bt_get k old = Some h)) as [|Hne]; [done|].
        destruct Hnin. apply list_elem_of_fmap. exists (k, ends_with_1 h). split; [done|].
        apply changed_files_In; [done|]. by exists h.
      * destruct (bt_get k old) eqn:Eo; [|done]. destruct Hmiss.
        apply missing_files_In; [done|]. by rewrite Eh, Eo.
Qed.

(** ** Properties *)

(** When the root hashes differ, the single merge pass over the two ordered
    maps reports exactly the set differences, in key order: as added or
    modified every path of the newer snapshot whose hash the older one lacks,
    with its visibility bit, and as deleted every path only the older one has. *)
Theorem diff_reports_exact_changes old newer :
  bt_wf (files old) -> bt_wf (files newer) -> root_hash_of old <> root_hash_of newer ->
  diff old newer =
    MkDiff (changed_files (files old) (files newer)) (missing_files (files old) (files newer))
  /\ (forall k b, (k, b) ∈ added_or_modified (diff old newer) <->
        exists h, bt_get k (files newer) = Some h /\ bt_get k (files old) <> Some h /\
                  b = ends_with_1 h)
  /\ (forall k, k ∈ deleted (diff old newer) <->
        bt_get k (files newer) = None /\ bt_get k (files old) <> None).
Proof.
  intros Ho Hn Hne. rewrite diff_spec by done. split; [done|]. split; intros.
  - by apply changed_files_In.
  - by apply missing_files_In.
Qed.

Definition snap_a : MerkleSnapshot :=
  MkSnapshot (lit "r1") [(lit "a", lit "00-0"); (lit "b", lit "01-0")].
Definition snap_b : MerkleSnapshot :=
  MkSnapshot (lit "r2") [(lit "b", lit "02-1"); (lit "c", lit "03-0")].

Lemma snaps_wf : bt_wf (files snap_a) /\ bt_wf (files snap_b).
Proof. split; repeat constructor. Qed.

Lemma diff_reports_exact_changes_witness :
  diff snap_a snap_b = MkDiff [(lit "b", true); (lit "c", false)] [lit "a"].
Proof.
  destruct snaps_wf as [Ha Hb].
  destruct (diff_reports_exact_changes snap_a snap_b Ha Hb) as [-> _]; [discriminate|].
  vm_compute. reflexivity.
Defined.

(** Dropping the deleted paths of a diff and taking the newer hash of the
    added or modified ones turns the older map into the newer one: nothing is
    missed and nothing is touched twice. *)
Theorem diff_reconciles old newer :
  bt_wf (files old) -> bt_wf (files newer) -> root_hash_of old <> root_hash_of newer ->
  apply_diff (diff old newer) (files newer) (files old) = files newer.
Proof. intros. rewrite diff_spec by done. by apply apply_diff_changes. Qed.

Lemma diff_reconciles_witness :
  apply_diff (diff snap_a snap_b) (files snap_b) (files snap_a) = files snap_b.
Proof.
  destruct snaps_wf as [Ha Hb]. apply (diff_reconciles snap_a snap_b Ha Hb). discriminate.
Defined.

Definition one_file (k h : list N) : list (list N * list N) := [(k, h)].
Definition two_files (h : list N) : list (list N * list N) :=
  [(lit "a", h ++ lit "-0"); (lit "b", h ++ lit "-0")].

(** The root hash is not a function of the map's entries up to their
    boundaries: whatever the digest, the snapshot of the two files [a] and [b]
    and the snapshot of one file whose name is [a], a hash and [b] have the same
    root hash, so their comparison reports nothing although the maps differ. *)
Theorem root_hash_ambiguous (xxh3_hex : list N -> list N) (h : list N) :
  let fs1 := two_files h in
  let fs2 := one_file (lit "a" ++ h ++ lit "-0" ++ lit "b") (h ++ lit "-0") in
  fs1 <> fs2 /\ bt_wf fs1 /\ bt_wf fs2 /\
  diff (MkSnapshot (root_hash xxh3_hex fs1) fs1) (MkSnapshot (root_hash xxh3_hex fs2) fs2)
  = diff_default.
Proof.
  intros fs1 fs2. split; [discriminate|]. split; [repeat constructor|].
  split; [repeat constructor|]. unfold diff. rewrite decide_True; [done|].
  unfold root_hash, fs1, fs2. simpl. f_equal. by rewrite <- !app_assoc.
Qed.
