(* ===== verification/MerkleBuild.v ===== *)
(** * Building a snapshot with a parallel walk.

  The workers buffer their pairs and flush them when their closures are
  dropped; whatever the interleaving, the snapshot is the same, and a walk with
  a failure never becomes a snapshot. *)
From S2P Require Import Prelude Utf8 BTree Paths Merkle.

Section Build.
Context (xxh3_hex : list N -> list N).
Context (io_error_kind : IgnoreError -> option ErrorKind).
Context (is_indexable_file : path -> list N -> bool).

Definition push_of (v : Visit) : option (list N * list N) :=
  match v with Push k h => Some (k, h) | _ => None end.
Definition failure_of (v : Visit) : option MerkleError :=
  match v with Failed e => Some e | _ => None end.

(** Each thread's guard is dropped once, and every thread that handled an item
    has one. *)
Definition scheduled (r : Run) : Prop :=
  NoDup (run_flush r) /\ forall t item, (t, item) ∈ run_visits r -> t ∈ run_flush r.

Definition flushed (bufs : gmap nat (list (list N * list N))) (flush : list nat) :=
  flush ≫= (fun t => unwrap_or [] (bufs !! t)).

Lemma flushed_cons bufs t flush :
  flushed bufs (t :: flush) = unwrap_or [] (bufs !! t) ++ flushed bufs flush.
Proof. done. Qed.

Lemma flushed_ne bufs flush t b : t ∉ flush -> flushed (<[t := b]> bufs) flush = flushed bufs flush.
Proof.
  induction flush as [|t' flush IH]; [done|]. intros [Hne Hni]%not_elem_of_cons.
  rewrite !flushed_cons, IH by done. by rewrite lookup_insert_ne.
Qed.

Lemma flushed_empty flush : flushed ∅ flush = [].
Proof. induction flush as [|t flush IH]; [done|]. by rewrite flushed_cons, IH, lookup_empty. Qed.

Lemma flushed_insert bufs flush t p :
  NoDup flush -> t ∈ flush ->
  flushed (<[t := unwrap_or [] (bufs !! t) ++ [p]]> bufs) flush ≡ₚ p :: flushed bufs flush.
Proof.
  induction flush as [|t' flush IH]; intros Hnd Hin; [by apply not_elem_of_nil in Hin|].
  apply NoDup_cons in Hnd as [Hni Hnd]. rewrite !flushed_cons.
  destruct (decide (t = t')) as [->|Hne].
  - rewrite lookup_insert_eq, flushed_ne by done. cbn [unwrap_or].
    rewrite <- app_assoc. symmetry. apply Permutation_middle.
  - rewrite lookup_insert_ne by done. apply elem_of_cons in Hin as [->|Hin]; [done|].
    rewrite IH by done. symmetry. apply Permutation_middle.
Qed.

(** The main walk: the first failure, and a permutation of the pushed pairs. *)
Lemma visits_fold v flush visits : forall err bufs,
  NoDup flush -> (forall t item, (t, item) ∈ visits -> t ∈ flush) ->
  let st := foldl (visit_step v) (err, bufs) visits in
  fst st = match err with
           | Some e => Some e
           | None => head (omap (failure_of ∘ v) (map snd visits))
           end /\
  flushed (snd st) flush ≡ₚ omap (push_of ∘ v) (map snd visits) ++ flushed bufs flush.
Proof.
  induction visits as [|[t item] visits IH]; intros err bufs Hnd Hcov.
  { by destruct err. }
  cbn [foldl visit_step map snd omap list_omap compose].
  assert (forall t item, (t, item) ∈ visits -> t ∈ flush) as Hc.
  { intros t' i' Hin. apply (Hcov t' i'). by right. }
  destruct (v item) as [|e|k h] eqn:Ev.
  - destruct (IH err bufs Hnd Hc) as [-> ->]. done.
  - destruct (IH (once_set err e) bufs Hnd Hc) as [-> ->].
    by destruct err.
  - destruct (IH err (<[t := unwrap_or [] (bufs !! t) ++ [(k, h)]]> bufs) Hnd Hc) as [-> ->].
    split; [by destruct err|].
    rewrite flushed_insert by (done || eapply Hcov; by left). cbn.
    symmetry. apply Permutation_middle.
Qed.

(** The first walk, as a set of keys and a failure. *)
Definition unignored_key (root : path) (item : WalkItem) : option path :=
  match item with
  | Ok entry =>
    if entry_is_file entry then
      rel ← path_strip_prefix (de_path entry) root;
      if is_some (to_str rel) then Some (index_path_string rel) else None
    else None
  | Err _ => None
  end.
Definition standard_failure (item : WalkItem) : option MerkleError :=
  match item with
  | Err e =>
    if is_ignore_pattern_warning e || is_vanished_path io_error_kind e then None
    else Some (WalkFailed e)
  | Ok _ => None
  end.

Lemma unignored_fold root items : forall err keys,
  let st := foldl (unignored_step io_error_kind root) (err, keys) items in
  fst st = match err with Some e => Some e | None => head (omap standard_failure items) end /\
  forall k, k ∈ snd st <-> k ∈ keys \/ k ∈ omap (unignored_key root) items.
Proof.
  induction items as [|item items IH]; intros err keys; cbn [foldl].
  { split; [by destruct err|]. intros k. cbn. pose proof (not_elem_of_nil k). naive_solver. }
  destruct item as [entry|e]; cbn [unignored_step omap list_omap unignored_key standard_failure].
  - destruct (entry_is_file entry); [|apply IH].
    destruct (path_strip_prefix (de_path entry) root) as [rel|]; [|apply IH].
    cbn [mbind option_bind]. destruct (is_some (to_str rel)); [|apply IH].
    destruct (IH err (index_path_string rel :: keys)) as [-> Hk]. split; [done|].
    intros k. rewrite Hk, !elem_of_cons. tauto.
  - case_match; [apply IH|]. destruct (IH (once_set err (WalkFailed e)) keys) as [-> Hk].
    split; [by destruct err|done].
Qed.

Lemma visit_unignored fs root cb skip u1 u2 item :
  (forall k, k ∈ u1 <-> k ∈ u2) ->
  visit xxh3_hex io_error_kind is_indexable_file fs root cb skip u1 item =
  visit xxh3_hex io_error_kind is_indexable_file fs root cb skip u2 item.
Proof.
  intros Hu. unfold visit. assert (forall k, bool_decide (k ∈ u1) = bool_decide (k ∈ u2)) as Hb.
  { intros k. by apply bool_decide_ext. }
  destruct item as [entry|]; [|done]. case_match; [done|]. case_match; [|done].
  case_match; [done|]. case_match; [|done]. case_match; [done|]. by rewrite !Hb.
Qed.

(** The items of the first walk that the build looks at, and what each item of
    the main walk amounts to. *)
Definition standard_items (skip : bool) (r : Run) : list WalkItem :=
  if skip then run_standard r else [].
Definition visits_of (fs : Fs) (root : path) (cb skip : bool) (r : Run) : list Visit :=
  map (visit xxh3_hex io_error_kind is_indexable_file fs root cb skip
         (omap (unignored_key root) (standard_items skip r)))
    (map snd (run_visits r)).

(** No item failed, and the root was a directory before and after. *)
Definition complete (fs : Fs) (root : path) (cb skip : bool) (r : Run) : Prop :=
  validate_workspace_root (run_root_before r) = Ok tt /\
  validate_workspace_root (run_root_after r) = Ok tt /\
  omap standard_failure (standard_items skip r) = [] /\
  omap failure_of (visits_of fs root cb skip r) = [].

Definition run_build (fs : Fs) (root : path) (cb skip : bool) (r : Run) :=
  build_inner xxh3_hex io_error_kind is_indexable_file fs root cb skip r.

Lemma build_inner_spec fs root cb skip r :
  scheduled r ->
  match run_build fs root cb skip r with
  | Ok s =>
    complete fs root cb skip r /\ root_hash_of s = root_hash xxh3_hex (files s) /\
    exists pairs, files s = bt_of_list pairs /\ pairs ≡ₚ omap push_of (visits_of fs root cb skip r)
  | Err _ => ~ complete fs root cb skip r
  end.
Proof.
  intros [Hnd Hcov]. unfold run_build, build_inner, complete.
  destruct (validate_workspace_root (run_root_before r)) as [[]|e] eqn:Eb; cbn [mbind result_bind];
    [|by intros (? & _)].
  assert (exists keys,
    (if skip then foldl (unignored_step io_error_kind root) (None, []) (run_standard r)
     else (None, [])) = (head (omap standard_failure (standard_items skip r)), keys) /\
    forall k, k ∈ keys <-> k ∈ omap (unignored_key root) (standard_items skip r)) as (keys & -> & Hk).
  { destruct skip; [|by exists []]. destruct (unignored_fold root (run_standard r) None []) as [H1 H2].
    eexists. split; [apply injective_projections; [exact H1|reflexivity]|]. intros k. cbn [snd]. rewrite H2.
    pose proof (not_elem_of_nil k). naive_solver. }
  destruct (omap standard_failure (standard_items skip r)) as [|e l]; cbn [head]; [|by intros (? & ? & ? & ?)].
  set (v := visit _ _ _ fs root cb skip keys).
  assert (forall (A : Type) (f : Visit -> option A),
    omap (f ∘ v) (map snd (run_visits r)) = omap f (visits_of fs root cb skip r)) as Hv.
  { intros A f. unfold visits_of. induction (map snd (run_visits r)) as [|item l IH]; [done|].
    cbn [omap list_omap map compose]. rewrite IH. unfold v at 1.
    by rewrite (visit_unignored _ _ _ _ _ _ item Hk). }
  destruct (visits_fold v (run_flush r) (run_visits r) None ∅ Hnd Hcov) as [He Hp].
  destruct (foldl (visit_step v) (None, ∅) (run_visits r)) as [err bufs]. cbn [fst snd] in *.
  rewrite Hv in He. rewrite He. rewrite Hv, flushed_empty, app_nil_r in Hp.
  destruct (omap failure_of (visits_of fs root cb skip r)); cbn [head]; [|by intros (? & ? & ? & ?)].
  destruct (validate_workspace_root (run_root_after r)) as [[]|e]; cbn [mbind result_bind];
    [|by intros (? & ? & ?)].
  cbn [root_hash_of files]. split; [done|]. split; [done|]. by exists (flushed bufs (run_flush r)).
Qed.

Lemma functional_perm (l1 l2 : list (list N * list N)) :
  l1 ≡ₚ l2 -> functional_pairs l1 -> functional_pairs l2.
Proof. intros Hp Hf k a b. rewrite <- Hp. apply Hf. Qed.

Lemma build_inner_files fs root cb skip r s :
  scheduled r -> functional_pairs (omap push_of (visits_of fs root cb skip r)) ->
  run_build fs root cb skip r = Ok s ->
  bt_wf (files s) /\ forall k h,
    bt_get k (files s) = Some h <-> Push k h ∈ visits_of fs root cb skip r.
Proof.
  intros Hs Hf Hb. pose proof (build_inner_spec fs root cb skip r Hs) as Hspec. rewrite Hb in Hspec.
  destruct Hspec as (_ & _ & pairs & -> & Hp). split; [auto with ivy|]. intros k h.
  rewrite bt_of_list_get by (eapply functional_perm; [symmetry|]; done).
  rewrite Hp, list_elem_of_omap. split.
  - intros (v & Hin & Hv). destruct v; naive_solver.
  - intros. by exists (Push k h).
Qed.

(** ** Properties *)

(** What must have become of a walked regular file, in terms of the file system:
    it vanished, is too large, or is in the snapshot. *)
Definition accounted (fs : Fs) (cb : bool) (s : MerkleSnapshot) (p key : path) : Prop :=
  match fs_metadata fs p with
  | Err k => k = NotFound
  | Ok m =>
    (MAX_INDEXABLE_FILE_BYTES < m_len m)%Z \/
    (if cb then match fs_read fs p with Err k => k = NotFound | Ok _ => is_Some (bt_get key (files s)) end
     else is_Some (bt_get key (files s)))
  end.

(** A file below the root, with a UTF-8 name. *)
Definition walked_file (root : path) (item : WalkItem) (p key : path) : Prop :=
  exists entry rel, item = Ok entry /\ entry_is_file entry = true /\ p = de_path entry /\
    path_strip_prefix p root = Some rel /\ is_some (to_str rel) = true /\ key = index_path_string rel.

Lemma visit_accounted fs root cb skip unignored s item p key :
  let v := visit xxh3_hex io_error_kind is_indexable_file fs root cb skip unignored item in
  failure_of v = None -> (forall k h, v = Push k h -> is_Some (bt_get k (files s))) ->
  walked_file root item p key -> accounted fs cb s p key.
Proof.
  intros v Hv Hpush (entry & rel & -> & Hfile & -> & Hrel & Hstr & ->). unfold accounted.
  subst v. unfold visit in Hv, Hpush. rewrite Hfile, Hrel in Hv, Hpush. unfold is_none in Hv, Hpush.
  rewrite Hstr in Hv, Hpush. cbn [negb] in Hv, Hpush.
  destruct (fs_metadata fs (de_path entry)) as [m|[]]; [|done..].
  destruct (Z.ltb_spec MAX_INDEXABLE_FILE_BYTES (m_len m)); [by left|right].
  destruct cb; [|by eapply Hpush]. destruct (fs_read fs (de_path entry)) as [c|[]]; [by eapply Hpush|done..].
Qed.

(** C38. A build is all or nothing: it returns a snapshot exactly when the root
    is a directory before and after the walk and no walked item failed other
    than by having vanished; then the files are exactly the pairs the visits
    pushed and the root hash is theirs.  An unreadable directory or file gives an
    error, never a snapshot from which files are missing: every walked regular
    file with a UTF-8 name is in the snapshot, unless it vanished or is larger
    than an indexable file may be. *)
Theorem build_is_all_or_nothing fs root cb skip r :
  scheduled r -> functional_pairs (omap push_of (visits_of fs root cb skip r)) ->
  match build_inner xxh3_hex io_error_kind is_indexable_file fs root cb skip r with
  | Ok s =>
    complete fs root cb skip r /\ bt_wf (files s) /\
    root_hash_of s = root_hash xxh3_hex (files s) /\
    (forall k h, bt_get k (files s) = Some h <-> Push k h ∈ visits_of fs root cb skip r) /\
    forall t item p key, (t, item) ∈ run_visits r -> walked_file root item p key ->
      accounted fs cb s p key
  | Err _ => ~ complete fs root cb skip r
  end.
Proof.
  intros Hs Hf. pose proof (build_inner_spec fs root cb skip r Hs) as Hspec.
  pose proof (build_inner_files fs root cb skip r) as Hfiles. unfold run_build in *.
  destruct (build_inner _ _ _ _ _ _ _ r) as [s|]; [|done].
  destruct Hspec as (Hc & ? & _). destruct (Hfiles s Hs Hf eq_refl) as [Hwf Hget].
  split; [done|]. split; [done|]. split; [done|]. split; [done|].
  intros t item p key Hin. set (unignored := omap (unignored_key root) (standard_items skip r)).
  assert (visit xxh3_hex io_error_kind is_indexable_file fs root cb skip unignored item
    ∈ visits_of fs root cb skip r) as Hv.
  { apply list_elem_of_fmap_2, list_elem_of_fmap. by exists (t, item). }
  apply (visit_accounted fs root cb skip unignored).
  - destruct Hc as (_ & _ & _ & Hnone). destruct (failure_of _) as [e|] eqn:E; [|done].
    assert (e ∈ omap failure_of (visits_of fs root cb skip r)) as He by (apply list_elem_of_omap; eauto).
    rewrite Hnone in He. by apply not_elem_of_nil in He.
  - intros k h Hp. rewrite Hp in Hv. apply Hget in Hv. by exists h.
Qed.

Lemma omap_perm_nil {A B} (f : A -> option B) l1 l2 : l1 ≡ₚ l2 -> omap f l1 = [] -> omap f l2 = [].
Proof. intros Hp H1. apply Permutation_nil_r. by rewrite <- Hp, H1. Qed.

Lemma visits_of_perm fs root cb skip r1 r2 :
  run_standard r1 ≡ₚ run_standard r2 -> map snd (run_visits r1) ≡ₚ map snd (run_visits r2) ->
  visits_of fs root cb skip r1 ≡ₚ visits_of fs root cb skip r2.
Proof.
  intros Hs Hv. unfold visits_of. rewrite Hv. apply Permutation_refl', map_ext. intros item.
  apply visit_unignored. intros k. unfold standard_items. destruct skip; [|done]. by rewrite Hs.
Qed.

Lemma complete_perm fs root cb skip r1 r2 :
  run_root_before r1 = run_root_before r2 -> run_root_after r1 = run_root_after r2 ->
  run_standard r1 ≡ₚ run_standard r2 -> map snd (run_visits r1) ≡ₚ map snd (run_visits r2) ->
  complete fs root cb skip r1 -> complete fs root cb skip r2.
Proof.
  intros Hb Ha Hs Hv (? & ? & Hst & Hf). unfold complete. rewrite <- Hb, <- Ha. split_and!; try done.
  - eapply omap_perm_nil; [|exact Hst]. unfold standard_items. by destruct skip.
  - eapply omap_perm_nil; [|exact Hf]. by apply visits_of_perm.
Qed.

(** The snapshot does not depend on how the walk was scheduled: two runs
    over the same items, handled by other threads in another order and with the
    threads' buffers flushed in another order, give the same snapshot, or both
    give an error. *)
Theorem build_schedule_independent fs root cb skip r1 r2 :
  scheduled r1 -> scheduled r2 ->
  run_root_before r1 = run_root_before r2 -> run_root_after r1 = run_root_after r2 ->
  run_standard r1 ≡ₚ run_standard r2 -> map snd (run_visits r1) ≡ₚ map snd (run_visits r2) ->
  functional_pairs (omap push_of (visits_of fs root cb skip r1)) ->
  ok (build_inner xxh3_hex io_error_kind is_indexable_file fs root cb skip r1) =
  ok (build_inner xxh3_hex io_error_kind is_indexable_file fs root cb skip r2).
Proof.
  intros Hs1 Hs2 Hb Ha Hst Hv Hf.
  pose proof (visits_of_perm fs root cb skip r1 r2 Hst Hv) as Hp.
  assert (functional_pairs (omap push_of (visits_of fs root cb skip r2))) as Hf2.
  { eapply functional_perm; [|exact Hf]. by rewrite Hp. }
  pose proof (build_inner_spec fs root cb skip r1 Hs1) as H1.
  pose proof (build_inner_spec fs root cb skip r2 Hs2) as H2.
  pose proof (build_inner_files fs root cb skip r1) as F1.
  pose proof (build_inner_files fs root cb skip r2) as F2. unfold run_build in *.
  destruct (build_inner _ _ _ _ _ _ _ r1) as [s1|], (build_inner _ _ _ _ _ _ _ r2) as [s2|].
  - destruct (F1 s1 Hs1 Hf eq_refl) as [W1 G1], (F2 s2 Hs2 Hf2 eq_refl) as [W2 G2].
    assert (files s1 = files s2) as Hfs.
    { apply bt_ext; [done..|]. intros k. apply option_eq. intros h. by rewrite G1, G2, Hp. }
    destruct H1 as (_ & R1 & _), H2 as (_ & R2 & _). cbn. destruct s1, s2. simpl in *. congruence.
  - destruct H2. destruct H1 as (Hc & _). by eapply complete_perm.
  - destruct H1. destruct H2 as (Hc & _). by eapply (complete_perm fs root cb skip r2 r1).
  - done.
Qed.
End Build.

(** A workspace of two files, one of which the ignore rules hide, walked by two
    threads; the second run finds the same items the other way round. *)
Definition file_meta (n : Z) : Metadata := MkMetadata IsFile n (Some 5%Z) 1 7 0.
Definition dir_meta : Metadata := MkMetadata IsDir 0 (Some 5%Z) 1 7 0.
Definition toy_fs : Fs :=
  MkFs (fun p => if bool_decide (p = lit "/w/a") then Ok (file_meta 3)
                 else if bool_decide (p = lit "/w/b") then Ok (file_meta 4) else Err NotFound)
    (fun p => Err NotFound) (fun p => Ok p).
Definition toy_item (p : string) : WalkItem := Ok (MkDirEntry (lit p) (Some IsFile)).
Definition toy_run_1 : Run :=
  MkRun (Ok dir_meta) [toy_item "/w/a"]
    [(1, toy_item "/w/a"); (2, toy_item "/w/b"); (1, toy_item "/w/gone"); (2, Err (Glob None []))]
    [1; 2] (Ok dir_meta).
Definition toy_run_2 : Run :=
  MkRun (Ok dir_meta) [toy_item "/w/a"]
    [(2, toy_item "/w/b"); (1, toy_item "/w/a"); (1, Err (Glob None [])); (1, toy_item "/w/gone")]
    [2; 1] (Ok dir_meta).
Definition toy_digest (l : list N) : list N := take 1 l.
Definition toy_kind (e : IgnoreError) : option ErrorKind := None.
Definition toy_build (r : Run) : Result MerkleError MerkleSnapshot :=
  build_inner toy_digest toy_kind (fun _ _ => true) toy_fs (lit "/w") true true r.
Definition toy_pushes (r : Run) : list (list N * list N) :=
  omap push_of (visits_of toy_digest toy_kind (fun _ _ => true) toy_fs (lit "/w") true true r).

Lemma toy_scheduled : scheduled toy_run_1 /\ scheduled toy_run_2.
Proof.
  split; (split; [by vm_compute; repeat constructor; set_solver|]); intros t i Hi; simpl in *;
    rewrite !elem_of_cons in Hi; naive_solver set_solver.
Qed.

Lemma toy_functional r :
  toy_pushes r ≡ₚ [(lit "a", lit "a-0"); (lit "b", lit "b-1")] -> functional_pairs (toy_pushes r).
Proof.
  intros Hp k v1 v2. rewrite Hp, !elem_of_cons. pose proof not_elem_of_nil (A := list N * list N).
  naive_solver.
Qed.

Lemma build_is_all_or_nothing_witness :
  toy_build toy_run_1 = Ok (MkSnapshot (lit "a") [(lit "a", lit "a-0"); (lit "b", lit "b-1")]) /\
  complete toy_digest toy_kind (fun _ _ => true) toy_fs (lit "/w") true true toy_run_1.
Proof.
  split; [vm_compute; reflexivity|].
  pose proof (build_is_all_or_nothing toy_digest toy_kind (fun _ _ => true) toy_fs (lit "/w")
    true true toy_run_1 (proj1 toy_scheduled)
    (toy_functional toy_run_1 ltac:(vm_compute; reflexivity))) as Hb.
  destruct (build_inner _ _ _ _ _ _ _ _) as [s|e] eqn:E; [exact (proj1 Hb)|].
  vm_compute in E. discriminate E.
Defined.

Lemma build_schedule_independent_witness : ok (toy_build toy_run_1) = ok (toy_build toy_run_2).
Proof.
  apply (build_schedule_independent toy_digest toy_kind (fun _ _ => true) toy_fs (lit "/w")
    true true toy_run_1 toy_run_2 (proj1 toy_scheduled) (proj2 toy_scheduled) eq_refl eq_refl).
  - reflexivity.
  - cbn. etransitivity; [apply Permutation_swap|]. apply perm_skip, perm_skip, Permutation_swap.
  - apply toy_functional. vm_compute. reflexivity.
Defined.
