(* ===== verification/MerkleRefresh.v ===== *)
(** * Targeted refresh of a snapshot, and the marking of vanished files. *)
From S2P Require Import Prelude Utf8 BTree Paths Merkle MerkleDiffs MerkleBuild.

(** ** Sorted lists *)

Definition by_key {B} (key : B -> list N) (x y : B) : Prop := klt (key x) (key y).

Lemma sorted_omap {V B} (key : B -> list N) (f : list N * V -> option B) l :
  (forall x b, f x = Some b -> key b = fst x) -> bt_wf l -> StronglySorted (by_key key) (omap f l).
Proof.
  intros Hf. induction l as [|[k v] l IH]; intros Hw; [constructor|].
  apply bt_wf_cons in Hw as [Hk Hw]. cbn [omap list_omap].
  destruct (f (k, v)) as [b|] eqn:E; [|by apply IH]. constructor; [by apply IH|].
  apply Forall_forall. intros b' ([k' v'] & Hin & Hb)%list_elem_of_omap.
  unfold by_key. rewrite (Hf _ _ E), (Hf _ _ Hb). simpl.
  exact (bt_key_lt _ _ _ Hk Hin).
Qed.

Lemma sorted_same_elements {B} (key : B -> list N) l1 l2 :
  StronglySorted (by_key key) l1 -> StronglySorted (by_key key) l2 ->
  (forall x, x ∈ l1 <-> x ∈ l2) -> l1 = l2.
Proof.
  assert (forall l : list B, StronglySorted (by_key key) l -> NoDup l) as Hnd.
  { induction 1 as [|x l _ IH Hf]; constructor; [|done]. intros Hin.
    eapply Forall_forall in Hf; [|exact Hin]. by apply (irreflexivity klt) in Hf. }
  intros H1 H2 Hiff. eapply StronglySorted_unique_strong; [|exact H1|exact H2|].
  - intros x y _ _ Hxy Hyx. exfalso. apply (irreflexivity klt (key x)). by etrans.
  - apply NoDup_Permutation; auto.
Qed.

(** ** Prefixes and the lexicographic order *)

Lemma lex_cons x a y b :
  kcmp (x :: a) (y :: b) = match N.compare x y with Eq => kcmp a b | c => c end.
Proof. done. Qed.

Lemma starts_with_between p : forall a b,
  kcmp a p <> Lt -> kcmp a b <> Gt -> starts_with p b = true -> starts_with p a = true.
Proof.
  unfold starts_with. induction p as [|x p IH]; intros a b Hap Hab Hpb; [done|].
  destruct b as [|z b]; [done|]. simpl in Hpb.
  destruct (N.eqb_spec x z) as [<-|]; [|done].
  destruct a as [|y a]; [by destruct Hap|]. rewrite lex_cons in Hap, Hab. simpl.
  destruct (N.compare_spec y x) as [->|Hlt|Hgt]; try done.
  rewrite N.eqb_refl. by eapply IH.
Qed.

Lemma range_from_head p (m : list (list N * list N)) :
  bt_wf m ->
  match head (bt_range_from p m) with
  | Some (k, _) => starts_with p k = true <-> exists j, bt_get j m <> None /\ starts_with p j = true
  | None => forall j, bt_get j m <> None -> starts_with p j = false
  end.
Proof.
  assert (forall j, kcmp j p = Lt -> starts_with p j = false) as Hlt.
  { intros j. revert p. induction j as [|y j IH]; intros [|x p]; try done.
    rewrite lex_cons. unfold starts_with. simpl. destruct (N.eqb_spec x y) as [->|]; [|done].
    rewrite N.compare_refl. apply IH. }
  induction m as [|[k v] m IH]; intros Hw; [by intros j|].
  pose proof Hw as [Hf Hw']%bt_wf_cons. cbn [bt_range_from].
  assert (kcmp k p <> Lt ->
    starts_with p k = true <->
    exists j, bt_get j ((k, v) :: m) <> None /\ starts_with p j = true) as Hge.
  { intros Hk. split; [intros; exists k; split; [by cbn; rewrite kcmp_refl|done]|].
    intros (j & Hj & Hp). destruct (bt_get j ((k, v) :: m)) as [h|] eqn:E; [|done].
    apply bt_get_In in E; [|done]. apply elem_of_cons in E as [[= -> ->]|E]; [done|].
    eapply starts_with_between; [exact Hk| |exact Hp].
    apply (bt_key_lt _ _ _ Hf) in E. unfold klt in E. simpl in E. by rewrite E. }
  destruct (kcmp k p) eqn:E; [by apply Hge| |by apply Hge].
  specialize (IH Hw'). destruct (head (bt_range_from p m)) as [[k' v']|].
  - rewrite IH. split; intros (j & Hj & Hp); exists j; (split; [|done]).
    + cbn. by destruct (kcmp j k).
    + cbn in Hj. destruct (kcmp j k) eqn:Ej; [|done..]. apply kcmp_eq in Ej as ->.
      by rewrite Hlt in Hp.
  - intros j Hj. cbn in Hj. destruct (kcmp j k) eqn:Ej; [|by apply IH..].
    apply kcmp_eq in Ej as ->. by apply Hlt.
Qed.

(** ** Applying the updates *)

Lemma apply_updates_spec ups : forall fs d,
  bt_wf ups -> bt_wf fs ->
  let st := foldl apply_update (fs, d) ups in
  bt_wf (fst st) /\
  (forall k, bt_get k (fst st) = match bt_get k ups with Some u => u | None => bt_get k fs end) /\
  added_or_modified (snd st) = added_or_modified d ++
    omap (fun ku => match snd ku with
                    | Some h => if decide (bt_get (fst ku) fs = Some h) then None
                                else Some (fst ku, ends_with_1 h)
                    | None => None
                    end) ups /\
  deleted (snd st) = deleted d ++
    omap (fun ku => match snd ku with
                    | None => if decide (bt_get (fst ku) fs = None) then None else Some (fst ku)
                    | Some _ => None
                    end) ups.
Proof.
  induction ups as [|[k u] ups IH]; intros fs d Hu Hw.
  { cbn. rewrite !app_nil_r. by split_and!. }
  apply bt_wf_cons in Hu as [Hf Hu]. cbn [foldl].
  set (st1 := apply_update (fs, d) (k, u)).
  assert (bt_wf (fst st1) /\ forall j, bt_get j (fst st1) = if kcmp j k is Eq then u else bt_get j fs)
    as [Hw1 Hg1].
  { unfold st1, apply_update. destruct u as [h|].
    - case_decide as Hd; simpl; [split; [done|]|split; [auto with ivy|apply bt_get_insert]].
      intros j. destruct (kcmp j k) eqn:Ej; [|done..]. by apply kcmp_eq in Ej as ->.
    - destruct (bt_get k fs) eqn:Eg; simpl; [split; [auto with ivy|intros; by apply bt_get_remove]|].
      split; [done|]. intros j. destruct (kcmp j k) eqn:Ej; [|done..]. by apply kcmp_eq in Ej as ->. }
  assert (forall kv, kv ∈ ups -> bt_get (fst kv) (fst st1) = bt_get (fst kv) fs) as Hrest.
  { intros kv Hin. rewrite Hg1. apply (bt_key_lt _ _ _ Hf), kcmp_Gt in Hin. by rewrite Hin. }
  destruct (IH (fst st1) (snd st1) Hu Hw1) as (IHw & IHg & IHa & IHd).
  rewrite <- surjective_pairing in *. split_and!; [done| | |].
  - intros j. rewrite IHg, Hg1. cbn [bt_get]. destruct (kcmp j k) eqn:Ej; [|done..].
    apply kcmp_eq in Ej as ->. by rewrite bt_get_lt.
  - rewrite IHa. erewrite omap_ext_elem by (intros x Hx; rewrite (Hrest x Hx); reflexivity).
    unfold st1, apply_update. cbn [omap list_omap fst snd]. destruct u as [h|].
    + case_decide; [done|]. simpl. by rewrite <- app_assoc.
    + by destruct (bt_get k fs).
  - rewrite IHd. erewrite omap_ext_elem by (intros x Hx; rewrite (Hrest x Hx); reflexivity).
    unfold st1, apply_update. cbn [omap list_omap fst snd]. destruct u as [h|].
    + by case_decide.
    + destruct (bt_get k fs) eqn:Eg; [|by rewrite decide_True].
      rewrite decide_False by done. simpl. by rewrite <- app_assoc.
Qed.

(** The diff of the updates is the comparison of the two maps. *)
Lemma apply_updates_diff ups fs :
  bt_wf ups -> bt_wf fs ->
  let st := foldl apply_update (fs, diff_default) ups in
  snd st = MkDiff (changed_files fs (fst st)) (missing_files fs (fst st)).
Proof.
  intros Hu Hw. destruct (apply_updates_spec ups fs diff_default Hu Hw) as (Hw' & Hg & Ha & Hd).
  destruct (foldl _ _ _) as [fs' [a dl]]. cbn [fst snd added_or_modified deleted] in *.
  cbn in Ha, Hd. f_equal.
  - rewrite Ha. apply (sorted_same_elements fst).
    + apply sorted_omap; [|done]. intros [k [h|]] b Hb; simpl in Hb; [|done]. case_decide; by simplify_eq.
    + apply sorted_omap; [|done]. intros [k h] b Hb; simpl in Hb. case_decide; by simplify_eq.
    + intros [k b]. rewrite changed_files_In by done. rewrite list_elem_of_omap. split.
      * intros ([k' [h|]] & Hin & Hb); simpl in Hb; [|done]. case_decide; [done|]. simplify_eq.
        exists h. rewrite Hg. apply bt_get_In in Hin; [|done]. by rewrite Hin.
      * intros (h & Hh & Hne & ->). rewrite Hg in Hh. destruct (bt_get k ups) as [u|] eqn:E; [|done].
        subst u. exists (k, Some h). rewrite <- bt_get_In by done. simpl. by rewrite decide_False.
  - rewrite Hd. apply (sorted_same_elements id).
    + apply sorted_omap; [|done]. intros [k [h|]] b Hb; simpl in Hb; [done|]. case_decide; by simplify_eq.
    + apply sorted_omap; [|done]. intros [k h] b Hb; simpl in Hb. case_decide; by simplify_eq.
    + intros k. rewrite missing_files_In by done. rewrite list_elem_of_omap. split.
      * intros ([k' [h|]] & Hin & Hb); simpl in Hb; [done|]. case_decide; [done|]. simplify_eq.
        rewrite Hg. apply bt_get_In in Hin; [|done]. by rewrite Hin.
      * intros [Hn Ho]. rewrite Hg in Hn. destruct (bt_get k ups) as [u|] eqn:E; [|done].
        subst u. exists (k, None). rewrite <- bt_get_In by done. simpl. by rewrite decide_False.
Qed.

Section Refresh.
Context (xxh3_hex : list N -> list N).

(** The hash a changed path should get: that of a regular file of indexable
    size, with the visibility the snapshot already records; none when the path,
    or a directory above it, is gone. *)
Definition expected_hash (fs : Fs) (root : path) (snap : MerkleSnapshot) (key : path)
  : option (list N) :=
  match inspect_parents fs root (components key) None with
  | Ok (inr (Some m)) =>
    if is_file m && (m_len m <=? MAX_INDEXABLE_FILE_BYTES)%Z then
      Some (metadata_file_hash xxh3_hex m ++
            match bt_get key (files snap) with
            | Some h => if ends_with_1 h then lit "-1" else lit "-0"
            | None => lit "-0"
            end)
    else None
  | _ => None
  end.

(** The paths of the list that have a key. *)
Definition keyed (rel_paths : list path) (k : path) : Prop := k ∈ rel_paths /\ to_str k <> None.

Lemma refresh_path_spec fs root snap updates rel_path updates' :
  bt_wf (files snap) ->
  refresh_path xxh3_hex fs root snap updates rel_path = Ok (Some updates') ->
  match to_str rel_path with
  | None => updates' = updates
  | Some _ =>
    updates' = bt_insert rel_path (expected_hash fs root snap rel_path) updates /\
    (expected_hash fs root snap rel_path <> None -> bt_get rel_path (files snap) <> None) /\
    (expected_hash fs root snap rel_path = None ->
       forall j, bt_get j (files snap) <> None -> starts_with (rel_path ++ [SEP]) j = false)
  end.
Proof.
  intros Hw. unfold refresh_path, expected_hash.
  destruct (to_str rel_path) as [s|] eqn:Eu; cbn [is_none is_some negb]; [|by intros [= ->]].
  destruct (index_path_string_utf8 _ _ Eu) as [-> ->].
  case_match; [done|].
  destruct (inspect_parents fs root (components rel_path) None) as [[[]|metadata]|e];
    cbn [mbind result_bind]; [done| |done].
  assert (forall r,
    match head (bt_range_from (rel_path ++ [SEP]) (files snap)) with
    | Some (existing, _) =>
      if starts_with (rel_path ++ [SEP]) existing then Ok None
      else Ok (Some (bt_insert rel_path None updates))
    | None => Ok (Some (bt_insert rel_path None updates))
    end = (Ok (Some r) : Result MerkleError _) ->
    r = bt_insert rel_path None updates /\
    forall j, bt_get j (files snap) <> None -> starts_with (rel_path ++ [SEP]) j = false) as Hgone.
  { intros r. pose proof (range_from_head (rel_path ++ [SEP]) (files snap) Hw) as Hh.
    destruct (head _) as [[k v]|]; [|by intros [= <-]].
    destruct (starts_with _ k); [done|]. intros [= <-]. split; [done|]. intros j Hj.
    destruct (starts_with (rel_path ++ [SEP]) j) eqn:Es; [|done].
    destruct Hh as [_ Hh]. discriminate Hh. by exists j. }
  destruct metadata as [m|].
  - destruct (is_file m && (m_len m <=? MAX_INDEXABLE_FILE_BYTES)%Z).
    + destruct (bt_get rel_path (files snap)) as [h|] eqn:Eg; cbn [is_none is_some negb]; [|done].
      intros [= <-]. split_and!; done.
    + destruct (is_dir m); [done|]. intros [-> Hj]%Hgone. by split_and!.
  - intros [-> Hj]%Hgone. by split_and!.
Qed.

Lemma collect_updates_spec fs root snap rel_paths : forall updates updates',
  bt_wf (files snap) -> bt_wf updates ->
  collect_updates xxh3_hex fs root snap rel_paths updates = Ok (Some updates') ->
  bt_wf updates' /\
  (forall k, bt_get k updates' =
     if decide (k ∈ rel_paths /\ to_str k <> None) then Some (expected_hash fs root snap k)
     else bt_get k updates) /\
  (forall k, keyed rel_paths k ->
     (expected_hash fs root snap k <> None -> bt_get k (files snap) <> None) /\
     (expected_hash fs root snap k = None ->
        forall j, bt_get j (files snap) <> None -> starts_with (k ++ [SEP]) j = false)).
Proof.
  induction rel_paths as [|rel rest IH]; intros updates updates' Hw Hu; cbn [collect_updates].
  - intros [= <-]. split; [done|]. split.
    + intros k. rewrite decide_False; [done|]. intros [Hin _]. by apply not_elem_of_nil in Hin.
    + intros k [Hin _]. by apply not_elem_of_nil in Hin.
  - destruct (refresh_path xxh3_hex fs root snap updates rel) as [[up|]|] eqn:E;
      cbn [mbind result_bind]; [|done..]. intros Hc. apply refresh_path_spec in E; [|done].
    destruct (to_str rel) as [s|] eqn:Es.
    + destruct E as (-> & Hs & Hn).
      destruct (IH _ _ Hw (bt_insert_wf _ _ _ Hu) Hc) as (Hw' & Hg & Hk). split; [done|]. split.
      * intros k. rewrite Hg. destruct (decide (k = rel)) as [->|Hne].
        -- rewrite bt_get_insert_eq. rewrite (decide_True (P := _ ∈ _ :: _ /\ _)); [by case_decide|].
           split; [by left|by rewrite Es].
        -- rewrite bt_get_insert_ne by done. rewrite (decide_ext _ (k ∈ rel :: rest /\ to_str k <> None));
             [done|]. rewrite elem_of_cons. tauto.
      * intros k [Hin Ht]. apply elem_of_cons in Hin as [->|Hin]; [done|]. by apply Hk.
    + subst up. destruct (IH _ _ Hw Hu Hc) as (Hw' & Hg & Hk). split; [done|]. split.
      * intros k. rewrite Hg. rewrite (decide_ext _ (k ∈ rel :: rest /\ to_str k <> None)); [done|].
        rewrite elem_of_cons. split; [tauto|]. intros [[->|?] ?]; done.
      * intros k [Hin Ht]. apply elem_of_cons in Hin as [->|Hin]; [done|]. by apply Hk.
Qed.

(** A targeted refresh either changes nothing (an error, or a fallback to
    the full walk), or moves exactly the named paths to the hashes the file
    system gives them and keeps every other entry.  It adds no key, it drops no
    path that is a directory of the snapshot, the root hash stays that of the
    files, and the diff it returns is the one a comparison of the two maps
    gives. *)
Theorem refresh_in_place_spec fs root rel_paths skip snap :
  bt_wf (files snap) ->
  let '(r, newer) := refresh_paths_in_place xxh3_hex fs root rel_paths skip snap in
  match r with
  | Ok (Some d) =>
    bt_wf (files newer) /\
    (forall k, bt_get k (files newer) =
       if decide (k ∈ rel_paths /\ to_str k <> None) then expected_hash fs root snap k
       else bt_get k (files snap)) /\
    (forall k, bt_get k (files newer) <> None -> bt_get k (files snap) <> None) /\
    (forall k, keyed rel_paths k -> expected_hash fs root snap k = None ->
       forall j, bt_get j (files snap) <> None -> starts_with (k ++ [SEP]) j = false) /\
    d = MkDiff (changed_files (files snap) (files newer)) (missing_files (files snap) (files newer)) /\
    (root_hash_of snap = root_hash xxh3_hex (files snap) ->
     root_hash_of newer = root_hash xxh3_hex (files newer))
  | _ => newer = snap
  end.
Proof.
  intros Hw. unfold refresh_paths_in_place. destruct skip; [done|].
  destruct (validate_workspace_root _) as [_|e]; [|done].
  destruct (collect_updates xxh3_hex fs root snap rel_paths []) as [[ups|]|e] eqn:Ec; [|done..].
  assert (bt_wf (@nil (list N * option (list N)))) as Hnil by constructor.
  destruct (collect_updates_spec _ _ _ _ _ _ Hw Hnil Ec) as (Hu & Hg & Hk).
  destruct (apply_updates_spec ups (files snap) diff_default Hu Hw) as (Hw' & Hg' & _ & _).
  pose proof (apply_updates_diff ups (files snap) Hu Hw) as Hd. cbn zeta in Hd.
  destruct (foldl apply_update (files snap, diff_default) ups) as [fs' d]. cbn [fst snd] in *.
  cbn [files]. assert (forall k, bt_get k fs' =
    if decide (k ∈ rel_paths /\ to_str k <> None) then expected_hash fs root snap k
    else bt_get k (files snap)) as Hfs'.
  { intros k. rewrite Hg', Hg. by case_decide. }
  split_and!; [done|done| | |done|].
  - intros k. rewrite Hfs'. case_decide as Hin; [|done]. by apply Hk.
  - intros k Hin. by apply Hk.
  - intros Hr. cbn [root_hash_of].
    destruct (added_or_modified d) eqn:Ea; [|done]. destruct (deleted d) eqn:Edl; [|done].
    rewrite Hr. f_equal. subst d. cbn [added_or_modified deleted] in *.
    pose proof (apply_diff_changes (files snap) fs' Hw Hw') as Happ.
    rewrite Ea, Edl in Happ. exact Happ.
Qed.
End Refresh.

(** A file that changed and one that is gone, in a snapshot of three. *)
Definition refresh_fs : Fs :=
  MkFs (fun p => Ok dir_meta)
    (fun p => if bool_decide (p = lit "/w/a") then Ok (file_meta 3) else Err NotFound)
    (fun p => Err NotFound).
Definition refresh_snap : MerkleSnapshot :=
  let fs := [(lit "a", lit "x-1"); (lit "b", lit "y-0"); (lit "c", lit "z-0")] in
  MkSnapshot (root_hash toy_digest fs) fs.

Lemma refresh_in_place_spec_witness :
  let '(r, newer) :=
    refresh_paths_in_place toy_digest refresh_fs (lit "/w") [lit "b"; lit "a"] false refresh_snap in
  r = Ok (Some (MkDiff [(lit "a", true)] [lit "b"])) /\
  bt_get (lit "a") (files newer) = Some ([3%N] ++ lit "-1") /\
  bt_get (lit "b") (files newer) = None /\ bt_get (lit "c") (files newer) = Some (lit "z-0").
Proof.
  assert (bt_wf (files refresh_snap)) as Hw by repeat constructor.
  pose proof (refresh_in_place_spec toy_digest refresh_fs (lit "/w") [lit "b"; lit "a"] false
    refresh_snap Hw) as Hs.
  destruct (refresh_paths_in_place _ _ _ _ _ _) as [r newer] eqn:E.
  vm_compute in E. injection E as <- <-.
  destruct Hs as (_ & Hg & _). rewrite !Hg. vm_compute. repeat split; reflexivity.
Defined.

(** ** Vanished files *)

Definition is_hex_digit (c : N) : bool := is_ascii_digit c || between 97 102 c.

Section Vanished.
Context (xxh3_hex : list N -> list N).
Context (io_error_kind : IgnoreError -> option ErrorKind).
Context (is_indexable_file : path -> list N -> bool).

(** [hex::encode] prints hexadecimal digits. *)
Definition hex_encoded : Prop := forall x, Forall (fun c => is_hex_digit c = true) (xxh3_hex x).

Lemma visit_push_form fs root cb skip u item k h :
  visit xxh3_hex io_error_kind is_indexable_file fs root cb skip u item = Push k h ->
  exists x v, h = xxh3_hex x ++ v /\ (v = lit "-1" \/ v = lit "-0").
Proof.
  unfold visit. destruct item as [entry|e]; [|by case_match].
  case_match; [done|]. destruct (path_strip_prefix _ _); [|done]. case_match; [done|].
  destruct (fs_metadata fs (de_path entry)) as [m|[]]; [|done..].
  case_match; [done|]. destruct cb.
  - destruct (fs_read fs (de_path entry)) as [c|[]]; [|done..]. intros [= _ <-].
    eexists _, _. split; [done|]. case_match; tauto.
  - intros [= _ <-]. eexists _, _. split; [done|]. case_match; tauto.
Qed.

Lemma hex_not_vanished x v w :
  hex_encoded -> v = lit "-1" \/ v = lit "-0" -> xxh3_hex x ++ v <> VANISHED_FILE_HASH ++ w.
Proof.
  intros Hh Hv Heq. specialize (Hh x). destruct (xxh3_hex x) as [|c l].
  - destruct Hv as [-> | ->]; discriminate.
  - apply Forall_cons in Hh as [Hc _]. simpl in Heq. injection Heq as -> _. discriminate.
Qed.

Definition mark_step (fs : list (list N * list N)) (rel_path : path) : list (list N * list N) :=
  let key := index_path_string rel_path in
  match bt_get key fs with
  | Some hash => bt_insert key (vanished_hash hash) fs
  | None => fs
  end.

Lemma vanished_visibility h : ends_with_1 (vanished_hash h) = ends_with_1 h.
Proof. unfold vanished_hash. by destruct (ends_with_1 h). Qed.

Lemma vanished_twice h : vanished_hash (vanished_hash h) = vanished_hash h.
Proof. unfold vanished_hash at 1. rewrite vanished_visibility. done. Qed.

Lemma mark_fold rel_paths : forall fs,
  bt_wf fs ->
  bt_wf (foldl mark_step fs rel_paths) /\
  forall k, bt_get k (foldl mark_step fs rel_paths) =
    if decide (k ∈ map index_path_string rel_paths) then vanished_hash <$> bt_get k fs
    else bt_get k fs.
Proof.
  induction rel_paths as [|rel rest IH]; intros fs Hw; cbn [foldl].
  { split; [done|]. intros k. rewrite decide_False; [done|]. apply not_elem_of_nil. }
  assert (bt_wf (mark_step fs rel)) as Hw1 by (unfold mark_step; case_match; auto with ivy).
  destruct (IH _ Hw1) as [Hw' Hg]. split; [done|]. intros k. rewrite Hg.
  assert (bt_get k (mark_step fs rel) =
    if decide (k = index_path_string rel) then vanished_hash <$> bt_get k fs else bt_get k fs) as ->.
  { unfold mark_step. destruct (bt_get (index_path_string rel) fs) as [h|] eqn:E.
    - case_decide as Hk; [subst k; by rewrite bt_get_insert_eq, E|by apply bt_get_insert_ne].
    - case_decide as Hk; [subst k; by rewrite E|done]. }
  cbn [map]. destruct (decide (k = index_path_string rel)) as [Hk|Hne].
  - rewrite (decide_True (P := _ ∈ _ :: _)) by (subst k; by left). case_decide; [|done].
    destruct (bt_get k fs); simpl; [by rewrite vanished_twice|done].
  - rewrite (decide_ext _ (k ∈ index_path_string rel :: map index_path_string rest)); [done|].
    rewrite elem_of_cons. naive_solver.
Qed.

Lemma mark_vanished_get rel_paths snap :
  bt_wf (files snap) ->
  bt_wf (files (mark_vanished xxh3_hex rel_paths snap)) /\
  forall k, bt_get k (files (mark_vanished xxh3_hex rel_paths snap)) =
    if decide (k ∈ map index_path_string rel_paths) then vanished_hash <$> bt_get k (files snap)
    else bt_get k (files snap).
Proof. intros Hw. by apply (mark_fold rel_paths (files snap)). Qed.

(** Marking paths as vanished keeps every entry and its visibility, touches
    no other entry, and makes the marked hash one that no file on disk matches:
    the metadata check refuses it, and any later snapshot that a walk builds
    (with another root hash) reports the path as modified or as deleted. *)
Theorem mark_vanished_forces_reindex fs root cb skip r s rel_paths snap rel :
  hex_encoded -> bt_wf (files snap) -> rel ∈ rel_paths ->
  bt_get (index_path_string rel) (files snap) <> None ->
  scheduled r ->
  functional_pairs (omap push_of
    (visits_of xxh3_hex io_error_kind is_indexable_file fs root cb skip r)) ->
  build_inner xxh3_hex io_error_kind is_indexable_file fs root cb skip r = Ok s ->
  let marked := mark_vanished xxh3_hex rel_paths snap in
  root_hash_of marked <> root_hash_of s ->
  let key := index_path_string rel in
  (forall k, ends_with_1 <$> bt_get k (files marked) = ends_with_1 <$> bt_get k (files snap)) /\
  (forall k, k ∉ map index_path_string rel_paths ->
     bt_get k (files marked) = bt_get k (files snap)) /\
  (exists h, bt_get key (files marked) = Some h /\
     forall fs p, path_matches_metadata_snapshot xxh3_hex fs p h = false) /\
  (key ∈ map fst (added_or_modified (diff marked s)) \/ key ∈ deleted (diff marked s)).
Proof.
  intros Hhex Hw Hin Hkey Hs Hf Hb marked Hroot key.
  destruct (mark_vanished_get rel_paths snap Hw) as [Hw' Hg].
  destruct (build_inner_files _ _ _ _ _ _ _ _ s Hs Hf Hb) as [Hws Hgs].
  fold marked in Hw', Hg. assert (key ∈ map index_path_string rel_paths) as Hkin.
  { by apply list_elem_of_fmap_2. }
  destruct (bt_get key (files snap)) as [h0|] eqn:E0; [|done].
  assert (bt_get key (files marked) = Some (vanished_hash h0)) as Hm.
  { rewrite Hg, decide_True by done. by rewrite E0. }
  split_and!.
  - intros k. rewrite Hg. case_decide; [|done]. destruct (bt_get k (files snap)); [|done].
    simpl. by rewrite vanished_visibility.
  - intros k Hk. by rewrite Hg, decide_False.
  - exists (vanished_hash h0). split; [done|]. intros fs' p.
    assert (forall m, metadata_file_hash xxh3_hex m <> lit "vanished") as Hne.
    { intros m Heq. pose proof (Hhex (metadata_bytes m)) as Hh. unfold metadata_file_hash in Heq.
      rewrite Heq in Hh. apply Forall_cons in Hh as [Hh _]. discriminate. }
    unfold path_matches_metadata_snapshot, vanished_hash. destruct (ends_with_1 h0); simpl.
    all: destruct (ok (fs_metadata fs' p)) as [m|]; [|done].
    all: rewrite (bool_decide_eq_false_2 _ (Hne m)); by rewrite andb_false_r.
  - rewrite diff_spec by done. cbn [added_or_modified deleted].
    destruct (bt_get key (files s)) as [h|] eqn:Es.
    + left. apply list_elem_of_fmap. exists (key, ends_with_1 h). split; [done|].
      apply changed_files_In; [done|]. exists h. split_and!; [done| |done].
      rewrite Hm. intros [= Heq]. apply Hgs in Es. unfold visits_of in Es.
      apply list_elem_of_fmap in Es as (item & Hp & _). symmetry in Hp.
      apply visit_push_form in Hp as (x & v & -> & Hv). unfold vanished_hash in Heq.
      symmetry in Heq. by apply hex_not_vanished in Heq.
    + right. apply missing_files_In; [done|]. by rewrite Es, Hm.
Qed.
End Vanished.

Definition hex_digest (l : list N) : list N :=
  lit "0" ++ (if decide (length l < 14)%nat then lit "1" else []).
Definition vanished_snap : MerkleSnapshot :=
  MkSnapshot [] [(lit "a", lit "00-0"); (lit "z", lit "01-1")].

Lemma mark_vanished_forces_reindex_witness :
  lit "a" ∈ map fst (added_or_modified
    (diff (mark_vanished hex_digest [lit "a"] vanished_snap) (MkSnapshot (lit "01") [(lit "a", lit "0-0"); (lit "b", lit "0-1")])))
  \/ lit "a" ∈ deleted
    (diff (mark_vanished hex_digest [lit "a"] vanished_snap) (MkSnapshot (lit "01") [(lit "a", lit "0-0"); (lit "b", lit "0-1")])).
Proof.
  assert (visits_of hex_digest toy_kind (fun _ _ => true) toy_fs (lit "/w") false true toy_run_1 =
    [Push (lit "a") (lit "0-0"); Push (lit "b") (lit "0-1"); Skip; Skip]) as Hv.
  { vm_compute. reflexivity. }
  apply (mark_vanished_forces_reindex hex_digest toy_kind (fun _ _ => true) toy_fs (lit "/w") false true
    toy_run_1 (MkSnapshot (lit "01") [(lit "a", lit "0-0"); (lit "b", lit "0-1")])
    [lit "a"] vanished_snap (lit "a")).
  - intros x. unfold hex_digest. case_decide; repeat constructor.
  - repeat constructor.
  - by left.
  - vm_compute. discriminate.
  - apply toy_scheduled.
  - rewrite Hv. intros k v1 v2. cbn. rewrite !elem_of_cons.
    pose proof not_elem_of_nil (A := list N * list N). naive_solver.
  - vm_compute. reflexivity.
  - vm_compute. discriminate.
Defined.
