(* ===== verification/MerkleStamps.v ===== *)
(** * Snapshot files: verified stamps, corruption checks, metadata hashes and
    content normalization. *)
From S2P Require Import Prelude Utf8 Decimal Paths Merkle.

(** ** Words of a line *)

Definition no_space (s : str) : Prop := Forall (fun c => is_whitespace c = false) s.

Lemma split_word_loop s : forall w rest,
  no_space s -> split_whitespace_loop (s ++ rest) w = split_whitespace_loop rest (w ++ s).
Proof.
  induction s as [|c s IH]; intros w rest; [by rewrite app_nil_r|].
  intros [Hc Hs]%Forall_cons. simpl. rewrite Hc, IH by done. by rewrite <- app_assoc.
Qed.

Lemma split_word s c rest :
  no_space s -> s <> [] -> is_whitespace c = true ->
  split_whitespace_loop (s ++ c :: rest) [] = s :: split_whitespace_loop rest [].
Proof.
  intros Hs Hne Hc. rewrite split_word_loop by done. simpl. rewrite Hc. by rewrite decide_False.
Qed.

Lemma payload_words s :
  split_whitespace (stamp_payload s) =
  [format_int (stamp_len s); format_int (stamp_modified_nanos s);
   format_int (stamp_inode s); format_int (stamp_changed_nanos s)].
Proof.
  unfold split_whitespace, stamp_payload. change (lit " ") with [32%N]. cbn [app].
  do 4 (rewrite split_word; [f_equal|apply format_int_no_space|apply format_int_nonempty|done]).
Qed.

Lemma read_stamp_payload s :
  stamp_in_range s -> read_verified_stamp (Some (stamp_payload s)) = Some s.
Proof.
  intros (Hl & Hm & Hi & Hc). unfold read_verified_stamp. cbn [mbind option_bind].
  rewrite payload_words. cbn -[parse_int].
  unfold parse_u64, parse_u128, parse_i128. unfold in_u64, U64_MAX in *.
  rewrite !parse_format_int by done. by destruct s.
Qed.

(** The sidecar is read back exactly: for every stamp in the ranges of its
    four integer types (a negative change time included), parsing the printed
    payload gives the stamp. *)
Theorem verified_stamp_round_trip s :
  stamp_in_range s -> read_verified_stamp (Some (stamp_payload s)) = Some s.
Proof. apply read_stamp_payload. Qed.

Definition stamp_example : SnapshotStamp := MkStamp 4096 (2 ^ 64 + 7) 12 (-3).

Lemma verified_stamp_round_trip_witness :
  stamp_in_range stamp_example /\
  read_verified_stamp (Some (stamp_payload stamp_example)) = Some stamp_example.
Proof.
  assert (stamp_in_range stamp_example) as Hr by (vm_compute; intuition discriminate).
  split; [exact Hr|]. exact (verified_stamp_round_trip stamp_example Hr).
Defined.

(** ** The corruption check *)

(** The ranges Rust's types give a stamp taken from metadata. *)
Definition metadata_in_range (m : Metadata) : Prop :=
  in_u64 (m_len m) /\ in_u64 (m_ino m) /\
  (forall t, m_modified m = Some t -> (t <= U128_MAX)%Z) /\
  (- 2 ^ 63 <= m_ctime m < 2 ^ 63)%Z /\ (- 2 ^ 63 <= m_ctime_nsec m < 2 ^ 63)%Z.

Lemma stamp_of_metadata_in_range m s :
  metadata_in_range m -> snapshot_stamp (Ok m) = Some s -> stamp_in_range s.
Proof.
  intros (Hl & Hi & Ht & Hc & Hn). unfold snapshot_stamp, modified_nanos_of. cbn [ok mbind option_bind].
  destruct (m_modified m) as [t|]; [|done]. cbn [mbind option_bind].
  destruct (Z.leb_spec 0 t); [|done]. intros [= <-]. unfold stamp_in_range.
  cbn [stamp_len stamp_modified_nanos stamp_inode stamp_changed_nanos].
  specialize (Ht t eq_refl). repeat split; try done; try apply Hl; try apply Hi; lia.
Qed.

(** The corruption check condemns a snapshot file exactly when its stamp can
    be taken, no sidecar vouches for that stamp, and the content is read and does
    not parse.  A check that clears a readable file whose sidecar can be written
    vouches for it: while the stamp stays, later checks clear it without looking
    at the content, and any other stamp makes the content decide again. *)
Theorem file_is_corrupt_memo (from_slice : list N -> option MerkleSnapshot) f m :
  sf_metadata f = Ok m -> metadata_in_range m ->
  let '(corrupt, f') := file_is_corrupt from_slice f in
  (corrupt = true <->
     exists stamp data, snapshot_stamp (Ok m) = Some stamp /\
       read_verified_stamp (sf_sidecar f) <> Some stamp /\
       sf_content f = Ok data /\ from_slice data = None) /\
  (corrupt = true -> f' = f) /\
  (corrupt = false -> snapshot_stamp (Ok m) <> None -> is_ok (sf_content f) = true ->
   sf_writable f = true ->
   forall parse content, fst (file_is_corrupt parse
     (MkSnapshotFile (sf_metadata f) content (sf_sidecar f') true)) = false) /\
  (forall stamp' m' data, sf_sidecar f' = Some (stamp_payload stamp') -> stamp_in_range stamp' ->
   snapshot_stamp (Ok m') <> Some stamp' -> snapshot_stamp (Ok m') <> None ->
   fst (file_is_corrupt from_slice (MkSnapshotFile (Ok m') (Ok data) (sf_sidecar f') true))
   = is_none (from_slice data)).
Proof.
  intros Hm Hr. unfold file_is_corrupt at 1. rewrite Hm.
  assert (forall f' stamp' m' data, sf_sidecar f' = Some (stamp_payload stamp') ->
    stamp_in_range stamp' ->
    snapshot_stamp (Ok m') <> Some stamp' -> snapshot_stamp (Ok m') <> None ->
    fst (file_is_corrupt from_slice (MkSnapshotFile (Ok m') (Ok data) (sf_sidecar f') true))
    = is_none (from_slice data)) as Hother.
  { intros f' stamp' m' data Hs Hs' Hne Hsome. unfold file_is_corrupt. cbn [sf_metadata sf_content sf_sidecar].
    destruct (snapshot_stamp (Ok m')) as [st|]; [|done]. rewrite Hs, read_stamp_payload by done.
    rewrite decide_False by congruence. done. }
  destruct (snapshot_stamp (Ok m)) as [stamp|] eqn:Est.
  2: { split_and!; try done; [|by apply Hother]. split; [done|]. by intros (? & ? & ? & ?). }
  pose proof (stamp_of_metadata_in_range m stamp Hr Est) as Hsr.
  destruct (decide (read_verified_stamp (sf_sidecar f) = Some stamp)) as [Hv|Hnv].
  - split_and!; try done; [| |by apply Hother].
    + split; [done|]. intros (st & ? & [= <-] & ? & ?). done.
    + intros _ _ _ _ parse content. unfold file_is_corrupt. cbn [sf_metadata sf_sidecar].
      rewrite Est. by rewrite decide_True.
  - destruct (sf_content f) as [data|k].
    + destruct (from_slice data) as [snap|] eqn:Ep; cbn [is_none is_some negb].
      * split_and!; try done; [| |by apply Hother].
        -- split; [done|]. intros (? & ? & ? & ? & [= <-] & ?). congruence.
        -- intros _ _ _ Hwr parse content. unfold write_verified_stamp. rewrite Hwr.
           cbn [sf_sidecar]. unfold file_is_corrupt. cbn [sf_metadata sf_sidecar].
           rewrite Est, read_stamp_payload by done. by rewrite decide_True.
      * split_and!; try done; [|by apply Hother]. split; [|done]. intros _. by exists stamp, data.
    + split_and!; try done; [|by apply Hother]. split; [done|]. by intros (? & ? & ? & ? & ? & ?).
Qed.

Definition stamp_meta : Metadata := MkMetadata IsFile 3 (Some 5%Z) 1 7 0.
Lemma stamp_meta_in_range : metadata_in_range stamp_meta.
Proof.
  unfold metadata_in_range, in_u64, U64_MAX, U128_MAX, stamp_meta. cbn. split_and!; try lia.
  intros t Ht. assert (t = 5%Z) as -> by congruence. lia.
Qed.
Definition stamp_file : SnapshotFile := MkSnapshotFile (Ok stamp_meta) (Ok (lit "{}")) None true.

Lemma file_is_corrupt_memo_witness :
  fst (file_is_corrupt (fun _ => None)
    (MkSnapshotFile (Ok stamp_meta) (Ok (lit "junk"))
       (sf_sidecar (snd (file_is_corrupt (fun _ => Some empty) stamp_file))) true)) = false.
Proof.
  pose proof stamp_meta_in_range as Hr.
  pose proof (file_is_corrupt_memo (fun _ => Some empty) stamp_file stamp_meta eq_refl Hr) as Hm.
  destruct (file_is_corrupt (fun _ => Some empty) stamp_file) as [c f'] eqn:E.
  destruct Hm as (_ & _ & Hm & _). vm_compute in E. injection E as <- <-.
  apply (Hm eq_refl ltac:(discriminate) eq_refl eq_refl).
Defined.

(** ** Metadata hashes *)

Lemma to_le_bytes_inj n : forall x y,
  (0 <= x < 256 ^ Z.of_nat n)%Z -> (0 <= y < 256 ^ Z.of_nat n)%Z ->
  to_le_bytes n x = to_le_bytes n y -> x = y.
Proof.
  induction n as [|n IH]; intros x y Hx Hy; [simpl in *; lia|].
  rewrite Nat2Z.inj_succ, Z.pow_succ_r in Hx, Hy by lia. intros [= Hm Hd].
  assert (x mod 256 = y mod 256)%Z as Hm'.
  { apply Z2N.inj; [by apply Z.mod_pos_bound..|done]. }
  apply IH in Hd; [|split; [apply Z.div_pos|apply Z.div_lt_upper_bound]; lia..].
  rewrite (Z.div_mod x 256), (Z.div_mod y 256) by lia. lia.
Qed.

Lemma to_le_bytes_mod n : forall x, to_le_bytes n x = to_le_bytes n (x mod 256 ^ Z.of_nat n).
Proof.
  induction n as [|n IH]; intros x; [done|].
  rewrite Nat2Z.inj_succ, Z.pow_succ_r by lia. cbn [to_le_bytes].
  rewrite Z.rem_mul_r by lia. f_equal.
  - f_equal. rewrite (Z.mul_comm 256 (_ mod _)), Z.mod_add by lia. by rewrite Z.mod_mod by lia.
  - rewrite IH, (IH (_ / 256)%Z). f_equal. rewrite (Z.mul_comm 256 (_ mod _)), Z.div_add by lia.
    rewrite (Z.div_small (x mod 256)) by (by apply Z.mod_pos_bound). rewrite Z.add_0_l.
    by rewrite Z.mod_mod by lia.
Qed.

Lemma to_le_bytes_inj_signed x y :
  (- 2 ^ 63 <= x < 2 ^ 63)%Z -> (- 2 ^ 63 <= y < 2 ^ 63)%Z ->
  to_le_bytes 8 x = to_le_bytes 8 y -> x = y.
Proof.
  intros Hx Hy. rewrite to_le_bytes_mod, (to_le_bytes_mod 8 y). intros He.
  apply to_le_bytes_inj in He; [|by apply Z.mod_pos_bound..].
  change (256 ^ Z.of_nat 8)%Z with (2 ^ 64)%Z in He.
  destruct (decide (0 <= x)%Z), (decide (0 <= y)%Z).
  all: rewrite ?(Z.mod_small x), ?(Z.mod_small y) in He by lia; try done.
  all: rewrite <- ?(Z.mod_add x 1), <- ?(Z.mod_add y 1) in He by lia.
  all: rewrite ?(Z.mod_small (x + _)), ?(Z.mod_small (y + _)), ?(Z.mod_small x), ?(Z.mod_small y) in He; lia.
Qed.

Lemma to_le_bytes_length n : forall x, length (to_le_bytes n x) = n.
Proof. induction n as [|n IH]; intros x; simpl; [done|by rewrite IH]. Qed.

(** The bytes under a metadata hash identify what they are made of: two
    files whose sizes, modification times (or the absence of one) or change times
    differ give different inputs to the digest, so only a digest collision can
    hide a change. *)
Theorem metadata_bytes_injective m1 m2 :
  metadata_in_range m1 -> metadata_in_range m2 -> metadata_bytes m1 = metadata_bytes m2 ->
  m_len m1 = m_len m2 /\ modified_nanos_of m1 = modified_nanos_of m2 /\
  m_ctime m1 = m_ctime m2 /\ m_ctime_nsec m1 = m_ctime_nsec m2.
Proof.
  intros (Hl1 & _ & Ht1 & Hc1 & Hn1) (Hl2 & _ & Ht2 & Hc2 & Hn2). unfold metadata_bytes.
  assert (forall m, (forall t, m_modified m = Some t -> (t <= U128_MAX)%Z) ->
    match modified_nanos_of m with Some t => (0 <= t < 256 ^ Z.of_nat 16)%Z | None => True end) as Hr.
  { intros m Hm. unfold modified_nanos_of. destruct (m_modified m) as [t|]; [|done].
    cbn [mbind option_bind]. destruct (Z.leb_spec 0 t); [|done]. specialize (Hm t eq_refl).
    unfold U128_MAX in Hm. change (256 ^ Z.of_nat 16)%Z with (2 ^ 128)%Z. lia. }
  intros He. apply app_inj_1 in He as [Hl He]; [|by rewrite !to_le_bytes_length].
  apply to_le_bytes_inj in Hl; [|unfold in_u64, U64_MAX in *; change (256 ^ Z.of_nat 8)%Z with (2 ^ 64)%Z; lia..].
  split; [done|]. pose proof (Hr m1 Ht1) as R1. pose proof (Hr m2 Ht2) as R2.
  assert (length (match modified_nanos_of m1 with Some t => to_le_bytes 16 t | None => [] end)
        = length (match modified_nanos_of m2 with Some t => to_le_bytes 16 t | None => [] end)) as Hlen.
  { apply (f_equal length) in He. rewrite !length_app, !to_le_bytes_length in He. lia. }
  apply app_inj_1 in He as [Ht He]; [|done].
  apply app_inj_1 in He as [Hc Hn]; [|by rewrite !to_le_bytes_length].
  split_and!; [|by apply to_le_bytes_inj_signed..].
  destruct (modified_nanos_of m1) as [t1|], (modified_nanos_of m2) as [t2|];
    rewrite ?to_le_bytes_length in Hlen; try done.
  f_equal. by apply (to_le_bytes_inj 16).
Qed.

Lemma metadata_bytes_injective_witness :
  metadata_bytes stamp_meta = metadata_bytes stamp_meta /\ m_len stamp_meta = m_len stamp_meta.
Proof.
  pose proof stamp_meta_in_range as Hr.
  split; [reflexivity|].
  exact (proj1 (metadata_bytes_injective stamp_meta stamp_meta Hr Hr eq_refl)).
Defined.

(** ** Content normalization *)

(** [replace(CR LF, LF)] on bytes. *)
Fixpoint crlf_to_lf (l : list N) : list N :=
  match l with
  | a :: (b :: _) as l' => if is_crlf (a, b) then crlf_to_lf l' else a :: crlf_to_lf l'
  | _ => l
  end.

Lemma windows2_none i l :
  existsb (fun iw => is_crlf (snd iw)) (windows2 i l) = false -> crlf_to_lf l = l.
Proof.
  revert i. induction l as [|a l IH]; intros i; [done|]. destruct l as [|b l]; [done|].
  cbn [windows2 existsb snd]. intros [Hw Hr]%orb_false_iff. cbn [crlf_to_lf]. rewrite Hw.
  f_equal. by apply (IH (S i)).
Qed.

Lemma normalize_fold bs : forall n l st start,
  drop n bs = l -> start <= n ->
  let '(normalized, start') := foldl (normalize_step bs) (st, start) (windows2 n l) in
  normalized ++ drop start' bs = st ++ take (n - start) (drop start bs) ++ crlf_to_lf l.
Proof.
  intros n l. revert n. induction l as [|a l IH]; intros n st start Hd Hs; cbn [windows2 foldl].
  { cbn [crlf_to_lf]. rewrite app_nil_r. f_equal. rewrite take_ge; [done|].
    rewrite length_drop. apply (f_equal length) in Hd. rewrite length_drop in Hd. simpl in Hd. lia. }
  assert (forall k, k <= n -> drop k bs = take (n - k) (drop k bs) ++ a :: l) as Hsplit.
  { intros k Hk. rewrite <- Hd. replace n with (k + (n - k)) at 2 by lia.
    rewrite <- drop_drop. by rewrite take_drop. }
  destruct l as [|b l]; cbn [windows2 foldl].
  { cbn [crlf_to_lf]. by rewrite <- Hsplit. }
  assert (drop (S n) bs = b :: l) as Hd'.
  { replace (S n) with (n + 1) by lia. rewrite <- drop_drop, Hd. done. }
  cbn [normalize_step fst snd]. cbn [crlf_to_lf]. destruct (is_crlf (a, b)) eqn:E.
  - specialize (IH (S n) (st ++ take (n - start) (drop start bs)) (n + 1) Hd' ltac:(lia)).
    replace (n - start) with (n - start) by lia.
    destruct (foldl _ _ _) as [nz s']. rewrite IH.
    replace (S n - (n + 1)) with 0 by lia. simpl. by rewrite <- app_assoc.
  - specialize (IH (S n) st start Hd' ltac:(lia)). destruct (foldl _ _ _) as [nz s'].
    rewrite IH. f_equal. rewrite (Hsplit start Hs) at 1. replace (S n - start) with ((n - start) + 1) by lia.
    assert (length (take (n - start) (drop start bs)) = n - start) as Hlen.
    { rewrite length_take, length_drop. apply (f_equal length) in Hd.
      rewrite length_drop in Hd. simpl in Hd. lia. }
    rewrite take_app_add' by done. simpl. by rewrite <- app_assoc.
Qed.

(** Normalization for content hashing is the replacement of every CR LF by
    LF and nothing else, for an indexable file; any other file is hashed as it
    is.  The in-place slicing over two-byte windows and the fast path without a
    CR LF agree with that definition, also for a lone CR before a CR LF. *)
Theorem normalized_content_spec indexable bs :
  normalized_indexable_content indexable bs = if indexable then crlf_to_lf bs else bs.
Proof.
  unfold normalized_indexable_content. destruct indexable; [|done]. cbn [negb orb].
  destruct (existsb _ _) eqn:E; cbn [negb].
  - pose proof (normalize_fold bs 0 bs [] 0 eq_refl ltac:(lia)) as H.
    destruct (foldl _ _ _) as [nz s']. by rewrite H.
  - symmetry. by eapply windows2_none.
Qed.
