(* ===== verification/Lru.v ===== *)
(** * Least-recently-used maps: what the caches rely on of the [lru] crate.

  The crate is not part of the program, so its operations are an interface.
  The laws say, in terms of the entries from most to least recently used, what
  its documentation promises; a list implements it. *)
From S2P Require Import Prelude.

Section Entries.
Context {K V : Type} `{EqDecision K}.

Fixpoint assoc (k : K) (l : list (K * V)) : option V :=
  match l with
  | [] => None
  | (k', v) :: l' => if decide (k = k') then Some v else assoc k l'
  end.

Fixpoint without (k : K) (l : list (K * V)) : list (K * V) :=
  match l with
  | [] => []
  | (k', v) :: l' => if decide (k = k') then l' else (k', v) :: without k l'
  end.

Lemma assoc_In k v l : assoc k l = Some v -> (k, v) ∈ l.
Proof.
  induction l as [|[k' v'] l IH]; simpl; [done|]. case_decide; [|by right; apply IH].
  intros [= <-]. subst. by left.
Qed.

Lemma assoc_None k l : assoc k l = None <-> k ∉ map fst l.
Proof.
  induction l as [|[k' v'] l IH]; simpl; [split; [intros _; apply not_elem_of_nil|done]|].
  rewrite not_elem_of_cons. case_decide; [naive_solver|]. rewrite IH. naive_solver.
Qed.

Lemma without_not_in k l : k ∉ map fst l -> without k l = l.
Proof.
  induction l as [|[k' v'] l IH]; simpl; [done|]. rewrite not_elem_of_cons.
  intros [Hne Hni]. rewrite decide_False by done. by rewrite IH.
Qed.

Lemma without_keys k l x : x ∈ map fst (without k l) -> x ∈ map fst l.
Proof.
  induction l as [|[k' v'] l IH]; simpl; [done|]. case_decide; simpl; set_solver.
Qed.

Lemma without_elem k l x : x ∈ without k l -> x ∈ l.
Proof. induction l as [|[k' v'] l IH]; simpl; [done|]. case_decide; set_solver. Qed.

Lemma without_NoDup k l : NoDup (map fst l) -> NoDup (map fst (without k l)).
Proof.
  induction l as [|[k' v'] l IH]; simpl; [done|]. intros [Hni Hnd]%NoDup_cons.
  case_decide; [done|]. simpl. apply NoDup_cons. split; [|by apply IH].
  intros Hin. by apply without_keys in Hin.
Qed.

Lemma without_gone k l : NoDup (map fst l) -> k ∉ map fst (without k l).
Proof.
  induction l as [|[k' v'] l IH]; simpl; [intros _; apply not_elem_of_nil|].
  intros [Hni Hnd]%NoDup_cons. case_decide; [by subst|]. simpl.
  rewrite not_elem_of_cons. split; [done|by apply IH].
Qed.

Lemma without_perm k v l : assoc k l = Some v -> l ≡ₚ (k, v) :: without k l.
Proof.
  induction l as [|[k' v'] l IH]; simpl; [done|]. case_decide.
  - intros [= ->]. by subst.
  - intros Ha. rewrite (IH Ha) at 1. apply Permutation_swap.
Qed.

Lemma without_length k l : length (without k l) <= length l.
Proof. induction l as [|[k' v'] l IH]; simpl; [done|]. case_decide; simpl; lia. Qed.

Lemma without_shorter k v l : assoc k l = Some v -> length l = S (length (without k l)).
Proof. intros Ha. by rewrite (without_perm k v l Ha) at 1. Qed.
End Entries.

Class Lru (K V C : Type) `{EqDecision K} := {
  lru_new : nat -> C;
  lru_get : K -> C -> option V * C;
  lru_pop : K -> C -> option V * C;
  lru_push : K -> V -> C -> option (K * V) * C;
  lru_pop_lru : C -> option (K * V) * C;
  (** Entries, most recently used first, and the capacity. *)
  lru_iter : C -> list (K * V);
  lru_cap : C -> nat;

  lru_new_spec cap : 0 < cap -> lru_iter (lru_new cap) = [] /\ lru_cap (lru_new cap) = cap;
  lru_get_spec k c :
    fst (lru_get k c) = assoc k (lru_iter c) /\
    lru_iter (snd (lru_get k c)) =
      match assoc k (lru_iter c) with
      | Some v => (k, v) :: without k (lru_iter c)
      | None => lru_iter c
      end /\
    lru_cap (snd (lru_get k c)) = lru_cap c;
  lru_pop_spec k c :
    fst (lru_pop k c) = assoc k (lru_iter c) /\
    lru_iter (snd (lru_pop k c)) = without k (lru_iter c) /\
    lru_cap (snd (lru_pop k c)) = lru_cap c;
  (** [push] replaces the value of a present key, and otherwise evicts the
      least recently used entry of a full cache. *)
  lru_push_spec k v c :
    let l := lru_iter c in
    (match assoc k l with
     | Some old =>
       fst (lru_push k v c) = Some (k, old) /\
       lru_iter (snd (lru_push k v c)) = (k, v) :: without k l
     | None =>
       if length l <? lru_cap c then
         fst (lru_push k v c) = None /\ lru_iter (snd (lru_push k v c)) = (k, v) :: l
       else
         fst (lru_push k v c) = last l /\
         lru_iter (snd (lru_push k v c)) = (k, v) :: removelast l
     end) /\
    lru_cap (snd (lru_push k v c)) = lru_cap c;
  lru_pop_lru_spec c :
    fst (lru_pop_lru c) = last (lru_iter c) /\
    lru_iter (snd (lru_pop_lru c)) = removelast (lru_iter c) /\
    lru_cap (snd (lru_pop_lru c)) = lru_cap c;
}.

(** The reference implementation: the list of entries and the capacity. *)
#[export] Instance list_lru {K V} `{EqDecision K} : Lru K V (list (K * V) * nat).
Proof.
  refine {|
    lru_new cap := ([], cap);
    lru_get k c :=
      match assoc k (fst c) with
      | Some v => (Some v, ((k, v) :: without k (fst c), snd c))
      | None => (None, c)
      end;
    lru_pop k c := (assoc k (fst c), (without k (fst c), snd c));
    lru_push k v c :=
      match assoc k (fst c) with
      | Some old => (Some (k, old), ((k, v) :: without k (fst c), snd c))
      | None =>
        if length (fst c) <? snd c then (None, ((k, v) :: fst c, snd c))
        else (last (fst c), ((k, v) :: removelast (fst c), snd c))
      end;
    lru_pop_lru c := (last (fst c), (removelast (fst c), snd c));
    lru_iter c := fst c;
    lru_cap c := snd c
  |}.
  - done.
  - intros k [l n]. simpl. by destruct (assoc k l).
  - done.
  - intros k v [l n]. simpl. destruct (assoc k l); [done|]. by destruct (length l <? n).
  - done.
Defined.

Lemma removelast_last {A} (l : list A) x : last l = Some x -> l = removelast l ++ [x].
Proof.
  intros Hl. destruct l as [|y l] using rev_ind; [done|]. clear IHl.
  rewrite last_snoc in Hl. injection Hl as ->. by rewrite removelast_last.
Qed.
