(* ===== verification/Languages.v ===== *)
(** * Languages: the registry and the signature heuristics of chunking.rs.

  A path is recognized by its file name or its extension; a line that opens a
  declaration is recognized by a per-language test of its text. *)
From S2P Require Import Prelude Utf8 Paths.

Inductive ChunkKind := Function | Class | Module | Documentation | Text.
#[global] Instance chunk_kind_eq_dec : EqDecision ChunkKind.
Proof. solve_decision. Defined.

(** [LanguageDef]. *)
Record LanguageDef := MkLanguage {
  name : str;
  extensions : list str;
  filenames : list str;
  detect_signature : str -> option ChunkKind
}.

(** ** Signature detection *)

Definition starts_with_any (line : str) (prefixes : list string) : bool :=
  existsb (fun p => starts_with (lit p) line) prefixes.
Definition has_prefix (line : str) (p : string) : bool := starts_with (lit p) line.
Definition has (line : str) (p : string) : bool := contains (lit p) line.
Definition has_suffix (line : str) (p : string) : bool := ends_with (lit p) line.

Definition is_c_like_function_line (trimmed : str) : bool :=
  if negb (has trimmed "(") || negb (has_suffix trimmed "{") then false
  else negb (starts_with_any trimmed
         ["if "; "if("; "else"; "for "; "for("; "while "; "while("; "switch "; "switch("; "do ";
          "do{"; "} else"; "} catch"; "return "; "return("; "#"; "//"; "/*"; "case "]).

Definition detect_text_only (trimmed : str) : option ChunkKind := None.

Definition detect_rust (trimmed : str) : option ChunkKind :=
  if starts_with_any trimmed
       ["fn "; "pub fn "; "pub(crate) fn "; "pub(super) fn "; "async fn "; "pub async fn "]
  then Some Function
  else if starts_with_any trimmed
            ["struct "; "pub struct "; "enum "; "pub enum "; "trait "; "pub trait "; "union "; "pub union "]
  then Some Class
  else if starts_with_any trimmed ["impl "; "mod "; "pub mod "; "pub(crate) mod "] then Some Module
  else None.

Definition detect_go (trimmed : str) : option ChunkKind :=
  if has_prefix trimmed "func " then Some Function
  else if has_prefix trimmed "type " then Some Class else None.

Definition detect_c (trimmed : str) : option ChunkKind :=
  if starts_with_any trimmed ["struct "; "union "; "enum "; "typedef "] then Some Class
  else if is_c_like_function_line trimmed then Some Function else None.

Definition detect_cpp (trimmed : str) : option ChunkKind :=
  if starts_with_any trimmed ["class "; "struct "; "enum "; "union "; "typedef "] then Some Class
  else if starts_with_any trimmed ["namespace "] then Some Module
  else if starts_with_any trimmed ["template "] then Some Class
  else if is_c_like_function_line trimmed then Some Function else None.

Definition detect_zig (trimmed : str) : option ChunkKind :=
  if starts_with_any trimmed ["fn "; "pub fn "; "export fn "] then Some Function
  else if starts_with_any trimmed ["const "; "pub const "; "var "; "pub var "] && has trimmed "struct"
  then Some Class else None.

Definition detect_nim (trimmed : str) : option ChunkKind :=
  if starts_with_any trimmed ["proc "; "func "; "method "; "iterator "] then Some Function
  else if starts_with_any trimmed ["type "] then Some Class else None.

Definition detect_java (trimmed : str) : option ChunkKind :=
  if has trimmed " class " || has_prefix trimmed "class "
     || starts_with_any trimmed ["interface "; "public interface "; "protected interface "]
  then Some Class
  else if is_c_like_function_line trimmed then Some Function else None.

Definition detect_kotlin (trimmed : str) : option ChunkKind :=
  if starts_with_any trimmed ["fun "; "suspend fun "; "private fun "; "override fun "; "internal fun "]
  then Some Function
  else if starts_with_any trimmed
            ["class "; "data class "; "sealed class "; "enum class "; "abstract class "; "open class ";
             "interface "; "object "; "annotation class "]
  then Some Class else None.

Definition detect_scala (trimmed : str) : option ChunkKind :=
  if starts_with_any trimmed ["def "; "private def "; "override def "; "protected def "] then Some Function
  else if starts_with_any trimmed
            ["class "; "case class "; "trait "; "object "; "abstract class "; "sealed trait "]
  then Some Class else None.

Definition detect_groovy (trimmed : str) : option ChunkKind :=
  if starts_with_any trimmed ["def "; "private def "; "static def "] then Some Function
  else if starts_with_any trimmed ["class "; "interface "; "enum "] then Some Class
  else if is_c_like_function_line trimmed then Some Function else None.

Definition detect_csharp (trimmed : str) : option ChunkKind :=
  if starts_with_any trimmed
       ["class "; "public class "; "internal class "; "abstract class "; "static class "; "sealed class ";
        "partial class "; "interface "; "public interface "; "struct "; "public struct "; "enum ";
        "public enum "; "record "; "public record "]
  then Some Class
  else if starts_with_any trimmed ["namespace "] then Some Module
  else if is_c_like_function_line trimmed then Some Function else None.

Definition detect_python (trimmed : str) : option ChunkKind :=
  if starts_with_any trimmed ["def "; "async def "] then Some Function
  else if has_prefix trimmed "class " then Some Class else None.

Definition detect_typescript_javascript (trimmed : str) : option ChunkKind :=
  if starts_with_any trimmed
       ["function "; "export function "; "async function "; "export async function "]
     || has trimmed " => "
  then Some Function
  else if starts_with_any trimmed
            ["class "; "export class "; "abstract class "; "export abstract class "; "interface ";
             "export interface "; "type "; "export type "]
  then Some Class else None.

Definition detect_ruby (trimmed : str) : option ChunkKind :=
  if has_prefix trimmed "def " then Some Function
  else if has_prefix trimmed "class " then Some Class
  else if has_prefix trimmed "module " then Some Module else None.

Definition detect_php (trimmed : str) : option ChunkKind :=
  if starts_with_any trimmed
       ["function "; "public function "; "private function "; "protected function "; "static function ";
        "public static function "]
  then Some Function
  else if starts_with_any trimmed
            ["class "; "interface "; "trait "; "abstract class "; "final class "; "enum "]
  then Some Class
  else if has_prefix trimmed "namespace " then Some Module else None.

Definition detect_perl (trimmed : str) : option ChunkKind :=
  if has_prefix trimmed "sub " then Some Function
  else if has_prefix trimmed "package " then Some Module else None.

Definition detect_lua (trimmed : str) : option ChunkKind :=
  if starts_with_any trimmed ["function "; "local function "] then Some Function else None.

(** [token.split(['(', ':', '{']).next()]. *)
Definition until_bracket (token : str) : str :=
  take_while (fun c => negb ((c =? chr "(")%N || (c =? chr ":")%N || (c =? chr "{")%N)) token.
Definition one_of (token : str) (words : list string) : bool :=
  existsb (fun w => bool_decide (token = lit w)) words.

(** The loop of [detect_swift] over the words of the line. *)
Fixpoint detect_swift_tokens (tokens : list str) : option ChunkKind :=
  match tokens with
  | [] => None
  | raw_token :: rest =>
    let token := until_bracket raw_token in
    if one_of token ["func"; "init"; "deinit"; "subscript"] then Some Function
    else if one_of token ["class"]
            && match rest with
               | next :: _ => one_of (until_bracket next) ["func"; "var"; "let"; "subscript"]
               | [] => false
               end
    then detect_swift_tokens rest
    else if one_of token ["class"; "struct"; "enum"; "protocol"; "extension"; "actor"] then Some Class
    else if one_of token
              ["public"; "private"; "fileprivate"; "internal"; "package"; "open"; "final"; "indirect";
               "override"; "required"; "convenience"; "static"; "mutating"; "nonmutating"; "isolated";
               "nonisolated"; "distributed"; "lazy"]
            || has_prefix token "@"
    then detect_swift_tokens rest
    else None
  end.
Definition detect_swift (trimmed : str) : option ChunkKind :=
  detect_swift_tokens (split_whitespace trimmed).

Definition detect_dart (trimmed : str) : option ChunkKind :=
  if starts_with_any trimmed ["class "; "abstract class "; "mixin "; "extension "] then Some Class
  else if is_c_like_function_line trimmed then Some Function else None.

Definition detect_objc (trimmed : str) : option ChunkKind :=
  if starts_with_any trimmed ["@interface "; "@implementation "; "@protocol "] then Some Class
  else if starts_with_any trimmed ["- ("; "+ ("] || is_c_like_function_line trimmed then Some Function
  else None.

Definition detect_elixir (trimmed : str) : option ChunkKind :=
  if starts_with_any trimmed ["def "; "defp "; "defmacro "; "defmacrop "] then Some Function
  else if starts_with_any trimmed ["defmodule "; "defprotocol "; "defimpl "] then Some Module else None.

Definition detect_erlang (trimmed : str) : option ChunkKind :=
  if has_prefix trimmed "-module(" then Some Module
  else if has_prefix trimmed "-export(" || has_prefix trimmed "-spec "
          || (negb (has_prefix trimmed "%") && negb (has_prefix trimmed "-")
              && match trimmed with c :: _ => is_ascii_lowercase c | [] => false end
              && has trimmed "(" && has trimmed "->")
  then Some Function else None.

Definition detect_haskell (trimmed : str) : option ChunkKind :=
  if has_prefix trimmed "module " then Some Module
  else if negb (has_prefix trimmed " ") && negb (has_prefix trimmed "-") && negb (has_prefix trimmed "{")
          && negb (bool_decide (trimmed = [])) && has trimmed " :: "
  then Some Function
  else if starts_with_any trimmed ["data "; "newtype "; "class "; "instance "; "type "] then Some Class
  else None.

Definition detect_ocaml (trimmed : str) : option ChunkKind :=
  if starts_with_any trimmed ["let "; "let rec "] then Some Function
  else if has_prefix trimmed "type " then Some Class
  else if starts_with_any trimmed ["module "; "module type "] then Some Module else None.

Definition detect_clojure (trimmed : str) : option ChunkKind :=
  if starts_with_any trimmed ["(defn "; "(defn- "; "(defmacro "; "(defmethod "] then Some Function
  else if starts_with_any trimmed ["(deftype "; "(defrecord "; "(defprotocol "] then Some Class
  else if has_prefix trimmed "(ns " then Some Module else None.

Definition detect_r (trimmed : str) : option ChunkKind :=
  if has trimmed "<- function" || has trimmed "= function(" then Some Function else None.

Definition detect_julia (trimmed : str) : option ChunkKind :=
  if starts_with_any trimmed ["function "; "macro "] then Some Function
  else if starts_with_any trimmed ["struct "; "mutable struct "; "abstract type "] then Some Class
  else if has_prefix trimmed "module " then Some Module else None.

Definition detect_shell (trimmed : str) : option ChunkKind :=
  if has_prefix trimmed "function " || (has trimmed "()" && has_suffix trimmed "{") then Some Function
  else None.

Definition detect_powershell (trimmed : str) : option ChunkKind :=
  let lower := ascii_lower trimmed in
  if has_prefix lower "function " || has_prefix lower "filter " then Some Function
  else if has_prefix lower "class " then Some Class else None.

Definition detect_sql (trimmed : str) : option ChunkKind :=
  let upper := ascii_upper trimmed in
  if starts_with_any upper
       ["CREATE FUNCTION"; "CREATE PROCEDURE"; "CREATE OR REPLACE FUNCTION"; "CREATE OR REPLACE PROCEDURE"]
  then Some Function
  else if starts_with_any upper
            ["CREATE TABLE"; "CREATE VIEW"; "CREATE INDEX"; "CREATE TYPE"; "CREATE OR REPLACE VIEW"]
  then Some Class else None.

Definition detect_protobuf (trimmed : str) : option ChunkKind :=
  if has_prefix trimmed "rpc " then Some Function
  else if starts_with_any trimmed ["message "; "enum "; "service "] then Some Class else None.

Definition detect_graphql (trimmed : str) : option ChunkKind :=
  if starts_with_any trimmed ["type "; "input "; "enum "; "interface "; "union "; "scalar "] then Some Class
  else if starts_with_any trimmed ["query "; "mutation "; "subscription "] then Some Function else None.

Definition detect_terraform (trimmed : str) : option ChunkKind :=
  if starts_with_any trimmed
       ["resource "; "data "; "module "; "provider "; "variable "; "output "; "locals "]
  then Some Module else None.

Definition detect_starlark (trimmed : str) : option ChunkKind :=
  if has_prefix trimmed "def " then Some Function else None.

(** ** The registry *)

Definition language (n : string) (exts files : list string) (detect : str -> option ChunkKind) : LanguageDef :=
  MkLanguage (lit n) (map lit exts) (map lit files) detect.

Definition LANGUAGES : list LanguageDef := [
  language "rust" ["rs"] [] detect_rust;
  language "go" ["go"] [] detect_go;
  language "c" ["c"; "h"] [] detect_c;
  language "cpp" ["cpp"; "cc"; "cxx"; "hpp"; "hxx"; "hh"] [] detect_cpp;
  language "zig" ["zig"] [] detect_zig;
  language "nim" ["nim"; "nims"] [] detect_nim;
  language "java" ["java"] [] detect_java;
  language "kotlin" ["kt"; "kts"] [] detect_kotlin;
  language "scala" ["scala"; "sc"] [] detect_scala;
  language "groovy" ["groovy"; "gvy"] [] detect_groovy;
  language "csharp" ["cs"] [] detect_csharp;
  language "python" ["py"; "pyi"] [] detect_python;
  language "typescript" ["ts"; "tsx"; "mts"; "cts"] [] detect_typescript_javascript;
  language "javascript" ["js"; "jsx"; "mjs"; "cjs"] [] detect_typescript_javascript;
  language "ruby" ["rb"; "rake"] ["Rakefile"; "Gemfile"] detect_ruby;
  language "php" ["php"] [] detect_php;
  language "perl" ["pl"; "pm"] [] detect_perl;
  language "lua" ["lua"] [] detect_lua;
  language "swift" ["swift"] [] detect_swift;
  language "dart" ["dart"] [] detect_dart;
  language "objc" ["m"; "mm"] [] detect_objc;
  language "elixir" ["ex"; "exs"] [] detect_elixir;
  language "erlang" ["erl"; "hrl"] [] detect_erlang;
  language "haskell" ["hs"] [] detect_haskell;
  language "ocaml" ["ml"; "mli"] [] detect_ocaml;
  language "clojure" ["clj"; "cljs"; "cljc"; "edn"] [] detect_clojure;
  language "r" ["r"; "R"] [] detect_r;
  language "julia" ["jl"] [] detect_julia;
  language "shell" ["sh"; "bash"; "zsh"; "fish"] [] detect_shell;
  language "powershell" ["ps1"; "psm1"; "psd1"] [] detect_powershell;
  language "sql" ["sql"] [] detect_sql;
  language "protobuf" ["proto"] [] detect_protobuf;
  language "thrift" ["thrift"] [] detect_protobuf;
  language "graphql" ["graphql"; "gql"] [] detect_graphql;
  language "terraform" ["tf"; "tfvars"; "hcl"] [] detect_terraform;
  language "starlark" ["bzl"; "bazel"; "star"] ["=BUILD"; "=WORKSPACE"; "=MODULE"] detect_starlark;
  language "dockerfile" [] ["Dockerfile"] detect_text_only;
  language "makefile" ["mk"] ["Makefile"; "makefile"; "GNUmakefile"] detect_text_only;
  language "markdown" ["md"; "mdx"] [] detect_text_only;
  language "html" ["html"; "htm"; "xhtml"] [] detect_text_only;
  language "css" ["css"; "scss"; "sass"; "less"] [] detect_text_only;
  language "xml" ["xml"; "xsl"; "xslt"; "svg"; "plist"] [] detect_text_only;
  language "config" ["toml"; "yaml"; "yml"; "ini"; "cfg"; "env"] [] detect_text_only;
  language "json" ["json"; "jsonl"; "json5"; "geojson"] [] detect_text_only;
  language "text" ["txt"; "log"; "csv"; "tsv"; "rst"; "adoc"] [] detect_text_only
].

(** ** Lookups *)

Definition filename_matches (filename pattern : str) : bool :=
  match strip_prefix (lit "=") pattern with
  | Some exact => bool_decide (filename = exact)
  | None =>
    bool_decide (filename = pattern)
    || ((length pattern <? length filename) && starts_with pattern filename
        && bool_decide (filename !! length pattern = Some (chr ".")))
  end.

Definition has_extension (ext : str) (l : LanguageDef) : bool :=
  existsb (fun e => eq_ignore_ascii_case e ext) (extensions l).

(** The two loops of [find_language_def]. *)
Definition language_by_name (filename : str) : option LanguageDef :=
  find (fun l => existsb (filename_matches filename) (filenames l)) LANGUAGES.
Definition language_by_extension (ext : str) : option LanguageDef :=
  find (has_extension ext) LANGUAGES.

Definition find_language_def (p : path) : option LanguageDef :=
  match (file_name p ≫= to_str) ≫= language_by_name with
  | Some l => Some l
  | None => (extension p ≫= to_str) ≫= language_by_extension
  end.

Definition language_for_path (p : path) : option str := name <$> find_language_def p.
Definition is_indexable_path (p : path) : bool := is_some (language_for_path p).

Definition languages_for_extension_glob (ext : str) : option (list str) :=
  primary ← language_for_path (lit "file." ++ ext);
  Some (primary ::
    omap (fun l => if negb (bool_decide (name l = primary))
                      && existsb (fun pattern => negb (starts_with (lit "=") pattern)) (filenames l)
                   then Some (name l) else None) LANGUAGES).

Definition ALIASES : list (list string * string) := [
  (["c++"; "cplusplus"], "cpp"); (["c#"], "csharp"); (["js"], "javascript");
  (["ts"; "tsx"], "typescript"); (["jsx"; "mjs"; "cjs"], "javascript");
  (["bash"; "zsh"; "fish"], "shell"); (["yml"; "toml"; "yaml"; "ini"; "cfg"], "config");
  (["objective-c"; "objective_c"; "objectivec"], "objc"); (["proto"], "protobuf");
  (["tf"; "hcl"], "terraform"); (["gql"], "graphql"); (["rb"; "rake"], "ruby");
  (["kt"; "kts"], "kotlin"); (["ex"; "exs"], "elixir"); (["erl"; "hrl"], "erlang");
  (["hs"], "haskell"); (["ml"; "mli"], "ocaml"); (["pl"; "pm"], "perl");
  (["clj"; "cljs"; "cljc"], "clojure"); (["jl"], "julia"); (["ps1"; "psm1"], "powershell");
  (["sc"], "scala"); (["htm"; "xhtml"], "html"); (["scss"; "sass"; "less"], "css");
  (["mdx"], "markdown"); (["pyi"], "python")
].

Definition resolve_type_alias (input : str) : option str :=
  let lower := drop_while (fun c => (c =? chr ".")%N) (ascii_lower input) in
  match find (fun l => bool_decide (name l = lower)) LANGUAGES with
  | Some l => Some (name l)
  | None =>
    match language_by_extension lower with
    | Some l => Some (name l)
    | None => lit <$> (snd <$> find (fun a => one_of lower (fst a)) ALIASES)
    end
  end.

(** * The language registry: closed names, type filters, extension globs. *)

(** ** Finite checks over the registry *)

Definition registered (n : str) : bool := existsb (fun l => bool_decide (name l = n)) LANGUAGES.

Lemma registered_spec n : registered n = true <-> exists l, l ∈ LANGUAGES /\ name l = n.
Proof.
  unfold registered. rewrite existsb_exists. setoid_rewrite bool_decide_eq_true.
  by setoid_rewrite list_elem_of_In.
Qed.

Lemma names_unique : NoDup (map name LANGUAGES).
Proof. apply (bool_decide_unpack _). vm_compute. exact I. Qed.

Lemma aliases_registered : forallb (fun a => registered (lit (snd a))) ALIASES = true.
Proof. vm_compute. reflexivity. Qed.

Lemma forallb_elem {A} (f : A -> bool) l x : forallb f l = true -> x ∈ l -> f x = true.
Proof. rewrite forallb_forall. intros H Hx. apply H. by apply list_elem_of_In. Qed.
Lemma find_elem {A} (f : A -> bool) l x : find f l = Some x -> x ∈ l /\ f x = true.
Proof. intros [Hx Hf]%find_some. split; [by apply list_elem_of_In|done]. Qed.

Lemma language_def_elem p l : find_language_def p = Some l -> l ∈ LANGUAGES.
Proof.
  unfold find_language_def. destruct ((file_name p ≫= to_str) ≫= language_by_name) as [l'|] eqn:E.
  - intros [= ->]. apply bind_Some in E as (f & _ & E). by apply find_elem in E as [? _].
  - intros (e & _ & H)%bind_Some. by apply find_elem in H as [? _].
Qed.

Lemma language_registered p n : language_for_path p = Some n -> registered n = true.
Proof.
  intros (l & H & ->)%fmap_Some. apply registered_spec. exists l. split; [|done].
  by apply language_def_elem in H.
Qed.

(** ** Type filters by extension *)

Definition dots : str -> str := drop_while (fun c => (c =? chr ".")%N).

Lemma extensions_resolve :
  forallb (fun l => forallb (fun x =>
    bool_decide (resolve_type_alias x = name <$> language_by_extension x)
    && bool_decide (dots (ascii_lower x) = ascii_lower x)) (extensions l)) LANGUAGES = true.
Proof. vm_compute. reflexivity. Qed.

Lemma by_extension_lower a b :
  ascii_lower a = ascii_lower b -> language_by_extension a = language_by_extension b.
Proof. intros E. unfold language_by_extension, has_extension, eq_ignore_ascii_case. by rewrite E. Qed.
Lemma resolve_lower a b :
  dots (ascii_lower a) = dots (ascii_lower b) -> resolve_type_alias a = resolve_type_alias b.
Proof. unfold resolve_type_alias. change (drop_while _) with dots. by intros ->. Qed.

Lemma dots_app n e : dots (repeat (chr ".") n ++ e) = dots e.
Proof. induction n; [done|]. cbn [repeat app dots drop_while]. by rewrite N.eqb_refl. Qed.

Lemma resolved_registered input n : resolve_type_alias input = Some n -> registered n = true.
Proof.
  unfold resolve_type_alias.
  destruct (find _ LANGUAGES) as [l|] eqn:E; [|destruct (language_by_extension _) as [l|] eqn:E'].
  1,2: intros [= <-]; apply registered_spec; exists l; split; [|done].
  - by apply find_elem in E as [? _].
  - by apply find_elem in E' as [? _].
  - intros (t & ([ks t'] & Ha & ->)%fmap_Some & ->)%fmap_Some.
    apply find_elem in Ha as [Ha _]. exact (forallb_elem _ _ _ aliases_registered Ha).
Qed.

(** The keys of the registry and of the alias table: each is in normal form and resolves. *)
Definition key_ok (x : str) (n : str) : bool := bool_decide (dots (ascii_lower x) = x) && bool_decide (resolve_type_alias x = Some n).
Lemma names_resolve : forallb (fun l => key_ok (name l) (name l)) LANGUAGES = true.
Proof. vm_compute. reflexivity. Qed.
Lemma aliases_resolve : forallb (fun a => forallb (fun w => key_ok (lit w) (lit (snd a))) (fst a)) ALIASES = true.
Proof. vm_compute. reflexivity. Qed.
Lemma listed_extension l x : l ∈ LANGUAGES -> x ∈ extensions l ->
  exists l', l' ∈ LANGUAGES /\ has_extension x l' = true /\ resolve_type_alias x = Some (name l') /\ dots (ascii_lower x) = ascii_lower x.
Proof.
  intros Hl Hx. pose proof (forallb_elem _ _ _ extensions_resolve Hl) as Hall. apply (forallb_elem _ _ x) in Hall; [|done].
  apply andb_true_iff in Hall as [H1%bool_decide_eq_true H2%bool_decide_eq_true]. unfold language_by_extension in H1.
  destruct (find (has_extension x) LANGUAGES) as [l'|] eqn:E.
  - apply find_elem in E as [Hl' Hx']. by exists l'.
  - assert (has_extension x l = true) as Hh.
    { unfold has_extension. apply existsb_exists. exists x. split; [by apply list_elem_of_In|]. unfold eq_ignore_ascii_case. by apply bool_decide_eq_true. }
    assert (has_extension x l = false) as Hn by (apply (List.find_none _ _ E l); by apply list_elem_of_In). congruence.
Qed.

(** C40. The names of languages are closed, and type filters resolve as the tables say.
    Names are unique in the registry; the language of a path and the result of a type
    filter are always registered.  In any case, and with any dots in front, the name of a
    language selects it, an alias of the table selects its language, and an extension of
    the registry selects a language that lists it; every other filter selects nothing. *)
Theorem language_names_closed :
  NoDup (map name LANGUAGES)
  /\ (forall p n, language_for_path p = Some n -> registered n = true)
  /\ (forall input n, resolve_type_alias input = Some n -> registered n = true)
  /\ (forall input l, l ∈ LANGUAGES -> dots (ascii_lower input) = name l -> resolve_type_alias input = Some (name l))
  /\ (forall input words n w, (words, n) ∈ ALIASES -> w ∈ words -> dots (ascii_lower input) = lit w -> resolve_type_alias input = Some (lit n))
  /\ (forall input l x, l ∈ LANGUAGES -> x ∈ extensions l -> dots (ascii_lower input) = ascii_lower x ->
        exists l', l' ∈ LANGUAGES /\ has_extension x l' = true /\ resolve_type_alias input = Some (name l'))
  /\ (forall input, (forall l, l ∈ LANGUAGES -> dots (ascii_lower input) <> name l) ->
        (forall words n w, (words, n) ∈ ALIASES -> w ∈ words -> dots (ascii_lower input) <> lit w) ->
        (forall l, l ∈ LANGUAGES -> has_extension (dots (ascii_lower input)) l = false) -> resolve_type_alias input = None).
Proof.
  split; [exact names_unique|]. split; [exact language_registered|]. split; [exact resolved_registered|]. split; [|split; [|split]].
  - intros input l Hl E. pose proof (forallb_elem _ _ _ names_resolve Hl) as [H1 H2]%andb_true_iff.
    rewrite (resolve_lower input (name l)); [by apply bool_decide_eq_true in H2|]. apply bool_decide_eq_true in H1. congruence.
  - intros input words n w Ha Hw E. pose proof (forallb_elem _ _ _ aliases_resolve Ha) as Hall. apply (forallb_elem _ _ w) in Hall; [|done].
    apply andb_true_iff in Hall as [H1 H2]. rewrite (resolve_lower input (lit w)); [by apply bool_decide_eq_true in H2|]. apply bool_decide_eq_true in H1. congruence.
  - intros input l x Hl Hx E. destruct (listed_extension l x Hl Hx) as (l' & Hl' & Hx' & Hr & Hd). exists l'. split; [done|]. split; [done|].
    rewrite (resolve_lower input x); [done|]. congruence.
  - intros input Hn Ha He. unfold resolve_type_alias. fold (dots (ascii_lower input)). set (k := dots (ascii_lower input)) in *.
    destruct (find _ LANGUAGES) as [l|] eqn:E1; [apply find_elem in E1 as [Hl E1%bool_decide_eq_true]; by destruct (Hn l Hl)|].
    unfold language_by_extension. destruct (find (has_extension k) LANGUAGES) as [l|] eqn:E2.
    { apply find_elem in E2 as [Hl E2]. by rewrite He in E2. }
    destruct (find _ ALIASES) as [[words n]|] eqn:E3; [|done]. apply find_elem in E3 as [Hin E3]. cbn [fst] in E3.
    unfold one_of in E3. apply existsb_exists in E3 as (w & Hw%list_elem_of_In & ->%bool_decide_eq_true). by destruct (Ha words n w Hin Hw).
Qed.

Lemma language_names_closed_witness :
  language_for_path (lit "src/main.RS") = Some (lit "rust") /\ registered (lit "rust") = true
  /\ resolve_type_alias (lit "..KT") = Some (lit "kotlin") /\ resolve_type_alias (lit "C++") = Some (lit "cpp").
Proof.
  destruct language_names_closed as (_ & Hp & _ & _ & Ha & _).
  split; [vm_compute; reflexivity|]. split; [apply (Hp (lit "src/main.RS")); vm_compute; reflexivity|]. split.
  - apply (Ha (lit "..KT") ["kt"; "kts"]%string "kotlin"%string "kt"%string); [apply (bool_decide_unpack _); vm_compute; exact I|left|vm_compute; reflexivity].
  - apply (Ha (lit "C++") ["c++"; "cplusplus"]%string "cpp"%string "c++"%string); [apply (bool_decide_unpack _); vm_compute; exact I|left|vm_compute; reflexivity].
Defined.

(** A type filter that names an extension, in any case and with any number of
    dots in front, selects the language the registry gives to that extension. *)
Theorem type_filter_selects_extension ext l n :
  language_by_extension ext = Some l ->
  resolve_type_alias (repeat (chr ".") n ++ ext) = Some (name l).
Proof.
  intros Hf. pose proof (find_elem _ _ _ Hf) as [Hl Hx].
  unfold has_extension in Hx. apply existsb_exists in Hx as (x & Hx & Ex%bool_decide_eq_true).
  pose proof (forallb_elem _ _ _ extensions_resolve Hl) as Hall.
  rewrite forallb_forall in Hall. specialize (Hall x Hx).
  apply andb_true_iff in Hall as [H1%bool_decide_eq_true H2%bool_decide_eq_true].
  rewrite (resolve_lower _ x).
  - rewrite H1, (by_extension_lower x ext), Hf; done.
  - unfold ascii_lower at 1. rewrite map_app, map_repeat. change (to_ascii_lowercase (chr ".")) with (chr ".").
    rewrite dots_app. fold (ascii_lower ext). by rewrite <- Ex.
Qed.

Lemma type_filter_selects_extension_witness : resolve_type_alias (lit ".TSX") = Some (lit "typescript").
Proof.
  apply (type_filter_selects_extension (lit "TSX")
           (language "typescript" ["ts"; "tsx"; "mts"; "cts"] [] detect_typescript_javascript) 1).
  vm_compute. reflexivity.
Defined.

(** ** Globs of an extension *)

Lemma split_on_none sep s : sep ∉ s -> split_on sep s = [s].
Proof.
  induction s as [|c s IH]; intros Hn; [done|]. apply not_elem_of_cons in Hn as [Hc Hs]. cbn [split_on].
  destruct (N.eqb_spec c sep); [congruence|]. by rewrite IH.
Qed.

Lemma file_name_plain s :
  SEP ∉ s -> s <> [] -> s <> lit "." -> s <> lit ".." -> file_name s = Some s.
Proof.
  intros Hsep H1 H2 H3. unfold file_name, components. rewrite (split_on_none SEP s) by done.
  assert (starts_with [SEP] s = false) as ->.
  { destruct s as [|c s]; [done|]. unfold starts_with. cbn [strip_prefix].
    apply not_elem_of_cons in Hsep as [Hc _]. destruct (N.eqb_spec SEP c); [congruence|done]. }
  rewrite decide_False by done. cbn [omap list_omap app]. unfold component_of. by rewrite !decide_False.
Qed.

Definition dot (c : N) : bool := negb (c =? chr ".")%N.
Lemma rev_dot stem e : reverse (stem ++ lit "." ++ e) = reverse e ++ chr "." :: reverse stem.
Proof. rewrite !reverse_app, <- app_assoc. done. Qed.

Lemma take_while_app_dot l r : take_while dot (l ++ chr "." :: r) = take_while dot l.
Proof. induction l as [|c l IH]; [done|]. cbn [app take_while]. destruct (dot c); [by rewrite IH|done]. Qed.
Lemma drop_while_app_dot l r :
  exists a b, drop_while dot (l ++ chr "." :: r) = chr "." :: a ++ b /\ (b = r \/ b = chr "." :: r).
Proof.
  induction l as [|c l (a & b & IH)]; [exists [], r; auto|]. cbn [app drop_while].
  destruct (dot c) eqn:E; [by exists a, b|]. unfold dot in E. apply negb_false_iff, N.eqb_eq in E as ->.
  exists l, (chr "." :: r). auto.
Qed.

(** The extension of a name depends only on what follows the glob's star. *)
Lemma extension_of_stem p stem e :
  file_name p = Some (stem ++ lit "." ++ e) -> stem <> [] -> e <> [] ->
  extension p = Some (reverse (take_while dot (reverse e))).
Proof.
  intros Hn Hstem He. unfold extension. rewrite Hn. cbn [mbind option_bind].
  change (fun c => negb _) with dot. rewrite rev_dot, take_while_app_dot.
  destruct (drop_while_app_dot (reverse e) (reverse stem)) as (a & b & -> & Hb).
  assert (reverse stem <> []) as Hr.
  { intros H%(f_equal reverse). by rewrite reverse_involutive in H. }
  rewrite bool_decide_eq_false_2 by (destruct Hb as [-> | ->]; intros [_ ?]%app_eq_nil; done).
  rewrite bool_decide_eq_false_2; [done|].
  intros H%(f_equal length). rewrite !length_app in H. cbn in H.
  destruct stem; [done|]. destruct e; [done|]. cbn in H. lia.
Qed.

Lemma filenames_plain :
  forallb (fun l => forallb (fun pattern =>
    match strip_prefix (lit "=") pattern with
    | Some exact => forallb dot exact
    | None => match pattern with c :: _ => negb (c =? chr "f")%N | [] => false end
    end) (filenames l)) LANGUAGES = true.
Proof. vm_compute. reflexivity. Qed.

Lemma pattern_plain l pattern : l ∈ LANGUAGES -> pattern ∈ filenames l ->
  match strip_prefix (lit "=") pattern with
  | Some exact => forallb dot exact = true
  | None => exists c rest, pattern = c :: rest /\ c <> chr "f"
  end.
Proof.
  intros Hl Hp. pose proof (forallb_elem _ _ _ (forallb_elem _ _ _ filenames_plain Hl) Hp) as H. cbn beta in H.
  destruct (strip_prefix (lit "=") pattern); [done|]. destruct pattern as [|c rest]; [done|].
  apply negb_true_iff, N.eqb_neq in H. eauto.
Qed.

(** A name with a dot matches no exact pattern. *)
Lemma dotted_not_exact exact stem e : forallb dot exact = true -> exact <> stem ++ lit "." ++ e.
Proof.
  intros H ->. rewrite !forallb_app in H. apply andb_true_iff in H as [_ [H _]%andb_true_iff]. discriminate H.
Qed.

Lemma no_name_match_file e :
  language_by_name (lit "file." ++ e) = None.
Proof.
  destruct (language_by_name _) as [l|] eqn:E; [exfalso|done]. apply find_elem in E as [Hl Hm].
  apply existsb_exists in Hm as (pattern & Hp%list_elem_of_In & Hm). pose proof (pattern_plain l pattern Hl Hp) as H.
  unfold filename_matches in Hm. destruct (strip_prefix (lit "=") pattern) as [exact|].
  - apply bool_decide_eq_true in Hm. by apply (dotted_not_exact exact (lit "file") e) in H.
  - destruct H as (c & rest & -> & Hc). apply orb_true_iff in Hm as [Hm%bool_decide_eq_true|Hm].
    + injection Hm as Hm _. done.
    + apply andb_true_iff in Hm as [[_ Hm]%andb_true_iff _]. unfold starts_with in Hm.
      change (lit "file." ++ e) with (chr "f" :: lit "ile." ++ e) in Hm. cbn [strip_prefix] in Hm.
      by destruct (N.eqb_spec c (chr "f")).
Qed.

(** A language found by the name of a dotted file is always among those listed. *)
Lemma narrowed_by_name l stem e primary :
  l ∈ LANGUAGES -> existsb (filename_matches (stem ++ lit "." ++ e)) (filenames l) = true ->
  name l ∈ primary ::
    omap (fun l => if negb (bool_decide (name l = primary))
                      && existsb (fun pattern => negb (starts_with (lit "=") pattern)) (filenames l)
                   then Some (name l) else None) LANGUAGES.
Proof.
  intros Hl (pattern & Hp%list_elem_of_In & Hm)%existsb_exists.
  destruct (decide (name l = primary)) as [<-|Hne]; [left|right].
  apply list_elem_of_omap. exists l. split; [done|]. rewrite bool_decide_eq_false_2 by done. cbn [negb andb].
  assert (existsb (fun pattern => negb (starts_with (lit "=") pattern)) (filenames l) = true) as ->; [|done].
  apply existsb_exists. exists pattern. split; [by apply list_elem_of_In|].
  pose proof (pattern_plain l pattern Hl Hp) as H. unfold filename_matches, starts_with in *.
  destruct (strip_prefix (lit "=") pattern) as [exact|]; [|done].
  apply bool_decide_eq_true in Hm. exfalso. by apply (dotted_not_exact exact stem e H).
Qed.

(** The languages that a glob [*.ext] is narrowed to lose no file: every path
    whose name is a nonempty stem, a dot and [ext] has a language, and it is among
    them, file names such as [Dockerfile.rs] included. *)
Theorem extension_glob_complete p stem ext langs :
  file_name p = Some (stem ++ lit "." ++ ext) -> stem <> [] -> ext <> [] -> SEP ∉ ext ->
  languages_for_extension_glob ext = Some langs ->
  exists n, language_for_path p = Some n /\ n ∈ langs.
Proof.
  intros Hn Hstem He Hsep Hl. unfold languages_for_extension_glob in Hl.
  apply bind_Some in Hl as (primary & Hp & Hl). apply (inj Some) in Hl as <-.
  assert (file_name (lit "file." ++ ext) = Some (lit "file" ++ lit "." ++ ext)) as Hf.
  { apply file_name_plain; [|discriminate..]. rewrite !elem_of_app. intros [H|[H|H]]; [| |done].
    all: by apply (bool_decide_eq_true_2 _) in H. }
  pose proof (extension_of_stem _ _ _ Hf ltac:(cbn; discriminate) He) as Ef.
  pose proof (extension_of_stem _ _ _ Hn Hstem He) as Ep.
  unfold language_for_path, find_language_def in Hp |- *. rewrite Ef, Hf in Hp. rewrite Ep, Hn.
  assert ((Some (lit "file" ++ lit "." ++ ext) ≫= to_str) ≫= language_by_name = None) as Hnone.
  { unfold to_str. cbn [mbind option_bind]. destruct (valid_utf8 _); [apply no_name_match_file|done]. }
  rewrite Hnone in Hp.
  destruct ((Some (stem ++ lit "." ++ ext) ≫= to_str) ≫= language_by_name) as [l|] eqn:E.
  - exists (name l). split; [done|]. apply bind_Some in E as (f & Ef' & E).
    assert (f = stem ++ lit "." ++ ext) as ->.
    { cbn [mbind option_bind] in Ef'. unfold to_str in Ef'. destruct (valid_utf8 _); congruence. }
    apply find_elem in E as [Hl Hm]. by apply narrowed_by_name with stem ext.
  - exists primary. split; [exact Hp|left].
Qed.

Lemma extension_glob_complete_witness :
  exists n, language_for_path (lit "docker/Dockerfile.rs") = Some n /\ n ∈ [lit "rust"; lit "ruby"; lit "dockerfile"; lit "makefile"].
Proof.
  apply (extension_glob_complete (lit "docker/Dockerfile.rs") (lit "Dockerfile") (lit "rs"));
    [vm_compute; reflexivity|discriminate|discriminate| |vm_compute; reflexivity].
  intros H. by apply (bool_decide_eq_true_2 _) in H.
Defined.
