(* ===== verification/Chunking.v ===== *)
(** * Chunks of source text: the windows and the indexability tests of chunking.rs.

  A file whose parser gives nothing is cut at the lines that open a declaration, or
  in windows of fixed size.  Lines and line numbers out of bounds are [None] where
  the code panics.  The digest of a chunk is a parameter; the chunk's id and its
  content hash are both encodings of it. *)
From S2P Require Import Prelude Utf8 Paths Languages.

(** ** Indexable content *)

Definition TEXT_SNIFF_BYTES : nat := 8 * 1024.
Definition MAX_SOURCE_LINE_BYTES : N := 50000.

Definition is_printable (byte : N) : bool :=
  (byte =? 10)%N || (byte =? 13)%N || (byte =? 9)%N || (byte =? 12)%N || between 0x20 0x7E byte.

(** The code compares a quotient of [f32]s with [0.85]: with at most 8192 bytes the
    quotient is either exactly 17/20, which rounds to the constant, or farther from
    it than the rounding of either. *)
Definition is_probably_text (content : list N) : bool :=
  let sample := take TEXT_SNIFF_BYTES content in
  if bool_decide (sample = []) then false
  else if existsb (N.eqb 0) sample then false
  else
    let by_ratio := 17 * length sample <=? 20 * length (filter (fun b => is_printable b = true) sample) in
    match from_utf8 sample with
    | Valid => true
    | Invalid valid_up_to cut_off => (cut_off && (0 <? valid_up_to)) || by_ratio
    end.

(** The run at the end, and whether the limit was reached. *)
Fixpoint scan_minified_run (no_newline_run : N) (content : list N) : N * bool :=
  match content with
  | [] => (no_newline_run, false)
  | b :: content =>
    if (b =? 10)%N then scan_minified_run 0 content
    else if (MAX_SOURCE_LINE_BYTES <=? no_newline_run + 1)%N then ((no_newline_run + 1)%N, true)
    else scan_minified_run (no_newline_run + 1) content
  end.
Definition is_minified_blob (content : list N) : bool := snd (scan_minified_run 0 content).

Definition is_indexable_file (p : path) (content : list N) : bool :=
  if bool_decide (content = []) then false
  else if negb (is_probably_text content) then false
  else if is_minified_blob content then false
  else if is_indexable_path p then true
  else true.

Section Reader.
Context {E : Type}.

(** The loop over [reader.read]: what each call returns; an empty read, or none
    left, is the end of the file. *)
Fixpoint reader_loop (sample : list N) (no_newline_run : N) (reads : list (Result E (list N)))
  : Result E bool :=
  match reads with
  | [] | Ok [] :: _ => Ok (is_probably_text sample)
  | Err e :: _ => Err e
  | Ok content :: reads =>
    let extended := sample ++ take (TEXT_SNIFF_BYTES - length sample) content in
    if (length sample <? TEXT_SNIFF_BYTES)
       && (length extended =? TEXT_SNIFF_BYTES) && negb (is_probably_text extended)
    then Ok false
    else
      let sample := if length sample <? TEXT_SNIFF_BYTES then extended else sample in
      match scan_minified_run no_newline_run content with
      | (_, true) => Ok false
      | (run, false) => reader_loop sample run reads
      end
  end.
Definition is_indexable_file_reader (reads : list (Result E (list N))) : Result E bool :=
  reader_loop [] 0 reads.
End Reader.

(** ** Chunks *)

Record ChunkDefinition := MkDefinition { def_name : str; owner : option str }.

Section Chunks.
Context {Digest : Type} (xxh3_128 : list N -> Digest).

(** [rel_path] is the path's lossy decoding, which is all that chunks show of it. *)
Record Chunk := MkChunk {
  file_path : str;
  start_line : nat;
  end_line : nat;
  text : str;
  chunk_language : str;
  kind : ChunkKind;
  content_hash : Digest;
  definitions : option (list ChunkDefinition)
}.

Definition make_chunk (rel_path : str) (start_line end_line : nat) (text language : str)
    (kind : ChunkKind) (definitions : option (list ChunkDefinition)) : Chunk :=
  let data := bytes rel_path ++ to_le_bytes 8 (Z.of_nat start_line) ++ to_le_bytes 8 (Z.of_nat end_line)
              ++ bytes text in
  MkChunk rel_path start_line end_line text language kind (xxh3_128 data) definitions.

(** [lines[from..to]]. *)
Definition line_slice (lines : list str) (from to : nat) : option (list str) :=
  if (from <=? to) && (to <=? length lines) then Some (take (to - from) (drop from lines)) else None.

Definition newline : str := [10%N].
Definition header (rel_path : str) : str := lit "// " ++ rel_path ++ newline.
Definition continuation_header (rel_path context : str) : str :=
  header rel_path ++ lit "// continuation of " ++ context ++ newline.

(** ** Windows of a definition *)

Definition MAX_STRUCTURAL_CHUNK_LINES : nat := 128.
Definition MAX_STRUCTURAL_CHUNK_BYTES : nat := 4096.
Definition STRUCTURAL_CHUNK_OVERLAP_LINES : nat := 8.

Definition is_trivial_line (line : str) : bool :=
  bool_decide (trim line = []) || one_of (trim line) ["{"; "}"; "};"; ");"].

(** The inner loop: the last line of the window, given the lines after its end. *)
Fixpoint window_end (rest : list str) (window_lines used window_end_line : nat) : nat :=
  match rest with
  | [] => window_end_line
  | line :: rest =>
    if window_lines <? MAX_STRUCTURAL_CHUNK_LINES then
      let next_bytes := blen line + 1 in
      if MAX_STRUCTURAL_CHUNK_BYTES <? used + next_bytes then window_end_line
      else window_end rest (S window_lines) (used + next_bytes) (S window_end_line)
    else window_end_line
  end.

(** The outer loop. *)
Fixpoint structural_windows (fuel : nat) (rel_path : str) (lines : list str) (first last : nat)
    (language : str) (kind : ChunkKind) (context : str) (defs : option (list ChunkDefinition))
    (window_start : nat) : option (list Chunk) :=
  match fuel with
  | O => None
  | S fuel =>
    if window_start <=? last then
      line ← lines !! (window_start - 1);
      rest ← line_slice lines window_start last;
      let we := window_end rest 1 (blen line) window_start in
      block ← line_slice lines (window_start - 1) we;
      let '(header, window_definitions) :=
        if window_start =? first then (header rel_path, defs)
        else (continuation_header rel_path context,
              if is_some defs || negb (bool_decide (kind = Module)) then Some [] else None) in
      let chunk := make_chunk rel_path window_start we (header ++ newline ++ join newline block)
                     language kind window_definitions in
      if we =? last then Some [chunk]
      else cons chunk <$>
             structural_windows fuel rel_path lines first last language kind context defs
               (Nat.max (we - (STRUCTURAL_CHUNK_OVERLAP_LINES - 1)) (window_start + 1))
    else Some []
  end.

Definition push_bounded_structural_chunks (rel_path : str) (lines : list str) (first last : nat)
    (language : str) (kind : ChunkKind) (context : str) (defs : option (list ChunkDefinition))
  : option (list Chunk) :=
  if last <? first then Some []
  else
    covered ← line_slice lines (first - 1) last;
    if forallb is_trivial_line covered then Some []
    else structural_windows (S (last - first)) rel_path lines first last language kind context defs first.

(** ** Windows of a text *)

(** The loops of [fallback_chunks] (lines from 1). *)
Fixpoint fallback_loop (fuel : nat) (rel_path language : str) (lines : list str) (start : nat)
  : option (list Chunk) :=
  match fuel with
  | O => None
  | S fuel =>
    if start <=? length lines then
      let last := Nat.min (start + 80 - 1) (length lines) in
      block ← line_slice lines (start - 1) last;
      let chunk := make_chunk rel_path start last (header rel_path ++ newline ++ join newline block)
                     language Text None in
      if last =? length lines then Some [chunk]
      else cons chunk <$> fallback_loop fuel rel_path language lines (last - 20 + 1)
    else Some []
  end.
Definition fallback_chunks (rel_path language : str) (lines : list str) : option (list Chunk) :=
  fallback_loop (S (length lines)) rel_path language lines 1.

(** [chunk_rust_doc_include] (lines from 0); [emitted] is [chunks.len()]. *)
Definition include_header (owner_path included_path : str) : str :=
  header owner_path ++ lit "// Rust documentation included from " ++ included_path ++ newline.
Fixpoint include_loop (fuel : nat) (owner_path : str) (source_line : nat) (included_path : str)
    (lines : list str) (emitted start : nat) : option (list Chunk) :=
  match fuel with
  | O => None
  | S fuel =>
    if (start <? length lines) && (emitted <? 64) then
      let last := Nat.min (start + 80) (length lines) in
      block ← line_slice lines start last;
      let chunk := make_chunk owner_path source_line source_line
                     (include_header owner_path included_path ++ newline ++ join newline block)
                     (lit "rust") Documentation None in
      if last =? length lines then Some [chunk]
      else cons chunk <$> include_loop fuel owner_path source_line included_path lines (S emitted) (last - 20)
    else Some []
  end.
Definition chunk_rust_doc_include (owner_path : str) (source_line : nat) (included_path content : str)
  : option (list Chunk) :=
  let lines := str_lines content in
  if bool_decide (lines = []) then Some []
  else include_loop 65 owner_path source_line included_path lines 0 0.

(** ** Chunks by signature *)

Definition is_leading_doc_line (trimmed language : str) : bool :=
  if starts_with_any trimmed ["//"; "/*"; "*"; "--"; ";"] || starts_with [34; 34; 34]%N trimmed
     || starts_with_any trimmed ["'''"]
  then true
  else if has_prefix trimmed "@" then
    one_of language ["python"; "java"; "kotlin"; "typescript"; "javascript"; "swift"; "scala"; "dart"]
  else if has_prefix trimmed "#[" || has_prefix trimmed "#!" then true
  else if has_prefix trimmed "#" then one_of language ["python"; "ruby"; "php"; "perl"; "shell"]
  else false.

(** The loop goes down from [start_line]. *)
Fixpoint leading_doc_start (start_line : nat) (language : str) (lines : list str) : option nat :=
  match start_line with
  | S (S n as previous) =>
    line ← lines !! n;
    if is_leading_doc_line (trim line) language then leading_doc_start previous language lines
    else Some start_line
  | _ => Some start_line
  end.

Definition collect_signatures (detect : str -> option ChunkKind) (lines : list str)
  : list (nat * ChunkKind) :=
  omap (fun il : nat * str => pair (S (fst il)) <$> detect (trim_start (snd il))) (imap pair lines).

Definition should_skip_tree_sitter_for_generated_source (language : str) (lines : list str)
    (detect : str -> option ChunkKind) : bool :=
  if negb (bool_decide (language = lit "rust")) || (length lines <? 200) then false
  else
    let kinds := omap (fun line => detect (trim line)) lines in
    let only_function_signatures := forallb (fun k => bool_decide (k = Function)) kinds in
    let generated_header :=
      existsb (fun line =>
        let lower := ascii_lower line in
        has lower "@generated" || has lower "generated" || has lower "automatically generated"
        || has lower "do not edit") (take 20 lines) in
    if generated_header then 50 <=? length kinds
    else only_function_signatures && (50 <=? length kinds) && (length lines <=? length kinds * 4).

(** The segments between consecutive starts. *)
Fixpoint signature_chunks (rel_path language : str) (lines : list str)
    (signatures : list (nat * nat * ChunkKind)) : option (list Chunk) :=
  match signatures with
  | [] => Some []
  | (first, definition_start, k) :: rest =>
    let last := match rest with (next, _, _) :: _ => next - 1 | [] => length lines end in
    chunks ← (if last <? first then Some []
              else
                context ← lines !! (definition_start - 1);
                push_bounded_structural_chunks rel_path lines first last language k (trim context) None);
    more ← signature_chunks rel_path language lines rest;
    Some (chunks ++ more)
  end.

Definition preamble_chunks (rel_path language : str) (lines : list str) (first_start : nat)
  : option (list Chunk) :=
  if 0 <? first_start - 1 then
    context ← lines !! 0;
    push_bounded_structural_chunks rel_path lines 1 (first_start - 1) language Module (trim context) None
  else Some [].

(** [chunk_source_with_metadata]: [parsed] is what the parser-based chunker would
    return for this source. *)
Definition chunk_source (p : path) (rel_path : str) (source : str) (parsed : option (list Chunk))
  : option (list Chunk) :=
  let lang_def := find_language_def p in
  let language := match lang_def with Some d => name d | None => lit "text" end in
  let lines := str_lines source in
  if bool_decide (lines = []) then Some []
  else
    let skip_tree_sitter :=
      match lang_def with
      | Some d => should_skip_tree_sitter_for_generated_source language lines (detect_signature d)
      | None => false
      end in
    match (if skip_tree_sitter then None else parsed) with
    | Some (c :: chunks) => Some (c :: chunks)
    | _ =>
      let signatures :=
        match lang_def with Some d => collect_signatures (detect_signature d) lines | None => [] end in
      match signatures with
      | [] => fallback_chunks rel_path language lines
      | _ =>
        starts ← mapM (fun sk => leading_doc_start (fst sk) language lines) signatures;
        let segments := zip_with (fun start sk => (start, fst sk, snd sk)) starts signatures in
        preamble ← match starts with
                   | first_start :: _ => preamble_chunks rel_path language lines first_start
                   | [] => Some []
                   end;
        chunks ← signature_chunks rel_path language lines segments;
        Some (preamble ++ chunks)
      end
    end.
End Chunks.
Arguments Chunk : clear implicits.

(** ** Headers *)

Definition same_path_ignoring_separators (left right : list N) : bool :=
  (length left =? length right) &&
  forallb (fun lr => (fst lr =? snd lr)%N ||
     (bool_decide (fst lr ∈ lit "/\") && bool_decide (snd lr ∈ lit "/\"))) (zip left right).

Definition strip_chunk_header (text : str) (rel_path : path) : str :=
  match strip_prefix (lit "// ") text ≫= split_once 10%N with
  | Some (header_path, rest) =>
    if same_path_ignoring_separators (bytes header_path) (to_string_lossy rel_path) then
      let rest :=
        match split_once 10%N rest with
        | Some (line, body) =>
          if starts_with (lit "// continuation of ") line
             || starts_with (lit "// Rust documentation included from ") line
          then body else rest
        | None => rest
        end in
      match strip_prefix [10%N] rest with Some r => r | None => text end
    else text
  | None => text
  end.
