(* ===== verification/Presentation.v ===== *)
(** * Presentation of search hits: search_presentation.rs.

  A file's text is indexed into line spans (byte offsets); a hit is placed on
  a focus line and shown with a window of lines around it.  Slices off a
  character boundary and lines out of bounds are [None], where the code panics.
  Line scores are counted in half points: the code adds 8.0, 5.0, 1.5 and 3.0 in
  [f32], which are exact. *)
From S2P Require Import Prelude Utf8 Decimal Paths Chunking TextLines TextLinesFacts.

(** ** Line spans *)

Record LineSpan := MkSpan { span_start : nat; span_end : nat }.

Fixpoint enumerate_from (i : nat) (l : list N) : list (nat * N) :=
  match l with [] => [] | b :: l' => (i, b) :: enumerate_from (S i) l' end.

Definition span_step (bs : list N) (st : list LineSpan * nat) (ib : nat * N)
  : list LineSpan * nat :=
  let '(spans, start) := st in
  let '(index, byte) := ib in
  if negb (byte =? 10)%N then st
  else
    let stop :=
      if (start <? index) && (nth (index - 1) bs 0 =? 13)%N then index - 1 else index in
    (spans ++ [MkSpan start stop], index + 1).

(** On [content.as_bytes()]. *)
Definition line_spans (bs : list N) : list LineSpan :=
  let '(spans, start) := foldl (span_step bs) ([], 0) (enumerate_from 0 bs) in
  if start <? length bs then spans ++ [MkSpan start (length bs)] else spans.

Definition span_text (content : str) (span : LineSpan) : option str :=
  slice content (span_start span) (span_end span).

Definition line_at (content : str) (lines : list LineSpan) (line_number : nat) : option str :=
  span ← lines !! (line_number - 1); span_text content span.

Definition preview_from_lines (content : str) (lines : list LineSpan)
    (snippet_start snippet_end : nat) : option str :=
  let from := snippet_start - 1 in
  if (from <=? snippet_end) && (snippet_end <=? length lines) then
    join [10%N] <$> mapM (span_text content) (take (snippet_end - from) (drop from lines))
  else None.

Definition snippet_bounds (focus_line context_lines line_count : nat) : nat * nat :=
  (Nat.max 1 (focus_line - context_lines), Nat.min (focus_line + context_lines) line_count).

(** ** The query, as far as presentation reads it *)

Record PresentationQuery := MkQuery {
  q_text : str;
  q_lower : str;
  q_compact : str;
  compact_matching : bool;
  q_tokens : list str
}.

(** search.rs. *)
Definition compact_identifier (input : str) : str :=
  ascii_lower (filter (fun ch => is_ascii_alphanumeric ch = true) input).

Definition MAX_REASON_CHARS : nat := 120.
Definition truncate_for_reason (line : str) : str :=
  if length line <=? MAX_REASON_CHARS then line
  else take MAX_REASON_CHARS line ++ lit "...".

Definition definition_kinds : list str :=
  map lit ["Function"; "function"; "Class"; "class"; "Struct"; "struct"; "Trait"; "trait";
           "Interface"; "interface"; "Impl"; "impl"; "Enum"; "enum"; "Module"; "module"]%string.
Definition is_definition_kind (kind : str) : bool := bool_decide (kind ∈ definition_kinds).

(** [FusionQuery]'s fields that [from_fusion] copies. *)
Record FusionQuery := MkFusion {
  f_text : str;
  f_lower : str;
  f_compact : str;
  f_compact_candidate_text : bool;
  f_tokens : list str
}.
Definition from_fusion (query : FusionQuery) : PresentationQuery :=
  MkQuery (f_text query) (f_lower query) (singularize_token (f_compact query))
    (f_compact_candidate_text query) (f_tokens query).

Definition should_use_compact_identifier_matching (query_text : str) (primary_tokens : list str)
  : bool :=
  (length primary_tokens <=? 2) ||
  existsb (fun ch => (ch =? chr "_")%N || (ch =? chr "-")%N || (ch =? chr "/")%N ||
                     (ch =? chr ":")%N || is_ascii_uppercase ch) query_text.

(** ** The focus line *)

(** The chunk's fields that are read here; [defines] is what symbols.rs answers
    for a name. *)
Record IndexedChunk := MkChunk {
  c_file_path : list N;
  c_start_line : nat;
  c_end_line : nat;
  c_kind : str;
  c_text : str;
  defines : str -> bool
}.

Definition is_path_separator (c : char) : bool := bool_decide (c ∈ lit ":\./#").

Definition symbol_name (text : str) : str :=
  match List.find (fun part => negb (bool_decide (part = []))) (reverse (split_where is_path_separator text)) with
  | Some part => part
  | None => text
  end.

(** One line of [first_source_definition_line]: [inl] goes on, with the new
    block-comment state; [inr] stops at the line. *)
Definition definition_line_step (in_block_comment : bool) (line : str) : bool + unit :=
  if in_block_comment then inl (negb (contains (lit "*/") line))
  else if starts_with (lit "/*") line then inl (negb (contains (lit "*/") line))
  else if bool_decide (line = []) || starts_with (lit "//") line || starts_with (lit "#") line ||
          starts_with (lit "@") line || starts_with (lit "*") line ||
          (starts_with (lit "[") line && ends_with (lit "]") line)
  then inl false
  else inr tt.

Fixpoint first_definition_from (content : str) (lines : list LineSpan) (line_nos : list nat)
    (in_block_comment : bool) : option (option nat) :=
  match line_nos with
  | [] => Some None
  | line_no :: rest =>
    line ← line_at content lines line_no;
    match definition_line_step in_block_comment (trim line) with
    | inl in_block_comment => first_definition_from content lines rest in_block_comment
    | inr _ => Some (Some line_no)
    end
  end.

(** [window_start..=window_end]. *)
Definition inclusive (a b : nat) : list nat := seq a (S b - a).

Definition first_source_definition_line (content : str) (lines : list LineSpan)
    (window_start window_end : nat) : option (option nat) :=
  first_definition_from content lines (inclusive window_start window_end) false.

Definition line_score (query : PresentationQuery) (line : str) : nat :=
  let line_lower := ascii_lower line in
  (if contains (q_text query) line then 16
   else if contains (q_lower query) line_lower then 10 else 0)
  + 3 * length (filter (fun token => contains token line_lower = true) (q_tokens query))
  + (if compact_matching query && negb (bool_decide (q_compact query = []))
        && contains (q_compact query) (compact_identifier line)
     then 6 else 0).

Fixpoint best_line_from (query : PresentationQuery) (content : str) (lines : list LineSpan)
    (line_nos : list nat) (best_line best_score : nat) : option nat :=
  match line_nos with
  | [] => Some best_line
  | line_no :: rest =>
    line ← line_at content lines line_no;
    let score := line_score query line in
    if best_score <? score then best_line_from query content lines rest line_no score
    else best_line_from query content lines rest best_line best_score
  end.

Definition focus_window (chunk : IndexedChunk) (line_count : nat) : nat * nat :=
  let window_start := Nat.min (Nat.max (c_start_line chunk) 1) line_count in
  (window_start, Nat.min (Nat.max (c_end_line chunk) window_start) line_count).

Definition find_focus_line (chunk : IndexedChunk) (query : PresentationQuery) (content : str)
    (lines : list LineSpan) : option nat :=
  let '(window_start, window_end) := focus_window chunk (length lines) in
  if decide (q_text query = []) then Some window_start
  else
    found ←
      (if is_definition_kind (c_kind chunk)
          && (defines chunk (q_text query) || defines chunk (symbol_name (q_text query)))
       then first_source_definition_line content lines window_start window_end
       else Some None);
    match found with
    | Some line => Some line
    | None => best_line_from query content lines (inclusive window_start window_end) window_start 0
    end.

(** ** Hits *)

Definition summarize_reason (query : PresentationQuery) (focus_line : str) : str :=
  let focus := trim focus_line in
  if decide (focus = []) then lit "top hybrid relevance in this file"
  else
    let pointer := lit "top-ranked pointer: " ++ truncate_for_reason focus in
    if decide (q_text query = []) then pointer
    else
      let focus_lower := ascii_lower focus in
      if contains (q_text query) focus || contains (q_lower query) focus_lower
      then lit "line contains query terms: " ++ truncate_for_reason focus
      else
        match List.find (fun token => contains token focus_lower) (q_tokens query) with
        | Some token =>
          lit "line matches token `" ++ token ++ lit "`: " ++ truncate_for_reason focus
        | None => pointer
        end.

Section Hits.
(** [f32] scores, and the routing's fields: they are carried, not computed. *)
Context {Score : Type}.

Record QueryRouting := MkRouting { intent_name : str; use_neural : bool }.

Record HitPresentation := MkPresentation {
  context_lines : nat;
  p_query : PresentationQuery;
  routing : QueryRouting;
  p_neural_executed : bool
}.

Record SearchHit := MkHit {
  file_path : list N;
  start_line : nat;
  end_line : nat;
  preview : str;
  reason : str;
  score : Score;
  sources : list str;
  neural_requested : bool;
  neural_executed : bool
}.

Record HitDisplay := MkDisplay { d_start : nat; d_end : nat; d_preview : str }.
Record PreparedHit := MkPrepared { hit : SearchHit; display : option HitDisplay }.

Definition into_hit (p : PreparedHit) : SearchHit :=
  match display p with
  | Some d =>
    let h := hit p in
    MkHit (file_path h) (d_start d) (d_end d) (d_preview d) (reason h) (score h) (sources h)
      (neural_requested h) (neural_executed h)
  | None => hit p
  end.

Definition show_bool (b : bool) : str := if b then lit "true" else lit "false".

Definition route_reason (presentation : HitPresentation) (tail : str) : str :=
  lit "route=" ++ intent_name (routing presentation)
  ++ lit " neural_requested=" ++ show_bool (use_neural (routing presentation))
  ++ lit " neural_executed=" ++ show_bool (p_neural_executed presentation) ++ lit "; " ++ tail.

Definition to_hit_from_file (chunk : IndexedChunk) (s : Score) (srcs : list str) (content : str)
    (lines : list LineSpan) (presentation : HitPresentation) (ranking_context : option nat)
  : option PreparedHit :=
  let query := p_query presentation in
  let mk a b pre rsn :=
    MkHit (c_file_path chunk) a b pre rsn s srcs (use_neural (routing presentation))
      (p_neural_executed presentation) in
  match lines with
  | [] =>
    Some (MkPrepared (mk (c_start_line chunk) (c_start_line chunk) []
                        (route_reason presentation (lit "empty file"))) None)
  | _ =>
    focus_line ← find_focus_line chunk query content lines;
    let evidence_context := unwrap_or (context_lines presentation) ranking_context in
    let '(snippet_start, snippet_end) := snippet_bounds focus_line evidence_context (length lines) in
    preview ← preview_from_lines content lines snippet_start snippet_end;
    display ←
      (if negb (evidence_context =? context_lines presentation) then
         let '(start_line, end_line) :=
           snippet_bounds focus_line (context_lines presentation) (length lines) in
         p ← preview_from_lines content lines start_line end_line;
         Some (Some (MkDisplay start_line end_line p))
       else Some None);
    line ← line_at content lines focus_line;
    Some (MkPrepared (mk snippet_start snippet_end preview
                        (route_reason presentation (summarize_reason query line))) display)
  end.

(** [file] is the content and lines the cache read, if it could. *)
Definition prepare_hit (chunk : IndexedChunk) (s : Score) (srcs : list str)
    (file : option (str * list LineSpan)) (presentation : HitPresentation)
    (ranking_context : option nat) : option PreparedHit :=
  match file with
  | Some (content, lines) =>
    to_hit_from_file chunk s srcs content lines presentation ranking_context
  | None =>
    Some (MkPrepared
      (MkHit (c_file_path chunk) (c_start_line chunk) (c_end_line chunk)
         (strip_chunk_header (c_text chunk) (c_file_path chunk))
         (route_reason presentation (lit "live file unavailable; using indexed text"))
         s srcs (use_neural (routing presentation)) (p_neural_executed presentation)) None)
  end.
End Hits.

(** * Presentation: spans are lines, windows are in bounds, the focus is best. *)

(** ** The lines of a text: [str::lines] *)

Definition line_text (l : str) : str :=
  match strip_suffix [10%N] l with
  | Some l' => strip_suffix_or [13%N] l'
  | None => l
  end.
Definition text_lines (s : str) : list str := map line_text (split_inclusive s).

Lemma split_inclusive_break b r :
  10%N ∉ b -> split_inclusive (b ++ 10%N :: r) = (b ++ [10%N]) :: split_inclusive r.
Proof.
  induction b as [|c b IH]; intros Hn; [done|]. apply not_elem_of_cons in Hn as [Hc Hn].
  simpl. destruct (N.eqb_spec c 10) as [->|]; [done|]. by rewrite IH.
Qed.

Lemma split_inclusive_last b : 10%N ∉ b -> b <> [] -> split_inclusive b = [b].
Proof.
  induction b as [|c b IH]; intros Hn Hne; [done|]. apply not_elem_of_cons in Hn as [Hc Hn].
  simpl. destruct (N.eqb_spec c 10) as [->|]; [done|]. destruct b as [|d b]; [done|].
  by rewrite IH.
Qed.

Lemma encode_ascii c x : x ∈ encode_utf8 c -> (x < 0x80)%N -> x = c.
Proof.
  intros Hx Hlt. destruct (N.lt_ge_cases c 0x80) as [Hc|Hc].
  - unfold encode_utf8 in Hx. rewrite (proj2 (N.ltb_lt _ _)) in Hx by done.
    by apply list_elem_of_singleton in Hx.
  - pose proof (encode_high c x Hc Hx). lia.
Qed.

Lemma bytes_no_newline s : 10%N ∉ s -> 10%N ∉ bytes s.
Proof.
  intros Hn Hin. unfold bytes in Hin. apply list_elem_of_bind in Hin as (c & Hx & Hc).
  by apply encode_ascii in Hx as <-.
Qed.

Lemma enumerate_app i l1 l2 :
  enumerate_from i (l1 ++ l2) = enumerate_from i l1 ++ enumerate_from (i + length l1) l2.
Proof.
  revert i. induction l1 as [|b l1 IH]; intros i; simpl; [by rewrite Nat.add_0_r|].
  rewrite IH. by rewrite <- Nat.add_succ_comm.
Qed.

Lemma span_fold_skip bs st i l :
  10%N ∉ l -> foldl (span_step bs) st (enumerate_from i l) = st.
Proof.
  revert st i. induction l as [|b l IH]; intros st i Hn; [done|].
  apply not_elem_of_cons in Hn as [Hb Hn]. simpl. rewrite IH by done. destruct st as [spans s].
  simpl. by destruct (N.eqb_spec b 10) as [->|].
Qed.

(** The newline at the end of [b]: its span is [b] without a carriage return. *)
Lemma span_step_line pre b r spans :
  span_step (bytes (pre ++ b ++ 10%N :: r)) (spans, blen pre) (blen pre + blen b, 10%N) =
  (spans ++ [MkSpan (blen pre) (blen pre + blen (strip_suffix_or [13%N] b))],
   blen (pre ++ b ++ [10%N])).
Proof.
  unfold span_step. rewrite N.eqb_refl. cbn [negb].
  assert (blen pre + blen b + 1 = blen (pre ++ b ++ [10%N])) as <-.
  { rewrite !blen_app. simpl. lia. }
  do 4 f_equal. destruct b as [|c b _] using rev_ind.
  { change (blen (strip_suffix_or [13%N] [])) with 0. simpl. by rewrite Nat.add_0_r, Nat.ltb_irrefl. }
  unfold strip_suffix_or. rewrite strip_suffix_snoc.
  rewrite !blen_app. cbn [blen]. rewrite Nat.add_0_r. pose proof (len_utf8_pos c) as Hpos.
  rewrite (proj2 (Nat.ltb_lt _ _)) by lia. cbn [andb].
  assert (nth (blen pre + (blen b + len_utf8 c) - 1) (bytes (pre ++ (b ++ [c]) ++ 10%N :: r)) 0%N =
          nth (len_utf8 c - 1) (encode_utf8 c) 0%N) as ->.
  { rewrite !bytes_app. rewrite <- app_assoc. rewrite app_nth2 by (rewrite length_bytes; lia).
    rewrite length_bytes, app_nth2 by (rewrite length_bytes; lia). rewrite length_bytes.
    rewrite app_nth1.
    - unfold bytes. cbn [mbind list_bind]. rewrite app_nil_r. f_equal. lia.
    - unfold bytes. cbn [mbind list_bind]. rewrite app_nil_r, length_encode. lia. }
  destruct (N.eqb_spec 13 c) as [<-|Hne].
  - cbn. lia.
  - destruct (N.eqb_spec (nth (len_utf8 c - 1) (encode_utf8 c) 0%N) 13) as [He|].
    + exfalso. assert (13%N ∈ encode_utf8 c) as Hin.
      { rewrite <- He. apply list_elem_of_In, nth_In. rewrite length_encode. lia. }
      by apply encode_ascii in Hin.
    + rewrite blen_app. simpl. lia.
Qed.

Lemma strip_cr_prefix b : exists q, b = strip_suffix_or [13%N] b ++ q.
Proof.
  destruct b as [|c b _] using rev_ind; [by exists []|]. unfold strip_suffix_or.
  rewrite strip_suffix_snoc.
  destruct (13 =? c)%N; [by exists [c]|]. exists []. by rewrite app_nil_r.
Qed.

Lemma line_spans_loop content n : forall s pre spans,
  length s <= n -> content = pre ++ s ->
  let '(spans', start) :=
    foldl (span_step (bytes content)) (spans, blen pre) (enumerate_from (blen pre) (bytes s)) in
  exists new,
    (if start <? length (bytes content) then spans' ++ [MkSpan start (length (bytes content))]
     else spans') = spans ++ new /\
    Forall2 (fun span l => span_text content span = Some l) new (text_lines s).
Proof.
  induction n as [|n IH]; intros s pre spans Hlen ->.
  { destruct s; [|simpl in Hlen; lia]. simpl. rewrite app_nil_r, length_bytes, Nat.ltb_irrefl.
    exists []. by rewrite app_nil_r. }
  destruct (decide (10%N ∈ s)) as [Hin|Hnin].
  - apply list_elem_of_split_l in Hin as (b & r & -> & Hb).
    rewrite (bytes_app b (10%N :: r)). change (bytes (10%N :: r)) with ([10%N] ++ bytes r).
    rewrite !enumerate_app, !foldl_app, length_bytes.
    rewrite (span_fold_skip _ _ _ (bytes b)) by by apply bytes_no_newline.
    cbn [enumerate_from foldl]. rewrite span_step_line. cbn [length].
    replace (blen pre + blen b + 1) with (blen (pre ++ b ++ [10%N])) by (rewrite !blen_app; simpl; lia).
    specialize (IH r (pre ++ b ++ [10%N])
      (spans ++ [MkSpan (blen pre) (blen pre + blen (strip_suffix_or [13%N] b))])).
    assert ((pre ++ b ++ [10%N]) ++ r = pre ++ b ++ 10%N :: r) as Hre by by rewrite <- !app_assoc.
    rewrite Hre in IH. rewrite length_app in Hlen. simpl in Hlen.
    specialize (IH ltac:(lia) eq_refl). destruct (foldl _ _ _) as [spans' start].
    destruct IH as (new & -> & Hf). exists (MkSpan (blen pre) (blen pre + blen (strip_suffix_or [13%N] b)) :: new).
    split; [by rewrite <- app_assoc|]. unfold text_lines. rewrite split_inclusive_break by done.
    constructor; [|done]. unfold line_text. rewrite strip_suffix_snoc, N.eqb_refl.
    destruct (strip_cr_prefix b) as [q Hq]. unfold span_text. cbn [span_start span_end].
    rewrite Hq at 1. rewrite <- (app_assoc (strip_suffix_or _ _)). apply slice_app.
  - rewrite span_fold_skip by by apply bytes_no_newline.
    destruct (decide (s = [])) as [->|Hne].
    { rewrite app_nil_r, length_bytes, Nat.ltb_irrefl. exists []. by rewrite app_nil_r. }
    rewrite length_bytes, blen_app. rewrite (proj2 (Nat.ltb_lt _ _)).
    2: { destruct s as [|c s]; [done|]. simpl. pose proof (len_utf8_pos c). lia. }
    eexists. split; [done|]. unfold text_lines. rewrite split_inclusive_last by done.
    constructor; [|constructor]. unfold line_text. rewrite strip_suffix_none by done.
    unfold span_text. cbn [span_start span_end]. rewrite <- (app_nil_r (pre ++ s)), <- app_assoc.
    apply slice_app.
Qed.

Lemma line_spans_lines content :
  Forall2 (fun span l => span_text content span = Some l)
    (line_spans (bytes content)) (text_lines content).
Proof.
  pose proof (line_spans_loop content (length content) content [] [] ltac:(lia) eq_refl) as H.
  unfold line_spans. cbn [blen] in H. destruct (foldl _ _ _) as [spans start].
  by destruct H as (new & -> & Hf).
Qed.

(** Indexing a text's bytes finds exactly its lines: there is one span per
    line of the text, in order, and each slices out that line without its line
    feed or carriage return and line feed, never off a character boundary. *)
Theorem line_spans_are_lines content :
  Forall2 (fun span l => span_text content span = Some l)
    (line_spans (bytes content)) (text_lines content).
Proof. apply line_spans_lines. Qed.

(** ** Windows of lines *)

(** Lines [a..=b] of a text, counted from one. *)
Definition window (L : list str) (a b : nat) : list str := take (b - (a - 1)) (drop (a - 1) L).

Section Windows.
Context (content : str) (lines : list LineSpan) (L : list str).
Context (HL : Forall2 (fun span l => span_text content span = Some l) lines L).

Lemma lines_length : length lines = length L.
Proof. by eapply Forall2_length. Qed.

Lemma line_at_some k l : 1 <= k -> L !! (k - 1) = Some l -> line_at content lines k = Some l.
Proof.
  intros Hk Hl. unfold line_at. destruct (Forall2_lookup_r _ _ _ _ _ HL Hl) as (sp & -> & Hs). done.
Qed.

Lemma line_exists k : 1 <= k <= length L -> exists l, L !! (k - 1) = Some l.
Proof. intros. apply lookup_lt_is_Some. lia. Qed.

Lemma preview_window a b :
  1 <= a -> a - 1 <= b -> b <= length L ->
  preview_from_lines content lines a b = Some (join [10%N] (window L a b)).
Proof.
  intros Ha Hab Hb. unfold preview_from_lines. rewrite lines_length.
  rewrite (proj2 (Nat.leb_le _ _) Hab), (proj2 (Nat.leb_le _ _) Hb). cbn [andb].
  assert (mapM (span_text content) (take (b - (a - 1)) (drop (a - 1) lines)) = Some (window L a b)) as ->;
    [|done].
  apply mapM_Some. unfold window. by apply Forall2_take, Forall2_drop.
Qed.

Lemma first_definition_spec line_nos : forall in_block,
  Forall (fun k => 1 <= k <= length L) line_nos ->
  exists r, first_definition_from content lines line_nos in_block = Some r /\
    forall k, r = Some k -> k ∈ line_nos.
Proof.
  induction line_nos as [|k rest IH]; intros in_block Hf; [by exists None|].
  apply Forall_cons in Hf as [Hk Hf]. destruct (line_exists k Hk) as [l Hl].
  cbn [first_definition_from]. rewrite (line_at_some k l) by (done || lia). cbn [mbind option_bind].
  destruct (definition_line_step in_block (trim l)) as [b|[]].
  - destruct (IH b Hf) as (r & -> & Hr). exists r. split; [done|]. intros j Hj. right. by apply Hr.
  - exists (Some k). split; [done|]. intros j [= ->]. by left.
Qed.

Definition score_at (query : PresentationQuery) (k : nat) : nat :=
  match L !! (k - 1) with Some l => line_score query l | None => 0 end.

Lemma best_line_spec query line_nos : forall best,
  Forall (fun k => 1 <= k <= length L) line_nos ->
  forall score, exists k, best_line_from query content lines line_nos best score = Some k /\
    ((k = best /\ forall j, j ∈ line_nos -> score_at query j <= score) \/
     exists l1 l2, line_nos = l1 ++ k :: l2 /\ score < score_at query k /\
       (forall j, j ∈ l1 -> score_at query j < score_at query k) /\
       (forall j, j ∈ l2 -> score_at query j <= score_at query k)).
Proof.
  induction line_nos as [|k rest IH]; intros best Hf score.
  { exists best. split; [done|]. left. split; [done|]. by intros j ?%not_elem_of_nil. }
  apply Forall_cons in Hf as [Hk Hf]. destruct (line_exists k Hk) as [l Hl].
  cbn [best_line_from]. rewrite (line_at_some k l) by (done || lia). cbn [mbind option_bind].
  assert (score_at query k = line_score query l) as Hs by (unfold score_at; by rewrite Hl).
  rewrite <- Hs. destruct (Nat.ltb_spec score (score_at query k)) as [Hlt|Hge].
  - destruct (IH k Hf (score_at query k)) as (k' & -> & [[-> Hj]|(l1 & l2 & -> & Hlt' & H1 & H2)]);
      eexists; (split; [done|]); right.
    + exists [], rest. split_and!; try done. by intros j ?%not_elem_of_nil.
    + exists (k :: l1), l2. split_and!; try done; [lia|]. intros j [->|Hj]%elem_of_cons; [done|auto].
  - destruct (IH best Hf score) as (k' & -> & [[-> Hj]|(l1 & l2 & -> & Hlt' & H1 & H2)]);
      eexists; (split; [done|]).
    + left. split; [done|]. intros j [->|?]%elem_of_cons; [lia|auto].
    + right. exists (k :: l1), l2. split_and!; try done. intros j [->|?]%elem_of_cons; [lia|auto].
Qed.

Lemma elem_of_inclusive a b k : k ∈ inclusive a b <-> a <= k <= b.
Proof. unfold inclusive. rewrite elem_of_seq. lia. Qed.

(** The chosen line wins: it is at least as good as every line of its window,
    and better than those before it. *)
Definition is_best (query : PresentationQuery) (a b k : nat) : Prop :=
  a <= k <= b /\ (forall j, a <= j <= b -> score_at query j <= score_at query k) /\
  (forall j, a <= j < k -> score_at query j < score_at query k).

Lemma best_line_window query a b :
  1 <= a <= b -> b <= length L ->
  exists k, best_line_from query content lines (inclusive a b) a 0 = Some k /\ is_best query a b k.
Proof.
  intros Hab Hb. destruct (best_line_spec query (inclusive a b) a) with (score := 0) as (k & -> & Hk).
  { apply Forall_forall. intros k ?%elem_of_inclusive. lia. }
  exists k. split; [done|]. destruct Hk as [[-> Hj]|(l1 & l2 & Hi & Hlt & H1 & H2)].
  - split_and!; [lia|lia| |lia]. intros j Hjab.
    assert (score_at query j <= 0) by (apply Hj, elem_of_inclusive; lia). lia.
  - assert (a <= k <= b) as Hkab.
    { apply elem_of_inclusive. rewrite Hi. apply elem_of_app. right. by left. }
    (* the lines before [k] in the window are those of [l1] *)
    assert (forall j, j ∈ l1 \/ j ∈ l2 \/ j = k <-> a <= j <= b) as Hall.
    { intros j. rewrite <- elem_of_inclusive, Hi, elem_of_app, elem_of_cons. tauto. }
    assert (forall j, j ∈ l2 -> k < j) as Hafter.
    { intros j Hj. apply list_elem_of_split in Hj as (m1 & m2 & ->).
      assert (inclusive a b !! length l1 = Some k) as Hk1.
      { rewrite Hi. rewrite lookup_app_r by done. by rewrite Nat.sub_diag. }
      assert (inclusive a b !! (length l1 + S (length m1)) = Some j) as Hj1.
      { rewrite Hi. rewrite lookup_app_r by lia.
        replace (length l1 + S (length m1) - length l1) with (S (length m1)) by lia. simpl.
        rewrite lookup_app_r by done. by rewrite Nat.sub_diag. }
      unfold inclusive in Hk1, Hj1. apply lookup_seq in Hk1 as [-> _], Hj1 as [-> _]. lia. }
    split_and!; [lia|lia| |].
    + intros j Hj. apply Hall in Hj as [Hj|[Hj| ->]]; [|auto|done]. pose proof (H1 j Hj). lia.
    + intros j Hj. assert (a <= j <= b) as [Hj1|[Hj2| ->]]%Hall by lia; [auto| |lia].
      apply Hafter in Hj2. lia.
Qed.

Lemma focus_window_bounds chunk n :
  1 <= n -> let '(a, b) := focus_window chunk n in 1 <= a <= b /\ b <= n.
Proof. intros. unfold focus_window. lia. Qed.

(** Whether the chunk defines the queried name, so that the definition's own
    line is preferred. *)
Definition prefers_definition (chunk : IndexedChunk) (query : PresentationQuery) : bool :=
  is_definition_kind (c_kind chunk) &&
  (defines chunk (q_text query) || defines chunk (symbol_name (q_text query))).

Lemma find_focus_spec chunk query :
  L <> [] ->
  let '(a, b) := focus_window chunk (length L) in
  1 <= a <= b /\ b <= length L /\
  exists k, find_focus_line chunk query content lines = Some k /\ a <= k <= b /\
    (q_text query = [] -> k = a) /\
    (q_text query <> [] ->
     is_best query a b k \/
     (prefers_definition chunk query = true /\
      first_source_definition_line content lines a b = Some (Some k))).
Proof.
  intros Hne. unfold find_focus_line. rewrite lines_length.
  assert (1 <= length L) as Hn by (destruct L; [done|simpl; lia]).
  pose proof (focus_window_bounds chunk (length L) Hn) as Hb.
  destruct (focus_window chunk (length L)) as [a b]. destruct Hb as [Hab Hb].
  split; [done|]. split; [done|]. case_decide as Ht.
  { exists a. split_and!; try done; lia. }
  destruct (best_line_window query a b Hab Hb) as (k & Hk & Hbest).
  fold (prefers_definition chunk query). destruct (prefers_definition chunk query) eqn:Hp; cbn [mbind option_bind].
  - destruct (first_definition_spec (inclusive a b) false) as (r & Hr & Hin).
    { apply Forall_forall. intros j ?%elem_of_inclusive. lia. }
    unfold first_source_definition_line. rewrite Hr. cbn [mbind option_bind]. destruct r as [d|].
    + pose proof (proj1 (elem_of_inclusive a b d) (Hin d eq_refl)). exists d.
      split_and!; try done; [lia..|]. intros _. by right.
    + exists k. split_and!; try done; [apply Hbest..|]. intros _. by left.
  - exists k. split_and!; try done; [apply Hbest..|]. intros _. by left.
Qed.
End Windows.

(** The focus of a hit lies in the chunk's lines, clipped to the file: the
    chunk's first line without a query; with one, the first line of highest
    score in the window, unless the chunk defines the queried name and a source
    line of its definition is found, which then wins.  No file content, chunk
    range or query makes the search for it panic. *)
Theorem find_focus_line_spec content chunk query :
  text_lines content <> [] ->
  let lines := line_spans (bytes content) in
  let '(a, b) := focus_window chunk (length (text_lines content)) in
  1 <= a <= b /\ b <= length (text_lines content) /\
  exists k, find_focus_line chunk query content lines = Some k /\ a <= k <= b /\
    (q_text query = [] -> k = a) /\
    (q_text query <> [] ->
     is_best (text_lines content) query a b k \/
     (prefers_definition chunk query = true /\
      first_source_definition_line content lines a b = Some (Some k))).
Proof. intros Hne. apply find_focus_spec; [apply line_spans_lines|done]. Qed.

Definition focus_text : str :=
  lit "// a" ++ [10%N] ++ lit "fn b()" ++ [13; 10]%N ++ lit "call(x)" ++ [10%N] ++ lit "call(y)".
Definition focus_chunk : IndexedChunk :=
  MkChunk (lit "f.rs") 1 9 (lit "Function") [] (fun _ => false).
Definition focus_query : PresentationQuery := MkQuery (lit "call") (lit "call") [] false [lit "y"].

Lemma find_focus_line_spec_witness :
  find_focus_line focus_chunk focus_query focus_text (line_spans (bytes focus_text)) = Some 4 /\
  is_best (text_lines focus_text) focus_query 1 4 4.
Proof.
  split; [vm_compute; reflexivity|].
  pose proof (find_focus_line_spec focus_text focus_chunk focus_query) as H.
  assert (text_lines focus_text <> []) as Hne by (vm_compute; discriminate).
  specialize (H Hne). vm_compute focus_window in H.
  destruct H as (_ & _ & k & Hk & _ & _ & Hb).
  assert (k = 4) as -> by (vm_compute in Hk; congruence).
  destruct Hb as [Hb|[Hp _]]; [discriminate|exact Hb|vm_compute in Hp; discriminate Hp].
Defined.

(** A window around [focus], as [snippet_bounds] clips it. *)
Definition shows (L : list str) (focus context : nat) (a b : nat) (text : str) : Prop :=
  (a, b) = snippet_bounds focus context (length L) /\
  1 <= a <= focus /\ focus <= b <= length L /\ text = join [10%N] (window L a b).

Lemma shows_bounds L focus context :
  1 <= focus <= length L ->
  let '(a, b) := snippet_bounds focus context (length L) in
  shows L focus context a b (join [10%N] (window L a b)).
Proof. intros Hf. unfold shows, snippet_bounds. split_and!; try done; lia. Qed.

(** A hit on a readable file is always produced: for an empty file an empty
    preview; otherwise a window of whole lines of the live file that contains the
    focus line and stays in the file.  The canonical hit, which ranking reads,
    shows the ranking context when there is one; the hit that is returned shows
    the requested context around the same focus, and differs in nothing else. *)
Theorem to_hit_from_file_spec {Score} chunk (s : Score) srcs content presentation ranking_context :
  let L := text_lines content in
  let query := p_query presentation in
  exists p,
    to_hit_from_file chunk s srcs content (line_spans (bytes content)) presentation ranking_context
      = Some p /\
    file_path (into_hit p) = c_file_path chunk /\ score (into_hit p) = s /\
    reason (into_hit p) = reason (hit p) /\ sources (into_hit p) = srcs /\
    if decide (L = []) then
      preview (into_hit p) = [] /\ start_line (into_hit p) = c_start_line chunk /\
      end_line (into_hit p) = c_start_line chunk
    else
      exists focus, find_focus_line chunk query content (line_spans (bytes content)) = Some focus /\
        shows L focus (unwrap_or (context_lines presentation) ranking_context)
          (start_line (hit p)) (end_line (hit p)) (preview (hit p)) /\
        shows L focus (context_lines presentation)
          (start_line (into_hit p)) (end_line (into_hit p)) (preview (into_hit p)).
Proof.
  intros L query. pose proof (line_spans_lines content) as HL. fold L in HL.
  unfold to_hit_from_file. fold query. destruct (line_spans (bytes content)) as [|sp sps] eqn:Elines.
  { eexists. split; [done|]. destruct L; [|by inversion HL]. by rewrite decide_True. }
  rewrite <- Elines in *. destruct (decide (L = [])) as [HLn|HLn].
  { rewrite HLn in HL. apply Forall2_nil_inv_r in HL. by rewrite HL in Elines. }
  pose proof (find_focus_spec content _ L HL chunk query HLn) as Hfocus.
  destruct (focus_window chunk (length L)) as [a b].
  destruct Hfocus as (Hab & Hb & focus & Hf & Hfab & _). rewrite Hf. cbn [mbind option_bind].
  set (ev := unwrap_or (context_lines presentation) ranking_context).
  clearbody ev. rewrite (lines_length content _ L HL).
  assert (1 <= focus <= length L) as Hfb by lia.
  pose proof (shows_bounds L focus ev Hfb) as S1.
  pose proof (shows_bounds L focus (context_lines presentation) Hfb) as S2.
  destruct (line_exists L focus Hfb) as [l Hl].
  destruct (snippet_bounds focus ev (length L)) as [a1 b1].
  destruct (snippet_bounds focus (context_lines presentation) (length L)) as [a2 b2] eqn:E2.
  pose proof S1 as (_ & ? & ? & _). pose proof S2 as (_ & ? & ? & _).
  rewrite (preview_window content _ L HL a1 b1) by lia. cbn [mbind option_bind].
  destruct (Nat.eqb_spec ev (context_lines presentation)) as [Heq|]; cbn [negb].
  - cbn [mbind option_bind]. rewrite (line_at_some content _ L HL focus l) by (done || lia).
    eexists. split; [done|]. cbn. split_and!; try done. exists focus. split_and!; [done..|].
    by rewrite <- Heq.
  - rewrite (preview_window content _ L HL a2 b2) by lia. cbn [mbind option_bind].
    rewrite (line_at_some content _ L HL focus l) by (done || lia).
    eexists. split; [done|]. cbn. split_and!; try done. by exists focus.
Qed.
