(* ===== verification/Caches.v ===== *)
(** * Byte-bounded caches: byte_cache.rs and search_file_cache.rs.

  Both caches keep an LRU map, the bytes it retains and a limit.  The byte
  counters are [usize]: every addition and subtraction is checked, and [None]
  stands for an overflow (or for an eviction loop that would not end). *)
From S2P Require Import Prelude Utf8 Paths Lru Presentation.
Local Open Scope Z_scope.

(** The three fields of [ByteCache] and of [FileContentCache]. *)
Record Sized (C : Type) := MkSized {
  entries : C;
  bytes_held : Z;
  max_bytes : Z
}.
Arguments MkSized {C} _ _ _.
Arguments entries {C} _.
Arguments bytes_held {C} _.
Arguments max_bytes {C} _.

(** ** What both caches do with an entry's cost *)
Section Cost.
Context {K V C : Type} `{Lru K V C} (cost : K * V -> Z).

Definition total (l : list (K * V)) : Z := foldr (fun e s => cost e + s) 0 l.

(** Subtract the cost of what the map gave back, if it gave something back. *)
Definition release (removed : option (K * V)) (e : C) (c : Sized C) : option (Sized C) :=
  match removed with
  | Some kv =>
    b ← checked_sub (bytes_held c) (cost kv); Some (MkSized e b (max_bytes c))
  | None => Some (MkSized e (bytes_held c) (max_bytes c))
  end.

Definition sized_remove (k : K) (c : Sized C) : option (Sized C) :=
  let '(v, e) := lru_pop k (entries c) in
  release (pair k <$> v) e c.

(** [while self.bytes > limit { if let Some(..) = pop_lru() { .. } }] *)
Fixpoint evict_loop (fuel : nat) (limit : Z) (c : Sized C) : option (Sized C) :=
  if limit <? bytes_held c then
    match fuel with
    | O => None
    | S fuel =>
      let '(removed, e) := lru_pop_lru (entries c) in
      c ← release removed e c; evict_loop fuel limit c
    end
  else Some c.

(** The loop pops an entry in each round or stops. *)
Definition evict (limit : Z) (c : Sized C) : option (Sized C) :=
  evict_loop (S (length (lru_iter (entries c)))) limit c.

(** Keys are distinct and within the capacity, no cost is negative, and the
    counter is the sum of the costs. *)
Definition sized_ok (c : Sized C) : Prop :=
  NoDup (map fst (lru_iter (entries c))) /\
  (length (lru_iter (entries c)) <= lru_cap (entries c))%nat /\
  Forall (fun e => 0 <= cost e) (lru_iter (entries c)) /\
  bytes_held c = total (lru_iter (entries c)) /\
  0 <= bytes_held c <= U64_MAX.

(** The invariant between calls. *)
Definition sized_inv (c : Sized C) : Prop :=
  sized_ok c /\ bytes_held c <= max_bytes c <= U64_MAX.

Lemma total_app l1 l2 : total (l1 ++ l2) = total l1 + total l2.
Proof. induction l1 as [|e l1 IH]; simpl; [done|]. unfold total in *. simpl. lia. Qed.

#[global] Instance total_proper : Proper ((≡ₚ) ==> (=)) total.
Proof. intros l1 l2. induction 1; unfold total in *; simpl; lia. Qed.

Lemma total_nonneg l : Forall (fun e => 0 <= cost e) l -> 0 <= total l.
Proof. induction 1; unfold total in *; simpl; lia. Qed.

(** Use of an entry only reorders the map. *)
Lemma sized_ok_perm c e :
  lru_iter e ≡ₚ lru_iter (entries c) -> lru_cap e = lru_cap (entries c) ->
  sized_ok c -> sized_ok (MkSized e (bytes_held c) (max_bytes c)).
Proof.
  intros Hp Hcap (Hnd & Hlen & Hc & Hb & Hr). unfold sized_ok. cbn [entries bytes_held max_bytes].
  split_and!; [|by rewrite (Permutation_length Hp), Hcap| |by rewrite (total_proper _ _ Hp)|lia..].
  - by rewrite (Permutation_map fst Hp).
  - apply Forall_forall. intros x Hx. eapply Forall_forall in Hc; [exact Hc|].
    by eapply elem_of_Permutation_proper in Hp; apply Hp.
Qed.

Lemma sized_remove_spec k c :
  sized_ok c ->
  exists c', sized_remove k c = Some c' /\ sized_ok c' /\ max_bytes c' = max_bytes c /\
    bytes_held c' <= bytes_held c /\
    lru_iter (entries c') = without k (lru_iter (entries c)) /\
    lru_cap (entries c') = lru_cap (entries c).
Proof.
  intros (Hnd & Hlen & Hc & Hb & Hr). unfold sized_remove.
  destruct (lru_pop_spec k (entries c)) as (Hv & He & Hcap).
  destruct (lru_pop k (entries c)) as [v e]. cbn [fst snd] in *. subst v.
  assert (Forall (fun e => 0 <= cost e) (without k (lru_iter (entries c)))) as Hc'.
  { apply Forall_forall. intros x Hx%without_elem. by eapply Forall_forall in Hc. }
  pose proof (total_nonneg _ Hc') as Hn.
  pose proof (without_length k (lru_iter (entries c))) as Hl.
  destruct (assoc k (lru_iter (entries c))) as [v|] eqn:Ha; cbn [fmap option_fmap option_map release].
  - pose proof (without_perm k v _ Ha) as Hp. rewrite Hp in Hb. unfold total in Hb. simpl in Hb.
    fold (total (without k (lru_iter (entries c)))) in Hb.
    assert (0 <= cost (k, v)) as Hkv.
    { eapply Forall_forall in Hc; [done|]. by apply assoc_In. }
    unfold checked_sub. rewrite checked_u64_in by (unfold in_u64; lia). cbn [mbind option_bind].
    eexists. split; [done|]. unfold sized_ok. cbn [entries bytes_held max_bytes]. rewrite He, Hcap.
    split_and!; try done; try lia. by apply without_NoDup.
  - apply assoc_None, without_not_in in Ha. eexists. split; [done|].
    unfold sized_ok. cbn [entries bytes_held max_bytes]. rewrite He, Hcap, Ha. split_and!; done || lia.
Qed.

Lemma evict_loop_spec fuel : forall limit c,
  sized_ok c -> 0 <= limit -> (length (lru_iter (entries c)) < fuel)%nat ->
  exists c', evict_loop fuel limit c = Some c' /\ sized_ok c' /\ max_bytes c' = max_bytes c /\
    bytes_held c' <= limit /\ lru_cap (entries c') = lru_cap (entries c) /\
    (exists dropped, lru_iter (entries c) = lru_iter (entries c') ++ dropped) /\
    (forall l1 l2, lru_iter (entries c) = l1 ++ l2 -> total l1 <= limit ->
       exists l3, lru_iter (entries c') = l1 ++ l3).
Proof.
  induction fuel as [|fuel IH]; intros limit c Hok Hlim Hf; [lia|]. cbn [evict_loop].
  destruct (limit <? bytes_held c) eqn:E; bool_to_prop.
  2: { exists c. split_and!; try done; [exists []; by rewrite app_nil_r|]. intros l1 l2 ->. by exists l2. }
  destruct Hok as (Hnd & Hlen & Hc & Hb & Hr).
  destruct (lru_pop_lru_spec (entries c)) as (Hv & He & Hcap).
  destruct (lru_pop_lru (entries c)) as [removed e]. cbn [fst snd] in *. subst removed.
  destruct (last (lru_iter (entries c))) as [kv|] eqn:El.
  2: { apply last_None in El. rewrite El in Hb. unfold total in Hb. simpl in Hb. lia. }
  apply removelast_last in El. set (l' := removelast (lru_iter (entries c))) in *.
  rewrite El in Hnd, Hlen, Hc, Hb, Hf. rewrite total_app in Hb. unfold total in Hb at 2. simpl in Hb.
  rewrite map_app in Hnd. apply NoDup_app in Hnd as (Hnd & _ & _).
  apply Forall_app in Hc as [Hc Hkv]. apply Forall_cons in Hkv as [Hkv _].
  rewrite length_app in Hlen, Hf. simpl in Hlen, Hf. pose proof (total_nonneg _ Hc) as Hn.
  cbn [release]. unfold checked_sub. rewrite checked_u64_in by (unfold in_u64; lia).
  cbn [mbind option_bind].
  destruct (IH limit (MkSized e (bytes_held c - cost kv) (max_bytes c))) as (c' & -> & Hok' & Hm & Hl & Hcp & Hd & Hkeep).
  - unfold sized_ok. cbn [entries bytes_held max_bytes]. rewrite He, Hcap. split_and!; done || lia.
  - done.
  - cbn [entries]. rewrite He. lia.
  - exists c'. cbn [entries bytes_held max_bytes] in *. rewrite Hcap in Hcp. split_and!; try done.
    + destruct Hd as [dropped Hd]. exists (dropped ++ [kv]). rewrite El, app_assoc. f_equal.
      by rewrite <- He.
    + intros l1 l2 Hl12 Ht. destruct l2 as [|x l2 _] using rev_ind.
      { rewrite app_nil_r in Hl12. rewrite Hl12 in El. rewrite El, total_app in Ht.
        unfold total in Ht at 2. simpl in Ht. lia. }
      rewrite El, app_assoc in Hl12. apply app_inj_2 in Hl12 as [Hl12 _]; [|done].
      apply (Hkeep l1 l2); [by rewrite He|done].
Qed.

Lemma evict_spec limit c :
  sized_ok c -> 0 <= limit ->
  exists c', evict limit c = Some c' /\ sized_ok c' /\ max_bytes c' = max_bytes c /\
    bytes_held c' <= limit /\ lru_cap (entries c') = lru_cap (entries c) /\
    (exists dropped, lru_iter (entries c) = lru_iter (entries c') ++ dropped) /\
    (forall l1 l2, lru_iter (entries c) = l1 ++ l2 -> total l1 <= limit ->
       exists l3, lru_iter (entries c') = l1 ++ l3).
Proof. intros. apply evict_loop_spec; [done..|lia]. Qed.

(** Pushing an absent key: the sum grows by its cost, less that of the entry
    that a full map evicts; the counter [bs], which may or may not hold the new
    cost already, changes by the evicted cost. *)
Lemma push_release_spec k v c bs :
  sized_ok c -> assoc k (lru_iter (entries c)) = None -> (0 < lru_cap (entries c))%nat ->
  0 <= cost (k, v) -> bytes_held c <= bs <= U64_MAX ->
  let '(removed, e) := lru_push k v (entries c) in
  exists c' kept dropped,
    release removed e (MkSized (entries c) bs (max_bytes c)) = Some c' /\
    lru_iter (entries c) = kept ++ dropped /\ lru_iter (entries c') = (k, v) :: kept /\
    bytes_held c' = bs - total dropped /\ max_bytes c' = max_bytes c /\
    lru_cap (entries c') = lru_cap (entries c) /\ (length kept < lru_cap (entries c))%nat /\
    (dropped = [] \/ S (length kept) = lru_cap (entries c)).
Proof.
  intros (Hnd & Hlen & Hc & Hb & Hr) Ha Hcap Hk Hbs.
  destruct (lru_push_spec k v (entries c)) as [Hp Hcap']. rewrite Ha in Hp.
  destruct (lru_push k v (entries c)) as [removed e]. cbn [fst snd] in *.
  destruct (length (lru_iter (entries c)) <? lru_cap (entries c))%nat eqn:E; bool_to_prop;
    destruct Hp as [-> He].
  - cbn [release]. eexists _, (lru_iter (entries c)), []. split; [done|].
    cbn [entries bytes_held max_bytes]. rewrite app_nil_r. split_and!; try done; [unfold total; simpl; lia|by left].
  - destruct (last (lru_iter (entries c))) as [kv|] eqn:El.
    2: { apply last_None in El. rewrite El in E. simpl in E. lia. }
    apply removelast_last in El. set (l' := removelast (lru_iter (entries c))) in *.
    rewrite El in Hlen, Hc, Hb, E. rewrite total_app in Hb. apply Forall_app in Hc as [Hc Hkv].
    pose proof (total_nonneg _ Hc) as Hn. pose proof (total_nonneg _ Hkv) as Hn'.
    assert (total [kv] = cost kv) as Hkv' by (unfold total; simpl; lia).
    rewrite length_app in Hlen, E. simpl in Hlen, E.
    cbn [release bytes_held max_bytes]. unfold checked_sub.
    rewrite checked_u64_in by (unfold in_u64; lia). cbn [mbind option_bind].
    eexists _, l', [kv]. split; [done|]. cbn [entries bytes_held max_bytes].
    split_and!; try done; try lia.
Qed.

Lemma pushed_ok k v c c' kept dropped :
  sized_ok c -> assoc k (lru_iter (entries c)) = None -> 0 <= cost (k, v) ->
  lru_iter (entries c) = kept ++ dropped -> lru_iter (entries c') = (k, v) :: kept ->
  lru_cap (entries c') = lru_cap (entries c) -> (length kept < lru_cap (entries c))%nat ->
  bytes_held c' = bytes_held c + cost (k, v) - total dropped -> bytes_held c' <= U64_MAX ->
  sized_ok c'.
Proof.
  intros (Hnd & Hlen & Hc & Hb & Hr) Ha Hk Hl He Hcap Hlt Hb' Hu. unfold sized_ok.
  rewrite He, Hcap. rewrite Hl in Hnd, Hc, Hb, Ha.
  rewrite map_app in Hnd. apply NoDup_app in Hnd as (Hnd & _ & _). apply Forall_app in Hc as [Hc _].
  apply assoc_None in Ha. rewrite map_app in Ha. apply not_elem_of_app in Ha as [Ha _].
  rewrite total_app in Hb. pose proof (total_nonneg _ Hc) as Hn.
  assert (total ((k, v) :: kept) = cost (k, v) + total kept) as Ht by done.
  split_and!.
  - apply NoDup_cons. by split.
  - simpl. lia.
  - by constructor.
  - lia.
  - lia.
  - done.
Qed.
End Cost.

(** ** [ByteCache] *)
Module ByteCache.
Section ByteCache.
Context {K V C : Type} `{Lru K (V * Z) C}.

Definition t : Type := Sized C.
Definition cost (e : K * (V * Z)) : Z := snd (snd e).

(** [NonZeroUsize::new(max_entries).unwrap()] panics on zero. *)
Definition new (max_entries : nat) (max_bytes : Z) : option t :=
  match max_entries with
  | O => None
  | _ => Some (MkSized (lru_new max_entries) 0 max_bytes)
  end.

Definition get (key : K) (c : t) : option V * t :=
  let '(v, e) := lru_get key (entries c) in
  (fst <$> v, MkSized e (bytes_held c) (max_bytes c)).

Definition fits (c : t) (bytes : Z) : bool := bytes <=? max_bytes c.

Definition remove (key : K) (c : t) : option t := sized_remove cost key c.

Definition insert (key : K) (value : V) (bytes : Z) (c : t) : option t :=
  c ← remove key c;
  if negb (fits c bytes) then Some c
  else
    limit ← checked_sub (max_bytes c) bytes;
    c ← evict cost limit c;
    let '(removed, e) := lru_push key (value, bytes) (entries c) in
    c ← release cost removed e c;
    b ← checked_add (bytes_held c) bytes;
    Some (MkSized (entries c) b (max_bytes c)).

Definition keys (c : t) : list K := map fst (lru_iter (entries c)).

(** A capacity is positive: [new] refuses zero. *)
Definition inv (c : t) : Prop := sized_inv cost c /\ (0 < lru_cap (entries c))%nat.

Lemma new_inv max_entries mb c :
  new max_entries mb = Some c -> in_u64 mb -> inv c.
Proof.
  unfold new. destruct max_entries as [|n]; [done|]. intros [= <-] [Hl Hu].
  destruct (lru_new_spec (S n)) as [He Hcap]; [lia|]. split; [split|].
  - unfold sized_ok. cbn [entries bytes_held]. rewrite He, Hcap.
    split_and!; simpl; try lia; constructor.
  - cbn. lia.
  - cbn. rewrite Hcap. lia.
Qed.

Lemma get_inv key c : inv c -> inv (snd (get key c)).
Proof.
  intros [[Hok Hm] Hcap]. unfold get.
  destruct (lru_get_spec key (entries c)) as (_ & He & Hcap').
  destruct (lru_get key (entries c)) as [v e]. cbn [fst snd] in *.
  split; [split; [|done]|cbn; lia]. apply (sized_ok_perm cost c e); [|done..]. rewrite He.
  destruct (assoc key (lru_iter (entries c))) as [v0|] eqn:Ha; [|done].
  symmetry. by apply without_perm.
Qed.

Lemma remove_inv key c :
  inv c -> exists c', remove key c = Some c' /\ inv c' /\ max_bytes c' = max_bytes c /\
    lru_iter (entries c') = without key (lru_iter (entries c)) /\
    lru_cap (entries c') = lru_cap (entries c).
Proof.
  intros [[Hok Hm] Hcap]. destruct (sized_remove_spec cost key c Hok) as (c' & Hr & Hok' & Hmx & Hb & Hi & Hc).
  exists c'. split; [done|]. unfold inv, sized_inv. rewrite Hmx, Hc. split_and!; done || lia.
Qed.

(** An insertion never overflows, underflows or loops, and it keeps the
    accounting exact and within both limits.  The old value of the key is always
    released; a payload larger than the whole budget is not kept; any other
    becomes the most recent entry, and behind it stays a prefix of the other
    entries by recency: everything recent that fits the budget and the entry
    limit, so only cold entries are evicted. *)
Theorem insert_spec key value bytes c :
  inv c -> 0 <= bytes ->
  exists c', insert key value bytes c = Some c' /\ inv c' /\ max_bytes c' = max_bytes c /\
    if fits c bytes then
      exists kept dropped,
        without key (lru_iter (entries c)) = kept ++ dropped /\
        lru_iter (entries c') = (key, (value, bytes)) :: kept /\
        forall l1 l2, without key (lru_iter (entries c)) = l1 ++ l2 ->
          total cost l1 + bytes <= max_bytes c -> (length l1 < lru_cap (entries c))%nat ->
          exists l3, kept = l1 ++ l3
    else lru_iter (entries c') = without key (lru_iter (entries c)).
Proof.
  intros Hinv Hbytes. unfold insert, fits.
  destruct (remove_inv key c Hinv) as (c1 & -> & [[Hok1 Hm1] Hcap1] & Hmx & Hi1 & Hcap). cbn [mbind option_bind].
  rewrite Hmx in *. destruct (Z.leb_spec bytes (max_bytes c)) as [Hfit|Hbig]; cbn [negb].
  2: { exists c1. split_and!; try done. unfold inv, sized_inv. by rewrite Hmx. }
  unfold checked_sub. rewrite checked_u64_in by (unfold in_u64; lia). cbn [mbind option_bind].
  destruct (evict_spec cost (max_bytes c - bytes) c1 Hok1 ltac:(lia))
    as (c2 & -> & Hok2 & Hmx2 & Hb2 & Hcap2 & [dropped1 Hd1] & Hkeep). cbn [mbind option_bind].
  assert (assoc key (lru_iter (entries c2)) = None) as Ha.
  { apply assoc_None. intros Hin. destruct Hinv as [[(Hnd & _) _] _].
    apply (without_gone key _ Hnd). rewrite <- Hi1, Hd1, map_app. apply elem_of_app. by left. }
  pose proof Hok2 as (Hnd2 & Hlen2 & Hc2 & Hbt2 & Hr2).
  pose proof (push_release_spec cost key (value, bytes) c2 (bytes_held c2)) as Hp.
  destruct (lru_push key (value, bytes) (entries c2)) as [removed e].
  destruct Hp as (c3 & kept & dropped & Hrel & Hl3 & Hi3 & Hb3 & Hmx3 & Hcap3 & Hlt & Hfull);
    [done|done|lia|done|lia|].
  replace (release cost removed e c2) with (Some c3) by (rewrite <- Hrel; by destruct c2).
  cbn [mbind option_bind]. rewrite Hl3 in Hc2, Hbt2. rewrite total_app in Hbt2.
  apply Forall_app in Hc2 as [Hck Hcd]. pose proof (total_nonneg _ _ Hck). pose proof (total_nonneg _ _ Hcd).
  unfold checked_add. rewrite checked_u64_in by (unfold in_u64; lia). cbn [mbind option_bind].
  eexists. split; [done|]. cbn [max_bytes entries]. split_and!; [|by rewrite Hmx3, Hmx2, Hmx|].
  - split; [split|]; cbn [bytes_held max_bytes entries].
    + eapply (pushed_ok cost key (value, bytes) c2 _ kept dropped); cbn [entries bytes_held];
        try done; try lia. unfold cost at 1. simpl. lia.
    + rewrite Hmx3, Hmx2, Hmx. lia.
    + lia.
  - exists kept, (dropped ++ dropped1). split_and!; [|done|].
    + by rewrite <- Hi1, Hd1, Hl3, app_assoc.
    + intros l1 l2 Hl1 Ht Hcapl. destruct (Hkeep l1 l2) as [l3 Hk3]; [by rewrite Hi1|lia|].
      exists (take (length kept - length l1) l3).
      assert (length l1 <= length kept)%nat as Hlk.
      { destruct Hfull as [-> |Hfull]; [|lia]. apply (f_equal length) in Hl3.
        rewrite Hk3, !length_app in Hl3. simpl in Hl3. lia. }
      transitivity (take (length kept) (l1 ++ l3)); [|by apply take_app_ge].
      by rewrite <- Hk3, Hl3, take_app_length.
Qed.
End ByteCache.

(** Three entries of four bytes against ten: the coldest one goes. *)
Definition example : option (@t (list (nat * (nat * Z)) * nat)) :=
  c ← new (K := nat) (V := nat) 8 10; c ← insert 1%nat 10%nat 4 c; insert 2%nat 20%nat 4 c.
Definition example_cache : @t (list (nat * (nat * Z)) * nat) :=
  MkSized ([(2%nat, (20%nat, 4)); (1%nat, (10%nat, 4))], 8%nat) 8 10.

Lemma insert_spec_witness :
  example = Some example_cache /\
  exists c', insert 3%nat 30%nat 4 example_cache = Some c' /\ max_bytes c' = 10 /\
    lru_iter (entries c') = [(3%nat, (30%nat, 4)); (2%nat, (20%nat, 4))].
Proof.
  split; [vm_compute; reflexivity|].
  assert (inv example_cache) as Hi.
  { unfold inv, sized_inv, sized_ok, U64_MAX. cbn. split_and!; try lia.
    all: try by (apply (bool_decide_unpack _); vm_compute).
    all: unfold total; cbn; lia. }
  destruct (insert_spec 3%nat 30%nat 4 example_cache Hi ltac:(lia)) as (c' & Hc & _ & Hm & _).
  exists c'. split; [exact Hc|]. split; [exact Hm|]. vm_compute in Hc. injection Hc as <-. reflexivity.
Defined.
End ByteCache.

(** ** [FileContentCache] *)
Module FileContentCache.

(** [FileStamp] on Unix; times are opaque to the cache, which compares them. *)
Record FileStamp := MkStamp {
  len : Z;
  modified : option Z;
  created : option Z;
  inode : Z;
  changed : Z * Z
}.
#[global] Instance stamp_eq_dec : EqDecision FileStamp.
Proof. solve_decision. Defined.

(** The content is kept as the bytes of its UTF-8. *)
Record CachedFileContent := MkContent {
  stamp : FileStamp;
  content_epoch : Z;
  content : list N;
  lines : list LineSpan
}.

(** What reading the metadata and the bytes of the open file answer. *)
Record OpenFile (E : Type) := MkOpenFile {
  of_stamp : Result E FileStamp;
  of_read : Result E (list N)
}.
Arguments MkOpenFile {E} _ _.
Arguments of_stamp {E} _.
Arguments of_read {E} _.

(** workspace_file.rs. *)
Definition lossy_string (bs : list N) : list N := to_string_lossy bs.

Section FileContentCache.
Context {C : Type} `{Lru path CachedFileContent C}.
(** [size_of::<CachedFileContent>()], which the compiler chooses. *)
Context (size_of_self : Z).

Definition t : Type := Sized C.

Definition MAX_CACHED_FILES : nat := 256.
Definition MAX_CACHED_BYTES : Z := 64 * 1024 * 1024.
Definition new (max_files : nat) (max_bytes : Z) : t := MkSized (lru_new max_files) 0 max_bytes.
Definition shared : t := new MAX_CACHED_FILES MAX_CACHED_BYTES.

(** [size_of_val] of the lines: two [usize]s each. *)
Definition bytes (e : path * CachedFileContent) : Z :=
  Z.of_nat (length (content (snd e))) + 16 * Z.of_nat (length (lines (snd e)))
  + Z.of_nat (length (fst e)) + size_of_self.

Definition remove (p : path) (c : t) : option t := sized_remove bytes p c.

Definition insert (p : path) (value : CachedFileContent) (c : t) : option t :=
  c ← remove p c;
  let cost := bytes (p, value) in
  if max_bytes c <? cost then Some c
  else
    b ← checked_add (bytes_held c) cost;
    let '(removed, e) := lru_push p value (entries c) in
    c ← release bytes removed e (MkSized (entries c) b (max_bytes c));
    evict bytes (max_bytes c) c.

(** The part of [read] under the first lock: the cached content when it is of
    this epoch and this stamp, else the cache without the path. *)
Definition lookup (p : path) (index_epoch : Z) (st : FileStamp) (c : t)
  : option (option CachedFileContent * t) :=
  let '(found, e) := lru_get p (entries c) in
  let c := MkSized e (bytes_held c) (max_bytes c) in
  match found with
  | Some value =>
    if decide (content_epoch value = index_epoch /\ stamp value = st)
    then Some (Some value, c)
    else c ← remove p c; Some (None, c)
  | None => c ← remove p c; Some (None, c)
  end.

(** [FileContentCache::read]: [others] is what other threads do to the shared
    cache while the file is read outside the lock. *)
Definition read {E} (opened : Result E (OpenFile E)) (p : path) (index_epoch : Z)
    (others : t -> t) (c : t) : option (Result E CachedFileContent * t) :=
  match opened with
  | Err error => c ← remove p c; Some (Err error, c)
  | Ok file =>
    match of_stamp file with
    | Err error => Some (Err error, c)
    | Ok st =>
      '(hit, c) ← lookup p index_epoch st c;
      match hit with
      | Some value => Some (Ok value, c)
      | None =>
        let c := others c in
        match of_read file with
        | Err error => Some (Err error, c)
        | Ok bs =>
          let content := lossy_string bs in
          let cached := MkContent st index_epoch content (line_spans content) in
          c ← insert p cached c; Some (Ok cached, c)
        end
      end
    end
  end.

(** The invariant: the accounting, room for one more entry before evicting
    (the limit is 64 MiB), and a property [P] of every cached entry. *)
Definition inv (P : path -> CachedFileContent -> Prop) (c : t) : Prop :=
  sized_inv bytes c /\ (0 < lru_cap (entries c))%nat /\ 2 * max_bytes c <= U64_MAX /\
  forall p v, (p, v) ∈ lru_iter (entries c) -> P p v.

(** The process-wide cache starts well within the bounds of the counter. *)
Lemma shared_inv P : inv P shared.
Proof.
  destruct (lru_new_spec MAX_CACHED_FILES) as [He Hcap]; [unfold MAX_CACHED_FILES; lia|].
  unfold inv, sized_inv, sized_ok, shared, new. cbn [entries bytes_held max_bytes].
  rewrite He, Hcap. unfold MAX_CACHED_BYTES, MAX_CACHED_FILES, U64_MAX.
  split_and!; try (cbn; lia); try constructor. intros p v Hin. by apply not_elem_of_nil in Hin.
Qed.

Lemma uncache_inv P p c :
  inv P c -> exists c', remove p c = Some c' /\ inv P c' /\ max_bytes c' = max_bytes c /\
    lru_iter (entries c') = without p (lru_iter (entries c)).
Proof.
  intros ([Hok Hm] & Hcap & Hu & HP).
  destruct (sized_remove_spec bytes p c Hok) as (c' & Hr & Hok' & Hmx & Hb & Hi & Hc).
  exists c'. split; [done|]. unfold inv, sized_inv. rewrite Hmx, Hc, Hi. split_and!; try done; try lia.
  intros q v Hin%without_elem. by apply HP.
Qed.

Lemma insert_inv P p value c :
  0 <= size_of_self -> inv P c -> P p value ->
  exists c', insert p value c = Some c' /\ inv P c' /\ max_bytes c' = max_bytes c /\
    if bytes (p, value) <=? max_bytes c
    then exists kept dropped, without p (lru_iter (entries c)) = kept ++ dropped /\
           lru_iter (entries c') = (p, value) :: kept
    else lru_iter (entries c') = without p (lru_iter (entries c)).
Proof.
  intros Hsize Hinv HPv. unfold insert. pose proof Hinv as ([Hok0 _] & _).
  destruct (uncache_inv P p c Hinv) as (c1 & -> & Hinv1 & Hmx & Hi1). cbn [mbind option_bind].
  pose proof Hinv1 as ([Hok1 Hm1] & Hcap1 & Hu & HP). rewrite Hmx in *.
  rewrite Z.leb_antisym. destruct (Z.ltb_spec (max_bytes c) (bytes (p, value))); cbn [negb].
  { by exists c1. }
  assert (0 <= bytes (p, value)) as Hpos by (unfold bytes; lia).
  pose proof Hok1 as (_ & _ & _ & _ & Hr1).
  unfold checked_add. rewrite checked_u64_in by (unfold in_u64; lia). cbn [mbind option_bind].
  assert (assoc p (lru_iter (entries c1)) = None) as Ha.
  { apply assoc_None. rewrite Hi1. apply without_gone. apply Hok0. }
  pose proof (push_release_spec bytes p value c1 (bytes_held c1 + bytes (p, value)) Hok1 Ha Hcap1
    Hpos ltac:(lia)) as Hp.
  destruct (lru_push p value (entries c1)) as [removed e].
  destruct Hp as (c2 & kept & dropped & Hrel & Hl2 & Hi2 & Hb2 & Hmx2 & Hcap2 & Hlt & _).
  rewrite Hmx in Hrel. rewrite Hrel. cbn [mbind option_bind].
  assert (0 <= total bytes dropped) as Hdr.
  { destruct Hok1 as (_ & _ & Hc & _). rewrite Hl2 in Hc. apply Forall_app in Hc as [_ Hc].
    by apply total_nonneg. }
  assert (sized_ok bytes c2) as Hok2.
  { eapply (pushed_ok bytes p value c1 c2 kept dropped); try done; lia. }
  rewrite Hmx2, Hmx. destruct (evict_spec bytes (max_bytes c) c2 Hok2 ltac:(lia))
    as (c3 & -> & Hok3 & Hmx3 & Hb3 & Hcap3 & [dropped3 Hd3] & Hkeep).
  rewrite Hmx2, Hmx in Hmx3.
  assert (total bytes [(p, value)] <= max_bytes c) as Hone by (unfold total; simpl; lia).
  destruct (Hkeep [(p, value)] kept Hi2 Hone) as [kept3 Hk3]. simpl in Hk3.
  assert (kept = kept3 ++ dropped3) as ->.
  { rewrite Hi2, Hk3 in Hd3. by injection Hd3. }
  exists c3. split; [done|]. split; [|split; [done|]].
  - unfold inv, sized_inv. rewrite Hmx3, Hcap3, Hcap2, Hk3. split_and!; try done; try lia.
    intros q v Hin. apply elem_of_cons in Hin as [[= -> ->]|Hin]; [done|]. apply HP.
    rewrite Hl2. apply elem_of_app. left. apply elem_of_app. by left.
  - exists kept3, (dropped3 ++ dropped). by rewrite <- Hi1, Hl2, app_assoc.
Qed.

Lemma lookup_inv P p ep st c :
  inv P c -> exists hit c', lookup p ep st c = Some (hit, c') /\ inv P c' /\
    match hit with
    | Some v => (p, v) ∈ lru_iter (entries c) /\ content_epoch v = ep /\ stamp v = st
    | None => p ∉ map fst (lru_iter (entries c'))
    end.
Proof.
  intros Hinv. pose proof Hinv as ([Hok [Hm1 Hm2]] & Hcap & Hu & HP).
  unfold lookup. destruct (lru_get_spec p (entries c)) as (Hf & He & Hcap').
  destruct (lru_get p (entries c)) as [found e]. cbn [fst snd] in *. subst found.
  set (c1 := MkSized e (bytes_held c) (max_bytes c)).
  assert (lru_iter (entries c1) ≡ₚ lru_iter (entries c)) as Hperm.
  { unfold c1. cbn. rewrite He. destruct (assoc p (lru_iter (entries c))) as [v|] eqn:Ha; [|done].
    symmetry. by apply without_perm. }
  assert (inv P c1) as Hinv1.
  { split; [split; [by apply sized_ok_perm|done]|]. split; [cbn; lia|]. split; [done|].
    intros q v Hin. apply HP. by eapply elem_of_Permutation_proper in Hperm; apply Hperm. }
  destruct (uncache_inv P p c1 Hinv1) as (c2 & Hrm & Hinv2 & _ & Hi2).
  assert (p ∉ map fst (lru_iter (entries c2))) as Hgone.
  { rewrite Hi2. apply without_gone. apply Hinv1. }
  destruct (assoc p (lru_iter (entries c))) as [v|] eqn:Ha.
  - case_decide as Hd; [|rewrite Hrm; by exists None, c2]. destruct Hd. exists (Some v), c1.
    split_and!; try done. by apply assoc_In.
  - rewrite Hrm. by exists None, c2.
Qed.

(** Reading through the cache never overflows or loops and keeps the cache
    exact and bounded, whatever the other threads do to it while the file is
    read (they keep the invariant).  A content it returns is either a fresh
    decoding of the file that was opened, or an entry that was cached under this
    path with this index epoch and the very stamp the opened file has; a file
    that cannot be opened, or whose stamp moved, leaves no stale entry. *)
Theorem read_spec {E} P (opened : Result E (OpenFile E)) p index_epoch others c :
  0 <= size_of_self -> inv P c -> (forall c, inv P c -> inv P (others c)) ->
  (forall file st bs, opened = Ok file -> of_stamp file = Ok st -> of_read file = Ok bs ->
     P p (MkContent st index_epoch (lossy_string bs) (line_spans (lossy_string bs)))) ->
  exists r c', read opened p index_epoch others c = Some (r, c') /\ inv P c' /\
    match opened with
    | Err e => r = Err e /\ p ∉ map fst (lru_iter (entries c'))
    | Ok file =>
      match of_stamp file with
      | Err e => r = Err e
      | Ok st =>
        match r with
        | Ok v => stamp v = st /\ content_epoch v = index_epoch /\ P p v /\
            ((p, v) ∈ lru_iter (entries c) \/
             exists bs, of_read file = Ok bs /\ content v = lossy_string bs /\
               lines v = line_spans (content v))
        | Err e => of_read file = Err e
        end
      end
    end.
Proof.
  intros Hsize Hinv Hoth HP. unfold read. destruct opened as [file|e].
  2: { destruct (uncache_inv P p c Hinv) as (c' & -> & Hinv' & _ & Hi). cbn [mbind option_bind].
       exists (Err e), c'. split_and!; try done. rewrite Hi. apply without_gone. apply Hinv. }
  destruct (of_stamp file) as [st|e] eqn:Est; [|by exists (Err e), c].
  destruct (lookup_inv P p index_epoch st c Hinv) as (hit & c1 & -> & Hinv1 & Hhit).
  cbn [mbind option_bind]. destruct hit as [v|].
  { destruct Hhit as (Hin & ? & ?). exists (Ok v), c1. split_and!; try done; [|by left].
    by apply Hinv. }
  destruct (of_read file) as [bs|e] eqn:Ebs; [|exists (Err e), (others c1); auto].
  set (cached := MkContent st index_epoch (lossy_string bs) (line_spans (lossy_string bs))).
  destruct (insert_inv P p cached (others c1) Hsize (Hoth _ Hinv1) (HP file st bs eq_refl Est Ebs))
    as (c2 & -> & Hinv2 & _). cbn [mbind option_bind].
  exists (Ok cached), c2. split_and!; try done; [by eapply HP|]. right. by exists bs.
Qed.
End FileContentCache.

Definition example_stamp : FileStamp := MkStamp 3 None None 1 (7, 0).
Definition example_file : OpenFile unit := MkOpenFile (Ok example_stamp) (Ok (lit "abc")).
Definition example_cache : Sized (list (path * CachedFileContent) * nat) :=
  MkSized ([], 2%nat) 0 1000.

Lemma read_spec_witness :
  exists v c', read 8 (Ok example_file) (lit "a") 5 (fun c => c)
                 example_cache = Some (Ok v, c') /\ content v = lit "abc".
Proof.
  assert (inv 8 (fun _ _ => True) example_cache) as Hi.
  { unfold inv, sized_inv, sized_ok, U64_MAX. cbn. split_and!; try lia; try done; constructor. }
  destruct (read_spec 8 (fun _ _ => True) (Ok example_file) (lit "a") 5
    (fun c => c) example_cache ltac:(lia) Hi (fun c Hc => Hc) (fun _ _ _ _ _ _ => I))
    as (r & c' & Hr & _ & Hs). cbn in Hs. destruct r as [v|e]; [|discriminate Hs].
  exists v, c'. split; [exact Hr|]. vm_compute in Hr. injection Hr as <- _. reflexivity.
Defined.
End FileContentCache.
