(* ===== verification/Jobs.v ===== *)
(** * The job ledger: jobs.rs.

  Background work of a workspace (watching, indexing, enhancing) is recorded
  in one ledger file.  Every change reads the file, edits the ledger and renames
  a new file into place under a file lock, so a change is one atomic step; the
  steps of all processes interleave.  The lock, the read and the write of a step
  may fail, and an edit that cannot read the ledger starts from an empty one.  A worker proves that the record is still
  its own by the nonce it was started with. *)
From S2P Require Import Prelude Utf8 BTree Decimal.
Local Open Scope Z_scope.

Inductive JobKind := Watcher | Indexing | Enhancement.
#[global] Instance job_kind_eq_dec : EqDecision JobKind.
Proof. solve_decision. Defined.

Definition as_str (kind : JobKind) : str :=
  match kind with
  | Watcher => lit "watcher"
  | Indexing => lit "indexing"
  | Enhancement => lit "enhancement"
  end.

Definition WATCHER_HEARTBEAT_TTL_SECS : Z := 15.
Definition INDEXING_HEARTBEAT_TTL_SECS : Z := 20.
Definition ENHANCEMENT_HEARTBEAT_TTL_SECS : Z := 20.

Record JobRecord := MkJob {
  kind : JobKind;
  pid : option Z;
  pid_start_time : option str;
  nonce : option str;
  generation : Z;
  started_at_unix : option Z;
  heartbeat_at_unix : option Z;
  phase : str;
  attempt : Z;
  last_error : option str;
  details : list (str * str);
  active : bool
}.

Definition JobLedger : Type := list JobRecord.

(** [JobLedger::get], [contains] and [upsert]. *)
Definition get (k : JobKind) (ledger : JobLedger) : option JobRecord :=
  List.find (fun job => bool_decide (kind job = k)) ledger.
Definition contains_kind (k : JobKind) (ledger : JobLedger) : bool := is_some (get k ledger).

Fixpoint upsert (record : JobRecord) (ledger : JobLedger) : JobLedger :=
  match ledger with
  | [] => [record]
  | job :: jobs =>
    if bool_decide (kind job = kind record) then record :: jobs else job :: upsert record jobs
  end.

Record JobUpdate := MkUpdate {
  u_phase : option str;
  u_last_error : option (option str);
  u_details : list (str * str);
  u_active : option bool
}.

(** What a process knows of itself when it writes: its id and start time, a
    fresh UUID and the clock. *)
Record Env := MkEnv {
  env_pid : Z;
  env_start_time : option str;
  env_uuid : str;
  env_now : Z
}.

(** [u64] addition as the release build computes it. *)
Definition wrapping_add (a b : Z) : Z := (a + b) mod 2 ^ 64.

(** ** The ledger edits *)

Definition start_record (k : JobKind) (ph : str) (att : Z) (env : Env) (ledger : JobLedger)
  : JobRecord :=
  let gen := match get k ledger with Some job => wrapping_add (generation job) 1 | None => 1 end in
  let dets := match get k ledger with Some job => details job | None => [] end in
  MkJob k (Some (env_pid env)) (env_start_time env) (Some (env_uuid env)) gen
    (Some (env_now env)) (Some (env_now env)) ph att None
    (bt_insert (lit "last_started_at_unix") (format_int (env_now env)) dets) true.

Definition start_job (k : JobKind) (ph : str) (att : Z) (env : Env) (ledger : JobLedger)
  : JobRecord * JobLedger :=
  let record := start_record k ph att env ledger in (record, upsert record ledger).

Definition apply_heartbeat_update (r : JobRecord) (u : JobUpdate) (now : Z) : JobRecord :=
  MkJob (kind r) (pid r) (pid_start_time r) (nonce r) (generation r) (started_at_unix r)
    (Some now) (unwrap_or (phase r) (u_phase u)) (attempt r)
    (unwrap_or (last_error r) (u_last_error u))
    (foldl (fun d kv => bt_insert (fst kv) (snd kv) d) (details r) (u_details u))
    (unwrap_or (active r) (u_active u)).

Definition heartbeat_job (k : JobKind) (u : JobUpdate) (env : Env) (ledger : JobLedger)
  : JobRecord * JobLedger :=
  let record :=
    unwrap_or (MkJob k (Some (env_pid env)) (env_start_time env) (Some (env_uuid env)) 1
                 (Some (env_now env)) (Some (env_now env)) [] 1 None [] true)
      (get k ledger) in
  let record := apply_heartbeat_update record u (env_now env) in
  (record, upsert record ledger).

(** The record of a kind, if its nonce is the expected one. *)
Definition current (k : JobKind) (expected_nonce : str) (ledger : JobLedger) : option JobRecord :=
  record ← get k ledger;
  if decide (nonce record = Some expected_nonce) then Some record else None.

Definition heartbeat_job_if_current (k : JobKind) (expected_nonce : str) (u : JobUpdate) (now : Z)
    (ledger : JobLedger) : option JobRecord * JobLedger :=
  match current k expected_nonce ledger with
  | Some record =>
    let record := apply_heartbeat_update record u now in (Some record, upsert record ledger)
  | None => (None, ledger)
  end.

Definition finish_record (r : JobRecord) (ph : str) (err : option str) (now : Z) : JobRecord :=
  MkJob (kind r) None None None (generation r) (started_at_unix r) (Some now) ph (attempt r) err
    (details r) false.

Definition finish_job (k : JobKind) (ph : str) (err : option str) (now : Z) (ledger : JobLedger)
  : JobRecord * JobLedger :=
  let record :=
    unwrap_or (MkJob k None None None 1 (Some now) (Some now) [] 1 None [] false) (get k ledger) in
  let record := finish_record record ph err now in
  (record, upsert record ledger).

Definition finish_job_if_current (k : JobKind) (expected_nonce : str) (ph : str)
    (err : option str) (now : Z) (ledger : JobLedger) : option JobRecord * JobLedger :=
  match current k expected_nonce ledger with
  | Some record =>
    let record := finish_record record ph err now in (Some record, upsert record ledger)
  | None => (None, ledger)
  end.

(** ** The ledger file *)

(** [None] is a file that is missing or does not parse. *)
Definition LedgerFile : Type := option JobLedger.

(** [read_ok] is false when [fs::read] fails on the file that is there. *)
Definition read_job_ledger (read_ok : bool) (file : LedgerFile) : JobLedger :=
  if read_ok then unwrap_or [] file else [].

Inductive LedgerError := LockFailed | WriteFailed.

(** Which of the three fallible steps succeed; a failed write leaves the old
    file, since the new one is renamed into place. *)
Record LedgerIo := MkIo { lock_ok : bool; read_ok : bool; write_ok : bool }.

Definition update_job {T} (io : LedgerIo) (updater : JobLedger -> T * JobLedger) (file : LedgerFile)
  : Result LedgerError T * LedgerFile :=
  if lock_ok io then
    let '(record, ledger) := updater (read_job_ledger (read_ok io) file) in
    if write_ok io then (Ok record, Some ledger) else (Err WriteFailed, file)
  else (Err LockFailed, file).

(** ** Interleavings *)

Inductive Op :=
| OpStart (k : JobKind) (ph : str) (att : Z) (env : Env)
| OpHeartbeat (k : JobKind) (u : JobUpdate) (env : Env)
| OpHeartbeatIfCurrent (k : JobKind) (n : str) (u : JobUpdate) (now : Z)
| OpFinish (k : JobKind) (ph : str) (err : option str) (now : Z)
| OpFinishIfCurrent (k : JobKind) (n : str) (ph : str) (err : option str) (now : Z).

Definition op_kind (op : Op) : JobKind :=
  match op with
  | OpStart k _ _ _ | OpHeartbeat k _ _ | OpHeartbeatIfCurrent k _ _ _
  | OpFinish k _ _ _ | OpFinishIfCurrent k _ _ _ _ => k
  end.

Definition edit (op : Op) (ledger : JobLedger) : JobLedger :=
  match op with
  | OpStart k ph att env => snd (start_job k ph att env ledger)
  | OpHeartbeat k u env => snd (heartbeat_job k u env ledger)
  | OpHeartbeatIfCurrent k n u now => snd (heartbeat_job_if_current k n u now ledger)
  | OpFinish k ph err now => snd (finish_job k ph err now ledger)
  | OpFinishIfCurrent k n ph err now => snd (finish_job_if_current k n ph err now ledger)
  end.

(** One step of one process: an edit under the lock, or a failed attempt. *)
Definition step (file : LedgerFile) (s : LedgerIo * Op) : LedgerFile :=
  snd (update_job (fst s) (fun ledger => (tt, edit (snd s) ledger)) file).

(** ** Status *)

Record JobStatus := MkStatus {
  record : option JobRecord;
  process_alive : bool;
  heartbeat_stale : bool;
  stalled : bool
}.

Definition status_active (s : JobStatus) : bool :=
  match record s with
  | Some r => active r && process_alive s && negb (heartbeat_stale s)
  | None => false
  end.

(** [alive] is [process_is_alive]. *)
Definition job_status_at (alive : Z -> option str -> bool) (ledger : JobLedger) (k : JobKind)
    (ttl_secs observed_at_unix : Z) : JobStatus :=
  match get k ledger with
  | None => MkStatus None false false false
  | Some r =>
    let process_alive :=
      match pid r with Some p => alive p (pid_start_time r) | None => false end in
    let heartbeat_stale :=
      match heartbeat_at_unix r with
      | Some ts => ttl_secs <? saturating_sub observed_at_unix ts
      | None => false
      end in
    MkStatus (Some r) process_alive heartbeat_stale
      (active r && (negb process_alive || heartbeat_stale))
  end.

(** ** Process liveness and its cache *)

Definition VERIFIED_PROCESS_TTL : Z := 30 * 1000000000.

(** Pid to the start time that was verified and the instant of that, in
    nanoseconds of a monotonic clock. *)
Definition VerifiedProcesses : Type := gmap Z (str * Z).

(** [pid as i32]. *)
Definition as_i32 (x : Z) : Z := (x + 2 ^ 31) mod 2 ^ 32 - 2 ^ 31.

Definition fresh (now : Z) (v : str * Z) : bool := now - snd v <? VERIFIED_PROCESS_TTL.

Definition process_identity_verified (cache : VerifiedProcesses) (now p : Z) (expected : str)
  : bool :=
  match cache !! p with
  | Some (token, verified_at) => bool_decide (token = expected) && fresh now (token, verified_at)
  | None => false
  end.

Definition remember_verified_process (cache : VerifiedProcesses) (now p : Z) (start_time : str)
  : VerifiedProcesses :=
  let cache :=
    if (1024 <=? size cache)%nat then filter (fun kv => fresh now (snd kv) = true) cache
    else cache in
  <[p := (start_time, now)]> cache.

Definition forget_verified_process (cache : VerifiedProcesses) (p : Z) : VerifiedProcesses :=
  delete p cache.

Section Liveness.
(** What the system answers at an instant: [kill(pid, 0) == 0], and the start
    time it reports for a process ([process_start_time_token]). *)
Context (kill_ok : Z -> Z -> bool).
Context (start_time_token : Z -> Z -> option str).

Definition process_is_alive (now : Z) (p : Z) (expected_start_time : option str)
    (cache : VerifiedProcesses) : bool * VerifiedProcesses :=
  if negb (kill_ok now (as_i32 p)) then (false, forget_verified_process cache p)
  else
    match expected_start_time with
    | Some expected =>
      if process_identity_verified cache now p expected then (true, cache)
      else
        match start_time_token now p with
        | Some actual =>
          if decide (actual = expected)
          then (true, remember_verified_process cache now p expected)
          else (false, cache)
        | None => (true, cache)
        end
    | None => (true, cache)
    end.
End Liveness.

(** * The job ledger: one record per kind, ownership by nonce, status and
    process identity. *)

(** ** The ledger as a map *)

Lemma get_kind k l r : get k l = Some r -> kind r = k.
Proof. intros Hf. apply List.find_some in Hf as [_ Hf]. by apply bool_decide_eq_true in Hf. Qed.

Lemma get_upsert r l k :
  get k (upsert r l) = if decide (kind r = k) then Some r else get k l.
Proof.
  unfold get. induction l as [|j l IH]; simpl.
  - case_decide as Hk; [by rewrite bool_decide_true|by rewrite bool_decide_false].
  - destruct (bool_decide_reflect (kind j = kind r)) as [He|Hne]; simpl.
    + case_decide as Hk; [by rewrite bool_decide_true|]. rewrite !bool_decide_false; [done|congruence|done].
    + destruct (bool_decide_reflect (kind j = k)) as [Hj|Hj]; [|done].
      rewrite decide_False; [done|congruence].
Qed.

Lemma upsert_kinds r l x : x ∈ map kind (upsert r l) -> x = kind r \/ x ∈ map kind l.
Proof.
  induction l as [|j l IH]; simpl; [set_solver|]. case_bool_decide; simpl; set_solver.
Qed.

Lemma upsert_NoDup r l : NoDup (map kind l) -> NoDup (map kind (upsert r l)).
Proof.
  induction l as [|j l IH]; simpl; intros Hnd.
  - apply NoDup_cons. split; [apply not_elem_of_nil|constructor].
  - apply NoDup_cons in Hnd as [Hni Hnd]. destruct (bool_decide_reflect (kind j = kind r)) as [He|Hne]; simpl.
    + rewrite <- He. by apply NoDup_cons.
    + apply NoDup_cons. split; [|by apply IH]. intros [|]%upsert_kinds; [congruence|done].
Qed.

(** Every edit is an upsert of one record of its kind, or nothing. *)
Lemma edit_upsert op l :
  (exists r, edit op l = upsert r l /\ kind r = op_kind op) \/ edit op l = l.
Proof.
  assert (forall k r0, kind r0 = k -> kind (unwrap_or r0 (get k l)) = k) as Hu.
  { intros k r0 Hr0. destruct (get k l) as [r|] eqn:E; [by apply get_kind in E|done]. }
  destruct op as [k ph att env|k u env|k n u now|k ph err now|k n ph err now]; simpl.
  - left. by eexists.
  - left. eexists. split; [done|]. simpl. by apply Hu.
  - unfold heartbeat_job_if_current, current. destruct (get k l) as [r|] eqn:E; simpl; [|by right].
    case_decide; [|by right]. left. eexists. split; [done|]. simpl. by apply get_kind in E.
  - left. eexists. split; [done|]. simpl. by apply Hu.
  - unfold finish_job_if_current, current. destruct (get k l) as [r|] eqn:E; simpl; [|by right].
    case_decide; [|by right]. left. eexists. split; [done|]. simpl. by apply get_kind in E.
Qed.

(** The ledger a later read finds. *)
Abbreviation contents := (read_job_ledger true).

(** An edit that could not read the ledger and wrote its own on an empty one. *)
Definition erases (s : LedgerIo * Op) : bool :=
  lock_ok (fst s) && negb (read_ok (fst s)) && write_ok (fst s).

(** A step is an edit of the ledger in the file, leaves the file as it is, or
    starts from an empty ledger. *)
Lemma step_cases file s :
  if erases s then step file s = Some (edit (snd s) [])
  else step file s = file \/ step file s = Some (edit (snd s) (contents file)).
Proof.
  destruct s as [[[] [] []] op]; unfold step, update_job, erases; simpl; auto.
Qed.

Lemma edit_other op l k : k <> op_kind op -> get k (edit op l) = get k l.
Proof.
  intros Hne. destruct (edit_upsert op l) as [(r & -> & Hr)| ->]; [|done].
  rewrite get_upsert, decide_False; [done|congruence].
Qed.

(** What a step of another kind leaves of the record of kind [k]. *)
Lemma step_other file s k :
  op_kind (snd s) <> k ->
  get k (contents (step file s)) = if erases s then None else get k (contents file).
Proof.
  intros Hk. pose proof (step_cases file s) as Hs. destruct (erases s).
  - rewrite Hs. cbn [read_job_ledger unwrap_or]. by rewrite edit_other.
  - destruct Hs as [-> | ->]; [done|]. cbn [read_job_ledger unwrap_or]. by rewrite edit_other.
Qed.

Lemma step_NoDup file s :
  NoDup (map kind (contents file)) -> NoDup (map kind (contents (step file s))).
Proof.
  intros Hnd. assert (forall l, NoDup (map kind l) -> NoDup (map kind (edit (snd s) l))) as He.
  { intros l Hl. destruct (edit_upsert (snd s) l) as [(r & -> & _)| ->]; [|done].
    by apply upsert_NoDup. }
  pose proof (step_cases file s) as Hs. destruct (erases s).
  - rewrite Hs. apply He. constructor.
  - destruct Hs as [-> | ->]; [done|]. by apply He.
Qed.

(** However the processes' edits interleave, and whichever of them fail, the
    ledger keeps one record per kind, and edits of one kind leave the records of
    the other kinds alone, unless one of them could not read the ledger: it then
    writes one that holds its own record only. *)
Theorem ledger_one_record_per_kind (file : LedgerFile) (steps : list (LedgerIo * Op)) (k : JobKind) :
  NoDup (map kind (contents file)) ->
  let file' := foldl step file steps in
  NoDup (map kind (contents file')) /\
  (Forall (fun s => op_kind (snd s) <> k) steps ->
   get k (contents file') = if existsb erases steps then None else get k (contents file)).
Proof.
  revert file. induction steps as [|s steps IH]; intros file Hnd; [done|]. cbn [foldl existsb].
  destruct (IH (step file s) (step_NoDup file s Hnd)) as [H1 H2]. split; [done|].
  intros [Hk Hf]%Forall_cons. rewrite H2, step_other by done. by destruct (erases s), (existsb _ _).
Qed.

Definition env_a : Env := MkEnv 10 (Some (lit "s1")) (lit "nonce-a") 100.
Definition env_b : Env := MkEnv 20 (Some (lit "s2")) (lit "nonce-b") 200.
Definition all_ok : LedgerIo := MkIo true true true.
Definition ledger_example : LedgerFile :=
  foldl step None [(all_ok, OpStart Indexing (lit "scan") 1 env_a);
                   (all_ok, OpStart Watcher (lit "watch") 1 env_a)].

Lemma ledger_one_record_per_kind_witness :
  get Watcher (contents (foldl step ledger_example [(all_ok, OpStart Indexing [] 2 env_b)]))
  = get Watcher (contents ledger_example).
Proof.
  apply (ledger_one_record_per_kind ledger_example [(all_ok, OpStart Indexing [] 2 env_b)] Watcher).
  - vm_compute. apply (bool_decide_unpack _). vm_compute. exact I.
  - constructor; [discriminate|constructor].
Defined.

(** ** Ownership *)

(** A guarded edit by somebody whose nonce is not [n]. *)
Definition late (n : str) (op : Op) : Prop :=
  match op with
  | OpHeartbeatIfCurrent _ n' _ _ | OpFinishIfCurrent _ n' _ _ _ => n' <> n
  | _ => False
  end.

Lemma late_edit n op l r :
  get (op_kind op) l = Some r -> nonce r = Some n -> late n op -> edit op l = l.
Proof.
  intros Hg Hn Hl.
  destruct op as [|k u env|k n' u now|k ph err now|k n' ph err now]; simpl in *; try done.
  - unfold heartbeat_job_if_current, current. rewrite Hg. cbn [mbind option_bind].
    rewrite decide_False; [done|congruence].
  - unfold finish_job_if_current, current. rewrite Hg. cbn [mbind option_bind].
    rewrite decide_False; [done|congruence].
Qed.

(** A late edit of a kind whose record is the worker's, or is gone. *)
Lemma late_step n r file s :
  nonce r = Some n -> late n (snd s) ->
  get (op_kind (snd s)) (contents file) ∈ [None; Some r] ->
  get (op_kind (snd s)) (contents (step file s)) =
    if erases s then None else get (op_kind (snd s)) (contents file).
Proof.
  intros Hn Hl Hg.
  assert (forall l, get (op_kind (snd s)) l = None -> edit (snd s) l = l) as Hnone.
  { intros l El. destruct (snd s); simpl in *; try done;
      unfold heartbeat_job_if_current, finish_job_if_current, current; by rewrite El. }
  pose proof (step_cases file s) as Hs. destruct (erases s).
  - rewrite Hs, Hnone by done. done.
  - destruct Hs as [-> | ->]; [done|]. cbn [read_job_ledger unwrap_or].
    apply elem_of_cons in Hg as [Hg|Hg%list_elem_of_singleton]; [by rewrite Hnone|].
    by rewrite (late_edit n _ _ r).
Qed.

(** C39. A worker that was replaced can no longer write: once a start has put its
    own nonce into the record of a kind, heartbeats and finishes that carry other
    nonces, interleaved with anything on other kinds and with locks and writes
    that fail, leave exactly the record the start wrote, active and with the
    generation after the one it read.  The one way to lose it is an edit, of
    whichever kind, that gets the lock but cannot read the ledger and then
    replaces it: from then on there is no record, and still none of the replaced
    worker's. *)
Theorem replaced_worker_cannot_write (file : LedgerFile) readable k ph att env steps :
  Forall (fun s => op_kind (snd s) = k -> late (env_uuid env) (snd s)) steps ->
  let seen := read_job_ledger readable file in
  let record := start_record k ph att env seen in
  let started := step file (MkIo true readable true, OpStart k ph att env) in
  get k (contents (foldl step started steps)) =
    (if existsb erases steps then None else Some record) /\
  active record = true /\
  generation record =
    match get k seen with
    | Some old => wrapping_add (generation old) 1
    | None => 1
    end.
Proof.
  intros Hs seen record started. split; [|done].
  assert (get k (contents started) = Some record) as Hg.
  { unfold started, step, update_job. cbn [fst snd lock_ok read_ok write_ok edit start_job].
    cbn [read_job_ledger unwrap_or]. rewrite get_upsert. by rewrite decide_True. }
  clearbody started. enough (get k (contents started) ∈ [None; Some record] ->
    get k (contents (foldl step started steps)) =
      if existsb erases steps then None else get k (contents started)) as Hend.
  { rewrite Hend, Hg; [done|]. rewrite Hg. right. by left. }
  clear Hg. revert started. induction steps as [|s steps IH]; intros cur Hg; [done|].
  apply Forall_cons in Hs as [Hk Hs]. cbn [foldl existsb].
  assert (get k (contents (step cur s)) = if erases s then None else get k (contents cur)) as Hstep.
  { destruct (decide (op_kind (snd s) = k)) as [He|Hne]; [|by apply step_other].
    rewrite <- He. apply (late_step (env_uuid env) record); [done|auto|by rewrite He]. }
  rewrite IH; [|done|rewrite Hstep; destruct (erases s); [by left|done]].
  rewrite Hstep. by destruct (erases s), (existsb _ _).
Qed.

Lemma replaced_worker_cannot_write_witness :
  get Indexing (contents (foldl step
    (step ledger_example (all_ok, OpStart Indexing (lit "scan") 2 env_b))
    [(all_ok, OpFinishIfCurrent Indexing (lit "nonce-a") (lit "done") None 300);
     (all_ok, OpHeartbeat Watcher (MkUpdate None None [] None) env_a);
     (MkIo true false false, OpHeartbeat Watcher (MkUpdate None None [] None) env_a)]))
  = Some (start_record Indexing (lit "scan") 2 env_b (contents ledger_example)).
Proof.
  apply (replaced_worker_cannot_write ledger_example true Indexing (lit "scan") 2 env_b).
  repeat constructor; intros Hk; try discriminate Hk; simpl; discriminate.
Defined.

(** A heartbeat of the watcher whose read of the intact ledger fails erases the
    record of the indexing job that runs. *)
Lemma unreadable_ledger_erased :
  is_some (get Indexing (contents ledger_example)) = true /\
  get Indexing (contents (step ledger_example
    (MkIo true false true, OpHeartbeat Watcher (MkUpdate None None [] None) env_a))) = None.
Proof. split; vm_compute; reflexivity. Qed.

(** The owner of a record can: a guarded heartbeat with its nonce returns and
    stores the record with the new heartbeat and the requested changes, and the
    same process, nonce, generation and start; a guarded finish deactivates the
    record and clears the process and the nonce, after which no guarded edit of
    that kind succeeds until the next start. *)
Theorem owner_writes (l : JobLedger) k n r u ph err now :
  get k l = Some r -> nonce r = Some n ->
  (let '(res, l') := heartbeat_job_if_current k n u now l in
   exists r', res = Some r' /\ get k l' = Some r' /\ heartbeat_at_unix r' = Some now /\
     pid r' = pid r /\ pid_start_time r' = pid_start_time r /\ nonce r' = nonce r /\
     generation r' = generation r /\ started_at_unix r' = started_at_unix r) /\
  (let '(res, l') := finish_job_if_current k n ph err now l in
   exists r', res = Some r' /\ get k l' = Some r' /\ active r' = false /\ pid r' = None /\
     nonce r' = None /\ phase r' = ph /\ last_error r' = err /\ generation r' = generation r /\
     forall n' u' ph' err' now',
       heartbeat_job_if_current k n' u' now' l' = (None, l') /\
       finish_job_if_current k n' ph' err' now' l' = (None, l')).
Proof.
  intros Hg Hn. unfold heartbeat_job_if_current, finish_job_if_current, current.
  rewrite Hg. cbn [mbind option_bind]. rewrite decide_True by done.
  pose proof (get_kind k l r Hg) as Hk. split.
  - eexists. split; [done|]. rewrite get_upsert, decide_True by done. done.
  - eexists. split; [done|]. rewrite get_upsert, decide_True by done. split_and!; try done.
Qed.

Lemma owner_writes_witness :
  exists r', fst (finish_job_if_current Indexing (lit "nonce-a") (lit "done") None 300
                    (contents ledger_example)) = Some r' /\ active r' = false.
Proof.
  assert (exists r, get Indexing (contents ledger_example) = Some r /\
                    nonce r = Some (lit "nonce-a")) as (r & Hg & Hn).
  { eexists. split; vm_compute; reflexivity. }
  pose proof (owner_writes (contents ledger_example) Indexing (lit "nonce-a") r
    (MkUpdate None None [] None) (lit "done") None 300 Hg Hn) as [_ Hf].
  destruct (finish_job_if_current _ _ _ _ _ _) as [res l'].
  destruct Hf as (r' & -> & _ & Ha & _). exists r'. split; [reflexivity|exact Ha].
Defined.

(** ** Status *)

(** A job is reported active exactly when its record is active, its process
    is alive and its heartbeat is not older than the limit; an active record that
    fails either test is reported stalled, so the two never hold together and
    every active record is one of them.  A heartbeat from the future is not
    stale: the age saturates at zero. *)
Theorem job_status_spec alive (l : JobLedger) k ttl now :
  0 <= ttl ->
  let s := job_status_at alive l k ttl now in
  match get k l with
  | None => status_active s = false /\ stalled s = false
  | Some r =>
    let live := match pid r with Some p => alive p (pid_start_time r) | None => false end in
    (status_active s = true <->
       active r = true /\ live = true /\
       forall ts, heartbeat_at_unix r = Some ts -> now - ts <= ttl) /\
    (stalled s = true <-> active r = true /\ status_active s = false) /\
    (forall ts, heartbeat_at_unix r = Some ts -> now <= ts -> heartbeat_stale s = false)
  end.
Proof.
  intros Httl. unfold job_status_at. destruct (get k l) as [r|]; [|done].
  unfold status_active. cbn [record Jobs.process_alive heartbeat_stale stalled].
  set (live := match pid r with Some p => alive p (pid_start_time r) | None => false end).
  assert (forall ts, (ttl <? saturating_sub now ts) = false <-> now - ts <= ttl) as Hs.
  { intros ts. unfold saturating_sub. rewrite Z.ltb_ge. lia. }
  destruct (heartbeat_at_unix r) as [ts|]; split_and!.
  - rewrite !andb_true_iff, negb_true_iff, Hs. split.
    + intros [[Ha Hl] Ht]. split_and!; [done..|]. by intros ts' [= <-].
    + intros (Ha & Hl & Ht). by split_and!; [..|apply Ht].
  - destruct (active r), live, (ttl <? saturating_sub now ts); simpl; intuition discriminate.
  - intros ts' [= <-] Hle. apply Hs. lia.
  - rewrite !andb_true_iff. intuition discriminate.
  - destruct (active r), live; simpl; intuition discriminate.
  - done.
Qed.

Lemma job_status_spec_witness :
  status_active (job_status_at (fun _ _ => true) (contents ledger_example) Indexing
    INDEXING_HEARTBEAT_TTL_SECS 120) = true.
Proof.
  pose proof (job_status_spec (fun _ _ => true) (contents ledger_example) Indexing
    INDEXING_HEARTBEAT_TTL_SECS 120 ltac:(done)) as Hs.
  destruct (get Indexing (contents ledger_example)) as [r|] eqn:E; [|discriminate E].
  vm_compute in E. injection E as <-. destruct Hs as [[_ Hs] _]. apply Hs.
  split; [reflexivity|]. split; [reflexivity|]. intros ts Hts. injection Hts as <-. discriminate.
Defined.

(** ** Liveness *)

Section Liveness.
Context (kill_ok : Z -> Z -> bool) (start_time_token : Z -> Z -> option str).

(** Every remembered identity was verified at the recorded, past instant. *)
Definition cache_ok (now : Z) (cache : VerifiedProcesses) : Prop :=
  forall p tok t, cache !! p = Some (tok, t) -> t <= now /\ start_time_token t p = Some tok.

Lemma remember_lookup cache now p tok q v :
  remember_verified_process cache now p tok !! q = Some v ->
  (q = p /\ v = (tok, now)) \/ cache !! q = Some v.
Proof.
  unfold remember_verified_process. cbv zeta. intros Hq.
  apply lookup_insert_Some in Hq as [[-> <-]|[_ Hq]]; [by left|right].
  destruct (1024 <=? size cache)%nat; [|done].
  by apply map_lookup_filter_Some in Hq as [Hq _].
Qed.

(** A process with an expected start time is reported alive only if its pid
    can be signalled and either no start time can be read now, or the expected
    one is read now, or it was read and matched less than thirty seconds ago; a
    pid that cannot be signalled is dead and forgotten.  So a recycled pid is
    taken for its former owner for at most that time. *)
Theorem process_is_alive_spec now p expected cache :
  cache_ok now cache ->
  let '(alive, cache') := process_is_alive kill_ok start_time_token now p expected cache in
  (forall now', now <= now' -> cache_ok now' cache') /\
  (kill_ok now (as_i32 p) = false -> alive = false /\ cache' !! p = None) /\
  (forall e, expected = Some e -> alive = true ->
     kill_ok now (as_i32 p) = true /\
     (start_time_token now p = None \/ start_time_token now p = Some e \/
      exists t, t <= now /\ now - t < VERIFIED_PROCESS_TTL /\ start_time_token t p = Some e)) /\
  (forall e, expected = Some e -> kill_ok now (as_i32 p) = true ->
     start_time_token now p = Some e -> alive = true).
Proof.
  intros Hok. assert (forall now', now <= now' -> cache_ok now' cache) as Hmono.
  { intros now' Hle q tok t Hq. apply Hok in Hq as [? ?]. split; [lia|done]. }
  unfold process_is_alive. destruct (kill_ok now (as_i32 p)) eqn:Ek; cbn [negb].
  2: { split_and!; try done; [|intros _; split; [done|]; apply lookup_delete_eq].
       intros now' Hle q tok t Hq. unfold forget_verified_process in Hq.
       apply lookup_delete_Some in Hq as [_ Hq]. by eapply Hmono. }
  destruct expected as [e|]; [|by split_and!].
  destruct (process_identity_verified cache now p e) eqn:Ev.
  { split_and!; try done. intros e' [= <-] _. split; [done|]. right. right.
    unfold process_identity_verified in Ev. destruct (cache !! p) as [[tok t]|] eqn:Ec; [|done].
    apply andb_true_iff in Ev as [Et Ef]. apply bool_decide_eq_true in Et as ->.
    unfold fresh in Ef. simpl in Ef. apply Z.ltb_lt in Ef. apply Hok in Ec as [? ?]. by exists t. }
  destruct (start_time_token now p) as [actual|] eqn:Ea.
  - case_decide as Hd; [subst actual|].
    + split_and!; try done; [|intros e' [= <-] _; split; [done|tauto]].
      intros now' Hle q tok t [[-> [= -> ->]]|Hq]%remember_lookup; [split; [lia|done]|].
      by eapply Hmono.
    + split_and!; try done. intros e' [= <-] _. congruence.
  - split_and!; try done. intros e' [= <-] _. split; [done|]. by left.
Qed.
End Liveness.

Definition recycled (t p : Z) : option str :=
  if t <? 50 then Some (lit "old") else Some (lit "new").

Lemma process_is_alive_spec_witness :
  fst (process_is_alive (fun _ _ => true) recycled 60 7 (Some (lit "old")) {[ 7 := (lit "old", 40) ]})
    = true /\
  exists t, t <= 60 /\ 60 - t < VERIFIED_PROCESS_TTL /\ recycled t 7 = Some (lit "old").
Proof.
  assert (cache_ok recycled 60 {[ 7 := (lit "old", 40) ]}) as Hok.
  { intros p tk t Hp. apply lookup_singleton_Some in Hp as [<- [= <- <-]]. split; [lia|reflexivity]. }
  pose proof (process_is_alive_spec (fun _ _ => true) recycled 60 7 (Some (lit "old"))
    {[ 7 := (lit "old", 40) ]} Hok) as Hs.
  destruct (process_is_alive _ _ _ _ _ _) as [alive cache'] eqn:E. destruct Hs as (_ & _ & Hs & _).
  vm_compute in E. injection E as <- _. split; [reflexivity|].
  destruct (Hs _ eq_refl eq_refl) as [_ [Hn|[Hn|Hn]]]; [discriminate Hn|discriminate Hn|exact Hn].
Defined.
