(* ===== verification/Budget.v ===== *)
(** * The batch budget: indexer/batch_budget.rs.

  Indexing threads reserve the bytes of a payload before they hold it.  The
  state behind the mutex is the number of reserved bytes and a stop flag; a
  thread whose payload does not fit sleeps on a condition variable.  Steps of
  the threads interleave; a sleeping thread runs again only after a
  notification, or spuriously. *)
From S2P Require Import Prelude.
Local Open Scope Z_scope.

(** The mutex-protected pair. *)
Record State := MkState { used : Z; stopped : bool }.

(** The condition of the wait loop. *)
Definition must_wait (max_bytes : Z) (st : State) (bytes : Z) : bool :=
  negb (stopped st) && (0 <? used st) && (saturating_sub max_bytes (used st) <? bytes).

(** One pass of [acquire] with the lock held. *)
Inductive Attempt := Sleep | Cancelled | Granted (st : State).

Definition acquire (max_bytes : Z) (st : State) (bytes : Z) : option Attempt :=
  if must_wait max_bytes st bytes then Some Sleep
  else if stopped st then Some Cancelled
  else u ← checked_add (used st) bytes; Some (Granted (MkState u (stopped st))).

(** [Reservation::drop] and [stop]. *)
Definition release (st : State) (bytes : Z) : option State :=
  u ← checked_sub (used st) bytes; Some (MkState u (stopped st)).
Definition stop (st : State) : State := MkState (used st) true.

(** ** Threads *)

(** The reservations that are held, and the threads asleep in [acquire]: their
    bytes and whether a notification reached them. *)
Record Config := MkConfig {
  state : State;
  held : list Z;
  asleep : list (Z * bool)
}.
Definition notify_all (l : list (Z * bool)) : list (Z * bool) := map (fun w => (fst w, true)) l.

Definition initial : Config := MkConfig (MkState 0 false) [] [].

(** What a thread finds when it evaluates the loop, from outside or woken; the
    result [None] is a [usize] overflow. *)
Definition enter (max_bytes : Z) (c : Config) (bytes : Z) : option Config :=
  a ← acquire max_bytes (state c) bytes;
  Some match a with
       | Sleep => MkConfig (state c) (held c) ((bytes, false) :: asleep c)
       | Cancelled => c
       | Granted st => MkConfig st (bytes :: held c) (asleep c)
       end.

Inductive step (max_bytes : Z) : Config -> option Config -> Prop :=
| step_acquire c bytes :
    in_u64 bytes -> step max_bytes c (enter max_bytes c bytes)
| step_wake c l1 bytes notified l2 :
    asleep c = l1 ++ (bytes, notified) :: l2 ->
    step max_bytes c (enter max_bytes (MkConfig (state c) (held c) (l1 ++ l2)) bytes)
| step_drop c l1 bytes l2 :
    held c = l1 ++ bytes :: l2 ->
    step max_bytes c
      (st ← release (state c) bytes;
       Some (MkConfig st (l1 ++ l2) (notify_all (asleep c))))
| step_stop c :
    step max_bytes c (Some (MkConfig (stop (state c)) (held c) (notify_all (asleep c)))).

Inductive reachable (max_bytes : Z) : option Config -> Prop :=
| reachable_initial : reachable max_bytes (Some initial)
| reachable_step c c' : reachable max_bytes (Some c) -> step max_bytes c c' -> reachable max_bytes c'.

(** ** The invariant *)

Definition sum (l : list Z) : Z := foldr Z.add 0 l.

Definition exclusive (max_bytes : Z) (c : Config) : Prop :=
  used (state c) <= max_bytes \/ exists b, filter (fun x => 0 < x) (held c) = [b].

Definition inv (max_bytes : Z) (c : Config) : Prop :=
  used (state c) = sum (held c) /\ Forall (fun b => 0 <= b <= U64_MAX) (held c) /\
  Forall (fun w => 0 <= fst w <= U64_MAX) (asleep c) /\
  exclusive max_bytes c /\
  Forall (fun w => snd w = false -> must_wait max_bytes (state c) (fst w) = true) (asleep c).

Lemma sum_app l1 l2 : sum (l1 ++ l2) = sum l1 + sum l2.
Proof. induction l1 as [|x l1 IH]; simpl; [done|]. unfold sum in *. lia. Qed.

Lemma sum_nonneg l : Forall (fun b => 0 <= b <= U64_MAX) l -> 0 <= sum l.
Proof. induction 1; unfold sum in *; simpl; lia. Qed.

Lemma sum_positive l :
  Forall (fun b => 0 <= b <= U64_MAX) l -> sum l = sum (filter (fun x => 0 < x) l).
Proof.
  induction 1 as [|b l Hb Hl IH]; [done|]. rewrite filter_cons. unfold sum in *. simpl.
  case_decide; simpl; lia.
Qed.

Lemma sum_zero l :
  Forall (fun b => 0 <= b <= U64_MAX) l -> sum l = 0 -> filter (fun x => 0 < x) l = [].
Proof.
  induction 1 as [|b l Hb Hl IH]; [done|]. intros Hs. unfold sum in *. simpl in Hs.
  pose proof (sum_nonneg l Hl) as Hn. unfold sum in Hn. rewrite filter_cons_False by lia.
  apply IH. lia.
Qed.

Lemma filter_positive_cons b l :
  filter (fun x => 0 < x) (b :: l) = if decide (0 < b) then b :: filter (fun x => 0 < x) l
                                     else filter (fun x => 0 < x) l.
Proof. apply filter_cons. Qed.

Lemma inv_initial max_bytes : 0 <= max_bytes -> inv max_bytes initial.
Proof. intros. unfold inv, exclusive. simpl. split_and!; try constructor; try done. Qed.

(** Reserving more only blocks more. *)
Lemma must_wait_mono max_bytes st bytes u :
  used st <= u -> must_wait max_bytes st bytes = true ->
  must_wait max_bytes (MkState u (stopped st)) bytes = true.
Proof.
  unfold must_wait, saturating_sub. simpl. rewrite !andb_true_iff, !Z.ltb_lt. intuition lia.
Qed.

Lemma enter_inv max_bytes c bytes :
  in_u64 max_bytes -> in_u64 bytes -> inv max_bytes c ->
  exists c', enter max_bytes c bytes = Some c' /\ inv max_bytes c'.
Proof.
  intros [Hm0 Hm] [Hb0 Hb] (Hu & Hh & Hw & Hx & Hs). unfold enter, acquire.
  pose proof (sum_nonneg _ Hh) as Hn.
  destruct (must_wait max_bytes (state c) bytes) eqn:E; cbn [mbind option_bind].
  - eexists. split; [done|]. unfold inv, exclusive. cbn [state held asleep].
    split_and!; try done; constructor; try done.
  - destruct (stopped (state c)) eqn:Est; cbn [mbind option_bind].
    { eexists. split; [done|]. by split_and!. }
    unfold must_wait in E. rewrite Est in E. cbn [negb andb] in E.
    assert (used (state c) = 0 \/ bytes <= saturating_sub max_bytes (used (state c))) as Hc.
    { apply andb_false_iff in E as [E|E]; apply Z.ltb_ge in E; [left|right]; lia. }
    unfold saturating_sub in Hc.
    assert (used (state c) + bytes <= U64_MAX) as Hov.
    { destruct Hx as [Hx|[b Hx]]; [lia|]. rewrite (sum_positive _ Hh), Hx in Hu.
      unfold sum in Hu. simpl in Hu. assert (b ∈ held c) as Hin.
      { assert (b ∈ filter (fun x => 0 < x) (held c)) as Hf by (rewrite Hx; by left).
        by apply list_elem_of_filter in Hf as [_ ?]. }
      eapply Forall_forall in Hh; [|exact Hin]. lia. }
    unfold checked_add. rewrite checked_u64_in by (unfold in_u64; lia). cbn [mbind option_bind].
    eexists. split; [done|]. unfold inv, exclusive. cbn [state held asleep used].
    split_and!.
    + unfold sum in *. simpl. lia.
    + by constructor.
    + done.
    + rewrite filter_positive_cons. destruct Hc as [Hc|Hc].
      * destruct (decide (used (state c) + bytes <= max_bytes)); [by left|right].
        rewrite Hu in Hc. rewrite decide_True by lia. exists bytes. by rewrite (sum_zero _ Hh Hc).
      * destruct Hx as [Hx|[b Hx]].
        -- destruct (decide (used (state c) + bytes <= max_bytes)); [by left|]. lia.
        -- destruct (decide (0 < bytes)); [left; lia|right]. by exists b.
    + eapply Forall_impl; [exact Hs|]. intros w Hwt Hf. rewrite <- Est. apply must_wait_mono; [lia|auto].
Qed.

Lemma step_inv max_bytes c c' :
  in_u64 max_bytes -> inv max_bytes c -> step max_bytes c c' ->
  exists d, c' = Some d /\ inv max_bytes d.
Proof.
  intros Hm Hinv Hstep. destruct Hstep as [c bytes Hb|c l1 bytes notified l2 Ha|c l1 bytes l2 Hh|c].
  - by apply enter_inv.
  - destruct Hinv as (Hu & Hh & Hw & Hx & Hs). rewrite Ha in Hw, Hs.
    apply Forall_app in Hw as [Hw1 [Hb Hw2]%Forall_cons].
    apply Forall_app in Hs as [Hs1 [_ Hs2]%Forall_cons].
    apply enter_inv; [done|exact Hb|]. unfold inv, exclusive. cbn [state held asleep].
    split_and!; try done; by apply Forall_app.
  - destruct Hinv as (Hu & Hf & Hw & Hx & Hs). rewrite Hh in Hu, Hf.
    apply Forall_app in Hf as [Hf1 [Hb Hf2]%Forall_cons]. rewrite sum_app in Hu.
    pose proof (sum_nonneg _ Hf1) as Hn1. pose proof (sum_nonneg _ Hf2) as Hn2.
    assert (sum (bytes :: l2) = bytes + sum l2) as Hc by done.
    assert (used (state c) <= U64_MAX) as Hmax.
    { destruct Hx as [Hx|[b Hx]]; [unfold in_u64 in Hm; lia|].
      assert (Forall (fun b => 0 <= b <= U64_MAX) (held c)) as Hall.
      { rewrite Hh. apply Forall_app. split; [done|by constructor]. }
      rewrite <- sum_app, <- Hh, (sum_positive _ Hall), Hx in Hu. unfold sum in Hu. simpl in Hu.
      assert (b ∈ held c) as Hin.
      { assert (b ∈ filter (fun x => 0 < x) (held c)) as Hfl by (rewrite Hx; by left).
        by apply list_elem_of_filter in Hfl as [_ ?]. }
      eapply Forall_forall in Hall; [|exact Hin]. lia. }
    unfold release, checked_sub. rewrite checked_u64_in by (unfold in_u64; lia).
    cbn [mbind option_bind]. eexists. split; [done|]. unfold inv, exclusive, notify_all.
    cbn [state held asleep used]. split_and!.
    + rewrite sum_app. lia.
    + by apply Forall_app.
    + by apply Forall_fmap.
    + destruct Hx as [Hx|[b Hx]]; [left; lia|]. rewrite Hh in Hx.
      rewrite filter_app in Hx |- *. rewrite filter_positive_cons in Hx.
      destruct (decide (0 < bytes)).
      * left. assert (filter (fun x => 0 < x) l1 = [] /\ filter (fun x => 0 < x) l2 = []) as [E1 E2].
        { destruct (filter _ l1) as [|? f1]; [|destruct f1; discriminate]. simpl in Hx. by simplify_eq. }
        rewrite (sum_positive _ Hf1), E1 in Hu. rewrite Hc, (sum_positive _ Hf2), E2 in Hu.
        unfold sum in Hu. simpl in Hu. unfold in_u64 in Hm. lia.
      * right. by exists b.
    + apply Forall_fmap. apply Forall_true. done.
  - destruct Hinv as (Hu & Hf & Hw & Hx & Hs). eexists. split; [done|].
    unfold inv, exclusive, notify_all. cbn [state held asleep used stop]. split_and!; try done.
    + by apply Forall_fmap.
    + apply Forall_fmap. apply Forall_true. done.
Qed.

Lemma reachable_inv max_bytes oc :
  in_u64 max_bytes -> reachable max_bytes oc -> exists c, oc = Some c /\ inv max_bytes c.
Proof.
  intros Hm. induction 1 as [|c c' Hr (d & [= ->] & Hinv) Hs].
  - eexists. split; [done|]. apply inv_initial. apply Hm.
  - by eapply step_inv.
Qed.

(** Whatever the interleaving of acquires, wake-ups, drops and stops, the
    counter is exactly the bytes held and never overflows, and it exceeds the
    limit only while one payload holds all of it. *)
Theorem budget_exact_and_bounded max_bytes oc :
  in_u64 max_bytes -> reachable max_bytes oc ->
  exists c, oc = Some c /\ used (state c) = sum (held c) /\
    (used (state c) <= max_bytes \/
     exists b, filter (fun x => 0 < x) (held c) = [b] /\ used (state c) = b).
Proof.
  intros Hm Hr. destruct (reachable_inv max_bytes oc Hm Hr) as (c & -> & Hu & Hh & _ & Hx & _).
  exists c. split; [done|]. split; [done|]. destruct Hx as [Hx|[b Hx]]; [by left|right].
  exists b. split; [done|]. rewrite Hu, (sum_positive _ Hh), Hx. unfold sum. simpl. lia.
Qed.

(** Four and five bytes held of ten, a thread with three bytes asleep. *)
Definition busy : Config := MkConfig (MkState 9 false) [5; 4] [(3, false)].

Lemma busy_reachable : reachable 10 (Some busy).
Proof.
  change (Some busy) with (enter 10 (MkConfig (MkState 9 false) [5; 4] []) 3).
  eapply reachable_step; [|by apply step_acquire].
  change (Some (MkConfig (MkState 9 false) [5; 4] []))
    with (enter 10 (MkConfig (MkState 4 false) [4] []) 5).
  eapply reachable_step; [|by apply step_acquire].
  change (Some (MkConfig (MkState 4 false) [4] [])) with (enter 10 initial 4).
  eapply reachable_step; [apply reachable_initial|by apply step_acquire].
Qed.

Lemma budget_exact_and_bounded_witness : used (state busy) = sum (held busy).
Proof.
  destruct (budget_exact_and_bounded 10 (Some busy) ltac:(done) busy_reachable)
    as (c & Hc & Hu & _). injection Hc as <-. exact Hu.
Defined.

(** No wake-up is lost: in every reachable configuration a thread that
    sleeps without a notification really must wait, nobody has stopped the
    budget, and some payload is held whose drop will notify it; so with nothing
    held or after a stop every sleeper has been notified. *)
Theorem budget_no_lost_wakeup max_bytes c bytes :
  in_u64 max_bytes -> reachable max_bytes (Some c) -> (bytes, false) ∈ asleep c ->
  must_wait max_bytes (state c) bytes = true /\ stopped (state c) = false /\
  exists b, b ∈ held c /\ 0 < b.
Proof.
  intros Hm Hr Hin. destruct (reachable_inv max_bytes _ Hm Hr) as (c' & [= <-] & Hu & Hh & _ & _ & Hs).
  eapply Forall_forall in Hs; [|exact Hin]. specialize (Hs eq_refl). split; [done|].
  unfold must_wait in Hs. simpl in Hs. apply andb_true_iff in Hs as [[Hst Hp]%andb_true_iff _].
  apply negb_true_iff in Hst. apply Z.ltb_lt in Hp. split; [done|].
  rewrite Hu, (sum_positive _ Hh) in Hp.
  destruct (filter (fun x => 0 < x) (held c)) as [|b l] eqn:E; [by unfold sum in Hp|].
  exists b. assert (b ∈ filter (fun x => 0 < x) (held c)) as Hf by (rewrite E; by left).
  by apply list_elem_of_filter in Hf as [? ?].
Qed.

Lemma budget_no_lost_wakeup_witness :
  must_wait 10 (state busy) 3 = true /\ stopped (state busy) = false.
Proof.
  destruct (budget_no_lost_wakeup 10 busy 3 ltac:(done) busy_reachable ltac:(by left))
    as (Hw & Hs & _). exact (conj Hw Hs).
Defined.
