(* ===== verification/Queue.v ===== *)
(** * The queue of background enhancement: enhancement_queue.rs.

  Requests wait in the daemon; [dispatch] starts worker processes while a lane
  has a free place.  The host (processes, file system, configuration) is the
  interface [WorkerHost]: each look at it may see another world, so other
  processes may do anything between two calls.  Theorems hold for every host. *)
From S2P Require Import Prelude Utf8.

Inductive WorkerLane := LaneHash | LaneNeural.
#[global] Instance lane_eq_dec : EqDecision WorkerLane.
Proof. solve_decision. Defined.

Inductive EnhancementPolicy := HashOnly | MaintainExisting | Neural.
#[global] Instance policy_eq_dec : EqDecision EnhancementPolicy.
Proof. solve_decision. Defined.

(** The derived order. *)
Definition policy_rank (p : EnhancementPolicy) : nat :=
  match p with HashOnly => 0 | MaintainExisting => 1 | Neural => 2 end.

Definition for_query (uses_neural : bool) : EnhancementPolicy :=
  if uses_neural then Neural else MaintainExisting.

Record Workspace := MkWorkspace { id : str; root : list N }.

(** [WorkerHost], and [workspace::root_is_gone]. *)
Class WorkerHost (W : Type) := {
  places : W -> nat * W;
  free_places : WorkerLane -> W -> nat * W;
  host_lane : Workspace -> bool -> W -> option WorkerLane * W;
  needs_hash : Workspace -> W -> bool * W;
  worker : Workspace -> W -> option Z * W;
  start : Workspace -> WorkerLane -> W -> bool * W;
  root_is_gone : Workspace -> W -> bool * W;
}.

Record PendingRequest := MkRequest {
  workspace : Workspace;
  policy : EnhancementPolicy;
  lane : WorkerLane;
  recency : N;
  hash_first : bool
}.

Record StartedWorker := MkStarted {
  s_workspace : Workspace;
  s_lane : WorkerLane;
  s_pid : Z
}.

(** [EnhancementQueue] without the host: [QueueState] and [pending_len]. *)
Record QueueState := MkQueue {
  pending : gmap str PendingRequest;
  started : gmap str StartedWorker;
  counter : N;
  pending_len : nat
}.

Definition MAX_PENDING : nat := 1024.
Definition new_queue : QueueState := MkQueue ∅ ∅ 0 0.

Section Queue.
Context {W : Type} `{WorkerHost W}.

(** [EnhancementPolicy::lane]. *)
Definition policy_lane (p : EnhancementPolicy) (ws : Workspace) (w : W)
  : option WorkerLane * W :=
  match p with
  | HashOnly => let '(n, w) := needs_hash ws w in (if n then Some LaneHash else None, w)
  | _ => host_lane ws (bool_decide (p = Neural)) w
  end.

(** ** [touch] *)

Definition set_recency (r : N) (q : PendingRequest) : PendingRequest :=
  MkRequest (workspace q) (policy q) (lane q) r (hash_first q).

Definition touch_one (st : gmap str PendingRequest * N) (i : str) : gmap str PendingRequest * N :=
  let '(p, c) := st in
  let recency := (c + 1)%N in
  (match p !! i with Some q => <[i := set_recency recency q]> p | None => p end, recency).

(** [locked] says whether [try_lock] got the lock. *)
Definition touch (ids : list str) (locked : bool) (st : QueueState) : QueueState :=
  if pending_len st =? 0 then st
  else if negb locked then st
  else
    let '(p, c) := foldl touch_one (pending st, counter st) ids in
    MkQueue p (started st) c (pending_len st).

(** ** [request] *)

(** [iter().min_by_key(recency)]: the first of the least. *)
Definition min_by_recency (l : list (str * PendingRequest)) : option str :=
  fst <$> foldl (fun best kv =>
                   match best with
                   | Some b => if (recency (snd kv) <? recency (snd b))%N then Some kv else best
                   | None => Some kv
                   end) None l.

Definition request (ws : Workspace) (p : EnhancementPolicy) (st : QueueState) (w : W)
  : QueueState * W :=
  let '(l, w) := policy_lane p ws w in
  match l with
  | None => (st, w)
  | Some l =>
    let '(p, l) :=
      match pending st !! id ws with
      | Some waiting =>
        if policy_rank p <? policy_rank (policy waiting) then (policy waiting, lane waiting)
        else (p, l)
      | None => (p, l)
      end in
    let c := (counter st + 1)%N in
    let q := <[id ws := MkRequest ws p l c true]> (pending st) in
    let q :=
      if MAX_PENDING <? size q then
        match min_by_recency (map_to_list q) with
        | Some oldest => delete oldest q
        | None => q
        end
      else q in
    (MkQueue q (started st) c (size q), w)
  end.

(** ** [dispatch] *)

(** [HashMap::retain] with a predicate that looks at the host. *)
Fixpoint retain {A} (keep : A -> W -> bool * W) (l : list (str * A)) (m : gmap str A) (w : W)
  : gmap str A * W :=
  match l with
  | [] => (m, w)
  | (i, a) :: l =>
    let '(b, w) := keep a w in
    retain keep l (if b then m else delete i m) w
  end.

Definition still_runs (s : StartedWorker) (w : W) : bool * W :=
  let '(p, w) := worker (s_workspace s) w in (bool_decide (p = Some (s_pid s)), w).
Definition root_present (q : PendingRequest) (w : W) : bool * W :=
  let '(g, w) := root_is_gone (workspace q) w in (negb g, w).

Definition lane_count (l : WorkerLane) (m : gmap str StartedWorker) : nat :=
  size (filter (fun kv => s_lane (snd kv) = l) m).

(** The places left in each lane. *)
Record Capacity := MkCapacity { hash_places : nat; neural_places : nat }.
Definition capacity (c : Capacity) (l : WorkerLane) : nat :=
  match l with LaneHash => hash_places c | LaneNeural => neural_places c end.
Definition take_place (c : Capacity) (l : WorkerLane) : Capacity :=
  match l with
  | LaneHash => MkCapacity (hash_places c - 1) (neural_places c)
  | LaneNeural => MkCapacity (hash_places c) (neural_places c - 1)
  end.

Definition lane_capacity (places : nat) (m : gmap str StartedWorker) (l : WorkerLane) (w : W)
  : nat * W :=
  let '(free, w) := free_places l w in (Nat.min free (places - lane_count l m), w).

(** What [dispatch] decides about one request.  It is returned beside the state
    so that theorems can speak about it; the code only acts on it. *)
Inductive Decision :=
| NoPlace
| WorkerRuns
| HashNotNeeded
| WorkDone
| LaneFull
| StartFailed (l : WorkerLane) (hash_while_waiting : bool)
| StartedIn (l : WorkerLane) (hash_while_waiting : bool).

Record Loop := MkLoop {
  l_pending : gmap str PendingRequest;
  l_started : gmap str StartedWorker;
  l_capacity : Capacity
}.

Definition update_request (f : PendingRequest -> PendingRequest) (i : str) (s : Loop) : Loop :=
  MkLoop (alter f i (l_pending s)) (l_started s) (l_capacity s).
Definition drop_request (i : str) (s : Loop) : Loop :=
  MkLoop (delete i (l_pending s)) (l_started s) (l_capacity s).

(** The last part of the loop body: start the worker and record it. *)
Definition start_worker (i : str) (ws : Workspace) (l : WorkerLane) (waiting : bool) (s : Loop)
    (w : W) : Decision * Loop * W :=
  let '(ok, w) := start ws l w in
  if negb ok then (StartFailed l waiting, s, w)
  else
    let '(p, w) := worker ws w in
    match p with
    | Some p =>
      (StartedIn l waiting,
       MkLoop (l_pending s) (<[i := MkStarted ws l p]> (l_started s)) (take_place (l_capacity s) l), w)
    | None => (StartedIn l waiting, s, w)
    end.

(** The loop body for a request that is pending. *)
Definition dispatch_request (i : str) (q : PendingRequest) (s : Loop) (w : W)
  : Decision * Loop * W :=
  let c := l_capacity s in
  let hash_while_waiting :=
    (capacity c (lane q) =? 0) && bool_decide (lane q = LaneNeural) && hash_first q
    && (0 <? capacity c LaneHash) in
  if (capacity c (lane q) =? 0) && negb hash_while_waiting then (NoPlace, s, w)
  else
    let '(running, w) := worker (workspace q) w in
    if is_some running then (WorkerRuns, s, w)
    else if hash_while_waiting then
      let s :=
        update_request
          (fun q => MkRequest (workspace q) (policy q) (lane q) (recency q) false) i s in
      let '(needed, w) := needs_hash (workspace q) w in
      if negb needed then (HashNotNeeded, s, w)
      else start_worker i (workspace q) LaneHash true s w
    else
      let '(l, w) := policy_lane (policy q) (workspace q) w in
      match l with
      | None => (WorkDone, drop_request i s, w)
      | Some l =>
        if capacity c l =? 0 then
          (LaneFull,
           update_request (fun q => MkRequest (workspace q) (policy q) l (recency q) (hash_first q))
             i s, w)
        else start_worker i (workspace q) l false (drop_request i s) w
      end.

(** [None] is the panic of [expect("request is pending")]. *)
Fixpoint dispatch_loop (order : list str) (s : Loop) (w : W)
  : option (list (str * Decision) * Loop * W) :=
  match order with
  | [] => Some ([], s, w)
  | i :: rest =>
    if (capacity (l_capacity s) LaneHash =? 0) && (capacity (l_capacity s) LaneNeural =? 0)
    then Some ([], s, w)
    else
      q ← l_pending s !! i;
      let '(d, s, w) := dispatch_request i q s w in
      '(log, s, w) ← dispatch_loop rest s w;
      Some ((i, d) :: log, s, w)
  end.

(** Most recent first. *)
Definition later (a b : N * str) : Prop := (fst b <= fst a)%N.
#[global] Instance later_dec : RelDecision later.
Proof. intros a b. unfold later. apply _. Defined.
Definition dispatch_order (p : gmap str PendingRequest) : list str :=
  snd <$> merge_sort later ((fun kv => (recency (snd kv), fst kv)) <$> map_to_list p).

Definition dispatch (st : QueueState) (w : W)
  : option (list (str * Decision) * QueueState * W) :=
  let '(s, w) := retain still_runs (map_to_list (started st)) (started st) w in
  let '(p, w) := retain root_present (map_to_list (pending st)) (pending st) w in
  let '(n, w) := places w in
  let '(h, w) := lane_capacity n s LaneHash w in
  let '(u, w) := lane_capacity n s LaneNeural w in
  '(log, s, w) ← dispatch_loop (dispatch_order p) (MkLoop p s (MkCapacity h u)) w;
  Some (log, MkQueue (l_pending s) (l_started s) (counter st) (size (l_pending s)), w).
End Queue.

(** * The enhancement queue: bounds, order, and no request lost. *)

Section Facts.
Context {W : Type} `{WorkerHost W}.

(** ** Lanes *)

Lemma lane_count_mono l m1 m2 : m1 ⊆ m2 -> lane_count l m1 <= lane_count l m2.
Proof. intros Hs. apply map_subseteq_size. by apply map_filter_subseteq_mono. Qed.

Lemma lane_count_insert l i s m :
  lane_count l (<[i := s]> m) <= lane_count l m + (if decide (s_lane s = l) then 1 else 0).
Proof.
  unfold lane_count. case_decide as Hl.
  - rewrite map_filter_insert_True by done. rewrite map_size_insert.
    destruct (filter _ m !! i); simpl; lia.
  - rewrite map_filter_insert_False by done. rewrite Nat.add_0_r. apply map_subseteq_size.
    apply map_filter_subseteq_mono, delete_subseteq.
Qed.

Lemma retain_subseteq {A} (keep : A -> W -> bool * W) l : forall m w, fst (retain keep l m w) ⊆ m.
Proof.
  induction l as [|[i a] l IH]; intros m w; cbn [retain]; [done|].
  destruct (keep a w) as [b w']. etrans; [apply IH|]. destruct b; [done|]. apply delete_subseteq.
Qed.

(** An entry that [retain] drops failed the predicate in some world. *)
Lemma retain_dropped {A} (keep : A -> W -> bool * W) l : forall m w i a,
  m !! i = Some a -> (forall j b, (j, b) ∈ l -> m !! j = Some b \/ m !! j = None) ->
  fst (retain keep l m w) !! i = None -> exists w0, fst (keep a w0) = false.
Proof.
  induction l as [|[j b] l IH]; intros m w i a Hi Hl Hn; cbn [retain] in Hn; [simpl in Hn; congruence|].
  destruct (keep b w) as [k w'] eqn:Ek. destruct k.
  - eapply IH; [exact Hi| |exact Hn]. intros j' b' Hin. apply Hl. by right.
  - destruct (decide (i = j)) as [->|Hne].
    + destruct (Hl j b) as [Hb|Hb]; [by left| |congruence].
      rewrite Hi in Hb. injection Hb as ->. exists w. by rewrite Ek.
    + eapply (IH (delete j m)); [by rewrite lookup_delete_ne| |exact Hn]. intros j' b' Hin.
      destruct (decide (j = j')) as [->|Hne']; [right; apply lookup_delete_eq|].
      rewrite lookup_delete_ne by done. apply Hl. by right.
Qed.

(** ** One request *)

Definition refused (d : Decision) : Prop := d = NoPlace \/ d = LaneFull.
Definition leaves (d : Decision) : Prop :=
  d = WorkDone \/ exists l, d = StartedIn l false \/ d = StartFailed l false.

Definition budget (s : Loop) (l : WorkerLane) : nat :=
  lane_count l (l_started s) + capacity (l_capacity s) l.

Lemma take_place_capacity c l l' :
  capacity (take_place c l) l' = capacity c l' - (if decide (l = l') then 1 else 0).
Proof. destruct l, l'; simpl; lia. Qed.

Lemma start_worker_spec i ws l b s w :
  0 < capacity (l_capacity s) l ->
  let '(d, s', _) := start_worker i ws l b s w in
  (d = StartedIn l b \/ d = StartFailed l b) /\ l_pending s' = l_pending s /\
  (forall l', capacity (l_capacity s') l' <= capacity (l_capacity s) l') /\
  (forall l', budget s' l' <= budget s l').
Proof.
  intros Hc. unfold start_worker. destruct (start ws l w) as [ok w1]. destruct ok; cbn [negb].
  - destruct (worker ws w1) as [[p|] w2]; [|by split_and!; [left|..]].
    split_and!; [by left|done|..]; intros l'.
    + cbn [l_capacity]. rewrite take_place_capacity. lia.
    + unfold budget. cbn [l_started l_capacity]. rewrite take_place_capacity.
      pose proof (lane_count_insert l' i (MkStarted ws l p) (l_started s)) as Hi. cbn [s_lane] in Hi.
      case_decide; [subst l'|]; lia.
  - by split_and!; [right|..].
Qed.

Lemma dispatch_request_spec i q s w :
  l_pending s !! i = Some q ->
  let '(d, s', _) := dispatch_request i q s w in
  (forall l, capacity (l_capacity s') l <= capacity (l_capacity s) l) /\
  (forall l, budget s' l <= budget s l) /\
  (forall j, j <> i -> l_pending s' !! j = l_pending s !! j) /\
  (forall q', l_pending s' !! i = Some q' -> recency q' = recency q /\ workspace q' = workspace q) /\
  (l_pending s' !! i = None -> leaves d) /\
  (forall l b, d = StartedIn l b -> 0 < capacity (l_capacity s) l) /\
  (refused d -> exists q', l_pending s' !! i = Some q' /\ capacity (l_capacity s') (lane q') = 0).
Proof.
  intros Hq. unfold dispatch_request. set (c := l_capacity s).
  set (hw := (capacity c (lane q) =? 0) && _ && _ && _).
  assert (forall q', l_pending s !! i = Some q' -> recency q' = recency q /\ workspace q' = workspace q)
    as Hsame by (rewrite Hq; by intros q' [= <-]).
  destruct ((capacity c (lane q) =? 0) && negb hw) eqn:Ez.
  { apply andb_true_iff in Ez as [Ez _]. apply Nat.eqb_eq in Ez.
    split_and!; try done; [by rewrite Hq|]. intros _. by exists q. }
  destruct (worker (workspace q) w) as [running w1]. destruct (is_some running).
  { split_and!; try done; [by rewrite Hq|]. by intros [|]. }
  destruct hw eqn:Eh; subst hw.
  - apply andb_true_iff in Eh as [_ Eh]. apply Nat.ltb_lt in Eh.
    set (s1 := update_request _ i s).
    assert (forall j, j <> i -> l_pending s1 !! j = l_pending s !! j) as Hother.
    { intros j Hj. unfold s1, update_request. simpl. by apply lookup_alter_ne. }
    assert (exists q1, l_pending s1 !! i = Some q1 /\ recency q1 = recency q /\ workspace q1 = workspace q)
      as (q1 & Hq1 & Hr & Hw).
    { unfold s1, update_request. simpl. rewrite lookup_alter_eq, Hq. by eexists. }
    destruct (needs_hash (workspace q) w1) as [needed w2]. destruct needed; cbn [negb].
    + pose proof (start_worker_spec i (workspace q) LaneHash true s1 w2 Eh) as Hs.
      destruct (start_worker i (workspace q) LaneHash true s1 w2) as [[d s2] w3].
      destruct Hs as (Hd & Hp & Hc & Hb). rewrite Hp. split_and!; try done.
      * intros q' [= <-]%(eq_trans (eq_sym Hq1)). done.
      * by rewrite Hq1.
      * intros l b ->. destruct Hd as [[= -> ->]|]; done.
      * intros [-> | ->]; by destruct Hd.
    + split_and!; try done; [|by rewrite Hq1|by intros [|]].
      intros q' [= <-]%(eq_trans (eq_sym Hq1)). done.
  - destruct (policy_lane (policy q) (workspace q) w1) as [[l|] w2].
    2: { split_and!; try done.
         - intros j Hj. simpl. by rewrite lookup_delete_ne.
         - simpl. by rewrite lookup_delete_eq.
         - intros _. by left.
         - by intros [|]. }
    destruct (capacity c l =? 0) eqn:El.
    + apply Nat.eqb_eq in El. split_and!; try done.
      * intros j Hj. simpl. by apply lookup_alter_ne.
      * intros q'. simpl. rewrite lookup_alter_eq, Hq. by intros [= <-].
      * simpl. by rewrite lookup_alter_eq, Hq.
      * intros _. eexists. simpl. rewrite lookup_alter_eq, Hq. split; [done|]. done.
    + apply Nat.eqb_neq in El.
      pose proof (start_worker_spec i (workspace q) l false (drop_request i s) w2 ltac:(change (0 < capacity c l); lia)) as Hs.
      destruct (start_worker i (workspace q) l false (drop_request i s) w2) as [[d s2] w3].
      destruct Hs as (Hd & Hp & Hc & Hb). rewrite Hp. split_and!; try done.
      * intros j Hj. simpl. by rewrite lookup_delete_ne.
      * simpl. by rewrite lookup_delete_eq.
      * intros _. right. exists l. tauto.
      * intros l' b ->. destruct Hd as [[= -> ->]|]; [lia|done].
      * intros [-> | ->]; by destruct Hd.
Qed.

(** ** The loop *)

Lemma dispatch_loop_spec order : forall s w,
  NoDup order -> (forall i, i ∈ order -> is_Some (l_pending s !! i)) ->
  exists log s' w', dispatch_loop order s w = Some (log, s', w') /\
    (forall l, capacity (l_capacity s') l <= capacity (l_capacity s) l) /\
    (forall l, budget s' l <= budget s l) /\
    (forall i, i ∉ order -> l_pending s' !! i = l_pending s !! i) /\
    (forall i q', l_pending s' !! i = Some q' ->
       exists q, l_pending s !! i = Some q /\ recency q' = recency q /\ workspace q' = workspace q) /\
    (forall i, is_Some (l_pending s !! i) -> l_pending s' !! i = None ->
       exists d, (i, d) ∈ log /\ leaves d) /\
    (exists rest, order = map fst log ++ rest) /\
    (forall j l b, (j, StartedIn l b) ∈ log -> 0 < capacity (l_capacity s) l) /\
    (forall l1 i d l2, log = l1 ++ (i, d) :: l2 -> refused d ->
       exists q', l_pending s' !! i = Some q' /\
         forall j b, (j, StartedIn (lane q') b) ∉ l2).
Proof.
  induction order as [|i order IH]; intros s w Hnd Hin; cbn [dispatch_loop].
  { exists [], s, w. split_and!; try done.
    - intros i q' Hq. by exists q'.
    - intros i [q Hq] Hn. congruence.
    - by exists [].
    - by intros j l b ?%not_elem_of_nil.
    - intros [|] ? ? ? Hl; discriminate. }
  case_match.
  { exists [], s, w. split_and!; try done.
    - intros i' q' Hq. by exists q'.
    - intros i' [q Hq] Hn. congruence.
    - by eexists.
    - by intros j l b ?%not_elem_of_nil.
    - intros [|] ? ? ? Hl; discriminate. }
  apply NoDup_cons in Hnd as [Hni Hnd]. destruct (Hin i) as [q Hq]; [by left|].
  rewrite Hq. cbn [mbind option_bind].
  pose proof (dispatch_request_spec i q s w Hq) as H1.
  destruct (dispatch_request i q s w) as [[d s1] w1].
  destruct H1 as (Hc1 & Hb1 & Ho1 & Hk1 & Hn1 & Hs1 & Hr1).
  destruct (IH s1 w1 Hnd) as (log & s2 & w2 & -> & Hc2 & Hb2 & Ho2 & Hk2 & Hn2 & [rest Hrest] & Hs2 & Hr2).
  { intros j Hj. rewrite Ho1 by (intros ->; done). apply Hin. by right. }
  cbn [mbind option_bind]. exists ((i, d) :: log), s2, w2. split_and!.
  - done.
  - intros l. etrans; [apply Hc2|apply Hc1].
  - intros l. etrans; [apply Hb2|apply Hb1].
  - intros j [Hne Hj]%not_elem_of_cons. rewrite Ho2 by done. by apply Ho1.
  - intros j q' Hj. destruct (Hk2 j q' Hj) as (q1 & Hq1 & Hrec & Hws).
    destruct (decide (j = i)) as [->|Hne].
    + destruct (Hk1 q1 Hq1) as [? ?]. exists q. split_and!; [done|congruence|congruence].
    + rewrite Ho1 in Hq1 by done. by exists q1.
  - intros j Hj Hnone. destruct (l_pending s1 !! j) as [q1|] eqn:E.
    + destruct (Hn2 j) as (d' & ? & ?); [by rewrite E|done|]. exists d'. split; [by right|done].
    + destruct (decide (j = i)) as [->|Hne].
      * exists d. split; [by left|by apply Hn1].
      * rewrite Ho1 in E by done. destruct Hj as [? Hj]. congruence.
  - exists rest. simpl. by rewrite Hrest.
  - intros j l b [[= -> Hd]|Hj]%elem_of_cons; [by eapply Hs1|].
    apply Hs2 in Hj. pose proof (Hc1 l). lia.
  - intros l1 j d' l2 Hlog Hd'. destruct l1 as [|x l1]; simpl in Hlog.
    + injection Hlog as -> -> ->. destruct (Hr1 Hd') as (q' & Hq' & Hz). exists q'.
      rewrite Ho2 by done. split; [done|]. intros j' b Hj'. apply Hs2 in Hj'. lia.
    + injection Hlog as _ Hlog. by eapply Hr2.
Qed.

(** ** The invariant *)

(** [n] is the number of places per lane that the configuration allows. *)
Definition queue_inv (n : nat) (st : QueueState) : Prop :=
  size (pending st) <= MAX_PENDING /\ pending_len st = size (pending st) /\
  (forall i q, pending st !! i = Some q -> (recency q <= counter st)%N /\ id (workspace q) = i) /\
  (forall i j qi qj, pending st !! i = Some qi -> pending st !! j = Some qj ->
     recency qi = recency qj -> i = j) /\
  (forall l, lane_count l (started st) <= n).

Definition fresh_map (p : gmap str PendingRequest) (c : N) : Prop :=
  (forall i q, p !! i = Some q -> (recency q <= c)%N /\ id (workspace q) = i) /\
  (forall i j qi qj, p !! i = Some qi -> p !! j = Some qj -> recency qi = recency qj -> i = j).

(** Writing an entry with a recency that was never used. *)
Lemma fresh_insert p c i q :
  fresh_map p c -> recency q = (c + 1)%N -> id (workspace q) = i ->
  fresh_map (<[i := q]> p) (c + 1).
Proof.
  intros [Hle Hd] Hr Hi. split.
  - intros j qj [[<- <-]|[Hne Hj]]%lookup_insert_Some; [split; [lia|done]|].
    destruct (Hle j qj Hj). split; [lia|done].
  - intros j1 j2 q1 q2 H1 H2 He.
    apply lookup_insert_Some in H1 as [[<- <-]|[Hn1 H1]], H2 as [[<- <-]|[Hn2 H2]].
    + done.
    + destruct (Hle j2 q2 H2). lia.
    + destruct (Hle j1 q1 H1). lia.
    + by eapply Hd.
Qed.

Lemma fresh_le p c c' : fresh_map p c -> (c <= c')%N -> fresh_map p c'.
Proof. intros [Hle Hd] Hc. split; [|done]. intros i q Hq. destruct (Hle i q Hq). split; [lia|done]. Qed.

Lemma fresh_submap p p' c :
  fresh_map p c ->
  (forall i q', p' !! i = Some q' ->
     exists q, p !! i = Some q /\ recency q' = recency q /\ workspace q' = workspace q) ->
  fresh_map p' c.
Proof.
  intros [Hle Hd] Hs. split.
  - intros i q' Hq. destruct (Hs i q' Hq) as (q & Hp & Hr & Hw). rewrite Hr, Hw. by apply Hle.
  - intros i j qi qj Hi Hj He. destruct (Hs i qi Hi) as (q1 & H1 & R1 & _), (Hs j qj Hj) as (q2 & H2 & R2 & _).
    eapply Hd; [exact H1|exact H2|congruence].
Qed.

Lemma touch_inv n ids locked st : queue_inv n st -> queue_inv n (touch ids locked st).
Proof.
  intros (Hsz & Hlen & Hle & Hd & Hn). unfold touch. case_match; [by split_and!|].
  case_match; [by split_and!|].
  assert (forall ids p c, fresh_map p c ->
    let '(p', c') := foldl touch_one (p, c) ids in fresh_map p' c' /\ size p' = size p) as Hf.
  { clear. induction ids as [|i ids IH]; intros p c Hf; [done|]. cbn [foldl touch_one].
    destruct (p !! i) as [q|] eqn:E.
    - specialize (IH (<[i := set_recency (c + 1) q]> p) (c + 1)%N).
      destruct (foldl touch_one _ ids) as [p' c']. destruct IH as [IH1 IH2].
      + apply fresh_insert; [done|done|]. by apply Hf in E as [_ E].
      + split; [done|]. by rewrite IH2, map_size_insert_Some.
    - apply IH. eapply fresh_le; [done|lia]. }
  specialize (Hf ids (pending st) (counter st) (conj Hle Hd)).
  destruct (foldl touch_one (pending st, counter st) ids) as [p' c']. destruct Hf as [[Hf1 Hf2] Hf3].
  unfold queue_inv. cbn [pending pending_len counter started]. rewrite Hf3. by split_and!.
Qed.

Lemma min_by_recency_spec l :
  l <> [] -> exists i q, min_by_recency l = Some i /\ (i, q) ∈ l /\
    forall j qj, (j, qj) ∈ l -> (recency q <= recency qj)%N.
Proof.
  unfold min_by_recency. set (f := fun (best : option (str * PendingRequest)) kv => _).
  assert (forall l b, exists kv, foldl f (Some b) l = Some kv /\ kv ∈ b :: l /\
    forall kv', kv' ∈ b :: l -> (recency (snd kv) <= recency (snd kv'))%N) as Hmin.
  { clear. induction l as [|x l IH]; intros b; cbn [foldl].
    - exists b. split_and!; [done|by left|]. by intros kv' ->%list_elem_of_singleton.
    - unfold f at 2. destruct (recency (snd x) <? recency (snd b))%N eqn:E; bool_to_prop.
      + destruct (IH x) as (kv & Hf & Hin & Hall). exists kv. split_and!; [done|by right|].
        intros kv' [->|Hk]%elem_of_cons; [|by apply Hall].
        pose proof (Hall x ltac:(by left)). lia.
      + destruct (IH b) as (kv & Hf & Hin & Hall). exists kv. split_and!; [done| |].
        * apply elem_of_cons in Hin as [->|Hin]; [by left|by right; right].
        * intros kv' [->|[->|Hk]%elem_of_cons]%elem_of_cons.
          -- apply Hall. by left.
          -- pose proof (Hall b ltac:(by left)). lia.
          -- apply Hall. by right. }
  destruct l as [|x l]; [done|]. intros _. cbn [foldl]. change (f None x) with (Some x).
  destruct (Hmin l x) as ([i q] & Hf & Hin & Hall). exists i, q. rewrite Hf. split_and!; [done|done|].
  intros j qj Hj. by apply (Hall (j, qj)).
Qed.

(** What a request becomes: never less than a waiting one asked for. *)
Definition merged (ws : Workspace) (p : EnhancementPolicy) (l : WorkerLane) (st : QueueState)
  : PendingRequest :=
  match pending st !! id ws with
  | Some waiting =>
    if policy_rank p <? policy_rank (policy waiting)
    then MkRequest ws (policy waiting) (lane waiting) (counter st + 1) true
    else MkRequest ws p l (counter st + 1) true
  | None => MkRequest ws p l (counter st + 1) true
  end.

Lemma request_pending ws p st (w : W) l w' :
  policy_lane p ws w = (Some l, w') ->
  let q := <[id ws := merged ws p l st]> (pending st) in
  fst (request ws p st w) =
  let q := if MAX_PENDING <? size q then
             match min_by_recency (map_to_list q) with Some o => delete o q | None => q end
           else q in
  MkQueue q (started st) (counter st + 1) (size q).
Proof.
  intros Hl. unfold request, merged. rewrite Hl. cbn [fst].
  destruct (pending st !! id ws) as [waiting|]; [|done]. by destruct (_ <? _).
Qed.

Lemma request_none ws p st (w : W) w' : policy_lane p ws w = (None, w') -> fst (request ws p st w) = st.
Proof. intros Hl. unfold request. by rewrite Hl. Qed.

Lemma merged_fields ws p l st :
  workspace (merged ws p l st) = ws /\ recency (merged ws p l st) = (counter st + 1)%N.
Proof. unfold merged. repeat case_match; done. Qed.

(** The request that overflows the queue pushes out the oldest other one. *)
Lemma evicted_spec n st ws p l :
  queue_inv n st -> let q := <[id ws := merged ws p l st]> (pending st) in
  MAX_PENDING < size q ->
  exists o qo, min_by_recency (map_to_list q) = Some o /\ o <> id ws /\ pending st !! o = Some qo /\
    size q = S MAX_PENDING /\ size (delete o q) = MAX_PENDING /\
    forall j qj, pending st !! j = Some qj -> (recency qo <= recency qj)%N.
Proof.
  intros (Hsz & Hlen & Hle & Hd & Hn) q Hbig. destruct (merged_fields ws p l st) as [_ Hrec].
  assert (pending st !! id ws = None) as Hnew.
  { destruct (pending st !! id ws) eqn:E; [|done]. exfalso. unfold q in Hbig.
    rewrite map_size_insert, E in Hbig. simpl in Hbig. lia. }
  assert (size q = S (size (pending st))) as Hq by (unfold q; by rewrite map_size_insert_None).
  assert (map_to_list q <> []) as Hne.
  { intros He. apply map_to_list_empty_iff in He. unfold q in He. by apply insert_non_empty in He. }
  destruct (min_by_recency_spec _ Hne) as (o & qo & Ho & Hin & Hmin).
  apply elem_of_map_to_list in Hin.
  assert (exists j qj, pending st !! j = Some qj) as (j & qj & Hj).
  { destruct (decide (pending st = ∅)) as [He|He].
    - rewrite He, map_size_empty in Hq. rewrite Hq in Hbig. unfold MAX_PENDING in Hbig. lia.
    - apply map_choose in He as (j & qj & Hj). by exists j, qj. }
  assert (o <> id ws) as Hone.
  { intros ->. unfold q in Hin. rewrite lookup_insert_eq in Hin. injection Hin as <-.
    assert (id ws <> j) as Hjne by congruence.
    specialize (Hmin j qj). rewrite elem_of_map_to_list in Hmin. unfold q in Hmin.
    rewrite lookup_insert_ne in Hmin by done. specialize (Hmin Hj). destruct (Hle j qj Hj). lia. }
  exists o, qo. unfold q in Hin. rewrite lookup_insert_ne in Hin by done.
  split_and!; try done; [lia| |].
  - rewrite map_size_delete_Some; [lia|]. unfold q. rewrite lookup_insert_ne by done. by eexists.
  - intros j' qj' Hj'. apply (Hmin j'). apply elem_of_map_to_list. unfold q.
    rewrite lookup_insert_ne; [done|]. congruence.
Qed.

Lemma request_inv n ws p st w : queue_inv n st -> queue_inv n (fst (request ws p st w)).
Proof.
  intros Hinv. destruct (policy_lane p ws w) as [[l|] w'] eqn:El.
  2: { by erewrite request_none. }
  rewrite (request_pending _ _ _ _ _ _ El). cbv zeta.
  pose proof Hinv as (Hsz & Hlen & Hle & Hd & Hn). destruct (merged_fields ws p l st) as [Hws Hrec].
  set (q := <[id ws := merged ws p l st]> (pending st)).
  assert (fresh_map q (counter st + 1)) as Hq.
  { apply fresh_insert; [by split|done|by rewrite Hws]. }
  destruct (Nat.ltb_spec MAX_PENDING (size q)) as [Hbig|Hsmall].
  - destruct (evicted_spec n st ws p l Hinv Hbig) as (o & qo & Ho & _ & _ & _ & Hs & _).
    fold q in Hs, Ho. rewrite Ho. assert (fresh_map (delete o q) (counter st + 1)) as [Hq1 Hq2].
    { eapply fresh_submap; [exact Hq|]. intros i q' [_ Hi]%lookup_delete_Some. by exists q'. }
    unfold queue_inv. cbn [pending pending_len counter started]. rewrite Hs. by split_and!.
  - destruct Hq as [Hq1 Hq2]. unfold queue_inv. cbn [pending pending_len counter started].
    by split_and!.
Qed.

(** ** Dispatch *)

#[local] Instance later_trans : Transitive later.
Proof. intros a b c. unfold later. lia. Qed.
#[local] Instance later_total : Total later.
Proof. intros a b. unfold later. lia. Qed.

Definition ranked (p : gmap str PendingRequest) : list (N * str) :=
  (fun kv => (recency (snd kv), fst kv)) <$> map_to_list p.

Lemma dispatch_order_perm p : dispatch_order p ≡ₚ (map_to_list p).*1.
Proof.
  unfold dispatch_order. rewrite merge_sort_Permutation. rewrite <- list_fmap_compose.
  apply Permutation_refl', list_fmap_ext. by intros ? [].
Qed.

Lemma elem_of_dispatch_order p i : i ∈ dispatch_order p <-> is_Some (p !! i).
Proof.
  rewrite dispatch_order_perm, list_elem_of_fmap. split.
  - intros ([j q] & -> & Hin). apply elem_of_map_to_list in Hin. by eexists.
  - intros [q Hq]. exists (i, q). split; [done|]. by apply elem_of_map_to_list.
Qed.

Lemma dispatch_order_NoDup p : NoDup (dispatch_order p).
Proof. rewrite dispatch_order_perm. apply NoDup_fst_map_to_list. Qed.

(** A request comes before another one only if it is at least as recent. *)
Lemma dispatch_order_sorted p l1 i l2 j :
  dispatch_order p = l1 ++ i :: l2 -> j ∈ l2 ->
  exists qi qj, p !! i = Some qi /\ p !! j = Some qj /\ (recency qj <= recency qi)%N.
Proof.
  intros Ho Hj.
  assert (StronglySorted later (merge_sort later (ranked p))) as Hs.
  { by apply (StronglySorted_merge_sort later). }
  assert (forall x, x ∈ merge_sort later (ranked p) -> exists q, p !! snd x = Some q /\ fst x = recency q) as Hm.
  { intros x. rewrite merge_sort_Permutation. unfold ranked. rewrite list_elem_of_fmap.
    intros ([k q] & -> & Hin). apply elem_of_map_to_list in Hin. by exists q. }
  unfold dispatch_order in Ho. fold (ranked p) in Ho.
  apply fmap_app_inv in Ho as (m1 & m2 & _ & Hm2 & He).
  symmetry in Hm2. apply fmap_cons_inv in Hm2 as (x & m3 & -> & -> & ->).
  apply list_elem_of_fmap in Hj as (y & -> & Hy). rewrite He in Hs, Hm.
  destruct (Hm x) as (qi & Hqi & Hri); [apply elem_of_app; right; by left|].
  destruct (Hm y) as (qj & Hqj & Hrj); [apply elem_of_app; right; by right|].
  exists qi, qj. split_and!; [done|done|]. rewrite <- Hri, <- Hrj.
  clear - Hs Hy. induction m1 as [|z m1 IH]; simpl in Hs.
  - apply StronglySorted_inv in Hs as [_ Hf]. by eapply Forall_forall in Hf; [|exact Hy].
  - apply StronglySorted_inv in Hs as [Hs _]. by apply IH.
Qed.

Lemma lane_capacity_spec n m l w : fst (lane_capacity n m l w) <= n - lane_count l m.
Proof. unfold lane_capacity. destruct (free_places l w). simpl. lia. Qed.

Lemma dispatch_spec n st w :
  queue_inv n st -> (forall w, fst (places w) = n) ->
  exists log st' w', dispatch st w = Some (log, st', w') /\ queue_inv n st' /\
    (forall i q, pending st !! i = Some q -> pending st' !! i = None ->
       (exists w0, fst (root_is_gone (workspace q) w0) = true) \/
       (exists d, (i, d) ∈ log /\ leaves d)) /\
    (forall i q', pending st' !! i = Some q' ->
       exists q, pending st !! i = Some q /\ recency q' = recency q /\ workspace q' = workspace q) /\
    (forall l1 i d l2, log = l1 ++ (i, d) :: l2 ->
       (forall j e, (j, e) ∈ l2 -> exists qi qj, pending st !! i = Some qi /\
          pending st !! j = Some qj /\ (recency qj <= recency qi)%N) /\
       (refused d -> exists q', pending st' !! i = Some q' /\
          forall j b, (j, StartedIn (lane q') b) ∉ l2)).
Proof.
  intros (Hsz & Hlen & Hle & Hd & Hn) Hplaces. unfold dispatch.
  pose proof (retain_subseteq still_runs (map_to_list (started st)) (started st) w) as Hs.
  destruct (retain still_runs _ _ w) as [s w1]. cbn [fst] in Hs.
  pose proof (retain_subseteq root_present (map_to_list (pending st)) (pending st) w1) as Hp.
  pose proof (fun i q H1 => retain_dropped root_present (map_to_list (pending st)) (pending st) w1 i q H1
    (fun j b Hin => or_introl (proj1 (elem_of_map_to_list _ _ _) Hin))) as Hgone.
  destruct (retain root_present _ _ w1) as [p w2]. cbn [fst] in Hp, Hgone.
  specialize (Hplaces w2). destruct (places w2) as [n' w3]. cbn [fst] in Hplaces. subst n'.
  pose proof (lane_capacity_spec n s LaneHash w3) as Hh.
  destruct (lane_capacity n s LaneHash w3) as [h w4].
  pose proof (lane_capacity_spec n s LaneNeural w4) as Hu.
  destruct (lane_capacity n s LaneNeural w4) as [u w5]. cbn [fst] in Hh, Hu.
  assert (forall l, budget (MkLoop p s (MkCapacity h u)) l <= n) as Hbud.
  { intros l. unfold budget. cbn [l_started l_capacity].
    pose proof (lane_count_mono l s (started st) Hs). specialize (Hn l). destruct l; simpl; lia. }
  destruct (dispatch_loop_spec (dispatch_order p) (MkLoop p s (MkCapacity h u)) w5
              (dispatch_order_NoDup p)) as (log & s' & w' & -> & Hc' & Hb' & Ho' & Hk' & Hn' & [rest Hrest] & Hs' & Hr').
  { intros i. apply elem_of_dispatch_order. }
  cbn [mbind option_bind l_pending] in *. exists log. eexists _, _. split; [done|].
  assert (forall i q', l_pending s' !! i = Some q' ->
    exists q, pending st !! i = Some q /\ recency q' = recency q /\ workspace q' = workspace q) as Hsub.
  { intros i q' Hi. destruct (Hk' i q' Hi) as (q & Hq & ?). exists q. split; [|done].
    by eapply lookup_weaken. }
  cbn [pending started counter pending_len]. split_and!.
  - unfold queue_inv. cbn [pending started counter pending_len].
    destruct (fresh_submap _ _ _ (conj Hle Hd) Hsub) as [H1' H2']. split_and!; try done.
    + etrans; [|exact Hsz]. rewrite <- !size_dom. apply subseteq_size.
      intros i. rewrite !elem_of_dom. intros [q' Hi]. destruct (Hsub i q' Hi) as (q & Hq & _). by eexists.
    + intros l. pose proof (Hb' l) as Hbl. specialize (Hbud l). unfold budget in *. lia.
  - intros i q Hi Hnone. destruct (p !! i) as [qp|] eqn:Ep.
    + right. apply Hn'; [by rewrite Ep|done].
    + left. destruct (Hgone i q Hi Ep) as [w0 Hw0]. exists w0. unfold root_present in Hw0.
      destruct (root_is_gone (workspace q) w0) as [g w0']. simpl in *. by apply negb_false_iff in Hw0.
  - exact Hsub.
  - intros l1 i d l2 Hlog. split; [|by eapply Hr'].
    intros j e Hj. rewrite Hlog, map_app in Hrest. simpl in Hrest. rewrite <- app_assoc in Hrest.
    simpl in Hrest. destruct (dispatch_order_sorted p _ i _ j Hrest) as (qi & qj & Hqi & Hqj & Hr).
    { apply elem_of_app. left. apply list_elem_of_fmap. by exists (j, e). }
    exists qi, qj. split_and!; [by eapply lookup_weaken..|done].
Qed.

(** ** Properties *)

Lemma new_queue_inv n : queue_inv n new_queue.
Proof.
  unfold queue_inv, new_queue, lane_count. cbn. rewrite map_size_empty. split_and!; try done.
  - unfold MAX_PENDING. lia.
  - intros l. rewrite map_filter_empty, map_size_empty. lia.
Qed.

(** One operation on the queue, with whatever host. *)
Inductive queue_step : QueueState -> QueueState -> Prop :=
| step_touch ids locked st : queue_step st (touch ids locked st)
| step_request ws p st w : queue_step st (fst (request ws p st w))
| step_dispatch st w log st' w' :
    dispatch st w = Some (log, st', w') -> queue_step st st'.

(** With a constant limit of places, every queue reached from the empty one
    by touches, requests and dispatches holds at most 1024 requests, publishes
    their number exactly, keeps at most that many of its own live workers per
    lane, orders its requests strictly by recency, and its next dispatch does
    not panic, whatever the other processes do. *)
Theorem queue_bounded n st :
  (forall w, fst (places w) = n) -> rtc queue_step new_queue st ->
  size (pending st) <= MAX_PENDING /\ pending_len st = size (pending st) /\
  (forall l, lane_count l (started st) <= n) /\
  (forall i j qi qj, pending st !! i = Some qi -> pending st !! j = Some qj ->
     recency qi = recency qj -> i = j) /\
  (forall w, is_Some (dispatch st w)).
Proof.
  intros Hp Hr. assert (queue_inv n st) as Hinv.
  { pose proof (new_queue_inv n) as H0.
    revert H0. induction Hr as [|st st1 st2 Hs _ IH]; [done|]. intros Hinv. apply IH.
    destruct Hs as [ids locked st|ws p st w|st w log st' w' Hd].
    - by apply touch_inv.
    - by apply request_inv.
    - destruct (dispatch_spec n st w Hinv Hp) as (log' & st2' & w2' & Hd' & Hinv' & _).
      rewrite Hd in Hd'. injection Hd' as _ <- _. done. }
  pose proof Hinv as (? & ? & _ & ? & ?). split_and!; try done. intros w.
  destruct (dispatch_spec n st w Hinv Hp) as (log & st' & w' & -> & _). by eexists.
Qed.

(** A new request never weakens a waiting one and never displaces a more
    recent one: the workspace's entry gets the stronger policy, the newest
    recency and another chance for its hash vectors; the only other entry that
    can go is the least recently used one, and only when the queue was full. *)
Theorem request_spec n ws p st w l w' :
  queue_inv n st -> policy_lane p ws w = (Some l, w') ->
  let st' := fst (request ws p st w) in
  exists q, pending st' !! id ws = Some q /\ recency q = (counter st + 1)%N /\ hash_first q = true /\
    policy_rank (policy q) =
      match pending st !! id ws with
      | Some waiting => Nat.max (policy_rank p) (policy_rank (policy waiting))
      | None => policy_rank p
      end /\
    (forall i qi, i <> id ws -> pending st !! i = Some qi ->
       pending st' !! i = Some qi \/
       (pending st' !! i = None /\ size (pending st) = MAX_PENDING /\
        forall j qj, pending st !! j = Some qj -> (recency qi <= recency qj)%N)).
Proof.
  intros Hinv Hl. rewrite (request_pending _ _ _ _ _ _ Hl). cbv zeta. cbn [pending].
  destruct (merged_fields ws p l st) as [Hws Hrec].
  assert (hash_first (merged ws p l st) = true /\
    policy_rank (policy (merged ws p l st)) =
      match pending st !! id ws with
      | Some waiting => Nat.max (policy_rank p) (policy_rank (policy waiting))
      | None => policy_rank p
      end) as [Hh Hpol].
  { unfold merged. destruct (pending st !! id ws) as [q|]; [|done].
    destruct (Nat.ltb_spec (policy_rank p) (policy_rank (policy q))); simpl; split; done || lia. }
  exists (merged ws p l st).
  destruct (Nat.ltb_spec MAX_PENDING (size (<[id ws := merged ws p l st]> (pending st)))) as [Hbig|Hsmall].
  - destruct (evicted_spec n st ws p l Hinv Hbig) as (o & qo & -> & Hone & Ho & Hsize & Hdel & Hmin).
    rewrite lookup_delete_ne, lookup_insert_eq by done. split_and!; try done.
    intros i qi Hne Hi. destruct (decide (i = o)) as [->|Hio].
    + right. rewrite lookup_delete_eq. split; [done|]. rewrite Ho in Hi. injection Hi as <-.
      split; [|done]. destruct Hinv as (Hsz & _). rewrite map_size_insert in Hsize.
      destruct (pending st !! id ws); simpl in Hsize; unfold MAX_PENDING in *; lia.
    + left. rewrite lookup_delete_ne by done. by rewrite lookup_insert_ne.
  - rewrite lookup_insert_eq. split_and!; try done. intros i qi Hne Hi. left.
    by rewrite lookup_insert_ne.
Qed.

(** Dispatch loses no request and serves the recent ones first.  A request
    leaves the queue only because its root is gone, its work is done, or a start
    was attempted for it in its own lane; requests are looked at from the most
    recent to the oldest; and once a request was refused for lack of a place, no
    older request starts a worker in that lane in the same pass. *)
Theorem dispatch_fair n st w :
  queue_inv n st -> (forall w, fst (places w) = n) ->
  exists log st' w', dispatch st w = Some (log, st', w') /\
    (forall i q, pending st !! i = Some q -> pending st' !! i = None ->
       (exists w0, fst (root_is_gone (workspace q) w0) = true) \/
       (exists d, (i, d) ∈ log /\ leaves d)) /\
    (forall l1 i d l2, log = l1 ++ (i, d) :: l2 ->
       (forall j e, (j, e) ∈ l2 -> exists qi qj, pending st !! i = Some qi /\
          pending st !! j = Some qj /\ (recency qj <= recency qi)%N) /\
       (refused d -> exists q', pending st' !! i = Some q' /\
          forall j b, (j, StartedIn (lane q') b) ∉ l2)).
Proof.
  intros Hinv Hp. destruct (dispatch_spec n st w Hinv Hp) as (log & st' & w' & Hd & _ & Hl & _ & Hf).
  by exists log, st', w'.
Qed.
End Facts.

(** A host whose world is the list of live workers: two places per lane. *)
Definition toy_workers : Type := list (str * Z).
#[local] Instance toy_host : WorkerHost toy_workers := {|
  places w := (1, w);
  free_places _ w := (1, w);
  host_lane ws neural w := (Some (if neural then LaneNeural else LaneHash), w);
  needs_hash ws w := (true, w);
  worker ws w := (snd <$> List.find (fun kv => bool_decide (fst kv = id ws)) w, w);
  start ws l w := (true, (id ws, Z.of_nat (length w)) :: w);
  root_is_gone ws w := (false, w)
|}.
Definition ws_a : Workspace := MkWorkspace (lit "a") (lit "/a").
Definition ws_b : Workspace := MkWorkspace (lit "b") (lit "/b").
Definition toy_queue : QueueState :=
  fst (request ws_b MaintainExisting (fst (request ws_a MaintainExisting new_queue [])) []).

Lemma toy_queue_reachable : rtc queue_step new_queue toy_queue.
Proof.
  eapply rtc_l; [exact (step_request ws_a MaintainExisting new_queue [])|].
  eapply rtc_l; [exact (step_request ws_b MaintainExisting _ [])|]. apply rtc_refl.
Qed.

Lemma queue_bounded_witness : size (pending toy_queue) <= MAX_PENDING /\ size (pending toy_queue) = 2.
Proof.
  split; [|vm_compute; reflexivity].
  exact (proj1 (@queue_bounded toy_workers toy_host 1 toy_queue (fun w => eq_refl) toy_queue_reachable)).
Defined.

Lemma toy_queue_inv : queue_inv 1 toy_queue.
Proof.
  apply request_inv, request_inv, new_queue_inv.
Qed.

Lemma request_spec_witness :
  exists q, pending (fst (request ws_a Neural toy_queue [])) !! lit "a" = Some q /\
            policy_rank (policy q) = 2.
Proof.
  destruct (@request_spec toy_workers toy_host 1 ws_a Neural toy_queue [] LaneNeural [] toy_queue_inv
    ltac:(vm_compute; reflexivity))
    as (q & Hq & _ & _ & Hp & _).
  exists q. split; [exact Hq|]. rewrite Hp. vm_compute. reflexivity.
Defined.

Lemma dispatch_fair_witness :
  exists log st' w', dispatch toy_queue [] = Some (log, st', w') /\
    log = [(lit "b", StartedIn LaneHash false); (lit "a", NoPlace)].
Proof.
  destruct (@dispatch_fair toy_workers toy_host 1 toy_queue [] toy_queue_inv (fun w => eq_refl))
    as (log & st' & w' & Hd & _).
  exists log, st', w'. split; [exact Hd|]. vm_compute in Hd. injection Hd as <- _ _. reflexivity.
Defined.
