(* ===== verification/Staging.v ===== *)
(** * Publishing a fresh index: indexer/staging.rs.

  A rebuilt index is staged in a directory of its own and then moved over the
  live one.  The live stores are first moved into a backup directory, so that a
  failed promotion can be rolled back.  Every file operation may fail, as the
  parameter [faults] decides.  All artifacts are entries of the index directory;
  an entry is a file or a directory with opaque content. *)
From S2P Require Import Prelude Utf8 Decimal.

Abbreviation name := (list N).

(** ** Names of the index directory (workspace.rs) *)

(** [Path::with_extension] of a name that has an extension. *)
Definition with_extension (n : name) (ext : list N) : name :=
  match take_while (fun c => negb (c =? chr ".")%N) (reverse n), drop_while (fun c => negb (c =? chr ".")%N) (reverse n) with
  | _, [] => n ++ lit "." ++ ext
  | _, dot_stem => reverse dot_stem ++ ext
  end.

Definition metadata_path : name := lit "workspace.json".
Definition sqlite_path : name := lit "metadata.sqlite3".
Definition tantivy_dir : name := lit "tantivy".
Definition vector_path : name := lit "vectors.usearch".
Definition vector_neural_path : name := lit "vectors_neural.usearch".
Definition neural_profile_path : name := lit "neural_profile".
Definition neural_model_path : name := lit "neural_model.json".
Definition neural_backend_path : name := lit "neural_backend".
Definition index_format_version_path : name := lit "index_format_version".
Definition overlay_sqlite_path : name := lit "overlay.sqlite3".
Definition overlay_tantivy_dir : name := lit "overlay_tantivy".
Definition overlay_vector_path : name := lit "overlay_vectors.usearch".
Definition base_ref_path : name := lit "base_ref.json".
Definition index_incarnation_path : name := lit "index_incarnation".
Definition neural_tombstones_path : name := lit ".neural_tombstones".
Definition neural_tombstones_processing_path : name := lit ".neural_tombstones.processing".
Definition hash_tombstones_path : name := lit ".hash_tombstones".
Definition hash_tombstones_processing_path : name := lit ".hash_tombstones.processing".
Definition hash_enhanced_generation_path : name := lit ".hash_enhanced_generation".
Definition neural_enhanced_generation_path : name := lit ".neural_enhanced_generation".
Definition merkle_snapshot_path : name := lit "merkle_snapshot.json".

(** Prefixes and marker of staging.rs. *)
Definition STAGING_DIR_PREFIX : list N := lit ".fresh-index-staging-".
Definition BACKUP_DIR_PREFIX : list N := lit ".fresh-index-backup-".
Definition RETAINED_BACKUP_MARKER : list N := lit "retained".

Definition sqlite_sidecar_path (n : name) (suffix : list N) : name := n ++ suffix.

Definition main_store_artifacts : list name := [
  index_incarnation_path;
  sqlite_path;
  sqlite_sidecar_path sqlite_path (lit "-wal");
  sqlite_sidecar_path sqlite_path (lit "-shm");
  tantivy_dir;
  vector_path;
  with_extension vector_path (lit "usearch.bak");
  with_extension vector_path (lit "usearch.tmp");
  vector_neural_path;
  with_extension vector_neural_path (lit "usearch.bak");
  with_extension vector_neural_path (lit "usearch.tmp");
  neural_model_path;
  neural_profile_path;
  neural_backend_path;
  hash_tombstones_path;
  hash_tombstones_processing_path;
  hash_enhanced_generation_path;
  neural_tombstones_path;
  neural_tombstones_processing_path;
  neural_enhanced_generation_path ].

Definition overlay_store_artifacts : list name := [
  metadata_path;
  index_incarnation_path;
  overlay_sqlite_path;
  sqlite_sidecar_path overlay_sqlite_path (lit "-wal");
  sqlite_sidecar_path overlay_sqlite_path (lit "-shm");
  overlay_tantivy_dir;
  overlay_vector_path;
  with_extension overlay_vector_path (lit "usearch.bak");
  with_extension overlay_vector_path (lit "usearch.tmp");
  vector_neural_path;
  with_extension vector_neural_path (lit "usearch.bak");
  with_extension vector_neural_path (lit "usearch.tmp");
  neural_model_path;
  neural_profile_path;
  neural_backend_path;
  hash_tombstones_path;
  hash_tombstones_processing_path;
  neural_tombstones_path;
  neural_tombstones_processing_path;
  hash_enhanced_generation_path;
  neural_enhanced_generation_path;
  base_ref_path;
  merkle_snapshot_path;
  with_extension merkle_snapshot_path (lit "verified");
  index_format_version_path ].

(** ** The file system *)

Inductive Node := File (content : list N) | Dir (content : list N).
Definition is_file (n : option Node) : bool := match n with Some (File _) => true | _ => false end.
Definition is_dir (n : option Node) : bool := match n with Some (Dir _) => true | _ => false end.

(** rename(2) onto what is at the target. *)
Definition can_rename (src dst : option Node) : bool :=
  match src, dst with
  | None, _ => false
  | Some _, None => true
  | Some (File _), Some (File _) => true
  | Some (Dir _), Some (Dir c) => bool_decide (c = [])
  | _, _ => false
  end.

(** The file operations that may fail. *)
Inductive FileOp := Rename | Remove | MakeDir | Write (n : name).

(** Which operation fails next, and what a failed [remove_dir_all] leaves: of a
    store directory its content, of the staging and backup directories the
    entries it did not reach. *)
Record Faults (W : Type) := MkFaults {
  fails : FileOp -> W -> bool * W;
  leftover : W -> list N;
  staged_survives : W -> name -> bool;
  backup_survives : W -> nat -> bool
}.
Arguments fails {W} _ _ _.
Arguments leftover {W} _ _.
Arguments staged_survives {W} _ _ _.
Arguments backup_survives {W} _ _ _.

(** The live entries of the index directory, the staged ones, the backups by
    index with the retained marker, and the faults to come. *)
Record St (W : Type) := MkSt {
  live : gmap name Node;
  staged : option (gmap name Node);
  backup : option (gmap nat Node * bool);
  world : W
}.
Arguments MkSt {W} _ _ _ _.
Arguments live {W} _.
Arguments staged {W} _.
Arguments backup {W} _.
Arguments world {W} _.

Section Staging.
Context {W : Type} (faults : Faults W).

Definition set_world (st : St W) (w : W) : St W := MkSt (live st) (staged st) (backup st) w.
Definition staged_map (st : St W) : gmap name Node := unwrap_or ∅ (staged st).
Definition moved (st : St W) : gmap nat Node := match backup st with Some (m, _) => m | None => ∅ end.
Definition retained (st : St W) : bool := match backup st with Some (_, r) => r | None => false end.

(** [fs::rename(live_path, backup_path)]. *)
Definition back_up (i : nat) (a : name) (st : St W) : bool * St W :=
  let '(f, w) := fails faults Rename (world st) in
  match live st !! a, backup st with
  | Some n, Some (m, r) =>
    if negb f && can_rename (Some n) (m !! i)
    then (true, MkSt (delete a (live st)) (staged st) (Some (<[i := n]> m, r)) w)
    else (false, set_world st w)
  | _, _ => (false, set_world st w)
  end.

(** [fs::rename(backup_path, live_path)]. *)
Definition restore (i : nat) (a : name) (st : St W) : bool * St W :=
  let '(f, w) := fails faults Rename (world st) in
  match backup st with
  | Some (m, r) =>
    match m !! i with
    | Some n =>
      if negb f && can_rename (Some n) (live st !! a)
      then (true, MkSt (<[a := n]> (live st)) (staged st) (Some (delete i m, r)) w)
      else (false, set_world st w)
    | None => (false, set_world st w)
    end
  | None => (false, set_world st w)
  end.

(** [promote_path]. *)
Definition promote_path (s a : name) (st : St W) : bool * St W :=
  let '(f, w) := fails faults Rename (world st) in
  match staged_map st !! s with
  | Some n =>
    if negb f && can_rename (Some n) (live st !! a)
    then (true, MkSt (<[a := n]> (live st)) (Some (delete s (staged_map st))) (backup st) w)
    else (false, set_world st w)
  | None => (false, set_world st w)
  end.

Definition remove_path_if_exists (a : name) (st : St W) : bool * St W :=
  match live st !! a with
  | Some n =>
    let '(f, w) := fails faults Remove (world st) in
    if f then
      (false, MkSt (match n with Dir _ => <[a := Dir (leftover faults w)]> (live st) | File _ => live st end)
                (staged st) (backup st) w)
    else (true, MkSt (delete a (live st)) (staged st) (backup st) w)
  | None => (true, st)
  end.

(** [restore_main_store_backups] on [backups.iter().rev()]: stop at the first
    failure. *)
Fixpoint restore_all (rev_backups : list (nat * name)) (st : St W) : bool * St W :=
  match rev_backups with
  | [] => (true, st)
  | (i, a) :: rest =>
    let '(ok, st) := restore i a st in
    if ok then restore_all rest st else (false, st)
  end.

Fixpoint remove_all (rev_promoted : list name) (st : St W) : bool * St W :=
  match rev_promoted with
  | [] => (true, st)
  | a :: rest =>
    let '(ok, st) := remove_path_if_exists a st in
    if ok then remove_all rest st else (false, st)
  end.

(** [promoted] and [backups] are kept in reverse. *)
Definition rollback_main_store (rev_promoted : list name) (rev_backups : list (nat * name))
    (st : St W) : bool * St W :=
  let '(ok, st) := remove_all rev_promoted st in
  if ok then restore_all rev_backups st else (false, st).

(** [let _ = fs::write(marker)] and [let _ = fs::remove_dir_all(..)]. *)
Definition write_marker (st : St W) : St W :=
  let '(f, w) := fails faults (Write RETAINED_BACKUP_MARKER) (world st) in
  match backup st with
  | Some (m, r) => MkSt (live st) (staged st) (Some (m, r || negb f)) w
  | None => set_world st w
  end.
Definition remove_backup_dir (st : St W) : St W :=
  let '(f, w) := fails faults Remove (world st) in
  let left (e : gmap nat Node * bool) :=
    (filter (fun kv => backup_survives faults w kv.1 = true) e.1, e.2) in
  MkSt (live st) (staged st) (if f then left <$> backup st else None) w.
Definition remove_staging_dir (st : St W) : St W :=
  let '(f, w) := fails faults Remove (world st) in
  let left (m : gmap name Node) := filter (fun kv => staged_survives faults w kv.1 = true) m in
  MkSt (live st) (if f then left <$> staged st else None) (backup st) w.

Inductive Outcome := Promoted | Failed | RollbackFailed.

(** The loop that preserves the live stores. *)
Fixpoint back_up_loop (artifacts : list (nat * name)) (rev_backups : list (nat * name)) (st : St W)
  : option Outcome * list (nat * name) * St W :=
  match artifacts with
  | [] => (None, rev_backups, st)
  | (i, a) :: rest =>
    if is_none (live st !! a) then back_up_loop rest rev_backups st
    else
      let '(ok, st) := back_up i a st in
      if ok then back_up_loop rest ((i, a) :: rev_backups) st
      else
        let '(restored, st) := restore_all rev_backups st in
        if restored then (Some Failed, rev_backups, remove_backup_dir st)
        else (Some RollbackFailed, rev_backups, write_marker st)
  end.

(** The loop that publishes. *)
Fixpoint promote_loop (promotions : list (name * name)) (rev_promoted : list name)
    (rev_backups : list (nat * name)) (st : St W) : option Outcome * St W :=
  match promotions with
  | [] => (None, st)
  | (s, a) :: rest =>
    let '(ok, st) := promote_path s a st in
    if ok then promote_loop rest (a :: rev_promoted) rev_backups st
    else
      let '(rolled_back, st) := rollback_main_store rev_promoted rev_backups st in
      if rolled_back then (Some Failed, remove_backup_dir st)
      else (Some RollbackFailed, write_marker st)
  end.

Fixpoint enumerate (i : nat) (l : list name) : list (nat * name) :=
  match l with [] => [] | a :: l' => (i, a) :: enumerate (S i) l' end.

(** The three staged stores that must be there: SQLite, Tantivy, vectors. *)
Record Stores := MkStores { s_sqlite : name; s_tantivy : name; s_vector : name }.

(** [promote_artifacts] and the drop of the staging directory at its end;
    [uuid] is the new incarnation. *)
Definition promote_artifacts (stores : Stores) (artifacts : list name)
    (promotions : list (name * name)) (uuid : list N) (st : St W) : Outcome * St W :=
  let m := staged_map st in
  if negb (is_file (m !! s_sqlite stores) && is_dir (m !! s_tantivy stores)
           && is_file (m !! s_vector stores))
  then (Failed, remove_staging_dir st)
  else
    let '(f, w) := fails faults (Write index_incarnation_path) (world st) in
    if f || is_dir (m !! index_incarnation_path) then (Failed, remove_staging_dir (set_world st w))
    else
      let m := <[index_incarnation_path := File uuid]> m in
      let promotions := (index_incarnation_path, index_incarnation_path) :: promotions in
      let '(f, w) := fails faults MakeDir w in
      let st := MkSt (live st) (Some m) (backup st) w in
      if f then (Failed, remove_staging_dir st)
      else
        let st := MkSt (live st) (Some m) (Some (∅, false)) w in
        let '(r, rev_backups, st) := back_up_loop (enumerate 0 artifacts) [] st in
        match r with
        | Some o => (o, remove_staging_dir st)
        | None =>
          let '(r, st) := promote_loop promotions [] rev_backups st in
          match r with
          | Some o => (o, remove_staging_dir st)
          | None => (Promoted, remove_staging_dir (remove_backup_dir st))
          end
        end.

Definition main_stores : Stores := MkStores sqlite_path tantivy_dir vector_path.
Definition overlay_stores : Stores :=
  MkStores overlay_sqlite_path overlay_tantivy_dir overlay_vector_path.

Definition main_promotions : list (name * name) :=
  [(sqlite_path, sqlite_path); (tantivy_dir, tantivy_dir); (vector_path, vector_path)].

Definition promote (uuid : list N) (st : St W) : Outcome * St W :=
  promote_artifacts main_stores main_store_artifacts main_promotions uuid st.

(** The staged snapshot's stamp is promoted when there is one. *)
Definition overlay_promotions (staged : gmap name Node) : list (name * name) :=
  let same n : name * name := (n, n) in
  let verified := with_extension merkle_snapshot_path (lit "verified") in
  map same [overlay_sqlite_path; overlay_tantivy_dir; overlay_vector_path; base_ref_path;
            merkle_snapshot_path; index_format_version_path]
  ++ (if is_file (staged !! verified) then [same verified] else [])
  ++ [same metadata_path].

Definition promote_overlay (uuid : list N) (st : St W) : Outcome * St W :=
  let promotions := overlay_promotions (staged_map st) in
  if forallb (fun p => is_some (staged_map st !! fst p)) promotions
  then promote_artifacts overlay_stores overlay_store_artifacts promotions uuid st
  else (Failed, remove_staging_dir st).
End Staging.

(** ** Abandoned directories *)

(** An entry of the index directory: its name, whether it is a directory, and
    the names in it. *)
Record IndexEntry := MkIndexEntry {
  entry_name : list N;
  entry_is_dir : bool;
  entry_children : list (list N)
}.

Definition abandoned (e : IndexEntry) : bool :=
  starts_with STAGING_DIR_PREFIX (entry_name e) ||
  (starts_with BACKUP_DIR_PREFIX (entry_name e)
   && negb (bool_decide (RETAINED_BACKUP_MARKER ∈ entry_children e))).

(** [remove_abandoned_staging]; [removable] says which removals succeed. *)
Definition remove_abandoned_staging (removable : list N -> bool) (entries : list IndexEntry)
  : list IndexEntry :=
  filter (fun e => negb (abandoned e && entry_is_dir e && removable (entry_name e)) = true) entries.

(** * Publication is all or nothing: whatever file operations fail, the live
    index is the new generation, the old one, or the old one is still whole
    between the live directory and a backup that is kept. *)

Section Facts.
Context {W : Type} (faults : Faults W).
Context (L0 : gmap name Node) (A : list name) (HA : NoDup A).

(** The generation before: artifact [i] of the list, if it exists. *)
Definition old (i : nat) : option Node := a ← A !! i; L0 !! a.

(** The artifacts in the backup. *)
Definition backed (S : list nat) (a : name) : Prop := exists i, i ∈ S /\ A !! i = Some a.

(** What is where: [S] the artifacts moved to the backup, [T] the entries
    published over the live directory. *)
Definition shape (S : list nat) (T : gmap name Node) (st : St W) : Prop :=
  (forall a n, T !! a = Some n -> live st !! a = Some n) /\
  (forall a, T !! a = None -> backed S a -> live st !! a = None) /\
  (forall a, T !! a = None -> ~ backed S a -> live st !! a = L0 !! a) /\
  (forall i, i ∈ S -> exists n, old i = Some n /\ moved st !! i = Some n) /\
  (forall i, i ∉ S -> moved st !! i = None) /\
  (forall a, is_Some (T !! a) -> (backed S a \/ L0 !! a = None) /\ a ∈ A) /\
  is_Some (backup st).

Lemma shape_start st : live st = L0 -> moved st = ∅ -> is_Some (backup st) -> shape [] ∅ st.
Proof.
  intros Hl Hm Hb. unfold shape, backed. rewrite Hl, Hm. split_and!; try done.
  - intros a _ (i & Hi & _). by apply not_elem_of_nil in Hi.
  - by intros i ?%not_elem_of_nil.
  - intros a [n Hn]. by rewrite lookup_empty in Hn.
Qed.

Lemma backed_unique S i a : A !! i = Some a -> backed S a -> i ∈ S.
Proof.
  intros Hi (j & Hj & Ha). by rewrite (NoDup_lookup A i j a HA Hi Ha).
Qed.

Lemma back_up_spec S i a n st :
  shape S ∅ st -> A !! i = Some a -> i ∉ S -> live st !! a = Some n ->
  let '(ok, st') := back_up faults i a st in
  if ok then shape (i :: S) ∅ st' /\ staged st' = staged st
  else shape S ∅ st' /\ staged st' = staged st.
Proof.
  intros (H1 & H2 & H3 & H4 & H5 & H6 & [[m r] Hb]) Hi Hni Hl.
  assert (~ backed S a) as Hnb by (intros ?; by eapply Hni, backed_unique).
  assert (L0 !! a = Some n) as H0 by (rewrite <- H3; [done|apply lookup_empty|done]).
  assert (old i = Some n) as Hold by (unfold old; by rewrite Hi).
  assert (m !! i = None) as Hmi by (specialize (H5 i Hni); unfold moved in H5; by rewrite Hb in H5).
  unfold back_up. destruct (fails faults _ (world st)) as [f w]. rewrite Hl, Hb, Hmi.
  destruct f; cbn [negb andb can_rename].
  { split; [|done]. unfold shape, moved in *. cbn. rewrite Hb in *. by split_and!. }
  destruct n; (split; [|done]); unfold shape, moved in *; cbn; rewrite Hb in *.
  all: split_and!; try done.
  all: try (intros a' Ha' Hbk; destruct (decide (a' = a)) as [->|Hne];
    [by rewrite lookup_delete_eq|rewrite lookup_delete_ne by done; apply H2; [done|];
     destruct Hbk as (j & [->|Hj]%elem_of_cons & Haj); [congruence|by exists j]]).
  all: try (intros a' Ha' Hbk; rewrite lookup_delete_ne;
    [apply H3; [done|]; intros (j & Hj & Haj); apply Hbk; exists j; split; [by right|done]
    |intros ->; apply Hbk; exists i; split; [by left|done]]).
  all: try (intros j [->|Hj]%elem_of_cons;
    [eexists; split; [exact Hold|apply lookup_insert_eq]
    |rewrite lookup_insert_ne by (intros ->; done); by apply H4]).
  all: try (intros j [Hne Hj]%not_elem_of_cons; rewrite lookup_insert_ne by done; by apply H5).
  all: intros a' [n' Hn']; by rewrite lookup_empty in Hn'.
Qed.

(** Restoring artifact [i], which nothing published stands in the way of. *)
Lemma restore_spec S1 i S2 a st :
  shape (S1 ++ i :: S2) ∅ st -> NoDup (S1 ++ i :: S2) -> A !! i = Some a ->
  let '(ok, st') := restore faults i a st in
  staged st' = staged st /\
  if ok then shape (S1 ++ S2) ∅ st' else shape (S1 ++ i :: S2) ∅ st'.
Proof.
  intros (H1 & H2 & H3 & H4 & H5 & H6 & [[m r] Hb]) Hnd Hi.
  destruct (H4 i) as (n & Hold & Hm); [apply elem_of_app; right; by left|].
  assert (live st !! a = None) as Hl.
  { apply H2; [apply lookup_empty|]. exists i. split; [|done]. apply elem_of_app. right. by left. }
  assert (L0 !! a = Some n) as H0 by (unfold old in Hold; by rewrite Hi in Hold).
  apply NoDup_app in Hnd as (Hnd1 & Hdisj & [Hni Hnd2]%NoDup_cons).
  assert (i ∉ S1) as Hni1 by (intros Hin; apply (Hdisj i Hin); by left).
  assert (forall j, j ∈ S1 ++ i :: S2 <-> j = i \/ j ∈ S1 ++ S2) as Hin.
  { intros j. rewrite !elem_of_app, elem_of_cons. tauto. }
  unfold restore. destruct (fails faults _ (world st)) as [f w]. rewrite Hb, Hl.
  unfold moved in Hm, H4, H5. rewrite Hb in Hm, H4, H5. rewrite Hm. destruct f; cbn [negb andb].
  { split; [done|]. unfold shape, moved. cbn. rewrite Hb. by split_and!. }
  replace (can_rename (Some n) None) with true by by destruct n.
  split; [done|]. unfold shape, moved. cbn. split_and!.
  - by intros a' n' Hn'; rewrite lookup_empty in Hn'.
  - intros a' Ha' (j & Hj & Haj). assert (a' <> a) as Hne.
    { intros ->. pose proof (NoDup_lookup A j i a HA Haj Hi) as ->. apply elem_of_app in Hj as [?|?]; done. }
    rewrite lookup_insert_ne by done. apply H2; [done|]. exists j. split; [|done]. apply Hin. by right.
  - intros a' Ha' Hnb. destruct (decide (a' = a)) as [->|Hne]; [by rewrite lookup_insert_eq|].
    rewrite lookup_insert_ne by done. apply H3; [done|]. intros (j & Hj & Haj).
    apply Hin in Hj as [->|Hj]; [congruence|]. apply Hnb. by exists j.
  - intros j Hj. assert (j <> i) as Hne by (intros ->; apply elem_of_app in Hj as [?|?]; done).
    rewrite lookup_delete_ne by done. apply H4, Hin. by right.
  - intros j Hj. destruct (decide (j = i)) as [->|Hne]; [by rewrite lookup_delete_eq|].
    rewrite lookup_delete_ne by done. apply H5. rewrite Hin. intros [?|?]; done.
  - intros a' [n' Hn']. by rewrite lookup_empty in Hn'.
  - by eexists.
Qed.

Definition named (B : list (nat * name)) : Prop := Forall (fun ia => A !! fst ia = Some (snd ia)) B.

Lemma restore_all_spec B : forall st,
  named B -> NoDup (map fst B) -> shape (map fst B) ∅ st ->
  let '(ok, st') := restore_all faults B st in
  staged st' = staged st /\
  exists S, shape S ∅ st' /\ (ok = true -> S = []).
Proof.
  induction B as [|[i a] B IH]; intros st Hn Hnd Hs; cbn [restore_all].
  { split; [done|]. by exists []. }
  apply Forall_cons in Hn as [Hi Hn]. pose proof (restore_spec [] i (map fst B) a st Hs Hnd Hi) as Hr.
  destruct (restore faults i a st) as [ok st']. destruct Hr as [Hst Hr]. destruct ok.
  - cbn [map fst] in Hnd. apply NoDup_cons in Hnd as [_ Hnd]. specialize (IH st' Hn Hnd Hr).
    destruct (restore_all faults B st') as [ok st'']. destruct IH as [-> IH]. by split.
  - split; [done|]. by eexists.
Qed.

Lemma shape_live st : shape [] ∅ st -> live st = L0 /\ moved st = ∅.
Proof.
  intros (H1 & H2 & H3 & H4 & H5 & _). split; apply map_eq.
  - intros a. apply H3; [apply lookup_empty|]. intros (i & Hi & _). by apply not_elem_of_nil in Hi.
  - intros i. rewrite lookup_empty. apply H5, not_elem_of_nil.
Qed.

(** Every artifact that existed is in the backup. *)
Definition full (S : list nat) : Prop := forall i n, old i = Some n -> i ∈ S.

Lemma free_target S T a st :
  shape S T st -> full S -> a ∈ A -> T !! a = None -> live st !! a = None.
Proof.
  intros (H1 & H2 & H3 & _) Hf [i Hi]%list_elem_of_lookup HT.
  destruct (L0 !! a) as [n|] eqn:E.
  - apply H2; [done|]. exists i. split; [|done]. apply (Hf i n). unfold old. by rewrite Hi.
  - destruct (decide (i ∈ S)) as [Hin|Hni].
    + apply H2; [done|]. by exists i.
    + rewrite H3; [done|done|]. intros Hb. by eapply Hni, backed_unique.
Qed.

Lemma shape_insert S T a n st st' :
  shape S T st -> live st' = <[a := n]> (live st) -> backup st' = backup st ->
  (backed S a \/ L0 !! a = None) /\ a ∈ A -> shape S (<[a := n]> T) st'.
Proof.
  intros (H1 & H2 & H3 & H4 & H5 & H6 & H7) Hl Hb Ha. unfold shape, moved in *. rewrite Hl, Hb.
  split_and!; try done.
  - intros b m. rewrite !lookup_insert_Some. intros [[-> ->]|[Hne Hm]]; [by left|].
    right. split; [done|by apply H1].
  - intros b Hn Hbk. apply lookup_insert_None in Hn as [Hn Hne].
    rewrite lookup_insert_ne by done. by apply H2.
  - intros b Hn Hbk. apply lookup_insert_None in Hn as [Hn Hne].
    rewrite lookup_insert_ne by done. by apply H3.
  - intros b [m Hm]. apply lookup_insert_Some in Hm as [[-> ->]|[Hne Hm]]; [done|].
    apply H6. by eexists.
Qed.

Lemma shape_world S T st st' :
  shape S T st -> live st' = live st -> backup st' = backup st -> shape S T st'.
Proof. unfold shape, moved. by intros Hs -> ->. Qed.

Lemma promote_path_spec S T s a st :
  shape S T st -> full S -> a ∈ A -> T !! a = None ->
  let '(ok, st') := promote_path faults s a st in
  if ok then exists n, staged_map st !! s = Some n /\ shape S (<[a := n]> T) st' /\
    staged_map st' = delete s (staged_map st)
  else shape S T st'.
Proof.
  intros Hs Hf Ha HT. pose proof (free_target S T a st Hs Hf Ha HT) as Hfree.
  unfold promote_path. destruct (fails faults _ (world st)) as [f w].
  destruct (staged_map st !! s) as [n|] eqn:En; [|by eapply shape_world].
  rewrite Hfree. replace (can_rename (Some n) None) with true by by destruct n.
  destruct f; cbn [negb andb]; [by eapply shape_world|]. exists n. split_and!; [done| |done].
  eapply shape_insert; [exact Hs|done|done|]. split; [|done].
  apply list_elem_of_lookup in Ha as [i Hi]. destruct (L0 !! a) as [m|] eqn:E; [|by right].
  left. exists i. split; [|done]. apply (Hf i m). unfold old. by rewrite Hi.
Qed.

Lemma remove_spec S T a n st :
  shape S T st -> T !! a = Some n ->
  let '(ok, st') := remove_path_if_exists faults a st in
  if ok then shape S (delete a T) st' else exists T', shape S T' st'.
Proof.
  intros Hs HT. pose proof Hs as (H1 & H2 & H3 & H4 & H5 & H6 & H7).
  unfold remove_path_if_exists. rewrite (H1 a n HT). destruct (fails faults _ (world st)) as [[] w].
  - destruct n as [c|c]; [exists T; by eapply shape_world|]. eexists.
    eapply shape_insert; [exact Hs|done|done|]. apply H6. by eexists.
  - unfold shape, moved in *. cbn. split_and!; try done.
    + intros b m [Hne Hm]%lookup_delete_Some. rewrite lookup_delete_ne by done. by apply H1.
    + intros b Hb Hbk. destruct (decide (b = a)) as [->|Hne]; [by rewrite lookup_delete_eq|].
      rewrite lookup_delete_ne in Hb |- * by done. by apply H2.
    + intros b Hb Hbk. destruct (decide (b = a)) as [->|Hne].
      * rewrite lookup_delete_eq. destruct (H6 a) as [[?|Hn] _]; [by eexists|done|done].
      * rewrite lookup_delete_ne in Hb |- * by done. by apply H3.
    + intros b [m Hm]. apply lookup_delete_Some in Hm as [_ Hm]. apply H6. by eexists.
Qed.

Lemma remove_all_spec P : forall S T st,
  shape S T st -> NoDup P -> (forall a, is_Some (T !! a) <-> a ∈ P) ->
  let '(ok, st') := remove_all faults P st in
  if ok then shape S ∅ st' else exists T', shape S T' st'.
Proof.
  induction P as [|a P IH]; intros S T st Hs Hnd Hdom; cbn [remove_all].
  { assert (T = ∅) as ->; [|done]. apply map_eq. intros a. rewrite lookup_empty.
    destruct (T !! a) eqn:E; [|done]. exfalso. apply (not_elem_of_nil a), Hdom. by rewrite E. }
  apply NoDup_cons in Hnd as [Hni Hnd]. destruct (proj2 (Hdom a)) as [n Hn]; [by left|].
  pose proof (remove_spec S T a n st Hs Hn) as Hr.
  destruct (remove_path_if_exists faults a st) as [[] st']; [|done].
  apply (IH S (delete a T)); [done|done|]. intros b. destruct (decide (b = a)) as [->|Hne].
  - rewrite lookup_delete_eq. split; [by intros [? ?]|done].
  - rewrite lookup_delete_ne by done. rewrite Hdom, elem_of_cons. naive_solver.
Qed.

(** A rollback: the old generation exactly, or a state that still holds it. *)
Lemma rollback_spec P B S T st :
  shape S T st -> NoDup P -> (forall a, is_Some (T !! a) <-> a ∈ P) ->
  named B -> NoDup (map fst B) -> S = map fst B ->
  let '(ok, st') := rollback_main_store faults P B st in
  if ok then live st' = L0 else exists S' T', shape S' T' st'.
Proof.
  intros Hs Hnd Hdom Hn Hndb ->. unfold rollback_main_store.
  pose proof (remove_all_spec P _ T st Hs Hnd Hdom) as Hr.
  destruct (remove_all faults P st) as [[] st1]; [|destruct Hr as [T' Hr]; by eexists _, T'].
  pose proof (restore_all_spec B st1 Hn Hndb Hr) as Hb.
  destruct (restore_all faults B st1) as [ok st2]. destruct Hb as [_ (S' & Hs' & Hok)].
  destruct ok; [|by eexists S', ∅]. rewrite (Hok eq_refl) in Hs'. by apply shape_live.
Qed.

(** ** The two loops *)

(** The backup directory is marked as retained, unless that write is the
    operation that failed. *)
Definition marked (st : St W) : Prop :=
  exists w, world st = snd (fails faults (Write RETAINED_BACKUP_MARKER) w) /\
    (fst (fails faults (Write RETAINED_BACKUP_MARKER) w) = false -> retained st = true).

(** What a failed run leaves: the old generation is live, or it is still whole,
    part live and part in a backup directory that is marked. *)
Definition intact (o : Outcome) (st : St W) : Prop :=
  match o with
  | Promoted => False
  | Failed => live st = L0
  | RollbackFailed => (exists S T, shape S T st) /\ marked st
  end.

Lemma write_marker_shape S T st : shape S T st -> shape S T (write_marker faults st).
Proof.
  intros Hs. unfold write_marker. destruct (fails faults _ (world st)) as [f w].
  destruct (backup st) as [[m r]|] eqn:Eb; [|by eapply shape_world].
  unfold shape, moved in *. cbn. rewrite Eb in Hs.
  destruct Hs as (? & ? & ? & ? & ? & ? & _). split_and!; try done.
Qed.

Lemma write_marker_intact S T st :
  shape S T st -> intact RollbackFailed (write_marker faults st).
Proof.
  intros Hs. split; [by exists S, T; apply write_marker_shape|]. exists (world st).
  destruct Hs as (_ & _ & _ & _ & _ & _ & [[m r] Hb]). unfold write_marker, retained. rewrite Hb.
  destruct (fails faults _ (world st)) as [f w]. cbn. split; [done|]. intros ->. apply orb_true_r.
Qed.

Lemma remove_backup_dir_live st : live (remove_backup_dir faults st) = live st.
Proof. unfold remove_backup_dir. by destruct (fails faults _ (world st)) as [[] w]. Qed.

Lemma remove_staging_dir_same st :
  live (remove_staging_dir faults st) = live st /\ backup (remove_staging_dir faults st) = backup st.
Proof. unfold remove_staging_dir. by destruct (fails faults _ (world st)) as [[] w]. Qed.

Lemma back_up_loop_spec rest : forall j B st,
  drop j A = rest -> shape (map fst B) ∅ st -> named B -> NoDup (map fst B) ->
  (forall i, i ∈ map fst B -> i < j) -> (forall i n, i < j -> old i = Some n -> i ∈ map fst B) ->
  let '(r, B', st') := back_up_loop faults (enumerate j rest) B st in
  match r with
  | Some o => intact o st'
  | None => shape (map fst B') ∅ st' /\ named B' /\ NoDup (map fst B') /\ full (map fst B') /\
      staged st' = staged st
  end.
Proof.
  induction rest as [|a rest IH]; intros j B st Hd Hs Hn Hnd Hlt Hfull; cbn [enumerate back_up_loop].
  { split_and!; try done. intros i n Hi. apply (Hfull i n); [|done].
    unfold old in Hi. destruct (A !! i) eqn:E; [|done]. apply lookup_lt_Some in E.
    apply (f_equal length) in Hd. rewrite length_drop in Hd. simpl in Hd. lia. }
  assert (A !! j = Some a) as Hj.
  { rewrite <- (Nat.add_0_r j), <- lookup_drop, Hd. done. }
  assert (drop (S j) A = rest) as Hd'.
  { replace (S j) with (j + 1) by lia. by rewrite <- drop_drop, Hd. }
  assert (j ∉ map fst B) as Hnj by (intros Hin; apply Hlt in Hin; lia).
  destruct (live st !! a) as [n|] eqn:El; cbn [is_none is_some negb].
  2: { apply IH; try done; [intros i Hi; apply Hlt in Hi; lia|]. intros i n Hi Ho.
       destruct (decide (i = j)) as [->|Hne]; [|apply (Hfull i n); [lia|done]].
       unfold old in Ho. rewrite Hj in Ho. cbn in Ho. destruct Hs as (_ & _ & H3 & _).
       rewrite H3 in El; [congruence|apply lookup_empty|].
       intros Hb. by eapply Hnj, backed_unique. }
  pose proof (back_up_spec (map fst B) j a n st Hs Hj Hnj El) as Hb.
  destruct (back_up faults j a st) as [[] st1]; destruct Hb as [Hs1 Hst1].
  - specialize (IH (S j) ((j, a) :: B) st1 Hd'). cbn [map fst] in IH. rewrite <- Hst1. apply IH.
    + done.
    + by constructor.
    + by apply NoDup_cons.
    + intros i [->|Hi]%elem_of_cons; [lia|]. apply Hlt in Hi. lia.
    + intros i m Hi Ho. destruct (decide (i = j)) as [->|Hne]; [by left|right].
      apply (Hfull i m); [lia|done].
  - pose proof (restore_all_spec B st1 Hn Hnd Hs1) as Hr.
    destruct (restore_all faults B st1) as [ok st2]. destruct Hr as [_ (S' & Hs' & Hok)].
    destruct ok.
    + rewrite (Hok eq_refl) in Hs'. cbn [intact]. rewrite remove_backup_dir_live. by apply shape_live.
    + by apply (write_marker_intact S' ∅).
Qed.

Lemma promote_loop_spec promos : forall P B S T st,
  shape S T st -> full S -> named B -> NoDup (map fst B) -> S = map fst B ->
  NoDup P -> (forall a, is_Some (T !! a) <-> a ∈ P) ->
  NoDup (map fst promos) -> NoDup (map snd promos ++ P) -> (forall a, a ∈ map snd promos -> a ∈ A) ->
  let '(r, st') := promote_loop faults promos P B st in
  match r with
  | Some o => intact o st'
  | None => exists T', shape S T' st' /\
      (forall s a, (s, a) ∈ promos -> T' !! a = staged_map st !! s /\ is_Some (T' !! a)) /\
      (forall a, a ∉ map snd promos -> T' !! a = T !! a)
  end.
Proof.
  induction promos as [|[s a] promos IH]; intros P B S T st Hs Hf Hn Hnd HS HP Hdom Hs1 Hs2 HA';
    cbn [promote_loop].
  { exists T. split_and!; try done. by intros s a ?%not_elem_of_nil. }
  cbn [map fst snd app] in Hs1, Hs2, HA'. apply NoDup_cons in Hs1 as [Hni1 Hs1], Hs2 as [Hni2 Hs2].
  assert (T !! a = None) as HTa.
  { destruct (T !! a) eqn:E; [|done]. exfalso. apply Hni2, elem_of_app. right. apply Hdom. by rewrite E. }
  pose proof (promote_path_spec S T s a st Hs Hf (HA' a ltac:(by left)) HTa) as Hp.
  destruct (promote_path faults s a st) as [[] st1].
  - destruct Hp as (n & Hsn & Hs' & Hst).
    specialize (IH (a :: P) B S (<[a := n]> T) st1 Hs' Hf Hn Hnd HS).
    assert ((a ∉ map snd promos) /\ (a ∉ P)) as [Hna HnP] by (by apply not_elem_of_app).
    destruct (promote_loop faults promos (a :: P) B st1) as [[o|] st2].
    + apply IH; try done.
      * by apply NoDup_cons.
      * intros b. rewrite lookup_insert_is_Some, elem_of_cons, Hdom. split; [naive_solver|].
        intros [->|?]; [by left|]. destruct (decide (a = b)); [by left|by right].
      * rewrite <- Permutation_middle. by apply NoDup_cons.
      * intros b Hb. apply HA'. by right.
    + destruct IH as (T' & HT' & Hpr & Hother); try done.
      * by apply NoDup_cons.
      * intros b. rewrite lookup_insert_is_Some, elem_of_cons, Hdom. split; [naive_solver|].
        intros [->|?]; [by left|]. destruct (decide (a = b)); [by left|by right].
      * rewrite <- Permutation_middle. by apply NoDup_cons.
      * intros b Hb. apply HA'. by right.
      * exists T'. split_and!; [done| |].
        -- intros s' a' [[= -> ->]|Hin]%elem_of_cons.
           ++ rewrite Hother, lookup_insert_eq, Hsn by done. split; [done|by eexists].
           ++ destruct (Hpr s' a' Hin) as [-> Hsome]. split; [|done]. rewrite Hst.
              rewrite lookup_delete_ne; [done|]. intros ->. apply Hni1.
              by apply (list_elem_of_fmap_2 fst _ (s', a')).
        -- intros b [Hne Hb]%not_elem_of_cons. rewrite Hother by done.
           by rewrite lookup_insert_ne.
  - pose proof (rollback_spec P B S T st1 Hp HP Hdom Hn Hnd HS) as Hr.
    destruct (rollback_main_store faults P B st1) as [[] st2].
    + cbn [intact]. by rewrite remove_backup_dir_live.
    + destruct Hr as (S' & T' & Hr). by apply (write_marker_intact S' T').
Qed.
End Facts.

(** ** Whole runs *)

(** Nothing of the old generation is lost: each artifact that existed is live
    under its name or in the backup under its index. *)
Definition recoverable {W : Type} (A : list name) (before after : St W) : Prop :=
  is_Some (backup after) /\
  (forall i a n, A !! i = Some a -> live before !! a = Some n ->
     live after !! a = Some n \/ moved after !! i = Some n) /\
  (forall a, a ∉ A -> live after !! a = live before !! a).

(** The backup directory as a later run lists it, and that it is kept by that
    run's cleanup; the write of the marker is the last operation before the
    staging directory is dropped. *)
Definition backup_entry {W : Type} (id : list N) (st : St W) : IndexEntry :=
  MkIndexEntry (BACKUP_DIR_PREFIX ++ id) true
    ((if retained st then [RETAINED_BACKUP_MARKER] else [])
     ++ map (fun kv => format_nat (Z.of_nat kv.1)) (map_to_list (moved st))).

Definition kept {W : Type} (faults : Faults W) (after : St W) : Prop :=
  exists w, let '(f, w') := fails faults (Write RETAINED_BACKUP_MARKER) w in
    world after = snd (fails faults Remove w') /\
    (f = false -> forall removable id entries, backup_entry id after ∈ entries ->
      backup_entry id after ∈ remove_abandoned_staging removable entries).

(** What [promotions] publish over the directory: the staged entries under their
    names, no other artifact, and everything else as it was. *)
Definition published {W : Type} (A : list name) (promotions : list (name * name))
    (staged_before : gmap name Node) (before after : St W) : Prop :=
  (forall s a, (s, a) ∈ promotions -> live after !! a = staged_before !! s /\ is_Some (live after !! a)) /\
  (forall a, a ∉ map snd promotions -> live after !! a = if decide (a ∈ A) then None else live before !! a).

Definition atomic {W : Type} (faults : Faults W) (A : list name) (promotions : list (name * name)) (uuid : list N)
    (before : St W) (r : Outcome * St W) : Prop :=
  match fst r with
  | Promoted =>
    published A ((index_incarnation_path, index_incarnation_path) :: promotions)
      (<[index_incarnation_path := File uuid]> (staged_map before)) before (snd r)
  | Failed => live (snd r) = live before
  | RollbackFailed => recoverable A before (snd r) /\ kept faults (snd r)
  end.

Lemma shape_recoverable {W : Type} L0 A S T (before after : St W) :
  NoDup A -> live before = L0 -> shape L0 A S T after -> recoverable A before after.
Proof.
  intros HA HL (H1 & H2 & H3 & H4 & H5 & H6 & H7). unfold recoverable. rewrite HL.
  split_and!; [done| |].
  - intros i a n Hi Hn. destruct (decide (i ∈ S)) as [Hin|Hni].
    + right. destruct (H4 i Hin) as (m & Ho & ->). unfold old in Ho. rewrite Hi in Ho. cbn in Ho. congruence.
    + left. assert (~ backed A S a) as Hnb by (intros ?; by eapply Hni, backed_unique).
      rewrite H3; [done| |done]. destruct (T !! a) eqn:E; [|done]. exfalso.
      destruct (H6 a) as [[?|?] _]; [by rewrite E|done|congruence].
  - intros a Ha. apply H3.
    + destruct (T !! a) eqn:E; [|done]. exfalso. destruct (H6 a) as [_ ?]; [by rewrite E|done].
    + intros (i & _ & Hi). apply Ha. by eapply list_elem_of_lookup_2.
Qed.

(** A backup whose marker was written survives the cleanup of a later run, and
    so does everything that is neither staging nor backup. *)
Lemma cleanup_keeps_retained removable entries e :
  e ∈ entries -> abandoned e = false -> e ∈ remove_abandoned_staging removable entries.
Proof.
  intros Hin Ha. unfold remove_abandoned_staging. apply list_elem_of_filter. split; [|done].
  by rewrite Ha.
Qed.

Lemma retained_not_abandoned {W : Type} id (st : St W) :
  retained st = true -> abandoned (backup_entry id st) = false.
Proof.
  intros Hr. unfold abandoned, backup_entry. rewrite Hr. cbn [entry_name entry_children].
  rewrite bool_decide_true by (apply elem_of_app; left; by apply list_elem_of_singleton).
  by rewrite andb_false_r.
Qed.

Lemma marked_kept {W : Type} (faults : Faults W) st :
  marked faults st -> kept faults (remove_staging_dir faults st).
Proof.
  intros (w & Hw & Hr). exists w. destruct (fails faults (Write _) w) as [f w'] eqn:Ef. cbn in Hw, Hr.
  split.
  - unfold remove_staging_dir. rewrite Hw. by destruct (fails faults Remove w').
  - intros Hf removable id entries Hin. apply cleanup_keeps_retained; [done|].
    apply retained_not_abandoned. unfold retained.
    rewrite (proj2 (remove_staging_dir_same faults st)). by apply Hr.
Qed.

Lemma promote_artifacts_atomic {W : Type} (faults : Faults W) stores A promotions uuid st :
  let all := (index_incarnation_path, index_incarnation_path) :: promotions in
  NoDup A -> NoDup (map fst all) -> NoDup (map snd all) -> (forall a, a ∈ map snd all -> a ∈ A) ->
  atomic faults A promotions uuid st (promote_artifacts faults stores A promotions uuid st).
Proof.
  intros all HA Hf Hs Hin. unfold promote_artifacts, atomic.
  destruct (negb (is_file _ && is_dir _ && is_file _));
    [cbn [fst snd]; apply remove_staging_dir_same|].
  destruct (fails faults _ (world st)) as [f w].
  destruct (f || is_dir _); [cbn [fst snd]; by rewrite (proj1 (remove_staging_dir_same faults _))|].
  destruct (fails faults _ w) as [[] w1]; [cbn [fst snd]; by rewrite (proj1 (remove_staging_dir_same faults _))|].
  fold all. set (m := <[index_incarnation_path := File uuid]> (staged_map st)).
  set (st1 := MkSt (live st) (Some m) (Some (∅, false)) w1).
  cbv zeta. cbn [live]. fold st1.
  assert (shape (live st) A [] ∅ st1) as Hst1 by (by apply shape_start).
  assert (named A []) as Hn by constructor.
  pose proof (back_up_loop_spec faults (live st) A HA A 0 [] st1 eq_refl Hst1 Hn NoDup_nil_2) as Hb.
  destruct (back_up_loop faults (enumerate 0 A) [] st1) as [[r B] st2].
  assert (forall o st', intact faults (live st) A o st' ->
    match o with
    | Promoted => published A all m st (remove_staging_dir faults st')
    | Failed => live (remove_staging_dir faults st') = live st
    | RollbackFailed => recoverable A st (remove_staging_dir faults st') /\
        kept faults (remove_staging_dir faults st')
    end) as Hout.
  { intros o st' Ho. destruct (remove_staging_dir_same faults st') as [El Eb].
    destruct o; cbn [intact] in Ho; [done|by rewrite El|]. destruct Ho as [(S & T & Ho) Hm].
    split; [|by apply marked_kept]. eapply shape_recoverable; [exact HA|done|]. eapply shape_world; [exact Ho|done|done]. }
  destruct r as [o|].
  { cbn [fst snd]. apply Hout, Hb; [by intros i ?%not_elem_of_nil|intros; lia]. }
  destruct Hb as (Hs2 & Hn2 & Hnd2 & Hfull & Hst2); [by intros i ?%not_elem_of_nil|intros; lia|].
  pose proof (promote_loop_spec faults (live st) A HA all [] B (map fst B) ∅ st2 Hs2 Hfull Hn2 Hnd2
    eq_refl NoDup_nil_2) as Hp.
  destruct (promote_loop faults all [] B st2) as [r st3]. rewrite app_nil_r in Hp.
  assert (forall a : name, is_Some ((∅ : gmap name Node) !! a) <-> a ∈ []) as Hdom.
  { intros a. rewrite lookup_empty. split; [by intros []|by intros ?%not_elem_of_nil]. }
  specialize (Hp Hdom Hf Hs Hin). destruct r as [o|]; cbn [fst snd]; [by apply Hout|].
  destruct Hp as (T & HT & Hpr & Hother).
  assert (forall st', live (remove_staging_dir faults (remove_backup_dir faults st')) = live st') as El.
  { intros st'. rewrite (proj1 (remove_staging_dir_same _ _)). apply remove_backup_dir_live. }
  unfold published. rewrite El. destruct HT as (T1 & T2 & T3 & T4 & T5 & T6 & T7).
  assert (staged_map st2 = m) as Em by (unfold staged_map; by rewrite Hst2). rewrite Em in Hpr. split.
  - intros s a Hsa. destruct (Hpr s a Hsa) as [He [n Hn']]. rewrite (T1 a n Hn').
    split; [by rewrite <- He|by eexists].
  - intros a Ha. assert (T !! a = None) as HTn by (rewrite Hother by done; apply lookup_empty).
    case_decide as HaA.
    + pose proof HaA as [i Hi]%list_elem_of_lookup.
      destruct (live st !! a) as [n|] eqn:E.
      * apply T2; [done|]. exists i. split; [|done]. apply (Hfull i n). unfold old. by rewrite Hi.
      * destruct (decide (i ∈ map fst B)); [apply T2; [done|by exists i]|].
        rewrite T3; [done|done|]. intros Hbk. by eapply (backed_unique A HA) in Hbk.
    + apply T3; [done|]. intros (i & _ & Hi). by eapply HaA, list_elem_of_lookup_2.
Qed.

(** C29. Publishing a rebuilt main index is all or nothing, whichever file
    operations fail: on success exactly the staged stores and a new incarnation
    are live, every other artifact of the old generation is gone and all other
    files are untouched; a failure that rolls back leaves the live directory
    exactly as it was; and when the rollback fails too, each old artifact is
    still in its live place or in the backup, and unless the write of the
    retained marker is what failed no later cleanup removes that backup. *)
Theorem promote_all_or_nothing {W : Type} (faults : Faults W) uuid (st : St W) :
  atomic faults main_store_artifacts main_promotions uuid st (promote faults uuid st).
Proof.
  apply promote_artifacts_atomic.
  - apply (bool_decide_unpack _). vm_compute. exact I.
  - apply (bool_decide_unpack _). vm_compute. exact I.
  - apply (bool_decide_unpack _). vm_compute. exact I.
  - apply Forall_forall, (bool_decide_unpack _). vm_compute. exact I.
Qed.

(** So is publishing a worktree overlay, with its base reference, snapshot,
    format version and metadata, and the snapshot's stamp if one was staged; a
    missing staged artifact changes nothing. *)
Theorem promote_overlay_all_or_nothing {W : Type} (faults : Faults W) uuid (st : St W) :
  atomic faults overlay_store_artifacts (overlay_promotions (staged_map st)) uuid st
    (promote_overlay faults uuid st).
Proof.
  unfold promote_overlay. case_match; [|apply remove_staging_dir_same].
  unfold overlay_promotions. destruct (is_file _); apply promote_artifacts_atomic.
  all: try (apply (bool_decide_unpack _); vm_compute; exact I).
  all: apply Forall_forall, (bool_decide_unpack _); vm_compute; exact I.
Qed.
