(* ===== verification/Io.v ===== *)
(** * Programs that look at the outside world and leave a trace.

  [Io W E A] is a computation that moves a world [W] it knows nothing about,
  emits events [E] and returns an [A].  The world may change in any way at each
  call, so other processes are free to act between two steps.  [post m P] says
  that [m] always returns some [a] with a trace [t] such that [P a t]. *)
From S2P Require Import Prelude.

Definition Io (W E A : Type) : Type := W -> A * list E * W.

#[global] Instance io_ret {W E} : MRet (Io W E) := fun A a w => (a, [], w).
#[global] Instance io_bind {W E} : MBind (Io W E) := fun A B f m w =>
  let '(a, t1, w1) := m w in let '(b, t2, w2) := f a w1 in (b, t1 ++ t2, w2).

(** A look at the world, and an event. *)
Definition ask {W E A} (f : W -> A * W) : Io W E A := fun w => let '(a, w) := f w in (a, [], w).
Definition tell {W E} (e : E) : Io W E unit := fun w => (tt, [e], w).


(** A look at the world that leaves its answer in the trace. *)
Definition query {W E A} (f : W -> A * W) (e : A -> E) : Io W E A :=
  a ← ask f; _ ← tell (e a); mret a.

Definition post {W E A} (m : Io W E A) (P : A -> list E -> Prop) : Prop :=
  forall w, let '(a, t, _) := m w in P a t.

Lemma post_ret {W E A} (a : A) (P : A -> list E -> Prop) : P a [] -> post (W:=W) (mret a) P.
Proof. by intros HP w. Qed.

Lemma post_bind {W E A B} (m : Io W E A) (f : A -> Io W E B) Q :
  post m (fun a t => post (f a) (fun b t' => Q b (t ++ t'))) -> post (m ≫= f) Q.
Proof.
  intros Hm w. specialize (Hm w). unfold mbind, io_bind.
  destruct (m w) as [[a t1] w1]. specialize (Hm w1). by destruct (f a w1) as [[b t2] w2].
Qed.

Lemma post_ask {W E A} (f : W -> A * W) (P : A -> list E -> Prop) :
  (forall a, P a []) -> post (ask f) P.
Proof. intros HP w. unfold ask. destruct (f w). apply HP. Qed.

Lemma post_tell {W E} (e : E) (P : unit -> list E -> Prop) : P tt [e] -> post (W:=W) (tell e) P.
Proof. by intros HP w. Qed.

Lemma post_query {W E A} (f : W -> A * W) (e : A -> E) (P : A -> list E -> Prop) :
  (forall a, P a [e a]) -> post (query f e) P.
Proof. intros HP w. unfold query, mbind, io_bind, ask. destruct (f w). apply HP. Qed.

Lemma post_weaken {W E A} (m : Io W E A) (P Q : A -> list E -> Prop) :
  post m P -> (forall a t, P a t -> Q a t) -> post m Q.
Proof. intros Hm HPQ w. specialize (Hm w). destruct (m w) as [[a t] w']. by apply HPQ. Qed.

Lemma post_and {W E A} (m : Io W E A) (P Q : A -> list E -> Prop) :
  post m P -> post m Q -> post m (fun a t => P a t /\ Q a t).
Proof. intros HP HQ w. specialize (HP w); specialize (HQ w). by destruct (m w) as [[a t] w']. Qed.

(** Walk through a program: the known calls are taken apart, the others left. *)
Ltac io_step :=
  lazymatch goal with
  | |- post (mret _) _ => apply post_ret
  | |- post (mbind _ _) _ => apply post_bind
  | |- post (ask _) _ => apply post_ask; intros ?
  | |- post (tell _) _ => apply post_tell
  | |- post (query _ _) _ => apply post_query; intros ?
  end; cbn beta.
