(* ===== verification/IndexGc.v ===== *)
(** * Collecting the indexes of deleted roots: index_gc.rs.

  A pass looks at every indexed workspace and removes an index whose root is
  gone for good.  The file system, Git, the job ledgers and the holder's leases
  are the interface [GcHost]; a pass is an [Io] computation whose trace records
  the answers it got, as they were given, and what it locked and removed.  The process-wide mutex of a pass is not
  represented: it keeps two passes of one process apart. *)
From S2P Require Import Prelude Utf8 Decimal Paths Jobs Io.
From S2P Require Merkle.
Local Open Scope Z_scope.

Definition DELETED_WORKTREE_GRACE : Z := 10 * 60.
Definition MIN_PASS_INTERVAL : Z := 5.
Definition MAX_PASS_INTERVAL : Z := 10 * 60.
Definition DEFAULT_INDEX_GC_GRACE_SECS : Z := 7 * 24 * 60 * 60.

(** config.rs: [env] is the environment variable; seconds. *)
Definition index_gc_grace (env : option str) : option Z :=
  let secs := unwrap_or DEFAULT_INDEX_GC_GRACE_SECS (value ← env; parse_u64 (trim value)) in
  if 0 <? secs then Some secs else None.

(** [Duration]s in nanoseconds. *)
Definition NANOS : Z := 1000000000.
Definition pass_interval (env : option str) : option Z :=
  (fun grace => Z.min (Z.max (grace * NANOS / 4) (MIN_PASS_INTERVAL * NANOS)) (MAX_PASS_INTERVAL * NANOS))
    <$> index_gc_grace env.

Record WaitingIndex := MkWaiting { w_root : path; collect_after_unix : Z }.
Record CollectedIndex := MkCollected { c_root : path; c_index_dir : path }.
Record GcReport := MkReport {
  collected : list CollectedIndex;
  waiting : list WaitingIndex;
  in_use : list path
}.
Definition empty_report : GcReport := MkReport [] [] [].

Record BaseRef := MkBaseRef { base_index_dir : path; base_workspace_root : path }.

Inductive DirRemoval := DirGone | DirMissing | DirFailed.
Inductive LockState := NoLockFile | Taken | Busy | OpenFailed.
Inductive Removal := Removed | InUse | RootReturned.

(** What happened in a pass: what the host answered, and what was done to each
    index directory.  [ComparedAs] is the form a path took in the comparison with
    the worktrees Git lists. *)
Inductive Event :=
| Listed (entries : list (path * path))
| MetadataOf (root : path) (m : Result Merkle.ErrorKind Merkle.Metadata)
| BaseRefOf (d : path) (json : option (str -> option path))
| MarkerRead (d : path) (text : option str)
| MarkerWritten (d : path)
| MarkerRemoved (d : path)
| GitListed (base_root : path) (output : option (list N))
| ComparedAs (p : path) (form : list N)
| Reserved (d : path)
| LedgerRead (d : path) (ledger : bool * LedgerFile)
| ProcessesSeen (d : path) (alive : Z -> option str -> bool)
| ClockRead (d : path) (now : Z)
| LockFileSeen (d : path) (file : str) (exists_ : bool)
| LockOpened (d : path) (file : str) (opened : bool)
| LockTried (d : path) (file : str) (locked : bool)
| Released (d : path)
| StoreRemoved (d : path) (entry : path)
| Unlocked (d : path)
| DirRemoved (d : path) (r : DirRemoval).

(** A directory entry: its name and whether [file_type] says it is a
    directory. *)
Record GcDirEntry := MkEntry { e_name : path; e_is_dir : option bool }.

(** The calls of a pass.  [list_workspace_metadata] gives index directories with
    their roots; [base_ref_json] is the string fields of [base_ref.json];
    [git_worktree_list] the output of [git worktree list --porcelain -z];
    [ledger_file] whether the ledger can be read, and what it holds. *)
Class GcHost (W : Type) := {
  list_workspace_metadata : W -> option (list (path * path)) * W;
  metadata : path -> W -> Result Merkle.ErrorKind Merkle.Metadata * W;
  base_ref_json : path -> W -> option (str -> option path) * W;
  read_marker : path -> W -> option str * W;
  write_marker : path -> str -> W -> unit * W;
  remove_marker : path -> W -> unit * W;
  canonicalize : path -> W -> option path * W;
  git_worktree_list : path -> W -> option (list N) * W;
  reserve : path -> W -> unit * W;
  release : path -> W -> unit * W;
  ledger_file : path -> W -> (bool * LedgerFile) * W;
  alive_processes : W -> (Z -> option str -> bool) * W;
  now_unix : W -> Z * W;
  lock_exists : path -> str -> W -> bool * W;
  open_lock : path -> str -> W -> bool * W;
  try_lock_exclusive : path -> str -> W -> bool * W;
  unlock_all : path -> W -> unit * W;
  read_dir : path -> W -> option (list (option GcDirEntry)) * W;
  remove_entry : path -> path -> bool -> W -> bool * W;
  remove_index_dir : path -> W -> DirRemoval * W
}.

Section Gc.
Context {W : Type} `{GcHost W}.
Abbreviation IO := (Io W Event).

(** [root_is_gone] on what [fs::metadata] finds. *)
Definition check_root (root : path) : IO bool :=
  m ← query (metadata root) (MetadataOf root); mret (Merkle.root_is_gone m).

(** [PathBuf]s are equal, and hash alike, when their components are. *)
Definition path_key (p : path) : path := join_components (components p).

Definition read_base_ref (index_dir : path) : IO (option BaseRef) :=
  json ← query (base_ref_json index_dir) (BaseRefOf index_dir);
  mret (value ← json; a ← value (lit "base_index_dir"); b ← value (lit "base_workspace_root");
        Some (MkBaseRef a b)).

Definition read_missing_since (d : path) : IO (option Z) :=
  text ← query (read_marker d) (MarkerRead d);
  mret (value ← text; parse_u64 (trim value)).

(** The loop of [comparable_path]: what the existing part resolves to, if there
    is one, and the missing names, innermost first. *)
Fixpoint resolve_loop (fuel : nat) (existing : path) (missing : list (list N))
  : IO (option path * list (list N)) :=
  match fuel with
  | O => mret (None, missing)
  | S fuel =>
    r ← ask (canonicalize existing);
    match r with
    | Some resolved => mret (Some resolved, missing)
    | None =>
      match parent existing, file_name existing with
      | Some up, Some name => resolve_loop fuel up (missing ++ [name])
      | _, _ => mret (None, missing)
      end
    end
  end.

(** When no part exists the missing names are appended to the whole path. *)
Definition comparable_path (p : path) : IO (list N) :=
  r ← resolve_loop (S (length (components p))) p [];
  let resolved := foldl push (unwrap_or p (fst r)) (reverse (snd r)) in
  let text := replace_byte (chr "\") SEP (to_string_lossy resolved) in
  let form := unwrap_or text (strip_prefix (lit "//?/") text) in
  _ ← tell (ComparedAs p form); mret form.

Fixpoint comparable_paths (ps : list path) : IO (list (list N)) :=
  match ps with
  | [] => mret []
  | p :: ps => c ← comparable_path p; cs ← comparable_paths ps; mret (c :: cs)
  end.

Definition registered_worktrees (base_root : path) : IO (option (gset (list N))) :=
  m ← ask (metadata base_root);
  if (match m with Ok m => Merkle.is_dir m | Err _ => false end) then
    output ← query (git_worktree_list base_root) (GitListed base_root);
    match output with
    | None => mret None
    | Some stdout =>
      let fields := omap (strip_prefix (lit "worktree ")) (split_on 0%N stdout) in
      paths ← comparable_paths (map to_string_lossy fields);
      mret (Some (list_to_set paths))
    end
  else mret None.

(** [registered] caches the answer for each base. *)
Definition Registered : Type := gmap path (option (gset (list N))).

Definition worktree_is_unregistered (index_dir root : path) (registered : Registered)
  : IO (bool * Registered) :=
  base ← read_base_ref index_dir;
  match base with
  | None => mret (false, registered)
  | Some base_ref =>
    root ← comparable_path root;
    let base_root := base_workspace_root base_ref in
    let key := path_key base_root in
    registered ←
      match registered !! key with
      | Some _ => mret registered
      | None => worktrees ← registered_worktrees base_root; mret (<[key := worktrees]> registered)
      end;
    mret (match mjoin (registered !! key) with
          | Some worktrees => negb (bool_decide (root ∈ worktrees))
          | None => false
          end, registered)
  end.

(** ** Removing one index *)

Definition job_is_active (d : path) (k : JobKind) (ttl : Z) : IO bool :=
  file ← query (ledger_file d) (LedgerRead d);
  alive ← query alive_processes (ProcessesSeen d);
  now ← query now_unix (ClockRead d);
  mret (status_active (job_status_at alive (read_job_ledger (fst file) (snd file)) k ttl now)).

Definition LOCK_FILES : list str := [lit "index.lock"; lit "enhancement.lock"].

Definition try_lock (d : path) (file : str) : IO LockState :=
  exists_ ← query (lock_exists d file) (LockFileSeen d file);
  if exists_ : bool then
    opened ← query (open_lock d file) (LockOpened d file);
    if opened : bool then
      locked ← query (try_lock_exclusive d file) (LockTried d file);
      mret (if locked : bool then Taken else Busy)
    else mret OpenFailed
  else mret NoLockFile.

(** [None] when every lock that has a file is held. *)
Fixpoint take_locks (d : path) (files : list str) : IO (option (Result unit Removal)) :=
  match files with
  | [] => mret None
  | file :: files =>
    s ← try_lock d file;
    match s with
    | NoLockFile | Taken => take_locks d files
    | Busy => mret (Some (Ok InUse))
    | OpenFailed => mret (Some (Err tt))
    end
  end.

(** The removal of the stores: [true] when every entry but the locks is gone. *)
Fixpoint remove_stores (d : path) (entries : list (option GcDirEntry)) : IO bool :=
  match entries with
  | [] => mret true
  | None :: _ => mret false
  | Some e :: entries =>
    if bool_decide (e_name e ∈ LOCK_FILES) then remove_stores d entries
    else
      match e_is_dir e with
      | None => mret false
      | Some is_dir =>
        ok ← ask (remove_entry d (e_name e) is_dir);
        _ ← tell (StoreRemoved d (e_name e));
        if ok : bool then remove_stores d entries else mret false
      end
  end.

(** With the locks held and the root still gone: let go, remove the stores,
    close the locks, remove the directory. *)
Definition clear_index (d : path) : IO (Result unit Removal) :=
  _ ← ask (release d);
  _ ← tell (Released d);
  entries ← ask (read_dir d);
  match entries with
  | None => _ ← ask (unlock_all d); mret (Err tt)
  | Some entries =>
    cleared ← remove_stores d entries;
    _ ← ask (unlock_all d);
    _ ← tell (Unlocked d);
    if negb cleared then mret (Err tt)
    else
      r ← query (remove_index_dir d) (DirRemoved d);
      mret (match r with DirGone | DirMissing => Ok Removed | DirFailed => Err tt end)
  end.

Definition remove_unused_index (d : path) (still_gone : IO bool) : IO (Result unit Removal) :=
  _ ← ask (reserve d);
  _ ← tell (Reserved d);
  indexing ← job_is_active d Indexing INDEXING_HEARTBEAT_TTL_SECS;
  if indexing : bool then mret (Ok InUse)
  else
    enhancing ← job_is_active d Enhancement ENHANCEMENT_HEARTBEAT_TTL_SECS;
    if enhancing : bool then mret (Ok InUse)
    else
      blocked ← take_locks d LOCK_FILES;
      match blocked with
      | Some r => _ ← ask (unlock_all d); mret r
      | None =>
        gone ← still_gone;
        if negb gone then _ ← ask (unlock_all d); mret (Ok RootReturned)
        else clear_index d
      end.

(** ** The pass *)

(** What a pass decides about one index. *)
Inductive GcOutcome :=
| RootPresent
| Waiting (collect_after_unix : Z)
| StillUsed
| Collected
| Returned.

Definition effective_grace (unregistered : bool) (grace : Z) : Z :=
  if unregistered then Z.min grace DELETED_WORKTREE_GRACE else grace.

(** Asked again with the locks held: the root, and Git when only the shorter
    grace made the index due. *)
Definition still_gone (d root : path) (due_as_unregistered : bool) : IO bool :=
  gone ← check_root root;
  if gone : bool then
    if due_as_unregistered then
      r ← worktree_is_unregistered d root ∅; mret (fst r)
    else mret true
  else mret false.

(** The body of the loop of [collect_orphaned_indexes_at]. *)
Definition process_index (now grace : Z) (live_bases : gset path) (d root : path)
    (registered : Registered) : IO (Result unit GcOutcome * Registered) :=
  gone ← check_root root;
  if negb gone then
    _ ← ask (remove_marker d); _ ← tell (MarkerRemoved d); mret (Ok RootPresent, registered)
  else
    since ← read_missing_since d;
    missing_since ←
      match since with
      | Some since => mret (Z.min since now)
      | None => _ ← ask (write_marker d (format_int now)); _ ← tell (MarkerWritten d); mret now
      end;
    u ← worktree_is_unregistered d root registered;
    let '(unregistered, registered) := (u : bool * Registered) in
    let collect_after := saturating_add missing_since (effective_grace unregistered grace) in
    if now <? collect_after then mret (Ok (Waiting collect_after), registered)
    else if bool_decide (path_key d ∈ live_bases) then mret (Ok StillUsed, registered)
    else
      let due_as_unregistered := now <? saturating_add missing_since grace in
      r ← remove_unused_index d (still_gone d root due_as_unregistered);
      mret (match r with
            | Ok Removed => Ok Collected
            | Ok InUse => Ok StillUsed
            | Ok RootReturned => Ok Returned
            | Err e => Err e
            end, registered).

Definition add_outcome (d root : path) (o : GcOutcome) (r : GcReport) : GcReport :=
  match o with
  | Collected => MkReport (collected r ++ [MkCollected root d]) (waiting r) (in_use r)
  | Waiting at_ => MkReport (collected r) (waiting r ++ [MkWaiting root at_]) (in_use r)
  | StillUsed => MkReport (collected r) (waiting r) (in_use r ++ [d])
  | RootPresent | Returned => r
  end.

Fixpoint process_loop (now grace : Z) (live_bases : gset path) (entries : list (path * path))
    (registered : Registered) (report : GcReport) : IO (Result unit GcReport) :=
  match entries with
  | [] => mret (Ok report)
  | (d, root) :: entries =>
    r ← process_index now grace live_bases d root registered;
    match r with
    | (Ok o, registered) =>
      process_loop now grace live_bases entries registered (add_outcome d root o report)
    | (Err e, _) => mret (Err e)
    end
  end.

(** The bases of the overlays whose root is there. *)
Fixpoint find_live_bases (entries : list (path * path)) : IO (gset path) :=
  match entries with
  | [] => mret ∅
  | (d, root) :: entries =>
    gone ← check_root root;
    base ← (if gone : bool then mret None else read_base_ref d);
    match base with
    | Some b =>
      bases ← find_live_bases entries; mret ({[path_key (base_index_dir b)]} ∪ bases)
    | None => find_live_bases entries
    end
  end.

Definition collect_orphaned_indexes_at (now grace : Z) : IO (Result unit GcReport) :=
  entries ← ask list_workspace_metadata;
  match entries with
  | None => mret (Err tt)
  | Some entries =>
    _ ← tell (Listed entries);
    live_bases ← find_live_bases entries;
    process_loop now grace live_bases entries ∅ empty_report
  end.

Definition collect_orphaned_indexes (env : option str) : IO (Result unit GcReport) :=
  match index_gc_grace env with
  | None => mret (Ok empty_report)
  | Some grace => now ← ask now_unix; collect_orphaned_indexes_at now grace
  end.
End Gc.

(** * What a collection pass may remove. *)
From S2P Require Merkle.

(** ** What the answers of the host mean *)

(** A root is missing when nothing, or something that is no directory, is
    found there; any other error leaves it in doubt, and the root counts as
    there. *)
Definition missing (m : Result Merkle.ErrorKind Merkle.Metadata) : Prop :=
  match m with
  | Ok md => Merkle.is_dir md = false
  | Err k => k = Merkle.NotFound \/ k = Merkle.NotADirectory
  end.

(** [base_ref.json] names this index directory and this root as the base. *)
Definition names_base (json : option (str -> option path)) (base_dir base_root : path) : Prop :=
  exists fields, json = Some fields /\ fields (lit "base_index_dir") = Some base_dir
    /\ fields (lit "base_workspace_root") = Some base_root.

(** Git listed the worktrees of the base of [d], and none of them is [root], as
    the comparison writes paths. *)
Definition unlisted (d root : path) (t : list Event) : Prop :=
  exists json base_dir base_root asked output form,
    BaseRefOf d json ∈ t /\ names_base json base_dir base_root
    /\ path_key asked = path_key base_root /\ GitListed asked (Some output) ∈ t
    /\ ComparedAs root form ∈ t
    /\ forall p, lit "worktree " ++ p ∈ split_on 0%N output ->
         exists other, ComparedAs (to_string_lossy p) other ∈ t /\ other <> form.

(** A job whose process lives and whose last heartbeat is recent. *)
Definition running (ledger : bool * LedgerFile) (alive : Z -> option str -> bool) (now : Z)
    (k : JobKind) (ttl : Z) : Prop :=
  exists jobs r p, ledger = (true, Some jobs) /\ get k jobs = Some r /\ active r = true
    /\ pid r = Some p /\ alive p (pid_start_time r) = true
    /\ forall ts, heartbeat_at_unix r = Some ts -> now - ts <= ttl.

Definition job_ttl (k : JobKind) : Z :=
  match k with Watcher => 15 | Indexing => 20 | Enhancement => 20 end.

Definition job_looked (d : path) (k : JobKind) (b : bool) (t : list Event) : Prop :=
  exists ledger alive now, t = [LedgerRead d ledger; ProcessesSeen d alive; ClockRead d now]
    /\ (b = true <-> running ledger alive now k (job_ttl k)).

Definition lock_section (d : path) (file : str) (s : LockState) : list Event :=
  match s with
  | NoLockFile => [LockFileSeen d file false]
  | OpenFailed => [LockFileSeen d file true; LockOpened d file false]
  | Taken => [LockFileSeen d file true; LockOpened d file true; LockTried d file true]
  | Busy => [LockFileSeen d file true; LockOpened d file true; LockTried d file false]
  end.
Definition held (d : path) (file : str) (t : list Event) : Prop :=
  t = lock_section d file NoLockFile \/ t = lock_section d file Taken.

(** A job runs, or another holds a lock. *)
Definition in_use_seen (d : path) (t : list Event) : Prop :=
  exists pre u, t = pre ++ u /\
    ((exists k, job_looked d k true u) \/ exists file, u = lock_section d file Busy).

(** ** Traces *)

Definition removes (e : Event) : bool :=
  match e with StoreRemoved _ _ | DirRemoved _ _ => true | _ => false end.
Definition quiet (t : list Event) : Prop := Forall (fun e => removes e = false) t.

(** The end of a removal: the stores, the lock handles, the directory. *)
Definition removal_tail (d : path) (t : list Event) : Prop :=
  exists es tail, t = map (StoreRemoved d) es ++ tail /\ Forall (fun e => e ∉ LOCK_FILES) es /\
    (tail = [] \/ tail = [Unlocked d] \/ exists r, tail = [Unlocked d; DirRemoved d r]).

Definition removed_dir (d : path) (t : list Event) : Prop :=
  exists t' r, t = t' ++ [DirRemoved d r] /\ r <> DirFailed.

(** What precedes the second look at the root: the lease, both jobs idle, each
    lock held or without a file. *)
Definition guard (d : path) (t : list Event) : Prop :=
  exists j1 j2 l1 l2, t = [Reserved d] ++ j1 ++ j2 ++ l1 ++ l2
    /\ job_looked d Indexing false j1 /\ job_looked d Enhancement false j2
    /\ held d (lit "index.lock") l1 /\ held d (lit "enhancement.lock") l2.

(** Under that guard [check] succeeded; only then the holder let go and the
    removal began. *)
Definition guarded_removal (d : path) (check : list Event -> Prop) (t : list Event) : Prop :=
  exists g recheck rest, t = g ++ recheck ++ [Released d] ++ rest
    /\ guard d g /\ quiet recheck /\ check recheck /\ removal_tail d rest.

Definition recorded (text : option str) : option Z := value ← text; parse_u64 (trim value).
Definition first_seen (now : Z) (since : option Z) : Z :=
  match since with Some s => Z.min s now | None => now end.
Definition deadline (now grace : Z) (since : option Z) (unregistered : bool) : Z :=
  Z.min (first_seen now since + if unregistered then Z.min grace 600 else grace) U64_MAX.

(** The root was looked at, and was missing or not. *)
Definition root_missing (root : path) (t : list Event) : Prop :=
  exists m, MetadataOf root m ∈ t /\ missing m.
Definition root_there (root : path) (t : list Event) : Prop :=
  exists m, MetadataOf root m ∈ t /\ ~ missing m.

(** What the second look establishes: the root is gone, and Git does not list
    the worktree if that is why the index was due. *)
Definition checked (d root : path) (due : bool) (b : bool) (t : list Event) : Prop :=
  if b then root_missing root t /\ (due = true -> unlisted d root t)
  else root_there root t \/ due = true.

(** The look at every overlay before the loop: its root, and its base unless the
    root is missing; and the bases so named. *)
Definition scanned (e : path * path) (t : list Event) : Prop :=
  exists m, (missing m /\ t = [MetadataOf (snd e) m]) \/
    (~ missing m /\ exists json, t = [MetadataOf (snd e) m; BaseRefOf (fst e) json]).
Definition needed (scans : list Event) (key : path) : Prop :=
  exists d json base_dir base_root, BaseRefOf d json ∈ scans
    /\ names_base json base_dir base_root /\ path_key base_dir = key.

(** An index is removed only when its root was seen missing, its deadline has
    passed since the recorded time, it is no live overlay's base, and the removal
    itself is guarded. *)
Definition due_removal (now grace : Z) (scans past : list Event) (d root : path) (t : list Event) : Prop :=
  exists text unregistered head tail,
    t = head ++ tail /\ quiet head /\ root_missing root head /\ MarkerRead d text ∈ head
    /\ (unregistered = true -> unlisted d root (past ++ head))
    /\ deadline now grace (recorded text) unregistered <= now
    /\ ~ needed scans (path_key d)
    /\ guarded_removal d (checked d root (now <? deadline now grace (recorded text) false) true) tail.

Definition index_section (now grace : Z) (scans past : list Event) (d root : path)
    (r : Result unit GcOutcome) (t : list Event) : Prop :=
  match r with
  | Ok RootPresent => exists m, ~ missing m /\ t = [MetadataOf root m; MarkerRemoved d]
  | Ok (Waiting at_) =>
    quiet t /\ root_missing root t /\ now < at_ /\ exists text unregistered,
      MarkerRead d text ∈ t /\ (recorded text = None -> MarkerWritten d ∈ t)
      /\ (unregistered = true -> unlisted d root (past ++ t))
      /\ at_ = deadline now grace (recorded text) unregistered
  | Ok Collected => due_removal now grace scans past d root t /\ removed_dir d t
  | Ok StillUsed => quiet t /\ root_missing root t /\ (needed scans (path_key d) \/ in_use_seen d t)
  | Ok Returned => quiet t /\ root_missing root t /\
      (root_there root t \/ exists text, MarkerRead d text ∈ t
         /\ now < deadline now grace (recorded text) false)
  | Err _ => quiet t \/ due_removal now grace scans past d root t
  end.

(** The sections of the indexes in order, each after the events before it. *)
Fixpoint pass_steps (now grace : Z) (scans past : list Event) (entries : list (path * path))
    (steps : list (Result unit GcOutcome * list Event)) {struct steps} : Prop :=
  match steps, entries with
  | [], _ => True
  | _ :: _, [] => False
  | (r, t) :: steps, (d, root) :: entries =>
    index_section now grace scans past d root r t
    /\ pass_steps now grace scans (past ++ t) entries steps
  end.

(** The report names each index under what was decided, in order. *)
Definition report_of (entries : list (path * path)) (outcomes : list GcOutcome) : GcReport :=
  let decided := zip entries outcomes in
  MkReport
    (omap (fun '((d, root), o) => match o with Collected => Some (MkCollected root d) | _ => None end) decided)
    (omap (fun '((d, root), o) => match o with Waiting at_ => Some (MkWaiting root at_) | _ => None end) decided)
    (omap (fun '((d, root), o) => match o with StillUsed => Some d | _ => None end) decided).
Definition report_app (a b : GcReport) : GcReport :=
  MkReport (collected a ++ collected b) (waiting a ++ waiting b) (in_use a ++ in_use b).

Section Facts.
Context {W : Type} `{GcHost W}.

Lemma quiet_nil : quiet [].
Proof. constructor. Qed.
Lemma quiet_app t u : quiet (t ++ u) <-> quiet t /\ quiet u.
Proof. apply Forall_app. Qed.
Lemma quiet_one e : removes e = false -> quiet [e].
Proof. intros. by repeat constructor. Qed.

Lemma unlisted_mono d root t u : t ⊆ u -> unlisted d root t -> unlisted d root u.
Proof.
  intros Hs (json & bd & br & asked & out & form & H1 & H2 & H3 & H4 & H5 & H6).
  exists json, bd, br, asked, out, form. split_and!; [by apply Hs|done|done|by apply Hs|by apply Hs|].
  intros p Hp. destruct (H6 p Hp) as (other & Ho & Hne). exists other. split; [by apply Hs|done].
Qed.

Lemma root_missing_mono root t u : t ⊆ u -> root_missing root t -> root_missing root u.
Proof. intros Hs (m & Hm & Hg). exists m. split; [by apply Hs|done]. Qed.

Lemma root_is_gone_missing m : Merkle.root_is_gone m = true <-> missing m.
Proof.
  destruct m as [md|k]; cbn; [by rewrite negb_true_iff|].
  by rewrite orb_true_iff, !bool_decide_eq_true.
Qed.

Lemma root_is_there m : Merkle.root_is_gone m = false -> ~ missing m.
Proof. intros Hg Hm. apply root_is_gone_missing in Hm. congruence. Qed.

(** ** Jobs and locks *)

Lemma status_running ledger alive now k ttl :
  0 <= ttl ->
  status_active (job_status_at alive (read_job_ledger (fst ledger) (snd ledger)) k ttl now) = true
  <-> running ledger alive now k ttl.
Proof.
  intros Httl. destruct ledger as [readable file]. cbn [fst snd].
  assert (forall ts, negb (ttl <? saturating_sub now ts) = true <-> now - ts <= ttl) as Hts.
  { intros ts. unfold saturating_sub. rewrite negb_true_iff, Z.ltb_ge. lia. }
  unfold running, job_status_at. split.
  - destruct readable; [|done]. destruct file as [jobs|]; [|done]. cbn [read_job_ledger unwrap_or].
    destruct (get k jobs) as [r|] eqn:Eg; [|done]. unfold status_active. cbn [record process_alive heartbeat_stale].
    rewrite !andb_true_iff. intros [[Ha Hp] Hh]. destruct (pid r) as [p|] eqn:Ep; [|done].
    exists jobs, r, p. split_and!; try done. intros ts Ets. rewrite Ets in Hh. by apply Hts.
  - intros (jobs & r & p & [= -> ->] & Hg & Ha & Hp & Hl & Hh). cbn [read_job_ledger unwrap_or].
    rewrite Hg. unfold status_active. cbn [record process_alive heartbeat_stale].
    rewrite Hp, Hl, Ha. cbn [andb]. destruct (heartbeat_at_unix r) as [ts|]; [|done]. by apply Hts, Hh.
Qed.

Lemma job_is_active_spec d k ttl :
  ttl = job_ttl k -> post (job_is_active d k ttl) (fun b t => quiet t /\ job_looked d k b t).
Proof.
  intros ->. unfold job_is_active. do 7 io_step. cbn [app]. split; [by repeat constructor|].
  do 3 eexists. split; [done|]. apply status_running. by destruct k.
Qed.

Lemma try_lock_spec d file : post (try_lock d file) (fun s t => t = lock_section d file s).
Proof.
  unfold try_lock. do 2 io_step. destruct a; repeat io_step; [|done].
  destruct a; repeat io_step; [|done]. by destruct a.
Qed.

Lemma lock_section_quiet d file s : quiet (lock_section d file s).
Proof. destruct s; by repeat constructor. Qed.

(** The locks are tried in order, up to the first that is not held. *)
Lemma take_locks_spec d files :
  post (take_locks d files) (fun r t => quiet t /\
    match r with
    | None => exists ts, t = concat ts /\ Forall2 (held d) files ts
    | Some (Ok InUse) => in_use_seen d t
    | Some (Ok _) => False
    | Some (Err _) => True
    end).
Proof.
  induction files as [|file files IH]; cbn [take_locks].
  { apply post_ret. split; [apply quiet_nil|]. by exists []. }
  apply post_bind. eapply post_weaken; [apply try_lock_spec|]. intros s ? ->.
  assert (held d file (lock_section d file s) -> post (take_locks d files) (fun r t' =>
    quiet (lock_section d file s ++ t') /\
    match r with
    | None => exists ts, lock_section d file s ++ t' = concat ts /\ Forall2 (held d) (file :: files) ts
    | Some (Ok InUse) => in_use_seen d (lock_section d file s ++ t')
    | Some (Ok _) => False
    | Some (Err _) => True
    end)) as Hrest.
  { intros Hs. eapply post_weaken; [apply IH|]. intros r t' [Hq Hr]. split.
    { apply quiet_app; split; [apply lock_section_quiet|done]. }
    destruct r as [[[]|]|]; try done.
    - destruct Hr as (pre & u & -> & Hu). exists (lock_section d file s ++ pre), u.
      by rewrite <- app_assoc.
    - destruct Hr as (ts & -> & Hts). exists (lock_section d file s :: ts). split; [done|by constructor]. }
  destruct s; [apply Hrest; by left|apply Hrest; by right| |].
  - apply post_ret. rewrite app_nil_r. split; [apply lock_section_quiet|].
    exists [], (lock_section d file Busy). split; [done|]. right. by exists file.
  - apply post_ret. rewrite app_nil_r. split; [apply lock_section_quiet|done].
Qed.

(** ** Removing *)

Lemma remove_stores_spec d entries :
  post (remove_stores d entries) (fun _ t =>
    exists es, t = map (StoreRemoved d) es /\ Forall (fun e => e ∉ LOCK_FILES) es).
Proof.
  induction entries as [|[e|] entries IH]; cbn [remove_stores].
  - apply post_ret. by exists [].
  - case_bool_decide as Hin; [done|]. destruct (e_is_dir e) as [is_dir|].
    2:{ apply post_ret. by exists []. }
    do 4 io_step. destruct a.
    + eapply post_weaken; [apply IH|]. intros _ t (es & -> & Hes). exists (e_name e :: es).
      split; [done|by constructor].
    + io_step. exists [e_name e]. split; [done|by repeat constructor].
  - apply post_ret. by exists [].
Qed.

Definition removal_spec (d : path) (Q : bool -> list Event -> Prop) (r : Result unit Removal)
    (t : list Event) : Prop :=
  match r with
  | Ok Removed => guarded_removal d (Q true) t /\ removed_dir d t
  | Ok InUse => quiet t /\ in_use_seen d t
  | Ok RootReturned => quiet t /\ exists t1 t2, t = t1 ++ t2 /\ Q false t2
  | Err _ => quiet t \/ guarded_removal d (Q true) t
  end.

(** What follows the check, given the trace [g] up to the locks. *)
Lemma clear_index_spec d Q g recheck :
  guard d g -> quiet recheck -> Q true recheck ->
  post (clear_index d) (fun r t => removal_spec d Q r (g ++ recheck ++ t)).
Proof.
  intros Hgd Hq HQ. unfold clear_index.
  assert (forall rest, removal_tail d rest ->
    guarded_removal d (Q true) (g ++ recheck ++ [Released d] ++ rest)) as Hg
    by (intros rest Hr; by exists g, recheck, rest).
  repeat io_step. match goal with o : option (list _) |- _ => destruct o as [entries|] end.
  2:{ repeat io_step. right. apply Hg. exists [], []. split; [done|]. split; [constructor|by left]. }
  io_step. eapply post_weaken; [apply remove_stores_spec|]. intros cleared ? (es & -> & Hes).
  repeat io_step. destruct cleared; cbn [negb]; repeat io_step.
  2:{ right. apply Hg. exists es, [Unlocked d]. split; [done|]. split; [done|]. right; by left. }
  match goal with r : DirRemoval |- _ => set (result := r) end.
  assert (removal_tail d (map (StoreRemoved d) es ++ [Unlocked d; DirRemoved d result])) as Htail.
  { exists es, [Unlocked d; DirRemoved d result]. split; [done|]. split; [done|]. right; right. by exists result. }
  assert (forall pre, result <> DirFailed -> removed_dir d
    (pre ++ recheck ++ [Released d] ++ map (StoreRemoved d) es ++ [Unlocked d; DirRemoved d result])) as Hd.
  { intros pre Hr. exists (pre ++ recheck ++ [Released d] ++ map (StoreRemoved d) es ++ [Unlocked d]), result.
    split; [by rewrite <- !app_assoc|done]. }
  specialize (Hg _ Htail). unfold removal_spec.
  destruct result; [split; [apply Hg|by apply Hd]..|by right].
Qed.

Lemma remove_unused_index_spec d check (Q : bool -> list Event -> Prop) :
  post check (fun b t => quiet t /\ Q b t) ->
  post (remove_unused_index d check) (removal_spec d Q).
Proof.
  intros Hcheck. unfold remove_unused_index. do 5 io_step. cbn [app].
  eapply post_weaken; [by apply job_is_active_spec|]. intros b1 t1 [Hq1 Hj1].
  destruct b1.
  { io_step. rewrite app_nil_r. split; [by constructor|]. exists [Reserved d], t1.
    split; [done|]. left. by exists Indexing. }
  io_step. eapply post_weaken; [by apply job_is_active_spec|]. intros b2 t2 [Hq2 Hj2].
  destruct b2.
  { io_step. rewrite app_nil_r. split; [constructor; [done|by apply quiet_app]|].
    exists (Reserved d :: t1), t2. split; [done|]. left. by exists Enhancement. }
  io_step. eapply post_weaken; [apply take_locks_spec|]. intros blocked t3 [Hq3 Hr].
  assert (forall t, quiet t -> quiet ([Reserved d] ++ t1 ++ t2 ++ t3 ++ t)) as Hq
    by (intros; rewrite !quiet_app; by repeat constructor).
  destruct blocked as [r|].
  { repeat io_step. specialize (Hq [] quiet_nil).
    destruct r as [[]|]; try done; [|by left]. split; [exact Hq|]. destruct Hr as (pre & u & -> & Hu).
    exists ([Reserved d] ++ t1 ++ t2 ++ pre), u. split; [|done].
    cbn [app]. by rewrite app_nil_r, <- !app_assoc. }
  destruct Hr as (ts & -> & Hts).
  apply Forall2_cons_inv_l in Hts as (l1 & ts' & Hl1 & Hts & ->).
  apply Forall2_cons_inv_l in Hts as (l2 & ts'' & Hl2 & Hts & ->).
  apply Forall2_nil_inv_l in Hts as ->. cbn [concat] in Hq, Hq3 |- *. rewrite app_nil_r in *.
  assert (guard d ([Reserved d] ++ t1 ++ t2 ++ l1 ++ l2)) as Hguard by (by exists t1, t2, l1, l2).
  io_step. eapply post_weaken; [apply Hcheck|]. intros [] recheck [Hqr HQ]; cbn [negb].
  - eapply post_weaken; [by apply (clear_index_spec d Q _ recheck Hguard)|].
    intros r t Ht. cbn [app] in Ht |- *. rewrite <- ?app_assoc in Ht. rewrite <- ?app_assoc. exact Ht.
  - repeat io_step. cbn [app]. rewrite !app_nil_r. split; [exact (Hq recheck Hqr)|].
    exists ([Reserved d] ++ t1 ++ t2 ++ l1 ++ l2), recheck. split; [|done].
    cbn [app]. by rewrite <- !app_assoc.
Qed.

(** ** Looking at Git *)

Lemma comparable_path_spec p : post (comparable_path p) (fun c t => t = [ComparedAs p c]).
Proof.
  unfold comparable_path. generalize (S (length (components p))) as fuel, (@nil (list N)) as missing.
  intros fuel missing. apply post_bind. eapply (post_weaken _ (fun _ t => t = [])); [|by intros ? ? ->; repeat io_step].
  generalize p at 1 as q. revert missing. induction fuel as [|fuel IH]; intros missing q; cbn [resolve_loop]; [by io_step|].
  do 2 io_step. case_match; [by io_step|]. case_match; [|by io_step]. case_match; [apply IH|by io_step].
Qed.

Lemma comparable_paths_spec ps :
  post (comparable_paths ps) (fun cs t =>
    quiet t /\ forall p, p ∈ ps -> exists c, ComparedAs p c ∈ t /\ c ∈ cs).
Proof.
  induction ps as [|p ps IH]; cbn [comparable_paths].
  { io_step. split; [apply quiet_nil|]. by intros p ?%not_elem_of_nil. }
  io_step. eapply post_weaken; [apply comparable_path_spec|]. intros c ? ->.
  io_step. eapply post_weaken; [apply IH|]. intros cs t [Hq Hcs]. io_step. rewrite app_nil_r. split.
  - by constructor.
  - intros p' [->|Hp]%elem_of_cons; [exists c; split; by left|].
    destruct (Hcs p' Hp) as (c' & ? & ?). exists c'. split; by right.
Qed.

(** The worktrees of the listing, as the comparison writes them. *)
Definition listing (asked : path) (ws : gset (list N)) (t : list Event) : Prop :=
  exists output, GitListed asked (Some output) ∈ t /\
    forall p, lit "worktree " ++ p ∈ split_on 0%N output ->
      exists c, ComparedAs (to_string_lossy p) c ∈ t /\ c ∈ ws.

Lemma listing_mono asked ws t u : t ⊆ u -> listing asked ws t -> listing asked ws u.
Proof.
  intros Hs (output & Ho & Hp). exists output. split; [by apply Hs|]. intros p Hin.
  destruct (Hp p Hin) as (c & ? & ?). exists c. split; [by apply Hs|done].
Qed.

Lemma registered_worktrees_spec base :
  post (registered_worktrees base) (fun r t =>
    quiet t /\ forall ws, r = Some ws -> listing base ws t).
Proof.
  unfold registered_worktrees. do 2 io_step.
  destruct (match a with Ok m => Merkle.is_dir m | Err _ => false end); [|io_step; by split; [apply quiet_nil|]].
  do 2 io_step. destruct a0 as [output|]; [|io_step; by split; [apply quiet_one|]].
  io_step. eapply post_weaken; [apply comparable_paths_spec|]. intros cs t [Hq Hcs]. io_step.
  rewrite app_nil_r. split; [by constructor|]. intros ws [= <-]. exists output. split; [by left|].
  intros p Hp. destruct (Hcs (to_string_lossy p)) as (c & ? & ?).
  - apply list_elem_of_fmap. exists p. split; [done|]. apply list_elem_of_omap.
    exists (lit "worktree " ++ p). split; [done|]. apply strip_prefix_app.
  - exists c. split; [by right|]. by apply elem_of_list_to_set.
Qed.

(** What the cache of a pass holds was listed during the pass. *)
Definition registered_ok (registered : Registered) (t : list Event) : Prop :=
  forall key ws, registered !! key = Some (Some ws) ->
    exists asked, path_key asked = key /\ listing asked ws t.

Lemma registered_ok_mono registered t u : t ⊆ u -> registered_ok registered t -> registered_ok registered u.
Proof.
  intros Hs Hr key ws Hk. destruct (Hr key ws Hk) as (asked & ? & ?). exists asked.
  split; [done|by eapply listing_mono].
Qed.

Lemma registered_ok_empty t : registered_ok ∅ t.
Proof. intros key ws Hk. discriminate Hk. Qed.

Lemma worktree_is_unregistered_spec d root registered past :
  registered_ok registered past ->
  post (worktree_is_unregistered d root registered) (fun r t =>
    quiet t /\ registered_ok (snd r) (past ++ t) /\ (fst r = true -> unlisted d root (past ++ t))).
Proof.
  intros Hok. unfold worktree_is_unregistered, read_base_ref. do 4 io_step.
  destruct a as [fields|]; cbn [mbind option_bind].
  2:{ io_step. split; [by apply quiet_one|]. split; [|done]. eapply registered_ok_mono; [|exact Hok]. set_solver. }
  destruct (fields (lit "base_index_dir")) as [bd|] eqn:Ebd; cbn [mbind option_bind].
  2:{ io_step. split; [by apply quiet_one|]. split; [|done]. eapply registered_ok_mono; [|exact Hok]. set_solver. }
  destruct (fields (lit "base_workspace_root")) as [br|] eqn:Ebr; cbn [mbind option_bind].
  2:{ io_step. split; [by apply quiet_one|]. split; [|done]. eapply registered_ok_mono; [|exact Hok]. set_solver. }
  io_step. eapply post_weaken; [apply comparable_path_spec|]. intros form ? ->. io_step. cbn [base_workspace_root].
  apply (post_weaken _ (fun reg t => quiet t /\ registered_ok reg (past ++ t))).
  { destruct (registered !! path_key br) eqn:Ereg.
    - io_step. split; [apply quiet_nil|by rewrite app_nil_r].
    - io_step. eapply post_weaken; [apply registered_worktrees_spec|]. intros r t [Hq Hr]. io_step.
      rewrite app_nil_r. split; [done|]. intros key ws [[<- ->]|[_ Hk]]%lookup_insert_Some.
      + exists br. split; [done|]. eapply listing_mono; [|by apply Hr]. set_solver.
      + destruct (Hok key ws Hk) as (asked & ? & Hl). exists asked. split; [done|].
        eapply listing_mono; [|exact Hl]. set_solver. }
  intros reg t [Hq Hreg]. io_step. cbn [app fst snd]. rewrite !app_nil_r.
  assert (registered_ok reg (past ++ BaseRefOf d (Some fields) :: ComparedAs root form :: t)) as Hreg'.
  { eapply registered_ok_mono; [|exact Hreg]. set_solver. }
  split; [by repeat constructor|]. split; [exact Hreg'|].
  destruct (reg !! path_key br) as [[ws|]|] eqn:Ek; cbn; [|done..]. intros Hni.
  apply negb_true_iff, bool_decide_eq_false in Hni. destruct (Hreg' _ _ Ek) as (asked & Hkey & out & Hl & Hp).
  exists (Some fields), bd, br, asked, out, form. split_and!; try done; [set_solver..|by exists fields|set_solver|].
  intros p Hin. destruct (Hp p Hin) as (other & Ho & Hws). exists other. split; [done|]. by intros ->.
Qed.

Lemma check_root_spec root :
  post (check_root root) (fun b t => exists m, t = [MetadataOf root m] /\ if b then missing m else ~ missing m).
Proof.
  unfold check_root. repeat io_step. exists a. split; [done|].
  destruct (Merkle.root_is_gone a) eqn:E; [by apply root_is_gone_missing|by apply root_is_there].
Qed.

Lemma still_gone_spec d root due :
  post (still_gone d root due) (fun b t => quiet t /\ checked d root due b t).
Proof.
  unfold still_gone. io_step. eapply post_weaken; [apply check_root_spec|]. intros b ? (m & -> & Hm).
  destruct b.
  2:{ io_step. split; [by apply quiet_one|]. left. exists m. split; [by left|done]. }
  assert (forall t, root_missing root (MetadataOf root m :: t)) as Hmiss by (intros t; exists m; split; [by left|done]).
  destruct due.
  - io_step. eapply post_weaken; [by apply (worktree_is_unregistered_spec _ _ _ [])|].
    intros [b r] t (Hq & _ & Ht). io_step. rewrite app_nil_r. cbn [app fst] in *.
    split; [by constructor|]. destruct b; [|by right]. split; [apply Hmiss|].
    intros _. eapply unlisted_mono; [|by apply Ht]. set_solver.
  - io_step. split; [by apply quiet_one|]. by split; [apply Hmiss|].
Qed.

(** ** One index *)

Lemma deadline_eq now grace since u :
  saturating_add (first_seen now since) (effective_grace u grace) = deadline now grace since u.
Proof. unfold saturating_add. rewrite Z.min_comm. by destruct u. Qed.
Lemma registered_deadline_eq now grace since :
  saturating_add (first_seen now since) grace = deadline now grace since false.
Proof. apply (deadline_eq now grace since false). Qed.
Lemma report_step d root o entries outcomes r :
  report_app (add_outcome d root o r) (report_of entries outcomes)
  = report_app r (report_of ((d, root) :: entries) (o :: outcomes)).
Proof. by destruct o; cbn; unfold report_app; cbn; rewrite <- ?app_assoc. Qed.

Lemma process_index_spec now grace live scans past d root registered :
  (forall key, key ∈ live <-> needed scans key) ->
  registered_ok registered past ->
  post (process_index now grace live d root registered) (fun r t =>
    registered_ok (snd r) (past ++ t) /\ index_section now grace scans past d root (fst r) t).
Proof.
  intros Hlive Hok. unfold process_index. io_step. eapply post_weaken; [apply check_root_spec|].
  intros b ? (m0 & -> & Hm). destruct b; cbn [negb].
  2:{ repeat io_step. cbn [app fst snd]. split; [eapply registered_ok_mono; [|exact Hok]; set_solver|]. by exists m0. }
  unfold read_missing_since. repeat io_step. cbn [app]. rename a into text. fold (recorded text).
  apply (post_weaken _ (fun m t => m = first_seen now (recorded text) /\
    quiet t /\ (recorded text = None -> MarkerWritten d ∈ t))).
  { destruct (recorded text); repeat io_step; split; [done|split; [apply quiet_nil|done]|done|].
    split; [by apply quiet_one|by left]. }
  intros m t1 (-> & Hq1 & Hw). io_step.
  eapply post_weaken; [by apply (worktree_is_unregistered_spec _ _ _ (past ++ MetadataOf root m0 :: MarkerRead d text :: t1));
    eapply registered_ok_mono; [|exact Hok]; set_solver|].
  intros [u registered'] t2 (Hq2 & Hreg & Hu). cbn [fst snd] in Hu, Hreg.
  rewrite (deadline_eq now grace (recorded text) u). cbv zeta. cbn [app].
  set (head := MetadataOf root m0 :: MarkerRead d text :: t1 ++ t2).
  assert (forall t, MetadataOf root m0 :: MarkerRead d text :: t1 ++ t2 ++ t = head ++ t) as Ehead.
  { intros t. unfold head. cbn [app]. by rewrite app_assoc. }
  assert (quiet head) as Hq by (unfold head; repeat (constructor; [done|]); by apply quiet_app).
  assert (MarkerRead d text ∈ head) as Hsince by (unfold head; set_solver).
  assert (root_missing root head) as Hroot by (exists m0; split; [by left|done]).
  assert (forall t, registered_ok registered' (past ++ head ++ t)) as Hreg'.
  { intros t. eapply registered_ok_mono; [|exact Hreg]. unfold head. set_solver. }
  assert (u = true -> unlisted d root (past ++ head)) as Hu'.
  { intros E. eapply unlisted_mono; [|by apply Hu]. unfold head. set_solver. }
  destruct (Z.ltb_spec now (deadline now grace (recorded text) u)) as [Hlt|Hge].
  { io_step. rewrite Ehead. cbn [fst snd index_section]. split; [by apply Hreg'|]. rewrite app_nil_r.
    split_and!; [done..|]. exists text, u. split_and!; [done| |done|done].
    intros E. specialize (Hw E). unfold head. set_solver. }
  case_bool_decide as Hin.
  { io_step. rewrite Ehead. cbn [fst snd index_section]. split; [by apply Hreg'|]. rewrite app_nil_r.
    split_and!; [done..|]. left. by apply Hlive. }
  io_step. eapply post_weaken; [apply remove_unused_index_spec, still_gone_spec|].
  intros r t3 Hr. io_step. rewrite app_nil_r, Ehead. cbn [fst snd]. split; [by apply Hreg'|].
  rewrite (registered_deadline_eq now grace (recorded text)) in Hr.
  assert (guarded_removal d (checked d root (now <? deadline now grace (recorded text) false) true) t3 ->
    due_removal now grace scans past d root (head ++ t3)) as Hdue.
  { intros Hg. exists text, u, head, t3. split_and!; try done. by rewrite <- Hlive. }
  assert (root_missing root (head ++ t3)) as Hroot3 by (eapply root_missing_mono; [|exact Hroot]; set_solver).
  destruct r as [[]|]; cbn [removal_spec index_section] in Hr |- *.
  - destruct Hr as [Hg (t' & x & -> & Hx)]. split; [by apply Hdue|].
    exists (head ++ t'), x. split; [by rewrite app_assoc|done].
  - destruct Hr as [Hq3 (pre & v & -> & Hv)]. split_and!; [by apply quiet_app|done|]. right.
    exists (head ++ pre), v. by rewrite app_assoc.
  - destruct Hr as [Hq3 (v1 & v2 & -> & Hv)]. split_and!; [by apply quiet_app|done|].
    destruct Hv as [(m & Hm1 & Hm2)|Hdue'].
    + left. exists m. split; [set_solver|done].
    + right. exists text. split; [set_solver|]. by apply Z.ltb_lt.
  - destruct Hr; [left; by apply quiet_app|right; by apply Hdue].
Qed.

(** ** The pass *)

Lemma find_live_bases_spec entries :
  post (find_live_bases entries) (fun live t =>
    (exists scans, t = concat scans /\ Forall2 scanned entries scans) /\
    forall key, key ∈ live <-> needed t key).
Proof.
  induction entries as [|[d root] entries IH]; cbn [find_live_bases].
  { io_step. split; [by exists []|]. intros key. split; [set_solver|].
    by intros (? & ? & ? & ? & ?%not_elem_of_nil & _). }
  io_step. eapply post_weaken; [apply check_root_spec|]. intros b ? (m & -> & Hm).
  assert (forall (seg : list Event) t, scanned (d, root) seg ->
    (exists scans, t = concat scans /\ Forall2 scanned entries scans) ->
    exists scans, seg ++ t = concat scans /\ Forall2 scanned ((d, root) :: entries) scans) as Hcons.
  { intros seg t Hs (scans & -> & Hf). exists (seg :: scans). split; [done|by constructor]. }
  assert (forall seg t key, (forall d' json, BaseRefOf d' json ∈ seg -> forall x y, ~ names_base json x y) ->
    needed (seg ++ t) key <-> needed t key) as Hskip.
  { intros seg t key Hseg. split.
    - intros (d' & json & x & y & [Hin|Hin]%elem_of_app & Hn & Hk); [by destruct (Hseg _ _ Hin x y)|].
      by exists d', json, x, y.
    - intros (d' & json & x & y & Hin & Hn). exists d', json, x, y. split; [|done]. apply elem_of_app. by right. }
  destruct b.
  { do 2 io_step. eapply post_weaken; [apply IH|]. intros live t [Hscan Hkey]. cbn [app].
    split; [apply (Hcons [MetadataOf root m]); [|done]; exists m; by left|].
    intros key. rewrite Hkey. symmetry. apply (Hskip [MetadataOf root m]). set_solver. }
  unfold read_base_ref. do 3 io_step. rename a into json. io_step.
  assert (scanned (d, root) [MetadataOf root m; BaseRefOf d json]) as Hseg by (exists m; right; by split; [|exists json]).
  destruct (json ≫= _) as [b|] eqn:Eb.
  - assert (exists f, names_base json (base_index_dir b) f) as [br Hn].
    { destruct json as [fields|]; [|done]. cbn [mbind option_bind] in Eb.
      destruct (fields (lit "base_index_dir")) as [x|] eqn:Ex; [|done]. cbn [mbind option_bind] in Eb.
      destruct (fields (lit "base_workspace_root")) as [y|] eqn:Ey; [|done]. injection Eb as <-.
      exists y. by exists fields. }
    assert (forall x y, names_base json x y -> x = base_index_dir b) as Huniq.
    { intros x y (f & Ef & Ex & _). destruct Hn as (f' & Ef' & Ex' & _). congruence. }
    io_step. eapply post_weaken; [apply IH|]. intros live t [Hscan Hkey]. io_step. cbn [app]. rewrite app_nil_r.
    split; [by apply (Hcons [MetadataOf root m; BaseRefOf d json] t)|].
    intros key. rewrite elem_of_union, elem_of_singleton, Hkey. split.
    + intros [->|(d' & j & x & y & Hin & Hj)].
      * exists d, json, (base_index_dir b), br. split; [set_solver|done].
      * exists d', j, x, y. split; [set_solver|done].
    + intros (d' & j & x & y & Hin & Hj & Hk). apply elem_of_cons in Hin as [Hin|Hin]; [done|].
      apply elem_of_cons in Hin as [[= -> ->]|Hin]; [|right; by exists d', j, x, y].
      left. by rewrite <- (Huniq _ _ Hj).
  - eapply post_weaken; [apply IH|]. intros live t [Hscan Hkey]. cbn [app].
    split; [by apply (Hcons [MetadataOf root m; BaseRefOf d json])|].
    intros key. rewrite Hkey. symmetry. apply (Hskip [MetadataOf root m; BaseRefOf d json]).
    intros d' j Hin x y (f & Ef & Ex & Ey). assert (j = json) as -> by set_solver.
    rewrite Ef in Eb. cbn [mbind option_bind] in Eb. by rewrite Ex, Ey in Eb.
Qed.

Lemma process_loop_spec now grace live scans entries :
  (forall key, key ∈ live <-> needed scans key) -> forall registered past report,
  registered_ok registered past ->
  post (process_loop now grace live entries registered report) (fun r t => exists steps,
    t = concat (map snd steps) /\ pass_steps now grace scans past entries steps /\
    match r with
    | Ok rep => exists outcomes, map fst steps = map Ok outcomes
        /\ length steps = length entries /\ rep = report_app report (report_of entries outcomes)
    | Err _ => exists init u, steps = init ++ [(Err tt, u)]
    end).
Proof.
  intros Hlive. induction entries as [|[d root] entries IH]; intros registered past report Hok; cbn [process_loop].
  { io_step. exists []. split; [done|]. split; [done|]. exists []. split; [done|]. split; [done|].
    destruct report. unfold report_app. cbn. by rewrite !app_nil_r. }
  io_step. eapply post_weaken; [by apply (process_index_spec _ _ _ scans past)|].
  intros [r registered'] t1 [Hreg Hs]. cbn [fst snd] in Hreg, Hs.
  destruct r as [o|[]].
  - eapply post_weaken; [by apply (IH registered' (past ++ t1))|]. intros r t2 (steps & -> & Hf & Hr).
    exists ((Ok o, t1) :: steps). split; [done|]. split; [done|].
    destruct r as [rep|].
    + destruct Hr as (os & Hm & Hl & ->). exists (o :: os). cbn [map fst length]. rewrite Hm, Hl.
      split; [done|]. split; [done|]. apply report_step.
    + destruct Hr as (init & u & ->). by exists ((Ok o, t1) :: init), u.
  - io_step. exists [(Err tt, t1)]. split; [done|]. split; [done|]. by exists [], t1.
Qed.

(** C30. A collection pass treats the listed indexes in order.  Its trace holds
    the answers of the host: first, for every index, what is at its root and,
    unless the root is missing, its base reference; then one section per index.
    Either the root is there and its marker is cleared; or the root is missing but
    its deadline, the recorded first sighting plus the grace (ten minutes at most
    for a worktree Git does not list), is still to come; or the index is in use,
    because an overlay whose root was there names it as its base, a job runs or a
    lock is held; or its root returned or Git lists the worktree again; or it is
    removed.  Nothing is ever removed, even by a pass that fails half way, unless
    the root was missing, the deadline had passed, no overlay whose root was there
    names the index as its base, and then, under the holder's lease, no job ran,
    each lock was taken or had no file, and the root was still missing (and the
    worktree still not listed, when only the short grace made it due) with the
    locks held.  Lock files go last.  The report of a pass that succeeds says
    exactly this for every index. *)
Theorem collect_only_abandoned now grace :
  post (collect_orphaned_indexes_at now grace) (fun r t =>
    (t = [] /\ r = Err tt) \/
    exists entries scans steps,
      t = Listed entries :: concat scans ++ concat (map snd steps)
      /\ Forall2 scanned entries scans
      /\ pass_steps now grace (concat scans) [] entries steps
      /\ match r with
         | Ok rep => exists outcomes, map fst steps = map Ok outcomes
             /\ length steps = length entries /\ rep = report_of entries outcomes
         | Err _ => exists init u, steps = init ++ [(Err tt, u)]
         end).
Proof.
  unfold collect_orphaned_indexes_at. do 2 io_step. destruct a as [entries|]; [|io_step; by left].
  do 2 io_step. io_step. eapply post_weaken; [apply find_live_bases_spec|].
  intros live bases [(scans & -> & Hscan) Hlive].
  eapply post_weaken; [apply (process_loop_spec _ _ _ _ _ Hlive ∅ []), registered_ok_empty|]. intros r t (steps & -> & Hf & Hr).
  right. exists entries, scans, steps. split; [done|]. split; [done|]. split; [done|].
  destruct r as [rep|]; [|done]. destruct Hr as (outcomes & ? & ? & ->). exists outcomes.
  by destruct (report_of entries outcomes).
Qed.
End Facts.

(** ** A pass on a concrete host: one index, its root gone since second 0. *)

Definition gone_host (marker : str) (other_root_gone : bool) : GcHost nat := {|
  list_workspace_metadata w := (Some [(lit "/ix/a", lit "/gone"); (lit "/ix/b", lit "/here")], w);
  metadata p w := (if decide (p = lit "/gone") then Err Merkle.NotFound
                   else if other_root_gone then Err Merkle.OtherKind
                   else Ok (Merkle.MkMetadata Merkle.IsDir 0 None 0 0 0), w);
  base_ref_json _ w := (None, w);
  read_marker _ w := (Some marker, w);
  write_marker _ _ w := (tt, w);
  remove_marker _ w := (tt, w);
  canonicalize p w := (Some p, w);
  git_worktree_list _ w := (None, w);
  reserve _ w := (tt, w);
  release _ w := (tt, w);
  ledger_file _ w := ((true, None), w);
  alive_processes w := (fun _ _ => false, w);
  now_unix w := (0, w);
  lock_exists _ _ w := (true, w);
  open_lock _ _ w := (true, w);
  try_lock_exclusive _ _ w := (true, w);
  unlock_all _ w := (tt, w);
  read_dir _ w := (Some [Some (MkEntry (lit "tantivy") (Some true)); Some (MkEntry (lit "index.lock") None)], w);
  remove_entry _ _ _ w := (true, w);
  remove_index_dir _ w := (DirGone, w)
|}.

Example pass_collects :
  fst (fst (@collect_orphaned_indexes_at nat (gone_host (lit " 0 ") true) 604800 604800 0%nat))
  = Ok (MkReport [MkCollected (lit "/gone") (lit "/ix/a")] [] []).
Proof. vm_compute. reflexivity. Qed.

Example pass_waits :
  fst (fst (@collect_orphaned_indexes_at nat (gone_host (lit "1") false) 604800 604800 0%nat))
  = Ok (MkReport [] [MkWaiting (lit "/gone") 604801] []).
Proof. vm_compute. reflexivity. Qed.
