(* ===== verification/VectorTopK.v ===== *)
(** * The best matches of a vector search: vector_store.rs.

  A score is the bit pattern of an [f32]; [total_cmp] orders the patterns.  The
  [BinaryHeap] of [Reverse] is an ascending list: its head is the worst match
  kept, which [peek] shows and [pop] removes.  The order in which the heap is
  emptied does not matter, since the result is sorted by a total order. *)
From S2P Require Import Prelude.

Record VectorMatch := MkMatch { vm_key : N; vm_score : N }.
#[global] Instance vector_match_eq_dec : EqDecision VectorMatch.
Proof. solve_decision. Defined.

(** What [f32::total_cmp] compares: the bits as an [i32], the lower 31 flipped
    below zero. *)
Definition total_key (bits : N) : Z :=
  if (bits <? 2 ^ 31)%N then Z.of_N bits else 2 ^ 31 - 1 - Z.of_N bits.
Definition total_cmp (a b : N) : comparison := Z.compare (total_key a) (total_key b).

(** [Ord for RankedVectorMatch]: by score, equal scores by descending key. *)
Definition ranked_cmp (a b : VectorMatch) : comparison :=
  match total_cmp (vm_score a) (vm_score b) with
  | Eq => N.compare (vm_key b) (vm_key a)
  | c => c
  end.
Definition ranked_gt (a b : VectorMatch) : bool :=
  match ranked_cmp a b with Gt => true | _ => false end.

(** The order of the result: best first. *)
Definition best_first (a b : VectorMatch) : Prop :=
  match total_cmp (vm_score b) (vm_score a) with
  | Lt => True
  | Eq => (vm_key a <= vm_key b)%N
  | Gt => False
  end.
#[global] Instance best_first_dec : RelDecision best_first.
Proof. intros a b. unfold best_first. case_match; apply _. Defined.

Definition Heap : Type := list VectorMatch.
Fixpoint heap_push (x : VectorMatch) (h : Heap) : Heap :=
  match h with
  | [] => [x]
  | y :: h' => if ranked_gt x y then y :: heap_push x h' else x :: y :: h'
  end.
Definition heap_peek (h : Heap) : option VectorMatch := head h.
Definition heap_pop (h : Heap) : Heap := tail h.

Definition top_step (count : nat) (top : Heap) (ranked : VectorMatch) : Heap :=
  if length top <? count then heap_push ranked top
  else if match heap_peek top with Some worst => ranked_gt ranked worst | None => false end
       then heap_push ranked (heap_pop top)
       else top.

Definition top_vector_matches (matches : list VectorMatch) (count : nat) : list VectorMatch :=
  match count with
  | 0 => []
  | _ => merge_sort best_first (foldl (top_step count) [] matches)
  end.

(** ** The order *)

Lemma total_key_inj a b : total_key a = total_key b -> a = b.
Proof.
  unfold total_key. destruct (N.ltb_spec a (2 ^ 31)), (N.ltb_spec b (2 ^ 31)); lia.
Qed.

Lemma best_first_alt a b :
  best_first a b <-> (total_key (vm_score b) < total_key (vm_score a) \/
    (total_key (vm_score b) = total_key (vm_score a) /\ (vm_key a <= vm_key b)%N))%Z.
Proof.
  unfold best_first, total_cmp.
  destruct (Z.compare_spec (total_key (vm_score b)) (total_key (vm_score a))); lia.
Qed.

#[global] Instance best_first_trans : Transitive best_first.
Proof. intros a b c. rewrite !best_first_alt. lia. Qed.
#[global] Instance best_first_total : Total best_first.
Proof. intros a b. rewrite !best_first_alt. lia. Qed.
#[global] Instance best_first_antisymm : AntiSymm (=) best_first.
Proof.
  intros [k1 s1] [k2 s2]. rewrite !best_first_alt. cbn. intros H1 H2.
  assert (s1 = s2) as -> by (apply total_key_inj; lia). f_equal. lia.
Qed.

Lemma ranked_gt_best a b : ranked_gt a b = true -> best_first a b.
Proof.
  rewrite best_first_alt. unfold ranked_gt, ranked_cmp, total_cmp.
  destruct (Z.compare_spec (total_key (vm_score a)) (total_key (vm_score b))); [|done|lia].
  destruct (N.compare_spec (vm_key b) (vm_key a)); [done|done|lia].
Qed.
Lemma ranked_gt_false a b : ranked_gt a b = false -> best_first b a.
Proof.
  rewrite best_first_alt. unfold ranked_gt, ranked_cmp, total_cmp.
  destruct (Z.compare_spec (total_key (vm_score a)) (total_key (vm_score b))); [|lia|done].
  destruct (N.compare_spec (vm_key b) (vm_key a)); [lia|lia|done].
Qed.

(** ** The heap *)

Definition worst_first (a b : VectorMatch) : Prop := best_first b a.
#[global] Instance worst_first_trans : Transitive worst_first.
Proof. intros a b c. unfold worst_first. intros. by etrans. Qed.

Lemma heap_push_perm x h : heap_push x h ≡ₚ x :: h.
Proof.
  induction h as [|y h IH]; cbn [heap_push]; [done|]. destruct (ranked_gt x y); [|done].
  rewrite IH. apply Permutation_swap.
Qed.

Lemma heap_push_sorted x h : StronglySorted worst_first h -> StronglySorted worst_first (heap_push x h).
Proof.
  induction 1 as [|y h Hs IH Hy]; cbn [heap_push]; [by repeat constructor|].
  destruct (ranked_gt x y) eqn:E.
  - constructor; [done|]. rewrite heap_push_perm. constructor; [by apply ranked_gt_best|done].
  - apply ranked_gt_false in E. constructor; [by constructor|]. constructor; [exact E|].
    eapply Forall_impl; [exact Hy|]. intros z Hz. by trans y.
Qed.

(** The heap holds the best of what was seen. *)
Definition holds_best (count : nat) (top : Heap) (seen : list VectorMatch) : Prop :=
  StronglySorted worst_first top /\ length top <= count /\
  exists rest, top ++ rest ≡ₚ seen /\ (rest <> [] -> length top = count)
    /\ forall x y, x ∈ top -> y ∈ rest -> best_first x y.

Lemma top_step_holds count top seen x :
  0 < count -> holds_best count top seen -> holds_best count (top_step count top x) (seen ++ [x]).
Proof.
  intros Hc (Hs & Hl & rest & Hp & Hfull & Hbest). unfold top_step.
  assert (forall l, l ≡ₚ x :: top ++ rest -> l ≡ₚ seen ++ [x]) as Hperm.
  { intros l ->. rewrite Hp. apply Permutation_cons_append. }
  destruct (Nat.ltb_spec (length top) count) as [Hlt|Hge].
  { destruct rest as [|r rest]; [|specialize (Hfull ltac:(done)); lia].
    split; [by apply heap_push_sorted|]. rewrite heap_push_perm. cbn. split; [lia|].
    exists []. rewrite app_nil_r. split; [|split; [done|by intros ? ? ? ?%not_elem_of_nil]].
    apply Hperm. by rewrite heap_push_perm, app_nil_r. }
  destruct top as [|w top]; [cbn in Hge; lia|]. cbn [heap_peek heap_pop head tail].
  apply StronglySorted_inv in Hs as [Hs Hw]. rewrite Forall_forall in Hw.
  destruct (ranked_gt x w) eqn:E.
  - apply ranked_gt_best in E.
    split; [by apply heap_push_sorted|]. rewrite heap_push_perm. split; [done|].
    exists (w :: rest). split; [|split; [intros _; rewrite heap_push_perm; cbn in *; lia|]].
    + apply Hperm. rewrite heap_push_perm. cbn. constructor. by rewrite <- Permutation_middle.
    + intros a b Ha Hb. apply (elem_of_Permutation_proper a _ _ (heap_push_perm x top)) in Ha.
      apply elem_of_cons in Ha as [->|Ha]; apply elem_of_cons in Hb as [->|Hb].
      * done.
      * trans w; [done|]. apply Hbest; [by left|done].
      * by apply Hw.
      * apply Hbest; [by right|done].
  - apply ranked_gt_false in E. split; [by constructor; [|rewrite Forall_forall]|]. split; [done|].
    exists (x :: rest). split; [|split; [intros _; cbn in *; lia|]].
    + apply Hperm. cbn [app]. rewrite <- Permutation_middle. apply Permutation_swap.
    + intros a b Ha Hb. apply elem_of_cons in Hb as [->|Hb]; [|by apply Hbest].
      apply elem_of_cons in Ha as [->|Ha]; [done|]. trans w; [by apply Hw|done].
Qed.

Lemma foldl_holds count matches : forall top seen, 0 < count ->
  holds_best count top seen -> holds_best count (foldl (top_step count) top matches) (seen ++ matches).
Proof.
  induction matches as [|x matches IH]; intros top seen Hc Hh; cbn [foldl]; [by rewrite app_nil_r|].
  rewrite cons_middle, app_assoc. by apply IH, top_step_holds.
Qed.

Lemma holds_best_take count top seen : holds_best count top seen ->
  merge_sort best_first top = take count (merge_sort best_first seen).
Proof.
  intros (_ & Hl & rest & Hp & Hfull & Hbest).
  assert (merge_sort best_first seen = merge_sort best_first top ++ merge_sort best_first rest) as ->.
  { apply (Sorted_unique best_first).
    - apply Sorted_merge_sort; apply _.
    - apply StronglySorted_Sorted, StronglySorted_app_2.
      2,3: apply StronglySorted_merge_sort; apply _.
      intros x y. rewrite !merge_sort_Permutation. apply Hbest.
    - by rewrite !merge_sort_Permutation. }
  assert (length (merge_sort best_first top) = length top) as E by (by rewrite merge_sort_Permutation).
  destruct rest as [|r rest].
  - rewrite app_nil_r. rewrite take_ge; [done|lia].
  - rewrite <- (Hfull ltac:(done)), <- E. by rewrite take_app_length.
Qed.
Lemma holds_best_nil count : holds_best count [] [].
Proof.
  split; [constructor|]. split; [cbn; lia|]. exists []. split; [done|]. split; [done|]. by intros ? ? ?%not_elem_of_nil.
Qed.

(** The bounded heap finds exactly what sorting everything and keeping the
    first [count] would find: the matches by descending score, equal scores by
    ascending key, NaN and signed zeros included. *)
Theorem top_vector_matches_sorts matches count :
  top_vector_matches matches count = take count (merge_sort best_first matches).
Proof.
  destruct count as [|n]; [done|]. unfold top_vector_matches. apply holds_best_take.
  apply (foldl_holds (S n) matches [] []); [lia|apply holds_best_nil].
Qed.
