(* ===== verification/VectorMetadata.v ===== *)
(** * Counting the vectors of a saved store: vector_store/metadata.rs.

  [read_count] checks the structure of a USearch file without loading it.  A
  file is its bytes; reading past its end is an error.  The header fields are
  interpreted by the native library, the parameter [inspect]. *)
From S2P Require Import Prelude.
Local Open Scope Z_scope.

Definition DENSE_HEADER_BYTES : nat := 64.
Definition GRAPH_HEADER_BYTES : nat := 40.
Definition LEVEL_BYTES : nat := 2.
Definition BUFFER_BYTES : nat := 8 * 1024.

(** [usearch::inspect_serialized_header]. *)
Record Header := MkHeader {
  dimensions : Z;
  scalar_bytes : Z;
  count_present : Z;
  count_deleted : Z;
  graph_size : Z;
  max_level : Z;
  entry_slot : Z;
  node_base_bytes : Z;
  node_level_bytes : Z
}.

Inductive CountError :=
| Io | Overflow | Truncated | HeaderRejected | DimensionMismatch | WidthMismatch
| PopulationMismatch | InvalidGraph | InvalidLevel.
Abbreviation Outcome A := (Result CountError A).

Definition i16_from_le_bytes (bytes : list N) : Z :=
  let x := from_le_bytes bytes in if x <? 2 ^ 15 then x else x - 2 ^ 16.
Definition I16_MAX : Z := 2 ^ 15 - 1.

(** [read_exact] of [n] bytes from the position [pos]. *)
Definition read_exact (file : list N) (pos n : nat) : Outcome (list N) :=
  if (pos + n <=? length file)%nat then Ok (take n (drop pos file)) else Err Io.

Definition ensure (c : bool) (e : CountError) : Outcome unit := if c then Ok tt else Err e.
Definition context {A} (o : option A) (e : CountError) : Outcome A := of_option e o.

(** The levels of one buffer, [LEVEL_BYTES] each. *)
Fixpoint sum_chunk (max_level : Z) (chunk : list N) (total : Z) : Outcome Z :=
  match chunk with
  | b0 :: b1 :: chunk =>
    let level := i16_from_le_bytes [b0; b1] in
    _ ← ensure ((0 <=? level) && (level <=? max_level)) InvalidLevel;
    total ← context (checked_add total level) Overflow;
    sum_chunk max_level chunk total
  | _ => Ok total
  end.

(** The loop over the level table; each turn reads at most a buffer. *)
Fixpoint sum_levels (fuel : nat) (file : list N) (max_level : Z) (pos remaining : nat) (total : Z)
  : Outcome Z :=
  match fuel with
  | O => Err Io
  | S fuel =>
    if (remaining =? 0)%nat then Ok total
    else
      let count := Nat.min remaining (BUFFER_BYTES / LEVEL_BYTES) in
      buffer ← read_exact file pos (count * LEVEL_BYTES);
      total ← sum_chunk max_level buffer total;
      sum_levels fuel file max_level (pos + count * LEVEL_BYTES) (remaining - count) total
  end.

Section Count.
Context (inspect : list N -> list N -> option Header).

Definition read_count (file : list N) (dims : Z) : Outcome Z :=
  let file_len := Z.of_nat (length file) in
  shape ← read_exact file 0 8;
  let rows := from_le_bytes (take 4 shape) in
  let vector_bytes := from_le_bytes (drop 4 shape) in
  dense_offset ← context (checked_mul rows vector_bytes ≫= fun bytes => checked_add bytes 8) Overflow;
  levels_offset ←
    context (checked_add dense_offset (Z.of_nat (DENSE_HEADER_BYTES + GRAPH_HEADER_BYTES))) Overflow;
  _ ← ensure (levels_offset <=? file_len) Truncated;
  let pos := Z.to_nat dense_offset in
  dense ← read_exact file pos DENSE_HEADER_BYTES;
  graph ← read_exact file (pos + DENSE_HEADER_BYTES) GRAPH_HEADER_BYTES;
  h ← of_option HeaderRejected (inspect dense graph);
  _ ← ensure (dimensions h =? dims) DimensionMismatch;
  _ ← ensure (bool_decide (checked_mul (dimensions h) (scalar_bytes h) = Some vector_bytes)) WidthMismatch;
  _ ← ensure (bool_decide (checked_add (count_present h) (count_deleted h) = Some rows)
              && (graph_size h =? rows)) PopulationMismatch;
  _ ← ensure (negb (0 <? rows) || ((max_level h <=? I16_MAX) && (entry_slot h <? rows))) InvalidGraph;
  base_bytes ←
    context (checked_add (node_base_bytes h) (Z.of_nat LEVEL_BYTES)
             ≫= fun bytes => checked_mul bytes rows
             ≫= fun bytes => checked_add bytes levels_offset) Overflow;
  _ ← ensure (base_bytes <=? file_len) Truncated;
  total_levels ←
    sum_levels (S (Z.to_nat rows)) file (max_level h)
      (pos + DENSE_HEADER_BYTES + GRAPH_HEADER_BYTES) (Z.to_nat rows) 0;
  required_len ←
    context (checked_mul total_levels (node_level_bytes h)
             ≫= fun bytes => checked_add bytes base_bytes) Overflow;
  _ ← ensure (required_len <=? file_len) Truncated;
  Ok (count_present h).
End Count.

(** ** The layout that is accepted *)

Fixpoint chunk_levels (chunk : list N) : list Z :=
  match chunk with
  | b0 :: b1 :: chunk => i16_from_le_bytes [b0; b1] :: chunk_levels chunk
  | _ => []
  end.

Fixpoint sum_Z (l : list Z) : Z := match l with [] => 0 | x :: l => x + sum_Z l end.

Definition file_rows (file : list N) : Z := from_le_bytes (take 4 file).
Definition file_vector_bytes (file : list N) : Z := from_le_bytes (take 4 (drop 4 file)).
Definition header_offset (file : list N) : Z := 8 + file_rows file * file_vector_bytes file.
Definition nodes_offset (file : list N) : Z := header_offset file + 104.
Definition node_levels (file : list N) : list Z :=
  chunk_levels (take (2 * Z.to_nat (file_rows file)) (drop (Z.to_nat (nodes_offset file)) file)).

(** The file without arithmetic limits: matrix, headers, level table and nodes
    lie in the file, and the header agrees with them. *)
Definition well_formed (inspect : list N -> list N -> option Header) (file : list N) (dims : Z)
    (h : Header) : Prop :=
  let rows := file_rows file in
  let len := Z.of_nat (length file) in
  let base := nodes_offset file + (node_base_bytes h + 2) * rows in
  nodes_offset file <= len
  /\ inspect (take 64 (drop (Z.to_nat (header_offset file)) file))
       (take 40 (drop (Z.to_nat (header_offset file) + 64) file)) = Some h
  /\ dimensions h = dims
  /\ dims * scalar_bytes h = file_vector_bytes file
  /\ count_present h + count_deleted h = rows
  /\ graph_size h = rows
  /\ (rows = 0 \/ max_level h <= I16_MAX /\ entry_slot h < rows)
  /\ node_base_bytes h + 2 <= U64_MAX
  /\ base <= len
  /\ Forall (fun level => 0 <= level <= max_level h) (node_levels file)
  /\ base + sum_Z (node_levels file) * node_level_bytes h <= len.

(** ** Lemmas *)

Lemma ensure_Ok c e u : ensure c e = Ok u <-> c = true.
Proof. destruct c, u; cbn; naive_solver. Qed.
Lemma context_Ok {A} (o : option A) e a : context o e = Ok a <-> o = Some a.
Proof. destruct o; cbn; naive_solver. Qed.
Lemma of_option_Ok {A} (o : option A) (e : CountError) a : of_option e o = Ok a <-> o = Some a.
Proof. destruct o; cbn; naive_solver. Qed.
Lemma read_exact_Ok file pos n b :
  read_exact file pos n = Ok b <-> (pos + n <= length file)%nat /\ b = take n (drop pos file).
Proof. unfold read_exact. destruct (Nat.leb_spec (pos + n) (length file)); naive_solver lia. Qed.

Lemma from_le_nonneg b : 0 <= from_le_bytes b.
Proof. induction b; cbn [from_le_bytes]; lia. Qed.
Lemma from_le_bound b : Forall (fun x => x < 256)%N b -> from_le_bytes b < 256 ^ Z.of_nat (length b).
Proof.
  induction 1; cbn [from_le_bytes length]; [done|]. rewrite Nat2Z.inj_succ, Z.pow_succ_r by lia. lia.
Qed.

Lemma checked_add_Ok a b c : 0 <= a -> 0 <= b -> checked_add a b = Some c <-> c = a + b /\ c <= U64_MAX.
Proof. intros. unfold checked_add. rewrite checked_u64_Some. unfold in_u64. split; intros [-> ?]; lia. Qed.
Lemma checked_mul_Ok a b c : 0 <= a -> 0 <= b -> checked_mul a b = Some c <-> c = a * b /\ c <= U64_MAX.
Proof. intros. unfold checked_mul. rewrite checked_u64_Some. unfold in_u64. split; intros [-> ?]; nia. Qed.

Lemma chunk_levels_app a b : Nat.even (length a) = true ->
  chunk_levels (a ++ b) = chunk_levels a ++ chunk_levels b.
Proof.
  revert a. fix IH 1. intros [|b0 [|b1 a]] He; [done|done|]. cbn. f_equal. by apply IH.
Qed.

Lemma sum_Z_app a b : sum_Z (a ++ b) = sum_Z a + sum_Z b.
Proof. induction a; cbn; lia. Qed.
Lemma sum_Z_bound lo hi l : Forall (fun x => lo <= x <= hi) l ->
  lo * Z.of_nat (length l) <= sum_Z l <= hi * Z.of_nat (length l).
Proof. induction 1; cbn [sum_Z length]; lia. Qed.
Lemma chunk_levels_length c : (2 * length (chunk_levels c) <= length c)%nat.
Proof. revert c. fix IH 1. intros [|b0 [|b1 c]]; cbn; [lia|lia|]. specialize (IH c). lia. Qed.

Lemma sum_chunk_Ok ml : forall chunk total t, 0 <= total <= U64_MAX ->
  sum_chunk ml chunk total = Ok t <->
  Forall (fun level => 0 <= level <= ml) (chunk_levels chunk)
  /\ t = total + sum_Z (chunk_levels chunk) /\ t <= U64_MAX.
Proof.
  fix IH 1. intros [|b0 [|b1 chunk]] total t Ht; cbn [sum_chunk chunk_levels sum_Z].
  1,2: split; [intros [= <-]; split; [constructor|lia]|intros (_ & -> & _); f_equal; lia].
  set (level := i16_from_le_bytes [b0; b1]). rewrite bind_Ok, Forall_cons. split.
  - intros ([] & Hc%ensure_Ok & Hr). bool_to_prop. rewrite bind_Ok in Hr.
    destruct Hr as (t1 & Ha & Hr). rewrite context_Ok, checked_add_Ok in Ha by lia. destruct Ha as [-> Hmax].
    apply IH in Hr; [|lia]. destruct Hr as (? & -> & ?). repeat split; [lia|lia|done|lia|lia].
  - intros ([Hl Hf] & -> & Hmax). exists tt. split; [apply ensure_Ok, andb_true_iff; lia|].
    pose proof (sum_Z_bound 0 ml _ Hf). rewrite bind_Ok. exists (total + level).
    split; [apply context_Ok, checked_add_Ok; lia|]. apply IH; [lia|]. repeat split; [done|lia|lia].
Qed.

(** Reading the table buffer by buffer is reading it whole. *)
Lemma sum_levels_Ok file ml fuel : forall pos remaining total t,
  (remaining < fuel)%nat -> (pos + 2 * remaining <= length file)%nat -> 0 <= total <= U64_MAX ->
  let levels := chunk_levels (take (2 * remaining) (drop pos file)) in
  sum_levels fuel file ml pos remaining total = Ok t <->
  Forall (fun level => 0 <= level <= ml) levels /\ t = total + sum_Z levels /\ t <= U64_MAX.
Proof.
  induction fuel as [|fuel IH]; intros pos remaining total t Hf Hlen Ht; cbn zeta; [lia|].
  cbn [sum_levels]. destruct (Nat.eqb_spec remaining 0) as [->|Hr].
  { change (2 * 0)%nat with 0%nat. rewrite take_0. cbn [chunk_levels sum_Z].
    split; [intros [= <-]; split; [constructor|lia]|intros (_ & -> & _); f_equal; lia]. }
  change (BUFFER_BYTES / LEVEL_BYTES)%nat with (4 * 1024)%nat. change LEVEL_BYTES with 2%nat.
  set (count := Nat.min remaining (4 * 1024)%nat). cbv zeta.
  assert (0 < count <= remaining)%nat as Hc by (unfold count; lia). clearbody count.
  assert (take (2 * remaining) (drop pos file) = take (count * 2) (drop pos file)
    ++ take (2 * (remaining - count)) (drop (pos + count * 2) file)) as Hsplit.
  { replace (2 * remaining)%nat with (count * 2 + 2 * (remaining - count))%nat by lia.
    by rewrite <- take_take_drop, drop_drop. }
  rewrite Hsplit, chunk_levels_app, Forall_app, sum_Z_app.
  2:{ rewrite length_take_le by (rewrite length_drop; lia). by rewrite Nat.mul_comm, Nat.even_mul. }
  rewrite bind_Ok. setoid_rewrite read_exact_Ok. setoid_rewrite bind_Ok. split.
  - intros (buf & [_ ->] & t1 & Hs & Hrest). apply sum_chunk_Ok in Hs as (Hf1 & -> & Hm); [|done].
    pose proof (sum_Z_bound 0 ml _ Hf1). apply IH in Hrest as (Hf2 & -> & Hm2); [|lia..].
    repeat split; [done|done|lia|lia].
  - intros ([Hf1 Hf2] & -> & Hm). pose proof (sum_Z_bound 0 ml _ Hf1). pose proof (sum_Z_bound 0 ml _ Hf2).
    eexists. split; [split; [lia|done]|]. eexists. split; [apply sum_chunk_Ok; [done|]|].
    + split; [done|]. split; [done|lia].
    + apply IH; [lia|lia|lia|]. split; [done|]. split; lia.
Qed.

Lemma shape_fields file : (8 <= length file)%nat ->
  from_le_bytes (take 4 (take 8 (drop 0 file))) = file_rows file
  /\ from_le_bytes (drop 4 (take 8 (drop 0 file))) = file_vector_bytes file.
Proof.
  intros Hl. unfold file_rows, file_vector_bytes. rewrite drop_0, take_take. split; [done|].
  by rewrite (take_drop_commute file 4 4).
Qed.

Lemma rows_bounds file : Forall (fun b => b < 256)%N file ->
  0 <= file_rows file < 2 ^ 32 /\ 0 <= file_vector_bytes file.
Proof.
  intros Hb. unfold file_rows, file_vector_bytes. pose proof (from_le_nonneg (take 4 file)).
  split; [split; [done|]|apply from_le_nonneg].
  pose proof (from_le_bound (take 4 file) (Forall_take _ _ _ Hb)) as Hu.
  assert (256 ^ Z.of_nat (length (take 4 file)) <= 256 ^ 4); [|lia].
  apply Z.pow_le_mono_r; [lia|]. rewrite length_take. lia.
Qed.

(** The fields are [u64]s. *)
Definition u64_fields (h : Header) : Prop :=
  Forall in_u64 [dimensions h; scalar_bytes h; count_present h; count_deleted h; graph_size h;
                 max_level h; entry_slot h; node_base_bytes h; node_level_bytes h].

Section Spec.
Context (inspect : list N -> list N -> option Header) (file : list N) (dims : Z).
Hypothesis fields : forall dense graph h, inspect dense graph = Some h -> u64_fields h.
Hypothesis bytes : Forall (fun b => b < 256)%N file.
Hypothesis len_u64 : Z.of_nat (length file) <= U64_MAX.

Abbreviation rows := (file_rows file).
Abbreviation vb := (file_vector_bytes file).
Abbreviation len := (Z.of_nat (length file)).

Lemma checked_shape_Ok off : checked_mul rows vb ≫= (fun b => checked_add b 8) = Some off <->
  off = header_offset file /\ off <= U64_MAX.
Proof using bytes.
  pose proof (rows_bounds file bytes). rewrite bind_Some. setoid_rewrite checked_mul_Ok; [|lia..].
  unfold header_offset. split.
  - intros (b & [-> Hb] & Ha). rewrite checked_add_Ok in Ha by nia. lia.
  - intros [-> Hm]. exists (rows * vb). rewrite checked_add_Ok by nia. split; [|lia]. split; [done|lia].
Qed.

Lemma checked_base_Ok nb off base : 0 <= nb -> 0 <= off ->
  (checked_add nb 2 ≫= fun b => checked_mul b rows ≫= fun b => checked_add b off) = Some base <->
  base = off + (nb + 2) * rows /\ nb + 2 <= U64_MAX /\ base <= U64_MAX.
Proof using bytes.
  intros Hn Ho. pose proof (rows_bounds file bytes) as [Hr _]. rewrite bind_Some. split.
  - intros (x & Hx & Hy). apply bind_Some in Hy as (y & Hy & Hb).
    rewrite checked_add_Ok in Hx by lia. destruct Hx as [-> Hx].
    rewrite checked_mul_Ok in Hy by lia. destruct Hy as [-> Hy].
    rewrite checked_add_Ok in Hb by nia. destruct Hb as [-> Hb]. split; [lia|done].
  - intros (-> & H1 & H2). assert (0 <= (nb + 2) * rows) by nia. exists (nb + 2).
    rewrite checked_add_Ok, bind_Some by lia. split; [lia|]. exists ((nb + 2) * rows).
    rewrite checked_mul_Ok, checked_add_Ok by lia. lia.
Qed.

Lemma checked_required_Ok total nl base r : 0 <= total -> 0 <= nl -> 0 <= base ->
  checked_mul total nl ≫= (fun b => checked_add b base) = Some r <->
  r = base + total * nl /\ r <= U64_MAX.
Proof using.
  clear. intros Ht Hn Hb. rewrite bind_Some. setoid_rewrite checked_mul_Ok; [|lia..]. split.
  - intros (b & [-> H1] & H2). rewrite checked_add_Ok in H2 by nia. lia.
  - intros [-> Hm]. exists (total * nl). assert (0 <= total * nl) by nia.
    rewrite checked_add_Ok by lia. lia.
Qed.

Lemma header_checks_Ok h :
  u64_fields h ->
  (bool_decide (checked_mul (dimensions h) (scalar_bytes h) = Some vb) = true <->
     dimensions h * scalar_bytes h = vb)
  /\ (bool_decide (checked_add (count_present h) (count_deleted h) = Some rows)
       && (graph_size h =? rows) = true <->
     count_present h + count_deleted h = rows /\ graph_size h = rows)
  /\ (negb (0 <? rows) || ((max_level h <=? I16_MAX) && (entry_slot h <? rows)) = true <->
     rows = 0 \/ max_level h <= I16_MAX /\ entry_slot h < rows).
Proof using bytes.
  unfold u64_fields. rewrite !Forall_cons. unfold in_u64. intros H.
  pose proof (rows_bounds file bytes) as [Hr Hv].
  assert (vb <= U64_MAX).
  { pose proof (from_le_bound (take 4 (drop 4 file)) (Forall_take _ _ _ (Forall_drop _ _ _ bytes))) as Hu.
    assert (256 ^ Z.of_nat (length (take 4 (drop 4 file))) <= 256 ^ 4).
    { apply Z.pow_le_mono_r; [lia|]. rewrite length_take. lia. }
    unfold file_vector_bytes, U64_MAX. lia. }
  rewrite !andb_true_iff, !bool_decide_eq_true, checked_mul_Ok, checked_add_Ok by lia.
  rewrite orb_true_iff, negb_true_iff, andb_true_iff. unfold U64_MAX in *. repeat split; lia.
Qed.

(** Both checks of the header together, in the form [read_count] has them. *)
Lemma levels_Ok h base : nodes_offset file <= len -> 0 <= node_base_bytes h ->
  base = nodes_offset file + (node_base_bytes h + 2) * rows -> base <= len -> 
  (rows = 0 \/ max_level h <= I16_MAX) -> forall t,
  sum_levels (S (Z.to_nat rows)) file (max_level h)
    (Z.to_nat (header_offset file) + DENSE_HEADER_BYTES + GRAPH_HEADER_BYTES) (Z.to_nat rows) 0 = Ok t <->
  Forall (fun level => 0 <= level <= max_level h) (node_levels file) /\ t = sum_Z (node_levels file).
Proof using bytes.
  intros Hn Hb -> Hle Hmax t. pose proof (rows_bounds file bytes) as [Hr Hv].
  assert (0 <= header_offset file) as Ho by (unfold header_offset; nia).
  assert (Z.to_nat (header_offset file) + DENSE_HEADER_BYTES + GRAPH_HEADER_BYTES
    = Z.to_nat (nodes_offset file))%nat as ->
    by (unfold nodes_offset, DENSE_HEADER_BYTES, GRAPH_HEADER_BYTES; lia).
  rewrite sum_levels_Ok; [|lia| |unfold U64_MAX; lia].
  2:{ assert (0 <= node_base_bytes h * rows) by nia. unfold nodes_offset in *. lia. }
  fold (node_levels file). split; [intros (? & -> & _); split; [done|lia]|]. intros [Hf ->]. split; [done|].
  split; [lia|]. pose proof (sum_Z_bound 0 _ _ Hf) as Hs.
  assert (length (node_levels file) <= Z.to_nat rows)%nat as Hl.
  { unfold node_levels. etrans; [|apply (Nat.le_min_l _ (length (drop (Z.to_nat (nodes_offset file)) file)))].
    pose proof (chunk_levels_length (take (2 * Z.to_nat rows) (drop (Z.to_nat (nodes_offset file)) file))).
    rewrite length_take in *. lia. }
  destruct Hmax as [E|Hmax].
  - rewrite E in Hl. assert (length (node_levels file) = 0)%nat as E0 by lia. rewrite E0 in Hs.
    unfold U64_MAX. lia.
  - unfold I16_MAX, U64_MAX in *. nia.
Qed.
End Spec.

Lemma read_count_sound inspect file dims n :
  (forall dense graph h, inspect dense graph = Some h -> u64_fields h) ->
  Forall (fun b => b < 256)%N file -> Z.of_nat (length file) <= U64_MAX ->
  read_count inspect file dims = Ok n ->
  exists h, well_formed inspect file dims h /\ n = count_present h.
Proof.
  intros Hfields Hb Hlen. pose proof (rows_bounds file Hb) as [Hr Hv].
  assert (8 <= header_offset file) as Ho by (unfold header_offset; nia).
  unfold read_count, well_formed. cbv zeta.
  intros H. apply bind_Ok in H as (shape & Hs & H). apply read_exact_Ok in Hs as [H8 ->].
  destruct (shape_fields file H8) as [E1 E2]. rewrite E1, E2 in H.
  apply bind_Ok in H as (off & Hoff & H). rewrite context_Ok, checked_shape_Ok in Hoff by done.
  destruct Hoff as [-> _].
  apply bind_Ok in H as (nodes & Hn & H). rewrite context_Ok, checked_add_Ok in Hn by (cbn; lia).
  destruct Hn as [-> _]. fold (nodes_offset file) in H.
  apply bind_Ok in H as ([] & Hfit%ensure_Ok & H). change (header_offset file + _) with (nodes_offset file) in *.
  apply bind_Ok in H as (dense & Hd & H). apply read_exact_Ok in Hd as [_ ->].
  apply bind_Ok in H as (graph & Hg & H). apply read_exact_Ok in Hg as [_ ->].
  apply bind_Ok in H as (h & Hh & H). apply of_option_Ok in Hh. pose proof (Hfields _ _ _ Hh) as Hu.
  destruct (header_checks_Ok file Hb h Hu) as (W1 & W2 & W3).
  apply bind_Ok in H as ([] & Hdim%ensure_Ok & H). apply bind_Ok in H as ([] & Hw%ensure_Ok & H).
  apply bind_Ok in H as ([] & Hp%ensure_Ok & H). apply bind_Ok in H as ([] & Hgr%ensure_Ok & H).
  apply W1 in Hw. apply W2 in Hp as [Hp1 Hp2]. apply W3 in Hgr.
  unfold u64_fields in Hu. rewrite !Forall_cons in Hu. unfold in_u64 in Hu.
  apply bind_Ok in H as (base & Hbase & H). rewrite context_Ok in Hbase.
  apply checked_base_Ok in Hbase as (Eb & Hnb & _); [|done|lia|unfold nodes_offset; lia].
  apply bind_Ok in H as ([] & Hbl%ensure_Ok & H). bool_to_prop.
  apply bind_Ok in H as (total & Ht & H). rewrite (levels_Ok _ Hb h base) in Ht; [|lia|lia|done|done|tauto].
  destruct Ht as [Hlev ->]. pose proof (sum_Z_bound 0 _ _ Hlev).
  assert (0 <= base) by (rewrite Eb; unfold nodes_offset; nia).
  apply bind_Ok in H as (req & Hreq & H). rewrite context_Ok in Hreq.
  apply checked_required_Ok in Hreq as [-> _]; [|lia|lia|done].
  apply bind_Ok in H as ([] & Hreq%ensure_Ok & H). bool_to_prop.
  injection H as <-. exists h. subst. repeat split; try done; lia.
Qed.

Lemma read_count_complete inspect file dims h :
  (forall dense graph h, inspect dense graph = Some h -> u64_fields h) ->
  Forall (fun b => b < 256)%N file -> Z.of_nat (length file) <= U64_MAX ->
  well_formed inspect file dims h -> read_count inspect file dims = Ok (count_present h).
Proof.
  intros Hfields Hb Hlen. pose proof (rows_bounds file Hb) as [Hr Hv].
  assert (8 <= header_offset file) as Ho by (unfold header_offset; nia).
  unfold read_count, well_formed. cbv zeta.
  intros (Hn & Hh & Hdim & Hw & Hp1 & Hp2 & Hg & Hnb & Hbase & Hlev & Hreq).
  pose proof (Hfields _ _ _ Hh) as Hu. destruct (header_checks_Ok file Hb h Hu) as (W1 & W2 & W3).
  unfold u64_fields in Hu. rewrite !Forall_cons in Hu. unfold in_u64 in Hu.
  pose proof (sum_Z_bound 0 _ _ Hlev). assert (8 + 104 <= Z.of_nat (length file)) by (unfold nodes_offset in *; lia).
  destruct (shape_fields file ltac:(lia)) as [E1 E2].
  set (base := nodes_offset file + (node_base_bytes h + 2) * file_rows file) in *.
  assert (nodes_offset file <= base) by (unfold base; nia).
  apply bind_Ok. exists (take 8 (drop 0 file)). split; [apply read_exact_Ok; split; [lia|done]|]. rewrite E1, E2.
  apply bind_Ok. exists (header_offset file). split.
  { rewrite context_Ok, checked_shape_Ok by done. unfold nodes_offset in *. split; [done|lia]. }
  apply bind_Ok. exists (nodes_offset file). split.
  { change (Z.of_nat (DENSE_HEADER_BYTES + GRAPH_HEADER_BYTES)) with 104.
    rewrite context_Ok, checked_add_Ok by lia. unfold nodes_offset in *. lia. }
  apply bind_Ok. exists tt. split; [apply ensure_Ok; lia|].
  apply bind_Ok. eexists. split; [apply read_exact_Ok; split; [|reflexivity]|].
  { unfold nodes_offset, DENSE_HEADER_BYTES in *. lia. }
  apply bind_Ok. eexists. split; [apply read_exact_Ok; split; [|reflexivity]|].
  { unfold nodes_offset, DENSE_HEADER_BYTES, GRAPH_HEADER_BYTES in *. lia. }
  apply bind_Ok. exists h. split; [by apply of_option_Ok|].
  apply bind_Ok. exists tt. split; [apply ensure_Ok; lia|].
  apply bind_Ok. exists tt. split; [apply ensure_Ok, W1; by rewrite Hdim|].
  apply bind_Ok. exists tt. split; [by apply ensure_Ok, W2|].
  apply bind_Ok. exists tt. split; [by apply ensure_Ok, W3|].
  apply bind_Ok. exists base. split.
  { apply context_Ok. change (Z.of_nat LEVEL_BYTES) with 2.
    apply checked_base_Ok; [done|lia|unfold nodes_offset; lia|]. split; [done|lia]. }
  apply bind_Ok. exists tt. split; [apply ensure_Ok; lia|].
  apply bind_Ok. exists (sum_Z (node_levels file)). split.
  { apply (levels_Ok _ Hb h base); [done|lia|done|done|tauto|done]. }
  apply bind_Ok. eexists. split.
  { apply context_Ok, checked_required_Ok; [lia|lia|unfold nodes_offset in *; lia|]. split; [reflexivity|lia]. }
  apply bind_Ok. exists tt. split; [apply ensure_Ok; lia|done].
Qed.

(** A count is returned exactly for a well-formed file, and it is the
    header's: matrix, both headers, the level table and every node lie within the
    file, the populations and widths agree, and every level is within the
    header's maximum.  No overflow of the checked arithmetic and no buffering of
    the level table changes the answer; the one machine limit left is that a
    node's base size plus a level fits 64 bits. *)
Theorem read_count_spec inspect file dims n :
  (forall dense graph h, inspect dense graph = Some h -> u64_fields h) ->
  Forall (fun b => b < 256)%N file -> Z.of_nat (length file) <= U64_MAX ->
  read_count inspect file dims = Ok n <->
  exists h, well_formed inspect file dims h /\ n = count_present h.
Proof.
  intros Hfields Hb Hlen. split; [by apply read_count_sound|].
  intros (h & Hw & ->). by apply read_count_complete.
Qed.

(** A store of one vector of one half-precision number. *)
Definition tiny_inspect (dense graph : list N) : option Header :=
  if decide (length dense = 64 /\ length graph = 40)%nat
  then Some (MkHeader 1 2 1 0 1 0 0 3 8) else None.
Definition tiny_store : list N := [1; 0; 0; 0; 2; 0; 0; 0]%N ++ replicate (2 + 104 + 2 + 3) 0%N.

Lemma read_count_spec_witness :
  read_count tiny_inspect tiny_store 1 = Ok 1 /\
  exists h, well_formed tiny_inspect tiny_store 1 h /\ 1 = count_present h.
Proof.
  split; [vm_compute; reflexivity|].
  apply (read_count_spec tiny_inspect tiny_store 1 1).
  - intros dense graph h. unfold tiny_inspect. case_decide; [|done]. intros [= <-].
    unfold u64_fields. repeat constructor; unfold U64_MAX; cbn; lia.
  - apply (bool_decide_unpack _). vm_compute. exact I.
  - vm_compute. discriminate.
  - vm_compute. reflexivity.
Defined.
