(* ===== verification/Boolean.v ===== *)
(** * Boolean queries: search_boolean.rs.

  The scanner that decides whether a request uses explicit operators, the guard
  in front of Tantivy's grammar, and the two rewrites of its syntax tree.  The
  grammar, and what a clause matches in an index, are parameters. *)
From S2P Require Import Prelude Utf8.

(** ** The operator scanner *)

Definition is_boundary (c : option char) : bool :=
  match c with
  | None => true
  | Some c => is_whitespace c || (c =? chr "(")%N || (c =? chr ")")%N
  end.

Definition OPERATORS : list str := [lit "AND"; lit "OR"; lit "NOT"].

(** [operator_at], given the text from the index on. *)
Definition operator_at (suffix : str) (boundary : bool) : bool :=
  boundary && existsb (fun op =>
    match strip_prefix op suffix with
    | Some tail => is_boundary (head tail)
    | None => false
    end) OPERATORS.

(** The inner loop of [backtick_runs]: the end of the run and the ticks after
    it. *)
Fixpoint run_end (ticks : list nat) (end_ : nat) : nat * list nat :=
  match ticks with
  | position :: ticks' => if position =? end_ then run_end ticks' (S end_) else (end_, ticks)
  | [] => (end_, [])
  end.

Definition BacktickRuns : Type := gmap nat (list nat).

Fixpoint backtick_loop (fuel : nat) (ticks : list nat) (runs : BacktickRuns) : BacktickRuns :=
  match fuel, ticks with
  | S fuel, start :: ticks =>
    let '(end_, ticks) := run_end ticks (S start) in
    let width := end_ - start in
    backtick_loop fuel ticks (<[width := unwrap_or [] (runs !! width) ++ [start]]> runs)
  | _, _ => runs
  end.

(** Where the backticks are ([match_indices]). *)
Definition tick_positions (query : str) : list nat :=
  omap (fun ic : nat * char => if (snd ic =? chr "`")%N then Some (fst ic) else None)
    (char_indices 0 query).

Definition backtick_runs (query : str) : BacktickRuns :=
  let ticks := tick_positions query in backtick_loop (length ticks) ticks ∅.

Record Scan := MkScan {
  quote : option (char * nat);
  escaped : bool;
  quoted_operator : bool;
  backticks : option BacktickRuns;
  skip_until : nat
}.

Definition drop_starts (index : nat) (starts : list nat) : list nat :=
  drop_while (fun start => start <=? index) starts.

(** A run of backticks at [index]: skip to the end of the closed span, or past
    the run. *)
Definition scan_backticks (query : str) (index : nat) (suffix : str) (s : Scan) : Scan :=
  let width := length (take_while (fun c => (c =? chr "`")%N) suffix) in
  let runs := match backticks s with Some runs => runs | None => backtick_runs query end in
  match runs !! width with
  | None => MkScan (quote s) (escaped s) (quoted_operator s) (Some runs) (index + width)
  | Some starts =>
    let starts := drop_starts index starts in
    MkScan (quote s) (escaped s) (quoted_operator s) (Some (<[width := starts]> runs))
      (match starts with closing :: _ => closing + width | [] => index + width end)
  end.

(** One turn of the loop over [char_indices]; [None] is [return true]. *)
Definition scan_step (query : str) (index : nat) (previous : option char) (suffix : str)
    (character : char) (s : Scan) : option Scan :=
  if index <? skip_until s then Some s
  else if escaped s then
    Some (MkScan (quote s) false (quoted_operator s) (backticks s) (skip_until s))
  else if (character =? chr "\")%N then
    Some (MkScan (quote s) true (quoted_operator s) (backticks s) (skip_until s))
  else
    let boundary := is_boundary previous in
    match quote s with
    | Some (delimiter, start) =>
      Some (if (character =? delimiter)%N
            then MkScan None (escaped s) false (backticks s) (skip_until s)
            else if operator_at suffix (boundary || (index =? S start))
            then MkScan (quote s) (escaped s) true (backticks s) (skip_until s)
            else s)
    | None =>
      if (character =? chr "`")%N then Some (scan_backticks query index suffix s)
      else
        let quote_boundary :=
          boundary || match previous with
                      | Some c => (c =? chr ":")%N || (c =? chr "+")%N || (c =? chr "-")%N
                      | None => false
                      end in
        if (character =? 34)%N || ((character =? chr "'")%N && quote_boundary)
        then Some (MkScan (Some (character, index)) (escaped s) false (backticks s) (skip_until s))
        else if operator_at suffix boundary then None
        else Some s
    end.

Fixpoint scan_loop (query : str) (index : nat) (previous : option char) (suffix : str) (s : Scan)
  : option Scan :=
  match suffix with
  | [] => Some s
  | character :: suffix' =>
    s ← scan_step query index previous suffix character s;
    scan_loop query (index + len_utf8 character) (Some character) suffix' s
  end.

Definition scan_start : Scan := MkScan None false false None 0.

Definition has_explicit_boolean_operators (query : str) : bool :=
  let query := trim query in
  let syntax_prefix :=
    match strip_prefix [34%N] query with
    | Some rest => rest
    | None => unwrap_or query (strip_prefix (lit "'") query)
    end in
  if negb (existsb is_whitespace query) && negb (starts_with (lit "(") syntax_prefix)
     && negb (starts_with (lit "NOT(") syntax_prefix)
  then false
  else
    match scan_loop query 0 None query scan_start with
    | None => true
    | Some s => is_some (quote s) && quoted_operator s
    end.

(** ** The guard in front of the grammar *)

Fixpoint sign_loop (previous : option char) (suffix : str) : bool :=
  match suffix with
  | [] => false
  | character :: rest =>
    (((character =? chr "-")%N || (character =? chr "+")%N) && is_boundary previous
     && (let after_space := trim_start rest in
         (blen after_space <? blen rest)
         && match strip_prefix (lit "*") after_space with
            | Some tail => is_boundary (head tail)
            | None => false
            end))
    || sign_loop (Some character) rest
  end.
Definition has_sign_before_bare_star (text : str) : bool := sign_loop None text.

(** A call of the grammar: its result, or [None] if it panics. *)
Definition guard_query_grammar {T} (text : str) (parse : str -> option (Result str T)) : Result str T :=
  if has_sign_before_bare_star text then Err text
  else match parse text with Some r => r | None => Err text end.

(** ** The syntax tree *)

Inductive Occur := Should | Must | MustNot.
#[global] Instance occur_eq_dec : EqDecision Occur.
Proof. solve_decision. Defined.

(** [UserInputLeaf]: literals with their field, the universe, and the leaves the
    code does not look at. *)
Inductive UserInputLeaf :=
| Literal (field_name : option str) (phrase : str)
| AllLeaf
| OtherLeaf (text : str).

(** Boosts are bit patterns of [f64]. *)
Inductive UserInputAst :=
| Clause (clauses : list (option Occur * UserInputAst))
| Boost (child : UserInputAst) (boost : N)
| Leaf (leaf : UserInputLeaf).

(** 0.0, and [SignatureScoring::BOOST / Plain.default_boost()] = 5.0. *)
Definition ZERO_BOOST : N := 0.
Definition RESTORED_BOOST : N := 0x4014000000000000.

Definition explicit_signature_term (leaf : UserInputLeaf) : bool :=
  match leaf with
  | Literal (Some f) _ => bool_decide (f = lit "signature")
  | _ => false
  end.

Fixpoint boost_explicit_signature_clauses (ast : UserInputAst) : UserInputAst :=
  match ast with
  | Clause clauses => Clause (map (fun c => (fst c, boost_explicit_signature_clauses (snd c))) clauses)
  | Boost child b => Boost (boost_explicit_signature_clauses child) b
  | Leaf leaf => if explicit_signature_term leaf then Boost ast RESTORED_BOOST else ast
  end.

Definition all_negative (clauses : list (option Occur * UserInputAst)) : bool :=
  negb (bool_decide (length clauses = 0))
  && forallb (fun c => bool_decide (fst c = Some MustNot)) clauses.

Fixpoint anchor_negative_clauses (ast : UserInputAst) : UserInputAst :=
  match ast with
  | Clause clauses =>
    let clauses := map (fun c => (fst c, anchor_negative_clauses (snd c))) clauses in
    Clause (if all_negative clauses
            then clauses ++ [(Some Must, Boost (Leaf AllLeaf) ZERO_BOOST)] else clauses)
  | Boost child b => Boost (anchor_negative_clauses child) b
  | Leaf _ => ast
  end.

(** The tree that [strict_boolean_query] hands to the index; [plain] is
    [SignatureScoring::Plain]. *)
Definition strict_boolean_ast (grammar : str -> option (Result str UserInputAst)) (plain : bool)
    (text : str) : Result str UserInputAst :=
  ast ← guard_query_grammar text grammar;
  let ast := anchor_negative_clauses ast in
  mret (if plain then boost_explicit_signature_clauses ast else ast).

(** * What the Boolean scanner, guard and rewrites guarantee. *)

(** ** The guard *)

(** Between [prev] and the text: the character before [pre ++ _]. *)
Definition before (prev : option char) (pre : str) : option char :=
  match last pre with Some c => Some c | None => prev end.

Lemma before_cons prev c pre : before prev (c :: pre) = before (Some c) pre.
Proof. unfold before. by destruct pre as [|d pre] using rev_ind; [|rewrite app_comm_cons, !last_snoc]. Qed.

Lemma trim_start_split s : exists ws, s = ws ++ trim_start s /\ Forall (fun c => is_whitespace c = true) ws.
Proof.
  unfold trim_start. induction s as [|c s (ws & E & Hf)]; [by exists []|]. cbn [drop_while].
  destruct (is_whitespace c) eqn:Ec; [|by exists []]. exists (c :: ws). cbn. rewrite <- E. split; [done|by constructor].
Qed.

Lemma trim_start_app ws s : Forall (fun c => is_whitespace c = true) ws ->
  trim_start (ws ++ s) = trim_start s.
Proof. unfold trim_start. induction 1 as [|c ws Hc _ IH]; cbn [app drop_while]; [done|by rewrite Hc]. Qed.

Definition sign (c : char) : Prop := c = chr "-" \/ c = chr "+".
Definition spaces (ws : str) : Prop := ws <> [] /\ Forall (fun c => is_whitespace c = true) ws.

(** What follows a sign: spaces, a star, a boundary. *)
Lemma star_after_space rest :
  (blen (trim_start rest) <? blen rest)
  && match strip_prefix (lit "*") (trim_start rest) with
     | Some tail => is_boundary (head tail)
     | None => false
     end = true <->
  exists ws tail, rest = ws ++ chr "*" :: tail /\ spaces ws /\ is_boundary (head tail) = true.
Proof.
  rewrite andb_true_iff, Nat.ltb_lt. split.
  - intros [Hlt Hm]. destruct (trim_start_split rest) as (ws & E & Hws).
    destruct (trim_start rest) as [|c t] eqn:Et; [done|].
    change (lit "*") with [chr "*"] in Hm. cbn [strip_prefix] in Hm.
    destruct (N.eqb_spec (chr "*") c) as [<-|]; [|done]. exists ws, t. split; [done|]. split; [split; [|done]|done].
    intros ->. rewrite E in Hlt. cbn in Hlt. lia.
  - intros (ws & tail & -> & [Hne Hws] & Hb). rewrite trim_start_app by done.
    change (trim_start (chr "*" :: tail)) with (chr "*" :: tail). split; [|by cbn].
    rewrite blen_app. destruct ws as [|c ws]; [done|]. cbn [blen]. pose proof (len_utf8_pos c). lia.
Qed.

(** The texts on which the grammar is known to panic. *)
Definition sign_before_star (prev : option char) (text : str) : Prop :=
  exists pre c ws tail, text = pre ++ c :: ws ++ chr "*" :: tail /\ sign c
    /\ is_boundary (before prev pre) = true /\ spaces ws /\ is_boundary (head tail) = true.

Lemma sign_loop_spec text : forall prev, sign_loop prev text = true <-> sign_before_star prev text.
Proof.
  induction text as [|c text IH]; intros prev; cbn [sign_loop].
  { split; [done|]. intros ([] & ? & ? & ? & ? & _); done. }
  rewrite orb_true_iff, IH, !andb_true_iff, orb_true_iff, !N.eqb_eq. rewrite <- andb_true_iff, star_after_space.
  split.
  - intros [[[Hs Hb] (ws & tail & -> & Hsp & Ht)] | (pre & d & ws & tail & -> & Hs & Hb & Hsp & Ht)].
    + by exists [], c, ws, tail.
    + exists (c :: pre), d, ws, tail. by rewrite before_cons.
  - intros ([|p pre] & d & ws & tail & E & Hs & Hb & Hsp & Ht); simplify_eq/=.
    + left. split; [done|]. by exists ws, tail.
    + right. exists pre, d, ws, tail. by rewrite <- (before_cons prev).
Qed.

(** Tantivy's grammar is never called on a text in which a standalone sign is
    followed by spaces and a standalone star, wherever that is in the text and
    whatever whitespace separates them; on every other text it is called, and a
    panic of the grammar is a syntax error like any other. *)
Theorem guard_query_grammar_spec {T} (parse : str -> option (Result str T)) text :
  (sign_before_star None text /\ guard_query_grammar text parse = Err text) \/
  (~ sign_before_star None text /\
   guard_query_grammar text parse = match parse text with Some r => r | None => Err text end).
Proof.
  unfold guard_query_grammar, has_sign_before_bare_star.
  destruct (sign_loop None text) eqn:E; [left|right]; split; [by apply sign_loop_spec|done| |done].
  intros H. apply sign_loop_spec in H. by rewrite H in E.
Qed.

Definition sample_grammar (text : str) : option (Result str UserInputAst) :=
  if bool_decide (text = lit "a") then Some (Ok (Leaf (Literal None text))) else None.
Example guard_samples :
  map (fun text => is_ok (guard_query_grammar text sample_grammar))
    [lit "a"; lit "b"; lit "- * item"] = [true; false; false].
Proof. vm_compute. reflexivity. Qed.

(** ** The rewrites *)

(** Induction over a tree and the clauses in it. *)
Lemma ast_ind' (P : UserInputAst -> Prop) :
  (forall cs, Forall (fun c => P (snd c)) cs -> P (Clause cs)) ->
  (forall a b, P a -> P (Boost a b)) -> (forall l, P (Leaf l)) -> forall a, P a.
Proof.
  intros Hc Hb Hl. fix IH 1. intros [cs|a b|l]; [apply Hc|by apply Hb|apply Hl].
  induction cs as [|[o a] cs IHcs]; constructor; [apply IH|exact IHcs].
Qed.

(** How an occurrence list selects a document: every [Must], no [MustNot], and
    some [Should] if there is no [Must].  A list of [MustNot]s selects nothing.
    [default] is the occurrence of an unmarked clause. *)
Definition select (default : Occur) (l : list (option Occur * bool)) : bool :=
  let l := map (fun c => (unwrap_or default (fst c), snd c)) l in
  let with_occur o := omap (fun c : Occur * bool => if decide (fst c = o) then Some (snd c) else None) l in
  negb (existsb id (with_occur MustNot))
  && match with_occur Must with
     | [] => existsb id (with_occur Should)
     | musts => forallb id musts
     end.

(** Set semantics of occurrences, independent of how the code finds negative clauses: the
    excluded parts do not match, the required ones do, and if there are parts to choose from
    and no required one, one of them matches.  A clause without parts selects nothing. *)
Definition set_select (l : list (Occur * bool)) : bool :=
  negb (bool_decide (l = []))
  && forallb (fun c => match fst c with Must => snd c | MustNot => negb (snd c) | Should => true end) l
  && (existsb (fun c => bool_decide (fst c = Must)) l
      || negb (existsb (fun c => bool_decide (fst c = Should)) l)
      || existsb (fun c => bool_decide (fst c = Should) && snd c) l).
Definition effective (default : Occur) (l : list (option Occur * bool)) : list (Occur * bool) :=
  map (fun c => (unwrap_or default (fst c), snd c)) l.
Fixpoint denote (default : Occur) (holds : UserInputLeaf -> bool) (ast : UserInputAst) : bool :=
  match ast with
  | Clause cs => set_select (effective default (map (fun c => (fst c, denote default holds (snd c))) cs))
  | Boost a _ => denote default holds a
  | Leaf l => holds l
  end.

Definition with_occur (o : Occur) (l : list (Occur * bool)) : list bool :=
  omap (fun c : Occur * bool => if decide (fst c = o) then Some (snd c) else None) l.
Lemma existsb_with_occur o l : existsb id (with_occur o l) = existsb (fun c => bool_decide (fst c = o) && snd c) l.
Proof.
  unfold with_occur. induction l as [|[o' b] l IH]; [done|]. cbn [omap list_omap existsb fst snd]. rewrite <- IH.
  case_decide; [rewrite bool_decide_eq_true_2 by done|rewrite bool_decide_eq_false_2 by done]; done.
Qed.
Lemma forallb_with_occur o l : forallb id (with_occur o l) = forallb (fun c => negb (bool_decide (fst c = o)) || snd c) l.
Proof.
  unfold with_occur. induction l as [|[o' b] l IH]; [done|]. cbn [omap list_omap forallb fst snd]. rewrite <- IH.
  case_decide; [rewrite bool_decide_eq_true_2 by done|rewrite bool_decide_eq_false_2 by done]; done.
Qed.
Lemma with_occur_nil o l : with_occur o l = [] <-> existsb (fun c => bool_decide (fst c = o)) l = false.
Proof.
  unfold with_occur. induction l as [|[o' b] l IH]; [done|]. cbn [omap list_omap existsb fst snd].
  case_decide; [rewrite bool_decide_eq_true_2 by done|rewrite bool_decide_eq_false_2 by done]; done.
Qed.
Lemma set_select_split l : l <> [] -> set_select l =
  negb (existsb id (with_occur MustNot l)) && forallb id (with_occur Must l)
  && (existsb (fun c => bool_decide (fst c = Must)) l || negb (existsb (fun c => bool_decide (fst c = Should)) l) || existsb id (with_occur Should l)).
Proof.
  intros Hl. unfold set_select. rewrite bool_decide_eq_false_2 by done. rewrite !existsb_with_occur, forallb_with_occur. cbn [negb andb]. f_equal.
  clear Hl. induction l as [|[o b] l IH]; [done|]. cbn [existsb forallb fst snd]. rewrite IH. destruct o, b; cbn;
    by destruct (existsb _ l), (forallb _ l).
Qed.

(** Where some part is not excluded the index already evaluates the sets. *)
Lemma select_sets default (l : list (option Occur * bool)) :
  default <> MustNot -> forallb (fun c => bool_decide (fst c = Some MustNot)) l = false \/ l = [] -> select default l = set_select (effective default l).
Proof.
  intros Hd [Hl| ->]; [|done]. assert (effective default l <> []) as Hne by (by destruct l). rewrite set_select_split by done.
  assert (existsb (fun c => bool_decide (fst c = Must)) (effective default l) = false ->
          existsb (fun c => bool_decide (fst c = Should)) (effective default l) = true) as Hs.
  { clear Hne. induction l as [|[o b] l IH]; [done|]. cbn in Hl |- *. intros [H1 H2]%orb_false_iff.
    destruct o as [[]|]; cbn in *; try done; [by apply IH|]. by destruct default. }
  unfold select. fold (effective default l). set (e := effective default l) in *. clearbody e.
  change (omap _ e) with (with_occur MustNot e) at 1. change (omap _ e) with (with_occur Must e) at 1. change (omap _ e) with (with_occur Should e).
  destruct (with_occur Must e) as [|m ms] eqn:Em.
  - apply with_occur_nil in Em. rewrite Em, (Hs Em). cbn [forallb negb orb]. by rewrite andb_true_r.
  - assert (existsb (fun c => bool_decide (fst c = Must)) e = true) as ->.
    { apply not_false_iff_true. intros H. apply with_occur_nil in H. congruence. }
    cbn [orb]. by rewrite andb_true_r.
Qed.
Lemma negative_sets default (l : list (option Occur * bool)) : l <> [] ->
  forallb (fun c => bool_decide (fst c = Some MustNot)) l = true -> negb (existsb snd l) = set_select (effective default l).
Proof.
  intros Hl Hn. unfold set_select, effective. rewrite bool_decide_eq_false_2 by (by destruct l). cbn [negb andb].
  assert (forall o, o <> MustNot -> existsb (fun c => bool_decide (fst c = o)) (map (fun c => (unwrap_or default (fst c), snd c)) l) = false) as Ho.
  { clear Hl. intros o Hne. induction l as [|[o' b] l IH]; [done|]. cbn in Hn |- *. apply andb_true_iff in Hn as [->%bool_decide_eq_true Hn].
    rewrite IH by done. cbn. by destruct o. }
  rewrite (Ho Must), (Ho Should) by done. cbn [negb orb]. rewrite andb_true_r. clear Hl Ho.
  induction l as [|[o b] l IH]; [done|]. cbn in Hn |- *. apply andb_true_iff in Hn as [->%bool_decide_eq_true Hn]. cbn. rewrite <- IH by done.
  by destruct b.
Qed.

Section Rewrites.
(** Whether a document matches a tree, as the index evaluates it. *)
Context (default : Occur) (matches : UserInputAst -> bool).
Hypothesis matches_clause : forall cs,
  matches (Clause cs) = select default (map (fun c => (fst c, matches (snd c))) cs).
Hypothesis matches_boost : forall a b, matches (Boost a b) = matches a.
Hypothesis matches_all : matches (Leaf AllLeaf) = true.
Hypothesis default_positive : default <> MustNot.

Lemma all_negative_map f cs :
  all_negative (map (fun c => (fst c, f (snd c))) cs) = all_negative cs.
Proof.
  unfold all_negative. rewrite length_map. f_equal. induction cs as [|[o a] cs IH]; cbn; [done|by rewrite IH].
Qed.

(** The universe added to a list of [MustNot]s. *)
Lemma select_negative (l : list (option Occur * bool)) :
  forallb (fun c => bool_decide (fst c = Some MustNot)) l = true ->
  select default (l ++ [(Some Must, true)]) = negb (existsb snd l).
Proof using.
  intros Hn. unfold select. rewrite map_app, !omap_app.
  assert (forall o, omap (fun c : Occur * bool => if decide (fst c = o) then Some (snd c) else None)
      (map (fun c => (unwrap_or default (fst c), snd c)) l)
    = if decide (o = MustNot) then map snd l else []) as E.
  { intros o. induction l as [|[o' b] l IH]; cbn [map omap list_omap fst snd]; [by case_decide|].
    cbn [forallb fst] in Hn. apply andb_true_iff in Hn as [->%bool_decide_eq_true Hn]. cbn [unwrap_or].
    change (omap _ _) with (omap (fun c : Occur * bool => if decide (fst c = o) then Some (snd c) else None)
      (map (fun c => (unwrap_or default (fst c), snd c)) l)).
    rewrite (IH Hn). destruct o; done. }
  rewrite !E. clear E Hn. cbn -[existsb]. repeat case_decide; try done. cbn.
  rewrite app_nil_r, andb_true_r. f_equal. induction l; cbn; [done|by rewrite IHl].
Qed.

Lemma anchor_denotes ast :
  matches (anchor_negative_clauses ast) = denote default (fun l => matches (Leaf l)) ast.
Proof.
  induction ast as [cs IH|a b IH|l] using ast_ind'; cbn [anchor_negative_clauses denote];
    [|by rewrite matches_boost|done].
  set (l := map (fun c => (fst c, denote default (fun l => matches (Leaf l)) (snd c))) cs).
  assert (map (fun c => (fst c, matches (snd c)))
      (map (fun c => (fst c, anchor_negative_clauses (snd c))) cs) = l) as E.
  { unfold l. rewrite map_map. apply map_ext_Forall. eapply Forall_impl; [exact IH|]. intros [o a] Ha. cbn in *. by rewrite Ha. }
  assert (forallb (fun c => bool_decide (fst c = Some MustNot)) l = forallb (fun c => bool_decide (fst c = Some MustNot)) cs) as El.
  { unfold l. clear. induction cs as [|[o a] cs IH]; [done|]. cbn. by rewrite IH. }
  rewrite matches_clause, (all_negative_map anchor_negative_clauses). unfold all_negative.
  destruct (forallb _ cs) eqn:En; rewrite ?andb_false_r.
  - destruct cs as [|c cs]; [cbn; apply (select_sets default []); [done|by right]|]. cbn [length negb andb]. rewrite bool_decide_eq_false_2 by done. cbn [negb andb].
    rewrite map_app, E. cbn [map fst snd]. rewrite matches_boost, matches_all, select_negative by done. by apply negative_sets.
  - rewrite E. apply select_sets; [done|]. left. by rewrite El.
Qed.

Lemma boost_matches ast : matches (boost_explicit_signature_clauses ast) = matches ast.
Proof using matches_clause matches_boost.
  induction ast as [cs IH|a b IH|l] using ast_ind'; cbn [boost_explicit_signature_clauses].
  - rewrite !matches_clause. f_equal. rewrite map_map. apply map_ext_Forall.
    eapply Forall_impl; [exact IH|]. intros [o a] Ha. cbn in *. by rewrite Ha.
  - by rewrite !matches_boost.
  - destruct (explicit_signature_term l); [by rewrite matches_boost|done].
Qed.
End Rewrites.

(** C37. The tree a Boolean request hands to the index selects, in every index
    that evaluates clauses by occurrence, ignores boosts and matches everything
    with the universe, exactly the documents of the request under set semantics:
    no excluded part matches, every required one does, and one of the others where
    none is required; so a purely negative clause, at any depth, is the complement of its
    parts, where Tantivy itself would select nothing, and a clause without parts stays
    empty.  An unmarked part is optional or required, as in Tantivy.  Restoring the boost of
    explicit signature terms changes no selection. *)
Theorem strict_boolean_ast_denotes grammar plain text ast default matches :
  guard_query_grammar text grammar = Ok ast ->
  (forall cs, matches (Clause cs) = select default (map (fun c => (fst c, matches (snd c))) cs)) ->
  (forall a b, matches (Boost a b) = matches a) ->
  matches (Leaf AllLeaf) = true -> default <> MustNot ->
  exists ast', strict_boolean_ast grammar plain text = Ok ast' /\
    matches ast' = denote default (fun l => matches (Leaf l)) ast.
Proof.
  intros Hg Hc Hb Ha Hd. unfold strict_boolean_ast. rewrite Hg. eexists. split; [reflexivity|].
  rewrite <- (anchor_denotes default matches Hc Hb Ha Hd). destruct plain; [|done].
  by apply (boost_matches default).
Qed.

(** A concrete index: a document is the set of its words. *)
Fixpoint holds_in (doc : list str) (ast : UserInputAst) : bool :=
  match ast with
  | Clause cs => select Should (map (fun c => (fst c, holds_in doc (snd c))) cs)
  | Boost a _ => holds_in doc a
  | Leaf (Literal _ w) => bool_decide (w ∈ doc)
  | Leaf AllLeaf => true
  | Leaf (OtherLeaf _) => false
  end.

(** [alpha OR NOT beta] on a document with neither word. *)
Definition alpha_or_not_beta : UserInputAst :=
  Clause [(Some Should, Leaf (Literal None (lit "alpha")));
          (Some Should, Clause [(Some MustNot, Leaf (Literal (Some (lit "signature")) (lit "beta")))])].

Lemma strict_boolean_ast_denotes_witness :
  exists ast', strict_boolean_ast (fun _ => Some (Ok alpha_or_not_beta)) true (lit "alpha OR NOT beta") = Ok ast' /\
    holds_in [lit "gamma"] ast' =
      denote Should (fun l => holds_in [lit "gamma"] (Leaf l)) alpha_or_not_beta
    /\ denote Should (fun l => holds_in [lit "gamma"] (Leaf l)) alpha_or_not_beta = true.
Proof.
  destruct (strict_boolean_ast_denotes (fun _ => Some (Ok alpha_or_not_beta)) true (lit "alpha OR NOT beta")
    alpha_or_not_beta Should (holds_in [lit "gamma"])) as (ast' & H1 & H2).
  - vm_compute. reflexivity.
  - intros cs. reflexivity.
  - intros a b. reflexivity.
  - reflexivity.
  - discriminate.
  - exists ast'. split; [exact H1|]. split; [exact H2|]. vm_compute. reflexivity.
Defined.

(** Without the anchor the document would be lost. *)
Example anchor_matters :
  (holds_in [lit "gamma"] alpha_or_not_beta,
   holds_in [lit "gamma"] (anchor_negative_clauses alpha_or_not_beta)) = (false, true).
Proof. vm_compute. reflexivity. Qed.

(** ** The scanner on text without quotes, escapes and code *)

Definition plain_char (c : char) : Prop :=
  (c =? chr "\")%N = false /\ (c =? chr "`")%N = false /\ (c =? 34)%N = false /\ (c =? chr "'")%N = false.

(** An operator word with a boundary on both sides. *)
Definition operator_in (prev : option char) (text : str) : Prop :=
  exists pre suffix, text = pre ++ suffix /\ operator_at suffix (is_boundary (before prev pre)) = true.

Lemma operator_at_nil b : operator_at [] b = false.
Proof. by destruct b. Qed.

Lemma scan_loop_plain query text : Forall plain_char text -> forall index prev,
  (scan_loop query index prev text scan_start = None /\ operator_in prev text) \/
  (scan_loop query index prev text scan_start = Some scan_start /\ ~ operator_in prev text).
Proof.
  induction 1 as [|c text (H1 & H2 & H3 & H4) _ IH]; intros index prev; cbn [scan_loop].
  { right. split; [done|]. intros (pre & s & [-> ->]%eq_sym%app_nil & Ho). by rewrite operator_at_nil in Ho. }
  assert (scan_step query index prev (c :: text) c scan_start =
    if operator_at (c :: text) (is_boundary prev) then None else Some scan_start) as ->.
  { unfold scan_step. cbn [scan_start skip_until escaped quote]. by rewrite H1, H2, H3, H4. }
  destruct (operator_at (c :: text) (is_boundary prev)) eqn:Eo; cbn [mbind option_bind].
  { left. split; [done|]. by exists [], (c :: text). }
  destruct (IH (index + len_utf8 c) (Some c)) as [[Hs Ho]|[Hs Ho]]; [left|right]; (split; [exact Hs|]).
  - destruct Ho as (pre & s & -> & Ho). exists (c :: pre), s. by rewrite (before_cons prev).
  - intros ([|p pre] & s & E & Hs'); simplify_eq/=.
    + cbn in Hs'. by rewrite Eo in Hs'.
    + apply Ho. exists pre, s. by rewrite <- (before_cons prev).
Qed.

Lemma drop_while_Forall {A} (P : A -> Prop) f l : Forall P l -> Forall P (drop_while f l).
Proof. induction 1 as [|x l Hx Hl IH]; cbn [drop_while]; [done|]. destruct (f x); [done|by constructor]. Qed.
Lemma trim_Forall (P : char -> Prop) s : Forall P s -> Forall P (trim s).
Proof.
  intros H. unfold trim, trim_end, trim_start. apply Forall_reverse, drop_while_Forall, Forall_reverse.
  by apply drop_while_Forall.
Qed.

(** For a request without quotes, escapes and backticks: it is a Boolean
    request exactly when, after trimming, it has white space or opens with a
    parenthesis or NOT( , and contains AND, OR or NOT in upper case between
    boundaries (an end of the text, white space or a parenthesis). *)
Theorem plain_operators query :
  Forall plain_char query ->
  has_explicit_boolean_operators query = true <->
  (existsb is_whitespace (trim query) = true \/ starts_with (lit "(") (trim query) = true
   \/ starts_with (lit "NOT(") (trim query) = true)
  /\ operator_in None (trim query).
Proof.
  intros Hq%trim_Forall. unfold has_explicit_boolean_operators. set (q := trim query) in *. clearbody q.
  assert (match strip_prefix [34%N] q with Some rest => rest | None => unwrap_or q (strip_prefix (lit "'") q) end = q) as ->.
  { destruct Hq as [|d s (_ & _ & H3 & H4) _]; [done|]. cbn [strip_prefix lit].
    change (Ascii.N_of_ascii _) with (chr "'"). by rewrite N.eqb_sym, H3, N.eqb_sym, H4. }
  destruct (scan_loop_plain q q Hq 0 None) as [[-> Ho]|[-> Ho]];
    destruct (existsb is_whitespace q), (starts_with (lit "(") q), (starts_with (lit "NOT(") q); cbn;
    intuition discriminate.
Qed.

Lemma plain_operators_witness :
  has_explicit_boolean_operators (lit " alpha AND (NOT beta) ") = true /\
  (existsb is_whitespace (trim (lit " alpha AND (NOT beta) ")) = true
   \/ starts_with (lit "(") (trim (lit " alpha AND (NOT beta) ")) = true
   \/ starts_with (lit "NOT(") (trim (lit " alpha AND (NOT beta) ")) = true)
  /\ operator_in None (trim (lit " alpha AND (NOT beta) ")).
Proof.
  split; [vm_compute; reflexivity|]. apply (plain_operators (lit " alpha AND (NOT beta) ")).
  - repeat constructor.
  - vm_compute. reflexivity.
Defined.

(** Quotes, escapes and code spans. *)
Example operator_samples :
  map (fun q => has_explicit_boolean_operators (lit q))
    ["alpha AND beta"; "brand ORDER"; "run `a AND b` now"; "run `a AND b now"; "'a AND b";
     "say 'x OR y' fast"; "a \AND b"; "don't OR do"]%string
  = [true; false; false; true; true; false; false; true].
Proof. vm_compute. reflexivity. Qed.
