(* ===== verification/PathGlob.v ===== *)
(** * Path filters: path_glob.rs.

  A filter is a comma-separated list of globs; commas inside braces, character
  classes and escapes do not separate.  Compiling a glob and matching a path are
  the [globset] crate's: the parameters [compile], [build] and [is_match]. *)
From S2P Require Import Prelude Utf8.

Record CsvState := MkCsv {
  patterns : list str;
  pattern : str;
  brace_depth : nat;
  in_character_class : bool;
  escaped : bool
}.
#[global] Instance csv_eq_dec : EqDecision CsvState.
Proof. solve_decision. Defined.

Definition push_str (s : str) (st : CsvState) : CsvState :=
  MkCsv (patterns st) (pattern st ++ s) (brace_depth st) (in_character_class st) (escaped st).

(** The end of a pattern: kept when not blank. *)
Definition finish_pattern (st : CsvState) : list str :=
  match trim (pattern st) with
  | [] => patterns st
  | trimmed => patterns st ++ [trimmed]
  end.

Definition csv_step (st : CsvState) (character : char) : CsvState :=
  if escaped st then
    let st := MkCsv (patterns st) (pattern st) (brace_depth st) (in_character_class st) false in
    if (character =? chr ",")%N && (0 <? brace_depth st) && negb (in_character_class st)
    then push_str (lit "[,]") st
    else push_str ((if (character =? chr ",")%N then [] else lit "\") ++ [character]) st
  else if (character =? chr "\")%N then
    MkCsv (patterns st) (pattern st) (brace_depth st) (in_character_class st) true
  else if (character =? chr "[")%N && negb (in_character_class st) then
    push_str [character] (MkCsv (patterns st) (pattern st) (brace_depth st) true false)
  else if (character =? chr "]")%N && in_character_class st then
    push_str [character] (MkCsv (patterns st) (pattern st) (brace_depth st) false false)
  else if (character =? chr "{")%N && negb (in_character_class st) then
    push_str [character] (MkCsv (patterns st) (pattern st) (S (brace_depth st)) (in_character_class st) false)
  else if (character =? chr "}")%N && negb (in_character_class st) then
    push_str [character] (MkCsv (patterns st) (pattern st) (brace_depth st - 1) (in_character_class st) false)
  else if (character =? chr ",")%N && (brace_depth st =? 0) && negb (in_character_class st) then
    MkCsv (finish_pattern st) [] (brace_depth st) (in_character_class st) false
  else push_str [character] st.

Definition csv_start : CsvState := MkCsv [] [] 0 false false.

Definition parse_glob_csv (raw : option str) : list str :=
  let st := foldl csv_step csv_start (unwrap_or [] raw) in
  finish_pattern (if escaped st then push_str (lit "\") st else st).

(** ** The matcher *)

Section Matcher.
Context {Glob GlobSet Path E : Type} (compile : str -> Result E Glob)
  (build : list Glob -> Result E GlobSet) (is_match : GlobSet -> Path -> bool).

(** The globs added to the builder, up to the first that does not compile. *)
Fixpoint compile_all (globs : list str) : Result E (list Glob) :=
  match globs with
  | [] => Ok []
  | g :: globs => glob ← compile g; rest ← compile_all globs; Ok (glob :: rest)
  end.

Definition build_glob_set (globs : list str) : Result E (option GlobSet) :=
  match globs with
  | [] => Ok None
  | _ => builder ← compile_all globs; s ← build builder; Ok (Some s)
  end.

Record PathGlobMatcher := MkMatcher { include : option GlobSet; exclude : option GlobSet }.

Definition new (include_globs exclude_globs : list str) : Result E PathGlobMatcher :=
  i ← build_glob_set include_globs; e ← build_glob_set exclude_globs; Ok (MkMatcher i e).

Definition is_included (m : PathGlobMatcher) (p : Path) : bool :=
  match include m with Some s => is_match s p | None => true end.
Definition is_excluded (m : PathGlobMatcher) (p : Path) : bool :=
  match exclude m with Some s => is_match s p | None => false end.
Definition matches (m : PathGlobMatcher) (p : Path) : bool := is_included m p && negb (is_excluded m p).
End Matcher.

(** ** Lemmas *)

(** What was parsed before does not matter to the pattern at hand. *)
Definition after (ps : list str) (st : CsvState) : CsvState :=
  MkCsv (ps ++ patterns st) (pattern st) (brace_depth st) (in_character_class st) (escaped st).

Lemma finish_after ps st : finish_pattern (after ps st) = ps ++ finish_pattern st.
Proof. unfold finish_pattern, after. cbn [pattern patterns]. destruct (trim (pattern st)); [done|]. by rewrite app_assoc. Qed.

Lemma csv_step_after ps st c : csv_step (after ps st) c = after ps (csv_step st c).
Proof.
  unfold csv_step, push_str. rewrite finish_after. unfold after.
  cbn [patterns pattern brace_depth in_character_class escaped].
  repeat case_match; reflexivity.
Qed.

Lemma csv_fold_after ps text st : foldl csv_step (after ps st) text = after ps (foldl csv_step st text).
Proof. revert st. induction text as [|c text IH]; intros st; cbn [foldl]; [done|]. by rewrite csv_step_after, IH. Qed.

(** A pattern that reads as itself: trimmed, and its braces, classes and escapes
    are closed and hide its commas. *)
Definition whole_glob (p : str) : Prop :=
  p <> [] /\ trim p = p /\ foldl csv_step csv_start p = MkCsv [] p 0 false false.
#[global] Instance whole_glob_dec p : Decision (whole_glob p).
Proof. unfold whole_glob. apply _. Defined.

Fixpoint join (ps : list str) : str :=
  match ps with
  | [] => []
  | [p] => p
  | p :: ps => p ++ chr "," :: join ps
  end.

Lemma csv_whole ps p : whole_glob p ->
  foldl csv_step (MkCsv ps [] 0 false false) p = MkCsv ps p 0 false false.
Proof.
  intros (_ & _ & Hp). pose proof (csv_fold_after ps p csv_start) as Ha. rewrite Hp in Ha.
  unfold after in Ha. cbn in Ha. by rewrite app_nil_r in Ha.
Qed.

Lemma finish_whole ps p : whole_glob p -> finish_pattern (MkCsv ps p 0 false false) = ps ++ [p].
Proof. intros (Hne & Ht & _). unfold finish_pattern. cbn [pattern patterns]. rewrite Ht. by destruct p. Qed.

Lemma csv_fold_join qs : forall ps p, Forall whole_glob (p :: qs) ->
  exists qs' q, foldl csv_step (MkCsv ps [] 0 false false) (join (p :: qs)) = MkCsv (ps ++ qs') q 0 false false
    /\ p :: qs = qs' ++ [q] /\ whole_glob q.
Proof.
  induction qs as [|r qs IH]; intros ps p Hw; apply Forall_cons in Hw as [Hp Hw].
  - exists [], p. cbn [join]. by rewrite csv_whole, app_nil_r.
  - cbn [join]. rewrite foldl_app, csv_whole by done. cbn [foldl].
    assert (csv_step (MkCsv ps p 0 false false) (chr ",") = MkCsv (ps ++ [p]) [] 0 false false) as ->.
    { rewrite <- finish_whole by done. reflexivity. }
    destruct (IH (ps ++ [p]) r Hw) as (qs' & q & E & Hq & Hwq). exists (p :: qs'), q.
    split; [|split; [by rewrite Hq|done]]. change (match qs with [] => r | _ => r ++ chr "," :: join qs end) with (join (r :: qs)).
    rewrite E. by rewrite <- app_assoc.
Qed.

(** A list of well-formed globs survives being written with commas: each
    comes back as it was, also when braces, character classes or escapes hide
    commas of its own, and nothing else comes back. *)
Theorem parse_glob_csv_join ps :
  Forall whole_glob ps -> parse_glob_csv (Some (join ps)) = ps.
Proof.
  intros Hw. destruct ps as [|p ps]; [done|]. unfold parse_glob_csv. cbn [unwrap_or].
  destruct (csv_fold_join ps [] p Hw) as (qs & q & E & Hq & Hwq). fold csv_start in E. rewrite E.
  cbn [escaped app]. by rewrite finish_whole, <- Hq.
Qed.

Lemma parse_glob_csv_join_witness :
  parse_glob_csv (Some (join [lit "src/*.{rs,py}"; lit "[a,]b"; lit "docs/**"]))
  = [lit "src/*.{rs,py}"; lit "[a,]b"; lit "docs/**"].
Proof.
  apply (parse_glob_csv_join [lit "src/*.{rs,py}"; lit "[a,]b"; lit "docs/**"]).
  apply (bool_decide_unpack _). vm_compute. exact I.
Defined.

Example csv_samples :
  parse_glob_csv (Some (lit " a ,, b\,c , {x\,y},tail\")) =
    [lit "a"; lit "b,c"; lit "{x[,]y}"; lit "tail\"].
Proof. vm_compute. reflexivity. Qed.
