(* ===== verification/ModeLock.v ===== *)
(** * The lease lock of a workspace: [WorkspaceModeCoordinator] of daemon.rs.

  Searches hold shared leases, all of one mode (with or without ignore rules);
  an index run or a removal holds the exclusive lease.  A search of the other
  mode reserves the next turn.  The state is behind a mutex and every turn of a
  waiting loop is one atomic step; threads sleep on a condition variable until
  [notify_all] reaches them, or, if they can be cancelled, until a timeout. *)
From S2P Require Import Prelude.
Local Open Scope N_scope.

(** [WorkspaceModeCoordinatorState]; the counters are [usize], the generation a
    wrapping [u64]. *)
Record State := MkState {
  active_mode : option bool;
  active_leases : N;
  next_mode : option bool;
  next_mode_generation : N;
  next_mode_waiters : N;
  exclusive_active : bool;
  exclusive_waiters : N
}.
Definition default_state : State := MkState None 0 None 0 0 false 0.

Definition set_next (next : option bool) (waiters : N) (st : State) : State :=
  MkState (active_mode st) (active_leases st) next (next_mode_generation st) waiters
    (exclusive_active st) (exclusive_waiters st).
Definition set_exclusive (active : bool) (waiters : N) (st : State) : State :=
  MkState (active_mode st) (active_leases st) (next_mode st) (next_mode_generation st)
    (next_mode_waiters st) active waiters.
Definition set_leases (n : N) (st : State) : State :=
  MkState (active_mode st) n (next_mode st) (next_mode_generation st) (next_mode_waiters st)
    (exclusive_active st) (exclusive_waiters st).

Definition no_exclusive (st : State) : bool :=
  negb (exclusive_active st) && (exclusive_waiters st =? 0).
Definition next_allows (mode : bool) (st : State) : bool :=
  match next_mode st with None => true | Some next => bool_decide (next = mode) end.

(** The first lease of a mode, and one more of the active mode. *)
Definition can_start (mode : bool) (st : State) : bool :=
  no_exclusive st && (active_leases st =? 0) && next_allows mode st.
Definition can_join (mode : bool) (st : State) : bool :=
  no_exclusive st && bool_decide (active_mode st = Some mode) && bool_decide (next_mode st = None).
Definition start (mode : bool) (st : State) : State :=
  MkState (Some mode) 1 None (next_mode_generation st) 0 (exclusive_active st) (exclusive_waiters st).
Definition join (st : State) : State := set_leases (active_leases st + 1) st.

(** What one turn of a loop ends with; [GaveUp] says whether it notifies. *)
Inductive Turn (R : Type) :=
| Granted (st : State)
| GaveUp (notify : bool) (st : State)
| Sleep (reservation : R) (st : State).
Arguments Granted {R} _.
Arguments GaveUp {R} _ _.
Arguments Sleep {R} _ _.

(** [next_mode == Some(mode)] and the reservation is of this generation. *)
Definition reserved (mode : bool) (reservation : option N) (st : State) : bool :=
  bool_decide (next_mode st = Some mode) && bool_decide (reservation = Some (next_mode_generation st)).

(** Reserve the next turn, or join those who wait for it. *)
Definition reserve_next (mode : bool) (reservation : option N) (st : State) : option N * State :=
  if no_exclusive st && negb (bool_decide (active_mode st = Some mode)) then
    match next_mode st with
    | None =>
      let generation := (next_mode_generation st + 1) mod 2 ^ 64 in
      (Some generation,
       MkState (active_mode st) (active_leases st) (Some mode) generation 1
         (exclusive_active st) (exclusive_waiters st))
    | Some next =>
      if bool_decide (next = mode) && negb (bool_decide (reservation = Some (next_mode_generation st)))
      then (Some (next_mode_generation st), set_next (next_mode st) (next_mode_waiters st + 1) st)
      else (reservation, st)
    end
  else (reservation, st).

(** One turn of the loop of [acquire_shared]. *)
Definition shared_turn (mode cancelled : bool) (reservation : option N) (st : State)
  : Turn (option N) :=
  if cancelled then
    if reserved mode reservation st then
      let waiters := next_mode_waiters st - 1 in
      GaveUp true (set_next (if waiters =? 0 then None else next_mode st) waiters st)
    else GaveUp false st
  else if can_start mode st then Granted (start mode st)
  else if can_join mode st then Granted (join st)
  else let '(reservation, st) := reserve_next mode reservation st in Sleep reservation st.

Definition try_acquire_shared (mode : bool) (st : State) : option State :=
  if exclusive_active st || (0 <? exclusive_waiters st) then None
  else if (active_leases st =? 0) && next_allows mode st then Some (start mode st)
  else if bool_decide (active_mode st = Some mode) && bool_decide (next_mode st = None)
  then Some (join st)
  else None.

(** One turn of the loop of [acquire_exclusive], and the test after it, for a
    thread that is counted as a waiter. *)
Definition exclusive_turn (cancelled : bool) (st : State) : Turn unit :=
  let left := set_exclusive (exclusive_active st) (exclusive_waiters st - 1) st in
  if cancelled then GaveUp true left
  else if exclusive_active st || (0 <? active_leases st) then Sleep tt st
  else Granted (set_exclusive true (exclusive_waiters st - 1) st).

(** Arrival: an early test of the flag, then the first turn, which reads the flag
    again. *)
Definition acquire_exclusive (cancelled_before cancelled : bool) (st : State) : Turn unit :=
  if cancelled_before then GaveUp false st
  else exclusive_turn cancelled
         (set_exclusive (exclusive_active st) (exclusive_waiters st + 1) st).

(** [Drop for WorkspaceModeLease]: the state, and whether it notifies. *)
Definition drop_lease (exclusive : bool) (st : State) : bool * State :=
  if exclusive then (true, set_exclusive false (exclusive_waiters st) st)
  else
    let leases := active_leases st - 1 in
    (leases =? 0, set_leases leases st).

(** ** Threads *)

(** A thread asleep in [acquire_shared] with its reservation, and whether a
    notification has reached it. *)
Record Sleeper := MkSleeper { sl_mode : bool; sl_reservation : option N; sl_notified : bool }.

(** The leases that are held (the modes of the shared ones, the number of
    exclusive ones) and the sleeping threads. *)
Record Config := MkConfig {
  state : State;
  shared_held : list bool;
  exclusive_held : N;
  shared_asleep : list Sleeper;
  exclusive_asleep : list bool
}.
Definition initial : Config := MkConfig default_state [] 0 [] [].

Definition notify (yes : bool) (c : Config) : Config :=
  if yes then
    MkConfig (state c) (shared_held c) (exclusive_held c)
      (map (fun s => MkSleeper (sl_mode s) (sl_reservation s) true) (shared_asleep c))
      (map (fun _ => true) (exclusive_asleep c))
  else c.

(** A thread that wants a shared lease takes a turn; it is in no list before. *)
Definition run_shared (mode cancelled : bool) (reservation : option N) (c : Config) : Config :=
  match shared_turn mode cancelled reservation (state c) with
  | Granted st =>
    MkConfig st (mode :: shared_held c) (exclusive_held c) (shared_asleep c) (exclusive_asleep c)
  | GaveUp n st =>
    notify n (MkConfig st (shared_held c) (exclusive_held c) (shared_asleep c) (exclusive_asleep c))
  | Sleep r st =>
    MkConfig st (shared_held c) (exclusive_held c) (MkSleeper mode r false :: shared_asleep c)
      (exclusive_asleep c)
  end.

Definition run_exclusive (turn : State -> Turn unit) (c : Config) : Config :=
  match turn (state c) with
  | Granted st =>
    MkConfig st (shared_held c) (exclusive_held c + 1) (shared_asleep c) (exclusive_asleep c)
  | GaveUp n st =>
    notify n (MkConfig st (shared_held c) (exclusive_held c) (shared_asleep c) (exclusive_asleep c))
  | Sleep _ st =>
    MkConfig st (shared_held c) (exclusive_held c) (shared_asleep c) (false :: exclusive_asleep c)
  end.

Definition with_shared_asleep (l : list Sleeper) (c : Config) : Config :=
  MkConfig (state c) (shared_held c) (exclusive_held c) l (exclusive_asleep c).
Definition with_exclusive_asleep (l : list bool) (c : Config) : Config :=
  MkConfig (state c) (shared_held c) (exclusive_held c) (shared_asleep c) l.

(** A sleeper may run again at any time: notified, timed out or spuriously. *)
Inductive step : Config -> Config -> Prop :=
| step_shared_arrives c mode cancelled : step c (run_shared mode cancelled None c)
| step_shared_wakes c l1 s l2 cancelled :
    shared_asleep c = l1 ++ s :: l2 ->
    step c (run_shared (sl_mode s) cancelled (sl_reservation s) (with_shared_asleep (l1 ++ l2) c))
| step_try c mode st :
    try_acquire_shared mode (state c) = Some st ->
    step c (MkConfig st (mode :: shared_held c) (exclusive_held c) (shared_asleep c) (exclusive_asleep c))
| step_exclusive_arrives c cancelled_before cancelled :
    step c (run_exclusive (acquire_exclusive cancelled_before cancelled) c)
| step_exclusive_wakes c l1 notified l2 cancelled :
    exclusive_asleep c = l1 ++ notified :: l2 ->
    step c (run_exclusive (exclusive_turn cancelled) (with_exclusive_asleep (l1 ++ l2) c))
| step_drop_shared c l1 mode l2 :
    shared_held c = l1 ++ mode :: l2 ->
    let '(n, st) := drop_lease false (state c) in
    step c (notify n (MkConfig st (l1 ++ l2) (exclusive_held c) (shared_asleep c) (exclusive_asleep c)))
| step_drop_exclusive c :
    0 < exclusive_held c ->
    let '(n, st) := drop_lease true (state c) in
    step c (notify n (MkConfig st (shared_held c) (exclusive_held c - 1) (shared_asleep c) (exclusive_asleep c))).

(** Reachable in so many steps. *)
Inductive reachable : N -> Config -> Prop :=
| reachable_initial : reachable 0 initial
| reachable_step n c c' : reachable n c -> step c c' -> reachable (n + 1) c'.

(** * The lease lock: exclusion, exact counts, and no lost wake-up. *)

(** ** The invariant *)

Definition len {A} (l : list A) : N := N.of_nat (length l).

(** The sleepers whose reservation is the current one. *)
Definition live (st : State) (s : Sleeper) : bool := reserved (sl_mode s) (sl_reservation s) st.
Definition live_count (st : State) (l : list Sleeper) : N := len (filter (fun s => live st s = true) l).

Definition held_ok (c : Config) : Prop :=
  active_leases (state c) = len (shared_held c)
  /\ Forall (fun m => active_mode (state c) = Some m) (shared_held c)
  /\ exclusive_held c = (if exclusive_active (state c) then 1 else 0)
  /\ (exclusive_active (state c) = true -> active_leases (state c) = 0).

Definition reservation_ok (st : State) (r : option N) : Prop :=
  match r with Some r => r <= next_mode_generation st | None => True end.

(** Beside the sleepers, [shared] and [exclusive] threads that just woke up count
    as waiters. *)
Definition waiters_with (shared exclusive : N) (c : Config) : Prop :=
  exclusive_waiters (state c) = len (exclusive_asleep c) + exclusive
  /\ next_mode_waiters (state c) = live_count (state c) (shared_asleep c) + shared
  /\ (is_Some (next_mode (state c)) -> 0 < next_mode_waiters (state c))
  /\ Forall (fun s => reservation_ok (state c) (sl_reservation s)) (shared_asleep c).
Definition waiters_ok : Config -> Prop := waiters_with 0 0.

(** A sleeper that no notification reached could not go on anyway. *)
Definition shared_blocked (mode : bool) (st : State) : Prop :=
  can_start mode st = false /\ can_join mode st = false.
Definition exclusive_blocked (st : State) : Prop :=
  exclusive_active st = true \/ 0 < active_leases st.
Definition wakes_ok (c : Config) : Prop :=
  Forall (fun s => sl_notified s = false -> shared_blocked (sl_mode s) (state c)) (shared_asleep c)
  /\ Forall (fun notified => notified = false -> exclusive_blocked (state c)) (exclusive_asleep c).

Definition inv (n : N) (c : Config) : Prop :=
  held_ok c /\ waiters_ok c /\ wakes_ok c /\ next_mode_generation (state c) <= n.

Lemma len_cons {A} (x : A) l : len (x :: l) = len l + 1.
Proof. unfold len. cbn [length]. lia. Qed.
Lemma len_app {A} (l1 l2 : list A) : len (l1 ++ l2) = len l1 + len l2.
Proof. unfold len. rewrite length_app. lia. Qed.

Lemma no_exclusive_spec st :
  no_exclusive st = true <-> exclusive_active st = false /\ exclusive_waiters st = 0.
Proof. unfold no_exclusive. rewrite andb_true_iff, negb_true_iff, N.eqb_eq. done. Qed.

Lemma can_start_spec mode st :
  can_start mode st = true <->
  no_exclusive st = true /\ active_leases st = 0 /\ (next_mode st = None \/ next_mode st = Some mode).
Proof.
  unfold can_start, next_allows. rewrite !andb_true_iff, N.eqb_eq.
  destruct (next_mode st) as [m|]; [rewrite bool_decide_eq_true|]; naive_solver.
Qed.
Lemma can_join_spec mode st :
  can_join mode st = true <->
  no_exclusive st = true /\ active_mode st = Some mode /\ next_mode st = None.
Proof. unfold can_join. rewrite !andb_true_iff, !bool_decide_eq_true. tauto. Qed.
Lemma reserved_spec mode r st :
  reserved mode r st = true <-> next_mode st = Some mode /\ r = Some (next_mode_generation st).
Proof. unfold reserved. by rewrite andb_true_iff, !bool_decide_eq_true. Qed.

Lemma live_count_cons st s l : live_count st (s :: l) = live_count st l + (if live st s then 1 else 0).
Proof.
  unfold live_count. rewrite filter_cons. destruct (live st s) eqn:E.
  - rewrite decide_True by done. apply len_cons.
  - rewrite decide_False by done. lia.
Qed.

Lemma live_count_new st mode r notified l :
  live_count st (MkSleeper mode r notified :: l)
  = live_count st l + (if reserved mode r st then 1 else 0).
Proof. apply live_count_cons. Qed.

(** ** Notifications *)

Lemma notify_fields yes c :
  state (notify yes c) = state c /\ shared_held (notify yes c) = shared_held c
  /\ exclusive_held (notify yes c) = exclusive_held c
  /\ length (exclusive_asleep (notify yes c)) = length (exclusive_asleep c).
Proof. destruct yes; cbn; [by rewrite length_map|done]. Qed.

Lemma live_count_notify st yes c :
  live_count st (shared_asleep (notify yes c)) = live_count st (shared_asleep c).
Proof.
  destruct yes; [|done]. cbn [notify shared_asleep].
  induction (shared_asleep c) as [|s l IH]; cbn [map]; [done|].
  rewrite !live_count_cons, IH. done.
Qed.

(** Once everybody is notified, nobody is lost. *)
Lemma notify_wakes yes c : (yes = false -> wakes_ok c) -> wakes_ok (notify yes c).
Proof.
  destruct yes; [|by intros H; apply H]. intros _. split; cbn; apply Forall_map, Forall_true; done.
Qed.

Lemma notify_inv n yes c :
  held_ok c -> waiters_ok c -> (yes = false -> wakes_ok c) -> next_mode_generation (state c) <= n ->
  inv n (notify yes c).
Proof.
  intros Hh (H1 & H2 & H3 & H4) Hk Hn. rewrite N.add_0_r in *. destruct (notify_fields yes c) as (Es & Eh & Ee & El).
  split; [|split; [|split; [by apply notify_wakes|by rewrite Es]]].
  - unfold held_ok. by rewrite Es, Eh, Ee.
  - unfold waiters_ok, waiters_with. rewrite Es, live_count_notify, !N.add_0_r. unfold len in *. rewrite El.
    split_and!; try done.
    destruct yes; [|done]. cbn. by apply Forall_map.
Qed.

(** Sleeping threads leave and come back in any place. *)
Lemma live_count_app st l1 l2 : live_count st (l1 ++ l2) = live_count st l1 + live_count st l2.
Proof. unfold live_count. by rewrite filter_app, len_app. Qed.
(** The live sleepers depend only on the reservation fields. *)
Lemma live_count_ext st st' l :
  next_mode st = next_mode st' -> next_mode_generation st = next_mode_generation st' ->
  live_count st l = live_count st' l.
Proof. intros E1 E2. unfold live_count, live, reserved. by rewrite E1, E2. Qed.

Lemma live_count_none st l : next_mode st = None -> live_count st l = 0.
Proof.
  intros E. unfold live_count, live, reserved. rewrite E.
  induction l as [|s l IH]; [done|]. rewrite filter_cons_False; [done|]. by rewrite bool_decide_eq_false_2.
Qed.

(** ** One turn *)

Lemma waiters_ext shared ex c st' :
  next_mode (state c) = next_mode st' -> next_mode_generation (state c) = next_mode_generation st' ->
  next_mode_waiters (state c) = next_mode_waiters st' -> exclusive_waiters (state c) = exclusive_waiters st' ->
  waiters_with shared ex c ->
  waiters_with shared ex (MkConfig st' (shared_held c) (exclusive_held c) (shared_asleep c) (exclusive_asleep c)).
Proof.
  intros E1 E2 E3 E4 (H1 & H2 & H3 & H4). unfold waiters_with, reservation_ok in *. cbn.
  rewrite <- E1, <- E2, <- E3, <- E4, <- (live_count_ext (state c)) by done. done.
Qed.

(** The first lease of a mode blocks whoever was asleep unnotified. *)
Lemma start_blocks mode m st :
  can_start mode st = true -> shared_blocked m st -> shared_blocked m (start mode st).
Proof.
  intros Hs [Hb _]. apply can_start_spec in Hs as (Hx & Hl & Hn).
  assert (m <> mode) as Hne.
  { intros ->. rewrite <- not_true_iff_false, can_start_spec in Hb. tauto. }
  split; apply not_true_iff_false; [rewrite can_start_spec|rewrite can_join_spec]; cbn.
  - intros (_ & [=] & _).
  - intros (_ & [= ->] & _). done.
Qed.

Lemma join_blocks mode m st :
  can_start mode st = false -> can_join mode st = true -> shared_blocked m st -> shared_blocked m (join st).
Proof.
  intros Hs Hj [_ Hb]. rewrite <- not_true_iff_false, can_join_spec in Hb.
  split; apply not_true_iff_false; [rewrite can_start_spec|rewrite can_join_spec]; cbn.
  - intros (_ & Hl & _). lia.
  - exact Hb.
Qed.

(** A reservation only blocks more. *)
Lemma reserve_blocks mode r m st :
  shared_blocked m st -> shared_blocked m (snd (reserve_next mode r st)).
Proof.
  intros Hst. destruct (Hst) as [H1 H2]. unfold reserve_next.
  rewrite <- not_true_iff_false in H1, H2. rewrite can_start_spec in H1. rewrite can_join_spec in H2.
  destruct (no_exclusive st && _); [|exact Hst]. destruct (next_mode st) as [x|] eqn:Ex; rewrite ?Ex in H1, H2.
  - case_match; [|exact Hst].
    split; apply not_true_iff_false; [rewrite can_start_spec|rewrite can_join_spec]; cbn; [exact H1|exact H2].
  - split; apply not_true_iff_false; [rewrite can_start_spec|rewrite can_join_spec]; cbn; [|naive_solver].
    intros (Hx & Hl & _). apply H1. naive_solver.
Qed.

Lemma reservation_fresh st r g : reservation_ok st r -> next_mode_generation st < g -> r <> Some g.
Proof. intros Hr Hg ->. cbn in Hr. lia. Qed.

(** Nobody holds a reservation of a generation still to come. *)
Lemma live_count_fresh st st' l :
  Forall (fun s => reservation_ok st (sl_reservation s)) l ->
  next_mode_generation st < next_mode_generation st' -> live_count st' l = 0.
Proof.
  intros Hl Hg. induction Hl as [|s l Hs _ IH]; [done|]. rewrite live_count_cons, IH.
  assert (live st' s = false) as ->; [|done].
  unfold live, reserved. apply andb_false_intro2, bool_decide_eq_false_2. by eapply reservation_fresh.
Qed.

Lemma reservation_ok_mono st st' r :
  next_mode_generation st <= next_mode_generation st' -> reservation_ok st r -> reservation_ok st' r.
Proof. destruct r; cbn; lia. Qed.

Definition sleeping (c : Config) (st : State) (s : Sleeper) : Config :=
  MkConfig st (shared_held c) (exclusive_held c) (s :: shared_asleep c) (exclusive_asleep c).

Lemma reserve_waiters mode r c :
  waiters_with (if reserved mode r (state c) then 1 else 0) 0 c ->
  reservation_ok (state c) r -> next_mode_generation (state c) + 1 < 2 ^ 64 ->
  let '(r', st') := reserve_next mode r (state c) in
  waiters_ok (sleeping c st' (MkSleeper mode r' false))
  /\ next_mode_generation (state c) <= next_mode_generation st' <= next_mode_generation (state c) + 1.
Proof.
  intros (H1 & H2 & H3 & H4) Hr Hg. rewrite N.add_0_r in H1.
  assert (waiters_ok (sleeping c (state c) (MkSleeper mode r false))) as Hsame.
  { unfold waiters_ok, waiters_with. cbn. rewrite live_count_new, !N.add_0_r.
    split_and!; [done|exact H2|done|by constructor]. }
  unfold reserve_next. destruct (no_exclusive _ && _); [|split; [exact Hsame|lia]].
  destruct (next_mode (state c)) as [x|] eqn:Ex.
  - destruct (bool_decide (x = mode) && negb (bool_decide (r = Some _))) eqn:E; [|split; [exact Hsame|lia]].
    apply andb_true_iff in E as [->%bool_decide_eq_true Hne%negb_true_iff].
    split; [|cbn; lia]. unfold waiters_ok, waiters_with. cbn.
    assert (reserved mode r (state c) = false) as Hres by (unfold reserved; by rewrite Hne, andb_false_r).
    rewrite Hres, N.add_0_r in H2. rewrite live_count_new, !N.add_0_r.
    rewrite (live_count_ext _ (state c)) by (cbn; done). unfold reserved. cbn.
    rewrite !bool_decide_eq_true_2 by done. cbn. split_and!; [done|lia|lia|]. constructor; [cbn; lia|exact H4].
  - cbn. rewrite N.mod_small by done. split; [|lia]. unfold waiters_ok, waiters_with. cbn.
    rewrite live_count_new, !N.add_0_r. unfold reserved. cbn. rewrite !bool_decide_eq_true_2 by done. cbn.
    rewrite (live_count_fresh (state c)); [|exact H4|cbn; lia].
    split_and!; [done|done|lia|]. constructor; [cbn; lia|].
    eapply Forall_impl; [exact H4|]. intros s. apply reservation_ok_mono. cbn. lia.
Qed.

(** ** A woken or arriving thread takes its turn *)

(** What holds when a searching thread with reservation [r] is about to run. *)
Definition ready_shared (n : N) (mode : bool) (r : option N) (c : Config) : Prop :=
  held_ok c /\ waiters_with (if reserved mode r (state c) then 1 else 0) 0 c /\ wakes_ok c
  /\ reservation_ok (state c) r /\ next_mode_generation (state c) <= n.

Lemma shared_cancelled_inv n mode r c :
  ready_shared n mode r c -> inv (n + 1) (run_shared mode true r c).
Proof.
  intros (Hh & Hw & Hk & Hr & Hn). unfold run_shared, shared_turn.
  destruct (reserved mode r (state c)) eqn:Eres.
  - apply reserved_spec in Eres as [En _]. destruct Hw as (H1 & H2 & H3 & H4).
    apply notify_inv; [exact Hh| |done|cbn; lia].
    unfold waiters_ok, waiters_with. cbn. rewrite !N.add_0_r in *.
    assert (next_mode_waiters (state c) - 1 = live_count (state c) (shared_asleep c)) as Hcount by lia.
    split_and!; [done| | |exact H4].
    + rewrite Hcount. destruct (N.eqb_spec (live_count (state c) (shared_asleep c)) 0) as [E|E].
      * rewrite (live_count_none (set_next None _ _)) by done. done.
      * by apply live_count_ext.
    + destruct (N.eqb_spec (next_mode_waiters (state c) - 1) 0); [by intros []|lia].
  - apply notify_inv; [exact Hh|exact Hw|done|cbn; lia].
Qed.

Lemma shared_start_inv n mode r c :
  ready_shared n mode r c -> can_start mode (state c) = true ->
  inv (n + 1) (MkConfig (start mode (state c)) (mode :: shared_held c) (exclusive_held c)
                 (shared_asleep c) (exclusive_asleep c)).
Proof.
  intros ((Ha & Hm & He & Hx) & (H1 & H2 & H3 & H4) & [Hk1 Hk2] & Hr & Hn) Es.
  pose proof Es as (Hne & Hl & Hnext)%can_start_spec. apply no_exclusive_spec in Hne as [Hex Hew].
  rewrite Ha in Hl.
  assert (shared_held c = []) as E0 by (apply length_zero_iff_nil; unfold len in Hl; lia).
  split; [|split; [|split; [|cbn; lia]]].
  - unfold held_ok. cbn. rewrite E0, len_cons. split_and!; [done|by repeat constructor|done|by rewrite Hex].
  - unfold waiters_ok, waiters_with. cbn. rewrite !N.add_0_r in *.
    split_and!; [done|by rewrite live_count_none|by intros []|exact H4].
  - split; cbn.
    + eapply Forall_impl; [exact Hk1|]. intros s Hs Hf. apply start_blocks; auto.
    + eapply Forall_impl; [exact Hk2|]. intros b _ _. right. cbn. lia.
Qed.

Lemma shared_join_inv n mode r c :
  ready_shared n mode r c -> can_start mode (state c) = false -> can_join mode (state c) = true ->
  inv (n + 1) (MkConfig (join (state c)) (mode :: shared_held c) (exclusive_held c)
                 (shared_asleep c) (exclusive_asleep c)).
Proof.
  intros ((Ha & Hm & He & Hx) & Hw & [Hk1 Hk2] & Hr & Hn) Es Ej.
  pose proof Ej as (Hne & Hmode & Hnext)%can_join_spec. apply no_exclusive_spec in Hne as [Hex Hew].
  assert (reserved mode r (state c) = false) as Hres by (unfold reserved; by rewrite Hnext).
  rewrite Hres in Hw. split; [|split; [|split; [|cbn; lia]]].
  - unfold held_ok. cbn. rewrite len_cons, Ha. split_and!; [done|by constructor|done|by rewrite Hex].
  - by apply waiters_ext.
  - split; cbn.
    + eapply Forall_impl; [exact Hk1|]. intros s Hs Hf. apply join_blocks with mode; auto.
    + eapply Forall_impl; [exact Hk2|]. intros b _ _. right. cbn. lia.
Qed.

Lemma reserve_same mode r st :
  let st' := snd (reserve_next mode r st) in
  active_mode st' = active_mode st /\ active_leases st' = active_leases st
  /\ exclusive_active st' = exclusive_active st.
Proof. unfold reserve_next. repeat case_match; done. Qed.

Lemma shared_sleep_inv n mode r c :
  ready_shared n mode r c -> shared_blocked mode (state c) -> n + 1 < 2 ^ 64 ->
  let '(r', st') := reserve_next mode r (state c) in
  inv (n + 1) (sleeping c st' (MkSleeper mode r' false)).
Proof.
  intros (Hh & Hw & [Hk1 Hk2] & Hr & Hn) Hb Hlt.
  pose proof (reserve_waiters mode r c Hw Hr ltac:(lia)) as Hres.
  pose proof (fun m => reserve_blocks mode r m (state c)) as Hblocks.
  pose proof (reserve_same mode r (state c)) as (Em & El & Ee).
  destruct (reserve_next mode r (state c)) as [r' st']. cbn [snd] in *. destruct Hres as [Hw' Hgen].
  split; [|split; [exact Hw'|split; [|cbn; lia]]].
  - unfold held_ok. cbn. rewrite Em, El, Ee. exact Hh.
  - split; cbn.
    + constructor; [intros _; by apply Hblocks|].
      eapply Forall_impl; [exact Hk1|]; intros s Hs Hf; apply Hblocks; auto.
    + eapply Forall_impl; [exact Hk2|]. intros b H Hf. unfold exclusive_blocked. rewrite Ee, El. by apply H.
Qed.

Lemma run_shared_inv n mode cancelled r c :
  ready_shared n mode r c -> n + 1 < 2 ^ 64 -> inv (n + 1) (run_shared mode cancelled r c).
Proof.
  intros Hready Hlt. destruct cancelled; [by apply shared_cancelled_inv|].
  unfold run_shared, shared_turn.
  destruct (can_start mode (state c)) eqn:Es; [by apply shared_start_inv with r|].
  destruct (can_join mode (state c)) eqn:Ej; [by apply shared_join_inv with r|].
  pose proof (shared_sleep_inv n mode r c Hready (conj Es Ej) Hlt) as H.
  by destruct (reserve_next mode r (state c)).
Qed.

Lemma try_acquire_spec mode st :
  try_acquire_shared mode st =
  if can_start mode st then Some (start mode st)
  else if can_join mode st then Some (join st) else None.
Proof.
  unfold try_acquire_shared, can_start, can_join, no_exclusive.
  destruct (exclusive_active st); cbn [orb negb andb]; [done|].
  destruct (N.eqb_spec (exclusive_waiters st) 0) as [E|E].
  - rewrite E. cbn [N.ltb N.compare orb andb]. done.
  - assert ((0 <? exclusive_waiters st) = true) as -> by (apply N.ltb_lt; lia). done.
Qed.

(** ** Exclusive leases *)

(** An exclusive thread is about to run, counted as one more waiter. *)
Definition ready_exclusive (n : N) (c : Config) : Prop :=
  held_ok c /\ waiters_with 0 1 c /\ wakes_ok c /\ next_mode_generation (state c) <= n.

Lemma exclusive_turn_inv n cancelled c :
  ready_exclusive n c -> inv (n + 1) (run_exclusive (exclusive_turn cancelled) c).
Proof.
  intros (Hh & Hw & Hk & Hn). pose proof Hh as (Ha & Hm & He & Hx). destruct Hw as (H1 & H2 & H3 & H4).
  unfold run_exclusive, exclusive_turn. destruct cancelled.
  { apply notify_inv; [exact Hh| |done|cbn; lia]. unfold waiters_ok, waiters_with. cbn.
    split_and!; [lia|exact H2|done|exact H4]. }
  destruct (exclusive_active (state c) || (0 <? active_leases (state c))) eqn:E.
  - split; [exact Hh|]. split; [|split; [|cbn; lia]].
    + unfold waiters_ok, waiters_with. cbn. rewrite len_cons. split_and!; [lia|done|done|exact H4].
    + destruct Hk as [Hk1 Hk2]. split; cbn; [exact Hk1|]. constructor; [|exact Hk2]. intros _.
      apply orb_true_iff in E as [E|E%N.ltb_lt]; [by left|by right].
  - apply orb_false_iff in E as [Eex El%N.ltb_ge]. rewrite Eex in He.
    split; [|split; [|split; [|cbn; lia]]].
    + unfold held_ok. cbn. split_and!; [done|done|lia|lia].
    + unfold waiters_ok, waiters_with. cbn. split_and!; [lia|exact H2|done|exact H4].
    + destruct Hk as [Hk1 Hk2]. split; cbn.
      * eapply Forall_impl; [exact Hk1|]. intros s _ _. done.
      * eapply Forall_impl; [exact Hk2|]. intros b _ _. by left.
Qed.

Lemma exclusive_arrives_inv n before cancelled c :
  inv n c -> inv (n + 1) (run_exclusive (acquire_exclusive before cancelled) c).
Proof.
  intros (Hh & Hw & [Hk1 Hk2] & Hn). pose proof Hw as (H1 & H2 & H3 & H4).
  unfold run_exclusive, acquire_exclusive. destruct before.
  { apply notify_inv; [exact Hh|exact Hw|done|cbn; lia]. }
  set (st := set_exclusive _ _ _).
  apply (exclusive_turn_inv n cancelled
           (MkConfig st (shared_held c) (exclusive_held c) (shared_asleep c) (exclusive_asleep c))).
  split; [exact Hh|split; [|split; [|exact Hn]]].
  - split; cbn; [lia|]. split_and!; [exact H2|exact H3|exact H4].
  - split; [|exact Hk2]. cbn. eapply Forall_impl; [exact Hk1|]. intros s Hs Hf.
    destruct (Hs Hf) as [Hs1 Hs2]. split; apply not_true_iff_false.
    + rewrite can_start_spec, no_exclusive_spec. cbn. lia.
    + rewrite can_join_spec, no_exclusive_spec. cbn. lia.
Qed.

(** ** Every step *)

Lemma Forall_remove {A} (P : A -> Prop) l1 x l2 : Forall P (l1 ++ x :: l2) -> Forall P (l1 ++ l2) /\ P x.
Proof. rewrite !Forall_app, Forall_cons. tauto. Qed.
Lemma len_remove {A} (l1 : list A) x l2 : len (l1 ++ x :: l2) = len (l1 ++ l2) + 1.
Proof. rewrite !len_app, len_cons. lia. Qed.

Lemma shared_wakes_ready n c l1 s l2 :
  inv n c -> shared_asleep c = l1 ++ s :: l2 ->
  ready_shared n (sl_mode s) (sl_reservation s) (with_shared_asleep (l1 ++ l2) c).
Proof.
  intros (Hh & (H1 & H2 & H3 & H4) & [Hk1 Hk2] & Hn) E. rewrite E in *.
  apply Forall_remove in H4 as [H4 Hr]. apply Forall_remove in Hk1 as [Hk1 _].
  split; [exact Hh|split; [|split; [by split|by split]]].
  split; cbn; [lia|]. split_and!; [|exact H3|exact H4].
  rewrite H2, !live_count_app, live_count_cons. unfold live. lia.
Qed.

Lemma exclusive_wakes_ready n c l1 b l2 :
  inv n c -> exclusive_asleep c = l1 ++ b :: l2 -> ready_exclusive n (with_exclusive_asleep (l1 ++ l2) c).
Proof.
  intros (Hh & (H1 & H2 & H3 & H4) & [Hk1 Hk2] & Hn) E. rewrite E in *.
  apply Forall_remove in Hk2 as [Hk2 _]. split; [exact Hh|split; [|split; [by split|exact Hn]]].
  split; cbn; [rewrite len_remove in H1; lia|]. split_and!; [exact H2|exact H3|exact H4].
Qed.

Lemma drop_shared_inv n c l1 mode l2 :
  inv n c -> shared_held c = l1 ++ mode :: l2 ->
  let '(yes, st) := drop_lease false (state c) in
  inv (n + 1) (notify yes (MkConfig st (l1 ++ l2) (exclusive_held c) (shared_asleep c) (exclusive_asleep c))).
Proof.
  intros ((Ha & Hm & He & Hx) & Hw & [Hk1 Hk2] & Hn) E. rewrite E in Ha, Hm. rewrite len_remove in Ha.
  apply Forall_remove in Hm as [Hm _]. cbn [drop_lease]. apply notify_inv; [| | |cbn; lia].
  - split; cbn; [lia|]. split_and!; [exact Hm|exact He|intros H; rewrite (Hx H) in Ha; lia].
  - by apply waiters_ext.
  - intros Hne%N.eqb_neq. split; cbn.
    + eapply Forall_impl; [exact Hk1|]. intros s Hs Hf. destruct (Hs Hf) as [_ Hj].
      split; [|exact Hj]. apply not_true_iff_false. rewrite can_start_spec. cbn. tauto.
    + eapply Forall_impl; [exact Hk2|]. intros b _ _. right. cbn. lia.
Qed.

Lemma drop_exclusive_inv n c :
  inv n c -> 0 < exclusive_held c ->
  let '(yes, st) := drop_lease true (state c) in
  inv (n + 1) (notify yes (MkConfig st (shared_held c) (exclusive_held c - 1) (shared_asleep c) (exclusive_asleep c))).
Proof.
  intros ((Ha & Hm & He & Hx) & Hw & _ & Hn) Hpos. cbn [drop_lease]. apply notify_inv; [|by apply waiters_ext|done|cbn; lia].
  destruct (exclusive_active (state c)) eqn:E; [|lia]. split; cbn; [done|]. by rewrite He.
Qed.

Lemma ready_of_inv n mode c : inv n c -> ready_shared n mode None c.
Proof.
  intros (Hh & Hw & Hk & Hn). split; [exact Hh|]. unfold reserved.
  rewrite (bool_decide_eq_false_2 (None = Some _)), andb_false_r by done. done.
Qed.

Lemma step_lock_inv n c c' : inv n c -> n + 1 < 2 ^ 64 -> step c c' -> inv (n + 1) c'.
Proof.
  intros Hi Hlt Hs. revert Hi.
  destruct Hs as [c0 mode cancelled|c0 l1 s l2 cancelled E|c0 mode st E|c0 before cancelled
                 |c0 l1 b l2 cancelled E|c0 l1 mode l2 E|c0 Hpos]; intros Hi.
  - apply run_shared_inv; [by apply ready_of_inv|done].
  - apply run_shared_inv; [by apply shared_wakes_ready with (1 := Hi)|done].
  - rewrite try_acquire_spec in E. pose proof (ready_of_inv n mode c0 Hi) as Hready.
    destruct (can_start mode (state c0)) eqn:Es; [injection E as <-; by apply shared_start_inv with None|].
    destruct (can_join mode (state c0)) eqn:Ej; [|done]. injection E as <-. by apply shared_join_inv with None.
  - by apply exclusive_arrives_inv.
  - apply exclusive_turn_inv. by eapply exclusive_wakes_ready.
  - by apply drop_shared_inv with mode.
  - by apply drop_exclusive_inv.
Qed.

Lemma reachable_lock_inv n c : reachable n c -> n < 2 ^ 64 -> inv n c.
Proof.
  induction 1 as [|n c c' _ IH Hs]; intros Hlt.
  - split; [|split; [|split; [split; constructor|done]]].
    + split_and!; done.
    + split; [done|]. split_and!; [done|by intros []|constructor].
  - apply step_lock_inv with c; [apply IH; lia|done|done].
Qed.

(** ** The properties *)

(** The lease lock excludes: in every reachable state an exclusive lease is
    the only lease, shared leases all have the mode the coordinator records as
    active, and the coordinator's counters are exactly the numbers of leases held
    and of threads that wait for an exclusive one. *)
Theorem mode_lock_exclusion n c :
  reachable n c -> n < 2 ^ 64 ->
  exclusive_held c <= 1
  /\ (exclusive_held c = 1 -> shared_held c = [])
  /\ Forall (fun mode => active_mode (state c) = Some mode) (shared_held c)
  /\ active_leases (state c) = len (shared_held c)
  /\ exclusive_active (state c) = (exclusive_held c =? 1)
  /\ exclusive_waiters (state c) = len (exclusive_asleep c).
Proof.
  intros Hr Hlt. apply (reachable_lock_inv n c Hr) in Hlt as ((Ha & Hm & He & Hx) & (Hw & _) & _).
  destruct (exclusive_active (state c)); rewrite He; split_and!; try done; try lia.
  intros _. apply length_zero_iff_nil. unfold len in Ha. lia.
Qed.

(** Whether the thread's next turn, if it is not cancelled, ends with the lease. *)
Definition shared_granted (s : Sleeper) (st : State) : bool :=
  match shared_turn (sl_mode s) false (sl_reservation s) st with Granted _ => true | _ => false end.
Definition exclusive_granted (st : State) : bool :=
  match exclusive_turn false st with Granted _ => true | _ => false end.

Lemma shared_granted_spec s st :
  shared_granted s st = true <-> can_start (sl_mode s) st = true \/ can_join (sl_mode s) st = true.
Proof.
  unfold shared_granted, shared_turn. destruct (can_start _ _); [tauto|]. destruct (can_join _ _); [tauto|].
  destruct (reserve_next _ _ _). naive_solver.
Qed.
Lemma exclusive_granted_spec st : exclusive_granted st = true <-> ~ exclusive_blocked st.
Proof.
  unfold exclusive_granted, exclusive_turn, exclusive_blocked. destruct (exclusive_active st); cbn [orb].
  - split; [done|]. intros H. exfalso. apply H. by left.
  - destruct (N.ltb_spec 0 (active_leases st)); split; try done; [intros Hn; exfalso|intros _ [?|?]]; [tauto|done|lia].
Qed.

Lemma live_exists st l : 0 < live_count st l -> exists s, s ∈ l /\ live st s = true.
Proof.
  induction l as [|s l IH]; [done|]. rewrite live_count_cons. intros H. destruct (live st s) eqn:E.
  - exists s. split; [left|done].
  - destruct IH as (x & Hx & Ex); [lia|]. exists x. split; [by right|done].
Qed.

(** When nobody holds a lease, a waiting thread can have one. *)
Lemma idle_grants c :
  held_ok c -> waiters_ok c -> shared_held c = [] -> exclusive_held c = 0 ->
  (exclusive_asleep c <> [] -> exclusive_granted (state c) = true)
  /\ (exclusive_asleep c = [] -> shared_asleep c <> [] ->
      exists s, s ∈ shared_asleep c /\ shared_granted s (state c) = true).
Proof.
  intros (Ha & _ & He & _) (H1 & H2 & H3 & _) E0 E1. rewrite E0 in Ha. rewrite E1 in He.
  rewrite N.add_0_r in H1, H2.
  destruct (exclusive_active (state c)) eqn:Eex; [done|]. split.
  - intros _. apply exclusive_granted_spec. intros [?|?]; [congruence|]. rewrite Ha in *. done.
  - intros E2 Hne. rewrite E2 in H1.
    assert (exists s, s ∈ shared_asleep c
              /\ (next_mode (state c) = None \/ next_mode (state c) = Some (sl_mode s))) as (s & Hs & Hn).
    { destruct (next_mode (state c)) as [m|] eqn:En.
      - destruct (live_exists (state c) (shared_asleep c)) as (s & Hs & Hl); [rewrite <- H2; by apply H3|].
        exists s. split; [done|right]. apply reserved_spec in Hl as [Hl _]. congruence.
      - destruct (shared_asleep c) as [|s l]; [done|]. exists s. split; [left|by left]. }
    exists s. split; [done|]. apply shared_granted_spec. left.
    apply can_start_spec. rewrite no_exclusive_spec. by rewrite Eex, H1, Ha.
Qed.

(** No wake-up of the lease lock is lost: in every reachable state a sleeping
    thread whose next turn would get the lease has been notified, and while
    threads sleep but nobody holds a lease, there is such a thread; a cancelled
    reservation or a mode that waits its turn cannot block everybody. *)
Theorem mode_lock_progress n c :
  reachable n c -> n < 2 ^ 64 ->
  (forall s, s ∈ shared_asleep c -> shared_granted s (state c) = true -> sl_notified s = true)
  /\ (forall b, b ∈ exclusive_asleep c -> exclusive_granted (state c) = true -> b = true)
  /\ (shared_held c = [] -> exclusive_held c = 0 ->
      (exclusive_asleep c <> [] -> exclusive_granted (state c) = true)
      /\ (exclusive_asleep c = [] -> shared_asleep c <> [] ->
          exists s, s ∈ shared_asleep c /\ shared_granted s (state c) = true)).
Proof.
  intros Hr Hlt. apply (reachable_lock_inv n c Hr) in Hlt as (Hh & Hw & [Hk1 Hk2] & _).
  rewrite Forall_forall in Hk1. rewrite Forall_forall in Hk2. split; [|split].
  - intros s Hs [Hg|Hg]%shared_granted_spec; apply not_false_iff_true; intros Hf; destruct (Hk1 s Hs Hf); congruence.
  - intros [] Hb Hg; [done|]. apply exclusive_granted_spec in Hg. destruct (Hg (Hk2 _ Hb eq_refl)).
  - intros E0 E1. by apply idle_grants.
Qed.

(** A search holds its lease, a search of the other mode reserves the next turn,
    an index run waits, and the first search ends. *)
Definition busy : Config :=
  run_exclusive (acquire_exclusive false false) (run_shared false false None (run_shared true false None initial)).
Definition idle : Config :=
  notify true (MkConfig (snd (drop_lease false (state busy))) [] 0 (shared_asleep busy) (exclusive_asleep busy)).
Lemma idle_reachable : reachable 4 idle.
Proof.
  apply (reachable_step 3 busy); [|exact (step_drop_shared busy [] true [] eq_refl)].
  eapply (reachable_step 2); [eapply (reachable_step 1); [eapply (reachable_step 0); [constructor|]|]|];
    constructor.
Qed.

Lemma mode_lock_exclusion_witness : exclusive_waiters (state idle) = len (exclusive_asleep idle).
Proof. apply (mode_lock_exclusion 4 idle idle_reachable). reflexivity. Defined.

Lemma mode_lock_progress_witness :
  exclusive_granted (state idle) = true /\ exclusive_asleep idle = [true]
  /\ map sl_notified (shared_asleep idle) = [true].
Proof.
  split; [|split; reflexivity].
  apply (mode_lock_progress 4 idle idle_reachable); [reflexivity|reflexivity|reflexivity|discriminate].
Defined.
