(* ===== verification/SearchRegistry.v ===== *)
(** * Cancellation of searches: the search registry of daemon.rs.

  A search with a request id registers; a [CancelSearch] request names an id and
  may arrive before the search does, after it, or never meet it.  Registry and
  entries are behind one mutex, so every operation is one atomic event. *)
From S2P Require Import Prelude.

(** [SearchCancellation] is shared by reference: a handle into a store stands for
    the [Arc]s of one object, and equal handles are [Arc::ptr_eq].  [signal] and
    [finished_signal] are the values of the two watch channels. *)
Record SearchCancellation := MkCancellation {
  flag : bool;
  deadline_expired : bool;
  signal : bool;
  finished_signal : bool
}.
Inductive SearchCancellationEntry := Active (h : nat) | Tombstone (h : nat).

Record State := MkState {
  store : list SearchCancellation;
  entries : gmap N SearchCancellationEntry;
  tombstones : list N
}.
Definition empty_state : State := MkState [] ∅ [].

Definition MAX_SEARCH_CANCELLATION_TOMBSTONES : nat := 256.

Definition new_cancellation (cancelled : bool) (s : State) : nat * State :=
  (length (store s),
   MkState (store s ++ [MkCancellation cancelled false cancelled false]) (entries s) (tombstones s)).

Definition update (f : SearchCancellation -> SearchCancellation) (h : nat) (s : State) : State :=
  MkState (alter f h (store s)) (entries s) (tombstones s).
Definition cancel : nat -> State -> State :=
  update (fun c => MkCancellation true (deadline_expired c) true (finished_signal c)).
Definition cancel_for_deadline (h : nat) (s : State) : State :=
  cancel h (update (fun c => MkCancellation (flag c) true (signal c) (finished_signal c)) h s).
Definition finish : nat -> State -> State :=
  update (fun c => MkCancellation (flag c) (deadline_expired c) (signal c) true).
Definition is_cancelled (h : nat) (s : State) : bool :=
  match store s !! h with Some c => flag c | None => false end.
Definition is_finished (h : nat) (s : State) : bool :=
  match store s !! h with Some c => finished_signal c | None => false end.

(** [ActiveSearchRegistration]. *)
Record Registration := MkRegistration { request_id : N; cancellation : nat }.

(** [register_search]; [None] is the error that the id is already active. *)
Definition register_search (id : option N) (s : State) : option (option Registration) * State :=
  match id with
  | None => (Some None, s)
  | Some id =>
    match entries s !! id with
    | Some (Active _) => (None, s)
    | Some (Tombstone h) =>
      (Some (Some (MkRegistration id h)),
       MkState (store s) (<[id := Active h]> (delete id (entries s)))
         (filter (fun x => x <> id) (tombstones s)))
    | None =>
      let '(h, s) := new_cancellation false s in
      (Some (Some (MkRegistration id h)),
       MkState (store s) (<[id := Active h]> (delete id (entries s))) (tombstones s))
    end
  end.

(** The loop of [cancel_search] that forgets the oldest tombstones. *)
Fixpoint expire (tombs : list N) (es : gmap N SearchCancellationEntry)
  : gmap N SearchCancellationEntry * list N :=
  if MAX_SEARCH_CANCELLATION_TOMBSTONES <? length tombs then
    match tombs with
    | [] => (es, tombs)
    | expired :: rest =>
      expire rest (match es !! expired with Some (Tombstone _) => delete expired es | _ => es end)
    end
  else (es, tombs).

Definition cancel_search (id : N) (s : State) : option nat * State :=
  match entries s !! id with
  | Some (Active h) => (Some h, cancel h s)
  | Some (Tombstone h) => (None, cancel h s)
  | None =>
    let '(h, s) := new_cancellation true s in
    let '(es, tombs) := expire (tombstones s ++ [id]) (<[id := Tombstone h]> (entries s)) in
    (None, MkState (store s) es tombs)
  end.

(** [Drop for ActiveSearchRegistration]. *)
Definition drop_registration (r : Registration) (s : State) : State :=
  let owns_entry :=
    match entries s !! request_id r with
    | Some (Active h) => bool_decide (h = cancellation r)
    | _ => false
    end in
  let s := if owns_entry then MkState (store s) (delete (request_id r) (entries s)) (tombstones s)
           else s in
  finish (cancellation r) s.

(** ** Runs *)

(** The daemon with the searches that run: each holds its registration until it
    ends ([Drop]); a deadline may cancel it. *)
Record Config := MkConfig { state : State; running : list Registration }.
Inductive Event :=
| Register (id : option N)
| CancelSearch (id : N)
| Deadline (r : Registration)
| Drop (r : Registration).
#[global] Instance registration_eq_dec : EqDecision Registration.
Proof. solve_decision. Defined.

Definition handle (e : Event) (c : Config) : Config :=
  match e with
  | Register id =>
    let '(r, s) := register_search id (state c) in
    MkConfig s (match r with Some (Some r) => r :: running c | _ => running c end)
  | CancelSearch id => MkConfig (snd (cancel_search id (state c))) (running c)
  | Deadline r =>
    if bool_decide (r ∈ running c) then MkConfig (cancel_for_deadline (cancellation r) (state c)) (running c)
    else c
  | Drop r =>
    if bool_decide (r ∈ running c)
    then MkConfig (drop_registration r (state c)) (filter (fun x => x <> r) (running c))
    else c
  end.
Definition run (es : list Event) (c : Config) : Config := foldl (fun c e => handle e c) c es.
Definition initial : Config := MkConfig empty_state [].

(** * The search registry: one search per id, bounded memory, no lost cancellation. *)

Local Opaque MAX_SEARCH_CANCELLATION_TOMBSTONES.

(** ** The invariant *)

Definition handle_of (e : SearchCancellationEntry) : nat :=
  match e with Active h => h | Tombstone h => h end.

Record inv (c : Config) : Prop := MkInv {
  inv_active : forall id h,
    entries (state c) !! id = Some (Active h) <-> MkRegistration id h ∈ running c;
  inv_tombstone : forall id,
    id ∈ tombstones (state c) <-> exists h, entries (state c) !! id = Some (Tombstone h);
  inv_tombstones : NoDup (tombstones (state c));
  inv_running : NoDup (running c);
  inv_bound : length (tombstones (state c)) <= MAX_SEARCH_CANCELLATION_TOMBSTONES;
  inv_handle : forall id e, entries (state c) !! id = Some e -> handle_of e < length (store (state c));
  inv_injective : forall id id' e e',
    entries (state c) !! id = Some e -> entries (state c) !! id' = Some e' ->
    handle_of e = handle_of e' -> id = id';
  inv_cancelled : forall id h,
    entries (state c) !! id = Some (Tombstone h) -> is_cancelled h (state c) = true
}.

Lemma initial_inv : inv initial.
Proof.
  split; cbn; try (by intros *; rewrite lookup_empty); try constructor; try lia.
  - by rewrite lookup_empty.
  - by intros ?%not_elem_of_nil.
  - by intros ?%not_elem_of_nil.
  - intros [h Hh]. by rewrite lookup_empty in Hh.
Qed.

(** ** Updates of the store *)

Lemma update_length f h s : length (store (update f h s)) = length (store s).
Proof. apply length_alter. Qed.
Lemma update_other f h h' s : h <> h' -> store (update f h s) !! h' = store s !! h'.
Proof. intros. by apply list_lookup_alter_ne. Qed.
Lemma update_same f h s c : store s !! h = Some c -> store (update f h s) !! h = Some (f c).
Proof. intros H. unfold update. cbn. by rewrite list_lookup_alter_eq, H. Qed.

(** Updates never take a cancellation back. *)
Definition keeps_flag (f : SearchCancellation -> SearchCancellation) : Prop :=
  forall c, flag c = true -> flag (f c) = true.
Lemma update_cancelled f h h' s :
  keeps_flag f -> is_cancelled h' s = true -> is_cancelled h' (update f h s) = true.
Proof.
  intros Hf. unfold is_cancelled. destruct (decide (h = h')) as [->|Hne]; [|by rewrite update_other].
  destruct (store s !! h') as [c|] eqn:E; [|done]. rewrite (update_same _ _ _ _ E). apply Hf.
Qed.

(** The invariant looks only at the flags and the length of the store. *)
Lemma inv_store c c' :
  inv c -> entries (state c') = entries (state c) -> tombstones (state c') = tombstones (state c) ->
  running c' = running c -> length (store (state c')) = length (store (state c)) ->
  (forall h, is_cancelled h (state c) = true -> is_cancelled h (state c') = true) -> inv c'.
Proof.
  intros [H1 H2 H3 H4 H5 H6 H7 H8] Ee Et Er Es Hf. split; rewrite ?Ee, ?Et, ?Er, ?Es; eauto.
Qed.

Lemma update_inv f h s rs :
  keeps_flag f -> inv (MkConfig s rs) -> inv (MkConfig (update f h s) rs).
Proof.
  intros Hf Hi. apply inv_store with (MkConfig s rs); try done; [apply update_length|].
  intros. by apply update_cancelled.
Qed.

(** ** Expiry *)

Lemma expire_none tombs es :
  length tombs <= MAX_SEARCH_CANCELLATION_TOMBSTONES -> expire tombs es = (es, tombs).
Proof. intros H%Nat.ltb_ge. destruct tombs; cbn [expire]; by rewrite H. Qed.

Lemma expire_one x rest es :
  length rest = MAX_SEARCH_CANCELLATION_TOMBSTONES ->
  expire (x :: rest) es =
  (match es !! x with Some (Tombstone _) => delete x es | _ => es end, rest).
Proof.
  intros H. cbn [expire length]. rewrite H.
  destruct (Nat.ltb_spec MAX_SEARCH_CANCELLATION_TOMBSTONES (S MAX_SEARCH_CANCELLATION_TOMBSTONES)); [|lia].
  apply expire_none. lia.
Qed.

(** Removing entries keeps the rest of the invariant: the tombstones of the
    entries that go have to go with them. *)
Lemma forget_inv st es ts rs id l :
  inv (MkConfig (MkState st es ts) rs) -> (forall h, es !! id = Some (Active h) -> False) ->
  (forall x, x ∈ l <-> x <> id /\ x ∈ ts) -> NoDup l ->
  length l <= MAX_SEARCH_CANCELLATION_TOMBSTONES ->
  inv (MkConfig (MkState st (delete id es) l) rs).
Proof.
  intros [H1 H2 H3 H4 H5 H6 H7 H8] Hna Hl Hnd Hlen. split; cbn; try done.
  - intros x h. rewrite lookup_delete_Some, H1. split; [tauto|]. intros Hr. split; [|done].
    intros <-. apply (Hna h). by apply H1.
  - intros x. rewrite Hl, H2. setoid_rewrite lookup_delete_Some. naive_solver.
  - intros x e [_ ?]%lookup_delete_Some. eauto.
  - intros x x' e e' [_ ?]%lookup_delete_Some [_ ?]%lookup_delete_Some. eauto.
  - intros x h [_ ?]%lookup_delete_Some. eauto.
Qed.

Lemma no_entry_no_tombstone c id : inv c -> entries (state c) !! id = None -> id ∉ tombstones (state c).
Proof. intros Hi E [h Hh]%(inv_tombstone c Hi). congruence. Qed.
Lemma no_entry_not_running c id h : inv c -> entries (state c) !! id = None -> MkRegistration id h ∉ running c.
Proof. intros Hi E Hr%(inv_active c Hi). congruence. Qed.

(** A search that registers under an id without entry. *)
Lemma activate_inv st es ts rs id h :
  inv (MkConfig (MkState st es ts) rs) -> es !! id = None -> h < length st ->
  (forall x e, es !! x = Some e -> handle_of e <> h) ->
  inv (MkConfig (MkState st (<[id := Active h]> es) ts)
         (MkRegistration id h :: rs)).
Proof.
  intros Hi E Hh Hfresh. pose proof (fun h' => no_entry_not_running _ id h' Hi E) as Hnr.
  pose proof (no_entry_no_tombstone _ id Hi E) as Hnt.
  destruct Hi as [H1 H2 H3 H4 H5 H6 H7 H8]. split; cbn; try done.
  - intros x g. rewrite lookup_insert_Some, elem_of_cons, <- H1. naive_solver.
  - intros x. rewrite H2. setoid_rewrite lookup_insert_Some. naive_solver.
  - by constructor.
  - intros x e [[<- <-]|[_ ?]]%lookup_insert_Some; eauto.
  - intros x x' e e' [[<- <-]|[? Ex]]%lookup_insert_Some [[<- <-]|[? Ex']]%lookup_insert_Some; cbn; eauto.
    + intros Eh. by destruct (Hfresh x' e' Ex').
    + intros Eh. by destruct (Hfresh x e Ex).
  - intros x g [[_ [=]]|[_ ?]]%lookup_insert_Some. eauto.
Qed.

(** A cancellation of an unknown id. *)
Lemma bury_inv st es ts rs id h :
  inv (MkConfig (MkState st es ts) rs) -> es !! id = None -> h < length st ->
  (forall x e, es !! x = Some e -> handle_of e <> h) -> is_cancelled h (MkState st es ts) = true ->
  length ts < MAX_SEARCH_CANCELLATION_TOMBSTONES ->
  inv (MkConfig (MkState st (<[id := Tombstone h]> es)
                   (ts ++ [id])) rs).
Proof.
  intros Hi E Hh Hfresh Hc Hlen. pose proof (no_entry_no_tombstone _ id Hi E) as Hnt.
  destruct Hi as [H1 H2 H3 H4 H5 H6 H7 H8]. split; cbn; try done.
  - intros x g. rewrite <- H1, lookup_insert_Some. naive_solver.
  - intros x. rewrite elem_of_app, list_elem_of_singleton, H2. setoid_rewrite lookup_insert_Some. naive_solver.
  - apply NoDup_app. split_and!; [done| |apply NoDup_singleton]. intros x Hx ->%list_elem_of_singleton. done.
  - rewrite length_app. cbn. lia.
  - intros x e [[<- <-]|[_ ?]]%lookup_insert_Some; eauto.
  - intros x x' e e' [[<- <-]|[? Ex]]%lookup_insert_Some [[<- <-]|[? Ex']]%lookup_insert_Some; cbn; eauto.
    + intros Eh. by destruct (Hfresh x' e' Ex').
    + intros Eh. by destruct (Hfresh x e Ex).
  - intros x g [[_ [= <-]]|[_ ?]]%lookup_insert_Some; eauto.
Qed.

(** A new object is no entry's. *)
Lemma grow_inv c b :
  inv c -> inv (MkConfig (snd (new_cancellation b (state c))) (running c)).
Proof.
  intros [H1 H2 H3 H4 H5 H6 H7 H8]. split; cbn; try done; try rewrite length_app.
  - intros x e He. apply H6 in He. cbn. lia.
  - intros x h Hx. pose proof (H6 _ _ Hx) as Hlt. apply H8 in Hx. unfold is_cancelled in *. cbn in *.
    by rewrite lookup_app_l.
Qed.
Lemma grow_fresh c x e :
  inv c -> entries (state c) !! x = Some e -> handle_of e <> length (store (state c)).
Proof. intros Hi He. pose proof (inv_handle c Hi x e He). lia. Qed.

(** ** Every event *)

Lemma new_cancelled b s : is_cancelled (fst (new_cancellation b s)) (snd (new_cancellation b s)) = b.
Proof. unfold is_cancelled. cbn. by rewrite list_lookup_middle. Qed.

Lemma registration_known c r :
  inv c -> r ∈ running c -> entries (state c) !! request_id r = Some (Active (cancellation r)).
Proof. intros Hi Hr. apply (inv_active c Hi). by destruct r. Qed.

Lemma register_inv c id : inv c -> inv (handle (Register id) c).
Proof.
  destruct c as [[st es ts] rs]. intros Hi. unfold handle, register_search. cbn [state].
  destruct id as [id|]; [|done]. cbn [entries].
  destruct (es !! id) as [[h|h]|] eqn:E; [done| |].
  - apply activate_inv; cbn.
    + apply (forget_inv _ _ ts); [done|congruence|apply list_elem_of_filter| |].
      * apply NoDup_filter, (inv_tombstones _ Hi).
      * etrans; [apply length_filter|apply (inv_bound _ Hi)].
    + apply lookup_delete_eq.
    + exact (inv_handle _ Hi _ _ E).
    + intros x e [Hne Hx]%lookup_delete_Some Eh. apply Hne. by eapply (inv_injective _ Hi).
  - cbn. rewrite delete_id by done. apply activate_inv; [exact (grow_inv _ false Hi)|done| |].
    + rewrite length_app. cbn. lia.
    + intros x e. apply (grow_fresh _ x e Hi).
Qed.

Lemma cancel_unknown c id :
  inv c -> entries (state c) !! id = None ->
  let n := length (store (state c)) in
  let grown := store (state c) ++ [MkCancellation true false true false] in
  state (handle (CancelSearch id) c) =
  if decide (length (tombstones (state c)) = MAX_SEARCH_CANCELLATION_TOMBSTONES)
  then MkState grown (<[id := Tombstone n]> (match head (tombstones (state c)) with
                                             | Some x => delete x (entries (state c))
                                             | None => entries (state c) end))
         (tail (tombstones (state c)) ++ [id])
  else MkState grown (<[id := Tombstone n]> (entries (state c))) (tombstones (state c) ++ [id]).
Proof.
  intros Hi E. cbn [handle]. unfold cancel_search. rewrite E. cbn [new_cancellation store entries tombstones].
  pose proof (inv_bound c Hi) as Hb. case_decide as Hlen.
  - destruct (tombstones (state c)) as [|x rest] eqn:Et; [cbn in Hlen; discriminate Hlen|].
    assert (x <> id) as Hne.
    { intros ->. apply (no_entry_no_tombstone c id Hi E). rewrite Et. left. }
    assert (x ∈ tombstones (state c)) as [h Hh]%(inv_tombstone c Hi) by (rewrite Et; left).
    cbn [app head tail]. rewrite expire_one by (rewrite length_app; cbn in *; lia).
    rewrite lookup_insert_ne by done. rewrite Hh. cbn. by rewrite delete_insert_ne.
  - rewrite expire_none by (rewrite length_app; cbn; lia). done.
Qed.

Lemma cancel_inv c id : inv c -> inv (handle (CancelSearch id) c).
Proof.
  intros Hi. destruct (entries (state c) !! id) as [[h|h]|] eqn:E.
  1,2: cbn [handle]; unfold cancel_search; rewrite E; (apply update_inv; [by intros ? ?|by destruct c]).
  assert (handle (CancelSearch id) c = MkConfig (state (handle (CancelSearch id) c)) (running c)) as -> by done.
  rewrite (cancel_unknown c id Hi E). cbn zeta. destruct c as [[st es ts] rs]. cbn [state store entries tombstones running] in *.
  pose proof (grow_inv _ true Hi) as Hg. pose proof (inv_bound _ Hi) as Hb.
  pose proof (new_cancelled true (MkState st es ts)) as Hflag.
  assert (length st < length (st ++ [MkCancellation true false true false])) as Hlt by (rewrite length_app; cbn; lia).
  case_decide as Hlen.
  - destruct ts as [|x rest]; [cbn in Hlen; discriminate Hlen|].
    pose proof (inv_tombstones _ Hi) as Hnd. apply NoDup_cons in Hnd as [Hx Hnd].
    assert (x ∈ x :: rest) as [g Eg]%(inv_tombstone _ Hi) by left. cbn in Eg, Hb, Hlen. cbn [head tail].
    apply bury_inv; [|apply lookup_delete_None; by right|exact Hlt| |exact Hflag|lia].
    + apply (forget_inv _ _ (x :: rest)); [exact Hg|congruence| |done|lia].
      intros y. rewrite elem_of_cons. split; [|naive_solver]. intros Hy. split; [by intros ->|by right].
    + intros y e [_ Hy]%lookup_delete_Some. by apply (grow_fresh _ y e Hi).
  - apply bury_inv; [exact Hg|exact E|exact Hlt| |exact Hflag|cbn in Hb; lia].
    intros y e. apply (grow_fresh _ y e Hi).
Qed.

Lemma drop_inv c r : inv c -> inv (handle (Drop r) c).
Proof.
  intros Hi. cbn [handle]. case_bool_decide as Hr; [|done].
  unfold drop_registration. rewrite (registration_known c r Hi Hr), bool_decide_eq_true_2 by done.
  apply update_inv; [by intros ? ?|].
  destruct Hi as [H1 H2 H3 H4 H5 H6 H7 H8]. destruct r as [id h]. cbn in *.
  apply H1 in Hr. split; cbn; try done.
  - intros x g. rewrite list_elem_of_filter, <- H1, lookup_delete_Some. naive_solver.
  - intros x. rewrite H2. setoid_rewrite lookup_delete_Some. naive_solver.
  - by apply NoDup_filter.
  - intros x e [_ ?]%lookup_delete_Some. eauto.
  - intros x x' e e' [_ ?]%lookup_delete_Some [_ ?]%lookup_delete_Some. eauto.
  - intros x g [_ ?]%lookup_delete_Some. by eapply H8.
Qed.

Lemma handle_inv e c : inv c -> inv (handle e c).
Proof.
  intros Hi. destruct e as [id|id|r|r].
  - by apply register_inv.
  - by apply cancel_inv.
  - cbn [handle]. case_bool_decide; [|done]. apply update_inv; [by intros ? ?|].
    apply update_inv; [by intros ? ?|by destruct c].
  - by apply drop_inv.
Qed.

Lemma run_inv es c : inv c -> inv (run es c).
Proof. intros Hi. unfold run. apply fold_left_inv; [done|]. intros. by apply handle_inv. Qed.

Lemma initial_run_inv es : inv (run es initial).
Proof. apply run_inv, initial_inv. Qed.

(** ** No lost cancellation *)

(** The id has a tombstone with at most [n] younger ones. *)
Definition buried (id : N) (n : nat) (c : Config) : Prop :=
  exists l1 l2, tombstones (state c) = l1 ++ id :: l2 /\ length l2 <= n.

Definition is_cancel (e : Event) : bool := match e with CancelSearch _ => true | _ => false end.

Lemma cancel_buries c id :
  inv c -> entries (state c) !! id = None -> buried id 0 (handle (CancelSearch id) c).
Proof.
  intros Hi E. unfold buried. rewrite (cancel_unknown c id Hi E). cbn zeta. case_decide; cbn; eauto.
Qed.

Lemma cancel_keeps_buried c id id' n :
  inv c -> n + 1 < MAX_SEARCH_CANCELLATION_TOMBSTONES -> buried id n c ->
  buried id (n + 1) (handle (CancelSearch id') c).
Proof.
  intros Hi Hn (l1 & l2 & Et & Hl).
  destruct (entries (state c) !! id') as [[h|h]|] eqn:E.
  1,2: exists l1, l2; cbn [handle]; unfold cancel_search; rewrite E; split; [exact Et|lia].
  unfold buried. rewrite (cancel_unknown c id' Hi E). cbn zeta. rewrite Et.
  case_decide as Hlen; cbn [tombstones].
  - destruct l1 as [|x l1]; [cbn [app length] in Hlen; lia|].
    exists l1, (l2 ++ [id']). cbn [app tail]. rewrite <- app_assoc, length_app. cbn. split; [done|lia].
  - exists l1, (l2 ++ [id']). rewrite <- app_assoc, length_app. cbn. split; [done|lia].
Qed.

Lemma filter_buried id id' (l1 l2 : list N) :
  id' <> id -> exists l1' l2',
    filter (fun x => x <> id') (l1 ++ id :: l2) = l1' ++ id :: l2' /\ length l2' <= length l2.
Proof.
  intros Hne. rewrite filter_app, filter_cons_True by done. eexists _, _. split; [done|]. apply length_filter.
Qed.

Lemma other_keeps_buried c id e n :
  is_cancel e = false -> e <> Register (Some id) -> buried id n c -> buried id n (handle e c).
Proof.
  intros He Hne Hb. pose proof Hb as (l1 & l2 & Et & Hl). destruct e as [[id'|]|id'|r|r]; [| |done| |].
  - cbn [handle register_search]. destruct (entries (state c) !! id') as [[h|h]|] eqn:E; cbn; [exact Hb| |exact Hb].
    destruct (filter_buried id id' l1 l2) as (l1' & l2' & E' & Hl'); [congruence|].
    exists l1', l2'. cbn. rewrite Et. split; [exact E'|lia].
  - exact Hb.
  - cbn [handle]. case_bool_decide; exact Hb.
  - cbn [handle]. case_bool_decide; [|exact Hb]. unfold drop_registration, buried. cbn.
    repeat case_match; exact Hb.
Qed.

Lemma run_keeps_buried es id c n :
  inv c -> Register (Some id) ∉ es -> n + length (filter (fun e => is_cancel e = true) es) < MAX_SEARCH_CANCELLATION_TOMBSTONES ->
  buried id n c -> exists m, buried id m (run es c).
Proof.
  revert c n. induction es as [|e es IH]; intros c n Hi Hes Hn Hb; [by exists n|].
  apply not_elem_of_cons in Hes as [He Hes]. change (run (e :: es) c) with (run es (handle e c)).
  rewrite filter_cons in Hn. case_decide as Hc.
  - destruct e; try done. cbn in Hn. apply (IH _ (n + 1)); [by apply handle_inv|done|lia|].
    apply cancel_keeps_buried; [done|lia|done].
  - apply (IH _ n); [by apply handle_inv|done|lia|].
    apply other_keeps_buried; [by apply not_true_iff_false|congruence|done].
Qed.

(** C31. A cancellation that overtakes its search is not lost: when [cancel_search]
    comes for an id that is neither running nor remembered, and fewer than 256
    cancellations follow (whatever searches start, end or time out meanwhile), the
    search that registers under the id at last is cancelled from the start. *)
Theorem early_cancel_not_lost es1 es2 id :
  let c := run es1 initial in
  let c' := run es2 (handle (CancelSearch id) c) in
  entries (state c) !! id = None -> Register (Some id) ∉ es2 ->
  length (filter (fun e => is_cancel e = true) es2) < MAX_SEARCH_CANCELLATION_TOMBSTONES ->
  exists h s, register_search (Some id) (state c') = (Some (Some (MkRegistration id h)), s)
              /\ is_cancelled h s = true.
Proof.
  intros c c' E Hes Hlen. pose proof (initial_run_inv es1) as Hi. fold c in Hi.
  destruct (run_keeps_buried es2 id (handle (CancelSearch id) c) 0) as (m & l1 & l2 & Et & _);
    [by apply handle_inv|done|done|by apply cancel_buries|].
  assert (inv c') as Hi' by by apply run_inv, handle_inv.
  assert (id ∈ tombstones (state c')) as [h Hh]%(inv_tombstone c' Hi').
  { unfold c'. rewrite Et. apply elem_of_app. right. left. }
  exists h. eexists. cbn [register_search]. rewrite Hh. split; [done|].
  exact (inv_cancelled c' Hi' _ _ Hh).
Qed.

(** ** The registry *)

Lemma size_keys {A} (m : gmap N A) (l : list N) :
  NoDup l -> (forall k, k ∈ l <-> is_Some (m !! k)) -> size m = length l.
Proof.
  intros Hnd Hl. rewrite <- size_dom, <- (size_list_to_set (C:=gset N) l) by done.
  f_equal. apply set_eq. intros k. rewrite elem_of_list_to_set, elem_of_dom. symmetry. apply Hl.
Qed.

Lemma running_ids_NoDup c : inv c -> NoDup (map request_id (running c)).
Proof.
  intros Hi. pose proof (inv_running c Hi) as Hnd.
  assert (forall r, r ∈ running c -> entries (state c) !! request_id r = Some (Active (cancellation r))) as Hr
    by (intros; by apply registration_known).
  clear Hi. induction Hnd as [|r rs Hx _ IH]; [constructor|]. cbn [map]. constructor.
  - intros (r' & Er & Hr')%list_elem_of_fmap. apply Hx.
    assert (r = r') as ->; [|done].
    pose proof (Hr r ltac:(left)) as H1. pose proof (Hr r' ltac:(by right)) as H2.
    destruct r, r'. cbn in *. congruence.
  - apply IH. intros r' Hr'. apply Hr. by right.
Qed.

Lemma registry_size c :
  inv c -> size (entries (state c)) = length (tombstones (state c)) + length (running c).
Proof.
  intros Hi. rewrite (size_keys _ (tombstones (state c) ++ map request_id (running c))).
  - by rewrite length_app, length_map.
  - apply NoDup_app. split_and!; [apply Hi| |by apply running_ids_NoDup].
    intros id [h Hh]%(inv_tombstone c Hi) (r & -> & Hr)%list_elem_of_fmap.
    pose proof (registration_known c r Hi Hr). congruence.
  - intros id. rewrite elem_of_app, (inv_tombstone c Hi). unfold is_Some. split.
    + intros [[h Hh]|(r & -> & Hr)%list_elem_of_fmap]; [eauto|]. eexists. by apply registration_known.
    + intros [[h|h] Hh]; [right|eauto]. apply list_elem_of_fmap. exists (MkRegistration id h).
      split; [done|]. by apply (inv_active c Hi).
Qed.

(** The registry holds what it should and no more: after any events it has one
    entry per running search and one per remembered cancellation, of which there
    are at most 256; no two running searches share an id; and a cancellation of a
    running search returns that search's own object, sets its flag and signal, and
    touches no other running search. *)
Theorem registry_exact es :
  let c := run es initial in
  size (entries (state c)) = length (tombstones (state c)) + length (running c)
  /\ length (tombstones (state c)) <= MAX_SEARCH_CANCELLATION_TOMBSTONES
  /\ NoDup (map request_id (running c))
  /\ forall r, r ∈ running c ->
      exists x, store (state c) !! cancellation r = Some x
      /\ fst (cancel_search (request_id r) (state c)) = Some (cancellation r)
      /\ store (snd (cancel_search (request_id r) (state c))) !! cancellation r
         = Some (MkCancellation true (deadline_expired x) true (finished_signal x))
      /\ forall r', r' ∈ running c -> r' <> r ->
          store (snd (cancel_search (request_id r) (state c))) !! cancellation r'
          = store (state c) !! cancellation r'.
Proof.
  intros c. pose proof (initial_run_inv es) as Hi. fold c in Hi.
  split; [by apply registry_size|]. split; [apply Hi|]. split; [by apply running_ids_NoDup|].
  intros r Hr. pose proof (registration_known c r Hi Hr) as Er.
  pose proof (inv_handle c Hi _ _ Er) as Hlt. apply lookup_lt_is_Some in Hlt as [x Hx].
  exists x. unfold cancel_search. rewrite Er. split_and!; [done|done|exact (update_same _ _ _ _ Hx)|].
  intros r' Hr' Hne. apply (update_other _ (cancellation r)). intros Eh. apply Hne.
  pose proof (registration_known c r' Hi Hr') as Er'.
  assert (request_id r' = request_id r) by (eapply (inv_injective c Hi); [done|done|by cbn]).
  destruct r, r'; cbn in *; congruence.
Qed.

Lemma early_cancel_not_lost_witness :
  exists h s, register_search (Some 7%N)
                (state (run [CancelSearch 8; Register (Some 9%N)] (handle (CancelSearch 7) initial)))
              = (Some (Some (MkRegistration 7 h)), s) /\ is_cancelled h s = true.
Proof.
  apply (early_cancel_not_lost [] [CancelSearch 8; Register (Some 9%N)] 7).
  - reflexivity.
  - rewrite !not_elem_of_cons. split; [done|]. split; [discriminate|]. apply not_elem_of_nil.
  - apply Nat.ltb_lt. reflexivity.
Defined.

Lemma registry_exact_witness :
  let c := run [Register (Some 7%N); CancelSearch 8] initial in
  fst (cancel_search 7 (state c)) = Some 0 /\ size (entries (state c)) = 2.
Proof.
  split.
  - destruct (proj2 (proj2 (proj2 (registry_exact [Register (Some 7%N); CancelSearch 8])))
                (MkRegistration 7 0)) as (x & _ & H & _); [|exact H].
    apply (bool_decide_unpack _). vm_compute. exact I.
  - exact (proj1 (registry_exact [Register (Some 7%N); CancelSearch 8])).
Defined.
