(* ===== verification/InflightIndexes.v ===== *)
(** * Coalescing of index requests: the in-flight map of daemon.rs.

  The first [Index] request of a workspace leads: it runs, publishes its response
  and drops its lead.  Requests with the same options follow: they wait for the
  outcome on the leader's channel.  Requests with other options run by themselves.
  The map is behind a mutex; a lead locks it once to publish and once more when it
  is dropped. *)
From S2P Require Import Prelude Utf8.

(** The responses an index run returns. *)
Inductive DaemonResponse := Ack (message : str) | Error (message : str).

(** A watch channel is a cell of a store; sender and receiver are its index. *)
Record InflightIndex := MkInflight { watch : bool; skip_gitignore : bool; outcome : nat }.
Record InflightIndexLead := MkLead { workspace_id : str; lead_outcome : nat }.
Inductive InflightIndexSlot := Lead (l : InflightIndexLead) | Follow (channel : nat).

Record State := MkState {
  inflight_indexes : gmap str InflightIndex;
  channels : list (option DaemonResponse)
}.

Definition index_in_flight (ws : str) (s : State) : bool :=
  is_some (inflight_indexes s !! ws).

Definition join_or_lead_index (ws : str) (w skip : bool) (s : State)
  : option InflightIndexSlot * State :=
  match inflight_indexes s !! ws with
  | Some existing =>
    if bool_decide (watch existing = w) && bool_decide (skip_gitignore existing = skip)
    then (Some (Follow (outcome existing)), s)
    else (None, s)
  | None =>
    let channel := length (channels s) in
    (Some (Lead (MkLead ws channel)),
     MkState (<[ws := MkInflight w skip channel]> (inflight_indexes s)) (channels s ++ [None]))
  end.

(** [InflightIndexLead::publish]. *)
Definition publish (response : DaemonResponse) (l : InflightIndexLead) (s : State) : State :=
  MkState (delete (workspace_id l) (inflight_indexes s))
    (<[lead_outcome l := Some response]> (channels s)).

Definition aborted : DaemonResponse := Error (lit "index request aborted before completion").

(** [Drop for InflightIndexLead]. *)
Definition drop_lead (l : InflightIndexLead) (s : State) : State :=
  MkState (delete (workspace_id l) (inflight_indexes s))
    (match channels s !! lead_outcome l with
     | Some None => <[lead_outcome l := Some aborted]> (channels s)
     | _ => channels s
     end).

(** [await_coalesced_index]: what a follower has got, if it need not wait on. *)
Definition await_coalesced_index (channel : nat) (s : State) : option DaemonResponse :=
  default None (channels s !! channel).

(** ** Runs *)

(** [leading]: leads whose request is queued or runs; [leaving]: leads that have
    published and are not yet dropped. *)
Record Config := MkConfig {
  state : State;
  leading : list InflightIndexLead;
  leaving : list InflightIndexLead
}.
#[global] Instance lead_eq_dec : EqDecision InflightIndexLead.
Proof. solve_decision. Defined.

(** A lead is dropped after it published, or, when its task dies, before.  [Finish]
    is [Publish] and [Drop] with nothing between. *)
Inductive Event :=
| Request (ws : str) (w skip : bool)
| Publish (l : InflightIndexLead) (response : DaemonResponse)
| Drop (l : InflightIndexLead)
| Finish (l : InflightIndexLead) (response : DaemonResponse).

Definition remove (l : InflightIndexLead) : list InflightIndexLead -> list InflightIndexLead :=
  filter (fun x => x <> l).

Definition publish_step (l : InflightIndexLead) (response : DaemonResponse) (c : Config) : Config :=
  if bool_decide (l ∈ leading c)
  then MkConfig (publish response l (state c)) (remove l (leading c)) (l :: leaving c)
  else c.
Definition drop_step (l : InflightIndexLead) (c : Config) : Config :=
  if bool_decide (l ∈ leading c ++ leaving c)
  then MkConfig (drop_lead l (state c)) (remove l (leading c)) (remove l (leaving c))
  else c.

Definition handle (e : Event) (c : Config) : Config :=
  match e with
  | Request ws w skip =>
    let '(slot, s) := join_or_lead_index ws w skip (state c) in
    MkConfig s (match slot with Some (Lead l) => l :: leading c | _ => leading c end) (leaving c)
  | Publish l response => publish_step l response c
  | Drop l => drop_step l c
  | Finish l response => drop_step l (publish_step l response c)
  end.
Definition run (es : list Event) (c : Config) : Config := foldl (fun c e => handle e c) c es.
Definition initial : Config := MkConfig (MkState ∅ []) [] [].

(** ** What holds in every run *)

Lemma remove_elem l x ls : x ∈ remove l ls <-> x <> l /\ x ∈ ls.
Proof. unfold remove. by rewrite list_elem_of_filter. Qed.

Record inv (c : Config) : Prop := MkInv {
  inv_leading : forall l, l ∈ leading c -> channels (state c) !! lead_outcome l = Some None;
  inv_leaving : forall l, l ∈ leaving c -> exists r, channels (state c) !! lead_outcome l = Some (Some r);
  inv_owner : forall l l', l ∈ leading c -> l' ∈ leading c -> lead_outcome l = lead_outcome l' -> l = l';
  inv_pending : forall ch, channels (state c) !! ch = Some None -> exists ws, MkLead ws ch ∈ leading c;
  inv_entry : forall ws x, inflight_indexes (state c) !! ws = Some x -> MkLead ws (outcome x) ∈ leading c
}.

Lemma initial_inflight_inv : inv initial.
Proof.
  split; cbn.
  - by intros l ?%not_elem_of_nil.
  - by intros l ?%not_elem_of_nil.
  - by intros l l' ?%not_elem_of_nil.
  - done.
  - intros ws x. by rewrite lookup_empty.
Qed.

Lemma lead_lookup l c : inv c -> l ∈ leading c -> lead_outcome l < length (channels (state c)).
Proof. intros Hi Hl%(inv_leading c Hi). by eapply lookup_lt_Some. Qed.

Lemma join_or_lead_inv ws w skip c : inv c -> inv (handle (Request ws w skip) c).
Proof.
  intros Hi. cbn [handle]. unfold join_or_lead_index.
  destruct (inflight_indexes (state c) !! ws) as [x|] eqn:E; [by destruct (_ && _), c as [[] ? ?]|].
  pose proof (fun l => lead_lookup l c Hi) as Hlt. destruct Hi as [H1 H2 H3 H4 H5]. split; cbn.
  - intros l [->|Hl]%elem_of_cons; cbn; [by rewrite list_lookup_middle|]. rewrite lookup_app_l; auto.
  - intros l Hl. destruct (H2 l Hl) as [r Hr]. exists r. rewrite lookup_app_l; [done|by eapply lookup_lt_Some].
  - intros l l' [->|Hl]%elem_of_cons [->|Hl']%elem_of_cons Ee; cbn in *; try done; [| |by apply H3].
    + apply Hlt in Hl'. lia.
    + apply Hlt in Hl. lia.
  - intros ch [Hch|[Hle Hch]]%lookup_app_Some.
    + destruct (H4 ch Hch) as [ws' Hws']. exists ws'. by right.
    + apply list_lookup_singleton_Some in Hch as [Hch _]. assert (ch = length (channels (state c))) as -> by lia.
      exists ws. left.
  - intros ws' x [[<- <-]|[_ Hx]]%lookup_insert_Some; [left|right; by apply H5].
Qed.

(** A lead leaves [leading] with its entry, its channel set, and nothing else
    changed; [leaving] loses or gains leads whose channel is set. *)
Lemma settle_inv l r ls c :
  inv c -> l ∈ leading c ->
  (forall x, x ∈ ls -> x = l \/ x ∈ leaving c) ->
  inv (MkConfig (publish r l (state c)) (remove l (leading c)) ls).
Proof.
  intros Hi Hin Hls. pose proof (lead_lookup l c Hi Hin) as Hlt. destruct Hi as [H1 H2 H3 H4 H5]. split; cbn.
  - intros x [Hne Hx]%remove_elem. rewrite list_lookup_insert_ne; [by apply H1|].
    intros E. apply Hne. symmetry. by apply H3.
  - intros x [->|Hx]%Hls; [exists r; by apply list_lookup_insert_eq|].
    destruct (H2 x Hx) as [r' Hr']. exists r'. rewrite list_lookup_insert_ne; [done|].
    intros E. rewrite <- E, (H1 l Hin) in Hr'. done.
  - intros x x' [_ Hx]%remove_elem [_ Hx']%remove_elem. by apply H3.
  - intros ch Hch. destruct (decide (lead_outcome l = ch)) as [<-|Hne].
    + by rewrite list_lookup_insert_eq in Hch.
    + rewrite list_lookup_insert_ne in Hch by done. destruct (H4 ch Hch) as [ws Hws].
      exists ws. apply remove_elem. split; [|done]. intros <-. done.
  - intros ws x [Hne Hx]%lookup_delete_Some. apply remove_elem. split; [|by apply H5]. intros <-. done.
Qed.

Lemma publish_inv l r c : inv c -> inv (publish_step l r c).
Proof.
  intros Hi. unfold publish_step. case_bool_decide as Hl; [|done].
  apply settle_inv; [done|done|]. intros x [?|?]%elem_of_cons; auto.
Qed.

Lemma remove_id l ls : l ∉ ls -> remove l ls = ls.
Proof.
  intros Hl. unfold remove. induction ls as [|x ls IH]; [done|]. apply not_elem_of_cons in Hl as [Hx Hl].
  rewrite filter_cons_True by congruence. by rewrite IH.
Qed.

Lemma drop_step_inv l c : inv c -> inv (drop_step l c).
Proof.
  intros Hi. unfold drop_step, drop_lead. case_bool_decide as Hl; [|done].
  destruct (decide (l ∈ leading c)) as [Hin|Hout].
  - rewrite (inv_leading c Hi l Hin). apply settle_inv; [done|done|]. intros x [_ ?]%remove_elem. by right.
  - apply elem_of_app in Hl as [Hl|Hl]; [done|]. destruct (inv_leaving c Hi l Hl) as [r Hr]. rewrite Hr, remove_id by done.
    destruct Hi as [H1 H2 H3 H4 H5]. split; cbn; try done.
    + intros x [_ Hx]%remove_elem. auto.
    + intros ws x [_ Hx]%lookup_delete_Some. auto.
Qed.

Lemma handle_inflight_inv e c : inv c -> inv (handle e c).
Proof.
  intros Hi. destruct e; [by apply join_or_lead_inv|by apply publish_inv|by apply drop_step_inv|].
  by apply drop_step_inv, publish_inv.
Qed.
Lemma run_inflight_inv es : inv (run es initial).
Proof. unfold run. apply fold_left_inv; [apply initial_inflight_inv|]. intros. by apply handle_inflight_inv. Qed.

(** ** Outcomes *)

Lemma lookup_app_Some_l {A} (l k : list A) i x : l !! i = Some x -> (l ++ k) !! i = Some x.
Proof. intros H. rewrite lookup_app_l; [done|by eapply lookup_lt_Some]. Qed.

Lemma publish_step_outcome l r0 c ch r :
  inv c -> channels (state c) !! ch = Some (Some r) ->
  channels (state (publish_step l r0 c)) !! ch = Some (Some r).
Proof.
  intros Hi Hr. unfold publish_step. case_bool_decide as Hl; [|done]. cbn.
  rewrite list_lookup_insert_ne; [done|]. intros <-. by rewrite (inv_leading c Hi l Hl) in Hr.
Qed.
Lemma drop_step_outcome l c ch r :
  channels (state c) !! ch = Some (Some r) -> channels (state (drop_step l c)) !! ch = Some (Some r).
Proof.
  intros Hr. unfold drop_step, drop_lead. case_bool_decide; [|done]. cbn.
  destruct (channels (state c) !! lead_outcome l) as [[?|]|] eqn:E; [done| |done].
  rewrite list_lookup_insert_ne; [done|]. intros <-. congruence.
Qed.

Lemma handle_outcome e c ch r :
  inv c -> channels (state c) !! ch = Some (Some r) ->
  channels (state (handle e c)) !! ch = Some (Some r).
Proof.
  intros Hi Hr. destruct e; cbn [handle].
  - unfold join_or_lead_index. destruct (inflight_indexes (state c) !! ws); [by destruct (_ && _)|]. cbn.
    by apply lookup_app_Some_l.
  - by apply publish_step_outcome.
  - by apply drop_step_outcome.
  - by apply drop_step_outcome, publish_step_outcome.
Qed.

Lemma run_outcome es c ch r :
  inv c -> channels (state c) !! ch = Some (Some r) -> channels (state (run es c)) !! ch = Some (Some r).
Proof.
  revert c. induction es as [|e es IH]; intros c Hi Hr; [done|].
  apply (IH (handle e c)); [by apply handle_inflight_inv|by apply handle_outcome].
Qed.

(** C33. Followers are never stranded and never misled: a request follows only a
    lead of its workspace that has not answered yet; a channel without outcome
    has a lead that still runs; when that lead publishes, followers get its
    response, and when it is dropped unpublished, the abort error; and an outcome
    never changes afterwards, whatever else is requested, published or dropped. *)
Theorem coalesced_outcome_delivered es :
  let c := run es initial in
  (forall ws w skip ch s,
     join_or_lead_index ws w skip (state c) = (Some (Follow ch), s) ->
     MkLead ws ch ∈ leading c /\ await_coalesced_index ch s = None)
  /\ (forall ch, ch < length (channels (state c)) ->
      await_coalesced_index ch (state c) = None -> exists ws, MkLead ws ch ∈ leading c)
  /\ (forall l r, l ∈ leading c ->
      await_coalesced_index (lead_outcome l) (state (publish_step l r c)) = Some r
      /\ await_coalesced_index (lead_outcome l) (state (drop_step l c)) = Some aborted)
  /\ (forall es' ch r, await_coalesced_index ch (state c) = Some r ->
      await_coalesced_index ch (state (run es' c)) = Some r).
Proof.
  intros c. pose proof (run_inflight_inv es : inv c) as Hi. unfold await_coalesced_index. split_and!.
  - intros ws w skip ch s. unfold join_or_lead_index.
    destruct (inflight_indexes (state c) !! ws) as [x|] eqn:E; [|done].
    destruct (_ && _); [|done]. intros [= <- <-]. pose proof (inv_entry c Hi _ _ E) as Hl.
    split; [done|]. by rewrite (inv_leading c Hi _ Hl : _ !! outcome x = _).
  - intros ch [o Ho]%lookup_lt_is_Some Hn. rewrite Ho in Hn. cbn in Hn. subst o. by apply (inv_pending c Hi).
  - intros l r Hl. pose proof (lead_lookup l c Hi Hl) as Hlt. unfold publish_step, drop_step, drop_lead.
    rewrite (inv_leading c Hi l Hl), !bool_decide_eq_true_2 by (try apply elem_of_app; auto). cbn.
    by rewrite !list_lookup_insert_eq.
  - intros es' ch r Hr. destruct (channels (state c) !! ch) as [o|] eqn:E; [|done].
    cbn in Hr. subst o. by rewrite (run_outcome es' c ch r Hi E).
Qed.

(** ** One lead per workspace, if publishing and dropping are one step *)

Definition atomic (e : Event) : bool := match e with Publish _ _ => false | _ => true end.

Record exact (c : Config) : Prop := MkExact {
  exact_inv : inv c;
  exact_leaving : leaving c = [];
  exact_entry : forall l, l ∈ leading c ->
    exists x, inflight_indexes (state c) !! workspace_id l = Some x /\ outcome x = lead_outcome l
}.

Lemma settle_exact l r c :
  exact c -> l ∈ leading c -> exact (MkConfig (publish r l (state c)) (remove l (leading c)) []).
Proof.
  intros [Hi Hv He] Hl. split; [apply settle_inv; [done|done|by intros x ?%not_elem_of_nil]|done|].
  intros x [Hne Hx]%remove_elem. destruct (He x Hx) as (e & Ee & Eo). exists e. split; [|done]. cbn.
  apply lookup_delete_Some. split; [|done]. intros Ew. apply Hne.
  destruct (He l Hl) as (e' & Ee' & Eo'). destruct l, x. cbn in *. congruence.
Qed.

Lemma drop_again l r c :
  l ∈ leading c -> l ∉ leaving c -> inv c ->
  drop_step l (publish_step l r c) =
  MkConfig (publish r l (state c)) (remove l (leading c)) (leaving c).
Proof.
  intros Hl Hnl Hi. pose proof (lead_lookup l c Hi Hl) as Hlt. unfold publish_step, drop_step, drop_lead, publish.
  rewrite (bool_decide_eq_true_2 (l ∈ leading c)) by done. cbn [state leading leaving inflight_indexes channels].
  rewrite bool_decide_eq_true_2 by (apply elem_of_app; right; left).
  rewrite list_lookup_insert_eq by done. rewrite delete_delete_eq.
  rewrite (remove_id l (remove l _)) by (rewrite remove_elem; tauto).
  f_equal. unfold remove. rewrite filter_cons_False by naive_solver. by apply remove_id.
Qed.

Lemma drop_exact l c : exact c -> exact (drop_step l c).
Proof.
  intros Hx. pose proof Hx as [Hi Hv He]. unfold drop_step, drop_lead. rewrite Hv, app_nil_r.
  case_bool_decide as Hl; [|done]. rewrite (inv_leading c Hi l Hl). by apply settle_exact.
Qed.

Lemma handle_exact e c : atomic e = true -> exact c -> exact (handle e c).
Proof.
  intros Ha Hx. pose proof Hx as [Hi Hv He]. destruct e as [ws w skip| |l|l r]; [|done|by apply drop_exact|].
  - pose proof (join_or_lead_inv ws w skip c Hi) as Hi'. revert Hi'. cbn [handle]. unfold join_or_lead_index.
    destruct (inflight_indexes (state c) !! ws) as [x|] eqn:E; [by destruct (_ && _), c as [[] ? ?]|].
    intros Hi'. split; [exact Hi'|done|]. cbn. intros l [->|Hl]%elem_of_cons; cbn.
    + eexists. by rewrite lookup_insert_eq.
    + destruct (He l Hl) as (x & Ex & Eo). exists x. split; [|done].
      rewrite lookup_insert_ne; [done|]. intros ->. congruence.
  - destruct (decide (l ∈ leading c)) as [Hl|Hl].
    + cbn [handle]. rewrite drop_again; [|done|rewrite Hv; apply not_elem_of_nil|done]. rewrite Hv.
      by apply settle_exact.
    + cbn [handle]. unfold publish_step. rewrite bool_decide_eq_false_2 by done. by apply drop_exact.
Qed.

(** When no other request comes between a lead's [publish] and its drop,
    requests coalesce exactly: a workspace is reported as in flight just while a
    lead runs for it, at most one lead runs per workspace, and a request with the
    options of the running lead follows it. *)
Theorem coalescing_exact es ws :
  let c := run es initial in
  forallb atomic es = true ->
  (index_in_flight ws (state c) = true <-> exists l, l ∈ leading c /\ workspace_id l = ws)
  /\ (forall l l', l ∈ leading c -> l' ∈ leading c -> workspace_id l = workspace_id l' -> l = l')
  /\ (forall l w skip, l ∈ leading c ->
      match fst (join_or_lead_index (workspace_id l) w skip (state c)) with
      | Some (Follow ch) => ch = lead_outcome l
      | Some (Lead _) => False
      | None => True
      end).
Proof.
  intros c Ha. assert (exact c) as [Hi Hv He].
  { unfold c, run. apply fold_left_inv; [split; [apply initial_inflight_inv|done|by intros l ?%not_elem_of_nil]|].
    intros c' e Hin. rewrite forallb_forall in Ha. apply handle_exact, Ha. by apply list_elem_of_In. }
  split_and!.
  - unfold index_in_flight. split.
    + destruct (inflight_indexes (state c) !! ws) as [x|] eqn:E; [|done]. intros _.
      eexists. split; [exact (inv_entry c Hi _ _ E)|done].
    + intros (l & Hl & <-). destruct (He l Hl) as (x & -> & _). done.
  - intros l l' Hl Hl' Ew. destruct (He l Hl) as (x & Ex & Eo), (He l' Hl') as (x' & Ex' & Eo').
    destruct l, l'. cbn in *. congruence.
  - intros l w skip Hl. destruct (He l Hl) as (x & Ex & Eo). unfold join_or_lead_index. rewrite Ex.
    destruct (_ && _); cbn; done.
Qed.

Lemma coalescing_exact_witness :
  index_in_flight (lit "a") (state (run [Request (lit "a") true false] initial)) = true.
Proof.
  apply (coalescing_exact [Request (lit "a") true false] (lit "a")); [reflexivity|].
  exists (MkLead (lit "a") 0). split; [left|reflexivity].
Defined.

(** Without that, coalescing fails: the drop of a lead that has already
    published removes the entry of the workspace whoever owns it.  Then a second
    index run is in flight but not reported as such, and a third request with the
    same options leads a run of its own instead of following it. *)
Theorem late_drop_displaces_lead :
  exists es l1 l2 l3,
    let c := run es initial in
    l2 ∈ leading c /\ leading c = [l2] /\ leaving c = []
    /\ es = [Request (lit "a") true false; Publish l1 (Ack []); Request (lit "a") true false; Drop l1]
    /\ index_in_flight (workspace_id l2) (state c) = false
    /\ fst (join_or_lead_index (workspace_id l2) true false (state c)) = Some (Lead l3)
    /\ l3 <> l2.
Proof.
  exists [Request (lit "a") true false; Publish (MkLead (lit "a") 0) (Ack []);
          Request (lit "a") true false; Drop (MkLead (lit "a") 0)],
    (MkLead (lit "a") 0), (MkLead (lit "a") 1), (MkLead (lit "a") 2).
  split; [left|]. split_and!; try reflexivity. discriminate.
Qed.

Lemma coalesced_outcome_delivered_witness :
  let c := run [Request (lit "a") true false; Request (lit "a") true false] initial in
  await_coalesced_index 0 (state (publish_step (MkLead (lit "a") 0) (Ack (lit "done")) c))
  = Some (Ack (lit "done")).
Proof.
  destruct (coalesced_outcome_delivered [Request (lit "a") true false; Request (lit "a") true false])
    as (_ & _ & H & _).
  apply (H (MkLead (lit "a") 0) (Ack (lit "done"))). left.
Defined.
