(* ===== verification/WatchControl.v ===== *)
(** * A workspace's watcher: [WatchControl] and its worker in daemon.rs.

  File-system events mark work in a queue behind a mutex; one worker task claims
  it, indexes, and sleeps on a [tokio::sync::Notify] when nothing is left.  An
  explicit index request may do the initial scan in the worker's place.  Atomics
  are read and written one at a time, so the worker is a program counter and every
  access to shared state is a step of its own.

  Left out: debouncing and retry sleeps (only time passes in them), the job
  ledger, and the workspace the control carries. *)
From S2P Require Import Prelude.
Local Open Scope N_scope.

Definition path := list N.

(** ** Data *)

Inductive WatchChange := NoChange | Paths (ps : gset path) | FullReconciliation.
Record PendingWatchWork := MkWork { change : WatchChange; backend_error : option (list N) }.
Definition no_work : PendingWatchWork := MkWork NoChange None.

Inductive WatchReadiness := Reconciling | Ready | Failed (message : list N) | Stopped.

(** [notify] is the permit of the worker's [Notify]. *)
Record WatchControl := MkControl {
  notify : bool;
  dirty : bool;
  indexing : bool;
  retrying : bool;
  active : bool;
  initial_scan_required : bool;
  initial_reconciliation_pending : bool;
  readiness : WatchReadiness;
  pending_events : N;
  coalesced_events : N;
  pending_work : PendingWatchWork
}.

(** [WatchControl::new]. *)
Definition new : WatchControl :=
  MkControl false false false false true true true Reconciling 0 0 no_work.

(** ** Operations *)

Definition set_queue (d : bool) (events : N) (w : PendingWatchWork) (k : WatchControl) : WatchControl :=
  MkControl (notify k) d (indexing k) (retrying k) (active k) (initial_scan_required k)
    (initial_reconciliation_pending k) (readiness k) events (coalesced_events k) w.
Definition set_notify (b : bool) (k : WatchControl) : WatchControl :=
  MkControl b (dirty k) (indexing k) (retrying k) (active k) (initial_scan_required k)
    (initial_reconciliation_pending k) (readiness k) (pending_events k) (coalesced_events k) (pending_work k).
Definition set_indexing (b : bool) (k : WatchControl) : WatchControl :=
  MkControl (notify k) (dirty k) b (retrying k) (active k) (initial_scan_required k)
    (initial_reconciliation_pending k) (readiness k) (pending_events k) (coalesced_events k) (pending_work k).
Definition set_retrying (b : bool) (k : WatchControl) : WatchControl :=
  MkControl (notify k) (dirty k) (indexing k) b (active k) (initial_scan_required k)
    (initial_reconciliation_pending k) (readiness k) (pending_events k) (coalesced_events k) (pending_work k).
Definition set_startup (a scan pending : bool) (r : WatchReadiness) (k : WatchControl) : WatchControl :=
  MkControl (notify k) (dirty k) (indexing k) (retrying k) a scan pending r
    (pending_events k) (coalesced_events k) (pending_work k).

Definition add_event (n : N) : N := (n + 1) mod 2 ^ 64.

(** The part of [mark_paths_dirty] under the lock; the caller then notifies, unless
    there are no paths. *)
Definition mark_paths_dirty (ps : gset path) (k : WatchControl) : bool * WatchControl :=
  if bool_decide (ps = ∅) then (false, k)
  else
    let w := pending_work k in
    let change := match change w with
                  | NoChange => Paths ps
                  | Paths existing => Paths (existing ∪ ps)
                  | FullReconciliation => FullReconciliation
                  end in
    (true, set_queue true (add_event (pending_events k)) (MkWork change (backend_error w)) k).

Definition mark_full_reconciliation (e : option (list N)) (k : WatchControl) : WatchControl :=
  let error := match e with Some _ => e | None => backend_error (pending_work k) end in
  set_queue true (add_event (pending_events k)) (MkWork FullReconciliation error) k.

Definition requeue_failed_index (e : list N) (k : WatchControl) : WatchControl :=
  mark_full_reconciliation (Some e) (set_retrying true k).

Definition take_pending_work (k : WatchControl) : option PendingWatchWork * WatchControl :=
  match change (pending_work k) with
  | NoChange => (None, k)
  | _ => (Some (pending_work k), set_queue false (pending_events k) no_work (set_indexing true k))
  end.

Inductive Phase := PhaseError | PhaseIndexing | PhaseDirty | PhaseIdle.
Definition snapshot_phase (k : WatchControl) : Phase * bool * bool * N * N :=
  (if retrying k then PhaseError else if indexing k then PhaseIndexing
   else if dirty k then PhaseDirty else PhaseIdle,
   indexing k, dirty k, pending_events k, coalesced_events k).

(** What the worker resets before an index run. *)
Definition begin_run (k : WatchControl) : WatchControl :=
  MkControl (notify k) (dirty k) (indexing k) false (active k) (initial_scan_required k)
    (initial_reconciliation_pending k) (readiness k) 0
    ((coalesced_events k + (pending_events k - 1)) mod 2 ^ 64) (pending_work k).

Definition send_unless_stopped (r : WatchReadiness) (k : WatchControl) : WatchControl :=
  set_startup (active k) (initial_scan_required k) (initial_reconciliation_pending k)
    (match readiness k with Stopped => Stopped | _ => r end) k.

(** [publish_initial_watch_readiness_if_caught_up]: the tests and the publication
    are under the queue's lock. *)
Definition publish_initial_watch_readiness_if_caught_up (k : WatchControl) : WatchControl :=
  if negb (initial_reconciliation_pending k) then k
  else if negb (active k) || initial_scan_required k
          || match change (pending_work k) with NoChange => false | _ => true end
          || indexing k
  then k
  else send_unless_stopped Ready (set_startup (active k) (initial_scan_required k) false (readiness k) k).

(** The part of [complete_initial_watch_reconciliation] before it publishes, and
    whether it goes on to. *)
Definition complete_initial_scan (k : WatchControl) : bool * WatchControl :=
  if negb (active k) || negb (initial_reconciliation_pending k) then (false, k)
  else (true, set_startup (active k) false (initial_reconciliation_pending k) (readiness k) k).

Definition fail_initial (e : list N) (k : WatchControl) : WatchControl :=
  if initial_reconciliation_pending k then send_unless_stopped (Failed e) k else k.

(** The state [stop_watcher] leaves; it wakes the worker only if it sleeps. *)
Definition stop_watcher (k : WatchControl) : WatchControl :=
  set_startup false (initial_scan_required k) (initial_reconciliation_pending k) Stopped k.

(** [watch_retry_delay] and [watch_quiet_period], in milliseconds. *)
Definition WATCH_RETRY_INITIAL_DELAY : N := 250.
Definition WATCH_RETRY_MAX_DELAY : N := 30000.
Definition watch_retry_delay (consecutive_failures : N) : N :=
  N.min (WATCH_RETRY_INITIAL_DELAY * 2 ^ N.min (consecutive_failures - 1) 16) WATCH_RETRY_MAX_DELAY.
Definition watch_quiet_period (pending : N) : N := if pending <=? 1 then 250 else 750.

(** ** Runs *)

(** A mark: its number and the path it names, or no path for "anything". *)
Definition Mark : Type := nat * option path.

(** Where the worker is.  An [Indexing] run covers the marks made before it started
    that it looks at. *)
Inductive Worker :=
| Waits | Asleep | Awake | Quiet | Armed | Turn | Claiming | NoWork
| Claimed (w : PendingWatchWork) | Leased (w : PendingWatchWork)
| Indexing (cover : gset Mark) | Succeeded | PublishesInLoop | IndexFailed
| Leaving | Publishes | Checks | Dead.

(** An explicit index run of the same workspace. *)
Inductive Indexer := Out | Scanning (cover : gset Mark) | Scanned | PublishesScan.

(** [notifiers] have marked work and are about to notify; [registered] is whether
    the control is in the daemon's table.  [marks] and [uncovered] exist only in the
    model: the number of marks, and those no index run has covered yet. *)
Record Config := MkConfig {
  control : WatchControl;
  worker : Worker;
  notifiers : nat;
  indexer : Indexer;
  registered : bool;
  marks : nat;
  uncovered : gset Mark
}.

(** After registration: the worker is started, then notified once. *)
Definition initial : Config := MkConfig new Waits 1 Out true 0 ∅.

Definition with_worker (k : WatchControl) (w : Worker) (c : Config) : Config :=
  MkConfig k w (notifiers c) (indexer c) (registered c) (marks c) (uncovered c).
Definition with_indexer (k : WatchControl) (i : Indexer) (c : Config) : Config :=
  MkConfig k (worker c) (notifiers c) i (registered c) (marks c) (uncovered c).
Definition mark (new : gset Mark) (k : WatchControl) (w : Worker) (c : Config) : Config :=
  MkConfig k w (S (notifiers c)) (indexer c) (registered c) (S (marks c)) (uncovered c ∪ new).
Definition path_marks (n : nat) (ps : gset path) : gset Mark := set_map (fun p => (n, Some p)) ps.

(** The marks that an index run over these paths looks at. *)
Definition touches (w : WatchChange) (scan : bool) (m : Mark) : Prop :=
  match w with
  | Paths ps => scan = true \/ exists p, snd m = Some p /\ p ∈ ps
  | _ => True
  end.
#[global] Instance touches_dec w scan m : Decision (touches w scan m).
Proof.
  destruct w as [|ps|]; cbn; [left; exact I| |left; exact I].
  destruct scan; [left; by left|]. destruct m as [n [p|]]; cbn.
  - destruct (decide (p ∈ ps)); [left; eauto|right; naive_solver].
  - right. naive_solver.
Defined.

(** [Notify::notify_one]: wake the worker, or leave a permit. *)
Definition notify_one (c : Config) : Config :=
  match worker c with
  | Asleep => MkConfig (control c) Awake (pred (notifiers c)) (indexer c) (registered c) (marks c) (uncovered c)
  | w => MkConfig (set_notify true (control c)) w (pred (notifiers c)) (indexer c) (registered c) (marks c) (uncovered c)
  end.
(** [Notify::notify_waiters] leaves none. *)
Definition wake_waiter (w : Worker) : Worker := match w with Asleep => Awake | w => w end.

(** One step of the worker; the outcome of an index run and of [root_is_gone] are
    the environment's. *)
Inductive worker_step (c : Config) : Config -> Prop :=
| worker_waits :
    worker c = Waits ->
    worker_step c (if notify (control c) then with_worker (set_notify false (control c)) Awake c
                   else with_worker (control c) Asleep c)
| worker_awake :
    worker c = Awake -> worker_step c (with_worker (control c) (if active (control c) then Quiet else Dead) c)
| worker_quiet :
    worker c = Quiet -> worker_step c (with_worker (control c) (if active (control c) then Armed else Dead) c)
| worker_armed :
    worker c = Armed ->
    worker_step c (with_worker (set_indexing true (control c)) (if indexing (control c) then Waits else Turn) c)
| worker_turn :
    worker c = Turn ->
    worker_step c (with_worker (control c) (if active (control c) then Claiming else Leaving) c)
| worker_claims w k :
    worker c = Claiming -> take_pending_work (control c) = (w, k) ->
    worker_step c (with_worker k (match w with Some w => Claimed w | None => NoWork end) c)
| worker_no_work :
    worker c = NoWork ->
    worker_step c (with_worker (control c) (if initial_scan_required (control c) then Claimed no_work else Leaving) c)
| worker_begins w :
    worker c = Claimed w -> worker_step c (with_worker (begin_run (control c)) (Leased w) c)
| worker_indexes w :
    worker c = Leased w ->
    worker_step c
      (with_worker (control c)
         (if negb (active (control c))
             || (match change w with NoChange => true | _ => false end
                 && negb (initial_scan_required (control c)))
          then Succeeded
          else Indexing (filter (touches (change w) (initial_scan_required (control c))) (uncovered c))) c)
| worker_indexed cover :
    worker c = Indexing cover ->
    worker_step c (MkConfig (control c) Succeeded (notifiers c) (indexer c) (registered c) (marks c)
                     (uncovered c ∖ cover))
| worker_completes publishes k :
    worker c = Succeeded -> complete_initial_scan (control c) = (publishes, k) ->
    worker_step c (with_worker k (if publishes then PublishesInLoop else Turn) c)
| worker_publishes_in_loop :
    worker c = PublishesInLoop ->
    worker_step c (with_worker (publish_initial_watch_readiness_if_caught_up (control c)) Turn c)
| worker_fails w e :
    worker c = Leased w \/ (exists cover, worker c = Indexing cover) ->
    worker_step c (with_worker (fail_initial e (control c)) IndexFailed c)
| worker_root_gone :
    worker c = IndexFailed -> registered c = false -> worker_step c (with_worker (control c) Leaving c)
| worker_requeues e :
    worker c = IndexFailed ->
    worker_step c (mark {[ (marks c, None) ]} (requeue_failed_index e (control c)) Turn c)
| worker_leaves :
    worker c = Leaving -> worker_step c (with_worker (set_indexing false (control c)) Publishes c)
| worker_publishes :
    worker c = Publishes ->
    worker_step c (with_worker (publish_initial_watch_readiness_if_caught_up (control c)) Checks c)
| worker_checks :
    worker c = Checks -> worker_step c (with_worker (control c) (if active (control c) then Waits else Dead) c).

Inductive step (c : Config) : Config -> Prop :=
| step_worker c' : worker_step c c' -> step c c'
| step_event ps k :
    mark_paths_dirty ps (control c) = (true, k) -> step c (mark (path_marks (marks c) ps) k (worker c) c)
| step_full_event e :
    step c (mark {[ (marks c, None) ]} (mark_full_reconciliation e (control c)) (worker c) c)
| step_requeue e :
    step c (mark {[ (marks c, None) ]} (requeue_failed_index e (control c)) (worker c) c)
| step_notify : (0 < notifiers c)%nat -> step c (notify_one c)
| step_unregister :
    step c (MkConfig (control c) (worker c) (notifiers c) (indexer c) false (marks c) (uncovered c))
| step_stop :
    registered c = false ->
    step c (with_worker (stop_watcher (control c)) (wake_waiter (worker c)) c)
| step_index_starts : indexer c = Out -> step c (with_indexer (control c) (Scanning (uncovered c)) c)
| step_index_fails cover : indexer c = Scanning cover -> step c (with_indexer (control c) Out c)
| step_index_scanned cover :
    indexer c = Scanning cover ->
    step c (MkConfig (control c) (worker c) (notifiers c) Scanned (registered c) (marks c) (uncovered c ∖ cover))
| step_index_completes publishes k :
    indexer c = Scanned -> complete_initial_scan (control c) = (publishes, k) ->
    step c (with_indexer k (if publishes then PublishesScan else Out) c)
| step_index_publishes :
    indexer c = PublishesScan ->
    step c (with_indexer (publish_initial_watch_readiness_if_caught_up (control c)) Out c).

Inductive reachable : Config -> Prop :=
| reachable_initial : reachable initial
| reachable_step c c' : reachable c -> step c c' -> reachable c'.

(** * The watcher: no change is lost, no wake-up is lost, readiness is a barrier. *)
Local Close Scope N_scope.

(** ** What the queue and the worker hold *)

Definition names (w : WatchChange) (m : Mark) : Prop :=
  match w with
  | NoChange => False
  | Paths ps => exists p, snd m = Some p /\ p ∈ ps
  | FullReconciliation => True
  end.
Definition in_flight (w : Worker) (m : Mark) : Prop :=
  match w with
  | Claimed work | Leased work => names (change work) m
  | Indexing cover => m ∈ cover
  | IndexFailed => True
  | _ => False
  end.
(** The worker is inside its inner loop. *)
Definition busy (w : Worker) : bool :=
  match w with
  | Turn | Claiming | NoWork | Claimed _ | Leased _ | Indexing _ | Succeeded | PublishesInLoop
  | IndexFailed | Leaving => true
  | _ => false
  end.
Definition has_work (k : WatchControl) : Prop :=
  change (pending_work k) <> NoChange \/ initial_scan_required k = true.

(** ** Invariants *)

Definition flags_ok (c : Config) : Prop :=
  indexing (control c) = busy (worker c)
  /\ (registered c = true -> active (control c) = true /\ worker c <> Dead)
  /\ (readiness (control c) = Ready -> initial_reconciliation_pending (control c) = false)
  /\ (active (control c) = true -> readiness (control c) <> Stopped).

Definition covered_ok (c : Config) : Prop :=
  registered c = true ->
  forall m, m ∈ uncovered c -> names (change (pending_work (control c))) m \/ in_flight (worker c) m.

(** What wakes the worker, or keeps it going, while there is work. *)
Definition will_run (c : Config) : Prop :=
  match worker c with
  | Asleep => (0 < notifiers c)%nat
  | Waits | Leaving | Publishes | Checks => notify (control c) = true \/ (0 < notifiers c)%nat
  | NoWork => change (pending_work (control c)) <> NoChange -> notify (control c) = true \/ (0 < notifiers c)%nat
  | Dead => False
  | _ => True
  end.
Definition wakes_ok (c : Config) : Prop :=
  registered c = true -> has_work (control c) -> will_run c.

(** ** What the operations change *)

Lemma publish_spec k :
  let k' := publish_initial_watch_readiness_if_caught_up k in
  k' = k \/
  (k' = set_startup (active k) false false (match readiness k with Stopped => Stopped | _ => Ready end) k
   /\ active k = true /\ initial_scan_required k = false /\ change (pending_work k) = NoChange
   /\ indexing k = false).
Proof.
  unfold publish_initial_watch_readiness_if_caught_up.
  destruct (initial_reconciliation_pending k); cbn [negb]; [|by left].
  destruct (active k) eqn:Ea; cbn [negb orb]; [|by left].
  destruct (initial_scan_required k) eqn:Es; cbn [orb]; [by left|].
  destruct (change (pending_work k)); cbn [orb]; [|by left|by left].
  destruct (indexing k) eqn:Ei; [by left|]. right. unfold send_unless_stopped, set_startup. cbn.
  rewrite ?Ea, ?Es. done.
Qed.

Lemma complete_spec k b k' :
  complete_initial_scan k = (b, k') ->
  k' = k \/ k' = set_startup (active k) false (initial_reconciliation_pending k) (readiness k) k.
Proof. unfold complete_initial_scan. destruct (_ || _); intros [= <- <-]; auto. Qed.

Lemma fail_spec e k :
  fail_initial e k = k \/
  (fail_initial e k = set_startup (active k) (initial_scan_required k) true
     (match readiness k with Stopped => Stopped | _ => Failed e end) k
   /\ initial_reconciliation_pending k = true).
Proof. unfold fail_initial, send_unless_stopped. destruct (initial_reconciliation_pending k); auto. Qed.

Lemma take_spec k w k' :
  take_pending_work k = (w, k') ->
  (w = None /\ k' = k /\ change (pending_work k) = NoChange) \/
  (w = Some (pending_work k) /\ k' = set_queue false (pending_events k) no_work (set_indexing true k)).
Proof. unfold take_pending_work. destruct (change (pending_work k)); intros [= <- <-]; auto. Qed.

Lemma mark_spec ps k k' :
  mark_paths_dirty ps k = (true, k') ->
  exists ch, k' = set_queue true (add_event (pending_events k)) (MkWork ch (backend_error (pending_work k))) k
  /\ ch <> NoChange
  /\ forall m, names (change (pending_work k)) m \/ (exists p, snd m = Some p /\ p ∈ ps) -> names ch m.
Proof.
  unfold mark_paths_dirty. case_bool_decide; [done|]. intros [= <-]. eexists. split; [done|].
  destruct (change (pending_work k)) as [|ps'|]; cbn; (split; [done|]); [naive_solver| |done].
  intros m [(p & Hp & Hin)|(p & Hp & Hin)]; exists p; split; try done; apply elem_of_union; auto.
Qed.

(** ** The flags *)

(** The parts of a configuration the flags depend on. *)
Definition flags_of (w : Worker) (reg : bool) (k : WatchControl) : Prop :=
  indexing k = busy w
  /\ (reg = true -> active k = true /\ w <> Dead)
  /\ (readiness k = Ready -> initial_reconciliation_pending k = false)
  /\ (active k = true -> readiness k <> Stopped).

Ltac flags := unfold flags_of in *; cbn [indexing busy active readiness initial_reconciliation_pending
  set_startup set_queue set_notify set_indexing set_retrying begin_run] in *; intuition congruence.

Lemma flags_worker w w' reg k :
  flags_of w reg k -> busy w' = busy w -> (active k = true -> w' <> Dead) -> flags_of w' reg k.
Proof. intros. flags. Qed.
Lemma flags_queue w reg k d n q : flags_of w reg k -> flags_of w reg (set_queue d n q k).
Proof. intros. flags. Qed.
Lemma flags_publish w reg k :
  flags_of w reg k -> flags_of w reg (publish_initial_watch_readiness_if_caught_up k).
Proof.
  intros H. destruct (publish_spec k) as [->|(-> & Ha & Hs & _)]; [done|].
  destruct (readiness k) eqn:Er; flags.
Qed.
Lemma flags_complete w reg k b k' :
  flags_of w reg k -> complete_initial_scan k = (b, k') -> flags_of w reg k'.
Proof. intros H [->| ->]%complete_spec; [done|flags]. Qed.
Lemma flags_fail w w' reg e k :
  flags_of w reg k -> busy w' = busy w -> w' <> Dead -> flags_of w' reg (fail_initial e k).
Proof.
  intros H Hb Hd. destruct (fail_spec e k) as [->|[-> Hp]]; [flags|].
  destruct (readiness k) eqn:Er; flags.
Qed.

Lemma worker_flags c c' : flags_ok c -> worker_step c c' -> flags_ok c'.
Proof.
  intros Hf Hs. change (flags_of (worker c) (registered c) (control c)) in Hf.
  destruct Hs as [E|E|E|E|E|w k E Et|E|w E|w E|cover E|p k E Ec|E|w e E|E Er|e E|E|E|E];
    try rewrite E in Hf.
  - destruct (notify (control c)); apply flags_worker with Waits; cbn; done || flags.
  - apply flags_worker with Awake; cbn; destruct (active (control c)); done.
  - apply flags_worker with Quiet; cbn; destruct (active (control c)); done.
  - pose proof Hf as [Hi _]. cbn in Hi. unfold flags_ok. cbn. rewrite Hi. flags.
  - apply flags_worker with Turn; cbn; destruct (active (control c)); done.
  - apply take_spec in Et as [(-> & -> & _)|(-> & ->)]; [by apply flags_worker with Claiming|].
    unfold flags_ok. cbn. flags.
  - apply flags_worker with NoWork; cbn; destruct (initial_scan_required (control c)); done.
  - unfold flags_ok. cbn. flags.
  - apply flags_worker with (Leased w); cbn; [done|destruct (_ || _); done|destruct (_ || _); done].
  - by apply flags_worker with (Indexing cover).
  - apply (flags_complete _ _ _ _ _ Hf) in Ec. unfold flags_ok. cbn. destruct p; flags.
  - apply (flags_publish PublishesInLoop) in Hf. unfold flags_ok. cbn. flags.
  - destruct E as [E|[cover E]]; rewrite E in Hf; eapply flags_fail; done.
  - by apply flags_worker with IndexFailed.
  - unfold flags_ok, requeue_failed_index, mark_full_reconciliation. cbn. flags.
  - unfold flags_ok. cbn. flags.
  - apply (flags_publish Publishes) in Hf. unfold flags_ok. cbn. flags.
  - apply flags_worker with Checks; cbn; destruct (active (control c)); done.
Qed.

Lemma step_flags c c' : flags_ok c -> step c c' -> flags_ok c'.
Proof.
  intros Hf Hs. destruct Hs as [c' Hw|ps k E|e|e|Hn| |Er|E|cover E|cover E|b k E Ec|E]; try exact Hf.
  - by apply worker_flags with c.
  - apply mark_spec in E as (ch & -> & _). exact Hf.
  - unfold notify_one. change (flags_of (worker c) (registered c) (control c)) in Hf.
    destruct (worker c); exact Hf || (unfold flags_ok; cbn; flags).
  - unfold flags_ok in *. cbn. split; [tauto|]. split; [done|tauto].
  - unfold flags_ok in *. cbn. destruct Hf as (H1 & _ & H3 & H4).
    split; [by destruct (worker c)|]. rewrite Er. done.
  - exact (flags_complete _ _ _ _ _ Hf Ec).
  - exact (flags_publish _ _ _ Hf).
Qed.

(** ** No change is lost *)

Definition covered_of (w : Worker) (k : WatchControl) (u : gset Mark) : Prop :=
  forall m, m ∈ u -> names (change (pending_work k)) m \/ in_flight w m.

Lemma covered_mono w w' k k' u u' :
  covered_of w k u -> u' ⊆ u -> change (pending_work k') = change (pending_work k) ->
  (forall m, in_flight w m -> in_flight w' m) -> covered_of w' k' u'.
Proof. intros H Hu Hk Hw m Hm. rewrite Hk. destruct (H m (Hu m Hm)); auto. Qed.

Lemma covered_full w k u : change (pending_work k) = FullReconciliation -> covered_of w k u.
Proof. intros E m _. left. by rewrite E. Qed.

Lemma publish_queue k : pending_work (publish_initial_watch_readiness_if_caught_up k) = pending_work k.
Proof. by destruct (publish_spec k) as [->|(-> & _)]. Qed.
Lemma complete_queue k b k' : complete_initial_scan k = (b, k') -> pending_work k' = pending_work k.
Proof. by intros [->| ->]%complete_spec. Qed.
Lemma fail_queue e k : pending_work (fail_initial e k) = pending_work k.
Proof. by destruct (fail_spec e k) as [->|[-> _]]. Qed.

Lemma names_touches w scan m : names w m -> touches w scan m.
Proof. destruct w; cbn; auto. Qed.

Lemma worker_covered c c' :
  flags_ok c -> covered_ok c -> worker_step c c' -> covered_ok c'.
Proof.
  intros Hf Hc Hs Hreg.
  assert (registered c = true) as Hr by (revert Hreg; destruct Hs; cbn; repeat case_match; done).
  destruct Hf as (_ & [Ha _]%(fun f => f Hr) & _). specialize (Hc Hr).
  change (covered_of (worker c) (control c) (uncovered c)) in Hc.
  change (covered_of (worker c') (control c') (uncovered c')).
  destruct Hs as [E|E|E|E|E|w k E Et|E|w E|w E|cover E|p k E Ec|E|w e E|E Er|e E|E|E|E]; try rewrite E in Hc.
  - destruct (notify (control c)); exact Hc.
  - destruct (active (control c)); exact Hc.
  - destruct (active (control c)); exact Hc.
  - destruct (indexing (control c)); exact Hc.
  - destruct (active (control c)); exact Hc.
  - apply take_spec in Et as [(-> & -> & _)|(-> & ->)]; [exact Hc|].
    intros m Hm. right. destruct (Hc m Hm) as [H|[]]. exact H.
  - destruct (initial_scan_required (control c)); [|exact Hc]. eapply covered_mono; [exact Hc|done|done|by intros ? []].
  - exact Hc.
  - rewrite Ha. cbn [negb orb with_worker worker control uncovered]. intros m Hm.
    destruct (Hc m Hm) as [H|H]; [by left|right]. cbn in H.
    destruct (change w) as [|ps|] eqn:Ew; cbn [andb]; [destruct H| |];
      (apply elem_of_filter; split; [by apply names_touches|exact Hm]).
  - intros m [Hm Hn]%elem_of_difference. destruct (Hc m Hm) as [H|H]; [by left|done].
  - eapply covered_mono; [exact Hc|done|cbn; by rewrite (complete_queue _ _ _ Ec)|by intros ? []].
  - eapply covered_mono; [exact Hc|done|cbn; by rewrite publish_queue|by intros ? []].
  - eapply covered_mono; [exact Hc|done|cbn; by rewrite fail_queue|done].
  - cbn in Hreg. congruence.
  - by apply covered_full.
  - exact Hc.
  - eapply covered_mono; [exact Hc|done|cbn; by rewrite publish_queue|by intros ? []].
  - destruct (active (control c)); exact Hc.
Qed.

Lemma step_covered c c' : flags_ok c -> covered_ok c -> step c c' -> covered_ok c'.
Proof.
  intros Hf Hc Hs. destruct Hs as [c' Hw|ps k E|e|e|Hn| |Er|E|cover E|cover E|b k E Ec|E];
    try exact Hc; try by intros Hreg; apply covered_full.
  - by apply worker_covered with c.
  - apply mark_spec in E as (ch & -> & _ & Hch). intros Hreg m [Hm|Hm]%elem_of_union; cbn.
    + destruct (Hc Hreg m Hm) as [H|H]; [|by right]. left. apply Hch. by left.
    + left. apply Hch. right. apply elem_of_map in Hm as (p & -> & Hp). eauto.
  - unfold notify_one, covered_ok in *. destruct (worker c); exact Hc.
  - intros Hreg. cbn in Hreg. congruence.
  - intros Hreg m [Hm _]%elem_of_difference. by apply Hc.
  - intros Hreg m Hm. cbn. rewrite (complete_queue _ _ _ Ec). by apply Hc.
  - intros Hreg m Hm. cbn. rewrite publish_queue. by apply Hc.
Qed.

(** ** No wake-up is lost *)

Lemma publish_has_work k : has_work (publish_initial_watch_readiness_if_caught_up k) -> has_work k.
Proof. destruct (publish_spec k) as [->|(-> & _)]; [done|]. unfold has_work. cbn. intuition congruence. Qed.
Lemma publish_notify k : notify (publish_initial_watch_readiness_if_caught_up k) = notify k.
Proof. by destruct (publish_spec k) as [->|(-> & _)]. Qed.
Lemma complete_has_work k b k' : complete_initial_scan k = (b, k') -> has_work k' -> has_work k.
Proof. intros [->| ->]%complete_spec; [done|]. unfold has_work. cbn. intuition congruence. Qed.

Lemma worker_wakes c c' : flags_ok c -> wakes_ok c -> worker_step c c' -> wakes_ok c'.
Proof.
  intros Hf Hc Hs Hreg.
  assert (registered c = true) as Hr by (revert Hreg; destruct Hs; cbn; repeat case_match; done).
  destruct Hf as (Hi & [Ha _]%(fun f => f Hr) & _). specialize (Hc Hr). unfold will_run in *.
  destruct Hs as [E|E|E|E|E|w k E Et|E|w E|w E|cover E|p k E Ec|E|w e E|E Er|e E|E|E|E]; try rewrite E in Hc; intros Hw.
  - destruct (notify (control c)) eqn:En; cbn in *; [done|]. destruct (Hc Hw); [done|lia].
  - cbn. by rewrite Ha.
  - cbn. by rewrite Ha.
  - rewrite E in Hi. cbn. by rewrite Hi.
  - cbn. by rewrite Ha.
  - apply take_spec in Et as [(-> & -> & Hn)|(-> & ->)]; cbn; [congruence|done].
  - cbn in *. destruct (initial_scan_required (control c)) eqn:Es; [done|]. apply Hc; [done|].
    destruct Hw as [Hw|Hw]; [done|congruence].
  - done.
  - cbn. by destruct (_ || _).
  - done.
  - cbn. by destruct p.
  - done.
  - done.
  - cbn in Hreg. congruence.
  - done.
  - by apply Hc.
  - cbn in *. rewrite publish_notify. by apply Hc, publish_has_work.
  - cbn. rewrite Ha. by apply Hc.
Qed.

Lemma notifier_will_run c : (0 < notifiers c)%nat -> worker c <> Dead -> will_run c.
Proof. intros Hn Hd. unfold will_run. destruct (worker c); auto. Qed.

Lemma step_wakes c c' : flags_ok c -> wakes_ok c -> step c c' -> wakes_ok c'.
Proof.
  intros Hf Hc Hs. pose proof Hf as (_ & Hr & _).
  destruct Hs as [c' Hw|ps k E|e|e|Hn| |Er|E|cover E|cover E|b k E Ec|E]; try exact Hc;
    try by (intros Hreg _; apply notifier_will_run; [cbn; lia|by apply Hr]).
  - by apply worker_wakes with c.
  - intros Hreg _. unfold notify_one, will_run. cbn.
    assert (registered c = true) as [_ Hd]%Hr by (revert Hreg; unfold notify_one; by destruct (worker c)).
    destruct (worker c); cbn; auto.
  - by intros Hreg.
  - intros Hreg. cbn in Hreg. congruence.
  - intros Hreg Hw. pose proof (complete_has_work _ _ _ Ec Hw) as Hw'. specialize (Hc Hreg Hw').
    unfold will_run in *. cbn in *. apply complete_spec in Ec as [->| ->]; exact Hc.
  - intros Hreg Hw. specialize (Hc Hreg (publish_has_work _ Hw)).
    unfold will_run in *. cbn. rewrite publish_notify, publish_queue. exact Hc.
Qed.

(** ** The properties *)

Lemma reachable_ok c : reachable c -> flags_ok c /\ covered_ok c /\ wakes_ok c.
Proof.
  induction 1 as [|c c' _ (Hf & Hc & Hw) Hs].
  - split_and!.
    + split_and!; done.
    + intros _ m Hm. by apply elem_of_empty in Hm.
    + intros _ _. cbn. right. lia.
  - split_and!; [by apply step_flags with c|by apply step_covered with c|by apply step_wakes with c].
Qed.

(** C32. While a watcher is registered, no file-system change is lost: every change
    that was marked and that no index run has covered since is in the pending
    queue, or in the work the worker has claimed and not failed, or about to be
    requeued; and the queue is only ever empty of work while the worker sleeps
    without anybody about to notify it. *)
Theorem watcher_loses_no_change c :
  reachable c -> registered c = true ->
  (forall m, m ∈ uncovered c -> names (change (pending_work (control c))) m \/ in_flight (worker c) m)
  /\ (has_work (control c) -> will_run c)
  /\ (worker c = Asleep -> notifiers c = 0%nat -> uncovered c = ∅).
Proof.
  intros Hreach Hreg. destruct (reachable_ok c Hreach) as (_ & Hc & Hw). specialize (Hc Hreg). specialize (Hw Hreg).
  split_and!; [exact Hc|exact Hw|]. intros E Hn. apply set_eq. intros m. split; [|by intros ?%elem_of_empty].
  intros Hm. exfalso. destruct (Hc m Hm) as [H|H]; [|by rewrite E in H].
  assert (has_work (control c)) as Hwork by (left; by intros E'; rewrite E' in H).
  apply Hw in Hwork. unfold will_run in Hwork. rewrite E in Hwork. lia.
Qed.

Lemma publishes c c' :
  step c c' -> readiness (control c) <> Ready -> readiness (control c') = Ready ->
  control c' = publish_initial_watch_readiness_if_caught_up (control c) /\ uncovered c' = uncovered c.
Proof.
  intros Hs Hn Hr. destruct Hs as [c' Hw|ps k E|e|e|Hn'| |Er|E|cover E|cover E|b k E Ec|E]; try done.
  - destruct Hw as [E|E|E|E|E|w k E Et|E|w E|w E|cover E|p k E Ec|E|w e E|E Er|e E|E|E|E]; try done.
    + by destruct (notify (control c)).
    + by apply take_spec in Et as [(-> & -> & _)|(-> & ->)].
    + by apply complete_spec in Ec as [->| ->].
    + exfalso. revert Hr. cbn. destruct (fail_spec e (control c)) as [->|[-> _]]; [done|]. cbn.
      by destruct (readiness (control c)).
  - by apply mark_spec in E as (ch & -> & _).
  - exfalso. revert Hr. unfold notify_one. by destruct (worker c).
  - by apply complete_spec in Ec as [->| ->].
Qed.

(** Readiness is a barrier: the step that publishes a registered watcher as
    ready finds the initial scan done, nothing queued and nothing claimed, so every
    change marked before it is covered by an index run that began after the
    change; and readiness never follows a stop. *)
Theorem watch_readiness_barrier c c' :
  reachable c -> step c c' ->
  readiness (control c) <> Ready -> readiness (control c') = Ready ->
  (registered c = true -> uncovered c' = ∅)
  /\ initial_scan_required (control c') = false
  /\ initial_reconciliation_pending (control c) = true
  /\ initial_reconciliation_pending (control c') = false
  /\ change (pending_work (control c')) = NoChange
  /\ readiness (control c) <> Stopped.
Proof.
  intros Hreach Hs Hn Hr.
  assert (control c' = publish_initial_watch_readiness_if_caught_up (control c)
          /\ uncovered c' = uncovered c) as [Ek Eu] by by apply publishes.
  destruct (reachable_ok c Hreach) as ((Hi & Hreg & Hpend & _) & Hc & _).
  rewrite Ek in *. destruct (publish_spec (control c)) as [E|(E & Ha & Hsc & Hq & Hx)]; [by rewrite E in Hr|].
  rewrite E in *. rewrite Eu. cbn in *. split_and!; try done.
  - intros H. apply set_eq. intros m. split; [|by intros ?%elem_of_empty]. intros Hm. exfalso.
    destruct (Hc H m Hm) as [Hm'|Hm']; [by rewrite Hq in Hm'|].
    rewrite Hx in Hi. by destruct (worker c).
  - destruct (initial_reconciliation_pending (control c)) eqn:Ep; [done|].
    unfold publish_initial_watch_readiness_if_caught_up in E. rewrite Ep in E. cbn in E. rewrite E in Hn. cbn in Hn. by destruct (readiness (control c)).
  - destruct (readiness (control c)); done.
Qed.

(** ** A quiet start, and a stop that is not heard *)

Lemma reach_worker c c' : reachable c -> worker_step c c' -> reachable c'.
Proof. intros Hr Hs. eapply reachable_step; [exact Hr|by apply step_worker]. Qed.

(** The run [H] takes one more step of the worker. *)
Ltac advance H lemma :=
  let H' := fresh in
  eassert (reachable _) as H' by (eapply (reach_worker _ _ H); eapply lemma; reflexivity);
  clear H; rename H' into H; vm_compute in H.

(** The worker's [Notify] has been signalled, the initial scan has run, and the
    worker is back at the end of its loop. *)
Definition scanned : Config :=
  MkConfig (set_notify false (set_indexing true (complete_initial_scan (begin_run new)).2))
    Leaving 0 Out true 0 ∅.
Definition settled : Config :=
  MkConfig (publish_initial_watch_readiness_if_caught_up (set_indexing false (control scanned)))
    Checks 0 Out true 0 ∅.

Lemma scanned_reachable : reachable scanned.
Proof.
  pose proof (reachable_step _ _ reachable_initial (step_notify initial ltac:(cbn; lia))) as H.
  advance H worker_waits.
  advance H worker_awake.
  advance H worker_quiet.
  advance H worker_armed.
  advance H worker_turn.
  advance H worker_claims.
  advance H worker_no_work.
  advance H worker_begins.
  advance H worker_indexes.
  advance H worker_indexed.
  advance H worker_completes.
  advance H worker_publishes_in_loop.
  advance H worker_turn.
  advance H worker_claims.
  advance H worker_no_work.
  exact H.
Qed.

Lemma publishing_reachable : reachable (with_worker (set_indexing false (control scanned)) Publishes scanned).
Proof. exact (reach_worker _ _ scanned_reachable (worker_leaves scanned eq_refl)). Qed.
Lemma settled_reachable : reachable settled.
Proof. eapply (reach_worker _ _ publishing_reachable). by apply worker_publishes. Qed.

Lemma watcher_loses_no_change_witness :
  has_work (control initial) /\ will_run initial.
Proof.
  assert (has_work (control initial)) as H by (right; reflexivity). split; [exact H|].
  apply (watcher_loses_no_change initial reachable_initial eq_refl). exact H.
Defined.

Lemma watch_readiness_barrier_witness : uncovered settled = ∅.
Proof.
  apply (watch_readiness_barrier _ settled publishing_reachable); try reflexivity; [|discriminate].
  apply step_worker. by apply worker_publishes.
Defined.

(** Stopping a watcher can miss its worker: [stop_watcher] wakes only a worker
    that sleeps already and leaves no permit, so a worker that has just tested the
    flag goes to sleep afterwards and, with the event source gone, stays there:
    it neither ends nor has anybody to wake it. *)
Theorem stop_can_miss_worker :
  exists c, reachable c /\ registered c = false /\ active (control c) = false
    /\ readiness (control c) = Stopped /\ worker c = Asleep /\ notifiers c = 0%nat
    /\ indexer c = Out /\ forall c', ~ worker_step c c'.
Proof.
  pose proof settled_reachable as H. advance H worker_checks.
  eassert (reachable _) as H' by (eapply (reachable_step _ _ H); apply step_unregister). clear H. vm_compute in H'.
  eassert (reachable _) as H by (eapply (reachable_step _ _ H'); apply step_stop; reflexivity). clear H'.
  advance H worker_waits.
  eexists. split; [exact H|]. split_and!; try reflexivity.
  intros c' Hs. destruct Hs as [E|E|E|E|E|w k E Et|E|w E|w E|cover E|p k E Ec|E|w e E|E Er|e E|E|E|E];
    vm_compute in E; try discriminate E. destruct E as [E|[cover E]]; discriminate E.
Qed.
