(* ===== verification/IndexableFacts.v ===== *)
(** * Indexability: the streaming test agrees with the test of the whole file. *)
From S2P Require Import Prelude Utf8 Paths Languages Chunking.

Local Opaque TEXT_SNIFF_BYTES MAX_SOURCE_LINE_BYTES.

(** The scanner of minified runs can be stopped and resumed anywhere. *)
Lemma scan_minified_run_app run a b :
  scan_minified_run run (a ++ b) =
  match scan_minified_run run a with
  | (r, true) => (r, true)
  | (r, false) => scan_minified_run r b
  end.
Proof.
  revert run. induction a as [|x a IH]; intros run; [done|]. cbn [app scan_minified_run].
  destruct (x =? 10)%N; [apply IH|]. destruct (_ <=? _)%N; [done|apply IH].
Qed.

Lemma is_probably_text_sample l : is_probably_text (take TEXT_SNIFF_BYTES l) = is_probably_text l.
Proof. unfold is_probably_text. by rewrite take_take, Nat.min_id. Qed.

Lemma take_sniff_app (a b : list N) :
  take TEXT_SNIFF_BYTES (a ++ b) =
  take TEXT_SNIFF_BYTES a ++ take (TEXT_SNIFF_BYTES - length (take TEXT_SNIFF_BYTES a)) b.
Proof.
  rewrite take_app, length_take. f_equal. f_equal. lia.
Qed.

Lemma full_sample_app (a b : list N) :
  length (take TEXT_SNIFF_BYTES a) = TEXT_SNIFF_BYTES -> take TEXT_SNIFF_BYTES (a ++ b) = take TEXT_SNIFF_BYTES a.
Proof. intros H. rewrite take_sniff_app, H, Nat.sub_diag, take_0. apply app_nil_r. Qed.

Definition acceptable (content : list N) : bool :=
  is_probably_text content && negb (is_minified_blob content).

Lemma minified_prefix a b : is_minified_blob a = true -> is_minified_blob (a ++ b) = true.
Proof.
  unfold is_minified_blob. rewrite scan_minified_run_app.
  by destruct (scan_minified_run 0 a) as [r []].
Qed.

(** What the loop knows about the bytes [seen] so far. *)
Lemma reader_loop_acceptable {E} (seen : list N) run (chunks : list (list N)) :
  Forall (fun c => c <> []) chunks ->
  scan_minified_run 0 seen = (run, false) ->
  reader_loop (E:=E) (take TEXT_SNIFF_BYTES seen) run (map Ok chunks)
  = Ok (acceptable (seen ++ concat chunks)).
Proof.
  intros Hc. revert seen run. induction Hc as [|c chunks Hne _ IH]; intros seen run Hs.
  - cbn. rewrite app_nil_r. unfold acceptable, is_minified_blob. by rewrite Hs, is_probably_text_sample, andb_true_r.
  - cbn [map concat reader_loop]. destruct c as [|b c0]; [done|]. set (c := b :: c0) in *. clearbody c. clear b c0 Hne.
    rewrite <- take_sniff_app, app_assoc.
    assert (length (take TEXT_SNIFF_BYTES (seen ++ c)) <= TEXT_SNIFF_BYTES) as Hle by (rewrite length_take; lia).
    destruct (_ && _ && _) eqn:Estop.
    { apply andb_true_iff in Estop as [[_ Hfull%Nat.eqb_eq]%andb_true_iff Hno].
      unfold acceptable. rewrite <- (is_probably_text_sample (_ ++ _)), (full_sample_app _ (concat chunks)) by done.
      apply negb_true_iff in Hno. by rewrite Hno. }
    assert ((if length (take TEXT_SNIFF_BYTES seen) <? TEXT_SNIFF_BYTES then take TEXT_SNIFF_BYTES (seen ++ c)
             else take TEXT_SNIFF_BYTES seen) = take TEXT_SNIFF_BYTES (seen ++ c)) as ->.
    { destruct (Nat.ltb_spec (length (take TEXT_SNIFF_BYTES seen)) TEXT_SNIFF_BYTES) as [|Hge]; [done|].
      symmetry. apply full_sample_app. rewrite length_take in *. lia. }
    destruct (scan_minified_run run c) as [r [|]] eqn:Er.
    + unfold acceptable. rewrite minified_prefix, andb_false_r; [done|].
      unfold is_minified_blob. by rewrite scan_minified_run_app, Hs, Er.
    + apply IH. by rewrite scan_minified_run_app, Hs, Er.
Qed.

Lemma is_indexable_file_acceptable p content : is_indexable_file p content = acceptable content.
Proof.
  unfold is_indexable_file, acceptable. case_bool_decide as E.
  - subst content. unfold is_probably_text. rewrite take_nil. done.
  - destruct (is_probably_text content); [|done]. cbn [negb andb].
    destruct (is_minified_blob content); [done|]. by destruct (is_indexable_path p).
Qed.

(** The indexability test that streams a file agrees with the test of the whole
    content, however the reads cut it: neither the sniffed sample nor a run without
    line break that spans several reads is missed, and stopping early never changes
    the answer. *)
Theorem streamed_indexability {E} (p : path) (chunks : list (list N)) :
  Forall (fun c => c <> []) chunks ->
  is_indexable_file_reader (E:=E) (map Ok chunks) = Ok (is_indexable_file p (concat chunks)).
Proof.
  intros Hc. rewrite is_indexable_file_acceptable.
  exact (reader_loop_acceptable [] 0 chunks Hc eq_refl).
Qed.

Lemma streamed_indexability_witness :
  is_indexable_file_reader (E:=unit) [Ok (lit "fn main"); Ok (lit "() {}")] = Ok true.
Proof.
  etransitivity; [exact (streamed_indexability (lit "main.rs") [lit "fn main"; lit "() {}"]
                           ltac:(repeat constructor; discriminate))|].
  vm_compute. reflexivity.
Defined.
