(* ===== verification/ChunkingFacts.v ===== *)
(** * Chunks: bounds, coverage and headers. *)
From S2P Require Import Prelude Utf8 Paths Languages Chunking.

Section Facts.
Context {Digest : Type} (xxh3_128 : list N -> Digest).
Abbreviation Chunk := (Chunk Digest).

Local Opaque MAX_STRUCTURAL_CHUNK_LINES MAX_STRUCTURAL_CHUNK_BYTES.

(** ** Coverage *)

(** Lines [a] to [b], counted from 1. *)
Definition lines_of (lines : list str) (a b : nat) : list str := take (b - (a - 1)) (drop (a - 1) lines).

Lemma line_slice_lines lines a b :
  1 <= a -> a - 1 <= b -> b <= length lines -> line_slice lines (a - 1) b = Some (lines_of lines a b).
Proof.
  intros H1 H2 H3. unfold line_slice.
  rewrite (proj2 (Nat.leb_le _ _) H2), (proj2 (Nat.leb_le _ _) H3). done.
Qed.

Definition span (c : Chunk) : nat * nat := (start_line c, end_line c).

(** The spans begin at [from], end at [last], and leave no line out between. *)
Fixpoint covers (from last : nat) (spans : list (nat * nat)) : Prop :=
  match spans with
  | [] => False
  | (a, b) :: rest =>
    a = from /\ a <= b /\ b <= last /\
    match rest with
    | [] => b = last
    | (a', _) :: _ => a < a' <= b + 1 /\ covers a' last rest
    end
  end.

Lemma covers_line from last spans i :
  covers from last spans -> from <= i <= last -> exists a b, (a, b) ∈ spans /\ a <= i <= b.
Proof.
  revert from. induction spans as [|[a b] rest IH]; intros from H Hi; [done|].
  destruct H as (-> & Hab & Hb & H). destruct (decide (i <= b)).
  - exists from, b. split; [left|lia].
  - destruct rest as [|[a' b'] rest]; [lia|]. destruct H as [Ha H].
    destruct (IH a' H) as (x & y & Hxy & Hi'); [lia|]. exists x, y. split; [by right|done].
Qed.

(** ** The window of a definition *)

Definition used_bytes (ls : list str) : nat := sum_list_with (fun l => blen l + 1) ls.

Lemma window_end_spec rest : forall k used w,
  let we := window_end rest k used w in
  w <= we <= w + length rest
  /\ (k + (we - w) <= Nat.max k MAX_STRUCTURAL_CHUNK_LINES)
  /\ (we = w \/ used + used_bytes (take (we - w) rest) <= MAX_STRUCTURAL_CHUNK_BYTES).
Proof.
  induction rest as [|l rest IH]; intros k used w; cbn [window_end length]; [lia|].
  destruct (Nat.ltb_spec k MAX_STRUCTURAL_CHUNK_LINES); [|lia].
  destruct (Nat.ltb_spec MAX_STRUCTURAL_CHUNK_BYTES (used + (blen l + 1))); [lia|].
  destruct (IH (S k) (used + (blen l + 1)) (S w)) as (H1 & H2 & H3). set (we := window_end _ _ _ _) in *. clearbody we.
  split; [lia|]. split; [lia|]. right. replace (we - w) with (S (we - S w)) by lia. cbn [take used_bytes sum_list_with].
  destruct H3 as [H3|H3]; [rewrite H3, Nat.sub_diag, take_0; cbn [sum_list_with]; lia|]. unfold used_bytes in H3. lia.
Qed.

Lemma blen_join l ls : blen (join newline (l :: ls)) = blen l + used_bytes ls.
Proof.
  revert l. induction ls as [|l' ls IH]; intros l; [cbn; lia|].
  change (join newline (l :: l' :: ls)) with (l ++ newline ++ join newline (l' :: ls)).
  rewrite !blen_app, IH. unfold used_bytes. cbn [sum_list_with]. change (blen newline) with 1. lia.
Qed.

Definition bounded (c : Chunk) (lines : list str) : Prop :=
  end_line c + 1 - start_line c <= MAX_STRUCTURAL_CHUNK_LINES
  /\ (start_line c = end_line c
      \/ blen (join newline (lines_of lines (start_line c) (end_line c))) <= MAX_STRUCTURAL_CHUNK_BYTES).

(** The text is a header, an empty line, and the lines of the span. *)
Definition shows (hdr : str) (lines : list str) (c : Chunk) : Prop :=
  text c = hdr ++ newline ++ join newline (lines_of lines (start_line c) (end_line c)).

Lemma lines_of_head lines a b l :
  1 <= a -> a <= b -> lines !! (a - 1) = Some l ->
  lines_of lines a b = l :: take (b - a) (drop a lines).
Proof.
  intros H1 H2 Hl. unfold lines_of. rewrite (drop_S _ _ _ Hl).
  replace (b - (a - 1)) with (S (b - a)) by lia. cbn [take]. by replace (S (a - 1)) with a by lia.
Qed.

Lemma window_bounded lines last ws l :
  1 <= ws -> ws <= last -> last <= length lines -> lines !! (ws - 1) = Some l ->
  let we := window_end (take (last - ws) (drop ws lines)) 1 (blen l) ws in
  ws <= we <= last
  /\ we + 1 - ws <= MAX_STRUCTURAL_CHUNK_LINES
  /\ (ws = we \/ blen (join newline (lines_of lines ws we)) <= MAX_STRUCTURAL_CHUNK_BYTES).
Proof.
  intros H1 H2 H3 Hl. destruct (window_end_spec (take (last - ws) (drop ws lines)) 1 (blen l) ws) as (He & Hk & Hu).
  cbn zeta. set (we := window_end _ _ _ _) in *. clearbody we. rewrite length_take, length_drop in He.
  split; [lia|]. split.
  - assert (1 <= MAX_STRUCTURAL_CHUNK_LINES) by (apply Nat.leb_le; reflexivity). lia.
  - destruct Hu as [Hu|Hu]; [by left|right]. rewrite (lines_of_head lines ws we l H1 ltac:(lia) Hl), blen_join.
    by rewrite take_take, Nat.min_l in Hu by lia.
Qed.

(** A window that starts the definition, or continues it. *)
Record window_ok (rel_path context language : str) (k : ChunkKind) (defs : option (list ChunkDefinition))
    (lines : list str) (first : nat) (c : Chunk) : Prop := MkWindowOk {
  ok_bounded : bounded c lines;
  ok_text : shows (if start_line c =? first then header rel_path else continuation_header rel_path context) lines c;
  ok_path : file_path c = rel_path;
  ok_language : chunk_language c = language;
  ok_kind : kind c = k;
  ok_definitions : start_line c <> first -> definitions c = None \/ definitions c = Some []
}.

Lemma structural_windows_spec rel_path context language k defs lines first last : forall fuel ws,
  1 <= first -> first <= ws -> ws <= last -> last <= length lines -> last - ws < fuel ->
  exists cs,
    structural_windows xxh3_128 fuel rel_path lines first last language k context defs ws = Some cs
    /\ covers ws last (map span cs)
    /\ Forall (window_ok rel_path context language k defs lines first) cs.
Proof.
  induction fuel as [|fuel IH]; intros ws H1 Hf H2 H3 Hfuel; [lia|]. cbn [structural_windows].
  rewrite (proj2 (Nat.leb_le _ _) H2).
  destruct (lookup_lt_is_Some_2 lines (ws - 1)) as [l Hl]; [lia|]. rewrite Hl. cbn [mbind option_bind].
  assert (line_slice lines ws last = Some (take (last - ws) (drop ws lines))) as ->.
  { unfold line_slice. by rewrite (proj2 (Nat.leb_le _ _) H2), (proj2 (Nat.leb_le _ _) H3). }
  cbn [mbind option_bind].
  destruct (window_bounded lines last ws l ltac:(lia) H2 H3 Hl) as (He & Hb). set (we := window_end _ _ _ _) in *.
  clearbody we. rewrite line_slice_lines by lia. cbn [mbind option_bind].
  set (hdr := if ws =? first then (header rel_path, defs) else _).
  destruct hdr as [h wd] eqn:Eh. cbv zeta.
  set (chunk := make_chunk _ _ _ _ _ _ _ _).
  assert (window_ok rel_path context language k defs lines first chunk) as Hok.
  { unfold hdr in Eh. split; try done; cbn.
    - unfold shows. cbn. revert Eh. destruct (ws =? first); intros [= <- <-]; done.
    - intros Hne. rewrite (proj2 (Nat.eqb_neq _ _) Hne) in Eh. injection Eh as <- <-.
      destruct (is_some defs || _); auto. }
  destruct (Nat.eqb_spec we last) as [Heq|Hne].
  - exists [chunk]. split; [done|]. split; [|by apply Forall_singleton]. cbn. lia.
  - destruct (IH (Nat.max (we - (STRUCTURAL_CHUNK_OVERLAP_LINES - 1)) (ws + 1))) as (cs & Hcs & Hcov & Hall);
      [lia|lia| |done| |].
    1,2: unfold STRUCTURAL_CHUNK_OVERLAP_LINES; lia.
    rewrite Hcs. exists (chunk :: cs). split; [done|]. split; [|by constructor].
    cbn [map covers]. change (span chunk) with (ws, we). split_and!; [done|lia|lia|].
    destruct cs as [|c cs]; [done|]. cbn [map] in *. destruct (span c) as [a' b'] eqn:Es.
    assert (a' = Nat.max (we - (STRUCTURAL_CHUNK_OVERLAP_LINES - 1)) (ws + 1)) as -> by (cbn in Hcov; tauto).
    split; [unfold STRUCTURAL_CHUNK_OVERLAP_LINES; lia|done].
Qed.

Lemma structural_windows rel_path lines first last language k context defs :
  1 <= first -> first <= last -> last <= length lines ->
  exists cs,
    push_bounded_structural_chunks xxh3_128 rel_path lines first last language k context defs = Some cs
    /\ (cs = [] <-> forallb is_trivial_line (lines_of lines first last) = true)
    /\ (cs <> [] -> covers first last (map span cs))
    /\ Forall (window_ok rel_path context language k defs lines first) cs.
Proof.
  intros H1 H2 H3. unfold push_bounded_structural_chunks.
  rewrite (proj2 (Nat.ltb_ge _ _) H2), line_slice_lines by lia. cbn [mbind option_bind].
  destruct (forallb is_trivial_line (lines_of lines first last)).
  - exists []. split_and!; [done|done|done|constructor].
  - destruct (structural_windows_spec rel_path context language k defs lines first last
                (S (last - first)) first) as (cs & Hcs & Hcov & Hall); [lia..|].
    exists cs. split_and!; [done| |done|done]. split; [|done]. intros ->. done.
Qed.

(** The windows of a declaration lose nothing and stay bounded: unless every
    line of the range is blank or a lone bracket (then there are none), the windows
    of lines [first] to [last] begin at [first], end at [last] and leave no line
    out between; each has at most 128 lines, and at most 4096 bytes unless it is
    one line; its text is a header, an empty line and exactly its lines; and only
    the first may define symbols. *)
Theorem structural_windows_cover rel_path lines first last language k context defs :
  1 <= first -> first <= last -> last <= length lines ->
  exists cs,
    push_bounded_structural_chunks xxh3_128 rel_path lines first last language k context defs = Some cs
    /\ (cs = [] <-> forallb is_trivial_line (lines_of lines first last) = true)
    /\ (cs <> [] -> covers first last (map span cs))
    /\ Forall (window_ok rel_path context language k defs lines first) cs.
Proof. apply structural_windows. Qed.

(** ** Windows of a text *)

Lemma fallback_loop_spec rel_path language lines : forall fuel start,
  1 <= start -> start <= length lines -> length lines - start < fuel ->
  exists cs,
    fallback_loop xxh3_128 fuel rel_path language lines start = Some cs
    /\ covers start (length lines) (map span cs)
    /\ Forall (fun c => end_line c + 1 - start_line c <= 80 /\ file_path c = rel_path /\ shows (header rel_path) lines c) cs.
Proof.
  induction fuel as [|fuel IH]; intros start H1 H2 Hfuel; [lia|]. cbn [fallback_loop].
  rewrite (proj2 (Nat.leb_le _ _) H2). cbv zeta. set (last := Nat.min (start + 80 - 1) (length lines)).
  assert (start <= last <= length lines /\ last <= start + 79 /\ (last = start + 79 \/ last = length lines))
    as (Hl & Hb & Hl') by lia.
  clearbody last. rewrite line_slice_lines by lia. cbn [mbind option_bind]. set (chunk := make_chunk _ _ _ _ _ _ _ _).
  assert (end_line chunk + 1 - start_line chunk <= 80 /\ file_path chunk = rel_path
          /\ shows (header rel_path) lines chunk) as Hok by (split; [cbn; lia|done]).
  destruct (Nat.eqb_spec last (length lines)) as [Heq|Hne].
  - exists [chunk]. split; [done|]. split; [|by apply Forall_singleton]. cbn. lia.
  - destruct (IH (last - 20 + 1)) as (cs & Hcs & Hcov & Hall); [lia..|]. rewrite Hcs.
    exists (chunk :: cs). split; [done|]. split; [|by constructor].
    cbn [map covers]. change (span chunk) with (start, last). split_and!; [done|lia|lia|].
    destruct cs as [|c cs]; [done|]. cbn [map] in *. destruct (span c) as [a' b'] eqn:Es.
    assert (a' = last - 20 + 1) as -> by (cbn in Hcov; tauto). split; [lia|done].
Qed.

Lemma fallback_chunks_spec rel_path language lines :
  lines <> [] ->
  exists cs, fallback_chunks xxh3_128 rel_path language lines = Some cs
    /\ covers 1 (length lines) (map span cs)
    /\ Forall (fun c => end_line c + 1 - start_line c <= 80 /\ file_path c = rel_path /\ shows (header rel_path) lines c) cs.
Proof.
  intros Hne. destruct lines as [|l lines]; [done|]. apply fallback_loop_spec; cbn [length]; lia.
Qed.

(** ** Chunks by signature *)

Lemma leading_doc_start_spec language lines : forall s,
  1 <= s -> s <= length lines + 1 ->
  exists a, leading_doc_start s language lines = Some a /\ 1 <= a <= s.
Proof.
  induction s as [|[|n] IH]; intros H1 H2; [lia|eexists; split; [done|lia]|].
  cbn [leading_doc_start]. destruct (lookup_lt_is_Some_2 lines n) as [l ->]; [lia|]. cbn [mbind option_bind].
  destruct (is_leading_doc_line _ _); [|eexists; split; [done|lia]].
  destruct IH as (a & Ha & Hle); [lia|lia|]. exists a. split; [done|lia].
Qed.

(** The walk up from a later line stops below an earlier one, or where the walk from
    there stops. *)
Lemma leading_doc_start_mono language lines : forall s' s a a',
  1 <= s -> s <= s' ->
  leading_doc_start s language lines = Some a -> leading_doc_start s' language lines = Some a' -> a <= a'.
Proof.
  induction s' as [|n' IH]; intros s a a' H1 H2 Ha Ha'; [lia|].
  destruct (decide (s = S n')) as [->|Hne]; [assert (a = a') as -> by congruence; done|].
  destruct n' as [|n']; [lia|]. cbn [leading_doc_start] in Ha'.
  apply bind_Some in Ha' as (l & Hl & Ha').
  destruct (is_leading_doc_line _ _); [apply (IH s); [done|lia|done|done]|]. injection Ha' as <-.
  assert (a <= s); [|lia]. clear -Ha. revert a Ha. induction s as [|[|n] IH]; intros a Ha.
  - injection Ha as <-. done.
  - injection Ha as <-. done.
  - cbn [leading_doc_start] in Ha. apply bind_Some in Ha as (l & _ & Ha).
    destruct (is_leading_doc_line _ _); [apply IH in Ha; lia|by injection Ha as <-].
Qed.

(** A chunk of [lines] shows one span of them, under one of the headers. *)
Definition chunk_ok (rel_path : str) (lines : list str) (c : Chunk) : Prop :=
  1 <= start_line c <= end_line c /\ end_line c <= length lines /\ file_path c = rel_path
  /\ (shows (header rel_path) lines c
      \/ exists line, line ∈ lines /\ shows (continuation_header rel_path (trim line)) lines c).

Definition covered_line (lines : list str) (cs : list Chunk) (i : nat) : Prop :=
  forall line, lines !! (i - 1) = Some line -> is_trivial_line line = false ->
  exists c, c ∈ cs /\ start_line c <= i <= end_line c.

Lemma covers_spans from last spans a b :
  covers from last spans -> (a, b) ∈ spans -> from <= a <= b /\ b <= last.
Proof.
  revert from. induction spans as [|[x y] rest IH]; intros from H Hin; [by apply not_elem_of_nil in Hin|].
  destruct H as (-> & Hxy & Hy & H). apply elem_of_cons in Hin as [[= -> ->]|Hin]; [lia|].
  destruct rest as [|[x' y'] rest]; [by apply not_elem_of_nil in Hin|]. destruct H as [Hx H].
  destruct (IH x' H Hin) as [? ?]. lia.
Qed.

Lemma covers_chunks lines from last cs i :
  covers from last (map span cs) -> from <= i <= last -> covered_line lines cs i.
Proof.
  intros Hc Hi l _ _. destruct (covers_line _ _ _ _ Hc Hi) as (a & b & Hab & Hi').
  apply list_elem_of_fmap in Hab as (c & [= -> ->] & Hin). eauto.
Qed.

(** The lines of a range are in its windows, whatever the windows say about it. *)
Lemma windows_cover_lines rel_path lines first last language k context defs :
  1 <= first -> first <= last -> last <= length lines ->
  exists cs,
    push_bounded_structural_chunks xxh3_128 rel_path lines first last language k context defs = Some cs
    /\ Forall (fun c => window_ok rel_path context language k defs lines first c
                       /\ 1 <= start_line c <= end_line c /\ end_line c <= length lines) cs
    /\ forall i, first <= i <= last -> covered_line lines cs i.
Proof.
  intros H1 H2 H3.
  destruct (structural_windows rel_path lines first last language k context defs H1 H2 H3)
    as (cs & Hcs & Hnil & Hcov & Hall).
  exists cs. split; [done|]. destruct cs as [|c0 cs'].
  - split; [constructor|]. intros i Hi l Hl Ht. exfalso.
    destruct Hnil as [Hnil _]. specialize (Hnil eq_refl). rewrite forallb_forall in Hnil.
    rewrite Hnil in Ht; [done|]. apply list_elem_of_In. unfold lines_of.
    apply list_elem_of_lookup. exists (i - first). rewrite lookup_take_lt by lia. rewrite lookup_drop.
    by replace (first - 1 + (i - first)) with (i - 1) by lia.
  - specialize (Hcov ltac:(done)). split; [|intros i Hi; by eapply covers_chunks].
    rewrite Forall_forall in Hall |- *. intros c Hc. split; [by apply Hall|].
    destruct (covers_spans _ _ _ (start_line c) (end_line c) Hcov) as [Hs He].
    { by apply (list_elem_of_fmap_2 span). }
    lia.
Qed.

(** Structural chunks of one segment, for any context line of the file. *)
Lemma segment_chunks rel_path lines first last language k line defs :
  1 <= first -> first <= last -> last <= length lines -> line ∈ lines ->
  exists cs,
    push_bounded_structural_chunks xxh3_128 rel_path lines first last language k (trim line) defs = Some cs
    /\ Forall (chunk_ok rel_path lines) cs
    /\ forall i, first <= i <= last -> covered_line lines cs i.
Proof.
  intros H1 H2 H3 Hline.
  destruct (windows_cover_lines rel_path lines first last language k (trim line) defs H1 H2 H3)
    as (cs & Hcs & Hall & Hcov).
  exists cs. split_and!; [done| |done]. eapply Forall_impl; [exact Hall|].
  intros c ([_ Ht Hp _ _ _] & Hs & He). split; [lia|]. split; [lia|]. split; [done|].
  destruct (start_line c =? first); [by left|right; eauto].
Qed.

(** Segments: start, line of the definition, kind. *)
Definition segment_start (x : nat * nat * ChunkKind) : nat := fst (fst x).
Fixpoint ascending (l : list (nat * nat * ChunkKind)) (bound : nat) : Prop :=
  match l with
  | [] => True
  | x :: rest =>
    1 <= segment_start x <= snd (fst x) /\ snd (fst x) <= bound
    /\ match rest with y :: _ => segment_start x <= segment_start y | [] => True end
    /\ ascending rest bound
  end.

Lemma signature_chunks_spec rel_path language lines : forall segs,
  ascending segs (length lines) ->
  exists cs, signature_chunks xxh3_128 rel_path language lines segs = Some cs
    /\ Forall (chunk_ok rel_path lines) cs
    /\ forall x segs' i, segs = x :: segs' -> segment_start x <= i <= length lines -> covered_line lines cs i.
Proof.
  induction segs as [|[[f d] k] rest IH]; intros Hasc.
  { exists []. split_and!; [done|constructor|by intros]. }
  destruct Hasc as (H1 & H2 & Hmono & Hasc). cbn [segment_start fst snd] in *.
  destruct (IH Hasc) as (more & Hmore & Hok & Hcov). cbn [signature_chunks].
  set (last := match rest with (next, _, _) :: _ => next - 1 | [] => length lines end).
  assert (last <= length lines) as Hlast.
  { unfold last. destruct rest as [|[[n d'] k'] rest']; [done|].
    destruct Hasc as (? & ? & _). cbn [segment_start fst snd] in *. lia. }
  assert (exists cs, (if last <? f then Some []
             else context ← lines !! (d - 1);
                  push_bounded_structural_chunks xxh3_128 rel_path lines f last language k (trim context) None) = Some cs
           /\ Forall (chunk_ok rel_path lines) cs
           /\ forall i, f <= i <= last -> covered_line lines cs i) as (cs & -> & Hcs & Hc).
  { destruct (Nat.ltb_spec last f).
    - exists []. split_and!; [done|constructor|lia].
    - destruct (lookup_lt_is_Some_2 lines (d - 1)) as [line Hline]; [lia|]. rewrite Hline.
      apply segment_chunks; [lia|lia|lia|]. by apply list_elem_of_lookup_2 in Hline. }
  cbn [mbind option_bind]. rewrite Hmore. cbn [mbind option_bind]. exists (cs ++ more). split; [done|].
  split; [by apply Forall_app|]. intros x segs' i [= <- <-] Hi line Hline Ht. cbn [segment_start fst] in Hi.
  destruct (decide (i <= last)) as [Hle|Hgt].
  - destruct (Hc i ltac:(lia) line Hline Ht) as (c & Hin & ?). exists c. split; [apply elem_of_app; by left|done].
  - unfold last in *. destruct rest as [|[[n d'] k'] rest']; [lia|].
    destruct (Hcov _ _ i eq_refl ltac:(cbn; lia) line Hline Ht) as (c & Hin & ?).
    exists c. split; [apply elem_of_app; by right|done].
Qed.

(** The signatures found are lines of the text, in order. *)
Lemma collect_from_spec (detect : str -> option ChunkKind) lines : forall off,
  let sigs := omap (fun il : nat * str => pair (S (fst il)) <$> detect (trim_start (snd il)))
                (imap (fun i l => (off + i, l)) lines) in
  Forall (fun sk => off < fst sk <= off + length lines) sigs
  /\ StronglySorted (fun a b => fst a < fst b) sigs.
Proof.
  induction lines as [|l lines IH]; intros off; [by repeat constructor|].
  specialize (IH (S off)). cbn [imap omap list_omap]. rewrite Nat.add_0_r.
  assert (imap (fun i l => (S off + i, l)) lines = imap (fun i l => (off + S i, l)) lines) as E.
  { apply imap_ext. intros i x _. cbn. f_equal. lia. }
  cbn zeta in IH. rewrite E in IH. destruct IH as [IH1 IH2]. unfold compose in *.
  assert (Forall (fun sk : nat * ChunkKind => off < fst sk <= off + length (l :: lines))
            (omap (fun il : nat * str => pair (S (fst il)) <$> detect (trim_start (snd il)))
               (imap (fun i l => (off + S i, l)) lines))) as IH3.
  { eapply Forall_impl; [exact IH1|]. cbn [length]. lia. }
  destruct (detect (trim_start (snd (off, l)))) as [k|]; cbn [fmap option_fmap option_map fst].
  - split; constructor; try done; [cbn [fst length]; lia|].
    eapply Forall_impl; [exact IH1|]. cbn. lia.
  - done.
Qed.

Lemma collect_signatures_spec detect lines :
  Forall (fun sk => 0 < fst sk <= length lines) (collect_signatures detect lines)
  /\ StronglySorted (fun a b => fst a < fst b) (collect_signatures detect lines).
Proof. exact (collect_from_spec detect lines 0). Qed.

(** Starts exist for them, and segments ascend. *)
Lemma starts_spec language lines sigs :
  Forall (fun sk : nat * ChunkKind => 0 < fst sk <= length lines) sigs ->
  StronglySorted (fun a b => fst a < fst b) sigs ->
  exists starts, mapM (fun sk => leading_doc_start (fst sk) language lines) sigs = Some starts
    /\ ascending (zip_with (fun start sk => (start, fst sk, snd sk)) starts sigs) (length lines)
    /\ length starts = length sigs.
Proof.
  induction sigs as [|[s k] sigs IH]; intros Hall Hs; [by exists []|].
  apply Forall_cons in Hall as [Hs1 Hall]. inversion_clear Hs as [|? ? Hs' Hlt]. cbn [fst] in *.
  destruct (IH Hall Hs') as (starts & Hm & Hasc & Hlen).
  destruct (leading_doc_start_spec language lines s) as (a & Ha & Hle); [lia|lia|].
  exists (a :: starts). split_and!; [|split_and!|cbn; lia].
  - cbn. rewrite Ha. cbn. rewrite Hm. done.
  - cbn. lia.
  - cbn. lia.
  - cbn. lia.
  - destruct sigs as [|[s' k'] sigs]; [by destruct starts|].
    cbn [mapM fst] in Hm. apply bind_Some in Hm as (a' & Ha' & Hm).
    apply bind_Some in Hm as (starts' & _ & [= <-]). cbn.
    apply Forall_cons in Hlt as [Hlt _]. cbn in Hlt.
    apply (leading_doc_start_mono language lines s' s); [lia|lia|done|done].
  - exact Hasc.
Qed.

Lemma fallback_chunks_ok rel_path language lines :
  lines <> [] ->
  exists cs, fallback_chunks xxh3_128 rel_path language lines = Some cs
    /\ Forall (chunk_ok rel_path lines) cs
    /\ forall i, 1 <= i <= length lines -> covered_line lines cs i.
Proof.
  intros Hne. destruct (fallback_chunks_spec rel_path language lines Hne) as (cs & Hcs & Hcov & Hok).
  exists cs. split_and!; [done| |intros i Hi; by eapply covers_chunks].
  rewrite Forall_forall in Hok |- *. intros c Hc. destruct (Hok c Hc) as (_ & Hp & Ht).
  destruct (covers_spans _ _ _ (start_line c) (end_line c) Hcov) as [? ?];
    [by apply (list_elem_of_fmap_2 span)|].
  split; [lia|]. split; [lia|]. split; [done|by left].
Qed.

Lemma preamble_chunks_spec rel_path language lines first_start :
  lines <> [] -> 1 <= first_start <= length lines ->
  exists cs, preamble_chunks xxh3_128 rel_path language lines first_start = Some cs
    /\ Forall (chunk_ok rel_path lines) cs
    /\ forall i, 1 <= i < first_start -> covered_line lines cs i.
Proof.
  intros Hne Hf. unfold preamble_chunks. destruct (Nat.ltb_spec 0 (first_start - 1)).
  - destruct lines as [|l lines]; [done|]. cbn [lookup list_lookup mbind option_bind].
    destruct (segment_chunks rel_path (l :: lines) 1 (first_start - 1) language Module l None) as (cs & Hcs & Hok & Hcov);
      [lia|lia|lia|left|].
    exists cs. split_and!; [done|done|]. intros i Hi. apply Hcov. lia.
  - exists []. split_and!; [done|constructor|lia].
Qed.

(** The branch with signatures. *)
Lemma signature_branch rel_path language lines sk sigs :
  lines <> [] ->
  Forall (fun sk : nat * ChunkKind => 0 < fst sk <= length lines) (sk :: sigs) ->
  StronglySorted (fun a b => fst a < fst b) (sk :: sigs) ->
  exists starts preamble chunks,
    mapM (fun sk => leading_doc_start (fst sk) language lines) (sk :: sigs) = Some starts
    /\ match starts with
       | first_start :: _ => preamble_chunks xxh3_128 rel_path language lines first_start
       | [] => Some []
       end = Some preamble
    /\ signature_chunks xxh3_128 rel_path language lines
         (zip_with (fun start sk => (start, fst sk, snd sk)) starts (sk :: sigs)) = Some chunks
    /\ Forall (chunk_ok rel_path lines) (preamble ++ chunks)
    /\ forall i, 1 <= i <= length lines -> covered_line lines (preamble ++ chunks) i.
Proof.
  intros Hne Hall Hs. destruct (starts_spec language lines _ Hall Hs) as (starts & Hm & Hasc & Hlen).
  destruct starts as [|first_start starts]; [done|].
  destruct (signature_chunks_spec rel_path language lines _ Hasc) as (chunks & Hc & Hok & Hcov).
  assert (1 <= first_start <= length lines) as Hf.
  { destruct Hasc as (? & ? & _). cbn [segment_start fst snd] in *. lia. }
  destruct (preamble_chunks_spec rel_path language lines first_start Hne Hf) as (pre & Hp & Hpok & Hpcov).
  exists (first_start :: starts), pre, chunks. split_and!; [done|done|done|by apply Forall_app|].
  intros i Hi line Hline Ht. destruct (decide (i < first_start)) as [Hlt|Hge].
  - destruct (Hpcov i ltac:(lia) line Hline Ht) as (c & Hin & ?). exists c. split; [apply elem_of_app; by left|done].
  - cbn [zip_with] in Hcov.
    destruct (Hcov _ _ i eq_refl ltac:(cbn [segment_start fst]; lia) line Hline Ht) as (c & Hin & ?).
    exists c. split; [apply elem_of_app; by right|done].
Qed.

Lemma heuristic_chunks p rel_path source :
  let lines := str_lines source in
  exists cs, chunk_source xxh3_128 p rel_path source None = Some cs
    /\ Forall (chunk_ok rel_path lines) cs
    /\ forall i, 1 <= i <= length lines -> covered_line lines cs i.
Proof.
  intros lines. unfold chunk_source. fold lines.
  set (language := match find_language_def p with Some d => name d | None => lit "text" end).
  case_bool_decide as Hne; [exists []; rewrite Hne; split_and!; [done|constructor|cbn; lia]|].
  replace (if match find_language_def p with Some d => _ | None => false end then None else None)
    with (@None (list Chunk)) by (by destruct (match find_language_def p with Some d => _ | None => false end)).
  set (sigs := match find_language_def p with Some d => _ | None => [] end).
  assert (Forall (fun sk => 0 < fst sk <= length lines) sigs /\ StronglySorted (fun a b => fst a < fst b) sigs)
    as [Hall Hs].
  { unfold sigs. destruct (find_language_def p); [apply collect_signatures_spec|repeat constructor]. }
  clearbody sigs language. destruct sigs as [|sk sigs]; [by apply fallback_chunks_ok|].
  destruct (signature_branch rel_path language lines sk sigs Hne Hall Hs)
    as (starts & preamble & chunks & -> & Hp & Hc & Hok & Hcov).
  exists (preamble ++ chunks). split_and!; [|done|done]. cbn [mbind option_bind]. rewrite Hp. cbn [mbind option_bind].
  by rewrite Hc.
Qed.

(** C35. The heuristic chunker loses no source line: for every path and text whose
    parser gives nothing, it never goes out of bounds, every chunk shows exactly
    the lines of its span under the header of its file, and every line is in some
    chunk, lone brackets and blank lines excepted. *)
Theorem heuristic_chunks_cover p rel_path source :
  let lines := str_lines source in
  exists cs, chunk_source xxh3_128 p rel_path source None = Some cs
    /\ Forall (chunk_ok rel_path lines) cs
    /\ forall i, 1 <= i <= length lines -> covered_line lines cs i.
Proof. apply heuristic_chunks. Qed.
End Facts.

(** ** Headers *)

Inductive stored_header (rel_path : str) : str -> Prop :=
| stored_plain : stored_header rel_path (header rel_path)
| stored_continuation context :
    10%N ∉ context -> stored_header rel_path (continuation_header rel_path context)
| stored_include included :
    10%N ∉ included -> stored_header rel_path (include_header rel_path included).

(** Every stored form of header is stripped, whatever the lines below it are. *)
Lemma strip_stored_header rel_path rel_path' hdr block :
  10%N ∉ rel_path -> same_path_ignoring_separators (bytes rel_path) (to_string_lossy rel_path') = true ->
  stored_header rel_path hdr -> strip_chunk_header (hdr ++ newline ++ block) rel_path' = block.
Proof.
  intros Hp Hsame Hh.
  assert (exists mid, hdr = lit "// " ++ rel_path ++ newline ++ mid
          /\ (mid = [] \/ exists line, mid = app line newline /\ (10%N ∉ line)
              /\ (starts_with (lit "// continuation of ") line
                  || starts_with (lit "// Rust documentation included from ") line) = true)) as (mid & -> & Hmid).
  { destruct Hh as [|context Hc|included Hi]; unfold continuation_header, include_header, header.
    - exists []. rewrite app_nil_r. auto.
    - exists (lit "// continuation of " ++ context ++ newline). rewrite <- !app_assoc. split; [done|right].
      eexists. rewrite app_assoc. split; [done|]. split; [|by rewrite starts_with_app].
      rewrite elem_of_app. intros [H|H]; [by apply (bool_decide_eq_true_2 _) in H|done].
    - exists (lit "// Rust documentation included from " ++ included ++ newline). rewrite <- !app_assoc. split; [done|right].
      eexists. rewrite app_assoc. split; [done|]. split; [|by rewrite starts_with_app, orb_true_r].
      rewrite elem_of_app. intros [H|H]; [by apply (bool_decide_eq_true_2 _) in H|done]. }
  unfold strip_chunk_header. rewrite <- !app_assoc, strip_prefix_app. cbn [mbind option_bind].
  rewrite split_once_app, Hsame by done. destruct Hmid as [->|(line & -> & Hl & Hpre)].
  - done.
  - rewrite <- app_assoc, split_once_app, Hpre by done. done.
Qed.

Lemma drop_while_subset {A} (f : A -> bool) (l : list A) x : x ∈ drop_while f l -> x ∈ l.
Proof.
  induction l as [|y l IH]; [done|]. cbn [drop_while]. destruct (f y); [|done]. intros H. right. auto.
Qed.
Lemma trim_subset s x : x ∈ trim s -> x ∈ s.
Proof.
  unfold trim, trim_end, trim_start. rewrite elem_of_reverse. intros H%drop_while_subset.
  rewrite elem_of_reverse in H. by apply drop_while_subset in H.
Qed.
Lemma strip_cr_subset w x : x ∈ strip_cr w -> x ∈ w.
Proof.
  unfold strip_cr, strip_suffix, unwrap_or. destruct (strip_prefix _ _) as [r|] eqn:E; [|done].
  cbn [fmap option_fmap option_map]. rewrite elem_of_reverse. intros H.
  apply elem_of_reverse. rewrite (strip_prefix_Some _ _ _ E). apply elem_of_app. by right.
Qed.
Lemma lines_no_newline s : forall w, 10%N ∉ w -> forall l, l ∈ lines_loop s w -> 10%N ∉ l.
Proof.
  induction s as [|c s IH]; intros w Hw l; cbn [lines_loop].
  - destruct (decide (w = [])); [by intros ?%not_elem_of_nil|]. by intros ->%list_elem_of_singleton.
  - destruct (N.eqb_spec c 10) as [->|Hc].
    + intros [->|Hl]%elem_of_cons; [by intros H%strip_cr_subset|]. apply (IH []); [apply not_elem_of_nil|done].
    + apply IH. rewrite elem_of_app, list_elem_of_singleton. intros [H|H]; [done|congruence].
Qed.

(** What the heuristic chunker stores can be shown again: stripping the header
    of any of its chunks, for the same path up to the kind of separator, leaves
    exactly the lines of the chunk's span. *)
Theorem strip_chunk_header_exact {Digest} (xxh3_128 : list N -> Digest) p rel_path rel_path' source cs c :
  10%N ∉ rel_path -> same_path_ignoring_separators (bytes rel_path) (to_string_lossy rel_path') = true ->
  chunk_source xxh3_128 p rel_path source None = Some cs -> c ∈ cs ->
  strip_chunk_header (text c) rel_path' = join newline (lines_of (str_lines source) (start_line c) (end_line c)).
Proof.
  intros Hp Hsame Hcs Hc. destruct (heuristic_chunks xxh3_128 p rel_path source) as (cs' & Hcs' & Hok & _).
  rewrite Hcs in Hcs'. injection Hcs' as <-. rewrite Forall_forall in Hok.
  destruct (Hok c Hc) as (_ & _ & _ & [->|(line & Hl & ->)]); apply (strip_stored_header rel_path); try done.
  - constructor.
  - constructor. intros H%trim_subset. by apply (lines_no_newline source [] ltac:(apply not_elem_of_nil) line Hl).
Qed.

Lemma strip_chunk_header_exact_witness :
  let c := make_chunk (fun _ => tt) (lit "a\b.txt") 1 2 (header (lit "a\b.txt") ++ newline ++ lit "x" ++ newline ++ lit "y")
             (lit "text") Text None in
  strip_chunk_header (text c) (lit "a/b.txt") = lit "x" ++ newline ++ lit "y".
Proof.
  apply (strip_chunk_header_exact (fun _ => tt) (lit "a/b.txt") (lit "a\b.txt") (lit "a/b.txt")
           (lit "x" ++ newline ++ lit "y")
           [make_chunk (fun _ => tt) (lit "a\b.txt") 1 2 (header (lit "a\b.txt") ++ newline ++ lit "x" ++ newline ++ lit "y")
             (lit "text") Text None]).
  - intros H. by apply (bool_decide_eq_true_2 _) in H.
  - vm_compute. reflexivity.
  - vm_compute. reflexivity.
  - left.
Defined.

(** The registry's tests inspect a trimmed line by their own account, but
    signatures are collected from lines trimmed at the start only: a C function
    whose line ends in a space after its brace opens no chunk, although the test
    recognizes the trimmed line. *)
Theorem signature_lost_to_trailing_space :
  exists line, detect_c (trim line) = Some Function /\ collect_signatures detect_c [line] = [].
Proof. exists (lit "int main() { "). split; vm_compute; reflexivity. Qed.

Lemma structural_windows_cover_witness :
  exists cs,
    push_bounded_structural_chunks (fun _ => tt) (lit "a.rs") [lit "fn f() {"; lit "}"] 1 2 (lit "rust")
      Function (lit "fn f() {") None = Some cs
    /\ (cs <> [] -> covers 1 2 (map span cs)).
Proof.
  destruct (structural_windows_cover (fun _ => tt) (lit "a.rs") [lit "fn f() {"; lit "}"] 1 2 (lit "rust")
              Function (lit "fn f() {") None) as (cs & H & _ & Hc & _).
  - apply Nat.leb_le. reflexivity.
  - apply Nat.leb_le. reflexivity.
  - apply Nat.leb_le. reflexivity.
  - exists cs. split; [exact H|exact Hc].
Defined.
