(* ===== verification/StructuralChunks.v ===== *)
(** * Chunks from a parse: the second half of the parser-based chunker.

  tree-sitter's captures arrive as line ranges; this file turns them into chunks:
  equal ranges are merged, leading comments are folded in, oversized parents keep
  an overview and what their children leave over, and lines no range covers become
  module chunks.  [None] is an index out of bounds, where the code panics. *)
From S2P Require Import Prelude Utf8 Paths Languages Chunking.

(** [CapturedRange]: lines from 1, and the line that names the definition. *)
Record CapturedRange := MkRange {
  r_start : nat;
  r_end : nat;
  r_kind : ChunkKind;
  r_definitions : option (list ChunkDefinition);
  r_definition_start : nat
}.
#[global] Instance chunk_definition_eq_dec : EqDecision ChunkDefinition.
Proof. solve_decision. Defined.
#[global] Instance captured_range_eq_dec : EqDecision CapturedRange.
Proof. solve_decision. Defined.

(** ** Equal ranges *)

(** The [names] map of a merged range: the last definition of a lowercase name. *)
Definition names_of (defs : list ChunkDefinition) : gmap str ChunkDefinition :=
  foldl (fun m d => <[ascii_lower (def_name d) := d]> m) ∅ defs.

Definition same_group (a b : CapturedRange) : bool :=
  bool_decide (r_start a = r_start b) && bool_decide (r_end a = r_end b) && bool_decide (r_kind a = r_kind b).

Definition can_merge (names : option (gmap str ChunkDefinition)) (incoming : option (list ChunkDefinition)) : bool :=
  match names, incoming with
  | None, None => true
  | Some existing, Some incoming =>
    forallb (fun d => match existing !! ascii_lower (def_name d) with
                      | None => true
                      | Some e => bool_decide (e = d)
                      end) incoming
  | _, _ => false
  end.

(** The definitions of [incoming] whose name is new, and the names afterwards. *)
Definition add_definition (st : list ChunkDefinition * gmap str ChunkDefinition) (d : ChunkDefinition)
  : list ChunkDefinition * gmap str ChunkDefinition :=
  let '(existing, names) := st in
  let k := ascii_lower (def_name d) in
  (match names !! k with None => existing ++ [d] | Some _ => existing end, <[k := d]> names).

Definition Merged : Type := CapturedRange * option (gmap str ChunkDefinition).

Definition merge_into (m : Merged) (range : CapturedRange) : Merged :=
  match r_definitions (fst m), r_definitions range, snd m with
  | Some existing, Some incoming, Some names =>
    let '(existing, names) := foldl add_definition (existing, names) incoming in
    (MkRange (r_start (fst m)) (r_end (fst m)) (r_kind (fst m)) (Some existing) (r_definition_start (fst m)),
     Some names)
  | _, _, _ => m
  end.

(** Into the first range of its group that can take it, or as a new range. *)
Fixpoint coalesce_one (range : CapturedRange) (merged : list Merged) : list Merged :=
  match merged with
  | [] => [(range, names_of <$> r_definitions range)]
  | m :: merged =>
    if same_group (fst m) range && can_merge (snd m) (r_definitions range)
    then merge_into m range :: merged
    else m :: coalesce_one range merged
  end.

Definition coalesce_inline_definition_ranges (ranges : list CapturedRange) : list CapturedRange :=
  map fst (foldl (fun merged range => coalesce_one range merged) [] ranges).

(** [ranges.retain] with the set of groups seen. *)
Fixpoint retain_unique (seen : list CapturedRange) (ranges : list CapturedRange) : list CapturedRange :=
  match ranges with
  | [] => []
  | r :: ranges =>
    if existsb (same_group r) seen then retain_unique seen ranges
    else r :: retain_unique (r :: seen) ranges
  end.

(** [sort_by_key], which is stable. *)
Definition sort_by_key {A} (key : A -> nat) : list A -> list A := sort_by (fun a b => key a <=? key b).

(** ** Emission *)

Section Emit.
Context {Digest : Type} (xxh3_128 : list N -> Digest).
Abbreviation Chunk := (Chunk Digest).

Definition MAX_LEADING_COMMENT_LINES : nat := 20.
Definition MAX_PARENT_OVERVIEW_LINES : nat := 48.

(** [covered.iter_mut().take(to).skip(from)], set to [b]. *)
Definition set_flags (covered : list bool) (from to : nat) (b : bool) : list bool :=
  imap (fun i f => if (from <=? i) && (i <? to) then b else f) covered.

(** Fold the comment lines above into the range; [budget] is what may still be
    absorbed. *)
Fixpoint absorb_comments (budget : nat) (covered : list bool) (language : str) (lines : list str) (start : nat)
  : option nat :=
  match budget with
  | O => Some start
  | S budget =>
    if 1 <? start then
      let prev := start - 1 in
      flag ← covered !! prev;
      line ← lines !! (prev - 1);
      if (flag : bool) then Some start
      else if bool_decide (trim line = []) || negb (is_leading_doc_line (trim line) language) then Some start
      else absorb_comments budget covered language lines prev
    else Some start
  end.

Definition is_oversized (lines : list str) (start safe_end : nat) : bool :=
  (MAX_STRUCTURAL_CHUNK_LINES <? safe_end - start + 1)
  || (MAX_STRUCTURAL_CHUNK_BYTES
      <? sum_list_with (fun line => blen line + 1) (take (safe_end - (start - 1)) (drop (start - 1) lines))).

Definition class_like (k : ChunkKind) : bool := bool_decide (k = Class) || bool_decide (k = Module).

(** The ranges inside an oversized parent, with their comments. *)
Record Nested := MkNested { n_start : nat; n_definition : nat; n_end : nat }.

Definition is_nested (start safe_end : nat) (r : CapturedRange) : bool :=
  (start <? r_start r) && (r_start r <=? safe_end) && (r_end r <=? safe_end).
Definition nested_of (language : str) (lines : list str) (start : nat) (r : CapturedRange) : option Nested :=
  s ← leading_doc_start (r_start r) language lines;
  Some (MkNested (Nat.max s (start + 1)) (r_start r) (r_end r)).

Definition nested_ranges (language : str) (lines : list str) (ranges : list CapturedRange) (index : nat)
    (kind : ChunkKind) (start safe_end : nat) : option (list Nested) :=
  if is_oversized lines start safe_end && class_like kind then
    mapM (nested_of language lines start)
      (omap (fun ir : nat * CapturedRange =>
               if negb (fst ir =? index) && is_nested start safe_end (snd ir) then Some (snd ir) else None)
         (imap pair ranges))
  else Some [].

Section Range.
Variables (rel_path language : str) (lines : list str) (uncaptured_definitions : option (list ChunkDefinition)).

Definition push (first last : nat) (k : ChunkKind) (context : str) (defs : option (list ChunkDefinition))
  : option (list Chunk) :=
  push_bounded_structural_chunks xxh3_128 rel_path lines first last language k context defs.

(** What the children leave over, after the overview. *)
Fixpoint parent_windows (kind : ChunkKind) (context : str) (safe_end : nat) (nested : list Nested)
    (parent_start : nat) : option (list Chunk) :=
  match nested with
  | [] =>
    if parent_start <=? safe_end then push parent_start safe_end kind context uncaptured_definitions else Some []
  | n :: nested =>
    here ← (if parent_start <? n_start n
            then push parent_start (n_start n - 1) kind context uncaptured_definitions else Some []);
    rest ← parent_windows kind context safe_end nested (Nat.max parent_start (n_end n + 1));
    Some (here ++ rest)
  end.

Definition range_chunks (kind : ChunkKind) (context : str) (defs : option (list ChunkDefinition))
    (start safe_end : nat) (nested : list Nested) : option (list Chunk) :=
  match nested with
  | [] => push start safe_end kind context defs
  | _ =>
    let overview_end := Nat.min (start + MAX_PARENT_OVERVIEW_LINES - 1) safe_end in
    overview ← push start overview_end kind context defs;
    rest ← parent_windows kind context safe_end nested (overview_end + 1);
    Some (overview ++ rest)
  end.

(** One turn of the loop over the ranges. *)
Definition emit_range (ranges : list CapturedRange) (index : nat) (r : CapturedRange)
    (st : list bool * list Chunk) : option (list bool * list Chunk) :=
  let '(covered, chunks) := st in
  if (r_start r =? 0) || (length lines <? r_start r) then Some st
  else
    let safe_end := Nat.min (r_end r) (length lines) in
    if safe_end <? r_start r then Some st
    else
      start ← absorb_comments MAX_LEADING_COMMENT_LINES covered language lines (r_start r);
      let covered := set_flags covered start (safe_end + 1) true in
      nested ← nested_ranges language lines ranges index (r_kind r) start safe_end;
      let covered := foldl (fun f n => set_flags f (n_start n) (n_definition n) false) covered nested in
      context ← lines !! (r_definition_start r - 1);
      emitted ← range_chunks (r_kind r) (trim context) (r_definitions r) start safe_end nested;
      Some (covered, chunks ++ emitted).

Fixpoint emit_ranges (ranges : list CapturedRange) (index : nat) (todo : list CapturedRange)
    (st : list bool * list Chunk) : option (list bool * list Chunk) :=
  match todo with
  | [] => Some st
  | r :: todo => st ← emit_range ranges index r st; emit_ranges ranges (S index) todo st
  end.

(** A run of uncovered, nonblank lines as module chunks. *)
Definition gap_chunks (gap_start gap_end : nat) : option (list Chunk) :=
  line ← lines !! (gap_start - 1);
  push gap_start gap_end Module (trim line) uncaptured_definitions.

(** The scan for runs at line [i], and the run at the end of the file. *)
Fixpoint gap_loop (covered : list bool) (rest : list str) (i : nat) (gap_start : option nat)
  : option (list Chunk) :=
  match rest with
  | [] => match gap_start with Some gs => gap_chunks gs (length lines) | None => Some [] end
  | line :: rest =>
    flag ← covered !! i;
    if negb flag && negb (bool_decide (trim line = [])) then
      gap_loop covered rest (S i) (match gap_start with None => Some i | _ => gap_start end)
    else
      here ← match gap_start with
             | Some gs => if gs <=? i - 1 then gap_chunks gs (i - 1) else Some []
             | None => Some []
             end;
      more ← gap_loop covered rest (S i) None;
      Some (here ++ more)
  end.

(** From sorted ranges to sorted chunks. *)
Definition emit_chunks (ranges : list CapturedRange) : option (list Chunk) :=
  '(covered, chunks) ← emit_ranges ranges 0 ranges (replicate (length lines + 1) false, []);
  gaps ← gap_loop covered lines 1 None;
  Some (sort_by_key start_line (chunks ++ gaps)).
End Range.

(** Only some grammars identify all the declarations that are indexed. *)
Definition uncaptured_definitions_of (language : str) : option (list ChunkDefinition) :=
  if one_of language ["swift"; "objc"] then Some [] else None.

(** The ranges of the parse, [captured], as the loop takes them. *)
Definition structural_ranges (language : str) (captured : list CapturedRange) : list CapturedRange :=
  sort_by_key r_start
    match uncaptured_definitions_of language with
    | Some _ => coalesce_inline_definition_ranges captured
    | None => retain_unique [] captured
    end.

Definition structural_chunks (rel_path language : str) (lines : list str) (captured : list CapturedRange)
  : option (list Chunk) :=
  emit_chunks rel_path language lines (uncaptured_definitions_of language) (structural_ranges language captured).
End Emit.
