(* ===== verification/StructuralChunksFacts.v ===== *)
(** * Chunks from a parse: which source lines are kept, and when some are lost. *)
From S2P Require Import Prelude Utf8 Paths Languages Chunking ChunkingFacts StructuralChunks.

(** ** Flags *)

Lemma set_flags_length covered f t b : length (set_flags covered f t b) = length covered.
Proof. apply length_imap. Qed.
Lemma set_flags_lookup covered f t b i x :
  set_flags covered f t b !! i = Some x <->
  exists y, covered !! i = Some y /\ x = (if (f <=? i) && (i <? t) then b else y).
Proof.
  unfold set_flags. rewrite list_lookup_imap. destruct (covered !! i) as [y|]; cbn; [|naive_solver].
  split; [intros [= <-]; eauto|]. by intros (z & [= ->] & ->).
Qed.
Lemma set_flags_in covered f t b i x :
  f <= i < t -> set_flags covered f t b !! i = Some x -> x = b.
Proof.
  intros Hi (y & _ & ->)%set_flags_lookup.
  rewrite (proj2 (Nat.leb_le _ _)), (proj2 (Nat.ltb_lt _ _)) by lia. done.
Qed.
Lemma set_flags_out covered f t b i :
  ~ f <= i < t -> set_flags covered f t b !! i = covered !! i.
Proof.
  intros Hi. unfold set_flags. rewrite list_lookup_imap. destruct (covered !! i) as [y|]; [|done]. cbn [fmap option_fmap option_map].
  destruct (Nat.leb_spec f i), (Nat.ltb_spec i t); cbn [andb]; solve [done|exfalso; lia].
Qed.

Definition clear (nested : list Nested) (covered : list bool) : list bool :=
  foldl (fun f n => set_flags f (n_start n) (n_definition n) false) covered nested.

Lemma clear_length nested covered : length (clear nested covered) = length covered.
Proof.
  revert covered. induction nested as [|n nested IH]; intros covered; [done|].
  etrans; [apply IH|]. apply set_flags_length.
Qed.
(** A flag that survives was set, and is in no nested declaration's comments. *)
Lemma clear_true nested covered i :
  clear nested covered !! i = Some true ->
  covered !! i = Some true /\ forall n, n ∈ nested -> ~ n_start n <= i < n_definition n.
Proof.
  revert covered. induction nested as [|n nested IH]; intros covered H; [split; [done|by intros n ?%not_elem_of_nil]|].
  apply IH in H as [H Hn]. destruct (decide (n_start n <= i < n_definition n)) as [Hi|Hi].
  - by apply set_flags_in in H.
  - rewrite set_flags_out in H by done. split; [done|]. intros m [->|Hm]%elem_of_cons; auto.
Qed.
(** A flag that is set and then gone was in such comments. *)
Lemma clear_false nested covered i :
  covered !! i = Some true -> clear nested covered !! i <> Some true ->
  exists n, n ∈ nested /\ n_start n <= i < n_definition n.
Proof.
  revert covered. induction nested as [|n nested IH]; intros covered H Hc; [done|].
  destruct (decide (n_start n <= i < n_definition n)) as [Hi|Hi]; [exists n; split; [left|done]|].
  destruct (IH (set_flags covered (n_start n) (n_definition n) false)) as (m & Hm & Hmi).
  - by rewrite set_flags_out.
  - done.
  - exists m. split; [by right|done].
Qed.

(** ** Comments *)

Definition doc_line (language : str) (lines : list str) (j : nat) : Prop :=
  exists l, lines !! (j - 1) = Some l /\ is_leading_doc_line (trim l) language = true.

Lemma absorb_spec covered language lines : forall budget start,
  length covered = length lines + 1 -> 1 <= start <= length lines ->
  exists s, absorb_comments budget covered language lines start = Some s
    /\ 1 <= s <= start
    /\ (forall j, s <= j < start -> doc_line language lines j /\ covered !! j = Some false)
    /\ (0 < budget -> 1 < start -> s = start -> doc_line language lines (start - 1) ->
        covered !! (start - 1) = Some true).
Proof.
  induction budget as [|budget IH]; intros start Hlen Hs; cbn [absorb_comments].
  { exists start. split_and!; [done|lia|lia|lia|lia]. }
  destruct (Nat.ltb_spec 1 start); [|exists start; split_and!; [done|lia|lia|lia|lia]].
  destruct (lookup_lt_is_Some_2 covered (start - 1)) as [flag Hflag]; [lia|].
  destruct (lookup_lt_is_Some_2 lines (start - 1 - 1)) as [line Hline]; [lia|].
  rewrite Hflag, Hline. cbn [mbind option_bind]. destruct flag.
  { exists start. split_and!; [done|lia|lia|lia|done]. }
  destruct (bool_decide (trim line = []) || negb (is_leading_doc_line (trim line) language)) eqn:E.
  { exists start. split_and!; [done|lia|lia|lia|]. intros _ _ _ (l & Hl & Hd). exfalso.
    rewrite Hline in Hl. injection Hl as <-. rewrite Hd in E. cbn [negb] in E. rewrite orb_false_r in E.
    apply bool_decide_eq_true in E. by rewrite E in Hd. }
  apply orb_false_iff in E as [_ Hdoc%negb_false_iff].
  destruct (IH (start - 1) Hlen ltac:(lia)) as (s & Hs' & Hle & Hall & _).
  exists s. split_and!; [done|lia|lia| |lia]. intros j Hj.
  destruct (decide (j = start - 1)) as [->|]; [|apply Hall; lia]. split; [by exists line|done].
Qed.

(** The walk up passes only over comments. *)
Lemma leading_doc_start_docs language lines : forall s,
  1 <= s <= length lines + 1 ->
  exists a, leading_doc_start s language lines = Some a /\ 1 <= a <= s
    /\ forall j, a <= j < s -> doc_line language lines j.
Proof.
  induction s as [|[|n] IH]; intros H; [lia|exists 1; split_and!; [done|lia|lia|lia]|].
  cbn [leading_doc_start]. destruct (lookup_lt_is_Some_2 lines n) as [l Hl]; [lia|]. rewrite Hl. cbn [mbind option_bind].
  destruct (is_leading_doc_line (trim l) language) eqn:Ed; [|exists (S (S n)); split_and!; [done|lia|lia|lia]].
  destruct IH as (a & Ha & Hle & Hall); [lia|]. exists a. split_and!; [done|lia|lia|].
  intros j Hj. destruct (decide (j = S n)) as [->|]; [|apply Hall; lia].
  exists l. by rewrite (Nat.sub_succ n 0), Nat.sub_0_r.
Qed.

(** ** Nested ranges *)

Definition valid_range (lines : list str) (r : CapturedRange) : Prop :=
  1 <= r_start r <= length lines /\ r_start r <= r_end r.

(** What a nested declaration of a parent that covers [start] to [safe_end] is. *)
Definition nested_ok (language : str) (lines : list str) (ranges : list CapturedRange) (index start safe_end : nat)
    (n : Nested) : Prop :=
  exists j N, ranges !! j = Some N /\ j <> index /\ n_definition n = r_start N /\ n_end n = r_end N
    /\ start < r_start N <= safe_end /\ r_end N <= safe_end
    /\ start < n_start n <= r_start N
    /\ forall k, n_start n <= k < r_start N -> doc_line language lines k.

Lemma nested_spec language lines ranges index kind start safe_end :
  safe_end <= length lines -> 1 <= start ->
  exists nested, nested_ranges language lines ranges index kind start safe_end = Some nested
    /\ Forall (nested_ok language lines ranges index start safe_end) nested
    /\ (nested <> [] -> class_like kind = true).
Proof.
  intros Hsafe Hstart. unfold nested_ranges. destruct (is_oversized _ _ _ && class_like kind) eqn:E;
    [|exists []; split_and!; [done|constructor|done]].
  apply andb_true_iff in E as [_ Hk].
  set (inner := omap _ _).
  assert (Forall (fun N => exists j, ranges !! j = Some N /\ j <> index /\ is_nested start safe_end N = true) inner) as Hin.
  { apply Forall_forall. intros N ([j N'] & Hj & HN)%list_elem_of_omap. cbn [fst snd] in HN.
    destruct (negb (j =? index) && is_nested start safe_end N') eqn:E; [|done]. injection HN as ->.
    apply andb_true_iff in E as [E1%negb_true_iff%Nat.eqb_neq E2].
    apply elem_of_lookup_imap in Hj as (i & x & [= -> ->] & Hi). eauto. }
  clearbody inner. induction Hin as [|N inner (j & Hj & Hne & HN) _ IH]; [exists []; split_and!; [done|constructor|done]|].
  destruct IH as (nested & Hm & Hall & _). unfold is_nested in HN. bool_to_prop.
  destruct (leading_doc_start_docs language lines (r_start N)) as (a & Ha & Hle & Hdocs); [lia|].
  exists (MkNested (Nat.max a (start + 1)) (r_start N) (r_end N) :: nested). split_and!; [| |done].
  - assert (nested_of language lines start N = Some (MkNested (Nat.max a (start + 1)) (r_start N) (r_end N))) as Hn
      by (unfold nested_of; by rewrite Ha).
    cbn [mapM]. rewrite Hn. cbn [mbind option_bind]. by rewrite Hm.
  - constructor; [|done]. exists j, N. cbn. split_and!; try done; try lia. intros k Hk'. apply Hdocs. lia.
Qed.

(** ** One range *)

Section Emission.
Context {Digest : Type} (xxh3_128 : list N -> Digest).
Context (rel_path language : str) (lines : list str) (uncaptured : option (list ChunkDefinition)).
Abbreviation Chunk := (Chunk Digest).
Abbreviation ok := (chunk_ok rel_path lines).
Abbreviation push := (push xxh3_128 rel_path language lines).

Lemma covered_line_mono (cs cs' : list Chunk) i : cs ⊆ cs' -> covered_line lines cs i -> covered_line lines cs' i.
Proof. intros Hs Hc l Hl Ht. destruct (Hc l Hl Ht) as (c & Hin & Hi). eauto. Qed.

(** What a step emits: chunks in order and the lines they keep. *)
Definition emits (o : option (list Chunk)) (kept : nat -> Prop) : Prop :=
  exists cs, o = Some cs /\ Forall ok cs /\ forall i, kept i -> covered_line lines cs i.

Lemma push_emits first last k line defs :
  1 <= first -> last <= length lines -> line ∈ lines ->
  emits (if first <=? last then push first last k (trim line) defs else Some []) (fun i => first <= i <= last).
Proof.
  intros H1 H2 H3. destruct (Nat.leb_spec first last).
  - by apply segment_chunks.
  - exists []. split_and!; [done|constructor|lia].
Qed.

Lemma emits_app a b (ka kb : nat -> Prop) :
  emits a ka -> emits b kb ->
  emits (here ← a; rest ← b; Some (here ++ rest)) (fun i => ka i \/ kb i).
Proof.
  intros (cs & -> & Hok & Hc) (cs' & -> & Hok' & Hc'). exists (cs ++ cs'). split_and!; [done|by apply Forall_app|].
  intros i [Hi|Hi].
  - eapply covered_line_mono; [|by apply Hc]. intros c Hin. apply elem_of_app. by left.
  - eapply covered_line_mono; [|by apply Hc']. intros c Hin. apply elem_of_app. by right.
Qed.
Lemma emits_weaken a (k k' : nat -> Prop) : emits a k -> (forall i, k' i -> k i) -> emits a k'.
Proof. intros (cs & -> & Hok & Hc) Hk. exists cs. split_and!; auto. Qed.

Definition in_hole (nested : list Nested) (i : nat) : Prop :=
  exists n, n ∈ nested /\ n_start n <= i <= n_end n.

Lemma parent_windows_spec kind line safe_end nested : forall parent_start,
  safe_end <= length lines -> line ∈ lines -> 1 <= parent_start ->
  Forall (fun n => n_start n <= safe_end) nested ->
  emits (parent_windows xxh3_128 rel_path language lines uncaptured kind (trim line) safe_end nested parent_start)
    (fun i => parent_start <= i <= safe_end /\ ~ in_hole nested i).
Proof.
  induction nested as [|n nested IH]; intros ps Hsafe Hline Hps Hall; cbn [parent_windows].
  - eapply emits_weaken; [by apply push_emits|]. cbn. tauto.
  - apply Forall_cons in Hall as [Hn Hall].
    eapply emits_weaken.
    + apply (emits_app _ _ (fun i => ps <= i <= n_start n - 1)); [|by apply IH; [done|done|lia|done]].
      destruct (Nat.ltb_spec ps (n_start n)).
      * pose proof (push_emits ps (n_start n - 1) kind line uncaptured Hps ltac:(lia) Hline) as H1.
        by rewrite (proj2 (Nat.leb_le _ _)) in H1 by lia.
      * exists []. split_and!; [done|constructor|lia].
    + cbn beta. intros i [Hi Hh]. destruct (decide (n_start n <= i <= n_end n)) as [Hin|Hin].
      { exfalso. apply Hh. exists n. split; [left|done]. }
      destruct (decide (i < n_start n)); [left; lia|right]. split; [lia|].
      intros (m & Hm & Hi'). apply Hh. exists m. split; [by right|done].
Qed.

Lemma range_chunks_spec kind line defs start safe_end nested :
  1 <= start <= safe_end -> safe_end <= length lines -> line ∈ lines ->
  Forall (fun n => n_start n <= safe_end) nested ->
  emits (range_chunks xxh3_128 rel_path language lines uncaptured kind (trim line) defs start safe_end nested)
    (fun i => start <= i <= safe_end /\ ~ in_hole nested i).
Proof.
  intros H1 H2 Hline Hall. unfold range_chunks. destruct nested as [|n nested].
  - pose proof (push_emits start safe_end kind line defs ltac:(lia) H2 Hline) as H.
    rewrite (proj2 (Nat.leb_le _ _)) in H by lia. eapply emits_weaken; [exact H|]. cbn. tauto.
  - cbv zeta. set (overview_end := Nat.min (start + MAX_PARENT_OVERVIEW_LINES - 1) safe_end).
    assert (start <= overview_end <= safe_end) as Ho by (unfold overview_end, MAX_PARENT_OVERVIEW_LINES; lia).
    clearbody overview_end. eapply emits_weaken.
    + apply (emits_app _ _ (fun i => start <= i <= overview_end)); [|by apply parent_windows_spec; [done|done|lia|done]].
      pose proof (push_emits start overview_end kind line defs ltac:(lia) ltac:(lia) Hline) as H.
      by rewrite (proj2 (Nat.leb_le _ _)) in H by lia.
    + cbn beta. intros i [Hi Hh]. destruct (decide (i <= overview_end)); [left; lia|right; split; [lia|done]].
Qed.

Lemma drop_lookup {A} (l : list A) k x rest : drop k l = x :: rest -> l !! k = Some x.
Proof. intros H. pose proof (lookup_drop l k 0) as E. rewrite H, Nat.add_0_r in E. symmetry. exact E. Qed.

(** ** All ranges *)

Context (ranges : list CapturedRange).

Definition on_lines (r : CapturedRange) : Prop := 1 <= r_start r <= length lines.

(** The ranges of a parse: sorted; definition lines exist; between the first lines
    of two ranges there is a line that is no leading comment, such as the line that
    names the first; two classes or modules do not begin on the same line. *)
Definition definitions_exist : Prop :=
  forall r, r ∈ ranges -> valid_range lines r -> r_definition_start r <= length lines.
Definition starts_separated : Prop :=
  forall N R, N ∈ ranges -> R ∈ ranges -> on_lines N -> on_lines R -> r_start N < r_start R ->
  exists j, r_start N <= j < r_start R /\ ~ doc_line language lines j.
Definition parents_separated : Prop :=
  forall i j N R, ranges !! i = Some N -> ranges !! j = Some R -> i <> j ->
  class_like (r_kind N) = true -> class_like (r_kind R) = true -> r_start N <> r_start R.
Definition in_order : Prop :=
  forall i j N R, ranges !! i = Some N -> ranges !! j = Some R -> i <= j -> r_start N <= r_start R.

Record emission_inv (k : nat) (st : list bool * list Chunk) : Prop := MkEmission {
  em_length : length (fst st) = length lines + 1;
  em_ok : Forall ok (snd st);
  em_kept : forall i, fst st !! i = Some true ->
    covered_line lines (snd st) i
    \/ exists j N, k <= j /\ ranges !! j = Some N /\ valid_range lines N /\ r_start N <= i <= r_end N;
  em_docs : forall j N, j < k -> ranges !! j = Some N -> valid_range lines N -> 1 < r_start N ->
    doc_line language lines (r_start N - 1) ->
    fst st !! (r_start N - 1) = Some true
    \/ exists q Q, q < k /\ ranges !! q = Some Q /\ class_like (r_kind Q) = true /\ r_start Q = r_start N
}.

Context (Hdefs : definitions_exist) (Hsep : starts_separated) (Hparents : parents_separated) (Hsorted : in_order).

Lemma no_docs_between N R :
  N ∈ ranges -> R ∈ ranges -> on_lines N -> on_lines R ->
  (forall j, r_start N <= j < r_start R -> doc_line language lines j) -> r_start R <= r_start N.
Proof.
  intros HN HR H1 H2 Hd. destruct (decide (r_start N < r_start R)) as [Hlt|]; [|lia].
  destruct (Hsep N R HN HR H1 H2 Hlt) as (j & Hj & Hn). destruct (Hn (Hd j Hj)).
Qed.

(** The range at [k], which begins at [s] with its comments. *)
Section Step.
Context (k s : nat) (r : CapturedRange) (nested : list Nested) (covered : list bool) (chunks emitted : list Chunk).
Let safe_end := Nat.min (r_end r) (length lines).
Let covered' := clear nested (set_flags covered s (safe_end + 1) true).
Context (Hk : ranges !! k = Some r) (Hvalid : valid_range lines r).
Context (Hinv : emission_inv k (covered, chunks)).
Context (Hs : 1 <= s <= r_start r).
Context (Habsorbed : forall j, s <= j < r_start r -> doc_line language lines j /\ covered !! j = Some false).
Context (Hstopped : 1 < r_start r -> s = r_start r -> doc_line language lines (r_start r - 1) ->
  covered !! (r_start r - 1) = Some true).
Context (Hnested : Forall (nested_ok language lines ranges k s safe_end) nested).
Context (Hclass : nested <> [] -> class_like (r_kind r) = true).
Context (Hemit_ok : Forall ok emitted).
Context (Hemit : forall i, s <= i <= safe_end /\ ~ in_hole nested i -> covered_line lines emitted i).

Lemma range_in : r ∈ ranges.
Proof. by eapply list_elem_of_lookup_2. Qed.
Lemma range_on_lines : on_lines r.
Proof. apply Hvalid. Qed.

Lemma nested_elem n : n ∈ nested -> nested_ok language lines ranges k s safe_end n.
Proof. by apply Forall_forall. Qed.

(** A nested declaration that was emitted before its parent begins with it, and the
    parent has absorbed the comment line above both. *)
Lemma earlier_nested j N :
  j < k -> ranges !! j = Some N -> s < r_start N -> r_start N = r_start r /\ s < r_start r.
Proof.
  intros Hj HN Hlt. pose proof (Hsorted j k N r HN Hk ltac:(lia)) as Hle.
  assert (r_start r <= r_start N); [|lia].
  apply no_docs_between; [by eapply list_elem_of_lookup_2|apply range_in|destruct Hvalid; unfold on_lines; lia|apply range_on_lines|].
  intros i Hi. apply Habsorbed. lia.
Qed.

Lemma nested_is_later n :
  n ∈ nested -> n_definition n <= n_end n ->
  exists j N, k < j /\ ranges !! j = Some N /\ valid_range lines N
    /\ r_start N = n_definition n /\ r_end N = n_end n.
Proof.
  intros Hn Hle. destruct (nested_elem n Hn) as (j & N & HN & Hne & Ed & Ee & Hst & Hen & _).
  exists j, N. assert (valid_range lines N) as HvN by (unfold valid_range; lia).
  split_and!; [|done|done|done|done]. destruct (decide (j < k)) as [Hlt|]; [exfalso|lia].
  destruct (earlier_nested j N Hlt HN ltac:(lia)) as [Eq Hsr].
  assert (class_like (r_kind r) = true) as Hc by (apply Hclass; intros ->; by apply not_elem_of_nil in Hn).
  destruct (Habsorbed (r_start r - 1) ltac:(lia)) as [Hdoc Hfalse].
  rewrite <- Eq in Hdoc, Hfalse.
  destruct (em_docs _ _ Hinv j N Hlt HN HvN ltac:(lia) Hdoc) as [Htrue|(q & Q & Hq & HQ & HcQ & EQ)].
  - cbn in Htrue. congruence.
  - apply (Hparents q k Q r HQ Hk ltac:(lia) HcQ Hc). lia.
Qed.

Lemma step_kept i :
  covered' !! i = Some true ->
  covered_line lines (chunks ++ emitted) i
  \/ exists j N, S k <= j /\ ranges !! j = Some N /\ valid_range lines N /\ r_start N <= i <= r_end N.
Proof.
  intros [Hset Hnot]%clear_true. destruct (decide (s <= i < safe_end + 1)) as [Hi|Hi].
  - destruct (decide (Exists (fun n => n_definition n <= i <= n_end n) nested)) as [(n & Hn & Hin)%Exists_exists|Hno].
    + right. destruct (nested_is_later n Hn ltac:(lia)) as (j & N & Hj & HN & HvN & Es & Ee).
      exists j, N. split_and!; [lia|done|done|lia|lia].
    + left. eapply covered_line_mono; [|apply Hemit; split; [lia|]].
      { intros c Hc. apply elem_of_app. by right. }
      intros (n & Hn & Hin). apply Hno, Exists_exists. exists n. split; [done|]. specialize (Hnot n Hn). lia.
  - rewrite set_flags_out in Hset by done. destruct (em_kept _ _ Hinv i Hset) as [Hc|(j & N & Hj & HN & HvN & Hin)].
    + left. eapply covered_line_mono; [|exact Hc]. intros c Hin. apply elem_of_app. by left.
    + right. exists j, N. split_and!; try done; try lia. destruct (decide (j = k)) as [->|]; [exfalso|lia].
      rewrite Hk in HN. injection HN as <-. unfold safe_end, valid_range in *.
      assert (i < length covered) as Hlen by (by eapply lookup_lt_Some).
      pose proof (em_length _ _ Hinv) as Hl. cbn in Hl. lia.
Qed.

Lemma step_docs j N :
  j < S k -> ranges !! j = Some N -> valid_range lines N -> 1 < r_start N ->
  doc_line language lines (r_start N - 1) ->
  covered' !! (r_start N - 1) = Some true
  \/ exists q Q, q < S k /\ ranges !! q = Some Q /\ class_like (r_kind Q) = true /\ r_start Q = r_start N.
Proof.
  intros Hj HN HvN H1 Hdoc. set (p := r_start N - 1) in *.
  assert (set_flags covered s (safe_end + 1) true !! p = Some true
          \/ exists q Q, q < S k /\ ranges !! q = Some Q /\ class_like (r_kind Q) = true /\ r_start Q = r_start N)
    as [Hset|H]; [| |by right].
  { destruct (decide (s <= p < safe_end + 1)) as [Hp|Hp].
    - left. pose proof (em_length _ _ Hinv) as Hl. cbn in Hl. unfold valid_range in HvN.
      destruct (lookup_lt_is_Some_2 (set_flags covered s (safe_end + 1) true) p) as [x Hx];
        [rewrite set_flags_length; unfold p; lia|].
      rewrite Hx. f_equal. by eapply set_flags_in.
    - rewrite set_flags_out by done. destruct (decide (j = k)) as [->|Hne].
      + rewrite Hk in HN. injection HN as <-. left. apply Hstopped; try done.
        unfold p, safe_end, valid_range in *. lia.
      + destruct (em_docs _ _ Hinv j N ltac:(lia) HN HvN H1 Hdoc) as [H|(q & Q & Hq & HQ & Hc & E)];
          [by left|right; exists q, Q; split_and!; try done; lia]. }
  destruct (decide (covered' !! p = Some true)) as [|Hfalse]; [by left|right].
  destruct (clear_false nested _ p Hset Hfalse) as (n & Hn & Hp).
  destruct (nested_elem n Hn) as (j' & M & HM & _ & Ed & _ & HMs & _ & Hns & Hdocs).
  assert (r_start M <= r_start N) as HMN.
  { apply no_docs_between; [by eapply list_elem_of_lookup_2|by eapply list_elem_of_lookup_2|apply HvN
      |unfold on_lines, safe_end in *; lia|].
    intros i Hi. apply Hdocs. unfold p in Hp. lia. }
  assert (r_start r <= r_start N) as HrN.
  { apply no_docs_between; [by eapply list_elem_of_lookup_2|apply range_in|apply HvN|apply range_on_lines|].
    intros i Hi. apply Habsorbed. unfold p in Hp. lia. }
  exists k, r. split_and!; [lia|done| |].
  - apply Hclass. intros ->. by apply not_elem_of_nil in Hn.
  - pose proof (Hsorted j k N r HN Hk ltac:(lia)). lia.
Qed.
End Step.

Lemma emit_range_spec k r st :
  ranges !! k = Some r -> emission_inv k st ->
  exists st', emit_range xxh3_128 rel_path language lines uncaptured ranges k r st = Some st'
    /\ emission_inv (S k) st'.
Proof.
  intros Hk Hinv. destruct st as [covered chunks].
  destruct (decide (valid_range lines r)) as [Hvalid|Hinvalid].
  - unfold emit_range. pose proof Hvalid as [Hon Hend].
    rewrite (proj2 (Nat.eqb_neq _ _)), (proj2 (Nat.ltb_ge _ _)), (proj2 (Nat.ltb_ge _ _)) by lia. cbn [orb].
    pose proof (em_length _ _ Hinv) as Hlen. cbn in Hlen.
    destruct (absorb_spec covered language lines MAX_LEADING_COMMENT_LINES (r_start r) Hlen Hon)
      as (s & Es & Hs & Habs & Hstop).
    rewrite Es. cbn [mbind option_bind].
    destruct (nested_spec language lines ranges k (r_kind r) s (Nat.min (r_end r) (length lines)))
      as (nested & En & Hnested & Hclass); [lia|lia|].
    rewrite En. cbn [mbind option_bind].
    destruct (lookup_lt_is_Some_2 lines (r_definition_start r - 1)) as [line Hline].
    { pose proof (Hdefs r ltac:(by eapply list_elem_of_lookup_2) Hvalid). lia. }
    rewrite Hline. cbn [mbind option_bind].
    destruct (range_chunks_spec (r_kind r) line (r_definitions r) s (Nat.min (r_end r) (length lines)) nested)
      as (emitted & Ee & Hok & Hcov); [lia|lia|by eapply list_elem_of_lookup_2| |].
    { eapply Forall_impl; [exact Hnested|]. intros n (j & N & _ & _ & _ & _ & ? & _ & ? & _). lia. }
    rewrite Ee. eexists. split; [done|]. fold (clear nested (set_flags covered s (Nat.min (r_end r) (length lines) + 1) true)).
    specialize (Hstop ltac:(unfold MAX_LEADING_COMMENT_LINES; lia)). split; cbn [fst snd].
    + by rewrite clear_length, set_flags_length.
    + apply Forall_app. split; [exact (em_ok _ _ Hinv)|done].
    + by apply (step_kept k s r nested covered chunks emitted).
    + by eapply (step_docs k s r nested covered chunks).
  - exists (covered, chunks). split.
    + unfold emit_range. destruct (Nat.eqb_spec (r_start r) 0); [done|].
      destruct (Nat.ltb_spec (length lines) (r_start r)); [done|]. cbn [orb].
      destruct (Nat.ltb_spec (Nat.min (r_end r) (length lines)) (r_start r)); [done|].
      exfalso. apply Hinvalid. unfold valid_range. lia.
    + destruct Hinv as [H1 H2 H3 H4]. split; cbn [fst snd] in *; try done.
      * intros i Hi. destruct (H3 i Hi) as [H|(j & N & Hj & HN & HvN & Hin)]; [by left|right].
        exists j, N. split_and!; try done; try lia. destruct (decide (j = k)) as [->|]; [|lia]. congruence.
      * intros j N Hj HN HvN Hlt Hdoc. destruct (decide (j = k)) as [->|]; [congruence|].
        destruct (H4 j N ltac:(lia) HN HvN Hlt Hdoc) as [H|(q & Q & Hq & ?)]; [by left|right]. exists q, Q. split; [lia|done].
Qed.

Lemma emit_ranges_spec todo : forall k st,
  drop k ranges = todo -> emission_inv k st ->
  exists st', emit_ranges xxh3_128 rel_path language lines uncaptured ranges k todo st = Some st'
    /\ emission_inv (length ranges) st'.
Proof.
  induction todo as [|r todo IH]; intros k st Hd Hinv.
  - exists st. split; [done|]. apply (f_equal length) in Hd. rewrite length_drop in Hd. cbn in Hd.
    destruct Hinv as [H1 H2 H3 H4]. split; try done.
    + intros i Hi. destruct (H3 i Hi) as [H|(j & N & Hj & HN & _)]; [by left|].
      apply lookup_lt_Some in HN. lia.
    + intros j N Hj HN HvN Hlt Hdoc. destruct (H4 j N ltac:(lia) HN HvN Hlt Hdoc) as [H|(q & Q & Hq & HQ & ?)]; [by left|right].
      exists q, Q. split; [by eapply lookup_lt_Some|done].
  - assert (ranges !! k = Some r) as Hk.
    { apply drop_lookup in Hd. exact Hd. }
    destruct (emit_range_spec k r st Hk Hinv) as (st' & E & Hinv'). cbn [emit_ranges]. rewrite E. cbn [mbind option_bind].
    apply IH; [|done]. rewrite (drop_S _ _ _ Hk) in Hd. by injection Hd.
Qed.

Lemma initial_emission : emission_inv 0 (replicate (length lines + 1) false, []).
Proof.
  split; cbn [fst snd].
  - apply length_replicate.
  - constructor.
  - intros i Hi. by apply lookup_replicate in Hi as [? _].
  - lia.
Qed.

(** ** Gaps *)

Lemma gap_chunks_emits gs ge :
  1 <= gs <= ge -> ge <= length lines ->
  emits (gap_chunks xxh3_128 rel_path language lines uncaptured gs ge) (fun i => gs <= i <= ge).
Proof.
  intros H1 H2. unfold gap_chunks. destruct (lookup_lt_is_Some_2 lines (gs - 1)) as [line Hl]; [lia|]. rewrite Hl.
  pose proof (push_emits gs ge Module line uncaptured ltac:(lia) H2 ltac:(by eapply list_elem_of_lookup_2)) as H.
  by rewrite (proj2 (Nat.leb_le _ _)) in H by lia.
Qed.

Definition open_gap (gap_start : option nat) (i j : nat) : Prop :=
  match gap_start with Some gs => gs <= j < i | None => False end.
Definition uncovered_line (covered : list bool) (j : nat) : Prop :=
  covered !! j = Some false /\ exists l, lines !! (j - 1) = Some l /\ trim l <> [].

(** The run that ends before line [i], when there is one. *)
Lemma open_gap_emits i gap_start :
  i <= length lines + 1 -> match gap_start with Some gs => 1 <= gs < i | None => True end ->
  emits match gap_start with
        | Some gs => if gs <=? i - 1 then gap_chunks xxh3_128 rel_path language lines uncaptured gs (i - 1) else Some []
        | None => Some []
        end (open_gap gap_start i).
Proof.
  intros Hle Hg. destruct gap_start as [gs|]; [|exists []; split_and!; [done|constructor|done]].
  rewrite (proj2 (Nat.leb_le _ _)) by lia. eapply emits_weaken; [apply gap_chunks_emits; lia|]. unfold open_gap. lia.
Qed.

Lemma gap_loop_spec covered rest : forall i gap_start,
  length covered = length lines + 1 -> 1 <= i <= length lines + 1 -> drop (i - 1) lines = rest ->
  match gap_start with Some gs => 1 <= gs < i | None => True end ->
  emits (gap_loop xxh3_128 rel_path language lines uncaptured covered rest i gap_start)
    (fun j => open_gap gap_start i j \/ (i <= j /\ uncovered_line covered j)).
Proof.
  induction rest as [|line rest IH]; intros i gap_start Hlen Hi Hd Hg; cbn [gap_loop].
  - assert (length lines <= i - 1) as Hle.
    { apply (f_equal length) in Hd. rewrite length_drop in Hd. cbn [length] in Hd. lia. }
    apply (emits_weaken _ (open_gap gap_start i)).
    + pose proof (open_gap_emits i gap_start ltac:(lia) Hg) as H. destruct gap_start as [gs|]; [|exact H].
      replace (i - 1) with (length lines) in H by lia. by rewrite (proj2 (Nat.leb_le _ _)) in H by lia.
    + intros j [H|(Hj & _ & l & Hl%lookup_lt_Some & _)]; [exact H|lia].
  - assert (lines !! (i - 1) = Some line) as Hline.
    { apply drop_lookup in Hd. exact Hd. }
    pose proof (lookup_lt_Some _ _ _ Hline) as Hlt.
    assert (drop (S i - 1) lines = rest) as Hd'.
    { rewrite (drop_S _ _ _ Hline) in Hd. replace (S i - 1) with (S (i - 1)) by lia. by injection Hd. }
    destruct (lookup_lt_is_Some_2 covered i) as [flag Hflag]; [lia|]. rewrite Hflag. cbn [mbind option_bind].
    destruct (negb flag && negb (bool_decide (trim line = []))) eqn:E.
    + eapply emits_weaken; [apply IH; [done|lia|done|destruct gap_start; lia]|].
      intros j. unfold open_gap. destruct gap_start as [gs|]; destruct (decide (j = i)) as [->|]; intuition lia.
    + eapply emits_weaken; [apply emits_app; [apply open_gap_emits; [lia|done]|apply IH; [done|lia|done|done]]|].
      cbn beta. intros j [H|[Hj Hu]]; [by left|right; right]. split; [|done].
      destruct (decide (j = i)) as [->|]; [exfalso|lia]. destruct Hu as (Hf & l & Hl & Ht).
      rewrite Hflag in Hf. injection Hf as ->. rewrite Hline in Hl. injection Hl as ->.
      cbn [negb andb] in E. by rewrite bool_decide_false in E.
Qed.

(** ** The whole second half *)

Lemma trim_empty_trivial line : trim line = [] -> is_trivial_line line = true.
Proof. unfold is_trivial_line. intros ->. done. Qed.

Lemma emit_chunks_spec :
  emits (emit_chunks xxh3_128 rel_path language lines uncaptured ranges) (fun i => 1 <= i <= length lines).
Proof.
  destruct (emit_ranges_spec ranges 0 _ eq_refl initial_emission) as ([covered chunks] & E & Hinv).
  destruct (gap_loop_spec covered lines 1 None (em_length _ _ Hinv) ltac:(lia) eq_refl I) as (gaps & Eg & Hok & Hc).
  unfold emit_chunks. rewrite E. cbn [mbind option_bind]. rewrite Eg. cbn [mbind option_bind].
  eexists. split; [done|]. split.
  - unfold sort_by_key. rewrite sort_by_perm. apply Forall_app. split; [exact (em_ok _ _ Hinv)|done].
  - intros i Hi l Hl Ht.
    assert (exists c, c ∈ chunks ++ gaps /\ start_line c <= i <= end_line c) as (c & Hin & Hci).
    { destruct (lookup_lt_is_Some_2 covered i) as [[|] Hflag]; [pose proof (em_length _ _ Hinv) as Hlen; cbn [fst] in Hlen; lia| |].
      - destruct (em_kept _ _ Hinv i Hflag) as [H|(j & N & Hj & HN%lookup_lt_Some & _)]; [|lia].
        destruct (H l Hl Ht) as (c & Hin & Hci). exists c. split; [apply elem_of_app; by left|done].
      - destruct (Hc i) with (line := l) as (c & Hin & Hci);
          [right; split; [lia|split; [done|exists l; split; [done|by intros E'%trim_empty_trivial; congruence]]]|done..|].
        exists c. split; [apply elem_of_app; by right|done]. }
    exists c. split; [|done]. unfold sort_by_key. by rewrite sort_by_perm.
Qed.
End Emission.

Lemma sort_by_key_sorted {A} (key : A -> nat) l : StronglySorted (fun a b => key a <= key b) (sort_by_key key l).
Proof.
  eapply StronglySorted_impl; [|apply sort_by_sorted].
  - cbn. intros a b H%Nat.leb_le. exact H.
  - intros a b. rewrite !Nat.leb_le. lia.
  - intros a b c. rewrite !Nat.leb_le. lia.
Qed.

Lemma structural_ranges_in_order language captured : in_order (structural_ranges language captured).
Proof.
  intros i j N R HN HR Hij. unfold structural_ranges in *.
  pose proof (sort_by_key_sorted r_start
    match uncaptured_definitions_of language with
    | Some _ => coalesce_inline_definition_ranges captured | None => retain_unique [] captured end) as Hs.
  destruct (decide (i = j)) as [->|Hne]; [rewrite HN in HR; injection HR as ->; lia|].
  assert (i < j) as Hlt by lia.
  exact (sorted_lookup _ _ i j N R Hs HN HR Hlt).
Qed.

(** C34. Chunks from a parse lose no source line: when the lines that name the
    definitions exist, no two declarations begin with only comments between them and
    no two classes or modules begin on one line, the second half of the parser-based
    chunker never goes out of bounds, every chunk shows exactly the lines of its
    span, the chunks come in the order of their first lines, and every line, inside
    an oversized class, between its members and in no declaration at all, is in some
    chunk, lone brackets and blank lines excepted. *)
Theorem structural_chunks_cover {Digest} (xxh3_128 : list N -> Digest) rel_path language lines captured :
  let ranges := structural_ranges language captured in
  definitions_exist lines ranges -> starts_separated language lines ranges -> parents_separated ranges ->
  exists cs, structural_chunks xxh3_128 rel_path language lines captured = Some cs
    /\ Forall (chunk_ok rel_path lines) cs
    /\ StronglySorted (fun a b => start_line a <= start_line b) cs
    /\ forall i, 1 <= i <= length lines -> covered_line lines cs i.
Proof.
  intros ranges H1 H2 H3.
  destruct (emit_chunks_spec xxh3_128 rel_path language lines (uncaptured_definitions_of language) ranges H1 H2 H3
              (structural_ranges_in_order language captured)) as (cs & E & Hok & Hc).
  exists cs. split_and!; try done. unfold emit_chunks in E.
  destruct (emit_ranges _ _ _ _ _ _ _ _ _) as [[covered chunks]|]; [|done]. cbn [mbind option_bind] in E.
  destruct (gap_loop _ _ _ _ _ _ _ _ _) as [gaps|]; [|done]. cbn [mbind option_bind] in E.
  injection E as <-. apply sort_by_key_sorted.
Qed.

(** ** Two classes inside each other *)

Definition java_lines (n : nat) : list str :=
  [lit "// a"; lit "// b"; lit "@A class X {"; lit "@B class Y {"] ++ replicate n (lit "x();") ++ [lit "}}"].
Definition java_classes (n : nat) : list CapturedRange :=
  [MkRange 3 (n + 5) Class (Some [MkDefinition (lit "X") None]) 3;
   MkRange 4 (n + 5) Class (Some [MkDefinition (lit "Y") None]) 4].

(** The hypothesis on first lines is needed: a line such as [@A class X {] names
    a class and passes for a leading comment.  Each of the oversized classes X and
    Y, which end on one line, then absorbs the comments up to the other, counts as
    nested in it, and leaves its body to it: line 60 of the file is in no chunk,
    though the lines that name the classes exist and are different. *)
Theorem annotated_classes_lose_lines :
  exists cs,
    structural_chunks (fun _ => tt) (lit "a.java") (lit "java") (java_lines 136) (java_classes 136) = Some cs
    /\ parents_separated (structural_ranges (lit "java") (java_classes 136))
    /\ java_lines 136 !! 59 = Some (lit "x();")
    /\ ~ covered_line (java_lines 136) cs 60.
Proof.
  eexists. split; [vm_compute; reflexivity|]. split_and!.
  - intros i j N R HN HR Hne _ _.
    destruct i as [|[|i]], j as [|[|j]]; try done; vm_compute in HN, HR; try done; injection HN as <-; injection HR as <-; cbn; lia.
  - reflexivity.
  - intros H. destruct (H (lit "x();") eq_refl eq_refl) as (c & Hc & Hin). cbn [Nat.sub] in *.
    repeat (apply elem_of_cons in Hc as [->|Hc]; [cbn in Hin; lia|]). by apply not_elem_of_nil in Hc.
Qed.

Lemma structural_chunks_cover_witness :
  exists cs,
    structural_chunks (fun _ => tt) (lit "a.java") (lit "java")
      [lit "// a"; lit "class X {"; lit "@B void f() {}"; lit "}"; lit "// end"]
      [MkRange 3 3 Function None 3; MkRange 2 4 Class None 2] = Some cs
    /\ Forall (chunk_ok (lit "a.java") [lit "// a"; lit "class X {"; lit "@B void f() {}"; lit "}"; lit "// end"]) cs.
Proof.
  destruct (structural_chunks_cover (fun _ => tt) (lit "a.java") (lit "java")
      [lit "// a"; lit "class X {"; lit "@B void f() {}"; lit "}"; lit "// end"]
      [MkRange 3 3 Function None 3; MkRange 2 4 Class None 2]) as (cs & E & Hok & _).
  - intros r Hr _. vm_compute in Hr. repeat (apply elem_of_cons in Hr as [->|Hr]; [apply Nat.leb_le; reflexivity|]).
    by apply not_elem_of_nil in Hr.
  - intros N R HN HR _ _ Hlt. vm_compute in HN, HR.
    repeat (apply elem_of_cons in HN as [->|HN]); repeat (apply elem_of_cons in HR as [->|HR]);
      try (by apply not_elem_of_nil in HN); try (by apply not_elem_of_nil in HR); cbn in Hlt; try lia.
    exists 2. split; [cbn; lia|]. intros (l & [= <-] & Hd). vm_compute in Hd. done.
  - intros i j N R HN HR Hne _ _.
    destruct i as [|[|i]], j as [|[|j]]; try done; vm_compute in HN, HR; try done; injection HN as <-; injection HR as <-; cbn; lia.
  - exists cs. split; [exact E|exact Hok].
Defined.
