(* ===== verification/CoalesceFacts.v ===== *)
(** * Equal ranges: declarations that share their lines share a chunk, and none is lost. *)
From S2P Require Import Prelude Utf8 Paths Languages Chunking StructuralChunks.

Definition symbol_key (d : ChunkDefinition) : str := ascii_lower (def_name d).
Abbreviation keys := (fmap symbol_key).

(** The map of a merged range is its definitions by key. *)
Definition names_ok (ds : list ChunkDefinition) (names : gmap str ChunkDefinition) : Prop :=
  NoDup (keys ds) /\ forall k d, names !! k = Some d <-> d ∈ ds /\ k = symbol_key d.

Definition range_keys_unique (r : CapturedRange) : Prop :=
  match r_definitions r with Some ds => NoDup (keys ds) | None => True end.

Lemma names_ok_snoc ds names d :
  names_ok ds names -> symbol_key d ∉ keys ds -> names_ok (ds ++ [d]) (<[symbol_key d := d]> names).
Proof.
  intros [Hnd Hn] Hd. split.
  - rewrite fmap_app. apply NoDup_app. split_and!; [done| |apply NoDup_singleton].
    intros x Hx ->%list_elem_of_singleton. done.
  - intros k e. rewrite elem_of_app, list_elem_of_singleton. destruct (decide (k = symbol_key d)) as [->|Hk].
    + rewrite lookup_insert_eq. split; [intros [= ->]; auto|].
      intros [[He| ->] E]; [|done]. destruct Hd. rewrite E. by apply list_elem_of_fmap_2.
    + rewrite lookup_insert_ne by done. rewrite Hn. naive_solver.
Qed.

Lemma names_of_ok : forall ds' ds names,
  names_ok ds names -> NoDup (keys (ds ++ ds')) ->
  names_ok (ds ++ ds') (foldl (fun m d => <[ascii_lower (def_name d) := d]> m) names ds').
Proof.
  induction ds' as [|d ds' IH]; intros ds names Hok Hnd; cbn [foldl]; [by rewrite app_nil_r|].
  replace (ds ++ d :: ds') with ((ds ++ [d]) ++ ds') in * by (by rewrite <- app_assoc).
  apply IH; [|done]. apply names_ok_snoc; [done|]. rewrite fmap_app in Hnd. apply NoDup_app in Hnd as (Hnd & _ & _).
  rewrite fmap_app in Hnd. apply NoDup_app in Hnd as (_ & Hd & _).
  intros Hin. apply (Hd _ Hin). apply list_elem_of_singleton. done.
Qed.

(** A definition that can be merged is new or already there. *)
Definition mergeable (names : gmap str ChunkDefinition) (d : ChunkDefinition) : Prop :=
  names !! symbol_key d = None \/ names !! symbol_key d = Some d.

Lemma add_definitions : forall incoming ds names,
  names_ok ds names -> NoDup (keys incoming) -> (forall d, d ∈ incoming -> mergeable names d) ->
  exists ds' names', foldl add_definition (ds, names) incoming = (ds', names') /\ names_ok ds' names'
    /\ ds ⊆ ds' /\ incoming ⊆ ds' /\ ds' ⊆ ds ++ incoming.
Proof.
  induction incoming as [|d incoming IH]; intros ds names Hok Hnd Hm; cbn [foldl].
  { exists ds, names. rewrite app_nil_r. split_and!; try done. intros d ?%not_elem_of_nil. done. }
  rewrite fmap_cons in Hnd. apply NoDup_cons in Hnd as [Hd Hnd]. unfold add_definition at 2.
  fold (symbol_key d).
  assert (forall e, e ∈ incoming -> symbol_key e <> symbol_key d) as Hne
    by (intros e He E; apply Hd; rewrite <- E; by apply list_elem_of_fmap_2).
  destruct (Hm d ltac:(left)) as [Hnone|Hsome].
  - rewrite Hnone.
    destruct (IH (ds ++ [d]) (<[symbol_key d := d]> names)) as (ds' & names' & E & Hok' & H1 & H2 & H3).
    + apply names_ok_snoc; [done|]. intros (e & Ek & He)%list_elem_of_fmap.
      destruct Hok as [_ Hok]. assert (names !! symbol_key d = Some e) by (by apply Hok). congruence.
    + done.
    + intros e He. unfold mergeable. rewrite lookup_insert_ne by (apply not_eq_sym; auto). apply Hm. by right.
    + exists ds', names'. split_and!; try done; set_solver.
  - rewrite Hsome. rewrite insert_id by done. destruct (IH ds names) as (ds' & names' & E & Hok' & H1 & H2 & H3); [done..| |].
    + intros e He. apply Hm. by right.
    + assert (d ∈ ds) as Hin by (by apply Hok in Hsome as [? _]).
      exists ds', names'. split_and!; try done; set_solver.
Qed.

(** What the merged ranges keep. *)
Definition merged_ok (m : Merged) : Prop :=
  match r_definitions (fst m), snd m with
  | Some ds, Some names => names_ok ds names
  | None, None => True
  | _, _ => False
  end.
Definition definitions_within (a b : CapturedRange) : Prop :=
  match r_definitions a, r_definitions b with
  | Some ds, Some ds' => ds ⊆ ds'
  | None, None => True
  | _, _ => False
  end.
(** [m] shows what [r] declares on the same lines. *)
Definition holds_range (m r : CapturedRange) : Prop :=
  r_start m = r_start r /\ r_end m = r_end r /\ r_kind m = r_kind r /\ definitions_within r m.

Lemma definitions_within_refl r : definitions_within r r.
Proof. unfold definitions_within. by destruct (r_definitions r). Qed.
Lemma holds_range_trans a b c : holds_range a b -> holds_range b c -> holds_range a c.
Proof.
  unfold holds_range, definitions_within. intros (E1 & E2 & E3 & H1) (E4 & E5 & E6 & H2).
  split_and!; try congruence.
  destruct (r_definitions a), (r_definitions b), (r_definitions c); try done. set_solver.
Qed.

Lemma can_merge_mergeable names ds :
  can_merge (Some names) (Some ds) = true -> forall d, d ∈ ds -> mergeable names d.
Proof.
  cbn [can_merge]. intros H d Hd. rewrite forallb_forall in H. specialize (H d ltac:(by apply list_elem_of_In)).
  unfold mergeable, symbol_key. destruct (names !! _) as [e|]; [|by left]. apply bool_decide_eq_true in H as ->. by right.
Qed.

Lemma merge_into_ok m r :
  merged_ok m -> range_keys_unique r -> same_group (fst m) r = true -> can_merge (snd m) (r_definitions r) = true ->
  merged_ok (merge_into m r) /\ holds_range (fst (merge_into m r)) (fst m) /\ holds_range (fst (merge_into m r)) r.
Proof.
  destruct m as [m names]. unfold merged_ok, range_keys_unique, merge_into. cbn [fst snd]. intros Hok Hu Hg Hc.
  unfold same_group in Hg. bool_to_prop. rewrite !bool_decide_eq_true in *. destruct (r_definitions m) as [ds|] eqn:Em, names as [names|]; try done.
  - destruct (r_definitions r) as [inc|] eqn:Er; [|done].
    destruct (add_definitions inc ds names Hok Hu (can_merge_mergeable _ _ Hc)) as (ds' & names' & -> & Hok' & Hs1 & Hs2 & _).
    cbn [fst snd r_definitions]. split; [done|]. unfold holds_range, definitions_within.
    cbn [r_start r_end r_kind r_definitions]. rewrite Em, ?Er. split_and!; solve [done|congruence].
  - destruct (r_definitions r) as [inc|] eqn:Er; [done|]. cbn [fst snd]. rewrite Em. split; [done|].
    unfold holds_range, definitions_within. rewrite Em, ?Er. split_and!; solve [done|congruence].
Qed.

Lemma coalesce_one_ok r : forall merged,
  Forall merged_ok merged -> range_keys_unique r ->
  Forall merged_ok (coalesce_one r merged)
  /\ (forall m, m ∈ merged -> exists m', m' ∈ coalesce_one r merged /\ holds_range (fst m') (fst m))
  /\ exists m', m' ∈ coalesce_one r merged /\ holds_range (fst m') r.
Proof.
  intros merged Hall Hu. induction Hall as [|m merged Hm Hall IH]; cbn [coalesce_one].
  - split_and!; [|by intros m ?%not_elem_of_nil|].
    + repeat constructor. unfold merged_ok, range_keys_unique in *. cbn [fst snd].
      destruct (r_definitions r) as [ds|]; [|done]. cbn.
      apply (names_of_ok ds [] ∅); [|done]. split; [constructor|]. intros k d. rewrite lookup_empty.
      split; [done|]. by intros [?%not_elem_of_nil _].
    + eexists. split; [left|]. unfold holds_range. split_and!; try done. apply definitions_within_refl.
  - destruct (same_group (fst m) r && can_merge (snd m) (r_definitions r)) eqn:E.
    + apply andb_true_iff in E as [Hg Hc]. destruct (merge_into_ok m r Hm Hu Hg Hc) as (Hok & H1 & H2). split_and!.
      * by constructor.
      * intros x [->|Hx]%elem_of_cons; [exists (merge_into m r); split; [left|done]|].
        exists x. split; [by right|]. unfold holds_range. split_and!; try done. apply definitions_within_refl.
      * exists (merge_into m r). split; [left|done].
    + destruct IH as (Hok & Hkeep & m' & Hin & Hr). split_and!; [by constructor| |].
      * intros x [->|Hx]%elem_of_cons.
        { exists m. split; [left|]. unfold holds_range. split_and!; try done. apply definitions_within_refl. }
        destruct (Hkeep x Hx) as (y & Hy & ?). exists y. split; [by right|done].
      * exists m'. split; [by right|done].
Qed.

Lemma coalesce_ok ranges : forall merged,
  Forall merged_ok merged -> Forall range_keys_unique ranges ->
  let out := foldl (fun merged range => coalesce_one range merged) merged ranges in
  Forall merged_ok out
  /\ (forall m, m ∈ merged -> exists m', m' ∈ out /\ holds_range (fst m') (fst m))
  /\ forall r, r ∈ ranges -> exists m', m' ∈ out /\ holds_range (fst m') r.
Proof.
  induction ranges as [|r ranges IH]; intros merged Hall Hu; cbn [foldl].
  { split_and!; [done| |by intros r ?%not_elem_of_nil]. intros m Hm. exists m. split; [done|].
    unfold holds_range. split_and!; try done. apply definitions_within_refl. }
  apply Forall_cons in Hu as [Hr Hu]. destruct (coalesce_one_ok r merged Hall Hr) as (Hok & Hkeep & m & Hm & Hrm).
  destruct (IH (coalesce_one r merged) Hok Hu) as (Hout & Hkeep' & Hrest). split_and!; [done| |].
  - intros x Hx. destruct (Hkeep x Hx) as (y & Hy & H1). destruct (Hkeep' y Hy) as (z & Hz & H2).
    exists z. split; [done|]. by eapply holds_range_trans.
  - intros x [->|Hx]%elem_of_cons; [|by apply Hrest]. destruct (Hkeep' m Hm) as (z & Hz & H2).
    exists z. split; [done|]. by eapply holds_range_trans.
Qed.

(** Declarations on one line share a chunk and none is lost: when no capture
    declares one name twice, every captured range is part of a merged range of its
    lines and kind, with all its definitions, a range without parsed definitions
    only of one without, and no merged range defines one name (up to ASCII case)
    twice, so every symbol row keeps a chunk of its own key. *)
Theorem coalesced_definitions_kept ranges :
  Forall range_keys_unique ranges ->
  Forall range_keys_unique (coalesce_inline_definition_ranges ranges)
  /\ forall r, r ∈ ranges -> exists m, m ∈ coalesce_inline_definition_ranges ranges /\ holds_range m r.
Proof.
  intros Hu. destruct (coalesce_ok ranges [] ltac:(constructor) Hu) as (Hok & _ & Hall).
  unfold coalesce_inline_definition_ranges. split.
  - apply Forall_map. eapply Forall_impl; [exact Hok|]. intros [m names]. unfold merged_ok, range_keys_unique. cbn [fst snd].
    destruct (r_definitions m), names; try done. by intros [? _].
  - intros r Hr. destruct (Hall r Hr) as (m & Hm & Hh). exists (fst m). split; [by apply list_elem_of_fmap_2|done].
Qed.

Lemma coalesced_definitions_kept_witness :
  exists m, m ∈ coalesce_inline_definition_ranges
      [MkRange 1 1 Function (Some [MkDefinition (lit "a") None]) 1; MkRange 1 1 Function (Some [MkDefinition (lit "b") None]) 1]
    /\ holds_range m (MkRange 1 1 Function (Some [MkDefinition (lit "b") None]) 1).
Proof.
  apply (coalesced_definitions_kept
      [MkRange 1 1 Function (Some [MkDefinition (lit "a") None]) 1; MkRange 1 1 Function (Some [MkDefinition (lit "b") None]) 1]).
  - repeat constructor; apply (bool_decide_unpack _); vm_compute; exact I.
  - right. left.
Defined.
