(* ===== verification/SubstringCandidates.v ===== *)
(** * Substring search: folding, and the trigrams a file must have to match.

  A literal is matched against lines whose characters are folded one by one; the
  index only knows ASCII trigrams, so the parts of a literal, or of a regular
  expression, that it can vouch for are picked first. *)
From S2P Require Import Prelude Utf8 TextTokens TextStream.

(** ** Folding *)

(** [char::to_lowercase] outside ASCII is a Unicode table. *)
Section Fold.
Context (unicode_lowercase : char -> str).

Definition to_lowercase (c : char) : str :=
  if is_ascii c then [to_ascii_lowercase c] else unicode_lowercase c.

Definition SIGMA : char := 0x3C3%N.
Definition FINAL_SIGMA : char := 0x3C2%N.
Definition fold_sigma (lower : char) : char := if (lower =? FINAL_SIGMA)%N then SIGMA else lower.
Definition fold_literal_char (c : char) : str := map fold_sigma (to_lowercase c).

Definition fold_literal_case (text : str) : str :=
  if forallb is_ascii text then ascii_lower text else text ≫= fold_literal_char.
End Fold.

(** ** Candidate runs of a literal *)

(** The bytes of U+0307, the combining dot above. *)
Definition DOT_ABOVE : list N := [0xCC; 0x87]%N.

(** Whether the index can vouch for [byte], given the bytes after it. *)
Definition safe_byte (byte : N) (rest : list N) : bool :=
  is_ascii_alphanumeric byte && negb (byte =? chr "k")%N
  && (negb (byte =? chr "i")%N || (negb (bool_decide (rest = [])) && negb (starts_with DOT_ABOVE rest))).

(** The loop over [0..=bytes.len()]; [None] is a slice off a character boundary. *)
Fixpoint runs_loop (query_lower : str) (rest : list N) (index start : nat) : option (list str) :=
  let here :=
    if 3 <=? index - start then run ← slice query_lower start index; Some [run] else Some [] in
  match rest with
  | [] => here
  | byte :: rest =>
    if safe_byte byte rest then runs_loop query_lower rest (S index) start
    else runs ← here; more ← runs_loop query_lower rest (S index) (S index); Some (runs ++ more)
  end.
Definition substring_candidate_runs (query_lower : str) : option (list str) :=
  runs_loop query_lower (bytes query_lower) 0 0.

(** ** The query over trigrams *)

(** [run.get(offset..offset + 3)]. *)
Definition trigram_at (run : str) (offset : nat) : option str := slice run offset (offset + 3).

Fixpoint run_trigrams (run : str) (offsets : list nat) (previous : option nat) : option (list str) :=
  match offsets with
  | [] => Some []
  | offset :: offsets =>
    if bool_decide (previous = Some offset) then run_trigrams run offsets previous
    else trigram ← trigram_at run offset; more ← run_trigrams run offsets (Some offset); Some (trigram :: more)
  end.

(** The trigrams that must all occur; [None] when the index cannot help.  A run
    shorter than three bytes is an overflow in the code. *)
Definition substring_candidate_query (runs : list str) : option (list str) :=
  clauses ← mapM (fun run => run_trigrams run [0; (blen run - 3) / 2; blen run - 3] None) (take 3 runs);
  match concat clauses with [] => None | clauses => Some clauses end.

(** ** Runs that a regular expression requires *)

(** [regex_syntax::hir::Hir], as far as its kinds are told apart. *)
Section Regex.
Context {Class Look : Type}.

Inductive Hir :=
| Empty
| Literal (bs : list N)
| CharClass (c : Class)
| LookAround (l : Look)
| Repetition (min : nat) (max : option nat) (sub : Hir)
| Capture (sub : Hir)
| Concat (hs : list Hir)
| Alternation (hs : list Hir).

(** [collect_required_literals], with the literals found before. *)
Fixpoint collect_required_literals (h : Hir) (literals : list (list N)) : option (list (list N)) :=
  match h with
  | Literal bs => Some (literals ++ [bs])
  | Repetition min _ sub => if 0 <? min then collect_required_literals sub literals else Some literals
  | Capture sub => collect_required_literals sub literals
  | Concat hs =>
    (fix go hs literals :=
       match hs with
       | [] => Some literals
       | h :: hs => literals ← collect_required_literals h literals; go hs literals
       end) hs literals
  | Alternation _ => None
  | Empty | CharClass _ | LookAround _ => Some literals
  end.

Definition run_separator (byte : N) : bool :=
  negb (is_ascii_alphanumeric byte) || bool_decide (byte ∈ lit "kKsS").

Definition literal_runs (literal : list N) : list str :=
  map ascii_lower
    (filter (fun run => (3 <=? length run) && forallb is_ascii run = true) (split_where run_separator literal)).

(** [Vec::dedup]. *)
Fixpoint dedup (l : list str) : list str :=
  match l with
  | [] => []
  | x :: l' =>
    match dedup l' with
    | [] => [x]
    | y :: l'' => if bool_decide (x = y) then x :: l'' else x :: y :: l''
    end
  end.

(** From the parsed pattern. *)
Definition required_literal_runs (hir : Hir) : option (list str) :=
  literals ← collect_required_literals hir [];
  match dedup (sort_by (fun a b => blen b <=? blen a) (concat (map literal_runs literals))) with
  | [] => None
  | runs => Some runs
  end.
End Regex.
Arguments Hir : clear implicits.

(** * The trigram index never loses a match, literal or regular expression. *)

Abbreviation alnum := (fun c => is_ascii_alphanumeric c = true).

Lemma alphanumeric_ascii c : is_ascii_alphanumeric c = true -> (c < 0x80)%N.
Proof.
  unfold is_ascii_alphanumeric, is_ascii_alphabetic, is_ascii_lowercase, is_ascii_uppercase, is_ascii_digit, between.
  rewrite !orb_true_iff, !andb_true_iff, !N.leb_le. lia.
Qed.
Lemma alnum_unlower c : is_ascii_alphanumeric (to_ascii_lowercase c) = true -> is_ascii_alphanumeric c = true.
Proof.
  unfold to_ascii_lowercase. destruct (is_ascii_uppercase c) eqn:E; [|done]. intros _.
  unfold is_ascii_alphanumeric, is_ascii_alphabetic. rewrite E. by rewrite orb_true_r.
Qed.
Lemma lower_ascii c : (c < 0x80)%N -> (to_ascii_lowercase c < 0x80)%N.
Proof. unfold to_ascii_lowercase, is_ascii_uppercase, between. case_match; [|done]. bool_to_prop. lia. Qed.

(** ** Runs that occur in a text up to ASCII case *)

Definition run_found (content run : str) : Prop :=
  exists cs, infix cs content /\ Forall alnum cs /\ map to_ascii_lowercase cs = run.

Lemma ascii_blen s : Forall (fun b => (b < 0x80)%N) s -> blen s = length s.
Proof. intros H. by rewrite <- length_bytes, ascii_bytes. Qed.

Lemma window_token content cs :
  infix cs content -> length cs = 3 -> Forall alnum cs ->
  exists tok, tok ∈ Trigram.tokens content /\ text tok = map to_ascii_lowercase cs.
Proof.
  intros (X & Y & ->) H3 Hcs.
  assert (bytes cs = cs) as Hb by (apply ascii_bytes; eapply Forall_impl; [exact Hcs|apply alphanumeric_ascii]).
  assert (TrigramFacts.window (bytes (X ++ cs ++ Y)) (blen X) = cs) as Hw.
  { unfold TrigramFacts.window. rewrite !bytes_app, <- length_bytes, drop_app_length, Hb.
    by rewrite take_app_le, take_ge by lia. }
  exists (TrigramFacts.trigram_token (bytes (X ++ cs ++ Y)) (blen X)). split.
  - rewrite trigram_tokens_are_the_windows. apply list_elem_of_fmap_2, list_elem_of_filter. split.
    + unfold TrigramFacts.window_ok. rewrite Hw. apply forallb_forall. intros x Hx%list_elem_of_In. by eapply Forall_forall in Hcs.
    + apply elem_of_seq. rewrite !blen_app, <- (length_bytes cs), Hb. lia.
  - cbn [text TrigramFacts.trigram_token]. by rewrite Hw.
Qed.

Lemma run_found_infix content run t : run_found content run -> infix t run -> run_found content t.
Proof.
  intros (cs & Hi & Hcs & <-) (a & b & H).
  apply map_eq_app in H as (ca & c' & -> & Ha & H). apply map_eq_app in H as (ct & cb & -> & Ht & Hb).
  exists ct. split_and!; [|by apply Forall_app in Hcs as [_ [? _]%Forall_app]|done].
  eapply infix_trans; [|exact Hi]. by exists ca, cb.
Qed.
Lemma run_found_ascii content run : run_found content run -> Forall (fun b => (b < 0x80)%N) run.
Proof.
  intros (cs & _ & Hcs & <-). apply Forall_map. eapply Forall_impl; [exact Hcs|]. intros c Hc.
  by apply lower_ascii, alphanumeric_ascii.
Qed.

Lemma slice_Some s a b t : slice s a b = Some t -> exists p q, s = p ++ t ++ q /\ blen p = a /\ blen t = b - a.
Proof.
  unfold slice. destruct (a <=? b) eqn:E; [|done]. destruct (drop_bytes a s) as [r|] eqn:Ed; [|done]. cbn [mbind option_bind].
  intros Ht. apply drop_bytes_Some in Ed as (p & -> & Hp).
  assert (forall n r, take_bytes n r = Some t -> exists q, r = t ++ q /\ blen t = n) as Htake.
  { clear. intros n r. revert n t. induction r as [|c r IH]; intros [|n] t H; cbn in H; try done.
    - injection H as <-. by exists [].
    - injection H as <-. by exists (c :: r).
    - destruct (Nat.leb_spec (len_utf8 c) (S n)); [|done].
      apply fmap_Some in H as (t' & Ht & ->). apply IH in Ht as (q & -> & Hn). exists q. split; [done|]. cbn [blen]. lia. }
  apply Htake in Ht as (q & -> & Hq). by exists p, q.
Qed.

Lemma run_trigrams_spec run : forall offsets previous ts,
  run_trigrams run offsets previous = Some ts -> Forall (fun t => infix t run /\ blen t = 3) ts.
Proof.
  induction offsets as [|o offsets IH]; intros previous ts H; cbn [run_trigrams] in H.
  { injection H as <-. constructor. }
  destruct (bool_decide (previous = Some o)); [by eapply IH|].
  destruct (trigram_at run o) as [t|] eqn:Et; [|done]. cbn [mbind option_bind] in H.
  destruct (run_trigrams run offsets (Some o)) as [more|] eqn:Em; [|done]. injection H as <-.
  constructor; [|by eapply IH]. apply slice_Some in Et as (p & q & -> & _ & Hb). split; [by exists p, q|]. lia.
Qed.
Lemma slice_ascii run o n :
  Forall (fun b => (b < 0x80)%N) run -> o + n <= length run -> slice run o (o + n) = Some (take n (drop o run)).
Proof.
  intros Hrun Ho. pose proof (slice_app (take o run) (take n (drop o run)) (drop n (drop o run))) as H.
  rewrite !take_drop in H.
  rewrite (ascii_blen (take o run)), (ascii_blen (take n (drop o run))) in H
    by (try apply Forall_take; try apply Forall_drop; done).
  rewrite !length_take, length_drop in H. by rewrite !Nat.min_l in H by lia.
Qed.
Lemma run_trigrams_total run : forall offsets previous,
  Forall (fun b => (b < 0x80)%N) run -> Forall (fun o => o + 3 <= length run) offsets ->
  exists ts, run_trigrams run offsets previous = Some ts /\ (previous = None -> offsets <> [] -> ts <> []).
Proof.
  induction offsets as [|o offsets IH]; intros previous Hrun Hall; cbn [run_trigrams]; [by exists []|].
  apply Forall_cons in Hall as [Ho Hall]. destruct (bool_decide (previous = Some o)) eqn:E.
  { destruct (IH previous Hrun Hall) as (ts & Hts & _). exists ts. split; [done|]. intros ->. done. }
  unfold trigram_at. rewrite slice_ascii by done. cbn [mbind option_bind].
  destruct (IH (Some o) Hrun Hall) as (ts & -> & _). by eexists (_ :: ts).
Qed.

(** What the query asks for are parts of the runs, and there is a query when there
    are runs. *)
Lemma candidate_query_spec content runs :
  Forall (run_found content) runs -> Forall (fun run => 3 <= length run) runs -> runs <> [] ->
  exists ts, substring_candidate_query runs = Some ts
    /\ forall t, t ∈ ts -> exists tok, tok ∈ Trigram.tokens content /\ text tok = t.
Proof.
  intros Hfound Hlen Hne. unfold substring_candidate_query.
  set (f := fun run => run_trigrams run [0; (blen run - 3) / 2; blen run - 3] None).
  assert (forall l, Forall (run_found content) l -> Forall (fun run => 3 <= length run) l ->
          exists tss, mapM f l = Some tss
            /\ (forall ts, ts ∈ tss -> Forall (fun t => run_found content t /\ blen t = 3) ts)
            /\ (l <> [] -> concat tss <> [])) as Hall.
  { clear. intros l. induction 1 as [|run l Hrun _ IH]; intros Hlen.
    { exists []. split_and!; [done|by intros ts ?%not_elem_of_nil|done]. }
    apply Forall_cons in Hlen as [Hr Hlen]. destruct (IH Hlen) as (tss & Hm & Hts & _).
    pose proof (run_found_ascii _ _ Hrun) as Hascii.
    destruct (run_trigrams_total run [0; (blen run - 3) / 2; blen run - 3] None Hascii) as (ts & Ht & Hne).
    { rewrite ascii_blen by done. pose proof (Nat.Div0.div_le_upper_bound (length run - 3) 2 (length run - 3)).
      repeat constructor; lia. }
    exists (ts :: tss). split_and!.
    - cbn [mapM]. assert (f run = Some ts) as -> by exact Ht. cbn [mbind option_bind]. by rewrite Hm.
    - intros ts' [->|Hin]%elem_of_cons; [|by apply Hts]. eapply Forall_impl; [by eapply run_trigrams_spec|].
      cbn. intros t [Hi Hb]. split; [by eapply run_found_infix|done].
    - intros _. cbn [concat]. specialize (Hne eq_refl ltac:(done)). by destruct ts. }
  destruct (Hall (take 3 runs)) as (tss & Hm & Hts & Hc); [by apply Forall_take|by apply Forall_take|].
  rewrite Hm. cbn [mbind option_bind]. exists (concat tss). split.
  - specialize (Hc ltac:(by destruct runs)). by destruct (concat tss).
  - intros t Ht. apply list_elem_of_In, in_concat in Ht as (ts & Hin & Hint).
    apply list_elem_of_In in Hin, Hint. specialize (Hts ts Hin). rewrite Forall_forall in Hts.
    destruct (Hts t Hint) as [Hrun Hb]. pose proof (run_found_ascii _ _ Hrun) as Ha. destruct Hrun as (cs & Hi & Hcs & <-).
    apply window_token; [done| |done]. by rewrite ascii_blen, length_map in Hb.
Qed.

(** ** Candidate runs of a literal *)

(** A run of the literal's bytes, each of which the index can vouch for given what
    follows it. *)
Definition vouched (query : str) (run : str) : Prop :=
  3 <= length run /\ exists p q, query = p ++ run ++ q
    /\ forall i b, run !! i = Some b -> safe_byte b (drop (S i) run ++ bytes q) = true.

Lemma safe_byte_ascii b rest : safe_byte b rest = true -> (b < 0x80)%N.
Proof. unfold safe_byte. rewrite !andb_true_iff. intros [[H _] _]. by apply alphanumeric_ascii. Qed.

Definition safe_run (cur rest : list N) : Prop :=
  forall i b, cur !! i = Some b -> safe_byte b (drop (S i) cur ++ rest) = true.

Lemma safe_run_ascii cur rest : safe_run cur rest -> Forall (fun b => (b < 0x80)%N) cur.
Proof. intros H. apply Forall_lookup_2. intros i b Hb. by eapply safe_byte_ascii, H. Qed.

Lemma run_here query pre cur rest :
  bytes query = pre ++ cur ++ rest -> safe_run cur rest ->
  exists runs,
    (if 3 <=? length pre + length cur - length pre
     then run ← slice query (length pre) (length pre + length cur); Some [run] else Some []) = Some runs
    /\ Forall (vouched query) runs.
Proof.
  intros Hq Hsafe. destruct (Nat.leb_spec 3 (length pre + length cur - length pre)) as [Hl|Hl]; [|by exists []].
  pose proof (safe_run_ascii _ _ Hsafe) as Ha.
  destruct (bytes_ascii_run cur query pre rest Hq Ha ltac:(destruct cur; cbn in *; [lia|done])) as (p & q & -> & Hp & Hb).
  pose proof (slice_app p cur q) as Hs. rewrite (ascii_blen cur Ha), <- (length_bytes p), Hp in Hs. rewrite Hs.
  exists [cur]. split; [done|]. constructor; [|done]. split; [lia|]. exists p, q. by rewrite Hb.
Qed.

Lemma runs_loop_spec query rest : forall pre cur,
  bytes query = pre ++ cur ++ rest -> safe_run cur rest ->
  exists runs, runs_loop query rest (length pre + length cur) (length pre) = Some runs
    /\ Forall (vouched query) runs.
Proof.
  induction rest as [|byte rest IH]; intros pre cur Hq Hsafe; cbn [runs_loop]; [by eapply run_here|].
  destruct (safe_byte byte rest) eqn:E.
  - assert (S (length pre + length cur) = length pre + length (cur ++ [byte])) as ->
      by (rewrite length_app; cbn [length]; lia).
    apply IH; [by rewrite <- !app_assoc|]. intros i b Hi. apply lookup_app_Some in Hi as [Hi|[Hlen Hi]].
    + specialize (Hsafe i b Hi). apply lookup_lt_Some in Hi. rewrite drop_app_le, <- app_assoc by lia. exact Hsafe.
    + apply list_lookup_singleton_Some in Hi as [Hi ->]. rewrite drop_ge by (rewrite length_app; cbn; lia). exact E.
  - destruct (run_here query pre cur (byte :: rest) Hq Hsafe) as (runs & -> & Hruns). cbn [mbind option_bind].
    destruct (IH (pre ++ cur ++ [byte]) []) as (more & Hmore & Hall).
    + by rewrite <- !app_assoc.
    + intros i b Hi. by rewrite lookup_nil in Hi.
    + rewrite !length_app in Hmore. cbn [length] in Hmore.
      replace (length pre + (length cur + 1) + 0) with (S (length pre + length cur)) in Hmore by lia.
      replace (length pre + (length cur + 1)) with (S (length pre + length cur)) in Hmore by lia.
      rewrite Hmore. cbn [mbind option_bind]. eexists. split; [done|]. by apply Forall_app.
Qed.

(** ** Where folded characters come from *)

(** Unicode's lowercase mappings outside ASCII: none is empty, and only the Kelvin
    sign and the capital I with dot above give an ASCII letter or digit. *)
Definition lowercase_table (unicode_lowercase : char -> str) : Prop :=
  forall c, is_ascii c = false ->
    unicode_lowercase c <> []
    /\ forall l, l ∈ unicode_lowercase c -> is_ascii_alphanumeric l = true ->
         unicode_lowercase c = lit "k" \/ unicode_lowercase c = lit "i" ++ [0x307%N].

Section Folded.
Context (unicode_lowercase : char -> str) (Htable : lowercase_table unicode_lowercase).
Abbreviation fold_char := (fold_literal_char unicode_lowercase).

Lemma fold_ascii c : is_ascii c = true -> fold_char c = [to_ascii_lowercase c].
Proof.
  intros H. unfold fold_literal_char, to_lowercase. rewrite H. cbn [map]. unfold fold_sigma.
  unfold is_ascii in H. apply N.ltb_lt in H. pose proof (lower_ascii c H).
  destruct (N.eqb_spec (to_ascii_lowercase c) FINAL_SIGMA) as [E|]; [|done]. rewrite E in *. unfold FINAL_SIGMA in *. lia.
Qed.
Lemma fold_literal_case_bind s : fold_literal_case unicode_lowercase s = s ≫= fold_char.
Proof.
  unfold fold_literal_case. destruct (forallb is_ascii s) eqn:E; [|done].
  rewrite forallb_forall in E. induction s as [|c s IH]; [done|]. cbn [ascii_lower map mbind list_bind].
  change (ascii_lower (c :: s)) with (to_ascii_lowercase c :: ascii_lower s).
  rewrite fold_ascii by (apply E; left; done). rewrite IH; [done|]. intros x Hx. apply E. by right.
Qed.

(** What follows a folded character of a run. *)
Definition not_dot (b : char) (B : str) : Prop :=
  b <> chr "k" /\ (b = chr "i" -> head B <> Some 0x307%N).

Lemma folded_ascii s : forall A b B,
  s ≫= fold_char = A ++ b :: B -> is_ascii_alphanumeric b = true -> not_dot b B ->
  exists s1 c s2, s = s1 ++ c :: s2 /\ is_ascii c = true /\ to_ascii_lowercase c = b
    /\ s1 ≫= fold_char = A /\ s2 ≫= fold_char = B.
Proof.
  induction s as [|c s IH]; intros A b B H Hb Hnot; [by destruct A|].
  change ((c :: s) ≫= fold_char) with (fold_char c ++ (s ≫= fold_char)) in H.
  apply app_eq_inv in H as [(k & Hk & Hs)|(k & -> & Hs)].
  2: { destruct (IH k b B Hs Hb Hnot) as (s1 & c' & s2 & -> & ? & ? & <- & ?).
       exists (c :: s1), c', s2. done. }
  destruct k as [|x k]; cbn [app] in Hs.
  { rewrite app_nil_r in Hk. destruct (IH [] b B) as (s1 & c' & s2 & -> & ? & ? & H1 & ?); [by rewrite <- Hs|done|done|].
    exists (c :: s1), c', s2. split_and!; try done. change ((c :: s1) ≫= fold_char) with (fold_char c ++ (s1 ≫= fold_char)).
    by rewrite H1, app_nil_r. }
  injection Hs as <- Hs. destruct (is_ascii c) eqn:Hc.
  - rewrite fold_ascii in Hk by done. destruct A as [|y A]; [|by destruct A]. injection Hk as Hk <-.
    exists [], c, s. done.
  - exfalso. destruct (Htable c Hc) as [_ Htab]. unfold fold_literal_char, to_lowercase in Hk. rewrite Hc in Hk.
    pose proof (alphanumeric_ascii b Hb) as Hlt.
    assert (b ∈ unicode_lowercase c) as Hin.
    { assert (b ∈ map fold_sigma (unicode_lowercase c)) as Hm by (rewrite Hk; apply elem_of_app; right; left).
      apply list_elem_of_fmap in Hm as (l & Hl & Hin). unfold fold_sigma, FINAL_SIGMA, SIGMA in Hl.
      destruct (N.eqb_spec l 0x3C2); [lia|by subst]. }
    destruct Hnot as [Hnk Hni]. destruct (Htab b Hin Hb) as [E|E]; rewrite E in Hk; cbn in Hk.
    + destruct A as [|y A]; [injection Hk as Hk _; by apply Hnk|by destruct A].
    + destruct A as [|y [|y' A]]; [|injection Hk as _ Hk _; rewrite <- Hk in Hlt; lia|by destruct A].
      injection Hk as Hk <-. apply Hni; [done|]. by rewrite Hs.
Qed.

Lemma safe_not_dot b run q B :
  safe_byte b (run ++ bytes q) = true -> Forall (fun c => (c < 0x80)%N) run -> not_dot b (run ++ q ++ B).
Proof.
  unfold safe_byte. rewrite !andb_true_iff, orb_true_iff, andb_true_iff, !negb_true_iff. intros [[_ Hk] Hi] Hrun.
  apply N.eqb_neq in Hk. split; [done|]. intros -> Hhead.
  destruct Hi as [Hi|[Hne Hdot]]; [by apply N.eqb_neq in Hi|].
  destruct run as [|x run]; cbn [app head] in Hhead.
  - destruct q as [|x q]; [done|]. injection Hhead as ->. done.
  - injection Hhead as ->. apply Forall_cons in Hrun as [Hx _]. lia.
Qed.
Lemma safe_run_cons b run rest :
  safe_run (b :: run) rest -> safe_byte b (run ++ rest) = true /\ safe_run run rest.
Proof. intros H. split; [by apply (H 0 b)|]. intros i c Hc. by apply (H (S i) c). Qed.
Lemma safe_byte_alnum b rest : safe_byte b rest = true -> is_ascii_alphanumeric b = true.
Proof. unfold safe_byte. rewrite !andb_true_iff. tauto. Qed.

Lemma fold_nil s : s ≫= fold_char = [] -> s = [].
Proof.
  destruct s as [|c s]; [done|]. change ((c :: s) ≫= fold_char) with (fold_char c ++ (s ≫= fold_char)).
  intros [H _]%app_nil. exfalso. destruct (is_ascii c) eqn:E; [by rewrite fold_ascii in H|].
  unfold fold_literal_char, to_lowercase in H. rewrite E in H. apply map_eq_nil in H. by destruct (Htable c E).
Qed.

(** A vouched run of the query in a folded text stands there in ASCII. *)
Lemma folded_rest run : forall s q B,
  s ≫= fold_char = run ++ q ++ B -> safe_run run (bytes q) ->
  exists cs s2, s = cs ++ s2 /\ Forall alnum cs /\ map to_ascii_lowercase cs = run.
Proof.
  induction run as [|b run IH]; intros s q B H Hsafe; [by exists [], s|].
  apply safe_run_cons in Hsafe as [Hb Hsafe]. pose proof (safe_byte_alnum _ _ Hb) as Hal.
  destruct (folded_ascii s [] b (run ++ q ++ B) H Hal) as (s1 & c & s2 & -> & Hc & Hl & H1 & H2).
  { apply safe_not_dot; [done|by eapply safe_run_ascii]. }
  apply fold_nil in H1 as ->. destruct (IH s2 q B H2 Hsafe) as (cs & s3 & -> & Hcs & <-).
  exists (c :: cs), s3. split_and!; [done| |by rewrite <- Hl]. constructor; [|done]. apply alnum_unlower. by rewrite Hl.
Qed.
Lemma folded_run s query p run q :
  infix query (s ≫= fold_char) -> query = p ++ run ++ q -> run <> [] -> safe_run run (bytes q) -> run_found s run.
Proof.
  intros (A & B & HF) -> Hne Hsafe. destruct run as [|b run]; [done|].
  apply safe_run_cons in Hsafe as [Hb Hsafe]. pose proof (safe_byte_alnum _ _ Hb) as Hal.
  destruct (folded_ascii s (A ++ p) b (run ++ q ++ B)) as (s1 & c & s2 & -> & Hc & Hl & _ & H2); [|done| |].
  { rewrite HF. by rewrite <- !app_assoc. }
  { apply safe_not_dot; [done|by eapply safe_run_ascii]. }
  destruct (folded_rest run s2 q B H2 Hsafe) as (cs & s3 & -> & Hcs & <-).
  exists (c :: cs). split_and!; [by exists s1, s3| |by rewrite <- Hl]. constructor; [|done]. apply alnum_unlower. by rewrite Hl.
Qed.
End Folded.

Lemma run_found_mono s content run : run_found s run -> infix s content -> run_found content run.
Proof. intros (cs & Hi & H) Hs. exists cs. split; [by eapply infix_trans|done]. Qed.

Lemma line_infix s : forall w l, l ∈ lines_loop s w -> infix l (w ++ s).
Proof.
  induction s as [|c s IH]; intros w l; cbn [lines_loop].
  - destruct (decide (w = [])); [by intros ?%not_elem_of_nil|]. intros ->%list_elem_of_singleton.
    rewrite app_nil_r. apply infix_refl.
  - destruct (N.eqb_spec c 10) as [->|Hc].
    + intros [->|Hl]%elem_of_cons; [apply infix_app_l, strip_cr_infix|].
      apply infix_app_r, (infix_app_r _ [10%N]). by apply (IH []).
    + intros Hl%IH. by rewrite <- app_assoc in Hl.
Qed.

(** The trigram index never loses a literal match: picking the runs of a
    folded literal never slices off a character boundary, each has three bytes or
    more, and when the folded form of some line of a file contains the literal,
    every trigram the candidate query asks for is a token of that file's text, so
    that the file is a candidate, or there are no runs and all files are searched.
    It rests on what Unicode's lowercase mappings have in ASCII. *)
Theorem literal_prefilter_complete unicode_lowercase content line query_lower :
  lowercase_table unicode_lowercase -> line ∈ str_lines content ->
  contains query_lower (fold_literal_case unicode_lowercase line) = true ->
  exists runs, substring_candidate_runs query_lower = Some runs
    /\ Forall (fun run => 3 <= blen run) runs
    /\ (runs = [] \/ exists ts, substring_candidate_query runs = Some ts
          /\ forall t, t ∈ ts -> exists tok, tok ∈ Trigram.tokens content /\ text tok = t).
Proof.
  intros Htable Hline Hc. rewrite contains_spec, fold_literal_case_bind in Hc.
  destruct (runs_loop_spec query_lower (bytes query_lower) [] [] eq_refl) as (runs & Hr & Hv).
  { intros i b Hi. by rewrite lookup_nil in Hi. }
  exists runs. split; [exact Hr|].
  assert (Forall (run_found content) runs) as Hfound.
  { eapply Forall_impl; [exact Hv|]. intros run (H3 & p & q & Hq & Hsafe).
    eapply run_found_mono; [|by apply (line_infix content [] line)].
    eapply (folded_run unicode_lowercase Htable line query_lower p run q); try done. intros ->. cbn in H3. lia. }
  assert (Forall (fun run => 3 <= length run) runs) as Hlen by (eapply Forall_impl; [exact Hv|]; by intros run [? _]).
  split.
  - apply Forall_forall. intros run Hin. rewrite Forall_forall in Hlen, Hfound.
    rewrite (ascii_blen run) by (by eapply run_found_ascii, Hfound). by apply Hlen.
  - destruct (decide (runs = [])) as [->|Hne]; [by left|right]. by apply candidate_query_spec.
Qed.

Lemma plain_lowercase_table : lowercase_table (fun c => [c]).
Proof.
  intros c Hc. split; [done|]. intros l ->%list_elem_of_singleton Hl. exfalso.
  apply alphanumeric_ascii, N.ltb_lt in Hl. unfold is_ascii in Hc. congruence.
Qed.

Lemma literal_prefilter_complete_witness :
  exists runs, substring_candidate_runs (lit "foo_b") = Some runs
    /\ (runs = [] \/ exists ts, substring_candidate_query runs = Some ts
          /\ forall t, t ∈ ts -> exists tok, tok ∈ Trigram.tokens (lit "a Foo_Bar") /\ text tok = t).
Proof.
  destruct (literal_prefilter_complete (fun c => [c]) (lit "a Foo_Bar") (lit "a Foo_Bar") (lit "foo_b")
              plain_lowercase_table) as (runs & H1 & _ & H2).
  - left.
  - reflexivity.
  - exists runs. split; [exact H1|exact H2].
Defined.

(** ** Runs that a regular expression requires *)

Section Regex.
Context {Class Look : Type}.
(** What a class matches, and where a look-around assertion holds. *)
Context (class_matches : Class -> list N -> Prop) (look_holds : Look -> Prop).
(** Which characters a matcher built with [case_insensitive(true)] takes for each
    other: those with the same simple case folding. *)
Context (fold_equal : char -> char -> Prop).
Abbreviation Hir := (Hir Class Look).

(** What that is for a character of ASCII, by Unicode's CaseFolding.txt: the other
    case, and beyond ASCII only the Kelvin sign for K and the long s for S. *)
Definition KELVIN_SIGN : char := 0x212A%N.
Definition LONG_S : char := 0x17F%N.
Definition simple_folding : Prop := forall c d, is_ascii c = true -> fold_equal c d ->
  (is_ascii d = true /\ to_ascii_lowercase d = to_ascii_lowercase c)
  \/ (to_ascii_lowercase c = chr "k" /\ d = KELVIN_SIGN)
  \/ (to_ascii_lowercase c = chr "s" /\ d = LONG_S).

(** The byte strings an expression matches without regard to case, as regex-syntax
    documents its kinds; a literal is UTF-8. *)
Inductive matches : Hir -> list N -> Prop :=
| match_empty : matches Empty []
| match_literal cs ds : Forall2 fold_equal cs ds -> matches (Literal (bytes cs)) (bytes ds)
| match_class c w : class_matches c w -> matches (CharClass c) w
| match_look l : look_holds l -> matches (LookAround l) []
| match_stop max h : matches (Repetition 0 max h) []
| match_repeat min max h w1 w2 :
    max <> Some 0 -> matches h w1 -> matches (Repetition (min - 1) (pred <$> max) h) w2 ->
    matches (Repetition min max h) (w1 ++ w2)
| match_capture h w : matches h w -> matches (Capture h) w
| match_concat_nil : matches (Concat []) []
| match_concat_cons h hs w1 w2 :
    matches h w1 -> matches (Concat hs) w2 -> matches (Concat (h :: hs)) (w1 ++ w2)
| match_alternation h hs w : h ∈ hs -> matches h w -> matches (Alternation hs) w.

(** The literal stands in the text, in some case. *)
Definition occurs (literal w : list N) : Prop :=
  exists cs ds, literal = bytes cs /\ Forall2 fold_equal cs ds /\ infix (bytes ds) w.
Lemma occurs_mono literal w v : occurs literal w -> infix w v -> occurs literal v.
Proof. intros (cs & ds & ? & ? & Hi) Hv. exists cs, ds. split_and!; [done..|by eapply infix_trans]. Qed.

(** Every literal collected occurs in every match. *)
Lemma required_literals_occur h w :
  matches h w -> forall acc out, collect_required_literals h acc = Some out ->
  forall l, l ∈ out -> l ∈ acc \/ occurs l w.
Proof.
  induction 1 as [|cs ds Hcs|c w Hc|lk Hl|max h|min max h w1 w2 Hmax H1 IH1 H2 IH2|h w H IH| |h hs w1 w2 H1 IH1 H2 IH2|h hs w Hin H IH];
    intros acc out Hout l Hl'; try (injection Hout as <-; by left).
  - injection Hout as <-. apply elem_of_app in Hl' as [Hl'| ->%list_elem_of_singleton]; [by left|right].
    exists cs, ds. split_and!; [done..|apply infix_refl].
  - cbn [collect_required_literals] in Hout. destruct (0 <? min); [|injection Hout as <-; by left].
    destruct (IH1 _ _ Hout l Hl') as [?|Ho]; [by left|right]. eapply occurs_mono; [exact Ho|apply infix_app_l, infix_refl].
  - by eapply IH.
  - cbn [collect_required_literals] in Hout.
    destruct (collect_required_literals h acc) as [mid|] eqn:Em; [|done]. cbn [mbind option_bind] in Hout.
    destruct (IH2 mid out Hout l Hl') as [Hm|Ho].
    + destruct (IH1 acc mid Em l Hm) as [?|Ho]; [by left|right]. eapply occurs_mono; [exact Ho|apply infix_app_l, infix_refl].
    + right. eapply occurs_mono; [exact Ho|apply infix_app_r, infix_refl].
  - done.
Qed.

Lemma split_where_infix (f : char -> bool) s : forall w,
  w ∈ split_where f s -> infix w s /\ Forall (fun c => f c = false) w.
Proof.
  assert (forall s, match split_where f s with
          | w :: ws => (exists b, s = w ++ b) /\ Forall (fun c => f c = false) w
                       /\ forall v, v ∈ ws -> infix v s /\ Forall (fun c => f c = false) v
          | [] => False end) as Hall.
  { clear. induction s as [|c s IH]; cbn [split_where].
    { split_and!; [by exists []|constructor|]. by intros v ?%not_elem_of_nil. }
    destruct (split_where f s) as [|w ws]; [done|]. destruct IH as ((b & Hb) & Hw & Hws).
    destruct (f c) eqn:E; split_and!.
    - by exists (c :: s).
    - constructor.
    - intros v [->|Hv]%elem_of_cons.
      + split; [|done]. exists [c], b. by rewrite Hb.
      + destruct (Hws v Hv) as [Hi ?]. split; [|done]. by apply (infix_app_r _ [c]).
    - exists b. by rewrite Hb.
    - by constructor.
    - intros v Hv. destruct (Hws v Hv) as [Hi ?]. split; [|done]. by apply (infix_app_r _ [c]). }
  intros w Hw. specialize (Hall s). destruct (split_where f s) as [|v ws]; [by apply not_elem_of_nil in Hw|].
  destruct Hall as ((b & ->) & Hv & Hws). apply elem_of_cons in Hw as [->|Hw]; [|by apply Hws].
  split; [by exists [], b|done].
Qed.

Lemma dedup_elem l x : x ∈ dedup l -> x ∈ l.
Proof.
  induction l as [|y l IH]; cbn [dedup]; [done|]. destruct (dedup l) as [|z l'] eqn:E.
  { intros ->%list_elem_of_singleton. left. }
  case_match; intros [->|Hx]%elem_of_cons; try (by left); right; apply IH; [by right|done].
Qed.

Lemma lower_ks c : to_ascii_lowercase c = chr "k" \/ to_ascii_lowercase c = chr "s" -> c ∈ lit "kKsS".
Proof.
  change (chr "k") with 107%N. change (chr "s") with 115%N. unfold to_ascii_lowercase. intros Hc.
  assert (c = 107 \/ c = 75 \/ c = 115 \/ c = 83)%N as Hcs by (destruct (is_ascii_uppercase c); lia).
  destruct Hcs as [-> | [-> | [-> | ->]]]; apply (bool_decide_eq_true_1 _); by vm_compute.
Qed.
Lemma alnum_lower c : is_ascii_alphanumeric c = true -> is_ascii_alphanumeric (to_ascii_lowercase c) = true.
Proof.
  unfold to_ascii_lowercase. destruct (is_ascii_uppercase c) eqn:E; [|done]. intros _.
  unfold is_ascii_uppercase, between in E. unfold is_ascii_alphanumeric, is_ascii_alphabetic, is_ascii_lowercase, between.
  bool_to_prop. rewrite !orb_true_iff, !andb_true_iff, !N.leb_le. left. left. lia.
Qed.

(** What may stand for a run is the run in another case: it has no K and no S. *)
Lemma run_folded r ds : simple_folding -> Forall (fun c => run_separator c = false) r -> Forall2 fold_equal r ds ->
  Forall alnum ds /\ map to_ascii_lowercase ds = map to_ascii_lowercase r.
Proof.
  intros Hfold Hall. induction 1 as [|c d r ds Hcd _ IH]; [done|]. apply Forall_cons in Hall as [Hc Hall].
  destruct (IH Hall) as [H1 H2]. cbn [map]. apply orb_false_iff in Hc as [Hal%negb_false_iff Hks%bool_decide_eq_false].
  assert ((to_ascii_lowercase c <> chr "k") /\ (to_ascii_lowercase c <> chr "s")) as [Hk Hs].
  { split; intros E; apply Hks, lower_ks; auto. }
  destruct (Hfold c d) as [[Hd Hl]|[[? _]|[? _]]]; [|done| |done..].
  - apply N.ltb_lt, alphanumeric_ascii, Hal.
  - rewrite Hl, H2. split; [|done]. constructor; [|done]. apply alnum_unlower. rewrite Hl.
    by apply alnum_lower.
Qed.

Lemma literal_runs_found content literal run :
  simple_folding -> occurs literal (bytes content) -> run ∈ literal_runs literal ->
  run_found content run /\ 3 <= length run.
Proof.
  intros Hfold (cs & ds & -> & Hcs & Hin) (r & -> & [Hr Hsplit]%list_elem_of_filter)%list_elem_of_fmap.
  apply andb_true_iff in Hr as [H3%Nat.leb_le _]. apply split_where_infix in Hsplit as [(pre & post & Hi) Hall].
  assert (r <> []) as Hne by (intros ->; cbn in H3; lia).
  destruct (bytes_ascii_run r cs pre post Hi) as (p & q & -> & _ & _); [|done|].
  { eapply Forall_impl; [exact Hall|]. intros c [Hc _]%orb_false_iff. by apply alphanumeric_ascii, negb_false_iff. }
  apply Forall2_app_inv_l in Hcs as (p' & rq & _ & Hrq & ->). apply Forall2_app_inv_l in Hrq as (r' & q' & Hr' & _ & ->).
  destruct (run_folded r r' Hfold Hall Hr') as [Hal Hl]. unfold ascii_lower. rewrite length_map. split; [|done].
  exists r'. split_and!; [|done|done]. rewrite !bytes_app in Hin.
  assert (infix (bytes r') (bytes content)) as (a & b & Hb).
  { eapply infix_trans; [|exact Hin]. by exists (bytes p'), (bytes q'). }
  assert (Forall (fun c => (c < 0x80)%N) r') as Ha by (eapply Forall_impl; [exact Hal|apply alphanumeric_ascii]).
  rewrite (ascii_bytes r') in Hb by done. destruct (bytes_ascii_run r' content a b Hb Ha) as (x & y & -> & _ & _).
  - intros ->. apply Forall2_nil_inv_r in Hr'. done.
  - by exists x, y.
Qed.

(** C28. The trigram index never loses a match of a regular expression: when the
    expression, taken without regard to case as the matcher takes it, matches
    somewhere in a file's text, and the literals it requires give runs, each has
    three bytes or more, and every trigram the candidate query asks for is a token
    of the text.  It rests on Unicode's simple case folding of ASCII letters: K and
    S also match the Kelvin sign and the long s, which have no trigrams. *)
Theorem regex_prefilter_complete hir content w runs :
  simple_folding ->
  matches hir w -> infix w (bytes content) -> required_literal_runs hir = Some runs ->
  Forall (fun run => 3 <= blen run) runs
  /\ exists ts, substring_candidate_query runs = Some ts
    /\ forall t, t ∈ ts -> exists tok, tok ∈ Trigram.tokens content /\ text tok = t.
Proof.
  intros Hfold Hm Hw Hr. unfold required_literal_runs in Hr.
  destruct (collect_required_literals hir []) as [literals|] eqn:El; [|done]. cbn [mbind option_bind] in Hr.
  assert (Forall (fun run => run_found content run /\ 3 <= length run) runs) as Hall.
  { apply Forall_forall. intros run Hin.
    assert (run ∈ concat (map literal_runs literals)) as Hc.
    { rewrite <- (sort_by_perm (fun a b => blen b <=? blen a)). apply dedup_elem.
      by destruct (dedup _); [done|injection Hr as <-]. }
    apply list_elem_of_In, in_concat in Hc as (l & Hl & Hrun). apply list_elem_of_In in Hrun.
    apply in_map_iff in Hl as (literal & <- & Hlit). apply list_elem_of_In in Hlit.
    destruct (required_literals_occur _ _ Hm [] literals El literal Hlit) as [?%not_elem_of_nil|Hi]; [done|].
    eapply literal_runs_found; [done|by eapply occurs_mono|done]. }
  assert (runs <> []) as Hne by (destruct (dedup _); [done|injection Hr as <-; done]).
  apply Forall_and in Hall as [Hfound Hlen]. split; [|by apply candidate_query_spec].
  apply Forall_forall. intros run Hin. rewrite Forall_forall in Hfound, Hlen.
  rewrite (ascii_blen run) by (by eapply run_found_ascii, Hfound). by apply Hlen.
Qed.
End Regex.

(** Case folding of ASCII with its two characters from outside. *)
Definition ascii_fold (c : char) : char :=
  if (c =? KELVIN_SIGN)%N then chr "k" else if (c =? LONG_S)%N then chr "s" else to_ascii_lowercase c.
Lemma ascii_simple_folding : simple_folding (fun c d => ascii_fold c = ascii_fold d).
Proof.
  intros c d Hc. unfold is_ascii in Hc. apply N.ltb_lt in Hc. unfold ascii_fold.
  rewrite (proj2 (N.eqb_neq c KELVIN_SIGN)), (proj2 (N.eqb_neq c LONG_S)) by (unfold KELVIN_SIGN, LONG_S; lia).
  destruct (N.eqb_spec d KELVIN_SIGN) as [->|]; [by right; left|].
  destruct (N.eqb_spec d LONG_S) as [->|]; [by right; right|]. intros Heq. left. split; [|done].
  apply lower_ascii in Hc. rewrite Heq in Hc. unfold to_ascii_lowercase in Hc. unfold is_ascii.
  apply N.ltb_lt. destruct (is_ascii_uppercase d); lia.
Qed.

(** The expression [Tasking(\d)] finds the text with a long s and a Kelvin sign. *)
Definition odd_tasking : str := lit "ta" ++ [LONG_S; KELVIN_SIGN] ++ lit "ING".
Lemma regex_prefilter_complete_witness :
  required_literal_runs (Class := unit) (Look := unit) (Concat [Literal (lit "Tasking"); CharClass tt]) = Some [lit "ing"]
  /\ exists ts, substring_candidate_query [lit "ing"] = Some ts
    /\ forall t, t ∈ ts -> exists tok, tok ∈ Trigram.tokens (lit "a " ++ odd_tasking ++ lit "7") /\ text tok = t.
Proof.
  split; [by vm_compute|].
  destruct (regex_prefilter_complete (Class := unit) (Look := unit) (fun _ w => w = [chr "7"]) (fun _ => True)
              (fun c d => ascii_fold c = ascii_fold d) (Concat [Literal (lit "Tasking"); CharClass tt])
              (lit "a " ++ odd_tasking ++ lit "7") (bytes odd_tasking ++ lit "7") [lit "ing"] ascii_simple_folding) as [_ H].
  - apply match_concat_cons.
    + change (Literal (lit "Tasking")) with (Literal (Class := unit) (Look := unit) (bytes (lit "Tasking"))).
      apply match_literal. by repeat constructor.
    + apply (match_concat_cons _ _ _ _ _ (lit "7") []); [by constructor|constructor].
  - exists (lit "a "), []. by vm_compute.
  - by vm_compute.
  - exact H.
Defined.
