(* ===== verification/LineMatcher.v ===== *)
(** * The matcher of literal lines: search_literal.rs's failure table and step.

  [LineMatcher::new] computes, for every prefix of the needle, the length of its
  longest proper prefix that is also its suffix; [byte] advances the length matched
  so far by one byte of text.  [None] is an index out of bounds; the loops' fuel is
  the length matched, which every turn lowers. *)
From S2P Require Import Prelude.

Record LineMatcher := MkMatcher { needle : list N; prefix : list nat }.

(** [while matched > 0 && needle[matched] != byte { matched = prefix[matched - 1] }]. *)
Fixpoint fall_back (fuel : nat) (m : LineMatcher) (byte : N) (matched : nat) : option nat :=
  match matched, fuel with
  | O, _ => Some 0
  | S before, S fuel =>
    here ← needle m !! matched;
    if negb (here =? byte)%N then matched ← prefix m !! before; fall_back fuel m byte matched
    else Some matched
  | S _, O => None
  end.

(** The loop and the test that follows it. *)
Definition advance (m : LineMatcher) (byte : N) (matched : nat) : option nat :=
  matched ← fall_back matched m byte matched;
  here ← needle m !! matched;
  Some (if (here =? byte)%N then S matched else matched).

(** [LineMatcher::new], from [index] on; [table] is the vector as filled so far. *)
Fixpoint fill_table (todo : list N) (index : nat) (m : LineMatcher) : option LineMatcher :=
  match todo with
  | [] => Some m
  | byte :: todo =>
    before ← prefix m !! (index - 1);
    matched ← advance m byte before;
    fill_table todo (S index) (MkMatcher (needle m) (<[index := matched]> (prefix m)))
  end.
Definition new_matcher (needle : list N) : option LineMatcher :=
  fill_table (drop 1 needle) 1 (MkMatcher needle (replicate (length needle) 0)).

(** ** What is matched: the longest prefix of the needle at the end of the text *)

Section Longest.
Context (p : list N).

Definition at_end (k : nat) (text : list N) : Prop := k <= length p /\ take k p `suffix_of` text.
Definition longest (text : list N) (k : nat) : Prop :=
  at_end k text /\ forall j, at_end j text -> j <= k.

Lemma at_end_0 text : at_end 0 text.
Proof. split; [lia|]. apply suffix_nil. Qed.
Lemma at_end_length k text : at_end k text -> k <= length text.
Proof. intros [H Hs%suffix_length]. rewrite length_take in Hs. lia. Qed.

Lemma at_end_snoc k text c :
  at_end (S k) (text ++ [c]) <-> at_end k text /\ p !! k = Some c.
Proof.
  split.
  - intros [Hk Hs]. destruct (lookup_lt_is_Some_2 p k ltac:(lia)) as [x Hx].
    rewrite (take_S_r _ _ _ Hx) in Hs. apply suffix_snoc_inv_1 in Hs as E. subst x.
    apply suffix_snoc_inv_2 in Hs. split; [split; [lia|done]|done].
  - intros [[Hk Hs] Hx]. pose proof (lookup_lt_Some _ _ _ Hx). split; [lia|].
    rewrite (take_S_r _ _ _ Hx). by apply suffix_snoc.
Qed.

(** Prefixes of the needle at the end of one that is at the end of the text are at
    the end of the text, and conversely the shorter ones of two. *)
Lemma at_end_shorter j k text : at_end k text -> j < k -> at_end j text <-> at_end j (drop 1 (take k p)).
Proof.
  intros [Hk Hs] Hj. split.
  - intros [Hj' Hsj]. split; [done|]. destruct Hs as [x Hx], Hsj as [y Hy].
    assert (drop 1 (take k p) = drop (S (length x)) text) as ->.
    { rewrite Hx. replace (S (length x)) with (length x + 1) by lia. by rewrite <- drop_drop, drop_app_length. }
    exists (drop (S (length x)) y). rewrite Hy at 1. rewrite drop_app_le; [done|].
    apply (f_equal length) in Hx, Hy. rewrite !length_app, !length_take in *. lia.
  - intros [Hj' Hsj]. split; [done|]. etrans; [exact Hsj|]. etrans; [|exact Hs]. apply suffix_drop.
Qed.
Lemma border_short k j : at_end j (drop 1 (take (S k) p)) -> j <= k.
Proof. intros H%at_end_length. rewrite length_drop, length_take in H. lia. Qed.
End Longest.

(** The table is right for the first [n] prefixes. *)
Definition table_ok (m : LineMatcher) (n : nat) : Prop :=
  forall i, i < n -> exists k, prefix m !! i = Some k /\ longest (needle m) (drop 1 (take (S i) (needle m))) k.

(** The loop finds the longest candidate that the byte extends. *)
Lemma fall_back_spec m byte text : forall fuel matched,
  table_ok m matched -> matched <= fuel -> matched < length (needle m) -> at_end (needle m) matched text ->
  exists k, fall_back fuel m byte matched = Some k
    /\ k <= matched /\ at_end (needle m) k text /\ (k = 0 \/ needle m !! k = Some byte)
    /\ forall j, j <= matched -> at_end (needle m) j text -> needle m !! j = Some byte -> j <= k.
Proof.
  induction fuel as [|fuel IH]; intros [|before] Htab Hfuel Hlen Hend; cbn [fall_back]; try lia.
  - exists 0. split_and!; [done|lia|apply at_end_0|by left|lia].
  - exists 0. split_and!; [done|lia|apply at_end_0|by left|lia].
  - destruct (lookup_lt_is_Some_2 (needle m) (S before) Hlen) as [here Hhere]. rewrite Hhere. cbn [mbind option_bind].
    destruct (N.eqb_spec here byte) as [->|Hne]; cbn [negb].
    { exists (S before). split_and!; [done|lia|done|by right|lia]. }
    destruct (Htab before ltac:(lia)) as (k & Hk & Hborder & Hmax). rewrite Hk. cbn [mbind option_bind].
    pose proof (border_short _ _ _ Hborder) as Hle.
    destruct (IH k) as (r & Hr & Hrk & Hre & Hby & Hbest); [|lia|lia| |].
    { intros i Hi. apply Htab. lia. }
    { eapply at_end_shorter; [exact Hend|lia|done]. }
    exists r. split_and!; try done; [lia|]. intros j Hj Hje Hjb.
    destruct (decide (j = S before)) as [->|Hjne]; [congruence|].
    apply Hbest; [|done..]. apply Hmax. apply (at_end_shorter _ _ _ text); [done|lia|done].
Qed.

Lemma matcher_advance_spec m byte text matched :
  table_ok m matched -> matched < length (needle m) -> longest (needle m) text matched ->
  exists k, advance m byte matched = Some k /\ longest (needle m) (text ++ [byte]) k.
Proof.
  intros Htab Hlen [Hend Hmax]. unfold advance.
  destruct (fall_back_spec m byte text matched matched Htab ltac:(lia) Hlen Hend) as (k & -> & Hk & Hke & Hby & Hbest).
  cbn [mbind option_bind]. destruct (lookup_lt_is_Some_2 (needle m) k ltac:(lia)) as [here Hhere]. rewrite Hhere.
  cbn [mbind option_bind]. eexists. split; [done|].
  assert (forall j, at_end (needle m) (S j) (text ++ [byte]) -> j <= k /\ needle m !! j = Some byte) as Hup.
  { intros j [Hj Hb]%at_end_snoc. split; [|done]. apply Hbest; [by apply Hmax|done..]. }
  destruct (N.eqb_spec here byte) as [->|Hne].
  - split; [by apply at_end_snoc|]. intros [|j] Hj; [lia|]. apply Hup in Hj as [Hj _]. lia.
  - assert (k = 0) as -> by (destruct Hby; [done|congruence]). split; [apply at_end_0|].
    intros [|j] Hj; [lia|]. apply Hup in Hj as [Hj Hb]. assert (j = 0) as -> by lia. congruence.
Qed.

Lemma fill_table_spec todo : forall index m,
  1 <= index -> drop index (needle m) = todo -> length (prefix m) = length (needle m) -> index <= length (needle m) ->
  table_ok m index ->
  exists m', fill_table todo index m = Some m' /\ needle m' = needle m /\ table_ok m' (length (needle m)).
Proof.
  induction todo as [|byte todo IH]; intros index m H1 Hd Hlen Hi Htab; cbn [fill_table].
  - exists m. split_and!; try done. apply (f_equal length) in Hd. rewrite length_drop in Hd. cbn in Hd.
    by replace (length (needle m)) with index by lia.
  - assert (needle m !! index = Some byte) as Hbyte.
    { pose proof (lookup_drop (needle m) index 0) as H. rewrite Hd, Nat.add_0_r in H. by rewrite <- H. }
    pose proof (lookup_lt_Some _ _ _ Hbyte) as Hlt.
    destruct (Htab (index - 1) ltac:(lia)) as (k & Hk & Hborder). rewrite Hk. cbn [mbind option_bind].
    replace (S (index - 1)) with index in Hborder by lia.
    pose proof (at_end_length _ _ _ (proj1 Hborder)) as Hkl. rewrite length_drop, length_take in Hkl.
    destruct (matcher_advance_spec m byte (drop 1 (take index (needle m))) k) as (k' & -> & Hnext); [|lia|done|].
    { intros i Hi'. apply Htab. lia. }
    cbn [mbind option_bind].
    destruct (IH (S index) (MkMatcher (needle m) (<[index:=k']> (prefix m)))) as (m' & Hm' & Hn & Ht); cbn [needle prefix].
    + lia.
    + rewrite (drop_S _ _ _ Hbyte) in Hd. by injection Hd.
    + by rewrite length_insert.
    + lia.
    + intros i Hi'. cbn [needle prefix]. destruct (decide (i = index)) as [->|Hne].
      * exists k'. rewrite list_lookup_insert_eq by lia. split; [done|].
        rewrite (take_S_r _ _ _ Hbyte). rewrite drop_app_le in *; [done|rewrite length_take; lia].
      * rewrite list_lookup_insert_ne by done. apply Htab. lia.
    + by exists m'.
Qed.

Lemma new_matcher_spec p :
  p <> [] -> exists m, new_matcher p = Some m /\ needle m = p /\ table_ok m (length p).
Proof.
  intros Hp. unfold new_matcher. destruct p as [|c p]; [done|].
  destruct (fill_table_spec (drop 1 (c :: p)) 1 (MkMatcher (c :: p) (replicate (length (c :: p)) 0))) as (m & Hm & Hn & Ht);
    cbn [needle prefix]; [lia|done|by rewrite length_replicate|cbn; lia| |by exists m].
  intros i Hi. assert (i = 0) as -> by lia. exists 0. split; [done|]. split; [apply at_end_0|].
  intros j Hj. apply border_short in Hj. lia.
Qed.

(** ** A run over a text *)

(** The needle occurs in the text once it has been at the end of a prefix. *)
Lemma infix_snoc {A} (q s : list A) c : infix q (s ++ [c]) <-> infix q s \/ q `suffix_of` (s ++ [c]).
Proof.
  split.
  - intros (a & b & H). destruct b as [|x b] using rev_ind.
    + right. exists a. by rewrite H, app_nil_r.
    + left. rewrite !app_assoc in H. apply app_inj_tail in H as [-> _]. exists a, b. by rewrite app_assoc.
  - intros [H|(a & H)]; [by apply infix_app_l|]. exists a, []. by rewrite app_nil_r.
Qed.

Lemma longest_full p text k : longest p text k -> (k = length p <-> p `suffix_of` text).
Proof.
  intros [[Hk Hs] Hmax]. split.
  - intros ->. by rewrite firstn_all in Hs.
  - intros Hp. apply Nat.le_antisymm; [done|]. apply Hmax. split; [done|]. by rewrite firstn_all.
Qed.
Lemma longest_nil p : longest p [] 0.
Proof. split; [apply at_end_0|]. intros j Hj%at_end_length. done. Qed.
