(* ===== verification/Decoding.v ===== *)
(** * Decoding bytes piece by piece gives the decoding of the whole. *)
From S2P Require Import Prelude Utf8 Paths.

(** ** One step *)

Ltac step_cases :=
  repeat match goal with
  | H : context [if ?b then _ else _] |- _ => destruct b eqn:?
  | H : Some _ = Some _ |- _ => injection H as; subst
  end.

Lemma utf8_step_true l n : utf8_step l = Some (true, n) -> 1 <= n <= length l.
Proof.
  destruct l as [|b0 [|b1 [|b2 [|b3 l]]]]; [done| | | |];
    cbn [utf8_step nth]; unfold between; intros H; cbn in H; step_cases; cbn [length] in *; try done; lia.
Qed.
Lemma utf8_step_false l n : utf8_step l = Some (false, n) -> 1 <= n <= length l.
Proof.
  destruct l as [|b0 [|b1 [|b2 [|b3 l]]]]; [done| | | |];
    cbn [utf8_step nth]; unfold between; intros H; cbn in H; step_cases; cbn [length] in *; try done; lia.
Qed.

Lemma utf8_step_nil : utf8_step [] = None.
Proof. done. Qed.
Lemma utf8_step_Some b l : exists v n, utf8_step (b :: l) = Some (v, n).
Proof. cbn [utf8_step]. eexists _, _. by rewrite <- surjective_pairing. Qed.

(** A character's bytes, or an error before the end, do not depend on what follows. *)
Lemma utf8_step_true_app l n r : utf8_step l = Some (true, n) -> utf8_step (l ++ r) = Some (true, n).
Proof.
  destruct l as [|b0 [|b1 [|b2 [|b3 l]]]]; [done| | | |];
    cbn [utf8_step nth app]; unfold between; intros H; cbn in H; step_cases; done.
Qed.
Definition cut_off (l : list N) (n : nat) : bool := between 0xC2 0xF4 (hd 0%N l) && (n =? length l).
Lemma utf8_step_false_app l n r :
  utf8_step l = Some (false, n) -> cut_off l n = false -> utf8_step (l ++ r) = Some (false, n).
Proof.
  unfold cut_off. destruct l as [|b0 [|b1 [|b2 [|b3 l]]]]; [done| | | |];
    cbn [utf8_step nth app hd length]; unfold between; intros H Hc; cbn in H, Hc; step_cases; try done;
    bool_to_prop; try done; exfalso; destruct Hc as [Hc|Hc]; try apply andb_false_iff in Hc as [Hc|Hc]; bool_to_prop; lia.
Qed.

(** ** The decoding *)

Lemma chars_loop_fuel fuel : forall l, length l <= fuel -> chars_loop fuel l = chars_loop (length l) l.
Proof.
  induction fuel as [fuel IH] using lt_wf_ind. intros [|b l] H; [by destruct fuel|].
  destruct fuel as [|fuel]; [cbn in H; lia|]. cbn [chars_loop length].
  destruct (utf8_step (b :: l)) as [[[] n]|] eqn:E; [| |done].
  - pose proof (utf8_step_true _ _ E) as Hn. cbn [length] in *. f_equal.
    assert (length (drop n (b :: l)) <= length l) by (rewrite length_drop; cbn; lia).
    rewrite (IH fuel), (IH (length l)); [done|cbn in H; lia|lia|lia|cbn in H; lia].
  - pose proof (utf8_step_false _ _ E) as Hn. cbn [length] in *. f_equal.
    assert (length (drop n (b :: l)) <= length l) by (rewrite length_drop; cbn; lia).
    rewrite (IH fuel), (IH (length l)); [done|cbn in H; lia|lia|lia|cbn in H; lia].
Qed.

Lemma lossy_chars_step l :
  lossy_chars l =
  match utf8_step l with
  | None => []
  | Some (true, n) => decode_char (take n l) :: lossy_chars (drop n l)
  | Some (false, n) => REPLACEMENT :: lossy_chars (drop n l)
  end.
Proof.
  destruct l as [|b l]; [done|]. unfold lossy_chars at 1. cbn [chars_loop length].
  destruct (utf8_step (b :: l)) as [[[] n]|] eqn:E; [| |done]; f_equal; apply chars_loop_fuel; rewrite length_drop; cbn.
  - pose proof (utf8_step_true _ _ E). lia.
  - pose proof (utf8_step_false _ _ E). lia.
Qed.

(** What the check of a buffer says about its decoding before any bytes [r]. *)
Definition check_spec (l : list N) (pos : nat) (c : Utf8Check) : Prop :=
  match c with
  | Valid => forall r, lossy_chars (l ++ r) = lossy_chars l ++ lossy_chars r
  | Invalid v cut =>
    exists k n, v = pos + k /\ k < length l /\ utf8_step (drop k l) = Some (false, n) /\ cut = cut_off (drop k l) n
      /\ forall r, lossy_chars (take k l ++ r) = lossy_chars (take k l) ++ lossy_chars r
  end.

Lemma utf8_step_take l n : utf8_step l = Some (true, n) -> utf8_step (take n l) = Some (true, n).
Proof.
  destruct l as [|b0 [|b1 [|b2 [|b3 l]]]]; [done| | | |];
    cbn [utf8_step nth]; unfold between; intros H; cbn in H; step_cases; cbn [length] in *; cbn [take utf8_step nth];
    unfold between; repeat match goal with E : _ = _ |- _ => rewrite E end; try done.
Qed.
Lemma valid_step l n :
  utf8_step l = Some (true, n) ->
  (forall r, lossy_chars (take n l ++ r) = lossy_chars (take n l) ++ lossy_chars r).
Proof.
  intros H r'. pose proof (utf8_step_true _ _ H) as Hn.
  pose proof (utf8_step_take _ _ H) as Ht.
  rewrite (lossy_chars_step (take n l)), (lossy_chars_step (take n l ++ r')), Ht, (utf8_step_true_app _ _ _ Ht).
  assert (length (take n l) = n) as Hlen by (rewrite length_take; lia).
  rewrite take_app_le, drop_app_le by lia. by rewrite (drop_ge (take n l)) by lia.
Qed.

Lemma check_cons n l pos c :
  utf8_step l = Some (true, n) -> check_spec (drop n l) (pos + n) c -> check_spec l pos c.
Proof.
  intros E H. pose proof (utf8_step_true _ _ E) as Hn. pose proof (valid_step _ _ E) as Hv. destruct c as [|v cut]; cbn [check_spec] in *.
  - intros r. rewrite <- (take_drop n l). rewrite <- app_assoc, !Hv, H. by rewrite app_assoc.
  - destruct H as (k & m & -> & Hk & Hs & Hc & Hr). rewrite length_drop in Hk. exists (n + k), m. split_and!.
    + lia.
    + lia.
    + by rewrite <- drop_drop.
    + by rewrite <- drop_drop.
    + intros r. assert (take (n + k) l = take n l ++ take k (drop n l)) as ->.
      { rewrite <- (take_drop n l) at 1. rewrite take_app_ge by (rewrite length_take; lia).
        rewrite length_take. f_equal. f_equal. lia. }
      rewrite <- app_assoc, !Hv, Hr. by rewrite app_assoc.
Qed.

Lemma from_utf8_loop_spec fuel : forall pos l, length l <= fuel -> check_spec l pos (from_utf8_loop fuel pos l).
Proof.
  induction fuel as [|fuel IH]; intros pos l Hl; cbn [from_utf8_loop].
  { destruct l; [|cbn in Hl; lia]. by intros r. }
  destruct (utf8_step l) as [[[] n]|] eqn:E.
  - eapply check_cons; [exact E|]. apply IH. rewrite length_drop. pose proof (utf8_step_true _ _ E). lia.
  - cbn [check_spec]. exists 0, n. split_and!; [lia| |by rewrite drop_0|by rewrite drop_0|done].
    pose proof (utf8_step_false _ _ E). lia.
  - destruct l as [|b l]; [by intros r|]. destruct (utf8_step_Some b l) as (v & n & E'). congruence.
Qed.
Lemma from_utf8_spec l : check_spec l 0 (from_utf8 l).
Proof. by apply from_utf8_loop_spec. Qed.

(** An error that is not cut off is one replacement character whatever follows; one
    that is, at the very end, is one too. *)
Lemma lossy_error l n r :
  utf8_step l = Some (false, n) -> cut_off l n = false ->
  lossy_chars (l ++ r) = REPLACEMENT :: lossy_chars (drop n l ++ r).
Proof.
  intros E Hc. rewrite (lossy_chars_step (l ++ r)), (utf8_step_false_app _ _ _ E Hc).
  pose proof (utf8_step_false _ _ E). by rewrite drop_app_le by lia.
Qed.
Lemma lossy_cut_off l n :
  utf8_step l = Some (false, n) -> cut_off l n = true -> lossy_chars l = [REPLACEMENT].
Proof.
  unfold cut_off. intros E [_ Hn%Nat.eqb_eq]%andb_true_iff. rewrite lossy_chars_step, E, drop_ge by lia. done.
Qed.

(** The characters are those of the string that [to_string_lossy] gives. *)
Lemma bytes_cons c s : bytes (c :: s) = encode_utf8 c ++ bytes s.
Proof. done. Qed.
Ltac division := zify; Z.to_euclidean_division_equations; lia.

Lemma encode_two x y :
  (2 <= x < 32 -> y < 64 -> encode_utf8 (x * 64 + y) = [192 + x; 128 + y])%N.
Proof.
  intros Hx Hy. unfold encode_utf8. rewrite (proj2 (N.ltb_ge _ _)), (proj2 (N.ltb_lt _ _)) by lia.
  repeat f_equal; division.
Qed.
Lemma encode_three x y z :
  (x < 16 -> y < 64 -> z < 64 -> (x = 0 -> 32 <= y) ->
   encode_utf8 (x * 4096 + y * 64 + z) = [224 + x; 128 + y; 128 + z])%N.
Proof.
  intros Hx Hy Hz Hxy. unfold encode_utf8. rewrite (proj2 (N.ltb_ge _ _)), (proj2 (N.ltb_ge _ _)), (proj2 (N.ltb_lt _ _)) by lia.
  repeat f_equal; division.
Qed.
Lemma encode_four x y z w :
  (y < 64 -> z < 64 -> w < 64 -> (x = 0 -> 16 <= y) ->
   encode_utf8 (x * 262144 + y * 4096 + z * 64 + w) = [240 + x; 128 + y; 128 + z; 128 + w])%N.
Proof.
  intros Hy Hz Hw Hxy. unfold encode_utf8. rewrite !(proj2 (N.ltb_ge _ _)) by lia. repeat f_equal; division.
Qed.

Lemma encode_decode l n : utf8_step l = Some (true, n) -> encode_utf8 (decode_char (take n l)) = take n l.
Proof.
  destruct l as [|b0 [|b1 [|b2 [|b3 l]]]]; [done| | | |];
    cbn [utf8_step nth]; unfold between; intros H; cbn in H; step_cases; try done; cbn [take decode_char];
    bool_to_prop; try (rewrite take_0);
    first [ unfold encode_utf8; by rewrite (proj2 (N.ltb_lt _ _)) by done
          | rewrite encode_two by lia; repeat f_equal; lia
          | rewrite encode_three by lia; repeat f_equal; lia
          | rewrite encode_four by lia; repeat f_equal; lia ].
Qed.

Lemma bytes_lossy_loop fuel : forall l, bytes (chars_loop fuel l) = lossy_loop fuel l.
Proof.
  induction fuel as [|fuel IH]; intros l; [done|]. cbn [chars_loop lossy_loop].
  destruct (utf8_step l) as [[[] n]|] eqn:E; [| |done]; rewrite bytes_cons, IH.
  - by rewrite (encode_decode _ _ E).
  - done.
Qed.
Lemma lossy_loop_valid fuel : forall l, valid_utf8_loop fuel l = true -> lossy_loop fuel l = l.
Proof.
  induction fuel as [|fuel IH]; intros l H; cbn [lossy_loop valid_utf8_loop] in *; [by destruct l|].
  destruct (utf8_step l) as [[[] n]|] eqn:E; [|done|].
  - by rewrite IH, take_drop.
  - destruct l as [|b l]; [done|]. destruct (utf8_step_Some b l) as (v & n & E'). congruence.
Qed.
Lemma bytes_lossy_chars l : bytes (lossy_chars l) = to_string_lossy l.
Proof.
  unfold lossy_chars, to_string_lossy. rewrite bytes_lossy_loop.
  destruct (valid_utf8 l) eqn:E; [|done]. by apply lossy_loop_valid.
Qed.

(** Decoding the decoded string gives its characters again. *)
Lemma lossy_chars_cons_bytes bs c n r :
  utf8_step bs = Some (true, n) -> n = length bs -> decode_char bs = c ->
  lossy_chars (bs ++ r) = c :: lossy_chars r.
Proof.
  intros H -> <-. rewrite (lossy_chars_step (bs ++ r)), (utf8_step_true_app _ _ _ H).
  by rewrite take_app_length, drop_app_length.
Qed.
Lemma lossy_chars_bytes l : lossy_chars (bytes (lossy_chars l)) = lossy_chars l.
Proof.
  unfold lossy_chars at 2 3. generalize (length l) as fuel. intros fuel. revert l.
  induction fuel as [|fuel IH]; intros l; [done|]. cbn [chars_loop].
  destruct (utf8_step l) as [[[] n]|] eqn:E; [| |done]; rewrite bytes_cons.
  - rewrite (encode_decode _ _ E). pose proof (utf8_step_true _ _ E).
    erewrite lossy_chars_cons_bytes; [by rewrite IH|by apply utf8_step_take|rewrite length_take; lia|done].
  - change (encode_utf8 REPLACEMENT) with [0xEF; 0xBF; 0xBD]%N.
    erewrite lossy_chars_cons_bytes; [by rewrite IH|done..].
Qed.

(** ** Substrings and their bytes *)

Definition lead (b : N) : Prop := (b < 0x80 \/ 0xC0 <= b)%N.

Lemma decode_encode c : decode_char (encode_utf8 c) = c.
Proof.
  unfold encode_utf8. destruct (N.ltb_spec c 0x80); [done|].
  destruct (N.ltb_spec c 0x800); [cbn [decode_char]; division|].
  destruct (N.ltb_spec c 0x10000); cbn [decode_char]; division.
Qed.
Lemma encode_shape c :
  exists b tl, encode_utf8 c = b :: tl /\ lead b /\ Forall (fun x => ~ lead x) tl.
Proof.
  unfold encode_utf8, lead. destruct (N.ltb_spec c 0x80); [|destruct (N.ltb_spec c 0x800); [|destruct (N.ltb_spec c 0x10000)]];
    eexists _, _; (split; [done|]); (split; [division|]); repeat constructor; division.
Qed.

(** The number of bytes shows in the first. *)
Definition encoded_length (b : N) : nat :=
  if (b <? 0x80)%N then 1 else if (b <? 0xE0)%N then 2 else if (b <? 0xF0)%N then 3 else 4.
Lemma encode_length_lead c b tl : encode_utf8 c = b :: tl -> length (encode_utf8 c) = encoded_length b.
Proof.
  unfold encode_utf8, encoded_length. destruct (N.ltb_spec c 0x80) as [H|H].
  { intros [= -> _]. by rewrite (proj2 (N.ltb_lt _ _)). }
  destruct (N.ltb_spec c 0x800); [|destruct (N.ltb_spec c 0x10000)]; intros [= <- _]; cbn [length];
    repeat match goal with |- context [N.ltb ?a ?b] => destruct (N.ltb_spec a b) end; try done; exfalso; division.
Qed.
Lemma encode_prefix c d x y : encode_utf8 c ++ x = encode_utf8 d ++ y -> c = d /\ x = y.
Proof.
  intros H. destruct (encode_shape c) as (b & tl & Ec & _). destruct (encode_shape d) as (b' & tl' & Ed & _).
  assert (b = b') as <- by (rewrite Ec, Ed in H; by injection H).
  apply app_inj_1 in H as [H ->]; [|by rewrite (encode_length_lead _ _ _ Ec), (encode_length_lead _ _ _ Ed)].
  split; [|done]. by rewrite <- (decode_encode c), H, decode_encode.
Qed.

(** A lead byte starts a character. *)
Lemma bytes_lead_split s : forall pre b post,
  bytes s = pre ++ b :: post -> lead b -> exists p q, s = p ++ q /\ bytes p = pre /\ bytes q = b :: post.
Proof.
  induction s as [|c s IH]; intros pre b post H Hb; [by destruct pre|].
  destruct pre as [|x pre]; [by exists [], (c :: s)|].
  rewrite bytes_cons in H. destruct (encode_shape c) as (y & tl & Ec & _ & Htl).
  apply app_eq_inv in H as [(k & Hk & Hs)|(k & Hk & Hs)].
  - destruct k as [|z k].
    + destruct (IH [] b post) as (p & q & -> & Hp & Hq); [by symmetry|done|]. exists (c :: p), q.
      rewrite bytes_cons, Hp, Hk, !app_nil_r. done.
    + exfalso. injection Hs as <- _. rewrite Ec in Hk. injection Hk as <- ->.
      apply Forall_app in Htl as [_ [? _]%Forall_cons]. done.
  - destruct (IH k b post Hs Hb) as (p & q & -> & Hp & Hq). exists (c :: p), q.
    by rewrite bytes_cons, Hp, Hk.
Qed.
Lemma bytes_prefix q : forall s post, bytes s = bytes q ++ post -> exists r, s = q ++ r.
Proof.
  induction q as [|c q IH]; intros s post H; [by exists s|]. rewrite bytes_cons, <- app_assoc in H.
  destruct s as [|d s]; [exfalso|].
  - destruct (encode_shape c) as (b & tl & Ec & _). by rewrite Ec in H.
  - rewrite bytes_cons in H. apply encode_prefix in H as [-> H]. apply IH in H as (r & ->). by exists r.
Qed.
Lemma infix_bytes q s : infix (bytes q) (bytes s) <-> infix q s.
Proof.
  split; [|intros (a & b & ->); exists (bytes a), (bytes b); by rewrite !bytes_app].
  destruct q as [|c q]; [intros _; by exists [], s|]. intros (pre & post & H).
  destruct (encode_shape c) as (b & tl & Ec & Hb & _).
  destruct (bytes_lead_split s pre b (tl ++ bytes q ++ post)) as (p & r & -> & _ & Hr); [|done|].
  - rewrite H, bytes_cons, Ec. by rewrite <- !app_assoc.
  - destruct (bytes_prefix (c :: q) r post) as (r' & ->); [|by exists p, r'].
    rewrite Hr, bytes_cons, Ec. by rewrite <- !app_assoc.
Qed.

(** ** Encoding, then decoding *)

(** The Unicode scalar values: what a Rust [char] can be. *)
Definition is_scalar (c : char) : bool := (c <? 0xD800)%N || between 0xE000 0x10FFFF c.
Definition is_text (s : str) : Prop := Forall (fun c => is_scalar c = true) s.

Ltac decide_tests :=
  repeat match goal with
  | |- context [(?a <? ?b)%N] =>
    first [rewrite (proj2 (N.ltb_lt a b)) by lia | rewrite (proj2 (N.ltb_ge a b)) by lia]
  | |- context [(?a <=? ?b)%N] =>
    first [rewrite (proj2 (N.leb_le a b)) by lia | rewrite (proj2 (N.leb_gt a b)) by lia]
  | |- context [(?a =? ?b)%N] =>
    first [rewrite (proj2 (N.eqb_eq a b)) by lia | rewrite (proj2 (N.eqb_neq a b)) by lia]
  end; cbn [andb].

Lemma step_encode c : is_scalar c = true ->
  utf8_step (encode_utf8 c) = Some (true, length (encode_utf8 c)) /\ decode_char (encode_utf8 c) = c.
Proof.
  unfold is_scalar, between. intros H.
  assert ((c < 0xD800 \/ 0xE000 <= c <= 0x10FFFF)%N) as Hc by (bool_to_prop; destruct H; bool_to_prop; lia).
  clear H. unfold encode_utf8.
  destruct (N.ltb_spec c 0x80) as [?|?]; [|destruct (N.ltb_spec c 0x800) as [?|?]; [|destruct (N.ltb_spec c 0x10000) as [?|?]]];
    cbn [utf8_step nth length decode_char]; unfold between; cbv zeta.
  - split; [|done]. by decide_tests.
  - pose proof (N.div_mod c 64 ltac:(done)). pose proof (N.mod_lt c 64 ltac:(done)).
    set (q := (c / 64)%N) in *. set (r := (c mod 64)%N) in *.
    split; [by decide_tests|lia].
  - pose proof (N.div_mod c 64 ltac:(done)). pose proof (N.mod_lt c 64 ltac:(done)).
    pose proof (N.div_mod (c / 64) 64 ltac:(done)). pose proof (N.mod_lt (c / 64) 64 ltac:(done)).
    rewrite N.Div0.div_div in *. change (64 * 64)%N with 4096%N in *.
    set (q := (c / 64)%N) in *. set (r := (c mod 64)%N) in *. set (q2 := (c / 4096)%N) in *. set (r2 := (q mod 64)%N) in *.
    split; [|lia].
    destruct (N.eqb_spec (224 + q2) 224)%N; [by decide_tests|].
    destruct (N.eqb_spec (224 + q2) 237)%N; by decide_tests.
  - pose proof (N.div_mod c 64 ltac:(done)). pose proof (N.mod_lt c 64 ltac:(done)).
    pose proof (N.div_mod (c / 64) 64 ltac:(done)). pose proof (N.mod_lt (c / 64) 64 ltac:(done)).
    pose proof (N.div_mod (c / 64 / 64) 64 ltac:(done)). pose proof (N.mod_lt (c / 64 / 64) 64 ltac:(done)).
    rewrite !N.Div0.div_div in *. change (64 * 64 * 64)%N with 262144%N in *. change (64 * (64 * 64))%N with 262144%N in *.
    change (64 * 64)%N with 4096%N in *.
    set (q := (c / 64)%N) in *. set (r := (c mod 64)%N) in *. set (q2 := (c / 4096)%N) in *. set (r2 := (q mod 64)%N) in *.
    set (q3 := (c / 262144)%N) in *. set (r3 := (q2 mod 64)%N) in *.
    split; [|lia].
    destruct (N.eqb_spec (240 + q3) 240)%N; [by decide_tests|].
    destruct (N.eqb_spec (240 + q3) 244)%N; by decide_tests.
Qed.

Lemma lossy_chars_text s : is_text s -> lossy_chars (bytes s) = s.
Proof.
  induction 1 as [|c s Hc _ IH]; [done|]. rewrite bytes_cons. destruct (step_encode c Hc) as [E D].
  by rewrite (lossy_chars_cons_bytes _ c _ _ E eq_refl D), IH.
Qed.
Lemma valid_utf8_text s : is_text s -> valid_utf8 (bytes s) = true.
Proof.
  intros Hs. unfold valid_utf8. generalize (le_n (length (bytes s))). generalize (length (bytes s)) at 2 3 as fuel.
  induction Hs as [|c s Hc _ IH]; intros fuel Hf; [by destruct fuel|]. rewrite bytes_cons in *.
  destruct (step_encode c Hc) as [E _]. pose proof (utf8_step_true _ _ E). rewrite length_app in Hf.
  destruct fuel as [|fuel]; [lia|]. cbn [valid_utf8_loop].
  rewrite (utf8_step_true_app _ _ _ E), drop_app_length. apply IH. lia.
Qed.

Lemma decode_scalar l n : utf8_step l = Some (true, n) -> is_scalar (decode_char (take n l)) = true.
Proof.
  destruct l as [|b0 [|b1 [|b2 [|b3 l]]]]; [done| | | |];
    cbn [utf8_step nth]; unfold between; intros H; cbn in H; step_cases; try done; cbn [take decode_char];
    bool_to_prop; try (rewrite take_0); unfold is_scalar, between; apply orb_true_iff;
    first [ left; apply N.ltb_lt; lia | right; apply andb_true_iff; split; apply N.leb_le; lia
          | destruct (N.lt_ge_cases b0 0xED);
            [left; apply N.ltb_lt; lia|right; apply andb_true_iff; split; apply N.leb_le; lia] ].
Qed.
Lemma is_text_lossy l : is_text (lossy_chars l).
Proof.
  unfold lossy_chars, is_text. generalize (length l) as fuel. intros fuel. revert l.
  induction fuel as [|fuel IH]; intros l; [constructor|]. cbn [chars_loop].
  destruct (utf8_step l) as [[[] n]|] eqn:E; [| |constructor]; constructor; [by apply decode_scalar|apply IH|done|apply IH].
Qed.

(** Well-formed UTF-8 is what the characters of a text encode to. *)
Lemma valid_utf8_iff l : valid_utf8 l = true <-> exists s, is_text s /\ l = bytes s.
Proof.
  split; [|by intros (s & Hs & ->); apply valid_utf8_text]. intros Hv. exists (lossy_chars l). split; [apply is_text_lossy|].
  rewrite bytes_lossy_chars. unfold to_string_lossy. by rewrite Hv.
Qed.
Lemma valid_utf8_app a b : valid_utf8 a = true -> valid_utf8 b = true -> valid_utf8 (a ++ b) = true.
Proof.
  rewrite !valid_utf8_iff. intros (s & Hs & ->) (t & Ht & ->). exists (s ++ t). rewrite bytes_app. split; [|done].
  by apply Forall_app.
Qed.
Lemma valid_utf8_split a b c : (b < 0x80)%N -> valid_utf8 (a ++ b :: c) = true <-> valid_utf8 a = true /\ valid_utf8 c = true.
Proof.
  intros Hb. split.
  - rewrite valid_utf8_iff. intros (s & Hs & E). symmetry in E. apply bytes_ascii_split in E as (p & q & -> & <- & <-); [|done].
    apply Forall_app in Hs as [Hp [_ Hq]%Forall_cons]. by rewrite !valid_utf8_text.
  - intros [Ha Hc]. apply valid_utf8_app; [done|]. apply (valid_utf8_app [b]); [|done].
    unfold valid_utf8. cbn. by rewrite (proj2 (N.ltb_lt _ _)).
Qed.
