(* ===== verification/LiteralCount.v ===== *)
(** * Counting the lines of a file that contain a literal, from reads of any size.

  search_literal.rs counts matching lines while it reads; search.rs finds the same
  lines in the whole decoded text to show them.  A [Panics] outcome is an index out
  of bounds; [Binary] is a NUL among the first bytes. *)
From S2P Require Import Prelude Utf8 Paths Chunking Presentation SubstringCandidates LineMatcher Decoding.

Inductive Outcome (A : Type) := Panics | Binary | Goes (a : A).
Arguments Panics {A}.
Arguments Binary {A}.
Arguments Goes {A} _.
Definition and_then {A B} (o : Outcome A) (f : A -> Outcome B) : Outcome B :=
  match o with Panics => Panics | Binary => Binary | Goes a => f a end.

Record LineCounter := MkCounter {
  matched : nat;
  matched_line : bool;
  line_count : nat;
  sniffed_bytes : nat
}.
Record LineCount := MkCount { file_matches : nat; is_lower_bound : bool }.

(** What [file.read] returns. *)
Inductive Read (E : Type) := Interrupted | ReadError (e : E) | ReadBytes (bs : list N).
Arguments Interrupted {E}.
Arguments ReadError {E} _.
Arguments ReadBytes {E} _.

(** ** The preview of a hit (search.rs) *)

Definition MAX_PREVIEW_LINE_BYTES : nat := 1024.
Definition PREVIEW_CUT_MARKER : str := [0x2026%N].

(** [str::is_char_boundary], [str::find]. *)
Definition is_char_boundary (s : str) (i : nat) : bool := is_some (drop_bytes i s).
Fixpoint find_str (p s : str) : option nat :=
  if starts_with p s then Some 0
  else match s with [] => None | c :: s' => Nat.add (len_utf8 c) <$> find_str p s' end.

(** The loops that step to a boundary; [None] is one that never ends. *)
Fixpoint boundary_up (fuel : nat) (s : str) (i : nat) : option nat :=
  match fuel with
  | O => None
  | S fuel => if is_char_boundary s i then Some i else boundary_up fuel s (S i)
  end.
Fixpoint boundary_down (s : str) (i : nat) : option nat :=
  if is_char_boundary s i then Some i else match i with O => None | S i => boundary_down s i end.

(** [None] is a panic. *)
Definition preview_line_window (line : str) (first_match : option (nat * nat)) : option str :=
  let len := blen line in
  if len <=? MAX_PREVIEW_LINE_BYTES then Some line
  else
    let start :=
      match first_match with
      | Some (s, e) =>
        if (s <=? e) && (e <=? len)
        then Nat.min (s - (MAX_PREVIEW_LINE_BYTES - (e - s)) / 2) (len - MAX_PREVIEW_LINE_BYTES)
        else 0
      | None => 0
      end in
    start ← boundary_up (S (len - start)) line start;
    end_ ← boundary_down line (Nat.min (start + MAX_PREVIEW_LINE_BYTES) len);
    window ← slice line start end_;
    Some ((if 0 <? start then PREVIEW_CUT_MARKER else []) ++ window
          ++ (if end_ <? len then PREVIEW_CUT_MARKER else [])).

Section Preview.
Context (unicode_lowercase : char -> str).

(** Where each character of a line begins, in the folded line and in the line. *)
Fixpoint origins (folded offset : nat) (line : str) : list (nat * nat) :=
  match line with
  | [] => []
  | c :: line =>
    (folded, offset)
      :: origins (folded + blen (fold_literal_char unicode_lowercase c)) (offset + len_utf8 c) line
  end.
Definition source_offset (line : str) (folded_offset : nat) : option nat :=
  snd <$> last (take_while (fun o => fst o <=? folded_offset) (origins 0 0 line)).

(** The outer [None] is a panic. *)
Definition literal_match_range (line query_lower : str) : option (option (nat * nat)) :=
  if bool_decide (query_lower = []) then Some None
  else if forallb is_ascii line then
    Some ((fun start => (start, start + blen query_lower)) <$> find_str query_lower (ascii_lower line))
  else
    match find_str query_lower (line ≫= fold_literal_char unicode_lowercase) with
    | None => Some None
    | Some found =>
      start ← source_offset line found;
      last_ ← source_offset line (found + blen query_lower - 1);
      rest ← drop_bytes last_ line;
      Some (Some (start, last_ + match rest with c :: _ => len_utf8 c | [] => 0 end))
    end.

Definition preview_line (start_line match_line : nat) (query_lower : str) (offset : nat) (line : str) : option str :=
  found ← (if (start_line + offset =? match_line) && (MAX_PREVIEW_LINE_BYTES <? blen line)
           then literal_match_range line query_lower else Some None);
  preview_line_window line found.
Definition literal_preview (lines : list str) (start_line match_line : nat) (query_lower : str) : option str :=
  join [10%N] <$> mapM (fun il => preview_line start_line match_line query_lower (fst il) (snd il)) (imap pair lines).
End Preview.

Section Count.
Context (unicode_lowercase : char -> str) (m : LineMatcher).

Definition new_counter : LineCounter := MkCounter 0 false 0 0.

Definition byte_step (b : N) (c : LineCounter) : option LineCounter :=
  k ← advance m b (matched c);
  Some (MkCounter k (k =? length (needle m)) (line_count c) (sniffed_bytes c)).

(** The bytes of a folded character, until the line has matched. *)
Fixpoint feed (bs : list N) (c : LineCounter) : option LineCounter :=
  match bs with
  | [] => Some c
  | b :: bs => c ← byte_step b c; if matched_line c then Some c else feed bs c
  end.

Definition character (ch : char) (c : LineCounter) : Outcome LineCounter :=
  if (sniffed_bytes c <? TEXT_SNIFF_BYTES) && (ch =? 0)%N then Binary
  else
    let sniffed := Nat.min (sniffed_bytes c + len_utf8 ch) TEXT_SNIFF_BYTES in
    if (ch =? 10)%N then
      Goes (MkCounter 0 false (line_count c + Nat.b2n (matched_line c)) sniffed)
    else
      let c := MkCounter (matched c) (matched_line c) (line_count c) sniffed in
      if matched_line c then Goes c
      else
        match feed (if is_ascii ch then [to_ascii_lowercase ch]
                    else bytes (map fold_sigma (unicode_lowercase ch))) c with
        | Some c => Goes c
        | None => Panics
        end.

(** The two branches of [text] feed the same characters. *)
Fixpoint text (s : str) (c : LineCounter) : Outcome LineCounter :=
  match s with
  | [] => Goes c
  | ch :: s => and_then (character ch c) (text s)
  end.

Definition finish (c : LineCounter) : nat := line_count c + Nat.b2n (matched_line c).

(** The loop over one filled buffer: the counter, and the bytes carried over;
    [at_end] tells that nothing was read. *)
Fixpoint decode_buffer (fuel : nat) (at_end : bool) (buf : list N) (c : LineCounter)
  : Outcome (LineCounter * list N) :=
  match fuel with
  | O => Goes (c, [])
  | S fuel =>
    match buf with
    | [] => Goes (c, [])
    | _ =>
      match from_utf8 buf with
      | Valid => and_then (text (lossy_chars buf) c) (fun c => Goes (c, []))
      | Invalid valid_up_to cut =>
        and_then (text (lossy_chars (take valid_up_to buf)) c) (fun c =>
          let rest := drop valid_up_to buf in
          if negb cut then
            and_then (character REPLACEMENT c) (fun c =>
              decode_buffer fuel at_end (drop (match utf8_step rest with Some (_, n) => n | None => 0 end) rest) c)
          else if at_end then and_then (character REPLACEMENT c) (fun c => Goes (c, []))
          else Goes (c, rest))
      end
    end
  end.
Definition decode (at_end : bool) (buf : list N) (c : LineCounter) : Outcome (LineCounter * list N) :=
  decode_buffer (S (length buf)) at_end buf c.

(** [count_lines]: whether the search is cancelled before each read, and what the
    read returns; the file ends with the reads.  [None] is a panic, [Ok None] a
    binary file or a cancelled search. *)
Fixpoint count_loop {E} (stop_after_first_match : bool) (reads : list (bool * Read E)) (carry : list N)
    (c : LineCounter) : option (Result E (option LineCount)) :=
  let final :=
    match decode true carry c with
    | Panics => None
    | Binary => Some (Ok None)
    | Goes (c, _) => Some (Ok (Some (MkCount (finish c) false)))
    end in
  match reads with
  | [] => final
  | (true, _) :: _ => Some (Ok None)
  | (false, Interrupted) :: reads => count_loop stop_after_first_match reads carry c
  | (false, ReadError e) :: _ => Some (Err e)
  | (false, ReadBytes []) :: _ => final
  | (false, ReadBytes bs) :: reads =>
    match decode false (carry ++ bs) c with
    | Panics => None
    | Binary => Some (Ok None)
    | Goes (c, carry) =>
      if stop_after_first_match && (TEXT_SNIFF_BYTES <=? sniffed_bytes c)
         && ((0 <? line_count c) || matched_line c)
      then Some (Ok (Some (MkCount (finish c) true)))
      else count_loop stop_after_first_match reads carry c
    end
  end.
Definition count_lines {E} (stop_after_first_match : bool) (reads : list (bool * Read E))
  : option (Result E (option LineCount)) :=
  count_loop stop_after_first_match reads [] new_counter.

(** ** The hits of a text *)

Definition binary_prefix (content : str) : bool :=
  existsb (N.eqb 0) (take TEXT_SNIFF_BYTES (bytes content)).

(** A hit: its line, the lines its preview shows, and the preview, where [None] is a panic. *)
Record LiteralHit := MkHit {
  hit_line : nat;
  hit_start : nat;
  hit_end : nat;
  hit_preview : option str;
  hit_reason : str
}.

Definition literal_hits_in_content (content : str) (query_lower : str) (context : nat) (max_hits : option nat)
  : list LiteralHit :=
  if binary_prefix content then []
  else
    let lines := str_lines content in
    let matching := filter (fun il : nat * str =>
      contains query_lower (fold_literal_case unicode_lowercase (snd il)) = true) (imap pair lines) in
    map (fun '(index, line) =>
           let '(start_line, end_line) := snippet_bounds (index + 1) context (length lines) in
           MkHit (index + 1) start_line end_line
             (if (start_line - 1 <=? end_line) && (end_line <=? length lines)
              then literal_preview unicode_lowercase (take (end_line - (start_line - 1)) (drop (start_line - 1) lines))
                     start_line (index + 1) query_lower
              else None)
             (lit "literal match: " ++ truncate_for_reason (trim line)))
      (match max_hits with Some n => take n matching | None => matching end).
End Count.

(** * The streamed count of matching lines is the number of hits of the whole text. *)

(** ** Previews never panic *)

Lemma boundary_app p s : is_char_boundary (p ++ s) (blen p) = true.
Proof. unfold is_char_boundary. by rewrite drop_bytes_app. Qed.
Lemma boundary_end s : is_char_boundary s (blen s) = true.
Proof. rewrite <- (app_nil_r s) at 1. apply boundary_app. Qed.
Lemma boundary_split s i : is_char_boundary s i = true -> exists p q, s = p ++ q /\ blen p = i.
Proof.
  unfold is_char_boundary. destruct (drop_bytes i s) as [r|] eqn:E; [|done]. intros _.
  apply drop_bytes_Some in E as (p & -> & <-). by exists p, r.
Qed.
(** Of four offsets in a row within the text one is a boundary. *)
Lemma boundary_near s i : i <= blen s -> exists j, i <= j < i + 4 /\ j <= blen s /\ is_char_boundary s j = true.
Proof.
  revert i. induction s as [|c s IH]; intros i Hi; [exists 0; cbn in *; split; [lia|done]|].
  cbn [blen] in Hi. assert (len_utf8 c <= 4) as Hc by (unfold len_utf8; repeat case_match; lia).
  assert (forall k, is_char_boundary s k = true -> is_char_boundary (c :: s) (len_utf8 c + k) = true) as Hcons.
  { intros k (p & q & -> & <-)%boundary_split. apply (boundary_app (c :: p) q). }
  destruct i as [|i]; [exists 0; split; [lia|]; split; [lia|done]|].
  destruct (decide (S i <= len_utf8 c)) as [Hle|Hgt].
  - exists (len_utf8 c). split; [lia|]. split; [cbn; lia|].
    rewrite <- (Nat.add_0_r (len_utf8 c)). apply Hcons. by destruct s.
  - destruct (IH (S i - len_utf8 c)) as (j & Hj & Hl & Hb); [lia|]. exists (len_utf8 c + j).
    split; [lia|]. split; [cbn; lia|]. by apply Hcons.
Qed.

Lemma boundary_up_spec s fuel : forall i j, i <= j -> is_char_boundary s j = true -> j < i + fuel ->
  exists k, boundary_up fuel s i = Some k /\ i <= k <= j /\ is_char_boundary s k = true.
Proof.
  induction fuel as [|fuel IH]; intros i j Hij Hj Hf; [lia|]. cbn [boundary_up].
  destruct (is_char_boundary s i) eqn:E; [exists i; split; [done|split; [lia|done]]|].
  assert (i <> j) by congruence. destruct (IH (S i) j) as (k & Hk & Hr & Hb); [lia|done|lia|]. exists k. split; [done|]. split; [lia|done].
Qed.
Lemma boundary_down_spec s i : forall j, j <= i -> is_char_boundary s j = true ->
  exists k, boundary_down s i = Some k /\ j <= k <= i /\ is_char_boundary s k = true.
Proof.
  induction i as [|i IH]; intros j Hij Hj; cbn [boundary_down].
  - assert (j = 0) as -> by lia. rewrite Hj. by exists 0.
  - destruct (is_char_boundary s (S i)) eqn:E; [exists (S i); split; [done|split; [lia|done]]|].
    assert (j <> S i) by congruence. destruct (IH j) as (k & Hk & Hr & Hb); [lia|done|]. exists k. split; [done|]. split; [lia|done].
Qed.
Lemma slice_boundaries s i j : i <= j -> is_char_boundary s i = true -> is_char_boundary s j = true -> is_Some (slice s i j).
Proof.
  intros Hij (p & q & Hs & <-)%boundary_split (p' & q' & Hs' & <-)%boundary_split. rewrite Hs in Hs'.
  assert (exists m, p' = p ++ m) as [m ->].
  { clear Hs s. revert p' Hs' Hij. induction p as [|c p IH]; intros p' H Hl; [by exists p'|].
    destruct p' as [|c' p']; [cbn in Hl; pose proof (len_utf8_pos c); lia|]. injection H as <- H. cbn in Hl.
    destruct (IH p' H) as [m ->]; [lia|]. by exists m. }
  rewrite <- app_assoc in Hs'. apply app_inv_head in Hs' as ->. rewrite Hs, blen_app, slice_app. by eexists.
Qed.

Lemma preview_line_window_total line first : is_Some (preview_line_window line first).
Proof.
  unfold preview_line_window. destruct (Nat.leb_spec (blen line) MAX_PREVIEW_LINE_BYTES) as [|Hlen]; [by eexists|].
  set (start := match first with Some (s, e) => _ | None => 0 end).
  assert (start <= blen line - MAX_PREVIEW_LINE_BYTES) as Hstart.
  { unfold start. destruct first as [[s e]|]; [|lia]. destruct (_ && _); [apply Nat.le_min_r|lia]. }
  clearbody start. unfold MAX_PREVIEW_LINE_BYTES in *.
  destruct (boundary_near line start) as (j & Hj & Hjl & Hjb); [lia|].
  destruct (boundary_up_spec line (S (blen line - start)) start j) as (s & -> & Hs & Hsb); [lia|done|lia|]. cbn [mbind option_bind].
  destruct (boundary_near line (Nat.min (s + 1024) (blen line) - 3)) as (e & He & Hel & Heb); [lia|].
  destruct (boundary_down_spec line (Nat.min (s + 1024) (blen line)) e) as (e' & -> & He' & Heb'); [lia|done|]. cbn [mbind option_bind].
  destruct (slice_boundaries line s e') as [w ->]; [lia|done|done|]. by eexists.
Qed.

Section PreviewFacts.
Context (unicode_lowercase : char -> str).

Lemma origins_boundaries line : forall folded pre o, o ∈ origins unicode_lowercase folded (blen pre) line ->
  is_char_boundary (pre ++ line) (snd o) = true.
Proof.
  induction line as [|c line IH]; intros folded pre o; cbn [origins]; [by intros ?%not_elem_of_nil|].
  intros [->|Ho]%elem_of_cons; [apply boundary_app|]. replace (blen pre + len_utf8 c) with (blen (pre ++ [c])) in Ho by (rewrite blen_app; cbn; lia).
  apply IH in Ho. by rewrite <- app_assoc in Ho.
Qed.
Lemma source_offset_total line x : line <> [] ->
  exists i, source_offset unicode_lowercase line x = Some i /\ is_char_boundary line i = true.
Proof.
  intros Hne. unfold source_offset. destruct (last (take_while _ _)) as [o|] eqn:E.
  - exists (snd o). split; [done|]. apply (origins_boundaries line 0 []).
    apply last_Some_elem_of in E. cbn [blen]. rewrite (drop_while_split (fun o => fst o <=? x) (origins unicode_lowercase 0 0 line)).
    apply elem_of_app. by left.
  - destruct line as [|c line]; [done|]. apply last_None in E. done.
Qed.
Lemma literal_match_range_total line query : is_Some (literal_match_range unicode_lowercase line query).
Proof.
  unfold literal_match_range. case_bool_decide as Hq; [by eexists|]. destruct (forallb is_ascii line) eqn:Ea; [by eexists|].
  assert (line <> []) as Hne by (by intros ->). destruct (find_str _ _) as [found|]; [|by eexists].
  destruct (source_offset_total line found Hne) as (i & -> & _). cbn [mbind option_bind].
  destruct (source_offset_total line (found + blen query - 1) Hne) as (j & -> & Hj). cbn [mbind option_bind].
  unfold is_char_boundary in Hj. destruct (drop_bytes j line); [by eexists|done].
Qed.
(** The preview of every hit can be made. *)
Lemma literal_preview_total lines start_line match_line query :
  is_Some (literal_preview unicode_lowercase lines start_line match_line query).
Proof.
  unfold literal_preview. apply fmap_is_Some, mapM_is_Some, Forall_true. intros [offset line]. unfold preview_line.
  assert (is_Some (if (start_line + offset =? match_line) && (MAX_PREVIEW_LINE_BYTES <? blen line)
    then literal_match_range unicode_lowercase line query else Some None)) as [found Hf]
    by (destruct (_ && _); [apply literal_match_range_total|by eexists]).
  unfold compose. cbn [fst snd]. rewrite Hf. apply preview_line_window_total.
Qed.

Lemma hits_have_previews content query_lower context max_hits h :
  h ∈ literal_hits_in_content unicode_lowercase content query_lower context max_hits -> is_Some (hit_preview h).
Proof.
  unfold literal_hits_in_content. destruct (binary_prefix content); [by intros ?%not_elem_of_nil|].
  set (lines := str_lines content). intros ([i line] & -> & Hin)%list_elem_of_fmap.
  assert ((i, line) ∈ imap pair lines) as Hi.
  { destruct max_hits as [n|]; [apply elem_of_take in Hin as (? & ?%list_elem_of_lookup_2 & _)|]; by eapply list_elem_of_filter. }
  apply list_elem_of_lookup in Hi as [j Hj]. rewrite list_lookup_imap in Hj. destruct (lines !! j) as [l|] eqn:El; [|done].
  injection Hj as -> ->. apply lookup_lt_Some in El. unfold snippet_bounds. cbn [hit_preview].
  destruct (Nat.leb_spec (Nat.max 1 (i + 1 - context) - 1) (Nat.min (i + 1 + context) (length lines))); [|lia].
  destruct (Nat.leb_spec (Nat.min (i + 1 + context) (length lines)) (length lines)); [|lia]. apply literal_preview_total.
Qed.
End PreviewFacts.

(** ** Binary prefixes *)

Lemma binary_prefix_app s t : binary_prefix s = true -> binary_prefix (s ++ t) = true.
Proof.
  unfold binary_prefix. rewrite !existsb_exists. intros (x & Hx & E). exists x. split; [|done].
  apply list_elem_of_In. apply list_elem_of_In in Hx. rewrite bytes_app, take_app.
  apply elem_of_app. by left.
Qed.
Lemma encode_zero c : 0%N ∈ encode_utf8 c <-> c = 0%N.
Proof.
  split; [|intros ->; left]. intros H. by destruct (encoded_ascii c 0 H ltac:(lia)) as [_ <-].
Qed.
Lemma binary_prefix_snoc s ch :
  binary_prefix s = false ->
  binary_prefix (s ++ [ch]) = (Nat.min (blen s) TEXT_SNIFF_BYTES <? TEXT_SNIFF_BYTES) && (ch =? 0)%N.
Proof.
  unfold binary_prefix. intros Hs. rewrite bytes_app, take_app, existsb_app, Hs, length_bytes. cbn [orb].
  change (bytes [ch]) with (encode_utf8 ch ++ []). rewrite app_nil_r.
  destruct (Nat.ltb_spec (Nat.min (blen s) TEXT_SNIFF_BYTES) TEXT_SNIFF_BYTES) as [Hlt|Hge]; cbn [andb].
  - assert (0 < TEXT_SNIFF_BYTES - blen s) as Hpos by lia. destruct (TEXT_SNIFF_BYTES - blen s) as [|n]; [lia|].
    destruct (N.eqb_spec ch 0) as [->|Hne]; [done|]. apply not_true_iff_false. rewrite existsb_exists.
    intros (x & Hx%list_elem_of_In & ->%N.eqb_eq%eq_sym). apply Hne, encode_zero.
    rewrite <- (take_drop (S n) (encode_utf8 ch)). apply elem_of_app. by left.
  - assert (TEXT_SNIFF_BYTES - blen s = 0) as -> by lia. done.
Qed.

(** ** Lines *)

Definition is_newline (c : char) : bool := (c =? 10)%N.
Abbreviation pieces := (split_where is_newline).

Lemma split_where_snoc f s c : forall before last,
  split_where f s = before ++ [last] ->
  split_where f (s ++ [c]) = if f c then before ++ [last; []] else before ++ [last ++ [c]].
Proof.
  induction s as [|x s IH]; intros before last H; cbn [app split_where] in *.
  { destruct before as [|y before]; [injection H as <-; by destruct (f c)|]. by destruct before. }
  destruct (f x) eqn:Ex.
  - destruct before as [|y before].
    + injection H as H1 H2. exfalso. revert H2. clear. destruct s as [|z s]; cbn; [done|]. by repeat case_match.
    + injection H as <- H. rewrite (IH _ _ H). by destruct (f c).
  - destruct (split_where f s) as [|w ws] eqn:Es.
    { exfalso. revert Es. clear. destruct s as [|z s]; cbn; [done|]. by repeat case_match. }
    destruct before as [|y before].
    + injection H as <- ->. rewrite (IH [] w eq_refl). by destruct (f c).
    + injection H as <- ->. rewrite (IH (w :: before) last eq_refl). by destruct (f c).
Qed.

Lemma filter_numbered (P : str -> bool) (f : nat -> nat) l :
  length (filter (fun il : nat * str => P (snd il) = true) (imap (fun i x => (f i, x)) l))
  = length (filter (fun w => P w = true) l).
Proof.
  revert f. induction l as [|w l IH]; intros f; [done|]. cbn [imap]. rewrite !filter_cons. cbn [snd].
  destruct (decide (P w = true)); cbn [length]; [f_equal|]; apply (IH (f ∘ S)).
Qed.

Section Lines.
Context (P : str -> bool) (Hcr : forall w, P (strip_cr w) = P w) (Hnil : P [] = false).
Abbreviation count l := (length (filter (fun w : str => P w = true) l)).

Lemma count_cons w l : count (w :: l) = Nat.b2n (P w) + count l.
Proof. rewrite filter_cons. destruct (P w) eqn:E; by rewrite ?decide_True, ?decide_False by congruence. Qed.
Lemma count_app l l' : count (l ++ l') = count l + count l'.
Proof. by rewrite filter_app, length_app. Qed.

(** The lines of a text and its pieces between line breaks match alike. *)
Lemma count_lines_loop s : forall w,
  count (lines_loop s w) =
  match pieces s with p :: ps => Nat.b2n (P (w ++ p)) + count ps | [] => 0 end.
Proof.
  induction s as [|c s IH]; intros w; cbn [lines_loop split_where].
  - rewrite app_nil_r. destruct (decide (w = [])) as [->|]; [by rewrite Hnil|]. by rewrite count_cons.
  - change (is_newline c) with (c =? 10)%N. destruct (c =? 10)%N.
    + rewrite count_cons, Hcr, IH, app_nil_r. destruct (pieces s) as [|p ps] eqn:E; [|by rewrite (count_cons p)].
      exfalso. revert E. clear. destruct s as [|z s]; cbn; [done|]. by repeat case_match.
    + rewrite IH. destruct (pieces s) as [|p ps] eqn:E.
      { exfalso. revert E. clear. destruct s as [|z s]; cbn; [done|]. by repeat case_match. }
      by rewrite <- app_assoc.
Qed.
Lemma count_str_lines s : count (str_lines s) = count (pieces s).
Proof.
  unfold str_lines. rewrite count_lines_loop. destruct (pieces s) as [|p ps]; [done|]. by rewrite count_cons.
Qed.
End Lines.

(** ** The counter *)

Section Counter.
Context (unicode_lowercase : char -> str) (q : str) (m : LineMatcher).
Context (Hq : q <> []) (Hneedle : needle m = bytes q) (Htable : table_ok m (length (bytes q))).
Abbreviation fold_char := (fold_literal_char unicode_lowercase).
Definition line_matches (w : str) : bool := contains q (fold_literal_case unicode_lowercase w).
Abbreviation fold w := (fold_literal_case unicode_lowercase w).

Lemma needle_length : 0 < length (needle m).
Proof.
  rewrite Hneedle, length_bytes. destruct q as [|c q']; [done|]. cbn [blen]. pose proof (len_utf8_pos c). lia.
Qed.

(** What the counter knows of the folded text [T] of a line so far. *)
Definition knows (T : list N) (c : LineCounter) : Prop :=
  if matched_line c then infix (needle m) T else ~ infix (needle m) T /\ longest (needle m) T (matched c).

Lemma byte_step_spec b T c :
  matched_line c = false -> knows T c ->
  exists c', byte_step m b c = Some c' /\ knows (T ++ [b]) c' /\ line_count c' = line_count c
    /\ sniffed_bytes c' = sniffed_bytes c.
Proof.
  unfold knows, byte_step. intros Hc. rewrite Hc. intros [Hno Hl].
  assert (matched c < length (needle m)) as Hlt.
  { destruct Hl as [[Hle Hs] Hmax]. destruct (decide (matched c = length (needle m))) as [E|]; [exfalso|lia].
    apply Hno. rewrite E, firstn_all in Hs. destruct Hs as [a ->]. exists a, []. by rewrite app_nil_r. }
  destruct (matcher_advance_spec m b T (matched c)) as (k & -> & Hk); [|done|done|].
  { intros i Hi. apply Htable. rewrite <- Hneedle. lia. }
  cbn [mbind option_bind]. eexists. split; [done|]. cbn [matched_line matched line_count sniffed_bytes].
  split; [|done]. pose proof (longest_full _ _ _ Hk) as Hfull.
  destruct (Nat.eqb_spec k (length (needle m))) as [E|E].
  - apply infix_snoc. right. by apply Hfull.
  - split; [|done]. intros [?|Hs]%infix_snoc; [done|]. by apply E, Hfull.
Qed.
Lemma feed_spec bs : forall T c,
  matched_line c = false -> knows T c ->
  exists c', feed m bs c = Some c' /\ knows (T ++ bs) c' /\ line_count c' = line_count c
    /\ sniffed_bytes c' = sniffed_bytes c.
Proof.
  induction bs as [|b bs IH]; intros T c Hc Hk; cbn [feed].
  { exists c. by rewrite app_nil_r. }
  destruct (byte_step_spec b T c Hc Hk) as (c' & -> & Hk' & Hl & Hs). cbn [mbind option_bind].
  destruct (matched_line c') eqn:E.
  - exists c'. split_and!; try done. unfold knows in *. rewrite E in *.
    replace (T ++ b :: bs) with ((T ++ [b]) ++ bs) by (by rewrite <- app_assoc). by apply infix_app_l.
  - destruct (IH (T ++ [b]) c' E Hk') as (c'' & -> & Hk'' & Hl' & Hs'). exists c''.
    rewrite <- app_assoc in Hk''. split_and!; [done|done|congruence|congruence].
Qed.

(** The counter after the characters of [s]. *)
Record counted (s : str) (c : LineCounter) : Prop := MkCounted {
  ct_text : binary_prefix s = false;
  ct_sniffed : sniffed_bytes c = Nat.min (blen s) TEXT_SNIFF_BYTES;
  ct_lines : exists before cur, pieces s = before ++ [cur]
    /\ line_count c = length (filter (fun w => line_matches w = true) before)
    /\ knows (bytes (fold cur)) c
}.

Lemma counted_new : counted [] new_counter.
Proof.
  split; [done|done|]. exists [], []. split_and!; [done|done|]. unfold knows, new_counter. cbn [matched_line matched].
  split; [|apply longest_nil]. intros (a & b & H). pose proof needle_length as Hn.
  destruct (needle m) as [|x n]; [cbn in Hn; lia|]. change (bytes (fold [])) with (@nil N) in H. by destruct a.
Qed.

Lemma knows_fold cur ch c bs :
  matched_line c = false -> knows (bytes (fold cur)) c -> bs = bytes (fold_char ch) ->
  exists c', feed m bs c = Some c' /\ knows (bytes (fold (cur ++ [ch]))) c' /\ line_count c' = line_count c
    /\ sniffed_bytes c' = sniffed_bytes c.
Proof.
  intros Hc Hk ->. rewrite !fold_literal_case_bind, bind_app, bytes_app in *.
  change ([ch] ≫= fold_char) with (fold_char ch ++ []). rewrite app_nil_r. by apply feed_spec.
Qed.

Lemma fed_bytes ch :
  (if is_ascii ch then [to_ascii_lowercase ch] else bytes (map fold_sigma (unicode_lowercase ch)))
  = bytes (fold_char ch).
Proof.
  destruct (is_ascii ch) eqn:E.
  - rewrite fold_ascii by done. symmetry. apply ascii_bytes. constructor; [|done]. apply lower_ascii.
    unfold is_ascii in E. by apply N.ltb_lt in E.
  - unfold fold_literal_char, to_lowercase. by rewrite E.
Qed.

Lemma character_spec s ch c :
  counted s c ->
  if binary_prefix (s ++ [ch]) then character unicode_lowercase m ch c = Binary
  else exists c', character unicode_lowercase m ch c = Goes c' /\ counted (s ++ [ch]) c'.
Proof.
  intros [Hbin Hsn (before & cur & Hp & Hl & Hk)]. unfold character. rewrite (binary_prefix_snoc s ch Hbin), <- Hsn.
  destruct ((sniffed_bytes c <? TEXT_SNIFF_BYTES) && (ch =? 0)%N) eqn:E; [done|].
  assert (binary_prefix (s ++ [ch]) = false) as Hbin' by (by rewrite (binary_prefix_snoc s ch Hbin), <- Hsn).
  assert (Nat.min (sniffed_bytes c + len_utf8 ch) TEXT_SNIFF_BYTES = Nat.min (blen (s ++ [ch])) TEXT_SNIFF_BYTES) as Hsn'
    by (rewrite Hsn, blen_app; cbn [blen]; lia).
  pose proof (split_where_snoc is_newline s ch before cur Hp) as Hp'. change (is_newline ch) with (ch =? 10)%N in Hp'.
  destruct (ch =? 10)%N.
  - eexists. split; [done|]. split; [done|done|]. exists (before ++ [cur]), []. cbn [line_count matched_line]. split_and!.
    + by rewrite <- app_assoc.
    + rewrite count_app, count_cons, Hl. cbn [filter length]. rewrite Nat.add_0_r. f_equal.
      unfold knows in Hk. unfold line_matches. destruct (matched_line c).
      * rewrite Hneedle, infix_bytes, <- contains_spec in Hk. by rewrite Hk.
      * destruct Hk as [Hk _]. rewrite Hneedle, infix_bytes, <- contains_spec in Hk. by rewrite (not_true_is_false _ Hk).
    + pose proof counted_new as [_ _ (b & cu & Hb & _ & Hn)]. change (pieces []) with [@nil N] in Hb.
      destruct b as [|? [|]]; [|done..]. injection Hb as <-. exact Hn.
  - set (c1 := MkCounter (matched c) (matched_line c) (line_count c) _).
    assert (knows (bytes (fold cur)) c1) as Hk1 by exact Hk.
    destruct (matched_line c1) eqn:Em.
    + eexists. split; [done|]. split; [done|done|]. exists before, (cur ++ [ch]). split_and!; [done|done|].
      unfold knows in *. rewrite Em in *. rewrite fold_literal_case_bind, bind_app, bytes_app in *. by apply infix_app_l.
    + rewrite fed_bytes. destruct (knows_fold cur ch c1 _ Em Hk1 eq_refl) as (c' & -> & Hk' & Hl' & Hs').
      exists c'. split; [done|]. split; [done|by rewrite Hs'|]. exists before, (cur ++ [ch]). split_and!; [done| |done].
      by rewrite Hl'.
Qed.

Definition text_result (s : str) (o : Outcome LineCounter) : Prop :=
  match o with
  | Panics => False
  | Binary => binary_prefix s = true
  | Goes c => counted s c
  end.

Lemma text_spec t : forall s c, counted s c -> text_result (s ++ t) (text unicode_lowercase m t c).
Proof.
  induction t as [|ch t IH]; intros s c Hc; cbn [text]; [by rewrite app_nil_r|].
  pose proof (character_spec s ch c Hc) as H.
  replace (s ++ ch :: t) with ((s ++ [ch]) ++ t) by (by rewrite <- app_assoc).
  destruct (binary_prefix (s ++ [ch])) eqn:E.
  - rewrite H. cbn. by apply binary_prefix_app.
  - destruct H as (c' & -> & Hc'). cbn [and_then]. by apply IH.
Qed.

(** ** Buffers *)

(** What a buffer adds to the text, whatever [r] is read next; nothing is carried
    over at the end of the file, where nothing is read. *)
Definition buffer_result (at_end : bool) (buf : list N) (s : str) (o : Outcome (LineCounter * list N)) : Prop :=
  match o with
  | Panics => False
  | Binary => forall r, (at_end = true -> r = []) -> binary_prefix (s ++ lossy_chars (buf ++ r)) = true
  | Goes (c, carry) =>
    (at_end = true -> carry = [])
    /\ exists t, counted (s ++ t) c
        /\ forall r, (at_end = true -> r = []) -> lossy_chars (buf ++ r) = t ++ lossy_chars (carry ++ r)
  end.

(** A step that adds [t] and leaves [buf'] to decode. *)
Lemma buffer_result_more at_end buf buf' s t o :
  (forall r, (at_end = true -> r = []) -> lossy_chars (buf ++ r) = t ++ lossy_chars (buf' ++ r)) ->
  buffer_result at_end buf' (s ++ t) o -> buffer_result at_end buf s o.
Proof.
  intros Hb. destruct o as [| |[c carry]]; cbn [buffer_result]; [done| |].
  - intros H r Hr. rewrite (Hb r Hr), app_assoc. by apply H.
  - intros (Hc & u & Hu & H). split; [done|]. exists (t ++ u). split; [by rewrite app_assoc|].
    intros r Hr. rewrite (Hb r Hr), (H r Hr). by rewrite app_assoc.
Qed.
Lemma buffer_result_binary (at_end : bool) buf buf' s t :
  (forall r, (at_end = true -> r = []) -> lossy_chars (buf ++ r) = t ++ lossy_chars (buf' ++ r)) ->
  binary_prefix (s ++ t) = true -> buffer_result at_end buf s Binary.
Proof. intros Hb H r Hr. rewrite (Hb r Hr), app_assoc. by apply binary_prefix_app. Qed.

Lemma replacement_spec at_end buf buf' s c (f : LineCounter -> Outcome (LineCounter * list N)) :
  counted s c ->
  (forall r, (at_end = true -> r = []) -> lossy_chars (buf ++ r) = [REPLACEMENT] ++ lossy_chars (buf' ++ r)) ->
  (forall c', counted (s ++ [REPLACEMENT]) c' -> buffer_result at_end buf' (s ++ [REPLACEMENT]) (f c')) ->
  buffer_result at_end buf s (and_then (character unicode_lowercase m REPLACEMENT c) f).
Proof.
  intros Hc Hb Hf. pose proof (character_spec s REPLACEMENT c Hc) as H. destruct (binary_prefix _) eqn:E.
  - rewrite H. cbn [and_then]. by eapply buffer_result_binary.
  - destruct H as (c' & -> & Hc'). cbn [and_then]. eapply buffer_result_more; [exact Hb|]. by apply Hf.
Qed.

Lemma nothing_left at_end s c : counted s c -> buffer_result at_end [] s (Goes (c, [])).
Proof. intros H. split; [done|]. exists []. split; [by rewrite app_nil_r|done]. Qed.

Lemma decode_buffer_spec fuel at_end : forall buf s c,
  length buf < fuel -> counted s c ->
  buffer_result at_end buf s (decode_buffer unicode_lowercase m fuel at_end buf c).
Proof.
  induction fuel as [|fuel IH]; intros buf s c Hf Hc; [lia|]. cbn [decode_buffer].
  destruct buf as [|b buf]; [by apply nothing_left|]. set (all := b :: buf) in *.
  pose proof (from_utf8_spec all) as Hs. destruct (from_utf8 all) as [|v cut]; cbn [check_spec] in Hs.
  - pose proof (text_spec (lossy_chars all) s c Hc) as H.
    destruct (text unicode_lowercase m (lossy_chars all) c) as [| |c']; cbn [and_then]; cbn [text_result] in H; [done| |].
    + apply (buffer_result_binary _ _ [] _ (lossy_chars all)); [|done]. intros r _. apply Hs.
    + apply (buffer_result_more _ _ [] _ (lossy_chars all)); [intros r _; apply Hs|]. by apply nothing_left.
  - destruct Hs as (k & n & -> & Hk & Hstep & -> & Hr). cbn [Nat.add].
    assert (forall r, (at_end = true -> r = []) ->
      lossy_chars (all ++ r) = lossy_chars (take k all) ++ lossy_chars (drop k all ++ r)) as Hb.
    { intros r _. rewrite <- Hr, app_assoc. by rewrite take_drop. }
    pose proof (text_spec (lossy_chars (take k all)) s c Hc) as H.
    destruct (text unicode_lowercase m (lossy_chars (take k all)) c) as [| |c']; cbn [and_then]; cbn [text_result] in H;
      [done|by eapply buffer_result_binary|].
    eapply buffer_result_more; [exact Hb|]. rewrite Hstep.
    pose proof (utf8_step_false _ _ Hstep) as Hn. rewrite length_drop in Hn.
    destruct (cut_off (drop k all) n) eqn:Ecut; cbn [negb].
    + destruct at_end.
      * apply (replacement_spec _ _ []); [done| |intros; by apply nothing_left].
        intros r Hr0. rewrite (Hr0 eq_refl), app_nil_r. by erewrite lossy_cut_off.
      * split; [done|]. exists []. split; [by rewrite app_nil_r|done].
    + apply (replacement_spec _ _ (drop n (drop k all))); [done| |].
      * intros r _. by apply lossy_error.
      * intros c2 Hc2. apply IH; [|done]. rewrite !length_drop. lia.
Qed.
Lemma decode_spec at_end buf s c :
  counted s c -> buffer_result at_end buf s (decode unicode_lowercase m at_end buf c).
Proof. apply decode_buffer_spec. lia. Qed.

(** ** The whole count *)

Definition total (s : str) : nat := length (filter (fun w => line_matches w = true) (pieces s)).

Lemma finish_total s c : counted s c -> finish c = total s.
Proof.
  intros [_ _ (before & cur & Hp & Hl & Hk)]. unfold total, finish. rewrite Hp, count_app, count_cons, Hl.
  cbn [filter length]. rewrite Nat.add_0_r. f_equal. unfold knows in Hk. unfold line_matches. destruct (matched_line c).
  - rewrite Hneedle, infix_bytes, <- contains_spec in Hk. by rewrite Hk.
  - destruct Hk as [Hk _]. rewrite Hneedle, infix_bytes, <- contains_spec in Hk. by rewrite (not_true_is_false _ Hk).
Qed.

Lemma pieces_last s : exists before last, pieces s = before ++ [last].
Proof.
  assert (pieces s <> []) as H by (destruct s as [|z s]; cbn; [done|]; by repeat case_match).
  destruct (exists_last H) as (b & l & E). by exists b, l.
Qed.
Lemma total_mono t : forall s, total s <= total (s ++ t).
Proof.
  induction t as [|ch t IH]; intros s; [by rewrite app_nil_r|].
  replace (s ++ ch :: t) with ((s ++ [ch]) ++ t) by (by rewrite <- app_assoc). etrans; [|apply IH].
  destruct (pieces_last s) as (before & last & Hp). pose proof (split_where_snoc is_newline s ch before last Hp) as Hp'.
  unfold total. rewrite Hp, Hp'. destruct (is_newline ch); rewrite !count_app, !count_cons; [lia|].
  cbn [filter length]. enough (Nat.b2n (line_matches last) <= Nat.b2n (line_matches (last ++ [ch]))) by lia.
  destruct (line_matches last) eqn:E; [|cbn; lia].
  enough (line_matches (last ++ [ch]) = true) as -> by done. unfold line_matches in *. rewrite contains_spec in *.
  rewrite fold_literal_case_bind, bind_app in *. by apply infix_app_l.
Qed.
Lemma binary_prefix_full s t :
  TEXT_SNIFF_BYTES <= blen s -> binary_prefix s = false -> binary_prefix (s ++ t) = false.
Proof.
  unfold binary_prefix. intros H Hs. rewrite bytes_app, take_app, length_bytes.
  replace (TEXT_SNIFF_BYTES - blen s) with 0 by lia. by rewrite take_0, app_nil_r.
Qed.

(** The bytes of the reads up to the end of the file, when none fails and the search
    is not cancelled. *)
Fixpoint bytes_read {E} (reads : list (bool * Read E)) : option (list N) :=
  match reads with
  | [] => Some []
  | (true, _) :: _ | (false, ReadError _) :: _ => None
  | (false, Interrupted) :: reads => bytes_read reads
  | (false, ReadBytes []) :: _ => Some []
  | (false, ReadBytes bs) :: reads => app bs <$> bytes_read reads
  end.

Definition count_result {E} (stop : bool) (content : str) (o : option (Result E (option LineCount))) : Prop :=
  exists r, o = Some (Ok r) /\
    match r with
    | None => binary_prefix content = true
    | Some n =>
      binary_prefix content = false
      /\ if is_lower_bound n then stop = true /\ 0 < file_matches n <= total content else file_matches n = total content
    end.

Lemma final_spec {E} stop s carry c :
  counted s c ->
  count_result (E := E) stop (s ++ lossy_chars carry)
    (match decode unicode_lowercase m true carry c with
     | Panics => None
     | Binary => Some (Ok None)
     | Goes (c, _) => Some (Ok (Some (MkCount (finish c) false)))
     end).
Proof.
  intros Hc. pose proof (decode_spec true carry s c Hc) as H.
  destruct (decode unicode_lowercase m true carry c) as [| |[c' carry']]; cbn [buffer_result] in H; [done| |].
  - eexists. split; [done|]. specialize (H [] ltac:(done)). by rewrite app_nil_r in H.
  - destruct H as (Hnil & t & Hc' & Ht). rewrite (Hnil eq_refl) in Ht. specialize (Ht [] ltac:(done)).
    rewrite !app_nil_r in Ht. rewrite Ht. eexists. split; [done|]. cbn [is_lower_bound file_matches].
    change (lossy_chars []) with (@nil N). rewrite ?app_nil_r. split; [by destruct Hc'|]. by apply finish_total.
Qed.

Lemma count_loop_spec {E} stop (reads : list (bool * Read E)) : forall s carry c data,
  counted s c -> bytes_read reads = Some data ->
  count_result stop (s ++ lossy_chars (carry ++ data)) (count_loop unicode_lowercase m stop reads carry c).
Proof.
  induction reads as [|[cancelled read] reads IH]; intros s carry c data Hc Hd; cbn [bytes_read count_loop] in *.
  { injection Hd as <-. rewrite app_nil_r. by apply final_spec. }
  destruct cancelled; [done|]. destruct read as [|e|bs]; [by apply IH|done|].
  destruct bs as [|b bs]; [injection Hd as <-; rewrite app_nil_r; by apply final_spec|].
  set (all := b :: bs) in *. apply fmap_Some in Hd as (data' & Hd & ->).
  pose proof (decode_spec false (carry ++ all) s c Hc) as H.
  destruct (decode unicode_lowercase m false (carry ++ all) c) as [| |[c' carry']]; cbn [buffer_result] in H; [done| |].
  - eexists. split; [done|]. rewrite app_assoc. by apply H.
  - destruct H as (_ & t & Hc' & Ht). rewrite app_assoc, (Ht data' ltac:(done)), app_assoc.
    destruct (stop && (TEXT_SNIFF_BYTES <=? sniffed_bytes c') && ((0 <? line_count c') || matched_line c')) eqn:Es;
      [|by apply IH].
    apply andb_true_iff in Es as [[Hstop Hsn%Nat.leb_le]%andb_true_iff Hpos]. eexists. split; [done|].
    cbn [is_lower_bound file_matches]. pose proof (finish_total _ _ Hc') as Hf. pose proof Hc' as [Hbin Hsniff _]. split.
    + apply binary_prefix_full; [lia|done].
    + split; [done|]. split; [|rewrite Hf; apply total_mono]. unfold finish. apply orb_true_iff in Hpos as [H%Nat.ltb_lt| ->]; [lia|].
      cbn. lia.
Qed.

(** ** The hits *)

Lemma line_matches_strip_cr w : last q <> Some 13%N -> line_matches (strip_cr w) = line_matches w.
Proof.
  intros Hlast. unfold strip_cr, strip_suffix, unwrap_or. destruct (strip_prefix _ _) as [r|] eqn:E; [|done].
  cbn [fmap option_fmap option_map]. apply strip_prefix_Some in E.
  assert (w = reverse r ++ [13%N]) as -> by (rewrite <- (reverse_involutive w), E, reverse_app; done).
  apply eq_iff_eq_true. unfold line_matches. rewrite !contains_spec, !fold_literal_case_bind, bind_app.
  change ([13%N] ≫= fold_char) with [13%N]. split; [apply infix_app_l|]. intros [H|(a & H)]%infix_snoc; [done|].
  exfalso. apply Hlast. destruct (exists_last Hq) as (q' & x & ->). rewrite app_assoc in H. apply app_inj_tail in H as [_ <-].
  apply last_snoc.
Qed.
Lemma line_matches_nil : line_matches [] = false.
Proof.
  apply not_true_iff_false. unfold line_matches. rewrite contains_spec. intros (a & b & H). apply Hq.
  change (fold []) with (@nil N) in H. by destruct a, q.
Qed.

Lemma hits_total content context :
  last q <> Some 13%N ->
  length (literal_hits_in_content unicode_lowercase content q context None)
  = if binary_prefix content then 0 else total content.
Proof.
  intros Hlast. unfold literal_hits_in_content. destruct (binary_prefix content); [done|]. rewrite length_map.
  unfold total. rewrite <- (count_str_lines line_matches) by (try apply line_matches_nil; intros; by apply line_matches_strip_cr).
  exact (filter_numbered line_matches (fun i => i) (str_lines content)).
Qed.
End Counter.

Lemma streamed_count {E} unicode_lowercase query_lower stop (reads : list (bool * Read E)) data context :
  query_lower <> [] -> last query_lower <> Some 13%N -> bytes_read reads = Some data ->
  let content := lossy_chars data in
  let hits := length (literal_hits_in_content unicode_lowercase content query_lower context None) in
  exists m r, new_matcher (bytes query_lower) = Some m
    /\ count_lines unicode_lowercase m stop reads = Some (Ok r)
    /\ match r with
       | None => binary_prefix content = true
       | Some n => binary_prefix content = false
           /\ if is_lower_bound n then stop = true /\ 0 < file_matches n <= hits else file_matches n = hits
       end.
Proof.
  intros Hq Hlast Hd content hits.
  destruct (new_matcher_spec (bytes query_lower)) as (m & Hm & Hneedle & Htab).
  { intros H. apply (f_equal length) in H. rewrite length_bytes in H. by apply blen_nil_inv in H. }
  destruct (count_loop_spec unicode_lowercase query_lower m Hq Hneedle Htab stop reads [] [] new_counter data
              (counted_new unicode_lowercase query_lower m Hq Hneedle Htab) Hd) as (r & Hr & Hres).
  exists m, r. split_and!; [done|done|]. destruct r as [n|]; [|done]. destruct Hres as [Hbin Hres]. split; [done|].
  pose proof (hits_total unicode_lowercase query_lower m Hq Hneedle Htab content context Hlast) as Ht.
  unfold hits. rewrite Ht. cbn [app] in Hbin. unfold content. by rewrite Hbin.
Qed.

(** C23. The count of matching lines taken while a file is read does not depend on
    how the reads cut it, in the middle of a character or of a match: for a literal
    that is not empty and does not end in a carriage return, no index is ever out
    of bounds; a file is binary exactly when its decoding has a NUL among its first
    8192 bytes; and otherwise the count is the number of hits that the search of
    the whole decoded text finds, or, when one match is enough, either that or a
    lower bound of it that is not zero. *)
Theorem streamed_count_is_hits {E} unicode_lowercase query_lower stop (reads : list (bool * Read E)) data context :
  query_lower <> [] -> last query_lower <> Some 13%N -> bytes_read reads = Some data ->
  let content := lossy_chars data in
  let hits := length (literal_hits_in_content unicode_lowercase content query_lower context None) in
  exists m r, new_matcher (bytes query_lower) = Some m
    /\ count_lines unicode_lowercase m stop reads = Some (Ok r)
    /\ match r with
       | None => binary_prefix content = true
       | Some n => binary_prefix content = false
           /\ if is_lower_bound n then stop = true /\ 0 < file_matches n <= hits else file_matches n = hits
       end.
Proof. apply streamed_count. Qed.

Lemma streamed_count_is_hits_witness :
  exists m r, new_matcher (bytes (lit "aab")) = Some m
    /\ count_lines (E := unit) (fun c => [c]) m false
         [(false, ReadBytes (lit "xAa")); (false, Interrupted); (false, ReadBytes (lit "aB" ++ [10%N; 0xE2%N])); (false, ReadBytes [0x82%N])]
       = Some (Ok r).
Proof.
  destruct (streamed_count_is_hits (E := unit) (fun c => [c]) (lit "aab") false
         [(false, ReadBytes (lit "xAa")); (false, Interrupted); (false, ReadBytes (lit "aB" ++ [10%N; 0xE2%N])); (false, ReadBytes [0x82%N])]
         (lit "xAaaB" ++ [10%N; 0xE2%N; 0x82%N]) 0) as (m & r & H1 & H2 & _).
  - discriminate.
  - discriminate.
  - reflexivity.
  - exists m, r. split; [exact H1|exact H2].
Defined.
