(* ===== verification/TopK.v ===== *)
(** * Bounded selection: keeping the best [k] of a stream in a heap, in any order
  and over any split of the stream. *)
From S2P Require Import Prelude.

(** A [BinaryHeap] whose greatest element is the worst of those kept, as the list
    of its elements, best first. *)
Definition heap_insert {A} (leb : A -> A -> bool) (k : nat) (heap : list A) (x : A) : list A :=
  let heap := insert_by leb x heap in
  if k <? length heap then removelast heap else heap.

(** A parallel fold and reduce: workers fold parts of the input, and a reduction
    empties one heap into another in whatever order it is stored. *)
Inductive Plan (A : Type) :=
| Part (items : list A)
| Reduce (left right : Plan A).
Arguments Part {A} _.
Arguments Reduce {A} _ _.
Fixpoint plan_items {A} (p : Plan A) : list A :=
  match p with Part l => l | Reduce a b => plan_items a ++ plan_items b end.

Inductive reduces {A} (leb : A -> A -> bool) (k : nat) : Plan A -> list A -> Prop :=
| reduces_part l : reduces leb k (Part l) (foldl (heap_insert leb k) [] l)
| reduces_both a b ha hb order :
    reduces leb k a ha -> reduces leb k b hb -> order ≡ₚ hb ->
    reduces leb k (Reduce a b) (foldl (heap_insert leb k) ha order).

(** Only the order's values matter. *)
Section Ext.
Context {A : Type} (leb leb' : A -> A -> bool) (Heq : forall a b, leb a b = leb' a b).
Lemma heap_insert_ext k h x : heap_insert leb k h x = heap_insert leb' k h x.
Proof.
  unfold heap_insert. assert (insert_by leb x h = insert_by leb' x h) as ->; [|done].
  induction h as [|y h IH]; [done|]. cbn [insert_by]. by rewrite Heq, IH.
Qed.
Lemma fold_insert_ext k l : forall h, foldl (heap_insert leb k) h l = foldl (heap_insert leb' k) h l.
Proof. induction l as [|x l IH]; intros h; [done|]. cbn [foldl]. by rewrite heap_insert_ext. Qed.
Lemma reduces_ext k p h : reduces leb k p h -> reduces leb' k p h.
Proof.
  induction 1 as [l|a b ha hb order _ IHa _ IHb Ho]; rewrite fold_insert_ext; [apply reduces_part|by eapply reduces_both].
Qed.
End Ext.

Section Order.
Context {K : Type} (leb : K -> K -> bool).
Context (Htotal : forall a b, leb a b = true \/ leb b a = true).
Context (Htrans : forall a b c, leb a b = true -> leb b c = true -> leb a c = true).
Context (Hanti : forall a b, leb a b = true -> leb b a = true -> a = b).
Abbreviation sorted := (StronglySorted (fun a b => leb a b = true)).
Abbreviation sort := (sort_by leb).

(** A sorted list is determined by its elements. *)
Lemma sort_by_unique l l' : l ≡ₚ l' -> sort l = sort l'.
Proof.
  intros H. apply (StronglySorted_unique_strong (fun a b => leb a b = true)).
  - intros a b _ _. apply Hanti.
  - by apply sort_by_sorted.
  - by apply sort_by_sorted.
  - by rewrite !sort_by_perm.
Qed.
Lemma sort_by_sorted_id l : sorted l -> sort l = l.
Proof.
  intros H. apply (StronglySorted_unique_strong (fun a b => leb a b = true)).
  - intros a b _ _. apply Hanti.
  - by apply sort_by_sorted.
  - done.
  - by rewrite sort_by_perm.
Qed.

Lemma length_insert_by x l : length (insert_by leb x l) = S (length l).
Proof. by rewrite insert_by_perm. Qed.
Lemma sorted_take k l : sorted l -> sorted (take k l).
Proof. intros H. rewrite <- (take_drop k l) in H. by apply StronglySorted_app_1_l in H. Qed.

(** What an insertion keeps does not depend on what was dropped before. *)
Lemma take_insert_take k x : forall s, take k (insert_by leb x (take k s)) = take k (insert_by leb x s).
Proof.
  revert x. induction k as [|k IH]; intros x [|y s]; try done. cbn [take insert_by]. destruct (leb x y); cbn [take].
  - f_equal. destruct k as [|k]; [done|]. cbn [take]. f_equal. rewrite take_take. f_equal. lia.
  - f_equal. apply IH.
Qed.

Lemma heap_insert_take k heap x :
  length heap <= k -> heap_insert leb k heap x = take k (insert_by leb x heap).
Proof.
  intros H. unfold heap_insert. pose proof (length_insert_by x heap) as Hl.
  destruct (Nat.ltb_spec k (length (insert_by leb x heap))).
  - assert (length heap = k) as E by lia. rewrite removelast_firstn_len, Hl, E. done.
  - by rewrite take_ge by lia.
Qed.

Lemma fold_insert k l : forall base,
  foldl (heap_insert leb k) (take k (sort base)) l = take k (sort (rev l ++ base)).
Proof.
  induction l as [|x l IH]; intros base; [done|]. cbn [foldl rev].
  rewrite heap_insert_take by (rewrite length_take; lia). rewrite take_insert_take.
  change (insert_by leb x (sort base)) with (sort (x :: base)). rewrite IH. by rewrite <- app_assoc.
Qed.
Lemma fold_insert_perm k l base :
  foldl (heap_insert leb k) (take k (sort base)) l = take k (sort (base ++ l)).
Proof.
  rewrite fold_insert. f_equal. apply sort_by_unique. rewrite Permutation_app_comm. f_equiv. symmetry. apply Permutation_rev.
Qed.

(** Dropping what is not among the best [k] of a part changes nothing. *)
Lemma take_sort_app k a b : take k (sort (take k (sort b) ++ a)) = take k (sort (b ++ a)).
Proof.
  rewrite <- !fold_insert_perm. f_equal.
  rewrite (sort_by_sorted_id (take k (sort b))) by (apply sorted_take; by apply sort_by_sorted). rewrite take_take. f_equal. lia.
Qed.

(** The selection of a parallel run: the best [k] of everything. *)
Lemma reduces_spec k p h : reduces leb k p h -> h = take k (sort (plan_items p)).
Proof.
  induction 1 as [l|a b ha hb order _ IHa _ IHb Horder]; cbn [plan_items].
  - pose proof (fold_insert_perm k l []) as H. cbn [sort_by foldr app] in H. by rewrite take_nil in H.
  - subst ha hb. rewrite fold_insert_perm. rewrite (sort_by_unique (plan_items a ++ order) (take k (sort (plan_items b)) ++ plan_items a))
      by (rewrite Horder; apply Permutation_app_comm).
    rewrite take_sort_app. f_equal. apply sort_by_unique, Permutation_app_comm.
Qed.
End Order.

Section Elements.
Context {A : Type} (leb : A -> A -> bool).
Lemma heap_insert_elem k h x y : y ∈ heap_insert leb k h x -> y = x \/ y ∈ h.
Proof.
  unfold heap_insert. intros H. assert (y ∈ insert_by leb x h) as Hy.
  { case_match; [|done]. rewrite removelast_firstn_len in H. by apply elem_of_take in H as (i & Hi%list_elem_of_lookup_2 & _). }
  rewrite insert_by_perm in Hy. by apply elem_of_cons.
Qed.
Lemma fold_insert_elem k l : forall h y, y ∈ foldl (heap_insert leb k) h l -> y ∈ h \/ y ∈ l.
Proof.
  induction l as [|x l IH]; intros h y H; cbn [foldl] in H; [by left|].
  apply IH in H as [[->|H]%heap_insert_elem|H]; [right; left|by left|right; by right].
Qed.

End Elements.

(** Items are ordered by a key: the selection of items shows the keys selected. *)
Section Keys.
Context {A K : Type} (key : A -> K) (leb : K -> K -> bool).
Context (Htotal : forall a b, leb a b = true \/ leb b a = true).
Context (Htrans : forall a b c, leb a b = true -> leb b c = true -> leb a c = true).
Context (Hanti : forall a b, leb a b = true -> leb b a = true -> a = b).
Abbreviation item_leb := (fun a b : A => leb (key a) (key b)).

Lemma map_insert_by x l : map key (insert_by item_leb x l) = insert_by leb (key x) (map key l).
Proof. induction l as [|y l IH]; [done|]. cbn [insert_by map]. destruct (leb (key x) (key y)); [done|]. cbn [map]. by rewrite IH. Qed.
Lemma map_sort_by l : map key (sort_by item_leb l) = sort_by leb (map key l).
Proof. induction l as [|x l IH]; [done|]. cbn [sort_by foldr map]. rewrite map_insert_by. f_equal. exact IH. Qed.
Lemma map_removelast {B C} (f : B -> C) l : map f (removelast l) = removelast (map f l).
Proof. induction l as [|x [|y l] IH]; [done..|]. cbn [removelast map] in *. f_equal. exact IH. Qed.
Lemma map_heap_insert k h x : map key (heap_insert item_leb k h x) = heap_insert leb k (map key h) (key x).
Proof.
  unfold heap_insert. rewrite <- map_insert_by, length_map. case_match; [|done]. apply map_removelast.
Qed.
Lemma map_fold_insert k l : forall h,
  map key (foldl (heap_insert item_leb k) h l) = foldl (heap_insert leb k) (map key h) (map key l).
Proof. induction l as [|x l IH]; intros h; [done|]. cbn [foldl map]. by rewrite IH, map_heap_insert. Qed.

Fixpoint plan_map {B C} (f : B -> C) (p : Plan B) : Plan C :=
  match p with Part l => Part (map f l) | Reduce a b => Reduce (plan_map f a) (plan_map f b) end.
Lemma plan_map_items {B C} (f : B -> C) p : plan_items (plan_map f p) = map f (plan_items p).
Proof. induction p as [l|a IHa b IHb]; [done|]. cbn [plan_map plan_items]. by rewrite IHa, IHb, map_app. Qed.
Lemma reduces_map k p h : reduces item_leb k p h -> reduces leb k (plan_map key p) (map key h).
Proof.
  induction 1 as [l|a b ha hb order _ IHa _ IHb Horder]; cbn [plan_map]; rewrite map_fold_insert.
  - apply reduces_part.
  - eapply reduces_both; [done|exact IHb|]. by rewrite Horder.
Qed.

(** The keys selected are the best [k], and the items are among the input's. *)
Lemma reduces_keys k p h :
  reduces item_leb k p h ->
  map key h = take k (sort_by leb (map key (plan_items p))) /\ forall x, x ∈ h -> x ∈ plan_items p.
Proof.
  intros H. split.
  - rewrite <- plan_map_items. apply reduces_spec; [done..|]. by apply reduces_map.
  - induction H as [l|a b ha hb order _ IHa _ IHb Horder]; intros x Hx; apply fold_insert_elem in Hx as [Hx|Hx].
    + by apply not_elem_of_nil in Hx.
    + done.
    + apply elem_of_app. left. by apply IHa.
    + apply elem_of_app. right. apply IHb. by rewrite <- Horder.
Qed.
End Keys.
