(* ===== verification/LiteralFiles.v ===== *)
(** * Literal search over files: ranking, bounded selection and rereading.

  search_literal.rs counts every candidate in parallel, keeps the best files in
  bounded heaps, reads those again for previews, and selects anew when one of them
  changed in between.  A parallel run is a [Plan]; what a pass reads is a function
  of the path, one per pass, since files may change. *)
From S2P Require Import Prelude Utf8 BTree Paths Presentation SubstringCandidates LineMatcher LiteralCount TopK Decoding.

Definition MAX_LITERAL_FILE_SCORE : N := 2 ^ 24.
Definition DEFAULT_LITERAL_PREVIEWS_PER_FILE : nat := 3.

Inductive FileSearchMode := Files | FileNames | SingleFileName.
#[global] Instance file_search_mode_eq_dec : EqDecision FileSearchMode.
Proof. solve_decision. Defined.

(** ** Rank *)

Definition compare_rank (left_matches : nat) (left_path : path) (right_matches : nat) (right_path : path)
  : comparison :=
  match Nat.compare right_matches left_matches with
  | Eq => path_cmp left_path right_path
  | c => c
  end.

Record RankedFile := MkRanked {
  relative : path;
  absolute : path;
  matches : nat;
  matches_are_lower_bound : bool
}.
(** The sum of as many [1.0f32]. *)
Definition file_score (n : nat) : N := N.min (N.of_nat n) MAX_LITERAL_FILE_SCORE.
Definition score (f : RankedFile) : N := file_score (matches f).

Record FileSearchResult := MkResult {
  file_path : path;
  total_score : N;
  hit_count : nat;
  more_hits_in_file : nat;
  hit_count_is_lower_bound : bool;
  hits : list LiteralHit
}.

(** Not greater, by the rank of ranked files and of results. *)
Definition rank_leb (lm : nat) (lp : path) (rm : nat) (rp : path) : bool :=
  match compare_rank lm lp rm rp with Gt => false | _ => true end.
Definition file_leb (a b : RankedFile) : bool := rank_leb (matches a) (relative a) (matches b) (relative b).
Definition result_leb (a b : FileSearchResult) : bool :=
  rank_leb (hit_count a) (file_path a) (hit_count b) (file_path b).

Section FileSearch.
Context {E : Type} (unicode_lowercase : char -> str).
(** How reading a byte slice cuts it. *)
Context (slice_reads : list N -> list (bool * Read E)).

(** The reads of a file while counting, and its bytes when read whole; a search
    that is cancelled before a file reads nothing of it, like a file that does not
    open. *)
Record Disk := MkDisk {
  open_file : path -> Result E (list (bool * Read E));
  read_file : path -> Result E (list N)
}.

Record FileSearch := MkSearch {
  matcher : LineMatcher;
  query_lower : str;
  context : nat;
  max_files : nat;
  paths : list (path * path);
  mode : FileSearchMode
}.
Context (s : FileSearch).

Definition count_file (d : Disk) (absolute : path) (stop_after_first_match : bool) : option (option LineCount) :=
  match open_file d absolute with
  | Err _ => Some None
  | Ok reads =>
    counted ← count_lines unicode_lowercase (matcher s) stop_after_first_match reads;
    Some (default None (ok counted))
  end.

(** What the parallel [filter_map] gives for one path. *)
Definition candidate (d : Disk) (p : path * path) : option (option RankedFile) :=
  count ← count_file d (snd p) (bool_decide (mode s = SingleFileName));
  Some (count ← count;
        if 0 <? file_matches count
        then Some (MkRanked (fst p) (snd p) (file_matches count) (is_lower_bound count)) else None).
Definition candidates (d : Disk) (ps : list (path * path)) : option (list RankedFile) :=
  found ← mapM (candidate d) ps; Some (omap id found).

(** [select_ranked_files]: [sort_unstable] gives some sorted arrangement. *)
Inductive selects (d : Disk) : list RankedFile -> Prop :=
| select_all found selected :
    length (paths s) <= max_files s ->
    candidates d (paths s) = Some found ->
    selected ≡ₚ found -> StronglySorted (fun a b => file_leb a b = true) selected ->
    selects d selected
| select_bounded plan heap selected :
    max_files s < length (paths s) ->
    candidates d (paths s) = Some (plan_items plan) ->
    reduces file_leb (max_files s) plan heap ->
    selected ≡ₚ heap -> StronglySorted (fun a b => file_leb a b = true) selected ->
    selects d selected.

Definition read_matching_content (d : Disk) (absolute : path) : option (option (str * nat)) :=
  match read_file d absolute with
  | Err _ => Some None
  | Ok bs =>
    let content := lossy_chars bs in
    counted ← count_lines unicode_lowercase (matcher s) false (slice_reads (bytes content));
    Some (count ← default None (ok counted);
          if 0 <? file_matches count then Some (content, file_matches count) else None)
  end.

Definition result_for_content (relative : path) (content : str) (match_count : nat) : option FileSearchResult :=
  let hits := literal_hits_in_content unicode_lowercase content (query_lower s) (context s)
                (Some DEFAULT_LITERAL_PREVIEWS_PER_FILE) in
  match hits with
  | [] => None
  | _ =>
    let match_count := Nat.max match_count (length hits) in
    Some (MkResult relative (file_score match_count) match_count
            (match_count - length hits) false hits)
  end.

(** ** Selecting anew *)

Definition would_select (heap : list FileSearchResult) (p : path) (count : nat) : bool :=
  (length heap <? max_files s)
  || match last heap with
     | Some worst => bool_decide (compare_rank count p (hit_count worst) (file_path worst) = Lt)
     | None => false
     end.

Definition reselect_step (d : Disk) (heap : list FileSearchResult) (p : path * path)
  : option (list FileSearchResult) :=
  count ← count_file d (snd p) false;
  match count with
  | None => Some heap
  | Some count =>
    if (0 <? file_matches count) && would_select heap (fst p) (file_matches count) then
      read ← read_matching_content d (snd p);
      match read with
      | None => Some heap
      | Some (content, count) =>
        if would_select heap (fst p) count then
          match result_for_content (fst p) content count with
          | Some result => Some (heap_insert result_leb (max_files s) heap result)
          | None => Some heap
          end
        else Some heap
      end
    else Some heap
  end.

Fixpoint reselect_part (d : Disk) (heap : list FileSearchResult) (ps : list (path * path))
  : option (list FileSearchResult) :=
  match ps with
  | [] => Some heap
  | p :: ps => heap ← reselect_step d heap p; reselect_part d heap ps
  end.

(** The fold and reduce of [reselect_live_files]; the heap is best first, as
    [into_sorted_vec] gives it. *)
Inductive reselects (d : Disk) : Plan (path * path) -> list FileSearchResult -> Prop :=
| reselects_part ps heap : reselect_part d [] ps = Some heap -> reselects d (Part ps) heap
| reselects_both a b ha hb order :
    reselects d a ha -> reselects d b hb -> order ≡ₚ hb ->
    reselects d (Reduce a b) (foldl (heap_insert result_leb (max_files s)) ha order).

(** ** Reading the selection *)

(** A selected file's result, and whether its count changed. *)
Definition read_selected (d : Disk) (f : RankedFile) : option (option FileSearchResult * bool) :=
  read ← read_matching_content d (absolute f);
  let result := '(content, count) ← read; result_for_content (relative f) content count in
  Some (result, negb (match result with Some r => hit_count r | None => 0 end =? matches f)).

(** [read_selected_files]: [reread] is the disk at that time, [live] the one of a new
    selection. *)
Inductive reads_selected (reread live : Disk) (selected : list RankedFile) : list FileSearchResult -> Prop :=
| reads_unchanged results :
    mapM (read_selected reread) selected = Some results ->
    existsb snd results = false ->
    reads_selected reread live selected (omap fst results)
| reads_changed results plan heap :
    mapM (read_selected reread) selected = Some results ->
    existsb snd results = true ->
    plan_items plan = paths s -> reselects live plan heap ->
    reads_selected reread live selected heap.

(** The result for a file whose hits are all collected; an explicit unlimited
    request. *)
Definition unlimited_result (d : Disk) (p : path * path) : option FileSearchResult :=
  match read_file d (snd p) with
  | Err _ => None
  | Ok bs =>
    match literal_hits_in_content unicode_lowercase (lossy_chars bs) (query_lower s) (context s) None with
    | [] => None
    | hits => Some (MkResult (fst p) (file_score (length hits)) (length hits) 0 false hits)
    end
  end.

Definition name_result (f : RankedFile) : FileSearchResult :=
  MkResult (relative f) (score f) (matches f) (matches f) (matches_are_lower_bound f) [].

(** [search_files] for at least one file and a query without a line break, not
    cancelled. *)
Inductive searches (unlimited : bool) (first reread live : Disk) : list FileSearchResult -> Prop :=
| searches_unlimited results :
    mode s = Files -> unlimited = true ->
    results ≡ₚ omap (unlimited_result first) (paths s) ->
    StronglySorted (fun a b => result_leb a b = true) results ->
    searches unlimited first reread live results
| searches_names selected :
    mode s <> Files -> selects first selected ->
    searches unlimited first reread live (map name_result selected)
| searches_files selected results :
    mode s = Files -> unlimited = false -> selects first selected ->
    reads_selected reread live selected results ->
    searches unlimited first reread live results.
End FileSearch.

(** * Literal search returns the best files, with the counts of one reading each. *)

(** ** The order of ranks *)

Definition Rank : Type := nat * list (list N).
Definition rank_ok (a b : Rank) : bool :=
  match Nat.compare (fst b) (fst a) with
  | Lt => true
  | Eq => match lex_by kcmp (snd a) (snd b) with Gt => false | _ => true end
  | Gt => false
  end.
Definition path_rank : OrdKey (list (list N)) := list_OrdKey bytes_OrdKey.
Lemma lex_is_kcmp a b : lex_by kcmp a b = @kcmp _ path_rank a b.
Proof. done. Qed.

Lemma rank_total a b : rank_ok a b = true \/ rank_ok b a = true.
Proof.
  unfold rank_ok. rewrite !lex_is_kcmp, (@kcmp_sym _ path_rank (snd a) (snd b)).
  destruct (Nat.compare_spec (fst b) (fst a)) as [E|E|E], (Nat.compare_spec (fst a) (fst b)) as [E'|E'|E']; try lia;
    try (by left); try (by right). destruct (@kcmp _ path_rank (snd a) (snd b)); auto.
Qed.
Lemma rank_anti a b : rank_ok a b = true -> rank_ok b a = true -> a = b.
Proof.
  unfold rank_ok. rewrite !lex_is_kcmp, (@kcmp_sym _ path_rank (snd a) (snd b)).
  destruct (Nat.compare_spec (fst b) (fst a)) as [E|E|E], (Nat.compare_spec (fst a) (fst b)) as [E'|E'|E']; try lia; try done.
  destruct (@kcmp _ path_rank (snd a) (snd b)) eqn:Ec; try done. intros _ _. apply (@kcmp_eq _ path_rank) in Ec.
  destruct a, b. cbn in *. congruence.
Qed.
Lemma rank_trans a b c : rank_ok a b = true -> rank_ok b c = true -> rank_ok a c = true.
Proof.
  unfold rank_ok. rewrite !lex_is_kcmp.
  destruct (Nat.compare_spec (fst b) (fst a)) as [E|E|E], (Nat.compare_spec (fst c) (fst b)) as [E'|E'|E'],
    (Nat.compare_spec (fst c) (fst a)) as [E3|E3|E3]; try lia; try done.
  destruct (@kcmp _ path_rank (snd a) (snd b)) eqn:H1; [| |done];
    destruct (@kcmp _ path_rank (snd b) (snd c)) eqn:H2; try done.
  - apply (@kcmp_eq _ path_rank) in H1, H2. rewrite H1, H2. by rewrite (proj2 (@kcmp_eq _ path_rank _ _) eq_refl).
  - apply (@kcmp_eq _ path_rank) in H1. by rewrite H1, H2.
  - apply (@kcmp_eq _ path_rank) in H2. by rewrite <- H2, H1.
  - by rewrite (@kcmp_trans _ path_rank _ _ _ H1 H2).
Qed.

Definition file_rank (f : RankedFile) : Rank := (matches f, path_ord (relative f)).
Definition result_rank (r : FileSearchResult) : Rank := (hit_count r, path_ord (file_path r)).

Lemma rank_leb_ok lm lp rm rp : rank_leb lm lp rm rp = rank_ok (lm, path_ord lp) (rm, path_ord rp).
Proof. unfold rank_leb, compare_rank, rank_ok, path_cmp. cbn [fst snd]. by destruct (Nat.compare rm lm). Qed.

(** The best [k] of some ranks. *)
Abbreviation best k ranks := (take k (sort_by rank_ok ranks)).

Lemma sorted_ranks {A} (key : A -> Rank) l :
  StronglySorted (fun a b => rank_ok (key a) (key b) = true) l ->
  StronglySorted (fun a b => rank_ok a b = true) (map key l).
Proof.
  induction 1 as [|x l _ IH Hx]; [constructor|]. cbn [map]. constructor; [done|]. by apply Forall_map.
Qed.
Lemma sorted_arrangement {A} (key : A -> Rank) l l' ranks k :
  l ≡ₚ l' -> StronglySorted (fun a b => rank_ok (key a) (key b) = true) l ->
  map key l' = best k ranks -> map key l = best k ranks.
Proof.
  intros Hp Hs H. rewrite <- (sort_by_sorted_id rank_ok rank_total rank_trans rank_anti (map key l)) by by apply sorted_ranks.
  rewrite (sort_by_unique rank_ok rank_total rank_trans rank_anti _ (map key l')) by by rewrite Hp.
  rewrite H. apply sort_by_sorted_id; [apply rank_total|apply rank_trans|apply rank_anti|].
  apply sorted_take. apply sort_by_sorted; [apply rank_total|apply rank_trans].
Qed.

(** ** One search *)

Section Search.
Context {E : Type} (unicode_lowercase : char -> str) (slice_reads : list N -> list (bool * Read E)).
(** Reading a slice gives its bytes. *)
Context (Hslice : forall l, bytes_read (slice_reads l) = Some l).
Context (s : FileSearch).
Context (Hquery : query_lower s <> []) (Hlast : last (query_lower s) <> Some 13%N).
Context (Hmatcher : new_matcher (bytes (query_lower s)) = Some (matcher s)).

Abbreviation all_hits bs :=
  (literal_hits_in_content unicode_lowercase (lossy_chars bs) (query_lower s) (context s) None).

(** The result a file's bytes deserve. *)
Definition exact_result (p : path) (bs : list N) : option FileSearchResult :=
  match all_hits bs with
  | [] => None
  | hits =>
    Some (MkResult p (file_score (length hits)) (length hits)
            (length hits - length (take DEFAULT_LITERAL_PREVIEWS_PER_FILE hits)) false
            (take DEFAULT_LITERAL_PREVIEWS_PER_FILE hits))
  end.

Lemma hits_limited content n :
  literal_hits_in_content unicode_lowercase content (query_lower s) (context s) (Some n)
  = take n (literal_hits_in_content unicode_lowercase content (query_lower s) (context s) None).
Proof. unfold literal_hits_in_content. destruct (binary_prefix content); [by rewrite take_nil|]. by rewrite firstn_map. Qed.

Lemma hits_binary content :
  binary_prefix content = true ->
  literal_hits_in_content unicode_lowercase content (query_lower s) (context s) None = [].
Proof. unfold literal_hits_in_content. by intros ->. Qed.

(** A count over reads of the bytes [bs], as far as it is exact. *)
Lemma count_of_reads stop (reads : list (bool * Read E)) bs :
  bytes_read reads = Some bs ->
  exists r, count_lines unicode_lowercase (matcher s) stop reads = Some (Ok r)
    /\ match r with
       | None => all_hits bs = []
       | Some n => if is_lower_bound n then stop = true /\ 0 < file_matches n <= length (all_hits bs)
                   else file_matches n = length (all_hits bs)
       end.
Proof.
  intros Hr. destruct (streamed_count unicode_lowercase (query_lower s) stop reads bs (context s) Hquery Hlast Hr)
    as (m & r & Hm & Hc & H).
  rewrite Hmatcher in Hm. injection Hm as <-. exists r. split; [done|]. destruct r as [n|]; [by destruct H|].
  by apply hits_binary.
Qed.

Lemma read_matching_spec d a bs :
  read_file d a = Ok bs ->
  read_matching_content unicode_lowercase slice_reads s d a
  = Some (if 0 <? length (all_hits bs) then Some (lossy_chars bs, length (all_hits bs)) else None).
Proof.
  intros Hd. unfold read_matching_content. rewrite Hd.
  destruct (count_of_reads false (slice_reads (bytes (lossy_chars bs))) (bytes (lossy_chars bs)) (Hslice _)) as (r & -> & Hr).
  cbn [mbind option_bind]. change (default None (ok (Ok r))) with r. rewrite lossy_chars_bytes in Hr. destruct r as [n|]; cbn [mbind option_bind].
  - destruct (is_lower_bound n); [by destruct Hr|]. by rewrite Hr.
  - by rewrite Hr.
Qed.

Lemma result_for_spec p bs :
  0 < length (all_hits bs) ->
  result_for_content unicode_lowercase s p (lossy_chars bs) (length (all_hits bs)) = exact_result p bs.
Proof.
  intros H. unfold result_for_content, exact_result. rewrite hits_limited.
  destruct (all_hits bs) as [|h hs]; [cbn in H; lia|]. unfold DEFAULT_LITERAL_PREVIEWS_PER_FILE. cbn [take].
  rewrite Nat.max_l; [done|]. cbn [length]. rewrite length_take. lia.
Qed.

(** Reading one file of the selection. *)
Lemma read_selected_spec d f bs :
  read_file d (absolute f) = Ok bs ->
  read_selected unicode_lowercase slice_reads s d f
  = Some (exact_result (relative f) bs, negb (length (all_hits bs) =? matches f)).
Proof.
  intros Hd. unfold read_selected. rewrite (read_matching_spec _ _ _ Hd). cbn [mbind option_bind].
  destruct (Nat.ltb_spec 0 (length (all_hits bs))) as [Hpos|Hz].
  - cbn [mbind option_bind]. rewrite result_for_spec by done. unfold exact_result. by destruct (all_hits bs).
  - unfold exact_result. destruct (all_hits bs) as [|h hs]; [done|cbn in Hz; lia].
Qed.

(** ** A disk that stays as it is *)

(** [d] shows the file [a] as [data] says: its bytes, or that it cannot be read. *)
Definition shows_file (d : Disk (E := E)) (data : path -> option (list N)) (a : path) : Prop :=
  match data a with
  | Some bs => (exists reads, open_file d a = Ok reads /\ bytes_read reads = Some bs) /\ read_file d a = Ok bs
  | None => (exists e, open_file d a = Err e) /\ exists e, read_file d a = Err e
  end.
Definition shows_all (d : Disk (E := E)) (data : path -> option (list N)) : Prop :=
  forall p, p ∈ paths s -> shows_file d data (snd p).

Definition file_hits (data : path -> option (list N)) (p : path * path) : nat :=
  match data (snd p) with Some bs => length (all_hits bs) | None => 0 end.
(** The ranks of the files that match. *)
Definition matching (data : path -> option (list N)) (ps : list (path * path)) : list Rank :=
  map (fun p => (file_hits data p, path_ord (fst p))) (filter (fun p => 0 < file_hits data p) ps).

Lemma count_file_spec d data p stop :
  shows_file d data (snd p) ->
  exists r, count_file unicode_lowercase s d (snd p) stop = Some r
    /\ match r with
       | None => file_hits data p = 0
       | Some n => if is_lower_bound n then stop = true /\ 0 < file_matches n <= file_hits data p
                   else file_matches n = file_hits data p
       end.
Proof.
  unfold shows_file, count_file, file_hits. destruct (data (snd p)) as [bs|].
  - intros ((reads & -> & Hr) & _). destruct (count_of_reads stop reads bs Hr) as (r & -> & H). exists r. split; [done|].
    destruct r; [done|]. by rewrite H.
  - intros ((e & ->) & _). by exists None.
Qed.

Lemma candidate_spec d data p :
  mode s <> SingleFileName -> shows_file d data (snd p) ->
  candidate unicode_lowercase s d p
  = Some (if 0 <? file_hits data p then Some (MkRanked (fst p) (snd p) (file_hits data p) false) else None).
Proof.
  intros Hmode Hd. unfold candidate. rewrite bool_decide_false by done.
  destruct (count_file_spec d data p false Hd) as (r & -> & Hr). cbn [mbind option_bind]. f_equal.
  destruct r as [[fm lb]|]; cbn [mbind option_bind is_lower_bound file_matches] in *; [|by rewrite Hr].
  destruct lb; [by destruct Hr|]. by subst.
Qed.

(** What counting finds, when every match is counted. *)
Lemma candidates_spec d data ps :
  mode s <> SingleFileName -> (forall p, p ∈ ps -> shows_file d data (snd p)) ->
  candidates unicode_lowercase s d ps
  = Some (map (fun p => MkRanked (fst p) (snd p) (file_hits data p) false)
            (filter (fun p => 0 < file_hits data p) ps)).
Proof.
  intros Hmode Hd. unfold candidates.
  assert (mapM (candidate unicode_lowercase s d) ps
          = Some (map (fun p => if 0 <? file_hits data p then Some (MkRanked (fst p) (snd p) (file_hits data p) false) else None) ps))
    as ->.
  { induction ps as [|p ps IH]; [done|]. cbn [mapM map]. rewrite (candidate_spec d data p Hmode (Hd p ltac:(left))).
    cbn [mbind option_bind]. by rewrite IH by (intros q Hq; apply Hd; by right). }
  cbn [mbind option_bind]. f_equal. clear Hd. induction ps as [|p ps IH]; [done|]. cbn [map omap list_omap]. rewrite filter_cons.
  destruct (Nat.ltb_spec 0 (file_hits data p)).
  - rewrite decide_True by done. cbn [id map]. f_equal. exact IH.
  - rewrite decide_False by lia. exact IH.
Qed.

Lemma file_leb_rank a b : file_leb a b = rank_ok (file_rank a) (file_rank b).
Proof. apply rank_leb_ok. Qed.
Lemma result_leb_rank a b : result_leb a b = rank_ok (result_rank a) (result_rank b).
Proof. apply rank_leb_ok. Qed.

Lemma sorted_impl_rank {A} (leb : A -> A -> bool) (key : A -> Rank) l :
  (forall a b, leb a b = rank_ok (key a) (key b)) ->
  StronglySorted (fun a b => leb a b = true) l -> StronglySorted (fun a b => rank_ok (key a) (key b) = true) l.
Proof. intros H. apply StronglySorted_impl. intros a b. by rewrite H. Qed.

Lemma all_sorted_best {A} (key : A -> Rank) l l' k :
  l ≡ₚ l' -> StronglySorted (fun a b => rank_ok (key a) (key b) = true) l -> length l' <= k ->
  map key l = best k (map key l').
Proof.
  intros Hp Hs Hk. rewrite take_ge by (rewrite sort_by_perm, length_map; done).
  rewrite <- (sort_by_sorted_id rank_ok rank_total rank_trans rank_anti (map key l)) by by apply sorted_ranks.
  apply sort_by_unique; [apply rank_total|apply rank_trans|apply rank_anti|]. by rewrite Hp.
Qed.

Lemma matching_found data ps :
  map file_rank (map (fun p => MkRanked (fst p) (snd p) (file_hits data p) false) (filter (fun p => 0 < file_hits data p) ps))
  = matching data ps.
Proof. unfold matching. by rewrite map_map. Qed.

Definition counted_file (data : path -> option (list N)) (f : RankedFile) : Prop :=
  exists p, p ∈ paths s /\ 0 < file_hits data p /\ f = MkRanked (fst p) (snd p) (file_hits data p) false.

(** The selection: the best files by their exact counts, over any split of the
    work. *)
Lemma selects_spec d data selected :
  mode s <> SingleFileName -> shows_all d data -> selects unicode_lowercase s d selected ->
  map file_rank selected = best (max_files s) (matching data (paths s))
  /\ forall f, f ∈ selected -> counted_file data f.
Proof.
  intros Hmode Hd Hsel. pose proof (candidates_spec d data (paths s) Hmode Hd) as Hc.
  assert (forall f, f ∈ map (fun p => MkRanked (fst p) (snd p) (file_hits data p) false)
                         (filter (fun p => 0 < file_hits data p) (paths s)) -> counted_file data f) as Hfound.
  { intros f (p & -> & [Hp Hin]%list_elem_of_filter)%list_elem_of_fmap. by exists p. }
  destruct Hsel as [found selected Hmax Hf Hperm Hs|plan heap selected Hmax Hf Hred Hperm Hs];
    rewrite Hc in Hf; injection Hf as Hf.
  - subst found. split; [|intros f Hin; apply Hfound; by rewrite <- Hperm].
    rewrite <- matching_found. apply all_sorted_best; [done|by eapply sorted_impl_rank; [apply file_leb_rank|]|].
    rewrite length_map. etrans; [apply length_filter|done].
  - apply (sorted_impl_rank _ file_rank) in Hs; [|apply file_leb_rank].
    assert (reduces (fun a b => rank_ok (file_rank a) (file_rank b)) (max_files s) plan heap) as Hred'.
    { by eapply reduces_ext; [apply file_leb_rank|]. }
    apply (reduces_keys file_rank rank_ok rank_total rank_trans rank_anti) in Hred' as [Hkeys Hin].
    rewrite <- Hf, matching_found in Hkeys. split; [by eapply sorted_arrangement|].
    intros f Hfin. apply Hfound. rewrite Hf. apply Hin. by rewrite <- Hperm.
Qed.

(** ** Results of one reading *)

Definition shown_hits (unlimited : bool) (bs : list N) : list LiteralHit :=
  match mode s with
  | Files => if unlimited then all_hits bs else take DEFAULT_LITERAL_PREVIEWS_PER_FILE (all_hits bs)
  | _ => []
  end.
(** A result that says of a candidate's bytes exactly what is true of them. *)
Definition exact_of (unlimited : bool) (data : path -> option (list N)) (r : FileSearchResult) : Prop :=
  exists p bs, p ∈ paths s /\ data (snd p) = Some bs /\ file_path r = fst p
    /\ hit_count r = length (all_hits bs) /\ 0 < hit_count r
    /\ total_score r = file_score (hit_count r)
    /\ hits r = shown_hits unlimited bs
    /\ more_hits_in_file r = hit_count r - length (hits r) /\ hit_count_is_lower_bound r = false.

Lemma counted_file_data data f :
  counted_file data f ->
  exists p bs, p ∈ paths s /\ data (snd p) = Some bs /\ absolute f = snd p /\ relative f = fst p
    /\ matches f = length (all_hits bs) /\ 0 < matches f /\ matches_are_lower_bound f = false.
Proof.
  intros (p & Hin & Hpos & ->). unfold file_hits in *. destruct (data (snd p)) as [bs|] eqn:Ed; [|lia].
  exists p, bs. done.
Qed.

Lemma exact_result_spec p bs :
  0 < length (all_hits bs) ->
  exists r, exact_result p bs = Some r /\ file_path r = p /\ hit_count r = length (all_hits bs)
    /\ total_score r = file_score (hit_count r)
    /\ hits r = take DEFAULT_LITERAL_PREVIEWS_PER_FILE (all_hits bs)
    /\ more_hits_in_file r = hit_count r - length (hits r) /\ hit_count_is_lower_bound r = false.
Proof. intros H. unfold exact_result. destruct (all_hits bs) as [|h hs]; [cbn in H; lia|]. by eexists. Qed.

(** Reading an unchanged selection keeps every file, its rank and its count. *)
Lemma read_unchanged d data selected :
  mode s = Files -> shows_all d data -> (forall f, f ∈ selected -> counted_file data f) ->
  exists results, mapM (read_selected unicode_lowercase slice_reads s d) selected = Some results
    /\ existsb snd results = false
    /\ map result_rank (omap fst results) = map file_rank selected
    /\ forall r, r ∈ omap fst results -> exact_of false data r.
Proof.
  intros Hmode Hd. induction selected as [|f selected IH]; intros Hall.
  { exists []. split_and!; try done. by intros r ?%not_elem_of_nil. }
  destruct IH as (results & Hm & Hex & Hranks & Hexact); [intros g Hg; apply Hall; by right|].
  destruct (counted_file_data data f (Hall f ltac:(left))) as (p & bs & Hp & Hdata & Ha & Hrel & Hmatch & Hpos & _).
  assert (read_file d (absolute f) = Ok bs) as Hread.
  { specialize (Hd p Hp). unfold shows_file in Hd. rewrite Hdata in Hd. rewrite Ha. by destruct Hd. }
  destruct (exact_result_spec (relative f) bs ltac:(lia)) as (r & Hr & Hpath & Hcount & Hscore & Hhits & Hmore & Hlow).
  exists ((Some r, false) :: results). split_and!.
  - cbn [mapM]. rewrite (read_selected_spec _ _ _ Hread), Hr, Hmatch, Nat.eqb_refl. cbn [mbind option_bind]. by rewrite Hm.
  - done.
  - change (omap fst ((Some r, false) :: results)) with (r :: omap fst results). cbn [map]. rewrite Hranks. f_equal. unfold result_rank, file_rank. by rewrite Hpath, Hcount, Hmatch.
  - intros x [->|Hx]%elem_of_cons; [|by apply Hexact]. exists p, bs. rewrite Hrel in Hpath. unfold shown_hits. rewrite Hmode.
    split_and!; try done. lia.
Qed.

Lemma unlimited_spec d data ps :
  mode s = Files -> (forall p, p ∈ ps -> p ∈ paths s /\ shows_file d data (snd p)) ->
  map result_rank (omap (unlimited_result unicode_lowercase s d) ps) = matching data ps
  /\ forall r, r ∈ omap (unlimited_result unicode_lowercase s d) ps -> exact_of true data r.
Proof.
  intros Hmode. induction ps as [|p ps IH]; intros Hd; [split; [done|by intros r ?%not_elem_of_nil]|].
  destruct IH as [Hranks Hexact]; [intros q Hq; apply Hd; by right|]. destruct (Hd p ltac:(left)) as [Hin Hp].
  unfold matching. rewrite filter_cons. unfold shows_file in Hp.
  assert (exists o, unlimited_result unicode_lowercase s d p = o
    /\ match o with
       | None => file_hits data p = 0
       | Some r => result_rank r = (file_hits data p, path_ord (fst p)) /\ 0 < file_hits data p /\ exact_of true data r
       end) as (o & Ho & Hspec).
  { eexists. split; [done|]. unfold unlimited_result, file_hits. destruct (data (snd p)) as [bs|] eqn:Ed.
    - destruct Hp as [_ ->]. destruct (all_hits bs) as [|h hs] eqn:Eh; [done|]. rewrite <- Eh. split_and!; [done|rewrite Eh; cbn; lia|].
      exists p, bs. unfold shown_hits. rewrite Hmode. cbn. split_and!; try done; [rewrite Eh; cbn; lia|lia].
    - by destruct Hp as [_ (e & ->)]. }
  cbn [omap list_omap]. rewrite Ho. destruct o as [r|].
  - destruct Hspec as (Hr & Hpos & Hex). rewrite decide_True by done. split; [cbn [map]; f_equal; [exact Hr|exact Hranks]|].
    intros x [->|Hx]%elem_of_cons; [done|by apply Hexact].
  - rewrite decide_False by lia. split; [exact Hranks|exact Hexact].
Qed.

Lemma length_omap_le {A B} (f : A -> option B) l : length (omap f l) <= length l.
Proof.
  induction l as [|x l IH]; [done|]. change (omap f (x :: l)) with (match f x with Some y => y :: omap f l | None => omap f l end).
  destruct (f x); cbn [length]; lia.
Qed.

(** The search of a directory that stays as it is. *)
Lemma search_stable unlimited first reread live data results :
  mode s <> SingleFileName -> shows_all first data -> shows_all reread data ->
  searches unicode_lowercase slice_reads s unlimited first reread live results ->
  map result_rank results
  = best (if unlimited && bool_decide (mode s = Files) then length (paths s) else max_files s) (matching data (paths s))
  /\ forall r, r ∈ results -> exact_of unlimited data r.
Proof.
  intros Hmode Hf Hr Hs. destruct Hs as [results Hm Hu Hperm Hsorted|selected Hm Hsel|selected results Hm Hu Hsel Hread].
  - rewrite Hu, bool_decide_true by done. cbn [andb].
    destruct (unlimited_spec first data (paths s) Hm) as [Hranks Hexact]; [intros p Hp; split; [done|by apply Hf]|].
    split; [|intros r Hr'; apply Hexact; by rewrite <- Hperm]. rewrite <- Hranks. apply all_sorted_best; [done| |].
    + by eapply sorted_impl_rank; [apply result_leb_rank|].
    + apply length_omap_le.
  - rewrite bool_decide_false, andb_false_r by done. destruct (selects_spec first data selected Hmode Hf Hsel) as [Hranks Hall].
    split; [by rewrite map_map|]. intros r (f & -> & Hin)%list_elem_of_fmap.
    destruct (counted_file_data data f (Hall f Hin)) as (p & bs & Hp & Hdata & _ & Hrel & Hmatch & Hpos & Hlow).
    exists p, bs. unfold shown_hits. cbn. split_and!; try done; [by destruct (mode s)|lia].
  - rewrite Hu. cbn [andb]. destruct (selects_spec first data selected Hmode Hf Hsel) as [Hranks Hall].
    destruct (read_unchanged reread data selected Hm Hr Hall) as (results' & Hm' & Hex & Hranks' & Hexact).
    destruct Hread as [results Hmr Hsame|results plan heap Hmr Hchanged _ _]; rewrite Hm' in Hmr; injection Hmr as <-;
      [|congruence]. by rewrite Hranks', Hranks.
Qed.

(** ** Selecting anew *)

Lemma insert_last x l :
  StronglySorted (fun a b => rank_ok a b = true) l -> (forall y, y ∈ l -> rank_ok y x = true) ->
  insert_by rank_ok x l = l ++ [x].
Proof.
  intros Hs Hx. rewrite <- (sort_by_sorted_id rank_ok rank_total rank_trans rank_anti (l ++ [x])).
  - rewrite <- (sort_by_sorted_id rank_ok rank_total rank_trans rank_anti (insert_by rank_ok x l)).
    + apply sort_by_unique; [apply rank_total|apply rank_trans|apply rank_anti|].
      rewrite insert_by_perm. apply Permutation_cons_append.
    + apply insert_by_sorted; [apply rank_total|apply rank_trans|done].
  - apply StronglySorted_app_2; [intros a b Ha ->%list_elem_of_singleton; by apply Hx|done|by repeat constructor].
Qed.

(** A rank that is not better than the worst of a full heap would be dropped. *)
Lemma would_select_false heap p count ranks :
  map result_rank heap = best (max_files s) ranks -> would_select s heap p count = false ->
  best (max_files s) ((count, path_ord p) :: ranks) = best (max_files s) ranks.
Proof.
  intros Hheap Hw. unfold would_select in Hw. apply orb_false_iff in Hw as [Hfull%Nat.ltb_ge Hworst].
  cbn [sort_by foldr]. change (foldr (insert_by rank_ok) [] ranks) with (sort_by rank_ok ranks).
  rewrite <- take_insert_take, <- Hheap. pose proof (f_equal length Hheap) as Hl. rewrite length_map, length_take in Hl.
  assert (StronglySorted (fun a b => rank_ok a b = true) (map result_rank heap)) as Hs.
  { rewrite Hheap. apply sorted_take, sort_by_sorted; [apply rank_total|apply rank_trans]. }
  rewrite insert_last.
  - rewrite take_app_le by (rewrite length_map; lia). by rewrite take_ge by (rewrite length_map; lia).
  - done.
  - intros y Hy. destruct (last heap) as [worst|] eqn:El.
    2: { apply last_None in El. subst heap. by apply not_elem_of_nil in Hy. }
    apply last_Some in El as (init & ->). rewrite map_app in Hs, Hy. cbn [map] in Hs, Hy.
    assert (rank_ok (result_rank worst) (count, path_ord p) = true) as Hw.
    { apply bool_decide_eq_false in Hworst. destruct (rank_total (result_rank worst) (count, path_ord p)) as [H|H]; [done|].
      unfold rank_ok in *. unfold compare_rank, path_cmp in Hworst. cbn [fst snd] in *. unfold result_rank in *. cbn [fst snd] in *.
      rewrite lex_is_kcmp in *.
      destruct (Nat.compare_spec (hit_count worst) count) as [E1|E1|E1], (Nat.compare_spec count (hit_count worst)) as [E2|E2|E2];
        try lia; try done.
      rewrite (@kcmp_sym _ path_rank (path_ord p)).
      destruct (@kcmp _ path_rank (path_ord p) (path_ord (file_path worst))) eqn:Ec; done. }
    apply elem_of_app in Hy as [Hy| ->%list_elem_of_singleton]; [|done].
    apply StronglySorted_app in Hs as (Hle & _ & _). eapply rank_trans; [|exact Hw]. apply Hle; [done|left].
Qed.

Lemma ranks_insert heap r ranks :
  map result_rank heap = best (max_files s) ranks ->
  map result_rank (heap_insert result_leb (max_files s) heap r) = best (max_files s) (result_rank r :: ranks).
Proof.
  intros Hheap. rewrite (heap_insert_ext _ (fun a b => rank_ok (result_rank a) (result_rank b)) result_leb_rank).
  rewrite map_heap_insert, Hheap, heap_insert_take by (rewrite length_take; lia). by rewrite take_insert_take.
Qed.
Lemma ranks_fold heap l ranks :
  map result_rank heap = best (max_files s) ranks ->
  map result_rank (foldl (heap_insert result_leb (max_files s)) heap l) = best (max_files s) (ranks ++ map result_rank l).
Proof.
  intros Hheap. rewrite (fold_insert_ext _ (fun a b => rank_ok (result_rank a) (result_rank b)) result_leb_rank).
  rewrite map_fold_insert, Hheap. apply fold_insert_perm; [apply rank_total|apply rank_trans|apply rank_anti].
Qed.
Lemma best_perm k a b : a ≡ₚ b -> best k a = best k b.
Proof. intros H. f_equal. by apply sort_by_unique; [apply rank_total|apply rank_trans|apply rank_anti|]. Qed.

Definition step_ranks (data : path -> option (list N)) (p : path * path) (ranks : list Rank) : list Rank :=
  if 0 <? file_hits data p then (file_hits data p, path_ord (fst p)) :: ranks else ranks.

Lemma reselect_step_spec d data heap p ranks :
  mode s = Files -> p ∈ paths s -> shows_file d data (snd p) ->
  map result_rank heap = best (max_files s) ranks -> (forall r, r ∈ heap -> exact_of false data r) ->
  exists heap', reselect_step unicode_lowercase slice_reads s d heap p = Some heap'
    /\ map result_rank heap' = best (max_files s) (step_ranks data p ranks)
    /\ forall r, r ∈ heap' -> exact_of false data r.
Proof.
  intros Hmode Hin Hp Hheap Hexact. unfold reselect_step, step_ranks.
  destruct (count_file_spec d data p false Hp) as (c & -> & Hc). cbn [mbind option_bind].
  destruct c as [[fm lb]|]; [|rewrite Hc; by exists heap].
  cbn [is_lower_bound file_matches] in *. destruct lb; [by destruct Hc|]. subst fm.
  destruct (Nat.ltb_spec 0 (file_hits data p)) as [Hpos|]; cbn [andb]; [|by exists heap].
  destruct (would_select s heap (fst p) (file_hits data p)) eqn:Ew.
  2: { exists heap. split_and!; [done| |done]. rewrite Hheap. symmetry. by eapply would_select_false. }
  unfold shows_file in Hp. unfold file_hits in *. destruct (data (snd p)) as [bs|] eqn:Ed; [|lia]. destruct Hp as [_ Hread].
  rewrite (read_matching_spec _ _ _ Hread), (proj2 (Nat.ltb_lt _ _)) by done. cbn [mbind option_bind].
  rewrite Ew, result_for_spec by done.
  destruct (exact_result_spec (fst p) bs Hpos) as (r & -> & Hpath & Hcount & Hscore & Hhits & Hmore & Hlow).
  eexists. split; [done|]. split.
  - rewrite (ranks_insert _ _ ranks) by done. unfold result_rank at 1. by rewrite Hpath, Hcount.
  - intros x Hx. apply heap_insert_elem in Hx as [->|Hx]; [|by apply Hexact].
    exists p, bs. unfold shown_hits. rewrite Hmode. split_and!; try done. lia.
Qed.

Lemma reselect_part_spec d data ps : forall heap ranks,
  mode s = Files -> (forall p, p ∈ ps -> p ∈ paths s /\ shows_file d data (snd p)) ->
  map result_rank heap = best (max_files s) ranks -> (forall r, r ∈ heap -> exact_of false data r) ->
  exists heap', reselect_part unicode_lowercase slice_reads s d heap ps = Some heap'
    /\ map result_rank heap' = best (max_files s) (ranks ++ matching data ps)
    /\ forall r, r ∈ heap' -> exact_of false data r.
Proof.
  induction ps as [|p ps IH]; intros heap ranks Hmode Hps Hheap Hexact; cbn [reselect_part].
  { exists heap. split_and!; [done| |done]. unfold matching. by rewrite app_nil_r. }
  destruct (Hps p ltac:(left)) as [Hin Hp].
  destruct (reselect_step_spec d data heap p ranks Hmode Hin Hp Hheap Hexact) as (h1 & -> & Hh1 & He1). cbn [mbind option_bind].
  destruct (IH h1 (step_ranks data p ranks) Hmode) as (h2 & -> & Hh2 & He2); [intros q Hq; apply Hps; by right|done|done|].
  exists h2. split_and!; [done| |done]. rewrite Hh2. apply best_perm. unfold step_ranks, matching. rewrite filter_cons.
  destruct (Nat.ltb_spec 0 (file_hits data p)).
  - rewrite decide_True by done. cbn [map]. apply Permutation_middle.
  - by rewrite decide_False by lia.
Qed.

Lemma reselects_spec d data plan heap :
  mode s = Files -> (forall p, p ∈ plan_items plan -> p ∈ paths s /\ shows_file d data (snd p)) ->
  reselects unicode_lowercase slice_reads s d plan heap ->
  map result_rank heap = best (max_files s) (matching data (plan_items plan))
  /\ forall r, r ∈ heap -> exact_of false data r.
Proof.
  intros Hmode Hps Hr. induction Hr as [ps heap Hp|a b ha hb order _ IHa _ IHb Ho]; cbn [plan_items] in *.
  - destruct (reselect_part_spec d data ps [] [] Hmode Hps) as (h & Hh & Hranks & He).
    + cbn [map sort_by foldr]. symmetry. apply take_nil.
    + by intros r ?%not_elem_of_nil.
    + rewrite Hp in Hh. injection Hh as <-. done.
  - destruct IHa as [Ha Ea]; [intros p Hin; apply Hps, elem_of_app; by left|].
    destruct IHb as [Hb Eb]; [intros p Hin; apply Hps, elem_of_app; by right|]. split.
    + rewrite (ranks_fold _ _ _ Ha).
      assert (matching data (plan_items a ++ plan_items b) = matching data (plan_items a) ++ matching data (plan_items b)) as ->
        by (unfold matching; by rewrite filter_app, map_app).
      rewrite (best_perm _ _ (map result_rank hb ++ matching data (plan_items a)))
        by (rewrite Ho; apply Permutation_app_comm).
      rewrite Hb, take_sort_app; [|apply rank_total|apply rank_trans|apply rank_anti]. apply best_perm, Permutation_app_comm.
    + intros r Hin. apply fold_insert_elem in Hin as [Hin|Hin]; [by apply Ea|]. apply Eb. by rewrite <- Ho.
Qed.
End Search.

(** C24. Literal search by file returns exactly the best files: when the files stay
    as they are while they are counted and read again, the results are, in order of
    falling counts and then of paths, the ranks of the first [max_files] (or all)
    matching files, whatever parts the parallel workers took and in whatever order
    their heaps were merged; and each result carries the exact count of lines of
    its file that match, the first hits, and how many more there are.  (One file
    name alone may be found with a lower bound.) *)
Theorem search_files_exact {E} unicode_lowercase slice_reads s unlimited (first reread live : Disk (E := E)) data results :
  (forall l, bytes_read (slice_reads l) = Some l) ->
  query_lower s <> [] -> last (query_lower s) <> Some 13%N -> new_matcher (bytes (query_lower s)) = Some (matcher s) ->
  mode s <> SingleFileName -> shows_all s first data -> shows_all s reread data ->
  searches unicode_lowercase slice_reads s unlimited first reread live results ->
  map result_rank results
  = best (if unlimited && bool_decide (mode s = Files) then length (paths s) else max_files s)
      (matching unicode_lowercase s data (paths s))
  /\ forall r, r ∈ results -> exact_of unicode_lowercase s unlimited data r.
Proof. intros Hslice Hq Hl Hm. by apply search_stable. Qed.

(** When a selected file changed before its previews were read, the search does
    not mix readings: the new selection is exactly the best files of the directory
    as the new pass finds it, each with the count and hits of that pass, although
    candidates that cannot enter a full heap are not read. *)
Theorem reselection_exact {E} unicode_lowercase slice_reads s (reread live : Disk (E := E)) data selected results found :
  (forall l, bytes_read (slice_reads l) = Some l) ->
  query_lower s <> [] -> last (query_lower s) <> Some 13%N -> new_matcher (bytes (query_lower s)) = Some (matcher s) ->
  mode s = Files -> shows_all s live data ->
  mapM (read_selected unicode_lowercase slice_reads s reread) selected = Some found -> existsb snd found = true ->
  reads_selected unicode_lowercase slice_reads s reread live selected results ->
  map result_rank results = best (max_files s) (matching unicode_lowercase s data (paths s))
  /\ forall r, r ∈ results -> exact_of unicode_lowercase s false data r.
Proof.
  intros Hslice Hq Hl Hm Hmode Hd Hfound Hchanged Hr. destruct Hr as [found' Hf Hs|found' plan heap Hf Hs Hplan Hsel].
  - rewrite Hfound in Hf. injection Hf as <-. congruence.
  - rewrite <- Hplan. eapply (reselects_spec unicode_lowercase slice_reads Hslice s Hq Hl Hm live data plan heap Hmode); [|done].
    rewrite Hplan. intros p Hp. split; [done|by apply Hd].
Qed.

(** Two files, the second with more matching lines. *)
Definition two_files (p : path) : option (list N) :=
  if bool_decide (p = lit "/a") then Some (lit "xAb") else if bool_decide (p = lit "/b") then Some (lit "ab" ++ [10%N] ++ lit "ab") else None.
Definition two_disk : Disk (E := unit) :=
  MkDisk (fun p => match two_files p with Some bs => Ok [(false, ReadBytes bs)] | None => Err tt end)
         (fun p => match two_files p with Some bs => Ok bs | None => Err tt end).
Definition two_search : FileSearch :=
  MkSearch (MkMatcher (lit "ab") [0; 0]) (lit "ab") 0 1 [(lit "a", lit "/a"); (lit "b", lit "/b")] Files.

Lemma two_shown : shows_all two_search two_disk two_files.
Proof.
  intros p [->|[->|?%not_elem_of_nil]%elem_of_cons]%elem_of_cons; [| |done].
  - split; [|reflexivity]. eexists. split; reflexivity.
  - split; [|reflexivity]. eexists. split; reflexivity.
Qed.
Lemma whole_reads (l : list N) : bytes_read (E := unit) [(false, ReadBytes l)] = Some l.
Proof. destruct l as [|b l]; [reflexivity|]. cbn [bytes_read]. cbn. by rewrite app_nil_r. Qed.

Lemma two_searched :
  exists results,
    searches (fun c => [c]) (fun l => [(false, ReadBytes l)]) two_search false two_disk two_disk two_disk results.
Proof.
  eexists. eapply searches_files; [reflexivity|reflexivity| |].
  - eapply (select_bounded _ _ _ (Part [MkRanked (lit "a") (lit "/a") 1 false; MkRanked (lit "b") (lit "/b") 2 false])).
    + apply Nat.ltb_lt. reflexivity.
    + vm_compute. reflexivity.
    + apply reduces_part.
    + vm_compute. reflexivity.
    + repeat constructor.
  - eapply reads_unchanged; vm_compute; reflexivity.
Qed.

Lemma search_files_exact_witness :
  exists results,
    searches (fun c => [c]) (fun l => [(false, ReadBytes l)]) two_search false two_disk two_disk two_disk results
    /\ map result_rank results = [(2, path_ord (lit "b"))].
Proof.
  destruct two_searched as (results & H). exists results. split; [exact H|].
  destruct (search_files_exact (fun c => [c]) (fun l => [(false, ReadBytes l)]) two_search false two_disk two_disk two_disk
              two_files results) as [Hr _].
  - exact whole_reads.
  - discriminate.
  - discriminate.
  - reflexivity.
  - discriminate.
  - exact two_shown.
  - exact two_shown.
  - exact H.
  - rewrite Hr. vm_compute. reflexivity.
Defined.

Lemma reselection_exact_witness :
  exists results, map result_rank results = [(2, path_ord (lit "b"))].
Proof.
  assert (exists heap, reselects (fun c => [c]) (fun l => [(false, ReadBytes l)]) two_search two_disk (Part (paths two_search)) heap) as (heap & Hh).
  { eexists. apply reselects_part. vm_compute. reflexivity. }
  exists heap.
  destruct (reselection_exact (fun c => [c]) (fun l => [(false, ReadBytes l)]) two_search two_disk two_disk two_files
              [MkRanked (lit "a") (lit "/a") 7 false] heap
              [(exact_result (fun c => [c]) two_search (lit "a") (lit "xAb"), true)]) as [Hr _].
  - exact whole_reads.
  - discriminate.
  - discriminate.
  - reflexivity.
  - reflexivity.
  - exact two_shown.
  - vm_compute. reflexivity.
  - reflexivity.
  - eapply (reads_changed _ _ _ _ _ _ _ (Part (paths two_search))); [vm_compute; reflexivity|reflexivity|reflexivity|exact Hh].
  - rewrite Hr. vm_compute. reflexivity.
Defined.
