(* ===== verification/ContextTokens.v ===== *)
(** * The token estimate of context.rs.

  Runs of characters of one class are priced; a calibrated part is scaled down, the
  characters outside ASCII are not.  The counters stay below the length of the text,
  so the code's saturating operations are exact here. *)
From S2P Require Import Prelude Utf8.
From Stdlib Require Import ZifyNat.

Inductive Class := Word | Space | Newline | AsciiOther | Unicode.
#[export] Instance class_eq_dec : EqDecision Class.
Proof. solve_decision. Defined.

Definition class_of (character : char) : Class :=
  if (character =? 10)%N then Newline
  else if is_whitespace character then Space
  else if is_ascii_alphanumeric character || (character =? chr "_")%N then Word
  else if is_ascii character then AsciiOther
  else Unicode.

Definition div_ceil (a b : nat) : nat := (a + b - 1) / b.

(** The closure [flush]: what a run adds to the calibrated and to the conservative
    count. *)
Definition flush (class : option Class) (run : nat) : nat * nat :=
  match class with
  | Some Word => (div_ceil run 4, 0)
  | Some Space => (if 0 <? run then 1 else 0, 0)
  | Some Newline | Some AsciiOther => (run, 0)
  | Some Unicode => (0, run)
  | None => (0, 0)
  end.

Record Estimate := MkEstimate {
  calibrated : nat;
  conservative : nat;
  class : option Class;
  run : nat
}.
Definition estimate_start : Estimate := MkEstimate 0 0 None 0.

Definition estimate_step (st : Estimate) (character : char) : Estimate :=
  let next := class_of character in
  if decide (class st = Some next) then MkEstimate (calibrated st) (conservative st) (class st) (run st + 1)
  else
    let '(calibrated_run, conservative_run) := flush (class st) (run st) in
    MkEstimate (calibrated st + calibrated_run) (conservative st + conservative_run) (Some next) 1.

(** Both counts once the last run is flushed. *)
Definition totals (st : Estimate) : nat * nat :=
  let '(calibrated_run, conservative_run) := flush (class st) (run st) in
  (calibrated st + calibrated_run, conservative st + conservative_run).

Definition price (counts : nat * nat) : nat := div_ceil (fst counts * 3) 5 + snd counts.
Definition estimate_tokens (text : str) : nat := price (totals (foldl estimate_step estimate_start text)).

(** ** Order and addition of counts *)

Definition counts (text : str) : nat * nat := totals (foldl estimate_step estimate_start text).
Definition counts_le (a b : nat * nat) : Prop := fst a <= fst b /\ snd a <= snd b.

Ltac ceil := unfold div_ceil in *; zify; Z.to_euclidean_division_equations; lia.

Lemma div_ceil_mono a b k : a <= b -> div_ceil a k <= div_ceil b k.
Proof. intros. apply Nat.Div0.div_le_mono. lia. Qed.
Lemma price_mono a b : counts_le a b -> price a <= price b.
Proof.
  intros [H1 H2]. unfold price.
  pose proof (div_ceil_mono (fst a * 3) (fst b * 3) 5 ltac:(lia)). lia.
Qed.
Lemma flush_mono c r r' : r <= r' -> counts_le (flush c r) (flush c r').
Proof.
  intros H. destruct c as [[]|]; split; cbn [flush fst snd]; try lia; [by apply div_ceil_mono|].
  destruct (Nat.ltb_spec 0 r), (Nat.ltb_spec 0 r'); lia.
Qed.

(** A state that has counted at least as much, in a run at least as long. *)
Definition ahead (a b : Estimate) : Prop :=
  class a = class b /\ run a <= run b /\ calibrated a <= calibrated b /\ conservative a <= conservative b.
Lemma ahead_totals a b : ahead a b -> counts_le (totals a) (totals b).
Proof.
  intros (Hc & Hr & H1 & H2). unfold totals. rewrite Hc.
  pose proof (flush_mono (class b) _ _ Hr) as [H3 H4].
  destruct (flush (class b) (run a)), (flush (class b) (run b)). split; cbn [fst snd] in *; lia.
Qed.
Lemma ahead_step a b c : ahead a b -> ahead (estimate_step a c) (estimate_step b c).
Proof.
  intros (Hc & Hr & H1 & H2). unfold estimate_step. rewrite Hc. case_decide.
  - repeat split; cbn [class run calibrated conservative]; lia.
  - pose proof (flush_mono (class b) _ _ Hr) as [H3 H4].
    destruct (flush (class b) (run a)), (flush (class b) (run b)). cbn [fst snd] in *.
    repeat split; cbn [class run calibrated conservative]; lia.
Qed.
Lemma ahead_fold t : forall a b, ahead a b -> ahead (foldl estimate_step a t) (foldl estimate_step b t).
Proof. induction t as [|c t IH]; intros a b H; [done|]. apply IH. by apply ahead_step. Qed.

Lemma start_ahead st c : ahead (estimate_step estimate_start c) (estimate_step st c).
Proof.
  unfold estimate_step. rewrite decide_False by done. cbn [flush class estimate_start]. case_decide as E.
  - repeat split; cbn; [by rewrite E|lia..].
  - destruct (flush (class st) (run st)). repeat split; cbn; lia.
Qed.

Lemma totals_step st c : counts_le (totals st) (totals (estimate_step st c)).
Proof.
  unfold totals, estimate_step. case_decide as E.
  - cbn [class run calibrated conservative]. pose proof (flush_mono (class st) (run st) (run st + 1) ltac:(lia)) as [H1 H2].
    destruct (flush (class st) (run st)), (flush (class st) (run st + 1)). split; cbn [fst snd] in *; lia.
  - destruct (flush (class st) (run st)) as [x y]. cbn [class run calibrated conservative].
    destruct (flush _ 1). split; cbn [fst snd]; lia.
Qed.
Lemma counts_le_trans a b c : counts_le a b -> counts_le b c -> counts_le a c.
Proof. unfold counts_le. lia. Qed.
Lemma totals_fold t : forall st, counts_le (totals st) (totals (foldl estimate_step st t)).
Proof.
  induction t as [|c t IH]; intros st; [by split|]. cbn [foldl].
  eapply counts_le_trans; [apply totals_step|apply IH].
Qed.

Lemma counts_suffix s t : counts_le (counts t) (counts (s ++ t)).
Proof.
  unfold counts. rewrite foldl_app. destruct t as [|c t]; [apply (totals_fold s estimate_start)|].
  apply ahead_totals. cbn [foldl]. apply ahead_fold, start_ahead.
Qed.
Lemma counts_prefix s t : counts_le (counts s) (counts (s ++ t)).
Proof. unfold counts. rewrite foldl_app. apply totals_fold. Qed.

(** A part of a text is never estimated at more than the text. *)
Lemma estimate_infix p s : infix p s -> estimate_tokens p <= estimate_tokens s.
Proof.
  intros (a & b & ->). apply price_mono. eapply counts_le_trans; [apply counts_prefix|apply counts_suffix].
Qed.

Lemma estimate_nil : estimate_tokens [] = 0.
Proof. done. Qed.

(** ** Runs are counted apart *)

Definition shift (x y : nat) (st : Estimate) : Estimate :=
  MkEstimate (x + calibrated st) (y + conservative st) (class st) (run st).
Lemma shift_fold x y t : forall st,
  foldl estimate_step (shift x y st) t = shift x y (foldl estimate_step st t).
Proof.
  induction t as [|c t IH]; intros st; [done|]. cbn [foldl]. rewrite <- IH. f_equal.
  unfold estimate_step, shift. cbn [class run calibrated conservative]. case_decide; [done|].
  destruct (flush (class st) (run st)). cbn [calibrated conservative class run]. by rewrite !Nat.add_assoc.
Qed.
Lemma shift_totals x y st : totals (shift x y st) = (x + fst (totals st), y + snd (totals st)).
Proof.
  unfold totals, shift. cbn [class run calibrated conservative]. destruct (flush (class st) (run st)).
  cbn [fst snd]. by rewrite !Nat.add_assoc.
Qed.

Lemma class_fold t : forall st, class (foldl estimate_step st t) =
  match last t with Some c => Some (class_of c) | None => class st end.
Proof.
  induction t as [|c t IH]; intros st; [done|]. cbn [foldl]. rewrite IH.
  destruct t as [|d t].
  2: { change (last (c :: d :: t)) with (last (d :: t)). destruct (last (d :: t)) eqn:E; [done|by apply last_None in E]. }
  cbn [last]. unfold estimate_step. case_decide as E; [by rewrite E|].
  by destruct (flush _ _).
Qed.

(** At a change of class the counts add up. *)
Lemma counts_app s t c d :
  last s = Some c -> head t = Some d -> class_of c <> class_of d ->
  counts (s ++ t) = (fst (counts s) + fst (counts t), snd (counts s) + snd (counts t)).
Proof.
  intros Hs Ht Hne. destruct t as [|d' t]; [done|]. injection Ht as ->.
  unfold counts. rewrite foldl_app. cbn [foldl].
  pose proof (class_fold s estimate_start) as Hc. rewrite Hs in Hc.
  set (st := foldl estimate_step estimate_start s) in *.
  replace (estimate_step st d) with
    (shift (fst (totals st)) (snd (totals st)) (estimate_step estimate_start d)).
  { by rewrite shift_fold, shift_totals. }
  unfold estimate_step. rewrite Hc, decide_False, decide_False by (cbn; congruence).
  unfold totals, shift. rewrite Hc.
  destruct (flush (Some (class_of c)) (run st)). cbn. f_equal; lia.
Qed.

(** A run of word characters. *)
Lemma word_step n c : class_of c = Word ->
  estimate_step (MkEstimate 0 0 (Some Word) n) c = MkEstimate 0 0 (Some Word) (n + 1).
Proof. intros H. unfold estimate_step. rewrite H. cbn [class]. by rewrite decide_True. Qed.
Lemma word_fold w : Forall (fun c => class_of c = Word) w -> forall n,
  foldl estimate_step (MkEstimate 0 0 (Some Word) n) w = MkEstimate 0 0 (Some Word) (n + length w).
Proof.
  induction 1 as [|c w Hc _ IH]; intros n; cbn [foldl length]; [by rewrite Nat.add_0_r|].
  rewrite word_step, IH by done. f_equal. lia.
Qed.
Lemma counts_word w : Forall (fun c => class_of c = Word) w -> w <> [] -> counts w = (div_ceil (length w) 4, 0).
Proof.
  destruct 1 as [|c w Hc Hw]; [done|]. intros _. unfold counts. cbn [foldl].
  replace (estimate_step estimate_start c) with (MkEstimate 0 0 (Some Word) 1).
  { by rewrite word_fold. }
  unfold estimate_step. rewrite Hc. by rewrite decide_False.
Qed.

(** At most one token for each character. *)
Lemma totals_step_le st c :
  fst (totals (estimate_step st c)) + snd (totals (estimate_step st c)) <= fst (totals st) + snd (totals st) + 1.
Proof.
  unfold totals, estimate_step. case_decide as E.
  - cbn [class run calibrated conservative].
    assert (fst (flush (class st) (run st + 1)) + snd (flush (class st) (run st + 1))
            <= fst (flush (class st) (run st)) + snd (flush (class st) (run st)) + 1) as H.
    { destruct (class st) as [[]|]; cbn [flush fst snd]; try lia; [ceil|]. repeat case_match; lia. }
    destruct (flush (class st) (run st)), (flush (class st) (run st + 1)). cbn [fst snd] in *. lia.
  - destruct (flush (class st) (run st)) as [x y]. cbn [class run calibrated conservative].
    destruct (class_of c); cbn; lia.
Qed.
Lemma estimate_length s : estimate_tokens s <= length s.
Proof.
  assert (forall st, fst (totals (foldl estimate_step st s)) + snd (totals (foldl estimate_step st s))
    <= fst (totals st) + snd (totals st) + length s) as H.
  { induction s as [|c s IH]; intros st; cbn [foldl length]; [lia|].
    etransitivity; [apply IH|]. pose proof (totals_step_le st c). lia. }
  specialize (H estimate_start). change (totals estimate_start) with (0, 0) in H. cbn [fst snd] in H.
  unfold estimate_tokens, price. destruct (totals _) as [x y]. cbn [fst snd] in *.
  ceil.
Qed.
