(* ===== verification/ContextPreview.v ===== *)
(** * The part of a text that fits a token budget (context.rs).

  The line that matches the task best is grown in both directions while the estimate
  stays in the budget; a line that is too long by itself is cut. *)
From S2P Require Import Prelude Utf8 TextTokens ContextTokens TextStream.

(** ** Symbols and terms of a task *)

(** [HashSet::insert] as a filter: the first element of each key. *)
Fixpoint first_seen {A K} `{EqDecision K} (key : A -> K) (seen : list K) (l : list A) : list A :=
  match l with
  | [] => []
  | x :: l =>
    if decide (key x ∈ seen) then first_seen key seen l
    else x :: first_seen key (key x :: seen) l
  end.

Definition rsplit_once (sep : char) (s : str) : option (str * str) :=
  '(b, a) ← split_once sep (reverse s); Some (reverse a, reverse b).
Definition trim_matches (f : char -> bool) (s : str) : str :=
  reverse (drop_while f (reverse (drop_while f s))).

Definition looks_like_path_location (token : str) : bool :=
  match rsplit_once (chr ":") token with
  | None => false
  | Some (prefix, line_or_column) => forallb is_ascii_digit line_or_column && contains (lit ".") prefix
  end.

Definition starts_member (part : str) : bool :=
  match part with
  | [] => false
  | c :: _ => is_ascii_alphabetic c || bool_decide (c ∈ lit "_$")
  end.
Definition looks_like_member_path (token : str) : bool :=
  let parts := split_where (N.eqb (chr ".")) token in
  existsb (fun part => 2 <=? blen part) parts && forallb starts_member parts.

Definition looks_like_mixed_case_identifier (token : str) : bool :=
  let lower_to_upper :=
    existsb (fun '(before, after) => is_ascii_lowercase before && is_ascii_uppercase after) (zip token (drop 1 token)) in
  let leading_uppercase := length (take_while is_ascii_uppercase token) in
  lower_to_upper
  || ((2 <=? leading_uppercase)
      && (2 <=? length (filter (fun c => is_ascii_lowercase c = true) (drop leading_uppercase token)))).

Definition FILE_EXTENSIONS : list str := map lit
  ["c"; "cc"; "cpp"; "cs"; "css"; "dart"; "ex"; "exs"; "go"; "h"; "hpp"; "html"; "java"; "js"; "json"; "jsx";
   "kt"; "kts"; "lua"; "md"; "php"; "proto"; "py"; "rb"; "rs"; "scala"; "sh"; "sql"; "swift"; "toml"; "ts";
   "tsx"; "xml"; "yaml"; "yml"; "zig"]%string.
Definition looks_like_file_name (token : str) : bool :=
  match rsplit_once (chr ".") token with
  | None => false
  | Some (_, extension) => bool_decide (ascii_lower extension ∈ FILE_EXTENSIONS)
  end.

Definition GENERIC_SYMBOLS : list str := map lit
  ["main"; "new"; "default"; "test"; "tests"; "config"; "result"; "error"; "name"; "value"; "item"; "items";
   "query"; "options"; "context"; "token"; "token_mut"; "run"]%string.
Definition is_generic_symbol (symbol : str) : bool :=
  let is_type_name :=
    match symbol with
    | [] => false
    | first :: rest =>
      is_ascii_uppercase first && existsb is_ascii_lowercase rest && forallb is_ascii_alphanumeric rest
    end in
  if is_type_name then false else bool_decide (ascii_lower symbol ∈ GENERIC_SYMBOLS).

Definition symbol_separator (c : char) : bool :=
  negb (is_ascii_alphanumeric c) && negb (bool_decide (c ∈ lit "_$:.#")).
Definition is_task_symbol (part : str) : bool :=
  (3 <=? blen part) && negb (looks_like_path_location part)
  && (contains (lit "_") part || contains (lit "::") part || contains (lit "#") part
      || (contains (lit ".") part && negb (looks_like_file_name part) && looks_like_member_path part)
      || looks_like_mixed_case_identifier part)
  && negb (is_generic_symbol part).
Definition task_symbols (task : str) : list str :=
  first_seen ascii_lower []
    (filter (fun part => is_task_symbol part = true)
       (map (trim_matches (fun c => bool_decide (c ∈ lit ":.$#"))) (split_where symbol_separator task))).

Definition TASK_STOP_WORDS : list str := map lit
  ["the"; "and"; "for"; "with"; "from"; "into"; "where"; "what"; "how"; "fix"; "add"; "change"; "update"; "make";
   "create"; "ensure"; "implement"; "improve"; "refactor"; "remove"; "support"; "task"; "behavior"]%string.
Definition term_separator (c : char) : bool := negb (is_ascii_alphanumeric c) && negb (c =? chr "_")%N.
(** [None] is a slice off a character boundary in [split_identifier_segments]. *)
Definition significant_task_terms (task : str) : option (list str) :=
  let terms := filter (fun term => (3 <=? blen term) && negb (bool_decide (term ∈ TASK_STOP_WORDS)) = true)
                 (map ascii_lower (split_where term_separator task)) in
  segments ← mapM Code.split_identifier_segments terms;
  Some (first_seen id [] (filter (fun term => (3 <=? blen term) = true) (concat segments))).

(** ** Truncation *)

(** Trims a preview and counts the lines removed before it. *)
Definition newlines (s : str) : nat := length (filter (fun c => c = 10%N) s).
Definition trim_leading_lines (text : str) : str * nat :=
  let trimmed := trim_start text in
  (trim_end trimmed, newlines (take (length text - length trimmed) text)).

Definition line_score (explicit_symbols terms : list str) (line : str) : nat :=
  let lower := ascii_lower line in
  (if existsb (fun symbol => contains symbol lower) explicit_symbols then 100 else 0)
  + sum_list (map blen (filter (fun term => contains term lower = true) terms)).

(** [max_by_key] over [(score, Reverse(index))]: the last of the greatest. *)
Fixpoint max_line (score : str -> nat) (lines : list str) (index : nat) (best : option (nat * nat)) : option nat :=
  match lines with
  | [] => snd <$> best
  | line :: lines =>
    let s := score line in
    let best :=
      match best with
      | None => (s, index)
      | Some (b, i) => if (b <? s) || ((b =? s) && (index <=? i)) then (s, index) else (b, i)
      end in
    max_line score lines (S index) (Some best)
  end.

(** [lines[a..b].join] with line breaks. *)
Definition window (lines : list str) (a b : nat) : str := join [10%N] (take (b - a) (drop a lines)).
Definition fits (budget : nat) (text : str) : bool := estimate_tokens text <=? budget.

(** One round of the loop: the line after the window, then the line before it. *)
Definition grow_finish (lines : list str) (budget start finish : nat) : nat :=
  if (finish <? length lines) && fits budget (window lines start (finish + 1)) then finish + 1 else finish.
Definition grow_start (lines : list str) (budget start finish : nat) : nat :=
  if (0 <? start) && fits budget (window lines (start - 1) finish) then start - 1 else start.

(** Fuel is the number of lines plus one. *)
Fixpoint grow (fuel : nat) (lines : list str) (budget start finish : nat) : option (nat * nat) :=
  match fuel with
  | O => None
  | S fuel =>
    let finish' := grow_finish lines budget start finish in
    let start' := grow_start lines budget start finish' in
    if (finish' =? finish) && (start' =? start) then Some (start, finish)
    else grow fuel lines budget start' finish'
  end.

(** The longest prefix found by adding one character at a time. *)
Fixpoint cut_line (budget : nat) (output rest : str) : str :=
  match rest with
  | [] => output
  | c :: rest => if fits budget (output ++ [c]) then cut_line budget (output ++ [c]) rest else output
  end.

(** The preview, whether it was cut, and the lines left out before it. *)
Definition truncate_to_token_budget (text : str) (budget : nat) (task : str) : option (str * bool * nat) :=
  if decide (trim text = []) then Some ([], false, 0)
  else if fits budget text then
    let '(preview, removed_lines) := trim_leading_lines text in Some (preview, false, removed_lines)
  else
    let lines := str_lines text in
    terms ← significant_task_terms task;
    let explicit_symbols := map ascii_lower (task_symbols task) in
    let focus := unwrap_or (length lines / 2) (max_line (line_score explicit_symbols terms) lines 0 None) in
    line ← lines !! focus;
    if negb (fits budget line) then Some (trim (cut_line budget [] line), true, focus)
    else
      '(start, finish) ← grow (S (length lines)) lines budget focus (Nat.min (focus + 1) (length lines));
      let '(preview, removed_lines) := trim_leading_lines (window lines start finish) in
      Some (preview, true, start + removed_lines).

(** * A truncated preview fits its budget and shows the lines it is said to show. *)

(** ** Lines of parts of a text *)

Definition line_in (l : str) (ls : list str) (i : nat) : Prop := exists l', ls !! i = Some l' /\ infix l l'.

Lemma infix_nil {A} (s : list A) : infix [] s.
Proof. by exists [], s. Qed.
Lemma infix_app_both {A} (p s t u : list A) : infix p s -> infix p (t ++ s ++ u).
Proof. intros H. by apply infix_app_r, infix_app_l. Qed.

Lemma strip_cr_snoc w c : strip_cr (w ++ [c]) = if (c =? 13)%N then w else w ++ [c].
Proof.
  unfold strip_cr, strip_suffix. rewrite reverse_snoc. change (reverse [13%N]) with [13%N]. cbn [strip_prefix].
  rewrite N.eqb_sym. destruct (N.eqb_spec c 13) as [->|]; cbn [fmap option_fmap option_map unwrap_or]; [|done].
  apply reverse_involutive.
Qed.
Lemma strip_cr_nil : strip_cr [] = [].
Proof. done. Qed.
Lemma strip_cr_app u w : infix (strip_cr w) (strip_cr (u ++ w)).
Proof.
  destruct w as [|c w _] using rev_ind; [apply infix_nil|].
  rewrite app_assoc, !strip_cr_snoc. case_match; [apply infix_app_r, infix_refl|].
  rewrite <- app_assoc. apply infix_app_r, infix_refl.
Qed.

Lemma lines_loop_more v : forall u w i l,
  lines_loop v w !! i = Some l -> line_in l (lines_loop v (u ++ w)) i.
Proof.
  induction v as [|c v IH]; intros u w i l; cbn [lines_loop].
  - case_decide; [done|]. destruct i as [|i]; [|done]. intros [= <-].
    rewrite decide_False by (destruct u; [done|discriminate]). exists (u ++ w). split; [done|]. apply infix_app_r, infix_refl.
  - destruct (c =? 10)%N.
    + destruct i as [|i]; cbn.
      * intros [= <-]. exists (strip_cr (u ++ w)). split; [done|]. apply strip_cr_app.
      * intros H. exists l. split; [done|]. apply infix_refl.
    + rewrite <- app_assoc. apply IH.
Qed.

(** Dropping a beginning with [newlines] line breaks. *)
Lemma lines_suffix u : forall v w i l,
  str_lines v !! i = Some l -> line_in l (lines_loop (u ++ v) w) (newlines u + i).
Proof.
  induction u as [|c u IH]; intros v w i l H.
  - cbn [app]. rewrite <- (app_nil_r w). by apply lines_loop_more.
  - cbn [app lines_loop]. unfold newlines. rewrite filter_cons. destruct (N.eqb_spec c 10) as [->|Hc].
    + rewrite decide_True by done. cbn [length]. destruct (IH v [] i l H) as (l' & Hl & Hin). by exists l'.
    + rewrite decide_False by done. by apply IH.
Qed.

(** Dropping an end; what remains does not end in half a line break. *)
Lemma lines_prefix v t : last v <> Some 13%N -> forall w i l,
  (v = [] -> last w <> Some 13%N) ->
  lines_loop v w !! i = Some l -> line_in l (lines_loop (v ++ t) w) i.
Proof.
  induction v as [|c v IH]; intros Hlast w i l Hw.
  - cbn [lines_loop app]. case_decide as E; [done|]. destruct i as [|i]; [|done]. intros [= <-].
    specialize (Hw eq_refl). clear Hlast.
    assert (forall t x, exists l', lines_loop t (w ++ x) !! 0 = Some l' /\ infix w l') as H.
    { clear t. induction t as [|d t IHt]; intros x; cbn [lines_loop].
      - rewrite decide_False by (destruct w; [done|discriminate]). exists (w ++ x). split; [done|]. apply infix_app_l, infix_refl.
      - case_match.
        + exists (strip_cr (w ++ x)). split; [done|]. destruct x as [|e x _] using rev_ind.
          * rewrite app_nil_r. destruct w as [|e w _] using rev_ind; [done|].
            rewrite strip_cr_snoc. rewrite last_snoc in Hw. rewrite (proj2 (N.eqb_neq e 13)) by congruence. apply infix_refl.
          * rewrite app_assoc, strip_cr_snoc. case_match; [|rewrite <- app_assoc]; apply infix_app_l, infix_refl.
        + rewrite <- app_assoc. apply IHt. }
    specialize (H t []). by rewrite app_nil_r in H.
  - cbn [lines_loop app]. assert (v <> [] -> last v <> Some 13%N) as Hv.
    { destruct v; [done|]. by intros _. }
    case_match eqn:E.
    + destruct i as [|i]; cbn; [intros [= <-]; eexists; split; [done|apply infix_refl]|].
      intros H. destruct v as [|d v]; [done|]. apply (IH (Hv ltac:(done)) [] i l); done.
    + intros H. destruct v as [|d v].
      * apply (IH ltac:(done) (w ++ [c]) i l); [|done]. intros _. rewrite last_snoc. cbn in Hlast. congruence.
      * apply (IH (Hv ltac:(done)) (w ++ [c]) i l); done.
Qed.

Lemma line_in_trans l ls ls' i j :
  line_in l ls i -> (forall m, ls !! i = Some m -> line_in m ls' j) -> line_in l ls' j.
Proof.
  intros (m & Hm & Hl) H. destruct (H m Hm) as (m' & Hm' & Hin). exists m'. split; [done|]. by eapply infix_trans.
Qed.

(** *** Trimmed texts *)

Lemma trim_start_taken s : s = take (length s - length (trim_start s)) s ++ trim_start s.
Proof.
  unfold trim_start. pose proof (drop_while_split is_whitespace s) as E.
  set (a := take_while _ s) in *. set (b := drop_while _ s) in *. clearbody a b. subst s.
  rewrite length_app. replace (length a + length b - length b) with (length a) by lia. by rewrite take_app_length.
Qed.
Lemma trim_end_split s : exists t, s = trim_end s ++ t.
Proof.
  exists (reverse (take_while is_whitespace (reverse s))). unfold trim_end.
  rewrite <- reverse_app, <- drop_while_split. by rewrite reverse_involutive.
Qed.
Lemma drop_while_head {A} (f : A -> bool) l x : head (drop_while f l) = Some x -> f x = false.
Proof. induction l as [|y l IH]; [done|]. cbn [drop_while]. case_match; [done|]. cbn. by intros [= <-]. Qed.
Lemma trim_end_last s c : last (trim_end s) = Some c -> is_whitespace c = false.
Proof.
  unfold trim_end. rewrite <- (reverse_involutive (reverse _)), last_reverse, reverse_involutive.
  apply drop_while_head.
Qed.
Lemma trim_infix s : infix (trim_end (trim_start s)) s.
Proof.
  destruct (trim_end_split (trim_start s)) as (t & Ht).
  exists (take (length s - length (trim_start s)) s), t. rewrite <- Ht. apply trim_start_taken.
Qed.
Lemma trim_end_lines s i l : str_lines (trim_end s) !! i = Some l -> line_in l (str_lines s) i.
Proof.
  destruct (trim_end_split s) as (t & Ht). intros H. rewrite Ht. apply lines_prefix; [|done|done].
  intros Hl. by apply trim_end_last in Hl.
Qed.

(** The lines of a trimmed text, counted from the first that is left. *)
Lemma trim_leading_lines_spec text preview removed :
  trim_leading_lines text = (preview, removed) ->
  preview = trim text /\ forall i l, str_lines preview !! i = Some l -> line_in l (str_lines text) (removed + i).
Proof.
  unfold trim_leading_lines. intros [= <- <-]. split; [done|]. intros i l H.
  eapply line_in_trans; [by apply trim_end_lines|]. intros m Hm.
  pose proof (lines_suffix (take (length text - length (trim_start text)) text) _ [] _ _ Hm) as Hs.
  by rewrite <- trim_start_taken in Hs.
Qed.

(** *** Windows of lines *)

Definition no_break (ls : list str) : Prop := Forall (fun l => 10%N ∉ l) ls.

Lemma infix_not_elem {A} (x : A) p s : infix p s -> x ∉ s -> x ∉ p.
Proof. intros (a & b & ->). rewrite !not_elem_of_app. tauto. Qed.

Lemma lines_no_break s : forall w, 10%N ∉ w -> no_break (lines_loop s w).
Proof.
  induction s as [|c s IH]; intros w Hw; cbn [lines_loop].
  - case_decide; by repeat constructor.
  - destruct (N.eqb_spec c 10).
    + constructor; [|apply IH; apply not_elem_of_nil]. eapply infix_not_elem; [apply strip_cr_infix|done].
    + apply IH. rewrite not_elem_of_app, list_elem_of_singleton. split; [done|congruence].
Qed.

Lemma joined_lines ls : no_break ls -> forall i l,
  str_lines (join [10%N] ls) !! i = Some l -> line_in l ls i.
Proof.
  induction 1 as [|x ls Hx Hls IH]; intros i l; [done|].
  destruct ls as [|y ls].
  - cbn [join]. unfold str_lines. rewrite <- (app_nil_r x) at 1. rewrite lines_loop_plain by done.
    cbn [app lines_loop]. case_decide; [done|]. destruct i; [|done]. intros [= <-]. exists x. split; [done|]. apply infix_refl.
  - change (join [10%N] (x :: y :: ls)) with (x ++ 10%N :: join [10%N] (y :: ls)).
    unfold str_lines. rewrite lines_loop_plain by done. cbn [app lines_loop]. rewrite N.eqb_refl.
    destruct i as [|i]; cbn [lookup list_lookup].
    + intros [= <-]. exists x. split; [done|]. apply strip_cr_infix.
    + intros H. apply (IH i l H).
Qed.

Lemma window_lines ls a b i l : no_break ls ->
  str_lines (window ls a b) !! i = Some l -> line_in l ls (a + i).
Proof.
  intros Hls H. apply joined_lines in H as (l' & Hl & Hin).
  - exists l'. split; [|done]. rewrite lookup_take in Hl. case_decide; [|done]. by rewrite lookup_drop in Hl.
  - unfold no_break. by apply Forall_take, Forall_drop.
Qed.

(** ** The window grown around a line *)

Lemma max_line_bound score ls : forall n best,
  (forall b i, best = Some (b, i) -> i < n) -> (best = None -> ls <> []) ->
  exists i, max_line score ls n best = Some i /\ i < n + length ls.
Proof.
  induction ls as [|l ls IH]; intros n best Hb Hne; cbn [max_line length].
  - destruct best as [[b i]|]; [|by destruct Hne]. exists i. split; [done|]. rewrite Nat.add_0_r. by eapply Hb.
  - destruct (IH (S n)
      (Some (match best with
             | None => (score l, n)
             | Some (b, i) => if (b <? score l) || ((b =? score l) && (n <=? i)) then (score l, n) else (b, i)
             end))) as (i & Hi & Hlt); [|done|exists i; split; [done|lia]].
    intros b i. destruct best as [[b' i']|]; [|intros [= _ <-]; lia]. specialize (Hb b' i' eq_refl).
    destruct ((b' <? score l) || _); intros [= _ <-]; lia.
Qed.

Section Grow.
Context (ls : list str) (budget : nat).

(** The window fits, holds the line, and neither neighbour can be added. *)
Definition in_window (focus start finish : nat) : Prop :=
  start <= focus < finish /\ finish <= length ls /\ fits budget (window ls start finish) = true.
Definition maximal (start finish : nat) : Prop :=
  (finish < length ls -> fits budget (window ls start (finish + 1)) = false) /\
  (0 < start -> fits budget (window ls (start - 1) finish) = false).

Lemma grow_finish_spec start finish :
  finish <= length ls -> fits budget (window ls start finish) = true ->
  let finish' := grow_finish ls budget start finish in
  fits budget (window ls start finish') = true /\ finish <= finish' <= length ls /\
  (finish' = finish -> finish < length ls -> fits budget (window ls start (finish + 1)) = false).
Proof.
  intros Hle Hfit. unfold grow_finish. destruct (Nat.ltb_spec finish (length ls)) as [H|H]; cbn [andb].
  - destruct (fits budget (window ls start (finish + 1))) eqn:E; (split_and!; [done|lia..|]); [lia|done].
  - split_and!; [done|lia..].
Qed.
Lemma grow_start_spec start finish :
  fits budget (window ls start finish) = true ->
  let start' := grow_start ls budget start finish in
  fits budget (window ls start' finish) = true /\ start' <= start /\
  (start' = start -> 0 < start -> fits budget (window ls (start - 1) finish) = false).
Proof.
  intros Hfit. unfold grow_start. destruct (Nat.ltb_spec 0 start) as [H|H]; cbn [andb].
  - destruct (fits budget (window ls (start - 1) finish)) eqn:E; (split_and!; [done|lia..|]); [lia|done].
  - split_and!; [done|lia..].
Qed.

Lemma grow_spec focus fuel : forall start finish,
  in_window focus start finish -> length ls + start - finish < fuel ->
  exists s f, grow fuel ls budget start finish = Some (s, f) /\ in_window focus s f /\ maximal s f.
Proof.
  induction fuel as [|fuel IH]; intros start finish (Hin & Hlen & Hfit) Hfuel; [lia|]. cbn [grow].
  destruct (grow_finish_spec start finish Hlen Hfit) as (Hf & Hfle & Hfmax).
  set (finish' := grow_finish ls budget start finish) in *.
  destruct (grow_start_spec start finish' Hf) as (Hs & Hsle & Hsmax).
  set (start' := grow_start ls budget start finish') in *. clearbody start' finish'.
  destruct (Nat.eqb_spec finish' finish) as [->|]; [destruct (Nat.eqb_spec start' start) as [->|]|].
  - exists start, finish. split; [done|]. split; [done|]. split; auto.
  - apply IH; [|cbn [andb]; lia]. repeat split; try done; lia.
  - apply IH; [|cbn [andb]; lia]. repeat split; try done; lia.
Qed.
End Grow.

(** ** The cut line *)

Lemma fits_infix budget p s : infix p s -> fits budget s = true -> fits budget p = true.
Proof. unfold fits. rewrite !Nat.leb_le. intros H. pose proof (estimate_infix _ _ H). lia. Qed.
Lemma cut_line_spec budget rest : forall output,
  fits budget output = true ->
  fits budget (cut_line budget output rest) = true /\ exists t, output ++ rest = cut_line budget output rest ++ t.
Proof.
  induction rest as [|c rest IH]; intros output Ho; cbn [cut_line]; [split; [done|by exists []]|].
  destruct (fits budget (output ++ [c])) eqn:E; [|split; [done|by exists (c :: rest)]].
  destruct (IH _ E) as (H & t & Ht). split; [done|]. exists t. by rewrite <- Ht, <- app_assoc.
Qed.

Lemma significant_task_terms_total task : is_Some (significant_task_terms task).
Proof.
  unfold significant_task_terms. set (terms := filter _ _).
  assert (is_Some (mapM Code.split_identifier_segments terms)) as [ss ->]; [|by eexists].
  apply mapM_is_Some. apply Forall_forall. intros x _.
  destruct (split_identifier_segments_lossless x) as (ws & H & _). by eexists.
Qed.

Lemma str_lines_nonempty s : trim s <> [] -> str_lines s <> [].
Proof.
  intros H E. apply H. assert (forall s w, lines_loop s w = [] -> s = [] /\ w = []) as Hl.
  { clear. induction s as [|c s IH]; intros w; cbn [lines_loop]; [by case_decide|].
    destruct (c =? 10)%N; [done|]. intros Hs. apply IH in Hs as [_ Hw]. by destruct w. }
  apply Hl in E as [-> _]. done.
Qed.

(** ** Truncated previews *)

(** The lines of a preview are parts of the lines of its text from [offset] on. *)
Definition shows_lines (preview text : str) (offset : nat) : Prop :=
  forall i l, str_lines preview !! i = Some l -> line_in l (str_lines text) (offset + i).

Definition preview_ok (text : str) (budget : nat) (preview : str) (truncated : bool) (offset : nat) : Prop :=
  estimate_tokens preview <= budget /\ shows_lines preview text offset /\ (truncated = false -> preview = trim text).

Lemma single_line_shown line text focus p :
  str_lines text !! focus = Some line -> infix p line -> shows_lines p text focus.
Proof.
  intros Hl Hp i l H. assert (10%N ∉ line) as Hnb.
  { pose proof (lines_no_break text [] ltac:(apply not_elem_of_nil)) as Hall. unfold no_break in Hall.
    rewrite Forall_lookup in Hall. by eapply Hall. }
  assert (10%N ∉ p) as Hnp by by eapply infix_not_elem.
  unfold str_lines in H. rewrite <- (app_nil_r p), lines_loop_plain in H by done. cbn [app lines_loop] in H.
  case_decide; [done|]. destruct i; [|done]. injection H as <-. exists line. by rewrite Nat.add_0_r.
Qed.

Lemma truncate_spec text budget task :
  exists preview truncated offset,
    truncate_to_token_budget text budget task = Some (preview, truncated, offset) /\
    preview_ok text budget preview truncated offset.
Proof.
  unfold truncate_to_token_budget. case_decide as Hblank.
  { exists [], false, 0. split; [done|]. repeat split; [cbn; lia|by intros [|i] l|by intros _]. }
  destruct (fits budget text) eqn:Hfit.
  - destruct (trim_leading_lines text) as [p r] eqn:E. apply trim_leading_lines_spec in E as [-> Hl].
    exists (trim text), false, r. split; [done|]. repeat split; [|exact Hl].
    unfold fits in Hfit. bool_to_prop. pose proof (estimate_infix _ _ (trim_infix text)). unfold trim. lia.
  - destruct (significant_task_terms_total task) as [terms ->]. cbn [mbind option_bind].
    set (score := line_score _ _). pose proof (str_lines_nonempty _ Hblank) as Hne.
    destruct (max_line_bound score (str_lines text) 0 None) as (focus & -> & Hlt); [done|done|]. cbn [unwrap_or].
    destruct (lookup_lt_is_Some_2 (str_lines text) focus) as [line Hline]; [lia|]. rewrite Hline. cbn [mbind option_bind].
    destruct (fits budget line) eqn:Hfl; cbn [negb].
    + rewrite Nat.min_l by lia.
      destruct (grow_spec (str_lines text) budget focus (S (length (str_lines text))) focus (focus + 1)) as (s & f & -> & Hw & _).
      { repeat split; try lia. unfold window. replace (focus + 1 - focus) with 1 by lia.
        rewrite (drop_S _ _ _ Hline). done. }
      { lia. }
      cbn [mbind option_bind]. destruct (trim_leading_lines (window (str_lines text) s f)) as [p r] eqn:E.
      apply trim_leading_lines_spec in E as [-> Hl]. eexists _, true, _. split; [done|]. split_and!; [| |done].
      * destruct Hw as (_ & _ & Hw). pose proof (fits_infix _ _ _ (trim_infix (window (str_lines text) s f)) Hw) as Hp.
        unfold fits in Hp. by bool_to_prop.
      * intros i l Hi. rewrite <- Nat.add_assoc. eapply line_in_trans; [by apply Hl|]. intros m Hm.
        eapply window_lines; [apply lines_no_break, not_elem_of_nil|done].
    + assert (fits budget [] = true) as H0 by done.
      destruct (cut_line_spec budget line [] H0) as (Hc & t & Ht). eexists _, true, focus. split; [done|].
      split_and!; [| |done].
      * pose proof (fits_infix _ _ _ (trim_infix _) Hc) as Hp. unfold fits in Hp. by bool_to_prop.
      * eapply single_line_shown; [done|]. eapply infix_trans; [apply trim_infix|]. cbn [app] in Ht.
        rewrite Ht at 2. apply infix_app_l, infix_refl.
Qed.

(** A preview is always produced and never exceeds its budget; its lines are parts
    of the lines of the text from the reported offset on, and a preview that is not
    marked truncated is the whole trimmed text. *)
Theorem truncated_preview_fits text budget task :
  exists preview truncated offset,
    truncate_to_token_budget text budget task = Some (preview, truncated, offset) /\
    estimate_tokens preview <= budget /\ shows_lines preview text offset /\
    (truncated = false -> preview = trim text).
Proof. apply truncate_spec. Qed.
