(* ===== verification/ContextChanges.v ===== *)
(** * Changes, their scope and paths named in a task (context_input.rs), shared by what
    collects them and what renders them. *)
From S2P Require Import Prelude Utf8 Paths.

(** In the order of the derived [Ord]. *)
Inductive ContextChangeSource := Since | Staged | Worktree | Untracked.
#[export] Instance context_change_source_eq_dec : EqDecision ContextChangeSource.
Proof. solve_decision. Defined.
Definition source_label (source : ContextChangeSource) : str :=
  lit match source with
      | Since => "since" | Staged => "staged" | Worktree => "worktree" | Untracked => "untracked"
      end.

Inductive ContextChangeStatus := Added | Modified | Deleted | Renamed | Copied | TypeChanged | Unmerged | Unknown.
#[export] Instance context_change_status_eq_dec : EqDecision ContextChangeStatus.
Proof. solve_decision. Defined.
Definition status_label (status : ContextChangeStatus) : str :=
  lit match status with
      | Added => "added" | Modified => "modified" | Deleted => "deleted" | Renamed => "renamed"
      | Copied => "copied" | TypeChanged => "type changed" | Unmerged => "unmerged" | Unknown => "changed"
      end.

Record ContextChange := MkChange {
  change_path : path;
  old_path : option path;
  status : ContextChangeStatus;
  change_sources : list ContextChangeSource
}.
Record ContextChangeScope := MkScope {
  since : option str;
  base_commit : option str;
  dirty_worktree : bool;
  total_changes : nat;
  changes_truncated : bool;
  changes : list ContextChange
}.
Record ContextInputPath := MkInputPath { input_path : path; input_line : option Z }.
