(* ===== verification/ContextRender.v ===== *)
(** * Context bundles and their Markdown (context.rs, context_input.rs). *)
From S2P Require Import Prelude Utf8 BTree Decimal Paths ContextChanges.

(** ** Data *)

Inductive ContextRole :=
| Primary | Definition_ | Dependency | Dependent | Caller | Reference | Test_ | Config | Documentation | Related.
#[export] Instance context_role_eq_dec : EqDecision ContextRole.
Proof. solve_decision. Defined.
Definition label (role : ContextRole) : str :=
  lit match role with
      | Primary => "primary" | Definition_ => "definition" | Dependency => "dependency"
      | Dependent => "dependent" | Caller => "caller" | Reference => "reference" | Test_ => "test"
      | Config => "config" | Documentation => "documentation" | Related => "related"
      end.

Record ContextCoverage := MkCoverage {
  files : nat; primary : nat; definitions : nat; dependencies : nat; dependents : nat;
  callers : nat; references : nat; tests : nat; config : nat; documentation : nat
}.
Definition coverage_default : ContextCoverage := MkCoverage 0 0 0 0 0 0 0 0 0 0.

Record ContextItem := MkItem {
  item_path : path;
  item_start : nat;
  item_end : nat;
  item_roles : list ContextRole;
  item_reasons : list str;
  item_sources : list str;
  item_preview : str;
  item_tokens : nat
}.

Record ContextBundle := MkBundle {
  task : str;
  workspace : path;
  change_scope : option ContextChangeScope;
  referenced_paths : list ContextInputPath;
  budget_tokens : nat;
  used_tokens : nat;
  candidate_count : nat;
  truncated : bool;
  anchor_symbols : list str;
  coverage : ContextCoverage;
  items : list ContextItem
}.

(** ** Rendering *)

Definition show (n : nat) : str := format_nat (Z.of_nat n).
(** The characters of [index_path_string], and of [Path::display]. *)
Definition index_text (p : path) : str := lossy_chars (index_path_string p).
Definition display (p : path) : str := lossy_chars p.
Definition clamp (x low high : nat) : nat := Nat.max low (Nat.min x high).

Definition FENCES : list (string * string) :=
  [("rs", "rust"); ("py", "python"); ("js", "javascript"); ("jsx", "javascript"); ("ts", "typescript");
   ("tsx", "typescript"); ("go", "go"); ("java", "java"); ("rb", "ruby"); ("sh", "bash"); ("bash", "bash");
   ("md", "markdown"); ("json", "json"); ("toml", "toml"); ("yaml", "yaml"); ("yml", "yaml")]%string.
Definition language_fence (p : path) : str :=
  lit (unwrap_or "text"%string
    (e ← extension p; e ← to_str e; snd <$> find (fun f => bool_decide (lit (fst f) = e)) FENCES)).

Definition BACKTICK : char := 96%N.
(** The longest run of backticks, in bytes. *)
Definition longest_backtick_run (preview : str) : nat :=
  max_list (map blen (split_where (fun c => negb (c =? BACKTICK)%N) preview)).
Definition fence_of (preview : str) : str := replicate (Nat.max (longest_backtick_run preview + 1) 3) BACKTICK.

Definition NL : str := [10%N].
Definition NL2 : str := [10%N; 10%N].

Definition render_markdown_item (index : nat) (item : ContextItem) : str :=
  let fence := fence_of (item_preview item) in
  NL ++ lit "### " ++ show index ++ lit ". " ++ index_text (item_path item) ++ lit ":" ++ show (item_start item)
  ++ lit "-" ++ show (item_end item) ++ lit " [" ++ join (lit ", ") (map label (item_roles item)) ++ lit "]" ++ NL2
  ++ (match item_reasons item with
      | [] => [] | reasons => lit "Why: " ++ join (lit "; ") reasons ++ lit "." ++ NL2 end)
  ++ (match item_sources item with
      | [] => [] | sources => lit "Signals: " ++ join (lit ", ") sources ++ lit "." ++ NL2 end)
  ++ fence ++ language_fence (item_path item) ++ NL ++ item_preview item ++ NL ++ fence ++ NL.

Definition plural (n : nat) : str := if n =? 1 then [] else lit "s".
Definition render_change (change : ContextChange) : str :=
  lit "- " ++ status_label (status change) ++ lit ": " ++ index_text (change_path change)
  ++ (match old_path change with Some old => lit " from " ++ index_text old | None => [] end)
  ++ lit " (" ++ join (lit ", ") (map source_label (change_sources change)) ++ lit ")" ++ NL.
Definition change_limit (budget_tokens : nat) : nat := clamp (budget_tokens / 256) 1 12.
Definition render_scope (budget_tokens : nat) (scope : ContextChangeScope) : str :=
  let limit := change_limit budget_tokens in
  lit "Changes: " ++ show (total_changes scope) ++ lit " file" ++ plural (total_changes scope) ++ lit " from "
  ++ (match since scope with Some reference => reference ++ lit "...HEAD" | None => lit "HEAD" end)
  ++ (if dirty_worktree scope then lit " plus dirty worktree" else [])
  ++ (if changes_truncated scope then lit " (list truncated)" else []) ++ NL
  ++ concat (map render_change (take limit (changes scope)))
  ++ (if limit <? total_changes scope then lit "- ... " ++ show (total_changes scope - limit) ++ lit " more" ++ NL else [])
  ++ NL.
Definition render_reference (reference : ContextInputPath) : str :=
  match input_line reference with
  | None => index_text (input_path reference)
  | Some line => index_text (input_path reference) ++ lit ":" ++ format_nat line
  end.
Definition render_coverage (c : ContextCoverage) : str :=
  lit "Coverage: " ++ show (files c) ++ lit " files | " ++ show (primary c) ++ lit " primary | "
  ++ show (definitions c) ++ lit " definitions | " ++ show (dependencies c) ++ lit " dependencies | "
  ++ show (dependents c) ++ lit " dependents | " ++ show (callers c) ++ lit " callers | "
  ++ show (references c) ++ lit " references | " ++ show (tests c) ++ lit " tests | "
  ++ show (config c) ++ lit " config | " ++ show (documentation c) ++ lit " docs" ++ NL.

(** What is written before and after the number of tokens used. *)
Definition render_before (bundle : ContextBundle) : str :=
  lit "# ivygrep context" ++ NL2 ++ lit "Task: " ++ task bundle ++ NL2
  ++ lit "Workspace: " ++ display (workspace bundle) ++ NL2
  ++ (match change_scope bundle with Some scope => render_scope (budget_tokens bundle) scope | None => [] end)
  ++ (match referenced_paths bundle with
      | [] => [] | paths => lit "Input paths: " ++ join (lit ", ") (map render_reference paths) ++ NL2 end)
  ++ lit "Budget: ".
Definition render_after (bundle : ContextBundle) : str :=
  lit " / " ++ show (budget_tokens bundle) ++ lit " estimated tokens"
  ++ (if truncated bundle then lit " (truncated)" else []) ++ NL
  ++ (match anchor_symbols bundle with
      | [] => [] | anchors => lit "Anchors: " ++ join (lit ", ") anchors ++ NL end)
  ++ render_coverage (coverage bundle)
  ++ lit "Candidates: " ++ show (candidate_count bundle) ++ lit " retrieved | " ++ show (length (items bundle))
  ++ lit " selected" ++ NL ++ NL ++ lit "## Evidence" ++ NL
  ++ concat (imap (fun index item => render_markdown_item (index + 1) item) (items bundle)).
Definition render_markdown (bundle : ContextBundle) : str :=
  render_before bundle ++ show (used_tokens bundle) ++ render_after bundle.

(** ** Fences *)

Lemma split_where_first (f : char -> bool) r b : Forall (fun c => f c = false) r ->
  exists w ws, split_where f (r ++ b) = w :: ws /\ length r <= length w.
Proof.
  induction 1 as [|c r Hc _ (w & ws & E & Hl)].
  - destruct (split_where f b) as [|w ws] eqn:E; [|exists w, ws; split; [done|cbn; lia]].
    destruct b as [|d b]; [done|]. cbn [split_where] in E. by destruct (f d), (split_where f b).
  - cbn [app split_where]. rewrite Hc, E. exists (c :: w), ws. split; [done|cbn; lia].
Qed.
Lemma split_where_run (f : char -> bool) r b : Forall (fun c => f c = false) r -> forall a,
  exists p, p ∈ split_where f (a ++ r ++ b) /\ length r <= length p.
Proof.
  intros Hr a. induction a as [|c a IH]; cbn [app].
  - destruct (split_where_first f r b Hr) as (w & ws & -> & Hl). exists w. split; [left|done].
  - destruct IH as (p & Hp & Hl). cbn [split_where]. destruct (f c); [exists p; split; [by right|done]|].
    destruct (split_where f (a ++ r ++ b)) as [|w ws]; [by apply elem_of_nil in Hp|].
    apply elem_of_cons in Hp as [->|Hp]; [exists (c :: w); split; [left|cbn; lia]|].
    exists p. split; [by right|done].
Qed.
Lemma length_le_blen s : length s <= blen s.
Proof. induction s as [|c s IH]; cbn; [done|]. pose proof (len_utf8_pos c). lia. Qed.
Lemma max_list_elem (n : nat) l : n ∈ l -> n <= max_list l.
Proof. induction 1 as [x l|x y l _ IH]; cbn in *; lia. Qed.

(** A fence is longer than every run of backticks in what it encloses. *)
Lemma fence_not_in_preview preview : ~ infix (fence_of preview) preview.
Proof.
  intros (a & b & H). destruct (split_where_run (fun c => negb (c =? BACKTICK)%N) (fence_of preview) b) with (a := a)
    as (p & Hp & Hl); [by apply Forall_replicate|]. rewrite <- H in Hp.
  assert (blen p <= longest_backtick_run preview) as Hb.
  { apply max_list_elem. by apply list_elem_of_fmap_2. }
  pose proof (length_le_blen p). unfold fence_of in Hl. rewrite length_replicate in Hl. lia.
Qed.
