(* ===== verification/ContextAssembly.v ===== *)
(** * Choosing context under a token budget (context.rs).

  Ranked candidates become the items of a bundle while the estimate of its Markdown
  stays within the budget.  A fused score is the bit pattern of an [f64].  Counters
  are bounded by lengths of data in memory, so saturating operations are exact; a
  [None] is an index out of bounds or a slice off a character boundary. *)
From S2P Require Import Prelude Utf8 BTree Paths ContextTokens ContextPreview ContextChanges ContextRender.

Definition MAX_ITEMS : nat := 20.
Definition TARGET_CONTEXT_ITEMS : nat := 14.

Record Candidate := MkCandidate {
  cand_path : path;
  cand_start : nat;
  cand_end : nat;
  cand_preview : str;
  cand_sources : list str;
  cand_roles : list ContextRole;
  cand_reasons : list str;
  fused_score : N
}.

(** What [f64::total_cmp] compares. *)
Definition score_key (bits : N) : Z :=
  if (bits <? 2 ^ 63)%N then Z.of_N bits else 2 ^ 63 - 1 - Z.of_N bits.

(** ** Overlap *)

Definition ranges_substantially_overlap (left_start left_end right_start right_end : nat) : bool :=
  let overlap_start := Nat.max left_start right_start in
  let overlap_end := Nat.min left_end right_end in
  if overlap_end <? overlap_start then false
  else
    let overlap := overlap_end - overlap_start + 1 in
    let shorter := Nat.min (left_end - left_start + 1) (right_end - right_start + 1) in
    shorter <=? overlap * 2.

(** [Path] equality compares components. *)
Definition same_path (a b : path) : bool := bool_decide (path_ord a = path_ord b).

Definition substantially_overlaps (item : ContextItem) (hit : Candidate) : bool :=
  same_path (item_path item) (cand_path hit)
  && ranges_substantially_overlap (item_start item) (item_end item) (cand_start hit) (cand_end hit).

(** ** The order of candidates *)

Definition candidate_cmp (a b : Candidate) : comparison :=
  match Z.compare (score_key (fused_score b)) (score_key (fused_score a)) with
  | Eq =>
    match path_cmp (cand_path a) (cand_path b) with
    | Eq => Nat.compare (cand_start a) (cand_start b)
    | c => c
    end
  | c => c
  end.
Definition candidate_leb (a b : Candidate) : bool := match candidate_cmp a b with Gt => false | _ => true end.

Definition CLAIMING_ROLES : list ContextRole :=
  [Primary; Definition_; Dependency; Dependent; Caller; Reference; Test_; Config; Documentation].

Definition claimable (role : ContextRole) (claimed : list nat) (ic : nat * Candidate) : bool :=
  negb (bool_decide (fst ic ∈ claimed)) && bool_decide (role ∈ cand_roles (snd ic)).
(** The first candidate of each role that no earlier role has claimed. *)
Definition claim (candidates : list Candidate) (claimed : list nat) (role : ContextRole) : list nat :=
  match find (claimable role claimed) (imap pair candidates) with
  | Some (index, _) => claimed ++ [index]
  | None => claimed
  end.
Definition claim_all (candidates : list Candidate) : list nat := foldl (claim candidates) [] CLAIMING_ROLES.

(** The claimed candidates in the order of the roles, then the others. *)
Definition order_candidates (candidates : list Candidate) : list Candidate :=
  let claimed := claim_all candidates in
  omap (fun index => candidates !! index) claimed
  ++ omap (fun ic : nat * Candidate => if bool_decide (fst ic ∈ claimed) then None else Some (snd ic))
       (imap pair candidates).

Definition required_roles (candidates : list Candidate) : list ContextRole :=
  filter (fun role => role <> Related) (concat (map cand_roles candidates)).
Definition context_roles_covered (chosen : list ContextItem) (required : list ContextRole) : bool :=
  forallb (fun role => existsb (fun item => bool_decide (role ∈ item_roles item)) chosen) required.

(** ** The selection *)

Record Selection := MkSelection {
  sel_items : list ContextItem;
  sel_used : nat;
  file_counts : gmap (list (list N)) nat;
  sel_truncated : bool
}.
Definition stop_truncated (st : Selection) : Selection := MkSelection (sel_items st) (sel_used st) (file_counts st) true.

Definition blank_item (c : Candidate) : ContextItem :=
  MkItem (cand_path c) (cand_start c) (cand_end c) (cand_roles c) (cand_reasons c) (cand_sources c) [] 0.
(** The item once its preview is known. *)
Definition with_preview (index : nat) (c : Candidate) (preview : str) (start_offset : nat) : ContextItem :=
  let start := cand_start c + start_offset in
  let finish := start + (length (str_lines preview) - 1) in
  let item := MkItem (cand_path c) start finish (cand_roles c) (cand_reasons c) (cand_sources c) preview 0 in
  MkItem (cand_path c) start finish (cand_roles c) (cand_reasons c) (cand_sources c) preview
    (estimate_tokens (render_markdown_item index item)).

Definition push_item (st : Selection) (item : ContextItem) (preview_truncated : bool) : Selection :=
  let key := path_ord (item_path item) in
  MkSelection (sel_items st ++ [item]) (sel_used st + item_tokens item)
    (<[key := default 0 (file_counts st !! key) + 1]> (file_counts st))
    (sel_truncated st || preview_truncated).

(** What one round of the loop does. *)
Inductive Round := Break (st : Selection) | Continue (st : Selection).

Definition PREVIEW_MIN : nat := 64.
Definition select_round (task : str) (budget : nat) (required : list ContextRole) (c : Candidate) (st : Selection)
  : option Round :=
  if (length (sel_items st) =? MAX_ITEMS) || (budget <=? sel_used st) then Some (Break (stop_truncated st))
  else if (TARGET_CONTEXT_ITEMS <=? length (sel_items st)) && context_roles_covered (sel_items st) required
  then Some (Break (stop_truncated st))
  else if (match file_counts st !! path_ord (cand_path c) with Some count => 3 <=? count | None => false end)
          || existsb (fun item => substantially_overlaps item c) (sel_items st)
  then Some (Continue st)
  else
    let item_number := length (sel_items st) + 1 in
    let wrapper_tokens := estimate_tokens (render_markdown_item item_number (blank_item c)) in
    let remaining := budget - (sel_used st + wrapper_tokens) in
    if remaining <? PREVIEW_MIN then Some (Break (stop_truncated st))
    else
      let per_item_budget := Nat.min (clamp (budget / 4) 96 400) remaining in
      '(preview, preview_truncated, start_offset) ← truncate_to_token_budget (cand_preview c) per_item_budget task;
      if preview_truncated && (estimate_tokens preview <? 32) then Some (Break (stop_truncated st))
      else
        let item := with_preview item_number c preview start_offset in
        if bool_decide (trim preview = []) || (budget - sel_used st <? item_tokens item) then Some (Continue st)
        else Some (Continue (push_item st item preview_truncated)).

Fixpoint select (task : str) (budget : nat) (required : list ContextRole) (ordered : list Candidate) (st : Selection)
  : option Selection :=
  match ordered with
  | [] => Some st
  | c :: ordered =>
    round ← select_round task budget required c st;
    match round with
    | Break st => Some st
    | Continue st => select task budget required ordered st
    end
  end.

(** ** Metrics *)

Definition role_count (role : ContextRole) (chosen : list ContextItem) : nat :=
  length (filter (fun r => r = role) (concat (map item_roles chosen))).
Definition coverage_of (chosen : list ContextItem) : ContextCoverage :=
  MkCoverage (length (first_seen (path_ord ∘ item_path) [] chosen))
    (role_count Primary chosen) (role_count Definition_ chosen) (role_count Dependency chosen)
    (role_count Dependent chosen) (role_count Caller chosen) (role_count Reference chosen)
    (role_count Test_ chosen) (role_count Config chosen) (role_count Documentation chosen).

Definition set_coverage (c : ContextCoverage) (b : ContextBundle) : ContextBundle :=
  MkBundle (task b) (workspace b) (change_scope b) (referenced_paths b) (budget_tokens b) (used_tokens b)
    (candidate_count b) (truncated b) (anchor_symbols b) c (items b).
Definition set_used (used : nat) (b : ContextBundle) : ContextBundle :=
  MkBundle (task b) (workspace b) (change_scope b) (referenced_paths b) (budget_tokens b) used
    (candidate_count b) (truncated b) (anchor_symbols b) (coverage b) (items b).
Definition pop_item (b : ContextBundle) : ContextBundle :=
  MkBundle (task b) (workspace b) (change_scope b) (referenced_paths b) (budget_tokens b) (used_tokens b)
    (candidate_count b) true (anchor_symbols b) (coverage b) (removelast (items b)).

(** The number of tokens is part of what is estimated: at most four rounds. *)
Fixpoint settle (rounds : nat) (b : ContextBundle) : ContextBundle :=
  match rounds with
  | O => b
  | S rounds =>
    let estimated := estimate_tokens (render_markdown b) in
    if estimated =? used_tokens b then b else settle rounds (set_used estimated b)
  end.
Definition finalize_bundle_metrics (b : ContextBundle) : ContextBundle :=
  settle 4 (set_coverage (coverage_of (items b)) b).

(** The loop that drops items; fuel is their number. *)
Fixpoint shrink (fuel : nat) (b : ContextBundle) : option ContextBundle :=
  if (budget_tokens b <? used_tokens b) && negb (length (items b) =? 0) then
    match fuel with
    | O => None
    | S fuel => shrink fuel (finalize_bundle_metrics (pop_item b))
    end
  else Some b.

(** ** The bundle *)

Definition header_bundle (task : str) (workspace : path) (budget_tokens : nat) (anchor_symbols : list str)
    (candidate_count : nat) (change_scope : option ContextChangeScope) (referenced_paths : list ContextInputPath)
  : ContextBundle :=
  MkBundle task workspace change_scope referenced_paths budget_tokens budget_tokens candidate_count true anchor_symbols
    (MkCoverage MAX_ITEMS MAX_ITEMS MAX_ITEMS MAX_ITEMS MAX_ITEMS MAX_ITEMS MAX_ITEMS MAX_ITEMS MAX_ITEMS MAX_ITEMS) [].
Definition estimated_header_tokens (task : str) (workspace : path) (budget_tokens : nat) (anchor_symbols : list str)
    (candidate_count : nat) (change_scope : option ContextChangeScope) (referenced_paths : list ContextInputPath)
  : nat :=
  estimate_tokens (render_markdown
    (header_bundle task workspace budget_tokens anchor_symbols candidate_count change_scope referenced_paths)) + 8.

Section Bundle.
(** [serde_json::to_string] of a change. *)
Context (to_json : ContextChange -> option str).

Fixpoint bound_changes (token_limit : nat) (l : list ContextChange) (used : nat) : list ContextChange :=
  match l with
  | [] => []
  | change :: l =>
    let tokens := match to_json change with Some s => estimate_tokens s | None => token_limit + 1 end in
    if tokens <=? token_limit - used then change :: bound_changes token_limit l (used + tokens)
    else bound_changes token_limit l used
  end.
Definition bound_change_scope (scope : ContextChangeScope) (budget_tokens : nat) : ContextChangeScope :=
  let token_limit := clamp (budget_tokens / 4) 32 1024 in
  let kept := bound_changes token_limit (take (change_limit budget_tokens) (changes scope)) 0 in
  MkScope (since scope) (base_commit scope) (dirty_worktree scope) (total_changes scope)
    (changes_truncated scope || (length kept <? total_changes scope) || (length kept <? length (changes scope))) kept.

Definition referenced_path_limit (budget_tokens : nat) : nat := clamp (budget_tokens / 64) 1 32.

Definition assemble_bundle (task : str) (workspace : path) (budget_tokens : nat) (anchor_symbols : list str)
    (change_scope : option ContextChangeScope) (referenced_paths : list ContextInputPath) (candidates : list Candidate)
  : option ContextBundle :=
  let change_scope := (fun scope => bound_change_scope scope budget_tokens) <$> change_scope in
  let limit := referenced_path_limit budget_tokens in
  let referenced_paths_truncated := limit <? length referenced_paths in
  let referenced_paths := take limit referenced_paths in
  let fixed_header_tokens := estimated_header_tokens [] workspace budget_tokens anchor_symbols (length candidates)
                               change_scope referenced_paths in
  let task_budget := Nat.min (budget_tokens - fixed_header_tokens) 1024 in
  '(output_task, task_truncated, _) ← truncate_to_token_budget task task_budget task;
  let candidates := sort_by candidate_leb candidates in
  let used := estimated_header_tokens output_task workspace budget_tokens anchor_symbols (length candidates)
                change_scope referenced_paths in
  st ← select task budget_tokens (required_roles candidates) (order_candidates candidates)
         (MkSelection [] used ∅ (task_truncated || referenced_paths_truncated));
  let bundle := MkBundle output_task workspace change_scope referenced_paths budget_tokens (sel_used st)
                  (length candidates) (sel_truncated st) anchor_symbols coverage_default (sel_items st) in
  shrink (length (sel_items st)) (finalize_bundle_metrics bundle).
End Bundle.
