(* ===== verification/ContextMetricsFacts.v ===== *)
(** * The token count a bundle reports is the estimate of its own Markdown. *)
From S2P Require Import Prelude Utf8 Decimal ContextTokens ContextPreview ContextChanges ContextRender ContextAssembly.

(** ** Digits *)

Lemma digits_loop_length fuel : forall x acc k, (0 <= x < 10 ^ Z.of_nat fuel)%Z -> 0 < k ->
  length (digits_loop fuel x acc) <= length acc + k <-> (x < 10 ^ Z.of_nat k)%Z.
Proof.
  induction fuel as [|fuel IH]; intros x acc k Hx Hk.
  - cbn in Hx. cbn [digits_loop]. assert (0 < 10 ^ Z.of_nat k)%Z by (apply Z.pow_pos_nonneg; lia). lia.
  - cbn [digits_loop]. destruct k as [|k]; [lia|]. rewrite Nat2Z.inj_succ, Z.pow_succ_r in * by lia.
    destruct (Z.ltb_spec x 10) as [H|H].
    + cbn [length]. assert (1 <= 10 ^ Z.of_nat k)%Z by (apply (Z.pow_le_mono_r 10 0); lia). lia.
    + assert (0 <= x / 10 < 10 ^ Z.of_nat fuel)%Z as Hd.
      { split; [apply Z.div_pos; lia|]. apply Z.div_lt_upper_bound; lia. }
      destruct k as [|k].
      * cbn [Z.of_nat Z.pow]. split; [|lia]. intros Hl.
        pose proof (IH (x / 10)%Z (digit (x mod 10) :: acc) 1 Hd ltac:(lia)) as H1. cbn [length] in *.
        assert (length (digit (x mod 10) :: acc) < length (digits_loop fuel (x / 10) (digit (x mod 10) :: acc))) as Hlt.
        { destruct fuel as [|fuel]; [cbn in Hd; lia|]. clear. generalize (x / 10)%Z (digit (x mod 10) :: acc).
          revert x. induction fuel as [|fuel IHf]; intros x y l; cbn [digits_loop]; case_match; cbn; try lia.
          etransitivity; [|apply (IHf x)]. cbn. lia. }
        cbn [length] in Hlt. lia.
      * pose proof (IH (x / 10)%Z (digit (x mod 10) :: acc) (S k) Hd ltac:(lia)) as H1. cbn [length] in H1.
        replace (S (length acc) + S k) with (length acc + S (S k)) in H1 by lia. rewrite H1.
        split; intros Hlt.
        -- pose proof (Z.div_mod x 10 ltac:(lia)). pose proof (Z.mod_pos_bound x 10 ltac:(lia)). lia.
        -- apply Z.div_lt_upper_bound; lia.
Qed.

Lemma show_length u k : 0 < k -> length (show u) <= k <-> (Z.of_nat u < 10 ^ Z.of_nat k)%Z.
Proof.
  intros Hk. unfold show, format_nat. apply (digits_loop_length _ _ [] k); [|done].
  split; [lia|]. apply log2_bound. lia.
Qed.

Lemma digit_class c : is_ascii_digit c = true -> class_of c = Word.
Proof.
  unfold is_ascii_digit, between. intros H. bool_to_prop.
  assert (c = 48 \/ c = 49 \/ c = 50 \/ c = 51 \/ c = 52 \/ c = 53 \/ c = 54 \/ c = 55 \/ c = 56 \/ c = 57)%N as Hc by lia.
  by repeat destruct Hc as [-> | Hc]; [..|subst c].
Qed.
Lemma show_words u : Forall (fun c => class_of c = Word) (show u).
Proof.
  eapply Forall_impl; [apply format_nat_digits; lia|]. intros c. apply digit_class.
Qed.
Lemma show_nonempty u : show u <> [].
Proof.
  pose proof (format_int_nonempty (Z.of_nat u)) as H. unfold format_int in H.
  by rewrite (proj2 (Z.ltb_ge _ _)) in H by lia.
Qed.

(** The word tokens of a printed number. *)
Definition width (u : nat) : nat := div_ceil (length (show u)) 4.
Lemma width_le u m : 0 < m -> width u <= m <-> (Z.of_nat u < 10 ^ (4 * Z.of_nat m))%Z.
Proof.
  intros Hm. replace (4 * Z.of_nat m)%Z with (Z.of_nat (4 * m)) by lia. rewrite <- show_length by lia.
  unfold width, div_ceil. zify. Z.to_euclidean_division_equations. lia.
Qed.
Lemma width_pos u : 0 < width u.
Proof.
  unfold width. pose proof (show_nonempty u). destruct (show u); [done|]. cbn [length].
  unfold div_ceil. zify. Z.to_euclidean_division_equations. lia.
Qed.

(** ** The estimate as a function of the number it contains *)

Section Settle.
Context (b : ContextBundle).

Definition base : nat * nat :=
  let before := counts (render_before b) in
  let after := counts (render_after b) in
  (fst before + fst after, snd before + snd after).
Definition estimate_at (w : nat) : nat := price (fst base + w, snd base).

Lemma last_app_cons {A} (s t : list A) c : last (s ++ c :: t) = last (c :: t).
Proof. rewrite last_app. destruct (last (c :: t)) eqn:E; [done|]. by apply last_None in E. Qed.
Lemma before_last : last (render_before b) = Some 32%N.
Proof.
  unfold render_before. rewrite !app_assoc, last_app. done.
Qed.

Lemma estimate_used u : estimate_tokens (render_markdown (set_used u b)) = estimate_at (width u).
Proof.
  change (estimate_tokens ?s) with (price (counts s)). unfold estimate_at, base. f_equal.
  change (render_markdown (set_used u b)) with (render_before b ++ show u ++ render_after b).
  pose proof (show_words u) as Hw. pose proof (show_nonempty u) as Hne.
  destruct (show u) as [|d ds] eqn:E; [done|]. rewrite <- E in *.
  assert (exists e, last (show u) = Some e /\ class_of e = Word) as (e & He & Hec).
  { destruct (last (show u)) as [e|] eqn:El; [|by apply last_None in El].
    exists e. split; [done|]. rewrite Forall_forall in Hw. apply Hw. by apply last_Some_elem_of. }
  assert (class_of d = Word) as Hd by (rewrite E in Hw; by apply Forall_cons in Hw as [? _]).
  rewrite (counts_app _ _ 32%N d before_last); [|by rewrite E|by rewrite Hd].
  rewrite (counts_app (show u) _ e 32%N He); [|done|by rewrite Hec].
  rewrite (counts_word (show u)) by done. cbn [fst snd]. unfold width. f_equal; lia.
Qed.

Lemma estimate_at_mono w v : w <= v -> estimate_at w <= estimate_at v <= estimate_at w + (v - w).
Proof.
  intros H. unfold estimate_at, price, div_ceil. cbn [fst snd]. zify. Z.to_euclidean_division_equations. lia.
Qed.
End Settle.

(** ** Four rounds are enough for 64-bit counts *)

Lemma width_five u : (Z.of_nat u <= U64_MAX)%Z -> width u <= 5.
Proof. intros H. apply width_le; [lia|]. unfold U64_MAX in H. cbn. lia. Qed.

(** Numbers at most four apart are at most one width apart, and a change of width
    is followed by many numbers of the new width. *)
Lemma width_near u v : u <= v <= u + 4 -> width v <= 5 -> width u <= width v <= width u + 1.
Proof.
  intros H H5. pose proof (width_pos u). pose proof (width_pos v). split.
  - apply width_le; [done|]. pose proof (proj1 (width_le v (width v) ltac:(done)) (le_n _)). lia.
  - apply width_le; [lia|]. pose proof (proj1 (width_le u (width u) ltac:(done)) (le_n _)).
    assert (10 ^ (4 * Z.of_nat (width u)) + 4 <= 10 ^ (4 * Z.of_nat (width u + 1)))%Z; [|lia].
    replace (4 * Z.of_nat (width u + 1))%Z with (4 * Z.of_nat (width u) + 4)%Z by lia.
    rewrite Z.pow_add_r by lia. assert (1 <= 10 ^ (4 * Z.of_nat (width u)))%Z by (apply (Z.pow_le_mono_r 10 0); lia). lia.
Qed.
Lemma width_after u v x : u <= v <= u + 4 -> width u < width v <= 5 -> v <= x <= v + 4 -> width x = width v.
Proof.
  intros H Hw Hx. pose proof (width_near u v H ltac:(lia)) as Hn. assert (width v = width u + 1) as E by lia.
  pose proof (width_pos u). pose proof (proj1 (width_le u (width u) ltac:(done)) (le_n _)) as Hu.
  assert (~ width v <= width u) as Hv by lia. rewrite (width_le v (width u)) in Hv by done.
  apply Nat.le_antisymm.
  - apply width_le; [lia|]. rewrite E. replace (4 * Z.of_nat (width u + 1))%Z with (4 * Z.of_nat (width u) + 4)%Z by lia.
    rewrite Z.pow_add_r by lia. assert (1 <= 10 ^ (4 * Z.of_nat (width u)))%Z by (apply (Z.pow_le_mono_r 10 0); lia). lia.
  - rewrite E. destruct (Nat.le_gt_cases (width x) (width u)) as [Hle|]; [|lia].
    apply width_le in Hle; [|done]. lia.
Qed.
Lemma pow4_step w : 0 < w -> (10 ^ (4 * Z.of_nat w) + 5 <= 10 ^ (4 * Z.of_nat (w + 1)))%Z.
Proof.
  intros Hw. replace (4 * Z.of_nat (w + 1))%Z with (4 * Z.of_nat w + 4)%Z by lia.
  rewrite Z.pow_add_r by lia. assert (1 <= 10 ^ (4 * Z.of_nat w))%Z by (apply (Z.pow_le_mono_r 10 0); lia). lia.
Qed.

Section FourRounds.
Context (g : nat -> nat) (g_mono : forall w v, w <= v -> g w <= g v <= g w + (v - w)).
Context (u : nat) (Hu : (Z.of_nat u <= U64_MAX)%Z) (Hgu : (Z.of_nat (g (width u)) <= U64_MAX)%Z).
Abbreviation f x := (g (width x)).

Lemma f_fixed x y : y = f x -> width y = width x -> f y = y.
Proof. intros -> E. by rewrite E. Qed.

Lemma four_rounds_up : u <= f u -> f (f (f (f (f u)))) = f (f (f (f u))).
Proof using g_mono Hu Hgu.
  intros Hle. pose proof (width_five _ Hu). pose proof (width_five _ Hgu). pose proof (width_pos u).
  set (u1 := f u) in *. assert (width u <= width u1) as H01.
  { pose proof (width_pos u1). apply width_le; [done|]. pose proof (proj1 (width_le u1 (width u1) ltac:(done)) (le_n _)). lia. }
  destruct (Nat.eq_dec (width u1) (width u)) as [E|N0].
  { pose proof (f_fixed u u1 eq_refl E) as F. by rewrite !F. }
  pose proof (g_mono _ _ H01) as H12. fold u1 in H12. set (u2 := f u1) in *.
  assert (width u2 <= 5) as H5 by (apply width_le; [lia|]; unfold U64_MAX in *; cbn; lia).
  pose proof (width_near u1 u2 ltac:(lia) H5) as Hn.
  destruct (Nat.eq_dec (width u2) (width u1)) as [E|N1].
  { pose proof (f_fixed u1 u2 eq_refl E) as F. by rewrite !F. }
  pose proof (g_mono (width u1) (width u2) ltac:(lia)) as H23. fold u2 in H23. set (u3 := f u2) in *.
  pose proof (width_after u1 u2 u3 ltac:(lia) ltac:(lia) ltac:(lia)) as E.
  pose proof (f_fixed u2 u3 eq_refl E) as F. by rewrite !F.
Qed.

Lemma four_rounds_down : f u <= u -> f (f (f (f (f u)))) = f (f (f (f u))).
Proof using g_mono Hu Hgu.
  intros Hle. pose proof (width_five _ Hu) as H5. pose proof (width_five _ Hgu) as H51.
  set (u1 := f u) in *. assert (width u1 <= width u) as H01.
  { pose proof (width_pos u). apply width_le; [done|]. pose proof (proj1 (width_le u (width u) ltac:(done)) (le_n _)). lia. }
  destruct (Nat.eq_dec (width u1) (width u)) as [E|N0].
  { pose proof (f_fixed u u1 eq_refl E) as F. by rewrite !F. }
  pose proof (g_mono _ _ H01) as H12. fold u1 in H12. set (u2 := f u1) in *. pose proof (width_pos u1).
  pose proof (width_near u2 u1 ltac:(lia) H51) as Hn.
  destruct (Nat.eq_dec (width u2) (width u1)) as [E|N1].
  { pose proof (f_fixed u1 u2 eq_refl E) as F. by rewrite !F. }
  pose proof (g_mono (width u2) (width u1) ltac:(lia)) as H23. fold u2 in H23. set (u3 := f u2) in *.
  pose proof (width_near u3 u2 ltac:(lia) ltac:(lia)) as Hn3.
  destruct (Nat.eq_dec (width u3) (width u2)) as [E|N2].
  { pose proof (f_fixed u2 u3 eq_refl E) as F. by rewrite !F. }
  exfalso. pose proof (width_pos u3) as H3. pose proof (proj1 (width_le u3 (width u3) H3) (le_n _)).
  pose proof (pow4_step (width u3) H3). assert (width u1 <= width u3 + 1) as Hc; [|lia].
  apply width_le; lia.
Qed.

Lemma four_rounds : f (f (f (f (f u)))) = f (f (f (f u))).
Proof using g_mono Hu Hgu.
  destruct (Nat.le_ge_cases u (f u)); [by apply four_rounds_up|by apply four_rounds_down].
Qed.
End FourRounds.

Fixpoint rounds (g : nat -> nat) (n : nat) (u : nat) : nat :=
  match n with O => u | S n => rounds g n (g (width u)) end.
Lemma rounds_fixed g n u : g (width u) = u -> rounds g n u = u.
Proof. intros H. induction n as [|n IH]; cbn [rounds]; [done|]. by rewrite H. Qed.

Lemma set_used_same b : set_used (used_tokens b) b = b.
Proof. by destruct b. Qed.
Lemma estimate_self b : estimate_tokens (render_markdown b) = estimate_at b (width (used_tokens b)).
Proof. rewrite <- estimate_used. by rewrite set_used_same. Qed.

Lemma settle_rounds n : forall b, settle n b = set_used (rounds (estimate_at b) n (used_tokens b)) b.
Proof.
  induction n as [|n IH]; intros b; cbn [settle rounds]; [by rewrite set_used_same|].
  rewrite estimate_self. destruct (Nat.eqb_spec (estimate_at b (width (used_tokens b))) (used_tokens b)) as [E|N].
  - by rewrite E, rounds_fixed, set_used_same.
  - rewrite IH. by change (estimate_at (set_used ?e b)) with (estimate_at b).
Qed.

Lemma settled_token_count b :
  (Z.of_nat (used_tokens b) <= U64_MAX)%Z -> (Z.of_nat (estimate_tokens (render_markdown b)) <= U64_MAX)%Z ->
  used_tokens (settle 4 b) = estimate_tokens (render_markdown (settle 4 b)).
Proof.
  intros Hu He. rewrite settle_rounds, estimate_used. cbn [used_tokens set_used rounds].
  rewrite estimate_self in He. symmetry. apply (four_rounds (estimate_at b)); [apply estimate_at_mono|done..].
Qed.
