(* ===== verification/ContextAssemblyFacts.v ===== *)
(** * What an assembled context bundle guarantees. *)
From S2P Require Import Prelude Utf8 Paths ContextTokens ContextPreview ContextChanges ContextRender ContextAssembly ContextMetricsFacts.

(** ** Metrics and shrinking *)

Lemma finalize_eq b : exists u, finalize_bundle_metrics b = set_used u (set_coverage (coverage_of (items b)) b).
Proof. unfold finalize_bundle_metrics. rewrite settle_rounds. by eexists. Qed.

(** The bundles that dropping items goes through. *)
Inductive shrinks : ContextBundle -> ContextBundle -> Prop :=
| shrinks_refl b : shrinks b b
| shrinks_step b b' : budget_tokens b < used_tokens b -> items b <> [] ->
    shrinks (finalize_bundle_metrics (pop_item b)) b' -> shrinks b b'.

Lemma shrink_spec fuel : forall b, length (items b) <= fuel ->
  exists b', shrink fuel b = Some b' /\ shrinks b b' /\ (items b' = [] \/ used_tokens b' <= budget_tokens b').
Proof.
  induction fuel as [|fuel IH]; intros b Hl; cbn [shrink];
    destruct (Nat.ltb_spec (budget_tokens b) (used_tokens b)) as [H|H]; cbn [andb].
  - destruct (items b) eqn:E; [|cbn in Hl; lia]. cbn. exists b. split_and!; [done|constructor|by left].
  - exists b. split_and!; [done|constructor|by right].
  - destruct (Nat.eqb_spec (length (items b)) 0) as [E|E]; cbn [negb].
    + exists b. split_and!; [done|constructor|left]. by apply length_zero_iff_nil.
    + destruct (finalize_eq (pop_item b)) as [u Hu].
      destruct (IH (finalize_bundle_metrics (pop_item b))) as (b' & Hb & Hs & Hfit).
      { rewrite Hu. cbn [items set_used set_coverage pop_item]. rewrite removelast_firstn_len, length_take. lia. }
      exists b'. split_and!; [done| |done]. apply shrinks_step; [done| |done].
      intros E0. by rewrite E0 in E.
  - exists b. split_and!; [done|constructor|by right].
Qed.

(** Metrics were computed last, and only items at the end are gone. *)
Definition finalized (b : ContextBundle) : Prop := exists b0, b = finalize_bundle_metrics b0.
Record shrunk (b b' : ContextBundle) : Prop := MkShrunk {
  shrunk_items : exists n, items b' = take n (items b);
  shrunk_budget : budget_tokens b' = budget_tokens b;
  shrunk_final : finalized b'
}.
Lemma finalize_items b : items (finalize_bundle_metrics b) = items b /\ budget_tokens (finalize_bundle_metrics b) = budget_tokens b.
Proof. by destruct (finalize_eq b) as [u ->]. Qed.
Lemma shrinks_shrunk b b' : shrinks b b' -> finalized b -> shrunk b b'.
Proof.
  induction 1 as [b|b b' Hlt Hne _ IH]; intros Hf.
  - constructor; [|done|done]. exists (length (items b)). by rewrite firstn_all.
  - destruct IH as [[n Hn] Hb Hf']; [by eexists|].
    destruct (finalize_items (pop_item b)) as [Hi Hbu]. constructor; [|by rewrite Hb, Hbu|done].
    exists (n `min` (length (items b) - 1)). rewrite Hn, Hi. cbn [items pop_item].
    rewrite removelast_firstn_len, take_take. f_equal. lia.
Qed.

(** ** The order of candidates *)

Section Order.
Context (candidates : list Candidate).

Definition claims_role (role : ContextRole) (index : nat) : Prop :=
  exists c, candidates !! index = Some c /\ role ∈ cand_roles c.

Lemma find_claimable role claimed index c :
  find (claimable role claimed) (imap pair candidates) = Some (index, c) ->
  (index ∉ claimed) /\ candidates !! index = Some c /\ role ∈ cand_roles c.
Proof.
  intros H. apply find_some in H as [Hin Hc]. unfold claimable in Hc. cbn [fst snd] in Hc. bool_to_prop.
  rewrite bool_decide_eq_false in H. rewrite bool_decide_eq_true in H0.
  apply list_elem_of_In, list_elem_of_lookup in Hin as [i Hi].
  rewrite list_lookup_imap in Hi. destruct (candidates !! i) eqn:E; [|done]. injection Hi as <- <-. done.
Qed.

(** Distinct claims, each of a candidate, and every role seen so far is held by a
    claimed candidate, if by any. *)
Record claim_inv (roles : list ContextRole) (claimed : list nat) : Prop := MkClaim {
  claim_nodup : NoDup claimed;
  claim_valid : Forall (fun i => i < length candidates) claimed;
  claim_count : length claimed <= length roles;
  claim_covers : forall role i, role ∈ roles -> claims_role role i -> exists j, j ∈ claimed /\ claims_role role j
}.
Lemma claim_step roles claimed role :
  claim_inv roles claimed -> claim_inv (roles ++ [role]) (claim candidates claimed role).
Proof.
  intros [Hn Hv Hc Hcov]. unfold claim. destruct (find _ _) as [[index c]|] eqn:E.
  - apply find_claimable in E as (Hni & Hi & Hr). constructor.
    + apply NoDup_app. split_and!; [done| |apply NoDup_singleton]. intros x Hx ->%list_elem_of_singleton. done.
    + apply Forall_app. split; [done|]. constructor; [|done]. by apply lookup_lt_Some in Hi.
    + rewrite !length_app. cbn. lia.
    + intros r i [Hr'|Hr']%elem_of_app Hcl.
      * destruct (Hcov r i Hr' Hcl) as (j & Hj & ?). exists j. split; [|done]. apply elem_of_app. by left.
      * apply list_elem_of_singleton in Hr' as ->. exists index. split; [apply elem_of_app; right; left|]. by exists c.
  - constructor; [done|done|rewrite length_app; lia|].
    intros r i [Hr'|Hr']%elem_of_app Hcl; [by apply (Hcov r i)|]. apply list_elem_of_singleton in Hr' as ->.
    exists i. split; [|done]. destruct Hcl as (c & Hc' & Hrc). destruct (decide (i ∈ claimed)) as [|Hni]; [done|].
    exfalso. pose proof (find_none _ _ E (i, c)) as Hf. cut (claimable role claimed (i, c) = false).
    + unfold claimable. cbn [fst snd]. by rewrite bool_decide_false, bool_decide_true.
    + apply Hf. apply list_elem_of_In, list_elem_of_lookup. exists i. by rewrite list_lookup_imap, Hc'.
Qed.
Lemma claim_fold roles : forall done_ claimed,
  claim_inv done_ claimed -> claim_inv (done_ ++ roles) (foldl (claim candidates) claimed roles).
Proof.
  induction roles as [|role roles IH]; intros done_ claimed H; cbn [foldl]; [by rewrite app_nil_r|].
  replace (done_ ++ role :: roles) with ((done_ ++ [role]) ++ roles) by (by rewrite <- app_assoc). by apply IH, claim_step.
Qed.
Lemma claim_all_inv : claim_inv CLAIMING_ROLES (claim_all candidates).
Proof.
  apply (claim_fold CLAIMING_ROLES [] []). constructor; [constructor|done|done|].
  intros role i H. by apply elem_of_nil in H.
Qed.

(** What is left, as the positions that are not claimed. *)
Lemma unclaimed_positions (claimed : list nat) l : forall pre,
  omap (fun ic : nat * Candidate => if bool_decide (fst ic ∈ claimed) then None else Some (snd ic))
    (imap (fun i c => (length pre + i, c)) l)
  = omap (fun i => (pre ++ l) !! i) (filter (fun i => i ∉ claimed) (seq (length pre) (length l))).
Proof.
  induction l as [|c l IH]; intros pre; [done|]. rewrite imap_cons. cbn [length seq].
  rewrite (imap_ext _ (fun i x => (S (length pre) + i, x))).
  2: { intros i x _. unfold compose. f_equal. lia. }
  rewrite filter_cons. specialize (IH (pre ++ [c])). rewrite length_app, <- app_assoc in IH. cbn [length app] in IH.
  replace (length pre + 1) with (S (length pre)) in IH by lia.
  assert ((pre ++ c :: l) !! length pre = Some c) as Hc by (by rewrite lookup_app_r, Nat.sub_diag by lia).
  rewrite Nat.add_0_r. destruct (decide (length pre ∈ claimed)) as [Hin|Hni].
  - rewrite decide_False by tauto. cbn [omap list_omap fst]. by rewrite bool_decide_true.
  - rewrite decide_True by done. cbn [omap list_omap fst snd]. rewrite bool_decide_false, Hc by done. by f_equal.
Qed.
Lemma positions_all l : forall pre : list Candidate,
  omap (fun i => (pre ++ l) !! i) (seq (length pre) (length l)) = l.
Proof.
  induction l as [|c l IH]; intros pre; [done|]. cbn [length seq omap list_omap].
  rewrite lookup_app_r, Nat.sub_diag by lia. cbn. f_equal.
  specialize (IH (pre ++ [c])). rewrite length_app, <- app_assoc in IH. cbn in IH.
  by replace (length pre + 1) with (S (length pre)) in IH by lia.
Qed.

Lemma claimed_positions (claimed : list nat) : NoDup claimed -> Forall (fun i => i < length candidates) claimed ->
  claimed ++ filter (fun i => i ∉ claimed) (seq 0 (length candidates)) ≡ₚ seq 0 (length candidates).
Proof.
  intros Hn Hv. rewrite Forall_forall in Hv. apply NoDup_Permutation.
  - apply NoDup_app. split_and!; [done| |apply NoDup_filter, NoDup_ListNoDup, seq_NoDup].
    intros x Hx [Hni _]%list_elem_of_filter. done.
  - apply NoDup_ListNoDup, seq_NoDup.
  - intros x. rewrite elem_of_app, list_elem_of_filter, elem_of_seq. split.
    + intros [H|[_ H]]; [|done]. specialize (Hv x H). lia.
    + intros H. destruct (decide (x ∈ claimed)); [by left|by right].
Qed.

Lemma order_candidates_perm : order_candidates candidates ≡ₚ candidates.
Proof.
  unfold order_candidates. destruct claim_all_inv as [Hn Hv _ _].
  pose proof (unclaimed_positions (claim_all candidates) candidates []) as H. cbn [length app] in H.
  change (imap (fun i c => (0 + i, c)) candidates) with (imap pair candidates) in H. rewrite H.
  change (omap (fun index => candidates !! index) (claim_all candidates)) with
    (omap (fun i => ([] ++ candidates) !! i) (claim_all candidates)).
  rewrite <- omap_app. cbn [app]. rewrite (claimed_positions _ Hn Hv).
  pose proof (positions_all candidates []) as E. cbn [length app] in E. by rewrite E.
Qed.

(** A required role is held by one of the first nine candidates. *)
Lemma first_candidates_cover role c :
  role ∈ CLAIMING_ROLES -> c ∈ candidates -> role ∈ cand_roles c ->
  exists i d, i < length CLAIMING_ROLES /\ order_candidates candidates !! i = Some d /\ role ∈ cand_roles d.
Proof.
  intros Hrole Hc Hr. destruct claim_all_inv as [Hn Hv Hcount Hcov].
  apply list_elem_of_lookup in Hc as [i Hi]. destruct (Hcov role i Hrole) as (j & Hj & d & Hd & Hrd); [by exists c|].
  apply list_elem_of_lookup in Hj as [k Hk].
  assert (omap (fun index => candidates !! index) (claim_all candidates) !! k = Some d) as Hkd.
  { revert k Hk. clear Hn Hcount Hcov. induction Hv as [|x l Hx Hl IH]; intros k Hk; [done|].
    destruct (lookup_lt_is_Some_2 candidates x Hx) as [e He]. cbn [omap list_omap]. rewrite He.
    destruct k as [|k]; cbn in *; [congruence|by apply IH]. }
  exists k, d. split_and!; [|by apply lookup_app_l_Some|done].
  apply lookup_lt_Some in Hk. cbn in *. lia.
Qed.
End Order.

(** ** The selection *)

Definition of_file (key : list (list N)) (chosen : list ContextItem) : nat :=
  length (filter (fun item => path_ord (item_path item) = key) chosen).

Section Selected.
Context (task_text : str) (budget : nat) (candidates : list Candidate) (header : nat).

(** An item made from a candidate that no earlier item overlaps. *)
Definition made_from (before : list ContextItem) (item : ContextItem) : Prop :=
  exists c preview cut offset per_item,
    c ∈ candidates /\ existsb (fun earlier => substantially_overlaps earlier c) before = false /\
    per_item <= 400 /\ truncate_to_token_budget (cand_preview c) per_item task_text = Some (preview, cut, offset) /\
    trim preview <> [] /\ item = with_preview (length before + 1) c preview offset.

(** The items chosen so far and the tokens used with them. *)
Inductive chosen : list ContextItem -> nat -> Prop :=
| chosen_none : chosen [] header
| chosen_more before used item :
    chosen before used -> length before < MAX_ITEMS -> of_file (path_ord (item_path item)) before < 3 ->
    made_from before item -> used + item_tokens item <= budget ->
    chosen (before ++ [item]) (used + item_tokens item).

Record sel_ok (st : Selection) : Prop := MkSelOk {
  sel_chosen : chosen (sel_items st) (sel_used st);
  sel_counts : forall key, default 0 (file_counts st !! key) = of_file key (sel_items st)
}.

Lemma push_item_ok st item cut :
  sel_ok st -> chosen (sel_items st ++ [item]) (sel_used st + item_tokens item) -> sel_ok (push_item st item cut).
Proof.
  intros [_ Hc] H. constructor; [exact H|]. intros key. cbn [push_item file_counts sel_items].
  unfold of_file. rewrite filter_app, length_app. cbn [filter list_filter].
  destruct (decide (path_ord (item_path item) = key)) as [<-|Hne].
  - rewrite lookup_insert, decide_True by done. cbn [default]. by rewrite Hc.
  - rewrite lookup_insert_ne by done. rewrite Hc. cbn. by rewrite Nat.add_0_r.
Qed.

Lemma select_round_ok required c st : c ∈ candidates -> sel_ok st ->
  exists round, select_round task_text budget required c st = Some round /\
    match round with Break st' | Continue st' => sel_ok st' end.
Proof.
  intros Hc Hok. unfold select_round.
  assert (sel_ok (stop_truncated st)) as Hg by (destruct Hok; by constructor).
  destruct (_ || (budget <=? sel_used st)) eqn:E1; [by eexists|]. bool_to_prop.
  destruct (_ && context_roles_covered _ _); [by eexists|].
  destruct (_ || existsb _ (sel_items st)) eqn:E2; [by eexists|]. bool_to_prop.
  set (remaining := budget - _). destruct (remaining <? PREVIEW_MIN); [by eexists|].
  set (per_item := Nat.min _ remaining).
  destruct (truncate_spec (cand_preview c) per_item task_text) as (preview & cut & offset & Ht & _).
  rewrite Ht. cbn [mbind option_bind]. destruct (cut && _); [by eexists|].
  set (item := with_preview _ c preview offset).
  destruct (bool_decide (trim preview = []) || _) eqn:E3; [by eexists|]. bool_to_prop.
  eexists. split; [done|]. apply push_item_ok; [done|]. destruct Hok as [Hch Hcounts].
  apply chosen_more; [done| | | |].
  - assert (length (sel_items st) <= MAX_ITEMS) as Hl; [|unfold MAX_ITEMS in *; lia].
    clear -Hch. induction Hch; [cbn; lia|]. rewrite length_app. cbn. lia.
  - rewrite <- Hcounts. change (item_path item) with (cand_path c).
    destruct (file_counts st !! path_ord (cand_path c)); cbn [default]; bool_to_prop; cbn; lia.
  - exists c, preview, cut, offset, per_item. split_and!; [done..| |done| |done].
    + unfold per_item, clamp. lia.
    + by apply bool_decide_eq_false in H3.
  - lia.
Qed.

Lemma select_ok required ordered : forall st, (forall c, c ∈ ordered -> c ∈ candidates) -> sel_ok st ->
  exists st', select task_text budget required ordered st = Some st' /\ sel_ok st'.
Proof.
  induction ordered as [|c ordered IH]; intros st Hin Hok; cbn [select]; [by exists st|].
  destruct (select_round_ok required c st) as (round & -> & Hr); [apply Hin; left|done|]. cbn [mbind option_bind].
  destruct round; [by eexists|]. apply IH; [|done]. intros x Hx. apply Hin. by right.
Qed.

(** What holds of the chosen items, and of any first part of them. *)
Lemma chosen_take items used : chosen items used -> forall n, exists used', chosen (take n items) used'.
Proof.
  induction 1 as [|before used item Hb IH Hl Hf Hm Hu]; intros n; [rewrite take_nil; by eexists; constructor|].
  destruct (Nat.le_gt_cases n (length before)) as [Hn|Hn].
  - rewrite take_app_le by done. apply IH.
  - rewrite take_ge by (rewrite length_app; cbn; lia). eexists. by constructor.
Qed.
Lemma chosen_length items used : chosen items used -> length items <= MAX_ITEMS.
Proof. induction 1; [cbn; lia|]. rewrite length_app. cbn. lia. Qed.
Lemma chosen_files items used key : chosen items used -> of_file key items <= 3.
Proof.
  induction 1 as [|before used item _ IH _ Hf _ _]; [cbn; lia|].
  unfold of_file in *. rewrite filter_app, length_app. cbn [filter list_filter].
  case_decide as E; cbn [length]; [rewrite <- E in *|]; lia.
Qed.
Lemma chosen_made items used i item : chosen items used -> items !! i = Some item -> made_from (take i items) item.
Proof.
  induction 1 as [|before used it _ IH _ _ Hm _]; intros Hi; [done|].
  apply lookup_app_Some in Hi as [Hi|[Hle Hi]].
  - rewrite take_app_le; [by apply IH|]. apply lookup_lt_Some in Hi. lia.
  - apply list_lookup_singleton_Some in Hi as [Hi <-]. by replace i with (length before) by lia; rewrite take_app_length.
Qed.
End Selected.

Lemma ordered_elem candidates c : c ∈ order_candidates (sort_by candidate_leb candidates) -> c ∈ candidates.
Proof. by rewrite order_candidates_perm, sort_by_perm. Qed.

Lemma assemble_spec to_json task ws budget anchors scope references candidates :
  exists b header used,
    assemble_bundle to_json task ws budget anchors scope references candidates = Some b /\
    budget_tokens b = budget /\ chosen task budget candidates header (items b) used /\
    finalized b /\ (items b = [] \/ used_tokens b <= budget).
Proof.
  unfold assemble_bundle. cbv zeta.
  set (scope' := _ <$> scope). set (refs := take _ references). set (task_budget := Nat.min _ 1024).
  destruct (truncate_spec task task_budget task) as (output & cut & offset & -> & _). cbn [mbind option_bind].
  set (header := estimated_header_tokens output _ _ _ _ _ _). set (sorted := sort_by candidate_leb candidates).
  set (st0 := MkSelection [] header ∅ _).
  destruct (select_ok task budget candidates header (required_roles sorted) (order_candidates sorted) st0)
    as (st & -> & Hch & _).
  { apply ordered_elem. }
  { constructor; [constructor|]. intros key. cbn [file_counts st0]. by rewrite lookup_empty. }
  cbn [mbind option_bind]. set (b0 := MkBundle _ _ _ _ _ _ _ _ _ _ _).
  destruct (finalize_items b0) as [Hi Hb].
  destruct (shrink_spec (length (sel_items st)) (finalize_bundle_metrics b0)) as (b & -> & Hs & Hfit); [by rewrite Hi|].
  destruct (shrinks_shrunk _ _ Hs) as [[n Hn] Hbud Hfin]; [by eexists|].
  rewrite Hi in Hn. rewrite Hb in Hbud. cbn [items b0] in Hn. cbn [budget_tokens b0] in Hbud.
  destruct (chosen_take _ _ _ _ _ _ Hch n) as [used Hu]. exists b, header, used. rewrite Hn. split_and!; try done.
  - by rewrite <- Hn, <- Hbud.
Qed.

(** ** Theorems *)

(** C25. A context bundle is always produced.  If it has items its token count is within
    the budget; it has at most twenty, at most three of a file, and its metrics were
    computed after the last change to the items. *)
Theorem context_bundle_within_budget to_json task ws budget anchors scope references candidates :
  exists b,
    assemble_bundle to_json task ws budget anchors scope references candidates = Some b /\
    (items b = [] \/ used_tokens b <= budget) /\ length (items b) <= MAX_ITEMS /\
    (forall file, length (filter (fun item => path_ord (item_path item) = path_ord file) (items b)) <= 3) /\
    finalized b.
Proof.
  destruct (assemble_spec to_json task ws budget anchors scope references candidates)
    as (b & header & used & Hb & _ & Hch & Hf & Hfit).
  exists b. split_and!; [done|done|by eapply chosen_length| |done].
  intros file. by eapply (chosen_files _ _ _ _ _ _ (path_ord file)).
Qed.

(** C26. Every item of a bundle belongs to a candidate that overlaps no earlier item, and
    its preview shows the candidate's text: line [k] of the preview, which the item
    places at [item_start + k], is part of the candidate's line with that number, and
    the item ends with its last line. *)
Theorem context_items_show_their_candidates to_json task ws budget anchors scope references candidates b i item :
  assemble_bundle to_json task ws budget anchors scope references candidates = Some b ->
  items b !! i = Some item ->
  exists c offset,
    c ∈ candidates /\ existsb (fun earlier => substantially_overlaps earlier c) (take i (items b)) = false /\
    item_path item = cand_path c /\ item_roles item = cand_roles c /\
    item_start item = cand_start c + offset /\
    item_end item + 1 = item_start item + length (str_lines (item_preview item)) /\
    estimate_tokens (item_preview item) <= 400 /\
    shows_lines (item_preview item) (cand_preview c) offset.
Proof.
  intros Ha Hi. destruct (assemble_spec to_json task ws budget anchors scope references candidates)
    as (b' & header & used & Hb & _ & Hch & _). rewrite Hb in Ha. injection Ha as ->.
  destruct (chosen_made _ _ _ _ _ _ _ _ Hch Hi) as (c & preview & cut & offset & per_item & Hc & Hov & Hper & Ht & Hne & ->).
  destruct (truncate_spec (cand_preview c) per_item task) as (p & t & o & Ht' & Hest & Hshow & _).
  rewrite Ht in Ht'. injection Ht' as <- <- <-. exists c, offset. split_and!; try done.
  - cbn [item_end item_start item_preview with_preview]. pose proof (str_lines_nonempty _ Hne) as H.
    destruct (str_lines preview); [done|]. cbn [length]. lia.
  - cbn [item_preview with_preview]. lia.
Qed.

(** C27. The token count of finalized metrics, which is itself printed in the bundle, is
    exactly the estimate of the bundle's Markdown: four rounds reach the fixed point
    for every 64-bit count. *)
Theorem bundle_token_count_exact b :
  (Z.of_nat (used_tokens b) <= U64_MAX)%Z ->
  (Z.of_nat (estimate_tokens (render_markdown (set_coverage (coverage_of (items b)) b))) <= U64_MAX)%Z ->
  let b' := finalize_bundle_metrics b in
  used_tokens b' = estimate_tokens (render_markdown b') /\ items b' = items b /\ coverage b' = coverage_of (items b).
Proof.
  intros Hu He. split_and!.
  - by apply settled_token_count.
  - apply finalize_items.
  - by destruct (finalize_eq b) as [u ->].
Qed.

(** Candidates are tried in an order that loses none, and for every role but
    [Related] that some candidate has, one of the first nine tried has it. *)
Theorem candidate_order_covers_roles candidates :
  order_candidates candidates ≡ₚ candidates /\
  forall role, role ∈ required_roles candidates ->
  exists i c, i < 9 /\ order_candidates candidates !! i = Some c /\ role ∈ cand_roles c.
Proof.
  split; [apply order_candidates_perm|]. intros role [Hne Hin]%list_elem_of_filter.
  apply list_elem_of_In, in_concat in Hin as (roles & Hroles & Hr%list_elem_of_In).
  apply in_map_iff in Hroles as (c & <- & Hc%list_elem_of_In).
  apply (first_candidates_cover _ role c); [|done|done].
  destruct role; try done; unfold CLAIMING_ROLES; set_solver.
Qed.

(** ** Witnesses *)

Definition sample_candidate : Candidate :=
  MkCandidate (lit "a.md") 7 9 (lit "
first

third") [] [Primary] [] 0.
Definition sample_bundle (budget : nat) (preview : str) : option ContextBundle :=
  assemble_bundle (fun _ => None) (lit "task") (lit "/w") budget [] None []
    [MkCandidate (cand_path sample_candidate) 7 9 preview [] [Primary] [] 0].

Lemma context_items_show_their_candidates_witness :
  match sample_bundle 400 (cand_preview sample_candidate) with
  | Some b =>
    match items b !! 0 with
    | Some item => item_start item = 8 /\ item_end item = 10 /\ estimate_tokens (item_preview item) <= 400
    | None => False
    end
  | None => False
  end.
Proof.
  destruct (sample_bundle 400 (cand_preview sample_candidate)) as [b|] eqn:E; [|vm_compute in E; discriminate].
  destruct (items b !! 0) as [item|] eqn:Ei.
  - destruct (context_items_show_their_candidates _ _ _ _ _ _ _ _ b 0 item E Ei)
      as (c & offset & _ & _ & _ & _ & _ & _ & H & _).
    vm_compute in E. injection E as <-. vm_compute in Ei. injection Ei as <-. split_and!; [done|done|exact H].
  - vm_compute in E. injection E as <-. vm_compute in Ei. discriminate.
Defined.

Lemma bundle_token_count_exact_witness :
  let b := header_bundle (lit "task") (lit "/w") 10000 [] 0 None [] in
  used_tokens (finalize_bundle_metrics b) = estimate_tokens (render_markdown (finalize_bundle_metrics b)) /\
  used_tokens (finalize_bundle_metrics b) = 89.
Proof.
  split; [|by vm_compute]. apply bundle_token_count_exact; vm_compute; discriminate.
Defined.

(** A candidate whose preview fits can still be left out, since the fence around its
    backticks does not fit; the bundle is then empty without being marked truncated. *)
Theorem backticks_drop_candidate_silently :
  match sample_bundle 200 (replicate 60 BACKTICK) with
  | Some b => candidate_count b = 1 /\ items b = [] /\ truncated b = false
  | None => False
  end.
Proof. by vm_compute. Qed.
