(* ===== verification/ChunkTable.v ===== *)
(** * The [chunks] table of an index, as indexer.rs reads and writes it.

  A row keeps its [chunk_key] (SQLite's rowid), the path and the vector key of the chunk
  and its compressed text; the columns search displays are left out.  Rows are inserted
  only by [insert_chunk] and removed only a file at a time, so the table is the list of
  its rows in the order of [chunk_key].  Vector keys are 64-bit numbers, stored as [i64]
  and read back as [u64], which loses nothing. *)
From S2P Require Import Prelude Utf8 Paths.

Abbreviation key := N.

Record ChunkRow := MkRow {
  chunk_key : Z;
  file_path : path;
  vector_key : key;
  compressed_text : list N
}.
Abbreviation Table := (list ChunkRow).

(** ** Statements *)

(** [SELECT vector_key FROM chunks WHERE file_path = ?1] *)
Definition chunk_vector_keys_for_file (t : Table) (f : path) : list key :=
  vector_key <$> filter (fun r => file_path r = f) t.
(** [DELETE FROM chunks WHERE file_path = ?1] *)
Definition delete_file (t : Table) (f : path) : Table := filter (fun r => file_path r <> f) t.
(** [SELECT COALESCE(MAX(rowid), 0) FROM chunks] *)
Definition max_rowid (t : Table) : Z := foldr (fun r m => Z.max (chunk_key r) m) 0%Z t.
(** [INSERT INTO chunks]: SQLite numbers a row after the largest rowid. *)
Definition insert_chunk (t : Table) (f : path) (chunk : key * list N) : Table :=
  t ++ [MkRow (max_rowid t + 1) f chunk.1 chunk.2].
Definition insert_chunks (t : Table) (f : path) (chunks : list (key * list N)) : Table :=
  foldl (fun t chunk => insert_chunk t f chunk) t chunks.

(** [SELECT EXISTS(SELECT 1 FROM chunks WHERE ...)] *)
Definition file_present (t : Table) (f : path) : bool := existsb (fun r => bool_decide (file_path r = f)) t.
Definition key_present (t : Table) (k : key) : bool := existsb (fun r => bool_decide (vector_key r = k)) t.

Definition keys_of (t : Table) : gset key := list_to_set (vector_key <$> t).
Definition files_of (t : Table) : gset path := list_to_set (file_path <$> t).

(** [COUNT] over all rows, over distinct paths and over distinct vector keys. *)
Definition count_rows (t : Table) : Z := Z.of_nat (length t).
Definition count_files (t : Table) : Z := Z.of_nat (size (files_of t)).
Definition count_keys (t : Table) : Z := Z.of_nat (size (keys_of t)).

(** ** Facts *)

Lemma key_present_spec t k : key_present t k = bool_decide (k ∈ keys_of t).
Proof.
  unfold key_present, keys_of. apply eq_true_iff_eq. rewrite existsb_exists, bool_decide_eq_true.
  rewrite elem_of_list_to_set, list_elem_of_fmap. setoid_rewrite <- list_elem_of_In.
  setoid_rewrite bool_decide_eq_true. naive_solver.
Qed.
Lemma file_present_spec t f : file_present t f = bool_decide (f ∈ files_of t).
Proof.
  unfold file_present, files_of. apply eq_true_iff_eq. rewrite existsb_exists, bool_decide_eq_true.
  rewrite elem_of_list_to_set, list_elem_of_fmap. setoid_rewrite <- list_elem_of_In.
  setoid_rewrite bool_decide_eq_true. naive_solver.
Qed.

Lemma keys_of_app t u : keys_of (t ++ u) = keys_of t ∪ keys_of u.
Proof. unfold keys_of. by rewrite fmap_app, list_to_set_app_L. Qed.
Lemma files_of_app t u : files_of (t ++ u) = files_of t ∪ files_of u.
Proof. unfold files_of. by rewrite fmap_app, list_to_set_app_L. Qed.

Lemma insert_chunks_rows t f chunks :
  exists rows, insert_chunks t f chunks = t ++ rows /\
    vector_key <$> rows = chunks.*1 /\ Forall (fun r => file_path r = f) rows.
Proof.
  revert t. induction chunks as [|c chunks IH]; intros t; cbn [insert_chunks foldl].
  - exists []. by rewrite app_nil_r.
  - destruct (IH (insert_chunk t f c)) as (rows & Heq & Hk & Hf). unfold insert_chunks in Heq. rewrite Heq.
    eexists (_ :: rows). unfold insert_chunk. rewrite <- app_assoc. split; [done|]. cbn. rewrite Hk. auto.
Qed.

Lemma keys_insert t f chunks : keys_of (insert_chunks t f chunks) = keys_of t ∪ list_to_set chunks.*1.
Proof.
  destruct (insert_chunks_rows t f chunks) as (rows & -> & Hk & _). rewrite keys_of_app.
  unfold keys_of at 2. by rewrite Hk.
Qed.
Lemma files_insert t f chunks :
  files_of (insert_chunks t f chunks) = files_of t ∪ (if decide (chunks = []) then ∅ else {[f]}).
Proof.
  destruct (insert_chunks_rows t f chunks) as (rows & -> & Hk & Hf). rewrite files_of_app. f_equal.
  unfold files_of. destruct chunks as [|c chunks]; cbn in Hk.
  - by destruct rows.
  - destruct rows as [|r rows]; [done|]. cbn. inversion Hf as [|? ? Hr Hrs]; subst.
    rewrite decide_False by done. apply set_eq. intros x. rewrite elem_of_union, elem_of_list_to_set, list_elem_of_fmap, !elem_of_singleton.
    rewrite Forall_forall in Hrs. split; [|by auto]. intros [Hx|(r' & Hx & Hr')]; [congruence|].
    rewrite Hx. by apply Hrs.
Qed.
Lemma length_insert t f chunks : length (insert_chunks t f chunks) = length t + length chunks.
Proof.
  destruct (insert_chunks_rows t f chunks) as (rows & -> & Hk & _). rewrite length_app. f_equal.
  rewrite <- (length_fmap vector_key), Hk. by rewrite length_fmap.
Qed.

Lemma delete_split t f : length t = length (delete_file t f) + length (chunk_vector_keys_for_file t f).
Proof.
  unfold delete_file, chunk_vector_keys_for_file. rewrite length_fmap.
  induction t as [|r t IH]; [done|]. rewrite !filter_cons. repeat case_decide; cbn [length]; try done; lia.
Qed.
Lemma files_delete t f : files_of (delete_file t f) = files_of t ∖ {[f]}.
Proof.
  unfold files_of, delete_file. apply set_eq. intros x.
  rewrite elem_of_difference, elem_of_singleton, !elem_of_list_to_set, !list_elem_of_fmap.
  setoid_rewrite list_elem_of_filter. naive_solver.
Qed.
Lemma keys_delete t f k :
  k ∈ keys_of t <-> k ∈ keys_of (delete_file t f) \/ k ∈ chunk_vector_keys_for_file t f.
Proof.
  unfold keys_of, delete_file, chunk_vector_keys_for_file.
  rewrite !elem_of_list_to_set, !list_elem_of_fmap. setoid_rewrite list_elem_of_filter.
  split; [|naive_solver]. intros (r & Hr & Hin). destruct (decide (file_path r = f)); naive_solver.
Qed.
Lemma keys_of_file_present t f : is_none (head (chunk_vector_keys_for_file t f)) = negb (file_present t f).
Proof.
  unfold chunk_vector_keys_for_file, file_present. induction t as [|r t IH]; [done|].
  rewrite filter_cons. cbn [existsb]. case_decide; case_bool_decide; try done.
Qed.

(** Rowids are positive and increase along the table. *)
Definition numbered (t : Table) : Prop :=
  StronglySorted (fun a b => (chunk_key a < chunk_key b)%Z) t /\ Forall (fun r => (0 < chunk_key r)%Z) t.

Lemma max_rowid_spec t : (0 <= max_rowid t)%Z /\ Forall (fun r => (chunk_key r <= max_rowid t)%Z) t.
Proof.
  induction t as [|r t [IH1 IH2]]; cbn [max_rowid foldr]; [done|]. fold (max_rowid t). split; [lia|].
  constructor; [lia|]. eapply Forall_impl; [exact IH2|]. cbn. lia.
Qed.
Lemma numbered_insert t f chunks : numbered t -> numbered (insert_chunks t f chunks).
Proof.
  revert t. induction chunks as [|c chunks IH]; intros t Ht; [done|]. apply (IH (insert_chunk t f c)).
  destruct Ht as [Hs Hp]. destruct (max_rowid_spec t) as [H0 Hm]. unfold insert_chunk. split.
  - apply StronglySorted_app_2; [|done|by repeat constructor]. intros a b Ha Hb%list_elem_of_singleton.
    rewrite Forall_forall in Hm. specialize (Hm a Ha). subst b. cbn. lia.
  - apply Forall_app. split; [done|]. constructor; [cbn; lia|done].
Qed.
Lemma numbered_delete t f : numbered t -> numbered (delete_file t f).
Proof.
  intros [Hs Hp]. unfold delete_file. split; [|by apply Forall_filter_keep].
  clear Hp. induction Hs as [|r t Hs IH Hr]; [constructor|]. rewrite filter_cons. case_decide; [|done].
  constructor; [done|]. by apply Forall_filter_keep.
Qed.
