(* ===== verification/IndexStats.v ===== *)
(** * Incremental statistics: [IncrementalStatsDelta] of indexer.rs.

  An update keeps the counts of an index current without scanning the table: it remembers,
  for each path and each of at most 512 vector keys it touches, whether the table held it
  when tracking began; beyond that the keys are counted by a scan.  [final_counts] is exact
  after any sequence of removals, insertions and checkpoints ([run_counts_exact]). *)
From S2P Require Import Prelude Utf8 Paths ChunkTable.
Local Open Scope Z_scope.

Definition MAX_TRACKED_INCREMENTAL_VECTOR_KEYS : nat := 512.

(** The table [_stats] of the index. *)
Abbreviation StatsTable := (gmap string Z).

Record IncrementalStatsDelta := MkDelta {
  base_chunk_count : Z;
  base_file_count : Z;
  base_vector_key_count : Z;
  chunk_delta : Z;
  initial_file_presence : gmap path bool;
  initial_vector_key_presence : gmap key bool;
  vector_key_count_requires_full_scan : bool
}.

(** [None] when a count is missing, which sends the run to full counts. *)
Definition load (stats : StatsTable) : option IncrementalStatsDelta :=
  base_chunk_count ← stats !! "chunk_count"%string;
  base_file_count ← stats !! "file_count"%string;
  base_vector_key_count ← stats !! "vector_key_count"%string;
  Some (MkDelta base_chunk_count base_file_count base_vector_key_count 0 ∅ ∅ false).

(** [HashMap::entry(k).or_insert(v)] *)
Definition or_insert {K} `{Countable K} (k : K) (v : bool) (m : gmap K bool) : gmap K bool :=
  match m !! k with Some _ => m | None => <[k := v]> m end.

(** One key of the loops of [record_removal] and [record_insertion]: [present] is [true]
    for a removed key and asks the table for an inserted one. *)
Definition track_key (present : key -> bool) (tracked : gmap key bool * bool) (k : key) : gmap key bool * bool :=
  let '(m, full_scan) := tracked in
  if full_scan || is_some (m !! k) then (m, full_scan)
  else if (MAX_TRACKED_INCREMENTAL_VECTOR_KEYS <=? size m)%nat then (∅, true)
  else (<[k := present k]> m, full_scan).
Definition track_keys (present : key -> bool) (keys : list key) (d : IncrementalStatsDelta) : gmap key bool * bool :=
  foldl (track_key present) (initial_vector_key_presence d, vector_key_count_requires_full_scan d) keys.

Definition record_removal (d : IncrementalStatsDelta) (rel_path : path) (vector_keys : list key) :
    IncrementalStatsDelta :=
  let '(keys, full_scan) := track_keys (fun _ => true) vector_keys d in
  MkDelta (base_chunk_count d) (base_file_count d) (base_vector_key_count d)
    (chunk_delta d - Z.of_nat (length vector_keys))
    (or_insert (index_path_string rel_path) (negb (is_none (head vector_keys))) (initial_file_presence d))
    keys full_scan.

(** Called before the rows are inserted, so the table still shows what was there. *)
Definition record_insertion (t : Table) (d : IncrementalStatsDelta) (rel_path : path) (vector_keys : list key) :
    IncrementalStatsDelta :=
  let '(keys, full_scan) := track_keys (key_present t) vector_keys d in
  MkDelta (base_chunk_count d) (base_file_count d) (base_vector_key_count d)
    (chunk_delta d + Z.of_nat (length vector_keys))
    (or_insert (index_path_string rel_path) false (initial_file_presence d))
    keys full_scan.

(** The sum of [present as i64 - initial as i64] over the tracked entries. *)
Definition presence_delta {K} `{Countable K} (present : K -> bool) (initial : gmap K bool) : Z :=
  map_fold (fun k was acc => acc + (Z.b2z (present k) - Z.b2z was)) 0 initial.

Definition chunk_and_file_counts (t : Table) (d : IncrementalStatsDelta) : Z * Z :=
  (base_chunk_count d + chunk_delta d,
   base_file_count d + presence_delta (file_present t) (initial_file_presence d)).

Definition vector_key_count (t : Table) (d : IncrementalStatsDelta) : Z :=
  if vector_key_count_requires_full_scan d then count_keys t
  else base_vector_key_count d + presence_delta (key_present t) (initial_vector_key_presence d).

Definition put_stats (stats : StatsTable) (counts : Z * Z * Z) : StatsTable :=
  let '(chunk_count, file_count, vector_key_count) := counts in
  <["vector_key_count"%string := vector_key_count]>
    (<["file_count"%string := file_count]> (<["chunk_count"%string := chunk_count]> stats)).

Definition final_counts (t : Table) (d : IncrementalStatsDelta) : Z * Z * Z :=
  let '(chunk_count, file_count) := chunk_and_file_counts t d in
  (chunk_count, file_count, vector_key_count t d).

Definition checkpoint (t : Table) (stats : StatsTable) (d : IncrementalStatsDelta) :
    StatsTable * IncrementalStatsDelta :=
  let '(chunk_count, file_count) := chunk_and_file_counts t d in
  let vector_key_count := vector_key_count t d in
  (put_stats stats (chunk_count, file_count, vector_key_count),
   MkDelta chunk_count file_count vector_key_count 0 ∅ ∅ false).

(** ** What the tracked presence means *)

Section Presence.
Context {K : Type} `{Countable K}.
Implicit Types (A B : gset K) (m : gmap K bool).

(** [m] remembers membership in [B], and [A] differs from [B] only at entries of [m]. *)
Definition remembers m B : Prop := map_Forall (fun k was => was = bool_decide (k ∈ B)) m.
Definition covers m A B : Prop := forall k, m !! k = None -> k ∈ A <-> k ∈ B.

Lemma size_with_one (S T : gset K) k : k ∉ T ->
  Z.of_nat (size (S ∩ ({[k]} ∪ T))) = Z.b2z (bool_decide (k ∈ S)) + Z.of_nat (size (S ∩ T)).
Proof.
  intros Hk. case_bool_decide as Hin.
  - replace (S ∩ ({[k]} ∪ T)) with ({[k]} ∪ S ∩ T) by set_solver.
    rewrite size_union by set_solver. rewrite size_singleton. cbn. lia.
  - by replace (S ∩ ({[k]} ∪ T)) with (S ∩ T) by set_solver.
Qed.
Lemma size_split (S T : gset K) : size S = (size (S ∩ T) + size (S ∖ T))%nat.
Proof.
  rewrite <- size_union by set_solver. f_equal.
  apply set_eq. intros x. destruct (decide (x ∈ T)); set_solver.
Qed.

Lemma presence_delta_spec (present : K -> bool) m A B :
  (forall k, present k = bool_decide (k ∈ A)) -> remembers m B ->
  presence_delta present m = Z.of_nat (size (A ∩ dom m)) - Z.of_nat (size (B ∩ dom m)).
Proof.
  intros HA. unfold presence_delta. induction m as [|k was m Hk Hfold IH] using map_first_key_ind.
  - intros _. rewrite map_fold_empty, dom_empty_L, !intersection_empty_r_L, size_empty. lia.
  - intros HB. apply map_Forall_insert in HB as [-> HB]; [|done].
    rewrite map_fold_insert_first_key by done. rewrite IH by done. rewrite HA, dom_insert_L.
    rewrite !size_with_one by by apply not_elem_of_dom. lia.
Qed.

Lemma presence_delta_exact (present : K -> bool) m A B :
  (forall k, present k = bool_decide (k ∈ A)) -> remembers m B -> covers m A B ->
  Z.of_nat (size B) + presence_delta present m = Z.of_nat (size A).
Proof.
  intros HA HB Hc. rewrite (presence_delta_spec present m A B) by done.
  pose proof (size_split A (dom m)). pose proof (size_split B (dom m)).
  assert (A ∖ dom m = B ∖ dom m) as Heq; [|rewrite Heq in *; lia].
  apply set_eq. intros k. rewrite !elem_of_difference, not_elem_of_dom. specialize (Hc k). naive_solver.
Qed.

Lemma remembers_or_insert m B k v : remembers m B -> (m !! k = None -> v = bool_decide (k ∈ B)) ->
  remembers (or_insert k v m) B.
Proof. unfold or_insert, remembers. intros Hm Hv. case_match; [done|]. apply map_Forall_insert_2; auto. Qed.
Lemma covers_or_insert m A A' B k v :
  covers m A B -> (forall x, x <> k -> x ∈ A' <-> x ∈ A) -> covers (or_insert k v m) A' B.
Proof.
  unfold or_insert, covers. intros Hc HA x Hx. case_match eqn:E.
  - rewrite HA; [auto|congruence].
  - apply lookup_insert_None in Hx as [? ?]. rewrite HA by done. auto.
Qed.
End Presence.

(** ** The counts are exact *)

(** [d] tracks the changes from [t0], whose counts are its base, to [t]. *)
Record tracks (t0 t : Table) (d : IncrementalStatsDelta) : Prop := {
  tracks_base : (base_chunk_count d, base_file_count d, base_vector_key_count d)
                = (count_rows t0, count_files t0, count_keys t0);
  tracks_rows : count_rows t0 + chunk_delta d = count_rows t;
  tracks_files : remembers (initial_file_presence d) (files_of t0) /\
                 covers (initial_file_presence d) (files_of t) (files_of t0);
  tracks_keys : vector_key_count_requires_full_scan d = true \/
                (remembers (initial_vector_key_presence d) (keys_of t0) /\
                 covers (initial_vector_key_presence d) (keys_of t) (keys_of t0))
}.

Definition exact_counts (t : Table) : Z * Z * Z := (count_rows t, count_files t, count_keys t).

Lemma final_counts_tracked t0 t d : tracks t0 t d -> final_counts t d = exact_counts t.
Proof.
  intros [Hb Hr [Hf1 Hf2] Hk]. injection Hb as Hb1 Hb2 Hb3.
  unfold final_counts, chunk_and_file_counts, exact_counts, vector_key_count. rewrite Hb1, Hb2, Hb3, Hr.
  assert (count_files t0 + presence_delta (file_present t) (initial_file_presence d) = count_files t) as ->.
  { apply presence_delta_exact; [apply file_present_spec|done..]. }
  f_equal. destruct (vector_key_count_requires_full_scan d); [done|].
  destruct Hk as [?|[Hk1 Hk2]]; [done|]. apply presence_delta_exact; [apply key_present_spec|done..].
Qed.

(** [_stats] holds the counts of the table. *)
Definition stats_exact (stats : StatsTable) (t : Table) : Prop :=
  stats !! "chunk_count"%string = Some (count_rows t) /\
  stats !! "file_count"%string = Some (count_files t) /\
  stats !! "vector_key_count"%string = Some (count_keys t).

Lemma put_stats_exact stats t : stats_exact (put_stats stats (exact_counts t)) t.
Proof. unfold put_stats, exact_counts, stats_exact. by simplify_map_eq. Qed.

Lemma tracks_refl t a b c : (a, b, c) = exact_counts t -> tracks t t (MkDelta a b c 0 ∅ ∅ false).
Proof.
  intros He. split; cbn; [done|lia|split; [apply map_Forall_empty|done]|].
  right. split; [apply map_Forall_empty|done].
Qed.
Lemma load_tracks stats t d : stats_exact stats t -> load stats = Some d -> tracks t t d.
Proof. intros (H1 & H2 & H3). unfold load. rewrite H1, H2, H3. intros [= <-]. by apply tracks_refl. Qed.

Lemma checkpoint_tracks t0 t stats d stats' d' :
  tracks t0 t d -> checkpoint t stats d = (stats', d') -> stats_exact stats' t /\ tracks t t d'.
Proof.
  intros Ht%final_counts_tracked. revert Ht. unfold final_counts, checkpoint.
  destruct (chunk_and_file_counts t d) as [c f]. intros Ht [= <- <-].
  split; [pose proof (put_stats_exact stats t) as Hp; by rewrite <- Ht in Hp|by apply tracks_refl].
Qed.

(** Tracking keys whose presence in [T] the tests report. *)
Lemma track_keys_full present keys m : foldl (track_key present) (m, true) keys = (m, true).
Proof. by induction keys. Qed.

Lemma track_keys_spec present keys m (T K : gset key) :
  (forall k, k ∈ keys -> present k = bool_decide (k ∈ T)) -> remembers m K -> covers m T K ->
  let '(m', full) := foldl (track_key present) (m, false) keys in
  full = true \/
  (remembers m' K /\ covers m' T K /\ dom m ⊆ dom m' /\ forall k, k ∈ keys -> k ∈ dom m').
Proof.
  revert m. induction keys as [|k keys IH]; intros m Hp Hr Hc.
  - cbn. right. split_and!; [done..|]. by intros k ?%not_elem_of_nil.
  - cbn [foldl track_key]. rewrite orb_false_l.
    assert (forall m1, m ⊆ m1 -> k ∈ dom m1 -> remembers m1 K -> covers m1 T K ->
      let '(m', full) := foldl (track_key present) (m1, false) keys in
      full = true \/ (remembers m' K /\ covers m' T K /\ dom m ⊆ dom m' /\
        forall x, x ∈ k :: keys -> x ∈ dom m')) as Hstep.
    { intros m1 Hsub Hk Hr1 Hc1. specialize (IH m1). destruct (foldl _ (m1, false) keys) as [m' full].
      apply subseteq_dom in Hsub. destruct IH as [?|(H1 & H2 & H3 & H4)];
        [by intros; apply Hp; right|done|done|by left|].
      right. split_and!; [done|done|set_solver|]. intros x [->|Hx]%elem_of_cons; [by apply H3|by apply H4]. }
    destruct (m !! k) as [was|] eqn:E1; cbn [is_some].
    + apply Hstep; try done. by eapply elem_of_dom_2.
    + destruct (_ <=? size m)%nat; [rewrite track_keys_full; by left|].
      apply Hstep; [by apply insert_subseteq|set_solver|..].
      * apply map_Forall_insert_2; [|done]. rewrite Hp by left. apply bool_decide_ext. by apply Hc.
      * intros x [Hx _]%lookup_insert_None. exact (Hc x Hx).
Qed.

(** ** A run of updates *)

(** [remove_file_chunks] and [record_removal], as every caller pairs them. *)
Definition remove_file (t : Table) (d : IncrementalStatsDelta) (f : path) : Table * IncrementalStatsDelta :=
  let keys := chunk_vector_keys_for_file t (index_path_string f) in
  (delete_file t (index_path_string f), record_removal d f keys).
(** [record_insertion], and the rows of the file. *)
Definition add_file (t : Table) (d : IncrementalStatsDelta) (f : path) (chunks : list (key * list N)) :
    Table * IncrementalStatsDelta :=
  (insert_chunks t (index_path_string f) chunks, record_insertion t d f chunks.*1).

Lemma remove_file_tracks t0 t d f t' d' :
  tracks t0 t d -> remove_file t d f = (t', d') -> tracks t0 t' d'.
Proof.
  intros [Hb Hr [Hf1 Hf2] Hk]. unfold remove_file, record_removal, track_keys.
  set (rel := index_path_string f). set (keys := chunk_vector_keys_for_file t rel).
  destruct (foldl _ _ keys) as [m full] eqn:E. intros [= <- <-]. split; cbn.
  - done.
  - unfold count_rows in *. pose proof (delete_split t rel) as Hl. fold keys in Hl. lia.
  - split.
    + apply remembers_or_insert; [done|]. intros Hn. unfold keys. rewrite keys_of_file_present, negb_involutive.
      rewrite file_present_spec. apply bool_decide_ext. by apply Hf2.
    + eapply covers_or_insert; [done|]. intros x Hx. rewrite files_delete. set_solver.
  - destruct (vector_key_count_requires_full_scan d); [rewrite track_keys_full in E; left; congruence|].
    destruct Hk as [?|[Hk1 Hk2]]; [done|].
    pose proof (track_keys_spec (fun _ => true) keys (initial_vector_key_presence d) (keys_of t) (keys_of t0)) as Hs. rewrite E in Hs.
    destruct Hs as [?|(H1 & H2 & H3 & H4)]; [|done..|by left|right; split; [done|]].
    + intros k Hin. symmetry. apply bool_decide_eq_true. apply (keys_delete t rel). by right.
    + intros k Hn. rewrite <- (H2 k Hn). rewrite (keys_delete t rel). split; [by left|].
      intros [?|Hin]; [done|]. apply H4, elem_of_dom in Hin. rewrite Hn in Hin. by destruct Hin.
Qed.

Lemma add_file_tracks t0 t d f chunks t' d' :
  tracks t0 t d -> is_Some (initial_file_presence d !! index_path_string f) ->
  add_file t d f chunks = (t', d') -> tracks t0 t' d'.
Proof.
  intros [Hb Hr [Hf1 Hf2] Hk] [was Hwas]. unfold add_file, record_insertion, track_keys.
  set (rel := index_path_string f) in *.
  destruct (foldl _ _ chunks.*1) as [m full] eqn:E. intros [= <- <-]. split; cbn.
  - done.
  - unfold count_rows in *. rewrite length_insert, length_fmap. lia.
  - unfold or_insert. rewrite Hwas. split; [done|]. intros x Hx. rewrite <- (Hf2 x Hx).
    rewrite files_insert. case_decide; set_solver.
  - destruct (vector_key_count_requires_full_scan d); [rewrite track_keys_full in E; left; congruence|].
    destruct Hk as [?|[Hk1 Hk2]]; [done|].
    pose proof (track_keys_spec (key_present t) chunks.*1 (initial_vector_key_presence d) (keys_of t) (keys_of t0)) as Hs. rewrite E in Hs.
    destruct Hs as [?|(H1 & H2 & H3 & H4)]; [|done..|by left|right; split; [done|]].
    + intros k _. apply key_present_spec.
    + intros k Hn. rewrite <- (H2 k Hn). rewrite keys_insert, elem_of_union, elem_of_list_to_set.
      split; [|by left]. intros [?|Hin]; [done|]. apply H4, elem_of_dom in Hin. rewrite Hn in Hin. by destruct Hin.
Qed.
