(* ===== verification/Tombstones.v ===== *)
(** * Deletion journals of the vector stores: the tombstones of indexer.rs.

  The keys a transaction removes from the table are appended to a journal file per
  vector tier, one decimal key to a line, and synced before the transaction commits.  The
  worker that owns a tier claims the journal by renaming it and reads its keys.  An
  interrupted append leaves part of its payload, perhaps followed by zeros; what
  [claim_keys] makes of any such file is [claim_interrupted]. *)
From S2P Require Import Prelude Utf8 Decimal Paths Decoding ChunkTable.

Definition MAX_VECTOR_TOMBSTONE_TRANSACTION_BYTES : Z := 1024 * 1024.

(** ** Recording *)

Record VectorTombstoneJournals := MkJournals {
  has_neural_path : bool;
  pending_payload : list N;
  max_pending_bytes : Z
}.

Definition with_max_pending_bytes (neural : bool) (max_bytes : Z) : VectorTombstoneJournals :=
  MkJournals neural [] (Z.max max_bytes 1).

(** [writeln!("{key}")] *)
Definition key_line (k : key) : list N := format_int (Z.of_N k) ++ [10%N].
Definition payload (keys : list key) : list N := concat (map key_line keys).

Definition record_keys (j : VectorTombstoneJournals) (keys : list key) : VectorTombstoneJournals :=
  MkJournals (has_neural_path j) (pending_payload j ++ payload keys) (max_pending_bytes j).

Definition should_checkpoint (j : VectorTombstoneJournals) : bool :=
  (max_pending_bytes j <=? Z.of_nat (length (pending_payload j)))%Z.

(** ** Flushing: the appends that reach the disk, in order *)

Inductive Tier := Hash | Neural.
#[global] Instance tier_eq_dec : EqDecision Tier.
Proof. solve_decision. Defined.

Definition flush (j : VectorTombstoneJournals) : list (Tier * list N) * VectorTombstoneJournals :=
  match pending_payload j with
  | [] => ([], j)
  | p => ((Hash, p) :: (if has_neural_path j then [(Neural, p)] else []),
          MkJournals (has_neural_path j) [] (max_pending_bytes j))
  end.

(** The content of a journal file after an append: the file is created when missing. *)
Definition append (file : option (list N)) (p : list N) : option (list N) := Some (unwrap_or [] file ++ p).

(** ** Claiming *)

(** [Iterator::rposition] *)
Fixpoint rposition (P : N -> bool) (l : list N) : option nat :=
  match l with
  | [] => None
  | b :: l =>
    match rposition P l with
    | Some i => Some (S i)
    | None => if P b then Some 0 else None
    end
  end.
Definition up_to_last (P : N -> bool) (l : list N) : list N :=
  take (match rposition P l with None => 0 | Some last => last + 1 end) l.

Inductive ClaimError := RenameFailed | ReadFailed | BadUtf8 | BadKey.

Definition claim_keys (journal : list N) : Result ClaimError (list key) :=
  let written := up_to_last (fun b => negb (b =? 0)%N) journal in
  let complete := up_to_last (fun b => b =? 10)%N written in
  match from_utf8 complete with
  | Invalid _ _ => Err BadUtf8
  | Valid => of_option BadKey (mapM (fun line => Z.to_N <$> parse_u64 line) (str_lines (lossy_chars complete)))
  end.

(** The answers of the file system: whether the rename or the read fails. *)
Definition claim_vector_tombstones (rename_fails read_fails : bool) (pending processing : option (list N)) :
    Result ClaimError (option (list key)) * (option (list N) * option (list N)) :=
  match processing with
  | Some journal =>
    (if read_fails then Err ReadFailed else Some <$> claim_keys journal, (pending, processing))
  | None =>
    match pending with
    | None => (Ok None, (None, None))
    | Some journal =>
      if rename_fails then (Err RenameFailed, (pending, None))
      else (if read_fails then Err ReadFailed else Some <$> claim_keys journal, (None, Some journal))
    end
  end.

(** ** What is read back *)

Definition in_range (k : key) : Prop := (k < 2 ^ 64)%N.

Lemma rposition_last P a x z : P x = true -> Forall (fun b => P b = false) z -> rposition P (a ++ x :: z) = Some (length a).
Proof.
  intros Hx Hz. assert (rposition P z = None) as Hn.
  { induction Hz as [|b z Hb Hz IH]; cbn [rposition]; [done|]. by rewrite IH, Hb. }
  induction a as [|b a IH]; cbn [rposition app length].
  - by rewrite Hn, Hx.
  - by rewrite IH.
Qed.
Lemma rposition_none P z : Forall (fun b => P b = false) z -> rposition P z = None.
Proof. induction 1 as [|b z Hb Hz IH]; cbn [rposition]; [done|]. by rewrite IH, Hb. Qed.
Lemma up_to_last_spec P a x z :
  P x = true -> Forall (fun b => P b = false) z -> up_to_last P ((a ++ [x]) ++ z) = a ++ [x].
Proof.
  intros Hx Hz. unfold up_to_last. rewrite <- app_assoc. cbn [app]. rewrite rposition_last by done.
  rewrite cons_middle, app_assoc. rewrite take_app_le by (rewrite length_app; cbn; lia).
  apply take_ge. rewrite length_app. cbn. lia.
Qed.
Lemma up_to_last_none P z : Forall (fun b => P b = false) z -> up_to_last P z = [].
Proof. intros Hz. unfold up_to_last. by rewrite rposition_none. Qed.

Abbreviation digits := (Forall (fun c => is_ascii_digit c = true)).

Lemma key_digits k : digits (format_int (Z.of_N k)).
Proof. unfold format_int. destruct (Z.ltb_spec (Z.of_N k) 0); [lia|]. apply format_nat_digits. lia. Qed.

Lemma digit_range c : is_ascii_digit c = true -> (48 <= c <= 57)%N.
Proof. unfold is_ascii_digit, between. intros. bool_to_prop. split; done. Qed.

Lemma payload_app ks ks' : payload (ks ++ ks') = payload ks ++ payload ks'.
Proof. unfold payload. by rewrite map_app, concat_app. Qed.
Lemma payload_last ks : ks <> [] -> exists a, payload ks = a ++ [10%N].
Proof.
  destruct ks as [|k ks _] using rev_ind; [done|]. intros _. rewrite payload_app. cbn.
  rewrite app_nil_r. unfold key_line. rewrite app_assoc. by eexists.
Qed.
Lemma payload_ascii ks : forallb is_ascii (payload ks) = true.
Proof.
  unfold payload. induction ks as [|k ks IH]; [done|]. cbn [map concat]. rewrite forallb_app, IH, andb_true_r.
  unfold key_line. rewrite forallb_app. apply andb_true_iff. split; [|done]. apply forallb_forall.
  intros c Hc%list_elem_of_In. pose proof (key_digits k) as Hd. rewrite Forall_forall in Hd.
  specialize (Hd c Hc). apply digit_range in Hd. unfold is_ascii. apply N.ltb_lt. lia.
Qed.

(** On ASCII the decoder is the identity. *)
Lemma utf8_step_ascii b l : is_ascii b = true -> utf8_step (b :: l) = Some (true, 1).
Proof. unfold is_ascii, utf8_step. by intros ->. Qed.
Lemma from_utf8_ascii l : forallb is_ascii l = true -> from_utf8 l = Valid.
Proof.
  unfold from_utf8. generalize 0. induction l as [|b l IH]; intros pos Hl; [done|].
  cbn [forallb length from_utf8_loop] in *. apply andb_true_iff in Hl as [Hb Hl].
  rewrite utf8_step_ascii by done. by apply IH.
Qed.
Lemma lossy_chars_ascii l : forallb is_ascii l = true -> lossy_chars l = l.
Proof.
  induction l as [|b l IH]; intros Hl; [done|]. cbn [forallb] in Hl. apply andb_true_iff in Hl as [Hb Hl].
  rewrite lossy_chars_step, utf8_step_ascii by done. cbn [take drop decode_char]. f_equal. by apply IH.
Qed.

Lemma digits_no_newline w : digits w -> 10%N ∉ w.
Proof. rewrite Forall_forall. intros Hw Hin. by specialize (Hw _ Hin). Qed.
Lemma strip_cr_digits w : digits w -> strip_cr w = w.
Proof.
  intros Hw. unfold strip_cr. rewrite strip_suffix_none; [done|].
  rewrite Forall_forall in Hw. intros Hin. by specialize (Hw _ Hin).
Qed.
Lemma lines_payload ks : str_lines (payload ks) = map (fun k => format_int (Z.of_N k)) ks.
Proof.
  unfold str_lines, payload. induction ks as [|k ks IH]; [done|]. cbn [map concat]. unfold key_line at 1.
  pose proof (key_digits k) as Hd.
  rewrite <- app_assoc, lines_loop_plain by by apply digits_no_newline. cbn [app lines_loop N.eqb Pos.eqb].
  rewrite strip_cr_digits, IH; done.
Qed.
Lemma parse_payload ks : Forall in_range ks ->
  mapM (fun line => Z.to_N <$> parse_u64 line) (map (fun k => format_int (Z.of_N k)) ks) = Some ks.
Proof.
  induction 1 as [|k ks Hk Hks IH]; [done|]. cbn [map mapM]. unfold in_range in Hk.
  unfold parse_u64. rewrite parse_format_int by (unfold U64_MAX; lia). cbn. rewrite N2Z.id.
  unfold parse_u64 in IH. by rewrite IH.
Qed.

(** Complete lines, an unfinished one, and zeros: what an interrupted append can leave. *)
Lemma claim_keys_tail ks partial z :
  Forall in_range ks -> digits partial -> claim_keys (payload ks ++ partial ++ repeat 0%N z) = Ok ks.
Proof.
  intros Hks Hp. unfold claim_keys.
  assert (Forall (fun b => negb (b =? 0)%N = false) (repeat 0%N z)) as Hz by by induction z; constructor.
  assert (up_to_last (fun b => negb (b =? 0)%N) (payload ks ++ partial ++ repeat 0%N z) = payload ks ++ partial) as ->.
  { rewrite app_assoc. destruct partial as [|d partial _] using rev_ind.
    - rewrite app_nil_r. destruct (decide (ks = [])) as [->|Hn]; [by apply up_to_last_none|].
      destruct (payload_last ks Hn) as [a ->]. by apply up_to_last_spec.
    - apply Forall_app in Hp as [_ Hd%Forall_singleton%digit_range]. rewrite (app_assoc (payload ks)).
      apply up_to_last_spec; [|done]. apply negb_true_iff, N.eqb_neq. lia. }
  assert (up_to_last (fun b => b =? 10)%N (payload ks ++ partial) = payload ks) as ->.
  { assert (Forall (fun b => (b =? 10)%N = false) partial) as Hn.
    { eapply Forall_impl; [exact Hp|]. intros c Hc%digit_range. apply N.eqb_neq. lia. }
    destruct (decide (ks = [])) as [->|Hne]; [by apply up_to_last_none|].
    destruct (payload_last ks Hne) as [a ->]. by apply up_to_last_spec. }
  rewrite from_utf8_ascii, lossy_chars_ascii by apply payload_ascii.
  by rewrite lines_payload, parse_payload.
Qed.

Lemma payload_prefix ks n :
  exists i partial, take n (payload ks) = payload (take i ks) ++ partial /\ digits partial.
Proof.
  revert n. induction ks as [|k ks IH]; intros n.
  - exists 0, []. split; [by destruct n|constructor].
  - change (payload (k :: ks)) with (key_line k ++ payload ks).
    destruct (Nat.lt_ge_cases n (length (key_line k))) as [Hn|Hn].
    + exists 0, (take n (format_int (Z.of_N k))). unfold key_line in *. rewrite length_app in Hn. cbn [length] in Hn.
      rewrite take_app_le by (rewrite length_app; lia). rewrite take_app_le by lia.
      split; [done|]. apply Forall_take, key_digits.
    + destruct (IH (n - length (key_line k))) as (i & partial & Heq & Hp). exists (S i), partial.
      rewrite take_app_ge, Heq by lia. split; [|done]. by rewrite app_assoc.
Qed.

Lemma claim_payload ks : Forall in_range ks -> claim_keys (payload ks) = Ok ks.
Proof.
  intros Hks. pose proof (claim_keys_tail ks [] 0 Hks (Forall_nil_2 _)) as Hc.
  cbn [repeat app] in Hc. by rewrite app_nil_r in Hc.
Qed.

Lemma claim_torn old ks n z : Forall in_range old -> Forall in_range ks ->
  exists i, claim_keys (payload old ++ take n (payload ks) ++ repeat 0%N z) = Ok (old ++ take i ks).
Proof.
  intros Ho Hk. destruct (payload_prefix ks n) as (i & partial & -> & Hp). exists i.
  rewrite <- app_assoc, app_assoc, <- payload_app. apply claim_keys_tail; [|done].
  apply Forall_app. split; [done|by apply Forall_take].
Qed.
