(* ===== verification/IndexPersist.v ===== *)
(** * Publishing an update: the transactions of [index_workspace_inner].

  A run removes the chunks of deleted and changed files and inserts those of the files
  read, in one SQLite transaction after another.  What it makes durable is a sequence of
  events in the order the code issues them: journal appends, SQLite commits, Tantivy
  commits.  A run that fails or dies has issued a prefix of them.  Left out: the graph and
  symbol tables, which follow the same transactions, and everything a document or row
  holds for display. *)
From S2P Require Import Prelude Utf8 Paths ChunkTable IndexStats Tombstones.
Local Open Scope Z_scope.

Definition COMMIT_CHUNKS : Z := 25000.

(** A file as the batch producer delivers it: the vector key and the compressed text of
    each of its chunks. *)
Record IndexedFile := MkFile {
  rel_path : path;
  chunks : list (key * list N)
}.

(** A Tantivy document, by the fields that identify it. *)
Abbreviation Doc := (path * key)%type.

Inductive Durable :=
| Append (tier : Tier) (p : list N)
| CommitSql (rows : Table) (stats : StatsTable) (tombstones : gset path)
| CommitDocs (docs : list Doc).

Record Run := MkRun {
  rows : Table;
  stats_table : StatsTable;
  tombstones : gset path;
  incremental_stats : option IncrementalStatsDelta;
  vector_tombstones : VectorTombstoneJournals;
  writer_docs : list Doc;
  chunks_since_commit : Z;
  total_chunks_processed : Z;
  indexed_files_with_chunks : Z;
  durable : list Durable
}.

Definition set_rows (r : Run) (t : Table) (d : option IncrementalStatsDelta) (j : VectorTombstoneJournals)
    (docs : list Doc) : Run :=
  MkRun t (stats_table r) (tombstones r) d j docs
    (chunks_since_commit r) (total_chunks_processed r) (indexed_files_with_chunks r) (durable r).
Definition set_tombstones (r : Run) (s : gset path) : Run :=
  MkRun (rows r) (stats_table r) s (incremental_stats r) (vector_tombstones r) (writer_docs r)
    (chunks_since_commit r) (total_chunks_processed r) (indexed_files_with_chunks r) (durable r).

(** ** Commits *)

(** [commit_with_vector_tombstones]: the journals are flushed before the commit. *)
Definition commit_with_vector_tombstones (r : Run) (stats : StatsTable) (d : option IncrementalStatsDelta) : Run :=
  let '(appends, j) := flush (vector_tombstones r) in
  MkRun (rows r) stats (tombstones r) d j (writer_docs r)
    (chunks_since_commit r) (total_chunks_processed r) (indexed_files_with_chunks r)
    (durable r ++ map (fun a => Append a.1 a.2) appends ++ [CommitSql (rows r) stats (tombstones r)]).
Definition commit_docs (r : Run) : Run :=
  MkRun (rows r) (stats_table r) (tombstones r) (incremental_stats r) (vector_tombstones r) (writer_docs r)
    (chunks_since_commit r) (total_chunks_processed r) (indexed_files_with_chunks r)
    (durable r ++ [CommitDocs (writer_docs r)]).
Definition reset_chunks (r : Run) : Run :=
  MkRun (rows r) (stats_table r) (tombstones r) (incremental_stats r) (vector_tombstones r) (writer_docs r)
    0 (total_chunks_processed r) (indexed_files_with_chunks r) (durable r).

(** Statistics, journals and SQLite; an incremental run publishes its documents too. *)
Definition checkpoint_run (is_fresh_index : bool) (r : Run) : Run :=
  let '(stats, d) :=
    match incremental_stats r with
    | Some d => let '(stats, d) := checkpoint (rows r) (stats_table r) d in (stats, Some d)
    | None => (stats_table r, None)
    end in
  let r := commit_with_vector_tombstones r stats d in
  if is_fresh_index then r else commit_docs r.

Definition checkpoint_deletion_tombstones (is_fresh_index : bool) (r : Run) : Run :=
  if should_checkpoint (vector_tombstones r) then checkpoint_run is_fresh_index r else r.

(** ** One file *)

Definition remove_file_chunks (r : Run) (rel : path) (retained_keys : option (list key)) : list key * Run :=
  let rel_str := index_path_string rel in
  let keys := chunk_vector_keys_for_file (rows r) rel_str in
  let obsolete :=
    match retained_keys with
    | Some retained => filter (fun k => k ∉ retained) keys
    | None => keys
    end in
  (keys, set_rows r (delete_file (rows r) rel_str) (incremental_stats r)
           (record_keys (vector_tombstones r) obsolete)
           (filter (fun d => d.1 <> rel_str) (writer_docs r))).

(** The removal and its statistics, as every caller pairs them. *)
Definition remove_indexed (r : Run) (rel : path) (retained_keys : option (list key)) : Run :=
  let '(removed_keys, r) := remove_file_chunks r rel retained_keys in
  set_rows r (rows r) ((fun d => record_removal d rel removed_keys) <$> incremental_stats r)
    (vector_tombstones r) (writer_docs r).

Definition insert_indexed (r : Run) (f : IndexedFile) : Run :=
  let rel_str := index_path_string (rel_path f) in
  set_rows r (insert_chunks (rows r) rel_str (chunks f))
    ((fun d => record_insertion (rows r) d (rel_path f) (chunks f).*1) <$> incremental_stats r)
    (vector_tombstones r) (writer_docs r ++ map (fun c => (rel_str, c.1)) (chunks f)).

Definition count_chunks (r : Run) (f : IndexedFile) : Run :=
  let n := Z.of_nat (length (chunks f)) in
  MkRun (rows r) (stats_table r) (tombstones r) (incremental_stats r) (vector_tombstones r) (writer_docs r)
    (chunks_since_commit r + n) (total_chunks_processed r + n)
    (indexed_files_with_chunks r + Z.b2z (negb (is_none (head (chunks f))))) (durable r).

Definition store_file (is_fresh_index : bool) (r : Run) (f : IndexedFile) : Run :=
  let r := count_chunks r f in
  insert_indexed (if is_fresh_index then r else remove_indexed r (rel_path f) (Some (chunks f).*1)) f.

Definition persist_file (is_fresh_index : bool) (r : Run) (f : IndexedFile) : Run :=
  let r := store_file is_fresh_index r f in
  if (COMMIT_CHUNKS <=? chunks_since_commit r) || should_checkpoint (vector_tombstones r)
  then reset_chunks (checkpoint_run is_fresh_index r) else r.

(** ** Deletions, and what an overlay shadows *)

Section Update.
Context (use_overlay is_fresh_index : bool).
(** The keys of the base index's snapshot. *)
Context (base_files : list N -> bool).

Definition path_exists_in_base (rel : path) : bool := base_files (index_path_string rel).

Definition tombstone_insert (rel : path) (r : Run) : Run :=
  set_tombstones r ({[index_path_string rel]} ∪ tombstones r).
Definition tombstone_delete (rel : path) (r : Run) : Run :=
  set_tombstones r (tombstones r ∖ {[index_path_string rel]}).

Definition clear_path (r : Run) (rel : path) : Run :=
  checkpoint_deletion_tombstones is_fresh_index (tombstone_delete rel (remove_indexed r rel None)).
Definition delete_path (r : Run) (rel : path) : Run :=
  let r := remove_indexed r rel None in
  checkpoint_deletion_tombstones is_fresh_index
    (if use_overlay then
       if path_exists_in_base rel then tombstone_insert rel r else tombstone_delete rel r
     else r).
Definition shadow_path (r : Run) (rel : path) : Run :=
  if path_exists_in_base rel then tombstone_insert rel r else r.

Definition run_deletions (clear_overlay_paths deleted added_or_modified : list path) (r : Run) : Run :=
  if use_overlay then
    foldl shadow_path (foldl delete_path (foldl clear_path r clear_overlay_paths) deleted) added_or_modified
  else foldl delete_path r deleted.

(** ** The run *)

Definition begin_run (t : Table) (stats : StatsTable) (tombs : gset path) (docs : list Doc)
    (j : VectorTombstoneJournals) : Run :=
  MkRun t stats tombs (if is_fresh_index then None else load stats) j docs 0 0 0 [].

Definition finish_run (r : Run) : Run :=
  let counts :=
    match incremental_stats r with
    | Some d => final_counts (rows r) d
    | None => (total_chunks_processed r, indexed_files_with_chunks r, count_keys (rows r))
    end in
  commit_docs (commit_with_vector_tombstones r (put_stats (stats_table r) counts) None).

Definition run_update (clear_overlay_paths deleted added_or_modified : list path) (files : list IndexedFile)
    (r : Run) : Run :=
  finish_run (foldl (persist_file is_fresh_index)
    (run_deletions clear_overlay_paths deleted added_or_modified r) files).
End Update.

(** What the producer guarantees: keys are 64-bit, and a diff lists a path once. *)
Definition keys_in_range (f : IndexedFile) : Prop := Forall in_range (chunks f).*1.
Definition distinct_files (files : list IndexedFile) : Prop :=
  NoDup (map (fun f => index_path_string (rel_path f)) files).

(** ** The disk *)

Record Disk := MkDisk {
  d_rows : Table;
  d_stats : StatsTable;
  d_tombstones : gset path;
  d_docs : list Doc;
  d_journal : Tier -> option (list N)
}.

Definition apply_durable (d : Disk) (e : Durable) : Disk :=
  match e with
  | Append tier p =>
    MkDisk (d_rows d) (d_stats d) (d_tombstones d) (d_docs d)
      (fun t => if decide (t = tier) then append (d_journal d t) p else d_journal d t)
  | CommitSql rows stats tombs => MkDisk rows stats tombs (d_docs d) (d_journal d)
  | CommitDocs docs => MkDisk (d_rows d) (d_stats d) (d_tombstones d) docs (d_journal d)
  end.
Definition replay (d : Disk) (events : list Durable) : Disk := foldl apply_durable d events.

(** * What every step of an update keeps: statistics, documents and journals.

  The durable events of a run are replayed on a disk.  Every SQLite commit carries exact
  statistics ([stats_stable]), every Tantivy commit publishes the documents of the rows
  last committed ([docs_stable]), and after any prefix of the events each vector key that
  was kept is still a key of the rows or of the journal of its tier ([journal_stable]). *)

Lemma replay_app d e1 e2 : replay d (e1 ++ e2) = replay (replay d e1) e2.
Proof. apply foldl_app. Qed.

(** ** Properties every step of a run keeps *)

Record stable (fresh : bool) (F : IndexedFile -> Prop) (P : Run -> Prop) : Prop := {
  stable_remove : forall r rel, P r -> P (remove_indexed r rel None);
  stable_tombstones : forall r s, P r -> P (set_tombstones r s);
  stable_checkpoint : forall r, P r -> P (checkpoint_run fresh r);
  stable_reset : forall r, P r -> P (reset_chunks r);
  stable_insert : forall r f, F f -> P r -> P (store_file fresh r f)
}.

Lemma foldl_keeps {A B} (P : A -> Prop) (f : A -> B -> A) l a :
  (forall a b, P a -> P (f a b)) -> P a -> P (foldl f a l).
Proof. intros Hf Ha. apply fold_left_inv; auto. Qed.

Section Stable.
Context (overlay fresh : bool) (base : list N -> bool) (F : IndexedFile -> Prop) (P : Run -> Prop).
Context (HP : stable fresh F P).

Lemma stable_deletions clear deleted modified r : P r -> P (run_deletions overlay fresh base clear deleted modified r).
Proof using HP.
  intros Hr. destruct HP as [H1 H2 H3 _ _].
  assert (forall r, P r -> P (checkpoint_deletion_tombstones fresh r)) as Hc.
  { intros r' Hr'. unfold checkpoint_deletion_tombstones. case_match; auto. }
  assert (forall r rel, P r -> P (delete_path overlay fresh base r rel)) as Hd.
  { intros r' rel Hr'. unfold delete_path. apply Hc. repeat case_match; try apply H2; auto. }
  unfold run_deletions. destruct overlay; [|by apply foldl_keeps].
  apply foldl_keeps.
  { intros r' rel Hr'. unfold shadow_path. case_match; [by apply H2|done]. }
  apply foldl_keeps; [done|]. apply foldl_keeps; [|done].
  intros r' rel Hr'. unfold clear_path. apply Hc, H2. auto.
Qed.

Lemma stable_files files r : Forall F files -> P r -> P (foldl (persist_file fresh) r files).
Proof using HP.
  rewrite Forall_forall. intros HF Hr. destruct HP as [_ _ H3 H4 H5].
  apply fold_left_inv; [done|]. intros r' f Hf%HF Hr'. apply (H5 r' f Hf) in Hr'. unfold persist_file. destruct (_ || _); auto.
Qed.
End Stable.

(** ** Statistics *)

(** The statistics count the rows they are committed with. *)
Definition exact_commits (events : list Durable) : Prop :=
  Forall (fun e => match e with CommitSql t stats _ => stats_exact stats t | _ => True end) events.

Definition stats_inv (r : Run) : Prop :=
  exact_commits (durable r) /\ exists t0 d, incremental_stats r = Some d /\ tracks t0 (rows r) d.

Lemma exact_commits_flush j : exact_commits (map (fun a => Append a.1 a.2) (flush j).1).
Proof. unfold flush. destruct (pending_payload j); [constructor|]. cbn. by case_match; repeat constructor. Qed.

Lemma exact_commit r stats d : exact_commits (durable r) -> stats_exact stats (rows r) ->
  exact_commits (durable (commit_with_vector_tombstones r stats d)).
Proof.
  intros He Hs. unfold commit_with_vector_tombstones. pose proof (exact_commits_flush (vector_tombstones r)) as Hf.
  destruct (flush _) as [appends j]. cbn in *. apply Forall_app. split; [done|].
  apply Forall_app. split; [done|]. constructor; [done|constructor].
Qed.

Lemma commit_rows r stats d : rows (commit_with_vector_tombstones r stats d) = rows r.
Proof. unfold commit_with_vector_tombstones. by destruct (flush _). Qed.
Lemma commit_stats r stats d : incremental_stats (commit_with_vector_tombstones r stats d) = d.
Proof. unfold commit_with_vector_tombstones. by destruct (flush _). Qed.
Lemma commit_writer r stats d : writer_docs (commit_with_vector_tombstones r stats d) = writer_docs r.
Proof. unfold commit_with_vector_tombstones. by destruct (flush _). Qed.

Lemma stats_stable : stable false (fun _ => True) stats_inv.
Proof.
  split.
  - intros r rel (He & t0 & d & Hd & Ht). split; [done|]. exists t0. cbn. rewrite Hd. cbn. eexists. split; [done|].
    by eapply remove_file_tracks.
  - intros r s (He & t0 & d & Hd & Ht). split; [done|]. by exists t0, d.
  - intros r (He & t0 & d & Hd & Ht). unfold checkpoint_run. rewrite Hd.
    destruct (checkpoint (rows r) (stats_table r) d) as [stats d'] eqn:E.
    destruct (checkpoint_tracks _ _ _ _ _ _ Ht E) as [Hs Ht']. split.
    + cbn. apply Forall_app. split; [by apply exact_commit|by repeat constructor].
    + exists (rows r), d'. cbn. by rewrite commit_stats, commit_rows.
  - intros r Hr. done.
  - intros r f _ (He & t0 & d & Hd & Ht). split; [done|]. exists t0. unfold store_file. cbn. rewrite Hd. cbn.
    eexists. split; [done|]. eapply add_file_tracks; [by eapply remove_file_tracks| |done].
    unfold record_removal, or_insert. destruct (track_keys _ _ _). cbn.
    case_match; [by eexists|]. simplify_map_eq. by eexists.
Qed.

Lemma checkpoint_commits fresh r :
  exists stats d, checkpoint_run fresh r =
    let r' := commit_with_vector_tombstones r stats d in if fresh then r' else commit_docs r'.
Proof.
  unfold checkpoint_run. destruct (incremental_stats r) as [d|]; [|by do 2 eexists].
  destruct (checkpoint _ _ d). by do 2 eexists.
Qed.

(** ** Documents *)

Definition doc_of (r : ChunkRow) : Doc := (file_path r, vector_key r).
Definition docs_of (t : Table) : list Doc := doc_of <$> t.

(** Tantivy's documents are the rows of the transaction last committed. *)
Fixpoint docs_follow (t : Table) (events : list Durable) : Prop :=
  match events with
  | [] => True
  | Append _ _ :: events => docs_follow t events
  | CommitSql t _ _ :: events => docs_follow t events
  | CommitDocs docs :: events => docs ≡ₚ docs_of t /\ docs_follow t events
  end.
Fixpoint last_rows (t : Table) (events : list Durable) : Table :=
  match events with
  | [] => t
  | CommitSql t _ _ :: events => last_rows t events
  | _ :: events => last_rows t events
  end.

Lemma docs_follow_app t e1 e2 : docs_follow t (e1 ++ e2) <-> docs_follow t e1 /\ docs_follow (last_rows t e1) e2.
Proof. revert t. induction e1 as [|[] e1 IH]; intros t; cbn; [tauto|apply IH..|rewrite IH; tauto]. Qed.
Lemma last_rows_app t e1 e2 : last_rows t (e1 ++ e2) = last_rows (last_rows t e1) e2.
Proof. revert t. induction e1 as [|[] e1 IH]; intros t; cbn; auto. Qed.
Lemma docs_follow_appends t l : docs_follow t (map (fun a : Tier * list N => Append a.1 a.2) l).
Proof. by induction l. Qed.
Lemma last_rows_appends t l : last_rows t (map (fun a : Tier * list N => Append a.1 a.2) l) = t.
Proof. by induction l. Qed.

Definition docs_inv (t0 : Table) (r : Run) : Prop :=
  writer_docs r ≡ₚ docs_of (rows r) /\ docs_follow t0 (durable r).

Lemma commit_docs_follow t0 r stats d : docs_inv t0 r ->
  docs_follow t0 (durable (commit_with_vector_tombstones r stats d)) /\
  last_rows t0 (durable (commit_with_vector_tombstones r stats d)) = rows r.
Proof.
  intros [Hw Hf]. unfold commit_with_vector_tombstones. destruct (flush _) as [appends j]. cbn.
  rewrite !docs_follow_app, !last_rows_app. cbn. auto using docs_follow_appends.
Qed.

Lemma docs_of_delete t f : docs_of (delete_file t f) = filter (fun d => d.1 <> f) (docs_of t).
Proof.
  unfold docs_of, delete_file. induction t as [|r t IH]; [done|]. rewrite fmap_cons, !filter_cons.
  cbn. case_decide; [by rewrite fmap_cons, IH|done].
Qed.
Lemma docs_of_insert t f cs : docs_of (insert_chunks t f cs) = docs_of t ++ map (fun c => (f, c.1)) cs.
Proof.
  revert t. induction cs as [|c cs IH]; intros t; cbn [insert_chunks foldl map]; [by rewrite app_nil_r|].
  unfold insert_chunks in IH. rewrite IH. unfold insert_chunk, docs_of. rewrite fmap_app, <- app_assoc. done.
Qed.

Lemma docs_stable fresh t0 : stable fresh (fun _ => True) (docs_inv t0).
Proof.
  split.
  - intros r rel [Hw Hf]. split; [|done]. cbn. by rewrite docs_of_delete, Hw.
  - intros r s Hr. done.
  - intros r Hr. destruct (checkpoint_commits fresh r) as (stats & d & ->).
    destruct (commit_docs_follow t0 r stats d Hr) as [H1 H2]. destruct Hr as [Hw Hf].
    destruct fresh; split; cbn; rewrite ?commit_writer, ?commit_rows; try done.
    apply docs_follow_app. split; [done|]. cbn. by rewrite H2.
  - intros r Hr. done.
  - intros r f _ [Hw Hf]. split; [|by destruct fresh]. unfold store_file.
    destruct fresh; cbn [writer_docs rows insert_indexed remove_indexed remove_file_chunks count_chunks set_rows];
      rewrite docs_of_insert, ?docs_of_delete, Hw; done.
Qed.

(** ** Journals *)

(** The journal of a tier holds exactly the keys [ks]. *)
Definition holds (file : option (list N)) (ks : list key) : Prop :=
  unwrap_or [] file = payload ks /\ Forall in_range ks.

(** Each of the keys [K] is a key of the rows or of the journal. *)
Definition kept (K : gset key) (tier : Tier) (d : Disk) : Prop :=
  exists ks, holds (d_journal d tier) ks /\ K ⊆ keys_of (d_rows d) ∪ list_to_set ks.

(** What is appended to a journal is whole lines of 64-bit keys. *)
Definition append_ok (e : Durable) : Prop :=
  match e with Append _ p => exists ks, p = payload ks /\ Forall in_range ks | _ => True end.

Record journal_inv (K : Tier -> gset key) (d0 : Disk) (r : Run) : Prop := {
  kept_prefix : forall pre tier, pre `prefix_of` durable r -> kept (K tier) tier (replay d0 pre);
  kept_pending : exists pend, pending_payload (vector_tombstones r) = payload pend /\ Forall in_range pend /\
    forall tier, exists ks, holds (d_journal (replay d0 (durable r)) tier) ks /\
      K tier ⊆ keys_of (rows r) ∪ list_to_set (ks ++ pend);
  kept_payloads : Forall append_ok (durable r);
  kept_neural : has_neural_path (vector_tombstones r) = true;
  kept_range : Forall (fun row => in_range (vector_key row)) (rows r)
}.

Lemma holds_append file ks pend : holds file ks -> Forall in_range pend ->
  holds (append file (payload pend)) (ks ++ pend).
Proof. intros [Hf Hk] Hp. split; [cbn; by rewrite Hf, payload_app|by apply Forall_app]. Qed.

Lemma kept_more K tier d d' ks : d_rows d' = d_rows d -> kept K tier d ->
  d_journal d' tier = d_journal d tier \/
    (d_journal d' tier = append (d_journal d tier) (payload ks) /\ Forall in_range ks) -> kept K tier d'.
Proof.
  intros Hr (js & Hh & Hs) [Hj|[Hj Hk]]; unfold kept; rewrite Hr, Hj; [by exists js|].
  exists (js ++ ks). split; [by apply holds_append|]. rewrite list_to_set_app_L. set_solver.
Qed.

Lemma prefix_snoc_cases {A} (pre l : list A) x : pre `prefix_of` l ++ [x] -> pre `prefix_of` l \/ pre = l ++ [x].
Proof.
  intros [suf Heq]. destruct suf as [|y suf _] using rev_ind.
  - right. by rewrite app_nil_r in Heq.
  - left. rewrite app_assoc in Heq. apply app_inj_tail in Heq as [-> _]. by exists suf.
Qed.

(** One event after a prefix that keeps the keys. *)
Lemma kept_snoc K d0 events e :
  (forall pre tier, pre `prefix_of` events -> kept (K tier) tier (replay d0 pre)) ->
  (forall tier, kept (K tier) tier (apply_durable (replay d0 events) e)) ->
  forall pre tier, pre `prefix_of` events ++ [e] -> kept (K tier) tier (replay d0 pre).
Proof.
  intros Hp He pre tier Hpre. apply prefix_snoc_cases in Hpre as [Hpre| ->]; [by apply Hp|].
  rewrite replay_app. apply He.
Qed.

Lemma kept_append K d0 events tier0 ks :
  (forall pre tier, pre `prefix_of` events -> kept (K tier) tier (replay d0 pre)) -> Forall in_range ks ->
  forall pre tier, pre `prefix_of` events ++ [Append tier0 (payload ks)] -> kept (K tier) tier (replay d0 pre).
Proof.
  intros Hp Hk. apply kept_snoc; [done|]. intros tier. apply (kept_more _ _ (replay d0 events) _ ks); [done|by apply Hp|].
  cbn. case_decide; [right|left]; done.
Qed.

Lemma payload_nil ks : payload ks = [] -> ks = [].
Proof. destruct (decide (ks = [])) as [|Hn]; [done|]. destruct (payload_last ks Hn) as [a ->]. by destruct a. Qed.

Lemma journal_commit K d0 r stats d : journal_inv K d0 r ->
  journal_inv K d0 (commit_with_vector_tombstones r stats d).
Proof.
  intros [Hp (pend & Hpend & Hpr & Hj) Ha Hn Hr]. unfold commit_with_vector_tombstones, flush. rewrite Hpend, Hn.
  destruct (payload pend) as [|b p] eqn:E.
  - apply payload_nil in E as ->. cbn [map app].
    split; cbn [durable vector_tombstones rows];
      [|exists []; split_and!; [done|constructor|]|apply Forall_app; split; [done|repeat constructor; by exists pend]|done|done].
    + apply kept_snoc; [done|]. intros tier. destruct (Hj tier) as (ks & Hh & Hs). exists ks.
      cbn. split; [done|]. by rewrite app_nil_r in Hs.
    + intros tier. destruct (Hj tier) as (ks & Hh & Hs). exists ks. by rewrite replay_app.
  - rewrite <- E in *. cbn [map app fst snd].
    change [Append Hash (payload pend); Append Neural (payload pend); CommitSql (rows r) stats (tombstones r)]
      with ([Append Hash (payload pend)] ++ [Append Neural (payload pend)] ++ [CommitSql (rows r) stats (tombstones r)]).
    assert (forall tier, exists ks, holds (d_journal (replay d0 (durable r ++ [Append Hash (payload pend)] ++
      [Append Neural (payload pend)])) tier) ks /\ K tier ⊆ keys_of (rows r) ∪ list_to_set ks) as Hall.
    { intros tier. destruct (Hj tier) as (ks & Hh & Hs). exists (ks ++ pend). rewrite replay_app. split; [|done].
      destruct tier; cbn; by apply holds_append. }
    split; cbn [durable vector_tombstones rows];
      [|exists []; split_and!; [done|constructor|]|apply Forall_app; split; [done|repeat constructor; by exists pend]|done|done].
    + rewrite !app_assoc. apply kept_snoc; [do 2 (apply kept_append; [|done]); done|].
      intros tier. rewrite <- app_assoc. destruct (Hall tier) as (ks & Hh & Hs). by exists ks.
    + intros tier. destruct (Hall tier) as (ks & Hh & Hs). exists ks. rewrite !app_assoc, replay_app, <- app_assoc.
      by rewrite app_nil_r.
Qed.

Lemma journal_docs K d0 r : journal_inv K d0 r -> journal_inv K d0 (commit_docs r).
Proof.
  intros [Hp (pend & Hpend & Hpr & Hj) Ha Hn Hr].
  split; cbn [commit_docs durable vector_tombstones rows]; [| |apply Forall_app; split; [done|by repeat constructor]|done..].
  - apply kept_snoc; [done|]. intros tier. apply (kept_more _ _ (replay d0 (durable r)) _ []); [done|by apply Hp|by left].
  - exists pend. split_and!; [done..|]. intros tier. destruct (Hj tier) as (ks & Hh & Hs). exists ks. by rewrite replay_app.
Qed.

Lemma range_delete t f : Forall (fun row => in_range (vector_key row)) t ->
  Forall (fun row => in_range (vector_key row)) (delete_file t f).
Proof. apply Forall_filter_keep. Qed.
Lemma range_file t f : Forall (fun row => in_range (vector_key row)) t ->
  Forall in_range (chunk_vector_keys_for_file t f).
Proof. intros Ht. unfold chunk_vector_keys_for_file. apply Forall_fmap. by apply Forall_filter_keep. Qed.
Lemma range_insert t f cs : Forall (fun row => in_range (vector_key row)) t -> Forall in_range cs.*1 ->
  Forall (fun row => in_range (vector_key row)) (insert_chunks t f cs).
Proof.
  intros Ht Hc. destruct (insert_chunks_rows t f cs) as (new & -> & Hk & _). apply Forall_app. split; [done|].
  rewrite <- Hk, Forall_fmap in Hc. exact Hc.
Qed.

(** Removing a file and inserting its chunks again loses no key either. *)
Lemma journal_store K d0 r rel retained cs :
  journal_inv K d0 r -> Forall in_range cs.*1 -> (retained = None \/ retained = Some cs.*1) ->
  journal_inv K d0
    (set_rows r (insert_chunks (delete_file (rows r) rel) rel cs) (incremental_stats r)
       (record_keys (vector_tombstones r)
          (match retained with
           | Some retained => filter (fun k => k ∉ retained) (chunk_vector_keys_for_file (rows r) rel)
           | None => chunk_vector_keys_for_file (rows r) rel
           end)) (writer_docs r)).
Proof.
  intros [Hp (pend & Hpend & Hpr & Hj) Ha Hn Hr] Hcs Hret. pose proof (range_file _ rel Hr) as Hkeys.
  set (obsolete := match retained with Some _ => _ | None => _ end).
  assert (Forall in_range obsolete) as Hob by (unfold obsolete; destruct retained; [by apply Forall_filter_keep|done]).
  split; cbn [set_rows durable vector_tombstones rows record_keys pending_payload has_neural_path]; [done| |done|done|].
  - exists (pend ++ obsolete). split_and!; [by rewrite payload_app, Hpend|by apply Forall_app|].
    intros tier. destruct (Hj tier) as (ks & Hh & Hs). exists ks. split; [done|].
    intros k Hk. specialize (Hs k Hk). rewrite !elem_of_union, !elem_of_list_to_set, !elem_of_app in *.
    rewrite keys_insert, elem_of_union, elem_of_list_to_set.
    destruct Hs as [Hs|[Hs|Hs]]; [|tauto..]. rewrite (keys_delete _ rel) in Hs. destruct Hs as [Hs|Hs]; [tauto|].
    unfold obsolete. destruct Hret as [->| ->]; [tauto|]. rewrite list_elem_of_filter.
    destruct (decide (k ∈ cs.*1)); tauto.
  - apply range_insert; [|done]. by apply range_delete.
Qed.

Lemma journal_stable K d0 fresh : stable fresh keys_in_range (journal_inv K d0).
Proof.
  split.
  - intros r rel Hr. pose proof (journal_store K d0 r (index_path_string rel) None [] Hr (Forall_nil_2 _)) as H.
    specialize (H (or_introl eq_refl)). destruct H as [H1 H2 H3 H4 H5]. by split.
  - intros r s [H1 H2 H3 H4 H5]. by split.
  - intros r Hr. destruct (checkpoint_commits fresh r) as (stats & d & ->).
    apply (journal_commit _ _ _ stats d) in Hr. destruct fresh; [done|by apply journal_docs].
  - intros r [H1 H2 H3 H4 H5]. by split.
  - intros r f Hf Hr. destruct fresh.
    + destruct Hr as [Hp (pend & Hpend & Hpr & Hj) Ha Hn Hr].
      split; cbn [store_file insert_indexed count_chunks set_rows durable vector_tombstones rows];
        [done| |done|done|by apply range_insert]. exists pend. split_and!; [done..|].
      intros tier. destruct (Hj tier) as (ks & Hh & Hs). exists ks. split; [done|]. rewrite keys_insert. set_solver.
    + destruct (journal_store K d0 r (index_path_string (rel_path f)) (Some (chunks f).*1) (chunks f) Hr Hf
        (or_intror eq_refl)) as [H1 H2 H3 H4 H5]. by split.
Qed.
