(* ===== verification/IndexPublishFacts.v ===== *)
(** * What an update publishes.

  An update that finishes leaves exactly the chunks of the files it read, with exact
  statistics and one document per row ([update_publishes_exact_index]); an overlay hides
  exactly the base files it replaces or deletes ([overlay_shadows_exact]).  An update that
  stops anywhere loses no vector key ([update_loses_no_key]). *)
From S2P Require Import Prelude Utf8 Paths ChunkTable IndexStats Tombstones IndexPersist.
Local Open Scope Z_scope.

(** ** Content *)

Abbreviation index_file f := (index_path_string (rel_path f)).
Abbreviation index_files files := (map (fun f => index_path_string (rel_path f)) files).

Definition file_chunks (t : Table) (g : list N) : list (key * list N) :=
  (fun r => (vector_key r, compressed_text r)) <$> filter (fun r => file_path r = g) t.

Lemma file_chunks_delete t f g :
  file_chunks (delete_file t f) g = if decide (f = g) then [] else file_chunks t g.
Proof.
  unfold file_chunks, delete_file. induction t as [|r t IH]; [by case_decide|].
  rewrite (filter_cons _ r t). destruct (decide (file_path r <> f)) as [Hr|Hr%dec_stable].
  - rewrite !filter_cons. destruct (decide (file_path r = g)) as [<-|].
    + rewrite decide_False by congruence. rewrite decide_False in IH by congruence. by rewrite !fmap_cons, IH.
    + done.
  - rewrite IH. case_decide; [done|]. rewrite filter_cons, decide_False by congruence. done.
Qed.
Lemma file_chunks_insert t f cs g :
  file_chunks (insert_chunks t f cs) g = file_chunks t g ++ if decide (f = g) then cs else [].
Proof.
  revert t. induction cs as [|c cs IH]; intros t; cbn [insert_chunks foldl].
  - case_decide; by rewrite app_nil_r.
  - unfold insert_chunks in IH. rewrite IH. unfold file_chunks at 1, insert_chunk. rewrite filter_app, fmap_app.
    rewrite filter_cons, filter_nil. cbn [file_path vector_key compressed_text].
    rewrite <- app_assoc. f_equal. case_decide; [by destruct c|done].
Qed.

Definition put_file (fresh : bool) (t : Table) (f : IndexedFile) : Table :=
  insert_chunks (if fresh then t else delete_file t (index_file f)) (index_file f) (chunks f).
Definition removed_paths (overlay : bool) (clear deleted : list path) : list path :=
  if overlay then clear ++ deleted else deleted.

Lemma rows_checkpoint fresh r : rows (checkpoint_run fresh r) = rows r.
Proof. destruct (checkpoint_commits fresh r) as (s & d & ->). destruct fresh; cbn; by rewrite commit_rows. Qed.
Lemma rows_deletion_checkpoint fresh r : rows (checkpoint_deletion_tombstones fresh r) = rows r.
Proof. unfold checkpoint_deletion_tombstones. case_match; [apply rows_checkpoint|done]. Qed.

Lemma rows_deletions overlay fresh base clear deleted modified r :
  rows (run_deletions overlay fresh base clear deleted modified r) =
  foldl (fun t rel => delete_file t (index_path_string rel)) (rows r) (removed_paths overlay clear deleted).
Proof.
  assert (forall l r, rows (foldl (delete_path overlay fresh base) r l) =
    foldl (fun t rel => delete_file t (index_path_string rel)) (rows r) l) as Hd.
  { induction l as [|rel l IH]; intros r'; [done|]. cbn [foldl]. rewrite IH. f_equal. unfold delete_path.
    rewrite rows_deletion_checkpoint. by repeat case_match. }
  unfold run_deletions, removed_paths. destruct overlay; [|apply Hd].
  assert (forall l r, rows (foldl (shadow_path base) r l) = rows r) as ->.
  { induction l as [|rel l IH]; intros r'; [done|]. cbn [foldl]. rewrite IH. unfold shadow_path. by case_match. }
  rewrite Hd, foldl_app. f_equal. revert r. induction clear as [|rel clear IH]; intros r; [done|].
  cbn [foldl]. rewrite IH. f_equal. unfold clear_path. by rewrite rows_deletion_checkpoint.
Qed.
Lemma rows_persist fresh r f : rows (persist_file fresh r f) = put_file fresh (rows r) f.
Proof.
  unfold persist_file. assert (rows (store_file fresh r f) = put_file fresh (rows r) f) as <- by by destruct fresh.
  destruct (_ || _); [|done]. cbn. apply rows_checkpoint.
Qed.
Lemma rows_files fresh files r : rows (foldl (persist_file fresh) r files) = foldl (put_file fresh) (rows r) files.
Proof. revert r. induction files as [|f files IH]; intros r; [done|]. cbn [foldl]. by rewrite IH, rows_persist. Qed.

Lemma chunks_deletions l t g : file_chunks (foldl (fun t rel => delete_file t (index_path_string rel)) t l) g =
  if decide (g ∈ map index_path_string l) then [] else file_chunks t g.
Proof.
  revert t. induction l as [|rel l IH]; intros t; cbn [foldl map]; [done|]. rewrite IH, file_chunks_delete.
  repeat case_decide; subst; set_solver.
Qed.
Lemma chunks_put fresh t f g : file_chunks (put_file fresh t f) g =
  if decide (index_file f = g) then (if fresh then file_chunks t g else []) ++ chunks f else file_chunks t g.
Proof.
  unfold put_file. rewrite file_chunks_insert. destruct fresh; [case_decide; [done|apply app_nil_r]|].
  rewrite file_chunks_delete. case_decide; [done|apply app_nil_r].
Qed.
Lemma chunks_unread fresh files t g : g ∉ index_files files -> file_chunks (foldl (put_file fresh) t files) g = file_chunks t g.
Proof.
  revert t. induction files as [|f files IH]; intros t; [done|]. cbn [map foldl]. intros [Hf Hg]%not_elem_of_cons.
  rewrite IH, chunks_put, decide_False by done || congruence. done.
Qed.
Lemma chunks_read fresh files t f : NoDup (index_files files) -> f ∈ files ->
  (fresh = true -> file_chunks t (index_file f) = []) ->
  file_chunks (foldl (put_file fresh) t files) (index_file f) = chunks f.
Proof.
  intros Hnd Hin. revert t. induction files as [|f' files IH]; intros t Ht; [by apply not_elem_of_nil in Hin|].
  cbn [map foldl] in *. apply NoDup_cons in Hnd as [Hn Hnd]. apply elem_of_cons in Hin as [->|Hin].
  - rewrite chunks_unread, chunks_put, decide_True by done. destruct fresh; [by rewrite Ht|done].
  - apply IH; [done..|]. intros ->. rewrite chunks_put, decide_False; [by apply Ht|]. intros Heq. apply Hn. rewrite Heq.
    apply list_elem_of_fmap. by exists f.
Qed.

(** ** The end of a run *)

Definition final_stats (r : Run) : Z * Z * Z :=
  match incremental_stats r with
  | Some d => final_counts (rows r) d
  | None => (total_chunks_processed r, indexed_files_with_chunks r, count_keys (rows r))
  end.

Lemma finish_disk d0 r : let d := replay d0 (durable (finish_run r)) in
  d_rows d = rows r /\ d_docs d = writer_docs r /\ d_tombstones d = tombstones r /\
  d_stats d = put_stats (stats_table r) (final_stats r).
Proof.
  unfold finish_run. fold (final_stats r). cbn [commit_docs durable]. rewrite replay_app. cbn [replay foldl apply_durable].
  rewrite commit_writer. unfold commit_with_vector_tombstones. destruct (flush _) as [appends j].
  cbn [durable]. by rewrite !replay_app.
Qed.

(** A fresh index counts what it inserts, each file once. *)
Definition fresh_counts (t0 : Table) (r : Run) : Prop :=
  incremental_stats r = None /\
  count_rows t0 + total_chunks_processed r = count_rows (rows r) /\
  count_files t0 + indexed_files_with_chunks r = count_files (rows r).

Lemma fresh_checkpoint t0 r : fresh_counts t0 r -> fresh_counts t0 (reset_chunks (checkpoint_run true r)).
Proof.
  intros (Hi & Hc & Hf). unfold checkpoint_run. rewrite Hi. unfold commit_with_vector_tombstones.
  destruct (flush _) as [appends j]. by split.
Qed.

Lemma fresh_files t0 files r : NoDup (index_files files) ->
  (forall f, f ∈ files -> index_file f ∉ files_of (rows r)) -> fresh_counts t0 r ->
  fresh_counts t0 (foldl (persist_file true) r files).
Proof.
  revert r. induction files as [|f files IH]; intros r Hnd Hnew Hr; [done|]. cbn [map foldl] in *.
  apply NoDup_cons in Hnd as [Hn Hnd]. apply IH; [done| |].
  - intros f' Hf'. rewrite rows_persist. unfold put_file. rewrite files_insert.
    assert (index_file f' <> index_file f) by (intros Heq; apply Hn; rewrite <- Heq; apply list_elem_of_fmap; by exists f').
    specialize (Hnew f' ltac:(by right)). case_decide; set_solver.
  - assert (fresh_counts t0 (store_file true r f)) as Hs.
    { destruct Hr as (Hi & Hc & Hf). specialize (Hnew f ltac:(by left)).
      split_and!; cbn [store_file insert_indexed count_chunks set_rows incremental_stats rows
        total_chunks_processed indexed_files_with_chunks].
      - by rewrite Hi.
      - unfold count_rows in *. rewrite length_insert. lia.
      - unfold count_files in *. rewrite files_insert. case_decide as He.
        + rewrite He, union_empty_r_L. cbn. lia.
        + rewrite size_union, size_singleton by set_solver. destruct (chunks f); [done|]. cbn. lia. }
    unfold persist_file. destruct (_ || _); [by apply fresh_checkpoint|done].
Qed.

(** Deletions find nothing in a fresh index. *)
Definition fresh_idle (r : Run) : Prop :=
  rows r = [] /\ incremental_stats r = None /\ total_chunks_processed r = 0 /\ indexed_files_with_chunks r = 0.
Lemma fresh_idle_stable : stable true (fun _ => False) fresh_idle.
Proof.
  split; try done.
  - intros r rel (Hr & Hi & Hc & Hf). unfold fresh_idle. cbn. by rewrite Hr, Hi.
  - intros r (Hr & Hi & Hc & Hf). unfold checkpoint_run. rewrite Hi. unfold commit_with_vector_tombstones.
    by destruct (flush _).
Qed.

Lemma final_stats_exact (overlay fresh : bool) base t stats tombs docs j clear deleted modified files :
  (if fresh then t = [] /\ NoDup (index_files files) else stats_exact stats t) ->
  let r := foldl (persist_file fresh) (run_deletions overlay fresh base clear deleted modified
    (begin_run fresh t stats tombs docs j)) files in
  final_stats r = exact_counts (rows r).
Proof.
  intros Hstart r. unfold final_stats. destruct fresh.
  - destruct Hstart as [-> Hnd]. assert (fresh_counts [] r) as (-> & Hc & Hf);
      [|unfold exact_counts; f_equal; f_equal; done].
    destruct (stable_deletions overlay true base _ _ fresh_idle_stable clear deleted modified
      (begin_run true [] stats tombs docs j)) as (Hr & Hi & Hc & Hf); [done|].
    apply fresh_files; [done|rewrite Hr; set_solver|]. unfold fresh_counts. by rewrite Hr, Hc, Hf.
  - assert (stats_inv r) as (_ & t0 & d & -> & Ht); [|by eapply final_counts_tracked].
    apply (stable_files _ _ _ stats_stable); [by apply Forall_true|].
    apply (stable_deletions _ _ _ _ _ stats_stable).
    destruct (load stats) as [d|] eqn:E.
    + split; [constructor|]. exists t, d. cbn. rewrite E. split; [done|]. by eapply load_tracks.
    + destruct Hstart as (H1 & H2 & H3). unfold load in E. rewrite H1, H2, H3 in E. done.
Qed.

(** ** What an overlay hides *)

Abbreviation index_paths l := (map index_path_string l).

Lemma tombstones_checkpoint fresh r : tombstones (checkpoint_deletion_tombstones fresh r) = tombstones r.
Proof.
  unfold checkpoint_deletion_tombstones. case_match; [|done].
  destruct (checkpoint_commits fresh r) as (s & d & ->). unfold commit_with_vector_tombstones.
  destruct (flush _). by destruct fresh.
Qed.

Lemma tombstones_clear fresh l r g : g ∈ tombstones (foldl (clear_path fresh) r l) <->
  g ∈ tombstones r /\ g ∉ index_paths l.
Proof.
  revert r. induction l as [|rel l IH]; intros r; cbn [foldl map]; [set_solver|]. rewrite IH. unfold clear_path.
  rewrite tombstones_checkpoint. cbn. set_solver.
Qed.
Section Overlay.
Context (base : list N -> bool).
Lemma tombstones_delete fresh l r g : g ∈ tombstones (foldl (delete_path true fresh base) r l) <->
  if decide (g ∈ index_paths l) then base g = true else g ∈ tombstones r.
Proof.
  revert r. induction l as [|rel l IH]; intros r; cbn [foldl map]; [done|]. rewrite IH. unfold delete_path.
  rewrite tombstones_checkpoint. unfold path_exists_in_base.
  destruct (decide (g ∈ index_paths l)); [by rewrite decide_True by by right|].
  destruct (decide (g = index_path_string rel)) as [->|Hg].
  - rewrite decide_True by left. destruct (base _); cbn; set_solver.
  - rewrite decide_False by (rewrite elem_of_cons; tauto). destruct (base _); cbn; set_solver.
Qed.
Lemma tombstones_shadow l r g : g ∈ tombstones (foldl (shadow_path base) r l) <->
  (g ∈ index_paths l /\ base g = true) \/ g ∈ tombstones r.
Proof.
  revert r. induction l as [|rel l IH]; intros r; cbn [foldl map]; [set_solver|]. rewrite IH. unfold shadow_path, path_exists_in_base.
  rewrite elem_of_cons. destruct (base (index_path_string rel)) eqn:E.
  - cbn. rewrite elem_of_union, elem_of_singleton. destruct (decide (g = index_path_string rel)) as [->|]; tauto.
  - destruct (decide (g = index_path_string rel)) as [->|]; [|tauto]. rewrite E. intuition congruence.
Qed.

End Overlay.

Lemma tombstones_persist fresh files r : tombstones (foldl (persist_file fresh) r files) = tombstones r.
Proof.
  revert r. induction files as [|f files IH]; intros r; [done|]. cbn [foldl]. rewrite IH. unfold persist_file.
  assert (tombstones (store_file fresh r f) = tombstones r) as <- by by destruct fresh.
  destruct (_ || _); [|done]. destruct (checkpoint_commits fresh (store_file fresh r f)) as (s & d & ->).
  unfold commit_with_vector_tombstones. destruct (flush _). by destruct fresh.
Qed.
(** ** Any run *)

Section AnyRun.
Context (overlay fresh : bool) (base : list N -> bool) (clear deleted modified : list path) (files : list IndexedFile).
Context (d0 : Disk).
Abbreviation begin j := (begin_run fresh (d_rows d0) (d_stats d0) (d_tombstones d0) (d_docs d0) j).
Abbreviation the_run j := (run_update overlay fresh base clear deleted modified files (begin j)).

Lemma run_numbers j : numbered (d_rows d0) -> numbered (d_rows (replay d0 (durable (the_run j)))).
Proof.
  intros Hn. unfold run_update. destruct (finish_disk d0 (foldl (persist_file fresh)
    (run_deletions overlay fresh base clear deleted modified (begin j)) files)) as (-> & _).
  assert (stable fresh (fun _ => True) (fun r => numbered (rows r))) as Hst.
  { split; try done.
    - intros r rel Hr. cbn. by apply numbered_delete.
    - intros r Hr. by rewrite rows_checkpoint.
    - intros r f _ Hr. unfold store_file. destruct fresh; cbn; apply numbered_insert; [done|by apply numbered_delete]. }
  apply (stable_files _ _ _ Hst); [by apply Forall_true|]. by apply (stable_deletions _ _ _ _ _ Hst).
Qed.

Lemma run_counts j :
  (if fresh then d_rows d0 = [] /\ distinct_files files else stats_exact (d_stats d0) (d_rows d0)) ->
  stats_exact (d_stats (replay d0 (durable (the_run j)))) (d_rows (replay d0 (durable (the_run j)))).
Proof.
  intros Hstart. unfold run_update. set (r1 := foldl (persist_file fresh) _ files).
  destruct (finish_disk d0 r1) as (-> & _ & _ & ->).
  assert (final_stats r1 = exact_counts (rows r1)) as ->; [|apply put_stats_exact].
  apply final_stats_exact. by destruct fresh.
Qed.

Lemma run_docs j : d_docs d0 ≡ₚ docs_of (d_rows d0) ->
  d_docs (replay d0 (durable (the_run j))) ≡ₚ docs_of (d_rows (replay d0 (durable (the_run j)))).
Proof.
  intros Hdocs. unfold run_update. set (r1 := foldl (persist_file fresh) _ files).
  destruct (finish_disk d0 r1) as (-> & -> & _ & _).
  assert (docs_inv (d_rows d0) r1) as [Hw _]; [|done].
  apply (stable_files _ _ _ (docs_stable fresh _)); [by apply Forall_true|].
  apply (stable_deletions _ _ _ _ _ (docs_stable fresh _)). by split.
Qed.

Lemma run_journals max_bytes K :
  Forall (fun row => in_range (vector_key row)) (d_rows d0) -> Forall keys_in_range files ->
  (forall tier, kept (K tier) tier d0) -> journal_inv K d0 (the_run (with_max_pending_bytes true max_bytes)).
Proof.
  intros Hrange Hfiles Hk. assert (journal_inv K d0 (begin (with_max_pending_bytes true max_bytes))) as Hinit.
  { split; [|exists []; split_and!; [done|constructor|]|constructor|done|done].
    - intros pre' tier' Hpre%prefix_nil_inv. subst pre'. apply Hk.
    - intros tier'. destruct (Hk tier') as (ks & Hh & Hs). exists ks. by rewrite app_nil_r. }
  apply (stable_deletions overlay fresh base _ _ (journal_stable K d0 fresh) clear deleted modified) in Hinit.
  apply (stable_files _ _ _ (journal_stable K d0 fresh) files _ Hfiles) in Hinit.
  unfold run_update. apply journal_docs. by apply journal_commit.
Qed.

Lemma run_range max_bytes :
  Forall (fun row => in_range (vector_key row)) (d_rows d0) -> Forall keys_in_range files ->
  (forall tier, exists ks, holds (d_journal d0 tier) ks) ->
  Forall (fun row => in_range (vector_key row))
    (d_rows (replay d0 (durable (the_run (with_max_pending_bytes true max_bytes))))).
Proof.
  intros Hrange Hfiles Hk. destruct (run_journals max_bytes (fun _ => ∅) Hrange Hfiles) as [_ _ _ _ Hr].
  { intros tier. destruct (Hk tier) as (ks & Hh). exists ks. split; [done|]. apply empty_subseteq. }
  unfold run_update in *. set (r1 := foldl (persist_file fresh) _ files) in *.
  destruct (finish_disk d0 r1) as (-> & _). unfold finish_run in Hr. cbn [commit_docs rows] in Hr. by rewrite commit_rows in Hr.
Qed.
End AnyRun.

(** ** The theorems *)

Lemma update_publishes (overlay fresh : bool) base clear deleted modified files d0 j :
  (if fresh then d_rows d0 = [] else stats_exact (d_stats d0) (d_rows d0)) ->
  d_docs d0 ≡ₚ docs_of (d_rows d0) -> distinct_files files ->
  let r := run_update overlay fresh base clear deleted modified files
    (begin_run fresh (d_rows d0) (d_stats d0) (d_tombstones d0) (d_docs d0) j) in
  let d := replay d0 (durable r) in
  (forall f, f ∈ files -> file_chunks (d_rows d) (index_file f) = chunks f) /\
  (forall g, g ∉ index_files files -> file_chunks (d_rows d) g =
     (if decide (g ∈ map index_path_string (removed_paths overlay clear deleted)) then [] else file_chunks (d_rows d0) g)) /\
  stats_exact (d_stats d) (d_rows d) /\ d_docs d ≡ₚ docs_of (d_rows d).
Proof.
  intros Hstart Hdocs Hnd r d.
  assert (d_rows d = foldl (put_file fresh) (foldl (fun t rel => delete_file t (index_path_string rel)) (d_rows d0)
    (removed_paths overlay clear deleted)) files) as Hrows.
  { unfold d, r, run_update. set (r1 := foldl (persist_file fresh) _ files). destruct (finish_disk d0 r1) as (-> & _).
    unfold r1. by rewrite rows_files, rows_deletions. }
  split_and!; [| |apply run_counts; by destruct fresh|by apply run_docs]; intros f Hf; rewrite Hrows.
  - apply chunks_read; [done..|]. intros ->. rewrite chunks_deletions, Hstart. by case_decide.
  - by rewrite chunks_unread, chunks_deletions by done.
Qed.

(** C3. An update that runs to its end publishes exactly the index of its inputs: a file
    that was read has the chunks it was read with, a removed file has none, every other
    file keeps its chunks; [_stats] holds the three counts of that table, and there is one
    document per row.  The start is an empty table for a fresh index, and otherwise one
    whose statistics are exact. *)
Theorem update_publishes_exact_index (overlay fresh : bool) base clear deleted modified files d0 j :
  (if fresh then d_rows d0 = [] else stats_exact (d_stats d0) (d_rows d0)) ->
  d_docs d0 ≡ₚ docs_of (d_rows d0) -> distinct_files files ->
  let r := run_update overlay fresh base clear deleted modified files
    (begin_run fresh (d_rows d0) (d_stats d0) (d_tombstones d0) (d_docs d0) j) in
  let d := replay d0 (durable r) in
  (forall f, f ∈ files -> file_chunks (d_rows d) (index_file f) = chunks f) /\
  (forall g, g ∉ index_files files -> file_chunks (d_rows d) g =
     (if decide (g ∈ map index_path_string (removed_paths overlay clear deleted)) then [] else file_chunks (d_rows d0) g)) /\
  stats_exact (d_stats d) (d_rows d) /\ d_docs d ≡ₚ docs_of (d_rows d).
Proof.
  intros Hstart Hdocs Hnd. by apply update_publishes.
Qed.

(** When an overlay update ends, the paths it hides in the base are exactly: those it
    deleted or replaced that the base has, and those hidden before that it neither
    deleted nor cleared. *)
Theorem overlay_shadows_exact (fresh : bool) base clear deleted modified files d0 j g :
  let r := run_update true fresh base clear deleted modified files
    (begin_run fresh (d_rows d0) (d_stats d0) (d_tombstones d0) (d_docs d0) j) in
  g ∈ d_tombstones (replay d0 (durable r)) <->
  (base g = true /\ (g ∈ map index_path_string deleted \/ g ∈ map index_path_string modified)) \/
  (g ∈ d_tombstones d0 /\ (g ∉ map index_path_string deleted) /\ (g ∉ map index_path_string clear)).
Proof.
  intros r. unfold r, run_update. set (r1 := foldl (persist_file fresh) _ files).
  destruct (finish_disk d0 r1) as (_ & _ & -> & _). unfold r1. rewrite tombstones_persist.
  unfold run_deletions. rewrite tombstones_shadow, tombstones_delete. case_decide as Hd.
  - destruct (base g); intuition congruence.
  - rewrite tombstones_clear. cbn [begin_run tombstones]. destruct (base g); intuition congruence.
Qed.

(** C7. Wherever an update stops, no vector key is lost from sight: if every key of a set
    (those of a vector store) is a key of the rows or of the tier's journal before, the
    same holds on the disk after every prefix of what the update makes durable. *)
Theorem update_loses_no_key (overlay fresh : bool) base clear deleted modified files d0 max_bytes K pre tier :
  Forall (fun row => in_range (vector_key row)) (d_rows d0) -> Forall keys_in_range files ->
  (forall tier, kept (K tier) tier d0) ->
  pre `prefix_of` durable (run_update overlay fresh base clear deleted modified files
    (begin_run fresh (d_rows d0) (d_stats d0) (d_tombstones d0) (d_docs d0) (with_max_pending_bytes true max_bytes))) ->
  kept (K tier) tier (replay d0 pre).
Proof.
  intros Hrange Hfiles Hk.
  destruct (run_journals overlay fresh base clear deleted modified files d0 max_bytes K Hrange Hfiles Hk) as [Hp _ _ _ _].
  apply Hp.
Qed.

(** Two files are indexed; [b] is deleted and [a] read again with another chunk. *)
Definition example_disk : Disk :=
  let t := insert_chunks (insert_chunks [] (lit "a") [(1%N, [])]) (lit "b") [(2%N, [])] in
  MkDisk t (put_stats ∅ (exact_counts t)) ∅ (docs_of t) (fun _ => None).
Definition example_file : IndexedFile := MkFile (lit "a") [(3%N, [])].
Definition example_run : Run :=
  run_update false false (fun _ => false) [] [lit "b"] [lit "a"] [example_file]
    (begin_run false (d_rows example_disk) (d_stats example_disk) ∅ (d_docs example_disk) (with_max_pending_bytes true 1000)).

Lemma update_publishes_exact_index_witness :
  file_chunks (d_rows (replay example_disk (durable example_run))) (lit "a") = [(3%N, [])].
Proof.
  destruct (update_publishes_exact_index false false (fun _ => false) [] [lit "b"] [lit "a"] [example_file]
    example_disk (with_max_pending_bytes true 1000)) as [H _].
  - apply put_stats_exact.
  - done.
  - apply NoDup_singleton.
  - apply (H example_file). by left.
Defined.

Lemma update_loses_no_key_witness : kept {[1%N]} Hash (replay example_disk (take 1 (durable example_run))).
Proof.
  apply (update_loses_no_key false false (fun _ => false) [] [lit "b"] [lit "a"] [example_file] example_disk 1000
    (fun _ => {[1%N]}) (take 1 (durable example_run)) Hash).
  - repeat constructor.
  - repeat constructor.
  - intros tier. exists []. split; [by split|]. intros k ->%elem_of_singleton. by vm_compute.
  - exists (drop 1 (durable example_run)). symmetry. apply take_drop.
Defined.
