(* ===== verification/EmbeddingRows.v ===== *)
(** * The rows still to embed: [EmbeddingRows] of indexer.rs.

  A worker that has few vectors pages through the table by rowid, up to the rowid that was
  the largest when it began; one that has most of them asks for the missing keys one by
  one.  The table is read again for every batch and may have changed, or the index may have
  been replaced.  The batches end, and every row that stays in the table and lacks a vector
  is visited ([embedding_rows_complete]). *)
From S2P Require Import Prelude Utf8 Paths ChunkTable.

(** A key and the compressed text of a row that has it. *)
Abbreviation EmbeddingRow := (key * list N)%type.

Inductive EmbeddingRows :=
| Sparse (keys : list key)
| Sequential (after_rowid max_rowid : Z).

(** [store] holds the keys of the vector store; [total_chunks] counts distinct keys.
    [SELECT DISTINCT] promises no order; this one is the order of the rows. *)
Definition sparse_missing_vector_keys (t : Table) (store : gset key) (total_chunks : Z) : option (list key) :=
  if (Z.min U64_MAX (Z.of_nat (size store) * 4) <? Z.min U64_MAX (total_chunks * 3))%Z then None
  else Some (filter (fun k => k ∉ store) (remove_dups (vector_key <$> t))).

Definition new_rows (t : Table) (missing_keys : option (list key)) : EmbeddingRows :=
  match missing_keys with
  | Some keys => Sparse keys
  | None => Sequential 0 (max_rowid t)
  end.

Definition is_exhausted (rows : EmbeddingRows) : bool :=
  match rows with
  | Sparse keys => is_none (head keys)
  | Sequential after_rowid max_rowid => (max_rowid <=? after_rowid)%Z
  end.

(** [SELECT text FROM chunks WHERE vector_key = ?1 LIMIT 1]; a key that is gone is passed over. *)
Definition row_of_key (t : Table) (k : key) : option EmbeddingRow :=
  (fun r => (vector_key r, compressed_text r)) <$> head (filter (fun r => vector_key r = k) t).

(** [WHERE rowid > ?1 AND rowid <= ?2 ORDER BY rowid LIMIT ?3] *)
Definition page (t : Table) (after_rowid max_rowid : Z) (limit : nat) : list ChunkRow :=
  take limit (filter (fun r => (after_rowid < chunk_key r <= max_rowid)%Z) t).

Definition read_batch (t : Table) (limit : nat) (rows : EmbeddingRows) : list EmbeddingRow * EmbeddingRows :=
  match rows with
  | Sparse keys => (omap (row_of_key t) (take limit keys), Sparse (drop limit keys))
  | Sequential after_rowid max_rowid =>
    let batch := page t after_rowid max_rowid limit in
    let after_rowid := foldl (fun _ r => chunk_key r) after_rowid batch in
    (map (fun r => (vector_key r, compressed_text r)) batch,
     Sequential (if length batch <? limit then max_rowid else after_rowid) max_rowid)
  end.

(** ** Visiting *)

Section Visit.
(** What [lock_current] and SQLite give for the [i]th batch, [None] for an error: updates
    run between the batches.  [ok] is the visitor, which may depend on the rows before. *)
Context (tables : nat -> option Table) (ok : list EmbeddingRow -> EmbeddingRow -> bool) (limit : nat).

(** The visitor's error ends the visit; the flag says that there was none. *)
Fixpoint visit_batch (seen batch : list EmbeddingRow) : bool * list EmbeddingRow :=
  match batch with
  | [] => (true, seen)
  | row :: batch => if ok seen row then visit_batch (seen ++ [row]) batch else (false, seen ++ [row])
  end.
(** [visit_embedding_rows]: whether it ended without an error, and the rows visited. *)
Fixpoint visit_embedding_rows (fuel i : nat) (seen : list EmbeddingRow) (rows : EmbeddingRows) : option (bool * list EmbeddingRow) :=
  if is_exhausted rows then Some (true, seen)
  else
    match fuel with
    | O => None
    | S fuel =>
      match tables i with
      | None => Some (false, seen)
      | Some t =>
        let '(batch, rows) := read_batch t limit rows in
        let '(continue, seen) := visit_batch seen batch in
        if continue then visit_embedding_rows fuel (S i) seen rows else Some (false, seen)
      end
    end.
End Visit.
(** How many batches there can be, whatever the tables hold: keys to look up, or rowids. *)
Definition batches_left (rows : EmbeddingRows) : nat :=
  match rows with
  | Sparse keys => length keys
  | Sequential after_rowid max_rowid => Z.to_nat (max_rowid - after_rowid)
  end.

(** The steps left: keys to look up, or rows beyond the cursor and one short page. *)
Definition pages_left (t : Table) (rows : EmbeddingRows) : nat :=
  match rows with
  | Sparse keys => length keys
  | Sequential after_rowid max_rowid =>
    if (max_rowid <=? after_rowid)%Z then 0
    else S (length (filter (fun r => (after_rowid < chunk_key r <= max_rowid)%Z) t))
  end.

(** ** What is visited *)

(** The keys the cursor will still visit on this table. *)
Definition remaining_keys (t : Table) (rows : EmbeddingRows) : gset key :=
  match rows with
  | Sparse keys => list_to_set keys ∩ keys_of t
  | Sequential after_rowid max_rowid => keys_of (filter (fun r => (after_rowid < chunk_key r <= max_rowid)%Z) t)
  end.

Definition row_in (t : Table) (row : EmbeddingRow) : Prop :=
  exists r, r ∈ t /\ row = (vector_key r, compressed_text r).

Lemma row_of_key_spec t k :
  match row_of_key t k with
  | Some row => row.1 = k /\ row_in t row
  | None => k ∉ keys_of t
  end.
Proof.
  unfold row_of_key. destruct (filter _ t) as [|r l] eqn:E; cbn.
  - unfold keys_of. rewrite elem_of_list_to_set, list_elem_of_fmap. intros (r & Hr & Hin).
    assert (r ∈ filter (fun r => vector_key r = k) t) as H by by apply list_elem_of_filter.
    rewrite E in H. by apply not_elem_of_nil in H.
  - assert (r ∈ filter (fun r => vector_key r = k) t) as [Hk Hin]%list_elem_of_filter by (rewrite E; by left).
    split; [done|]. by exists r.
Qed.

Lemma row_in_keys t row : row_in t row -> row.1 ∈ keys_of t.
Proof.
  intros (r & Hr & ->). unfold keys_of. rewrite elem_of_list_to_set, list_elem_of_fmap. by exists r.
Qed.

Lemma read_batch_rows t limit rows batch rows' : read_batch t limit rows = (batch, rows') -> Forall (row_in t) batch.
Proof.
  destruct rows as [keys|after_rowid max_rowid]; cbn; intros [= <- <-]; rewrite Forall_forall.
  - intros row (k & _ & Hk)%list_elem_of_omap. pose proof (row_of_key_spec t k) as Hs. rewrite Hk in Hs. by destruct Hs.
  - intros row (r & -> & Hr)%list_elem_of_fmap. exists r. split; [|done].
    unfold page in Hr. apply elem_of_take in Hr as (i & Hi & _).
    apply list_elem_of_lookup_2, list_elem_of_filter in Hi. tauto.
Qed.

Abbreviation beyond t after_rowid max_rowid :=
  (filter (fun r => (after_rowid < chunk_key r <= max_rowid)%Z) t).
Abbreviation by_rowid := (StronglySorted (fun a b => (chunk_key a < chunk_key b)%Z)).

Lemma beyond_last l x l' max : by_rowid (l ++ x :: l') -> Forall (fun r => (chunk_key r <= max)%Z) l' ->
  beyond (l ++ x :: l') (chunk_key x) max = l'.
Proof.
  intros Hs Hm. rewrite cons_middle, app_assoc in Hs. rewrite cons_middle, app_assoc, filter_app.
  rewrite filter_none, filter_all; [done| |].
  - rewrite Forall_forall in Hm |- *. intros r Hr. split; [|by apply Hm].
    apply (StronglySorted_app_1_elem_of _ _ _ x r Hs); [|done]. apply elem_of_app. right. by left.
  - apply StronglySorted_app_1_l in Hs. rewrite Forall_forall. intros r [Hr|Hr]%elem_of_app.
    + assert (chunk_key r < chunk_key x)%Z; [|lia].
      apply (StronglySorted_app_1_elem_of _ _ _ r x Hs); [done|by left].
    + apply list_elem_of_singleton in Hr as ->. lia.
Qed.

(** A full page advances the cursor past exactly its rows. *)
Lemma next_page t after_rowid max_rowid limit : by_rowid t -> 0 < limit ->
  limit <= length (page t after_rowid max_rowid limit) ->
  let next := foldl (fun _ r => chunk_key r) after_rowid (page t after_rowid max_rowid limit) in
  (after_rowid < next)%Z /\ beyond t next max_rowid = drop limit (beyond t after_rowid max_rowid).
Proof.
  intros Hs Hl Hfull. unfold page in *. set (F := beyond t after_rowid max_rowid) in *.
  assert (by_rowid F) as HF by by apply filter_sorted.
  assert (Forall (fun r => (after_rowid < chunk_key r <= max_rowid)%Z) F) as Hb.
  { apply Forall_forall. intros r [Hr _]%list_elem_of_filter. done. }
  destruct (take limit F) as [|x l _] eqn:E using rev_ind; [cbn in Hfull; lia|].
  assert (F = l ++ x :: drop limit F) as HFx.
  { rewrite <- (take_drop limit F) at 1. rewrite E, <- app_assoc. done. }
  rewrite foldl_snoc. rewrite HFx in Hb. apply Forall_app in Hb as [_ [Hx Hb]%Forall_cons]. split; [lia|].
  transitivity (beyond F (chunk_key x) max_rowid).
  - unfold F. rewrite list_filter_filter. apply list_filter_iff. intros r. lia.
  - rewrite HFx at 1. apply beyond_last; [by rewrite <- HFx|]. eapply Forall_impl; [exact Hb|]. cbn. lia.
Qed.

Lemma read_batch_progress t limit rows batch rows' : by_rowid t -> 0 < limit -> is_exhausted rows = false ->
  read_batch t limit rows = (batch, rows') ->
  pages_left t rows' < pages_left t rows /\
  remaining_keys t rows ⊆ list_to_set batch.*1 ∪ remaining_keys t rows'.
Proof.
  intros Hs Hl Hex. destruct rows as [keys|after_rowid max_rowid]; cbn [read_batch is_exhausted] in *.
  - intros [= <- <-]. destruct keys as [|k keys]; [done|]. split.
    + cbn [pages_left]. rewrite length_drop. cbn [length]. lia.
    + intros x. cbn [remaining_keys]. rewrite !elem_of_union, !elem_of_intersection, !elem_of_list_to_set.
      intros [Hin Hx]. rewrite <- (take_drop limit (k :: keys)) in Hin. apply elem_of_app in Hin as [Hin|Hin]; [left|by right].
      pose proof (row_of_key_spec t x) as Hrow. destruct (row_of_key t x) as [row|] eqn:E; [|done].
      destruct Hrow as [<- _]. apply list_elem_of_fmap. exists row. split; [done|]. apply list_elem_of_omap. by eexists.
  - apply Z.leb_gt in Hex. set (next := foldl _ _ _). intros [= <- <-].
    pose proof (next_page t after_rowid max_rowid limit Hs Hl) as Hn. fold next in Hn.
    destruct (Nat.ltb_spec (length (page t after_rowid max_rowid limit)) limit) as [Hshort|Hfull].
    + cbn [pages_left remaining_keys]. rewrite Z.leb_refl, (proj2 (Z.leb_gt _ _)) by done. split; [lia|].
      unfold page in *. rewrite length_take in Hshort. rewrite take_ge by lia. rewrite <- list_fmap_compose. set_solver.
    + destruct (Hn Hfull) as [Hgt Hbeyond]. cbn [pages_left remaining_keys]. rewrite Hbeyond.
      rewrite (proj2 (Z.leb_gt max_rowid after_rowid)) by done. split.
      * destruct (_ <=? next)%Z; [lia|]. rewrite length_drop. unfold page in Hfull. rewrite length_take in Hfull. lia.
      * rewrite <- (take_drop limit (beyond t after_rowid max_rowid)) at 1. rewrite keys_of_app.
        unfold keys_of at 1. unfold page. rewrite <- list_fmap_compose. set_solver.
Qed.

Lemma read_batch_length t limit rows batch rows' : read_batch t limit rows = (batch, rows') -> length batch <= limit.
Proof.
  destruct rows as [keys|after_rowid max_rowid]; cbn; intros [= <- <-].
  - transitivity (length (take limit keys)); [|rewrite length_take; lia].
    induction (take limit keys) as [|k l IH]; [done|]. cbn [omap list_omap length]. case_match; cbn [length]; lia.
  - rewrite length_map. unfold page. rewrite length_take. lia.
Qed.

Lemma exhausted_remaining t rows : is_exhausted rows = true -> remaining_keys t rows = ∅.
Proof.
  destruct rows as [[]|after_rowid max_rowid]; cbn; [set_solver|done|]. intros Hex%Z.leb_le.
  rewrite filter_none; [done|]. apply Forall_forall. intros r _. lia.
Qed.

Lemma pages_left_new t store total_chunks :
  pages_left t (new_rows t (sparse_missing_vector_keys t store total_chunks)) <= S (length t).
Proof.
  unfold sparse_missing_vector_keys. case_match; cbn [new_rows pages_left].
  - case_match; [lia|]. apply le_n_S, length_filter.
  - etrans; [apply length_filter|]. etrans; [apply NoDup_incl_length with (l' := vector_key <$> t)|].
    + apply NoDup_ListNoDup, NoDup_remove_dups.
    + intros k. rewrite <- !list_elem_of_In. by rewrite elem_of_remove_dups.
    + rewrite length_fmap. lia.
Qed.

(** A row the cursor has still to reach, if it stays. *)
Definition ahead (rows : EmbeddingRows) (r : ChunkRow) : Prop :=
  match rows with
  | Sparse keys => vector_key r ∈ keys
  | Sequential after_rowid max_rowid => (after_rowid < chunk_key r <= max_rowid)%Z
  end.
Lemma read_batch_ahead t limit rows batch rows' : by_rowid t -> 0 < limit -> is_exhausted rows = false -> read_batch t limit rows = (batch, rows') ->
  batches_left rows' < batches_left rows /\ forall r, r ∈ t -> ahead rows r -> vector_key r ∈ batch.*1 \/ ahead rows' r.
Proof.
  intros Hs Hl Hex. destruct rows as [keys|after_rowid max_rowid]; cbn [read_batch is_exhausted] in *.
  - intros [= <- <-]. destruct keys as [|k keys]; [done|]. cbn [batches_left ahead]. split; [rewrite length_drop; cbn [length]; lia|].
    intros r Hr Hk. rewrite <- (take_drop limit (k :: keys)) in Hk. apply elem_of_app in Hk as [Hk|Hk]; [left|by right].
    pose proof (row_of_key_spec t (vector_key r)) as Hrow. destruct (row_of_key t (vector_key r)) as [row|] eqn:E.
    + destruct Hrow as [He _]. rewrite <- He. apply list_elem_of_fmap. exists row. split; [done|]. apply list_elem_of_omap. by eexists.
    + destruct Hrow. unfold keys_of. rewrite elem_of_list_to_set, list_elem_of_fmap. by exists r.
  - apply Z.leb_gt in Hex. set (next := foldl _ _ _). intros [= <- <-]. cbn [batches_left ahead].
    pose proof (next_page t after_rowid max_rowid limit Hs Hl) as Hn. fold next in Hn.
    assert (forall r, r ∈ t -> (after_rowid < chunk_key r <= max_rowid)%Z -> r ∈ beyond t after_rowid max_rowid) as Hb by (intros r Hr Hk; by apply list_elem_of_filter).
    assert (forall r, r ∈ page t after_rowid max_rowid limit -> vector_key r ∈ (map (fun r => (vector_key r, compressed_text r)) (page t after_rowid max_rowid limit)).*1) as Hv.
    { intros r Hr. rewrite <- list_fmap_compose. apply list_elem_of_fmap. by exists r. }
    destruct (Nat.ltb_spec (length (page t after_rowid max_rowid limit)) limit) as [Hshort|Hfull].
    + split; [lia|]. intros r Hr Hk. left. apply Hv. unfold page in *. rewrite length_take in Hshort. rewrite take_ge by lia. by apply Hb.
    + destruct (Hn Hfull) as [Hgt Hbeyond]. split; [lia|]. intros r Hr Hk. pose proof (Hb r Hr Hk) as Hin.
      rewrite <- (take_drop limit (beyond t after_rowid max_rowid)) in Hin. apply elem_of_app in Hin as [Hin|Hin]; [left; by apply Hv|right].
      rewrite <- Hbeyond in Hin. by apply list_elem_of_filter in Hin as [Hin _].
Qed.
Lemma visit_batch_spec ok batch : forall seen, let '(continue, seen') := visit_batch ok seen batch in
  exists visited, seen' = seen ++ visited /\ visited `prefix_of` batch
    /\ if continue then visited = batch else exists before row, ok before row = false.
Proof.
  induction batch as [|row batch IH]; intros seen; cbn [visit_batch]; [exists []; by rewrite app_nil_r|].
  destruct (ok seen row) eqn:E.
  - specialize (IH (seen ++ [row])). destruct (visit_batch ok (seen ++ [row]) batch) as [continue seen']. destruct IH as (visited & -> & Hp & Hc).
    exists (row :: visited). rewrite <- app_assoc. split; [done|]. split; [by apply prefix_cons|]. destruct continue; [by f_equal|done].
  - exists [row]. split; [done|]. split; [by apply prefix_cons, prefix_nil|]. by exists seen, row.
Qed.
Lemma visit_rows tables ok limit : 0 < limit -> (forall i t, tables i = Some t -> by_rowid t) ->
  forall fuel i seen rows, batches_left rows <= fuel -> exists ended l, visit_embedding_rows tables ok limit fuel i seen rows = Some (ended, seen ++ l)
    /\ Forall (fun row => exists j t, tables j = Some t /\ row_in t row) l
    /\ (ended = true -> forall r, ahead rows r -> (forall j t, tables j = Some t -> r ∈ t) -> vector_key r ∈ l.*1)
    /\ (ended = false -> (exists j, i <= j /\ tables j = None) \/ exists before row, ok before row = false).
Proof.
  intros Hl Hs. induction fuel as [|fuel IH]; intros i seen rows Hf; cbn [visit_embedding_rows]; destruct (is_exhausted rows) eqn:Hex.
  1, 3: exists true, []; rewrite app_nil_r; split_and!; [done|constructor| |done]; intros _ r Ha _; exfalso;
    destruct rows as [[|k keys]|a m]; cbn in *; [by apply elem_of_nil in Ha|done|apply Z.leb_le in Hex; lia].
  - exfalso. destruct rows as [[|k keys]|a m]; cbn in *; [done|lia|apply Z.leb_gt in Hex; lia].
  - destruct (tables i) as [t|] eqn:Ei.
    2:{ exists false, []. rewrite app_nil_r. split_and!; [done|constructor|done|]. intros _. left. by exists i. }
    destruct (read_batch t limit rows) as [batch rows'] eqn:E. destruct (read_batch_ahead _ _ _ _ _ (Hs _ _ Ei) Hl Hex E) as [Hb Ha].
    pose proof (visit_batch_spec ok batch seen) as Hv. destruct (visit_batch ok seen batch) as [continue seen'].
    destruct Hv as (visited & -> & Hp & Hc). assert (Forall (fun row => exists j t, tables j = Some t /\ row_in t row) visited) as Hrows.
    { destruct Hp as [k Hp]. apply read_batch_rows in E. rewrite Hp in E. apply Forall_app in E as [E _].
      eapply Forall_impl; [exact E|]. intros row Hrow. by exists i, t. }
    destruct continue; [|exists false, visited; split_and!; [done|done|done|by right]]. subst visited.
    destruct (IH (S i) (seen ++ batch) rows' ltac:(lia)) as (ended & l & -> & Hin & Hall & Hstop). exists ended, (batch ++ l).
    rewrite app_assoc. split_and!; [done|by apply Forall_app| |].
    + intros He r Hr Hstay. rewrite fmap_app, elem_of_app. destruct (Ha r (Hstay i t Ei) Hr) as [Hk|Hk]; [by left|right]. by apply Hall.
    + intros He. destruct (Hstop He) as [(j & Hj & Hnone)|?]; [left; exists j; split; [lia|done]|by right].
Qed.

Lemma new_rows_ahead t store total_chunks r : numbered t -> r ∈ t -> vector_key r ∉ store ->
  ahead (new_rows t (sparse_missing_vector_keys t store total_chunks)) r.
Proof.
  intros [Hs Hp] Hr Hn. unfold sparse_missing_vector_keys. case_match; cbn [new_rows ahead].
  - destruct (max_rowid_spec t) as [_ Hm]. rewrite Forall_forall in Hp, Hm. specialize (Hp r Hr). specialize (Hm r Hr). cbn in *. lia.
  - apply list_elem_of_filter. split; [done|]. apply elem_of_remove_dups, list_elem_of_fmap. by exists r.
Qed.

Lemma new_rows_remaining t store total_chunks : numbered t ->
  keys_of t ⊆ store ∪ remaining_keys t (new_rows t (sparse_missing_vector_keys t store total_chunks)).
Proof.
  intros [Hs Hp]. unfold sparse_missing_vector_keys. case_match; cbn [new_rows remaining_keys].
  - rewrite filter_all; [set_solver|]. destruct (max_rowid_spec t) as [_ Hm].
    rewrite Forall_forall in Hp, Hm |- *. intros r Hr. specialize (Hp r Hr). specialize (Hm r Hr). cbn in *. lia.
  - intros k Hk. destruct (decide (k ∈ store)) as [|Hn]; [by apply elem_of_union_l|].
    apply elem_of_union_r, elem_of_intersection. split; [|done]. apply elem_of_list_to_set, list_elem_of_filter.
    split; [done|]. apply elem_of_remove_dups. unfold keys_of in Hk. by apply elem_of_list_to_set in Hk.
Qed.

(** C11. Visiting the rows of a worker ends, and misses no row that stays.  The table is
    read again for every batch, in whatever state the updates in between have left it.  The
    visit ends after at most as many batches as there were missing keys or rowids; it visits
    rows of the tables it read only; it ends early only when the index was replaced or could
    not be read, or when the visitor failed; and otherwise the key of every row that was in
    the table at the beginning and in every table read, and that the store lacked, is the key
    of a row visited, whether the worker pages or looks keys up. *)
Theorem embedding_rows_complete t store total_chunks tables ok limit : numbered t -> 0 < limit ->
  (forall i t', tables i = Some t' -> numbered t') ->
  let rows := new_rows t (sparse_missing_vector_keys t store total_chunks) in
  exists ended l, visit_embedding_rows tables ok limit (batches_left rows) 0 [] rows = Some (ended, l)
    /\ Forall (fun row => exists i t', tables i = Some t' /\ row_in t' row) l
    /\ (ended = true -> forall r, r ∈ t -> (forall i t', tables i = Some t' -> r ∈ t') -> vector_key r ∉ store -> vector_key r ∈ l.*1)
    /\ (ended = false -> (exists i, tables i = None) \/ exists before row, ok before row = false).
Proof.
  intros Hn Hl Ht rows. destruct (visit_rows tables ok limit Hl (fun i t' H => proj1 (Ht i t' H)) (batches_left rows) 0 [] rows (le_n _))
    as (ended & l & Hv & Hin & Hall & Hstop). cbn [app] in Hv. exists ended, l. split_and!; [done|done| |].
  - intros He r Hr Hstay Hk. apply Hall; [done|by apply new_rows_ahead|done].
  - intros He. destruct (Hstop He) as [(j & _ & Hj)|?]; [left; by exists j|by right].
Qed.

(** Between the batches an update deletes the first row and adds one. *)
Definition example_table : Table := insert_chunks [] [] [(1%N, []); (2%N, []); (3%N, [7%N])].
Definition changed_table : Table := insert_chunks (drop 1 example_table) [] [(4%N, [])].
Definition example_tables (i : nat) : option Table := Some (match i with O => example_table | _ => changed_table end).
Lemma embedding_rows_complete_witness :
  exists l, visit_embedding_rows example_tables (fun _ _ => true) 1 3 0 [] (Sequential 0 3) = Some (true, l)
    /\ l.*1 = [1%N; 2%N; 3%N] /\ forall r, r ∈ example_table -> r ∈ changed_table -> vector_key r ∈ l.*1.
Proof.
  destruct (embedding_rows_complete example_table ∅ 3 example_tables (fun _ _ => true) 1) as (ended & l & Hv & _ & Hk & Hs).
  - apply numbered_insert. by repeat constructor.
  - lia.
  - intros [|i] t' [= <-]; [apply numbered_insert; by repeat constructor|]. apply numbered_insert. split.
    + apply (bool_decide_unpack _). vm_compute. exact I.
    + apply (bool_decide_unpack _). vm_compute. exact I.
  - destruct ended; [|destruct (Hs eq_refl) as [[[|i] Hi]|(before & row & H)]; discriminate].
    change (batches_left _) with 3 in Hv. exists l. split; [exact Hv|]. split.
    + vm_compute in Hv. injection Hv as <-. reflexivity.
    + intros r Hr Hc. apply (Hk eq_refl r Hr); [|apply not_elem_of_empty]. intros [|i] t' [= <-]; done.
Defined.
