(* ===== verification/Enhancement.v ===== *)
(** * Background hash enhancement beside lexical indexing.

  A worker computes the vectors of an index outside the index lock: it opens the store and
  claims the deletion journal under the lock, pages through the rows, embeds in batches,
  and publishes under the lock only while the index is of the same incarnation.  Meanwhile
  updates publish under the lock and may stop anywhere, which leaves a marker that makes
  the next run rebuild the index.  [World] is what the two share on disk; [step] lets them
  interleave, and lets either die at any point. *)
From S2P Require Import Prelude Utf8 Paths ChunkTable IndexStats Tombstones IndexPersist EmbeddingRows IndexPublishFacts.

Definition BATCH_SIZE : nat := 2048.
Definition CHECKPOINT_INTERVAL : Z := 262144.

Section Enhancement.
(** Vectors, the embedding of a text, and the decompression of stored text. *)
Context {Vec : Type} (embed : str -> Vec) (try_decompress_text : list N -> option str).
Abbreviation VectorStore := (gmap key Vec).

(** ** The vector store *)

(** [add_batch_unchecked] of the optimised store: a key that is already there is an error of
    the native index.  The lanes of a large batch insert the same entries in some order; a
    batch that fails is lost with its worker. *)
Fixpoint add_batch (entries : list (key * Vec)) (store : VectorStore) : option VectorStore :=
  match entries with
  | [] => Some store
  | (k, v) :: entries =>
    match store !! k with
    | Some _ => None
    | None => add_batch entries (<[k := v]> store)
    end
  end.
Definition remove_keys (keys : list key) (store : VectorStore) : VectorStore :=
  foldl (fun store k => delete k store) store keys.

(** ** The worker *)

Record Worker := MkWorker {
  w_incarnation : list N;
  w_generation : Z;
  removed_tombstones : bool;
  total_chunks : Z;
  vector_index : VectorStore;
  embedding_rows : EmbeddingRows;
  fetched : list EmbeddingRow;
  batch : list (key * str);
  batch_keys : gset key;
  newly_processed : Z
}.

Definition set_index (w : Worker) (index : VectorStore) (b : list (key * str)) (ks : gset key) (n : Z) : Worker :=
  MkWorker (w_incarnation w) (w_generation w) (removed_tombstones w) (total_chunks w)
    index (embedding_rows w) (fetched w) b ks n.
Definition set_rows_left (w : Worker) (rows : EmbeddingRows) (l : list EmbeddingRow) : Worker :=
  MkWorker (w_incarnation w) (w_generation w) (removed_tombstones w) (total_chunks w)
    (vector_index w) rows l (batch w) (batch_keys w) (newly_processed w).

(** [None] when the store refuses an entry. *)
Definition process_batch (w : Worker) : option Worker :=
  index ← add_batch (map (fun e => (e.1, embed e.2)) (batch w)) (vector_index w);
  Some (set_index w index [] (batch_keys w) (newly_processed w + Z.of_nat (length (batch w)))).

(** ** What is shared *)

Record World := MkWorld {
  disk : Disk;
  processing : option (list N);
  hash_store : VectorStore;
  incarnation : list N;
  index_generation : Z;
  hash_enhanced_generation : option Z;
  indexing_incomplete : bool;
  (** The update that holds the index lock, by what it has still to make durable. *)
  publisher : option (list Durable);
  worker : option Worker
}.

Definition set_worker (W : World) (w : option Worker) : World :=
  MkWorld (disk W) (processing W) (hash_store W) (incarnation W) (index_generation W)
    (hash_enhanced_generation W) (indexing_incomplete W) (publisher W) w.
Definition set_store (W : World) (s : VectorStore) : World :=
  MkWorld (disk W) (processing W) s (incarnation W) (index_generation W)
    (hash_enhanced_generation W) (indexing_incomplete W) (publisher W) (worker W).
Definition set_processing (W : World) (proc : option (list N)) : World :=
  MkWorld (disk W) proc (hash_store W) (incarnation W) (index_generation W)
    (hash_enhanced_generation W) (indexing_incomplete W) (publisher W) (worker W).
Definition set_pending (W : World) (pending : option (list N)) : World :=
  MkWorld
    (MkDisk (d_rows (disk W)) (d_stats (disk W)) (d_tombstones (disk W)) (d_docs (disk W))
       (fun tier => if decide (tier = Hash) then pending else d_journal (disk W) tier))
    (processing W) (hash_store W) (incarnation W) (index_generation W)
    (hash_enhanced_generation W) (indexing_incomplete W) (publisher W) (worker W).
Definition set_enhanced (W : World) (g : option Z) : World :=
  MkWorld (disk W) (processing W) (hash_store W) (incarnation W) (index_generation W)
    g (indexing_incomplete W) (publisher W) (worker W).
Definition set_publisher (W : World) (d : Disk) (generation : Z) (incomplete : bool) (p : option (list Durable)) : World :=
  MkWorld d (processing W) (hash_store W) (incarnation W) generation
    (hash_enhanced_generation W) incomplete p (worker W).

(** ** The worker's critical sections, each under the index lock *)

(** The beginning: a store of another shape is reset, the journal is claimed and its keys
    are removed from the store in memory. *)
Definition start_worker (rename_fails read_fails other_shape : bool) (W : World) : World :=
  let W := if other_shape then set_store W ∅ else W in
  let t := d_rows (disk W) in
  let '(claimed, (pending, proc)) :=
    claim_vector_tombstones rename_fails read_fails (d_journal (disk W) Hash) (processing W) in
  let W := set_processing (set_pending W pending) proc in
  match claimed with
  | Err _ => set_worker W None
  | Ok keys =>
    let index := remove_keys (unwrap_or [] keys) (hash_store W) in
    let total := count_keys t in
    set_worker W (Some (MkWorker (incarnation W) (index_generation W) (is_some keys) total index
      (new_rows t (sparse_missing_vector_keys t (dom index) total)) [] [] ∅ 0))
  end.

(** [lock_current]: a worker whose index was replaced ends with an error. *)
Definition lock_current (W : World) (w : Worker) (go : World) : World :=
  if decide (w_incarnation w = incarnation W) then go else set_worker W None.

Definition fetch_rows (W : World) (w : Worker) : World :=
  lock_current W w
    (let '(l, rows) := read_batch (d_rows (disk W)) BATCH_SIZE (embedding_rows w) in
     set_worker W (Some (set_rows_left w rows l))).

(** The end of a full batch: progress, and from time to time a save. *)
Definition publish_batch (W : World) (w : Worker) : World :=
  lock_current W w
    (let W := set_worker W (Some w) in
     if (newly_processed w mod CHECKPOINT_INTERVAL =? 0)%Z then set_store W (vector_index w) else W).

(** One row: passed over when its key has a vector or is in the batch; an error when its
    text is damaged. *)
Definition visit_row (W : World) (w : Worker) : World :=
  match fetched w with
  | [] => W
  | (k, raw) :: rest =>
    let w := set_rows_left w (embedding_rows w) rest in
    if is_some (vector_index w !! k) || bool_decide (k ∈ batch_keys w) then set_worker W (Some w)
    else
      match try_decompress_text raw with
      | None => set_worker W None
      | Some text =>
        let w := set_index w (vector_index w) (batch w ++ [(k, text)]) ({[k]} ∪ batch_keys w) (newly_processed w) in
        if BATCH_SIZE <=? length (batch w) then
          match process_batch w with
          | None => set_worker W None
          | Some w => publish_batch W (set_index w (vector_index w) [] ∅ (newly_processed w))
          end
        else set_worker W (Some w)
      end
  end.
(** A row that fills the batch needs the index lock. *)
Definition batch_fills (w : Worker) : bool := BATCH_SIZE <=? S (length (batch w)).

(** The last critical section writes the store, removes the claimed journal and notes the
    generation, in this order; a worker that dies in it has made the first [n] writes. *)
Definition save_store (W : World) (w : Worker) : World :=
  if (total_chunks w =? 0)%Z && removed_tombstones w then set_store W ∅
  else if (0 <? newly_processed w)%Z || removed_tombstones w then set_store W (vector_index w)
  else W.
Definition remove_journal (W : World) (w : Worker) : World :=
  if removed_tombstones w then set_processing W None else W.
Definition note_generation (W : World) (w : Worker) : World :=
  if (index_generation W =? w_generation w)%Z then set_enhanced W (Some (w_generation w)) else W.

Definition final_writes : list (World -> Worker -> World) := [save_store; remove_journal; note_generation].
Definition finish_worker (n : nat) (W : World) (w : Worker) : World :=
  match (match batch w with [] => Some w | _ => process_batch w end) with
  | None => set_worker W None
  | Some w =>
    lock_current W w (set_worker (foldl (fun W write => write W w) W (take n final_writes)) None)
  end.

(** ** Interleavings *)

(** What an interrupted append leaves: part of the payload, and zeros. *)
Definition torn_append (d : Disk) (tier : Tier) (p : list N) (zeros : nat) : Disk :=
  apply_durable d (Append tier (p ++ repeat 0%N zeros)).

Definition update_events (overlay : bool) (base : list N -> bool) (clear deleted modified : list path)
    (files : list IndexedFile) (d : Disk) : list Durable :=
  durable (run_update overlay false base clear deleted modified files
    (begin_run false (d_rows d) (d_stats d) (d_tombstones d) (d_docs d)
       (with_max_pending_bytes true MAX_VECTOR_TOMBSTONE_TRANSACTION_BYTES))).

Definition empty_disk : Disk := MkDisk [] ∅ ∅ [] (fun _ => None).
(** A fresh index, built in staging: its tables start empty, and no journal is written. *)
Definition fresh_disk (overlay : bool) (base : list N -> bool) (deleted modified : list path)
    (files : list IndexedFile) : Disk :=
  let r := run_update overlay true base [] deleted modified files
    (begin_run true [] ∅ ∅ [] (with_max_pending_bytes true MAX_VECTOR_TOMBSTONE_TRANSACTION_BYTES)) in
  let d := replay empty_disk (durable r) in
  MkDisk (d_rows d) (d_stats d) (d_tombstones d) (d_docs d) (fun _ => None).

Inductive step (W : World) : World -> Prop :=
(** An update begins only over a complete index; the marker is written first. *)
| publish_begin overlay base clear deleted modified files :
    publisher W = None -> indexing_incomplete W = false -> Forall keys_in_range files ->
    step W (set_publisher W (disk W) (index_generation W) true
      (Some (update_events overlay base clear deleted modified files (disk W))))
| publish_event e es : publisher W = Some (e :: es) ->
    step W (set_publisher W (apply_durable (disk W) e) (index_generation W) (indexing_incomplete W) (Some es))
| publish_torn tier p es n zeros : publisher W = Some (Append tier p :: es) ->
    step W (set_publisher W (torn_append (disk W) tier (take n p) zeros)
      (index_generation W) (indexing_incomplete W) None)
| publish_stop es : publisher W = Some es ->
    step W (set_publisher W (disk W) (index_generation W) (indexing_incomplete W) None)
(** The generation is written before the marker is removed. *)
| publish_finish finished : publisher W = Some [] ->
    step W (set_publisher W (disk W) (index_generation W + 1) (negb finished) None)
(** A rebuild that is carried through replaces every store and journal, and the incarnation
    with a new one. *)
| rebuild overlay base deleted modified files fresh_incarnation finished :
    publisher W = None -> distinct_files files -> Forall keys_in_range files ->
    fresh_incarnation <> incarnation W ->
    (forall w, worker W = Some w -> w_incarnation w <> fresh_incarnation) ->
    step W (MkWorld (fresh_disk overlay base deleted modified files) None ∅ fresh_incarnation
      (index_generation W + 1) None (negb finished) None (worker W))
(** One that fails or dies on its way, between any two of its removals, renames and writes,
    leaves an index that counts as incomplete, whose vectors are the old ones or gone, and
    whose other stores, journals and marks are anything. *)
| rebuild_stops d proc store id generation enhanced : publisher W = None ->
    store = hash_store W \/ store = ∅ ->
    step W (MkWorld d proc store id generation enhanced true None (worker W))
| worker_starts rename_fails read_fails other_shape : publisher W = None -> worker W = None ->
    step W (start_worker rename_fails read_fails other_shape W)
| worker_fetches w : publisher W = None -> worker W = Some w ->
    fetched w = [] -> is_exhausted (embedding_rows w) = false -> step W (fetch_rows W w)
| worker_visits w : worker W = Some w -> fetched w <> [] ->
    (batch_fills w = true -> publisher W = None) -> step W (visit_row W w)
| worker_finishes n w : publisher W = None -> worker W = Some w ->
    fetched w = [] -> is_exhausted (embedding_rows w) = true -> step W (finish_worker n W w)
| worker_dies : step W (set_worker W None).

(** A workspace that was never indexed; only a rebuild can publish to it. *)
Definition initial_world (id : list N) : World :=
  MkWorld empty_disk None ∅ id 0 None true None None.

Inductive reachable : World -> Prop :=
| reachable_init id : reachable (initial_world id)
| reachable_step W W' : reachable W -> step W W' -> reachable W'.

(** ** Status *)

(** workspace.rs: cached counts, zero when either is missing. *)
Definition read_sqlite_counts (stats : StatsTable) : Z * Z :=
  match stats !! "chunk_count"%string, stats !! "file_count"%string with
  | Some chunks, Some files => (chunks, files)
  | _, _ => (0, 0)%Z
  end.

Definition needs_hash_enhancement (store_readable : bool) (W : World) : bool :=
  let hash_tombstones_pending := is_some (d_journal (disk W) Hash) || is_some (processing W) in
  let '(chunk_count, _) := read_sqlite_counts (d_stats (disk W)) in
  if (chunk_count =? 0)%Z then hash_tombstones_pending
  else if negb (bool_decide (hash_enhanced_generation W = Some (index_generation W))) || hash_tombstones_pending
  then true
  else
    let vector_key_count := unwrap_or 0%Z (d_stats (disk W) !! "vector_key_count"%string) in
    if store_readable then (Z.of_nat (size (hash_store W)) <? vector_key_count)%Z else true.
End Enhancement.

(** * The vectors on disk always account for the index.

  Whatever interleaving of updates, rebuilds, workers and deaths led to it, every vector in
  the store belongs to a row or to a journaled deletion ([tracked_inv]).  So when the index
  is complete and reports that no enhancement is needed, the store holds exactly the keys
  of the index ([enhanced_store_exact]). *)

Section Facts.
Context {Vec : Type} (embed : str -> Vec) (try_decompress_text : list N -> option str).
Abbreviation VectorStore := (gmap key Vec).
Abbreviation World := (@World Vec).
Abbreviation Worker := (@Worker Vec).
Abbreviation step := (step embed try_decompress_text).
Abbreviation reachable := (reachable embed try_decompress_text).

(** ** The keys to account for *)

Definition claimed_keys (file : option (list N)) : list key :=
  match claim_keys (unwrap_or [] file) with Ok ks => ks | Err _ => [] end.

Definition worker_keys (w : Worker) : gset key :=
  dom (vector_index w) ∪ list_to_set (fetched w).*1 ∪ list_to_set (batch w).*1.

(** The keys of the store that the claimed journal does not delete, and those a worker of
    this incarnation may still save. *)
Definition tracked_keys (W : World) : gset key :=
  (dom (hash_store W) ∖ list_to_set (claimed_keys (processing W))) ∪
  match worker W with
  | Some w => if decide (w_incarnation w = incarnation W) then worker_keys w else ∅
  | None => ∅
  end.

Definition visible (K : gset key) (d : Disk) : Prop :=
  is_ok (claim_keys (unwrap_or [] (d_journal d Hash))) = true /\
  K ⊆ keys_of (d_rows d) ∪ list_to_set (claimed_keys (d_journal d Hash)).

Definition in_range_rows (t : Table) : Prop := Forall (fun row => in_range (vector_key row)) t.

(** A disk between two publications. *)
Record settled (d : Disk) : Prop := {
  settled_journals : forall tier, exists ks, holds (d_journal d tier) ks;
  settled_stats : stats_exact (d_stats d) (d_rows d);
  settled_range : in_range_rows (d_rows d);
  settled_numbered : numbered (d_rows d)
}.

Definition tier_keys (K : gset key) (tier : Tier) : gset key := match tier with Hash => K | Neural => ∅ end.

(** A publication under way keeps the keys at every prefix of what it has left. *)
Record publishing (K : gset key) (d : Disk) (events : list Durable) : Prop := {
  publishing_kept : forall pre tier, pre `prefix_of` events -> kept (tier_keys K tier) tier (replay d pre);
  publishing_appends : Forall append_ok events;
  publishing_end : settled (replay d events)
}.

Record tracked_inv (W : World) : Prop := {
  inv_visible : visible (tracked_keys W) (disk W);
  inv_processing : is_ok (claim_keys (unwrap_or [] (processing W))) = true;
  inv_settled : indexing_incomplete W = false -> settled (disk W);
  inv_publishing : forall events, publisher W = Some events ->
    indexing_incomplete W = true /\ publishing (tracked_keys W) (disk W) events
}.

Lemma claimed_holds file ks : holds file ks -> claim_keys (unwrap_or [] file) = Ok ks.
Proof. intros [-> Hk]. by apply claim_payload. Qed.

Lemma kept_visible K d : kept K Hash d -> visible K d.
Proof.
  intros (ks & Hh & Hs). apply claimed_holds in Hh. unfold visible, claimed_keys. by rewrite Hh.
Qed.
Lemma kept_weaken K K' tier d : K' ⊆ K -> kept K tier d -> kept K' tier d.
Proof. intros HK (ks & Hh & Hs). exists ks. split; [done|]. set_solver. Qed.
Lemma visible_weaken K K' d : K' ⊆ K -> visible K d -> visible K' d.
Proof. intros HK [Hc Hs]. split; [done|]. set_solver. Qed.
Lemma publishing_weaken K K' d es : K' ⊆ K -> publishing K d es -> publishing K' d es.
Proof.
  intros HK [Hk Ha He]. split; [|done..]. intros pre tier Hp. eapply kept_weaken; [|by apply Hk].
  destruct tier; [done|apply empty_subseteq].
Qed.
Lemma settled_kept K d tier : settled d -> visible K d -> kept (tier_keys K tier) tier d.
Proof.
  intros [Hj _ _ _] [_ Hs]. destruct (Hj tier) as (ks & Hh). exists ks. split; [done|]. destruct tier; cbn.
  - apply claimed_holds in Hh. unfold claimed_keys in Hs. by rewrite Hh in Hs.
  - apply empty_subseteq.
Qed.

(** ** Publications *)

Lemma settled_fresh overlay base deleted modified files : distinct_files files -> Forall keys_in_range files ->
  settled (fresh_disk overlay base deleted modified files).
Proof.
  intros Hd Hr. set (j := with_max_pending_bytes true MAX_VECTOR_TOMBSTONE_TRANSACTION_BYTES).
  assert (forall tier : Tier, exists ks, holds None ks) as Hj by by exists [].
  split; unfold fresh_disk; cbn [d_journal d_stats d_rows]; [done|..].
  - apply (run_counts overlay true base [] deleted modified files empty_disk). by split.
  - apply (run_range overlay true base [] deleted modified files empty_disk); [constructor|done..].
  - apply (run_numbers overlay true base [] deleted modified files empty_disk). by repeat constructor.
Qed.

Lemma publishing_update K d overlay base clear deleted modified files :
  settled d -> visible K d -> Forall keys_in_range files ->
  publishing K d (update_events overlay base clear deleted modified files d).
Proof.
  intros Hd Hv Hf. pose proof Hd as [Hj Hs Hr Hn].
  assert (forall tier, kept (tier_keys K tier) tier d) as Hk by (intros; by apply settled_kept).
  destruct (run_journals overlay false base clear deleted modified files d MAX_VECTOR_TOMBSTONE_TRANSACTION_BYTES
    (tier_keys K) Hr Hf Hk) as [Hp _ Ha _ _].
  split; [done|done|]. split.
  - intros tier. destruct (Hp _ tier (reflexivity _)) as (ks & Hh & _). by exists ks.
  - by apply run_counts.
  - by apply run_range.
  - by apply run_numbers.
Qed.

Lemma publishing_event K d e es : publishing K d (e :: es) -> publishing K (apply_durable d e) es.
Proof.
  intros [Hk Ha He]. apply Forall_cons in Ha as [_ Ha]. split; [|done|done].
  intros pre tier Hpre. apply (Hk (e :: pre) tier). by apply prefix_cons.
Qed.
Lemma publishing_visible K d es : publishing K d es -> visible K d.
Proof. intros [Hk _ _]. apply kept_visible, (Hk [] Hash). apply prefix_nil. Qed.

Lemma torn_visible K d tier p es n zeros : publishing K d (Append tier p :: es) ->
  visible K (torn_append d tier (take n p) zeros).
Proof.
  intros [Hk Ha _]. apply Forall_cons in Ha as [(ks' & -> & Hr) _].
  destruct (Hk [] Hash (prefix_nil _)) as (ks & [Hf Hks] & Hs). cbn [replay foldl] in *.
  unfold visible, torn_append, claimed_keys. cbn [apply_durable d_journal d_rows]. case_decide as Ht.
  - cbn [append unwrap_or]. rewrite Hf. destruct (claim_torn ks ks' n zeros Hks Hr) as (i & ->).
    split; [done|]. rewrite list_to_set_app_L. cbn in Hs. set_solver.
  - rewrite Hf, claim_payload by done. by split.
Qed.

(** ** The worker *)

Lemma add_batch_dom entries (store store' : VectorStore) : add_batch entries store = Some store' ->
  dom store' = dom store ∪ list_to_set entries.*1.
Proof.
  revert store. induction entries as [|[k v] entries IH]; intros store; cbn [add_batch fmap list_fmap list_to_set].
  - intros [= <-]. cbn. by rewrite union_empty_r_L.
  - destruct (store !! k); [done|]. intros Hs%IH. rewrite Hs, dom_insert_L. cbn. set_solver.
Qed.
Lemma remove_keys_dom ks (store : VectorStore) : dom (remove_keys ks store) = dom store ∖ list_to_set ks.
Proof.
  unfold remove_keys. revert store. induction ks as [|k ks IH]; intros store; cbn [foldl].
  - set_solver.
  - rewrite IH, dom_delete_L. set_solver.
Qed.
Lemma entries_keys (b : list (key * str)) : (map (fun e => (e.1, embed e.2)) b).*1 = b.*1.
Proof. induction b as [|e b IH]; [done|]. cbn. by f_equal. Qed.

Lemma process_batch_keys w w' : process_batch embed w = Some w' ->
  worker_keys w' ⊆ worker_keys w /\ w_incarnation w' = w_incarnation w /\ fetched w' = fetched w /\
  dom (vector_index w') ⊆ worker_keys w.
Proof.
  unfold process_batch. destruct (add_batch _ _) as [index|] eqn:E; [|done]. intros [= <-].
  apply add_batch_dom in E. rewrite entries_keys in E. unfold worker_keys. cbn. rewrite E. set_solver.
Qed.

(** A change that leaves the index alone and accounts for no new key. *)
Record quiet (W W' : World) : Prop := {
  quiet_disk : disk W' = disk W;
  quiet_incomplete : indexing_incomplete W' = indexing_incomplete W;
  quiet_publisher : publisher W' = publisher W;
  quiet_processing : processing W' = processing W \/ processing W' = None;
  quiet_keys : tracked_keys W' ⊆ tracked_keys W
}.

Lemma quiet_inv W W' : quiet W W' -> tracked_inv W -> tracked_inv W'.
Proof.
  intros [Hd Hi Hp Hc Hk] [Hv Hpr Hs Hpub]. split; rewrite ?Hd, ?Hi, ?Hp.
  - by eapply visible_weaken.
  - by destruct Hc as [->| ->].
  - done.
  - intros es Hes. destruct (Hpub es Hes) as [Hinc Hes']. split; [done|]. by eapply publishing_weaken.
Qed.
Lemma quiet_refl W : quiet W W.
Proof. split; auto. Qed.
Lemma quiet_trans W1 W2 W3 : quiet W1 W2 -> quiet W2 W3 -> quiet W1 W3.
Proof.
  intros [Hd Hi Hp Hc Hk] [Hd' Hi' Hp' Hc' Hk']. split; [congruence..| |by etrans].
  destruct Hc' as [->|]; [done|by right].
Qed.

Definition live_keys (W : World) (w : option Worker) : gset key :=
  match w with
  | Some w => if decide (w_incarnation w = incarnation W) then worker_keys w else ∅
  | None => ∅
  end.

Lemma quiet_worker W w : live_keys W w ⊆ live_keys W (worker W) -> quiet W (set_worker W w).
Proof. intros Hk. split; [done..|by left|]. unfold tracked_keys, live_keys in *. cbn. set_solver. Qed.
Lemma quiet_dead W : quiet W (set_worker W None).
Proof. apply quiet_worker, empty_subseteq. Qed.
Lemma quiet_alive W w w' : worker W = Some w -> w_incarnation w' = w_incarnation w -> worker_keys w' ⊆ worker_keys w ->
  quiet W (set_worker W (Some w')).
Proof.
  intros Hw Hi Hk. apply quiet_worker. rewrite Hw. unfold live_keys. rewrite Hi. by case_decide.
Qed.
(** Saving keys the worker accounts for. *)
Lemma quiet_store W w s : worker W = Some w -> w_incarnation w = incarnation W -> dom s ⊆ worker_keys w ->
  quiet W (set_store W s).
Proof.
  intros Hw Hi Hk. split; [done..|by left|]. unfold tracked_keys. cbn. rewrite Hw, decide_True by done. set_solver.
Qed.

Lemma visit_quiet W w : worker W = Some w -> quiet W (visit_row embed try_decompress_text W w).
Proof.
  intros Hw. unfold visit_row. destruct (fetched w) as [|[k raw] rest] eqn:Hf; [apply quiet_refl|].
  destruct (_ || _); [|destruct (try_decompress_text raw) as [text|]; [|apply quiet_dead]].
  - apply (quiet_alive _ w); [done..|]. unfold worker_keys. cbn. rewrite Hf. set_solver.
  - set (w1 := set_index _ _ _ _ _).
    assert (worker_keys w1 ⊆ worker_keys w) as H1.
    { unfold worker_keys, w1. cbn. rewrite Hf, fmap_app, list_to_set_app_L. cbn. set_solver. }
    destruct (_ <=? _); [|by apply (quiet_alive _ w)].
    destruct (process_batch embed w1) as [w2|] eqn:E; [|apply quiet_dead].
    apply process_batch_keys in E as (H2 & Hi2 & Hf2 & Hd2). set (w3 := set_index w2 _ _ _ _).
    assert (worker_keys w3 ⊆ worker_keys w) as H3 by (unfold worker_keys, w3 in *; cbn; set_solver).
    unfold publish_batch, lock_current. case_decide as Hi; [|apply quiet_dead].
    assert (quiet W (set_worker W (Some w3))) as Hq by by apply (quiet_alive _ w).
    case_match; [|done]. eapply quiet_trans; [exact Hq|]. apply (quiet_store _ w3); [done..|].
    unfold worker_keys. set_solver.
Qed.

Lemma fetch_quiet_inv W w : worker W = Some w -> fetched w = [] -> publisher W = None ->
  tracked_inv W -> tracked_inv (fetch_rows W w).
Proof.
  intros Hw Hf Hp Hinv. unfold fetch_rows, lock_current. case_decide as Hi; [|by eapply quiet_inv; [apply quiet_dead|]].
  destruct (read_batch _ _ _) as [l rows] eqn:E. apply read_batch_rows in E. destruct Hinv as [[Hc Hk] Hpr Hs Hpub].
  split; [|done|done|cbn; rewrite Hp; done]. split; [done|]. cbn [set_worker disk].
  assert (list_to_set l.*1 ⊆ keys_of (d_rows (disk W))) as Hl.
  { intros x (row & -> & Hrow)%elem_of_list_to_set%list_elem_of_fmap. rewrite Forall_forall in E.
    apply row_in_keys. by apply E. }
  unfold tracked_keys in *. rewrite Hw in Hk. cbn in *. rewrite decide_True in * by done.
  unfold worker_keys in *. cbn in *. rewrite Hf in Hk. set_solver.
Qed.

(** A live worker's last writes: afterwards the store alone accounts for its keys. *)
Lemma quiet_saved W W' w : worker W = Some w -> w_incarnation w = incarnation W ->
  disk W' = disk W -> indexing_incomplete W' = indexing_incomplete W -> publisher W' = publisher W -> worker W' = None ->
  processing W' = processing W \/ processing W' = None ->
  (dom (hash_store W') ⊆ worker_keys w \/
   (hash_store W' = hash_store W /\ processing W' = processing W)) -> quiet W W'.
Proof.
  intros Hw Hi Hd Hn Hp Hw' Hc Hk. split; [done..|]. unfold tracked_keys. rewrite Hw', Hw, decide_True by done.
  destruct Hk as [Hk|[-> ->]]; set_solver.
Qed.

Lemma finish_quiet n W w : worker W = Some w -> quiet W (finish_worker embed n W w).
Proof.
  intros Hw. unfold finish_worker.
  assert (forall w', worker_keys w' ⊆ worker_keys w -> dom (vector_index w') ⊆ worker_keys w ->
    w_incarnation w' = w_incarnation w ->
    quiet W (lock_current W w' (set_worker (foldl (fun W write => write W w') W (take n final_writes)) None))) as Hend.
  { intros w' Hk Hd Hi'. unfold lock_current. case_decide as Hi; [|apply quiet_dead].
    assert (dom (∅ : VectorStore) ⊆ worker_keys w) as He by (rewrite dom_empty_L; apply empty_subseteq).
    destruct n as [|[|[|n]]]; cbn [take final_writes foldl]; rewrite ?take_nil; cbn [foldl];
      unfold note_generation, remove_journal, save_store;
      apply (quiet_saved W _ w Hw); try congruence;
      destruct (removed_tombstones w'), (total_chunks w' =? 0)%Z, (0 <? newly_processed w')%Z;
      cbn [andb orb set_store set_processing index_generation];
      try destruct (_ =? w_generation w')%Z; cbn; auto. }
  destruct (batch w) as [|e b] eqn:Eb.
  - apply Hend; [done| |done]. unfold worker_keys. set_solver.
  - destruct (process_batch embed w) as [w'|] eqn:E; [|apply quiet_dead].
    apply process_batch_keys in E as (H1 & H2 & H3 & H4). by apply Hend.
Qed.

Lemma claimed_none : claimed_keys None = [].
Proof. done. Qed.

Lemma live_start W id g rt t index rows : id = incarnation W ->
  live_keys W (Some (MkWorker id g rt t index rows [] [] ∅ 0)) = dom index.
Proof. intros ->. unfold live_keys, worker_keys. cbn. rewrite decide_True by done. set_solver. Qed.

(** The journals after a claim, and a new worker or none. *)
Lemma claim_inv W pending proc w : tracked_inv W -> worker W = None -> publisher W = None ->
  is_ok (claim_keys (unwrap_or [] pending)) = true -> is_ok (claim_keys (unwrap_or [] proc)) = true ->
  pending = None \/ pending = d_journal (disk W) Hash ->
  dom (hash_store W) ∖ list_to_set (claimed_keys proc) ∪ live_keys W w ⊆
    keys_of (d_rows (disk W)) ∪ list_to_set (claimed_keys pending) ->
  tracked_inv (set_worker (set_processing (set_pending W pending) proc) w).
Proof.
  intros [_ _ Hs _] Hw Hp Hok Hok' Hpend Hsub. split; [|done|intros Hinc|cbn; by rewrite Hp].
  - split; [done|]. unfold tracked_keys, live_keys in *. cbn. by destruct w.
  - destruct (Hs Hinc) as [Hj Hst Hr Hn]. split; [|done..]. intros tier. cbn. case_decide; [|done].
    destruct Hpend as [->| ->]; [by exists []|apply Hj].
Qed.

Lemma start_inv a b c W : worker W = None -> publisher W = None -> tracked_inv W ->
  tracked_inv (start_worker a b c W).
Proof.
  intros Hw Hp Hinv. unfold start_worker. set (W1 := if c then set_store W ∅ else W).
  assert (tracked_inv W1 /\ disk W1 = disk W /\ worker W1 = None /\ publisher W1 = None) as (Hinv1 & _ & Hw1 & Hp1).
  { unfold W1. destruct c; [|done]. split_and!; [|done..]. eapply quiet_inv; [|done]. split; [done..|by left|].
    unfold tracked_keys. cbn. rewrite Hw. rewrite dom_empty_L. set_solver. }
  clearbody W1. clear Hinv Hw Hp. pose proof Hinv1 as [[Hc Hk] Hpr _ _].
  unfold tracked_keys in Hk. rewrite Hw1, union_empty_r_L in Hk.
  unfold claim_vector_tombstones. destruct (processing W1) as [f|] eqn:Epr; [|destruct (d_journal (disk W1) Hash) as [f|] eqn:Ej].
  - cbn [unwrap_or] in Hpr. destruct b; [|destruct (claim_keys f) as [ks|] eqn:Ef];
      cbn [fmap result_fmap]; apply claim_inv; try done; try (by right); try (cbn; by rewrite Ef).
    + cbn [live_keys]. by rewrite union_empty_r_L.
    + rewrite live_start by done; rewrite remove_keys_dom. unfold claimed_keys in Hk |- * at 1. cbn in *. rewrite Ef in *. set_solver.
  - rewrite claimed_none in Hk. cbn [unwrap_or] in Hc. destruct a; [|destruct b; [|destruct (claim_keys f) as [ks|] eqn:Ef]];
      cbn [fmap result_fmap]; try done; apply claim_inv; try done; try (by left); try (by right); try (cbn; by rewrite Ef).
    + rewrite claimed_none. cbn [live_keys]. by rewrite union_empty_r_L.
    + cbn [live_keys]. rewrite claimed_none. set_solver.
    + rewrite live_start by done; rewrite remove_keys_dom, claimed_none. unfold claimed_keys in *. cbn in *. rewrite Ef in *. set_solver.
  - rewrite claimed_none in Hk. apply claim_inv; try done; [by left|].
    rewrite live_start by done; rewrite remove_keys_dom, claimed_none. set_solver.
Qed.

(** ** Every reachable state *)

(** An incomplete index that no update is at work on: only a rebuild goes on from there, and
    it looks at nothing that was there. *)
Definition unfinished (W : World) : Prop := indexing_incomplete W = true /\ publisher W = None.

Lemma worker_leaves_marker (W : World) w :
  indexing_incomplete (fetch_rows W w) = indexing_incomplete W /\ publisher (fetch_rows W w) = publisher W.
Proof. unfold fetch_rows, lock_current. case_decide; [by destruct (read_batch _ _ _)|done]. Qed.
Lemma start_leaves_marker a b c (W : World) :
  indexing_incomplete (start_worker a b c W) = indexing_incomplete W /\ publisher (start_worker a b c W) = publisher W.
Proof. unfold start_worker. destruct (claim_vector_tombstones _ _ _ _) as [[keys|] [pending proc]]; by destruct c. Qed.

Lemma rebuild_tracked (W : World) overlay base deleted modified files id finished :
  distinct_files files -> Forall keys_in_range files ->
  (forall w, worker W = Some w -> w_incarnation w <> id) ->
  tracked_inv (MkWorld (fresh_disk overlay base deleted modified files) None ∅ id
    (index_generation W + 1) None (negb finished) None (worker W)).
Proof.
  intros Hd Hf Hw. assert (settled (fresh_disk overlay base deleted modified files)) as Hset by by apply settled_fresh.
  split; [|done|done|done]. split; [done|]. unfold tracked_keys. cbn [hash_store processing worker incarnation].
  rewrite dom_empty_L. destruct (worker W) as [w|]; [rewrite decide_False by by apply Hw|]; set_solver.
Qed.

Lemma unfinished_step W W' : step W W' -> unfinished W -> tracked_inv W' \/ unfinished W'.
Proof.
  intros Hstep [Hi Hp]. destruct Hstep as [| | | | | | |a b c _ Hw|w _ Hw Hf Hx|w Hw Hf Hb|n w _ Hw Hf Hx|]; try congruence.
  - left. by apply rebuild_tracked.
  - by right.
  - right. unfold unfinished. by destruct (start_leaves_marker a b c W) as [-> ->].
  - right. unfold unfinished. by destruct (worker_leaves_marker W w) as [-> ->].
  - right. destruct (visit_quiet W w Hw). split; congruence.
  - right. destruct (finish_quiet n W w Hw). split; congruence.
  - by right.
Qed.

Lemma tracked_step W W' : step W W' -> tracked_inv W -> tracked_inv W' \/ unfinished W'.
Proof.
  intros Hstep Hinv. pose proof Hinv as [Hv Hpr Hs Hpub]. destruct Hstep as [overlay base clear deleted modified files Hp Hi Hf
    |e es Hp|tier p es n zeros Hp|es Hp|finished Hp|overlay base deleted modified files id finished Hp Hd Hf Hid Hw|
    |a b c Hp Hw|w Hp Hw Hf Hx|w Hw Hf Hb|n w Hp Hw Hf Hx|]; [left..|by right|left|left|left|left|left].
  - split; [done|done|done|]. intros es [= <-]. split; [done|]. apply publishing_update; auto.
  - destruct (Hpub _ Hp) as [Hi Hpb]. apply publishing_event in Hpb. split; cbn.
    + by eapply publishing_visible.
    + done.
    + intros Hi'. congruence.
    + intros ? [= <-]. done.
  - destruct (Hpub _ Hp) as [Hi Hpb]. split; cbn; [by eapply torn_visible|done|intros Hi'; congruence|done].
  - destruct (Hpub _ Hp) as [Hi Hpb]. split; cbn; [done|done|intros Hi'; congruence|done].
  - destruct (Hpub _ Hp) as [Hi [_ _ He]]. by split.
  - by apply rebuild_tracked.
  - by apply start_inv.
  - by apply fetch_quiet_inv.
  - eapply quiet_inv; [|done]. by apply visit_quiet.
  - eapply quiet_inv; [|done]. by apply finish_quiet.
  - eapply quiet_inv; [|done]. apply quiet_dead.
Qed.

Lemma tracked_reachable W : reachable W -> tracked_inv W \/ unfinished W.
Proof.
  induction 1 as [id|W W' HW [IH|IH] Hstep]; [by right|by eapply tracked_step|by eapply unfinished_step].
Qed.
Lemma tracked_complete W : reachable W -> indexing_incomplete W = false -> tracked_inv W.
Proof. intros HW Hi. destruct (tracked_reachable W HW) as [|[? _]]; [done|congruence]. Qed.

(** ** What it means for the status *)

Lemma not_needed_exact b W : tracked_inv W -> indexing_incomplete W = false ->
  needs_hash_enhancement b W = false -> dom (hash_store W) = keys_of (d_rows (disk W)).
Proof.
  intros [[_ Hk] _ Hs _] Hi. destruct (Hs Hi) as [_ (Hc & Hf & Hv) _ _].
  unfold needs_hash_enhancement, read_sqlite_counts. rewrite Hc, Hf, Hv.
  assert (d_journal (disk W) Hash = None -> processing W = None ->
    dom (hash_store W) ⊆ keys_of (d_rows (disk W))) as Hsub.
  { intros Hj Hp. unfold tracked_keys in Hk. rewrite Hj, Hp, claimed_none in Hk. set_solver. }
  destruct (d_journal (disk W) Hash) eqn:Ej, (processing W) eqn:Ep; cbn [is_some orb];
    rewrite ?orb_true_r; try (by case_match). specialize (Hsub eq_refl eq_refl).
  destruct (count_rows (d_rows (disk W)) =? 0)%Z eqn:E0.
  - apply Z.eqb_eq in E0. intros _. destruct (d_rows (disk W)); [|done]. set_solver.
  - destruct (negb _); [done|]. cbn [orb unwrap_or]. destruct b; [|done]. intros Hsize%Z.ltb_ge.
    apply leibniz_equiv, set_subseteq_size_equiv; [done|].
    unfold count_keys in Hsize. rewrite size_dom. lia.
Qed.

(** C1. When the index is complete and reports that its hash vectors need no work, the
    store holds exactly the vector keys of the indexed rows, whatever interleaving of
    updates, rebuilds, workers, torn journal appends and deaths came before, rebuilds that
    stopped on their way included. *)
Theorem enhanced_store_exact store_readable W : reachable W -> indexing_incomplete W = false ->
  needs_hash_enhancement store_readable W = false -> dom (hash_store W) = keys_of (d_rows (disk W)).
Proof. intros HW Hi. apply not_needed_exact; [by apply tracked_complete|done]. Qed.

(** While the index is complete, or an update is at work on it, both journals can be claimed, and each key in the store is a key of
    the rows or of one of the two: no stale vector is out of reach of the next worker. *)
Theorem stale_vectors_stay_journaled W : reachable W -> ~ unfinished W ->
  is_ok (claim_keys (unwrap_or [] (d_journal (disk W) Hash))) = true /\
  is_ok (claim_keys (unwrap_or [] (processing W))) = true /\
  dom (hash_store W) ⊆ keys_of (d_rows (disk W)) ∪
    list_to_set (claimed_keys (d_journal (disk W) Hash)) ∪ list_to_set (claimed_keys (processing W)).
Proof.
  intros [[[Hc Hk] Hp _ _]|?]%tracked_reachable ?; [|done]. split_and!; [done..|]. unfold tracked_keys in Hk.
  intros k Hin. destruct (decide (k ∈ claimed_keys (processing W))); set_solver.
Qed.
End Facts.
