(* ===== verification/EnhancementRunFacts.v ===== *)
(** * An undisturbed enhancement pass finishes the job.

  [run_worker] drives a worker whose steps nobody interleaves with.  From any reachable
  state with a complete index it ends within the pages and rows there are, the store then
  covers the index, and no further enhancement is needed ([enhancement_pass_completes]). *)
From S2P Require Import Prelude Utf8 Paths ChunkTable IndexStats Tombstones IndexPersist IndexPublishFacts EmbeddingRows Enhancement.

Lemma BATCH_SIZE_pos : 0 < BATCH_SIZE.
Proof. unfold BATCH_SIZE. lia. Qed.
#[local] Opaque BATCH_SIZE.

Lemma subset_absorb (k : key) (S T : gset key) : k ∈ S -> T ⊆ {[k]} ∪ S -> T ⊆ S.
Proof. set_solver. Qed.

Section Run.
Context {Vec : Type} (embed : str -> Vec) (try_decompress_text : list N -> option str).
Abbreviation VectorStore := (gmap key Vec).
Abbreviation World := (@World Vec).
Abbreviation Worker := (@Worker Vec).
Abbreviation step := (step embed try_decompress_text).
Abbreviation reachable := (reachable embed try_decompress_text).

(** ** Driving the worker *)

Definition worker_step (W : World) (w : Worker) : World :=
  match fetched w with
  | _ :: _ => visit_row embed try_decompress_text W w
  | [] => if is_exhausted (embedding_rows w) then finish_worker embed 3 W w else fetch_rows W w
  end.
Fixpoint run_worker (fuel : nat) (W : World) : option World :=
  match worker W with
  | None => Some W
  | Some w =>
    match fuel with
    | O => None
    | S fuel => run_worker fuel (worker_step W w)
    end
  end.

(** The rows at hand, the pages to come, and the final writes. *)
Definition steps_left (t : Table) (w : Worker) : nat :=
  S (length (fetched w) + pages_left t (embedding_rows w) * S BATCH_SIZE).

(** ** The pass keeps every key in hand *)

Context (t : Table) (base : VectorStore).
Context (Ht : numbered t).
Context (Hdec : forall row, row_in t row -> is_Some (try_decompress_text row.2)).

(** [v] is the vector of a row with key [k]. *)
Definition embedded (k : key) (v : Vec) : Prop :=
  exists raw text, row_in t (k, raw) /\ try_decompress_text raw = Some text /\ v = embed text.

Record in_hand (w : Worker) : Prop := {
  hand_keys : keys_of t ⊆ worker_keys w ∪ remaining_keys t (embedding_rows w);
  hand_fetched : Forall (row_in t) (fetched w);
  hand_distinct : NoDup (batch w).*1;
  hand_new : forall k, k ∈ (batch w).*1 -> vector_index w !! k = None;
  hand_batch_keys : batch_keys w = list_to_set (batch w).*1;
  hand_short : length (batch w) < BATCH_SIZE;
  hand_vectors : forall k v, vector_index w !! k = Some v -> base !! k = Some v \/ embedded k v;
  hand_texts : forall k text, (k, text) ∈ batch w -> embedded k (embed text)
}.

Lemma add_batch_new (b : list (key * str)) (store : VectorStore) :
  NoDup b.*1 -> (forall k, k ∈ b.*1 -> store !! k = None) ->
  exists store', add_batch (map (fun e => (e.1, embed e.2)) b) store = Some store' /\
    dom store' = dom store ∪ list_to_set b.*1 /\
    forall k v, store' !! k = Some v -> store !! k = Some v \/ exists text, (k, text) ∈ b /\ v = embed text.
Proof.
  revert store. induction b as [|[k text] b IH]; intros store Hnd Hnew.
  - exists store. split_and!; [done|cbn; by rewrite union_empty_r_L|by left].
  - cbn [map add_batch fst snd fmap list_fmap] in *. apply NoDup_cons in Hnd as [Hk Hnd]. rewrite Hnew by left.
    destruct (IH (<[k := embed text]> store)) as (store' & -> & Hd & Hv); [done| |].
    + intros k' Hk'. rewrite lookup_insert_ne; [apply Hnew; by right|]. intros ->. by apply Hk.
    + exists store'. split_and!; [done|rewrite Hd, dom_insert_L; cbn; set_solver|].
      intros k' v [Hs|(text' & Hin & ->)]%Hv.
      * destruct (decide (k' = k)) as [->|Hne]; [|rewrite lookup_insert_ne in Hs by done; by left].
        rewrite lookup_insert_eq in Hs. injection Hs as <-. right. exists text. split; [by left|done].
      * right. exists text'. split; [by right|done].
Qed.

Lemma process_in_hand w : NoDup (batch w).*1 -> (forall k, k ∈ (batch w).*1 -> vector_index w !! k = None) ->
  (forall k v, vector_index w !! k = Some v -> base !! k = Some v \/ embedded k v) ->
  (forall k text, (k, text) ∈ batch w -> embedded k (embed text)) ->
  exists index, process_batch embed w =
      Some (set_index w index [] (batch_keys w) (newly_processed w + Z.of_nat (length (batch w)))) /\
    dom index = dom (vector_index w) ∪ list_to_set (batch w).*1 /\
    forall k v, index !! k = Some v -> base !! k = Some v \/ embedded k v.
Proof.
  intros Hnd Hnew Hv Ht'. destruct (add_batch_new (batch w) (vector_index w) Hnd Hnew) as (index & Ha & Hd & Hi).
  exists index. unfold process_batch. rewrite Ha. split_and!; [done..|].
  intros k v [Hk|(text & Hin & ->)]%Hi; [by apply Hv|right; by apply Ht'].
Qed.

Lemma keys_flushed (w w' : Worker) : dom (vector_index w') = dom (vector_index w) ∪ list_to_set (batch w).*1 ->
  fetched w' = fetched w -> batch w' = [] -> worker_keys w ⊆ worker_keys w'.
Proof. intros Hd Hf Hb. unfold worker_keys. rewrite Hd, Hf, Hb. set_solver. Qed.

(** A worker in the middle of an undisturbed pass. *)
Record running (W : World) (w : Worker) : Prop := {
  run_worker_is : worker W = Some w;
  run_unlocked : publisher W = None;
  run_incarnation : w_incarnation w = incarnation W;
  run_generation : w_generation w = index_generation W;
  run_rows : d_rows (disk W) = t;
  run_total : total_chunks w = count_keys t;
  run_unsaved : removed_tombstones w = false -> newly_processed w = 0%Z -> vector_index w = hash_store W;
  run_newly : (0 <= newly_processed w)%Z;
  run_store : forall k v, hash_store W !! k = Some v -> base !! k = Some v \/ embedded k v;
  run_hand : in_hand w
}.
(** What does not change until the final writes. *)
Record same_index (W W' : World) : Prop := {
  same_disk : disk W' = disk W;
  same_processing : processing W' = processing W;
  same_generation : index_generation W' = index_generation W
}.

(** The worker goes on with [w']; nothing else changes. *)
Lemma running_next W w w' : running W w -> w_incarnation w' = w_incarnation w -> w_generation w' = w_generation w ->
  total_chunks w' = total_chunks w -> removed_tombstones w' = removed_tombstones w ->
  vector_index w' = vector_index w -> newly_processed w' = newly_processed w -> in_hand w' ->
  running (set_worker W (Some w')) w'.
Proof.
  intros [H1 H2 H3 H4 H5 H6 H7 H8 H9 H10] E1 E2 E3 E4 E5 E6 Hh.
  split; cbn [worker publisher incarnation index_generation disk hash_store set_worker];
    rewrite ?E1, ?E2, ?E3, ?E4, ?E5, ?E6; done.
Qed.

Lemma visit_running W w row rest : running W w -> fetched w = row :: rest ->
  let W' := visit_row embed try_decompress_text W w in
  same_index W W' /\ exists w', running W' w' /\ removed_tombstones w' = removed_tombstones w /\
    fetched w' = rest /\ embedding_rows w' = embedding_rows w.
Proof.
  intros Hrun Hf. destruct row as [k raw]. unfold visit_row. rewrite Hf.
  pose proof (run_hand W w Hrun) as [Hk Hfe Hnd Hnew Hbk Hs Hv Ht'].
  rewrite Hf in Hfe. apply Forall_cons in Hfe as [Hrow Hrest].
  set (w0 := set_rows_left w (embedding_rows w) rest).
  assert (worker_keys w ⊆ {[k]} ∪ worker_keys w0) as Hk0.
  { unfold worker_keys, w0. cbn. rewrite Hf. cbn. set_solver. }
  destruct (is_some (vector_index w0 !! k) || bool_decide (k ∈ batch_keys w0)) eqn:Eseen.
  - split; [by split|]. exists w0. split; [|done]. apply (running_next W w); try done.
    assert (k ∈ worker_keys w0) as Hin.
    { apply orb_true_iff in Eseen as [E|E%bool_decide_eq_true]; unfold worker_keys, w0 in *; cbn in *.
      - assert (k ∈ dom (vector_index w)); [|set_solver]. apply elem_of_dom. by destruct (vector_index w !! k).
      - rewrite Hbk in E. set_solver. }
    split; try done. cbn [w0 set_rows_left embedding_rows]. etrans; [exact Hk|].
    by apply union_mono_r, (subset_absorb k).
  - apply orb_false_iff in Eseen as [Enew Efresh%bool_decide_eq_false]. cbn in Enew, Efresh.
    destruct (Hdec _ Hrow) as [text Htext]. cbn in Htext. rewrite Htext.
    set (w1 := set_index w0 (vector_index w0) (batch w0 ++ [(k, text)]) ({[k]} ∪ batch_keys w0) (newly_processed w0)).
    assert (vector_index w !! k = None) as Hnone by by destruct (vector_index w !! k).
    assert (k ∉ (batch w).*1) as Hkb by (rewrite Hbk in Efresh; by rewrite elem_of_list_to_set in Efresh).
    assert ((batch w1).*1 = (batch w).*1 ++ [k]) as Hb1 by (cbn; by rewrite fmap_app).
    assert (NoDup (batch w1).*1) as Hnd1.
    { rewrite Hb1. apply NoDup_app. split_and!; [done| |apply NoDup_singleton].
      intros x Hx ->%list_elem_of_singleton. done. }
    assert (forall x, x ∈ (batch w1).*1 -> vector_index w !! x = None) as Hnew1.
    { rewrite Hb1. intros x [Hx| ->%list_elem_of_singleton]%elem_of_app; auto. }
    assert (forall x tx, (x, tx) ∈ batch w1 -> embedded x (embed tx)) as Ht1.
    { intros x tx [Hx|Hx%list_elem_of_singleton]%elem_of_app; [by apply Ht'|]. injection Hx as -> ->.
      by exists raw, text. }
    assert (worker_keys w ⊆ worker_keys w1) as Hk1.
    { etrans; [exact Hk0|]. unfold worker_keys. rewrite Hb1, list_to_set_app_L. cbn. set_solver. }
    destruct (Nat.leb_spec BATCH_SIZE (length (batch w1))) as [Hfull|Hshort].
    + destruct (process_in_hand w1 Hnd1 Hnew1 Hv Ht1) as (index & -> & Hd & Hv').
      set (w2 := set_index _ _ _ _ _). unfold publish_batch, lock_current.
      rewrite decide_True by apply (run_incarnation W w Hrun).
      assert (in_hand w2) as Hh2.
      { split; unfold w2; cbn [set_index vector_index embedding_rows fetched batch batch_keys]; try done.
        - etrans; [exact Hk|]. apply union_mono_r. etrans; [exact Hk1|]. by apply keys_flushed.
        - constructor.
        - intros x Hx. by apply not_elem_of_nil in Hx.
        - apply BATCH_SIZE_pos.
        - intros x tx Hx. by apply not_elem_of_nil in Hx. }
      destruct Hrun as [H1 H2 H3 H4 H5 H6 H7 H8 H9 H10].
      assert (0 < newly_processed w2)%Z as Hpos.
      { unfold w2. cbn [set_index newly_processed]. rewrite <- (length_fmap fst), Hb1, length_app. cbn. lia. }
      split; [case_match; by split|]. exists w2.
      split; [|done]. destruct (_ =? 0)%Z; split; try done; cbn; try lia.
      intros _ Hz. unfold w2 in Hpos. cbn in Hpos. lia.
    + split; [by split|]. exists w1. split; [|done]. apply (running_next W w); try done.
      split; unfold w1; cbn [set_index set_rows_left w0 vector_index embedding_rows fetched batch batch_keys]; try done.
      * etrans; [exact Hk|]. by apply union_mono_r.
      * rewrite Hbk, fmap_app, list_to_set_app_L. cbn. set_solver.
Qed.

Lemma fetch_running W w : running W w -> fetched w = [] -> is_exhausted (embedding_rows w) = false ->
  let W' := fetch_rows W w in
  same_index W W' /\ exists w', running W' w' /\ removed_tombstones w' = removed_tombstones w /\
    length (fetched w') <= BATCH_SIZE /\ pages_left t (embedding_rows w') < pages_left t (embedding_rows w).
Proof.
  intros Hrun Hf Hex. unfold fetch_rows, lock_current. rewrite decide_True by apply (run_incarnation W w Hrun).
  rewrite (run_rows W w Hrun). destruct (read_batch t BATCH_SIZE (embedding_rows w)) as [l rows] eqn:E.
  destruct (read_batch_progress t _ _ _ _ (proj1 Ht) BATCH_SIZE_pos Hex E) as [Hp Hrem].
  split; [by split|]. exists (set_rows_left w rows l). split_and!; [|done|by eapply read_batch_length|done].
  apply (running_next W w); try done. destruct (run_hand W w Hrun) as [Hk Hfe Hnd Hnew Hbk Hs Hv Ht'].
  split; cbn [set_rows_left vector_index embedding_rows fetched batch batch_keys]; try done.
  - intros k Hin. specialize (Hk k Hin). unfold worker_keys in *. rewrite Hf in Hk.
    cbn [set_rows_left vector_index fetched batch]. apply elem_of_union in Hk as [Hk|Hk]; [|apply Hrem in Hk]; set_solver.
  - by eapply read_batch_rows.
Qed.

(** The state the pass ends in, and how it left the journals. *)
Record finished (W W' : World) (removed : bool) : Prop := {
  end_worker : worker W' = None;
  end_disk : disk W' = disk W;
  end_processing : processing W' = if removed then None else processing W;
  end_generation : index_generation W' = index_generation W /\ hash_enhanced_generation W' = Some (index_generation W);
  end_store : keys_of t ⊆ dom (hash_store W');
  end_vectors : forall k v, hash_store W' !! k = Some v -> base !! k = Some v \/ embedded k v
}.

Lemma final_writes_finish W w : w_generation w = index_generation W -> total_chunks w = count_keys t ->
  (removed_tombstones w = false -> (newly_processed w <= 0)%Z -> vector_index w = hash_store W) ->
  keys_of t ⊆ dom (vector_index w) ->
  (forall k v, vector_index w !! k = Some v -> base !! k = Some v \/ embedded k v) ->
  finished W (set_worker (foldl (fun W write => write W w) W final_writes) None) (removed_tombstones w).
Proof.
  intros H4 H6 H7 Hk Hv. cbn [final_writes foldl].
  unfold note_generation, remove_journal, save_store. rewrite H6, H4.
  assert ((count_keys t =? 0)%Z = true -> keys_of t = ∅) as Hempty.
  { unfold count_keys. intros E%Z.eqb_eq. apply leibniz_equiv, size_empty_iff. lia. }
  destruct (removed_tombstones w) eqn:Er, (count_keys t =? 0)%Z eqn:E0, (Z.ltb_spec 0 (newly_processed w));
    cbn [andb orb set_store set_processing index_generation]; rewrite Z.eqb_refl; split; try done; cbn [hash_store set_worker
      set_enhanced set_store set_processing]; try (rewrite Hempty by done; apply empty_subseteq);
    try (intros k v ?%lookup_empty_Some; done); rewrite <- H7 by (done || lia); done.
Qed.

Lemma finish_running W w : running W w -> fetched w = [] -> is_exhausted (embedding_rows w) = true ->
  finished W (finish_worker embed 3 W w) (removed_tombstones w).
Proof.
  intros Hrun Hf Hex. pose proof (run_hand W w Hrun) as [Hk _ Hnd Hnew _ _ Hv Ht'].
  rewrite exhausted_remaining, union_empty_r_L in Hk by done. unfold worker_keys in Hk. rewrite Hf in Hk.
  unfold finish_worker. destruct (batch w) as [|e b] eqn:Eb.
  - unfold lock_current. rewrite decide_True by apply (run_incarnation W w Hrun).
    destruct Hrun as [H1 H2 H3 H4 H5 H6 H7 H8 H9 H10]. apply final_writes_finish; try done; [|set_solver].
    intros Hr Hz. apply H7; [done|lia].
  - rewrite <- Eb in *. destruct (process_in_hand w Hnd Hnew Hv Ht') as (index & -> & Hd & Hv').
    set (w' := set_index _ _ _ _ _). unfold lock_current. cbn [w' set_index w_incarnation].
    rewrite decide_True by apply (run_incarnation W w Hrun).
    destruct Hrun as [H1 H2 H3 H4 H5 H6 H7 H8 H9 H10].
    assert (0 < length (batch w)) as Hpos by (rewrite Eb; cbn; lia). fold w'.
    apply (final_writes_finish W w'); unfold w'; cbn [set_index w_generation total_chunks vector_index newly_processed removed_tombstones]; try done.
    + intros _ Hz. lia.
    + rewrite Hd. set_solver.
Qed.

Lemma same_index_trans W1 W2 W3 : same_index W1 W2 -> same_index W2 W3 -> same_index W1 W3.
Proof. intros [] []. split; congruence. Qed.
Lemma finished_from W1 W2 W' removed : same_index W1 W2 -> finished W2 W' removed -> finished W1 W' removed.
Proof. intros [Hd Hp Hg] [H1 H2 H3 [H4 H4'] H5 H6]. rewrite Hd, Hp, Hg in *. by split. Qed.

Lemma pass_ends fuel W w : running W w -> steps_left t w <= fuel ->
  exists W', run_worker fuel W = Some W' /\ finished W W' (removed_tombstones w).
Proof.
  revert W w. induction fuel as [|fuel IH]; intros W w Hrun Hfuel; [unfold steps_left in Hfuel; lia|].
  cbn [run_worker]. rewrite (run_worker_is W w Hrun). unfold worker_step.
  destruct (fetched w) as [|row rest] eqn:Hf; [destruct (is_exhausted (embedding_rows w)) eqn:Hex|].
  - pose proof (finish_running W w Hrun Hf Hex) as Hfin. exists (finish_worker embed 3 W w). split; [|done].
    pose proof (end_worker _ _ _ Hfin) as Hw. destruct fuel; cbn [run_worker]; by rewrite Hw.
  - destruct (fetch_running W w Hrun Hf Hex) as (Hsame & w' & Hrun' & Hr & Hl & Hp).
    destruct (IH (fetch_rows W w) w' Hrun') as (W' & Hw' & Hfin).
    { unfold steps_left in *. rewrite Hf in Hfuel. cbn [length] in Hfuel.
      remember BATCH_SIZE as b. clear -Hfuel Hl Hp. nia. }
    exists W'. split; [done|]. rewrite <- Hr. by eapply finished_from.
  - destruct (visit_running W w row rest Hrun Hf) as (Hsame & w' & Hrun' & Hr & Hf' & He).
    destruct (IH (visit_row embed try_decompress_text W w) w' Hrun') as (W' & Hw' & Hfin).
    { unfold steps_left in *. rewrite Hf', He. rewrite Hf in Hfuel. cbn [length] in Hfuel. lia. }
    exists W'. split; [done|]. rewrite <- Hr. by eapply finished_from.
Qed.
End Run.

(** ** From a reachable state *)

Section Pass.
Context {Vec : Type} (embed : str -> Vec) (try_decompress_text : list N -> option str).
Abbreviation World := (@World Vec).
Abbreviation reachable := (reachable embed try_decompress_text).

Lemma worker_step_reachable W w : reachable W -> publisher W = None -> worker W = Some w ->
  reachable (worker_step embed try_decompress_text W w) /\ publisher (worker_step embed try_decompress_text W w) = None
  /\ indexing_incomplete (worker_step embed try_decompress_text W w) = indexing_incomplete W.
Proof.
  intros HW Hp Hw. assert (step embed try_decompress_text W (worker_step embed try_decompress_text W w)) as Hs.
  { unfold worker_step. destruct (fetched w) as [|row rest] eqn:Hf; [destruct (is_exhausted (embedding_rows w)) eqn:Hex|].
    - by apply worker_finishes.
    - by apply worker_fetches.
    - apply worker_visits; [done|by rewrite Hf|done]. }
  split; [by eapply reachable_step|]. unfold worker_step.
  destruct (fetched w) as [|row rest]; [destruct (is_exhausted (embedding_rows w))|].
  - destruct (finish_quiet embed 3 W w Hw). split; congruence.
  - destruct (worker_leaves_marker W w). split; congruence.
  - destruct (visit_quiet embed try_decompress_text W w Hw). split; congruence.
Qed.
Lemma run_worker_reachable fuel W W' : reachable W -> publisher W = None ->
  run_worker embed try_decompress_text fuel W = Some W' ->
  reachable W' /\ indexing_incomplete W' = indexing_incomplete W.
Proof.
  revert W. induction fuel as [|fuel IH]; intros W HW Hp; cbn [run_worker]; destruct (worker W) as [w|] eqn:Hw;
    try done; try (intros [= <-]; done).
  destruct (worker_step_reachable W w HW Hp Hw) as (HW1 & Hp1 & <-). by apply IH.
Qed.

(** A worker that begins over readable journals has every key in hand. *)
Lemma start_running W : publisher W = None -> worker W = None -> numbered (d_rows (disk W)) ->
  is_ok (claim_keys (unwrap_or [] (d_journal (disk W) Hash))) = true ->
  is_ok (claim_keys (unwrap_or [] (processing W))) = true ->
  processing W = None \/ d_journal (disk W) Hash = None ->
  let W0 := start_worker false false false W in
  exists w, running embed try_decompress_text (d_rows (disk W)) (hash_store W) W0 w /\
    d_rows (disk W0) = d_rows (disk W) /\ d_stats (disk W0) = d_stats (disk W) /\ d_journal (disk W0) Hash = None /\
    (if removed_tombstones w then None else processing W0) = None /\
    indexing_incomplete W0 = indexing_incomplete W /\
    steps_left (d_rows (disk W)) w <= S (S (length (d_rows (disk W))) * S BATCH_SIZE).
Proof.
  intros Hp Hw Hn Hc Hpr Hone. set (t := d_rows (disk W)).
  assert (forall id g rt index, (forall k v, index !! k = Some v -> hash_store W !! k = Some v) ->
    in_hand embed try_decompress_text t (hash_store W)
      (MkWorker id g rt (count_keys t) index (new_rows t (sparse_missing_vector_keys t (dom index) (count_keys t)))
         [] [] ∅ 0)) as Hhand.
  { intros id g rt index Hi. split; cbn [vector_index embedding_rows fetched batch batch_keys]; try done.
    - pose proof (new_rows_remaining t (dom index) (count_keys t) Hn) as Hr. unfold worker_keys.
      cbn [vector_index fetched batch]. set_solver.
    - constructor.
    - intros k Hk. by apply not_elem_of_nil in Hk.
    - apply BATCH_SIZE_pos.
    - intros k v Hk. left. by apply Hi.
    - intros k text Hk. by apply not_elem_of_nil in Hk. }
  assert (forall ks k v, remove_keys ks (hash_store W) !! k = Some v -> hash_store W !! k = Some v) as Hrem.
  { intros ks. unfold remove_keys. generalize (hash_store W). induction ks as [|x ks IH]; intros s k v; [done|].
    cbn [foldl]. intros [_ Hk]%IH%lookup_delete_Some. done. }
  assert (forall index, steps_left t (MkWorker (Vec := Vec) (incarnation W) (index_generation W) true (count_keys t) index
    (new_rows t (sparse_missing_vector_keys t (dom index) (count_keys t))) [] [] ∅ 0) <= S (S (length t) * S BATCH_SIZE)) as Hsteps.
  { intros index. unfold steps_left. cbn [fetched embedding_rows length].
    pose proof (pages_left_new t (dom index) (count_keys t)). remember BATCH_SIZE as b. clear -H. nia. }
  unfold start_worker, claim_vector_tombstones. cbn [disk set_store].
  destruct (processing W) as [f|] eqn:Epr; [|destruct (d_journal (disk W) Hash) as [f|] eqn:Ej]; cbn [unwrap_or] in *.
  - destruct (claim_keys f) as [ks|] eqn:Ef; [|done]. cbn [fmap result_fmap].
    destruct Hone as [?|Hj]; [done|]. eexists. split.
    { split; try done; [intros k v; by left|apply Hhand, Hrem]. }
    split_and!; try done; apply Hsteps.
  - destruct (claim_keys f) as [ks|] eqn:Ef; [|done]. cbn [fmap result_fmap]. eexists. split.
    { split; try done; [intros k v; by left|apply Hhand, Hrem]. }
    split_and!; try done; apply Hsteps.
  - eexists. split.
    { split; try done; [intros k v; by left|by apply Hhand]. }
    split_and!; try done; apply Hsteps.
Qed.

(** ** Vectors follow texts *)

(** A key names one text: rows of a table with the key decompress to it. *)
Definition keyed (text_of : key -> str) (t : Table) : Prop :=
  forall row text, row_in t row -> try_decompress_text row.2 = Some text -> text = text_of row.1.
(** Worlds reached through tables in which a key always names the same text. *)
Inductive reachable_keyed (text_of : key -> str) : World -> Prop :=
| keyed_init id : reachable_keyed text_of (initial_world id)
| keyed_step W W' : reachable_keyed text_of W -> step embed try_decompress_text W W' -> keyed text_of (d_rows (disk W')) ->
    reachable_keyed text_of W'.

Section Keyed.
Context (text_of : key -> str).
Definition store_of_texts (s : gmap key Vec) : Prop := forall k v, s !! k = Some v -> v = embed (text_of k).
Definition batch_of_texts (b : list (key * str)) : Prop := forall k text, (k, text) ∈ b -> text = text_of k.
Definition worker_of_texts (w : Worker) : Prop :=
  store_of_texts (vector_index w) /\ batch_of_texts (batch w)
  /\ forall row text, row ∈ fetched w -> try_decompress_text row.2 = Some text -> text = text_of row.1.
Record of_texts (W : World) : Prop := {
  of_store : store_of_texts (hash_store W);
  of_worker : forall w, worker W = Some w -> worker_of_texts w
}.

Lemma empty_of_texts : store_of_texts ∅.
Proof. intros k v H. by rewrite lookup_empty in H. Qed.
Lemma remove_of_texts ks : forall s, store_of_texts s -> store_of_texts (remove_keys ks s).
Proof. unfold remove_keys. induction ks as [|x ks IH]; intros s Hs; [done|]. apply IH. intros k v [_ H]%lookup_delete_Some. by apply Hs. Qed.
Lemma add_of_texts b : forall s s', batch_of_texts b -> store_of_texts s -> add_batch (map (fun e => (e.1, embed e.2)) b) s = Some s' -> store_of_texts s'.
Proof.
  induction b as [|[k text] b IH]; intros s s' Hb Hs; cbn [map add_batch fst snd]; [by intros [= <-]|]. destruct (s !! k); [done|].
  apply IH; [intros k' t' H; apply Hb; by right|]. intros k' v. destruct (decide (k' = k)) as [->|Hne].
  - rewrite lookup_insert_eq. intros [= <-]. by rewrite (Hb k text) by left.
  - rewrite lookup_insert_ne by done. apply Hs.
Qed.
Lemma process_of_texts w w' : worker_of_texts w -> process_batch embed w = Some w' -> worker_of_texts w' /\ batch w' = [].
Proof.
  intros (Hs & Hb & Hf). unfold process_batch. destruct (add_batch _ _) as [index|] eqn:E; [|done]. intros [= <-]. split; [|done].
  split; [by eapply add_of_texts|]. split; [|done]. intros k text H. by apply elem_of_nil in H.
Qed.
Lemma final_of_texts W w n : of_texts W -> worker_of_texts w -> store_of_texts (hash_store (foldl (fun W write => write W w) W (take n final_writes))).
Proof.
  intros [Hs _] (Hw & _ & _).
  assert (store_of_texts (hash_store (save_store W w))) as Hsave by (unfold save_store; repeat case_match; try done; apply empty_of_texts).
  assert (forall W', hash_store (remove_journal W' w) = hash_store W') as Hr by (intros W'; unfold remove_journal; by case_match).
  assert (forall W', hash_store (note_generation W' w) = hash_store W') as Hn by (intros W'; unfold note_generation; by case_match).
  destruct n as [|[|[|n]]]; cbn [take final_writes foldl]; rewrite ?take_nil; cbn [foldl]; by rewrite ?Hn, ?Hr.
Qed.

Lemma step_of_texts W W' : of_texts W -> keyed text_of (d_rows (disk W)) -> step embed try_decompress_text W W' -> of_texts W'.
Proof.
  intros [Hs Hw] Hk Hstep.
  assert (forall d g i p, of_texts (set_publisher W d g i p)) as Hpub by (by split).
  assert (of_texts (set_worker W None)) as Hnone by (by split).
  destruct Hstep as [| | | | |overlay base deleted modified files id finished _ _ _ _ _|d proc store id g enhanced _ Hstore|rename_fails read_fails other _ _|w _ Hwk Hf Hex|w Hwk Hf Hl|n w _ Hwk Hf Hex|]; try done.
  - split; [|done]. cbn [hash_store]. destruct Hstore as [-> | ->]; [done|apply empty_of_texts].
  - unfold start_worker. set (W1 := if other then set_store W ∅ else W).
    assert (store_of_texts (hash_store W1)) as H1 by (unfold W1; destruct other; [apply empty_of_texts|done]).
    assert (worker W1 = worker W) as E1 by (unfold W1; by destruct other). clearbody W1.
    destruct (claim_vector_tombstones _ _ _ _) as [[keys|] [pending proc]]; split; cbn [hash_store worker set_worker set_processing set_pending]; try done.
    intros w [= <-]. split; [by apply remove_of_texts|]. split; cbn [batch fetched]; intros ? ? H; by apply elem_of_nil in H.
  - unfold fetch_rows, lock_current. case_decide; [|done]. destruct (read_batch _ _ _) as [l rows] eqn:E. split; [done|].
    cbn [worker set_worker]. intros w' [= <-]. destruct (Hw w Hwk) as (H1 & H2 & H3). split; [done|]. split; [done|]. cbn [fetched set_rows_left].
    apply read_batch_rows in E. rewrite Forall_forall in E. intros row text Hrow. apply Hk. by apply E.
  - destruct (Hw w Hwk) as (H1 & H2 & H3). unfold visit_row. destruct (fetched w) as [|[k raw] rest] eqn:Ef; [done|].
    set (w0 := set_rows_left w (embedding_rows w) rest). assert (worker_of_texts w0) as H0 by (split; [done|]; split; [done|]; intros row text Hr; apply H3; by right).
    destruct (_ || _); [split; [done|]; cbn; by intros ? [= <-]|]. destruct (try_decompress_text raw) as [text|] eqn:Et; [|done].
    set (w1 := set_index w0 (vector_index w0) (batch w0 ++ [(k, text)]) ({[k]} ∪ batch_keys w0) (newly_processed w0)).
    assert (worker_of_texts w1) as Hw1.
    { destruct H0 as (? & Hb & ?). split; [done|]. split; [|done]. intros k' t' [Hin|[= -> ->]%list_elem_of_singleton]%elem_of_app; [by apply Hb|].
      apply (H3 (k, raw)); [by left|done]. }
    destruct (BATCH_SIZE <=? _); [|split; [done|]; cbn; by intros ? [= <-]]. destruct (process_batch embed w1) as [w2|] eqn:Ep; [|done].
    destruct (process_of_texts _ _ Hw1 Ep) as [(Ha & Hb & Hc) _]. unfold publish_batch, lock_current. case_decide; [|done].
    assert (worker_of_texts (set_index w2 (vector_index w2) [] ∅ (newly_processed w2))) as Hw3.
    { split; [done|]. split; [|done]. intros ? ? Hnil. by apply elem_of_nil in Hnil. }
    case_match; split; cbn [hash_store worker set_store set_worker]; try done; by intros ? [= <-].
  - unfold finish_worker. pose proof (Hw w Hwk) as H0.
    assert (forall w', worker_of_texts w' -> of_texts (lock_current W w' (set_worker (foldl (fun W write => write W w') W (take n final_writes)) None))) as Hend.
    { intros w' H'. unfold lock_current. case_decide; [|done]. split; [|done]. cbn [hash_store set_worker]. by apply final_of_texts. }
    destruct (batch w); [by apply Hend|]. destruct (process_batch embed w) as [w'|] eqn:E; [|done]. apply Hend. by apply (process_of_texts w).
Qed.
Lemma reachable_of_texts W : reachable_keyed text_of W -> of_texts W /\ keyed text_of (d_rows (disk W)).
Proof.
  induction 1 as [id|W W' HW [IH1 IH2] Hs Hk]; [|split; [by eapply step_of_texts|done]]. split.
  - split; [apply empty_of_texts|done].
  - intros row text (r & Hr & _). by apply elem_of_nil in Hr.
Qed.
End Keyed.

Lemma needs_nothing (W : World) : d_journal (disk W) Hash = None -> processing W = None ->
  hash_enhanced_generation W = Some (index_generation W) -> stats_exact (d_stats (disk W)) (d_rows (disk W)) ->
  keys_of (d_rows (disk W)) ⊆ dom (hash_store W) -> needs_hash_enhancement true W = false.
Proof.
  intros Hj Hp Hg (Hc & Hf & Hv) Hk. unfold needs_hash_enhancement, read_sqlite_counts. rewrite Hj, Hp, Hg, Hc, Hf, Hv.
  cbn [is_some orb unwrap_or]. case_match; [done|]. rewrite bool_decide_eq_true_2 by done. cbn.
  apply Z.ltb_ge. unfold count_keys. apply subseteq_size in Hk. rewrite size_dom in Hk. lia.
Qed.

(** C2. An undisturbed pass finishes the job.  Take any state that interleavings of updates,
    rebuilds, workers and deaths can reach, in which the index is complete, no worker or
    update is at work, at most one of the two journals is pending and the texts of the rows
    decompress.  A pass that nobody interleaves with ends within the rows there are, and
    then nothing is left to do: the generation is noted, no enhancement is needed, the rows
    are the same, the store holds exactly the keys of the index, and each vector was there
    before or is the embedding of the text of a row with its key.  Where a key has always
    named the same text, every vector is the embedding of the text of a row with its key. *)
Theorem enhancement_pass_completes (W : World) : reachable W -> indexing_incomplete W = false -> worker W = None ->
  processing W = None \/ d_journal (disk W) Hash = None ->
  (forall row, row_in (d_rows (disk W)) row -> is_Some (try_decompress_text row.2)) ->
  exists W', run_worker embed try_decompress_text (S (S (length (d_rows (disk W))) * S BATCH_SIZE))
      (start_worker false false false W) = Some W' /\
    worker W' = None /\ needs_hash_enhancement true W' = false /\ d_rows (disk W') = d_rows (disk W) /\
    dom (hash_store W') = keys_of (d_rows (disk W)) /\
    (forall k v, hash_store W' !! k = Some v -> hash_store W !! k = Some v \/
      embedded embed try_decompress_text (d_rows (disk W)) k v) /\
    forall text_of, reachable_keyed text_of W -> forall k v, hash_store W' !! k = Some v ->
      embedded embed try_decompress_text (d_rows (disk W)) k v.
Proof.
  intros HW Hi Hw Hone Hdec. pose proof (tracked_complete _ _ _ HW Hi) as [[Hc _] Hpr Hs Hpub].
  assert (publisher W = None) as Hp.
  { destruct (publisher W) as [es|] eqn:E; [|done]. destruct (Hpub es eq_refl). congruence. }
  destruct (Hs Hi) as [_ Hst _ Hn].
  destruct (start_running W Hp Hw Hn Hc Hpr Hone) as (w & Hrun & Hr0 & Hs0 & Hj0 & Hp0 & Hi0 & Hsteps).
  destruct (pass_ends embed try_decompress_text _ _ Hn Hdec _ _ w Hrun Hsteps) as (W' & Hrw & Hfin).
  destruct Hfin as [E1 E2 E3 [E4 E4'] E5 E6]. exists W'.
  assert (reachable W' /\ indexing_incomplete W' = false) as [HW' Hi'].
  { rewrite <- Hi, <- (proj1 (start_leaves_marker false false false W)).
    eapply run_worker_reachable; [|by apply (run_unlocked _ _ _ _ _ _ Hrun)|done].
    eapply reachable_step; [done|]. by apply worker_starts. }
  assert (needs_hash_enhancement true W' = false) as Hneeds.
  { apply needs_nothing; [by rewrite E2|by rewrite E3|by rewrite E4, E4'|by rewrite E2, Hs0, Hr0|by rewrite E2, Hr0]. }
  assert (dom (hash_store W') = keys_of (d_rows (disk W))) as Hdom.
  { apply set_eq. intros k. split; [|apply E5]. destruct (tracked_complete _ _ _ HW' Hi') as [[_ Hk] _ _ _].
    unfold tracked_keys in Hk. rewrite E1, E2, E3, Hp0, Hj0, Hr0, claimed_none in Hk. set_solver. }
  split_and!; [done..|by rewrite E2|done|done|]. intros text_of Hkeyed k v Hv.
  destruct (E6 k v Hv) as [Hold|]; [|done]. destruct (reachable_of_texts text_of W Hkeyed) as [[Hst' _] Hk].
  assert (k ∈ keys_of (d_rows (disk W))) as Hin by (rewrite <- Hdom; by eapply elem_of_dom_2).
  unfold keys_of in Hin. rewrite elem_of_list_to_set, list_elem_of_fmap in Hin. destruct Hin as (r & -> & Hr).
  destruct (Hdec (vector_key r, compressed_text r)) as [text Ht]; [by exists r|]. exists (compressed_text r), text. split; [by exists r|]. split; [done|].
  rewrite (Hst' _ _ Hold). f_equal. symmetry. apply (Hk (vector_key r, compressed_text r)); [by exists r|done].
Qed.
End Pass.

(** ** An example: one file is indexed and enhanced; then an update of it begins. *)

Definition example_embed (s : str) : nat := length s.
Definition example_decompress (raw : list N) : option str := Some raw.
Abbreviation example_reachable := (reachable example_embed example_decompress).

Definition indexed_world : @World nat :=
  MkWorld (fresh_disk false (fun _ => false) [] [lit "a"] [MkFile (lit "a") [(3%N, [65%N])]])
    None ∅ [1%N] 1 None false None None.
Definition enhanced_world : World :=
  unwrap_or indexed_world (run_worker example_embed example_decompress 5 (start_worker false false false indexed_world)).
Definition updating_world : World :=
  set_publisher enhanced_world (disk enhanced_world) 1 true
    (Some (update_events false (fun _ => false) [] [] [lit "a"] [MkFile (lit "a") [(45%N, [])]] (disk enhanced_world))).

Lemma indexed_reachable : example_reachable indexed_world.
Proof.
  eapply reachable_step; [apply (reachable_init _ _ [0%N])|].
  apply (rebuild _ _ (initial_world [0%N]) false (fun _ => false) [] [lit "a"] [MkFile (lit "a") [(3%N, [65%N])]] [1%N] true);
    try done; by repeat constructor; try (by intros ?%not_elem_of_nil).
Qed.
Lemma enhanced_reachable : example_reachable enhanced_world.
Proof.
  apply (run_worker_reachable example_embed example_decompress 5 (start_worker false false false indexed_world)); [|done|by vm_compute].
  eapply reachable_step; [apply indexed_reachable|]. by apply worker_starts.
Qed.
Lemma updating_reachable : example_reachable updating_world.
Proof.
  eapply reachable_step; [apply enhanced_reachable|].
  apply (publish_begin _ _ enhanced_world false (fun _ => false) [] [] [lit "a"] [MkFile (lit "a") [(45%N, [])]]);
    [by vm_compute..|by repeat constructor].
Qed.

Lemma enhanced_store_exact_witness : dom (hash_store enhanced_world) = keys_of (d_rows (disk enhanced_world)).
Proof.
  apply (enhanced_store_exact example_embed example_decompress true enhanced_world enhanced_reachable); by vm_compute.
Defined.

Lemma stale_vectors_stay_journaled_witness :
  is_ok (claim_keys (unwrap_or [] (d_journal (disk updating_world) Hash))) = true.
Proof.
  apply (stale_vectors_stay_journaled example_embed example_decompress updating_world updating_reachable).
  by intros [_ H].
Defined.

Lemma enhancement_pass_completes_witness :
  exists fuel W', run_worker example_embed example_decompress fuel (start_worker false false false indexed_world) = Some W' /\
    needs_hash_enhancement true W' = false.
Proof.
  destruct (enhancement_pass_completes example_embed example_decompress indexed_world indexed_reachable)
    as (W' & Hrun & _ & Hn & _); [by vm_compute|reflexivity|left; reflexivity|by intros row _; eexists|].
  eexists _, W'. split; [exact Hrun|exact Hn].
Defined.
