(* ===== verification/Compression.v ===== *)
(** * Stored chunk text: indexer/compression.rs.

  Text of 512 bytes and more is kept as one zstd frame when that is shorter, other text
  as it is; the reader tells them apart by the frame's first four bytes.  The zstd calls
  are a record of functions; [ZstdLaws] is what their documentation promises of them. *)
From S2P Require Import Prelude Utf8 Paths Decoding.
Local Open Scope Z_scope.

Definition ZSTD_MAGIC : list N := [0x28; 0xB5; 0x2F; 0xFD]%N.
Definition MIN_COMPRESSED_TEXT_BYTES : nat := 512.
Definition MAX_DECOMPRESSED_TEXT_BYTES : Z := 32 * 1024 * 1024.

(** [compress] is level 1 of the bulk compressor; [frame_content_size] has an inner
    [None] for a frame that does not record its size; [decompress_to_buffer] has the
    capacity of the buffer; [stream] reads at most so many decoded bytes, or fails. *)
Record Zstd := MkZstd {
  compress : list N -> option (list N);
  frame_content_size : list N -> option (option Z);
  frame_compressed_size : list N -> option nat;
  decompress_to_buffer : list N -> Z -> option (list N);
  decoder_new : list N -> bool;
  stream : list N -> Z -> option (list N)
}.

Inductive DecodeError := InvalidFrame | FailedToDecode | Exceeds | NotUtf8.

Section Codec.
Context (zstd : Zstd) (have_compressor have_decompressor : bool).

Definition compress_text (text : str) : list N :=
  let raw := bytes text in
  if (length raw <? MIN_COMPRESSED_TEXT_BYTES)%nat then raw
  else match (if have_compressor then compress zstd raw else None) with
       | Some compressed => if (length compressed <? length raw)%nat then compressed else raw
       | None => raw
       end.

Definition decompress_sized_frame (raw : list N) : option (list N) :=
  known ← frame_content_size zstd raw;
  content_size ← known;
  size ← (if MAX_DECOMPRESSED_TEXT_BYTES <? content_size then None else frame_compressed_size zstd raw);
  if negb (size =? length raw)%nat then None
  else if have_decompressor then decompress_to_buffer zstd raw content_size else None.

Definition decompress_frame_stream (raw : list N) : Result DecodeError (list N) :=
  if negb (decoder_new zstd raw) then Err InvalidFrame
  else match stream zstd raw (MAX_DECOMPRESSED_TEXT_BYTES + 1) with
       | None => Err FailedToDecode
       | Some decoded =>
         if Z.of_nat (length decoded) <=? MAX_DECOMPRESSED_TEXT_BYTES then Ok decoded else Err Exceeds
       end.

Definition try_decompress_text (raw : list N) : Result DecodeError str :=
  if negb (starts_with ZSTD_MAGIC raw) then Ok (lossy_chars raw)
  else
    decoded ← match decompress_sized_frame raw with
              | Some decoded => Ok decoded
              | None => decompress_frame_stream raw
              end;
    if valid_utf8 decoded then Ok (lossy_chars decoded) else Err NotUtf8.

(** The wrapper writes the error where the text would be. *)
Context (show_error : DecodeError -> str).
Definition decompress_text (raw : list N) : str :=
  match try_decompress_text raw with
  | Ok text => text
  | Err error => lit "[ivygrep: corrupt stored chunk: " ++ show_error error ++ lit "]"
  end.
End Codec.

(** ** What zstd promises *)

(** A frame written by the bulk compressor is one frame that starts with the magic number
    and records its content size; both decoders give the content back. *)
Class ZstdLaws (zstd : Zstd) : Prop := {
  frame_magic raw frame : compress zstd raw = Some frame -> starts_with ZSTD_MAGIC frame = true;
  frame_size raw frame : compress zstd raw = Some frame ->
    frame_content_size zstd frame = Some (Some (Z.of_nat (length raw)))
    /\ frame_compressed_size zstd frame = Some (length frame);
  frame_buffer raw frame decoded : compress zstd raw = Some frame ->
    decompress_to_buffer zstd frame (Z.of_nat (length raw)) = Some decoded -> decoded = raw;
  frame_stream raw frame limit : compress zstd raw = Some frame ->
    decoder_new zstd frame = true /\ stream zstd frame limit = Some (take (Z.to_nat limit) raw)
}.
(** Every answer of a decoder fits the limit it was given. *)
Class ZstdBounds (zstd : Zstd) : Prop := {
  buffer_bound frame n decoded : decompress_to_buffer zstd frame n = Some decoded -> Z.of_nat (length decoded) <= n;
  stream_bound frame n decoded : stream zstd frame n = Some decoded -> Z.of_nat (length decoded) <= n
}.

(** ** No text looks like a frame *)

Lemma text_not_magic s : is_text s -> starts_with ZSTD_MAGIC (bytes s) = false.
Proof.
  intros Hs. apply not_true_iff_false. intros [r Hr]%starts_with_spec.
  pose proof (valid_utf8_text s Hs) as Hv. rewrite Hr in Hv. unfold valid_utf8 in Hv.
  cbn in Hv. done.
Qed.

Section Facts.
Context (zstd : Zstd) (have_compressor have_decompressor : bool).

Lemma decompress_frame raw frame : ZstdLaws zstd -> compress zstd raw = Some frame ->
  Z.of_nat (length raw) <= MAX_DECOMPRESSED_TEXT_BYTES -> valid_utf8 raw = true ->
  try_decompress_text zstd have_decompressor frame = Ok (lossy_chars raw).
Proof.
  intros L Hc Hsize Hv. unfold try_decompress_text. rewrite (frame_magic _ _ Hc). cbn [negb].
  destruct (frame_size _ _ Hc) as [Hs Hn]. destruct (frame_stream raw frame (MAX_DECOMPRESSED_TEXT_BYTES + 1) Hc) as [Hd Ht].
  assert (decompress_frame_stream zstd frame = Ok raw) as Hstream.
  { unfold decompress_frame_stream. rewrite Hd, Ht, take_ge by lia. cbn [negb]. by rewrite (proj2 (Z.leb_le _ _)). }
  unfold decompress_sized_frame. rewrite Hs. cbn [mbind option_bind].
  rewrite (proj2 (Z.ltb_ge _ _)) by done. rewrite Hn. cbn [mbind option_bind]. rewrite Nat.eqb_refl. cbn [negb].
  destruct have_decompressor; [destruct (decompress_to_buffer zstd frame _) as [d|] eqn:Ed|].
  - pose proof (frame_buffer _ _ _ Hc Ed) as ->. cbn. by rewrite Hv.
  - rewrite Hstream. cbn. by rewrite Hv.
  - rewrite Hstream. cbn. by rewrite Hv.
Qed.

(** Corrupt or hostile frames included: what a frame decodes to is within the cap. *)
Lemma frame_within_cap raw text : ZstdBounds zstd -> starts_with ZSTD_MAGIC raw = true ->
  try_decompress_text zstd have_decompressor raw = Ok text -> Z.of_nat (blen text) <= MAX_DECOMPRESSED_TEXT_BYTES.
Proof.
  intros B Hm H. unfold try_decompress_text in H. rewrite Hm in H. cbn [negb] in H.
  assert (forall d, valid_utf8 d = true -> blen (lossy_chars d) = length d) as Hlen.
  { intros d Hd. rewrite <- length_bytes, bytes_lossy_chars. unfold to_string_lossy. by rewrite Hd. }
  destruct (decompress_sized_frame zstd have_decompressor raw) as [d|] eqn:E.
  - cbn in H. destruct (valid_utf8 d) eqn:Hv; [|done]. injection H as <-. rewrite Hlen by done.
    unfold decompress_sized_frame in E. destruct (frame_content_size zstd raw) as [[n|]|]; [|done..]. cbn in E.
    destruct (Z.ltb_spec MAX_DECOMPRESSED_TEXT_BYTES n); [done|]. destruct (frame_compressed_size zstd raw); [|done].
    cbn in E. destruct (negb _); [done|]. destruct have_decompressor; [|done].
    pose proof (buffer_bound _ _ _ E). lia.
  - unfold decompress_frame_stream in H. destruct (decoder_new zstd raw); [|done]. cbn [negb] in H.
    destruct (stream zstd raw _) as [d|]; [|done]. destruct (Z.leb_spec (Z.of_nat (length d)) MAX_DECOMPRESSED_TEXT_BYTES); [|done].
    cbn in H. destruct (valid_utf8 d) eqn:Hv; [|done]. injection H as <-. by rewrite Hlen.
Qed.
End Facts.

(** C19. Whatever text up to the cap is stored, with or without a working compressor and
    decompressor, the reader gives that text back. *)
Theorem stored_text_round_trip (zstd : Zstd) (L : ZstdLaws zstd) (have_compressor have_decompressor : bool) text
  (Htext : is_text text) (Hsize : Z.of_nat (blen text) <= MAX_DECOMPRESSED_TEXT_BYTES) :
  try_decompress_text zstd have_decompressor (compress_text zstd have_compressor text) = Ok text
  /\ (length (compress_text zstd have_compressor text) <= blen text)%nat.
Proof.
  pose proof (length_bytes text) as Hb.
  assert (try_decompress_text zstd have_decompressor (bytes text) = Ok text) as Hplain.
  { unfold try_decompress_text. rewrite text_not_magic by done. cbn [negb]. by rewrite lossy_chars_text. }
  unfold compress_text. destruct (_ <? MIN_COMPRESSED_TEXT_BYTES)%nat; [split; [done|lia]|].
  destruct have_compressor; [|split; [done|lia]].
  destruct (compress zstd (bytes text)) as [frame|] eqn:E; [|split; [done|lia]].
  destruct (Nat.ltb_spec (length frame) (length (bytes text))); [|split; [done|lia]].
  split; [|lia]. rewrite (decompress_frame _ _ (bytes text)) by (done || lia || by apply valid_utf8_text).
  by rewrite lossy_chars_text.
Qed.


(** A codec that shortens runs of one byte and fails on everything else. *)
Definition run_frame (b : N) (n : nat) : list N := ZSTD_MAGIC ++ [b; N.of_nat n].
Definition read_run (frame : list N) : option (list N) :=
  match frame with
  | [0x28; 0xB5; 0x2F; 0xFD; b; n]%N => Some (replicate (N.to_nat n) b)
  | _ => None
  end.
Definition run_length : Zstd :=
  MkZstd (fun raw => b ← head raw; if bool_decide (raw = replicate (length raw) b) then Some (run_frame b (length raw)) else None)
    (fun l => (fun raw => Some (Z.of_nat (length raw))) <$> read_run l) (fun l => (fun _ => length l) <$> read_run l)
    (fun l n => raw ← read_run l; if Z.of_nat (length raw) <=? n then Some raw else None)
    (fun l => bool_decide (is_Some (read_run l))) (fun l n => take (Z.to_nat n) <$> read_run l).
Lemma run_length_read raw frame : compress run_length raw = Some frame -> read_run frame = Some raw /\ length frame = 6%nat.
Proof.
  cbn [compress run_length]. destruct raw as [|b raw]; [done|]. cbn [head mbind option_bind].
  destruct (bool_decide_reflect (b :: raw = replicate (length (b :: raw)) b)) as [Hb|]; [|done].
  intros [= <-]. split; [|done]. unfold run_frame. change (read_run _) with (Some (replicate (N.to_nat (N.of_nat (length (b :: raw)))) b)).
  by rewrite Nat2N.id, <- Hb.
Qed.
#[export] Instance run_length_laws : ZstdLaws run_length.
Proof.
  split.
  - intros raw frame [Hr _]%run_length_read. unfold read_run in Hr. repeat case_match; done.
  - intros raw frame [Hr Hl]%run_length_read. cbn. by rewrite Hr.
  - intros raw frame decoded [Hr _]%run_length_read. cbn. rewrite Hr. cbn. rewrite Z.leb_refl. by intros [= ->].
  - intros raw frame limit [Hr _]%run_length_read. cbn. rewrite Hr. split; [by apply bool_decide_eq_true; eexists|done].
Qed.
Lemma stored_text_round_trip_witness :
  (length (compress_text run_length true (replicate 600 97%N)) < blen (replicate 600 97%N))%nat
  /\ try_decompress_text run_length true (compress_text run_length true (replicate 600 97%N)) = Ok (replicate 600 97%N)
  /\ try_decompress_text run_length false (compress_text run_length true (replicate 600 97%N)) = Ok (replicate 600 97%N).
Proof.
  split; [apply Nat.ltb_lt; by vm_compute|].
  split; apply (stored_text_round_trip run_length run_length_laws);
    (by vm_compute) || (apply Forall_forall; intros c Hc; apply elem_of_replicate in Hc as [-> _]; done).
Defined.
