(* ===== verification/IndexProducer.v ===== *)
(** * The batch producer: [spawn_index_batch_producer] of indexer.rs.

  A thread takes the added and changed paths a batch at a time, reads and chunks the
  files of the batch in parallel, groups the results and hands each group to the writer
  once the byte budget admits it.  What a batch finds on disk is an [Env], which may
  differ from batch to batch.  [source_chunks] stands for the chunker with the included
  documentation (Chunking.v, DocIncludes.v), [file_graph] for the extraction of
  dependencies, [cost] for [IndexedFile::estimated_bytes], which adds up allocation sizes,
  and [compress_text] for Compression.v. *)
From S2P Require Import Prelude Utf8 Paths Languages Chunking ChunkTable IndexPersist Tombstones.
Local Open Scope Z_scope.

Definition MIB : Z := 1024 * 1024.
Definition INDEX_FILE_BATCH_SIZE : nat := 64.
Definition INDEX_SOURCE_BATCH_BYTES : Z := 4 * MIB.
Definition INDEX_PREPARED_BATCH_BYTES : Z := 8 * MIB.

(** ** Vector keys *)

Section Keys.
(** The 128-bit digest of xxh3. *)
Context (xxh3_128 : list N -> Z).

Definition key_data (file_path : path) (text : str) (occurrence : Z) : list N :=
  index_path_string file_path ++ to_le_bytes 8 occurrence ++ bytes text.
Definition I64_MAX : Z := 2 ^ 63 - 1.
Definition vector_key_for_chunk (file_path : path) (text : str) (occurrence : Z) : key :=
  let digest := to_le_bytes 16 (xxh3_128 (key_data file_path text occurrence)) in
  Z.to_N (Z.land (from_le_bytes (take 8 digest)) I64_MAX).

(** [chunk_id] is always empty. *)
Record IndexedChunk := MkIndexed {
  file_path : path;
  start_line : nat;
  end_line : nat;
  language : str;
  kind : str;
  text : str;
  content_hash : Z;
  vector_key : key;
  is_ignored : bool;
  definitions : option (list ChunkDefinition)
}.

(** The derived [Debug]. *)
Definition kind_debug (k : ChunkKind) : str :=
  lit match k with
      | Function => "Function" | Class => "Class" | Module => "Module"
      | Documentation => "Documentation" | Text => "Text"
      end.

Definition build_indexed_chunk_with_occurrence (rel : path) (chunk : Chunk Z) (is_ignored : bool)
    (occurrence : Z) : IndexedChunk :=
  MkIndexed rel (Chunking.start_line chunk) (Chunking.end_line chunk) (chunk_language chunk)
    (kind_debug (Chunking.kind chunk)) (Chunking.text chunk) (Chunking.content_hash chunk)
    (vector_key_for_chunk rel (Chunking.text chunk) occurrence) is_ignored (Chunking.definitions chunk).
Definition build_indexed_chunk (rel : path) (chunk : Chunk Z) (is_ignored : bool) : IndexedChunk :=
  build_indexed_chunk_with_occurrence rel chunk is_ignored 0.

(** Equal texts of a file are numbered in order; [content_occurrences] counts the texts
    seen, by their digest. *)
Fixpoint number_chunks (rel : path) (is_ignored : bool) (content_occurrences : gmap Z Z) (chunks : list (Chunk Z))
  : list IndexedChunk :=
  match chunks with
  | [] => []
  | chunk :: chunks =>
    let content_identity := xxh3_128 (bytes (Chunking.text chunk)) in
    let occurrence := unwrap_or 0 (content_occurrences !! content_identity) in
    let indexed :=
      if occurrence =? 0 then build_indexed_chunk rel chunk is_ignored
      else build_indexed_chunk_with_occurrence rel chunk is_ignored occurrence in
    indexed :: number_chunks rel is_ignored (<[content_identity := occurrence + 1]> content_occurrences) chunks
  end.

(** [.filter(|chunk| seen_vector_keys.insert(chunk.vector_key))] *)
Fixpoint unseen_keys (seen_vector_keys : gset key) (chunks : list IndexedChunk) : list IndexedChunk :=
  match chunks with
  | [] => []
  | chunk :: chunks =>
    if bool_decide (vector_key chunk ∈ seen_vector_keys) then unseen_keys seen_vector_keys chunks
    else chunk :: unseen_keys ({[vector_key chunk]} ∪ seen_vector_keys) chunks
  end.

Definition index_chunks (rel : path) (is_ignored : bool) (chunks : list (Chunk Z)) : list IndexedChunk :=
  unseen_keys ∅ (number_chunks rel is_ignored ∅ chunks).
End Keys.

(** ** One file *)

Record FileGraph {Edge Spec : Type} := MkGraph {
  edges : list Edge;
  unresolved_dependencies : list Spec;
  resolved_dependencies : list (Spec * path)
}.
Arguments FileGraph : clear implicits.
Arguments MkGraph {_ _}.

Inductive IoError := NotFound | OtherError.

(** What the root handle of a batch and the file system answer. *)
Record Env := MkEnv {
  metadata_len : path -> option Z;
  read : path -> Result IoError (list N);
  root_is_valid : path -> bool
}.

Section Producer.
Context (xxh3_128 : list N -> Z) {Edge Spec : Type}.
Context (source_chunks : path -> str -> list (Chunk Z) * list path).
Context (file_graph : path -> str -> FileGraph Edge Spec).
Context (manifest_resolution_signature : path -> str -> option str).
Context (is_fresh_index : bool).

Record IndexedFile := MkIndexedFile {
  rel_path : path;
  source : str;
  chunks : list IndexedChunk;
  included_paths : list path;
  graph : FileGraph Edge Spec;
  signature : option str
}.

Definition empty_graph : FileGraph Edge Spec := MkGraph [] [] [].
Definition empty_incremental_file (rel : path) : option IndexedFile :=
  if is_fresh_index then None else Some (MkIndexedFile rel [] [] [] empty_graph None).

(** The file of a path, unless there is none; whether it vanished. *)
Definition index_file (env : Env) (entry : path * bool) : Result IoError (option IndexedFile * bool) :=
  let '(rel, ignored) := entry in
  match read env rel with
  | Err NotFound => if root_is_valid env rel then Ok (empty_incremental_file rel, true) else Err NotFound
  | Err e => Err e
  | Ok content_bytes =>
    if negb (is_indexable_file rel content_bytes) then Ok (empty_incremental_file rel, false)
    else
      let content := lossy_chars content_bytes in
      let '(cs, included) := source_chunks rel content in
      let g := file_graph rel content in
      let indexed := index_chunks xxh3_128 rel ignored cs in
      if bool_decide (indexed = []) && bool_decide (included = []) && is_none (head (edges g))
         && is_none (head (unresolved_dependencies g)) && is_none (head (resolved_dependencies g))
      then Ok (empty_incremental_file rel, false)
      else Ok (Some (MkIndexedFile rel content indexed included g (manifest_resolution_signature rel content)), false)
  end.

(** ** Batches of sources *)

Fixpoint source_batch_loop (size : path -> Z) (bytes : Z) (count : nat) (paths : list (path * bool)) : nat :=
  match paths with
  | [] => count
  | (p, _) :: paths =>
    if (0 <? count)%nat && (saturating_sub INDEX_SOURCE_BATCH_BYTES bytes <? size p) then count
    else source_batch_loop size (saturating_add bytes (size p)) (S count) paths
  end.
Definition probed_size (env : Env) (p : path) : Z := unwrap_or 0 (metadata_len env p).
Definition source_batch_len (env : Env) (paths : list (path * bool)) : nat :=
  source_batch_loop (probed_size env) 0 0 (take INDEX_FILE_BATCH_SIZE paths).

(** The results of a batch; on a failure one of the errors. *)
Fixpoint collect (env : Env) (batch : list (path * bool)) : Result IoError (list IndexedFile * list path) :=
  match batch with
  | [] => Ok ([], [])
  | entry :: batch =>
    '(file, vanished) ← index_file env entry;
    '(files, gone) ← collect env batch;
    Ok (match file with Some f => f :: files | None => files end,
        if (vanished : bool) then entry.1 :: gone else gone)
  end.

(** ** Prepared batches *)

Context (cost : IndexedFile -> Z).

(** The inner loop over the peekable files: the batch, its bytes and what is left. *)
Fixpoint fill_batch (nonempty : bool) (bytes : Z) (files : list IndexedFile)
  : list IndexedFile * Z * list IndexedFile :=
  match files with
  | [] => ([], bytes, [])
  | f :: rest =>
    if nonempty && (saturating_sub INDEX_PREPARED_BATCH_BYTES bytes <? cost f) then ([], bytes, files)
    else
      let '(batch, total, others) := fill_batch true (saturating_add bytes (cost f)) rest in
      (f :: batch, total, others)
  end.

(** What the writer receives. *)
Record IndexedFileBatch := MkBatch { batch_files : list IndexedFile; reservation : Z }.

(** [accept n bytes] is whether the [n]-th hand-over gets its reservation and finds the
    receiver alive.  The flag is whether the loop may go on. *)
Context (accept : nat -> Z -> bool).
Fixpoint send_batches (fuel : nat) (sent : list IndexedFileBatch) (files : list IndexedFile)
  : option (list IndexedFileBatch * bool) :=
  match files with
  | [] => Some (sent, true)
  | _ =>
    match fuel with
    | O => None
    | S fuel =>
      let '(batch, bytes, rest) := fill_batch false 0 files in
      if accept (length sent) bytes then send_batches fuel (sent ++ [MkBatch batch bytes]) rest
      else Some (sent, false)
    end
  end.

(** ** The thread *)

Inductive End := Drained | Stopped | Failed (e : IoError).
Record Outcome := MkOutcome { sent : list IndexedFileBatch; vanished : list path; ended : End }.

(** [n] counts the batches of sources; [remaining] are the paths left. *)
Fixpoint producer_loop (env : nat -> Env) (fuel n : nat) (sent : list IndexedFileBatch) (gone : list path)
    (remaining : list (path * bool)) : option Outcome :=
  match remaining with
  | [] => Some (MkOutcome sent gone Drained)
  | _ =>
    match fuel with
    | O => None
    | S fuel =>
      let count := source_batch_len (env n) remaining in
      match collect (env n) (take count remaining) with
      | Err e => Some (MkOutcome sent gone (Failed e))
      | Ok (files, missing) =>
        '(sent, go_on) ← send_batches (length files) sent files;
        if (go_on : bool) then producer_loop env fuel (S n) sent (gone ++ missing) (drop count remaining)
        else Some (MkOutcome sent (gone ++ missing) Stopped)
      end
    end
  end.
Definition run_producer (env : nat -> Env) (diff_paths : list (path * bool)) : option Outcome :=
  producer_loop env (length diff_paths) 0 [] [] diff_paths.

(** What the writer persists of a file. *)
Context (compress_text : str -> list N).
Definition persisted (f : IndexedFile) : IndexPersist.IndexedFile :=
  MkFile (rel_path f) (map (fun c => (vector_key c, compress_text (text c))) (chunks f)).
End Producer.

(** * The batch producer hands over every file once, in batches that fit. *)

(** ** Groups *)

Definition total {A} (cost : A -> Z) (l : list A) : Z := foldr (fun a n => cost a + n) 0 l.
Lemma total_cons {A} (cost : A -> Z) a l : total cost (a :: l) = cost a + total cost l.
Proof. done. Qed.

(** A group is not empty and stays within the limit, unless its first element is larger:
    then the others cost nothing. *)
Definition within {A} (cost : A -> Z) (limit : Z) (group : list A) : Prop :=
  exists first rest, group = first :: rest /\ total cost group <= Z.max limit (cost first).

(** What both loops do when they take another element. *)
Lemma take_another limit first bytes x : 0 <= limit <= U64_MAX -> first <= U64_MAX ->
  0 <= bytes <= Z.max limit first -> 0 <= x -> (saturating_sub limit bytes <? x) = false ->
  bytes + x <= Z.max limit first /\ saturating_add bytes x = bytes + x.
Proof. unfold saturating_sub, saturating_add, U64_MAX. intros ???? ?%Z.ltb_ge. lia. Qed.

Section Sources.
Context (size : path -> Z) (Hsize : forall p, 0 <= size p <= U64_MAX).
Abbreviation weight := (fun e : path * bool => size e.1).

Lemma source_loop_spec first paths : 0 <= first <= U64_MAX -> forall bytes count,
  0 <= bytes <= Z.max INDEX_SOURCE_BATCH_BYTES first -> (0 < count)%nat ->
  exists k, source_batch_loop size bytes count paths = (count + k)%nat /\ (k <= length paths)%nat
  /\ bytes + total weight (take k paths) <= Z.max INDEX_SOURCE_BATCH_BYTES first.
Proof.
  intros Hf. induction paths as [|[p b] paths IH]; intros bytes count Hb Hc; cbn [source_batch_loop].
  { exists 0%nat. split_and!; [lia|done|change (total weight (take 0 [])) with 0; lia]. }
  rewrite (proj2 (Nat.ltb_lt _ _)) by done. cbn [andb].
  destruct (saturating_sub INDEX_SOURCE_BATCH_BYTES bytes <? size p) eqn:E.
  { exists 0%nat. split_and!; [lia|lia|change (total weight (take 0 ((p, b) :: paths))) with 0; lia]. }
  pose proof (Hsize p). destruct (take_another INDEX_SOURCE_BATCH_BYTES first bytes (size p)) as [Hle ->]; [done|lia..|done|].
  destruct (IH (bytes + size p) (S count)) as (k & -> & Hk & Hsum); [lia..|].
  exists (S k). cbn [take length]. rewrite total_cons. cbn [fst]. split_and!; lia.
Qed.
End Sources.

Definition sizes_ok (env : Env) : Prop := forall p n, metadata_len env p = Some n -> 0 <= n <= U64_MAX.
Lemma probed_size_ok env p : sizes_ok env -> 0 <= probed_size env p <= U64_MAX.
Proof. unfold probed_size. intros H. destruct (metadata_len env p) eqn:E; [by apply (H p)|done]. Qed.

(** A batch of sources: at most 64 of them, within 4 MiB unless the first alone is not. *)
Definition source_group (env : Env) (group : list (path * bool)) : Prop :=
  (length group <= INDEX_FILE_BATCH_SIZE)%nat
  /\ within (fun e => probed_size env e.1) INDEX_SOURCE_BATCH_BYTES group.

Lemma source_batch_spec env paths : sizes_ok env -> paths <> [] ->
  source_group env (take (source_batch_len env paths) paths) /\ (0 < source_batch_len env paths <= length paths)%nat.
Proof.
  intros Hs Hp. destruct paths as [|[p b] paths]; [done|]. pose proof (probed_size_ok env p Hs).
  unfold source_batch_len. change (take INDEX_FILE_BATCH_SIZE ((p, b) :: paths)) with ((p, b) :: take 63 paths).
  cbn [source_batch_loop]. cbn [Nat.ltb Nat.leb andb].
  assert (saturating_add 0 (probed_size env p) = probed_size env p) as -> by (unfold saturating_add; lia).
  destruct (source_loop_spec (probed_size env) (fun p => probed_size_ok env p Hs) (probed_size env p) (take 63 paths)
    ltac:(lia) (probed_size env p) 1) as (k & -> & Hk & Hsum); [lia..|].
  rewrite length_take in Hk. cbn [Nat.add take length]. split; [|lia]. rewrite take_take, Nat.min_l in Hsum by lia.
  split; [unfold INDEX_FILE_BATCH_SIZE; cbn; rewrite length_take; lia|].
  by exists (p, b), (take k paths).
Qed.

Section Producer.
Context (xxh3_128 : list N -> Z) {Edge Spec : Type}.
Context (source_chunks : path -> str -> list (Chunk Z) * list path).
Context (file_graph : path -> str -> FileGraph Edge Spec).
Context (manifest_resolution_signature : path -> str -> option str).
Context (is_fresh_index : bool) (cost : IndexedFile (Edge := Edge) (Spec := Spec) -> Z).
Context (Hcost : forall f, 0 <= cost f <= U64_MAX).
Context (accept : nat -> Z -> bool).
Abbreviation collect := (collect xxh3_128 source_chunks file_graph manifest_resolution_signature is_fresh_index).
Abbreviation index_file := (index_file xxh3_128 source_chunks file_graph manifest_resolution_signature is_fresh_index).
Abbreviation producer_loop := (producer_loop xxh3_128 source_chunks file_graph manifest_resolution_signature is_fresh_index cost accept).

(** ** Prepared batches *)

Lemma fill_batch_spec first files : 0 <= first <= U64_MAX -> forall bytes,
  0 <= bytes <= Z.max INDEX_PREPARED_BATCH_BYTES first ->
  let '(batch, sum, rest) := fill_batch cost true bytes files in
  files = batch ++ rest /\ sum = bytes + total cost batch /\ sum <= Z.max INDEX_PREPARED_BATCH_BYTES first.
Proof.
  intros Hf. induction files as [|f files IH]; intros bytes Hb; cbn [fill_batch]; [change (total cost []) with 0; split_and!; [done|lia..]|].
  cbn [andb]. destruct (saturating_sub INDEX_PREPARED_BATCH_BYTES bytes <? cost f) eqn:E; [change (total cost []) with 0; split_and!; [done|lia..]|].
  pose proof (Hcost f). destruct (take_another INDEX_PREPARED_BATCH_BYTES first bytes (cost f)) as [Hle ->]; [done|lia..|done|].
  specialize (IH (bytes + cost f) ltac:(lia)). destruct (fill_batch cost true (bytes + cost f) files) as [[batch sum] rest].
  destruct IH as (-> & -> & IH). cbn [app]. rewrite total_cons. split_and!; [done|lia..].
Qed.

(** A batch handed over reserves exactly what its files cost. *)
Definition batch_ok (b : IndexedFileBatch (Edge := Edge) (Spec := Spec)) : Prop :=
  within cost INDEX_PREPARED_BATCH_BYTES (batch_files b) /\ reservation b = total cost (batch_files b).

Lemma first_batch_spec f files : let '(batch, sum, rest) := fill_batch cost false 0 (f :: files) in
  f :: files = batch ++ rest /\ batch_ok (MkBatch batch sum).
Proof.
  pose proof (Hcost f). cbn [fill_batch andb].
  assert (saturating_add 0 (cost f) = cost f) as -> by (unfold saturating_add; lia).
  pose proof (fill_batch_spec (cost f) files ltac:(lia) (cost f) ltac:(lia)) as Hs.
  destruct (fill_batch cost true (cost f) files) as [[batch sum] rest]. destruct Hs as (-> & -> & Hle).
  split; [done|]. split; [|done]. by exists f, batch.
Qed.

Definition files_of (bs : list (IndexedFileBatch (Edge := Edge) (Spec := Spec))) : list IndexedFile := bs ≫= batch_files.

Lemma send_batches_spec fuel : forall sent files, (length files <= fuel)%nat -> Forall batch_ok sent ->
  exists sent' go_on, send_batches cost accept fuel sent files = Some (sent', go_on) /\ Forall batch_ok sent'
  /\ (if go_on : bool then files_of sent' = files_of sent ++ files
      else files_of sent' `prefix_of` files_of sent ++ files /\ exists bytes, accept (length sent') bytes = false).
Proof.
  induction fuel as [|fuel IH]; intros sent files Hl Hs; (destruct files as [|f files];
    [exists sent, true; rewrite app_nil_r; done|]); [cbn in Hl; lia|].
  cbn [send_batches]. pose proof (first_batch_spec f files) as Hb.
  destruct (fill_batch cost false 0 (f :: files)) as [[batch sum] rest] eqn:E. destruct Hb as [Heq Hok].
  destruct (accept (length sent) sum) eqn:Ea.
  - destruct (IH (sent ++ [MkBatch batch sum]) rest) as (sent' & go_on & -> & Hok' & Hr).
    + destruct Hok as [(x & r & Hx & _) _]. cbn in Hx. apply (f_equal length) in Heq. rewrite Hx, length_app in Heq. cbn in Heq, Hl. lia.
    + apply Forall_app. by split; [|constructor].
    + exists sent', go_on. split_and!; [done..|]. unfold files_of in *. rewrite bind_app in Hr. cbn [mbind list_bind batch_files] in Hr.
      rewrite app_nil_r, <- app_assoc, <- Heq in Hr. done.
  - exists sent, false. split_and!; [done..|by apply prefix_app_r|by exists sum].
Qed.

(** ** The whole thread *)

(** Each group of paths is read in the environment of its batch. *)
Fixpoint collect_groups (env : nat -> Env) (n : nat) (groups : list (list (path * bool)))
  : Result IoError (list IndexedFile * list path) :=
  match groups with
  | [] => Ok ([], [])
  | g :: gs =>
    '(files, gone) ← collect (env n) g;
    '(files', gone') ← collect_groups env (S n) gs;
    Ok (files ++ files', gone ++ gone')
  end.

Lemma collect_groups_snoc env gs g : forall n files gone files' gone',
  collect_groups env n gs = Ok (files, gone) -> collect (env (n + length gs)%nat) g = Ok (files', gone') ->
  collect_groups env n (gs ++ [g]) = Ok (files ++ files', gone ++ gone').
Proof.
  induction gs as [|g0 gs IH]; intros n files gone files' gone' H Hg.
  - injection H as <- <-. rewrite Nat.add_0_r in Hg. cbn [collect_groups app]. rewrite Hg. cbn. by rewrite !app_nil_r.
  - cbn [collect_groups app] in *. apply bind_Ok in H as ([f1 g1] & -> & H). apply bind_Ok in H as ([f2 g2] & H2 & [= <- <-]).
    cbn. rewrite (IH (S n) _ _ _ _ H2 (eq_ind _ (fun k => collect (env k) g = _) Hg _ (eq_sym (plus_n_Sm _ _)))).
    cbn. by rewrite !app_assoc.
Qed.

(** The relation between the paths of the diff and what the thread hands over. *)
Definition delivered (env : nat -> Env) (diff_paths : list (path * bool)) (o : Outcome (Edge := Edge) (Spec := Spec))
    (groups : list (list (path * bool))) : Prop :=
  (forall i g, groups !! i = Some g -> source_group (env i) g) /\ Forall batch_ok (sent o) /\
  exists files, collect_groups env 0 groups = Ok (files, vanished o) /\
  match ended o with
  | Drained => concat groups = diff_paths /\ files_of (sent o) = files
  | Stopped => concat groups `prefix_of` diff_paths /\ files_of (sent o) `prefix_of` files
               /\ exists bytes, accept (length (sent o)) bytes = false
  | Failed e => exists g, concat groups ++ g `prefix_of` diff_paths /\ files_of (sent o) = files
               /\ source_group (env (length groups)) g /\ collect (env (length groups)) g = Err e
  end.

Lemma producer_loop_spec env (Henv : forall n, sizes_ok (env n)) diff_paths fuel : forall groups files gone sent remaining,
  (length remaining <= fuel)%nat -> diff_paths = concat groups ++ remaining ->
  (forall i g, groups !! i = Some g -> source_group (env i) g) -> Forall batch_ok sent ->
  collect_groups env 0 groups = Ok (files, gone) -> files_of sent = files ->
  exists o groups', producer_loop env fuel (length groups) sent gone remaining = Some o /\ delivered env diff_paths o groups'.
Proof.
  induction fuel as [|fuel IH]; intros groups files gone sent remaining Hf Hd Hg Hs Hc Hfs; (destruct remaining as [|e remaining];
    [ exists (MkOutcome sent gone Drained), groups; rewrite app_nil_r in Hd; split; [done|];
      split_and!; [done..|]; exists files; by split_and! |]); [cbn in Hf; lia|].
  cbn [IndexProducer.producer_loop]. set (count := source_batch_len (env (length groups)) (e :: remaining)).
  destruct (source_batch_spec (env (length groups)) (e :: remaining)) as [Hgroup Hcount]; [done..|]. fold count in Hgroup, Hcount.
  assert (diff_paths = (concat groups ++ take count (e :: remaining)) ++ drop count (e :: remaining)) as Hd'
    by (by rewrite <- app_assoc, take_drop).
  destruct (collect (env (length groups)) (take count (e :: remaining))) as [[fs missing]|err] eqn:Ec.
  2: { eexists _, groups. split; [done|]. split_and!; [done..|]. exists files. split; [done|]. cbn.
       exists (take count (e :: remaining)). split_and!; [|done..]. by exists (drop count (e :: remaining)). }
  assert (collect_groups env 0 (groups ++ [take count (e :: remaining)]) = Ok (files ++ fs, gone ++ missing)) as Hc'
    by (by apply collect_groups_snoc).
  assert (forall i g, (groups ++ [take count (e :: remaining)]) !! i = Some g -> source_group (env i) g) as Hg'.
  { intros i g [Hi|[Hi [Hj <-]%list_lookup_singleton_Some]]%lookup_app_Some; [by apply Hg|].
    by replace i with (length groups) by lia. }
  destruct (send_batches_spec (length fs) sent fs (le_n _) Hs) as (sent' & go_on & Hsend & Hs' & Hfiles).
  rewrite Hsend. cbn [mbind option_bind]. destruct go_on.
  - destruct (IH (groups ++ [take count (e :: remaining)]) (files ++ fs) (gone ++ missing) sent' (drop count (e :: remaining)))
      as (o & groups' & Ho & Hdel); [|by rewrite concat_app; cbn; rewrite app_nil_r|done..|by rewrite Hfiles, Hfs|].
    + rewrite length_drop. cbn in *. lia.
    + rewrite length_app, Nat.add_1_r in Ho. by exists o, groups'.
  - eexists _, (groups ++ [take count (e :: remaining)]). split; [done|]. split_and!; [done..|]. exists (files ++ fs).
    split; [done|]. cbn. destruct Hfiles as [Hp Ha]. rewrite Hfs in Hp. split_and!; [|done..].
    rewrite concat_app. cbn. rewrite app_nil_r. by exists (drop count (e :: remaining)).
Qed.
End Producer.

(** ** What a file is indexed as *)

Section Files.
Context (xxh3_128 : list N -> Z) {Edge Spec : Type}.
Context (source_chunks : path -> str -> list (Chunk Z) * list path).
Context (file_graph : path -> str -> FileGraph Edge Spec).
Context (manifest_resolution_signature : path -> str -> option str).
Context (is_fresh_index : bool).
Abbreviation collect := (collect xxh3_128 source_chunks file_graph manifest_resolution_signature is_fresh_index).
Abbreviation index_file := (index_file xxh3_128 source_chunks file_graph manifest_resolution_signature is_fresh_index).
Abbreviation IndexedFile := (IndexedFile (Edge := Edge) (Spec := Spec)).

Lemma index_file_path env entry f v : index_file env entry = Ok (Some f, v) -> rel_path f = entry.1.
Proof.
  destruct entry as [rel ign]. unfold IndexProducer.index_file, empty_incremental_file.
  destruct (read env rel) as [content|[|]]; [destruct (negb _);
    [|destruct (source_chunks rel _) as [cs included]; destruct (_ && _)]|destruct (root_is_valid env rel)|];
    try done; try (destruct is_fresh_index; [done|]); by intros [= <- _].
Qed.

(** Each file comes from one entry of its batch, in order. *)
Lemma collect_paths env batch : forall files gone, collect env batch = Ok (files, gone) ->
  map rel_path files `sublist_of` batch.*1 /\
  forall entry, entry ∈ batch -> exists r v, index_file env entry = Ok (r, v) /\
    forall f, r = Some f -> f ∈ files.
Proof.
  induction batch as [|e batch IH]; intros files gone H; cbn [IndexProducer.collect] in H.
  { injection H as <- <-. split; [done|]. by intros ? ?%elem_of_nil. }
  apply bind_Ok in H as ([r v] & He & H). apply bind_Ok in H as ([fs g] & Hc & [= <- _]).
  destruct (IH fs g Hc) as [Hsub Hall]. split.
  - destruct r as [f|]; cbn [map fmap list_fmap].
    + rewrite (index_file_path _ _ _ _ He). by constructor.
    + by constructor.
  - intros entry [->|Hin]%elem_of_cons.
    + exists r, v. split; [done|]. intros f ->. left.
    + destruct (Hall entry Hin) as (r' & v' & Hr' & Hf'). exists r', v'. split; [done|]. intros f Hf.
      destruct r; [right|]; by apply Hf'.
Qed.

Lemma collect_groups_paths env groups : forall n files gone,
  collect_groups xxh3_128 source_chunks file_graph manifest_resolution_signature is_fresh_index env n groups = Ok (files, gone) ->
  map rel_path files `sublist_of` (concat groups).*1 /\
  forall i g entry, groups !! i = Some g -> entry ∈ g -> exists r v, index_file (env (n + i)%nat) entry = Ok (r, v) /\
    forall f, r = Some f -> f ∈ files.
Proof.
  induction groups as [|g groups IH]; intros n files gone H; cbn [collect_groups] in H.
  { injection H as <- <-. split; [done|]. intros i g entry. by rewrite lookup_nil. }
  apply bind_Ok in H as ([fs1 g1] & H1 & H). apply bind_Ok in H as ([fs2 g2] & H2 & [= <- _]).
  destruct (collect_paths _ _ _ _ H1) as [Hs1 Ha1]. destruct (IH _ _ _ H2) as [Hs2 Ha2]. split.
  - cbn [concat]. rewrite map_app, fmap_app. by apply sublist_app.
  - intros [|i] g' entry Hi Hin.
    + injection Hi as <-. destruct (Ha1 entry Hin) as (r & v & Hr & Hf). exists r, v. rewrite Nat.add_0_r.
      split; [done|]. intros f Hf'. apply elem_of_app. left. by apply Hf.
    + destruct (Ha2 i g' entry Hi Hin) as (r & v & Hr & Hf). exists r, v. rewrite <- plus_n_Sm. split; [done|].
      intros f Hf'. apply elem_of_app. right. by apply Hf.
Qed.

(** ** Keys *)

Lemma unseen_keys_spec chunks : forall seen,
  NoDup (map vector_key (unseen_keys seen chunks)) /\ (forall k, k ∈ map vector_key (unseen_keys seen chunks) -> k ∉ seen)
  /\ unseen_keys seen chunks `sublist_of` chunks.
Proof.
  induction chunks as [|c chunks IH]; intros seen; cbn [unseen_keys]; [by repeat split; try constructor; intros ? ?%elem_of_nil|].
  case_bool_decide as Hc.
  - destruct (IH seen) as (H1 & H2 & H3). split_and!; [done..|by constructor].
  - destruct (IH ({[vector_key c]} ∪ seen)) as (H1 & H2 & H3). cbn [map]. split_and!.
    + constructor; [|done]. intros Hin. apply (H2 _ Hin). set_solver.
    + intros k [->|Hk]%elem_of_cons; [done|]. intros Hs. apply (H2 _ Hk). set_solver.
    + by constructor.
Qed.
Lemma unseen_keys_id chunks : forall seen, NoDup (map vector_key chunks) ->
  (forall k, k ∈ map vector_key chunks -> k ∉ seen) -> unseen_keys seen chunks = chunks.
Proof.
  induction chunks as [|c chunks IH]; intros seen Hn Hs; [done|]. cbn [map unseen_keys] in *.
  apply NoDup_cons in Hn as [Hc Hn]. rewrite bool_decide_eq_false_2 by (apply Hs; left). f_equal. apply IH; [done|].
  intros k Hk. apply not_elem_of_union. split; [|apply Hs; by right]. intros ->%elem_of_singleton. done.
Qed.

Lemma vector_key_range rel text occurrence : in_range (vector_key_for_chunk xxh3_128 rel text occurrence)
  /\ (Z.of_N (vector_key_for_chunk xxh3_128 rel text occurrence) <= I64_MAX).
Proof.
  unfold vector_key_for_chunk, in_range. set (v := from_le_bytes _). change I64_MAX with (Z.ones 63).
  rewrite Z.land_ones by done. pose proof (Z.mod_pos_bound v (2 ^ 63) eq_refl). change (Z.ones 63) with (2 ^ 63 - 1). lia.
Qed.
Lemma number_chunks_range rel ign cs : forall occ, Forall (fun c => in_range (vector_key c)) (number_chunks xxh3_128 rel ign occ cs).
Proof.
  induction cs as [|c cs IH]; intros occ; cbn [number_chunks]; constructor; [|apply IH].
  destruct (_ =? 0); cbn [vector_key build_indexed_chunk build_indexed_chunk_with_occurrence]; apply vector_key_range.
Qed.
End Files.
