(* ===== verification/IndexRun.v ===== *)
(** * Vector keys identify chunks, and a run publishes what its producer read. *)
From S2P Require Import Prelude Utf8 Paths Languages Chunking ChunkTable IndexStats Tombstones IndexPersist IndexPublishFacts IndexProducer.
Local Open Scope Z_scope.

(** ** The hashed data determines path, occurrence and text *)

Lemma le_bytes_32 x : 0 <= x < 2 ^ 32 -> exists a b c d, to_le_bytes 8 x = [a; b; c; d; 0; 0; 0; 0]%N
  /\ x = Z.of_N a + 256 * (Z.of_N b + 256 * (Z.of_N c + 256 * Z.of_N d)).
Proof.
  intros Hx. cbn [to_le_bytes].
  assert (x / 256 / 256 / 256 / 256 = 0) as Hz by (rewrite !Z.div_div by done; apply Z.div_small; lia).
  rewrite Hz. eexists _, _, _, _. split; [reflexivity|].
  pose proof (Z.div_mod x 256 ltac:(done)). pose proof (Z.div_mod (x / 256) 256 ltac:(done)).
  pose proof (Z.div_mod (x / 256 / 256) 256 ltac:(done)). pose proof (Z.div_mod (x / 256 / 256 / 256) 256 ltac:(done)).
  pose proof (Z.mod_pos_bound x 256 eq_refl). pose proof (Z.mod_pos_bound (x / 256) 256 eq_refl).
  pose proof (Z.mod_pos_bound (x / 256 / 256) 256 eq_refl). pose proof (Z.mod_pos_bound (x / 256 / 256 / 256) 256 eq_refl).
  rewrite !Z2N.id by lia. lia.
Qed.

(** No character NUL; a first byte other than NUL, as the chunk header has. *)
Definition nul_free (s : list N) : Prop := 0%N ∉ s.
Definition starts_printable (text : str) : Prop := head (bytes text) <> Some 0%N.

Lemma framed_prefix r o1 o2 t1 t2 : nul_free r -> head t1 <> Some 0%N -> 0 <= o1 < 2 ^ 32 -> 0 <= o2 < 2 ^ 32 ->
  to_le_bytes 8 o1 ++ t1 = r ++ to_le_bytes 8 o2 ++ t2 -> r = [] /\ o1 = o2 /\ t1 = t2.
Proof.
  intros Hr Ht H1 H2. destruct (le_bytes_32 o1 H1) as (a1 & b1 & c1 & d1 & -> & E1).
  destruct (le_bytes_32 o2 H2) as (a2 & b2 & c2 & d2 & -> & E2). unfold nul_free in Hr.
  destruct r as [|r0 [|r1 [|r2 [|r3 [|r4 r]]]]]; cbn [app]; intros H; [by simplify_eq| | | | |]; exfalso.
  1-4: destruct t1; simplify_list_eq; done.
  simplify_list_eq. set_solver.
Qed.

Lemma key_data_inj p1 p2 t1 t2 o1 o2 :
  nul_free (index_path_string p1) -> nul_free (index_path_string p2) -> starts_printable t1 -> starts_printable t2 ->
  0 <= o1 < 2 ^ 32 -> 0 <= o2 < 2 ^ 32 -> key_data p1 t1 o1 = key_data p2 t2 o2 ->
  index_path_string p1 = index_path_string p2 /\ o1 = o2 /\ bytes t1 = bytes t2.
Proof.
  unfold key_data. generalize (index_path_string p1) (index_path_string p2). intros s1 s2 H1 H2 Ht1 Ht2 Ho1 Ho2 E.
  apply app_eq_inv in E as [(r & -> & E)|(r & -> & E)].
  - apply framed_prefix in E as (-> & -> & ->); rewrite ?app_nil_r; try done.
    intros Hin. apply H1, elem_of_app. by right.
  - apply framed_prefix in E as (-> & -> & ->); rewrite ?app_nil_r; try done.
    intros Hin. apply H2, elem_of_app. by right.
Qed.

(** ** Occurrences *)

Section Keys.
Context (xxh3_128 : list N -> Z).

(** The hash of the bytes of the key, as a function of the hashed data. *)
Definition data_key (data : list N) : key :=
  Z.to_N (Z.land (from_le_bytes (take 8 (to_le_bytes 16 (xxh3_128 data)))) I64_MAX).

Fixpoint occurrences (counts : gmap Z Z) (chunks : list (Chunk Z)) : list (str * Z) :=
  match chunks with
  | [] => []
  | c :: chunks =>
    let id := xxh3_128 (bytes (Chunking.text c)) in
    let n := unwrap_or 0 (counts !! id) in
    (Chunking.text c, n) :: occurrences (<[id := n + 1]> counts) chunks
  end.

Lemma number_chunks_eq rel ign chunks : forall counts,
  map (fun c => (text c, vector_key c)) (number_chunks xxh3_128 rel ign counts chunks) =
  map (fun o => (o.1, data_key (key_data rel o.1 o.2))) (occurrences counts chunks).
Proof.
  induction chunks as [|c chunks IH]; intros counts; [done|]. cbn [number_chunks occurrences map fst snd]. rewrite IH. f_equal.
  destruct (Z.eqb_spec (unwrap_or 0 (counts !! xxh3_128 (bytes (Chunking.text c)))) 0) as [->|]; done.
Qed.
Lemma occurrences_texts chunks : forall counts, map fst (occurrences counts chunks) = map Chunking.text chunks.
Proof. induction chunks as [|c chunks IH]; intros counts; [done|]. cbn [occurrences map fst]. by rewrite IH. Qed.

(** By the bytes of the text. *)
Definition coded (o : str * Z) : list N * Z := (bytes o.1, o.2).
Definition count_of (counts : gmap Z Z) (b : list N) : Z := unwrap_or 0 (counts !! xxh3_128 b).
Lemma count_insert counts b b' n : count_of (<[xxh3_128 b := n]> counts) b' =
  if decide (xxh3_128 b = xxh3_128 b') then n else count_of counts b'.
Proof.
  unfold count_of. destruct (decide _) as [->|Hne]; [by rewrite lookup_insert_eq|by rewrite lookup_insert_ne].
Qed.
Lemma occurrences_from chunks : forall counts b n, (b, n) ∈ map coded (occurrences counts chunks) -> count_of counts b <= n.
Proof.
  induction chunks as [|c chunks IH]; intros counts b n Hin; cbn [occurrences map] in Hin; [by apply elem_of_nil in Hin|].
  apply elem_of_cons in Hin as [[= -> ->]|Hin]; [done|]. apply IH in Hin. rewrite count_insert in Hin.
  destruct (decide _) as [E|]; [|done]. unfold count_of. rewrite <- E. lia.
Qed.
Lemma occurrences_below chunks : forall counts bound, (forall b, 0 <= count_of counts b <= bound) ->
  Forall (fun o => 0 <= o.2 < bound + Z.of_nat (length chunks)) (occurrences counts chunks).
Proof.
  induction chunks as [|c chunks IH]; intros counts bound Hb; [constructor|]. cbn [occurrences length].
  pose proof (Hb (bytes (Chunking.text c))) as Hc. unfold count_of in Hc. constructor; [cbn [snd]; lia|].
  eapply Forall_impl; [apply (IH _ (bound + 1))|cbn; lia].
  intros t. rewrite count_insert. pose proof (Hb t). destruct (decide _); unfold count_of in *; lia.
Qed.
Lemma occurrences_nodup chunks : forall counts, NoDup (map coded (occurrences counts chunks)).
Proof.
  induction chunks as [|c chunks IH]; intros counts; constructor; [|apply IH].
  intros Hin%occurrences_from. cbn [fst snd] in Hin. rewrite count_insert, decide_True in Hin by done. lia.
Qed.

(** ** Uniqueness *)

(** A file: its path, whether it is ignored, and its chunks. *)
Abbreviation Source := (path * bool * list (Chunk Z))%type.
Definition file_data (f : Source) : list (list N) :=
  map (fun o => key_data f.1.1 o.1 o.2) (occurrences ∅ f.2).
Definition injective_on {A B} (g : A -> B) (l : list A) : Prop := forall x y, x ∈ l -> y ∈ l -> g x = g y -> x = y.
Lemma NoDup_map_on {A B} (g : A -> B) l : injective_on g l -> NoDup l -> NoDup (map g l).
Proof.
  intros Hg. induction 1 as [|a l Ha Hl IH]; constructor.
  - intros (b & E & Hb)%list_elem_of_fmap. apply Ha. rewrite (Hg a b); [done|left|by right|done].
  - apply IH. intros x y Hx Hy. apply Hg; by right.
Qed.

Definition source_ok (f : Source) : Prop :=
  nul_free (index_path_string f.1.1) /\ Forall (fun c => starts_printable (Chunking.text c)) f.2
  /\ Z.of_nat (length f.2) <= 2 ^ 32.

#[export] Instance source_ok_dec f : Decision (source_ok f).
Proof. unfold source_ok, nul_free, starts_printable. apply _. Defined.

Lemma occurrence_ok f o : source_ok f -> o ∈ occurrences ∅ f.2 -> starts_printable o.1 /\ 0 <= o.2 < 2 ^ 32.
Proof.
  intros (_ & Ht & Hl) Ho. split.
  - assert (o.1 ∈ map Chunking.text f.2) as (c & -> & Hc)%list_elem_of_fmap
      by (rewrite <- (occurrences_texts f.2 ∅); apply list_elem_of_fmap; by exists o).
    by apply (proj1 (Forall_forall _ _) Ht).
  - assert (forall b, 0 <= count_of ∅ b <= 0) as Hz by (intros b; unfold count_of; by rewrite lookup_empty).
    pose proof (proj1 (Forall_forall _ _) (occurrences_below f.2 ∅ 0 Hz) o Ho) as Hb. cbn beta in Hb. lia.
Qed.

Lemma file_data_nodup f : source_ok f -> NoDup (file_data f).
Proof.
  intros Hf. unfold file_data.
  apply (NoDup_fmap_1 (fun d => d)). rewrite list_fmap_id.
  assert (NoDup (occurrences ∅ f.2)) as Hn by (apply (NoDup_fmap_1 coded), occurrences_nodup).
  assert (injective_on coded (occurrences ∅ f.2)) as Hinj.
  { clear Hf. revert Hn. generalize (occurrences_nodup f.2 ∅). generalize (occurrences ∅ f.2). intros l Hc _ x y Hx Hy E.
    apply list_elem_of_lookup in Hx as [i Hi], Hy as [j Hj].
    assert (i = j) as ->; [|congruence]. apply (NoDup_lookup (map coded l) i j (coded x)); [done| |].
    - by rewrite list_lookup_fmap, Hi.
    - by rewrite list_lookup_fmap, Hj, E. }
  apply NoDup_map_on; [|done]. intros x y Hx Hy E.
  destruct (occurrence_ok f x Hf Hx), (occurrence_ok f y Hf Hy), Hf as (Hp & _).
  apply key_data_inj in E as (_ & En & Eb); try done. apply Hinj; [done..|]. unfold coded. by rewrite En, Eb.
Qed.

(** Files with different keys share no data. *)
Lemma file_data_disjoint f g d : source_ok f -> source_ok g -> d ∈ file_data f -> d ∈ file_data g ->
  index_path_string f.1.1 = index_path_string g.1.1.
Proof.
  intros Hf Hg (x & -> & Hx)%list_elem_of_fmap (y & E & Hy)%list_elem_of_fmap.
  destruct (occurrence_ok f x Hf Hx), (occurrence_ok g y Hg Hy), Hf as (Hp & _), Hg as (Hq & _).
  by apply key_data_inj in E as (E & _).
Qed.

Lemma all_data_nodup files : Forall source_ok files -> NoDup (map (fun f => index_path_string f.1.1) files) ->
  NoDup (files ≫= file_data).
Proof.
  induction 1 as [|f files Hf Hfs IH]; [constructor|]. intros [Hnew Hn]%NoDup_cons. cbn [mbind list_bind].
  apply NoDup_app. split_and!; [by apply file_data_nodup| |by apply IH].
  intros d Hd (g & Hg & Hin)%list_elem_of_bind. apply Hnew, list_elem_of_fmap. exists g. split; [|done].
  apply (file_data_disjoint f g d); [done| |done..]. by apply (proj1 (Forall_forall _ _) Hfs).
Qed.

Definition indexed (f : Source) : list IndexedChunk := index_chunks xxh3_128 f.1.1 f.1.2 f.2.

Lemma number_chunks_keys f :
  map vector_key (number_chunks xxh3_128 f.1.1 f.1.2 ∅ f.2) = map data_key (file_data f).
Proof.
  pose proof (f_equal (map snd) (number_chunks_eq f.1.1 f.1.2 f.2 ∅)) as E. rewrite !map_map in E. cbn [snd] in E.
  unfold file_data. by rewrite map_map.
Qed.

(** The chunks kept are those built, under the keys of their data. *)
Lemma indexed_all f : source_ok f -> injective_on data_key (file_data f) ->
  indexed f = number_chunks xxh3_128 f.1.1 f.1.2 ∅ f.2 /\ map vector_key (indexed f) = map data_key (file_data f).
Proof.
  intros Hf Hinj.
  assert (indexed f = number_chunks xxh3_128 f.1.1 f.1.2 ∅ f.2) as E; [|by rewrite E, number_chunks_keys].
  unfold indexed, index_chunks. apply unseen_keys_id; [|by intros ? ? ?%not_elem_of_empty].
  rewrite number_chunks_keys. apply NoDup_map_on; [done|]. by apply file_data_nodup.
Qed.
End Keys.

(** C6. As long as the digest does not confuse two of the inputs it is given, no chunk of
    a set of files is dropped and no two chunks of them share a vector key: a key is the
    digest of path, occurrence and text, and that framing is injective. *)
Theorem vector_keys_identify_chunks xxh3_128 (files : list (path * bool * list (Chunk Z)))
  (Hdistinct : NoDup (map (fun f => index_path_string f.1.1) files))
  (Hfiles : Forall source_ok files)
  (Hdigest : injective_on (data_key xxh3_128) (files ≫= file_data xxh3_128)) :
  (forall f, f ∈ files -> map text (indexed xxh3_128 f) = map Chunking.text f.2)
  /\ NoDup (files ≫= fun f => map vector_key (indexed xxh3_128 f)).
Proof.
  assert (forall f, f ∈ files -> source_ok f /\ injective_on (data_key xxh3_128) (file_data xxh3_128 f)) as Hf.
  { intros f Hin. split; [by apply (proj1 (Forall_forall _ _) Hfiles)|].
    intros x y Hx Hy. apply Hdigest; apply list_elem_of_bind; by exists f. }
  split.
  - intros f Hin. destruct (Hf f Hin) as [H1 H2]. destruct (indexed_all xxh3_128 f H1 H2) as [-> _].
    pose proof (f_equal (map fst) (number_chunks_eq xxh3_128 f.1.1 f.1.2 f.2 ∅)) as E. rewrite !map_map in E. cbn [fst] in E.
    etrans; [exact E|]. apply occurrences_texts.
  - replace (files ≫= _) with (map (data_key xxh3_128) (files ≫= file_data xxh3_128)).
    + apply NoDup_map_on; [done|]. by apply all_data_nodup.
    + clear Hdigest Hdistinct Hfiles. induction files as [|f files IH]; [done|]. cbn [mbind list_bind]. rewrite map_app, IH.
      * destruct (Hf f) as [H1 H2]; [left|]. by destruct (indexed_all xxh3_128 f H1 H2) as [_ ->].
      * intros g Hg. apply Hf. by right.
Qed.

(** ** From the diff to the published rows *)

Section Run.
Context (xxh3_128 : list N -> Z) {Edge Spec : Type}.
Context (source_chunks : path -> str -> list (Chunk Z) * list path).
Context (file_graph : path -> str -> FileGraph Edge Spec).
Context (manifest_resolution_signature : path -> str -> option str).
Context (fresh : bool) (compress_text : str -> list N).
Abbreviation collect := (collect xxh3_128 source_chunks file_graph manifest_resolution_signature fresh).
Abbreviation read_file := (IndexProducer.index_file xxh3_128 source_chunks file_graph manifest_resolution_signature fresh).
Abbreviation collect_groups := (collect_groups xxh3_128 source_chunks file_graph manifest_resolution_signature fresh).
Abbreviation IndexedFile := (IndexProducer.IndexedFile (Edge := Edge) (Spec := Spec)).
Abbreviation persist := (persisted (Edge := Edge) (Spec := Spec) compress_text).

(** An entry of the diff and the file some batch read for it. *)
Definition read_as (env : nat -> Env) (entry : path * bool) (r : option IndexedFile) : Prop :=
  exists n v, read_file (env n) entry = Ok (r, v).

Lemma collect_results env n batch : forall files gone, collect (env n) batch = Ok (files, gone) ->
  exists rs, Forall2 (read_as env) batch rs /\ files = omap id rs.
Proof.
  induction batch as [|e batch IH]; intros files gone H; cbn [IndexProducer.collect] in H.
  { injection H as <- <-. by exists []. }
  apply bind_Ok in H as ([r v] & He & H). apply bind_Ok in H as ([fs g] & Hc & [= <- _]).
  destruct (IH fs g Hc) as (rs & Hrs & ->). exists (r :: rs). split; [constructor; [by exists n, v|done]|].
  by destruct r.
Qed.
Lemma collect_groups_results env groups : forall n files gone, collect_groups env n groups = Ok (files, gone) ->
  exists rs, Forall2 (read_as env) (concat groups) rs /\ files = omap id rs.
Proof.
  induction groups as [|g groups IH]; intros n files gone H; cbn [IndexProducer.collect_groups] in H.
  { injection H as <- <-. by exists []. }
  apply bind_Ok in H as ([fs1 g1] & H1 & H). apply bind_Ok in H as ([fs2 g2] & H2 & [= <- _]).
  destruct (collect_results _ _ _ _ _ H1) as (rs1 & Hr1 & ->). destruct (IH _ _ _ H2) as (rs2 & Hr2 & ->).
  exists (rs1 ++ rs2). split; [by apply Forall2_app|]. by rewrite omap_app.
Qed.

Lemma read_file_spec env entry f v : read_file env entry = Ok (Some f, v) ->
  rel_path f = entry.1 /\ Forall (fun c => in_range (vector_key c)) (chunks f).
Proof.
  intros H. split; [by eapply index_file_path|]. destruct entry as [rel ign].
  unfold IndexProducer.index_file, empty_incremental_file in H.
  destruct (read env rel) as [content|[|]]; [destruct (negb _);
    [|destruct (source_chunks rel _) as [cs included]; destruct (_ && _)]|destruct (root_is_valid env rel)|];
    try done; try (destruct fresh; [done|]); injection H as <- _; try constructor.
  cbn [chunks]. unfold index_chunks. destruct (unseen_keys_spec (number_chunks xxh3_128 rel ign ∅ cs) ∅) as (_ & _ & Hs).
  apply Forall_forall. intros c Hc. apply (proj1 (Forall_forall _ _) (number_chunks_range xxh3_128 rel ign cs ∅)).
  by apply (elem_of_sublist _ _ c Hc Hs).
Qed.

(** An incremental run has a file for every entry. *)
Lemma read_file_incremental env entry v : fresh = false -> read_file env entry <> Ok (None, v).
Proof.
  destruct entry as [rel ign]. unfold IndexProducer.index_file, empty_incremental_file. intros ->.
  destruct (read env rel) as [content|[|]]; [destruct (negb _);
    [|destruct (source_chunks rel _) as [cs included]; destruct (_ && _)]|destruct (root_is_valid env rel)|]; done.
Qed.

Section Results.
Context (env : nat -> Env) (entries : list (path * bool)) (rs : list (option IndexedFile)).
Context (Hrs : Forall2 (read_as env) entries rs) (Hnd : NoDup (map (fun e => index_path_string e.1) entries)).

Lemma result_file k f : rs !! k = Some (Some f) -> exists e, entries !! k = Some e /\ rel_path f = e.1.
Proof.
  intros Hk. destruct (Forall2_lookup_r _ _ _ _ _ Hrs Hk) as (e & He & n & v & Hr). exists e. split; [done|].
  by destruct (read_file_spec _ _ _ _ Hr).
Qed.
Lemma results_paths : map (fun f => index_path_string (rel_path f)) (omap id rs) `sublist_of`
  map (fun e => index_path_string e.1) entries.
Proof.
  clear Hnd. induction Hrs as [|e r es rs' (n & v & Hr) Hes IH]; [done|]. specialize (IH Hes). destruct r as [f|]; cbn [omap list_omap id map].
  - destruct (read_file_spec _ _ _ _ Hr) as [-> _]. by constructor.
  - by constructor.
Qed.
Lemma results_distinct : distinct_files (map persist (omap id rs)).
Proof. unfold distinct_files. rewrite map_map. exact (sublist_NoDup _ _ Hnd results_paths). Qed.
Lemma results_in_range : Forall keys_in_range (map persist (omap id rs)).
Proof.
  clear Hnd. apply Forall_map, Forall_forall. intros f Hf. apply list_elem_of_omap in Hf as (r & Hr & Hid).
  unfold id in Hid. subst r. apply list_elem_of_lookup in Hr as [k Hk]. destruct (Forall2_lookup_r _ _ _ _ _ Hrs Hk) as (e & _ & n & v & Hrf).
  destruct (read_file_spec _ _ _ _ Hrf) as [_ Hc]. unfold keys_in_range, persisted. cbn [IndexPersist.chunks].
  rewrite Forall_fmap, Forall_map. eapply Forall_impl; [exact Hc|done].
Qed.
(** An entry for which nothing was kept: no file of the run has its key. *)
Lemma result_none k e : entries !! k = Some e -> rs !! k = Some None ->
  index_path_string e.1 ∉ index_files (map persist (omap id rs)).
Proof.
  intros He Hk Hin. rewrite map_map in Hin. apply list_elem_of_fmap in Hin as (f & Ef & Hf). cbn in Ef.
  apply list_elem_of_omap in Hf as (r & Hr & Hid).
  unfold id in Hid. subst r. apply list_elem_of_lookup in Hr as [j Hj].
  destruct (result_file j f Hj) as (e' & He' & Hp). assert (j = k) as ->; [|congruence].
  apply (NoDup_lookup _ _ _ (index_path_string e.1) Hnd); rewrite list_lookup_fmap.
  - rewrite He'. cbn. by rewrite Ef, Hp.
  - by rewrite He.
Qed.
End Results.

Context (cost : IndexedFile -> Z) (Hcost : forall f, 0 <= cost f <= U64_MAX) (accept : nat -> Z -> bool).
Abbreviation producer := (run_producer xxh3_128 source_chunks file_graph manifest_resolution_signature fresh cost accept).
Abbreviation delivers :=
  (delivered xxh3_128 source_chunks file_graph manifest_resolution_signature fresh cost accept).

Lemma producer_delivers env diff_paths : (forall n, sizes_ok (env n)) ->
  exists o groups, producer env diff_paths = Some o /\ delivers env diff_paths o groups.
Proof.
  intros Henv.
  apply (producer_loop_spec xxh3_128 source_chunks file_graph manifest_resolution_signature fresh cost Hcost accept env Henv
    diff_paths (length diff_paths) [] [] []); done.
Qed.

Lemma producer_results env diff_paths o : (forall n, sizes_ok (env n)) -> producer env diff_paths = Some o -> ended o = Drained ->
  exists rs, Forall2 (read_as env) diff_paths rs /\ files_of (sent o) = omap id rs.
Proof.
  intros Henv Ho He. destruct (producer_delivers env diff_paths Henv) as (o' & groups & Ho' & Hd).
  rewrite Ho in Ho'. injection Ho' as <-. destruct Hd as (_ & _ & files & Hc & Hend). rewrite He in Hend. destruct Hend as [<- ->].
  by eapply (collect_groups_results env groups 0).
Qed.
End Run.

(** C5. The producer's thread ends.  It reads the paths of the diff in order, in batches
    of at most 64 files and 4 MiB of source (a larger file alone), each with one view of
    the directory, and hands the files over in batches that reserve what they hold, at
    most 8 MiB unless the first file is larger: all of them when it drains the diff; those
    before the batch that failed when a read fails, with that batch's error; a prefix when
    the budget or the writer turned a batch down. *)
Theorem producer_delivers_every_file xxh3_128 {Edge Spec : Type} source_chunks (file_graph : path -> str -> FileGraph Edge Spec)
  manifest_resolution_signature fresh cost accept (env : nat -> Env) (diff_paths : list (path * bool))
  (Hcost : forall f, 0 <= cost f <= U64_MAX) (Henv : forall n, sizes_ok (env n)) :
  exists o groups,
    run_producer xxh3_128 source_chunks file_graph manifest_resolution_signature fresh cost accept env diff_paths = Some o
    /\ delivered xxh3_128 source_chunks file_graph manifest_resolution_signature fresh cost accept env diff_paths o groups.
Proof. by apply producer_delivers. Qed.

(** C4. An update whose producer drained its diff publishes, for every path of the diff,
    exactly the chunks of what one batch read for it, and none when nothing was kept; it
    ends with exact statistics and one document per row. *)
Theorem run_publishes_what_was_read xxh3_128 {Edge Spec : Type} source_chunks (file_graph : path -> str -> FileGraph Edge Spec)
  manifest_resolution_signature fresh compress_text cost accept (env : nat -> Env) (diff_paths : list (path * bool)) o
  (overlay : bool) base clear deleted d0 j
  (Hcost : forall f, 0 <= cost f <= U64_MAX) (Henv : forall n, sizes_ok (env n))
  (Ho : run_producer xxh3_128 source_chunks file_graph manifest_resolution_signature fresh cost accept env diff_paths = Some o)
  (Hdrained : ended o = Drained)
  (Hdistinct : NoDup (map (fun e => index_path_string e.1) diff_paths))
  (Hstart : if fresh then d_rows d0 = [] else stats_exact (d_stats d0) (d_rows d0))
  (Hdocs : d_docs d0 ≡ₚ docs_of (d_rows d0)) :
  let r := run_update overlay fresh base clear deleted diff_paths.*1 (map (persisted compress_text) (files_of (sent o)))
    (begin_run fresh (d_rows d0) (d_stats d0) (d_tombstones d0) (d_docs d0) j) in
  let d := replay d0 (durable r) in
  exists results,
    Forall2 (read_as xxh3_128 source_chunks file_graph manifest_resolution_signature fresh env) diff_paths results /\
    (forall k entry result, diff_paths !! k = Some entry -> results !! k = Some result ->
       file_chunks (d_rows d) (index_path_string entry.1) =
       match result with Some f => IndexPersist.chunks (persisted compress_text f) | None => [] end) /\
    stats_exact (d_stats d) (d_rows d) /\ d_docs d ≡ₚ docs_of (d_rows d).
Proof.
  destruct (producer_results xxh3_128 source_chunks file_graph manifest_resolution_signature fresh cost Hcost accept
    env diff_paths o Henv Ho Hdrained) as (rs & Hrs & Hfiles). cbv zeta. rewrite Hfiles.
  pose proof (results_distinct _ _ _ _ _ compress_text _ _ _ Hrs Hdistinct) as Hd.
  destruct (update_publishes overlay fresh base clear deleted diff_paths.*1 _ d0 j Hstart Hdocs Hd) as (Hin & Hout & Hs & Hp).
  exists rs. split_and!; [done| |done..]. intros k entry [f|] He Hk.
  - destruct (result_file _ _ _ _ _ _ _ _ Hrs k f Hk) as (e & He' & Hpath). assert (e = entry) as -> by congruence.
    rewrite <- Hpath. apply (Hin (persisted compress_text f)). apply list_elem_of_fmap. exists f. split; [done|].
    apply list_elem_of_omap. exists (Some f). split; [|done]. by apply list_elem_of_lookup; exists k.
  - rewrite Hout by by eapply (result_none _ _ _ _ _ compress_text _ _ _ Hrs Hdistinct). case_decide; [done|].
    destruct (Forall2_lookup_l _ _ _ _ _ Hrs He) as (r & Hr & n & v & Hread). assert (r = None) as -> by congruence.
    destruct fresh; [by rewrite Hstart|]. by destruct (read_file_incremental _ _ _ _ _ _ _ _ eq_refl Hread).
Qed.

(** ** Concrete runs *)

Lemma injective_NoDup {A B} (g : A -> B) l : NoDup (map g l) -> injective_on g l.
Proof.
  intros Hn x y Hx Hy E. apply list_elem_of_lookup in Hx as [i Hi], Hy as [j Hj].
  assert (i = j) as ->; [|congruence]. apply (NoDup_lookup _ _ _ (g x) Hn); rewrite list_lookup_fmap.
  - by rewrite Hi.
  - by rewrite Hj, E.
Qed.

(** A polynomial digest, and a chunker with one chunk a line. *)
Definition example_digest (l : list N) : Z := foldl (fun h b => (h * 257 + Z.of_N b + 1) mod 2 ^ 128) 0 l.
Definition example_chunk (rel : path) (line : str) : Chunk Z :=
  make_chunk example_digest rel 1 1 (header rel ++ line) (lit "text") Languages.Text None.
Definition example_chunks (rel : path) (content : str) : list (Chunk Z) * list path :=
  (map (example_chunk rel) (str_lines content), []).
Definition no_graph (rel : path) (content : str) : FileGraph unit unit := MkGraph [] [] [].
(** The file [gone] vanished before it was read. *)
Definition example_env (n : nat) : Env :=
  MkEnv (fun p => if bool_decide (p = lit "big") then Some (8 * MIB) else Some 5)
    (fun p => if bool_decide (p = lit "gone") then Err NotFound else Ok (lit "x" ++ [10%N] ++ lit "x" ++ [10%N] ++ p))
    (fun _ => true).
Definition example_paths : list (path * bool) := [(lit "a", false); (lit "gone", false); (lit "big", true)].
Definition example_producer (fresh : bool) (accept : nat -> Z -> bool) : option Outcome :=
  run_producer example_digest example_chunks no_graph (fun _ _ => None) fresh (fun _ => 5 * MIB) accept example_env example_paths.

Example producer_example :
  (fun o => (map (fun b => map rel_path (batch_files b)) (sent o), vanished o, ended o)) <$> example_producer true (fun _ _ => true)
  = Some ([[lit "a"]; [lit "big"]], [lit "gone"], Drained).
Proof. vm_compute. reflexivity. Qed.

Lemma example_sizes n : sizes_ok (example_env n).
Proof. intros p k. cbn. case_bool_decide; intros [= <-]; by split. Qed.

Lemma producer_delivers_every_file_witness : exists o groups, example_producer false (fun n _ => (n <? 1)%nat) = Some o
  /\ delivered example_digest example_chunks no_graph (fun _ _ => None) false (fun _ => 5 * MIB) (fun n _ => (n <? 1)%nat)
       example_env example_paths o groups.
Proof.
  apply (producer_delivers_every_file example_digest example_chunks no_graph (fun _ _ => None) false (fun _ => 5 * MIB)).
  - by intros _.
  - apply example_sizes.
Defined.

Definition example_sources : list (path * bool * list (Chunk Z)) :=
  map (fun p => (p, false, map (example_chunk p) [lit "x"; lit "y"; lit "x"])) [lit "a"; lit "b"].
Lemma vector_keys_identify_chunks_witness :
  map (fun f => length (indexed example_digest f)) example_sources = [3; 3]%nat
  /\ NoDup (example_sources ≫= fun f => map vector_key (indexed example_digest f)).
Proof.
  split; [by vm_compute|].
  apply (vector_keys_identify_chunks example_digest example_sources).
  - apply (bool_decide_eq_true_1 _). by vm_compute.
  - apply (bool_decide_eq_true_1 _). by vm_compute.
  - apply injective_NoDup, (bool_decide_eq_true_1 _). by vm_compute.
Defined.

Lemma run_publishes_what_was_read_witness : exists o (results : list (option (IndexProducer.IndexedFile (Edge := unit) (Spec := unit)))),
  example_producer true (fun _ _ => true) = Some o
  /\ length results = 3%nat
  /\ let d := replay (MkDisk [] ∅ ∅ [] (fun _ => None)) (durable (run_update false true (fun _ => false) [] []
       example_paths.*1 (map (persisted bytes) (files_of (sent o))) (begin_run true [] ∅ ∅ [] (with_max_pending_bytes false 1000)))) in
     stats_exact (d_stats d) (d_rows d).
Proof.
  destruct (example_producer true (fun _ _ => true)) as [o|] eqn:Ho; [|by vm_compute in Ho].
  assert (ended o = Drained) as Hend by (revert Ho; vm_compute; intros [= <-]; reflexivity).
  destruct (run_publishes_what_was_read example_digest example_chunks no_graph (fun _ _ => None) true bytes (fun _ => 5 * MIB)
    (fun _ _ => true) example_env example_paths o false (fun _ => false) [] [] (MkDisk [] ∅ ∅ [] (fun _ => None))
    (with_max_pending_bytes false 1000)) as (rs & Hrs & _ & Hs & _).
  - by intros _.
  - apply example_sizes.
  - exact Ho.
  - exact Hend.
  - apply (bool_decide_eq_true_1 _). by vm_compute.
  - done.
  - done.
  - exists o, rs. split; [done|]. split; [|exact Hs]. by rewrite <- (Forall2_length _ _ _ Hrs).
Defined.
