(* ===== verification/PathNames.v ===== *)
(** * Relative paths as lists of names.

  A path written with plain names only has them as its components, so the loops that
  normalise a path by pushing names and popping at [..] are the lexical resolution of a
  list of components ([resolve]). *)
From S2P Require Import Prelude Utf8 BTree Paths.

(** ** Names *)

Definition name_ok (n : list N) : Prop := n <> [] /\ n <> lit "." /\ n <> lit ".." /\ SEP ∉ n.
#[global] Instance name_ok_dec n : Decision (name_ok n).
Proof. unfold name_ok. apply _. Defined.

Definition path_of (ns : list (list N)) : path := join_components (map Normal ns).

Lemma split_on_app (sep : N) w s : sep ∉ w -> split_on sep (w ++ sep :: s) = w :: split_on sep s.
Proof.
  induction w as [|c w IH]; intros Hw; cbn [app split_on]; [by rewrite N.eqb_refl|].
  rewrite (proj2 (N.eqb_neq c sep)) by set_solver. by rewrite IH by set_solver.
Qed.
Lemma split_on_plain (sep : N) w : sep ∉ w -> split_on sep w = [w].
Proof.
  induction w as [|c w IH]; intros Hw; cbn [split_on]; [done|].
  rewrite (proj2 (N.eqb_neq c sep)) by set_solver. by rewrite IH by set_solver.
Qed.

Lemma component_of_name n : name_ok n -> component_of n = Some (Normal n).
Proof. unfold component_of, name_ok. intros (?&?&?&?). by rewrite !decide_False. Qed.
Lemma component_of_normal seg n : component_of seg = Some (Normal n) -> seg = n /\ n <> [] /\ n <> lit "." /\ n <> lit "..".
Proof. unfold component_of. repeat case_decide; naive_solver. Qed.

Lemma split_on_free (sep : N) s : Forall (fun w => sep ∉ w) (split_on sep s).
Proof.
  induction s as [|c s IH]; cbn [split_on]; [by repeat constructor; apply not_elem_of_nil|].
  destruct (N.eqb_spec c sep) as [->|Hc]; [by constructor; [apply not_elem_of_nil|]|].
  destruct (split_on sep s) as [|w ws]; [by repeat constructor; set_solver|].
  inversion IH; subst. constructor; [set_solver|done].
Qed.

(** The names of any path are names. *)
Lemma components_names p n : Normal n ∈ components p -> name_ok n.
Proof.
  unfold components. pose proof (split_on_free SEP p) as Hf. destruct (split_on SEP p) as [|seg segs]; [by intros ?%elem_of_nil|].
  intros [H|H]%elem_of_app.
  - destruct (starts_with [SEP] p); [by apply list_elem_of_singleton in H|].
    case_decide; [by apply list_elem_of_singleton in H|by apply elem_of_nil in H].
  - apply list_elem_of_omap in H as (w & Hw & Hn). apply component_of_normal in Hn as (-> & ? & ? & ?).
    split_and!; [done..|]. by apply (proj1 (Forall_forall _ _) Hf).
Qed.

Lemma name_not_rooted n s : name_ok n -> starts_with [SEP] (n ++ s) = false.
Proof.
  intros (Hn & _ & _ & Hs). destruct n as [|c n]; [done|]. unfold starts_with. cbn [app strip_prefix].
  destruct (N.eqb_spec SEP c) as [<-|]; [|done]. destruct Hs. left.
Qed.
Lemma name_relative n : name_ok n -> starts_with [SEP] n = false.
Proof. intros Hn. rewrite <- (app_nil_r n). by apply name_not_rooted. Qed.
Lemma name_end p n : name_ok n -> ends_with [SEP] (p ++ n) = false.
Proof.
  intros (Hn & _ & _ & Hs). unfold ends_with. destruct n as [|c n _] using rev_ind; [done|].
  rewrite app_assoc, reverse_snoc, reverse_singleton. unfold starts_with. cbn [strip_prefix].
  destruct (N.eqb_spec SEP c) as [<-|]; [|done]. destruct Hs. apply elem_of_app. right. left.
Qed.

(** ** A path of names *)

Fixpoint flat (ns : list (list N)) : path :=
  match ns with
  | [] => []
  | [n] => n
  | n :: ns => n ++ SEP :: flat ns
  end.

Lemma flat_snoc ns n : ns <> [] -> flat (ns ++ [n]) = flat ns ++ SEP :: n.
Proof.
  induction ns as [|m ns IH]; [done|]. intros _. destruct ns as [|m' ns]; [done|].
  change (flat ((m :: m' :: ns) ++ [n])) with (m ++ SEP :: flat ((m' :: ns) ++ [n])). rewrite IH by done.
  change (flat (m :: m' :: ns)) with (m ++ SEP :: flat (m' :: ns)). by rewrite <- app_assoc.
Qed.
Lemma flat_last ns : Forall name_ok ns -> ns <> [] -> exists p n, flat ns = p ++ n /\ name_ok n.
Proof.
  intros Hns Hn. destruct ns as [|n ns _] using rev_ind; [done|]. apply Forall_app in Hns as [_ [Hn' _]%Forall_cons].
  destruct ns as [|m ns]; [by exists [], n|]. rewrite flat_snoc by done. exists (flat (m :: ns) ++ [SEP]), n. by rewrite <- app_assoc.
Qed.
Lemma flat_nil ns : Forall name_ok ns -> flat ns = [] <-> ns = [].
Proof.
  intros Hns. split; [|by intros ->]. intros E. destruct (decide (ns = [])) as [|Hn]; [done|].
  destruct (flat_last ns Hns Hn) as (p & n & E' & (Hne & _)). rewrite E in E'. symmetry in E'. by apply app_eq_nil in E' as [_ ?].
Qed.

Lemma path_of_snoc ns n : path_of (ns ++ [n]) = push (path_of ns) n.
Proof. unfold path_of, join_components. by rewrite map_app, foldl_app. Qed.
Lemma path_of_flat ns : Forall name_ok ns -> path_of ns = flat ns.
Proof.
  induction ns as [|n ns IH] using rev_ind; [done|]. intros [Hns [Hn _]%Forall_cons]%Forall_app.
  rewrite path_of_snoc, IH by done. unfold push. rewrite name_relative by done.
  destruct (decide (ns = [])) as [->|Hne]; [done|]. rewrite decide_False by (by rewrite flat_nil).
  rewrite flat_snoc by done. destruct (flat_last ns Hns Hne) as (p & m & -> & Hm). by rewrite name_end.
Qed.

Lemma split_flat ns : Forall name_ok ns -> ns <> [] -> split_on SEP (flat ns) = ns.
Proof.
  induction 1 as [|n ns (_ & _ & _ & Hn) Hns IH]; [done|]. intros _. destruct ns as [|m ns]; [by apply split_on_plain|].
  change (flat (n :: m :: ns)) with (n ++ SEP :: flat (m :: ns)). by rewrite split_on_app, IH.
Qed.

Lemma components_path_of ns : Forall name_ok ns -> components (path_of ns) = map Normal ns.
Proof.
  intros Hns. rewrite path_of_flat by done. destruct (decide (ns = [])) as [->|Hne]; [done|].
  unfold components. rewrite split_flat by done. destruct ns as [|n ns]; [done|].
  assert (starts_with [SEP] (flat (n :: ns)) = false) as ->.
  { inversion Hns; subst. destruct ns; [by apply name_relative|by apply name_not_rooted]. }
  rewrite decide_False by (inversion Hns as [|? ? (_ & ? & _)]; done). cbn [app]. clear Hne.
  induction Hns as [|a l Ha Hl IH]; [done|]. cbn [omap list_omap map]. by rewrite component_of_name, IH.
Qed.

(** ** Resolution *)

(** [PathBuf::pop], whose result is [false] where there is no parent. *)
Definition pop (p : path) : option path := parent p.

Lemma pop_nil : pop (path_of []) = None.
Proof. done. Qed.
Lemma pop_snoc ns n : Forall name_ok (ns ++ [n]) -> pop (path_of (ns ++ [n])) = Some (path_of ns).
Proof.
  intros Hns. unfold pop, parent. rewrite components_path_of, map_app by done. cbn [map].
  rewrite last_snoc, length_app, Nat.add_sub. unfold path_of. by rewrite take_app_length.
Qed.

(** The loop both normalisations run over components. *)
Definition resolve_step (normalized : path) (c : Component) : option path :=
  match c with
  | Normal value => Some (push normalized value)
  | CurDir => Some normalized
  | ParentDir => pop normalized
  | RootDir => None
  end.
Fixpoint resolve_loop (normalized : path) (cs : list Component) : option path :=
  match cs with
  | [] => Some normalized
  | c :: cs => normalized ← resolve_step normalized c; resolve_loop normalized cs
  end.

(** The lexical meaning: a list of names, [..] removing the last. *)
Fixpoint resolve (ns : list (list N)) (cs : list Component) : option (list (list N)) :=
  match cs with
  | [] => Some ns
  | Normal n :: cs => resolve (ns ++ [n]) cs
  | CurDir :: cs => resolve ns cs
  | ParentDir :: cs => if decide (ns = []) then None else resolve (take (length ns - 1) ns) cs
  | RootDir :: cs => None
  end.

Definition names_ok (cs : list Component) : Prop := forall n, Normal n ∈ cs -> name_ok n.
Lemma names_ok_components p : names_ok (components p).
Proof. intros n. apply components_names. Qed.
Lemma names_ok_cons c cs : names_ok (c :: cs) -> names_ok cs.
Proof. intros H n Hn. apply H. by right. Qed.

Lemma resolve_ok cs : forall ns ns', Forall name_ok ns -> names_ok cs -> resolve ns cs = Some ns' -> Forall name_ok ns'.
Proof.
  induction cs as [|c cs IH]; intros ns ns' Hns Hcs H; [by injection H as <-|].
  pose proof (names_ok_cons _ _ Hcs). destruct c as [| | |n]; cbn [resolve] in H; [done|by eapply IH| |].
  - case_decide; [done|]. eapply IH; [|done|exact H]. by apply Forall_take.
  - eapply IH; [|done|exact H]. apply Forall_app. split; [done|]. constructor; [apply Hcs; left|constructor].
Qed.

Lemma resolve_loop_spec cs : forall ns, Forall name_ok ns -> names_ok cs ->
  resolve_loop (path_of ns) cs = path_of <$> resolve ns cs.
Proof.
  induction cs as [|c cs IH]; intros ns Hns Hcs; [done|].
  pose proof (names_ok_cons _ _ Hcs). destruct c as [| | |n]; cbn [resolve_loop resolve_step resolve mbind option_bind];
    [done|by apply IH| |].
  - destruct ns as [|m ns _] using rev_ind; [done|]. rewrite pop_snoc by done. cbn [mbind option_bind].
    rewrite decide_False by (by destruct ns). rewrite length_app, Nat.add_sub, take_app_length.
    apply IH; [|done]. by apply Forall_app in Hns as [? _].
  - rewrite <- path_of_snoc. apply IH; [|done]. apply Forall_app. split; [done|]. constructor; [apply Hcs; left|constructor].
Qed.

Lemma resolve_app cs1 cs2 : forall ns, resolve ns (cs1 ++ cs2) = resolve ns cs1 ≫= fun ns => resolve ns cs2.
Proof. induction cs1 as [|[] cs1 IH]; intros ns; cbn [app resolve]; try case_decide; done || apply IH. Qed.

Lemma path_of_empty ns : Forall name_ok ns -> path_of ns = [] <-> ns = [].
Proof. intros Hns. rewrite path_of_flat by done. by apply flat_nil. Qed.
Lemma path_of_inj ns ms : Forall name_ok ns -> Forall name_ok ms -> path_of ns = path_of ms -> ns = ms.
Proof.
  intros Hn Hm E. apply (f_equal components) in E. rewrite !components_path_of in E by done.
  revert ms Hm E. induction Hn as [|n ns _ _ IH]; intros [|m ms] Hm E; [done..|]. cbn in E. injection E as -> E.
  f_equal. apply IH; [by inversion Hm|done].
Qed.

(** A path that stays beneath the directory it is relative to. *)
Definition beneath (p : path) : Prop := exists ns, ns <> [] /\ Forall name_ok ns /\ p = path_of ns.
