(* ===== verification/DocIncludes.v ===== *)
(** * Included documentation: [load_rust_doc_includes] of indexer.rs.

  [#[doc = include_str!(..)]] makes a Rust source depend on another file, whose text is
  indexed under the source.  Included paths are resolved lexically and their files read
  only beneath the workspace root; counts and sizes are capped.  [IncludeEnv] is what the
  file system answers: [canonicalize], [metadata] (is it a file, how long), and the
  confined read of workspace_file.rs. *)
From S2P Require Import Prelude Utf8 Paths PathNames Chunking.
Local Open Scope Z_scope.

Definition MAX_RUST_DOC_INCLUDES_PER_SOURCE : nat := 16.
Definition MAX_RUST_DOC_INCLUDE_BYTES : Z := 1024 * 1024.
Definition MAX_RUST_DOC_INCLUDE_TOTAL_BYTES : Z := 2 * (1024 * 1024).
Definition MAX_RUST_DOC_INCLUDE_CHUNKS_PER_SOURCE : nat := 128.

Record RustDocInclude := MkInclude { source_line : nat; include_path : path }.

(** ** Paths *)

(** [Path] equality compares components. *)
Definition path_eq (p q : path) : bool := bool_decide (components p = components q).

(** The directory of the owner may not climb. *)
Definition owner_step (normalized : path) (c : Component) : option path :=
  match c with
  | Normal component => Some (push normalized component)
  | CurDir => Some normalized
  | ParentDir | RootDir => None
  end.
Fixpoint owner_loop (normalized : path) (cs : list Component) : option path :=
  match cs with
  | [] => Some normalized
  | c :: cs => normalized ← owner_step normalized c; owner_loop normalized cs
  end.
Definition normalize_workspace_relative_include (owner_rel_path include : path) : option path :=
  if starts_with [SEP] include then None
  else
    normalized ← owner_loop [] (components (unwrap_or [] (parent owner_rel_path)));
    normalized ← resolve_loop normalized (components include);
    if bool_decide (normalized = []) then None else Some normalized.

(** ** Loading *)

Record IncludeEnv := MkIncludeEnv {
  canonicalize : path -> option path;
  metadata : path -> option (bool * Z);
  read : path -> option (list N)
}.

Section Load.
Context {Digest : Type} (xxh3_128 : list N -> Digest).
Context (env : IncludeEnv) (root owner_rel_path : path) (snapshot : option (list N -> bool)).

Record Loaded := MkLoaded {
  chunks : list (Chunk Digest);
  dependencies : list path;
  seen : list path;
  total_bytes : Z
}.

(** What is read of an included file that was listed: [None] where the code continues. *)
Definition read_include (canonical_root : option path) (total : Z) (included_rel_path : path) : option (list N) :=
  canonical_root ← canonical_root;
  canonical_target ← canonicalize env (push root included_rel_path);
  if negb (path_starts_with canonical_target canonical_root) then None
  else
    '(is_file, len) ← metadata env canonical_target;
    if negb is_file || (MAX_RUST_DOC_INCLUDE_BYTES <? len)
       || (MAX_RUST_DOC_INCLUDE_TOTAL_BYTES <? saturating_add total len) then None
    else
      bytes ← read env canonical_target;
      if is_indexable_file included_rel_path bytes then Some bytes else None.

(** [None] is a panic of the chunker. *)
Definition load_include (canonical_root : option path) (s : Loaded) (include : RustDocInclude) : option Loaded :=
  match normalize_workspace_relative_include owner_rel_path (include_path include) with
  | None => Some s
  | Some included =>
    if path_eq included owner_rel_path || existsb (path_eq included) (seen s) then Some s
    else
      let s := MkLoaded (chunks s) (dependencies s ++ [included]) (included :: seen s) (total_bytes s) in
      let included_key := index_path_string included in
      if negb (match snapshot with Some files => files included_key | None => false end) then Some s
      else if (MAX_RUST_DOC_INCLUDE_CHUNKS_PER_SOURCE <=? length (chunks s))%nat then Some s
      else
        match read_include canonical_root (total_bytes s) included with
        | None => Some s
        | Some raw =>
          let remaining := (MAX_RUST_DOC_INCLUDE_CHUNKS_PER_SOURCE - length (chunks s))%nat in
          more ← chunk_rust_doc_include xxh3_128 (lossy_chars owner_rel_path) (source_line include)
                   (lossy_chars included) (lossy_chars raw);
          Some (MkLoaded (chunks s ++ take remaining more) (dependencies s) (seen s)
                  (total_bytes s + Z.of_nat (length raw)))
        end
  end.
Fixpoint load_loop (canonical_root : option path) (s : Loaded) (includes : list RustDocInclude) : option Loaded :=
  match includes with
  | [] => Some s
  | i :: includes => s ← load_include canonical_root s i; load_loop canonical_root s includes
  end.
Definition load_rust_doc_includes (includes : list RustDocInclude) : option (list (Chunk Digest) * list path) :=
  s ← load_loop (canonicalize env root) (MkLoaded [] [] [] 0) (take MAX_RUST_DOC_INCLUDES_PER_SOURCE includes);
  Some (chunks s, dependencies s).
End Load.
Arguments Loaded : clear implicits.

(** ** The path *)

(** The reference: the names of the owner's directory, then the include, lexically. *)
Definition include_target (owner_rel_path include : path) : option (list (list N)) :=
  resolve [] (components (unwrap_or [] (parent owner_rel_path)) ++ components include).

Lemma owner_loop_resolve cs : forall ns p, Forall name_ok ns -> names_ok cs ->
  owner_loop (path_of ns) cs = Some p -> exists ns', resolve ns cs = Some ns' /\ p = path_of ns' /\ Forall name_ok ns'.
Proof.
  induction cs as [|c cs IH]; intros ns p Hns Hcs H; [injection H as <-; by exists ns|].
  pose proof (names_ok_cons _ _ Hcs). destruct c as [| | |n]; cbn [owner_loop owner_step mbind option_bind] in H;
    [done|by apply (IH ns)|done|].
  rewrite <- path_of_snoc in H. apply (IH (ns ++ [n])); [|done..]. apply Forall_app. split; [done|].
  constructor; [apply Hcs; left|constructor].
Qed.

Lemma normalized_include owner include p : normalize_workspace_relative_include owner include = Some p ->
  exists ns, include_target owner include = Some ns /\ p = path_of ns /\ ns <> [] /\ Forall name_ok ns.
Proof.
  unfold normalize_workspace_relative_include, include_target. destruct (starts_with [SEP] include); [done|].
  intros (q & Hq & H)%bind_Some.
  change (owner_loop (path_of []) (components (unwrap_or [] (parent owner))) = Some q) in Hq.
  apply owner_loop_resolve in Hq as (ns & Hns & -> & Hok); [|constructor|apply names_ok_components].
  apply bind_Some in H as (r & Hr & H). rewrite resolve_loop_spec in Hr by (done || apply names_ok_components).
  rewrite resolve_app, Hns. cbn [mbind option_bind]. destruct (resolve ns (components include)) as [ms|] eqn:Em; [|done].
  injection Hr as <-. assert (Forall name_ok ms) as Hms by (eapply resolve_ok; [exact Hok|apply names_ok_components|exact Em]).
  case_bool_decide as Hne; [done|]. injection H as <-. exists ms. split_and!; [done..| |done].
  intros ->. by apply Hne.
Qed.
Lemma normalized_include_beneath owner include p : normalize_workspace_relative_include owner include = Some p -> beneath p.
Proof. intros (ns & _ & -> & Hne & Hok)%normalized_include. by exists ns. Qed.
Lemma path_eq_beneath p q : beneath p -> beneath q -> path_eq p q = true -> p = q.
Proof.
  intros (ns & _ & Hn & ->) (ms & _ & Hm & ->) H%bool_decide_eq_true. rewrite !components_path_of in H by done.
  f_equal. apply path_of_inj; [done..|]. unfold path_of. by rewrite H.
Qed.

(** ** The load *)

Section LoadFacts.
Context {Digest : Type} (xxh3_128 : list N -> Digest).

Lemma include_loop_total owner line included lines fuel : forall emitted start,
  (emitted <= 64 < fuel + emitted)%nat -> exists cs, include_loop xxh3_128 fuel owner line included lines emitted start = Some cs.
Proof.
  induction fuel as [|fuel IH]; intros emitted start Hf; [lia|]. cbn [include_loop].
  destruct (Nat.ltb_spec start (length lines)); [|by eexists]. cbn [andb].
  destruct (Nat.ltb_spec emitted 64); [|by eexists]. unfold line_slice.
  rewrite (proj2 (Nat.leb_le start _)) by lia. rewrite (proj2 (Nat.leb_le (Nat.min _ _) _)) by lia. cbn [andb mbind option_bind].
  destruct (_ =? _)%nat; [by eexists|].
  destruct (IH (S emitted) (Nat.min (start + 80) (length lines) - 20)%nat) as [cs ->]; [lia|by eexists].
Qed.
Lemma chunk_rust_doc_include_total owner line included content :
  exists cs, chunk_rust_doc_include xxh3_128 owner line included content = Some cs.
Proof.
  unfold chunk_rust_doc_include. case_bool_decide; [by eexists|]. apply include_loop_total. lia.
Qed.

Context (env : IncludeEnv) (root owner : path) (snapshot : option (list N -> bool)).

(** Bounds and shape of what has been loaded after some includes. *)
Record load_ok (n : nat) (s : Loaded Digest) : Prop := {
  ok_chunks : (length (chunks s) <= MAX_RUST_DOC_INCLUDE_CHUNKS_PER_SOURCE)%nat;
  ok_count : (length (dependencies s) <= n)%nat;
  ok_beneath : Forall (fun p => beneath p /\ path_eq p owner = false) (dependencies s);
  ok_nodup : NoDup (dependencies s);
  ok_seen : seen s = reverse (dependencies s);
  ok_total : 0 <= total_bytes s
}.

Lemma load_include_ok canonical_root n s i : load_ok n s ->
  exists s', load_include xxh3_128 env root owner snapshot canonical_root s i = Some s' /\ load_ok (S n) s'.
Proof.
  intros [Hc Hn Hb Hd Hs Ht]. unfold load_include.
  assert (load_ok (S n) s) as Hsame by (constructor; (done || lia)).
  destruct (normalize_workspace_relative_include owner (include_path i)) as [p|] eqn:Ep; [|by exists s].
  destruct (path_eq p owner) eqn:Eo; [by exists s|]. destruct (existsb (path_eq p) (seen s)) eqn:Es; [by exists s|].
  pose proof (normalized_include_beneath _ _ _ Ep) as Hp.
  assert (p ∉ dependencies s) as Hnew.
  { intros Hin. apply not_true_iff_false in Es. apply Es, existsb_exists. exists p. split.
    - apply list_elem_of_In. rewrite Hs. by apply elem_of_reverse.
    - by apply bool_decide_eq_true. }
  cbn [orb]. cbv zeta. set (s1 := MkLoaded (chunks s) (dependencies s ++ [p]) (p :: seen s) (total_bytes s)).
  assert (load_ok (S n) s1) as Hs1.
  { constructor; cbn [s1 chunks dependencies seen total_bytes]; [done|rewrite length_app; cbn; lia| | | |done].
    - apply Forall_app. by split; [|constructor].
    - apply NoDup_app. split_and!; [done| |apply NoDup_singleton]. by intros x Hx ->%list_elem_of_singleton.
    - by rewrite reverse_snoc, Hs. }
  destruct (negb _); [by exists s1|]. destruct (_ <=? _)%nat eqn:Ecap; [by exists s1|]. apply Nat.leb_gt in Ecap.
  destruct (read_include env root canonical_root (total_bytes s1) p) as [raw|]; [|by exists s1].
  destruct (chunk_rust_doc_include_total (lossy_chars owner) (source_line i) (lossy_chars p) (lossy_chars raw)) as [more ->].
  eexists. split; [reflexivity|]. destruct Hs1. constructor; cbn [chunks dependencies seen total_bytes]; try done; [|lia].
  rewrite length_app, length_take. lia.
Qed.

Lemma load_loop_ok canonical_root includes : forall n s, load_ok n s ->
  exists s', load_loop xxh3_128 env root owner snapshot canonical_root s includes = Some s' /\ load_ok (n + length includes) s'.
Proof.
  induction includes as [|i includes IH]; intros n s Hs; cbn [load_loop length]; [exists s; by rewrite Nat.add_0_r|].
  destruct (load_include_ok canonical_root n s i Hs) as (s1 & -> & H1). cbn [mbind option_bind].
  rewrite <- plus_n_Sm. by apply (IH (S n)).
Qed.
End LoadFacts.

(** ** Confinement *)

(** Two worlds that differ in nothing but the content of files outside the workspace, or
    of ones that are no regular files or too large. *)
Definition same_inside (root : path) (e1 e2 : IncludeEnv) : Prop :=
  (forall p, canonicalize e1 p = canonicalize e2 p) /\ (forall p, metadata e1 p = metadata e2 p)
  /\ forall r t len, canonicalize e1 root = Some r -> path_starts_with t r = true ->
       metadata e1 t = Some (true, len) -> len <= MAX_RUST_DOC_INCLUDE_BYTES -> read e1 t = read e2 t.

Lemma read_include_same root e1 e2 total p : same_inside root e1 e2 ->
  read_include e1 root (canonicalize e1 root) total p = read_include e2 root (canonicalize e2 root) total p.
Proof.
  intros (Hc & Hm & Hr). unfold read_include. rewrite <- !Hc. destruct (canonicalize e1 root) as [r|] eqn:Er; [|done].
  cbn [mbind option_bind]. destruct (canonicalize e1 (push root p)) as [t|]; [|done]. cbn [mbind option_bind].
  destruct (path_starts_with t r) eqn:Et; [|done]. cbn [negb]. rewrite <- Hm.
  destruct (metadata e1 t) as [[is_file len]|] eqn:Em; [|done]. cbn [mbind option_bind].
  destruct is_file; [|done]. cbn [negb orb]. destruct (Z.ltb_spec MAX_RUST_DOC_INCLUDE_BYTES len); [done|]. cbn [orb].
  destruct (_ <? _); [done|]. by rewrite (Hr r t len eq_refl Et Em).
Qed.
Lemma load_same {Digest} (xxh3_128 : list N -> Digest) root owner snapshot e1 e2 includes : same_inside root e1 e2 ->
  load_rust_doc_includes xxh3_128 e1 root owner snapshot includes =
  load_rust_doc_includes xxh3_128 e2 root owner snapshot includes.
Proof.
  intros Hsame. unfold load_rust_doc_includes.
  assert (forall l s, load_loop xxh3_128 e1 root owner snapshot (canonicalize e1 root) s l =
    load_loop xxh3_128 e2 root owner snapshot (canonicalize e2 root) s l) as E; [|by rewrite E].
  induction l as [|i l IH]; intros s; [done|]. cbn [load_loop]. unfold load_include.
  destruct (normalize_workspace_relative_include owner (include_path i)) as [p|]; [|apply IH].
  destruct (_ || _); [apply IH|]. destruct (negb _); [apply IH|]. destruct (_ <=? _)%nat; [apply IH|].
  rewrite <- (read_include_same root e1 e2) by done.
  destruct (read_include _ _ _ _ _) as [raw|]; [|apply IH].
  destruct (chunk_rust_doc_include _ _ _ _ _); [|done]. apply IH.
Qed.

(** C20. Loading the documentation a source includes always ends: at most 16 dependencies
    are recorded, each once, none of them the source, and every one a path beneath the
    workspace; at most 128 chunks are made; and no content outside the workspace, of a
    file over the limit or of something that is no file, has any effect on the result. *)
Theorem doc_includes_bounded_and_confined {Digest} (xxh3_128 : list N -> Digest) env root owner snapshot includes :
  (exists cs deps, load_rust_doc_includes xxh3_128 env root owner snapshot includes = Some (cs, deps)
    /\ (length cs <= 128)%nat /\ (length deps <= 16)%nat /\ NoDup deps
    /\ Forall (fun p => beneath p /\ path_eq p owner = false) deps)
  /\ forall env', same_inside root env env' ->
       load_rust_doc_includes xxh3_128 env' root owner snapshot includes =
       load_rust_doc_includes xxh3_128 env root owner snapshot includes.
Proof.
  split; [|intros env' Hs; symmetry; by apply load_same]. unfold load_rust_doc_includes.
  destruct (load_loop_ok xxh3_128 env root owner snapshot (canonicalize env root)
    (take MAX_RUST_DOC_INCLUDES_PER_SOURCE includes) 0 (MkLoaded [] [] [] 0)) as (s & -> & [Hc Hn Hb Hd _ _]).
  { constructor; cbn; try done; (lia || constructor). }
  exists (chunks s), (dependencies s). rewrite length_take in Hn. unfold MAX_RUST_DOC_INCLUDES_PER_SOURCE in Hn.
  split_and!; [done..|lia|done|done].
Qed.

(** A workspace [/w]; [outside] is the content of every file that is not beneath it. *)
Definition example_env (outside : list N) : IncludeEnv :=
  MkIncludeEnv (fun p => Some (if bool_decide (p = lit "/w/link.md") then lit "/secret" else p)) (fun _ => Some (true, 7))
    (fun p => Some (if path_starts_with p (lit "/w") then lit "# Title" else outside)).
Definition example_load (outside : list N) : option (list (Chunk Z) * list path) :=
  load_rust_doc_includes (fun _ => 0) (example_env outside) (lit "/w") (lit "src/lib.rs") (Some (fun _ => true))
    [MkInclude 3 (lit "../README.md"); MkInclude 4 (lit "../../etc/passwd"); MkInclude 5 (lit "../link.md")].
Example load_example :
  (fun r => (map (fun c => (Chunking.start_line c, Chunking.text c)) r.1, r.2)) <$> example_load []
  = Some ([(3%nat, lit "// src/lib.rs" ++ [10%N] ++ lit "// Rust documentation included from README.md" ++ [10%N; 10%N]
              ++ lit "# Title")], [lit "README.md"; lit "link.md"]).
Proof. vm_compute. reflexivity. Qed.
Lemma doc_includes_bounded_and_confined_witness : example_load (lit "key") = example_load [].
Proof.
  apply (doc_includes_bounded_and_confined (fun _ => 0) (example_env []) (lit "/w") (lit "src/lib.rs")).
  split_and!; [done|done|]. intros r t len Hr Ht _ _. apply (f_equal (unwrap_or [])) in Hr.
  change (lit "/w" = r) in Hr. subst r. cbn [read example_env]. by rewrite Ht.
Defined.
