(* ===== verification/GitChanges.v ===== *)
(** * What Git reports as changed: context_input.rs.

  [collect_git_changes] runs git, reads the NUL-separated records of [diff --name-status]
  and [status --porcelain=v1] and merges them into one map of changes by path.  Each run
  of git is a function from its arguments to what the process did. *)
From S2P Require Import Prelude Utf8 BTree Paths PathNames ContextChanges Decoding.

(** ** The map of changes *)

Definition source_rank (s : ContextChangeSource) : nat :=
  match s with Since => 0 | Staged => 1 | Worktree => 2 | Untracked => 3 end.

(** A [BTreeMap<PathBuf, _>] orders paths by their components. *)
#[export] Instance path_key_order : OrdKey (list (list N)) := list_OrdKey bytes_OrdKey.
Abbreviation Changes := (list (list (list N) * ContextChange)).

Definition sort_sources (l : list ContextChangeSource) : list ContextChangeSource :=
  sort_by (fun a b => source_rank a <=? source_rank b) l.

Definition merge_change (changes : Changes) (p : path) (old : option path) (st : ContextChangeStatus)
    (source : ContextChangeSource) : Changes :=
  let change := default (MkChange p None st []) (bt_get (path_ord p) changes) in
  let old := match old_path change with None => old | o => o end in
  let st :=
    if negb (bool_decide (status change = Added) || bool_decide (status change = Renamed))
       || negb (bool_decide (st = Modified))
    then st else status change in
  let srcs :=
    if bool_decide (source ∈ change_sources change) then change_sources change
    else sort_sources (change_sources change ++ [source]) in
  bt_insert (path_ord p) (MkChange (change_path change) old st srcs) changes.

(** ** Paths of the repository *)

Definition normalize_relative (p : path) : option path :=
  normalized ← resolve_loop [] (components p);
  if bool_decide (normalized = []) then None else Some (index_path_string normalized).

Definition workspace_relative_path (raw : list N) (workspace_prefix : path) : option path :=
  raw ← to_str raw;
  repo_path ← normalize_relative raw;
  relative ← path_strip_prefix repo_path workspace_prefix;
  normalize_relative relative.

(** ** Records *)

Definition nul_fields (bytes : list N) : list (list N) := filter (fun f => f <> []) (split_on 0 bytes).

Definition status_of_code (code : N) : ContextChangeStatus :=
  if (code =? chr "A")%N then Added
  else if (code =? chr "M")%N then Modified
  else if (code =? chr "D")%N then Deleted
  else if (code =? chr "R")%N then Renamed
  else if (code =? chr "C")%N then Copied
  else if (code =? chr "T")%N then TypeChanged
  else if (code =? chr "U")%N then Unmerged
  else Unknown.
Definition renames (code : N) : bool := (code =? chr "R")%N || (code =? chr "C")%N.

Section Parse.
Context (workspace_prefix : path).

Definition merge_record (changes : Changes) (raw : list N) (old : option path)
    (updates : list (ContextChangeStatus * ContextChangeSource)) : Changes :=
  match workspace_relative_path raw workspace_prefix with
  | None => changes
  | Some p => foldl (fun changes u => merge_change changes p old u.1 u.2) changes updates
  end.

(** The loop over the fields of [diff --name-status -z]. *)
Fixpoint name_status_loop (source : ContextChangeSource) (changes : Changes) (fields : list (list N)) : Changes :=
  match fields with
  | [] => changes
  | field :: fields =>
    let code := default (chr "?") (head (to_string_lossy field)) in
    if renames code then
      match fields with
      | old :: p :: fields =>
        name_status_loop source
          (merge_record changes p (workspace_relative_path old workspace_prefix) [(status_of_code code, source)]) fields
      | _ => changes
      end
    else
      match fields with
      | p :: fields => name_status_loop source (merge_record changes p None [(status_of_code code, source)]) fields
      | [] => changes
      end
  end.
Definition merge_name_status (changes : Changes) (bytes : list N) (source : ContextChangeSource) : Changes :=
  name_status_loop source changes (nul_fields bytes).

Definition unmerged_pair (x y : N) : bool :=
  existsb (fun pair : string * string => (x =? chr pair.1)%N && (y =? chr pair.2)%N)
    [("D", "D"); ("A", "U"); ("U", "D"); ("U", "A"); ("D", "U"); ("A", "A"); ("U", "U")].
Definition blank_code (code : N) : bool := (code =? chr " ")%N || (code =? chr "?")%N || (code =? chr "!")%N.

(** What the two letters of a porcelain entry say. *)
Definition porcelain_updates (index_status worktree_status : N) : list (ContextChangeStatus * ContextChangeSource) :=
  if (index_status =? chr "?")%N && (worktree_status =? chr "?")%N then [(Added, Untracked)]
  else if unmerged_pair index_status worktree_status then [(Unmerged, Staged); (Unmerged, Worktree)]
  else
    omap (fun x : N * ContextChangeSource => if blank_code x.1 then None else Some (status_of_code x.1, x.2))
      [(index_status, Staged); (worktree_status, Worktree)].

(** An entry is [XY path]; a rename takes its old path from the next field ([??] is none). *)
Definition porcelain_entry (entry : list N) : option (N * N * list N) :=
  match entry with
  | x :: y :: sep :: b :: raw => if (sep =? chr " ")%N then Some (x, y, b :: raw) else None
  | _ => None
  end.
Fixpoint porcelain_loop (changes : Changes) (fields : list (list N)) : Changes :=
  match fields with
  | [] => changes
  | entry :: fields =>
    match porcelain_entry entry with
    | None => porcelain_loop changes fields
    | Some (x, y, raw) =>
      let renamed := renames x || renames y in
      match fields with
      | old :: rest =>
        if renamed then
          porcelain_loop (merge_record changes raw (workspace_relative_path old workspace_prefix) (porcelain_updates x y)) rest
        else porcelain_loop (merge_record changes raw None (porcelain_updates x y)) fields
      | [] => merge_record changes raw None (porcelain_updates x y)
      end
    end
  end.
Definition merge_porcelain_status (changes : Changes) (bytes : list N) : Changes :=
  porcelain_loop changes (nul_fields bytes).
End Parse.

(** ** Running git *)

(** A process that could not be started, or its exit, its output and its errors. *)
Inductive GitProcess := NotStarted (not_found : bool) | Exited (success : bool) (stdout stderr : list N).
Inductive GitError := CannotRun | GitFailed (stderr : str) | SinceRequiresGit | InvalidReference (r : str)
  | UnresolvedReference | NoMergeBase.

Definition MAX_SERIALIZED_CHANGES : nat := 512.

Section Git.
(** The process run in the workspace root with these arguments. *)
Context (git : list (list N) -> GitProcess).
Context (is_alphanumeric : char -> bool) (canonicalize : path -> option path).

Definition validate_git_reference (reference : str) : Result GitError unit :=
  if bool_decide (reference = []) || starts_with (lit "-") reference || starts_with (lit "^") reference
     || contains (lit "..") reference
     || negb (forallb (fun c => is_alphanumeric c || bool_decide (c ∈ lit "/._-~^@{}")) reference)
  then Err (InvalidReference reference) else Ok tt.

Definition git_output (args : list (list N)) (required : bool) : Result GitError (option str) :=
  match git args with
  | NotStarted not_found => if negb required && not_found then Ok None else Err CannotRun
  | Exited true stdout _ => Ok (Some (lossy_chars stdout))
  | Exited false _ stderr => if required then Err (GitFailed (trim (lossy_chars stderr))) else Ok None
  end.
Definition git_bytes_scoped (args : list (list N)) (workspace_prefix : path) : Result GitError (list N) :=
  match git (args ++ [lit "--"] ++ (if bool_decide (workspace_prefix = []) then [] else [workspace_prefix])) with
  | NotStarted _ => Err CannotRun
  | Exited true stdout _ => Ok stdout
  | Exited false _ stderr => Err (GitFailed (trim (lossy_chars stderr)))
  end.

Definition is_dirty (c : ContextChange) : bool :=
  existsb (fun s => match s with Staged | Worktree | Untracked => true | Since => false end) (change_sources c).

(** The changes since a reference: its merge base with [HEAD] and the records. *)
Definition changes_since (reference : str) (workspace_prefix : path) : Result GitError (str * Changes) :=
  _ ← validate_git_reference reference;
  verified ← git_output [lit "rev-parse"; lit "--verify"; bytes (reference ++ lit "^{commit}")] true;
  verified ← of_option UnresolvedReference verified;
  merge_base ← git_output [lit "merge-base"; bytes (trim verified); lit "HEAD"] true;
  merge_base ← of_option NoMergeBase merge_base;
  out ← git_bytes_scoped [lit "diff"; lit "--name-status"; lit "-z"; lit "--find-renames"; bytes (trim merge_base); lit "HEAD"]
          workspace_prefix;
  Ok (trim merge_base, merge_name_status workspace_prefix [] out Since).

Definition collect_git_changes (root : path) (since : option str)
  : Result GitError (option (ContextChangeScope * list ContextChange)) :=
  toplevel ← git_output [lit "rev-parse"; lit "--show-toplevel"] false;
  match toplevel with
  | None => match since with Some _ => Err SinceRequiresGit | None => Ok None end
  | Some repo_root =>
    let repo_root := bytes (trim repo_root) in
    let workspace_root := default root (canonicalize root) in
    let repo_root := default repo_root (canonicalize repo_root) in
    let workspace_prefix := default [] (path_strip_prefix workspace_root repo_root) in
    start ← match since with
            | Some reference =>
              '(base, changes) ← changes_since reference workspace_prefix; Ok (Some base, changes)
            | None => Ok (None, [])
            end;
    worktree_status ← git_bytes_scoped [lit "status"; lit "--porcelain=v1"; lit "-z"; lit "--untracked-files=all"]
                        workspace_prefix;
    let changes := map snd (merge_porcelain_status workspace_prefix start.2 worktree_status) in
    let total := length changes in
    let serialized := take MAX_SERIALIZED_CHANGES changes in
    Ok (Some (MkScope since start.1 (existsb is_dirty changes) total (length serialized <? total) serialized, changes))
  end.
End Git.

(** * Git's records are read as they were written, and merged into one change a path. *)

(** ** Paths *)

Definition name_text (n : list N) : Prop := name_ok n /\ valid_utf8 n = true /\ 0%N ∉ n.
#[global] Instance name_text_dec n : Decision (name_text n).
Proof. unfold name_text. apply _. Defined.
Lemma text_names ns : Forall name_text ns -> Forall name_ok ns.
Proof. intros H. eapply Forall_impl; [exact H|]. by intros n []. Qed.

Lemma valid_flat ns : Forall (fun n => valid_utf8 n = true) ns <-> valid_utf8 (flat ns) = true.
Proof.
  induction ns as [|n ns IH]; [done|]. rewrite Forall_cons, IH. destruct ns as [|m ns]; [cbn [flat]; intuition|].
  change (flat (n :: m :: ns)) with (n ++ SEP :: flat (m :: ns)). by rewrite valid_utf8_split.
Qed.
Lemma index_path_valid p : valid_utf8 p = true -> index_path_string p = p.
Proof. intros H. apply (index_path_string_utf8 p p). unfold to_str. by rewrite H. Qed.

(** The names of a valid path are valid, and so is what they resolve to. *)
Lemma flat_split s : flat (split_on SEP s) = s.
Proof.
  induction s as [|c s IH]; [done|]. cbn [split_on].
  assert (exists w ws, split_on SEP s = w :: ws) as (w & ws & E).
  { destruct s as [|d s]; [by exists [], []|]. cbn [split_on]. destruct (d =? SEP)%N; [by eexists _, _|].
    destruct (split_on SEP s); by eexists _, _. }
  rewrite E in *. destruct (N.eqb_spec c SEP) as [->|].
  - change (flat ([] :: w :: ws)) with (SEP :: flat (w :: ws)). by rewrite IH.
  - destruct ws as [|v ws]; cbn [flat app] in *; [by subst|by rewrite <- IH].
Qed.
Lemma components_valid p n : valid_utf8 p = true -> Normal n ∈ components p -> valid_utf8 n = true.
Proof.
  intros Hv Hn. rewrite <- (flat_split p) in Hv. apply valid_flat in Hv. unfold components in Hn.
  destruct (split_on SEP p) as [|seg segs]; [by apply elem_of_nil in Hn|]. apply elem_of_app in Hn as [Hn|Hn].
  - destruct (starts_with [SEP] p); [by apply list_elem_of_singleton in Hn|].
    case_decide; [by apply list_elem_of_singleton in Hn|by apply elem_of_nil in Hn].
  - apply list_elem_of_omap in Hn as (w & Hw & Hn). apply component_of_normal in Hn as (-> & _).
    by apply (proj1 (Forall_forall _ _) Hv).
Qed.
Lemma resolve_names (P : list N -> Prop) cs : forall ns ns', Forall P ns -> (forall n, Normal n ∈ cs -> P n) ->
  resolve ns cs = Some ns' -> Forall P ns'.
Proof.
  induction cs as [|c cs IH]; intros ns ns' Hns Hcs H; [by injection H as <-|].
  assert (forall n, Normal n ∈ cs -> P n) by (intros n Hn; apply Hcs; by right).
  destruct c as [| | |n]; cbn [resolve] in H; [done|by eapply IH| |].
  - case_decide; [done|]. eapply IH; [|done|exact H]. by apply Forall_take.
  - eapply IH; [|done|exact H]. apply Forall_app. split; [done|]. constructor; [apply Hcs; left|constructor].
Qed.

(** [normalize_relative] is the lexical resolution of a path that is not absolute. *)
Lemma normalize_relative_eq p : valid_utf8 p = true ->
  normalize_relative p = ns ← resolve [] (components p); if bool_decide (ns = []) then None else Some (path_of ns).
Proof.
  intros Hv. unfold normalize_relative. change (resolve_loop []) with (resolve_loop (path_of [])).
  rewrite resolve_loop_spec by (apply Forall_nil_2 || apply names_ok_components).
  destruct (resolve [] (components p)) as [ns|] eqn:E; [|done]. cbn [fmap option_fmap option_map mbind option_bind].
  assert (Forall name_ok ns) as Hok by (eapply resolve_ok; [constructor|apply names_ok_components|exact E]).
  rewrite (bool_decide_ext _ _ (path_of_empty ns Hok)). case_bool_decide; [done|]. f_equal. apply index_path_valid.
  rewrite path_of_flat by done. apply valid_flat. eapply (resolve_names _ _ [] ns); [constructor| |exact E].
  intros n. by apply components_valid.
Qed.

Lemma resolve_normals ms : forall ns, resolve ns (map Normal ms) = Some (ns ++ ms).
Proof.
  induction ms as [|m ms IH]; intros ns; cbn [map resolve]; [by rewrite app_nil_r|]. rewrite IH. by rewrite <- app_assoc.
Qed.
Lemma normalize_names ns : Forall name_ok ns -> valid_utf8 (path_of ns) = true ->
  normalize_relative (path_of ns) = if bool_decide (ns = []) then None else Some (path_of ns).
Proof.
  intros Hok Hv. rewrite normalize_relative_eq by done. rewrite components_path_of by done. by rewrite resolve_normals.
Qed.

(** The names of a path below a prefix. *)
Fixpoint strip_names (prefix ns : list (list N)) : option (list (list N)) :=
  match prefix, ns with
  | [], _ => Some ns
  | a :: prefix, b :: ns => if decide (a = b) then strip_names prefix ns else None
  | _ :: _, [] => None
  end.
Definition inside (prefix ns : list (list N)) : option path :=
  ms ← strip_names prefix ns; if bool_decide (ms = []) then None else Some (path_of ms).

Lemma strip_components_names prefix ns :
  strip_components (map Normal prefix) (map Normal ns) = map Normal <$> strip_names prefix ns.
Proof.
  revert ns. induction prefix as [|a prefix IH]; intros [|b ns]; try done. cbn [map strip_components strip_names].
  destruct (decide (a = b)) as [->|]; [rewrite decide_True by done; apply IH|rewrite decide_False by congruence; done].
Qed.
Lemma strip_names_app prefix ns ms : strip_names prefix ns = Some ms -> ns = prefix ++ ms.
Proof.
  revert ns. induction prefix as [|a prefix IH]; intros [|b ns] H; cbn [strip_names app] in *; try by simplify_eq.
  case_decide as E; [|done]. subst b. by rewrite (IH ns).
Qed.

Lemma workspace_relative_names prefix ns : Forall name_ok prefix -> Forall name_text ns ->
  workspace_relative_path (path_of ns) (path_of prefix) = inside prefix ns.
Proof.
  intros Hp Hns. pose proof (text_names ns Hns) as Hok.
  assert (forall l, Forall name_text l -> valid_utf8 (path_of l) = true) as Hv.
  { intros l Hl. rewrite path_of_flat by by apply text_names. apply valid_flat. eapply Forall_impl; [exact Hl|]. by intros n (_ & ? & _). }
  unfold workspace_relative_path, to_str. rewrite Hv by done. cbn [mbind option_bind].
  rewrite normalize_names by (done || by apply Hv). unfold inside.
  case_bool_decide as E.
  { subst ns. cbn [mbind option_bind]. destruct prefix; done. }
  cbn [mbind option_bind]. unfold path_strip_prefix. rewrite !components_path_of by done. rewrite strip_components_names.
  destruct (strip_names prefix ns) as [ms|] eqn:Es; [|done]. cbn [fmap option_fmap option_map mbind option_bind].
  apply strip_names_app in Es as ->. apply Forall_app in Hns as [_ Hms]. apply normalize_names; [by apply text_names|by apply Hv].
Qed.

(** Whatever git wrote, a path that is kept stays beneath the workspace. *)
Lemma normalize_beneath p q : valid_utf8 p = true -> normalize_relative p = Some q -> beneath q /\ valid_utf8 q = true.
Proof.
  intros Hv. rewrite normalize_relative_eq by done. intros (ns & E & H)%bind_Some. case_bool_decide as Hne; [done|].
  injection H as <-. assert (Forall name_ok ns) as Hok by (eapply resolve_ok; [constructor|apply names_ok_components|exact E]).
  split; [by exists ns|]. rewrite path_of_flat by done. apply valid_flat.
  eapply (resolve_names _ _ [] ns); [constructor| |exact E]. intros n. by apply components_valid.
Qed.
Lemma strip_components_sub p q r : strip_components p q = Some r -> exists pre, q = pre ++ r.
Proof.
  revert q. induction p as [|a p IH]; intros q H; cbn [strip_components] in H; [injection H as ->; by exists []|].
  destruct q as [|b q]; [done|]. case_decide; [|done]. destruct (IH q H) as [pre ->]. by exists (b :: pre).
Qed.
Lemma workspace_relative_beneath raw prefix p : workspace_relative_path raw prefix = Some p -> beneath p.
Proof.
  unfold workspace_relative_path, to_str. destruct (valid_utf8 raw) eqn:Hv; [|done]. cbn [mbind option_bind].
  intros (q & Hq & H)%bind_Some. apply bind_Some in H as (r & Hr & H).
  destruct (normalize_beneath _ _ Hv Hq) as [(ns & Hne & Hok & ->) Hvq]. unfold path_strip_prefix in Hr.
  rewrite components_path_of in Hr by done. destruct (strip_components _ _) as [cs|] eqn:Es; [|done]. injection Hr as <-.
  apply strip_components_sub in Es as [pre Es]. apply map_eq_app in Es as (l1 & l2 & -> & _ & <-).
  apply Forall_app in Hok as [Hok1 Hok2]. change (join_components (map Normal l2)) with (path_of l2) in H.
  rewrite path_of_flat, <- valid_flat in Hvq by (by apply Forall_app). apply Forall_app in Hvq as [_ Hv2].
  apply normalize_beneath in H as [H _]; [done|]. rewrite path_of_flat by done. by apply valid_flat.
Qed.

(** ** Records *)

(** The fields of a [-z] output, each ended by NUL. *)
Definition terminated (fields : list (list N)) : list N := fields ≫= fun f => f ++ [0%N].

Lemma nul_fields_terminated fields : Forall (fun f => f <> [] /\ 0%N ∉ f) fields -> nul_fields (terminated fields) = fields.
Proof.
  unfold nul_fields, terminated. induction 1 as [|f fields [Hne Hf] _ IH]; [done|]. cbn [mbind list_bind].
  rewrite <- app_assoc. cbn [app]. rewrite split_on_app by done. by rewrite filter_cons_True, IH.
Qed.

(** A record of [diff --name-status]: the letter and the rest of the status field, the
    old path of a rename or copy, the path; paths as their names. *)
Record NameStatus := MkNameStatus { ns_code : N; ns_score : list N; ns_old : list (list N); ns_path : list (list N) }.
Definition path_ok (ns : list (list N)) : Prop := ns <> [] /\ Forall name_text ns.
Definition name_status_ok (r : NameStatus) : Prop :=
  valid_utf8 (ns_code r :: ns_score r) = true /\ (0%N ∉ ns_code r :: ns_score r) /\ path_ok (ns_path r)
  /\ (renames (ns_code r) = true -> path_ok (ns_old r)).
Definition name_status_fields (r : NameStatus) : list (list N) :=
  (ns_code r :: ns_score r) :: (if renames (ns_code r) then [path_of (ns_old r)] else []) ++ [path_of (ns_path r)].

(** An entry of [status --porcelain=v1]: the two letters, the path, then the old path. *)
Record Porcelain := MkPorcelain { pc_index : N; pc_worktree : N; pc_path : list (list N); pc_old : list (list N) }.
Definition pc_renames (r : Porcelain) : bool := renames (pc_index r) || renames (pc_worktree r).
Definition porcelain_ok (r : Porcelain) : Prop :=
  pc_index r <> 0%N /\ pc_worktree r <> 0%N /\ path_ok (pc_path r) /\ (pc_renames r = true -> path_ok (pc_old r)).
Definition porcelain_fields (r : Porcelain) : list (list N) :=
  (pc_index r :: pc_worktree r :: chr " " :: path_of (pc_path r)) :: if pc_renames r then [path_of (pc_old r)] else [].

Section Records.
Context (prefix : list (list N)) (Hprefix : Forall name_ok prefix).

(** What a record means: updates of the path, where it lies inside the workspace. *)
Definition update_inside (changes : Changes) (ns : list (list N)) (old : option (list (list N)))
    (updates : list (ContextChangeStatus * ContextChangeSource)) : Changes :=
  match inside prefix ns with
  | None => changes
  | Some p => foldl (fun changes u => merge_change changes p (old ≫= inside prefix) u.1 u.2) changes updates
  end.
Definition name_status_effect (source : ContextChangeSource) (changes : Changes) (r : NameStatus) : Changes :=
  update_inside changes (ns_path r) (if renames (ns_code r) then Some (ns_old r) else None) [(status_of_code (ns_code r), source)].
Definition porcelain_effect (changes : Changes) (r : Porcelain) : Changes :=
  update_inside changes (pc_path r) (if pc_renames r then Some (pc_old r) else None)
    (porcelain_updates (pc_index r) (pc_worktree r)).

Lemma path_ok_field ns : path_ok ns -> path_of ns <> [] /\ 0%N ∉ path_of ns.
Proof.
  intros [Hne Hns]. pose proof (text_names _ Hns) as Hok. split; [by rewrite path_of_empty|]. rewrite path_of_flat by done.
  clear Hne. induction Hns as [|n ns (_ & _ & Hn) Hns IH]; [apply not_elem_of_nil|]. inversion Hok; subst.
  destruct ns as [|m ns]; [done|]. change (flat (n :: m :: ns)) with (n ++ SEP :: flat (m :: ns)).
  intros [?|[?|?]%elem_of_cons]%elem_of_app; [done|done|by apply IH].
Qed.
Lemma merge_record_inside changes ns old updates : path_ok ns -> (forall o, old = Some o -> path_ok o) ->
  merge_record (path_of prefix) changes (path_of ns)
    (old ≫= fun o => workspace_relative_path (path_of o) (path_of prefix)) updates
  = update_inside changes ns old updates.
Proof.
  intros [_ Hns] Hold. unfold merge_record, update_inside. rewrite workspace_relative_names by done.
  destruct (inside prefix ns); [|done]. destruct old as [o|]; [|done]. cbn [mbind option_bind].
  destruct (Hold o eq_refl) as [_ Ho]. by rewrite workspace_relative_names.
Qed.

Lemma name_status_step source changes r fields : name_status_ok r ->
  name_status_loop (path_of prefix) source changes (name_status_fields r ++ fields) =
  name_status_loop (path_of prefix) source (name_status_effect source changes r) fields.
Proof.
  intros (Hv & _ & Hp & Ho). unfold name_status_fields. cbn [app name_status_loop].
  assert (to_string_lossy (ns_code r :: ns_score r) = ns_code r :: ns_score r) as -> by (unfold to_string_lossy; by rewrite Hv).
  cbn [head default]. unfold id, name_status_effect. destruct (renames (ns_code r)); cbn [app].
  - rewrite <- (merge_record_inside changes (ns_path r) (Some (ns_old r))); [done|done|]. intros o [= <-]. by apply Ho.
  - by rewrite <- (merge_record_inside changes (ns_path r) None).
Qed.

Lemma porcelain_entry_record r : path_ok (pc_path r) ->
  porcelain_entry (pc_index r :: pc_worktree r :: chr " " :: path_of (pc_path r)) =
  Some (pc_index r, pc_worktree r, path_of (pc_path r)).
Proof.
  intros Hp. destruct (path_ok_field _ Hp) as [Hne _]. unfold porcelain_entry. by destruct (path_of (pc_path r)).
Qed.
Lemma porcelain_step changes r fields : porcelain_ok r -> 
  porcelain_loop (path_of prefix) changes (porcelain_fields r ++ fields) =
  porcelain_loop (path_of prefix) (porcelain_effect changes r) fields.
Proof.
  intros (_ & _ & Hp & Ho). unfold porcelain_fields, porcelain_effect, pc_renames in *. cbn [app porcelain_loop].
  rewrite porcelain_entry_record by done. destruct (renames (pc_index r) || renames (pc_worktree r)); cbn [app].
  - rewrite <- (merge_record_inside changes (pc_path r) (Some (pc_old r))); [done|done|]. intros o [= <-]. by apply Ho.
  - rewrite <- (merge_record_inside changes (pc_path r) None) by done. by destruct fields.
Qed.
End Records.

Lemma name_status_fields_ok r : name_status_ok r -> Forall (fun f => f <> [] /\ 0%N ∉ f) (name_status_fields r).
Proof.
  intros (_ & Hc & Hp & Ho). unfold name_status_fields. constructor; [done|]. apply Forall_app. split.
  - destruct (renames (ns_code r)); repeat constructor; apply path_ok_field; by apply Ho.
  - repeat constructor; by apply path_ok_field.
Qed.
Lemma porcelain_fields_ok r : porcelain_ok r -> Forall (fun f => f <> [] /\ 0%N ∉ f) (porcelain_fields r).
Proof.
  intros (Hx & Hy & Hp & Ho). destruct (path_ok_field _ Hp) as [_ Hz]. unfold porcelain_fields. constructor.
  - split; [done|]. intros [?|[?|[?|?]%elem_of_cons]%elem_of_cons]%elem_of_cons; done.
  - destruct (pc_renames r); repeat constructor; apply path_ok_field; by apply Ho.
Qed.

Lemma name_status_read prefix source rs changes : Forall name_ok prefix -> Forall name_status_ok rs ->
  merge_name_status (path_of prefix) changes (terminated (rs ≫= name_status_fields)) source
  = foldl (name_status_effect prefix source) changes rs.
Proof.
  intros Hpre Hrs. unfold merge_name_status. rewrite nul_fields_terminated.
  - revert changes. induction Hrs as [|r rs Hr _ IH]; intros changes; [done|]. cbn [mbind list_bind foldl].
    rewrite name_status_step by done. apply IH.
  - induction Hrs; [constructor|]. cbn [mbind list_bind]. apply Forall_app. split; [by apply name_status_fields_ok|done].
Qed.
Lemma porcelain_read prefix rs changes : Forall name_ok prefix -> Forall porcelain_ok rs ->
  merge_porcelain_status (path_of prefix) changes (terminated (rs ≫= porcelain_fields))
  = foldl (porcelain_effect prefix) changes rs.
Proof.
  intros Hpre Hrs. unfold merge_porcelain_status. rewrite nul_fields_terminated.
  - revert changes. induction Hrs as [|r rs Hr _ IH]; intros changes; [done|]. cbn [mbind list_bind foldl].
    rewrite porcelain_step by done. apply IH.
  - induction Hrs; [constructor|]. cbn [mbind list_bind]. apply Forall_app. split; [by apply porcelain_fields_ok|done].
Qed.

(** ** One change a path *)

(** An update in the order it was read. *)
Record Update := MkUpdate { up_path : path; up_old : option path; up_status : ContextChangeStatus; up_source : ContextChangeSource }.
Definition apply_change (changes : Changes) (u : Update) : Changes :=
  merge_change changes (up_path u) (up_old u) (up_status u) (up_source u).
Definition up_key (u : Update) : list (list N) := path_ord (up_path u).

(** The change of a path, from its updates: the path as first written, the first old path,
    the last status (but an added or renamed file that is modified too stays added or
    renamed), and the sources in their order. *)
Definition later_status (before after : ContextChangeStatus) : ContextChangeStatus :=
  match before, after with
  | (Added | Renamed), Modified => before
  | _, _ => after
  end.
Definition all_sources : list ContextChangeSource := [Since; Staged; Worktree; Untracked].
Definition change_of (us : list Update) : option ContextChange :=
  match us with
  | [] => None
  | u :: rest =>
    Some (MkChange (up_path u) (head (omap up_old us)) (foldl later_status (up_status u) (map up_status rest))
            (filter (fun s => s ∈ map up_source us) all_sources))
  end.
Definition change_at (k : list (list N)) (us : list Update) : option ContextChange :=
  change_of (filter (fun u => up_key u = k) us).

Lemma sources_insert (S : ContextChangeSource -> Prop) `{forall s, Decision (S s)} s : ~ S s ->
  sort_sources (filter S all_sources ++ [s]) = filter (fun x => S x \/ x = s) all_sources.
Proof.
  intros Hs. unfold all_sources. rewrite !filter_cons, !filter_nil.
  destruct (decide (S Since)), (decide (S Staged)), (decide (S Worktree)), (decide (S Untracked)), s;
    try done; repeat (case_decide; try (exfalso; intuition congruence)); reflexivity.
Qed.

Lemma change_of_snoc us u :
  change_of (us ++ [u]) =
    let change := default (MkChange (up_path u) None (up_status u) []) (change_of us) in
    Some (MkChange (change_path change) (match old_path change with None => up_old u | o => o end)
      (later_status (status change) (up_status u))
      (if bool_decide (up_source u ∈ change_sources change) then change_sources change else sort_sources (change_sources change ++ [up_source u]))).
Proof.
  destruct us as [|v us]; cbn [app change_of].
  - cbn [default change_path old_path status change_sources omap list_omap map foldl]. rewrite bool_decide_eq_false_2 by apply not_elem_of_nil.
    f_equal. f_equal; [by destruct (up_old u)|by destruct (up_status u)|by destruct (up_source u)].
  - cbn [default change_path old_path status change_sources]. unfold id. cbn [change_path old_path status change_sources].
    rewrite map_app, foldl_app. change (v :: us ++ [u]) with ((v :: us) ++ [u]). rewrite omap_app, map_app.
    f_equal. f_equal.
    + rewrite head_app. destruct (head (omap up_old (v :: us))) as [o|]; [done|]. cbn. by destruct (up_old u).
    + set (S := map up_source (v :: us)). case_bool_decide as Hin.
      * apply list_elem_of_filter in Hin as [Hin _]. apply list_filter_iff. intros s. rewrite elem_of_app.
        split; [|by left]. intros [|Hs]; [done|]. apply list_elem_of_singleton in Hs as ->. done.
      * rewrite sources_insert.
        -- apply list_filter_iff. intros s. rewrite elem_of_app. cbn [map]. by rewrite list_elem_of_singleton.
        -- intros Hs. apply Hin, list_elem_of_filter. split; [done|]. unfold all_sources. by destruct (up_source u); set_solver.
Qed.

Lemma merge_change_at changes u k : bt_wf changes ->
  bt_get k (apply_change changes u) =
  if decide (up_key u = k) then
    let change := default (MkChange (up_path u) None (up_status u) []) (bt_get k changes) in
    Some (MkChange (change_path change) (match old_path change with None => up_old u | o => o end)
      (later_status (status change) (up_status u))
      (if bool_decide (up_source u ∈ change_sources change) then change_sources change else sort_sources (change_sources change ++ [up_source u])))
  else bt_get k changes.
Proof.
  intros Hwf. unfold apply_change, merge_change, up_key. case_decide as Hk.
  - subst k. rewrite bt_get_insert_eq. cbv zeta. f_equal. f_equal.
    destruct (status (default _ _)), (up_status u); done.
  - by apply bt_get_insert_ne, not_eq_sym.
Qed.

Lemma merge_all_at us : bt_wf (foldl apply_change [] us) /\ forall k, bt_get k (foldl apply_change [] us) = change_at k us.
Proof.
  induction us as [|u us [Hwf IH]] using rev_ind; [by split; [constructor|]|]. rewrite foldl_app. cbn [foldl]. split.
  - unfold apply_change, merge_change. cbv zeta. by apply bt_insert_wf.
  - intros k. rewrite merge_change_at by done. unfold change_at. rewrite filter_app. case_decide as Hk.
    + rewrite filter_cons_True, filter_nil by done. rewrite change_of_snoc. rewrite IH. done.
    + rewrite filter_cons_False, filter_nil, app_nil_r by done. apply IH.
Qed.

(** Whatever the bytes, the loops apply updates of paths beneath the workspace. *)
Definition inside_updates (us : list Update) : Prop := Forall (fun u => beneath (up_path u)) us.
Lemma merge_record_updates prefix changes raw old updates : exists us, inside_updates us
  /\ merge_record prefix changes raw old updates = foldl apply_change changes us.
Proof.
  unfold merge_record. destruct (workspace_relative_path raw prefix) as [p|] eqn:E; [|by exists []; split; [constructor|]].
  apply workspace_relative_beneath in E. exists (map (fun u => MkUpdate p old u.1 u.2) updates). split.
  - apply Forall_map, Forall_true. done.
  - revert changes. induction updates as [|u updates IH]; intros changes; [done|]. cbn [map foldl]. by rewrite IH.
Qed.
Lemma name_status_updates prefix source fields : forall changes, exists us, inside_updates us
  /\ name_status_loop prefix source changes fields = foldl apply_change changes us.
Proof.
  induction fields as [fields IH] using (well_founded_induction (well_founded_ltof _ length)). unfold ltof in IH.
  intros changes. destruct fields as [|field fields]; [by exists []; split; [constructor|]|]. cbn [name_status_loop]. cbv zeta.
  destruct (renames _); [destruct fields as [|old [|p fields]]|destruct fields as [|p fields]];
    try (by exists []; split; [constructor|]).
  1: destruct (merge_record_updates prefix changes p (workspace_relative_path old prefix)
       [(status_of_code (default (chr "?") (head (to_string_lossy field))), source)]) as (us & Hus & ->).
  2: destruct (merge_record_updates prefix changes p None
       [(status_of_code (default (chr "?") (head (to_string_lossy field))), source)]) as (us & Hus & ->).
  all: destruct (IH fields ltac:(cbn; lia) (foldl apply_change changes us)) as (vs & Hvs & ->);
    exists (us ++ vs); rewrite foldl_app; (split; [by apply Forall_app|done]).
Qed.
Lemma porcelain_loop_updates prefix fields : forall changes, exists us, inside_updates us
  /\ porcelain_loop prefix changes fields = foldl apply_change changes us.
Proof.
  induction fields as [fields IH] using (well_founded_induction (well_founded_ltof _ length)). unfold ltof in IH.
  intros changes. destruct fields as [|entry fields]; [by exists []; split; [constructor|]|]. cbn [porcelain_loop].
  destruct (porcelain_entry entry) as [[[x y] raw]|]; [|apply IH; cbn; lia].
  destruct fields as [|old fields]; [apply merge_record_updates|]. destruct (renames x || renames y).
  - destruct (merge_record_updates prefix changes raw (workspace_relative_path old prefix) (porcelain_updates x y)) as (us & Hus & ->).
    destruct (IH fields ltac:(cbn; lia) (foldl apply_change changes us)) as (vs & Hvs & ->).
    exists (us ++ vs). rewrite foldl_app. split; [by apply Forall_app|done].
  - destruct (merge_record_updates prefix changes raw None (porcelain_updates x y)) as (us & Hus & ->).
    destruct (IH (old :: fields) ltac:(cbn; lia) (foldl apply_change changes us)) as (vs & Hvs & ->).
    exists (us ++ vs). rewrite foldl_app. split; [by apply Forall_app|done].
Qed.

(** The updates that records stand for. *)
Definition updates_inside (prefix ns : list (list N)) (old : option (list (list N)))
    (updates : list (ContextChangeStatus * ContextChangeSource)) : list Update :=
  match inside prefix ns with
  | None => []
  | Some p => map (fun u => MkUpdate p (old ≫= inside prefix) u.1 u.2) updates
  end.
Definition since_updates (prefix : list (list N)) (r : NameStatus) : list Update :=
  updates_inside prefix (ns_path r) (if renames (ns_code r) then Some (ns_old r) else None) [(status_of_code (ns_code r), Since)].
Definition status_updates (prefix : list (list N)) (r : Porcelain) : list Update :=
  updates_inside prefix (pc_path r) (if pc_renames r then Some (pc_old r) else None)
    (porcelain_updates (pc_index r) (pc_worktree r)).
Lemma update_inside_fold prefix changes ns old updates :
  update_inside prefix changes ns old updates = foldl apply_change changes (updates_inside prefix ns old updates).
Proof.
  unfold update_inside, updates_inside. destruct (inside prefix ns); [|done]. revert changes.
  induction updates as [|u updates IH]; intros changes; [done|]. cbn [map foldl]. by rewrite IH.
Qed.
Lemma foldl_bind {A B C} (f : A -> C -> A) (g : B -> list C) (h : A -> B -> A) l : (forall a b, h a b = foldl f a (g b)) ->
  forall a, foldl h a l = foldl f a (l ≫= g).
Proof. intros Hh. induction l as [|b l IH]; intros a; [done|]. cbn [foldl mbind list_bind]. by rewrite foldl_app, <- Hh, IH. Qed.

(** Both outputs, read one after the other. *)
Definition read_changes (workspace_prefix : path) (diff status : list N) : Changes :=
  merge_porcelain_status workspace_prefix (merge_name_status workspace_prefix [] diff Since) status.
Lemma read_changes_updates workspace_prefix diff status : exists us, inside_updates us
  /\ read_changes workspace_prefix diff status = foldl apply_change [] us.
Proof.
  destruct (name_status_updates workspace_prefix Since (nul_fields diff) []) as (us & Hus & E1).
  destruct (porcelain_loop_updates workspace_prefix (nul_fields status) (foldl apply_change [] us)) as (vs & Hvs & E2).
  exists (us ++ vs). rewrite foldl_app, <- E2, <- E1. split; [by apply Forall_app|done].
Qed.

(** C21. What git wrote is what is read: for records with well-formed paths, in either
    format, the change of every path of the workspace is the one its records describe (old
    path of the first rename, last status, all sources), and paths outside the workspace
    have none. *)
Theorem git_records_round_trip prefix rs ps
  (Hprefix : Forall name_ok prefix) (Hrs : Forall name_status_ok rs) (Hps : Forall porcelain_ok ps) :
  let m := read_changes (path_of prefix) (terminated (rs ≫= name_status_fields)) (terminated (ps ≫= porcelain_fields)) in
  bt_wf m /\ forall k, bt_get k m = change_at k ((rs ≫= since_updates prefix) ++ (ps ≫= status_updates prefix)).
Proof.
  cbv zeta. unfold read_changes. rewrite name_status_read, porcelain_read by done.
  rewrite (foldl_bind apply_change (since_updates prefix)) by (intros; apply update_inside_fold).
  rewrite (foldl_bind apply_change (status_updates prefix)) by (intros; apply update_inside_fold).
  rewrite <- foldl_app. apply merge_all_at.
Qed.

(** Whatever bytes git wrote, the changes are one a path, with at least one source, sources
    sorted, and their paths stay beneath the workspace. *)
Theorem git_changes_stay_inside workspace_prefix diff status k change :
  bt_get k (read_changes workspace_prefix diff status) = Some change ->
  k = path_ord (change_path change) /\ beneath (change_path change) /\ change_sources change <> []
  /\ change_sources change = filter (fun s => s ∈ change_sources change) all_sources.
Proof.
  destruct (read_changes_updates workspace_prefix diff status) as (us & Hus & ->). rewrite (proj2 (merge_all_at us)).
  unfold change_at. pose proof (Forall_filter_keep _ (fun u => up_key u = k) _ Hus) as Hb.
  assert (Forall (fun u => up_key u = k) (filter (fun u => up_key u = k) us)) as Hk
    by (apply Forall_forall; by intros u [? _]%list_elem_of_filter).
  destruct (filter _ us) as [|u rest]; [done|]. intros [= <-]. cbn [change_path change_sources].
  inversion Hb; inversion Hk; subst. split_and!; [done..| |].
  - intros E. assert (up_source u ∈ []) as Hin; [|by apply elem_of_nil in Hin]. rewrite <- E.
    apply list_elem_of_filter. split; [left|]. unfold all_sources. destruct (up_source u); set_solver.
  - apply list_filter_iff. intros s. rewrite list_elem_of_filter. split; [|by intros []].
    intros Hs. split; [done|]. unfold all_sources. destruct s; set_solver.
Qed.

(** ** Concrete records *)

#[global] Instance path_ok_dec ns : Decision (path_ok ns).
Proof. unfold path_ok. apply _. Defined.
#[global] Instance name_status_ok_dec r : Decision (name_status_ok r).
Proof. unfold name_status_ok. apply _. Defined.
#[global] Instance porcelain_ok_dec r : Decision (porcelain_ok r).
Proof. unfold porcelain_ok. apply _. Defined.

Definition segments (l : list string) : list (list N) := map lit l.
(** A modified file, a rename, and a file outside the workspace [src]; then the same file
    changed in the work tree, and an untracked one. *)
Definition example_diff : list NameStatus :=
  [MkNameStatus (chr "M") [] [] (segments ["src"; "a.rs"]);
   MkNameStatus (chr "R") (lit "087") (segments ["src"; "b.rs"]) (segments ["src"; "c"; "d.rs"]);
   MkNameStatus (chr "A") [] [] (segments ["docs"; "x.md"])].
Definition example_status : list Porcelain :=
  [MkPorcelain (chr " ") (chr "M") (segments ["src"; "a.rs"]) []; MkPorcelain (chr "?") (chr "?") (segments ["src"; "new"]) []].
Definition example_read : Changes :=
  read_changes (lit "src") (terminated (example_diff ≫= name_status_fields)) (terminated (example_status ≫= porcelain_fields)).

Example read_example : map snd example_read =
  [MkChange (lit "a.rs") None Modified [Since; Worktree]; MkChange (lit "c/d.rs") (Some (lit "b.rs")) Renamed [Since];
   MkChange (lit "new") None Added [Untracked]].
Proof. vm_compute. reflexivity. Qed.

Lemma git_records_round_trip_witness :
  bt_get (path_ord (lit "a.rs")) example_read = Some (MkChange (lit "a.rs") None Modified [Since; Worktree]).
Proof.
  destruct (git_records_round_trip (segments ["src"]) example_diff example_status) as [_ H].
  - apply (bool_decide_eq_true_1 _). by vm_compute.
  - apply (bool_decide_eq_true_1 _). by vm_compute.
  - apply (bool_decide_eq_true_1 _). by vm_compute.
  - etrans; [exact (H (path_ord (lit "a.rs")))|by vm_compute].
Defined.

(** ** The scope *)

Section Scope.
Context (git : list (list N) -> GitProcess) (is_alphanumeric : char -> bool) (canonicalize : path -> option path).
Abbreviation collect := (collect_git_changes git is_alphanumeric canonicalize).

(** A scope counts all the changes, lists the first 512, and says whether more exist and
    whether the work tree differs from [HEAD]; the reference it was computed for could not
    be taken for an option or a range. *)
Lemma collect_scope root reference scope changes_found : collect root reference = Ok (Some (scope, changes_found)) ->
  total_changes scope = length changes_found /\ changes scope = take 512 changes_found /\ since scope = reference
  /\ (changes_truncated scope = true <-> 512 < length changes_found)
  /\ (dirty_worktree scope = true <-> exists c s, c ∈ changes_found /\ s ∈ change_sources c /\ s <> Since)
  /\ (forall r, reference = Some r -> validate_git_reference is_alphanumeric r = Ok tt).
Proof.
  unfold collect_git_changes. intros H. apply bind_Ok in H as (top & _ & H).
  destruct top as [repo|]; [|by destruct reference]. cbv zeta in H. apply bind_Ok in H as (start & Hstart & H).
  apply bind_Ok in H as (out & _ & [= <- <-]). cbn [total_changes changes since changes_truncated dirty_worktree].
  set (cs := map snd _). split_and!; [done..| | |].
  - rewrite Nat.ltb_lt, length_take. unfold MAX_SERIALIZED_CHANGES. lia.
  - rewrite existsb_exists. split.
    + intros (c & Hc%list_elem_of_In & Hd). unfold is_dirty in Hd. apply existsb_exists in Hd as (s & Hs%list_elem_of_In & Hs').
      exists c, s. by destruct s.
    + intros (c & s & Hc & Hs & Hne). exists c. split; [by apply list_elem_of_In|]. apply existsb_exists. exists s.
      split; [by apply list_elem_of_In|by destruct s].
  - intros r ->. apply bind_Ok in Hstart as ([base cs'] & Hs & _). unfold changes_since in Hs.
    apply bind_Ok in Hs as ([] & Hv & _). done.
Qed.
Lemma validated_reference r : validate_git_reference is_alphanumeric r = Ok tt ->
  r <> [] /\ starts_with (lit "-") r = false /\ starts_with (lit "^") r = false /\ contains (lit "..") r = false.
Proof.
  unfold validate_git_reference. case_bool_decide; [done|]. destruct (starts_with (lit "-") r); [done|].
  destruct (starts_with (lit "^") r); [done|]. by destruct (contains (lit "..") r).
Qed.
End Scope.
