(* ===== verification/ContextSeeds.v ===== *)
(** * The seeds of a context bundle: [collect_context_input] of context_input.rs.

  Files a task names and files Git reports as changed seed the search for context.  The
  selected paths, the files on disk and the paths found in the task are arguments. *)
From S2P Require Import Prelude Utf8 BTree Paths Languages TextTokens ContextPreview PathNames ContextChanges GitChanges TextStream.

(** [reason] and [source] are the texts shown for a seed. *)
Record ContextSeed := MkSeed {
  seed_path : path;
  seed_line : option Z;
  git_revision : option str;
  reason : str;
  source : str;
  priority : nat
}.
Record ContextInput := MkInput {
  change_scope : option ContextChangeScope;
  referenced_paths : list ContextInputPath;
  seeds : list ContextSeed
}.

Section Collect.
Context {E : Type} (show_line : Z -> str).
(** The path globs and scope of the search; [allows] is the ignore rules of the walker. *)
Context (glob_matches : path -> bool) (scope_matches : option (path -> bool)) (type_filter : option str).
Context (allows : path -> Result E bool).
(** [root.join(path).is_file()] *)
Context (is_file : path -> bool).

Definition path_allowed (p : path) : bool :=
  glob_matches p
  && match scope_matches with Some matches => matches p | None => true end
  && match type_filter with
     | Some filter => bool_decide (language_for_path p = Some (default filter (resolve_type_alias filter)))
     | None => true
     end.

(** Both loops that keep the selected paths; the first error ends them. *)
Fixpoint keep_allowed {A} (path_of : A -> path) (l : list A) : Result E (list A) :=
  match l with
  | [] => Ok []
  | x :: l =>
    allowed ← (if path_allowed (path_of x) then allows (path_of x) else Ok false);
    rest ← keep_allowed path_of l;
    Ok (if (allowed : bool) then x :: rest else rest)
  end.

(** The scope again, for the changes kept. *)
Definition narrow_scope (seed_changes : list ContextChange) (scope : ContextChangeScope) : ContextChangeScope :=
  let serialized := take MAX_SERIALIZED_CHANGES seed_changes in
  MkScope (since scope) (base_commit scope) (existsb is_dirty seed_changes) (length seed_changes)
    (length serialized <? length seed_changes) serialized.

Abbreviation Seeds := (list (list (list N) * ContextSeed)).

Definition reference_seed (r : ContextInputPath) : ContextSeed :=
  MkSeed (input_path r) (input_line r) None
    (match input_line r with
     | None => lit "mentioned in task input"
     | Some line => lit "mentioned at line " ++ show_line line ++ lit " in task or stack trace"
     end) (lit "task_input") 3.
Definition insert_reference (seeds : Seeds) (r : ContextInputPath) : Seeds :=
  if is_file (input_path r) then bt_insert (path_ord (input_path r)) (reference_seed r) seeds else seeds.

Definition deleted_revision (base_commit : option str) (c : ContextChange) : option str :=
  if bool_decide (status c = Deleted) then
    Some (if existsb (fun s => match s with Staged | Worktree => true | _ => false end) (change_sources c) then lit "HEAD"
          else default (lit "HEAD") base_commit)
  else None.
Definition change_seed (base_commit : option str) (c : ContextChange) : ContextSeed :=
  MkSeed (change_path c) None (deleted_revision base_commit c)
    (status_label (status c) ++ lit " in " ++ join (lit ", ") (map source_label (change_sources c)))
    (if bool_decide (status c = Deleted) then lit "git_deleted"
     else if bool_decide (Since ∈ change_sources c) then lit "git_since" else lit "git_worktree") 2.
Definition insert_change (base_commit : option str) (seeds : Seeds) (c : ContextChange) : Seeds :=
  if negb (is_file (change_path c)) && negb (bool_decide (status c = Deleted)) then seeds
  else match bt_get (path_ord (change_path c)) seeds with
       | Some _ => seeds
       | None => bt_insert (path_ord (change_path c)) (change_seed base_commit c) seeds
       end.

(** ** Order *)

Definition segments_of (text : str) : option (list str) :=
  segments ← mapM Code.split_identifier_segments (split_where term_separator text); Some (concat segments).
Definition task_terms (task : str) : option (list str) :=
  segments ← segments_of task; Some (filter (fun term => (3 <=? blen term) = true) segments).
Definition seed_path_relevance (p : path) (terms : list str) : option nat :=
  segments ← segments_of (lossy_chars p);
  Some (sum_list (map blen (filter (fun term => term ∈ terms) segments))).

Definition seed_before (left right : nat * ContextSeed) : bool :=
  match Nat.compare (priority right.2) (priority left.2) with
  | Lt => true
  | Gt => false
  | Eq =>
    match Nat.compare right.1 left.1 with
    | Lt => true
    | Gt => false
    | Eq => match path_cmp (seed_path left.2) (seed_path right.2) with Gt => false | _ => true end
    end
  end.
Definition order_seeds (terms : list str) (seeds : list ContextSeed) : option (list ContextSeed) :=
  ranked ← mapM (fun seed => r ← seed_path_relevance (seed_path seed) terms; Some (r, seed)) seeds;
  Some (map snd (sort_by seed_before ranked)).

(** [None] is a slice off a character boundary. *)
Definition collect_context_input (task : str)
    (git_changes : Result E (option (ContextChangeScope * list ContextChange)))
    (task_paths : list ContextInputPath) : Result E (option ContextInput) :=
  found ← git_changes;
  seed_changes ← keep_allowed change_path (match found with Some (_, changes) => changes | None => [] end);
  referenced ← keep_allowed input_path task_paths;
  let scope := match found with Some (scope, _) => Some (narrow_scope seed_changes scope) | None => None end in
  let base := scope ≫= base_commit in
  let map_of_seeds := foldl (insert_change base) (foldl insert_reference [] referenced) seed_changes in
  Ok (terms ← task_terms task;
      ordered ← order_seeds terms (map snd map_of_seeds);
      Some (MkInput scope referenced ordered)).
End Collect.

(** * Which files seed a context, and in what order. *)

Section Facts.
Context {E : Type} (show_line : Z -> str).
Context (glob_matches : path -> bool) (scope_matches : option (path -> bool)) (type_filter : option str).
Context (allows : path -> Result E bool) (is_file : path -> bool).
Abbreviation keep_allowed := (keep_allowed glob_matches scope_matches type_filter allows).
Abbreviation insert_reference := (insert_reference show_line is_file).
Abbreviation insert_change := (insert_change is_file).

(** What may seed a context: allowed by the filters and not ignored. *)
Definition selected (p : path) : Prop :=
  path_allowed glob_matches scope_matches type_filter p = true /\ allows p = Ok true.
#[global] Instance selected_dec p : Decision (selected p).
Proof.
  unfold selected. destruct (path_allowed _ _ _ p); [|by right; intros []].
  destruct (allows p) as [[]|]; [by left|by right; intros []|by right; intros []].
Defined.

Lemma keep_allowed_spec {A} (path_of : A -> path) l kept :
  keep_allowed path_of l = Ok kept -> kept = filter (fun x => selected (path_of x)) l.
Proof.
  revert kept. induction l as [|x l IH]; intros kept H; cbn [ContextSeeds.keep_allowed] in H; [by injection H as <-|].
  apply bind_Ok in H as (b & Hb & H). apply bind_Ok in H as (rest & Hr & [= <-]). apply IH in Hr as ->.
  rewrite filter_cons. destruct (path_allowed _ _ _ (path_of x)) eqn:Ep.
  - case_decide as Hs; [destruct Hs as [_ Hs]; by rewrite Hs in Hb; injection Hb as <-|].
    destruct b; [|done]. by destruct Hs.
  - injection Hb as <-. rewrite decide_False; [done|]. intros [Hp _]. congruence.
Qed.

(** ** The map of seeds *)

Abbreviation Seeds := (list (list (list N) * ContextSeed)).
Definition refers (k : list (list N)) (r : ContextInputPath) : Prop := is_file (input_path r) = true /\ path_ord (input_path r) = k.
Definition changed (k : list (list N)) (c : ContextChange) : Prop :=
  (is_file (change_path c) = true \/ status c = Deleted) /\ path_ord (change_path c) = k.
#[global] Instance refers_dec k r : Decision (refers k r).
Proof. unfold refers. apply _. Defined.
#[global] Instance changed_dec k c : Decision (changed k c).
Proof. unfold changed. apply _. Defined.

Lemma references_at rs k (m : Seeds) : bt_wf m -> bt_wf (foldl insert_reference m rs) /\
  bt_get k (foldl insert_reference m rs) =
  match last (filter (refers k) rs) with Some r => Some (reference_seed show_line r) | None => bt_get k m end.
Proof.
  intros Hm. induction rs as [|r rs [Hwf IH]] using rev_ind; [done|]. rewrite foldl_app, filter_app, filter_cons, filter_nil.
  cbn [foldl]. unfold ContextSeeds.insert_reference at 1 3. destruct (is_file (input_path r)) eqn:Ef.
  - split; [by apply bt_insert_wf|]. case_decide as Hk.
    + destruct Hk as [_ <-]. by rewrite last_snoc, bt_get_insert_eq.
    + rewrite app_nil_r, bt_get_insert_ne; [done|]. intros ->. by apply Hk.
  - rewrite decide_False, app_nil_r; [done|]. intros [? _]. congruence.
Qed.

Lemma changes_at base cs k (m : Seeds) : bt_wf m -> bt_wf (foldl (insert_change base) m cs) /\
  bt_get k (foldl (insert_change base) m cs) =
  match bt_get k m with Some s => Some s | None => change_seed base <$> head (filter (changed k) cs) end.
Proof.
  revert m. induction cs as [|c cs IH]; intros m Hm; [split; [done|]; cbn; by destruct (bt_get k m)|]. cbn [foldl].
  assert (bt_wf (insert_change base m c)) as Hwf.
  { unfold ContextSeeds.insert_change. destruct (_ && _); [done|]. destruct (bt_get _ m); [done|]. by apply bt_insert_wf. }
  destruct (IH _ Hwf) as [H1 H2]. split; [done|]. rewrite H2. clear IH H1 H2 Hwf.
  unfold ContextSeeds.insert_change. rewrite filter_cons.
  destruct (is_file (change_path c)) eqn:Ef; [|case_bool_decide as Ed]; cbn [negb andb].
  3: { by rewrite decide_False by (intros [[?|?] _]; congruence). }
  all: destruct (bt_get (path_ord (change_path c)) m) eqn:Eg.
  1,3: destruct (bt_get k m) eqn:Ek; [done|]; rewrite decide_False; [done|]; intros [_ <-]; congruence.
  all: case_decide as Hk;
    [destruct Hk as [_ <-]; by rewrite Eg, bt_get_insert_eq
    |rewrite bt_get_insert_ne; [done|]; intros ->; apply Hk; split; [auto|done]].
Qed.

(** ** Order *)

Definition seed_rank (x : nat * ContextSeed) : nat * nat * list (list N) := (priority x.2, x.1, path_ord (seed_path x.2)).
Lemma path_cmp_kcmp a b : path_cmp a b = kcmp (path_ord a) (path_ord b).
Proof. done. Qed.
Lemma seed_before_spec a b : seed_before a b = true <->
  priority b.2 < priority a.2 \/ (priority b.2 = priority a.2 /\
    (b.1 < a.1 \/ (b.1 = a.1 /\ kcmp (path_ord (seed_path a.2)) (path_ord (seed_path b.2)) <> Gt))).
Proof.
  unfold seed_before. rewrite path_cmp_kcmp. destruct (Nat.compare_spec (priority b.2) (priority a.2)); [|intuition lia..].
  destruct (Nat.compare_spec b.1 a.1); [|intuition lia..]. destruct (kcmp _ _); intuition (congruence || lia).
Qed.
Lemma kle_trans {K} `{OrdKey K} (a b c : K) : kcmp a b <> Gt -> kcmp b c <> Gt -> kcmp a c <> Gt.
Proof.
  destruct (kcmp a b) eqn:E1; [apply kcmp_eq in E1 as ->; done| |done]. intros _.
  destruct (kcmp b c) eqn:E2; [apply kcmp_eq in E2 as <-; by rewrite E1| |done]. by rewrite (kcmp_trans _ _ _ E1 E2).
Qed.
Lemma seed_before_total a b : seed_before a b = true \/ seed_before b a = true.
Proof.
  rewrite !seed_before_spec. set (x := path_ord (seed_path a.2)). set (y := path_ord (seed_path b.2)).
  assert (kcmp x y <> Gt \/ kcmp y x <> Gt) by (rewrite (kcmp_sym x y); destruct (kcmp x y); auto).
  destruct (Nat.lt_trichotomy (priority a.2) (priority b.2)) as [?|[?|?]]; [by auto| |by auto].
  destruct (Nat.lt_trichotomy a.1 b.1) as [?|[?|?]]; intuition.
Qed.
Lemma seed_before_trans a b c : seed_before a b = true -> seed_before b c = true -> seed_before a c = true.
Proof.
  rewrite !seed_before_spec. intros [?|(? & [?|[? Hab]])] [?|(? & [?|[? Hbc]])]; try (left; lia); right; (split; [lia|]);
    try (left; lia). right. split; [lia|]. by eapply kle_trans.
Qed.

Lemma order_seeds_spec terms l : exists l', order_seeds terms l = Some l' /\ l' ≡ₚ l
  /\ StronglySorted (fun a b => priority b <= priority a) l'.
Proof.
  assert (forall t, is_Some (segments_of t)) as Hseg.
  { intros t. unfold segments_of. assert (is_Some (mapM Code.split_identifier_segments (split_where term_separator t))) as [ss ->]; [|by eexists].
    apply mapM_is_Some, Forall_forall. intros w _. destruct (split_identifier_segments_lossless w) as (ws & H & _). by eexists. }
  assert (exists ranked, mapM (fun seed => r ← seed_path_relevance (seed_path seed) terms; Some (r, seed)) l = Some ranked
    /\ map snd ranked = l) as (ranked & Hr & <-).
  { induction l as [|s l (ranked & IH & Hm)]; [by exists []|]. unfold seed_path_relevance. cbn [mapM].
    destruct (Hseg (lossy_chars (seed_path s))) as [ss Es]. unfold seed_path_relevance in IH. rewrite Es. cbn [mbind option_bind].
    rewrite IH. eexists. split; [done|]. cbn. by rewrite Hm. }
  exists (map snd (sort_by seed_before ranked)). unfold order_seeds. rewrite Hr. split_and!; [done| |].
  - by rewrite (sort_by_perm seed_before ranked).
  - pose proof (sort_by_sorted _ seed_before_total seed_before_trans ranked) as Hs.
    induction Hs as [|x xs Hs IH Hx]; constructor; [done|]. apply Forall_map. eapply Forall_impl; [exact Hx|].
    intros y Hy. apply seed_before_spec in Hy. cbn. lia.
Qed.
Lemma task_terms_total task : is_Some (task_terms task).
Proof.
  unfold task_terms, segments_of.
  assert (is_Some (mapM Code.split_identifier_segments (split_where term_separator task))) as [ss ->]; [|by eexists].
  apply mapM_is_Some, Forall_forall. intros w _. destruct (split_identifier_segments_lossless w) as (ws & H & _). by eexists.
Qed.

(** ** The input *)

Context (task : str) (found : option (ContextChangeScope * list ContextChange)) (task_paths : list ContextInputPath).
Abbreviation collect :=
  (collect_context_input show_line glob_matches scope_matches type_filter allows is_file task (Ok found) task_paths).
Definition all_changes : list ContextChange := match found with Some (_, changes) => changes | None => [] end.
Definition kept_changes : list ContextChange := filter (fun c => selected (change_path c)) all_changes.
Definition kept_references : list ContextInputPath := filter (fun r => selected (input_path r)) task_paths.
Definition base_of : option str := found ≫= fun f => base_commit f.1.

(** The seed of a path: its last reference in the task, or else its change. *)
Definition seed_at (k : list (list N)) : option ContextSeed :=
  match last (filter (refers k) kept_references) with
  | Some r => Some (reference_seed show_line r)
  | None => change_seed base_of <$> head (filter (changed k) kept_changes)
  end.

Lemma seed_at_path k s : seed_at k = Some s -> path_ord (seed_path s) = k.
Proof.
  unfold seed_at. destruct (last _) as [r|] eqn:El.
  - intros [= <-]. apply last_Some_elem_of, list_elem_of_filter in El as [[_ H] _]. done.
  - destruct (head _) as [c|] eqn:Eh; [|done]. intros [= <-]. apply head_Some_elem_of, list_elem_of_filter in Eh as [[_ H] _]. done.
Qed.

Lemma seeds_map_spec : let m := foldl (insert_change base_of) (foldl insert_reference [] kept_references) kept_changes in
  bt_wf m /\ forall k, bt_get k m = seed_at k.
Proof.
  cbv zeta. assert (bt_wf (foldl insert_reference ([] : Seeds) kept_references)) as Hr
    by (by apply (references_at kept_references [] []); constructor).
  split; [by apply (changes_at base_of kept_changes [])|]. intros k.
  destruct (changes_at base_of kept_changes k _ Hr) as [_ ->].
  destruct (references_at kept_references k []) as [_ ->]; [constructor|]. unfold seed_at. by destruct (last _).
Qed.

Lemma map_entries (m : Seeds) : bt_wf m -> (forall k, bt_get k m = seed_at k) ->
  NoDup (map (fun s => path_ord (seed_path s)) (map snd m))
  /\ forall s, s ∈ map snd m <-> seed_at (path_ord (seed_path s)) = Some s.
Proof.
  intros Hwf Hat.
  assert (forall k s, (k, s) ∈ m <-> seed_at k = Some s) as Hin by (intros k s; by rewrite <- Hat, (bt_get_In k s m Hwf)).
  split.
  - replace (map _ (map snd m)) with (map fst m).
    + unfold bt_wf in Hwf. induction Hwf as [|x l _ IH Hx]; constructor; [|done].
      intros Hin'. by apply (klt_irrefl x), (proj1 (Forall_forall _ _) Hx).
    + rewrite map_map. apply list_fmap_ext. intros i [k s] Hi. cbn.
      symmetry. apply seed_at_path, Hin. by apply list_elem_of_lookup; exists i.
  - intros s. rewrite <- Hin. rewrite list_elem_of_fmap. split.
    + intros ([k s'] & -> & Hk). cbn. by rewrite (seed_at_path k s') by by apply Hin.
    + intros Hs. by exists (path_ord (seed_path s), s).
Qed.

Lemma collect_input_spec result : collect = Ok result -> exists input, result = Some input /\
  referenced_paths input = kept_references /\
  change_scope input = (fun f => narrow_scope kept_changes f.1) <$> found /\
  NoDup (map (fun s => path_ord (seed_path s)) (seeds input)) /\
  (forall s, s ∈ seeds input <-> seed_at (path_ord (seed_path s)) = Some s) /\
  StronglySorted (fun a b => priority b <= priority a) (seeds input).
Proof.
  unfold collect_context_input. intros H. apply bind_Ok in H as (f & [= <-] & H). apply bind_Ok in H as (cs & Hcs & H).
  apply bind_Ok in H as (rs & Hrs & [= <-]). apply keep_allowed_spec in Hcs, Hrs.
  change (match found with Some (_, changes) => changes | None => [] end) with all_changes in Hcs.
  fold kept_changes in Hcs. fold kept_references in Hrs. subst cs rs.
  replace (match found with Some (scope, _) => Some (narrow_scope kept_changes scope) | None => None end ≫= base_commit) with base_of
    by (unfold base_of; by destruct found as [[]|]).
  destruct seeds_map_spec as [Hwf Hat]. set (m := foldl (insert_change base_of) _ _) in *.
  destruct (task_terms_total task) as [terms ->]. cbn [mbind option_bind].
  destruct (order_seeds_spec terms (map snd m)) as (l & -> & Hperm & Hsort). destruct (map_entries m Hwf Hat) as [Hnd Hin].
  eexists. split; [reflexivity|]. cbn [referenced_paths change_scope seeds]. split_and!; [done|by destruct found as [[]|]| | |done].
  - by rewrite Hperm.
  - intros s. by rewrite Hperm.
Qed.
End Facts.

(** C22. Collecting the input of a context never panics.  There is one seed for every
    selected file the task names or Git reports as changed (deleted files included), and
    no other: a file named in the task is seeded by its reference even when it changed
    too; named files come before changed ones; and the change scope that is shown counts
    exactly the changes that were selected. *)
Theorem context_seeds_exact {E : Type} show_line glob_matches scope_matches type_filter (allows : path -> Result E bool)
  is_file task found task_paths result
  (Hcollect : collect_context_input show_line glob_matches scope_matches type_filter allows is_file task (Ok found) task_paths
    = Ok result) :
  exists input, result = Some input /\
  change_scope input =
    (fun f => narrow_scope (kept_changes glob_matches scope_matches type_filter allows found) f.1) <$> found /\
  NoDup (map (fun s => path_ord (seed_path s)) (seeds input)) /\
  (forall s, s ∈ seeds input <->
    seed_at show_line glob_matches scope_matches type_filter allows is_file found task_paths (path_ord (seed_path s)) = Some s) /\
  StronglySorted (fun a b => priority b <= priority a) (seeds input).
Proof.
  destruct (collect_input_spec show_line glob_matches scope_matches type_filter allows is_file task found task_paths result Hcollect)
    as (input & Hr & _ & Hs & Hn & Hi & Ho). by exists input.
Qed.

(** A task that names [b.rs], which changed as [a.rs] did; [gone.rs] was deleted since the
    base [abc], and [new.rs] is excluded. *)
Definition example_changes : list ContextChange :=
  [MkChange (lit "a.rs") None Modified [Worktree]; MkChange (lit "b.rs") None Modified [Since; Worktree];
   MkChange (lit "gone.rs") None Deleted [Since]; MkChange (lit "new.rs") None Added [Untracked]].
Definition example_input : Result unit (option ContextInput) :=
  collect_context_input (fun _ => lit "12") (fun p => negb (bool_decide (p = lit "new.rs"))) None (Some (lit "rust"))
    (fun _ => Ok true) (fun p => negb (bool_decide (p = lit "gone.rs"))) (lit "fix gone in b.rs:12")
    (Ok (Some (MkScope (Some (lit "main")) (Some (lit "abc")) true 4 false example_changes, example_changes)))
    [MkInputPath (lit "b.rs") (Some 12%Z)].
Example input_example :
  (fun r => map (fun s => (seed_path s, priority s, git_revision s, source s)) (seeds r)) <$> unwrap_or None (ok example_input)
  = Some [(lit "b.rs", 3, None, lit "task_input"); (lit "gone.rs", 2, Some (lit "abc"), lit "git_deleted");
          (lit "a.rs", 2, None, lit "git_worktree")].
Proof. vm_compute. reflexivity. Qed.
Lemma context_seeds_exact_witness : exists result, example_input = Ok result /\ is_Some result.
Proof.
  destruct example_input as [result|] eqn:E; [|by vm_compute in E]. exists result. split; [done|].
  unfold example_input in E. by destruct (context_seeds_exact _ _ _ _ _ _ _ _ _ _ E) as (input & -> & _).
Defined.
