(* ===== verification/TaskPaths.v ===== *)
(** * Files a task names: [referenced_task_paths] of context_input.rs.

  Regular expressions find paths, with or without line numbers, in the text of a task;
  each is mapped to one file of the workspace where that is unambiguous.  What the
  expressions capture, the files on disk and the walker's list of source files are
  arguments. *)
From S2P Require Import Prelude Utf8 Decimal BTree Paths PathNames GitChanges.

(** ** Paths as written *)

(** Components of a path outside the workspace, joined; [..] is refused. *)
Fixpoint external_loop (drop_first_component : bool) (normalized : path) (cs : list Component) : option path :=
  match cs with
  | [] => Some normalized
  | Normal value :: cs =>
    if drop_first_component then external_loop false normalized cs
    else external_loop false (push normalized value) cs
  | (CurDir | RootDir) :: cs => external_loop drop_first_component normalized cs
  | ParentDir :: cs => None
  end.
Definition normalize_external_path (p : path) (drop_first_component : bool) : option path :=
  normalized ← external_loop drop_first_component [] (components p);
  if bool_decide (normalized = []) then None else Some (index_path_string normalized).

Definition MARKERS : list (list (list N)) :=
  [[lit "node_modules"]; [lit "site-packages"]; [lit "dist-packages"]; [lit ".cargo"; lit "registry"]; [lit "go"; lit "pkg"; lit "mod"]].

Definition is_suffix {A} `{EqDecision A} (suffix l : list A) : bool :=
  bool_decide (drop (length l - length suffix) l = suffix).

(** The last end, from the length down, of a marker. *)
Fixpoint package_start (cs : list (list N)) (n : nat) : option nat :=
  match n with
  | O => None
  | S m => if existsb (fun marker => is_suffix marker (take n cs)) MARKERS then Some n else package_start cs m
  end.
Definition third_party_remainder (p : path) : option path :=
  cs ← mapM (fun c => to_str (as_os_str c)) (components p);
  if bool_decide (head cs = Some (lit "rustc")) then Some []
  else
    start ← package_start cs (length cs);
    Some (foldl push [] (drop start cs)).

(** [Path::ends_with]. *)
Definition path_ends_with (p q : path) : bool := is_suffix (components q) (components p).
Definition depth (p : path) : nat := length (components p).
Definition path_eq (p q : path) : bool := bool_decide (path_ord p = path_ord q).

Section Resolve.
Context (root : path) (is_file : path -> bool) (workspace_files : list path).

Definition has_windows_drive (s : list N) : bool :=
  match s with
  | drive :: colon :: _ => (colon =? chr ":")%N && is_ascii_alphabetic drive
  | _ => false
  end.

(** A path relative to the workspace, and whether it was written as an external one. *)
Definition relative_task_path (raw_path : path) : option (path * bool) :=
  let is_absolute := starts_with [SEP] raw_path in
  let has_windows_drive := has_windows_drive raw_path in
  relative ←
    (if is_absolute then
       match path_strip_prefix raw_path root ≫= normalize_relative with
       | Some p => Some p
       | None => normalize_external_path raw_path false
       end
     else if has_windows_drive then normalize_external_path raw_path true
     else normalize_relative raw_path);
  Some (relative, is_absolute || has_windows_drive).

(** A file of the workspace that matches: the only one, or for an external path the one
    that matches the most components. *)
Definition find_file (relative : path) (external_path : bool) : option path :=
  let candidates :=
    filter (fun candidate =>
      (if external_path then path_ends_with relative candidate else path_ends_with candidate relative) = true)
      workspace_files in
  let candidates := if external_path then sort_by (fun a b => depth b <=? depth a) candidates else candidates in
  match candidates with
  | [] => None
  | [candidate] => Some candidate
  | candidate :: next :: _ =>
    if negb external_path || (depth next =? depth candidate) then None else Some candidate
  end.

(** [insert_task_path] up to the set it updates. *)
Definition resolve_task_path (raw_path : str) : option path :=
  let normalized_separators := replace_byte (chr "\") SEP (bytes raw_path) in
  '(relative, external_path) ← relative_task_path normalized_separators;
  '(relative, external_path) ←
    (if external_path && negb (is_file relative) then
       match third_party_remainder relative with
       | Some remainder => if depth remainder <? 2 then None else Some (remainder, false)
       | None => Some (relative, external_path)
       end
     else Some (relative, external_path));
  if is_file relative then Some relative else find_file relative external_path.

(** ** The set *)

Abbreviation Entry := (path * option Z)%type.
(** The derived order of pairs. *)
Definition entry_leb (a b : Entry) : bool :=
  match path_cmp a.1 b.1 with
  | Lt => true
  | Gt => false
  | Eq => match a.2, b.2 with
          | None, _ => true
          | Some _, None => false
          | Some x, Some y => (x <=? y)%Z
          end
  end.
Definition set_insert (x : Entry) (s : list Entry) : list Entry :=
  if existsb (fun y => path_eq x.1 y.1 && bool_decide (x.2 = y.2)) s then s else insert_by entry_leb x s.

Definition insert_task_path (paths : list Entry) (raw_path : str) (line : option Z) : list Entry :=
  let line := match line with Some line => if (0 <? line)%Z then Some line else None | None => None end in
  match resolve_task_path raw_path with
  | None => paths
  | Some relative =>
    let paths := filter (fun e => negb (path_eq e.1 relative) || is_some e.2 = true) paths in
    if existsb (fun e => path_eq e.1 relative && (bool_decide (e.2 = line) || is_some e.2)) paths then paths
    else set_insert (relative, line) paths
  end.

(** A capture: the path and the digits of the line, if the expression has them.  The four
    expressions with lines run first, then the one for bare paths. *)
Definition insert_capture (paths : list Entry) (capture : str * option str) : list Entry :=
  insert_task_path paths capture.1 (capture.2 ≫= parse_u64).
Definition referenced_task_paths (captures : list (str * option str)) : list Entry :=
  foldl insert_capture [] captures.
End Resolve.

(** * Every file a task names is listed once, with the first line given for it. *)

Definition entry_key (e : path * option Z) : list (list N) := path_ord e.1.
Definition listed (paths : list (path * option Z)) (k : list (list N)) (l : option Z) : Prop :=
  exists e, e ∈ paths /\ entry_key e = k /\ e.2 = l.
Definition distinct (paths : list (path * option Z)) : Prop := NoDup (map entry_key paths).

Lemma distinct_listed paths k l1 l2 : distinct paths -> listed paths k l1 -> listed paths k l2 -> l1 = l2.
Proof.
  intros Hd (e1 & H1 & K1 & <-) (e2 & H2 & K2 & <-). apply list_elem_of_lookup in H1 as [i Hi], H2 as [j Hj].
  assert (i = j) as ->; [|congruence]. apply (NoDup_lookup _ _ _ k Hd); rewrite list_lookup_fmap.
  - rewrite Hi. cbn. by rewrite K1.
  - rewrite Hj. cbn. by rewrite K2.
Qed.
Lemma distinct_filter (P : path * option Z -> Prop) `{forall e, Decision (P e)} paths :
  distinct paths -> distinct (filter P paths).
Proof.
  unfold distinct. induction paths as [|e paths IH]; [done|]. cbn [map]. intros [Hn Hd]%NoDup_cons. rewrite filter_cons.
  case_decide; [|by apply IH]. cbn [map]. constructor; [|by apply IH].
  intros (x & Ex & [_ Hx]%list_elem_of_filter)%list_elem_of_fmap. apply Hn, list_elem_of_fmap. by exists x.
Qed.

Lemma path_eq_true p q : path_eq p q = true <-> path_ord p = path_ord q.
Proof. apply bool_decide_eq_true. Qed.

(** The set after one path was resolved. *)
Definition add_path (paths : list (path * option Z)) (relative : path) (line : option Z) : list (path * option Z) :=
  let paths := filter (fun e => negb (path_eq e.1 relative) || is_some e.2 = true) paths in
  if existsb (fun e => path_eq e.1 relative && (bool_decide (e.2 = line) || is_some e.2)) paths then paths
  else set_insert (relative, line) paths.

Lemma kept_entry relative (e : path * option Z) :
  negb (path_eq e.1 relative) || is_some e.2 = true <-> entry_key e <> path_ord relative \/ is_Some e.2.
Proof.
  unfold entry_key. destruct (path_eq e.1 relative) eqn:E.
  - apply path_eq_true in E. cbn [negb orb]. destruct (e.2); cbn; split; try done; [by right; eexists|by intros [?|[? ?]]].
  - cbn [negb orb]. split; [|done]. intros _. left. rewrite <- path_eq_true, E. done.
Qed.

(** A line once found stays; otherwise the entry of the path is replaced. *)
Lemma add_path_found paths relative line l0 : distinct paths -> listed paths (path_ord relative) (Some l0) ->
  add_path paths relative line = paths.
Proof.
  intros Hd Hl. unfold add_path.
  assert (filter (fun e => negb (path_eq e.1 relative) || is_some e.2 = true) paths = paths) as ->.
  { apply filter_all, Forall_forall. intros e He. apply kept_entry. destruct (decide (entry_key e = path_ord relative)) as [Ke|]; [|by left].
    right. exists l0. apply (distinct_listed paths (path_ord relative)); [done|by exists e|done]. }
  destruct Hl as (e & He & Ke & El). rewrite (proj2 (existsb_exists _ _)); [done|]. exists e. split; [by apply list_elem_of_In|].
  apply andb_true_iff. split; [by apply path_eq_true|]. rewrite El. apply orb_true_r.
Qed.
Lemma add_path_new paths relative line : (forall l0, ~ listed paths (path_ord relative) (Some l0)) ->
  add_path paths relative line ≡ₚ (relative, line) :: filter (fun e => entry_key e <> path_ord relative) paths.
Proof.
  intros Hno. unfold add_path.
  assert (filter (fun e => negb (path_eq e.1 relative) || is_some e.2 = true) paths =
    filter (fun e => entry_key e <> path_ord relative) paths) as ->.
  { clear -Hno. induction paths as [|e paths IH]; [done|]. rewrite !filter_cons.
    assert (forall l0, ~ listed paths (path_ord relative) (Some l0)) as Hno'.
    { intros l0 (x & Hx & H). apply (Hno l0). exists x. split; [by right|done]. }
    rewrite IH by done. case_decide as H1; case_decide as H2; try done; exfalso.
    - apply kept_entry in H1 as [?|[l0 Hl0]]; [done|]. apply (Hno l0). exists e. split_and!; [left|done|done].
    - apply H1, kept_entry. by left. }
  set (kept := filter _ paths).
  assert (forall e, e ∈ kept -> path_eq e.1 relative = false) as Hk.
  { intros e [He _]%list_elem_of_filter. apply not_true_iff_false. by rewrite path_eq_true. }
  assert (forall f : path * option Z -> bool, existsb (fun e => path_eq e.1 relative && f e) kept = false) as Hex.
  { intros f. apply not_true_iff_false. intros (y & Hy%list_elem_of_In & [Hp _]%andb_true_iff)%existsb_exists. rewrite Hk in Hp; done. }
  rewrite Hex. unfold set_insert.
  assert (existsb (fun y => path_eq relative y.1 && bool_decide (line = y.2)) kept = false) as E; [|cbn [fst snd]; rewrite E; apply insert_by_perm].
  rewrite <- (Hex (fun y => bool_decide (line = y.2))). clear. induction kept as [|y l IH]; [done|]. cbn [existsb]. rewrite IH.
  by assert (path_eq relative y.1 = path_eq y.1 relative) as -> by (apply bool_decide_ext; split; intros E; symmetry; exact E).
Qed.

Lemma listed_cons e paths k l : listed (e :: paths) k l <-> (entry_key e = k /\ e.2 = l) \/ listed paths k l.
Proof.
  unfold listed. split.
  - intros (x & [->|Hx]%elem_of_cons & H); [by left|right; by exists x].
  - intros [H|(x & Hx & H)]; [exists e|exists x]; (split; [|done]); [left|by right].
Qed.
Lemma listed_perm paths paths' k l : paths ≡ₚ paths' -> listed paths k l <-> listed paths' k l.
Proof. intros Hp. unfold listed. by setoid_rewrite Hp. Qed.
Lemma listed_filter paths r k l :
  listed (filter (fun e => entry_key e <> r) paths) k l <-> k <> r /\ listed paths k l.
Proof.
  unfold listed. setoid_rewrite list_elem_of_filter. split.
  - intros (e & [He Hin] & <- & Hl). split; [done|by exists e].
  - intros (Hk & e & Hin & <- & Hl). by exists e.
Qed.

(** What a path keeps of the lines given for it, in order. *)
Definition best_line (lines : list (option Z)) : option (option Z) :=
  match lines with
  | [] => None
  | _ => Some (head (omap id lines))
  end.
Lemma best_line_snoc lines l : best_line (lines ++ [l]) =
  Some (match best_line lines with Some (Some l0) => Some l0 | _ => l end).
Proof.
  destruct lines as [|x lines]; [by destruct l|]. cbn [best_line app]. change (x :: lines ++ [l]) with ((x :: lines) ++ [l]).
  rewrite omap_app, head_app. destruct (head (omap id (x :: lines))); [done|]. by destruct l.
Qed.

Section Set_.
Context (root : path) (is_file : path -> bool) (workspace_files : list path).
Abbreviation resolve_task_path := (resolve_task_path root is_file workspace_files).
Abbreviation referenced := (referenced_task_paths root is_file workspace_files).

Definition line_of (capture : str * option str) : option Z :=
  match capture.2 ≫= parse_u64 with Some line => if (0 <? line)%Z then Some line else None | None => None end.
(** The lines given for the file with this key. *)
Definition lines_for (k : list (list N)) (captures : list (str * option str)) : list (option Z) :=
  omap (fun c => p ← resolve_task_path c.1; if bool_decide (path_ord p = k) then Some (line_of c) else None) captures.

Lemma insert_capture_eq paths c : insert_capture root is_file workspace_files paths c =
  match resolve_task_path c.1 with Some p => add_path paths p (line_of c) | None => paths end.
Proof. done. Qed.

Lemma referenced_spec captures : distinct (referenced captures) /\
  forall k l, listed (referenced captures) k l <-> best_line (lines_for k captures) = Some l.
Proof.
  induction captures as [|c captures [Hd IH]] using rev_ind.
  { split; [constructor|]. intros k l. split; [by intros (e & ?%elem_of_nil & _)|done]. }
  unfold referenced_task_paths in *. rewrite foldl_app. cbn [foldl]. rewrite insert_capture_eq. set (paths := foldl _ [] captures) in *.
  unfold lines_for. setoid_rewrite omap_app. cbn [omap list_omap].
  destruct (resolve_task_path c.1) as [p|]; cbn [mbind option_bind]; [|split; [done|]; intros k l; rewrite app_nil_r; apply IH].
  assert (forall k, path_ord p = k -> forall l0, listed paths k (Some l0) <-> best_line (lines_for k captures) = Some (Some l0)) as Hp
    by (intros k _ l0; apply IH).
  destruct (best_line (lines_for (path_ord p) captures)) as [[l0|]|] eqn:Eb.
  1: { rewrite (add_path_found _ _ _ l0) by (done || by apply IH). split; [done|]. intros k l. rewrite IH.
       case_bool_decide as Hk; [|by rewrite app_nil_r]. rewrite best_line_snoc. fold (lines_for k captures). subst k. by rewrite Eb. }
  all: assert (forall l0, ~ listed paths (path_ord p) (Some l0)) as Hno by (intros l0 Hl; apply IH in Hl; congruence).
  all: split;
    [ unfold distinct; rewrite (add_path_new _ _ _ Hno); constructor;
        [ intros (e & Ke & [He _]%list_elem_of_filter)%list_elem_of_fmap; by apply He | by apply distinct_filter ]
    | intros k l; rewrite (listed_perm _ _ k l (add_path_new paths p (line_of c) Hno)), listed_cons, listed_filter; cbn [fst snd];
      case_bool_decide as Hk;
        [ subst k; fold (lines_for (path_ord p) captures); rewrite best_line_snoc, Eb; naive_solver
        | rewrite app_nil_r, IH; fold (lines_for k captures); naive_solver ] ].
Qed.

(** ** Where the paths come from *)

Lemma find_file_in relative external p : find_file workspace_files relative external = Some p -> p ∈ workspace_files.
Proof.
  unfold find_file. set (cs := filter _ workspace_files). set (cs' := if external then _ else cs).
  assert (forall q, q ∈ cs' -> q ∈ workspace_files) as Hin.
  { intros q Hq. assert (q ∈ cs) as Hq'; [|by apply list_elem_of_filter in Hq' as [_ ?]].
    unfold cs' in Hq. destruct external; [|done]. by rewrite (sort_by_perm _ cs) in Hq. }
  destruct cs' as [|a [|b rest]]; [done|intros [= <-]; apply Hin; left|].
  destruct (_ || _); [done|]. intros [= <-]. apply Hin. left.
Qed.
(** A path written relative is never guessed: no other file of the workspace ends with it. *)
Lemma find_file_unique relative p q : find_file workspace_files relative false = Some p ->
  q ∈ workspace_files -> path_ends_with q relative = true -> q = p.
Proof.
  unfold find_file. set (cs := filter _ workspace_files). intros Hp Hq He.
  assert (q ∈ cs) as Hin by (by apply list_elem_of_filter). destruct cs as [|a [|b rest]]; [done| |done].
  injection Hp as ->. by apply list_elem_of_singleton in Hin.
Qed.
Lemma resolved_file raw p : resolve_task_path raw = Some p -> is_file p = true \/ p ∈ workspace_files.
Proof.
  unfold TaskPaths.resolve_task_path. intros ([rel ext] & _ & H)%bind_Some. apply bind_Some in H as ([rel' ext'] & _ & H).
  destruct (is_file rel') eqn:Ef; [injection H as <-; by left|]. right. by eapply find_file_in.
Qed.
Lemma add_path_in paths p line e : e ∈ add_path paths p line -> e ∈ paths \/ e.1 = p.
Proof.
  unfold add_path. set (kept := filter _ paths).
  assert (e ∈ kept -> e ∈ paths) as Hk by (by intros [_ ?]%list_elem_of_filter).
  destruct (existsb _ kept); [auto|]. unfold set_insert. destruct (existsb _ kept); [auto|].
  rewrite insert_by_perm. intros [->|?]%elem_of_cons; auto.
Qed.
Lemma referenced_files captures e : e ∈ referenced captures -> is_file e.1 = true \/ e.1 ∈ workspace_files.
Proof.
  induction captures as [|c captures IH] using rev_ind; [by intros ?%elem_of_nil|].
  unfold referenced_task_paths. rewrite foldl_app. cbn [foldl]. rewrite insert_capture_eq.
  destruct (resolve_task_path c.1) as [p|] eqn:Er; [|done]. intros [He| ->]%add_path_in; [by apply IH|by eapply resolved_file].
Qed.
End Set_.

(** Each file that a task names is listed once: with the first positive line number
    given for it anywhere in the task, or with none when none is given; and whatever is
    listed is a file on disk or one the walker found. *)
Theorem task_paths_exact root is_file workspace_files captures :
  NoDup (map entry_key (referenced_task_paths root is_file workspace_files captures))
  /\ (forall k l, listed (referenced_task_paths root is_file workspace_files captures) k l <->
        best_line (lines_for root is_file workspace_files k captures) = Some l)
  /\ (forall e, e ∈ referenced_task_paths root is_file workspace_files captures ->
        is_file e.1 = true \/ e.1 ∈ workspace_files).
Proof.
  destruct (referenced_spec root is_file workspace_files captures) as [Hd Hl].
  split_and!; [exact Hd|exact Hl|apply referenced_files].
Qed.

(** A traceback, a path with a line, a file name that two files have, and a frame of an
    installed package. *)
Example task_paths_example :
  referenced_task_paths (lit "/w") (fun p => bool_decide (p = lit "src/auth.rs"))
    [lit "src/auth.rs"; lit "app/views.py"; lit "a/util.rs"; lit "b/util.rs"]
    [(lit "src/auth.rs", Some (lit "42")); (lit "/usr/lib/site-packages/app/views.py", Some (lit "7"));
     (lit "util.rs", Some (lit "3")); (lit "src\auth.rs", Some (lit "50")); (lit "../secret.rs", None); (lit "views.py", None)]
  = [(lit "app/views.py", Some 7%Z); (lit "src/auth.rs", Some 42%Z)].
Proof. vm_compute. reflexivity. Qed.
