(* ===== verification/ConfinedFiles.v ===== *)
(** * Reads beneath a workspace root: workspace_file.rs on Linux.

  A file is opened by walking directory handles from the filesystem root, one [openat] a
  name, without following symlinks.  [Host] is what the kernel answers in a world that may
  change between any two calls; every call that opens something is an event, so a theorem
  can say how a handle was reached.  [RootHandle] keeps the handle of the workspace root
  for the operation it was created for. *)
From S2P Require Import Prelude Utf8 Paths PathNames Io.

(** [unsafe_path()] is [PermissionDenied]. *)
Inductive Error := UnsafePath | NulInPath | NotFound | OsError (code : Z).
Inductive Kind := Directory | RegularFile | OtherKind.

(** [directory_flags()]: [O_PATH|O_DIRECTORY|O_CLOEXEC|O_NOFOLLOW]; the flags of the last
    name: [O_RDONLY|O_NONBLOCK|O_CLOEXEC|O_NOFOLLOW].  Neither follows a symlink. *)
Inductive Flags := DirectoryFlags | FileFlags.

Section Files.
Context {W H : Type}.
Record Host := MkHost {
  open_slash : W -> Result Error H * W;
  openat : H -> list N -> Flags -> W -> Result Error H * W;
  fstat : H -> W -> Result Error Kind * W;
  access_ok : path -> W -> bool * W;
  read_to_end : H -> W -> Result Error (list N) * W
}.
Context (host : Host).

Inductive Event :=
| OpenedSlash (h : H)
| OpenedAt (directory : H) (name : list N) (flags : Flags) (h : H)
| Checked (h : H) (kind : Kind).
Abbreviation M A := (Io W Event (Result Error A)).

(** [?] on a fallible call. *)
Definition and_then {A B} (m : M A) (f : A -> M B) : M B :=
  r ← m; match r with Ok a => f a | Err e => mret (Err e) end.
Definition note {A} (m : M A) (event : A -> Event) : M A :=
  r ← m; match r with Ok a => tell (event a);; mret (Ok a) | Err e => mret (Err e) end.

(** ** One name at a time *)

Definition open_at (directory : H) (name : list N) (flags : Flags) : M H :=
  if bool_decide (0%N ∈ name) then mret (Err NulInPath)
  else note (ask (openat host directory name flags)) (OpenedAt directory name flags).

Fixpoint open_beneath (directory : H) (components : list (list N)) : M H :=
  match components with
  | [] => mret (Err UnsafePath)
  | [file_name] => open_at directory file_name FileFlags
  | name :: components => and_then (open_at directory name DirectoryFlags) (fun parent => open_beneath parent components)
  end.

(** The loop over the components of the root. *)
Fixpoint walk_root (directory : H) (cs : list Component) : M H :=
  match cs with
  | [] => mret (Ok directory)
  | RootDir :: cs => walk_root directory cs
  | Normal name :: cs => and_then (open_at directory name DirectoryFlags) (fun directory => walk_root directory cs)
  | (CurDir | ParentDir) :: _ => mret (Err UnsafePath)
  end.
Definition open_components (root : path) (names : list (list N)) : M H :=
  and_then (note (ask (open_slash host)) OpenedSlash) (fun slash =>
  and_then (walk_root slash (components root)) (fun directory =>
  match names with
  | [] => mret (Ok directory)
  | _ => open_beneath directory names
  end)).

Definition is_absolute (p : path) : bool := starts_with [SEP] p.

(** Names of [path] beneath [root]; every component must be a plain name. *)
Definition component_name (c : Component) : Result Error (list N) :=
  match c with Normal name => Ok name | _ => Err UnsafePath end.
Fixpoint component_names (cs : list Component) : Result Error (list (list N)) :=
  match cs with
  | [] => Ok []
  | c :: cs => name ← component_name c; names ← component_names cs; Ok (name :: names)
  end.
Definition relative_components (root p : path) : Result Error (list (list N)) :=
  relative ← (if is_absolute p then of_option UnsafePath (path_strip_prefix p root) else Ok p);
  names ← component_names (components relative);
  if bool_decide (names = []) then Err UnsafePath else Ok names.

Definition check_kind (wanted : Kind -> bool) (h : H) : M H :=
  and_then (ask (fstat host h)) (fun kind =>
  if wanted kind then tell (Checked h kind);; mret (Ok h) else mret (Err UnsafePath)).
Definition regular_file (h : H) : M H :=
  check_kind (fun k => match k with RegularFile => true | _ => false end) h.

Definition open_root (root : path) : M H :=
  if negb (is_absolute root) then mret (Err UnsafePath)
  else and_then (open_components root []) (check_kind (fun k => match k with Directory => true | _ => false end)).
Definition validate_root (root : path) : M unit := and_then (open_root root) (fun _ => mret (Ok tt)).

Definition open (root p : path) : M H :=
  if negb (is_absolute root) then mret (Err UnsafePath)
  else match relative_components root p with
       | Err e => mret (Err e)
       | Ok names => and_then (open_components root names) regular_file
       end.

(** ** A handle for one operation *)

(** [directory] is the [OnceLock]: not set yet, or whether the root validated. *)
Record RootHandle := MkRootHandle { root : path; directory : option (option H) }.
Definition new_handle (root : path) : RootHandle := MkRootHandle root None.

Definition get_or_init (handle : RootHandle) : Io W Event (option H * RootHandle) :=
  match directory handle with
  | Some d => mret (d, handle)
  | None => r ← open_root (root handle); mret (ok r, MkRootHandle (root handle) (Some (ok r)))
  end.
Definition handle_open (handle : RootHandle) (p : path) : Io W Event (Result Error H * RootHandle) :=
  '(d, handle) ← get_or_init handle;
  r ← (match d with
       | Some directory =>
         match relative_components (root handle) p with
         | Err e => mret (Err e)
         | Ok names => and_then (open_beneath directory names) regular_file
         end
       | None => open (root handle) p
       end);
  mret (r, handle).

(** The path for [access]: an absolute path as it is, else beneath the root. *)
Definition presence_name (root p : path) : path :=
  if is_absolute p then p
  else if ends_with [SEP] root then root ++ p else root ++ SEP :: p.
Definition path_is_present (handle : RootHandle) (p : path) : Io W Event bool :=
  let name := presence_name (root handle) p in
  if bool_decide (0%N ∈ name) then mret false else ask (access_ok host name).

(** Confirmed absence; a present path is never reported missing. *)
Definition is_missing (handle : RootHandle) (p : path) : Io W Event (bool * RootHandle) :=
  let relative := if is_absolute p then path_strip_prefix p (root handle) else Some p in
  let plain :=
    match relative with
    | Some relative =>
      negb (bool_decide (relative = []))
      && forallb (fun c => match c with Normal _ => true | _ => false end) (components relative)
    | None => false
    end in
  present ← (if bool_decide (directory handle = None) && is_absolute (root handle) && plain
             then path_is_present handle p else mret false);
  if (present : bool) then mret (false, handle)
  else
    '(r, handle) ← handle_open handle p;
    mret (match r with Err NotFound => true | _ => false end, handle).

Definition read (handle : RootHandle) (p : path) : Io W Event (Result Error (list N) * RootHandle) :=
  '(r, handle) ← handle_open handle p;
  bytes ← and_then (mret r) (fun h => ask (read_to_end host h));
  mret (bytes, handle).
Definition read_to_string (handle : RootHandle) (p : path) : Io W Event (Result Error str * RootHandle) :=
  '(r, handle) ← read handle p;
  mret (match r with Ok bytes => Ok (lossy_chars bytes) | Err e => Err e end, handle).
End Files.

(** * How a confined file was reached.

  Whatever the world does between calls, a handle that [open] returns was reached from the
  filesystem root by one [openat] a name, none of them following a symlink; a root handle
  walks only the names beneath the root, and as long as nothing changes its answers are
  those of [open]. *)

Section Facts.
Context {W H : Type} (host : Host (W := W) (H := H)).
Abbreviation Event := (@Event H).
Abbreviation M A := (Io W Event (Result Error A)).

Lemma post_and_then {A B} (m : M A) (f : A -> M B) (Q : Result Error B -> list Event -> Prop) :
  post m (fun r t => match r with Ok a => post (f a) (fun b t' => Q b (t ++ t')) | Err e => Q (Err e) t end) ->
  post (and_then m f) Q.
Proof.
  intros Hm. unfold and_then. apply post_bind. eapply post_weaken; [exact Hm|]. intros [a|e] t Ha; [done|].
  apply post_ret. by rewrite app_nil_r.
Qed.
Lemma post_note {A} (f : W -> Result Error A * W) (event : A -> Event) (Q : Result Error A -> list Event -> Prop) :
  (forall a, Q (Ok a) [event a]) -> (forall e, Q (Err e) []) -> post (note (ask f) event) Q.
Proof.
  intros Ho He. unfold note. apply post_bind, post_ask. intros [a|e].
  - apply post_bind, post_tell, post_ret. apply Ho.
  - apply post_ret, He.
Qed.

(** ** Walks *)

(** The events of opening directories by name, from a handle to a handle. *)
Inductive walk : H -> list Event -> list (list N) -> H -> Prop :=
| walk_done d : walk d [] [] d
| walk_into d name h t names h' :
    0%N ∉ name -> walk h t names h' -> walk d (OpenedAt d name DirectoryFlags h :: t) (name :: names) h'.
(** The last name is opened as a file. *)
Definition walk_file (d : H) (t : list Event) (names : list (list N)) (h : H) : Prop :=
  exists parent dirs name t', names = dirs ++ [name] /\ (0%N ∉ name)
    /\ t = t' ++ [OpenedAt parent name FileFlags h] /\ walk d t' dirs parent.

Lemma open_at_post d name flags : post (open_at host d name flags)
  (fun r t => forall h, r = Ok h -> (0%N ∉ name) /\ t = [OpenedAt d name flags h]).
Proof.
  unfold open_at. case_bool_decide; [by apply post_ret|]. apply post_note; [|done]. by intros h h' [= <-].
Qed.
Lemma open_beneath_post names : forall d, post (open_beneath host d names)
  (fun r t => forall h, r = Ok h -> walk_file d t names h).
Proof.
  induction names as [|name [|next names] IH]; intros d; cbn [open_beneath]; [by apply post_ret| |].
  - eapply post_weaken; [apply open_at_post|]. intros r t Hr h ->. destruct (Hr h eq_refl) as [Hn ->].
    exists d, [], name, []. split_and!; [done..|constructor].
  - apply post_and_then. eapply post_weaken; [apply open_at_post|]. intros [p|e] t Hp; [|done].
    destruct (Hp p eq_refl) as [Hn ->]. eapply post_weaken; [apply IH|]. intros r t Hr h Hh.
    destruct (Hr h Hh) as (parent & dirs & last & t' & E & Hl & -> & Hw).
    exists parent, (name :: dirs), last, (OpenedAt d name DirectoryFlags p :: t').
    split_and!; [by rewrite E|done|done|by constructor].
Qed.
Lemma walk_root_post cs : forall d, post (walk_root host d cs)
  (fun r t => forall h, r = Ok h -> exists names, walk d t names h /\ filter (fun c => c <> RootDir) cs = map Normal names).
Proof.
  induction cs as [|c cs IH]; intros d; cbn [walk_root].
  { apply post_ret. intros h [= <-]. exists []. split; [constructor|done]. }
  destruct c as [| | |name].
  - eapply post_weaken; [apply IH|]. intros r t Hr h Hh. destruct (Hr h Hh) as (names & Hw & E). exists names.
    split; [done|]. by rewrite filter_cons_False by (by intros []).
  - by apply post_ret.
  - by apply post_ret.
  - apply post_and_then. eapply post_weaken; [apply open_at_post|]. intros [p|e] t Hp; [|done].
    destruct (Hp p eq_refl) as [Hn ->]. eapply post_weaken; [apply IH|]. intros r t Hr h Hh.
    destruct (Hr h Hh) as (names & Hw & E). exists (name :: names). split; [by constructor|].
    by rewrite filter_cons_True, E.
Qed.

Lemma check_kind_post wanted h : post (check_kind host wanted h)
  (fun r t => forall h', r = Ok h' -> h' = h /\ exists kind, wanted kind = true /\ t = [Checked h kind]).
Proof.
  unfold check_kind. apply post_and_then, post_ask. intros [kind|e]; [|done]. cbn [app].
  destruct (wanted kind) eqn:E; [|by apply post_ret]. apply post_bind, post_tell, post_ret. intros h' [= <-].
  split; [done|]. by exists kind.
Qed.
Lemma regular_file_post h : post (regular_file host h)
  (fun r t => forall h', r = Ok h' -> h' = h /\ t = [Checked h RegularFile]).
Proof.
  eapply post_weaken; [apply check_kind_post|]. intros r t Hr h' Hh. destruct (Hr h' Hh) as (-> & [] & Hk & ->); done.
Qed.

Lemma open_components_post root names : post (open_components host root names)
  (fun r t => forall h, r = Ok h -> exists slash rs dir t1 t2, t = OpenedSlash slash :: t1 ++ t2
    /\ walk slash t1 rs dir /\ filter (fun c => c <> RootDir) (components root) = map Normal rs
    /\ (if bool_decide (names = []) then t2 = [] /\ h = dir else walk_file dir t2 names h)).
Proof.
  unfold open_components. apply post_and_then, post_note; [|done]. intros slash.
  apply post_and_then. eapply post_weaken; [apply walk_root_post|]. intros [dir|e] t1 Hdir; [|done].
  destruct (Hdir dir eq_refl) as (rs & Hw & E). destruct names as [|name names].
  - apply post_ret. intros h [= <-]. exists slash, rs, dir, t1, []. by rewrite app_nil_r.
  - eapply post_weaken; [apply open_beneath_post|]. intros r t2 Hr h Hh. exists slash, rs, dir, t1, t2.
    rewrite bool_decide_eq_false_2 by done. split_and!; [done|done|done|by apply Hr].
Qed.

(** The names of a path beneath a root are names. *)
Lemma component_names_eq cs names : component_names cs = Ok names -> cs = map Normal names.
Proof.
  revert names. induction cs as [|c cs IH]; intros names Hn; cbn [component_names] in Hn; [by injection Hn as <-|].
  apply bind_Ok in Hn as (name & Hc & Hn). apply bind_Ok in Hn as (ns & Hns & [= <-]). destruct c; try done.
  injection Hc as ->. cbn [map]. by rewrite (IH ns).
Qed.
Lemma relative_components_ok root p names : relative_components root p = Ok names -> names <> [] /\ Forall name_ok names.
Proof.
  unfold relative_components. intros Hr. apply bind_Ok in Hr as (rel & _ & Hr). apply bind_Ok in Hr as (ns & Hns & Hr).
  case_bool_decide; [done|]. injection Hr as <-. split; [done|]. apply component_names_eq in Hns.
  apply Forall_forall. intros n Hn. apply (components_names rel). rewrite Hns. apply list_elem_of_fmap. by exists n.
Qed.

(** How [open] reached a file. *)
Definition reached (root p : path) (t : list Event) (h : H) : Prop :=
  exists slash rs names dir t1 t2, is_absolute root = true
  /\ filter (fun c => c <> RootDir) (components root) = map Normal rs
  /\ relative_components root p = Ok names /\ names <> [] /\ Forall name_ok names
  /\ t = OpenedSlash slash :: t1 ++ t2 ++ [Checked h RegularFile] /\ walk slash t1 rs dir /\ walk_file dir t2 names h.

Lemma open_post root p : post (open host root p) (fun r t => forall h, r = Ok h -> reached root p t h).
Proof.
  unfold open. destruct (is_absolute root) eqn:Ea; [|by apply post_ret]. cbn [negb].
  destruct (relative_components root p) as [names|e] eqn:En; [|by apply post_ret].
  apply post_and_then. eapply post_weaken; [apply open_components_post|]. intros [h|e] t Hopen; [|done].
  destruct (Hopen h eq_refl) as (slash & rs & dir & t1 & t2 & -> & Hw & Hr & Hf).
  destruct (relative_components_ok _ _ _ En) as [Hne Hok]. rewrite bool_decide_eq_false_2 in Hf by done.
  eapply post_weaken; [apply regular_file_post|]. intros r t' Ht h' Hh. destruct (Ht h' Hh) as [-> ->].
  exists slash, rs, names, dir, t1, t2. split_and!; try done. cbn [app]. by rewrite <- app_assoc.
Qed.

(** How a handle whose root was opened reached a file. *)
Definition reached_beneath (root : path) (dir : H) (p : path) (t : list Event) (h : H) : Prop :=
  exists names t', relative_components root p = Ok names /\ names <> [] /\ Forall name_ok names
  /\ t = t' ++ [Checked h RegularFile] /\ walk_file dir t' names h.

Lemma handle_open_post root dir p : post (handle_open host (MkRootHandle root (Some (Some dir))) p)
  (fun r t => r.2 = MkRootHandle root (Some (Some dir)) /\ forall h, r.1 = Ok h -> reached_beneath root dir p t h).
Proof.
  unfold handle_open, get_or_init. cbn [directory]. apply post_bind, post_ret. cbn [app ConfinedFiles.root].
  apply post_bind. destruct (relative_components root p) as [names|e] eqn:En.
  2: { by apply post_ret, post_ret. }
  apply post_and_then. eapply post_weaken; [apply open_beneath_post|]. intros [h|e] t Hopen; [|by apply post_ret].
  eapply post_weaken; [apply regular_file_post|]. intros r t' Ht. apply post_ret. split; [done|]. cbn [fst]. intros h' ->.
  destruct (Ht h' eq_refl) as [-> ->]. destruct (relative_components_ok _ _ _ En). exists names, t.
  split_and!; try done; [|by apply Hopen]. by rewrite app_nil_r.
Qed.

(** ** A quiet world *)

(** Nothing changes while an operation runs. *)
Definition quiet (w : W) : Prop :=
  (open_slash host w).2 = w /\ (forall d name flags, (openat host d name flags w).2 = w) /\ (forall h, (fstat host h w).2 = w).
Definition value {A} (m : Io W Event A) (w : W) : A := (m w).1.1.
Definition still {A} (m : Io W Event A) (w : W) : Prop := (m w).2 = w.

Section Quiet.
Context (w : W) (Hquiet : quiet w).

Lemma still_ret {A} (a : A) : still (mret a) w.
Proof. done. Qed.
Lemma still_ask {A} (f : W -> A * W) : (f w).2 = w -> still (ask f) w.
Proof. unfold still, ask. by destruct (f w). Qed.
Lemma still_tell e : still (tell e) w.
Proof. done. Qed.
Lemma bind_still {A B} (m : Io W Event A) (f : A -> Io W Event B) : still m w ->
  value (m ≫= f) w = value (f (value m w)) w /\ (still (f (value m w)) w -> still (m ≫= f) w).
Proof.
  unfold still, value, mbind, io_bind. destruct (m w) as [[a t] w']. cbn [fst snd]. intros ->. by destruct (f a w) as [[b t'] w''].
Qed.
Lemma still_bind {A B} (m : Io W Event A) (f : A -> Io W Event B) : still m w -> (forall a, still (f a) w) -> still (m ≫= f) w.
Proof. intros Hm Hf. by apply bind_still. Qed.
Lemma value_bind {A B} (m : Io W Event A) (f : A -> Io W Event B) : still m w -> value (m ≫= f) w = value (f (value m w)) w.
Proof. intros Hm. by apply bind_still. Qed.
Lemma still_and_then {A B} (m : M A) (f : A -> M B) : still m w -> (forall a, still (f a) w) -> still (and_then m f) w.
Proof. intros Hm Hf. apply still_bind; [done|]. intros [a|e]; [apply Hf|done]. Qed.
Lemma value_and_then {A B} (m : M A) (f : A -> M B) : still m w ->
  value (and_then m f) w = match value m w with Ok a => value (f a) w | Err e => Err e end.
Proof. intros Hm. unfold and_then. rewrite value_bind by done. by destruct (value m w). Qed.
Lemma still_note {A} (m : M A) event : still m w -> still (note m event) w.
Proof. intros Hm. apply still_bind; [done|]. intros [a|e]; done. Qed.

Lemma still_open_at d name flags : still (open_at host d name flags) w.
Proof. unfold open_at. case_bool_decide; [done|]. apply still_note, still_ask. by destruct Hquiet as (_ & Ho & _). Qed.
Lemma still_open_beneath names : forall d, still (open_beneath host d names) w.
Proof.
  induction names as [|name [|next names] IH]; intros d; cbn [open_beneath]; [done|apply still_open_at|].
  apply still_and_then; [apply still_open_at|]. intros p. apply IH.
Qed.
Lemma still_walk_root cs : forall d, still (walk_root host d cs) w.
Proof.
  induction cs as [|[] cs IH]; intros d; cbn [walk_root]; [done|apply IH|done|done|].
  apply still_and_then; [apply still_open_at|]. intros p. apply IH.
Qed.
Lemma still_open_slash : still (note (ask (open_slash host)) OpenedSlash) w.
Proof. apply still_note, still_ask. by destruct Hquiet. Qed.
Lemma still_open_components root names : still (open_components host root names) w.
Proof.
  apply still_and_then; [apply still_open_slash|]. intros slash. apply still_and_then; [apply still_walk_root|].
  intros d. destruct names; [done|apply still_open_beneath].
Qed.
Lemma still_check_kind wanted h : still (check_kind host wanted h) w.
Proof.
  apply still_and_then; [apply still_ask; by destruct Hquiet as (_ & _ & Hf)|]. intros k. by destruct (wanted k).
Qed.
Lemma still_open_root root : still (open_root host root) w.
Proof.
  unfold open_root. destruct (negb _); [done|]. apply still_and_then; [apply still_open_components|]. intros h. apply still_check_kind.
Qed.
Lemma still_open root p : still (open host root p) w.
Proof.
  unfold open. destruct (negb _); [done|]. destruct (relative_components root p); [|done].
  apply still_and_then; [apply still_open_components|]. intros h. apply still_check_kind.
Qed.

(** Walking the root once gives what walking it for every file gives. *)
Lemma open_beneath_root root dir names : value (open_root host root) w = Ok dir -> names <> [] ->
  value (open_components host root names) w = value (open_beneath host dir names) w.
Proof.
  unfold open_root. destruct (negb _); [done|]. rewrite value_and_then by apply still_open_components.
  unfold open_components. rewrite !value_and_then by apply still_open_slash.
  destruct (value (note _ _) w) as [slash|]; [|done]. rewrite !value_and_then by apply still_walk_root.
  destruct (value (walk_root host slash (components root)) w) as [d|]; [|done]. cbn [value mret io_ret fst].
  destruct names as [|name names]; [done|]. unfold check_kind. rewrite value_and_then by (apply still_ask; by destruct Hquiet as (_ & _ & Hf)).
  change (value (mret (Ok d)) w) with (Ok (E := Error) d). cbn beta iota.
  destruct (value (ask (fstat host d)) w) as [k|]; [|done]. destruct k; [|done..]. by intros [= ->].
Qed.

Definition ready (root : path) (handle : RootHandle (H := H)) : Prop :=
  ConfinedFiles.root handle = root /\ (directory handle = None \/ directory handle = Some (ok (value (open_root host root) w))).

Lemma beneath_value root p : let d := ok (value (open_root host root) w) in
  let m : M H := match d with
           | Some directory =>
             match relative_components root p with
             | Ok names => and_then (open_beneath host directory names) (regular_file host)
             | Err e => mret (Err e)
             end
           | None => open host root p
           end in
  value m w = value (open host root p) w /\ still m w.
Proof.
  cbv zeta. destruct (value (open_root host root) w) as [dir|e] eqn:Er; cbn [ok]; [|split; [done|apply still_open]].
  assert (is_absolute root = true) as Ha by (unfold open_root in Er; by destruct (is_absolute root)).
  unfold open. rewrite Ha. cbn [negb]. destruct (relative_components root p) as [names|e] eqn:En; [|done].
  destruct (relative_components_ok _ _ _ En) as [Hne _]. split.
  - rewrite !value_and_then by (apply still_open_beneath || apply still_open_components).
    by rewrite (open_beneath_root _ _ _ Er Hne).
  - apply still_and_then; [apply still_open_beneath|]. intros h. apply still_check_kind.
Qed.

Lemma handle_open_value root handle p : ready root handle ->
  value (handle_open host handle p) w = (value (open host root p) w, MkRootHandle root (Some (ok (value (open_root host root) w))))
  /\ still (handle_open host handle p) w.
Proof.
  intros [Hroot Hd]. destruct handle as [r d]. cbn in Hroot, Hd. subst r.
  assert (still (get_or_init host (MkRootHandle root d)) w
    /\ value (get_or_init host (MkRootHandle root d)) w = (ok (value (open_root host root) w), MkRootHandle root (Some (ok (value (open_root host root) w)))))
    as [Hs Hv].
  { unfold get_or_init. cbn [directory ConfinedFiles.root]. destruct Hd as [-> | ->]; [|done].
    split; [apply still_bind; [apply still_open_root|done]|]. by rewrite value_bind by apply still_open_root. }
  destruct (beneath_value root p) as [Ev Es]. cbv zeta in Ev, Es. unfold handle_open. split.
  - rewrite value_bind, Hv by done. cbn beta iota. rewrite value_bind by exact Es. cbn [ConfinedFiles.root]. by rewrite Ev.
  - destruct (bind_still _ (fun '(d, handle) => r ← match d with
      | Some directory => match relative_components (ConfinedFiles.root handle) p with
                          | Ok names => and_then (open_beneath host directory names) (regular_file host)
                          | Err e => mret (Err e) end
      | None => open host (ConfinedFiles.root handle) p end; mret (r, handle)) Hs) as [_ Hst].
    apply Hst. rewrite Hv. cbn beta iota. by apply still_bind.
Qed.

(** The files of one operation, through one handle. *)
Fixpoint open_all (handle : RootHandle) (ps : list path) : Io W Event (list (Result Error H) * RootHandle) :=
  match ps with
  | [] => mret ([], handle)
  | p :: ps => '(r, handle) ← handle_open host handle p; '(rs, handle) ← open_all handle ps; mret (r :: rs, handle)
  end.
Lemma open_all_value root ps : forall handle, ready root handle ->
  (value (open_all handle ps) w).1 = map (fun p => value (open host root p) w) ps /\ still (open_all handle ps) w.
Proof.
  induction ps as [|p ps IH]; intros handle Hh; [done|]. cbn [open_all map]. destruct (handle_open_value root handle p Hh) as [Ev Es].
  set (handle' := MkRootHandle root (Some (ok (value (open_root host root) w)))) in *.
  destruct (IH handle') as [Ev' Es']; [split; [done|by right]|].
  pose proof (bind_still _ (fun '(r, handle) => '(rs, handle) ← open_all handle ps; mret (r :: rs, handle)) Es) as [E1 E2].
  rewrite E1, Ev in *. clear E1.
  pose proof (bind_still _ (fun '(rs, handle) => mret (value (open host root p) w :: rs, handle)) Es') as [E3 E4].
  split.
  - cbn beta iota. rewrite E3. destruct (value (open_all handle' ps) w) as [rs h']. cbn [fst] in *. by rewrite <- Ev'.
  - apply E2. cbn beta iota. apply E4. by destruct (value (open_all handle' ps) w).
Qed.
End Quiet.
End Facts.

(** C18. Confinement: whatever the world does between two calls, a handle that [open]
    returns was opened below the filesystem root by one [openat] a name, first the names of
    the workspace root, then plain names of the path beneath it, none through a symlink
    and none [..]; only the last as a file, and it was seen to be a regular file. *)
Theorem open_is_confined {W H : Type} (host : Host (W := W) (H := H)) root p :
  post (open host root p) (fun r t => forall h, r = Ok h -> reached root p t h).
Proof. apply open_post. Qed.

(** A root handle changes nothing but the number of calls: in a world that stays as it
    is for the operation, the answers for any list of paths are those of opening each path
    on its own, errors included. *)
Theorem root_handle_same_answers {W H : Type} (host : Host (W := W) (H := H)) (w : W) root ps (Hquiet : quiet host w) :
  (value (open_all host (new_handle root) ps) w).1 = map (fun p => value (open host root p) w) ps.
Proof. apply open_all_value; [done|]. split; [done|by left]. Qed.

(** ** A directory tree *)

(** [/w] holds the file [a], the directory [sub] with the file [b], and a symlink. *)
Inductive Inode := DirInode (entries : list (string * nat)) | FileInode | SymlinkInode.
Definition tree (h : nat) : Inode :=
  match h with
  | 0 => DirInode [("w", 1); ("etc", 4)]
  | 1 => DirInode [("a", 2); ("sub", 3); ("link", 5)]
  | 3 => DirInode [("b", 6)]
  | 4 => DirInode [("passwd", 7)]
  | 5 => SymlinkInode
  | _ => FileInode
  end.
Definition find_entry (entries : list (string * nat)) (name : list N) : option nat :=
  snd <$> head (filter (fun e => lit e.1 = name) entries).
(** [openat] with [O_NOFOLLOW]: [ELOOP] for a symlink opened as a file, [ENOTDIR] for what had
    to be a directory and is none. *)
Definition tree_openat (d : nat) (name : list N) (flags : Flags) : Result Error nat :=
  match tree d with
  | DirInode entries =>
    match find_entry entries name with
    | None => Err NotFound
    | Some h =>
      match tree h, flags with
      | SymlinkInode, FileFlags => Err (OsError 40)
      | (SymlinkInode | FileInode), DirectoryFlags => Err (OsError 20)
      | _, _ => Ok h
      end
    end
  | _ => Err (OsError 20)
  end.
Definition tree_kind (h : nat) : Kind :=
  match tree h with DirInode _ => Directory | FileInode => RegularFile | SymlinkInode => OtherKind end.
Definition tree_host : Host (W := unit) (H := nat) :=
  MkHost (fun w => (Ok 0, w)) (fun d n f w => (tree_openat d n f, w)) (fun h w => (Ok (tree_kind h), w))
    (fun _ w => (true, w)) (fun _ w => (Ok [], w)).

Definition example_reads : list path :=
  map lit ["a"; "sub/b"; "link"; "link/passwd"; "../etc/passwd"; "/etc/passwd"; "/w/sub/b"; "sub"; "none"]%string.
Lemma root_handle_same_answers_witness :
  (value (open_all tree_host (new_handle (lit "/w")) example_reads) ()).1
  = [Ok 2; Ok 6; Err (OsError 40); Err (OsError 20); Err UnsafePath; Err UnsafePath; Ok 6; Err UnsafePath; Err NotFound].
Proof.
  etrans; [apply (root_handle_same_answers tree_host () (lit "/w") example_reads)|by vm_compute]. by repeat split.
Defined.
