(* ===== verification/Leases.v ===== *)
(** * Leases on several workspaces: [acquire_workspace_leases] of daemon.rs.

  A request locks every workspace it touches, and the base index of each worktree, through
  the lock of ModeLock.v.  [plan] computes which leases, [System] runs any number of
  threads that acquire theirs one lock after another, each turn of a lock's loop being one
  step.  A thread may be cancelled while it waits, keeps what it holds until it is done,
  drops its leases one by one, and may then start again (as the retry with exclusive
  leases does). *)
From S2P Require Import Prelude BTree ModeLock.
Local Open Scope N_scope.

Abbreviation Id := (list N).

(** ** The plan *)

(** What a request sees of a workspace: its base is the id of the main worktree's
    workspace where that resolves; [ready] is [workspace_is_ready]. *)
Record Workspace := MkWorkspace {
  ws_id : Id;
  is_worktree : bool;
  unfinished : bool;
  base_unfinished : bool;
  base : option Id;
  ready : bool
}.

Abbreviation Requirements := (list (Id * bool)).

(** [entry(id).and_modify(|e| *e |= exclusive).or_insert(exclusive)] *)
Definition require (id : Id) (exclusive : bool) (m : Requirements) : Requirements :=
  bt_insert id (match bt_get id m with Some e => e || exclusive | None => exclusive end) m.

Section Plan.
Context (direct_exclusive unfinished_publication_exclusive : bool).

Definition base_of (w : Workspace) : option Id := if is_worktree w then base w else None.
Definition require_workspace (m : Requirements) (w : Workspace) : Requirements :=
  let requires_mutation :=
    direct_exclusive || (unfinished_publication_exclusive && (unfinished w || base_unfinished w)) in
  let m := require (ws_id w) requires_mutation m in
  match base_of w with
  | Some b => require b (direct_exclusive || negb (ready w)) m
  | None => m
  end.
(** The map is sorted by id before anything is acquired. *)
Definition plan (workspaces : list Workspace) : Requirements := foldl require_workspace [] workspaces.

(** Worktrees that rely on a shared lease of their base; [base_ids] keeps the last base
    recorded for an id. *)
Definition base_ids (workspaces : list Workspace) : list (Id * Id) :=
  foldl (fun m w => match base_of w with Some b => bt_insert (ws_id w) b m | None => m end) [] workspaces.
Definition shared_base_workspaces (workspaces : list Workspace) : list Workspace :=
  if direct_exclusive then []
  else filter (fun w => (b ← bt_get (ws_id w) (base_ids workspaces); bt_get b (plan workspaces)) = Some false) workspaces.
End Plan.

(** The plan, and the plan of the second attempt when a worktree that relied on its base
    is no longer ready once the leases are held. *)
Definition first_plan (direct unfinished : bool) (workspaces : list Workspace) : Requirements :=
  plan direct unfinished workspaces.
Definition retry_plan (direct : bool) (workspaces : list Workspace) (still_ready : Workspace -> bool)
  : option Requirements :=
  if existsb (fun w => negb (still_ready w)) (shared_base_workspaces direct false workspaces)
  then Some (plan true false workspaces) else None.

(** The plan of [try_acquire_search_leases_inline]: plain workspaces only. *)
Definition inline_plan (workspaces : list Workspace) : option Requirements :=
  if existsb (fun w => is_worktree w || unfinished w || base_unfinished w) workspaces then None
  else Some (foldl (fun m w => bt_insert (ws_id w) false m) [] workspaces).

(** ** Threads *)

Inductive Phase :=
| Awake
| AsleepShared (reservation : option N) (notified : bool)
| AsleepExclusive (notified : bool).

(** [want] is what is left of the plan; its head is the lock the thread is at. *)
Record Thread := MkThread {
  skip_gitignore : bool;
  held : list (Id * bool);
  want : Requirements;
  phase : Phase
}.

Definition set_phase (p : Phase) (t : Thread) : Thread := MkThread (skip_gitignore t) (held t) (want t) p.
Definition granted (t : Thread) : Thread :=
  match want t with
  | lease :: rest => MkThread (skip_gitignore t) (lease :: held t) rest Awake
  | [] => t
  end.
(** A cancelled acquisition: the leases taken so far are dropped next. *)
Definition gave_up (t : Thread) : Thread := MkThread (skip_gitignore t) (held t) [] Awake.

(** [notify_all] of the coordinator of [i]. *)
Definition wake (i : Id) (t : Thread) : Thread :=
  match want t with
  | (j, _) :: _ =>
    if decide (i = j) then
      match phase t with
      | AsleepShared r _ => set_phase (AsleepShared r true) t
      | AsleepExclusive _ => set_phase (AsleepExclusive true) t
      | Awake => t
      end
    else t
  | [] => t
  end.

Definition notify_threads (yes : bool) (i : Id) (l : list Thread) : list Thread := if yes then map (wake i) l else l.

Record System := MkSystem { states : Id -> State; threads : list Thread }.
Definition update (states : Id -> State) (i : Id) (st : State) : Id -> State :=
  fun j => if decide (i = j) then st else states j.
Definition initial_system : System := MkSystem (fun _ => default_state) [].

(** A turn at the lock [i] by the thread between [l1] and [l2]. *)
Definition after_turn {R} (s : System) (i : Id) (l1 l2 : list Thread) (t : Thread) (sleep : R -> Phase) (turn : Turn R)
  : System :=
  match turn with
  | Granted st => MkSystem (update (states s) i st) (l1 ++ granted t :: l2)
  | GaveUp n st =>
    MkSystem (update (states s) i st) (notify_threads n i l1 ++ gave_up t :: notify_threads n i l2)
  | Sleep r st => MkSystem (update (states s) i st) (l1 ++ set_phase (sleep r) t :: l2)
  end.

Definition after_drop (s : System) (i : Id) (l1 l2 : list Thread) (t : Thread) (dropped : bool * State) : System :=
  MkSystem (update (states s) i dropped.2) (notify_threads dropped.1 i l1 ++ t :: notify_threads dropped.1 i l2).

(** A lease that is taken at once or not at all. *)
Definition try_turn (mode : bool) (st : State) : Turn (option N) :=
  match try_acquire_shared mode st with Some st => Granted st | None => GaveUp false st end.

Definition ascending (m : Requirements) : Prop := StronglySorted klt (map fst m).

Inductive sys_step : System -> System -> Prop :=
| turn_shared s l1 t l2 i rest r cancelled :
    threads s = l1 ++ t :: l2 -> want t = (i, false) :: rest ->
    (phase t = Awake /\ r = None) \/ (exists notified, phase t = AsleepShared r notified) ->
    sys_step s (after_turn s i l1 l2 t (fun r => AsleepShared r false)
                  (shared_turn (skip_gitignore t) cancelled r (states s i)))
| turn_try s l1 t l2 i rest :
    threads s = l1 ++ t :: l2 -> want t = (i, false) :: rest -> phase t = Awake ->
    sys_step s (after_turn s i l1 l2 t (fun r => AsleepShared r false) (try_turn (skip_gitignore t) (states s i)))
| turn_exclusive_arrives s l1 t l2 i rest before cancelled :
    threads s = l1 ++ t :: l2 -> want t = (i, true) :: rest -> phase t = Awake ->
    sys_step s (after_turn s i l1 l2 t (fun _ => AsleepExclusive false)
                  (acquire_exclusive before cancelled (states s i)))
| turn_exclusive_wakes s l1 t l2 i rest notified cancelled :
    threads s = l1 ++ t :: l2 -> want t = (i, true) :: rest -> phase t = AsleepExclusive notified ->
    sys_step s (after_turn s i l1 l2 t (fun _ => AsleepExclusive false)
                  (exclusive_turn cancelled (states s i)))
| drop_one s l1 t l2 h1 i exclusive h2 :
    threads s = l1 ++ t :: l2 -> want t = [] -> held t = h1 ++ (i, exclusive) :: h2 ->
    sys_step s (after_drop s i l1 l2 (MkThread (skip_gitignore t) (h1 ++ h2) [] Awake) (drop_lease exclusive (states s i)))
| restart s l1 t l2 skip m :
    threads s = l1 ++ t :: l2 -> want t = [] -> held t = [] -> ascending m ->
    sys_step s (MkSystem (states s) (l1 ++ MkThread skip [] m Awake :: l2))
| arrive s skip m :
    ascending m -> sys_step s (MkSystem (states s) (MkThread skip [] m Awake :: threads s)).

Inductive sys_reachable : N -> System -> Prop :=
| sys_initial : sys_reachable 0 initial_system
| sys_next n s s' : sys_reachable n s -> sys_step s s' -> sys_reachable (n + 1) s'.

(** ** Progress *)

(** The thread runs with all the leases it asked for (or gave up and drops them), is about
    to take a turn, or sleeps although it was notified and its next turn will get the
    lease. *)
Definition turn_granted (st : State) (t : Thread) : Prop :=
  match phase t with
  | AsleepShared r _ => match shared_turn (skip_gitignore t) false r st with Granted _ => True | _ => False end
  | AsleepExclusive _ => match exclusive_turn false st with Granted _ => True | _ => False end
  | Awake => False
  end.
Definition was_notified (t : Thread) : Prop :=
  match phase t with AsleepShared _ b | AsleepExclusive b => b = true | Awake => False end.
Definition can_go_on (s : System) (t : Thread) : Prop :=
  match want t with
  | [] => held t <> []
  | (i, _) :: _ => phase t = Awake \/ (was_notified t /\ turn_granted (states s i) t)
  end.
