(* ===== verification/LeasesFacts.v ===== *)
(** * Threads that lock several workspaces never deadlock. *)
From S2P Require Import Prelude BTree ModeLock Leases.
Local Open Scope N_scope.

(** ** One lock of the system *)

Definition shared_of (i : Id) (t : Thread) : list bool :=
  map (fun _ => skip_gitignore t) (filter (fun h => h.1 = i /\ h.2 = false) (held t)).
Definition exclusive_of (i : Id) (t : Thread) : list (Id * bool) := filter (fun h => h.1 = i /\ h.2 = true) (held t).
Definition at_lock (i : Id) (t : Thread) : bool :=
  match want t with (j, _) :: _ => bool_decide (j = i) | [] => false end.
Definition sleeper_of (i : Id) (t : Thread) : list Sleeper :=
  match phase t with
  | AsleepShared r n => if at_lock i t then [MkSleeper (skip_gitignore t) r n] else []
  | _ => []
  end.
Definition exclusive_sleeper_of (i : Id) (t : Thread) : list bool :=
  match phase t with
  | AsleepExclusive n => if at_lock i t then [n] else []
  | _ => []
  end.

(** The lock of [i] and the threads at it, as ModeLock.v has them. *)
Definition lock_config (st : State) (i : Id) (ts : list Thread) : Config :=
  MkConfig st (ts ≫= shared_of i) (len (ts ≫= exclusive_of i)) (ts ≫= sleeper_of i) (ts ≫= exclusive_sleeper_of i).
Definition proj (i : Id) (s : System) : Config := lock_config (states s i) i (threads s).

(** The order of threads in a lock's lists does not matter. *)
Record same_config (c c' : Config) : Prop := {
  same_state : state c = state c';
  same_shared : shared_held c ≡ₚ shared_held c';
  same_exclusive : exclusive_held c = exclusive_held c';
  same_sleepers : shared_asleep c ≡ₚ shared_asleep c';
  same_exclusive_sleepers : exclusive_asleep c ≡ₚ exclusive_asleep c'
}.
#[export] Instance len_proper {A} : Proper (Permutation ==> eq) (len (A := A)).
Proof. intros l l' E. unfold len. by rewrite E. Qed.
Lemma inv_same n c c' : same_config c c' -> inv n c -> inv n c'.
Proof.
  intros [Es Eh Ee Ea Ex] ((H1 & H2 & H3 & H4) & (W1 & W2 & W3 & W4) & (K1 & K2) & Hn).
  rewrite Es in *. split; [|split; [|split; [|done]]].
  - unfold held_ok. rewrite <- Eh, <- Ee. done.
  - unfold waiters_ok, waiters_with. unfold live_count in *. rewrite <- Ex, <- Ea. done.
  - unfold wakes_ok. by rewrite <- Ea, <- Ex.
Qed.
Lemma inv_later n c : inv n c -> inv (n + 1) c.
Proof. intros (H1 & H2 & H3 & H4). split_and!; [done..|lia]. Qed.

(** ** What a step does to one lock *)

Lemma bind_notify {A} (f : Thread -> list A) (g : A -> A) yes i l : (forall t, f (wake i t) = map g (f t)) ->
  notify_threads yes i l ≫= f = (if yes then map g (l ≫= f) else l ≫= f).
Proof.
  intros Hf. unfold notify_threads. destruct yes; [|done]. induction l as [|t l IH]; [done|]. cbn [map].
  by rewrite !bind_cons, Hf, map_app, IH.
Qed.
Lemma bind_notify_id {A} (f : Thread -> list A) yes i l : (forall t, f (wake i t) = f t) ->
  notify_threads yes i l ≫= f = l ≫= f.
Proof.
  intros Hf. unfold notify_threads. destruct yes; [|done]. induction l as [|t l IH]; [done|]. cbn [map].
  by rewrite !bind_cons, Hf, IH.
Qed.
Lemma wake_fields i t : held (wake i t) = held t /\ want (wake i t) = want t /\ skip_gitignore (wake i t) = skip_gitignore t.
Proof. unfold wake. destruct (want t) as [|[j e] rest] eqn:E; [done|]. case_decide; [|done]. by destruct (phase t). Qed.
Lemma shared_of_wake i j t : shared_of j (wake i t) = shared_of j t.
Proof. unfold shared_of. by destruct (wake_fields i t) as (-> & _ & ->). Qed.
Lemma exclusive_of_wake i j t : exclusive_of j (wake i t) = exclusive_of j t.
Proof. unfold exclusive_of. by destruct (wake_fields i t) as (-> & _). Qed.
Lemma sleeper_of_wake i t :
  sleeper_of i (wake i t) = map (fun s => MkSleeper (sl_mode s) (sl_reservation s) true) (sleeper_of i t)
  /\ exclusive_sleeper_of i (wake i t) = map (fun _ => true) (exclusive_sleeper_of i t).
Proof.
  unfold sleeper_of, exclusive_sleeper_of, wake, at_lock. destruct (want t) as [|[j e] rest] eqn:E.
  - rewrite E. by destruct (phase t).
  - case_decide as Hij; [subst j|].
    + destruct (phase t) eqn:Ep; cbn [set_phase phase want]; rewrite ?Ep, ?E; by rewrite ?bool_decide_eq_true_2.
    + rewrite E, bool_decide_eq_false_2 by congruence. by destruct (phase t).
Qed.
Lemma sleeper_of_wake_other i j t : i <> j ->
  sleeper_of j (wake i t) = sleeper_of j t /\ exclusive_sleeper_of j (wake i t) = exclusive_sleeper_of j t.
Proof.
  intros Hij. unfold sleeper_of, exclusive_sleeper_of, wake, at_lock. destruct (want t) as [|[k e] rest] eqn:E; [by rewrite E|].
  case_decide as Hk; [subst k|by rewrite E].
  destruct (phase t) eqn:Ep; cbn [set_phase phase want]; rewrite ?Ep, ?E; by rewrite ?bool_decide_eq_false_2.
Qed.

Lemma states_same states i st : update states i st i = st.
Proof. unfold update. by rewrite decide_True. Qed.
Lemma states_other states i j st : i <> j -> update states i st j = states j.
Proof. intros H. unfold update. by rewrite decide_False. Qed.

(** The lists of a lock, with one thread singled out. *)
Lemma bind_split {A} (f : Thread -> list A) l1 t l2 : (l1 ++ t :: l2) ≫= f = (l1 ≫= f) ++ f t ++ (l2 ≫= f).
Proof. by rewrite bind_app, bind_cons. Qed.

Definition awake_at (t : Thread) : Prop := phase t = Awake.
Lemma awake_sleepers i t : phase t = Awake -> sleeper_of i t = [] /\ exclusive_sleeper_of i t = [].
Proof. unfold sleeper_of, exclusive_sleeper_of. by intros ->. Qed.
Lemma elsewhere_sleepers i j t e rest : want t = (i, e) :: rest -> i <> j -> sleeper_of j t = [] /\ exclusive_sleeper_of j t = [].
Proof.
  unfold sleeper_of, exclusive_sleeper_of, at_lock. intros -> H. rewrite bool_decide_eq_false_2 by done. by destruct (phase t).
Qed.
Lemma granted_held i e t rest j : want t = (i, e) :: rest ->
  shared_of j (granted t) = (if decide (i = j /\ e = false) then [skip_gitignore t] else []) ++ shared_of j t
  /\ exclusive_of j (granted t) = (if decide (i = j /\ e = true) then [(i, e)] else []) ++ exclusive_of j t
  /\ phase (granted t) = Awake.
Proof.
  intros E. unfold granted, shared_of, exclusive_of. rewrite E. cbn [held skip_gitignore phase]. rewrite !filter_cons. cbn [fst snd].
  split_and!; [|by case_decide|done]. by case_decide.
Qed.

(** At another lock nothing changes. *)
Lemma turn_elsewhere {R} s i j l1 l2 t e rest (sleep : R -> Phase) turn : i <> j ->
  threads s = l1 ++ t :: l2 -> want t = (i, e) :: rest ->
  same_config (proj j s) (proj j (after_turn s i l1 l2 t sleep turn)).
Proof.
  intros Hij Ht Hw. destruct (elsewhere_sleepers i j t e rest Hw Hij) as [Es Ex].
  destruct (granted_held i e t rest j Hw) as (Gs & Gx & Gp).
  rewrite decide_False in Gs by naive_solver. rewrite decide_False in Gx by naive_solver. destruct (awake_sleepers j (granted t) Gp) as [Gsl Gxl].
  assert (proj j (after_turn s i l1 l2 t sleep turn) = proj j s) as ->; [|by constructor].
  unfold proj, lock_config, after_turn. rewrite Ht. destruct turn as [st|n st|r st]; cbn [states threads];
    rewrite states_other by done; rewrite !bind_split.
  - by rewrite Gs, Gx, Gsl, Gxl, Es, Ex.
  - rewrite !(bind_notify_id (shared_of j)) by apply shared_of_wake. rewrite !(bind_notify_id (exclusive_of j)) by apply exclusive_of_wake.
    rewrite !(bind_notify_id (sleeper_of j)) by (intros u; by apply sleeper_of_wake_other).
    rewrite !(bind_notify_id (exclusive_sleeper_of j)) by (intros u; by apply sleeper_of_wake_other). by rewrite Es, Ex.
  - assert (sleeper_of j (set_phase (sleep r) t) = [] /\ exclusive_sleeper_of j (set_phase (sleep r) t) = []) as [-> ->]
      by (apply (elsewhere_sleepers i j _ e rest); done). by rewrite Es, Ex.
Qed.

(** At its own lock a thread takes the turn of ModeLock.v. *)
Section Turn.
Context (s : System) (i : Id) (l1 l2 : list Thread) (t : Thread) (rest : Requirements).
Context (Ht : threads s = l1 ++ t :: l2).

(** The lock without the thread among the sleepers. *)
Definition without : Config :=
  MkConfig (states s i) (threads s ≫= shared_of i) (len (threads s ≫= exclusive_of i))
    ((l1 ≫= sleeper_of i) ++ (l2 ≫= sleeper_of i)) ((l1 ≫= exclusive_sleeper_of i) ++ (l2 ≫= exclusive_sleeper_of i)).

Lemma gave_up_proj n st : same_config (notify n (MkConfig st (shared_held without) (exclusive_held without)
    (shared_asleep without) (exclusive_asleep without)))
  (lock_config st i (notify_threads n i l1 ++ gave_up t :: notify_threads n i l2)).
Proof.
  assert (sleeper_of i (gave_up t) = [] /\ exclusive_sleeper_of i (gave_up t) = []) as [E1 E2] by by apply awake_sleepers.
  unfold lock_config. rewrite !bind_split, E1, E2.
  rewrite !(bind_notify_id (shared_of i)) by apply shared_of_wake. rewrite !(bind_notify_id (exclusive_of i)) by apply exclusive_of_wake.
  rewrite !(bind_notify (sleeper_of i) (fun s => MkSleeper (sl_mode s) (sl_reservation s) true)) by apply sleeper_of_wake.
  rewrite !(bind_notify (exclusive_sleeper_of i) (fun _ => true)) by apply sleeper_of_wake.
  unfold without. rewrite Ht, !bind_split. destruct n; cbn [notify app]; constructor;
    cbn [state shared_held exclusive_held shared_asleep exclusive_asleep]; try done; by rewrite map_app.
Qed.

Lemma shared_turn_proj (turn : Turn (option N)) : want t = (i, false) :: rest ->
  same_config
    (match turn with
     | Granted st => MkConfig st (skip_gitignore t :: shared_held without) (exclusive_held without) (shared_asleep without) (exclusive_asleep without)
     | GaveUp n st => notify n (MkConfig st (shared_held without) (exclusive_held without) (shared_asleep without) (exclusive_asleep without))
     | Sleep r st => MkConfig st (shared_held without) (exclusive_held without) (MkSleeper (skip_gitignore t) r false :: shared_asleep without) (exclusive_asleep without)
     end)
    (proj i (after_turn s i l1 l2 t (fun r => AsleepShared r false) turn)).
Proof.
  intros Hw. unfold proj, after_turn. destruct turn as [st|n st|r st]; cbn [states threads]; rewrite states_same; [|by apply gave_up_proj|].
  - destruct (granted_held i false t rest i Hw) as (Gs & Gx & Gp). destruct (awake_sleepers i _ Gp) as [Es Ex].
    rewrite decide_True in Gs by done. rewrite decide_False in Gx by naive_solver.
    unfold lock_config, without. rewrite Ht, !bind_split, Gs, Gx, Es, Ex.
    constructor; cbn [state shared_held exclusive_held shared_asleep exclusive_asleep app]; try done. by rewrite Permutation_middle.
  - unfold lock_config, without. rewrite Ht, !bind_split.
    assert (sleeper_of i (set_phase (AsleepShared r false) t) = [MkSleeper (skip_gitignore t) r false]
      /\ exclusive_sleeper_of i (set_phase (AsleepShared r false) t) = []) as [-> ->].
    { unfold sleeper_of, exclusive_sleeper_of, at_lock. cbn [set_phase phase want skip_gitignore]. rewrite Hw.
      by rewrite bool_decide_eq_true_2. }
    constructor; cbn [state shared_held exclusive_held shared_asleep exclusive_asleep app]; try done. by rewrite Permutation_middle.
Qed.

Lemma exclusive_turn_proj (turn : Turn unit) : want t = (i, true) :: rest ->
  same_config
    (match turn with
     | Granted st => MkConfig st (shared_held without) (exclusive_held without + 1) (shared_asleep without) (exclusive_asleep without)
     | GaveUp n st => notify n (MkConfig st (shared_held without) (exclusive_held without) (shared_asleep without) (exclusive_asleep without))
     | Sleep _ st => MkConfig st (shared_held without) (exclusive_held without) (shared_asleep without) (false :: exclusive_asleep without)
     end)
    (proj i (after_turn s i l1 l2 t (fun _ => AsleepExclusive false) turn)).
Proof.
  intros Hw. unfold proj, after_turn. destruct turn as [st|n st|r st]; cbn [states threads]; rewrite states_same; [|by apply gave_up_proj|].
  - destruct (granted_held i true t rest i Hw) as (Gs & Gx & Gp). destruct (awake_sleepers i _ Gp) as [Es Ex].
    rewrite decide_True in Gx by done. rewrite decide_False in Gs by naive_solver.
    unfold lock_config, without. rewrite Ht, !bind_split, Gs, Gx, Es, Ex.
    constructor; cbn [state shared_held exclusive_held shared_asleep exclusive_asleep app]; try done.
    rewrite !len_app, len_cons, len_app. lia.
  - unfold lock_config, without. rewrite Ht, !bind_split.
    assert (sleeper_of i (set_phase (AsleepExclusive false) t) = [] /\ exclusive_sleeper_of i (set_phase (AsleepExclusive false) t) = [false]) as [-> ->].
    { unfold sleeper_of, exclusive_sleeper_of, at_lock. cbn [set_phase phase want skip_gitignore]. rewrite Hw.
      by rewrite bool_decide_eq_true_2. }
    constructor; cbn [state shared_held exclusive_held shared_asleep exclusive_asleep app]; try done. by rewrite Permutation_middle.
Qed.
End Turn.

(** ** The invariant *)

(** A thread holds locks below those it still wants, and sleeps at the one it wants next. *)
Record thread_ok (t : Thread) : Prop := {
  want_ascending : ascending (want t);
  held_below : Forall (fun h => Forall (fun w => klt h.1 w.1) (want t)) (held t);
  phase_ok : match phase t with
             | Awake => True
             | AsleepShared _ _ => exists i rest, want t = (i, false) :: rest
             | AsleepExclusive _ => exists i rest, want t = (i, true) :: rest
             end
}.
Lemma fresh_ok skip m : ascending m -> thread_ok (MkThread skip [] m Awake).
Proof. by constructor. Qed.
Lemma done_ok skip h : thread_ok (MkThread skip h [] Awake).
Proof. constructor; cbn; [constructor| |done]. apply Forall_forall. intros ? _. constructor. Qed.
Lemma granted_ok t : thread_ok t -> thread_ok (granted t).
Proof.
  intros [Ha Hb Hp]. unfold granted. destruct (want t) as [|[i e] rest] eqn:E; [constructor; by rewrite ?E|].
  unfold ascending in Ha. cbn [map fst] in Ha. inversion Ha as [|? ? Hs Hlt]; subst. constructor; cbn [want held phase]; [done| |done].
  constructor; [exact (proj1 (Forall_fmap _ _ _) Hlt)|]. eapply Forall_impl; [exact Hb|]. intros h Hh. by inversion Hh.
Qed.
Lemma wake_ok i t : thread_ok t -> thread_ok (wake i t).
Proof.
  intros [Ha Hb Hp]. destruct (wake_fields i t) as (Eh & Ew & _). constructor; [by rewrite Ew|by rewrite Ew, Eh|]. rewrite Ew.
  unfold wake. destruct (want t) as [|[j e] rest]; [done|]. case_decide; [|done]. by destruct (phase t) eqn:Ep; cbn [set_phase phase]; rewrite ?Ep.
Qed.
Lemma notify_ok yes i l : Forall thread_ok l -> Forall thread_ok (notify_threads yes i l).
Proof. intros H. destruct yes; [|done]. apply Forall_map. eapply Forall_impl; [exact H|]. intros t. apply wake_ok. Qed.

Lemma after_turn_ok {R} s i l1 l2 t (sleep : R -> Phase) turn :
  Forall thread_ok (l1 ++ t :: l2) -> (forall r, thread_ok (set_phase (sleep r) t)) ->
  Forall thread_ok (threads (after_turn s i l1 l2 t sleep turn)).
Proof.
  rewrite Forall_app, Forall_cons. intros (H1 & H & H2) Hs.
  destruct turn as [st|n st|r st]; cbn [after_turn threads]; rewrite Forall_app, Forall_cons.
  - split_and!; [done|by apply granted_ok|done].
  - split_and!; [by apply notify_ok|apply done_ok|by apply notify_ok].
  - by split_and!.
Qed.
Lemma step_threads_ok s s' : sys_step s s' -> Forall thread_ok (threads s) -> Forall thread_ok (threads s').
Proof.
  intros Hst. destruct Hst as [s l1 t l2 i rest r cancelled Ht Hw Hp|s l1 t l2 i rest Ht Hw Hp|s l1 t l2 i rest before cancelled Ht Hw Hp
    |s l1 t l2 i rest notified cancelled Ht Hw Hp|s l1 t l2 h1 i exclusive h2 Ht Hw Hh|s l1 t l2 skip m Ht Hw Hh Hm|s skip m Hm];
    intros Hok; try rewrite Ht in Hok.
  1,2,3,4: assert (thread_ok t) as [Ha Hb _] by (apply Forall_app in Hok as [_ Hok]; by inversion Hok);
    apply after_turn_ok; [done|]; intros ?; constructor; [done..|]; cbn; eauto.
  - cbn [after_drop threads]. apply Forall_app in Hok as [H1 [_ H2]%Forall_cons].
    apply Forall_app. split; [by apply notify_ok|]. constructor; [apply done_ok|by apply notify_ok].
  - cbn [threads]. apply Forall_app in Hok as [H1 [_ H2]%Forall_cons]. apply Forall_app. split; [done|]. constructor; [by apply fresh_ok|done].
  - cbn [threads]. constructor; [by apply fresh_ok|done].
Qed.

(** Dropping a lease, at its lock and elsewhere. *)
Lemma drop_proj s i l1 t l2 h1 e h2 j n : threads s = l1 ++ t :: l2 -> want t = [] -> held t = h1 ++ (i, e) :: h2 ->
  thread_ok t -> n + 1 < 2 ^ 64 -> inv n (proj j s) ->
  inv (n + 1) (proj j (after_drop s i l1 l2 (MkThread (skip_gitignore t) (h1 ++ h2) [] Awake) (drop_lease e (states s i)))).
Proof.
  intros Ht Hw Hh [_ _ Hp] Hn Hinv.
  assert (phase t = Awake) as Ep by (destruct (phase t); [done|destruct Hp as (? & ? & ?); congruence..]).
  set (t' := MkThread _ _ _ _).
  destruct (awake_sleepers j t Ep) as [Es Ex]. destruct (awake_sleepers j t' eq_refl) as [Es' Ex'].
  set (dropped := drop_lease e (states s i)).
  assert (forall k, shared_of k t ≡ₚ (if decide (i = k /\ e = false) then [skip_gitignore t] else []) ++ shared_of k t') as Gs.
  { intros k. unfold shared_of, t'. cbn [held skip_gitignore]. rewrite Hh, !filter_app, filter_cons. cbn [fst snd].
    repeat case_decide; try tauto; try done; rewrite !map_app; cbn [map app]; by rewrite Permutation_middle. }
  assert (forall k, exclusive_of k t ≡ₚ (if decide (i = k /\ e = true) then [(i, e)] else []) ++ exclusive_of k t') as Gx.
  { intros k. unfold exclusive_of, t'. cbn [held]. rewrite Hh, !filter_app, filter_cons. cbn [fst snd].
    repeat case_decide; try tauto; try done; cbn [app]; by rewrite Permutation_middle. }
  unfold proj, lock_config, after_drop in *. cbn [states threads] in *. rewrite Ht, !bind_split, Es, Ex in Hinv. rewrite !bind_split, Es', Ex'.
  rewrite !(bind_notify_id (shared_of j)) by apply shared_of_wake. rewrite !(bind_notify_id (exclusive_of j)) by apply exclusive_of_wake.
  destruct (decide (i = j)) as [<-|Hij].
  - rewrite states_same.
    rewrite !(bind_notify (sleeper_of i) (fun s => MkSleeper (sl_mode s) (sl_reservation s) true)) by apply sleeper_of_wake.
    rewrite !(bind_notify (exclusive_sleeper_of i) (fun _ => true)) by apply sleeper_of_wake. 
    set (sl := (l1 ≫= sleeper_of i) ++ (l2 ≫= sleeper_of i)). set (xs := (l1 ≫= exclusive_sleeper_of i) ++ (l2 ≫= exclusive_sleeper_of i)).
    specialize (Gs i). specialize (Gx i). destruct e.
    + rewrite decide_False in Gs by naive_solver. rewrite decide_True in Gx by done. cbn [app] in Gs, Gx.
      set (c := MkConfig (states s i) ((l1 ≫= shared_of i) ++ shared_of i t' ++ (l2 ≫= shared_of i))
                  (len ((l1 ≫= exclusive_of i) ++ exclusive_of i t' ++ (l2 ≫= exclusive_of i)) + 1) sl xs).
      assert (inv n c) as Hc.
      { eapply inv_same; [|exact Hinv]. constructor; cbn [c state shared_held exclusive_held shared_asleep exclusive_asleep]; try done.
        - by rewrite Gs.
        - rewrite Gx. rewrite !len_app, len_cons. lia. }
      assert (0 < exclusive_held c) as Hpos by (cbn [c exclusive_held]; lia).
      eapply inv_same; [|exact (step_lock_inv n c _ Hc Hn (step_drop_exclusive c Hpos))].
      unfold dropped, drop_lease. cbn [fst snd]. constructor; cbn [c notify state shared_held exclusive_held shared_asleep exclusive_asleep app];
        [done|done|lia|by unfold sl; rewrite map_app|by unfold xs; rewrite map_app].
    + rewrite decide_True in Gs by done. rewrite decide_False in Gx by naive_solver. cbn [app] in Gs, Gx.
      set (c := MkConfig (states s i) (skip_gitignore t :: (l1 ≫= shared_of i) ++ shared_of i t' ++ (l2 ≫= shared_of i))
                  (len ((l1 ≫= exclusive_of i) ++ exclusive_of i t' ++ (l2 ≫= exclusive_of i))) sl xs).
      assert (inv n c) as Hc.
      { eapply inv_same; [|exact Hinv]. constructor; cbn [c state shared_held exclusive_held shared_asleep exclusive_asleep]; try done.
        - rewrite Gs. cbn [app]. by rewrite <- Permutation_middle.
        - by rewrite Gx. }
      eapply inv_same; [|exact (step_lock_inv n c _ Hc Hn (step_drop_shared c [] (skip_gitignore t) _ eq_refl))].
      unfold dropped, drop_lease. cbn [c state snd fst]. destruct (active_leases (states s i) - 1 =? 0);
        constructor; cbn [c notify state shared_held exclusive_held shared_asleep exclusive_asleep app fst snd];
        try done; [by unfold sl; rewrite map_app|by unfold xs; rewrite map_app].
  - rewrite states_other by done. apply inv_later. eapply inv_same; [|exact Hinv].
    specialize (Gs j). specialize (Gx j). rewrite decide_False in Gs by naive_solver. rewrite decide_False in Gx by naive_solver. cbn [app] in Gs, Gx.
    rewrite !(bind_notify_id (sleeper_of j)) by (intros u; by apply sleeper_of_wake_other).
    rewrite !(bind_notify_id (exclusive_sleeper_of j)) by (intros u; by apply sleeper_of_wake_other).
    constructor; cbn [state shared_held exclusive_held shared_asleep exclusive_asleep]; try done; by rewrite ?Gs, ?Gx.
Qed.

(** A turn at a lock: the invariant of ModeLock.v carries over. *)
Lemma turn_inv {R} s i j l1 l2 t e rest n (sleep : R -> Phase) turn c :
  threads s = l1 ++ t :: l2 -> want t = (i, e) :: rest -> inv n (proj j s) ->
  (inv n (proj i s) -> inv (n + 1) c) -> same_config c (proj i (after_turn s i l1 l2 t sleep turn)) ->
  inv (n + 1) (proj j (after_turn s i l1 l2 t sleep turn)).
Proof.
  intros Ht Hw Hinv Hc Hsame. destruct (decide (i = j)) as [<-|Hij].
  - eapply inv_same; [exact Hsame|]. by apply Hc.
  - apply inv_later. eapply inv_same; [by eapply turn_elsewhere|done].
Qed.

Lemma at_lock_head i t e rest : want t = (i, e) :: rest -> at_lock i t = true.
Proof. unfold at_lock. intros ->. by rewrite bool_decide_eq_true_2. Qed.
(** The lock of a thread that is awake, and of one that sleeps. *)
Lemma proj_awake s i l1 t l2 : threads s = l1 ++ t :: l2 -> phase t = Awake -> proj i s = without s i l1 l2.
Proof.
  intros Ht Ep. destruct (awake_sleepers i t Ep) as [Es Ex]. unfold proj, lock_config, without.
  by rewrite Ht, !(bind_split _ l1 t l2), Es, Ex.
Qed.
Lemma proj_asleep_shared s i l1 t l2 rest r notified : threads s = l1 ++ t :: l2 -> want t = (i, false) :: rest ->
  phase t = AsleepShared r notified ->
  shared_asleep (proj i s) = (l1 ≫= sleeper_of i) ++ MkSleeper (skip_gitignore t) r notified :: (l2 ≫= sleeper_of i)
  /\ with_shared_asleep ((l1 ≫= sleeper_of i) ++ (l2 ≫= sleeper_of i)) (proj i s) = without s i l1 l2.
Proof.
  intros Ht Hw Ep. assert (sleeper_of i t = [MkSleeper (skip_gitignore t) r notified] /\ exclusive_sleeper_of i t = []) as [Es Ex].
  { unfold sleeper_of, exclusive_sleeper_of. by rewrite Ep, (at_lock_head i t false rest). }
  unfold with_shared_asleep, proj, lock_config, without. cbn [state shared_held exclusive_held shared_asleep exclusive_asleep].
  by rewrite Ht, !(bind_split _ l1 t l2), Es, Ex.
Qed.
Lemma proj_asleep_exclusive s i l1 t l2 rest notified : threads s = l1 ++ t :: l2 -> want t = (i, true) :: rest ->
  phase t = AsleepExclusive notified ->
  exclusive_asleep (proj i s) = (l1 ≫= exclusive_sleeper_of i) ++ notified :: (l2 ≫= exclusive_sleeper_of i)
  /\ with_exclusive_asleep ((l1 ≫= exclusive_sleeper_of i) ++ (l2 ≫= exclusive_sleeper_of i)) (proj i s) = without s i l1 l2.
Proof.
  intros Ht Hw Ep. assert (sleeper_of i t = [] /\ exclusive_sleeper_of i t = [notified]) as [Es Ex].
  { unfold sleeper_of, exclusive_sleeper_of. by rewrite Ep, (at_lock_head i t true rest). }
  unfold with_exclusive_asleep, proj, lock_config, without. cbn [state shared_held exclusive_held shared_asleep exclusive_asleep].
  by rewrite Ht, !(bind_split _ l1 t l2), Es, Ex.
Qed.

(** The turn of a sleeping or arriving thread, as a step of its lock. *)
Lemma shared_wake_step s i l1 t l2 rest r cancelled : threads s = l1 ++ t :: l2 -> want t = (i, false) :: rest ->
  (phase t = Awake /\ r = None) \/ (exists notified, phase t = AsleepShared r notified) ->
  step (proj i s) (run_shared (skip_gitignore t) cancelled r (without s i l1 l2)).
Proof.
  intros Ht Hw [[Ep ->]|[notified Ep]].
  - rewrite (proj_awake s i l1 t l2) by done. apply step_shared_arrives.
  - destruct (proj_asleep_shared s i l1 t l2 rest r notified) as [Ea <-]; [done..|].
    exact (step_shared_wakes _ _ _ _ cancelled Ea).
Qed.
Lemma exclusive_wake_step s i l1 t l2 rest notified cancelled : threads s = l1 ++ t :: l2 -> want t = (i, true) :: rest ->
  phase t = AsleepExclusive notified -> step (proj i s) (run_exclusive (exclusive_turn cancelled) (without s i l1 l2)).
Proof.
  intros Ht Hw Ep. destruct (proj_asleep_exclusive s i l1 t l2 rest notified) as [Ea <-]; [done..|].
  exact (step_exclusive_wakes _ _ _ _ cancelled Ea).
Qed.
Lemma try_turn_inv s i l1 t l2 n : threads s = l1 ++ t :: l2 -> phase t = Awake -> n + 1 < 2 ^ 64 -> inv n (proj i s) ->
  inv (n + 1) match try_turn (skip_gitignore t) (states s i) with
              | Granted st => MkConfig st (skip_gitignore t :: shared_held (without s i l1 l2)) (exclusive_held (without s i l1 l2))
                                (shared_asleep (without s i l1 l2)) (exclusive_asleep (without s i l1 l2))
              | GaveUp n st => notify n (MkConfig st (shared_held (without s i l1 l2)) (exclusive_held (without s i l1 l2))
                                (shared_asleep (without s i l1 l2)) (exclusive_asleep (without s i l1 l2)))
              | Sleep r st => MkConfig st (shared_held (without s i l1 l2)) (exclusive_held (without s i l1 l2))
                                (MkSleeper (skip_gitignore t) r false :: shared_asleep (without s i l1 l2)) (exclusive_asleep (without s i l1 l2))
              end.
Proof.
  intros Ht Ep Hn Hinv. rewrite (proj_awake s i l1 t l2) in Hinv by done. unfold try_turn.
  destruct (try_acquire_shared (skip_gitignore t) (states s i)) as [st|] eqn:E.
  - exact (step_lock_inv n _ _ Hinv Hn (step_try (without s i l1 l2) (skip_gitignore t) st E)).
  - by apply inv_later.
Qed.

Lemma sys_step_inv n s s' : sys_step s s' -> n + 1 < 2 ^ 64 -> Forall thread_ok (threads s) ->
  (forall j, inv n (proj j s)) -> forall j, inv (n + 1) (proj j s').
Proof.
  intros Hst Hn Hok Hinv j. destruct Hst as [s l1 t l2 i rest r cancelled Ht Hw Hp|s l1 t l2 i rest Ht Hw Hp
    |s l1 t l2 i rest before cancelled Ht Hw Hp|s l1 t l2 i rest notified cancelled Ht Hw Hp
    |s l1 t l2 h1 i exclusive h2 Ht Hw Hh|s l1 t l2 skip m Ht Hw Hh Hm|s skip m Hm].
  - eapply turn_inv; [done..|intros Hi|by eapply (shared_turn_proj s i l1 l2 t rest Ht)].
    exact (step_lock_inv n _ _ Hi Hn (shared_wake_step s i l1 t l2 rest r cancelled Ht Hw Hp)).
  - eapply turn_inv; [done..|intros Hi|by eapply (shared_turn_proj s i l1 l2 t rest Ht)]. by eapply try_turn_inv.
  - eapply turn_inv; [done..|intros Hi|by eapply (exclusive_turn_proj s i l1 l2 t rest Ht)].
    rewrite (proj_awake s i l1 t l2) in Hi by done. exact (step_lock_inv n _ _ Hi Hn (step_exclusive_arrives _ before cancelled)).
  - eapply turn_inv; [done..|intros Hi|by eapply (exclusive_turn_proj s i l1 l2 t rest Ht)].
    exact (step_lock_inv n _ _ Hi Hn (exclusive_wake_step s i l1 t l2 rest notified cancelled Ht Hw Hp)).
  - eapply drop_proj; try done. rewrite Ht in Hok. apply Forall_app in Hok as [_ Hok]. by inversion Hok.
  - apply inv_later. eapply inv_same; [|exact (Hinv j)]. assert (phase t = Awake) as Ep.
    { rewrite Ht in Hok. apply Forall_app in Hok as [_ [[_ _ Hp] _]%Forall_cons]. rewrite Hw in Hp. destruct (phase t); [done|naive_solver..]. }
    destruct (awake_sleepers j t Ep) as [Es Ex]. unfold proj, lock_config. cbn [states threads].
    rewrite Ht, !bind_split, Es, Ex. assert (shared_of j t = [] /\ exclusive_of j t = []) as [-> ->] by (unfold shared_of, exclusive_of; by rewrite Hh). done.
  - apply inv_later. eapply inv_same; [|exact (Hinv j)]. done.
Qed.

Lemma sys_reachable_inv n s : sys_reachable n s -> n < 2 ^ 64 -> Forall thread_ok (threads s) /\ forall j, inv n (proj j s).
Proof.
  induction 1 as [|n s s' Hr IH Hst]; intros Hn.
  - split; [constructor|]. intros j. exact (reachable_lock_inv 0 initial reachable_initial eq_refl).
  - destruct IH as [Hok Hinv]; [lia|]. split; [by eapply step_threads_ok|by eapply sys_step_inv].
Qed.

(** ** Progress *)

Lemma klt_total (a b : Id) : klt a b \/ a = b \/ klt b a.
Proof.
  destruct (kcmp a b) eqn:E; [right; left; by apply kcmp_eq|by left|right; right; by apply kcmp_Gt].
Qed.
#[local] Instance klt_dec (a b : Id) : Decision (klt a b).
Proof. unfold klt. destruct (kcmp a b); [by right|by left|by right]. Defined.
(** A thread that waits at the last lock anybody waits at. *)
Lemma last_waiter l : Exists (fun t => want t <> []) l ->
  exists t i e rest, t ∈ l /\ want t = (i, e) :: rest /\ forall u j e' rest', u ∈ l -> want u = (j, e') :: rest' -> ~ klt i j.
Proof.
  induction l as [|t l IH]; [by inversion 1|]. intros H. destruct (decide (Exists (fun u => want u <> []) l)) as [Hl|Hl].
  - destruct (IH Hl) as (u & i & e & rest & Hu & Ew & Hmax). destruct (want t) as [|[j e'] rest'] eqn:Et.
    + exists u, i, e, rest. split; [by right|split; [done|]]. intros v k ? ? [->|Hv]%elem_of_cons Ev; [congruence|by eapply Hmax].
    + destruct (decide (klt i j)) as [Hij|Hij].
      * exists t, j, e', rest'. split; [left|split; [done|]]. intros v k ? ? [->|Hv]%elem_of_cons Ev.
        -- rewrite Ev in Et. injection Et as -> -> ->. exact (irreflexivity klt _).
        -- intros Hjk. eapply Hmax; [exact Hv|exact Ev|]. by etrans.
      * exists u, i, e, rest. split; [by right|split; [done|]]. intros v k ? ? [->|Hv]%elem_of_cons Ev; [|by eapply Hmax].
        rewrite Ev in Et. by injection Et as -> -> ->.
  - inversion H as [? ? Ht|]; subst; [|done]. destruct (want t) as [|[i e] rest] eqn:Et; [done|].
    exists t, i, e, rest. split; [left|split; [done|]]. intros v k ? ? [->|Hv]%elem_of_cons Ev.
    + rewrite Ev in Et. injection Et as -> -> ->. exact (irreflexivity klt _).
    + exfalso. apply Hl, Exists_exists. exists v. by rewrite Ev.
Qed.

Lemma shared_of_mem i t m : m ∈ shared_of i t -> exists e, (i, e) ∈ held t.
Proof.
  unfold shared_of. intros ([j e] & _ & [[Hj _] H]%list_elem_of_filter)%list_elem_of_fmap. cbn in Hj. subst j. by exists e.
Qed.
Lemma exclusive_of_mem i t h : h ∈ exclusive_of i t -> exists e, (i, e) ∈ held t.
Proof. unfold exclusive_of. destruct h as [j e]. intros [[Hj _] H]%list_elem_of_filter. cbn in Hj. subst j. by exists e. Qed.

(** A lock nobody holds. *)
Lemma nobody_holds i l : (forall t e, t ∈ l -> (i, e) ∉ held t) -> l ≫= shared_of i = [] /\ l ≫= exclusive_of i = [].
Proof.
  intros H. split.
  - apply elem_of_nil_inv. intros m (t & Hm & Ht)%list_elem_of_bind. apply shared_of_mem in Hm as [e He]. by eapply H.
  - apply elem_of_nil_inv. intros m (t & Hm & Ht)%list_elem_of_bind. apply exclusive_of_mem in Hm as [e He]. by eapply H.
Qed.

Lemma sleeper_of_mem i x t : x ∈ sleeper_of i t ->
  exists r n e rest, x = MkSleeper (skip_gitignore t) r n /\ phase t = AsleepShared r n /\ want t = (i, e) :: rest.
Proof.
  unfold sleeper_of, at_lock. destruct (phase t) as [|r n|n] eqn:Ep; [set_solver| |set_solver].
  destruct (want t) as [|[j e] rest]; [set_solver|]. case_bool_decide; [subst j|set_solver].
  intros ->%list_elem_of_singleton. by exists r, n, e, rest.
Qed.
Lemma exclusive_sleeper_of_mem i b t : b ∈ exclusive_sleeper_of i t ->
  exists e rest, phase t = AsleepExclusive b /\ want t = (i, e) :: rest.
Proof.
  unfold exclusive_sleeper_of, at_lock. destruct (phase t) as [|r n|n] eqn:Ep; [set_solver..|].
  destruct (want t) as [|[j e] rest]; [set_solver|]. case_bool_decide; [subst j|set_solver].
  intros ->%list_elem_of_singleton. by exists e, rest.
Qed.

(** Somebody sleeping at a lock nobody holds goes on. *)
Lemma idle_lock_goes_on n s i t : inv n (proj i s) -> shared_held (proj i s) = [] -> exclusive_held (proj i s) = 0 ->
  t ∈ threads s -> at_lock i t = true -> phase t <> Awake -> exists u, u ∈ threads s /\ can_go_on s u.
Proof.
  intros (Hh & Hw & [Hk1 Hk2] & _) E0 E1 Ht Hat Hp. destruct (idle_grants _ Hh Hw E0 E1) as [Gx Gs].
  rewrite Forall_forall in Hk1. rewrite Forall_forall in Hk2.
  destruct (exclusive_asleep (proj i s)) as [|b l] eqn:Ex.
  - destruct Gs as (x & Hx & Hg); [done| |].
    { assert (exists r m, phase t = AsleepShared r m) as (r & m & Ep).
      { destruct (phase t) as [|r m|m] eqn:Ep; [done|by exists r, m|]. exfalso.
        assert (m ∈ exclusive_asleep (proj i s)) as Hm; [|rewrite Ex in Hm; set_solver].
        apply list_elem_of_bind. exists t. split; [|done]. unfold exclusive_sleeper_of. rewrite Ep, Hat. left. }
      intros Es. assert (MkSleeper (skip_gitignore t) r m ∈ shared_asleep (proj i s)) as Hm; [|rewrite Es in Hm; set_solver].
      apply list_elem_of_bind. exists t. split; [|done]. unfold sleeper_of. rewrite Ep, Hat. left. }
    assert (sl_notified x = true) as Hn.
    { apply not_false_iff_true. intros Hf. apply shared_granted_spec in Hg. destruct (Hk1 x Hx Hf). destruct Hg; congruence. }
    apply list_elem_of_bind in Hx as (u & Hxu & Hu). apply sleeper_of_mem in Hxu as (r & m & e & rest & -> & Ep & Ew).
    exists u. split; [done|]. unfold can_go_on, was_notified, turn_granted. rewrite Ew, Ep. right. split; [exact Hn|].
    unfold shared_granted in Hg. cbn [sl_mode sl_reservation state proj lock_config] in Hg. by destruct (shared_turn _ _ _ _).
  - rewrite <- Ex in *. specialize (Gx ltac:(by rewrite Ex)). assert (b ∈ exclusive_asleep (proj i s)) as Hb by (rewrite Ex; left).
    assert (b = true) as ->.
    { apply not_false_iff_true. intros Hf. apply exclusive_granted_spec in Gx. exact (Gx (Hk2 b Hb Hf)). }
    apply list_elem_of_bind in Hb as (u & Hxu & Hu). apply exclusive_sleeper_of_mem in Hxu as (e & rest & Ep & Ew).
    exists u. split; [done|]. unfold can_go_on, was_notified, turn_granted. rewrite Ew, Ep. right. split; [done|].
    unfold exclusive_granted in Gx. cbn [state proj lock_config] in Gx. by destruct (exclusive_turn _ _).
Qed.

Lemma never_deadlock n s : Forall thread_ok (threads s) -> (forall j, inv n (proj j s)) ->
  Exists (fun t => want t <> []) (threads s) -> exists t, t ∈ threads s /\ can_go_on s t.
Proof.
  intros Hok Hinv (t & i & e & rest & Ht & Ew & Hmax)%last_waiter. rewrite Forall_forall in Hok.
  destruct (decide (Exists (fun u => want u = [] /\ held u <> []) (threads s))) as [[u [Hu [E1 E2]]]%Exists_exists|Hnone].
  { exists u. split; [done|]. unfold can_go_on. by rewrite E1. }
  assert (phase t = Awake \/ phase t <> Awake) as [Ep|Ep] by (destruct (phase t); [by left|by right..]).
  { exists t. split; [done|]. unfold can_go_on. rewrite Ew. by left. }
  destruct (nobody_holds i (threads s)) as [E0 E1].
  { intros u e' Hu Hi. destruct (want u) as [|[j e''] rest''] eqn:Eu.
    - apply Hnone, Exists_exists. exists u. split; [done|]. split; [done|]. intros E. rewrite E in Hi. set_solver.
    - destruct (Hok u Hu) as [_ Hb _]. rewrite Forall_forall in Hb. specialize (Hb _ Hi). rewrite Eu in Hb.
      inversion Hb as [|? ? Hlt]; subst. cbn in Hlt. by eapply Hmax. }
  eapply idle_lock_goes_on; [exact (Hinv i)| |  |exact Ht|by eapply at_lock_head|done].
  - exact E0.
  - cbn [proj lock_config exclusive_held]. by rewrite E1.
Qed.

(** Who holds the lease on a workspace: one thread alone, or searches of one mode. *)
Definition leases_exclusive (s : System) : Prop :=
  forall i, (len (threads s ≫= exclusive_of i) <= 1)%N
  /\ (threads s ≫= exclusive_of i <> [] -> threads s ≫= shared_of i = [])
  /\ exists m, Forall (fun m' => m' = m) (threads s ≫= shared_of i).
Lemma held_exclusive n s : (forall j, inv n (proj j s)) -> leases_exclusive s.
Proof.
  intros Hinv i. destruct (Hinv i) as ((Ha & Hm & He & Hx) & _). cbn [proj lock_config state shared_held exclusive_held] in *.
  split_and!.
  - rewrite He. destruct (exclusive_active _); lia.
  - intros Hne. destruct (exclusive_active (states s i)).
    + rewrite Hx in Ha by done. destruct (threads s ≫= shared_of i); [done|]. rewrite len_cons in Ha. lia.
    + destruct (threads s ≫= exclusive_of i); [done|]. rewrite len_cons in He. lia.
  - destruct (active_mode (states s i)) as [m|].
    + exists m. eapply Forall_impl; [exact Hm|]. cbn. congruence.
    + exists true. eapply Forall_impl; [exact Hm|]. done.
Qed.

(** C17. Any number of requests that lock their workspaces in the order of the ids, each
    thread waking only when it is notified or by chance, cancelled or not, dropping its
    leases in any order, never deadlocks: in every reachable state in which a thread still
    wants a lease, some thread can go on: it runs, is about to take a turn, or sleeps but
    was notified and gets the lease at its next turn.  At every moment an exclusive lease on
    a workspace is alone, and the shared leases on one are of one mode. *)
Theorem leases_never_deadlock n s :
  sys_reachable n s -> n < 2 ^ 64 ->
  leases_exclusive s
  /\ (Exists (fun t => want t <> []) (threads s) -> exists t, t ∈ threads s /\ can_go_on s t).
Proof.
  intros Hr Hn. destruct (sys_reachable_inv n s Hr Hn) as [Hok Hinv].
  split; [by eapply held_exclusive|by eapply never_deadlock].
Qed.

(** Two index runs: one holds the base index it shares with the other, which sleeps. *)
Definition lease_ids : Id * Id := ([97], [98]).
Definition first_run : Thread := MkThread true [] [(lease_ids.1, true); (lease_ids.2, true)] Awake.
Definition second_run : Thread := MkThread true [] [(lease_ids.1, false)] Awake.
Definition one_run : System := MkSystem (fun _ => default_state) [first_run].
Definition both_arrived : System := MkSystem (fun _ => default_state) [second_run; first_run].
Definition first_holds : System :=
  after_turn both_arrived lease_ids.1 [second_run] [] first_run (fun _ => AsleepExclusive false)
    (acquire_exclusive false false default_state).
Definition two_runs : System :=
  after_turn first_holds lease_ids.1 [] [granted first_run] second_run (fun r => AsleepShared r false)
    (shared_turn true false None (states first_holds lease_ids.1)).
Lemma two_runs_reachable : sys_reachable 4 two_runs.
Proof.
  apply (sys_next 3 first_holds).
  - apply (sys_next 2 both_arrived).
    + apply (sys_next 1 one_run).
      * apply (sys_next 0 initial_system); [constructor|]. apply (arrive initial_system true). repeat constructor.
      * apply (arrive one_run true). repeat constructor.
    + by apply (turn_exclusive_arrives both_arrived [second_run] first_run [] lease_ids.1 [(lease_ids.2, true)] false false).
  - apply (turn_shared first_holds [] second_run [granted first_run] lease_ids.1 [] None false); [done..|by left].
Qed.
Lemma leases_never_deadlock_witness :
  map phase (threads two_runs) = [AsleepShared None false; Awake]
  /\ exists t, t ∈ threads two_runs /\ can_go_on two_runs t.
Proof.
  split; [reflexivity|]. apply (leases_never_deadlock 4 two_runs two_runs_reachable); [reflexivity|].
  left. discriminate.
Defined.

(** ** The plan *)

Lemma ascending_wf m : ascending m <-> bt_wf m.
Proof. done. Qed.
Lemma require_spec id e m j : bt_wf m -> bt_wf (require id e m)
  /\ bt_get j (require id e m)
     = if decide (id = j) then Some (match bt_get j m with Some e' => e' || e | None => e end) else bt_get j m.
Proof.
  intros Hm. unfold require. split; [by apply bt_insert_wf|]. case_decide as Hij; [subst j; by rewrite bt_get_insert_eq|].
  by rewrite bt_get_insert_ne.
Qed.

(** What a workspace asks for on the index [j]. *)
Section Asks.
Context (direct unfinished_exclusive : bool).
Definition asks (j : Id) (w : Workspace) : list bool :=
  (if decide (ws_id w = j) then [direct || (unfinished_exclusive && (unfinished w || base_unfinished w))] else [])
  ++ (match base_of w with Some b => if decide (b = j) then [direct || negb (ready w)] else [] | None => [] end).
Definition strongest (l : list bool) : option bool :=
  match l with [] => None | _ => Some (existsb id l) end.
Lemma strongest_app l e : strongest (l ++ [e]) = Some (match strongest l with Some e' => e' || e | None => e end).
Proof.
  destruct l as [|x l]; [by destruct e|]. cbn [app strongest]. by rewrite app_comm_cons, existsb_app; cbn; rewrite orb_false_r.
Qed.
Lemma require_strongest id e m j l : bt_wf m -> bt_get j m = strongest l ->
  bt_get j (require id e m) = strongest (l ++ (if decide (id = j) then [e] else [])).
Proof.
  intros Hm Hl. destruct (require_spec id e m j Hm) as [_ ->]. case_decide; [|by rewrite app_nil_r]. by rewrite strongest_app, Hl.
Qed.
Lemma plan_fold ws : forall m l0 j, bt_wf m -> bt_get j m = strongest l0 ->
  bt_wf (foldl (require_workspace direct unfinished_exclusive) m ws)
  /\ bt_get j (foldl (require_workspace direct unfinished_exclusive) m ws) = strongest (l0 ++ ws ≫= asks j).
Proof.
  induction ws as [|w ws IH]; intros m l0 j Hm Hl; cbn [foldl]; [by rewrite app_nil_r|].
  rewrite bind_cons, app_assoc. apply IH; unfold require_workspace, asks.
  - destruct (base_of w); repeat (apply require_spec; [exact j|]); try done; by apply require_spec.
  - rewrite app_assoc. destruct (base_of w) as [b|].
    + apply require_strongest; [by apply (require_spec _ _ _ j)|]. by apply require_strongest.
    + rewrite app_nil_r. by apply require_strongest.
Qed.
End Asks.

Lemma plan_spec direct uf ws : ascending (plan direct uf ws)
  /\ forall j, bt_get j (plan direct uf ws) = strongest (ws ≫= asks direct uf j).
Proof.
  split; [|intros j]; unfold plan.
  - apply (plan_fold direct uf ws [] [] []); [constructor|done].
  - by apply (plan_fold direct uf ws [] [] j); [constructor|].
Qed.
Lemma strongest_all l e : l <> [] -> Forall (fun e' => e' = e) l -> strongest l = Some e.
Proof.
  destruct l as [|x l]; [done|]. intros _ [-> H]%Forall_cons. cbn. f_equal. induction H as [|y l -> _ IH]; destruct e; try done.
Qed.
Lemma bt_ext_get (m1 m2 : Requirements) : bt_wf m1 -> bt_wf m2 -> (forall j, bt_get j m1 = bt_get j m2) -> m1 = m2.
Proof. intros H1 H2. by apply bt_ext. Qed.
Lemma inline_fold ws : forall m j, bt_wf m ->
  bt_wf (foldl (fun m w => bt_insert (ws_id w) false m) m ws)
  /\ bt_get j (foldl (fun m w => bt_insert (ws_id w) false m) m ws)
     = (if decide (Exists (fun w => ws_id w = j) ws) then Some false else bt_get j m).
Proof.
  induction ws as [|w ws IH]; intros m j Hm; cbn [foldl].
  - split; [done|]. by rewrite decide_False by (intros H; inversion H).
  - destruct (IH (bt_insert (ws_id w) false m) j) as [Hw ->]; [by apply bt_insert_wf|]. split; [done|].
    destruct (decide (Exists (fun w => ws_id w = j) ws)) as [He|He]; [by rewrite decide_True by by right|].
    destruct (decide (ws_id w = j)) as [<-|Hj]; [by rewrite bt_get_insert_eq, decide_True by by left|].
    rewrite bt_get_insert_ne by done. rewrite decide_False; [done|]. by inversion 1.
Qed.
Lemma asks_plain uf w j : is_worktree w || unfinished w || base_unfinished w = false ->
  asks false uf j w = if decide (ws_id w = j) then [false] else [].
Proof.
  intros [[Hw Hu]%orb_false_iff Hb]%orb_false_iff. unfold asks, base_of. rewrite Hw, Hu, Hb, app_nil_r. by destruct uf.
Qed.
Lemma inline_spec uf ws m : inline_plan ws = Some m -> m = plan false uf ws.
Proof.
  unfold inline_plan. destruct (existsb _ ws) eqn:E; [done|]. intros [= <-].
  assert (Forall (fun w => is_worktree w || unfinished w || base_unfinished w = false) ws) as Hp.
  { apply Forall_forall. intros w Hw. apply not_true_iff_false. intros Ht.
    assert (existsb (fun w => is_worktree w || unfinished w || base_unfinished w) ws = true); [|congruence].
    apply existsb_exists. exists w. split; [by apply list_elem_of_In|done]. }
  destruct (plan_spec false uf ws) as [Ha Hg]. apply bt_ext_get; [by apply (inline_fold ws [] []); constructor|done|].
  intros j. rewrite Hg. destruct (inline_fold ws [] j) as [_ ->]; [constructor|].
  assert (ws ≫= asks false uf j = ws ≫= fun w => if decide (ws_id w = j) then [false] else []) as ->.
  { clear E Hg Ha. induction Hp as [|w ws Hw _ IH]; [done|]. by rewrite !bind_cons, IH, asks_plain. }
  case_decide as He.
  - symmetry. apply strongest_all.
    + apply Exists_exists in He as (w & Hw & <-). intros Hn.
      assert (false ∈ (ws ≫= fun w' => if decide (ws_id w' = ws_id w) then [false] else [])) as Hx; [|rewrite Hn in Hx; set_solver].
      apply list_elem_of_bind. exists w. split; [|done]. rewrite decide_True by done. left.
    + apply Forall_forall. intros e (w & Hin & _)%list_elem_of_bind. case_decide; set_solver.
  - assert ((ws ≫= fun w => if decide (ws_id w = j) then [false] else []) = []) as ->; [|done].
    apply elem_of_nil_inv. intros e (w & Hin & Hw)%list_elem_of_bind. case_decide; [|set_solver].
    apply He, Exists_exists. by exists w.
Qed.
Lemma direct_all_exclusive uf ws : Forall (fun l => l.2 = true) (plan true uf ws).
Proof.
  apply Forall_forall. intros [j e] Hin. destruct (plan_spec true uf ws) as [Ha Hg].
  apply bt_get_In in Hin; [|done]. rewrite Hg in Hin. cbn.
  assert (Forall (fun e => e = true) (ws ≫= asks true uf j)) as Hall.
  { apply Forall_forall. intros x (w & Hx & _)%list_elem_of_bind. unfold asks in Hx. cbn [orb] in Hx. repeat case_match; set_solver. }
  destruct (ws ≫= asks true uf j) as [|x l] eqn:El; [done|]. rewrite (strongest_all _ true) in Hin by done. congruence.
Qed.

(** The leases of a request: sorted by id, each workspace and each resolvable base of a
    worktree once, exclusive exactly when some workspace of the request asks for that.  The
    second attempt, after a base stopped being ready, asks for exclusive leases only and
    has no third; the plan that is tried without waiting is the one the blocking path
    would use. *)
Theorem lease_plan_exact direct uf ws still_ready :
  ascending (plan direct uf ws)
  /\ (forall j, bt_get j (plan direct uf ws) = strongest (ws ≫= asks direct uf j))
  /\ match retry_plan direct ws still_ready with
     | Some m => ascending m /\ Forall (fun l => l.2 = true) m /\ retry_plan true ws still_ready = None
     | None => True
     end
  /\ match inline_plan ws with Some m => m = plan false uf ws | None => True end.
Proof.
  split_and!; [apply plan_spec|apply plan_spec| |].
  - unfold retry_plan. destruct (existsb _ _); [|done]. split_and!; [apply plan_spec|apply direct_all_exclusive|done].
  - destruct (inline_plan ws) eqn:E; [by eapply inline_spec|done].
Qed.
