(* ===== verification/FilteredChunks.v ===== *)
(** * Chunks under filters: [visit_filtered_chunks] of search.rs.

  A filtered search pushes what it can of its filters into the SQL query and applies the
  rest to the rows that come back.  A table is its rows, any of which may fail to be read;
  comparisons of text in SQL are by bytes.  Compiling and matching globs are the
  parameters of PathGlob.v, with what is used of their meaning in [GlobLaws]. *)
From S2P Require Import Prelude Utf8 BTree Paths PathNames Languages PathGlob TextLinesFacts.

(** ** The query *)

Record WorkspaceScope := MkScope { scope_path : path; is_file : bool }.

(** [WorkspaceScope::matches]; [Path]s are equal when their components are. *)
Definition path_eq (p q : path) : bool := bool_decide (components p = components q).
Definition scope_matches (scope : WorkspaceScope) (rel_path : path) : bool :=
  if is_file scope then path_eq rel_path (scope_path scope) else path_starts_with rel_path (scope_path scope).
Definition scope_path_matches (rel_path : path) (scope_filter : option WorkspaceScope) : bool :=
  match scope_filter with Some scope => scope_matches scope rel_path | None => true end.

Inductive IndexedIncludePath := IncludeExact (p : str) | IncludePrefix (p : str).
Inductive IndexedGlobPath := Exact (p : str) | Prefix (p : str) | LanguagesIn (languages : list str).

Definition contains_meta (value : str) : bool := existsb (fun ch => bool_decide (ch ∈ lit "*?[{")) value.

(** [trim_start_matches("./")] and [trim_end_matches('/')]. *)
Fixpoint strip_dots (s : str) : str :=
  match s with
  | a :: b :: rest => if bool_decide (a :: [b] = lit "./") then strip_dots rest else s
  | _ => s
  end.
Definition strip_slashes (s : str) : str := reverse (drop_while (fun c => (c =? chr "/")%N) (reverse s)).

Definition indexed_include_path_filter (glob : str) : option IndexedIncludePath :=
  let normalized := strip_slashes (strip_dots (trim glob)) in
  if bool_decide (normalized = []) then None
  else if negb (contains_meta normalized) then Some (IncludeExact normalized)
  else
    let try suffix :=
      match strip_suffix suffix normalized with
      | Some prefix => if negb (bool_decide (prefix = [])) && negb (contains_meta prefix) then Some (IncludePrefix prefix) else None
      | None => None
      end in
    match try (lit "/**") with
    | Some p => Some p
    | None => try (lit "/*")
    end.

Definition indexed_glob_path_filter (glob : str) : option IndexedGlobPath :=
  match indexed_include_path_filter glob with
  | Some (IncludeExact p) => Some (Exact p)
  | Some (IncludePrefix p) => Some (Prefix p)
  | None =>
    extension ← strip_prefix (lit "*.") (trim glob);
    if bool_decide (extension = []) || existsb (fun c => bool_decide (c ∈ lit "/\*?[{")) extension then None
    else LanguagesIn <$> languages_for_extension_glob (bytes extension)
  end.

(** The columns that are filtered on, and the key. *)
Record Row := MkRow { row_path : path; row_language : str; vector_key : N; is_ignored : bool }.

Record FilteredChunkQuery := MkQuery {
  path_matches : path -> bool;
  scope_filter : option WorkspaceScope;
  type_filter : option str;
  include_globs : list str;
  skip_gitignore : bool
}.

(** [file_path >= prefix/ AND file_path < prefix0] *)
Definition in_directory (prefix : list N) (p : list N) : bool :=
  match kcmp p (prefix ++ lit "/") with Lt => false | _ => true end
  && match kcmp p (prefix ++ lit "0") with Lt => true | _ => false end.

Definition sql_glob (filter : IndexedGlobPath) (row : Row) : bool :=
  match filter with
  | Exact p => bool_decide (row_path row = bytes p)
  | Prefix p => in_directory (bytes p) (row_path row)
  | LanguagesIn languages => bool_decide (row_language row ∈ languages)
  end.

Definition sql_scope_clause (scope_filter : option WorkspaceScope) (row : Row) : bool :=
  match scope_filter with
  | Some scope =>
    let prefix := index_path_string (scope_path scope) in
    if is_file scope then bool_decide (row_path row = prefix) else in_directory prefix (row_path row)
  | None => true
  end.
(** The clauses of the globs, when each of them has one. *)
Definition sql_glob_clause (globs : list str) (row : Row) : bool :=
  match mapM indexed_glob_path_filter globs with
  | Some (f :: fs) => existsb (fun filter => sql_glob filter row) (f :: fs)
  | _ => true
  end.

(** The [WHERE] clause. *)
Definition sql_where (query : FilteredChunkQuery) (row : Row) : bool :=
  (skip_gitignore query || negb (is_ignored row))
  && match type_filter query with Some tf => bool_decide (row_language row = tf) | None => true end
  && sql_scope_clause (scope_filter query) row
  && sql_glob_clause (include_globs query) row.

(** ** Visiting *)

Section Visit.
Context {E S : Type}.
Abbreviation Polled A := (nat -> A * nat).
(** The answer of the [n]-th look at the cancellation token. *)
Context (cancelled : nat -> bool).

Context (query : FilteredChunkQuery) (include_chunk : Row -> bool).
Context (visit : S -> Row -> Polled (Result E (S * bool))).

(** The loop over the rows the statement returns. *)
Fixpoint visit_rows (s : S) (rows : list (Result E Row)) (n : nat) : Result E S * nat :=
  match rows with
  | [] => (Ok s, n)
  | row :: rows =>
    if cancelled n then (Ok s, Datatypes.S n)
    else
      match row with
      | Err e => (Err e, Datatypes.S n)
      | Ok row =>
        if scope_path_matches (row_path row) (scope_filter query) && path_matches query (row_path row) && include_chunk row
        then
          match visit s row (Datatypes.S n) with
          | (Err e, n) => (Err e, n)
          | (Ok (s, true), n) => visit_rows s rows n
          | (Ok (s, false), n) => (Ok s, n)
          end
        else visit_rows s rows (Datatypes.S n)
      end
  end.

(** Rows that cannot be decoded come back whatever the clause says of them. *)
Definition sql_rows (table : list (Result E Row)) : list (Result E Row) :=
  filter (fun row => match row with Ok row => sql_where query row | Err _ => true end = true) table.

(** [table] is an error when the statement cannot be prepared. *)
Definition visit_filtered_chunks (s : S) (table : Result E (list (Result E Row))) : Polled (Result E S) := fun n =>
  match table with
  | Err e => (Err e, n)
  | Ok table => visit_rows s (sql_rows table) n
  end.
End Visit.

(** [query_filtered_chunks]: the rows up to a number of them. *)
Definition query_filtered_chunks {E} (query : FilteredChunkQuery) (max_results : nat) (include_chunk : Row -> bool)
    (table : Result E (list (Result E Row))) : Result E (list Row) :=
  match max_results with
  | O => Ok []
  | _ =>
    (visit_filtered_chunks (fun _ => false) query include_chunk
      (fun chunks row n => (Ok (chunks ++ [row], length (chunks ++ [row]) <? max_results), n)) [] table 0).1
  end.

(** [is_shadowed_base_file]: the overlay deleted or replaced the file. *)
Definition is_shadowed_base_file (tombstones overlay_files : list N -> bool) (searcher_idx : nat) (p : path) : bool :=
  (searcher_idx =? 1) && (tombstones (to_string_lossy p) || overlay_files (to_string_lossy p)).

(** [collect_filtered_chunks]: the overlay's rows, then those of the base that it leaves. *)
Definition collect_filtered_chunks {E} (tombstones overlay_files : list N -> bool) (query : FilteredChunkQuery)
    (max_results : nat) (sqlite : Result E (list (Result E Row))) (base_sqlite : option (Result E (list (Result E Row))))
  : Result E (list Row) :=
  chunks ← query_filtered_chunks query max_results (fun _ => true) sqlite;
  match base_sqlite with
  | Some base =>
    if length chunks <? max_results then
      base_chunks ← query_filtered_chunks query (max_results - length chunks)
        (fun row => negb (is_shadowed_base_file tombstones overlay_files 1 (row_path row))) base;
      Ok (chunks ++ base_chunks)
    else Ok chunks
  | None => Ok chunks
  end.

(** ** What the filters mean *)

(** A row that the filters select. *)
Definition selected (query : FilteredChunkQuery) (row : Row) : bool :=
  (skip_gitignore query || negb (is_ignored row))
  && match type_filter query with Some tf => bool_decide (row_language row = tf) | None => true end
  && scope_path_matches (row_path row) (scope_filter query)
  && path_matches query (row_path row).

(** A glob written without escapes, blanks around it or a slash at its end. *)
Definition plain_glob (g : str) : Prop := trim g = g /\ (chr "\" ∉ g) /\ ends_with (lit "/") g = false.
#[global] Instance plain_glob_dec g : Decision (plain_glob g).
Proof. unfold plain_glob. apply _. Defined.
Definition literal (g : str) : Prop := contains_meta g = false /\ chr "\" ∉ g.

(** What globset documents of the globs that are pushed down: a set matches when one of
    its globs does; a literal glob matches its own path; [dir/*] and [dir/**] match below
    the directory; [*.ext] matches names that end with the extension. *)
Class GlobLaws (matches : list str -> path -> bool) := {
  any_glob globs p : globs <> [] -> matches globs p = true -> exists g, g ∈ globs /\ matches [g] p = true;
  literal_glob g p : literal g -> matches [g] p = true -> p = bytes g;
  below_glob g p suffix : literal g -> suffix ∈ [lit "/*"; lit "/**"] ->
    matches [g ++ suffix] p = true -> starts_with (bytes g ++ lit "/") p = true;
  extension_glob e p : literal e -> SEP ∉ e -> matches [lit "*." ++ e] p = true ->
    exists stem, file_name p = Some (stem ++ lit "." ++ bytes e)
}.

(** A row as the indexer writes it: a clean path, whose language is that of the path, and
    a name with more than an extension. *)
Definition row_ok (row : Row) : Prop :=
  beneath (row_path row) /\ valid_utf8 (row_path row) = true
  /\ row_language row = default (lit "text") (language_for_path (row_path row))
  /\ forall e, file_name (row_path row) = Some (lit "." ++ e) -> languages_for_extension_glob e = None.

(** A scope inside the workspace; the path of a directory is not that of an indexed file. *)
Definition scope_ok (rows : list Row) (scope : WorkspaceScope) : Prop :=
  beneath (scope_path scope) /\ valid_utf8 (scope_path scope) = true
  /\ (is_file scope = false -> Forall (fun row => row_path row <> scope_path scope) rows).

(** ** The query loses nothing *)

Lemma kcmp_app (p a b : list N) : kcmp (p ++ a) (p ++ b) = kcmp a b.
Proof.
  induction p as [|x p IH]; [done|]. change (lex (x :: p ++ a) (x :: p ++ b) = lex a b). cbn [lex]. by rewrite N.compare_refl.
Qed.
Lemma in_directory_below p q : starts_with (p ++ lit "/") q = true -> in_directory p q = true.
Proof.
  intros [r ->]%starts_with_spec. unfold in_directory. rewrite <- app_assoc, !kcmp_app. by destruct r.
Qed.

Lemma strip_components_Some p : forall q r, strip_components p q = Some r -> q = p ++ r.
Proof.
  induction p as [|a p IH]; intros q r; [by intros [= ->]|]. destruct q as [|b q]; [done|]. cbn [strip_components].
  case_decide as E; [|done]. intros H. subst b. by rewrite (IH _ _ H).
Qed.
Lemma flat_app ns ms : ns <> [] -> ms <> [] -> flat (ns ++ ms) = flat ns ++ SEP :: flat ms.
Proof.
  intros Hn Hm. induction ns as [|n ns IH]; [done|]. destruct ns as [|n' ns]; [by destruct ms|].
  change (flat ((n :: n' :: ns) ++ ms)) with (n ++ SEP :: flat ((n' :: ns) ++ ms)). rewrite IH by done.
  change (flat (n :: n' :: ns)) with (n ++ SEP :: flat (n' :: ns)). by rewrite <- app_assoc.
Qed.
Lemma map_normal_inj ns ms : map Normal ns = map Normal ms -> ns = ms.
Proof. revert ms. induction ns as [|n ns IH]; intros [|m ms] H; try done. injection H as -> H. by rewrite (IH ms). Qed.

(** A path that starts with another is that path or below it. *)
Lemma path_starts_below p q : beneath p -> beneath q -> path_starts_with p q = true ->
  p = q \/ starts_with (q ++ lit "/") p = true.
Proof.
  intros (ns & Hne & Hns & ->) (ms & Hme & Hms & ->). unfold path_starts_with, path_strip_prefix.
  rewrite !components_path_of by done. destruct (strip_components _ _) as [r|] eqn:E; [|done]. intros _.
  apply strip_components_Some in E. destruct (map_eq_app _ _ _ _ E) as (ns1 & ns2 & -> & E1 & E2).
  apply map_normal_inj in E1 as ->. destruct (decide (ns2 = [])) as [->|H2]; [left; by rewrite app_nil_r|right].
  rewrite !path_of_flat, flat_app by done. apply starts_with_spec. exists (flat ns2). by rewrite <- app_assoc.
Qed.
Lemma beneath_components p q : beneath p -> beneath q -> components p = components q -> p = q.
Proof.
  intros (ns & _ & Hns & ->) (ms & _ & Hms & ->). rewrite !components_path_of by done. by intros ->%map_normal_inj.
Qed.

Lemma sql_scope query scope row rows : scope_filter query = Some scope -> row_ok row -> scope_ok rows scope -> row ∈ rows ->
  scope_matches scope (row_path row) = true ->
  sql_scope_clause (scope_filter query) row = true.
Proof.
  unfold sql_scope_clause. intros -> (Hb & _) (Hs & Hv & Hdir) Hin. unfold scope_matches.
  assert (index_path_string (scope_path scope) = scope_path scope) as ->.
  { apply (index_path_string_utf8 _ (scope_path scope)). unfold to_str. by rewrite Hv. }
  destruct (is_file scope).
  - unfold path_eq. intros H%bool_decide_eq_true. apply bool_decide_eq_true. by apply beneath_components.
  - intros [E|H]%path_starts_below; [|by apply in_directory_below|done..].
    exfalso. specialize (Hdir eq_refl). rewrite Forall_forall in Hdir. by apply (Hdir row Hin).
Qed.

(** ** Globs *)

Lemma strip_dots_split s : exists d, s = d ++ strip_dots s /\ (d = [] \/ starts_with (lit "./") s = true) /\ contains_meta d = false.
Proof.
  assert (forall n s, length s <= n -> exists d, s = d ++ strip_dots s /\ (d = [] \/ starts_with (lit "./") s = true) /\ contains_meta d = false) as H.
  2: by eapply H.
  clear s. induction n as [|n IH]; intros s Hl; [destruct s; [|cbn in Hl; lia]; exists []; split_and!; [done|by left|done]|].
  destruct s as [|a [|b rest]]; [exists []; split_and!; [done|by left|done]..|]. cbn [strip_dots].
  case_bool_decide as E; [|exists []; split_and!; [done|by left|done]]. injection E as -> ->.
  destruct (IH rest) as (d & Ed & _ & Hm); [cbn in Hl; lia|]. exists (lit "./" ++ d). split_and!.
  - cbn [app]. rewrite <- app_assoc. by rewrite <- Ed.
  - right. reflexivity.
  - exact Hm.
Qed.
Lemma strip_slashes_id s : ends_with (lit "/") s = false -> strip_slashes s = s.
Proof.
  unfold strip_slashes, ends_with. intros H. rewrite <- (reverse_involutive s) at 2. f_equal. destruct (reverse s) as [|c r]; [done|].
  change (reverse (lit "/")) with (lit "/") in H. cbn [drop_while]. destruct (N.eqb_spec c (chr "/")) as [->|]; [|done].
  exfalso. apply not_true_iff_false in H. apply H. apply starts_with_spec. by exists r.
Qed.
Lemma contains_meta_app a b : contains_meta (a ++ b) = contains_meta a || contains_meta b.
Proof. apply existsb_app. Qed.
(** Clean paths do not start with [./]. *)
Lemma beneath_no_dot p : beneath p -> starts_with (lit "./") p = false.
Proof.
  intros (ns & Hne & Hns & ->). rewrite path_of_flat by done. destruct ns as [|n ns]; [done|]. apply Forall_cons in Hns as [(H0 & H1 & _ & H3) _].
  apply not_true_iff_false. intros [r Hr]%starts_with_spec.
  destruct n as [|a [|b n]]; [done| |].
  - destruct ns as [|m ns]; [by injection Hr|]. injection Hr as -> _. done.
  - assert (b = SEP) as -> by (destruct ns; by injection Hr). apply H3. right. left.
Qed.
Lemma bytes_starts p s : starts_with p (bytes s) = false -> Forall (fun c => (c < 128)%N) p -> starts_with p s = false.
Proof.
  intros H Hp. apply not_true_iff_false. intros [r ->]%starts_with_spec. apply not_true_iff_false in H. apply H, starts_with_spec.
  exists (bytes r). by rewrite bytes_app, (ascii_bytes p).
Qed.

Lemma plain_literal g : plain_glob g -> contains_meta g = false -> literal g.
Proof. by intros (_ & H & _). Qed.
Lemma literal_app a b : literal (a ++ b) -> literal a /\ literal b.
Proof.
  intros [H Hb]. rewrite contains_meta_app in H. apply orb_false_iff in H as [H1 H2]. rewrite elem_of_app in Hb. split; split; tauto.
Qed.

Lemma starts_dot s : starts_with (lit "./") s = match s with a :: b :: _ => (46 =? a)%N && (47 =? b)%N | _ => false end.
Proof.
  change (lit "./") with [46; 47]%N. unfold starts_with. destruct s as [|a [|b r]]; [done| |]; cbn [strip_prefix].
  - by destruct (46 =? a)%N.
  - by destruct (46 =? a)%N, (47 =? b)%N.
Qed.

Section Globs.
Context (matches : list str -> path -> bool) (L : GlobLaws matches).

(** Below a directory, for a glob that may start with [./]. *)
Lemma glob_below d pre suffix p : literal d -> literal pre -> (d = [] \/ starts_with (lit "./") (d ++ pre ++ suffix) = true) ->
  contains_meta suffix = true -> suffix ∈ [lit "/*"; lit "/**"] -> beneath p ->
  matches [d ++ pre ++ suffix] p = true -> starts_with (bytes pre ++ lit "/") p = true.
Proof.
  intros Hd Hp Hdots Hmeta Hs Hb Hm. rewrite app_assoc in Hm. apply below_glob in Hm; [|split|exact Hs].
  - destruct Hdots as [->|Hdots]; [exact Hm|]. exfalso.
    assert (starts_with (lit "./") (d ++ pre) = true \/ d ++ pre = lit ".") as [H|H].
    { rewrite app_assoc, starts_dot in Hdots. rewrite starts_dot. destruct (d ++ pre) as [|a [|b r]].
      - exfalso. apply elem_of_cons in Hs as [->|Hs]; [done|]. by apply list_elem_of_singleton in Hs as ->.
      - right. cbn [app] in Hdots. destruct suffix; [done|]. apply andb_true_iff in Hdots as [<-%N.eqb_eq _]. done.
      - by left. }
    + apply starts_with_spec in H as [r Hr]. apply starts_with_spec in Hm as [r' ->].
      apply beneath_no_dot in Hb. apply not_true_iff_false in Hb. apply Hb. rewrite Hr, bytes_app, <- app_assoc.
      apply starts_with_spec. by eexists.
    + rewrite H in Hm. apply starts_with_spec in Hm as [r' ->]. apply beneath_no_dot in Hb.
      apply not_true_iff_false in Hb. apply Hb, starts_with_spec. by exists r'.
  - rewrite contains_meta_app. by rewrite (proj1 Hd), (proj1 Hp).
  - rewrite elem_of_app. intros [H|H]; [by apply Hd|by apply Hp].
Qed.

Lemma try_prefix suffix normalized p :
  match strip_suffix suffix normalized with
  | Some prefix => if negb (bool_decide (prefix = [])) && negb (contains_meta prefix) then Some (IncludePrefix prefix) else None
  | None => None
  end = Some p -> exists prefix, p = IncludePrefix prefix /\ normalized = prefix ++ suffix /\ contains_meta prefix = false.
Proof.
  destruct (strip_suffix suffix normalized) as [prefix|] eqn:E; [|done]. apply strip_suffix_Some in E as ->.
  destruct (_ && _) eqn:Eb; [|done]. intros [= <-]. apply andb_true_iff in Eb as [_ Hm%negb_true_iff]. by exists prefix.
Qed.
Lemma include_filter_spec g filter : indexed_include_path_filter g = Some filter -> plain_glob g ->
  exists d, contains_meta d = false /\ (d = [] \/ starts_with (lit "./") g = true)
  /\ match filter with
     | IncludeExact p => g = d ++ p /\ contains_meta p = false
     | IncludePrefix p => exists suffix, g = d ++ p ++ suffix /\ suffix ∈ [lit "/*"; lit "/**"] /\ contains_meta p = false
     end.
Proof.
  intros H (Ht & _ & Hend). unfold indexed_include_path_filter in H. rewrite Ht in H.
  destruct (strip_dots_split g) as (d & Eg & Hd & Hm).
  assert (strip_slashes (strip_dots g) = strip_dots g) as Es.
  { apply strip_slashes_id. apply not_true_iff_false. intros He. apply not_true_iff_false in Hend. apply Hend. rewrite Eg.
    unfold ends_with in *. rewrite reverse_app. apply starts_with_spec in He as [r ->]. apply starts_with_spec. eexists. by rewrite <- app_assoc. }
  rewrite Es in H. case_bool_decide; [done|]. set (n := strip_dots g) in *. exists d. split_and!; [done..|].
  destruct (contains_meta n) eqn:En; cbn [negb] in H; [|injection H as <-; done].
  destruct (match strip_suffix (lit "/**") n with Some _ => _ | None => _ end) as [p|] eqn:E1.
  - injection H as <-. apply try_prefix in E1 as (prefix & -> & En' & Hp). exists (lit "/**"). rewrite <- En'. split_and!; [done|right; left|done].
  - apply try_prefix in H as (prefix & -> & En' & Hp). exists (lit "/*"). rewrite <- En'. split_and!; [done|left|done].
Qed.

(** A row that a glob matches satisfies the clause the glob was turned into. *)
Lemma sql_glob_complete g filter row : plain_glob g -> indexed_glob_path_filter g = Some filter -> row_ok row ->
  matches [g] (row_path row) = true -> sql_glob filter row = true.
Proof.
  intros Hg Hf (Hb & _ & Hlang & Hhidden) Hm. unfold indexed_glob_path_filter in Hf.
  destruct (indexed_include_path_filter g) as [inc|] eqn:Ei.
  - destruct (include_filter_spec g inc Ei Hg) as (d & Hd & Hdots & Hinc). destruct Hg as (_ & Hesc & _).
    destruct inc as [p|p]; injection Hf as <-; cbn [sql_glob].
    + destruct Hinc as [-> Hp]. assert (literal (d ++ p)) as Hl by (split; [by rewrite contains_meta_app, Hd|done]).
      apply literal_glob in Hm; [|done]. apply bool_decide_eq_true. destruct Hdots as [->|Hdots]; [exact Hm|]. exfalso.
      apply starts_with_spec in Hdots as [r Hr]. apply beneath_no_dot in Hb. apply not_true_iff_false in Hb. apply Hb.
      rewrite Hm, Hr, bytes_app. apply starts_with_spec. by eexists.
    + destruct Hinc as (suffix & -> & Hs & Hp). apply in_directory_below. apply (glob_below d p suffix); try done.
      * split; [done|]. intros H. apply Hesc. by apply elem_of_app; left.
      * split; [done|]. intros H. apply Hesc. rewrite !elem_of_app. by right; left.
      * apply elem_of_cons in Hs as [->|Hs]; [done|]. by apply list_elem_of_singleton in Hs as ->.
  - destruct Hg as (Ht & Hesc & _). rewrite Ht in Hf. apply bind_Some in Hf as (e & He & Hf). apply strip_prefix_Some in He as ->.
    destruct (_ || _) eqn:Ex; [done|]. apply orb_false_iff in Ex as [Hne%bool_decide_eq_false Hx].
    apply fmap_Some in Hf as (langs & Hlangs & ->). cbn [sql_glob].
    assert (forall c, c ∈ e -> c ∉ lit "/\*?[{") as Hfree.
    { intros c Hc Hin. apply not_true_iff_false in Hx. apply Hx, existsb_exists. exists c. split; [by apply list_elem_of_In|]. by apply bool_decide_eq_true. }
    assert (literal e) as Hl.
    { split; [|intros H; apply (Hfree _ H); right; left]. apply not_true_iff_false. intros (c & Hc & Hcm)%existsb_exists.
      apply bool_decide_eq_true in Hcm. apply (Hfree c); [by apply list_elem_of_In|]. change (lit "/\*?[{") with (lit "/\" ++ lit "*?[{").
      apply elem_of_app. by right. }
    assert (SEP ∉ e) as Hsep by (intros H; apply (Hfree _ H); left).
    destruct (extension_glob e _ Hl Hsep Hm) as [stem Hn].
    assert (stem <> []) as Hstem by (intros ->; rewrite (Hhidden (bytes e)) in Hlangs; done).
    destruct (extension_glob_complete (row_path row) stem (bytes e) langs) as (n & Hn' & Hin); try done.
    + intros E. apply Hne, blen_nil_inv. rewrite <- length_bytes. by rewrite E.
    + intros (c & Hx' & Hc)%list_elem_of_bind. apply encoded_ascii in Hx' as [_ <-]; [done|by apply N.ltb_lt].
    + apply bool_decide_eq_true. rewrite Hlang, Hn'. exact Hin.
Qed.
End Globs.

(** ** The theorem *)

Section Lossless.
Context {E : Type} (matches : list str -> path -> bool) (L : GlobLaws matches).
Context (query : FilteredChunkQuery).

(** A query whose path filter includes what its globs match. *)
Record query_ok (rows : list Row) : Prop := {
  globs_plain : Forall plain_glob (include_globs query);
  paths_included p : path_matches query p = true -> include_globs query <> [] -> matches (include_globs query) p = true;
  scope_inside : match scope_filter query with Some scope => scope_ok rows scope | None => True end;
  rows_written : Forall row_ok rows
}.

Lemma sql_globs_complete row : Forall plain_glob (include_globs query) -> row_ok row ->
  (include_globs query <> [] -> matches (include_globs query) (row_path row) = true) ->
  sql_glob_clause (include_globs query) row = true.
Proof.
  intros Hglobs Hrow Hp. unfold sql_glob_clause. destruct (mapM _ _) as [[|f fs]|] eqn:Em; [done| |done].
  apply mapM_Some in Em. assert (include_globs query <> []) as Hne by (intros E0; rewrite E0 in Em; inversion Em).
  destruct (any_glob _ _ Hne (Hp Hne)) as (g & Hg & Hmg). apply list_elem_of_lookup in Hg as [i Hi].
  destruct (Forall2_lookup_l _ _ _ _ _ Em Hi) as (filter & Hf & Hfilter). apply existsb_exists. exists filter.
  split; [apply list_elem_of_In; by eapply list_elem_of_lookup_2|]. eapply sql_glob_complete; [done| |done..].
  rewrite Forall_forall in Hglobs. apply Hglobs. by eapply list_elem_of_lookup_2.
Qed.

(** A row goes through both halves of the filter when it is selected. *)
Lemma both_halves rows row : query_ok rows -> row ∈ rows ->
  sql_where query row && (scope_path_matches (row_path row) (scope_filter query) && path_matches query (row_path row))
  = selected query row.
Proof.
  intros [Hglobs Hpaths Hscope Hrows] Hin. rewrite Forall_forall in Hrows. specialize (Hrows row Hin). unfold sql_where, selected.
  destruct (scope_path_matches _ _) eqn:Es; [|by rewrite !andb_false_r]. destruct (path_matches query (row_path row)) eqn:Ep; [|by rewrite !andb_false_r].
  assert (sql_scope_clause (scope_filter query) row = true) as ->.
  { destruct (scope_filter query) as [scope|] eqn:E'; [|done]. rewrite <- E'. by eapply sql_scope. }
  rewrite sql_globs_complete by auto. by rewrite !andb_true_r.
Qed.

(** The visitor sees the selected rows, as long as nobody cancels. *)
Context {S : Type} (cancelled : nat -> bool) (include_chunk : Row -> bool).
Context (visit : S -> Row -> nat -> Result E (S * bool) * nat) (f : S -> Row -> Result E (S * bool)).
Definition quiet (n n' : nat) : Prop := forall k, n <= k < n' -> cancelled k = false.
Context (Hvisit : forall s row n r n', visit s row n = (r, n') -> n <= n' /\ (quiet n n' -> r = f s row)).

Fixpoint feed_rows (s : S) (rows : list Row) : Result E S :=
  match rows with
  | [] => Ok s
  | row :: rows => '(s, go_on) ← f s row; if (go_on : bool) then feed_rows s rows else Ok s
  end.

Lemma visit_rows_feed rows : forall s n r n', visit_rows cancelled query include_chunk visit s (map Ok rows) n = (r, n') ->
  n <= n' /\ (quiet n n' -> r = feed_rows s (filter (fun row => (scope_path_matches (row_path row) (scope_filter query)
    && path_matches query (row_path row) && include_chunk row) = true) rows)).
Proof.
  induction rows as [|row rows IH]; intros s n r n'; cbn [map visit_rows]; [intros [= <- <-]; split; [lia|done]|].
  rewrite filter_cons. destruct (cancelled n) eqn:Ec.
  { intros [= <- <-]. split; [lia|]. intros Hq. specialize (Hq n ltac:(lia)). congruence. }
  destruct (_ && include_chunk row); cbn [decide bool_decide].
  - rewrite decide_True by done. cbn [feed_rows]. destruct (visit s row (Datatypes.S n)) as [r1 n1] eqn:Ev. apply Hvisit in Ev as [Hn1 Hr1].
    destruct r1 as [[s1 [|]]|e].
    + intros H. apply IH in H as [Hn' Hr']. split; [lia|]. intros Hq. rewrite <- Hr1 by (intros k Hk; apply Hq; lia). cbn.
      apply Hr'. intros k Hk. apply Hq. lia.
    + intros [= <- <-]. split; [lia|]. intros Hq. by rewrite <- Hr1 by (intros k Hk; apply Hq; lia).
    + intros [= <- <-]. split; [lia|]. intros Hq. by rewrite <- Hr1 by (intros k Hk; apply Hq; lia).
  - rewrite decide_False by done. intros H. apply IH in H as [Hn' Hr']. split; [lia|]. intros Hq. apply Hr'. intros k Hk. apply Hq. lia.
Qed.

Lemma sql_rows_ok rows : sql_rows query (map (Ok (E := E)) rows) = map Ok (filter (fun row => sql_where query row = true) rows).
Proof. unfold sql_rows. induction rows as [|row rows IH]; [done|]. cbn [map]. rewrite !filter_cons. case_decide; cbn [map]; by rewrite IH. Qed.
Lemma filter_ext_elem {A} (P Q : A -> bool) (l : list A) : (forall x, x ∈ l -> P x = Q x) ->
  filter (fun x => P x = true) l = filter (fun x => Q x = true) l.
Proof.
  induction l as [|x l IH]; intros H; [done|]. rewrite !filter_cons, (H x) by left. rewrite IH; [done|]. intros y Hy. apply H. by right.
Qed.

Lemma visit_filtered_feed rows s n r n' : query_ok rows ->
  visit_filtered_chunks cancelled query include_chunk visit s (Ok (map Ok rows)) n = (r, n') ->
  n <= n' /\ (quiet n n' -> r = feed_rows s (filter (fun row => (selected query row && include_chunk row) = true) rows)).
Proof.
  intros Hq. unfold visit_filtered_chunks. rewrite sql_rows_ok. intros [Hn Hr]%visit_rows_feed. split; [done|]. intros Hquiet.
  rewrite (Hr Hquiet). f_equal. rewrite list_filter_filter.
  rewrite <- (filter_ext_elem (fun row => sql_where query row
    && (scope_path_matches (row_path row) (scope_filter query) && path_matches query (row_path row)) && include_chunk row)).
  - apply list_filter_iff. intros row. rewrite !andb_true_iff. tauto.
  - intros row Hin. by rewrite (both_halves rows row).
Qed.
End Lossless.

Lemma feed_take {E} max_results rows : forall acc, length acc < max_results ->
  feed_rows (E := E) (fun chunks row => Ok (chunks ++ [row], length (chunks ++ [row]) <? max_results)) acc rows
  = Ok (acc ++ take (max_results - length acc) rows).
Proof.
  induction rows as [|row rows IH]; intros acc Hlt; cbn [feed_rows]; [by rewrite take_nil, app_nil_r|].
  cbn [mbind result_bind]. rewrite length_app. cbn [length]. destruct (Nat.ltb_spec (length acc + 1) max_results).
  - rewrite IH by (rewrite length_app; cbn; lia). rewrite length_app. cbn [length].
    replace (max_results - length acc) with (S (max_results - (length acc + 1))) by lia. cbn [take]. by rewrite <- app_assoc.
  - replace (max_results - length acc) with 1 by lia. cbn [take]. by rewrite take_0.
Qed.
Lemma query_filtered_spec {E} matches (L : GlobLaws matches) query max_results include_chunk rows : query_ok matches query rows ->
  query_filtered_chunks (E := E) query max_results include_chunk (Ok (map Ok rows))
  = Ok (take max_results (filter (fun row => (selected query row && include_chunk row) = true) rows)).
Proof.
  intros Hq. destruct max_results as [|m]; [done|]. unfold query_filtered_chunks. destruct (visit_filtered_chunks _ _ _ _ _ _ _) as [r n'] eqn:Ev.
  eapply (visit_filtered_feed matches L query (fun _ => false) include_chunk _
    (fun chunks row => Ok (chunks ++ [row], length (chunks ++ [row]) <? S m))) in Ev as [_ Hr]; [| |exact Hq].
  - cbn [fst]. rewrite Hr by done. rewrite feed_take by (cbn; lia). by rewrite Nat.sub_0_r.
  - intros ????? [= <- <-]. done.
Qed.

(** C12. What a filtered search takes from the index is exactly what its filters select, in
    the order of the rows: the overlay's rows first, then those of the base whose file the
    overlay neither deleted nor replaced, up to the limit.  No selected row is lost by the
    part of the filter that is pushed into SQL, whether a file or directory scope, a
    language, ignored files, or globs for a path, a directory or an extension, under
    conditions ([query_ok]) the code does not check: the include globs have no backslash, no
    blanks around them and no slash at the end; the rows are as the indexer writes them, and
    none is a file whose whole name is a known extension behind a dot.  Without the first or
    the last rows are lost: [escaped_glob_pushed_down], [dotfile_glob_pushed_down]. *)
Theorem filtered_chunks_lossless {E} matches (L : GlobLaws matches) tombstones overlay_files query max_results overlay base
  (Hoverlay : query_ok matches query overlay) (Hbase : query_ok matches query base) :
  collect_filtered_chunks (E := E) tombstones overlay_files query max_results (Ok (map Ok overlay)) (Some (Ok (map Ok base)))
  = Ok (take max_results
      (filter (fun row => selected query row = true) overlay
       ++ filter (fun row => (selected query row && negb (is_shadowed_base_file tombstones overlay_files 1 (row_path row))) = true) base)).
Proof.
  unfold collect_filtered_chunks. rewrite (query_filtered_spec matches L) by done. cbn [mbind result_bind].
  rewrite (filter_ext_elem _ (selected query)) by (intros; apply andb_true_r). set (l1 := filter _ overlay).
  rewrite (query_filtered_spec matches L) by done. cbn [mbind result_bind]. set (l2 := filter _ base).
  rewrite length_take, take_app. destruct (Nat.ltb_spec (max_results `min` length l1) max_results).
  - by rewrite Nat.min_r by lia.
  - replace (max_results - length l1) with 0 by lia. by rewrite take_0, app_nil_r.
Qed.

(** A glob with an escape is pushed down as if the backslash were part of the path, so the
    file that globset would match, [a-b.rs], is not selected by the query. *)
Example escaped_glob_pushed_down :
  indexed_glob_path_filter (lit "a\-b.rs") = Some (Exact (lit "a\-b.rs"))
  /\ sql_glob (Exact (lit "a\-b.rs")) (MkRow (lit "a-b.rs") (lit "rust") 1 false) = false.
Proof. split; vm_compute; reflexivity. Qed.

(** The glob [*.rs] also matches a file named [.rs], which has no extension and so another
    language than the one the query asks for. *)
Example dotfile_glob_pushed_down :
  language_for_path (lit "src/.rs") = None
  /\ (filter ← indexed_glob_path_filter (lit "*.rs"); Some (sql_glob filter (MkRow (lit "src/.rs") (lit "text") 1 false))) = Some false.
Proof. split; vm_compute; reflexivity. Qed.

(** ** An example *)

(** A matcher for the globs that are pushed down. *)
Definition simple_glob (p : path) (g : str) : bool :=
  (negb (contains_meta g) && bool_decide (p = bytes g))
  || existsb (fun suffix => match strip_suffix suffix g with
                            | Some dir => starts_with (bytes dir ++ lit "/") p
                            | None => false
                            end) [lit "/*"; lit "/**"]
  || match strip_prefix (lit "*.") g, file_name p with
     | Some e, Some n => ends_with (lit "." ++ bytes e) n
     | _, _ => false
     end.
Definition simple_globs (globs : list str) (p : path) : bool := existsb (simple_glob p) globs.

Lemma strip_suffix_last s c d (a b : str) : strip_suffix (a ++ [c]) (b ++ [d]) = Some s -> c = d.
Proof. intros H%strip_suffix_Some. rewrite app_assoc in H. by apply app_inj_tail in H as [_ ->]. Qed.
Lemma literal_no_star g : literal g -> chr "*" ∉ g.
Proof.
  intros [H _] Hin. apply not_true_iff_false in H. apply H, existsb_exists. exists (chr "*"). split; [by apply list_elem_of_In|].
  apply bool_decide_eq_true. left.
Qed.
Lemma strip_star g e : strip_prefix (lit "*.") g = Some e -> chr "*" ∈ g.
Proof. intros ->%strip_prefix_Some. left. Qed.
#[export] Instance simple_globs_laws : GlobLaws simple_globs.
Proof.
  split.
  - intros globs p _ (g & Hin%list_elem_of_In & Hg)%existsb_exists. exists g. split; [done|]. apply existsb_exists. exists g. split; [by left|done].
  - intros g p Hl (g' & [<-|[]] & Hg)%existsb_exists. pose proof (literal_no_star g Hl) as Hstar.
    unfold simple_glob in Hg. apply orb_true_iff in Hg as [[Hg|Hg]%orb_true_iff|Hg].
    + apply andb_true_iff in Hg as [_ Hg]. by apply bool_decide_eq_true in Hg.
    + exfalso. apply existsb_exists in Hg as (suffix & Hs & Hg). destruct (strip_suffix suffix g) as [dir|] eqn:E; [|done].
      apply strip_suffix_Some in E as ->. apply Hstar. rewrite elem_of_app. right. destruct Hs as [<-|[<-|[]]]; by right; left.
    + exfalso. destruct (strip_prefix (lit "*.") g) eqn:E; [|done]. by apply strip_star in E.
  - intros g p suffix Hl Hs (g' & [<-|[]] & Hg)%existsb_exists. pose proof (literal_no_star g Hl) as Hstar.
    unfold simple_glob in Hg. apply orb_true_iff in Hg as [[Hg|Hg]%orb_true_iff|Hg].
    + exfalso. apply andb_true_iff in Hg as [Hg%negb_true_iff _]. rewrite contains_meta_app in Hg. apply orb_false_iff in Hg as [_ Hg].
      apply elem_of_cons in Hs as [->|Hs]; [done|]. by apply list_elem_of_singleton in Hs as ->.
    + apply existsb_exists in Hg as (suffix' & Hs' & Hg). destruct (strip_suffix suffix' (g ++ suffix)) as [dir|] eqn:E; [|done].
      apply strip_suffix_Some in E. assert (g = dir) as ->; [|done].
      apply elem_of_cons in Hs as [->|Hs]; [|apply list_elem_of_singleton in Hs as ->]; destruct Hs' as [<-|[<-|[]]].
      * by apply app_inv_tail in E.
      * exfalso. change (lit "/*") with ([chr "/"] ++ [chr "*"]) in E. change (lit "/**") with ([chr "/"; chr "*"] ++ [chr "*"]) in E.
        rewrite !app_assoc in E. apply app_inj_tail in E as [E _]. change (dir ++ [chr "/"; chr "*"]) with (dir ++ [chr "/"] ++ [chr "*"]) in E.
        rewrite app_assoc in E. by apply app_inj_tail in E as [_ ?].
      * exfalso. change (lit "/*") with ([chr "/"] ++ [chr "*"]) in E. change (lit "/**") with ([chr "/"; chr "*"] ++ [chr "*"]) in E.
        rewrite !app_assoc in E. apply app_inj_tail in E as [E _]. change (g ++ [chr "/"; chr "*"]) with (g ++ [chr "/"] ++ [chr "*"]) in E.
        rewrite app_assoc in E. by apply app_inj_tail in E as [_ ?].
      * by apply app_inv_tail in E.
    + exfalso. destruct (strip_prefix (lit "*.") (g ++ suffix)) as [e|] eqn:E; [|done]. apply strip_prefix_Some in E.
      destruct g as [|c g].
      * apply elem_of_cons in Hs as [->|Hs]; [done|]. by apply list_elem_of_singleton in Hs as ->.
      * injection E as -> _. apply Hstar. left.
  - intros e p Hl Hsep (g' & [<-|[]] & Hg)%existsb_exists. pose proof (literal_no_star e Hl) as Hstar.
    unfold simple_glob in Hg. apply orb_true_iff in Hg as [[Hg|Hg]%orb_true_iff|Hg].
    + exfalso. apply andb_true_iff in Hg as [Hg _]. done.
    + exfalso. apply existsb_exists in Hg as (suffix & Hs & Hg). destruct (strip_suffix suffix (lit "*." ++ e)) as [dir|] eqn:E; [|done].
      apply strip_suffix_Some in E. assert (SEP ∈ lit "*." ++ e) as H.
      { rewrite E, elem_of_app. right. destruct Hs as [<-|[<-|[]]]; left. }
      apply elem_of_app in H as [H|H]; [|done]. by apply (bool_decide_eq_true_2 _) in H.
    + change (strip_prefix (lit "*.") (lit "*." ++ e)) with (Some e) in Hg. destruct (file_name p) as [n|]; [|done].
      unfold ends_with in Hg. apply starts_with_spec in Hg as [r Hr]. exists (reverse r).
      rewrite <- (reverse_involutive n), Hr, reverse_app, reverse_involutive. done.
Qed.

Definition example_row (p language : string) (k : N) : Row := MkRow (lit p) (lit language) k false.
Definition example_overlay : list Row := [example_row "src/a.rs" "rust" 1; example_row "src/b.py" "python" 2].
Definition example_base : list Row :=
  [example_row "src/a.rs" "rust" 3; example_row "src/c.rs" "rust" 4; example_row "lib/d.rs" "rust" 5].
Definition example_query : FilteredChunkQuery :=
  MkQuery (simple_globs [lit "*.rs"; lit "docs/**"]) (Some (MkScope (lit "src") false)) (Some (lit "rust")) [lit "*.rs"; lit "docs/**"] false.

Lemma example_row_ok p l k ns n : lit p = path_of (ns ++ [lit n]) -> Forall name_ok (ns ++ [lit n]) -> valid_utf8 (lit p) = true ->
  lit l = default (lit "text") (language_for_path (lit p)) -> head (lit n) <> Some (chr ".") -> row_ok (example_row p l k).
Proof.
  intros Hp Hns Hv Hl Hh. split; [|split; [exact Hv|split; [exact Hl|]]].
  - exists (ns ++ [lit n]). split; [by destruct ns|done].
  - cbn [example_row row_path]. intros e. unfold file_name. rewrite Hp, components_path_of by done. rewrite map_app, last_app. cbn.
    intros [= H]. rewrite H in Hh. done.
Qed.
Ltac example_row ns n := apply (example_row_ok _ _ _ ns n); apply (bool_decide_eq_true_1 _); by vm_compute.
Lemma example_query_ok rows : Forall row_ok rows -> Forall (fun row => row_path row <> lit "src") rows ->
  query_ok simple_globs example_query rows.
Proof.
  intros Hrows Hdir. split; [| |split_and!|done].
  - apply (bool_decide_eq_true_1 _). by vm_compute.
  - done.
  - exists [lit "src"]. split_and!; [done| |done]. apply (bool_decide_eq_true_1 _). by vm_compute.
  - done.
  - done.
Qed.
Lemma example_overlay_ok : query_ok simple_globs example_query example_overlay.
Proof.
  apply example_query_ok; [|apply (bool_decide_eq_true_1 _); by vm_compute].
  constructor; [example_row [lit "src"] "a.rs"%string|]. constructor; [example_row [lit "src"] "b.py"%string|constructor].
Qed.
Lemma example_base_ok : query_ok simple_globs example_query example_base.
Proof.
  apply example_query_ok; [|apply (bool_decide_eq_true_1 _); by vm_compute].
  constructor; [example_row [lit "src"] "a.rs"%string|]. constructor; [example_row [lit "src"] "c.rs"%string|].
  constructor; [example_row [lit "lib"] "d.rs"%string|constructor].
Qed.
Lemma filtered_chunks_lossless_witness :
  collect_filtered_chunks (E := unit) (fun _ => false) (fun p => bool_decide (p = lit "src/a.rs")) example_query 10
    (Ok (map Ok example_overlay)) (Some (Ok (map Ok example_base)))
  = Ok [example_row "src/a.rs" "rust" 1; example_row "src/c.rs" "rust" 4].
Proof.
  rewrite (filtered_chunks_lossless simple_globs simple_globs_laws).
  - vm_compute. reflexivity.
  - apply example_overlay_ok.
  - apply example_base_ok.
Defined.
