(* ===== verification/SemanticRefill.v ===== *)
(** * Refilling semantic matches: search_semantic_visibility.rs.

  When filters leave too few of the nearest vectors, the search asks the approximate index
  for more, and at last scores every selected chunk.  A store is what the native index
  answers; a score is a bit pattern, as in VectorTopK.v.  Looks at the cancellation token
  are numbered by a clock that every computation carries. *)
From S2P Require Import Prelude Utf8 Paths PathGlob FilteredChunks VectorTopK.

Definition USIZE_MAX : Z := 2 ^ 64 - 1.
Definition saturating_mul (a b : Z) : Z := Z.min USIZE_MAX (a * b).

Definition ELIGIBLE_KEY_BATCH : nat := 4096.
Definition MAX_REFILL_ANN_KEYS : Z := 20000.
Definition MAX_REFILL_ANN_ROUNDS : nat := 3.

Definition next_ann_limit (current eligible wanted cap : Z) : Z :=
  let estimated := (saturating_mul (saturating_mul wanted current) 3 / saturating_mul (Z.max eligible 1) 2)%Z in
  Z.min (Z.max (saturating_mul current 2) estimated) cap.

(** [let mut seen = HashSet::new(); list.retain(|hit| seen.insert(hit.key))] *)
Fixpoint retain_first (seen : gset N) (l : list VectorMatch) : list VectorMatch :=
  match l with
  | [] => []
  | hit :: l =>
    if bool_decide (vm_key hit ∈ seen) then retain_first seen l
    else hit :: retain_first ({[vm_key hit]} ∪ seen) l
  end.
Definition merge_top_matches (best more : list VectorMatch) (limit : nat) : list VectorMatch :=
  take limit (retain_first ∅ (merge_sort best_first (best ++ more))).

Section Refill.
Context {E : Type}.
Abbreviation Polled A := (nat -> A * nat).
Context (cancelled : nat -> bool).

(** [accepts] is [validate_vector]; [score] reads a key and scores it, [None] when the key
    is missing; [search] is the approximate search. *)
Record VectorStore := MkStore {
  accepts : Result E unit;
  score : N -> Result E (option N);
  search : nat -> list VectorMatch
}.

(** The loop of [score_many_top_k_checked]; [retained] are the keys in [top].  [None]
    when it was cancelled. *)
Fixpoint score_loop (store : VectorStore) (count : nat) (top : Heap) (retained : gset N) (keys : list N) (n : nat)
  : Result E (option Heap) * nat :=
  match keys with
  | [] => (Ok (Some top), n)
  | key :: keys =>
    if cancelled n then (Ok None, S n)
    else if bool_decide (key ∈ retained) then score_loop store count top retained keys (S n)
    else
      match score store key with
      | Err e => (Err e, S n)
      | Ok None => score_loop store count top retained keys (S n)
      | Ok (Some s) =>
        let ranked := MkMatch key s in
        if length top <? count then score_loop store count (heap_push ranked top) ({[key]} ∪ retained) keys (S n)
        else if match heap_peek top with Some worst => ranked_gt ranked worst | None => false end then
          let retained := match heap_peek top with Some removed => retained ∖ {[vm_key removed]} | None => retained end in
          score_loop store count (heap_push ranked (heap_pop top)) ({[key]} ∪ retained) keys (S n)
        else score_loop store count top retained keys (S n)
      end
  end.
Definition score_many_top_k_checked (store : VectorStore) (keys : list N) (count : nat) : Polled (Result E (list VectorMatch)) := fun n =>
  match count with
  | O => (Ok [], n)
  | _ =>
    if cancelled n then (Ok [], S n)
    else
      match accepts store with
      | Err e => (Err e, S n)
      | Ok _ =>
        match score_loop store count [] ∅ keys (S n) with
        | (Err e, n) => (Err e, n)
        | (Ok None, n) => (Ok [], n)
        | (Ok (Some top), n) => (Ok (merge_sort best_first top), n)
        end
      end
  end.

(** The stores there are, the overlay's first. *)
Fixpoint score_batch (keys : list N) (limit : nat) (stores : list VectorStore) (best : list VectorMatch) (n : nat)
  : Result E (list VectorMatch) * nat :=
  match stores with
  | [] => (Ok best, n)
  | store :: stores =>
    if cancelled n then (Ok best, S n)
    else
      match score_many_top_k_checked store keys limit (S n) with
      | (Err e, n) => (Err e, n)
      | (Ok more, n) => score_batch keys limit stores (merge_top_matches best more limit) n
      end
  end.

(** [collect_semantic_vector_matches] *)
Definition collect_semantic_vector_matches (candidate_limit : nat) (stores : list VectorStore) : list VectorMatch :=
  take candidate_limit (retain_first ∅ (merge_sort best_first (stores ≫= fun store => search store candidate_limit))).

(** ** The approximate rounds *)

(** The chunk of a key, as [fetch_chunk_metadata_by_vector_keys_batch] finds it; the
    filters of a chunk that was fetched. *)
Context (fetch : list N -> Result E (N -> option Row)) (chunk_matches : Row -> bool).
Context (stores : list VectorStore).

Inductive Rounds := Enough (eligible : list VectorMatch) | Interrupted | Underfilled.

Fixpoint ann_rounds (rounds : nat) (limit : nat) (cap previous ann_limit : Z) (n : nat) : Result E Rounds * nat :=
  match rounds with
  | O => (Ok Underfilled, n)
  | S rounds =>
    if (ann_limit <=? previous)%Z then (Ok Underfilled, n)
    else if cancelled n then (Ok Interrupted, S n)
    else
      let candidates := collect_semantic_vector_matches (Z.to_nat ann_limit) stores in
      match fetch (map vm_key candidates) with
      | Err e => (Err e, S n)
      | Ok chunks =>
        let eligible :=
          take limit (filter (fun hit => match chunks (vm_key hit) with Some chunk => chunk_matches chunk | None => false end = true)
                        candidates) in
        if limit <=? length eligible then (Ok (Enough (take limit eligible)), S n)
        else if ((cap <=? ann_limit) || (Z.of_nat (length candidates) <? ann_limit))%Z then (Ok Underfilled, S n)
        else ann_rounds rounds limit cap previous (next_ann_limit ann_limit (Z.of_nat (length eligible)) (Z.of_nat limit) cap) (S n)
      end
  end.

(** ** The exact scan *)

Context (tombstones overlay_files : list N -> bool) (query : FilteredChunkQuery).

(** What the visitor keeps: the pending keys and the best matches. *)
Definition scan_chunk (limit : nat) (state : list N * list VectorMatch) (chunk : Row) : Polled (Result E (list N * list VectorMatch * bool)) := fun n =>
  if cancelled n then (Ok (state, false), S n)
  else
    let keys := state.1 ++ [vector_key chunk] in
    if length keys =? ELIGIBLE_KEY_BATCH then
      match score_batch keys limit stores state.2 (S n) with
      | (Err e, n) => (Err e, n)
      | (Ok best, n) => (Ok ([], best, negb (cancelled n)), S n)
      end
    else (Ok (keys, state.2, negb (cancelled (S n))), S (S n)).

(** The databases with their index: the overlay's or only one, then the base.  [None] when
    it is cancelled between them. *)
Fixpoint scan_databases (limit : nat) (state : list N * list VectorMatch) (index : nat)
    (databases : list (Result E (list (Result E Row)))) (n : nat) : Result E (option (list N * list VectorMatch)) * nat :=
  match databases with
  | [] => (Ok (Some state), n)
  | db :: databases =>
    if cancelled n then (Ok None, S n)
    else
      match visit_filtered_chunks cancelled query
              (fun chunk => negb (is_shadowed_base_file tombstones overlay_files index (row_path chunk)))
              (scan_chunk limit) state db (S n) with
      | (Err e, n) => (Err e, n)
      | (Ok state, n) => scan_databases limit state (S index) databases n
      end
  end.

Definition exact_scan (limit : nat) (databases : list (Result E (list (Result E Row)))) : Polled (Result E (list VectorMatch)) := fun n =>
  match scan_databases limit ([], []) 0 databases n with
  | (Err e, n) => (Err e, n)
  | (Ok None, n) => (Ok [], n)
  | (Ok (Some (keys, best)), n) =>
    if cancelled n then (Ok [], S n)
    else
      match score_batch keys limit stores best (S n) with
      | (Err e, n) => (Err e, n)
      | (Ok best, n) => (Ok (if cancelled n then [] else best), S n)
      end
  end.

(** [previous_ann] is the limit of the search before and how many of its hits were
    eligible. *)
Definition refill_semantic_matches (limit : nat) (previous_ann : Z * Z) (databases : list (Result E (list (Result E Row))))
  : Polled (Result E (list VectorMatch)) := fun n =>
  match limit with
  | O => (Ok [], n)
  | _ =>
    if cancelled n then (Ok [], S n)
    else
      let wanted := Z.of_nat limit in
      let cap := Z.max (Z.max (Z.min (saturating_mul wanted 16) MAX_REFILL_ANN_KEYS) wanted) previous_ann.1 in
      match ann_rounds MAX_REFILL_ANN_ROUNDS limit cap previous_ann.1
              (next_ann_limit previous_ann.1 previous_ann.2 wanted cap) (S n) with
      | (Err e, n) => (Err e, n)
      | (Ok (Enough eligible), n) => (Ok eligible, n)
      | (Ok Interrupted, n) => (Ok [], n)
      | (Ok Underfilled, n) => exact_scan limit databases n
      end
  end.

(** ** The keys of a constrained search *)

(** [keys.chunks(size)]; the length of the list is enough fuel. *)
Fixpoint chunks_of (fuel size : nat) (keys : list N) : list (list N) :=
  match fuel, keys with
  | S fuel, _ :: _ => take size keys :: chunks_of fuel size (drop size keys)
  | _, _ => []
  end.
(** [None] when it is cancelled before a batch. *)
Fixpoint score_batches (limit : nat) (batches : list (list N)) (best : list VectorMatch) (n : nat) : Result E (option (list VectorMatch)) * nat :=
  match batches with
  | [] => (Ok (Some best), n)
  | batch :: batches =>
    if cancelled n then (Ok None, S n)
    else
      match score_batch batch limit stores best (S n) with
      | (Err e, n) => (Err e, n)
      | (Ok best, n) => score_batches limit batches best n
      end
  end.
(** [keys] is the order the set is iterated in; [chunk_matches] is
    [eligibility.matches_chunk]. *)
Definition score_constrained_semantic_keys (keys : list N) (limit : nat) : Polled (Result E (list (Row * N))) := fun n =>
  match score_batches limit (chunks_of (length keys) ELIGIBLE_KEY_BATCH keys) [] n with
  | (Err e, n) => (Err e, n)
  | (Ok None, n) => (Ok [], n)
  | (Ok (Some best), n) =>
    if cancelled n then (Ok [], S n)
    else
      match fetch (map vm_key best) with
      | Err e => (Err e, S n)
      | Ok chunks =>
        (Ok (omap (fun hit => match chunks (vm_key hit) with
                              | Some chunk => if chunk_matches chunk then Some (chunk, vm_score hit) else None
                              | None => None
                              end) best), S n)
      end
  end.
End Refill.

(** ** Rankings *)

(** The best match of every key, best first. *)
Definition ranking (l : list VectorMatch) : list VectorMatch := retain_first ∅ (merge_sort best_first l).

Lemma best_first_refl x : best_first x x.
Proof. apply best_first_alt. lia. Qed.
Lemma retain_first_spec l : forall seen x, StronglySorted best_first l ->
  (x ∈ retain_first seen l <-> x ∈ l /\ (vm_key x ∉ seen) /\ forall y, y ∈ l -> vm_key y = vm_key x -> best_first x y)
  /\ StronglySorted best_first (retain_first seen l).
Proof.
  induction l as [|z l IH]; intros seen x Hs; cbn [retain_first]; [split; [|constructor]; set_solver|].
  apply StronglySorted_inv in Hs as [Hs Hz]. rewrite Forall_forall in Hz. case_bool_decide as Hin.
  - destruct (IH seen x Hs) as [IHx IHs]. split; [|done]. rewrite IHx. split.
    + intros (Hx & Hn & Hb). split; [by right|]. split; [done|]. intros y [->|Hy]%elem_of_cons He; [congruence|by apply Hb].
    + intros ([->|Hx]%elem_of_cons & Hn & Hb); [done|]. split; [done|]. split; [done|]. intros y Hy. apply Hb. by right.
  - destruct (IH ({[vm_key z]} ∪ seen) x Hs) as [IHx IHs]. split.
    + rewrite elem_of_cons, IHx. split.
      * intros [->|(Hx & Hn & Hb)].
        -- split; [left|]. split; [done|]. intros y [->|Hy]%elem_of_cons He; [apply best_first_refl|by apply Hz].
        -- split; [by right|]. split; [set_solver|]. intros y [->|Hy]%elem_of_cons He; [set_solver|by apply Hb].
      * intros ([->|Hx]%elem_of_cons & Hn & Hb); [by left|]. destruct (decide (vm_key x = vm_key z)) as [He|He].
        -- left. apply (anti_symm best_first); [apply Hb; [left|done]|by apply Hz].
        -- right. split; [done|]. split; [set_solver|]. intros y Hy. apply Hb. by right.
    + constructor; [done|]. apply Forall_forall. intros y Hy.
      destruct (IH ({[vm_key z]} ∪ seen) y Hs) as [[IHy _] _]. apply Hz. by apply IHy.
Qed.

Lemma elem_of_ranking l x : x ∈ ranking l <-> x ∈ l /\ forall y, y ∈ l -> vm_key y = vm_key x -> best_first x y.
Proof.
  unfold ranking. destruct (retain_first_spec (merge_sort best_first l) ∅ x) as [-> _]; [apply StronglySorted_merge_sort; apply _|].
  setoid_rewrite (merge_sort_Permutation best_first l). set_solver.
Qed.
Lemma ranking_best l y : y ∈ l -> exists x, x ∈ ranking l /\ vm_key y = vm_key x /\ best_first x y.
Proof.
  intros Hy. set (same := filter (fun x => vm_key x = vm_key y) l).
  pose proof (StronglySorted_merge_sort best_first same) as Hs. pose proof (merge_sort_Permutation best_first same) as Hp.
  assert (y ∈ same) as Hys by (by apply list_elem_of_filter).
  destruct (merge_sort best_first same) as [|x r] eqn:E; [rewrite <- Hp in Hys; by apply elem_of_nil in Hys|].
  apply StronglySorted_inv in Hs as [_ Hx]. rewrite Forall_forall in Hx.
  assert (forall z, z ∈ same -> best_first x z) as Hbest.
  { intros z. rewrite <- Hp, elem_of_cons. intros [->|Hz]; [apply best_first_refl|by apply Hx]. }
  assert (x ∈ same) as [Hk Hin]%list_elem_of_filter by (rewrite <- Hp; left).
  exists x. split; [|split; [done|by apply Hbest]]. apply elem_of_ranking. split; [done|]. intros z Hz Hkz. apply Hbest.
  apply list_elem_of_filter. split; [congruence|done].
Qed.
Lemma ranking_sorted l : StronglySorted best_first (ranking l).
Proof. apply (retain_first_spec _ _ (MkMatch 0 0)), StronglySorted_merge_sort; apply _. Qed.
Lemma ranking_key l x y : x ∈ ranking l -> y ∈ ranking l -> vm_key x = vm_key y -> x = y.
Proof.
  rewrite !elem_of_ranking. intros [Hx Hbx] [Hy Hby] He. apply (anti_symm best_first); [by apply Hbx|by apply Hby].
Qed.
Lemma retain_first_NoDup l : forall seen, NoDup (retain_first seen l).
Proof.
  assert (forall l seen x, x ∈ retain_first seen l -> vm_key x ∉ seen) as Hout.
  { clear. induction l as [|z l IH]; intros seen x; cbn [retain_first]; [by intros ?%elem_of_nil|]. case_bool_decide; [apply IH|].
    intros [->|Hx]%elem_of_cons; [done|]. apply IH in Hx. set_solver. }
  induction l as [|z l IH]; intros seen; cbn [retain_first]; [constructor|]. case_bool_decide; [done|]. constructor; [|done].
  intros Hz. apply Hout in Hz. set_solver.
Qed.
Lemma ranking_NoDup l : NoDup (ranking l).
Proof. apply retain_first_NoDup. Qed.

(** Two sorted lists of the same matches are one. *)
Lemma sorted_ext l l' : StronglySorted best_first l -> StronglySorted best_first l' -> NoDup l -> NoDup l' ->
  (forall x, x ∈ l <-> x ∈ l') -> l = l'.
Proof.
  intros Hs Hs' Hd Hd' He. apply (Sorted_unique best_first); [by apply StronglySorted_Sorted..|]. by apply NoDup_Permutation.
Qed.
Lemma ranking_ext l l' : (forall x, x ∈ l <-> x ∈ l') -> ranking l = ranking l'.
Proof.
  intros He. apply sorted_ext; try apply ranking_sorted; try apply ranking_NoDup. intros x. rewrite !elem_of_ranking. by setoid_rewrite He.
Qed.

Definition better_than (x y : VectorMatch) : Prop := best_first y x /\ y <> x.
#[local] Instance better_than_dec x y : Decision (better_than x y).
Proof. unfold better_than. apply _. Defined.

(** The first [k] are those that fewer than [k] beat. *)
Lemma elem_of_take_sorted k l x : StronglySorted best_first l -> NoDup l ->
  x ∈ take k l <-> x ∈ l /\ length (filter (better_than x) l) < k.
Proof.
  intros Hs Hd. revert k. induction l as [|z l IH]; intros k; [rewrite take_nil; set_solver|].
  apply StronglySorted_inv in Hs as [Hs Hz]. apply NoDup_cons in Hd as [Hnz Hd]. rewrite Forall_forall in Hz. specialize (IH Hs Hd).
  destruct k as [|k]; [cbn [take]; split; [by intros ?%elem_of_nil|lia]|]. cbn [take]. rewrite elem_of_cons, IH, filter_cons.
  split.
  - intros [->|[Hx Hlt]].
    + split; [left|]. rewrite decide_False by (intros [_ ?]; done).
      assert (filter (better_than z) l = []) as ->; [|cbn; lia]. apply filter_none, Forall_forall. intros y Hy [Hyz Hne].
      apply Hne. apply (anti_symm best_first); [done|by apply Hz].
    + split; [by right|]. case_decide; cbn [length]; lia.
  - intros [[->|Hx]%elem_of_cons Hlt]; [by left|]. right. split; [done|].
    rewrite decide_True in Hlt; [cbn in Hlt; lia|]. split; [by apply Hz|]. intros ->. done.
Qed.

Lemma filter_best_sorted (P : VectorMatch -> Prop) `{!forall x, Decision (P x)} l :
  StronglySorted best_first l -> StronglySorted best_first (filter P l).
Proof.
  induction 1 as [|x l Hs IH Hx]; [constructor|]. rewrite filter_cons. case_decide; [|done]. constructor; [done|].
  rewrite Forall_forall in Hx |- *. intros y [_ Hy]%list_elem_of_filter. by apply Hx.
Qed.
(** Taking the best of a part that holds the best of the whole. *)
Lemma take_ranking_part k (S T : list VectorMatch) : (forall x, x ∈ S -> x ∈ T) -> (forall x, x ∈ take k (ranking T) -> x ∈ S) ->
  take k (ranking S) = take k (ranking T).
Proof.
  intros Hsub Htop. set (W := take k (ranking T)).
  assert (ranking T = W ++ drop k (ranking T)) as Hsplit by (symmetry; apply take_drop).
  pose proof (ranking_sorted T) as HsT. rewrite Hsplit in HsT. pose proof (ranking_NoDup T) as HdT. rewrite Hsplit in HdT.
  assert (forall x, x ∈ W -> x ∈ ranking S) as HWS.
  { intros x Hx. apply elem_of_ranking. split; [by apply Htop|]. intros y Hy.
    assert (x ∈ ranking T) as [_ Hb]%elem_of_ranking by (rewrite Hsplit; set_solver). by apply Hb, Hsub. }
  set (R := filter (fun y => y ∉ W) (ranking S)).
  assert (forall y, y ∈ R -> length W = k /\ forall w, w ∈ W -> best_first w y) as HR.
  { intros y [HyW Hy]%list_elem_of_filter. pose proof (proj1 (proj1 (elem_of_ranking S y) Hy)) as HyS. destruct (ranking_best T y (Hsub _ HyS)) as (y' & Hy' & Hk & Hb).
    rewrite Hsplit in Hy'. apply elem_of_app in Hy' as [Hy'|Hy'].
    { exfalso. apply HyW. by rewrite (ranking_key S y y') by auto. }
    split; [|intros w Hw; trans y'; [|done]; by eapply StronglySorted_app_1_elem_of].
    unfold W. rewrite length_take. destruct (decide (k <= length (ranking T))); [lia|].
    rewrite drop_ge in Hy' by lia. by apply elem_of_nil in Hy'. }
  assert (ranking S = W ++ R) as ->.
  { apply sorted_ext; [apply ranking_sorted| |apply ranking_NoDup| |].
    - apply StronglySorted_app_2; [intros x y Hx Hy; by apply (HR y Hy)|by eapply StronglySorted_app_1_l|].
      apply filter_best_sorted, ranking_sorted.
    - apply NoDup_app. apply NoDup_app in HdT as (HdW & _ & _). split_and!; [done| |by apply NoDup_filter, ranking_NoDup].
      intros x Hx [? _]%list_elem_of_filter. done.
    - intros x. unfold R. rewrite elem_of_app, list_elem_of_filter. destruct (decide (x ∈ W)); naive_solver. }
  assert (length W <= k) as HlW by (unfold W; rewrite length_take; lia). clearbody W R.
  destruct R as [|y R]; [rewrite app_nil_r; by apply take_ge|].
  destruct (HR y) as [<- _]; [left|]. by rewrite take_app_length.
Qed.

(** *** The best of two lists are the best of the best *)

Definition top (k : nat) (l : list VectorMatch) : list VectorMatch := take k (ranking l).
Lemma top_ext k l l' : (forall x, x ∈ l <-> x ∈ l') -> top k l = top k l'.
Proof. intros H. unfold top. by rewrite (ranking_ext l l'). Qed.
Lemma elem_of_top k l x : x ∈ top k l -> x ∈ l.
Proof. unfold top. intros H. assert (x ∈ ranking l) as [? _]%elem_of_ranking; [|done]. rewrite <- (take_drop k). set_solver. Qed.

Lemma ranking_keys_NoDup l : NoDup (map vm_key (ranking l)).
Proof. apply NoDup_fmap_2_strong; [apply ranking_key|apply ranking_NoDup]. Qed.
Lemma top_keeps k C D x : x ∈ top k (C ++ D) -> x ∈ C -> x ∈ top k C.
Proof.
  unfold top. intros [Hx Hlt]%elem_of_take_sorted HC; [|apply ranking_sorted|apply ranking_NoDup].
  assert (x ∈ ranking C) as HxC.
  { apply elem_of_ranking in Hx as [_ Hb]. apply elem_of_ranking. split; [done|]. intros y Hy. apply Hb. set_solver. }
  apply elem_of_take_sorted; [apply ranking_sorted|apply ranking_NoDup|]. split; [done|]. eapply Nat.le_lt_trans; [|exact Hlt].
  set (A := filter (better_than x) (ranking C)). set (B := filter (better_than x) (ranking (C ++ D))).
  rewrite <- (length_map vm_key A), <- (length_map vm_key B). apply NoDup_incl_length.
  - apply NoDup_ListNoDup, NoDup_fmap_2_strong; [|apply NoDup_filter, ranking_NoDup].
    intros y z [_ Hy]%list_elem_of_filter [_ Hz]%list_elem_of_filter. by apply (ranking_key C).
  - intros key. rewrite <- !list_elem_of_In, !list_elem_of_fmap. intros (w & -> & [[Hwx Hne] Hw]%list_elem_of_filter).
    destruct (ranking_best (C ++ D) w) as (w' & Hw' & Hk & Hb); [apply elem_of_ranking in Hw as [? _]; set_solver|].
    exists w'. split; [done|]. apply list_elem_of_filter. split; [|done]. split; [by trans w|]. intros ->. apply Hne.
    by apply (ranking_key C).
Qed.
Lemma top_app_l k C D : top k (top k C ++ D) = top k (C ++ D).
Proof.
  apply take_ranking_part.
  - intros x. rewrite !elem_of_app. intros [?%elem_of_top|?]; auto.
  - intros x Hx. pose proof Hx as [H|H]%elem_of_top%elem_of_app; apply elem_of_app; [left|by right]. by eapply top_keeps.
Qed.
Lemma top_app k C D : merge_top_matches (top k C) (top k D) k = top k (C ++ D).
Proof.
  change (top k (top k C ++ top k D) = top k (C ++ D)). rewrite top_app_l, (top_ext _ _ (top k D ++ C)) by set_solver.
  rewrite top_app_l. apply top_ext. set_solver.
Qed.

(** ** Scoring a batch of keys *)

Section Facts.
Context {E : Type} (cancelled : nat -> bool).
#[local] Notation quiet := (quiet cancelled).

Lemma quiet_l n m n' : quiet n n' -> m <= n' -> quiet n m.
Proof. intros H Hm k Hk. apply H. lia. Qed.
Lemma quiet_r n m n' : quiet n n' -> n <= m -> quiet m n'.
Proof. intros H Hm k Hk. apply H. lia. Qed.
Lemma quiet_at n m n' : quiet n n' -> n <= m < n' -> cancelled m = false.
Proof. intros H. apply H. Qed.

(** The vectors of a store can be read. *)
Record readable (store : VectorStore (E := E)) : Prop := {
  readable_valid : accepts store = Ok tt;
  readable_score : forall key, exists s, score store key = Ok s
}.
Definition match_of (store : VectorStore (E := E)) (key : N) : option VectorMatch :=
  match score store key with Ok (Some s) => Some (MkMatch key s) | _ => None end.
Definition matches_of (store : VectorStore (E := E)) (keys : list N) : list VectorMatch := omap (match_of store) keys.

Lemma match_of_key store key x : match_of store key = Some x -> vm_key x = key.
Proof. unfold match_of. repeat case_match; by intros [= <-]. Qed.
Lemma elem_of_matches store keys x : x ∈ matches_of store keys <-> vm_key x ∈ keys /\ match_of store (vm_key x) = Some x.
Proof.
  unfold matches_of. rewrite list_elem_of_omap. split.
  - intros (key & Hk & Hm). by rewrite (match_of_key _ _ _ Hm).
  - intros [Hk Hm]. by exists (vm_key x).
Qed.
Lemma ranking_matches store keys x : x ∈ matches_of store keys -> x ∈ ranking (matches_of store keys).
Proof.
  intros Hx. apply elem_of_ranking. split; [done|]. intros y Hy He. assert (y = x) as ->; [|apply best_first_refl].
  apply elem_of_matches in Hx as [_ Hx], Hy as [_ Hy]. congruence.
Qed.

(** The heap holds the best of the keys that were scored, and knows their keys. *)
Record scored (store : VectorStore (E := E)) (count : nat) (top : Heap) (retained : gset N) (keys : list N) : Prop := {
  scored_best : holds_best count top (ranking (matches_of store keys));
  scored_keys : forall key, key ∈ retained <-> key ∈ map vm_key top
}.
Lemma holds_best_ranked count h Q x : holds_best count h (ranking Q) -> x ∈ h -> x ∈ ranking Q.
Proof. intros (_ & _ & rest & Hp & _) Hx. rewrite <- Hp. set_solver. Qed.
Lemma holds_best_keys count h Q : holds_best count h (ranking Q) -> NoDup (map vm_key h).
Proof.
  intros (_ & _ & rest & Hp & _). pose proof (ranking_keys_NoDup Q) as H. rewrite <- Hp, map_app in H. by apply NoDup_app in H as [? _].
Qed.
Lemma holds_best_snoc count h Q x : 0 < count -> holds_best count h (ranking Q) -> (forall y, y ∈ Q -> vm_key y <> vm_key x) ->
  holds_best count (top_step count h x) (ranking (Q ++ [x])).
Proof.
  intros Hc Hh Hnew. destruct (top_step_holds count h (ranking Q) x Hc Hh) as (Hs & Hl & rest & Hp & Hrest).
  split; [done|]. split; [done|]. exists rest. split; [|done]. rewrite Hp. apply NoDup_Permutation.
  - apply NoDup_app. split_and!; [apply ranking_NoDup| |apply NoDup_singleton].
    intros y [Hy _]%elem_of_ranking ->%list_elem_of_singleton. by apply (Hnew x).
  - apply ranking_NoDup.
  - intros y. rewrite elem_of_app, !elem_of_ranking, list_elem_of_singleton. setoid_rewrite elem_of_app.
    setoid_rewrite list_elem_of_singleton. split.
    + intros [[Hy Hb]| ->].
      * split; [by left|]. intros z [Hz| ->] Hk; [by apply Hb|]. by destruct (Hnew y).
      * split; [by right|]. intros z [Hz| ->] Hk; [by destruct (Hnew z)|apply best_first_refl].
    + intros [[Hy| ->] Hb]; [left|by right]. split; [done|]. intros z Hz. apply Hb. by left.
Qed.

Lemma scored_ext store count h retained keys keys' : (forall x, x ∈ matches_of store keys <-> x ∈ matches_of store keys') ->
  scored store count h retained keys -> scored store count h retained keys'.
Proof. intros He [Hb Hk]. split; [|done]. by rewrite <- (ranking_ext _ _ He). Qed.
Lemma matches_skip store keys key : (forall x, match_of store key = Some x -> x ∈ matches_of store keys) ->
  forall x, x ∈ matches_of store keys <-> x ∈ matches_of store (keys ++ [key]).
Proof.
  intros H x. rewrite (elem_of_matches store (keys ++ [key])), elem_of_app, list_elem_of_singleton. split.
  - intros [? ?]%elem_of_matches. auto.
  - intros [[?| ->] Hx]; [by apply elem_of_matches|by apply H].
Qed.

(** A key that was scored before and is not kept any more is not kept again. *)
Lemma scored_seen store count h retained keys x : scored store count h retained keys -> x ∈ matches_of store keys -> vm_key x ∉ retained ->
  count <= length h /\ (match heap_peek h with Some worst => ranked_gt x worst | None => false end) = false.
Proof.
  intros [(Hs & Hl & rest & Hp & Hfull & Hbest) Hk] Hx Hn.
  assert (x ∉ h) as Hxh. { intros H. apply Hn, Hk. apply list_elem_of_fmap. eauto. }
  apply ranking_matches in Hx. rewrite <- Hp in Hx. apply elem_of_app in Hx as [Hx|Hx]; [done|].
  split; [rewrite Hfull; [done|by intros ->; apply elem_of_nil in Hx]|].
  destruct h as [|w h]; [done|]. cbn [heap_peek head]. apply not_true_is_false. intros Hg%ranked_gt_best. apply Hxh.
  rewrite (anti_symm best_first x w Hg); [left|]. apply Hbest; [left|done].
Qed.

Lemma scored_new store count h retained keys key x : 0 < count -> scored store count h retained keys -> match_of store key = Some x ->
  x ∉ matches_of store keys ->
  (length h < count -> scored store count (heap_push x h) ({[key]} ∪ retained) (keys ++ [key]))
  /\ (count <= length h ->
      match heap_peek h with
      | Some w => if ranked_gt x w then scored store count (heap_push x (heap_pop h)) ({[key]} ∪ retained ∖ {[vm_key w]}) (keys ++ [key])
                  else scored store count h retained (keys ++ [key])
      | None => False
      end).
Proof.
  intros Hc [Hb Hk] Hm Hx. pose proof (match_of_key _ _ _ Hm) as Hkey.
  assert (matches_of store (keys ++ [key]) = matches_of store keys ++ [x]) as Hsnoc.
  { unfold matches_of. rewrite omap_app. cbn. by rewrite Hm. }
  pose proof (holds_best_snoc count h (matches_of store keys) x Hc Hb) as Hstep. rewrite <- Hsnoc in Hstep.
  assert (forall y, y ∈ matches_of store keys -> vm_key y <> vm_key x) as Hnew.
  { intros y Hy He. apply Hx. assert (y = x) as <-; [|done]. apply elem_of_matches in Hy as [_ Hy]. congruence. }
  specialize (Hstep Hnew). unfold top_step in Hstep. pose proof (holds_best_keys _ _ _ Hb) as Hd. split; intros Hl.
  - rewrite (proj2 (Nat.ltb_lt _ _) Hl) in Hstep. split; [done|]. intros k.
    rewrite heap_push_perm. cbn [map]. rewrite Hkey, elem_of_cons, <- Hk. set_solver.
  - rewrite (proj2 (Nat.ltb_ge _ _) Hl) in Hstep. destruct h as [|w h]; [cbn in Hl; lia|]. cbn [heap_peek heap_pop head tail] in *.
    destruct (ranked_gt x w); split; try done. intros k. rewrite heap_push_perm. cbn [map] in *. apply NoDup_cons in Hd as [Hw _].
    rewrite Hkey, elem_of_cons, elem_of_union, elem_of_difference, !elem_of_singleton, Hk, elem_of_cons.
    destruct (decide (k = vm_key w)) as [->|]; tauto.
Qed.

Lemma score_loop_spec store count keys : readable store -> 0 < count -> forall h retained done_keys n r n',
  scored store count h retained done_keys -> score_loop cancelled store count h retained keys n = (r, n') ->
  n <= n' /\ (quiet n n' -> exists h' retained', r = Ok (Some h') /\ scored store count h' retained' (done_keys ++ keys)).
Proof.
  intros [_ Hr] Hc. induction keys as [|key keys IH]; intros h retained dk n r n' Hsc; cbn [score_loop].
  { intros [= <- <-]. split; [lia|]. intros _. exists h, retained. by rewrite app_nil_r. }
  assert (forall h retained, scored store count h retained (dk ++ [key]) -> score_loop cancelled store count h retained keys (S n) = (r, n') ->
    n <= n' /\ (quiet n n' -> exists h' retained', r = Ok (Some h') /\ scored store count h' retained' (dk ++ key :: keys))) as Hgo.
  { intros h1 ret1 Hsc1 H. apply (IH _ _ _ _ _ _ Hsc1) in H as [Hn H]. split; [lia|]. intros Hq.
    rewrite cons_middle, app_assoc. apply H. eapply quiet_r; [exact Hq|lia]. }
  destruct (cancelled n) eqn:En.
  { intros [= <- <-]. split; [lia|]. intros Hq. rewrite (Hq n) in En by lia. done. }
  case_bool_decide as Hin.
  { apply Hgo. eapply scored_ext; [|exact Hsc]. apply matches_skip. intros x Hx. pose proof (match_of_key _ _ _ Hx) as <-.
    destruct Hsc as [Hb Hk]. apply Hk, list_elem_of_fmap in Hin as (y & Hy & Hyh).
    apply (holds_best_ranked _ _ _ _ Hb), elem_of_ranking in Hyh as [Hyh _]. rewrite Hy in Hx.
    pose proof Hyh as [_ Hm]%elem_of_matches. congruence. }
  destruct (Hr key) as [[s|] Es]; rewrite Es; cycle 1.
  { apply Hgo. eapply scored_ext; [|exact Hsc]. apply matches_skip. unfold match_of. by rewrite Es. }
  assert (match_of store key = Some (MkMatch key s)) as Hm by (unfold match_of; by rewrite Es).
  destruct (decide (MkMatch key s ∈ matches_of store dk)) as [Hseen|Hnew].
  - destruct (scored_seen _ _ _ _ _ _ Hsc Hseen) as [Hl Hg]; [done|]. rewrite (proj2 (Nat.ltb_ge _ _) Hl), Hg.
    apply Hgo. eapply scored_ext; [|exact Hsc]. apply matches_skip. intros x Hx. congruence.
  - destruct (scored_new _ _ _ _ _ _ _ Hc Hsc Hm Hnew) as [Hlt Hge]. destruct (Nat.ltb_spec (length h) count) as [Hl|Hl]; [by apply Hgo, Hlt|].
    specialize (Hge Hl). destruct (heap_peek h) as [w|]; [|done]. destruct (ranked_gt _ w); by apply Hgo.
Qed.

Lemma score_many_spec store keys count n r n' : readable store ->
  score_many_top_k_checked cancelled store keys count n = (r, n') ->
  n <= n' /\ (quiet n n' -> r = Ok (top count (matches_of store keys))).
Proof.
  intros Hr. destruct count as [|m]; cbn [score_many_top_k_checked]; [intros [= <- <-]; done|].
  destruct (cancelled n) eqn:En.
  { intros [= <- <-]. split; [lia|]. intros Hq. rewrite (Hq n) in En by lia. done. }
  rewrite (readable_valid _ Hr). destruct (score_loop _ _ _ _ _ _ _) as [r1 n1] eqn:El.
  apply (score_loop_spec _ _ _ Hr (Nat.lt_0_succ m) _ _ []) in El as [Hn Hl]; cycle 1.
  { split; [apply holds_best_nil|]. intros k. cbn [map]. set_solver. }
  assert (n <= n1) by lia. intros H1. assert (n' = n1) as -> by (destruct r1 as [[?|]|]; congruence).
  split; [done|]. intros Hq. destruct Hl as (h & ret & -> & [Hb _]); [eapply quiet_r; [exact Hq|lia]|].
  injection H1 as <-. cbn [app] in Hb. rewrite (holds_best_take _ _ _ Hb). unfold top. do 2 f_equal.
  apply (Sorted_unique best_first); [apply Sorted_merge_sort; apply _|apply StronglySorted_Sorted, ranking_sorted|apply merge_sort_Permutation].
Qed.

Definition all_matches (stores : list (VectorStore (E := E))) (keys : list N) : list VectorMatch :=
  stores ≫= fun store => matches_of store keys.
Definition merge_batch (limit : nat) (stores : list (VectorStore (E := E))) (keys : list N) (best : list VectorMatch) : list VectorMatch :=
  foldl (fun best store => merge_top_matches best (top limit (matches_of store keys)) limit) best stores.

Lemma merge_batch_top limit stores keys : forall C, merge_batch limit stores keys (top limit C) = top limit (C ++ all_matches stores keys).
Proof.
  unfold merge_batch, all_matches. induction stores as [|store stores IH]; intros C; [cbn; by rewrite app_nil_r|].
  cbn [foldl]. rewrite top_app, IH, bind_cons. by rewrite app_assoc.
Qed.
Lemma score_batch_spec keys limit stores : Forall readable stores -> forall best n r n',
  score_batch cancelled keys limit stores best n = (r, n') ->
  n <= n' /\ (quiet n n' -> r = Ok (merge_batch limit stores keys best)).
Proof.
  induction 1 as [|store stores Hr _ IH]; intros best n r n'; cbn [score_batch]; [intros [= <- <-]; done|].
  destruct (cancelled n) eqn:En.
  { intros [= <- <-]. split; [lia|]. intros Hq. rewrite (Hq n) in En by lia. done. }
  destruct (score_many_top_k_checked _ _ _ _ _) as [r1 n1] eqn:Es. apply score_many_spec in Es as [Hn1 Hs]; [|done].
  destruct r1 as [more|e].
  - intros [Hn' H]%IH. split; [lia|]. intros Hq. rewrite H by (eapply quiet_r; [exact Hq|lia]).
    specialize (Hs ltac:(eapply quiet_l; [eapply quiet_r; [exact Hq|]|]; lia)) as [= ->]. done.
  - intros [= <- <-]. split; [lia|]. intros Hq. specialize (Hs ltac:(eapply quiet_r; [exact Hq|lia])). done.
Qed.

(** ** The exact scan *)

Context (stores : list (VectorStore (E := E))) (Hstores : Forall readable stores).
Context (tombstones overlay_files : list N -> bool).
Context (matches : list str -> path -> bool) (L : GlobLaws matches) (query : FilteredChunkQuery).

Definition exact_step (limit : nat) (state : list N * list VectorMatch) (chunk : Row) : Result E (list N * list VectorMatch * bool) :=
  let keys := state.1 ++ [vector_key chunk] in
  if length keys =? ELIGIBLE_KEY_BATCH then Ok ([], merge_batch limit stores keys state.2, true) else Ok (keys, state.2, true).
Lemma scan_chunk_spec limit state row n r n' : scan_chunk cancelled stores limit state row n = (r, n') ->
  n <= n' /\ (quiet n n' -> r = exact_step limit state row).
Proof.
  unfold scan_chunk, exact_step. destruct (cancelled n) eqn:En.
  { intros [= <- <-]. split; [lia|]. intros Hq. rewrite (Hq n) in En by lia. done. }
  destruct (_ =? _).
  - destruct (score_batch _ _ _ _ _ _) as [r1 n1] eqn:Es. apply score_batch_spec in Es as [Hn Hs]; [|done]. destruct r1 as [best|e].
    + intros [= <- <-]. split; [lia|]. intros Hq. specialize (Hs ltac:(intros k Hk; apply Hq; lia)) as [= ->].
      rewrite (Hq n1) by lia. done.
    + intros [= <- <-]. split; [lia|]. intros Hq. specialize (Hs ltac:(intros k Hk; apply Hq; lia)). done.
  - intros [= <- <-]. split; [lia|]. intros Hq. rewrite (Hq (S n)) by lia. done.
Qed.

(** The best matches are those of the keys that were scored, the others are pending. *)
Definition scan_holds (limit : nat) (state : list N * list VectorMatch) (keys : list N) : Prop :=
  exists scored_keys, keys = scored_keys ++ state.1 /\ state.2 = top limit (all_matches stores scored_keys).
Lemma elem_of_all_matches keys x : x ∈ all_matches stores keys <-> exists store, x ∈ matches_of store keys /\ store ∈ stores.
Proof. unfold all_matches. by rewrite list_elem_of_bind. Qed.
Lemma merge_batch_app limit keys more :
  merge_batch limit stores more (top limit (all_matches stores keys)) = top limit (all_matches stores (keys ++ more)).
Proof.
  rewrite merge_batch_top. apply top_ext. intros x. rewrite elem_of_app, !elem_of_all_matches. setoid_rewrite elem_of_matches.
  setoid_rewrite elem_of_app. naive_solver.
Qed.
Lemma exact_step_holds limit state keys row : scan_holds limit state keys ->
  exists state', exact_step limit state row = Ok (state', true) /\ scan_holds limit state' (keys ++ [vector_key row]).
Proof.
  intros (sk & -> & Hbest). unfold exact_step. destruct (_ =? _); eexists; (split; [reflexivity|]).
  - exists ((sk ++ state.1) ++ [vector_key row]). cbn [fst snd]. rewrite app_nil_r. split; [done|].
    by rewrite Hbest, merge_batch_app, app_assoc.
  - exists sk. cbn [fst snd]. by rewrite app_assoc.
Qed.
Lemma feed_scan limit rows : forall state keys, scan_holds limit state keys ->
  exists state', feed_rows (exact_step limit) state rows = Ok state' /\ scan_holds limit state' (keys ++ map vector_key rows).
Proof.
  induction rows as [|row rows IH]; intros state keys Hs; cbn [feed_rows map]; [exists state; by rewrite app_nil_r|].
  destruct (exact_step_holds limit state keys row Hs) as (state1 & -> & Hs1). cbn [mbind result_bind].
  rewrite cons_middle, app_assoc. by apply IH.
Qed.

(** The keys the filters select, in the order of the scan. *)
Fixpoint selected_keys (index : nat) (tables : list (list Row)) : list N :=
  match tables with
  | [] => []
  | rows :: tables =>
    map vector_key (filter (fun row => (selected query row
      && negb (is_shadowed_base_file tombstones overlay_files index (row_path row))) = true) rows) ++ selected_keys (S index) tables
  end.
Definition readable_tables (tables : list (list Row)) : list (Result E (list (Result E Row))) := map (fun rows => Ok (map Ok rows)) tables.

Lemma scan_databases_spec limit tables : Forall (query_ok matches query) tables -> forall state index n r n',
  scan_databases cancelled stores tombstones overlay_files query limit state index (readable_tables tables) n = (r, n') ->
  n <= n' /\ (quiet n n' -> forall keys, scan_holds limit state keys ->
    exists state', r = Ok (Some state') /\ scan_holds limit state' (keys ++ selected_keys index tables)).
Proof.
  unfold readable_tables. induction 1 as [|rows tables Hq _ IH]; intros state index n r n'; cbn [map scan_databases selected_keys].
  { intros [= <- <-]. split; [lia|]. intros _ keys Hs. exists state. by rewrite app_nil_r. }
  destruct (cancelled n) eqn:En.
  { intros [= <- <-]. split; [lia|]. intros Hqt. rewrite (Hqt n) in En by lia. done. }
  destruct (visit_filtered_chunks _ _ _ _ _ _ _) as [r1 n1] eqn:Ev.
  apply (visit_filtered_feed matches L query cancelled _ _ (exact_step limit) (scan_chunk_spec limit)) in Ev as [Hn Hv]; [|done].
  set (rows' := filter _ rows) in *.
  destruct r1 as [state1|e].
  - intros [Hn' H]%IH. split; [lia|]. intros Hqt keys Hs. destruct (feed_scan limit rows' state keys Hs) as (state2 & Hf & Hs2).
    rewrite Hf in Hv. specialize (Hv ltac:(intros k Hk; apply Hqt; lia)) as [= ->]. rewrite app_assoc. apply H; [|done].
    eapply quiet_r; [exact Hqt|lia].
  - intros [= <- <-]. split; [lia|]. intros Hqt keys Hs. destruct (feed_scan limit rows' state keys Hs) as (state2 & Hf & _).
    rewrite Hf in Hv. specialize (Hv ltac:(intros k Hk; apply Hqt; lia)). done.
Qed.

Definition exact_matches (limit : nat) (tables : list (list Row)) : list VectorMatch := top limit (all_matches stores (selected_keys 0 tables)).

Lemma top_all_nil limit : top limit (all_matches stores []) = [].
Proof. rewrite (top_ext _ _ []); [by destruct limit|]. intros x. rewrite elem_of_all_matches. setoid_rewrite elem_of_matches. set_solver. Qed.
(** A scan that nobody cancels is exact, and one that is cancelled gives nothing. *)
Lemma exact_scan_spec limit tables n r n' : Forall (query_ok matches query) tables -> (forall i j, i <= j -> cancelled i = true -> cancelled j = true) ->
  exact_scan cancelled stores tombstones overlay_files query limit (readable_tables tables) n = (r, n') ->
  n <= n' /\ match r with
             | Ok found => found = [] /\ ~ quiet n n' \/ quiet n n' /\ found = exact_matches limit tables
             | Err _ => ~ quiet n n'
             end.
Proof.
  intros Hq Hmono. unfold exact_scan. destruct (scan_databases _ _ _ _ _ _ _ _ _ _) as [r1 n1] eqn:Es.
  apply scan_databases_spec in Es as [Hn1 Hs]; [|done].
  assert (scan_holds limit ([], []) []) as Hinit by (exists []; split; [done|]; by rewrite top_all_nil).
  destruct r1 as [[[keys best]|]|e]; cycle 1.
  { intros [= <- <-]. split; [done|]. left. split; [done|]. intros Hqt. by destruct (Hs Hqt _ Hinit) as (? & ? & _). }
  { intros [= <- <-]. split; [done|]. intros Hqt. by destruct (Hs Hqt _ Hinit) as (? & ? & _). }
  destruct (cancelled n1) eqn:E1.
  { intros [= <- <-]. split; [lia|]. left. split; [done|]. intros Hqt. rewrite (Hqt n1) in E1 by lia. done. }
  destruct (score_batch _ _ _ _ _ _) as [r2 n2] eqn:Eb. apply score_batch_spec in Eb as [Hn2 Hb]; [|done].
  assert (quiet n (S n2) -> merge_batch limit stores keys best = exact_matches limit tables) as Hexact.
  { intros Hqt. destruct (Hs ltac:(intros k Hk; apply Hqt; lia) _ Hinit) as (state' & [= <-] & sk & Hk & Hbest).
    cbn [fst snd app] in Hk, Hbest. unfold exact_matches. by rewrite Hbest, merge_batch_app, Hk. }
  destruct r2 as [best2|e].
  - intros [= <- <-]. split; [lia|]. destruct (cancelled n2) eqn:E2.
    + left. split; [done|]. intros Hqt. rewrite (Hqt n2) in E2 by lia. done.
    + right. assert (quiet n (S n2)) as Hqt.
      { intros k Hk. apply not_true_is_false. intros Hc. rewrite (Hmono k n2) in E2 by (done || lia). done. }
      split; [done|]. specialize (Hb ltac:(intros k Hk; apply Hqt; lia)) as [= ->]. by rewrite Hexact.
  - intros [= <- <-]. split; [lia|]. intros Hqt. specialize (Hb ltac:(intros k Hk; apply Hqt; lia)). done.
Qed.

(** ** The whole refill *)

Context (fetch : list N -> Result E (N -> option Row)) (chunk_matches : Row -> bool).

(** An answer of the approximate index: as many eligible matches as were asked for, the
    best ones of its candidates. *)
Definition approximate (limit : nat) (found : list VectorMatch) : Prop :=
  length found = limit /\ exists ann_limit chunks,
    let candidates := top ann_limit (stores ≫= fun store => search store ann_limit) in
    fetch (map vm_key candidates) = Ok chunks /\
    found = take limit (filter (fun hit => match chunks (vm_key hit) with Some chunk => chunk_matches chunk | None => false end = true) candidates).

Lemma ann_rounds_spec rounds limit cap previous : forall ann_limit n r n',
  ann_rounds cancelled fetch chunk_matches stores rounds limit cap previous ann_limit n = (r, n') ->
  n <= n' /\ match r with
             | Ok (Enough found) => quiet n n' /\ approximate limit found
             | Ok Interrupted => ~ quiet n n'
             | Ok Underfilled => quiet n n'
             | Err e => exists keys, fetch keys = Err e
             end.
Proof.
  induction rounds as [|rounds IH]; intros al n r n'; cbn [ann_rounds]; [intros [= <- <-]; split; [lia|intros k; lia]|].
  destruct (_ <=? _)%Z; [intros [= <- <-]; split; [lia|intros k; lia]|]. destruct (cancelled n) eqn:En.
  { intros [= <- <-]. split; [lia|]. intros Hqt. rewrite (Hqt n) in En by lia. done. }
  assert (quiet n (S n)) as Hn by (intros k Hk; by replace k with n by lia).
  set (candidates := collect_semantic_vector_matches _ _).
  destruct (fetch (map vm_key candidates)) as [chunks|e] eqn:Ef; [|intros [= <- <-]; split; [lia|eauto]].
  set (eligible := take limit _). destruct (Nat.leb_spec limit (length eligible)) as [Hl|Hl].
  - intros [= <- <-]. split; [lia|]. split; [done|]. unfold eligible in *. rewrite take_take, Nat.min_id. split.
    + rewrite length_take in Hl |- *. lia.
    + by exists (Z.to_nat al), chunks.
  - destruct (_ || _); [intros [= <- <-]; split; [lia|done]|]. intros [Hn' H]%IH. split; [lia|].
    assert (quiet (S n) n' -> quiet n n') as Hqt.
    { intros H1 k Hk. destruct (decide (k = n)) as [->|]; [done|]. apply H1. lia. }
    destruct r as [[| |]|]; [split; [apply Hqt|]; tauto| |by apply Hqt|done].
    intros Hq'. apply H. eapply quiet_r; [exact Hq'|lia].
Qed.

(** ** The keys of a constrained search *)

Lemma chunks_of_concat size keys fuel : 0 < size -> length keys <= fuel -> concat (chunks_of fuel size keys) = keys.
Proof.
  intros Hs. revert keys. induction fuel as [|fuel IH]; intros [|key keys] Hf; cbn in Hf; try done; [lia|]. cbn [chunks_of concat].
  rewrite IH; [apply take_drop|]. rewrite length_drop. cbn. lia.
Qed.
Lemma score_batches_spec limit batches : forall best n r n', score_batches cancelled stores limit batches best n = (r, n') ->
  n <= n' /\ (quiet n n' -> r = Ok (Some (foldl (fun best batch => merge_batch limit stores batch best) best batches))).
Proof.
  induction batches as [|batch batches IH]; intros best n r n'; cbn [score_batches foldl]; [intros [= <- <-]; done|].
  destruct (cancelled n) eqn:En.
  { intros [= <- <-]. split; [lia|]. intros Hq. rewrite (Hq n) in En by lia. done. }
  destruct (score_batch _ _ _ _ _ _) as [r1 n1] eqn:Eb. apply score_batch_spec in Eb as [Hn1 Hb]; [|done]. destruct r1 as [best1|e].
  - intros [Hn' H]%IH. split; [lia|]. intros Hq. specialize (Hb ltac:(intros k Hk; apply Hq; lia)) as [= ->].
    apply H. eapply quiet_r; [exact Hq|lia].
  - intros [= <- <-]. split; [lia|]. intros Hq. specialize (Hb ltac:(intros k Hk; apply Hq; lia)). done.
Qed.
Lemma merge_batches limit batches : forall keys,
  foldl (fun best batch => merge_batch limit stores batch best) (top limit (all_matches stores keys)) batches
  = top limit (all_matches stores (keys ++ concat batches)).
Proof.
  induction batches as [|batch batches IH]; intros keys; cbn [foldl concat]; [by rewrite app_nil_r|].
  by rewrite merge_batch_app, IH, app_assoc.
Qed.
(** Uncancelled, the batches are scored exactly. *)
Lemma constrained_keys_exact keys limit n r n' : score_constrained_semantic_keys cancelled fetch chunk_matches stores keys limit n = (r, n') ->
  quiet n n' ->
  let best := top limit (all_matches stores keys) in
  match fetch (map vm_key best) with
  | Err e => r = Err e
  | Ok chunks => r = Ok (omap (fun hit => match chunks (vm_key hit) with
                                          | Some chunk => if chunk_matches chunk then Some (chunk, vm_score hit) else None
                                          | None => None
                                          end) best)
  end.
Proof.
  unfold score_constrained_semantic_keys. destruct (score_batches _ _ _ _ _ _) as [r1 n1] eqn:Es.
  apply score_batches_spec in Es as [Hn Hb]. rewrite <- (top_all_nil limit), (merge_batches limit _ []) in Hb.
  rewrite chunks_of_concat in Hb by (unfold ELIGIBLE_KEY_BATCH; lia). cbn [app] in Hb. intros Hrun Hq.
  assert (n1 <= n') as Hn'. { destruct r1 as [[?|]|]; repeat case_match; simplify_eq; lia. }
  specialize (Hb (quiet_l _ _ _ Hq Hn')) as ->. destruct (cancelled n1) eqn:E1.
  { injection Hrun as <- <-. rewrite (Hq n1) in E1 by lia. done. }
  destruct (fetch _); by injection Hrun as <- _.
Qed.
End Facts.

(** C13. Refilling semantic matches is exact.  Unless it is cancelled, and then it gives no
    matches, never a part of them, a refill that returns gives either as many eligible
    matches of the approximate index as were asked for, or exactly the best [limit] of the
    scores of all chunks the filters select in the overlay and the base, each key at its
    best score, best first: the batches, the bounded heaps and the merges lose nothing.  All
    this is over vector stores and databases that can be read, a query and rows as in
    [filtered_chunks_lossless], a cancellation that stays and a limit above zero; an
    uncancelled refill then fails only when the chunks of candidates cannot be fetched. *)
Theorem refill_exact {E} cancelled fetch chunk_matches (stores : list (VectorStore (E := E))) tombstones overlay_files matches query
    limit previous_ann tables n r n'
    (L : GlobLaws matches) (Hmono : forall i j, i <= j -> cancelled i = true -> cancelled j = true)
    (Hstores : Forall readable stores) (Htables : Forall (query_ok matches query) tables) (Hlimit : 0 < limit)
    (Hrun : refill_semantic_matches cancelled fetch chunk_matches stores tombstones overlay_files query limit previous_ann
              (readable_tables tables) n = (r, n')) :
  match r with
  | Ok found => found = [] /\ ~ quiet cancelled n n'
                \/ quiet cancelled n n' /\ (approximate stores fetch chunk_matches limit found
                                           \/ found = exact_matches stores tombstones overlay_files query limit tables)
  | Err e => quiet cancelled n n' -> exists keys, fetch keys = Err e
  end.
Proof.
  unfold refill_semantic_matches in Hrun. destruct limit as [|l]; [lia|]. revert Hrun. generalize (S l) as limit. intros limit.
  destruct (cancelled n) eqn:En.
  { intros [= <- <-]. left. split; [done|]. intros Hqt. rewrite (Hqt n) in En by lia. done. }
  destruct (ann_rounds _ _ _ _ _ _ _ _ _ _) as [r1 n1] eqn:Ea. apply ann_rounds_spec in Ea as [Hn1 Ha].
  assert (forall n', quiet cancelled (S n) n' -> quiet cancelled n n') as Hqt.
  { intros m H1 k Hk. destruct (decide (k = n)) as [->|]; [done|]. apply H1. lia. }
  destruct r1 as [[found| |]|e].
  - intros [= <- <-]. right. destruct Ha. auto.
  - intros [= <- <-]. left. split; [done|]. intros Hq. apply Ha. eapply quiet_r; [exact Hq|lia].
  - intros [Hn' Hs]%(exact_scan_spec cancelled stores Hstores tombstones overlay_files matches L); [|done|done].
    assert (quiet cancelled n1 n' -> quiet cancelled n n') as Hall.
    { intros H1. apply Hqt. intros k Hk. destruct (decide (k < n1)); [apply Ha|apply H1]; lia. }
    assert (quiet cancelled n n' -> quiet cancelled n1 n') as Hpart by (intros Hq; eapply quiet_r; [exact Hq|lia]).
    destruct r as [found|e]; [|tauto]. destruct Hs as [[-> H]|[H ->]]; [left|right]; auto.
  - intros [= <- <-]. auto.
Qed.

(** The approximate index finds nothing; two of five chunks are selected and not shadowed. *)
Definition example_store : VectorStore (E := unit) :=
  MkStore (Ok tt) (fun key => Ok (if bool_decide (key = 4%N) then Some 9%N else if bool_decide (key = 1%N) then Some 5%N else None)) (fun _ => []).
Lemma refill_exact_witness :
  let found := [MkMatch 4 9; MkMatch 1 5] in
  let fetch keys := Ok (fun _ => None) in
  let replaced p := bool_decide (p = lit "src/a.rs") in
  approximate [example_store] fetch (fun _ => true) 10 found
  \/ found = exact_matches [example_store] (fun _ => false) replaced example_query 10 [example_overlay; example_base].
Proof.
  intros found fetch replaced.
  destruct (refill_exact (fun _ => false) fetch (fun _ => true) [example_store] (fun _ => false) replaced (simple_globs) example_query
              10 (10, 0)%Z [example_overlay; example_base] 0 (Ok found)
              ltac:(let n := eval vm_compute in (refill_semantic_matches (fun _ => false) fetch (fun _ => true) [example_store]
                 (fun _ => false) replaced example_query 10 (10, 0)%Z (readable_tables [example_overlay; example_base]) 0).2 in exact n)
              simple_globs_laws) as [[H _]|[_ H]]; [..|done|exact H].
  - done.
  - constructor; [|constructor]. split; [done|]. intros key. eexists. reflexivity.
  - constructor; [apply example_overlay_ok|]. constructor; [apply example_base_ok|constructor].
  - apply Nat.ltb_lt. by vm_compute.
  - vm_compute. reflexivity.
Defined.
