(* ===== verification/GitState.v ===== *)
(** * Reusing the index of a clean checkout: indexer/git_state.rs.

  A marker file beside an index records the state of a clean Git checkout.  When it still
  describes the checkout, the index can serve as a base without a walk of the sources.
  Every process that is started and every file that is read is a question to a world that
  may change between any two of them, and the answers are events.  The 128-bit digest, the
  ignore crate's count of whitelist rules, and what the index stores say of themselves are
  parameters.  Text is its UTF-8 bytes. *)
From S2P Require Import Prelude Utf8 Decimal BTree Paths PathNames GitChanges Merkle Io.

Definition NL : N := 10%N.
Definition CLEAN_GIT_STATE_VERSION : list N := lit "indexed-sources-v1".

(** ** Parsing what Git prints *)

(** [std::str::from_utf8(bytes).ok()] *)
Definition from_utf8_ok (s : list N) : option (list N) := if valid_utf8 s then Some s else None.

Fixpoint parse_head_lines (head : option (list N)) (lines : list (list N)) : option (option (list N)) :=
  match lines with
  | [] => Some head
  | [] :: lines => parse_head_lines head lines
  | line :: lines =>
    header ← strip_prefix (lit "# ") line;
    match strip_prefix (lit "branch.oid ") header with
    | Some object => object ← from_utf8_ok object; parse_head_lines (Some object) lines
    | None => parse_head_lines head lines
    end
  end.
Definition parse_clean_head (status : list N) : option (list N) :=
  head ← parse_head_lines None (split_on NL status);
  object ← head;
  if bool_decide (object = lit "(initial)") then None else Some object.

Record GitCoreConfig := MkConfig { excludes_file : option path; sparse_checkout : bool; sparse_cone : option bool }.
Definition default_config : GitCoreConfig := MkConfig None false None.

Definition parse_git_bool (value : str) : option bool :=
  let value := ascii_lower value in
  if bool_decide (value ∈ [lit "true"; lit "yes"; lit "on"]) then Some true
  else if bool_decide (value ∈ [lit "false"; lit "no"; lit "off"; []]) then Some false
  else (fun number => negb (number =? 0)%Z) <$> parse_int (- 2 ^ 63) (2 ^ 63 - 1) value.

Definition config_entry (root : path) (config : GitCoreConfig) (entry : list N) : option GitCoreConfig :=
  entry ← from_utf8_ok entry;
  '(key, value) ← split_once NL entry;
  if bool_decide (key = lit "core.excludesfile") then
    Some (MkConfig (if bool_decide (value = []) then None else Some (push root value)) (sparse_checkout config) (sparse_cone config))
  else if bool_decide (key = lit "core.sparsecheckout") then
    b ← parse_git_bool value; Some (MkConfig (excludes_file config) b (sparse_cone config))
  else if bool_decide (key = lit "core.sparsecheckoutcone") then
    b ← parse_git_bool value; Some (MkConfig (excludes_file config) (sparse_checkout config) (Some b))
  else Some config.
Definition parse_core_config (root : path) (entries : list N) : option GitCoreConfig :=
  foldl (fun config entry => config ← config; config_entry root config entry) (Some default_config) (nul_fields entries).

(** ** Ignore files *)

(** [BTreeMap<PathBuf, bool>]: keys are compared by components, and an entry keeps the
    spelling it was first inserted with. *)
Definition IgnoreControls : Type := list (list (list N) * (path * bool)).
Definition controls_insert (p : path) (independent : bool) (controls : IgnoreControls) : IgnoreControls :=
  match bt_get (path_ord p) controls with
  | Some (first, _) => bt_insert (path_ord p) (first, independent) controls
  | None => bt_insert (path_ord p) (p, independent) controls
  end.
Definition controls_or_insert (p : path) (independent : bool) (controls : IgnoreControls) : IgnoreControls :=
  match bt_get (path_ord p) controls with
  | Some _ => controls
  | None => bt_insert (path_ord p) (p, independent) controls
  end.

(** [Path::ancestors]; the number of components is enough fuel. *)
Fixpoint ancestors_loop (fuel : nat) (p : path) : list path :=
  p :: match fuel, parent p with
       | S fuel, Some parent => ancestors_loop fuel parent
       | _, _ => []
       end.
Definition ancestors (p : path) : list path := ancestors_loop (length (components p)) p.

Definition is_ignore_file (p : path) : bool := bool_decide (file_name p = Some (lit ".ignore")).
Definition insert_ancestor (root : path) (controls : IgnoreControls) (directory : path) : IgnoreControls :=
  controls_insert (push directory (lit ".gitignore")) (negb (bool_decide (components directory = components root)))
    (controls_insert (push directory (lit ".ignore")) true controls).
(** A path that Git lists as ignored. *)
Definition insert_ignored (root : path) (controls : option IgnoreControls) (raw_path : list N) : option IgnoreControls :=
  controls ← controls;
  raw_path ← from_utf8_ok raw_path;
  let p := push root raw_path in
  Some (controls_or_insert p (is_ignore_file p) controls).

(** The path of a record of [git ls-files -v]. *)
Definition record_path (record : list N) : option path :=
  if length record <? 2 then None else from_utf8_ok (drop 2 record).
(** The set [tracked_paths]. *)
Definition tracked_paths (tracked_records : list N) : option (list (list N)) :=
  mapM (fun record => index_path_string <$> record_path record) (nul_fields tracked_records).

Record CleanGitCheckout := MkCheckout {
  state : list N;
  head_commit : list N;
  index_file : path;
  index_hash : list N;
  ignore_controls : IgnoreControls;
  ignore_state : list N;
  tracked_records : list N
}.
Definition state_text (head index_hash sparse ignore_state : list N) : list N :=
  head ++ NL :: index_hash ++ NL :: sparse ++ NL :: ignore_state ++ NL :: CLEAN_GIT_STATE_VERSION.

(** [files_have_same_contents], of what reading both files gave and whether each has an
    indexable name. *)
Definition files_have_same_contents {E} (left right : Result E (list N)) (left_indexable right_indexable : bool) : bool :=
  match left, right with
  | Ok left_bytes, Ok right_bytes =>
    bool_decide (left_bytes = right_bytes)
    || bool_decide (normalized_indexable_content left_indexable left_bytes = normalized_indexable_content right_indexable right_bytes)
  | _, _ => false
  end.

(** ** Reading the checkout *)

(** [status.code()] is [None] for a process that a signal ended. *)
Record Output := MkOutput { exit_code : option Z; stdout : list N }.
Definition succeeded (output : Output) : option (list N) :=
  if bool_decide (exit_code output = Some 0%Z) then Some (stdout output) else None.
Inductive ReadError := NotFound | OtherError.

Inductive Event :=
| Ran (args : list (list N)) (output : option Output)
| Hashed (input : list N)
| ReadIndex (p : path) (r : Result ReadError (list N))
| ReadIgnore (p : path) (r : Result ReadError (list N))
| Loaded (files : list (list N * list N))
| Matched (p : path) (hash : list N)
| Wrote (marker : list N)
| ReadMarker (marker : list N)
| Rebuilt.

Section Checkout.
Context {W E : Type}.
(** [skip_gitignore] is that of the workspace's metadata, [None] when there is none;
    [validate] is [validate_existing_index_storage], [queryable] is [quick_index_health];
    [rebuild] builds and saves a snapshot. *)
Record Host := MkHost {
  run_git : list (list N) -> W -> option Output * W;
  fs_read : path -> W -> Result ReadError (list N) * W;
  try_exists : path -> W -> option bool * W;
  xdg_config_home : W -> option path * W;
  home_dir : W -> option path * W;
  load_snapshot : W -> option (list (list N * list N)) * W;
  path_matches : path -> list N -> W -> bool * W;
  fs_write : path -> list N -> W -> bool * W;
  remove_file : path -> W -> unit * W;
  lock : W -> Result E unit * W;
  validate : W -> bool * W;
  queryable : W -> bool * W;
  skip_gitignore : W -> Result E (option bool) * W;
  rebuild : bool -> W -> Result E unit * W
}.
Context (host : Host) (xxh3 : list N -> list N) (whitelists : path -> list str -> option nat).
Abbreviation M A := (Io W Event A).

(** [?] on an option. *)
Definition if_some {A B} (m : M (option A)) (f : A -> M (option B)) : M (option B) :=
  r ← m; match r with Some a => f a | None => mret None end.
(** [&&] *)
Definition and_then (m : M bool) (f : M bool) : M bool := b ← m; if (b : bool) then f else mret false.

Definition run (args : list (list N)) : M (option Output) :=
  output ← ask (run_git host args); tell (Ran args output);; mret output.
Definition git (args : list string) : M (option (list N)) :=
  output ← run (map lit args); mret (output ≫= succeeded).
Definition digest (input : list N) : M (list N) := tell (Hashed input);; mret (xxh3 input).

Definition status_args : list string :=
  ["status"; "--porcelain=v2"; "--branch"; "--no-ahead-behind"; "--untracked-files=normal"; "--ignore-submodules=none"]%string.
Definition clean_git_head : M (option (list N)) :=
  if_some (git status_args) (fun stdout => mret (parse_clean_head stdout)).

(** [index] and [info_exclude] *)
Definition git_paths (root : path) : M (option (path * path)) :=
  if_some (git ["rev-parse"; "--git-path"; "index"; "--git-path"; "info/exclude"]%string) (fun stdout =>
  mret match str_lines (lossy_chars stdout) with
       | index :: info_exclude :: _ => Some (push root (bytes (trim index)), push root (bytes (trim info_exclude)))
       | _ => None
       end).

Definition file_hash (p : path) : M (option (list N)) :=
  r ← ask (fs_read host p); tell (ReadIndex p r);;
  match r with Ok bytes => hash ← digest bytes; mret (Some hash) | Err _ => mret None end.

Definition git_path (root : path) (args : list string) : M (option path) :=
  if_some (git args) (fun stdout =>
  let raw := trim (lossy_chars stdout) in
  mret (if bool_decide (raw = []) then None else Some (push root (bytes raw)))).

Definition config_args : list string := ["config"; "--path"; "-z"; "--get-regexp"; "^core\.(excludesfile|sparsecheckout|sparsecheckoutcone)$"]%string.
Definition git_core_config (root : path) : M (option GitCoreConfig) :=
  output ← run (map lit config_args);
  mret match output with
       | Some output =>
         if bool_decide (exit_code output = Some 0%Z) then parse_core_config root (stdout output)
         else if bool_decide (exit_code output = Some 1%Z) then Some default_config
         else None
       | None => None
       end.

Fixpoint tracked_controls (root : path) (controls : list path) (records : list (list N)) : M (option (list path)) :=
  match records with
  | [] => mret (Some controls)
  | record :: records =>
    match head record, record_path record with
    | Some tag, Some relative =>
      if is_ascii_lowercase tag then mret None
      else
        if_some (if (tag =? chr "S")%N then ask (try_exists host (push root relative)) else mret (Some false)) (fun present : bool =>
        if present then mret None
        else tracked_controls root (if is_ignore_file relative then controls ++ [push root relative] else controls) records)
    | _, _ => mret None
    end
  end.
Definition ls_files_args : list string := ["ls-files"; "-z"; "-v"; "--cached"; "--recurse-submodules"]%string.
Definition tracked_ignore_controls (root : path) : M (option (list path * list N)) :=
  if_some (git ls_files_args) (fun stdout =>
  if_some (tracked_controls root [] (nul_fields stdout)) (fun controls => mret (Some (controls, stdout)))).

Definition default_global_ignore : M (option path) :=
  xdg ← ask (xdg_config_home host);
  config ← match xdg with
           | Some config => mret (Some config)
           | None => home ← ask (home_dir host); mret ((fun home => push home (lit ".config")) <$> home)
           end;
  mret ((fun config => push config (lit "git/ignore")) <$> config).
Definition git_ignore_controls (root info_exclude : path) (config : option GitCoreConfig) : M (option (IgnoreControls * list N)) :=
  if_some (tracked_ignore_controls root) (fun '(tracked, tracked_records) =>
  configured ← match config with
               | Some config => mret (excludes_file config)
               | None => git_path root ["config"; "--path"; "--get"; "core.excludesFile"]%string
               end;
  default_ignore ← match configured with Some _ => mret None | None => default_global_ignore end;
  if_some (git ["ls-files"; "-z"; "--others"; "--ignored"; "--exclude-standard"; "--directory"; "--"; ":(glob)**/.gitignore"; ":(glob)**/.ignore"]%string)
    (fun stdout =>
  let controls := foldl (fun controls p => controls_insert p true controls) [] tracked in
  let controls := foldl (fun controls p => controls_or_insert p false controls) controls (omap id [Some info_exclude; configured; default_ignore]) in
  let controls := foldl (insert_ancestor root) controls (ancestors root) in
  let ignored := filter (fun p => ends_with [SEP] p = false) (nul_fields stdout) in
  mret ((fun controls => (controls, tracked_records)) <$> foldl (insert_ignored root) (Some controls) ignored))).

(** An independent control with whitelist rules needs a source walk.  The text loses the
    byte-order marks in front. *)
Definition has_no_whitelist (p : path) (contents : list N) : bool :=
  match parent p with
  | Some directory =>
    valid_utf8 contents
    && bool_decide (whitelists directory (str_lines (drop_while (fun c => (c =? 0xFEFF)%N) (lossy_chars contents))) = Some 0)
  | None => false
  end.
(** The loop of [ignore_controls_state]. *)
Fixpoint controls_state (state : list N) (controls : IgnoreControls) : M (option (list N)) :=
  match controls with
  | [] => mret (Some state)
  | (_, (p, independent)) :: controls =>
    let state := state ++ to_string_lossy p ++ [0%N] in
    r ← ask (fs_read host p); tell (ReadIgnore p r);;
    match r with
    | Err NotFound => controls_state (state ++ [0%N]) controls
    | Err _ => mret None
    | Ok contents =>
      if independent && negb (has_no_whitelist p contents) then mret None
      else controls_state (state ++ 1%N :: contents ++ [0%N]) controls
    end
  end.
Definition ignore_controls_state (controls : IgnoreControls) : M (option (list N)) :=
  if_some (controls_state (lit "walker-inputs-v2" ++ [0%N]) controls) (fun state => hash ← digest state; mret (Some hash)).

Definition sparse_list_args : list string := ["sparse-checkout"; "list"]%string.
Definition cone_args : list string := ["config"; "--bool"; "core.sparseCheckoutCone"]%string.
Definition git_sparse_checkout_state (config : option GitCoreConfig) : M (list N) :=
  if match config with Some config => negb (sparse_checkout config) | None => false end then mret (lit "disabled")
  else
    list ← git sparse_list_args;
    match list with
    | None => mret (lit "disabled")
    | Some list =>
      cone ← match config with
             | Some config => mret match sparse_cone config with Some true => lit "true" ++ [NL] | Some false => lit "false" ++ [NL] | None => [] end
             | None => cone ← git cone_args; mret (default [] cone)
             end;
      hash ← digest (list ++ cone);
      mret (lit "enabled:" ++ hash)
    end.

(** [CleanGitCheckout::capture] *)
Definition capture (root : path) : M (option CleanGitCheckout) :=
  if_some clean_git_head (fun head =>
  if_some (git_paths root) (fun '(index, info_exclude) =>
  if_some (file_hash index) (fun index_hash =>
  config ← git_core_config root;
  if_some (git_ignore_controls root info_exclude config) (fun '(ignore_controls, tracked_records) =>
  if_some (ignore_controls_state ignore_controls) (fun ignore_state =>
  sparse ← git_sparse_checkout_state config;
  mret (Some (MkCheckout (state_text head index_hash sparse ignore_state) head index index_hash ignore_controls ignore_state tracked_records))))))).

(** [CleanGitCheckout::is_unchanged] *)
Definition is_unchanged (checkout : CleanGitCheckout) : M bool :=
  head ← clean_git_head;
  if bool_decide (head = Some (head_commit checkout)) then
    hash ← file_hash (index_file checkout);
    if bool_decide (hash = Some (index_hash checkout)) then
      ignores ← ignore_controls_state (ignore_controls checkout);
      mret (bool_decide (ignores = Some (ignore_state checkout)))
    else mret false
  else mret false.

(** ** The marker *)

Record Workspace := MkWorkspace { ws_root : path; index_dir : path }.
Definition indexed_git_state_path (workspace : Workspace) : path := push (index_dir workspace) (lit "indexed_git_state").

Fixpoint all_match (root : path) (tracked : list (list N)) (files : list (list N * list N)) : M bool :=
  match files with
  | [] => mret true
  | (p, hash) :: files =>
    if bool_decide (p ∈ tracked) then
      matched ← ask (path_matches host (push root p) hash);
      if (matched : bool) then tell (Matched (push root p) hash);; all_match root tracked files else mret false
    else mret false
  end.
(** [CleanGitCheckout::matches_indexed_sources] *)
Definition matches_indexed_sources (checkout : CleanGitCheckout) (workspace : Workspace) : M bool :=
  snapshot ← ask (load_snapshot host);
  match snapshot, tracked_paths (tracked_records checkout) with
  | Some files, Some tracked => tell (Loaded files);; all_match (ws_root workspace) tracked files
  | _, _ => mret false
  end.

Definition write_git_marker (workspace : Workspace) (marker : list N) : M bool :=
  written ← ask (fs_write host (indexed_git_state_path workspace) marker);
  if (written : bool) then tell (Wrote marker);; mret true else mret false.
Definition record_indexed_git_state (workspace : Workspace) (expected : option CleanGitCheckout) : M bool :=
  recorded ← match expected with
             | Some checkout =>
               and_then (is_unchanged checkout) (and_then (matches_indexed_sources checkout workspace) (write_git_marker workspace (state checkout)))
             | None => mret false
             end;
  if (recorded : bool) then mret true else ask (remove_file host (indexed_git_state_path workspace));; mret false.

Inductive BaseIndexCheckoutState := Current | MetadataChanged | Stale.

(** What a marker says of a checkout's state. *)
Definition compare_marker (indexed_state current_state : list N) : BaseIndexCheckoutState :=
  let indexed := str_lines indexed_state in
  let current := str_lines current_state in
  if negb (bool_decide (indexed !! 4 = Some CLEAN_GIT_STATE_VERSION)) then Stale
  else if bool_decide (indexed_state = current_state) then Current
  else if bool_decide (head indexed = head current) && bool_decide (indexed !! 2 = current !! 2) && bool_decide (indexed !! 3 = current !! 3)
  then MetadataChanged
  else Stale.
Definition base_index_checkout_state (workspace : Workspace) : M BaseIndexCheckoutState :=
  metadata ← ask (skip_gitignore host);
  let indexes_ignored_files := default false (ok metadata ≫= id) in
  health ← (if (indexes_ignored_files : bool) then mret false else ask (queryable host));
  if negb health then mret Stale
  else
    checkout ← capture (ws_root workspace);
    match checkout with
    | None => mret Stale
    | Some checkout =>
      marker ← ask (fs_read host (indexed_git_state_path workspace));
      match ok marker ≫= from_utf8_ok with
      | Some indexed_state => tell (ReadMarker indexed_state);; mret (compare_marker indexed_state (state checkout))
      | None => mret Stale
      end
    end.

Definition refresh_clean_base_metadata (workspace : Workspace) : M (Result E bool) :=
  locked ← ask (lock host);
  match locked with
  | Err e => mret (Err e)
  | Ok _ =>
    valid ← ask (validate host);
    if negb valid then mret (Ok false)
    else
      checkout_state ← base_index_checkout_state workspace;
      match checkout_state with
      | Current => mret (Ok true)
      | Stale => mret (Ok false)
      | MetadataChanged =>
        metadata ← ask (skip_gitignore host);
        match metadata with
        | Err e => mret (Err e)
        | Ok metadata =>
          expected ← capture (ws_root workspace);
          built ← ask (rebuild host (default false metadata));
          match built with
          | Err e => mret (Err e)
          | Ok _ => tell Rebuilt;; recorded ← record_indexed_git_state workspace expected; mret (Ok recorded)
          end
        end
      end
  end.
End Checkout.


(** ** What was seen *)

Section Seen.
Context {W E : Type} (host : Host (W := W) (E := E)) (xxh3 : list N -> list N) (whitelists : path -> list str -> option nat).
Implicit Types t : list Event.
Abbreviation M A := (Io W Event A).

(** Whatever the world does, what [m] gives has a trace with [P]. *)
Definition gives {A} (m : M (option A)) (P : A -> list Event -> Prop) : Prop := post m (fun r t => forall a, r = Some a -> P a t).

Lemma gives_ret {A} (r : option A) P : (forall a, r = Some a -> P a []) -> gives (mret r) P.
Proof. intros H. by apply post_ret. Qed.
Lemma gives_weaken {A} (m : M (option A)) P Q : gives m P -> (forall a t, P a t -> Q a t) -> gives m Q.
Proof. intros Hm HPQ. eapply post_weaken; [exact Hm|]. eauto. Qed.
Lemma gives_if_some {A B} (m : M (option A)) (f : A -> M (option B)) P Q :
  gives m P -> (forall a t, P a t -> gives (f a) (fun b t' => Q b (t ++ t'))) -> gives (if_some m f) Q.
Proof.
  intros Hm Hf. apply post_bind. eapply post_weaken; [exact Hm|]. intros [a|] t Ha; [by apply Hf, Ha|]. by apply post_ret.
Qed.
Lemma gives_bind {A B} (m : M A) (f : A -> M (option B)) P Q :
  post m P -> (forall a t, P a t -> gives (f a) (fun b t' => Q b (t ++ t'))) -> gives (m ≫= f) Q.
Proof. intros Hm Hf. apply post_bind. eapply post_weaken; [exact Hm|]. intros a t Ha. by apply Hf. Qed.

Lemma post_true {A} (m : M A) : post m (fun _ _ => True).
Proof. intros w. by destruct (m w) as [[??]?]. Qed.

Lemma run_spec args : post (run host args) (fun output t => t = [Ran args output]).
Proof. unfold run. repeat io_step. done. Qed.
Lemma git_spec args : gives (git host args) (fun stdout t => exists output, t = [Ran (map lit args) (Some output)] /\ succeeded output = Some stdout).
Proof.
  unfold git, gives. apply post_bind. eapply post_weaken; [apply run_spec|]. intros output t ->. apply post_ret.
  intros a H. destruct output as [output|]; [|done]. eauto.
Qed.
Lemma digest_spec input : post (digest (W := W) xxh3 input) (fun hash t => t = [Hashed input] /\ hash = xxh3 input).
Proof. unfold digest. repeat io_step. done. Qed.

(** A clean status at a commit. *)
Definition head_seen (head : list N) t : Prop :=
  exists output, Ran (map lit status_args) (Some output) ∈ t /\ succeeded output ≫= parse_clean_head = Some head.
Definition index_seen (content : list N) t : Prop := exists p, ReadIndex p (Ok content) ∈ t /\ Hashed content ∈ t.
(** The ignore files, [None] where there is none. *)
Abbreviation Ignores := (list (path * option (list N))).
Definition frame (control : path * option (list N)) : list N :=
  to_string_lossy control.1 ++ 0%N :: match control.2 with Some contents => 1%N :: contents ++ [0%N] | None => [0%N] end.
Definition ignore_input (controls : Ignores) : list N := (lit "walker-inputs-v2" ++ [0%N]) ++ (controls ≫= frame).
Definition ignores_seen (controls : Ignores) t : Prop :=
  (forall p contents, (p, contents) ∈ controls ->
    ReadIgnore p (match contents with Some contents => Ok contents | None => Err NotFound end) ∈ t)
  /\ Hashed (ignore_input controls) ∈ t.
(** What a run of [git config] said: the settings, the defaults when it found none, or
    nothing when it did not run, failed or could not be read. *)
Definition config_seen (root : path) (config : option GitCoreConfig) t : Prop :=
  exists output, Ran (map lit config_args) output ∈ t /\
    match output with
    | Some output =>
      (exit_code output = Some 0%Z /\ config = parse_core_config root (stdout output))
      \/ (exit_code output = Some 1%Z /\ config = Some default_config)
      \/ (exit_code output <> Some 0%Z /\ exit_code output <> Some 1%Z /\ config = None)
    | None => config = None
    end.
Definition cone_seen (config : option GitCoreConfig) (cone : list N) t : Prop :=
  match config with
  | Some config =>
    (sparse_cone config = Some true /\ cone = lit "true" ++ [NL]) \/ (sparse_cone config = Some false /\ cone = lit "false" ++ [NL])
    \/ (sparse_cone config = None /\ cone = [])
  | None => exists output, Ran (map lit cone_args) output ∈ t /\ cone = default [] (output ≫= succeeded)
  end.
(** The state of a sparse checkout under these settings: [None] when they switch it off, or
    when Git lists no patterns; otherwise the patterns and the cone setting, hashed. *)
Definition sparse_given (config : option GitCoreConfig) (sparse : option (list N)) t : Prop :=
  match sparse with
  | None =>
    (exists c, config = Some c /\ sparse_checkout c = false)
    \/ ((forall c, config = Some c -> sparse_checkout c = true) /\ exists output, Ran (map lit sparse_list_args) output ∈ t /\ output ≫= succeeded = None)
  | Some input =>
    (forall c, config = Some c -> sparse_checkout c = true) /\ Hashed input ∈ t /\ exists output patterns cone,
      Ran (map lit sparse_list_args) (Some output) ∈ t /\ succeeded output = Some patterns /\ input = patterns ++ cone /\ cone_seen config cone t
  end.
Definition sparse_seen (root : path) (sparse : option (list N)) t : Prop :=
  exists config, config_seen root config t /\ sparse_given config sparse t.
Definition sparse_text (sparse : option (list N)) : list N :=
  match sparse with Some input => lit "enabled:" ++ xxh3 input | None => lit "disabled" end.
Definition records_seen (records : list N) t : Prop :=
  exists output, Ran (map lit ls_files_args) (Some output) ∈ t /\ succeeded output = Some records.

Record captured (root : path) (checkout : CleanGitCheckout) (content : list N) (controls : Ignores) (sparse : option (list N)) t : Prop := {
  captured_head : head_seen (head_commit checkout) t;
  captured_index : index_seen content t /\ index_hash checkout = xxh3 content;
  captured_ignores : ignores_seen controls t /\ ignore_state checkout = xxh3 (ignore_input controls);
  captured_sparse : sparse_seen root sparse t;
  captured_records : records_seen (tracked_records checkout) t;
  captured_state : state checkout = state_text (head_commit checkout) (index_hash checkout) (sparse_text sparse) (ignore_state checkout)
}.

Lemma clean_head_spec : gives (clean_git_head host) head_seen.
Proof.
  unfold clean_git_head. eapply gives_if_some; [apply git_spec|]. intros stdout t (output & -> & Hs). apply gives_ret. intros head Hh.
  exists output. split; [set_solver|]. by rewrite Hs.
Qed.
Lemma file_hash_spec p : gives (file_hash host xxh3 p) (fun hash t => exists content, index_seen content t /\ hash = xxh3 content).
Proof.
  unfold file_hash, gives. repeat io_step. destruct a as [content|]; [|by apply post_ret]. io_step. unfold digest. repeat io_step.
  intros hash [= <-]. exists content. split; [|done]. exists p. set_solver.
Qed.
Lemma controls_state_spec controls : forall state0, gives (controls_state host whitelists state0 controls) (fun state t =>
  exists seen, state = state0 ++ (seen ≫= frame) /\ map fst seen = map (fun entry => entry.2.1) controls
    /\ forall p contents, (p, contents) ∈ seen -> ReadIgnore p (match contents with Some contents => Ok contents | None => Err NotFound end) ∈ t).
Proof.
  induction controls as [|[k [p independent]] controls IH]; intros state0; cbn [controls_state].
  { apply gives_ret. intros ? [= <-]. exists []. rewrite app_nil_r. split_and!; [done..|]. by intros ?? ?%elem_of_nil. }
  assert (forall contents state', state' = state0 ++ frame (p, contents) ->
    gives (controls_state host whitelists state' controls) (fun state t => exists seen, state = state0 ++ (seen ≫= frame)
      /\ map fst seen = p :: map (fun entry => entry.2.1) controls
      /\ forall q c, (q, c) ∈ seen -> ReadIgnore q (match c with Some c => Ok c | None => Err NotFound end)
           ∈ ReadIgnore p (match contents with Some c => Ok c | None => Err NotFound end) :: t)) as Hgo.
  { intros contents state' ->. eapply gives_weaken; [apply IH|]. intros state t (seen & -> & Hk & Hs). exists ((p, contents) :: seen).
    rewrite bind_cons, app_assoc. cbn [map fst]. rewrite Hk. split_and!; [done..|].
    intros q c [[= -> ->]|Hq]%elem_of_cons; [left|right]. by apply Hs. }
  unfold gives. do 2 io_step. io_step. io_step. cbn [app].
  destruct a as [contents|[|]]; [|apply (Hgo None); by rewrite <- !app_assoc|by apply post_ret].
  destruct (_ && _); [by apply post_ret|]. apply (Hgo (Some contents)). by rewrite <- !app_assoc.
Qed.
Lemma ignore_state_spec controls : gives (ignore_controls_state host xxh3 whitelists controls) (fun hash t =>
  exists seen, ignores_seen seen t /\ map fst seen = map (fun entry => entry.2.1) controls /\ hash = xxh3 (ignore_input seen)).
Proof.
  unfold ignore_controls_state. eapply gives_if_some; [apply controls_state_spec|]. intros state t (seen & -> & Hk & Hs).
  eapply gives_bind; [apply digest_spec|]. intros hash t' [-> ->]. apply gives_ret. intros ? [= <-]. rewrite app_nil_r. exists seen.
  split_and!; [|done|done]. split; [|unfold ignore_input; set_solver]. intros p contents Hp. apply elem_of_app. left. by apply Hs.
Qed.
Lemma git_run args : post (git host args) (fun r t => exists output, t = [Ran (map lit args) output] /\ r = output ≫= succeeded).
Proof.
  unfold git. apply post_bind. eapply post_weaken; [apply run_spec|]. intros output t ->. apply post_ret. by exists output.
Qed.
Lemma config_spec root : post (git_core_config host root) (fun config t => config_seen root config t).
Proof.
  unfold git_core_config. apply post_bind. eapply post_weaken; [apply run_spec|]. intros output t ->. apply post_ret. exists output.
  split; [set_solver|]. destruct output as [output|]; [|done]. repeat case_bool_decide; auto.
Qed.
Lemma sparse_state_spec config : post (git_sparse_checkout_state host xxh3 config) (fun text t =>
  exists sparse, sparse_given config sparse t /\ text = sparse_text sparse).
Proof.
  unfold git_sparse_checkout_state. destruct (match config with Some _ => _ | None => false end) eqn:Eoff.
  { apply post_ret. exists None. split; [|done]. left. destruct config as [c|]; [|done]. exists c. split; [done|]. by apply negb_true_iff. }
  assert (forall c, config = Some c -> sparse_checkout c = true) as Hon by (intros c ->; by apply negb_false_iff).
  apply post_bind. eapply post_weaken; [apply git_run|]. intros list t (output & -> & ->). destruct (output ≫= succeeded) as [patterns|] eqn:Es.
  2:{ apply post_ret. exists None. split; [|done]. right. split; [done|]. exists output. split; [set_solver|done]. }
  destruct output as [output|]; [|done]. apply post_bind.
  eapply (post_weaken _ (fun cone t' => cone_seen config cone t')).
  { unfold cone_seen. destruct config as [c|]; [apply post_ret; destruct (sparse_cone c) as [[]|]; auto|].
    apply post_bind. eapply post_weaken; [apply git_run|]. intros r t' (o & -> & ->). apply post_ret. exists o. split; [set_solver|done]. }
  intros cone t' Hcone. apply post_bind. eapply post_weaken; [apply digest_spec|]. intros hash t2 [-> ->]. apply post_ret. exists (Some (patterns ++ cone)).
  split; [|done]. split; [done|]. split; [set_solver|]. exists output, patterns, cone. split; [set_solver|]. split; [done|]. split; [done|].
  unfold cone_seen in *. destruct config; [done|]. destruct Hcone as (o & Ho & He). exists o. split; [set_solver|done].
Qed.
Lemma tracked_spec root : gives (tracked_ignore_controls host root) (fun r t => records_seen r.2 t).
Proof.
  unfold tracked_ignore_controls. eapply gives_if_some; [apply git_spec|]. intros stdout t (output & -> & Hs).
  eapply gives_if_some; [apply (post_weaken _ _ _ (post_true _)); intros a t' _ a' _; exact I|]. intros controls t' _.
  apply gives_ret. intros ? [= <-]. exists output. split; [set_solver|done].
Qed.
Lemma ignore_controls_spec root info_exclude config :
  gives (git_ignore_controls host root info_exclude config) (fun r t => records_seen r.2 t).
Proof.
  unfold git_ignore_controls. eapply gives_if_some; [apply tracked_spec|]. intros [tracked records] t Hr. cbn [snd] in Hr.
  eapply gives_bind; [apply post_true|]. intros configured t1 _. eapply gives_bind; [apply post_true|]. intros default_ignore t2 _.
  eapply gives_if_some; [apply (post_weaken _ _ _ (post_true _)); intros a t' _ a' _; exact I|]. intros stdout t3 _.
  apply gives_ret. intros [controls' records']. destruct (foldl (insert_ignored root) _ _); [|done]. intros [= _ <-]. cbn [snd].
  destruct Hr as (output & Ho & Hs). exists output. split; [set_solver|done].
Qed.

(** More is seen in a longer trace. *)
Lemma head_mono head t t' : t ⊆ t' -> head_seen head t -> head_seen head t'.
Proof. intros Ht (output & Ho & Hs). exists output. auto. Qed.
Lemma index_mono content t t' : t ⊆ t' -> index_seen content t -> index_seen content t'.
Proof. intros Ht (p & Hp & Hh). exists p. auto. Qed.
Lemma ignores_mono controls t t' : t ⊆ t' -> ignores_seen controls t -> ignores_seen controls t'.
Proof. intros Ht [Hc Hh]. split; auto. Qed.
Lemma config_mono root config t t' : t ⊆ t' -> config_seen root config t -> config_seen root config t'.
Proof. intros Ht (output & Ho & Hs). exists output. auto. Qed.
Lemma sparse_given_mono config sparse t t' : t ⊆ t' -> sparse_given config sparse t -> sparse_given config sparse t'.
Proof.
  intros Ht. unfold sparse_given. destruct sparse as [input|].
  - intros (Hon & Hh & output & patterns & cone & Ho & Hs & Hi & Hc). split; [done|]. split; [auto|]. exists output, patterns, cone. split; [auto|].
    split; [done|]. split; [done|]. unfold cone_seen in *. destruct config; [done|]. destruct Hc as (o & Hr & He). exists o. auto.
  - intros [?|(Hon & output & Ho & Hs)]; [by left|right]. split; [done|]. exists output. auto.
Qed.
Lemma sparse_mono root sparse t t' : t ⊆ t' -> sparse_seen root sparse t -> sparse_seen root sparse t'.
Proof. intros Ht (config & Hc & Hs). exists config. split; [by eapply config_mono|by eapply sparse_given_mono]. Qed.
Lemma records_mono records t t' : t ⊆ t' -> records_seen records t -> records_seen records t'.
Proof. intros Ht (output & Ho & Hs). exists output. auto. Qed.
Lemma captured_mono root checkout content controls sparse t t' : t ⊆ t' -> captured root checkout content controls sparse t -> captured root checkout content controls sparse t'.
Proof.
  intros Ht [Hh [Hi Hie] [Hc Hce] Hs Hr He]. split; [by eapply head_mono|split; [by eapply index_mono|done]|split; [by eapply ignores_mono|done]
    |by eapply sparse_mono|by eapply records_mono|done].
Qed.

Definition spelled (checkout : CleanGitCheckout) : list path := map (fun entry => entry.2.1) (ignore_controls checkout).
Lemma capture_spec root : gives (capture host xxh3 whitelists root) (fun checkout t =>
  exists content controls sparse, captured root checkout content controls sparse t /\ map fst controls = spelled checkout).
Proof.
  unfold capture. eapply gives_if_some; [apply clean_head_spec|]. intros head t1 Hh.
  eapply gives_if_some; [apply (post_weaken _ _ _ (post_true _)); intros a t' _ a' _; exact I|]. intros [index info] t2 _.
  eapply gives_if_some; [apply file_hash_spec|]. intros hash t3 (content & Hi & ->).
  eapply gives_bind; [apply config_spec|]. intros config t4 Hconf.
  eapply gives_if_some; [apply ignore_controls_spec|]. intros [controls records] t5 Hr. cbn [snd] in Hr.
  eapply gives_if_some; [apply ignore_state_spec|]. intros ignore t6 (seen & Hc & Hk & ->).
  eapply gives_bind; [apply sparse_state_spec|]. intros text t7 (sparse & Hs & ->).
  apply gives_ret. intros ? [= <-]. exists content, seen, sparse. split; [|done]. rewrite app_nil_r.
  split; cbn [head_commit index_hash ignore_state tracked_records state].
  - eapply head_mono; [|exact Hh]. set_solver.
  - split; [|done]. eapply index_mono; [|exact Hi]. set_solver.
  - split; [|done]. eapply ignores_mono; [|exact Hc]. set_solver.
  - exists config. split; [eapply config_mono; [|exact Hconf]; set_solver|]. eapply sparse_given_mono; [|exact Hs]. set_solver.
  - eapply records_mono; [|exact Hr]. set_solver.
  - done.
Qed.

(** What makes [is_unchanged] true. *)
Lemma is_unchanged_spec checkout : post (is_unchanged host xxh3 whitelists checkout) (fun r t => r = true ->
  head_seen (head_commit checkout) t
  /\ (exists content, index_seen content t /\ index_hash checkout = xxh3 content)
  /\ exists controls, ignores_seen controls t /\ map fst controls = spelled checkout /\ ignore_state checkout = xxh3 (ignore_input controls)).
Proof.
  unfold is_unchanged. apply post_bind. eapply post_weaken; [apply clean_head_spec|]. intros head t1 Hh. case_bool_decide as He; [|by apply post_ret].
  apply post_bind. eapply post_weaken; [apply file_hash_spec|]. intros hash t2 Hi. case_bool_decide as Hie; [|by apply post_ret].
  apply post_bind. eapply post_weaken; [apply ignore_state_spec|]. intros ignores t3 Hc. apply post_ret. intros Hce%bool_decide_eq_true.
  specialize (Hh _ He). destruct (Hi _ Hie) as (content & Hin & ?). destruct (Hc _ Hce) as (controls & Hcs & Hk & ?). rewrite app_nil_r. split_and!.
  - eapply head_mono; [|exact Hh]. set_solver.
  - exists content. split; [|done]. eapply index_mono; [|exact Hin]. set_solver.
  - exists controls. split; [|done]. eapply ignores_mono; [|exact Hcs]. set_solver.
Qed.

(** Every file of the snapshot is tracked, and its metadata is that of the snapshot. *)
Definition sources_seen (root : path) (records : list N) t : Prop :=
  exists files tracked, Loaded files ∈ t /\ tracked_paths records = Some tracked
    /\ forall p hash, (p, hash) ∈ files -> p ∈ tracked /\ Matched (push root p) hash ∈ t.
Lemma all_match_spec root tracked files : post (all_match host root tracked files) (fun r t => r = true ->
  forall p hash, (p, hash) ∈ files -> p ∈ tracked /\ Matched (push root p) hash ∈ t).
Proof.
  induction files as [|[p hash] files IH]; cbn [all_match]; [apply post_ret; by intros _ ?? ?%elem_of_nil|].
  case_bool_decide as Hp; [|by apply post_ret]. io_step. io_step. destruct a; [|by apply post_ret]. do 2 io_step.
  eapply post_weaken; [exact IH|]. intros r t Hr Ht. cbn [app]. intros q h [[= -> ->]|Hq]%elem_of_cons; [split; [done|left]|].
  destruct (Hr Ht q h Hq). split; [done|]. by right.
Qed.
Lemma sources_spec checkout workspace : post (matches_indexed_sources host checkout workspace) (fun r t => r = true ->
  sources_seen (ws_root workspace) (tracked_records checkout) t).
Proof.
  unfold matches_indexed_sources. do 2 io_step. destruct a as [files|]; [|by apply post_ret].
  destruct (tracked_paths _) as [tracked|] eqn:Et; [|by apply post_ret]. do 2 io_step. eapply post_weaken; [apply all_match_spec|].
  intros r t Hr Ht. cbn [app]. exists files, tracked. split; [left|]. split; [done|]. intros p hash Hp. destruct (Hr Ht p hash Hp). split; [done|].
  by right.
Qed.

Lemma record_spec workspace expected : post (record_indexed_git_state host xxh3 whitelists workspace expected) (fun r t => r = true ->
  exists checkout, expected = Some checkout /\ head_seen (head_commit checkout) t
    /\ (exists content, index_seen content t /\ index_hash checkout = xxh3 content)
    /\ (exists controls, ignores_seen controls t /\ map fst controls = spelled checkout /\ ignore_state checkout = xxh3 (ignore_input controls))
    /\ sources_seen (ws_root workspace) (tracked_records checkout) t
    /\ last t = Some (Wrote (state checkout))).
Proof.
  unfold record_indexed_git_state. apply post_bind. destruct expected as [checkout|]; cycle 1.
  { apply post_ret. do 2 io_step. by apply post_ret. }
  unfold and_then. apply post_bind. eapply post_weaken; [apply is_unchanged_spec|]. intros unchanged t1 Hu.
  destruct unchanged; [|apply post_ret; do 2 io_step; by apply post_ret].
  destruct (Hu eq_refl) as (Hh & (content & Hi & Hie) & controls & Hc & Hk & Hce). clear Hu.
  apply post_bind. eapply post_weaken; [apply sources_spec|]. intros matched t2 Hm.
  destruct matched; [|apply post_ret; do 2 io_step; by apply post_ret]. specialize (Hm eq_refl).
  unfold write_git_marker. do 2 io_step. destruct a; [|apply post_ret; do 2 io_step; by apply post_ret]. do 3 io_step. apply post_ret. intros _.
  exists checkout. split; [done|]. split_and!.
  - eapply head_mono; [|exact Hh]. set_solver.
  - exists content. split; [|done]. eapply index_mono; [|exact Hi]. set_solver.
  - exists controls. split; [|done]. eapply ignores_mono; [|exact Hc]. set_solver.
  - destruct Hm as (files & tracked & Hl & Ht & Hf). exists files, tracked. split; [set_solver|]. split; [done|]. intros p hash Hp.
    destruct (Hf p hash Hp). split; [done|]. set_solver.
  - cbn [app]. by rewrite app_nil_r, app_assoc, last_snoc.
Qed.

Lemma compare_current indexed current : compare_marker indexed current = Current -> indexed = current.
Proof. unfold compare_marker. repeat case_match; try done. intros _. by eapply bool_decide_eq_true_1. Qed.
Lemma base_spec workspace : post (base_index_checkout_state host xxh3 whitelists workspace) (fun r t => r = Current ->
  exists checkout content controls sparse, captured (ws_root workspace) checkout content controls sparse t /\ last t = Some (ReadMarker (state checkout))).
Proof.
  unfold base_index_checkout_state. do 2 io_step. apply post_bind. eapply post_weaken; [apply post_true|]. intros health t1 _.
  destruct (negb health); [by apply post_ret|]. apply post_bind. eapply post_weaken; [apply capture_spec|]. intros [checkout|] t2 Hc; [|by apply post_ret].
  destruct (Hc checkout eq_refl) as (content & controls & sparse & Hcap & _). do 2 io_step. destruct (_ ≫= from_utf8_ok) as [marker|]; [|by apply post_ret].
  do 3 io_step. intros ->%compare_current. exists checkout, content, controls, sparse. split.
  - eapply captured_mono; [|exact Hcap]. set_solver.
  - cbn [app]. by rewrite app_assoc, last_snoc.
Qed.
End Seen.

(** ** Reading a state back *)

Lemma sep_inj (sep : N) a b x y : sep ∉ a -> sep ∉ b -> a ++ sep :: x = b ++ sep :: y -> a = b /\ x = y.
Proof.
  intros Ha Hb H. pose proof (split_once_app sep a x Ha) as H1. cbn [app] in H1. rewrite H in H1.
  pose proof (split_once_app sep b y Hb) as H2. cbn [app] in H2. rewrite H1 in H2. by injection H2.
Qed.
Lemma state_text_inj h1 i1 s1 g1 h2 i2 s2 g2 : NL ∉ h1 ++ i1 ++ s1 ++ g1 -> NL ∉ h2 ++ i2 ++ s2 ++ g2 ->
  state_text h1 i1 s1 g1 = state_text h2 i2 s2 g2 -> h1 = h2 /\ i1 = i2 /\ s1 = s2 /\ g1 = g2.
Proof.
  rewrite !not_elem_of_app. intros (Hh1 & Hi1 & Hs1 & Hg1) (Hh2 & Hi2 & Hs2 & Hg2). unfold state_text.
  intros [-> H]%sep_inj; [|done..]. apply sep_inj in H as [-> H]; [|done..]. apply sep_inj in H as [-> H]; [|done..].
  by apply sep_inj in H as [-> _].
Qed.
(** Text that the framing of ignore files can take apart. *)
Definition framed_ok (control : path * option (list N)) : Prop :=
  valid_utf8 control.1 = true /\ (0%N ∉ control.1) /\ forall contents, control.2 = Some contents -> 0%N ∉ contents.
Lemma frames_inj cs1 : forall cs2, Forall framed_ok cs1 -> Forall framed_ok cs2 -> (cs1 ≫= frame) = (cs2 ≫= frame) -> cs1 = cs2.
Proof.
  assert (forall c (x : list N), frame c ++ x <> []) as Hne by (intros [p [c|]] x; unfold frame; by destruct (to_string_lossy _)).
  induction cs1 as [|[p1 c1] cs1 IH]; intros [|[p2 c2] cs2] H1 H2 H; [done|by destruct (Hne (p2, c2) (cs2 ≫= frame))|by destruct (Hne (p1, c1) (cs1 ≫= frame))|].
  apply Forall_cons in H1 as [(Hv1 & Hp1 & Hc1) H1], H2 as [(Hv2 & Hp2 & Hc2) H2]. cbn [fst snd] in *.
  rewrite !bind_cons in H. unfold frame at 1 3 in H. cbn [fst snd] in H. unfold to_string_lossy in H. rewrite Hv1, Hv2, <- !app_assoc in H.
  cbn [app] in H. apply sep_inj in H as [-> H]; [|done..].
  destruct c1 as [c1|], c2 as [c2|]; cbn [app] in H; try done; injection H as H.
  - rewrite <- !app_assoc in H. cbn [app] in H. apply sep_inj in H as [-> H]; [|by apply Hc1|by apply Hc2]. by rewrite (IH cs2).
  - by rewrite (IH cs2).
Qed.
Lemma ignore_input_inj cs1 cs2 : Forall framed_ok cs1 -> Forall framed_ok cs2 -> ignore_input cs1 = ignore_input cs2 -> cs1 = cs2.
Proof. intros H1 H2 H%app_inv_head. by apply frames_inj. Qed.

Lemma parse_head_lines_line lines : forall head r, Forall (fun line => NL ∉ line) lines -> parse_head_lines head lines = Some r ->
  (forall h, head = Some h -> NL ∉ h) -> forall h, r = Some h -> NL ∉ h.
Proof.
  induction lines as [|[|c line] lines IH]; intros head r Hl; cbn [parse_head_lines]; [by intros [= ->]|..];
    apply Forall_cons in Hl as [Hline Hl]; [by apply IH|].
  destruct (strip_prefix (lit "# ") (c :: line)) as [header|] eqn:E1; [|done]. cbn [mbind option_bind].
  destruct (strip_prefix (lit "branch.oid ") header) as [object|] eqn:E2; [|by apply IH]. unfold from_utf8_ok.
  destruct (valid_utf8 object); [|done]. cbn [mbind option_bind]. intros Hr _. apply (IH _ _ Hl Hr). intros h [= <-].
  apply strip_prefix_Some in E1, E2. rewrite E1, E2, !elem_of_app in Hline. tauto.
Qed.
Lemma clean_head_line out head : parse_clean_head out = Some head -> NL ∉ head.
Proof.
  unfold parse_clean_head. destruct (parse_head_lines None _) as [[object|]|] eqn:E; [|done..]. cbn [mbind option_bind].
  case_bool_decide; [done|]. intros [= <-]. by apply (parse_head_lines_line _ _ _ (split_on_free _ _) E).
Qed.

(** The digest confuses none of the inputs it is given in a trace. *)
Definition digest_separates (xxh3 : list N -> list N) (t : list Event) : Prop :=
  forall a b, Hashed a ∈ t -> Hashed b ∈ t -> xxh3 a = xxh3 b -> a = b.
(** Names and contents of ignore files hold no NUL. *)
Definition ignores_are_text (t : list Event) : Prop :=
  forall p r, ReadIgnore p r ∈ t -> valid_utf8 p = true /\ (0%N ∉ p) /\ forall contents, r = Ok contents -> 0%N ∉ contents.
Lemma seen_framed_ok controls t t' : t ⊆ t' -> ignores_are_text t' -> ignores_seen controls t -> Forall framed_ok controls.
Proof.
  intros Hsub Ht [Hs _]. apply Forall_forall. intros [p contents] Hp. destruct (Ht _ _ (Hsub _ (Hs p contents Hp))) as (Hv & H0 & Hc).
  split; [done|]. split; [done|]. cbn [snd]. intros c ->. by apply Hc.
Qed.

Section Sound.
Context {W E : Type} (host : Host (W := W) (E := E)) (xxh3 : list N -> list N) (whitelists : path -> list str -> option nat).
Context (Hhex : forall input, NL ∉ xxh3 input).

Lemma captured_state_inj root c1 b1 l1 s1 t1 c2 b2 l2 s2 t2 t : t1 ⊆ t -> t2 ⊆ t -> digest_separates xxh3 t -> ignores_are_text t ->
  captured xxh3 root c1 b1 l1 s1 t1 -> captured xxh3 root c2 b2 l2 s2 t2 -> state c1 = state c2 ->
  head_commit c1 = head_commit c2 /\ b1 = b2 /\ l1 = l2 /\ s1 = s2.
Proof.
  intros Ht1 Ht2 Hd Hn [Hh1 [Hb1 He1] [Hl1 Hg1] Hs1 _ Hst1] [Hh2 [Hb2 He2] [Hl2 Hg2] Hs2 _ Hst2] Hst.
  assert (forall h t, head_seen h t -> NL ∉ h) as Hline.
  { intros h t' (out & _ & Hp). destruct (succeeded out); [|done]. by eapply clean_head_line. }
  assert (forall s, NL ∉ sparse_text xxh3 s) as Hsparse.
  { intros [input|]; unfold sparse_text; [|by apply (bool_decide_eq_true_1 _); vm_compute]. rewrite not_elem_of_app. split; [|apply Hhex].
    by apply (bool_decide_eq_true_1 _); vm_compute. }
  rewrite Hst1, Hst2, He1, He2, Hg1, Hg2 in Hst. apply state_text_inj in Hst as (Hh & Hi & Hsp & Hg).
  - split; [done|]. destruct Hb1 as (p1 & _ & Hb1), Hb2 as (p2 & _ & Hb2). split; [apply Hd; auto|]. split.
    + apply ignore_input_inj; [exact (seen_framed_ok _ _ _ Ht1 Hn Hl1)|exact (seen_framed_ok _ _ _ Ht2 Hn Hl2)|].
      destruct Hl1 as [_ Hl1], Hl2 as [_ Hl2]. apply Hd; auto.
    + destruct s1 as [s1|], s2 as [s2|]; unfold sparse_text in Hsp; try done. apply app_inv_head in Hsp. f_equal.
      destruct Hs1 as (? & _ & _ & Hx1 & _), Hs2 as (? & _ & _ & Hx2 & _). apply Hd; auto.
  - rewrite !not_elem_of_app. split_and!; [by eapply Hline|apply Hhex|apply Hsparse|apply Hhex].
  - rewrite !not_elem_of_app. split_and!; [by eapply Hline|apply Hhex|apply Hsparse|apply Hhex].
Qed.
End Sound.

(** C8. A marker vouches only for an unchanged checkout.  Take a capture before an update,
    a successful recording after it and a later check that says [Current] for the marker
    that was written, in a world that may change at any time between.  Suppose the digest
    confuses none of the inputs of the three and the ignore files they read hold no NUL.
    Then all three saw a clean status at the same commit, the same content of Git's index
    and the same ignore files with the same contents; capture and check saw the same
    sparse-checkout state, switched off or without patterns for both, or the same patterns
    and cone setting; and when the marker was written every file of the snapshot was tracked
    at the capture and still had the metadata of the snapshot. *)
Theorem clean_marker_sound {W E} (host : Host (W := W) (E := E)) xxh3 whitelists workspace w0 w1 w2 checkout t0 t1 t2 w0' w1' w2' marker
    (Hcapture : capture host xxh3 whitelists (ws_root workspace) w0 = (Some checkout, t0, w0'))
    (Hrecord : record_indexed_git_state host xxh3 whitelists workspace (Some checkout) w1 = (true, t1, w1'))
    (Hcheck : base_index_checkout_state host xxh3 whitelists workspace w2 = (Current, t2, w2'))
    (Hwrote : last t1 = Some (Wrote marker)) (Hread : last t2 = Some (ReadMarker marker))
    (Hhex : forall input, NL ∉ xxh3 input) (Hdigest : digest_separates xxh3 (t0 ++ t1 ++ t2)) (Htext : ignores_are_text (t0 ++ t1 ++ t2)) :
  exists head content controls sparse records,
    (head_seen head t0 /\ head_seen head t1 /\ head_seen head t2)
    /\ (index_seen content t0 /\ index_seen content t1 /\ index_seen content t2)
    /\ (ignores_seen controls t0 /\ ignores_seen controls t1 /\ ignores_seen controls t2)
    /\ (sparse_seen (ws_root workspace) sparse t0 /\ sparse_seen (ws_root workspace) sparse t2)
    /\ records_seen records t0 /\ sources_seen (ws_root workspace) records t1.
Proof.
  pose proof (capture_spec host xxh3 whitelists (ws_root workspace) w0) as H0. rewrite Hcapture in H0.
  destruct (H0 checkout eq_refl) as (content & controls & sparse & Hc0 & Hk0). clear H0.
  pose proof (record_spec host xxh3 whitelists workspace (Some checkout) w1) as H1. rewrite Hrecord in H1.
  destruct (H1 eq_refl) as (c & [= <-] & Hh1 & (b1 & Hb1 & Hbe1) & (l1 & Hl1 & _ & Hle1) & Hs1 & Hw). clear H1.
  pose proof (base_spec host xxh3 whitelists workspace w2) as H2. rewrite Hcheck in H2.
  destruct (H2 eq_refl) as (c2 & b2 & l2 & s2 & Hc2 & Hr). clear H2.
  assert (state checkout = state c2) as Hst by congruence. set (T := t0 ++ t1 ++ t2) in *.
  assert (t0 ⊆ T /\ t1 ⊆ T /\ t2 ⊆ T) as (HT0 & HT1 & HT2) by (unfold T; set_solver).
  destruct (captured_state_inj xxh3 Hhex _ _ _ _ _ _ _ _ _ _ _ T HT0 HT2 Hdigest Htext Hc0 Hc2 Hst) as (Eh & <- & <- & <-).
  destruct Hc0 as [Hh0 [Hb0 Hbe0] [Hl0 Hle0] Hs0 Hr0 _], Hc2 as [Hh2 [Hb2 _] [Hl2 _] Hs2 _ _].
  assert (b1 = content) as ->.
  { destruct Hb0 as (? & _ & Hb0), Hb1 as (? & _ & Hb1). apply Hdigest; [auto..|congruence]. }
  assert (l1 = controls) as ->.
  { apply ignore_input_inj; [exact (seen_framed_ok _ _ _ HT1 Htext Hl1)|exact (seen_framed_ok _ _ _ HT0 Htext Hl0)|].
    destruct Hl0 as [_ Hl0], Hl1 as [_ Hl1]. apply Hdigest; [auto..|congruence]. }
  exists (head_commit checkout), content, controls, sparse, (tracked_records checkout). rewrite <- Eh in Hh2. auto 10.
Qed.

(** Contents with a NUL are framed like the contents of two files. *)
Example ignore_framing_confuses :
  ignore_input [(lit "/w/a", Some (lit "x" ++ [0%N] ++ lit "/w/b" ++ [0%N; 1%N] ++ lit "y"))]
  = ignore_input [(lit "/w/a", Some (lit "x")); (lit "/w/b", Some (lit "y"))].
Proof. vm_compute. reflexivity. Qed.

(** ** An example *)

Definition text_event (e : Event) : bool :=
  match e with
  | ReadIgnore p r =>
    valid_utf8 p && bool_decide (0%N ∉ p) && match r with Ok contents => bool_decide (0%N ∉ contents) | Err _ => true end
  | _ => true
  end.
Lemma text_events t : forallb text_event t = true -> ignores_are_text t.
Proof.
  intros Ht p r Hin%list_elem_of_In. apply forallb_forall with (x := ReadIgnore p r) in Ht; [|done]. cbn in Ht.
  apply andb_true_iff in Ht as [[Hv Hp]%andb_true_iff Hr]. split; [done|]. split; [by eapply bool_decide_eq_true_1|].
  intros contents ->. by eapply bool_decide_eq_true_1.
Qed.

(** The world is the marker on disk. *)
Definition example_git (args : list (list N)) : Output :=
  if bool_decide (args = map lit status_args) then MkOutput (Some 0%Z) (lit "# branch.oid c0ffee" ++ [NL] ++ lit "# branch.head main" ++ [NL])
  else if bool_decide (head args = Some (lit "rev-parse")) then MkOutput (Some 0%Z) (lit ".git/index" ++ [NL] ++ lit ".git/info/exclude" ++ [NL])
  else if bool_decide (args = map lit ls_files_args) then MkOutput (Some 0%Z) (lit "H a.rs" ++ [0%N] ++ lit "H .gitignore" ++ [0%N])
  else if bool_decide (head args = Some (lit "config")) then MkOutput (Some 1%Z) []
  else MkOutput (Some 0%Z) [].
Definition example_workspace : Workspace := MkWorkspace (lit "/w") (lit "/i").
Definition example_files (marker : list N) : list (path * list N) :=
  [(lit "/w/.git/index", lit "DIRC"); (lit "/w/.gitignore", lit "target"); (lit "/i/indexed_git_state", marker)].
Definition example_host : Host (W := list N) (E := unit) :=
  let look {A} (a : A) (w : list N) := (a, w) in
  MkHost (fun args => look (Some (example_git args)))
    (fun p w => (match filter (fun f => f.1 = p) (example_files w) with f :: _ => Ok f.2 | [] => Err NotFound end, w))
    (fun _ => look (Some true)) (look None) (look (Some (lit "/h"))) (look (Some [(lit "a.rs", lit "x-0")])) (fun _ _ => look true)
    (fun _ marker _ => (true, marker)) (fun _ => look tt) (look (Ok tt)) (look true) (look true) (look (Ok (Some false))) (fun _ => look (Ok tt)).
Definition example_digest (input : list N) : list N := input ≫= fun b => [65 + b / 16; 65 + b mod 16]%N.
Lemma example_digest_hex input : NL ∉ example_digest input.
Proof.
  unfold example_digest, NL. rewrite list_elem_of_bind. intros (b & Hb & _). apply elem_of_cons in Hb as [Hb|Hb%list_elem_of_singleton]; revert Hb; generalize (b / 16)%N (b mod 16)%N; intros; lia.
Qed.
Definition inputs (t : list Event) : list (list N) := omap (fun e => match e with Hashed input => Some input | _ => None end) t.
Lemma digests_separate xxh3 t :
  forallb (fun a => forallb (fun b => negb (bool_decide (xxh3 a = xxh3 b)) || bool_decide (a = b)) (inputs t)) (inputs t) = true -> digest_separates xxh3 t.
Proof.
  intros Ht a b Ha Hb He. assert (forall c, Hashed c ∈ t -> In c (inputs t)) as Hin.
  { intros c Hc. apply list_elem_of_In, list_elem_of_omap. by exists (Hashed c). }
  rewrite forallb_forall in Ht. specialize (Ht a (Hin a Ha)). rewrite forallb_forall in Ht. specialize (Ht b (Hin b Hb)).
  rewrite bool_decide_eq_true_2 in Ht by done. by eapply bool_decide_eq_true_1.
Qed.

Definition example_whitelists (_ : path) (_ : list str) : option nat := Some 0.
Definition example_capture := capture example_host example_digest example_whitelists (ws_root example_workspace) [].
Definition example_record :=
  record_indexed_git_state example_host example_digest example_whitelists example_workspace example_capture.1.1 example_capture.2.
Definition example_check := base_index_checkout_state example_host example_digest example_whitelists example_workspace example_record.2.
Definition example_marker : list N := match last example_record.1.2 with Some (Wrote marker) => marker | _ => [] end.
Lemma triple_eta {A B C} (x : A * B * C) a : x.1.1 = a -> x = (a, x.1.2, x.2).
Proof. destruct x as [[??]?]. by intros <-. Qed.

Lemma clean_marker_sound_witness : exists head content,
  (head_seen head example_capture.1.2 /\ head_seen head example_record.1.2 /\ head_seen head example_check.1.2)
  /\ (index_seen content example_capture.1.2 /\ index_seen content example_record.1.2 /\ index_seen content example_check.1.2).
Proof.
  assert (is_some example_capture.1.1 = true) as H0 by (vm_compute; reflexivity).
  destruct example_capture.1.1 as [checkout|] eqn:E0; [clear H0|done].
  assert (example_record.1.1 = true) as E1 by (vm_compute; reflexivity).
  assert (example_check.1.1 = Current) as E2 by (vm_compute; reflexivity).
  apply triple_eta in E1, E2. pose proof (triple_eta _ _ E0) as E0'. unfold example_capture at 1 in E0'. unfold example_record at 1 in E1. rewrite E0 in E1.
  unfold example_check at 1 in E2.
  assert (last example_record.1.2 = Some (Wrote example_marker)) as Hw
    by (vm_compute; reflexivity).
  assert (last example_check.1.2 = Some (ReadMarker example_marker)) as Hr
    by (vm_compute; reflexivity).
  pose proof (clean_marker_sound example_host example_digest example_whitelists example_workspace [] example_capture.2 example_record.2 checkout) as H.
  specialize (H example_capture.1.2 example_record.1.2 example_check.1.2 example_capture.2 example_record.2 example_check.2 example_marker).
  specialize (H E0').
  specialize (H E1).
  specialize (H E2).
  specialize (H Hw).
  specialize (H Hr).
  specialize (H example_digest_hex).
  destruct H as (h & content & _ & _ & _ & Hh & Hi & _).
  - apply digests_separate. vm_compute. reflexivity.
  - apply text_events. vm_compute. reflexivity.
  - exists h, content. split; [exact Hh|exact Hi].
Defined.
