(* ===== verification/QueryResults.v ===== *)
(** * Cached answers of the daemon: [QueryResultCache] and [NeuralQueryCache].

  A search reads the revision of the cache before it looks at any index, and its answer
  is stored or served only while that revision is current.  Clearing a workspace moves the
  revision and drops the answers about it.  Every operation holds the cache's lock, so a
  run of the daemon is a sequence of them by any number of searches.  The sizes of keys and
  answers depend on the capacities of their allocations and are arguments. *)
From S2P Require Import Prelude Utf8 Lru Caches.

Definition MAX_CACHEABLE_HITS : nat := 2000.
Definition MAX_QUERY_CACHE_ENTRIES : nat := 128.
Definition MAX_QUERY_CACHE_BYTES : Z := 64 * 1024 * 1024.
Definition MAX_NEURAL_QUERY_CACHE_ENTRIES : nat := 128.
Definition MAX_NEURAL_QUERY_CACHE_BYTES : Z := 4 * 1024 * 1024.

(** [Request] is what a key holds besides its workspaces: their signatures, the query, the
    options and the models. *)
Record QueryCacheKey (Id Request : Type) := MkKey { workspace_ids : list Id; request : Request }.
Arguments MkKey {Id Request} _ _.
Arguments workspace_ids {Id Request} _.
Arguments request {Id Request} _.
#[export] Instance query_cache_key_eq_dec {Id Request} `{EqDecision Id, EqDecision Request} : EqDecision (QueryCacheKey Id Request).
Proof. solve_decision. Defined.

Section Results.
Context {Id Request Hit C : Type} `{EqDecision Id} `{EqDecision Request} `{!Lru (QueryCacheKey Id Request) (list Hit * Z) C}.
Context (query_result_bytes : QueryCacheKey Id Request -> list Hit -> Z) (query_result_cache_enabled : bool).
Abbreviation Key := (QueryCacheKey Id Request).
Abbreviation Cache := (@ByteCache.t C).

Record QueryResultCache := MkResults { results : Cache; revision : Z }.
Definition default_results : option QueryResultCache :=
  c ← ByteCache.new (H := _) MAX_QUERY_CACHE_ENTRIES MAX_QUERY_CACHE_BYTES; Some (MkResults c 0).

(** [QueryResultCache::get], [insert] and [remove_workspace]; [None] stands for an
    arithmetic overflow, as in [ByteCache]. *)
Definition get (key : Key) (c : QueryResultCache) : option (list Hit) * QueryResultCache :=
  let '(hits, results) := ByteCache.get key (results c) in (hits, MkResults results (revision c)).
Definition insert (key : Key) (hits : list Hit) (c : QueryResultCache) : option QueryResultCache :=
  results ← ByteCache.insert key hits (query_result_bytes key hits) (results c); Some (MkResults results (revision c)).
Definition remove_workspace (workspace_id : Id) (c : QueryResultCache) : option QueryResultCache :=
  let keys := filter (fun key => workspace_id ∈ workspace_ids key) (ByteCache.keys (results c)) in
  results ← foldl (fun c key => c ← c; ByteCache.remove key c) (Some (results c)) keys;
  Some (MkResults results ((revision c + 1) mod 2 ^ 64)).

(** ** The daemon's operations *)

Definition query_cache_revision (c : QueryResultCache) : Z := if query_result_cache_enabled then revision c else 0.
Definition cached_query_results (key : Key) (at_revision : Z) (c : QueryResultCache) : option (list Hit) * QueryResultCache :=
  if negb query_result_cache_enabled then (None, c)
  else if negb (revision c =? at_revision)%Z then (None, c)
  else get key c.
Definition store_query_results (key : Key) (hits : list Hit) (at_revision : Z) (c : QueryResultCache) : option QueryResultCache :=
  if negb query_result_cache_enabled then Some c
  else if negb (revision c =? at_revision)%Z || (MAX_CACHEABLE_HITS <? length hits)
          || negb (ByteCache.fits (results c) (query_result_bytes key hits)) then Some c
  else insert key hits c.

(** What happens to the cache: search [t] begins and reads the revision, looks for an
    answer, stores one it computed; a workspace is cleared. *)
Inductive Op := Begin (t : nat) | Lookup (t : nat) (key : Key) | Store (t : nat) (key : Key) (hits : list Hit) | Clear (id : Id).
(** The cache and the revision each search read. *)
Definition Daemon : Type := QueryResultCache * gmap nat Z.
Definition op_step (d : Daemon) (op : Op) : option Daemon :=
  let '(c, revisions) := d in
  match op with
  | Begin t => Some (c, <[t := query_cache_revision c]> revisions)
  | Lookup t key =>
    at_revision ← revisions !! t; Some ((cached_query_results key at_revision c).2, revisions)
  | Store t key hits =>
    at_revision ← revisions !! t; c ← store_query_results key hits at_revision c; Some (c, revisions)
  | Clear id => c ← remove_workspace id c; Some (c, revisions)
  end.
Definition run (d : Daemon) (ops : list Op) : option Daemon := foldl (fun d op => d ← d; op_step d op) (Some d) ops.
End Results.

Section Neural.
Context {Vector C : Type} `{!Lru str (Vector * Z) C} (vector_bytes : str -> Vector -> Z).
Definition default_neural : option (@ByteCache.t C) := ByteCache.new MAX_NEURAL_QUERY_CACHE_ENTRIES MAX_NEURAL_QUERY_CACHE_BYTES.
Definition neural_get (query : str) (c : @ByteCache.t C) : option Vector * @ByteCache.t C := ByteCache.get (trim query) c.
Definition neural_insert (query : str) (vector : Vector) (c : @ByteCache.t C) : option (@ByteCache.t C) :=
  ByteCache.insert (trim query) vector (vector_bytes (trim query) vector) c.
(** [completed] is the [OnceLock] of the embedding. *)
Definition store_completed_neural_query (query : str) (completed : option Vector) (cancelled : bool) (c : @ByteCache.t C)
  : option (@ByteCache.t C) :=
  if cancelled then Some c
  else match completed with Some vector => neural_insert query vector c | None => Some c end.
End Neural.

(** ** Facts *)

Section Facts.
Context {Id Request Hit C : Type} `{EqDecision Id} `{EqDecision Request} `{!Lru (QueryCacheKey Id Request) (list Hit * Z) C}.
Context (query_result_bytes : QueryCacheKey Id Request -> list Hit -> Z) (enabled : bool).
Context (Hbytes : forall key hits, (0 <= query_result_bytes key hits)%Z).
Abbreviation Key := (QueryCacheKey Id Request).
Abbreviation Ops := (list (Op (Id := Id) (Request := Request) (Hit := Hit))).
Abbreviation entries_of c := (lru_iter (entries c)).
#[local] Notation run := (run query_result_bytes enabled).
#[local] Notation op_step := (op_step query_result_bytes enabled).

Lemma remove_all keys : forall c : @ByteCache.t C, ByteCache.inv c ->
  exists c', foldl (fun c key => c ← c; ByteCache.remove key c) (Some c) keys = Some c' /\ ByteCache.inv c'
    /\ forall e, e ∈ entries_of c' -> e ∈ entries_of c /\ e.1 ∉ keys.
Proof.
  induction keys as [|key keys IH]; intros c Hc; cbn [foldl]; [exists c; split_and!; [done..|]; set_solver|].
  destruct (ByteCache.remove_inv key c Hc) as (c1 & Hr & Hc1 & _ & Hi & _). cbn [mbind option_bind]. rewrite Hr.
  destruct (IH c1 Hc1) as (c2 & Hf & Hc2 & He). exists c2. split_and!; [done..|]. intros e Hin. destruct (He e Hin) as [Hin1 Hn].
  rewrite Hi in Hin1. split; [by eapply without_elem|]. intros [<-|Hk]%elem_of_cons; [|done].
  destruct Hc as [[(Hnd & _) _] _]. apply (without_gone e.1 _ Hnd). apply list_elem_of_fmap. by exists e.
Qed.

Definition is_clear (op : Op (Id := Id) (Request := Request) (Hit := Hit)) : bool := match op with Clear _ => true | _ => false end.
Definition clears (ops : Ops) : nat := length (filter (fun op => is_clear op = true) ops).
Lemma clears_app a b : clears (a ++ b) = clears a + clears b.
Proof. unfold clears. by rewrite filter_app, length_app. Qed.
Lemma clears_snoc ops op : clears (ops ++ [op]) = if is_clear op then S (clears ops) else clears ops.
Proof. rewrite clears_app. unfold clears at 2. rewrite filter_cons. destruct (is_clear op); cbn [decide bool_decide]; [rewrite decide_True by done|rewrite decide_False by done]; cbn; lia. Qed.
Lemma no_clears ops : clears ops = 0 -> forall id, Clear id ∉ ops.
Proof.
  intros H id Hin. assert (@Clear Id Request Hit id ∈ filter (fun op => is_clear op = true) ops) as Hf by (by apply list_elem_of_filter).
  unfold clears in H. apply length_zero_iff_nil in H. rewrite H in Hf. by apply elem_of_nil in Hf.
Qed.

(** Search [u] began in [ops], with nothing cleared since. *)
Definition began (u : nat) (before since : Ops) (ops : Ops) : Prop := ops = before ++ Begin u :: since /\ Begin u ∉ since.
(** The hits were stored for the key by a search during which nothing was cleared, and none
    of the key's workspaces was cleared since. *)
Definition answered (ops : Ops) (key : Key) (hits : list Hit) : Prop :=
  exists before during since u, ops = before ++ Begin u :: during ++ Store u key hits :: since
    /\ (Begin u ∉ during) /\ clears during = 0 /\ forall id, id ∈ workspace_ids key -> Clear id ∉ since.

Record daemon_ok (ops : Ops) (d : Daemon (C := C)) : Prop := {
  ok_cache : ByteCache.inv (results d.1);
  ok_revision : revision d.1 = Z.of_nat (clears ops);
  ok_begun : forall u, is_Some (d.2 !! u) <-> Begin u ∈ ops;
  ok_searches : forall u r, d.2 !! u = Some r -> exists before since, began u before since ops /\ (enabled = true -> r = Z.of_nat (clears before));
  ok_entries : forall key hits z, (key, (hits, z)) ∈ entries_of (results d.1) -> answered ops key hits
}.

Lemma answered_snoc ops key hits op : answered ops key hits -> (forall id, id ∈ workspace_ids key -> op <> Clear id) -> answered (ops ++ [op]) key hits.
Proof.
  intros (before & during & since & u & -> & Hu & Hd & Hs) Hop. exists before, during, (since ++ [op]), u. split; [|split; [done|split; [done|]]].
  - by rewrite <- !app_assoc, app_comm_cons, <- !app_assoc.
  - intros id Hid. rewrite not_elem_of_app. split; [by apply Hs|]. intros He%list_elem_of_singleton. by apply (Hop id).
Qed.
Lemma began_snoc ops u op before since : began u before since ops -> op <> Begin u -> began u before (since ++ [op]) (ops ++ [op]).
Proof.
  intros [-> Hu] Hop. split; [by rewrite <- app_assoc|]. rewrite not_elem_of_app. split; [done|]. by intros ?%list_elem_of_singleton.
Qed.

(** An operation that begins no search and clears nothing. *)
Lemma daemon_ok_quiet ops c c' revisions op : daemon_ok ops (c, revisions) -> is_clear op = false -> (forall u, op <> Begin u) ->
  ByteCache.inv (results c') -> revision c' = revision c ->
  (forall key hits z, (key, (hits, z)) ∈ entries_of (results c') -> answered (ops ++ [op]) key hits) ->
  daemon_ok (ops ++ [op]) (c', revisions).
Proof.
  intros [Hc Hr Hb Hs He] Hop Hnb Hc' Hr' He'. split; cbn [fst snd] in *.
  - done.
  - by rewrite Hr', Hr, clears_snoc, Hop.
  - intros u. rewrite Hb, elem_of_app, list_elem_of_singleton. naive_solver.
  - intros u r Hu. destruct (Hs u r Hu) as (before & since & Hbg & Hrr). exists before, (since ++ [op]). split; [|done]. by apply began_snoc.
  - done.
Qed.

Lemma get_entries key c e : e ∈ entries_of (ByteCache.get key c).2 -> e ∈ entries_of c.
Proof.
  unfold ByteCache.get. destruct (lru_get_spec key (entries c)) as (_ & He & _). destruct (lru_get key (entries c)) as [v e']. cbn [fst snd entries] in *.
  rewrite He. destruct (assoc key (lru_iter (entries c))) as [v'|] eqn:Ha; [|done]. apply assoc_In in Ha.
  intros [->|Hin]%elem_of_cons; [done|]. by eapply without_elem.
Qed.
Lemma get_found key c hits : (ByteCache.get key c).1 = Some hits -> exists z, (key, (hits, z)) ∈ entries_of c.
Proof.
  unfold ByteCache.get. destruct (lru_get_spec key (entries c)) as (Hv & _ & _). destruct (lru_get key (entries c)) as [v e']. cbn [fst] in *. subst v.
  destruct (assoc key _) as [[hits' z]|] eqn:Ha; [|done]. intros [= ->]. exists z. by apply assoc_In.
Qed.

(** Between two points with as many clears nothing was cleared. *)
Lemma clears_since before since ops u : began u before since ops -> clears before = clears ops -> clears since = 0.
Proof. intros [-> _]. rewrite clears_app. change (clears (Begin u :: since)) with (clears since). lia. Qed.

Lemma op_step_ok ops c revisions op : daemon_ok ops (c, revisions) -> (Z.of_nat (clears (ops ++ [op])) < 2 ^ 64)%Z ->
  match op with Lookup t _ | Store t _ _ => Begin t ∈ ops | _ => True end ->
  exists d, op_step (c, revisions) op = Some d /\ daemon_ok (ops ++ [op]) d.
Proof.
  intros Hok Hlt Hbeg. pose proof Hok as [Hc Hr Hb Hs He]. cbn [fst snd] in *. destruct op as [t|t key|t key hits|id]; cbn [QueryResults.op_step].
  - eexists. split; [reflexivity|]. split; cbn [fst snd].
    + done.
    + by rewrite clears_snoc.
    + intros u. rewrite elem_of_app, list_elem_of_singleton. destruct (decide (u = t)) as [->|Hne].
      * rewrite lookup_insert_eq. split; [by right|by eexists].
      * rewrite lookup_insert_ne, Hb by done. naive_solver.
    + intros u r. destruct (decide (u = t)) as [->|Hne].
      * rewrite lookup_insert_eq. intros [= <-]. exists ops, []. split; [split; [done|by apply not_elem_of_nil]|].
        intros ->. cbn. by rewrite Hr.
      * rewrite lookup_insert_ne by done. intros Hu. destruct (Hs u r Hu) as (before & since & Hbg & Hrr). exists before, (since ++ [Begin t]).
        split; [|done]. apply began_snoc; [done|]. congruence.
    + intros key hits z Hin. apply answered_snoc; [by eapply He|done].
  - destruct (proj2 (Hb t) Hbeg) as [r Hrt]. rewrite Hrt. cbn [mbind option_bind]. eexists. split; [reflexivity|].
    assert (forall key' hits z, (key', (hits, z)) ∈ entries_of (results c) -> answered (ops ++ [Lookup t key]) key' hits) as He'.
    { intros key' hits z Hin. apply answered_snoc; [by eapply He|done]. }
    unfold cached_query_results. destruct (negb enabled), (negb (revision c =? r)%Z); cbn [snd]; try by apply (daemon_ok_quiet ops c).
    unfold get. pose proof (ByteCache.get_inv key (results c) Hc) as Hgi. pose proof (get_entries key (results c)) as Hge.
    destruct (ByteCache.get key (results c)) as [v c']. cbn [snd] in *. apply (daemon_ok_quiet ops c); eauto.
  - destruct (proj2 (Hb t) Hbeg) as [r Hrt]. rewrite Hrt. cbn [mbind option_bind]. 
    assert (forall key' hits' z, (key', (hits', z)) ∈ entries_of (results c) -> answered (ops ++ [Store t key hits]) key' hits') as He'.
    { intros key' hits' z Hin. apply answered_snoc; [by eapply He|done]. }
    unfold store_query_results. destruct enabled eqn:Een; cbn [negb]; [|eexists; split; [reflexivity|]; by apply (daemon_ok_quiet ops c)].
    destruct (_ || _) eqn:Eguard; [eexists; split; [reflexivity|]; by apply (daemon_ok_quiet ops c)|].
    apply orb_false_iff in Eguard as [[Erev _]%orb_false_iff _]. apply negb_false_iff, Z.eqb_eq in Erev.
    destruct (Hs t r Hrt) as (before & since & Hbg & Hrr). specialize (Hrr eq_refl).
    assert (clears since = 0) as Hns by (eapply clears_since; [exact Hbg|lia]).
    unfold insert. destruct (ByteCache.insert_spec key hits (query_result_bytes key hits) (results c) Hc (Hbytes _ _)) as (c' & -> & Hc' & _ & Hent).
    cbn [mbind option_bind]. eexists. split; [reflexivity|]. apply (daemon_ok_quiet ops c); try done. cbn [results].
    intros key' hits' z Hin. destruct (ByteCache.fits _ _).
    + destruct Hent as (kept & dropped & Hw & Hl & _). rewrite Hl in Hin. apply elem_of_cons in Hin as [[= -> -> ->]|Hin].
      * destruct Hbg as [-> Hu]. exists before, since, [], t. split; [by rewrite <- app_assoc|]. split; [done|]. split; [done|].
        intros id _. apply not_elem_of_nil.
      * apply (He' key' hits' z). apply (without_elem key). rewrite Hw. apply elem_of_app. by left.
    + rewrite Hent in Hin. apply (He' key' hits' z). by eapply without_elem.
  - unfold remove_workspace. set (keys := filter _ _). destruct (remove_all keys (results c) Hc) as (c' & -> & Hc' & Hent). cbn [mbind option_bind].
    eexists. split; [reflexivity|]. rewrite clears_snoc in Hlt. cbn [is_clear] in Hlt. split; cbn [fst snd results revision].
    + done.
    + rewrite clears_snoc. cbn [is_clear]. rewrite Hr, Z.mod_small by lia. lia.
    + intros u. rewrite Hb, elem_of_app, list_elem_of_singleton. naive_solver.
    + intros u r Hu. destruct (Hs u r Hu) as (before & since & Hbg & Hrr). exists before, (since ++ [Clear id]). split; [|done]. by apply began_snoc.
    + intros key hits z Hin. destruct (Hent _ Hin) as [Hin0 Hkey]. apply answered_snoc; [by eapply He|]. intros id' Hid [= ->]. apply Hkey.
      cbn [fst]. unfold keys. apply list_elem_of_filter. split; [done|]. unfold ByteCache.keys. apply list_elem_of_fmap. by exists (key, (hits, z)).
Qed.

(** Searches begin before they use the cache. *)
Definition begun (ops : Ops) : Prop := forall before op since, ops = before ++ op :: since ->
  match op with Lookup t _ | Store t _ _ => Begin t ∈ before | _ => True end.

Lemma run_ok ops : begun ops -> (Z.of_nat (clears ops) < 2 ^ 64)%Z -> forall d, daemon_ok [] d -> exists d', run d ops = Some d' /\ daemon_ok ops d'.
Proof.
  induction ops as [|op ops IH] using rev_ind; intros Hbeg Hlt d Hd; [by exists d|].
  destruct (IH) with (d := d) as ([c revisions] & Hrun & Hok); [|rewrite clears_app in Hlt; lia|done|].
  - intros before op' since ->. apply (Hbeg before op' (since ++ [op])). by rewrite <- app_assoc.
  - unfold QueryResults.run in *. rewrite foldl_snoc, Hrun. cbn [mbind option_bind]. apply op_step_ok; [done|done|].
    by apply (Hbeg ops op []).
Qed.
Lemma default_ok d : default_results = Some d -> daemon_ok [] (d, ∅).
Proof.
  unfold default_results, MAX_QUERY_CACHE_ENTRIES. destruct (ByteCache.new _ _) as [c|] eqn:Ec; [|done]. intros [= <-].
  pose proof Ec as Ei. apply ByteCache.new_inv in Ei; [|unfold in_u64, MAX_QUERY_CACHE_BYTES, U64_MAX; lia]. split; cbn [fst snd results revision].
  - done.
  - done.
  - intros u. rewrite lookup_empty, elem_of_nil. split; [by intros [??]|done].
  - intros u r. by rewrite lookup_empty.
  - injection Ec as <-. cbn [entries]. destruct (lru_new_spec (K := QueryCacheKey Id Request) (V := list Hit * Z) (C := C) 128 ltac:(lia)) as [-> _].
    by intros ??? ?%elem_of_nil.
Qed.
End Facts.

(** C9. The daemon serves no stale answer.  In any interleaving of searches with clearings,
    fewer than 2^64 of them, no arithmetic of the cache overflows and it stays within its
    limits; and when a search is served an answer, nothing was cleared since it began, and
    the answer was stored for the same key by a search during which nothing was cleared,
    none of the key's workspaces having been cleared since. *)
Theorem served_answers_current {Id Request Hit C} `{EqDecision Id, EqDecision Request, !Lru (QueryCacheKey Id Request) (list Hit * Z) C}
    (query_result_bytes : QueryCacheKey Id Request -> list Hit -> Z) enabled d ops
    (Hbytes : forall key hits, (0 <= query_result_bytes key hits)%Z)
    (Hd : default_results = Some d) (Hbegun : begun ops) (Hclears : (Z.of_nat (clears ops) < 2 ^ 64)%Z) :
  exists c revisions, run query_result_bytes enabled (d, ∅) ops = Some (c, revisions) /\ ByteCache.inv (results c)
    /\ forall t key at_revision hits, revisions !! t = Some at_revision -> (cached_query_results enabled key at_revision c).1 = Some hits ->
         answered ops key hits /\ exists before since, began t before since ops /\ clears since = 0.
Proof.
  destruct (run_ok query_result_bytes enabled Hbytes ops Hbegun Hclears (d, ∅) (default_ok enabled d Hd)) as ([c revisions] & Hrun & Hok).
  exists c, revisions. split; [done|]. destruct Hok as [Hc Hr Hb Hs He]. cbn [fst snd] in *. split; [done|].
  intros t key r hits Ht. unfold cached_query_results. destruct enabled; [|done]. cbn [negb].
  destruct (Z.eqb_spec (revision c) r) as [<-|]; [|done]. cbn [negb]. unfold get.
  pose proof (get_found key (results c) hits) as Hf. destruct (ByteCache.get key (results c)) as [v c']. cbn [fst] in *. intros ->.
  destruct (Hf eq_refl) as [z Hz]. split; [by eapply He|]. destruct (Hs t _ Ht) as (before & since & Hbg & Hrr). exists before, since. split; [done|].
  eapply clears_since; [exact Hbg|]. specialize (Hrr eq_refl). lia.
Qed.

(** A vector is found again under every spelling of its query that trims alike. *)
Lemma neural_found {Vector C} `{!Lru str (Vector * Z) C} (vector_bytes : str -> Vector -> Z) query query' (vector : Vector) (c : @ByteCache.t C) :
  ByteCache.inv c -> (0 <= vector_bytes (trim query) vector <= max_bytes c)%Z -> trim query' = trim query ->
  exists c', neural_insert vector_bytes query vector c = Some c' /\ ByteCache.inv c' /\ (neural_get query' c').1 = Some vector.
Proof.
  intros Hc Hb Ht. unfold neural_insert, neural_get. rewrite Ht.
  destruct (ByteCache.insert_spec (trim query) vector (vector_bytes (trim query) vector) c Hc ltac:(lia)) as (c' & Hi & Hc' & _ & Hent).
  exists c'. split; [done|]. split; [done|]. unfold ByteCache.fits in Hent. rewrite (proj2 (Z.leb_le _ _)) in Hent by lia.
  destruct Hent as (kept & dropped & _ & Hl & _). unfold ByteCache.get. destruct (lru_get_spec (trim query) (entries c')) as (Hv & _).
  destruct (lru_get _ _) as [v e]. cbn [fst] in *. rewrite Hv, Hl. cbn [assoc]. by rewrite decide_True.
Qed.

(** ** An example *)

Definition example_key (id : nat) : QueryCacheKey nat unit := MkKey [id] tt.
Definition example_ops : list (@Op nat unit nat) :=
  [Begin 1; Store 1 (example_key 7) [42]; Clear 8; Begin 2; Lookup 2 (example_key 7)].
Definition example_daemon : @QueryResultCache (list (QueryCacheKey nat unit * (list nat * Z)) * nat) := MkResults (MkSized ([], 128) 0 MAX_QUERY_CACHE_BYTES) 0.
Lemma served_answers_current_witness : answered example_ops (example_key 7) [42].
Proof.
  destruct (served_answers_current (fun _ hits => Z.of_nat (length hits)) true example_daemon example_ops) as (c & revisions & Hrun & _ & H).
  - intros. lia.
  - reflexivity.
  - intros before op since Hops.
    do 5 (destruct before as [|? before]; [injection Hops as <- _; try exact I; set_solver|injection Hops as <- Hops]). by destruct before.
  - vm_compute. reflexivity.
  - vm_compute in Hrun. injection Hrun as <- <-. apply (H 2 (example_key 7) 1%Z [42]); vm_compute; reflexivity.
Defined.
