(* ===== verification/ContextPool.v ===== *)
(** * Idle search contexts of the daemon: [SearchContextPool].

  Pools keep contexts between searches.  All pools share two atomic counters, which are
  moved outside a common lock: by compare-and-exchange loops when a context is kept, by
  subtraction after one was taken or a pool was dropped.  Any number of threads work on any
  number of pools, one atomic action a step.  A guard of a pool's mutex carries the list it
  guards until it is released.  A context is its [estimated_retained_bytes]. *)
From S2P Require Import Prelude.
Local Open Scope Z_scope.

Definition MAX_IDLE_SEARCH_CONTEXT_BYTES : Z := 256 * 1024 * 1024.
Definition MAX_IDLE_SEARCH_CONTEXTS_PER_KEY : nat := 4.
Definition MAX_IDLE_SEARCH_CONTEXTS : Z := 32.

(** A pool's [idle] list: free, in the guard of a thread, or dropped with its pool. *)
Inductive Slot := Free (idle : list Z) | Guarded | Dropped.

(** Where a thread is.  [current] is what its compare-and-exchange loop last saw, [None]
    before the load. *)
Inductive Thread :=
| Outside
| TookContext (bytes : Z)
| TookCount (bytes : Z)
| ReserveBytes (pool : nat) (idle : list Z) (bytes : Z) (current : option Z)
| ReserveCount (pool : nat) (idle : list Z) (bytes : Z) (current : option Z)
| Push (pool : nat) (idle : list Z) (bytes : Z)
| GiveBack (pool : nat) (idle : list Z) (bytes : Z)
| DropCount (idle : list Z)
| DropBytes (idle : list Z).

Record State := MkState { slots : list Slot; threads : list Thread; idle_count : Z; idle_bytes : Z }.

Definition sum (l : list Z) : Z := foldr Z.add 0 l.
(** [fetch_sub] wraps. *)
Definition fetch_sub (counter amount : Z) : Z := (counter - amount) mod 2 ^ 64.

(** The closures given to [update_atomic_usize]. *)
Definition add_bytes (bytes retained : Z) : option Z :=
  total ← checked_add retained bytes; if total <=? MAX_IDLE_SEARCH_CONTEXT_BYTES then Some total else None.
Definition add_context (count : Z) : option Z := if count <? MAX_IDLE_SEARCH_CONTEXTS then Some (count + 1) else None.

(** One round of [update_atomic_usize] on a counter: the load, or the attempt to exchange,
    which may fail for no reason.  [inl] is the value seen, [inr] the result. *)
Inductive Attempt := Saw (current : Z) | Done (next : Z) | Refused.
Definition update_round (update : Z -> option Z) (counter : Z) (current : option Z) (spurious : bool) : Attempt :=
  match current with
  | None => Saw counter
  | Some current =>
    match update current with
    | None => Refused
    | Some next => if (counter =? current) && negb spurious then Done next else Saw counter
    end
  end.

Definition set_thread (i : nat) (t : Thread) (s : State) : State :=
  MkState (slots s) (<[i := t]> (threads s)) (idle_count s) (idle_bytes s).
Definition set_slot (p : nat) (slot : Slot) (s : State) : State :=
  MkState (<[p := slot]> (slots s)) (threads s) (idle_count s) (idle_bytes s).
Definition set_count (n : Z) (s : State) : State := MkState (slots s) (threads s) n (idle_bytes s).
Definition set_bytes (n : Z) (s : State) : State := MkState (slots s) (threads s) (idle_count s) n.

(** ** One action of a thread *)

Inductive Action := NewPool | Take (pool : nat) | Retain (pool : nat) (bytes : Z) | DropPool (pool : nat) | Continue (spurious : bool).

(** What a thread starts; [None] while the mutex is held by another. *)
Definition begin_op (i : nat) (action : Action) (s : State) : option State :=
  match action with
  | NewPool => Some (MkState (slots s ++ [Free []]) (threads s) (idle_count s) (idle_bytes s))
  | Take pool =>
    match slots s !! pool with
    | Some (Free idle) =>
      match last idle with
      | Some bytes => Some (set_thread i (TookContext bytes) (set_slot pool (Free (removelast idle)) s))
      | None => Some s
      end
    | _ => None
    end
  | Retain pool bytes =>
    match slots s !! pool with
    | Some (Free idle) =>
      if (MAX_IDLE_SEARCH_CONTEXTS_PER_KEY <=? length idle)%nat then Some s
      else Some (set_thread i (ReserveBytes pool idle bytes None) (set_slot pool Guarded s))
    | _ => None
    end
  | DropPool pool =>
    match slots s !! pool with
    | Some (Free idle) =>
      if (0 <? length idle)%nat then Some (set_thread i (DropCount idle) (set_slot pool Dropped s)) else Some (set_slot pool Dropped s)
    | _ => None
    end
  | Continue _ => None
  end.

Definition release (i pool : nat) (idle : list Z) (s : State) : option State :=
  match slots s !! pool with
  | Some Guarded => Some (set_thread i Outside (set_slot pool (Free idle) s))
  | _ => None
  end.
Definition go_on (i : nat) (t : Thread) (spurious : bool) (s : State) : option State :=
  match t with
  | Outside => None
  | TookContext bytes => Some (set_thread i (TookCount bytes) (set_count (fetch_sub (idle_count s) 1) s))
  | TookCount bytes => Some (set_thread i Outside (set_bytes (fetch_sub (idle_bytes s) bytes) s))
  | ReserveBytes pool idle bytes current =>
    match update_round (add_bytes bytes) (idle_bytes s) current spurious with
    | Saw current => Some (set_thread i (ReserveBytes pool idle bytes (Some current)) s)
    | Done next => Some (set_thread i (ReserveCount pool idle bytes None) (set_bytes next s))
    | Refused => release i pool idle s
    end
  | ReserveCount pool idle bytes current =>
    match update_round add_context (idle_count s) current spurious with
    | Saw current => Some (set_thread i (ReserveCount pool idle bytes (Some current)) s)
    | Done next => Some (set_thread i (Push pool idle bytes) (set_count next s))
    | Refused => Some (set_thread i (GiveBack pool idle bytes) s)
    end
  | Push pool idle bytes => release i pool (idle ++ [bytes]) s
  | GiveBack pool idle bytes => release i pool idle (set_bytes (fetch_sub (idle_bytes s) bytes) s)
  | DropCount idle => Some (set_thread i (DropBytes idle) (set_count (fetch_sub (idle_count s) (Z.of_nat (length idle))) s))
  | DropBytes idle => Some (set_thread i Outside (set_bytes (fetch_sub (idle_bytes s) (sum idle)) s))
  end.
Definition step (i : nat) (action : Action) (s : State) : option State :=
  match threads s !! i, action with
  | Some Outside, Continue _ => None
  | Some Outside, _ => begin_op i action s
  | Some t, Continue spurious => go_on i t spurious s
  | _, _ => None
  end.

(** Sizes are [usize]. *)
Inductive reachable (n : nat) : State -> Prop :=
| at_start : reachable n (MkState [] (replicate n Outside) 0 0)
| at_step s i action s' : reachable n s -> (forall pool bytes, action = Retain pool bytes -> in_u64 bytes) ->
    step i action s = Some s' -> reachable n s'.

(** ** The accounts *)

Definition slot_idle (slot : Slot) : list Z := match slot with Free idle => idle | _ => [] end.
(** The contexts a thread accounts for in each counter. *)
Definition counted (t : Thread) : list Z :=
  match t with
  | TookContext bytes => [bytes]
  | ReserveBytes _ idle _ _ | ReserveCount _ idle _ _ | GiveBack _ idle _ => idle
  | Push _ idle bytes => idle ++ [bytes]
  | DropCount idle => idle
  | _ => []
  end.
Definition weighed (t : Thread) : list Z :=
  match t with
  | TookContext bytes | TookCount bytes => [bytes]
  | ReserveBytes _ idle _ _ => idle
  | ReserveCount _ idle bytes _ | Push _ idle bytes | GiveBack _ idle bytes => idle ++ [bytes]
  | DropCount idle | DropBytes idle => idle
  | Outside => []
  end.
Definition total_count (s : State) : Z :=
  sum (map (fun slot => Z.of_nat (length (slot_idle slot))) (slots s)) + sum (map (fun t => Z.of_nat (length (counted t))) (threads s)).
Definition total_bytes (s : State) : Z :=
  sum (map (fun slot => sum (slot_idle slot)) (slots s)) + sum (map (fun t => sum (weighed t)) (threads s)).

Definition thread_ok (t : Thread) : Prop :=
  Forall (fun b => 0 <= b) (weighed t) /\
  match t with
  | ReserveBytes _ idle bytes _ => (length idle < MAX_IDLE_SEARCH_CONTEXTS_PER_KEY)%nat /\ 0 <= bytes
  | ReserveCount _ idle _ _ | Push _ idle _ | GiveBack _ idle _ => (length idle < MAX_IDLE_SEARCH_CONTEXTS_PER_KEY)%nat
  | _ => True
  end.
Definition slot_ok (slot : Slot) : Prop :=
  Forall (fun b => 0 <= b) (slot_idle slot) /\ (length (slot_idle slot) <= MAX_IDLE_SEARCH_CONTEXTS_PER_KEY)%nat.
Record pool_inv (s : State) : Prop := {
  inv_count : idle_count s = total_count s;
  inv_bytes : idle_bytes s = total_bytes s;
  inv_max : idle_count s <= MAX_IDLE_SEARCH_CONTEXTS /\ idle_bytes s <= MAX_IDLE_SEARCH_CONTEXT_BYTES;
  inv_threads : Forall thread_ok (threads s);
  inv_slots : Forall slot_ok (slots s)
}.

Lemma sum_insert {A} (f : A -> Z) l i x y : l !! i = Some x -> sum (map f (<[i := y]> l)) = sum (map f l) - f x + f y.
Proof.
  revert i. induction l as [|a l IH]; intros [|i] H; [done..| |].
  - injection H as ->. unfold sum. cbn. lia.
  - change (f a + sum (map f (<[i := y]> l)) = f a + sum (map f l) - f x + f y). rewrite IH by done. lia.
Qed.
Lemma size_sum_app l1 l2 : sum (l1 ++ l2) = sum l1 + sum l2.
Proof. induction l1 as [|x l1 IH]; unfold sum in *; cbn; lia. Qed.
Lemma sum_at {A} (f : A -> Z) l i x : Forall (fun y => 0 <= f y) l -> l !! i = Some x -> 0 <= f x <= sum (map f l).
Proof.
  intros Hl. revert i. induction Hl as [|y l Hy Hl IH]; intros [|i] H; try done.
  - injection H as ->. change (0 <= f x <= f x + sum (map f l)). enough (0 <= sum (map f l)) by lia.
    clear -Hl. induction Hl; unfold sum in *; cbn; lia.
  - apply IH in H. change (0 <= f x <= f y + sum (map f l)). lia.
Qed.
Lemma size_sum_nonneg l : Forall (fun b => 0 <= b) l -> 0 <= sum l.
Proof. induction 1; unfold sum in *; cbn; lia. Qed.
Lemma sum_map_nonneg {A} (f : A -> Z) l : Forall (fun y => 0 <= f y) l -> 0 <= sum (map f l).
Proof. induction 1; unfold sum in *; cbn; lia. Qed.

(** A thread and a slot move, and the counters move by what they account for. *)
Lemma move s i t t' n' b' p slot slot' : pool_inv s -> threads s !! i = Some t -> slots s !! p = Some slot -> thread_ok t' -> slot_ok slot' ->
  n' = idle_count s - Z.of_nat (length (counted t)) + Z.of_nat (length (counted t')) - Z.of_nat (length (slot_idle slot)) + Z.of_nat (length (slot_idle slot')) ->
  b' = idle_bytes s - sum (weighed t) + sum (weighed t') - sum (slot_idle slot) + sum (slot_idle slot') ->
  n' <= MAX_IDLE_SEARCH_CONTEXTS -> b' <= MAX_IDLE_SEARCH_CONTEXT_BYTES ->
  pool_inv (MkState (<[p := slot']> (slots s)) (<[i := t']> (threads s)) n' b').
Proof.
  intros [Hc Hb Hm Ht Hs] Hi Hp Hok Hsok Hn' Hb' Hn Hbm. unfold total_count, total_bytes in *. split; cbn [slots threads idle_count idle_bytes]; unfold total_count, total_bytes;
    cbn [slots threads]; [| |done|by apply Forall_insert|by apply Forall_insert].
  - rewrite (sum_insert _ _ _ _ _ Hi), (sum_insert _ _ _ _ _ Hp). lia.
  - rewrite (sum_insert _ _ _ _ _ Hi), (sum_insert _ _ _ _ _ Hp). lia.
Qed.
Lemma move_thread s i t t' n' b' : pool_inv s -> threads s !! i = Some t -> thread_ok t' ->
  n' = idle_count s - Z.of_nat (length (counted t)) + Z.of_nat (length (counted t')) ->
  b' = idle_bytes s - sum (weighed t) + sum (weighed t') ->
  n' <= MAX_IDLE_SEARCH_CONTEXTS -> b' <= MAX_IDLE_SEARCH_CONTEXT_BYTES ->
  pool_inv (MkState (slots s) (<[i := t']> (threads s)) n' b').
Proof.
  intros [Hc Hb Hm Ht Hs] Hi Hok Hn' Hb' Hn Hbm. unfold total_count, total_bytes in *. split; cbn [slots threads idle_count idle_bytes]; unfold total_count, total_bytes;
    cbn [slots threads]; [| |done|by apply Forall_insert|done].
  - rewrite (sum_insert _ _ _ _ _ Hi). lia.
  - rewrite (sum_insert _ _ _ _ _ Hi). lia.
Qed.

(** What a thread accounts for is part of the counters, so no subtraction wraps. *)
Lemma account_thread s i t : pool_inv s -> threads s !! i = Some t ->
  thread_ok t /\ 0 <= Z.of_nat (length (counted t)) <= idle_count s /\ 0 <= sum (weighed t) <= idle_bytes s.
Proof.
  intros [Hc Hb Hm Ht Hs] Hi. split; [by eapply Forall_lookup_1|]. unfold total_count, total_bytes in *.
  assert (0 <= sum (map (fun slot => Z.of_nat (length (slot_idle slot))) (slots s))) by (apply sum_map_nonneg, Forall_true; intros; lia).
  assert (0 <= sum (map (fun slot => sum (slot_idle slot)) (slots s))).
  { apply sum_map_nonneg. eapply Forall_impl; [exact Hs|]. intros slot [H1 _]. by apply size_sum_nonneg. }
  pose proof (sum_at (fun t => Z.of_nat (length (counted t))) (threads s) i t ltac:(apply Forall_true; intros; lia) Hi).
  assert (0 <= sum (weighed t) <= sum (map (fun t => sum (weighed t)) (threads s))); [|lia].
  apply (sum_at (fun t => sum (weighed t)) _ i); [|done]. eapply Forall_impl; [exact Ht|]. intros u [Hu _]. by apply size_sum_nonneg.
Qed.
Lemma fetch_sub_exact n a : 0 <= a <= n -> n <= MAX_IDLE_SEARCH_CONTEXT_BYTES -> fetch_sub n a = n - a.
Proof. intros Ha Hn. unfold fetch_sub, MAX_IDLE_SEARCH_CONTEXT_BYTES in *. apply Z.mod_small. lia. Qed.

Lemma release_inv s i p idle s' t n' b' : release i p idle (MkState (slots s) (threads s) n' b') = Some s' -> pool_inv s -> threads s !! i = Some t ->
  slot_ok (Free idle) ->
  n' = idle_count s - Z.of_nat (length (counted t)) + Z.of_nat (length idle) -> b' = idle_bytes s - sum (weighed t) + sum idle ->
  n' <= MAX_IDLE_SEARCH_CONTEXTS -> b' <= MAX_IDLE_SEARCH_CONTEXT_BYTES ->
  pool_inv s'.
Proof.
  intros Hr Hinv Hi Hok Hn' Hb' Hn Hb. unfold release in Hr. cbn [slots] in Hr. destruct (slots s !! p) as [[]|] eqn:Hp; try done. injection Hr as <-.
  change (pool_inv (MkState (<[p := Free idle]> (slots s)) (<[i := Outside]> (threads s)) n' b')).
  apply (move s i t Outside _ _ p Guarded (Free idle)); try done; cbn; unfold sum in *; cbn; lia.
Qed.

Lemma begin_inv s i action s' : pool_inv s -> threads s !! i = Some Outside -> (forall pool bytes, action = Retain pool bytes -> in_u64 bytes) ->
  begin_op i action s = Some s' -> pool_inv s'.
Proof.
  intros Hinv Hi Hsize Hs. pose proof Hinv as [Hc Hb [Hmc Hmb] Ht Hsl]. destruct action as [|p|p bytes|p|]; cbn [begin_op] in Hs; [| | | |done].
  - injection Hs as <-. unfold total_count, total_bytes in *. split; cbn [slots threads idle_count idle_bytes]; unfold total_count, total_bytes; cbn [slots threads].
    + rewrite map_app, size_sum_app. change (sum (map _ [Free []])) with 0. lia.
    + rewrite map_app, size_sum_app. change (sum (map _ [Free []])) with 0. lia.
    + done.
    + done.
    + apply Forall_app. split; [done|]. repeat constructor.
  - destruct (slots s !! p) as [[idle| |]|] eqn:Hp; try done. pose proof (Forall_lookup_1 _ _ _ _ Hsl Hp) as [Hpos Hlen]. cbn [slot_idle] in *.
    destruct (last idle) as [bytes|] eqn:El; [|by injection Hs as <-]. injection Hs as <-.
    apply last_Some in El as [front ->]. rewrite removelast_last in *. apply Forall_app in Hpos as [Hf Hbs]. rewrite length_app in Hlen.
    assert (thread_ok (TookContext bytes)) as Hto by (split; [done|exact I]).
    assert (slot_ok (Free front)) as Hso by (split; [done|]; cbn in *; lia).
    apply (move s i Outside (TookContext bytes) _ _ p (Free (front ++ [bytes])) (Free front)); try done.
    + cbn [counted slot_idle idle_count set_thread set_slot]. rewrite length_app. cbn. lia.
    + cbn [weighed slot_idle idle_bytes set_thread set_slot]. rewrite size_sum_app. unfold sum. cbn. lia.
  - destruct (slots s !! p) as [[idle| |]|] eqn:Hp; try done. pose proof (Forall_lookup_1 _ _ _ _ Hsl Hp) as [Hpos Hlen]. cbn [slot_idle] in *.
    destruct (Nat.leb_spec MAX_IDLE_SEARCH_CONTEXTS_PER_KEY (length idle)); [by injection Hs as <-|]. injection Hs as <-.
    assert (thread_ok (ReserveBytes p idle bytes None)) as Hto by (split; [done|]; split; [done|by destruct (Hsize p bytes eq_refl)]).
    assert (slot_ok Guarded) as Hso by (split; [constructor|cbn; lia]).
    apply (move s i Outside (ReserveBytes p idle bytes None) _ _ p (Free idle) Guarded); try done; unfold sum; cbn; lia.
  - destruct (slots s !! p) as [[idle| |]|] eqn:Hp; try done. pose proof (Forall_lookup_1 _ _ _ _ Hsl Hp) as [Hpos Hlen]. cbn [slot_idle] in *.
    assert (slot_ok Dropped) as Hso by (split; [constructor|cbn; lia]). destruct (Nat.ltb_spec 0 (length idle)).
    + injection Hs as <-. assert (thread_ok (DropCount idle)) as Hto by (split; [done|exact I]).
      apply (move s i Outside (DropCount idle) _ _ p (Free idle) Dropped); try done; unfold sum; cbn; lia.
    + injection Hs as <-. destruct idle; [|cbn in *; lia]. unfold set_slot. rewrite <- (list_insert_id (threads s) i Outside Hi).
      assert (thread_ok Outside) as Hto by (split; [constructor|exact I]).
      apply (move s i Outside Outside _ _ p (Free []) Dropped); try done; unfold sum; cbn; lia.
Qed.

Lemma update_round_done update counter current spurious next : update_round update counter current spurious = Done next -> update counter = Some next.
Proof.
  unfold update_round. destruct current as [current|]; [|done]. destruct (update current) as [n|] eqn:Eu; [|done].
  destruct (Z.eqb_spec counter current) as [->|]; [|done]. destruct spurious; [done|]. by intros [= <-].
Qed.
Lemma add_bytes_Some bytes retained next : add_bytes bytes retained = Some next -> next = retained + bytes /\ next <= MAX_IDLE_SEARCH_CONTEXT_BYTES.
Proof.
  unfold add_bytes, checked_add, checked_u64. case_decide; [|done]. cbn [mbind option_bind].
  destruct (Z.leb_spec (retained + bytes) MAX_IDLE_SEARCH_CONTEXT_BYTES); [|done]. by intros [= <-].
Qed.
Lemma add_context_Some count next : add_context count = Some next -> next = count + 1 /\ next <= MAX_IDLE_SEARCH_CONTEXTS.
Proof. unfold add_context. destruct (Z.ltb_spec count MAX_IDLE_SEARCH_CONTEXTS); [|done]. intros [= <-]. lia. Qed.

Lemma go_on_inv s i t spurious s' : pool_inv s -> threads s !! i = Some t -> go_on i t spurious s = Some s' -> pool_inv s'.
Proof.
  intros Hinv Hi. destruct (account_thread s i t Hinv Hi) as ([Hw Hok] & Hcn & Hwb). pose proof (inv_max s Hinv) as [Hmc Hmb].
  assert (idle_count s <= MAX_IDLE_SEARCH_CONTEXT_BYTES) as Hmc' by (unfold MAX_IDLE_SEARCH_CONTEXT_BYTES, MAX_IDLE_SEARCH_CONTEXTS in *; lia).
  destruct t as [|bytes|bytes|p idle bytes current|p idle bytes current|p idle bytes|p idle bytes|idle|idle]; cbn [go_on counted weighed] in *.
  - done.
  - intros [= <-]. rewrite fetch_sub_exact by (cbn in *; lia). assert (thread_ok (TookCount bytes)) as Hto by done.
    apply (move_thread s i _ (TookCount bytes) _ _ Hinv Hi); try done; cbn in *; lia.
  - intros [= <-]. rewrite fetch_sub_exact by (unfold sum in *; cbn in *; lia).
    apply (move_thread s i _ Outside _ _ Hinv Hi); try done; unfold sum in *; cbn in *; lia.
  - destruct (update_round _ _ _ _) as [seen|next|] eqn:Eu.
    + intros [= <-]. by apply (move_thread s i _ (ReserveBytes p idle bytes (Some seen)) _ _ Hinv Hi); try done; cbn in *; lia.
    + intros [= <-]. apply update_round_done, add_bytes_Some in Eu as [-> Hle]. destruct Hok as [Hlen Hpos].
      assert (thread_ok (ReserveCount p idle bytes None)) as Hto by (split; [cbn; by apply Forall_app; repeat constructor|done]).
      apply (move_thread s i _ (ReserveCount p idle bytes None) _ _ Hinv Hi); try done; cbn; rewrite ?size_sum_app; unfold sum in *; cbn in *; lia.
    + intros Hr. destruct s as [sl th c b]. apply (release_inv _ _ _ _ _ _ _ _ Hr Hinv Hi); try done; unfold sum in *; cbn in *; try lia. split; cbn; [done|lia].
  - destruct (update_round _ _ _ _) as [seen|next|] eqn:Eu; intros [= <-].
    + by apply (move_thread s i _ (ReserveCount p idle bytes (Some seen)) _ _ Hinv Hi); try done; cbn in *; lia.
    + apply update_round_done, add_context_Some in Eu as [-> Hle]. assert (thread_ok (Push p idle bytes)) as Hto by done.
      apply (move_thread s i _ (Push p idle bytes) _ _ Hinv Hi); try done; cbn; rewrite ?length_app; cbn in *; lia.
    + assert (thread_ok (GiveBack p idle bytes)) as Hto by done.
      apply (move_thread s i _ (GiveBack p idle bytes) _ _ Hinv Hi); try done; cbn in *; lia.
  - intros Hr. assert (slot_ok (Free (idle ++ [bytes]))) as Hso by (split; cbn; [done|rewrite length_app; cbn; lia]).
    destruct s as [sl th c b]. apply (release_inv _ _ _ _ _ _ _ _ Hr Hinv Hi); try done; cbn [counted weighed]; cbn [idle_count idle_bytes] in *; lia.
  - rewrite fetch_sub_exact by (rewrite size_sum_app in Hwb; apply Forall_app in Hw as [Hwi%size_sum_nonneg Hwx%size_sum_nonneg]; unfold sum in *; cbn in *; lia).
    intros Hr. assert (slot_ok (Free idle)) as Hso by (split; cbn; [by apply Forall_app in Hw as [? _]|lia]).
    rewrite size_sum_app in Hwb. apply Forall_app in Hw as [Hwi%size_sum_nonneg Hwx%size_sum_nonneg].
    apply (release_inv _ _ _ _ _ _ _ _ Hr Hinv Hi); try done; cbn; rewrite ?size_sum_app; unfold sum in *; cbn in *; lia.
  - intros [= <-]. rewrite fetch_sub_exact by lia. assert (thread_ok (DropBytes idle)) as Hto by done.
    apply (move_thread s i _ (DropBytes idle) _ _ Hinv Hi); try done; cbn in *; lia.
  - intros [= <-]. rewrite fetch_sub_exact by lia. apply (move_thread s i _ Outside _ _ Hinv Hi); try done; unfold sum in *; cbn in *; lia.
Qed.

Lemma pool_reachable_inv n s : reachable n s -> pool_inv s.
Proof.
  induction 1 as [|s i action s' _ IH Hsize Hs].
  - assert (forall f : Thread -> Z, f Outside = 0 -> sum (map f (replicate n Outside)) = 0) as Hz.
    { intros f Hf. induction n as [|n IH]; [done|]. change (f Outside + sum (map f (replicate n Outside)) = 0). lia. }
    split; cbn [slots threads idle_count idle_bytes]; unfold total_count, total_bytes; cbn [slots threads]; try done.
    + by rewrite Hz.
    + by rewrite Hz.
    + apply Forall_replicate. split; [constructor|exact I].
  - unfold step in Hs. destruct (threads s !! i) as [t|] eqn:Hi; [|done].
    destruct t, action; try done; try (by eapply go_on_inv); by eapply begin_inv.
Qed.

(** C10. The idle contexts of the daemon stay in their bounds.  Whatever any number of
    threads do with any number of pools, one atomic action at a time, both shared counters
    are exactly what the pools and the operations under way account for: at most 32
    contexts and 256 MiB are kept together and at most 4 in a pool, no subtraction wraps, and
    once no operation is under way the counters are those of the contexts kept. *)
Theorem idle_contexts_bounded n s (Hreach : reachable n s) :
  idle_count s = total_count s /\ idle_bytes s = total_bytes s
  /\ idle_count s <= MAX_IDLE_SEARCH_CONTEXTS /\ idle_bytes s <= MAX_IDLE_SEARCH_CONTEXT_BYTES
  /\ (forall p idle, slots s !! p = Some (Free idle) -> (length idle <= MAX_IDLE_SEARCH_CONTEXTS_PER_KEY)%nat)
  /\ (forall i t, threads s !! i = Some t -> Z.of_nat (length (counted t)) <= idle_count s /\ sum (weighed t) <= idle_bytes s)
  /\ (Forall (fun t => t = Outside) (threads s) ->
       idle_count s = sum (map (fun slot => Z.of_nat (length (slot_idle slot))) (slots s))
       /\ idle_bytes s = sum (map (fun slot => sum (slot_idle slot)) (slots s))).
Proof.
  apply pool_reachable_inv in Hreach as Hinv. pose proof Hinv as [Hc Hb [Hmc Hmb] Ht Hs]. split_and!; try done.
  - intros p idle Hp. by apply (Forall_lookup_1 _ _ _ _ Hs Hp).
  - intros i t Hi. destruct (account_thread s i t Hinv Hi) as (_ & ? & ?). lia.
  - intros Hout. assert (forall f : Thread -> Z, f Outside = 0 -> sum (map f (threads s)) = 0) as Hz.
    { intros f Hf. induction Hout as [|t ts -> _ IH]; [done|]. change (f Outside + sum (map f ts) = 0). apply Forall_cons in Ht. rewrite Hf, IH; tauto. }
    rewrite Hc, Hb. unfold total_count, total_bytes. rewrite !Hz by done. lia.
Qed.

(** ** An example *)

(** Two threads: one keeps a context of 10 bytes while the other takes it back. *)
Definition example_actions : list (nat * Action) :=
  [(0%nat, NewPool); (0%nat, Retain 0 10); (0%nat, Continue false); (0%nat, Continue false); (0%nat, Continue false); (0%nat, Continue false); (0%nat, Continue false);
   (1%nat, Take 0); (1%nat, Continue false); (1%nat, Continue false)].
Definition example_run (actions : list (nat * Action)) : option State :=
  foldl (fun s a => s ← s; step a.1 a.2 s) (Some (MkState [] (replicate 2 Outside) 0 0)) actions.
Lemma example_reachable actions : Forall (fun a => match a.2 with Retain _ bytes => in_u64 bytes | _ => True end) actions ->
  forall s, example_run actions = Some s -> reachable 2 s.
Proof.
  unfold example_run. induction actions as [|[i action] actions IH] using rev_ind; intros Hsize s; [intros [= <-]; constructor|].
  rewrite foldl_snoc. apply Forall_app in Hsize as [Hsize [Ha _]%Forall_cons]. destruct (foldl _ _ actions) as [s'|]; [|done]. cbn [mbind option_bind fst snd].
  intros Hs. eapply (at_step 2 s' i action); [by apply IH| |done]. by intros pool bytes ->.
Qed.
Lemma idle_contexts_bounded_witness : exists s, example_run (take 8 example_actions) = Some s /\ idle_count s = 1 /\ idle_bytes s = 10
  /\ idle_count s = total_count s /\ idle_bytes s <= MAX_IDLE_SEARCH_CONTEXT_BYTES.
Proof.
  destruct (example_run (take 8 example_actions)) as [s|] eqn:E; [|by vm_compute in E].
  assert (reachable 2 s) as Hr.
  { apply (example_reachable (take 8 example_actions)); [|done]. cbn. repeat constructor; unfold in_u64, U64_MAX; cbn; lia. }
  destruct (idle_contexts_bounded 2 s Hr) as (Hc & _ & _ & Hb & _). exists s. vm_compute in E. injection E as <-. split_and!; done.
Defined.
