(* ===== verification/SymbolLines.v ===== *)
(** * Lines that use a symbol, without a grammar: the fallback of symbols.rs.

  Quoted text and comments are blanked at the same byte offsets; then every occurrence of
  the name in what is left is looked at by its surroundings.  Offsets are bytes, as in the
  code, and a slice off a character boundary is [None], where the code panics.  The walk
  over a syntax tree is not modelled.  [is_xid_continue] is the table of unicode_ident. *)
From S2P Require Import Prelude Utf8 Paths BTree Decoding.

(** ** Masking *)

(** The longest run of bytes up to a line break. *)
Fixpoint to_newline (l : list N) : nat :=
  match l with
  | [] => 0
  | b :: l => if (b =? 10)%N then 0 else S (to_newline l)
  end.
(** The length of a nested block comment after its opening, to the end if it stays open. *)
Fixpoint block_comment (depth : nat) (l : list N) : nat :=
  match l with
  | [] => 0
  | a :: l1 =>
    match l1 with
    | b :: l2 =>
      if (a =? chr "/")%N && (b =? chr "*")%N then 2 + block_comment (S depth) l2
      else if (a =? chr "*")%N && (b =? chr "/")%N then
        match depth with S (S depth) => 2 + block_comment (S depth) l2 | _ => 2 end
      else S (block_comment depth l1)
    | [] => 1
    end
  end.
(** The rest of quoted text after its opening; [close] is the closing. *)
Fixpoint quoted (close : list N) (l : list N) : nat :=
  match l with
  | [] => 0
  | a :: l1 =>
    if (a =? chr "\")%N then match l1 with [] => 1 | _ :: l2 => 2 + quoted close l2 end
    else if starts_with close l then length close
    else S (quoted close l1)
  end.

Definition hash_comments (language : str) : bool :=
  bool_decide (language ∈ map lit ["python"; "ruby"; "shell"; "bash"; "perl"; "r"; "julia"; "elixir"; "starlark"]%string).
Definition dash_comments (language : str) : bool := bool_decide (language ∈ map lit ["sql"; "lua"; "haskell"; "ada"]%string).

Definition quotes : list N := [39; 34; 96]%N.
(** How many bytes are masked here; none in code. *)
Definition masked_run (language : str) (l : list N) : nat :=
  match l with
  | [] => 0
  | b :: _ =>
    if starts_with (lit "//") l || (hash_comments language && (b =? chr "#")%N) || (dash_comments language && starts_with (lit "--") l)
    then to_newline l
    else if starts_with (lit "/*") l then 2 + block_comment 1 (drop 2 l)
    else if bool_decide (b ∈ quotes) then
      let width := if starts_with [b; b; b] l then 3 else 1 in
      width + quoted (replicate width b) (drop width l)
    else 0
  end.
Definition blank (b : N) : N := if (b =? 10)%N || (b =? 13)%N then b else 32%N.
(** The loop of [mask_non_code]; the length of the text is enough fuel. *)
Fixpoint mask_loop (fuel : nat) (language : str) (l : list N) : list N :=
  match fuel, l with
  | S fuel, b :: rest =>
    match masked_run language l with
    | O => b :: mask_loop fuel language rest
    | n => map blank (take n l) ++ mask_loop fuel language (drop n l)
    end
  | _, _ => []
  end.
(** [String::from_utf8(masked).expect(..)] *)
Definition mask_non_code (text : str) (language : str) : option str :=
  let masked := mask_loop (length (bytes text)) language (bytes text) in
  if valid_utf8 masked then Some (lossy_chars masked) else None.

(** ** Definitions *)

Definition word_char (c : char) : bool := is_ascii_alphanumeric c || (c =? chr "_")%N.
Definition starts_any (prefixes : list string) (s : str) : bool := existsb (fun p => starts_with (lit p) s) prefixes.
Definition one_of (words : list string) (s : str) : bool := bool_decide (s ∈ map lit words).

(** The text behind the closing parenthesis. *)
Fixpoint parameters_loop (depth : nat) (s : str) : option str :=
  match s with
  | [] => None
  | c :: s =>
    if (c =? chr "(")%N then parameters_loop (S depth) s
    else if (c =? chr ")")%N then
      match depth with
      | S O => Some (trim_start s)
      | S depth => parameters_loop depth s
      | O => parameters_loop O s
      end
    else parameters_loop depth s
  end.
Definition after_parameter_list (suffix : str) : option str := parameters_loop 0 suffix.

(** The loop over qualifiers, each of which is taken off; [fuel] is the length. *)
Fixpoint prototype_loop (fuel : nat) (suffix : str) : bool :=
  match fuel, suffix with
  | _, [] => true
  | O, _ => false
  | S fuel, _ =>
    match strip_prefix (lit "=") suffix with
    | Some default_value => one_of ["0"; "default"; "delete"]%string (trim default_value)
    | None =>
      match (match strip_prefix (lit "&&") suffix with Some rest => Some rest | None => strip_prefix (lit "&") suffix end) with
      | Some rest => prototype_loop fuel (trim_start rest)
      | None =>
        let qualifier := take_while word_char suffix in
        if negb (one_of ["const"; "final"; "noexcept"; "override"; "volatile"]%string qualifier) then false
        else
          let rest := trim_start (drop_while word_char suffix) in
          if bool_decide (qualifier = lit "noexcept") && starts_with (lit "(") rest then
            match after_parameter_list rest with Some after => prototype_loop fuel after | None => false end
          else prototype_loop fuel rest
      end
    end
  end.
Definition looks_like_prototype_suffix (suffix : str) : bool :=
  match strip_suffix (lit ";") (trim_end suffix) with
  | Some suffix => let suffix := trim suffix in prototype_loop (length suffix) suffix
  | None => false
  end.

Definition looks_like_prototype_prefix (prefix : str) : bool :=
  if bool_decide (prefix = []) || ends_with (lit ".") prefix || ends_with (lit "->") prefix then false
  else if ends_with (lit "::") prefix && negb (existsb is_whitespace prefix) then false
  else
    let first_word := take_while word_char (drop_while (fun c => negb (word_char c)) prefix) in
    negb (one_of ["await"; "co_await"; "co_return"; "co_yield"; "defer"; "delete"; "new"; "return"; "throw"; "try"; "yield"]%string first_word).

(** [looks_like_definition] of the line before the name and from the name on. *)
Definition definition_around (before suffix : str) : bool :=
  let prefix := trim_end before in
  if existsb (fun c => bool_decide (c ∈ lit "{;=")) prefix then false
  else if existsb (one_of ["class"; "def"; "enum"; "fn"; "func"; "function"; "interface"; "record"; "struct"; "trait"]%string)
            (split_where (fun c => negb (word_char c)) prefix) then true
  else
    match after_parameter_list suffix with
    | Some after => starts_any ["{"; "->"; ":"; "throws "]%string after || (looks_like_prototype_suffix after && looks_like_prototype_prefix prefix)
    | None => false
    end.
Definition looks_like_definition (line : str) (name_offset : nat) : option bool :=
  before ← take_bytes name_offset line;
  suffix ← drop_bytes name_offset line;
  Some (definition_around before suffix).

(** The depth is an [i32]. *)
Fixpoint type_arguments (depth : Z) (s : str) : bool :=
  match s with
  | [] => false
  | c :: s =>
    if (c =? chr "<")%N then type_arguments (depth + 1) s
    else if (c =? chr ">")%N then
      if (depth - 1 =? 0)%Z then starts_with (lit "(") (trim_start s) else type_arguments (depth - 1) s
    else if bool_decide (c ∈ lit ";{}") then false
    else type_arguments depth s
  end.
Definition follows_call_arguments (suffix : str) : bool :=
  let suffix := trim_start suffix in
  let suffix := match strip_prefix (lit "::") suffix with Some rest => trim_start rest | None => suffix end in
  if starts_with (lit "<") suffix then type_arguments 0 suffix else starts_with (lit "(") suffix.

(** ** Queries *)

Section Symbols.
Context (is_xid_continue : char -> bool).
Definition is_identifier_character (c : char) : bool := is_xid_continue c || bool_decide (c ∈ [36; 0x200C; 0x200D]%N).

Definition trim_matches (f : char -> bool) (s : str) : str := reverse (drop_while f (reverse (drop_while f s))).
Definition canonical_symbol (value : str) : str :=
  trim_matches (fun c => (c =? chr "$")%N || negb (is_identifier_character c)) (trim value).
Definition is_symbol_identifier (value : str) : bool := forallb is_identifier_character value.

Record SymbolQuery := MkQuery { query_name : str; query_owner : option str }.

(** [str::rfind]: where the last occurrence is, in characters. *)
Fixpoint rfind (needle s : str) : option nat :=
  match s with
  | [] => if bool_decide (needle = []) then Some 0 else None
  | c :: s' =>
    match rfind needle s' with
    | Some i => Some (S i)
    | None => if starts_with needle s then Some 0 else None
    end
  end.
(** The separator that is furthest right, and its width. *)
Definition last_separator (candidate : str) : option (nat * nat) :=
  foldl (fun split separator =>
      match rfind separator candidate with
      | Some index =>
        match split with
        | Some (best, _) => if best <? index then Some (index, length separator) else split
        | None => Some (index, length separator)
        end
      | None => split
      end) None (map lit [":"; "."; "#"; "->"]%string).
Definition parse_symbol_query (raw : str) : SymbolQuery :=
  let candidate := canonical_symbol raw in
  match last_separator candidate with
  | None => MkQuery candidate None
  | Some (index, width) =>
    let name := canonical_symbol (drop (index + width) candidate) in
    let owner := last (filter (fun part => part <> []) (split_where (fun c => bool_decide (c ∈ lit ":.#->")) (take index candidate))) in
    match owner with
    | Some owner => if negb (bool_decide (name = [])) && is_symbol_identifier name then MkQuery name (Some owner) else MkQuery candidate None
    | None => MkQuery candidate None
    end
  end.

(** The text before the name ends with the owner and a separator. *)
Definition owned_by (before owner : str) : bool :=
  let prefix := trim_end before in
  match head (omap (fun separator => strip_suffix (lit separator) prefix) ["::"; "."; "->"; "#"]%string) with
  | None => false
  | Some prefix =>
    let qualifier := trim_end prefix in
    eq_ignore_ascii_case (reverse (take_while is_identifier_character (reverse qualifier))) owner
  end.
Definition qualifier_matches (source : str) (name_start : nat) (owner : option str) : option bool :=
  match owner with
  | None => Some true
  | Some owner => before ← take_bytes name_start source; Some (owned_by before owner)
  end.

(** ** Occurrences *)

(** [str::match_indices] of a needle that is not empty, as byte offsets. *)
Fixpoint match_loop (fuel off : nat) (needle s : str) : list nat :=
  match fuel, s with
  | S fuel, c :: s' =>
    match strip_prefix needle s with
    | Some rest => off :: match_loop fuel (off + blen needle) needle rest
    | None => match_loop fuel (off + len_utf8 c) needle s'
    end
  | _, _ => []
  end.
Definition match_indices (needle s : str) : list nat := match_loop (length s) 0 needle s.

Fixpoint newline_ends (off : nat) (s : str) : list nat :=
  match s with
  | [] => []
  | c :: s => if (c =? 10)%N then (off + 1) :: newline_ends (off + 1) s else newline_ends (off + len_utf8 c) s
  end.
Definition line_starts (text : str) : list nat := 0 :: newline_ends 0 text.
(** [partition_point] of an ascending list. *)
Definition partition_point (f : nat -> bool) (l : list nat) : nat := length (take_while f l).

Record SymbolLine := MkLine { line : nat; preview : str; is_call : bool }.

(** One round of the loop without a tree: nothing, or an entry for a line. *)
Definition occurrence (text source lower : str) (starts : list nat) (needle : str) (owner : option str) (start : nat)
  : option (option SymbolLine) :=
  let fin := start + blen needle in
  before ← take_bytes start source;
  after ← drop_bytes fin source;
  if match last before with Some c => is_identifier_character c | None => false end
     || match head after with Some c => is_identifier_character c | None => false end
  then Some None
  else
    owned ← qualifier_matches source start owner;
    if negb owned then Some None
    else
      let line := partition_point (fun offset => offset <=? start) starts in
      line_start ← starts !! (line - 1);
      let line_end := default (blen source) (starts !! line) in
      code ← slice lower line_start line_end;
      definition ← looks_like_definition code (start - line_start);
      if (definition : bool) then Some None
      else
        rest ← drop_bytes line_start text;
        Some (Some (MkLine line (trim (default [] (head (str_lines rest)))) (follows_call_arguments after))).

(** [matches.entry(line).and_modify(..).or_insert_with(..)] *)
Definition insert_line (matches : list (N * SymbolLine)) (found : SymbolLine) : list (N * SymbolLine) :=
  let key := N.of_nat (line found) in
  match bt_get key matches with
  | Some old => bt_insert key (MkLine (line old) (preview old) (is_call old || is_call found)) matches
  | None => bt_insert key found matches
  end.
Fixpoint occurrences_loop (text source lower : str) (starts : list nat) (needle : str) (owner : option str) (offsets : list nat)
    (matches : list (N * SymbolLine)) : option (list (N * SymbolLine)) :=
  match offsets with
  | [] => Some matches
  | start :: offsets =>
    found ← occurrence text source lower starts needle owner start;
    occurrences_loop text source lower starts needle owner offsets
      (match found with Some found => insert_line matches found | None => matches end)
  end.

(** [matching_symbol_lines_in_source] without a tree. *)
Definition matching_symbol_lines_in_source (text source : str) (query : SymbolQuery) : option (list SymbolLine) :=
  let normalized := ascii_lower (query_name query) in
  if bool_decide (normalized = []) then Some []
  else
    let lower := ascii_lower source in
    matches ← occurrences_loop text source lower (line_starts text) normalized (query_owner query) (match_indices normalized lower) [];
    Some (map snd matches).
(** [ParsedSymbolSource::matching_lines] when the language has no grammar. *)
Definition matching_lines (text language : str) (query : SymbolQuery) : option (list SymbolLine) :=
  source ← mask_non_code text language; matching_symbol_lines_in_source text source query.
End Symbols.


(** ** Masking keeps the text's shape *)

(** Where a masked run can end: at the end, behind an ASCII byte or at a line break. *)
Definition clean_end (l : list N) (n : nat) : Prop :=
  n <= length l /\ (n = length l \/ (exists b, 0 < n /\ l !! (n - 1) = Some b /\ (b < 0x80)%N) \/ l !! n = Some 10%N).
Lemma clean_end_shift a l n k : length a = k -> 0 < n \/ n = length l -> clean_end l n -> clean_end (a ++ l) (k + n).
Proof.
  intros <- H0 [Hn H]. split; [rewrite length_app; lia|]. rewrite length_app.
  destruct H as [->|[(b & Hp & Hb & Hlt)|H]]; [by left| |].
  - right; left. exists b. split; [lia|]. rewrite lookup_app_r by lia. by replace (length a + n - 1 - length a) with (n - 1) by lia.
  - right; right. rewrite lookup_app_r by lia. by replace (length a + n - length a) with n by lia.
Qed.
Lemma to_newline_end l : clean_end l (to_newline l).
Proof.
  induction l as [|b l IH]; cbn [to_newline]; [split; [done|by left]|]. destruct (N.eqb_spec b 10) as [->|Hb].
  - split; [lia|]. right; right. done.
  - destruct IH as [Hn H]. split; [cbn; lia|]. destruct H as [H|[(c & Hp & Hc & Hlt)|H]]; [left; cbn; lia| |right; right; exact H].
    right; left. exists c. split; [lia|]. split; [|done]. replace (S (to_newline l) - 1) with (S (to_newline l - 1)) by lia. exact Hc.
Qed.
Definition ends_ascii (l : list N) (n : nat) : Prop :=
  n <= length l /\ (n = length l \/ exists b, 0 < n /\ l !! (n - 1) = Some b /\ (b < 0x80)%N).
Lemma ends_ascii_cons a l n : 0 < n \/ n = length l -> ends_ascii l n -> ends_ascii (a :: l) (S n).
Proof.
  intros H0 [Hn H]. split; [cbn; lia|]. destruct H as [->|(b & Hp & Hb & Hlt)]; [left; done|]. right. exists b. split; [lia|].
  split; [|done]. by replace (S n - 1) with (S (n - 1)) by lia.
Qed.
Lemma block_comment_end l : forall depth, ends_ascii l (block_comment depth l) /\ (0 < block_comment depth l \/ l = []).
Proof.
  remember (length l) as k eqn:Hk. revert l Hk. induction k as [k IH] using lt_wf_ind. intros [|a [|b l]] Hk depth; cbn [block_comment].
  - split; [split; [done|by left]|by right].
  - split; [split; [done|by left]|left; lia].
  - assert (forall d, ends_ascii (a :: b :: l) (2 + block_comment d l)) as Htwo.
    { intros d. destruct (IH (length l) ltac:(subst k; cbn; lia) l eq_refl d) as [He Hp].
      apply (ends_ascii_cons a (b :: l) (S (block_comment d l))); [left; lia|]. apply ends_ascii_cons; [|done].
      destruct Hp as [?| ->]; [by left|right]. done. }
    destruct ((a =? chr "/")%N && (b =? chr "*")%N); [split; [apply Htwo|left; lia]|].
    destruct ((a =? chr "*")%N && (b =? chr "/")%N) eqn:E.
    + apply andb_true_iff in E as [->%N.eqb_eq ->%N.eqb_eq]. destruct depth as [|[|depth]]; [|split; [|left; lia]|split; [apply Htwo|left; lia]].
      * split; [|left; lia]. split; [cbn; lia|]. right. exists (chr "/"). split; [lia|]. by split.
      * split; [cbn; lia|]. right. exists (chr "/"). split; [lia|]. by split.
    + destruct (IH (length (b :: l)) ltac:(subst k; cbn; lia) (b :: l) eq_refl depth) as [He Hp]. split; [|left; lia].
      apply ends_ascii_cons; [|done]. destruct Hp as [?|?]; [by left|done].
Qed.
Lemma quoted_end b w : (b < 0x80)%N -> 0 < w -> forall l, ends_ascii l (quoted (replicate w b) l) /\ (0 < quoted (replicate w b) l \/ l = []).
Proof.
  intros Hb Hw l. remember (length l) as k eqn:Hk. revert l Hk. induction k as [k IH] using lt_wf_ind. intros [|a l] Hk; cbn [quoted].
  { split; [split; [done|by left]|by right]. }
  destruct (a =? chr "\")%N.
  { destruct l as [|c l]; [split; [split; [done|by left]|left; lia]|].
    destruct (IH (length l) ltac:(subst k; cbn; lia) l eq_refl) as [He Hp]. split; [|left; lia].
    apply (ends_ascii_cons a (c :: l) (S (quoted (replicate w b) l))); [left; lia|]. apply ends_ascii_cons; [|done].
    destruct Hp as [?| ->]; [by left|by right]. }
  destruct (starts_with (replicate w b) (a :: l)) eqn:E.
  - apply starts_with_spec in E as [r E]. rewrite E, length_replicate. split; [|by left]. split; [rewrite length_app, length_replicate; lia|].
    right. exists b. split; [done|]. split; [|done]. rewrite lookup_app_l by (rewrite length_replicate; lia). apply lookup_replicate_2. lia.
  - destruct (IH (length l) ltac:(subst k; cbn; lia) l eq_refl) as [He Hp]. split; [|left; lia]. apply ends_ascii_cons; [|done].
    destruct Hp as [?| ->]; [by left|by right].
Qed.
Lemma ends_ascii_clean l n : ends_ascii l n -> clean_end l n.
Proof. intros [Hn [H|H]]; split; auto. Qed.

Lemma masked_run_end language l : 0 < masked_run language l ->
  clean_end l (masked_run language l) /\ exists b, head l = Some b /\ (b < 0x80)%N.
Proof.
  unfold masked_run. destruct l as [|b l]; [lia|].
  assert (forall p r, b :: l = p ++ r -> forall n, ends_ascii r n /\ (0 < n \/ r = []) -> clean_end (b :: l) (length p + n)) as Hshift.
  { intros p r -> n [He Hp]. apply clean_end_shift; [done| |by apply ends_ascii_clean]. destruct Hp as [?| ->]; [by left|right].
    destruct He as [He _]. cbn in He. cbn. lia. }
  destruct (_ || _) eqn:E1.
  { intros _. split; [apply to_newline_end|]. exists b. split; [done|].
    apply orb_true_iff in E1 as [[E1|E1]%orb_true_iff|E1].
    - apply starts_with_spec in E1 as [r E1]. injection E1 as -> _. done.
    - apply andb_true_iff in E1 as [_ ->%N.eqb_eq]. done.
    - apply andb_true_iff in E1 as [_ E1]. apply starts_with_spec in E1 as [r E1]. injection E1 as -> _. done. }
  destruct (starts_with (lit "/*") (b :: l)) eqn:E2.
  { apply starts_with_spec in E2 as [r E2]. intros _. split; [|exists b; split; [done|]; injection E2 as -> _; done].
    rewrite E2 at 2. change (drop 2 (lit "/*" ++ r)) with r. apply (Hshift (lit "/*") r E2), block_comment_end. }
  case_bool_decide as E3; [|lia]. intros _.
  assert (b < 0x80)%N as Hb by (apply elem_of_cons in E3 as [->|[->|[->|[]%elem_of_nil]%elem_of_cons]%elem_of_cons]; done).
  split; [|by exists b]. destruct (starts_with [b; b; b] (b :: l)) eqn:E4.
  - apply starts_with_spec in E4 as [r E4]. rewrite E4 at 2. change (drop 3 ([b; b; b] ++ r)) with r. apply (Hshift [b; b; b] r E4), quoted_end; [done|lia].
  - apply (Hshift [b] l eq_refl), quoted_end; [done|lia].
Qed.

(** A character boundary of the bytes of a text. *)
Lemma clean_split s n : clean_end (bytes s) n -> exists p q, s = p ++ q /\ length (bytes p) = n /\ bytes q = drop n (bytes s) /\ bytes p = take n (bytes s).
Proof.
  intros [Hn H]. assert (forall p q, bytes s = bytes p ++ bytes q -> length (bytes p) = n -> bytes q = drop n (bytes s) /\ bytes p = take n (bytes s)) as Hok.
  { intros p q -> <-. by rewrite drop_app_length, take_app_length. }
  destruct H as [->|[(b & Hpos & Hb & Hlt)|Hb]].
  - exists s, []. rewrite app_nil_r. split; [done|]. split; [done|]. by rewrite drop_ge, take_ge.
  - apply list_elem_of_split_length in Hb as (l1 & l2 & Hl & Hlen). destruct (bytes_ascii_split s l1 b l2 Hl Hlt) as (p & q & -> & Hp & Hq).
    exists (p ++ [b]), q. rewrite <- app_assoc. split; [done|].
    assert (bytes [b] = [b]) as Hb1 by (apply ascii_bytes; by repeat constructor).
    assert (length (bytes (p ++ [b])) = n) as Hln by (rewrite bytes_app, Hb1, length_app, Hp; cbn; lia).
    split; [done|]. apply Hok; [|done]. rewrite <- bytes_app. by rewrite <- app_assoc.
  - apply list_elem_of_split_length in Hb as (l1 & l2 & Hl & Hlen). destruct (bytes_ascii_split s l1 10%N l2 Hl ltac:(done)) as (p & q & -> & Hp & Hq).
    exists p, (10%N :: q). split; [done|]. assert (length (bytes p) = n) as Hln by (rewrite Hp; lia). split; [done|]. apply Hok; [|done]. by rewrite <- bytes_app.
Qed.

Definition masked_byte (a b : N) : Prop := b = a \/ b = 32%N /\ a <> 10%N /\ a <> 13%N.
Lemma blank_masked l : Forall2 masked_byte l (map blank l) /\ Forall (fun b => (b < 0x80)%N) (map blank l).
Proof.
  induction l as [|b l [IH1 IH2]]; cbn [map]; [split; constructor|].
  assert (masked_byte b (blank b) /\ (blank b < 0x80)%N) as [Hm Hb]; [|split; by constructor].
  unfold blank. destruct (N.eqb_spec b 10) as [->|H1]; cbn [orb]; [split; [by left|done]|].
  destruct (N.eqb_spec b 13) as [->|H2]; (split; [|done]); [by left|by right].
Qed.

Lemma mask_fuel language fuel : forall l, length l <= fuel -> mask_loop fuel language l = mask_loop (length l) language l.
Proof.
  induction fuel as [fuel IH] using lt_wf_ind. intros [|b l] Hl; [by destruct fuel|]. destruct fuel as [|fuel]; [cbn in Hl; lia|].
  cbn [length mask_loop]. destruct (masked_run language (b :: l)) as [|n].
  - f_equal. apply IH; cbn in Hl; lia.
  - f_equal. assert (length (drop (S n) (b :: l)) <= length l) as Hd by (rewrite length_drop; cbn; lia).
    rewrite (IH fuel), (IH (length l)); cbn in Hl; try done; lia.
Qed.
Lemma masked_run_high language b l : (0x80 <= b)%N -> masked_run language (b :: l) = 0.
Proof.
  intros Hb. unfold masked_run.
  destruct (_ || _) eqn:E1.
  { exfalso. apply orb_true_iff in E1 as [[E1|E1]%orb_true_iff|E1].
    - apply starts_with_spec in E1 as [r E1]. injection E1 as -> _. by apply Hb.
    - apply andb_true_iff in E1 as [_ ->%N.eqb_eq]. by apply Hb.
    - apply andb_true_iff in E1 as [_ E1]. apply starts_with_spec in E1 as [r E1]. injection E1 as -> _. by apply Hb. }
  destruct (starts_with (lit "/*") (b :: l)) eqn:E2.
  { exfalso. apply starts_with_spec in E2 as [r E2]. injection E2 as -> _. by apply Hb. }
  rewrite bool_decide_eq_false_2; [done|]. intros E3. apply elem_of_cons in E3 as [->|[->|[->|[]%elem_of_nil]%elem_of_cons]%elem_of_cons]; by apply Hb.
Qed.
Lemma mask_high language e : Forall (fun b => (0x80 <= b)%N) e -> forall l,
  mask_loop (length (e ++ l)) language (e ++ l) = e ++ mask_loop (length l) language l.
Proof.
  induction 1 as [|b e Hb _ IH]; intros l; [done|]. cbn [app length mask_loop]. rewrite masked_run_high by done. by rewrite IH.
Qed.

(** The masked text is a text of the same shape: the expectation of the code holds. *)
Lemma mask_loop_text language s : is_text s -> exists m, mask_loop (length (bytes s)) language (bytes s) = bytes m /\ is_text m
  /\ Forall2 masked_byte (bytes s) (bytes m).
Proof.
  remember (length s) as k eqn:Hk. revert s Hk. induction k as [k IH] using lt_wf_ind. intros s Hk Hs.
  destruct (masked_run language (bytes s)) as [|n] eqn:En.
  - destruct s as [|c s]; [exists []; split; [done|split; [done|constructor]]|]. apply Forall_cons in Hs as [Hc Hs].
    destruct (IH (length s) ltac:(subst k; cbn; lia) s eq_refl Hs) as (m & Hm & Htm & HF). exists (c :: m).
    split; [|split; [by constructor|change (Forall2 masked_byte (encode_utf8 c ++ bytes s) (encode_utf8 c ++ bytes m)); apply Forall2_app; [|done]]].
    2: { clear. induction (encode_utf8 c); constructor; [by left|done]. }
    change (bytes (c :: s)) with (encode_utf8 c ++ bytes s) in En |- *. change (bytes (c :: m)) with (encode_utf8 c ++ bytes m).
    destruct (N.ltb_spec c 0x80) as [Hlt|Hge].
    + assert (encode_utf8 c = [c]) as He by (unfold encode_utf8; by rewrite (proj2 (N.ltb_lt _ _) Hlt)). rewrite He in En |- *.
      cbn [app length mask_loop] in En |- *. by rewrite En, Hm.
    + rewrite mask_high; [by rewrite Hm|]. apply Forall_forall. intros b Hb. destruct (N.ltb_spec b 0x80) as [Hb8|]; [|done].
      destruct (encoded_ascii c b Hb Hb8) as [Ha _]. unfold is_ascii in Ha. apply N.ltb_lt in Ha. lia.
  - destruct (masked_run_end language (bytes s)) as [Hend _]; [lia|]. rewrite En in Hend.
    destruct (clean_split s (S n) Hend) as (p & q & -> & Hlen & Hq & Hp). apply Forall_app in Hs as [Hsp Hsq].
    assert (length q < k) as Hlq.
    { subst k. rewrite length_app. destruct p; [cbn in Hlen; lia|cbn; lia]. }
    destruct (IH (length q) Hlq q eq_refl Hsq) as (m & Hm & Htm & HF).
    destruct (blank_masked (take (S n) (bytes (p ++ q)))) as [HFb Hasc].
    exists (map blank (take (S n) (bytes (p ++ q))) ++ m). split; [|split].
    + destruct (bytes (p ++ q)) as [|b l] eqn:El; [cbn in En; done|]. cbn [length mask_loop]. rewrite En, bytes_app, ascii_bytes by done. f_equal.
      rewrite mask_fuel by (rewrite length_drop; cbn; lia). by rewrite <- Hq, Hm.
    + apply Forall_app. split; [|done]. eapply Forall_impl; [exact Hasc|]. intros b Hb. unfold is_scalar. apply orb_true_iff. left. apply N.ltb_lt. cbn in Hb. lia.
    + rewrite (bytes_app (map blank _)), (ascii_bytes (map blank _)) by done. rewrite <- (take_drop (S n) (bytes (p ++ q))) at 1.
      apply Forall2_app; [done|]. by rewrite <- Hq.
Qed.
Lemma mask_non_code_text text language : is_text text ->
  exists m, mask_non_code text language = Some m /\ is_text m /\ Forall2 masked_byte (bytes text) (bytes m).
Proof.
  intros Ht. destruct (mask_loop_text language text Ht) as (m & Hm & Htm & HF). exists m. unfold mask_non_code. rewrite Hm, valid_utf8_text by done.
  by rewrite lossy_chars_text.
Qed.

(** ** Lines *)

Definition newlines (s : str) : nat := length (newline_ends 0 s).
(** The line a text ends in, and the rest of the first line with its break. *)
Definition current_line (s : str) : str := reverse (take_while (fun c => negb (c =? 10)%N) (reverse s)).
Fixpoint to_line_end (s : str) : str :=
  match s with
  | [] => []
  | c :: s => if (c =? 10)%N then [c] else c :: to_line_end s
  end.

Fixpoint byte_newlines (off : nat) (l : list N) : list nat :=
  match l with
  | [] => []
  | b :: l => if (b =? 10)%N then S off :: byte_newlines (S off) l else byte_newlines (S off) l
  end.
Lemma byte_newlines_plain e : 10%N ∉ e -> forall off l, byte_newlines off (e ++ l) = byte_newlines (off + length e) l.
Proof.
  induction e as [|b e IH]; intros Hn off l; [by rewrite Nat.add_0_r|]. apply not_elem_of_cons in Hn as [Hb Hn]. cbn [app byte_newlines length].
  rewrite (proj2 (N.eqb_neq b 10)) by congruence. rewrite IH by done. f_equal. lia.
Qed.
Lemma encode_no_newline c : c <> 10%N -> 10%N ∉ encode_utf8 c.
Proof. intros Hc Hin. destruct (encoded_ascii c 10 Hin) as [_ H]; [done|congruence]. Qed.
Lemma newline_ends_bytes s : forall off, newline_ends off s = byte_newlines off (bytes s).
Proof.
  induction s as [|c s IH]; intros off; [done|]. change (bytes (c :: s)) with (encode_utf8 c ++ bytes s). cbn [newline_ends].
  destruct (N.eqb_spec c 10) as [->|Hc].
  - change (encode_utf8 10) with [10%N]. cbn [app byte_newlines N.eqb Pos.eqb]. rewrite IH. by replace (off + 1) with (S off) by lia.
  - rewrite byte_newlines_plain, length_encode by (by apply encode_no_newline). apply IH.
Qed.
Lemma byte_newlines_masked a b : Forall2 masked_byte a b -> forall off, byte_newlines off a = byte_newlines off b.
Proof.
  induction 1 as [|x y a b H _ IH]; intros off; [done|]. cbn [byte_newlines]. rewrite IH. destruct H as [->|(-> & Hx & _)]; [done|].
  by rewrite (proj2 (N.eqb_neq x 10)).
Qed.
Lemma newline_ends_app p : forall off q, newline_ends off (p ++ q) = newline_ends off p ++ newline_ends (off + blen p) q.
Proof.
  induction p as [|c p IH]; intros off q; [by rewrite Nat.add_0_r|]. cbn [app newline_ends blen]. destruct (N.eqb_spec c 10) as [->|Hc].
  - cbn [app]. rewrite IH. change (len_utf8 10) with 1. by rewrite Nat.add_assoc.
  - by rewrite IH, Nat.add_assoc.
Qed.
Lemma newline_ends_range s : forall off x, x ∈ newline_ends off s -> off < x <= off + blen s.
Proof.
  induction s as [|c s IH]; intros off x; cbn [newline_ends blen]; [by intros ?%elem_of_nil|]. destruct (N.eqb_spec c 10) as [->|Hc].
  - change (len_utf8 10) with 1. intros [->|Hx%IH]%elem_of_cons; lia.
  - pose proof (len_utf8_pos c). intros Hx%IH. lia.
Qed.
Lemma newline_ends_none s off : 10%N ∉ s -> newline_ends off s = [].
Proof.
  revert off. induction s as [|c s IH]; intros off Hn; [done|]. apply not_elem_of_cons in Hn as [Hc Hn]. cbn [newline_ends].
  rewrite (proj2 (N.eqb_neq c 10)) by congruence. by apply IH.
Qed.
Lemma newlines_off s : forall off, length (newline_ends off s) = newlines s.
Proof.
  assert (forall a b, length (newline_ends a s) = length (newline_ends b s)) as H; [|intros off; apply H].
  induction s as [|c s IH]; intros a b; cbn [newline_ends]; [done|]. destruct (c =? 10)%N; cbn [length]; [f_equal|]; apply IH.
Qed.
Lemma newlines_app p q : newlines (p ++ q) = newlines p + newlines q.
Proof. unfold newlines. rewrite newline_ends_app, length_app, (newlines_off q). done. Qed.

Lemma newlines_take (f : nat -> bool) a b : Forall (fun x => f x = true) a -> Forall (fun x => f x = false) b -> length (take_while f (a ++ b)) = length a.
Proof.
  intros Ha Hb. induction Ha as [|x a Hx _ IH]; cbn [app take_while]; [destruct Hb as [|y b Hy _]; cbn [take_while]; [done|by rewrite Hy]|].
  rewrite Hx. cbn [length]. by rewrite IH.
Qed.
Lemma drop_while_stop {A} (f : A -> bool) l c r : drop_while f l = c :: r -> f c = false.
Proof. induction l as [|x l IH]; cbn [drop_while]; [done|]. destruct (f x) eqn:E; [done|]. by intros [= -> _]. Qed.

(** Text up to the last line break, and the line behind it. *)
Definition at_line_start (s : str) : Prop := s = [] \/ exists t, s = t ++ [10%N].
Lemma current_line_split s : exists before, s = before ++ current_line s /\ at_line_start before /\ 10%N ∉ current_line s.
Proof.
  unfold current_line. set (f := fun c : N => negb (c =? 10)%N). pose proof (drop_while_split f (reverse s)) as Hs.
  exists (reverse (drop_while f (reverse s))). split; [by rewrite <- reverse_app, <- Hs, reverse_involutive|]. split.
  - destruct (drop_while f (reverse s)) as [|c r] eqn:E; [by left|right]. exists (reverse r). rewrite reverse_cons. do 2 f_equal.
    pose proof (drop_while_stop f (reverse s) c r E) as Hc. unfold f in Hc. apply negb_false_iff, N.eqb_eq in Hc. done.
  - rewrite elem_of_reverse. intros Hin. pose proof (take_while_all f (reverse s)) as Hall. rewrite Forall_forall in Hall.
    specialize (Hall _ Hin). done.
Qed.
Lemma to_line_end_split s : exists rest, s = to_line_end s ++ rest /\ forall off, default (off + blen s) (head (newline_ends off s)) = off + blen (to_line_end s).
Proof.
  induction s as [|c s (rest & Hs & Hh)]; [exists []; split; [done|]; by intros|]. cbn [to_line_end newline_ends blen]. destruct (N.eqb_spec c 10) as [->|Hc].
  - exists s. split; [done|]. intros off. cbn. lia.
  - exists rest. split; [cbn [app]; by f_equal|]. intros off. cbn [blen]. rewrite Nat.add_assoc, Hh. lia.
Qed.

(** The starts of the lines, around a position. *)
Lemma partition_starts pre rest :
  partition_point (fun offset => offset <=? blen pre) (line_starts (pre ++ rest)) = S (newlines pre).
Proof.
  unfold partition_point, line_starts. rewrite newline_ends_app.
  change (0 :: newline_ends 0 pre ++ newline_ends (0 + blen pre) rest) with ((0 :: newline_ends 0 pre) ++ newline_ends (0 + blen pre) rest).
  rewrite newlines_take; [done| |].
  - constructor; [by apply Nat.leb_le; lia|]. apply Forall_forall. intros x Hx%newline_ends_range. apply Nat.leb_le. lia.
  - apply Forall_forall. intros x Hx%newline_ends_range. apply Nat.leb_gt. lia.
Qed.
Lemma start_of_line before cur rest : at_line_start before -> 10%N ∉ cur ->
  newlines (before ++ cur) = newlines before /\ line_starts (before ++ cur ++ rest) !! newlines before = Some (blen before).
Proof.
  intros Hb Hc. assert (newlines cur = 0) as Hn0 by (unfold newlines; by rewrite newline_ends_none). split; [rewrite newlines_app; lia|].
  unfold line_starts. destruct Hb as [->|[t ->]]; [done|].
  rewrite newlines_app. change (newlines [10%N]) with 1. rewrite Nat.add_1_r.
  change (newline_ends 0 ((t ++ [10%N]) ++ cur ++ rest) !! newlines t = Some (blen (t ++ [10%N]))).
  rewrite <- app_assoc, newline_ends_app. rewrite lookup_app_r by (by rewrite newlines_off).
  rewrite newlines_off, Nat.sub_diag. cbn. by rewrite blen_app.
Qed.
Lemma next_start pre rest : default (blen (pre ++ rest)) (line_starts (pre ++ rest) !! S (newlines pre)) = blen pre + blen (to_line_end rest).
Proof.
  change (default (blen (pre ++ rest)) (newline_ends 0 (pre ++ rest) !! newlines pre) = blen pre + blen (to_line_end rest)).
  rewrite newline_ends_app, lookup_app_r by (by rewrite newlines_off).
  rewrite newlines_off, Nat.sub_diag. rewrite blen_app. destruct (to_line_end_split rest) as (r & _ & H). rewrite <- H. cbn. by destruct (newline_ends (blen pre) rest).
Qed.
Lemma lines_loop_break t r : forall w, exists ls, lines_loop (t ++ 10%N :: r) w = ls ++ str_lines r /\ length ls = S (newlines t).
Proof.
  induction t as [|c t IH]; intros w; cbn [app lines_loop].
  { exists [strip_cr w]. done. }
  unfold newlines. cbn [newline_ends]. destruct (N.eqb_spec c 10) as [->|Hc].
  - destruct (IH []) as (ls & -> & Hl). exists (strip_cr w :: ls). cbn [length]. by rewrite Hl, newlines_off.
  - destruct (IH (w ++ [c])) as (ls & -> & Hl). exists ls. by rewrite Hl, newlines_off.
Qed.
Lemma line_at_start before rest : at_line_start before -> head (str_lines rest) = str_lines (before ++ rest) !! newlines before.
Proof.
  assert (forall l : list str, head l = l !! 0) as Hhd by (by intros []). intros [->|[t ->]]; [by rewrite Hhd|].
  rewrite <- app_assoc. cbn [app]. destruct (lines_loop_break t rest []) as (ls & Hls & Hl). unfold str_lines at 2. rewrite Hls.
  rewrite newlines_app. change (newlines [10%N]) with 1. rewrite lookup_app_r, Hl, Hhd by lia. f_equal. lia.
Qed.
Lemma same_line text source before rest : Forall2 masked_byte (bytes text) (bytes source) -> source = before ++ rest -> at_line_start before ->
  exists tb tr, text = tb ++ tr /\ blen tb = blen before /\ at_line_start tb /\ newlines tb = newlines before.
Proof.
  intros HF -> [->|[t ->]]; [exists [], text; split_and!; [done..|by left|done]|].
  rewrite <- app_assoc in HF. cbn [app] in HF. rewrite bytes_app in HF. change (bytes (10%N :: rest)) with ([10%N] ++ bytes rest) in HF.
  apply Forall2_app_inv_r in HF as (a & b & Ha & Hb & Ht). cbn [app] in Hb. apply Forall2_cons_inv_r in Hb as (x & b' & Hx & _ & ->).
  assert (x = 10%N) as -> by (by destruct Hx as [->|[? _]]). destruct (bytes_ascii_split text a 10%N b' Ht) as (p & q & -> & Hp & Hq); [done|].
  assert (blen p = blen t) as Hlen by (by rewrite <- !length_bytes, Hp, (Forall2_length _ _ _ Ha)).
  exists (p ++ [10%N]), q. split_and!; [by rewrite <- app_assoc|by rewrite !blen_app, Hlen|right; by exists p|].
  rewrite !newlines_app. f_equal. unfold newlines. rewrite !newline_ends_bytes, Hp. by rewrite (byte_newlines_masked _ _ Ha).
Qed.
Lemma line_starts_masked text source : Forall2 masked_byte (bytes text) (bytes source) -> line_starts text = line_starts source.
Proof. intros HF. unfold line_starts. by rewrite !newline_ends_bytes, (byte_newlines_masked _ _ HF). Qed.

Lemma blen_lowered s : blen (ascii_lower s) = blen s.
Proof.
  induction s as [|c s IH]; [done|]. cbn [ascii_lower map blen]. f_equal; [|exact IH]. unfold to_ascii_lowercase, is_ascii_uppercase, between.
  destruct ((65 <=? c)%N && (c <=? 90)%N) eqn:E; [|done]. apply andb_true_iff in E as [H1%N.leb_le H2%N.leb_le].
  unfold len_utf8. rewrite !(proj2 (N.ltb_lt _ _)) by lia. done.
Qed.

(** ** One occurrence *)

Section Occurrences.
Context (is_xid_continue : char -> bool) (text : str).
Context (needle : str) (owner : option str).
#[local] Notation ident := (is_identifier_character is_xid_continue).

(** A use of the name: a whole word behind its owner, where nothing is defined. *)
Definition reference (pre mid post : str) : bool :=
  negb (match last pre with Some c => ident c | None => false end)
  && negb (match head post with Some c => ident c | None => false end)
  && match owner with Some owner => owned_by is_xid_continue pre owner | None => true end
  && negb (definition_around (ascii_lower (current_line pre)) (ascii_lower (to_line_end (mid ++ post)))).
Definition line_text (n : nat) : str := trim (default [] (str_lines text !! (n - 1))).
Definition line_of (pre post : str) : SymbolLine := MkLine (S (newlines pre)) (line_text (S (newlines pre))) (follows_call_arguments post).

Lemma occurrence_spec source pre mid post : Forall2 masked_byte (bytes text) (bytes source) -> source = pre ++ mid ++ post -> ascii_lower mid = needle ->
  occurrence is_xid_continue text source (ascii_lower source) (line_starts text) needle owner (blen pre)
  = Some (if reference pre mid post then Some (line_of pre post) else None).
Proof.
  intros HF -> Hm. assert (blen needle = blen mid) as Hlen by (by rewrite <- Hm, blen_lowered). unfold occurrence. rewrite Hlen.
  rewrite take_bytes_app. cbn [mbind option_bind].
  assert (drop_bytes (blen pre + blen mid) (pre ++ mid ++ post) = Some post) as -> by (by rewrite (app_assoc pre), <- blen_app, drop_bytes_app).
  cbn [mbind option_bind].
  unfold reference. destruct (match last pre with Some c => ident c | None => false end); [done|].
  destruct (match head post with Some c => ident c | None => false end); [done|]. cbn [orb negb andb].
  assert (qualifier_matches is_xid_continue (pre ++ mid ++ post) (blen pre) owner = Some (match owner with Some owner => owned_by is_xid_continue pre owner | None => true end)) as ->.
  { unfold qualifier_matches. destruct owner; [|done]. by rewrite take_bytes_app. }
  cbn [mbind option_bind]. destruct (match owner with Some _ => _ | None => true end); [|done]. cbn [negb andb].
  rewrite (line_starts_masked _ _ HF). cbn zeta. rewrite partition_starts.
  destruct (current_line_split pre) as (before & Hpre & Hb & Hc). set (cur := current_line pre) in *.
  destruct (start_of_line before cur (mid ++ post) Hb Hc) as [Hn Hstart]. rewrite <- Hpre in Hn. rewrite Nat.sub_succ, Nat.sub_0_r.
  assert (line_starts (pre ++ mid ++ post) !! newlines pre = Some (blen before)) as -> by (rewrite Hn; rewrite Hpre at 1; by rewrite <- app_assoc).
  cbn [mbind option_bind].
  rewrite next_start. destruct (to_line_end_split (mid ++ post)) as (rest & Hrest & _). set (seg := to_line_end (mid ++ post)) in *.
  assert (slice (ascii_lower (pre ++ mid ++ post)) (blen before) (blen pre + blen seg) = Some (ascii_lower (cur ++ seg))) as ->.
  { rewrite Hrest. rewrite Hpre at 1 2. unfold ascii_lower. rewrite !map_app, <- !app_assoc. fold (ascii_lower before) (ascii_lower cur) (ascii_lower seg) (ascii_lower rest).
    rewrite (app_assoc (ascii_lower cur)), blen_app, <- (blen_lowered before), <- (blen_lowered cur), <- (blen_lowered seg).
    replace (blen (ascii_lower before) + blen (ascii_lower cur) + blen (ascii_lower seg)) with (blen (ascii_lower before) + blen (ascii_lower cur ++ ascii_lower seg))
      by (rewrite blen_app; lia). apply slice_app. }
  cbn [mbind option_bind].
  assert (looks_like_definition (ascii_lower (cur ++ seg)) (blen pre - blen before) = Some (definition_around (ascii_lower cur) (ascii_lower seg))) as ->.
  { unfold looks_like_definition, ascii_lower. rewrite map_app. fold (ascii_lower cur) (ascii_lower seg).
    replace (blen pre - blen before) with (blen (ascii_lower cur)) by (rewrite blen_lowered, Hpre, blen_app; lia).
    by rewrite take_bytes_app, drop_bytes_app. }
  cbn [mbind option_bind]. destruct (definition_around _ _); [done|]. cbn [negb].
  destruct (same_line text (pre ++ mid ++ post) before (cur ++ mid ++ post) HF) as (tb & tr & Ht & Hl & Htb & Hnt); [by rewrite Hpre at 1; rewrite <- app_assoc|done|].
  rewrite Ht at 1. rewrite <- Hl, drop_bytes_app. cbn [mbind option_bind]. unfold line_of, line_text. rewrite Nat.sub_succ, Nat.sub_0_r.
  rewrite (line_at_start tb tr Htb), <- Ht, Hnt, Hn. done.
Qed.

(** ** All occurrences *)

Lemma match_loop_sound fuel : forall off s x, x ∈ match_loop fuel off needle s -> exists pre post, s = pre ++ needle ++ post /\ x = off + blen pre.
Proof.
  induction fuel as [|fuel IH]; intros off [|c s] x; cbn [match_loop]; try by intros ?%elem_of_nil.
  destruct (strip_prefix needle (c :: s)) as [rest|] eqn:E.
  - apply strip_prefix_Some in E. rewrite E. intros [->|(pre & post & -> & ->)%IH]%elem_of_cons.
    + exists [], rest. split; [done|cbn; lia].
    + exists (needle ++ pre), post. rewrite blen_app, <- app_assoc. split; [done|lia].
  - intros (pre & post & -> & ->)%IH. exists (c :: pre), post. split; [done|cbn; lia].
Qed.
Lemma match_loop_complete fuel : needle <> [] -> Forall (fun c => ident c = true) needle -> forall off s pre post, length s <= fuel ->
  s = pre ++ needle ++ post -> (forall c, last pre = Some c -> ident c = false) -> off + blen pre ∈ match_loop fuel off needle s.
Proof.
  intros Hne Hid. induction fuel as [|fuel IH]; intros off [|c s] pre post Hf Hs Hl; cbn in Hf; try lia.
  { by destruct pre, needle. } { by destruct pre, needle. }
  cbn [match_loop]. destruct (strip_prefix needle (c :: s)) as [rest|] eqn:E.
  - apply strip_prefix_Some in E. destruct pre as [|d pre]; [cbn [blen]; rewrite Nat.add_0_r; left|]. right.
    rewrite E in Hs. apply app_eq_inv in Hs as [(k & Hk & Hr)|(k & Hk & Hr)].
    + (* the prefix ends inside the match *)
      exfalso. destruct (last (d :: pre)) as [x|] eqn:El; [|by apply last_None in El]. specialize (Hl x eq_refl).
      rewrite Forall_forall in Hid. rewrite (Hid x) in Hl; [done|]. rewrite Hk. apply elem_of_app. left. by apply last_Some_elem_of.
    + assert (blen (d :: pre) = blen needle + blen k) as -> by (by rewrite Hk, blen_app). rewrite Nat.add_assoc. apply (IH _ _ _ post).
      * apply (f_equal length) in E. rewrite length_app in E. cbn in E. destruct needle; [done|cbn in E; lia].
      * done.
      * intros x Hx. apply Hl. rewrite Hk. rewrite last_app, Hx. done.
  - destruct pre as [|d pre]; [exfalso; rewrite Hs in E; cbn [app] in E; by rewrite strip_prefix_app in E|].
    injection Hs as -> Hs. cbn [blen]. rewrite Nat.add_assoc. apply (IH _ _ _ post); [lia|done|]. intros x Hx. apply Hl. destruct pre; [done|exact Hx].
Qed.

Fixpoint collect (founds : list (option SymbolLine)) (matches : list (N * SymbolLine)) : list (N * SymbolLine) :=
  match founds with
  | [] => matches
  | found :: founds => collect founds (match found with Some found => insert_line matches found | None => matches end)
  end.
Lemma collect_foldl founds : forall matches, collect founds matches = foldl insert_line matches (omap id founds).
Proof. induction founds as [|[f|] founds IH]; intros matches; cbn; [done|apply IH|apply IH]. Qed.

Definition on_line (k : N) (f : SymbolLine) : bool := (N.of_nat (line f) =? k)%N.
Lemma insert_lines (P : nat -> str) founds : Forall (fun f => preview f = P (line f)) founds ->
  bt_wf (foldl insert_line [] founds) /\ forall k, bt_get k (foldl insert_line [] founds)
    = if existsb (on_line k) founds then Some (MkLine (N.to_nat k) (P (N.to_nat k)) (existsb (fun f => on_line k f && is_call f) founds)) else None.
Proof.
  induction founds as [|f founds IH] using rev_ind; intros HP; [split; [constructor|done]|].
  apply Forall_app in HP as [HP [Hf _]%Forall_cons]. destruct (IH HP) as [Hwf Hget]. rewrite foldl_snoc. unfold insert_line at 1.
  assert (forall k v, bt_get k (bt_insert (N.of_nat (line f)) v (foldl insert_line [] founds))
            = if on_line k f then Some v else bt_get k (foldl insert_line [] founds)) as Hins.
  { intros k v. unfold on_line. destruct (N.eqb_spec (N.of_nat (line f)) k) as [<-|Hne]; [apply bt_get_insert_eq|by apply bt_get_insert_ne]. }
  rewrite Hget. split; [destruct (existsb _ _); by apply bt_insert_wf|].
  intros k. rewrite !existsb_app. cbn [existsb]. unfold insert_line. rewrite Hget. destruct (existsb (on_line (N.of_nat (line f))) founds) eqn:Eo.
  - rewrite Hins. destruct (on_line k f) eqn:Ek; [|by rewrite Hget, !orb_false_r]. unfold on_line in Ek. apply N.eqb_eq in Ek as <-.
    rewrite Eo, Nat2N.id. cbn [andb orb]. by rewrite !orb_false_r.
  - rewrite Hins. destruct (on_line k f) eqn:Ek; [|by rewrite Hget, !orb_false_r]. unfold on_line in Ek. apply N.eqb_eq in Ek as <-.
    rewrite Eo, Nat2N.id, <- Hf. cbn [andb orb]. rewrite !orb_false_r. assert (existsb (fun f0 => on_line (N.of_nat (line f)) f0 && is_call f0) founds = false) as ->.
    { apply not_true_is_false. intros (g & Hg & Hl)%existsb_exists. apply andb_true_iff in Hl as [Hl _]. apply not_true_iff_false in Eo. apply Eo.
      apply existsb_exists. by exists g. }
    by destruct f.
Qed.

(** An occurrence of the name in the masked text. *)
Definition occurs (source pre mid post : str) : Prop := source = pre ++ mid ++ post /\ ascii_lower mid = needle.
Definition judged (source : str) (x : nat) (found : option SymbolLine) : Prop :=
  exists pre mid post, occurs source pre mid post /\ x = blen pre /\ found = if reference pre mid post then Some (line_of pre post) else None.

Lemma occurrences_judged source offsets : Forall2 masked_byte (bytes text) (bytes source) ->
  Forall (fun x => exists pre mid post, occurs source pre mid post /\ x = blen pre) offsets -> forall matches,
  exists founds, occurrences_loop is_xid_continue text source (ascii_lower source) (line_starts text) needle owner offsets matches = Some (collect founds matches)
    /\ Forall2 (judged source) offsets founds.
Proof.
  intros HF. induction 1 as [|x offsets (pre & mid & post & [Hs Hm] & ->) _ IH]; intros matches; cbn [occurrences_loop]; [exists []; split; [done|constructor]|].
  rewrite (occurrence_spec source pre mid post HF Hs Hm). cbn [mbind option_bind].
  destruct (IH (match (if reference pre mid post then Some (line_of pre post) else None) with Some found => insert_line matches found | None => matches end)) as (founds & -> & Hj).
  exists ((if reference pre mid post then Some (line_of pre post) else None) :: founds). split; [done|]. constructor; [|done]. by exists pre, mid, post.
Qed.

(** An offset is that of one split only. *)
Lemma split_at (pre pre' rest rest' : str) : pre ++ rest = pre' ++ rest' -> blen pre = blen pre' -> pre = pre'.
Proof.
  intros H Hl. apply app_eq_inv in H as [(k & -> & _)|(k & -> & _)]; rewrite blen_app in Hl; assert (blen k = 0) as ->%blen_nil_inv by lia; by rewrite app_nil_r.
Qed.
Lemma occurs_at source pre mid post pre' mid' post' : occurs source pre mid post -> occurs source pre' mid' post' -> blen pre = blen pre' ->
  pre = pre' /\ mid = mid' /\ post = post'.
Proof.
  intros [-> Hm] [Hs Hm'] Hl. pose proof (split_at _ _ _ _ Hs Hl) as <-. apply app_inv_head in Hs.
  assert (blen mid = blen mid') as Hlm by (by rewrite <- (blen_lowered mid), <- (blen_lowered mid'), Hm, Hm'). pose proof (split_at _ _ _ _ Hs Hlm) as <-.
  by apply app_inv_head in Hs.
Qed.
Lemma lower_split source pl ml post : ascii_lower source = pl ++ ml ++ post ->
  exists pre mid post', source = pre ++ mid ++ post' /\ ascii_lower pre = pl /\ ascii_lower mid = ml.
Proof.
  unfold ascii_lower. intros H. apply map_eq_app in H as (pre & r & -> & Hp & Hr). apply map_eq_app in Hr as (mid & post' & -> & Hm & _).
  by exists pre, mid, post'.
Qed.

Lemma offsets_occur source : Forall (fun x => exists pre mid post, occurs source pre mid post /\ x = blen pre) (match_indices needle (ascii_lower source)).
Proof.
  apply Forall_forall. intros x (pl & postl & Hs & ->)%match_loop_sound. destruct (lower_split _ _ _ _ Hs) as (pre & mid & post & Hsrc & <- & Hm).
  exists pre, mid, post. split; [by split|]. by rewrite blen_lowered.
Qed.
Lemma references_found source pre mid post : (forall c, ident (to_ascii_lowercase c) = ident c) -> needle <> [] -> Forall (fun c => ident c = true) needle ->
  occurs source pre mid post -> reference pre mid post = true -> blen pre ∈ match_indices needle (ascii_lower source).
Proof.
  intros Hlow Hne Hid [-> Hm] Hr. unfold match_indices. change (blen pre) with (0 + blen pre). rewrite <- (blen_lowered pre).
  apply (match_loop_complete _ Hne Hid 0 _ _ (ascii_lower post)); [done|unfold ascii_lower; by rewrite !map_app, <- Hm|].
  intros c Hc. unfold ascii_lower in Hc. rewrite fmap_last in Hc. unfold reference in Hr. destruct (last pre) as [d|]; [|done]. injection Hc as <-. rewrite Hlow.
  apply andb_true_iff in Hr as [[[Hr _]%andb_true_iff _]%andb_true_iff _]. by apply negb_true_iff.
Qed.
End Occurrences.

Lemma ident_lower is_xid_continue c : (forall c, is_ascii c = true -> is_xid_continue c = word_char c) ->
  is_identifier_character is_xid_continue (to_ascii_lowercase c) = is_identifier_character is_xid_continue c.
Proof.
  intros Hascii. unfold to_ascii_lowercase. destruct (is_ascii_uppercase c) eqn:E; [|done]. unfold is_ascii_uppercase, between in E.
  apply andb_true_iff in E as [H1%N.leb_le H2%N.leb_le].
  assert (forall d, (d < 0x80)%N -> word_char d = true -> is_identifier_character is_xid_continue d = true) as Hw.
  { intros d Hd Hwd. unfold is_identifier_character. rewrite Hascii, Hwd; [done|]. by apply N.ltb_lt. }
  assert ((c + 32) <= 122)%N as H3 by (change 122%N with (90 + 32)%N; by apply N.add_le_mono_r).
  assert (97 <= (c + 32))%N as H4 by (change 97%N with (65 + 32)%N; by apply N.add_le_mono_r).
  rewrite !Hw; [done|..]; unfold word_char, is_ascii_alphanumeric, is_ascii_alphabetic, is_ascii_lowercase, is_ascii_uppercase, between.
  - by eapply N.le_lt_trans.
  - apply N.leb_le in H1, H2. rewrite H1, H2. by rewrite ?orb_true_r.
  - by eapply N.le_lt_trans.
  - apply N.leb_le in H3, H4. rewrite H3, H4. by rewrite ?orb_true_r.
Qed.

(** A use of a query's name in the masked text. *)
Definition uses (is_xid_continue : char -> bool) (query : SymbolQuery) (source pre mid post : str) : Prop :=
  occurs (ascii_lower (query_name query)) source pre mid post /\ reference is_xid_continue (query_owner query) pre mid post = true.

Section Found.
Context (is_xid_continue : char -> bool) (text : str) (query : SymbolQuery) (source : str) (founds : list (option SymbolLine)).
#[local] Notation needle := (ascii_lower (query_name query)).
Context (Hj : Forall2 (judged is_xid_continue text needle (query_owner query) source) (match_indices needle (ascii_lower source)) founds).
Context (Hall : forall pre mid post, uses is_xid_continue query source pre mid post -> blen pre ∈ match_indices needle (ascii_lower source)).

Lemma elem_of_founds f : f ∈ omap id founds <-> exists pre mid post, uses is_xid_continue query source pre mid post /\ f = line_of text pre post.
Proof.
  rewrite list_elem_of_omap. split.
  - intros (o & Ho & Hf). apply list_elem_of_lookup in Ho as [i Hi]. destruct (Forall2_lookup_r _ _ _ _ _ Hj Hi) as (x & _ & pre & mid & post & Hocc & _ & ->).
    cbn [id] in Hf. destruct (reference _ _ pre mid post) eqn:Er; [|done]. injection Hf as <-. by exists pre, mid, post.
  - intros (pre & mid & post & Hu & ->). pose proof (Hall _ _ _ Hu) as Hin. destruct Hu as [Hocc Hr].
    apply list_elem_of_lookup in Hin as [i Hi]. destruct (Forall2_lookup_l _ _ _ _ _ Hj Hi) as (o & Ho & pre' & mid' & post' & Hocc' & Hl & ->).
    destruct (occurs_at _ _ _ _ _ _ _ _ Hocc Hocc' Hl) as (<- & <- & <-). rewrite Hr in Ho. exists (Some (line_of text pre post)).
    split; [by eapply list_elem_of_lookup_2|done].
Qed.
Lemma founds_preview : Forall (fun f => preview f = line_text text (line f)) (omap id founds).
Proof. apply Forall_forall. intros f (pre & mid & post & _ & ->)%elem_of_founds. done. Qed.

Lemma found_lines : let found := map snd (foldl insert_line [] (omap id founds)) in
  StronglySorted lt (map line found) /\ forall n p call, MkLine n p call ∈ found <->
    (exists pre mid post, uses is_xid_continue query source pre mid post /\ n = S (newlines pre)) /\ p = line_text text n
    /\ (call = true <-> exists pre mid post, uses is_xid_continue query source pre mid post /\ n = S (newlines pre) /\ follows_call_arguments post = true).
Proof.
  intros found. destruct (insert_lines (line_text text) (omap id founds) founds_preview) as [Hwf Hget]. set (m := foldl insert_line [] (omap id founds)) in *.
  assert (forall k f, (k, f) ∈ m -> N.of_nat (line f) = k) as Hkey.
  { intros k f Hin. apply bt_get_In in Hin; [|done]. rewrite Hget in Hin. destruct (existsb _ _); [|done]. injection Hin as <-. cbn [line]. by rewrite N2Nat.id. }
  split.
  - unfold found. clearbody m. clear -Hwf Hkey. unfold bt_wf in Hwf. induction m as [|[k f] m IH]; [constructor|]. cbn [map fst snd] in *.
    apply StronglySorted_inv in Hwf as [Hwf Hk]. constructor; [apply IH; [done|]; intros k' f' Hin; apply Hkey; by right|].
    apply Forall_forall. intros n Hn. apply list_elem_of_fmap in Hn as (g & -> & Hg). apply list_elem_of_fmap in Hg as ([k' g'] & -> & Hin). cbn [snd].
    rewrite Forall_forall in Hk. assert (klt k k') as Hlt by (apply Hk, list_elem_of_fmap; by exists (k', g')).
    assert (N.of_nat (line f) < N.of_nat (line g'))%N as Hlt2; [|lia].
    rewrite (Hkey k f), (Hkey k' g') by (apply elem_of_cons; auto). exact Hlt.
  - intros n p call. set (here := fun call => exists pre mid post, uses is_xid_continue query source pre mid post /\ n = S (newlines pre) /\ (call = true -> follows_call_arguments post = true)).
    assert (existsb (on_line (N.of_nat n)) (omap id founds) = true <-> exists pre mid post, uses is_xid_continue query source pre mid post /\ n = S (newlines pre)) as Hex.
    { rewrite existsb_exists. split.
      - intros (f & Hf%list_elem_of_In & Hl). apply elem_of_founds in Hf as (pre & mid & post & Hu & ->). exists pre, mid, post. split; [done|].
        apply N.eqb_eq, Nat2N.inj in Hl. done.
      - intros (pre & mid & post & Hu & ->). exists (line_of text pre post). split; [apply list_elem_of_In, elem_of_founds; by exists pre, mid, post|].
        apply N.eqb_refl. }
    assert (existsb (fun f => on_line (N.of_nat n) f && is_call f) (omap id founds) = true
            <-> exists pre mid post, uses is_xid_continue query source pre mid post /\ n = S (newlines pre) /\ follows_call_arguments post = true) as Hcall.
    { rewrite existsb_exists. split.
      - intros (f & Hf%list_elem_of_In & Hl). apply elem_of_founds in Hf as (pre & mid & post & Hu & ->). apply andb_true_iff in Hl as [Hl Hc].
        exists pre, mid, post. split; [done|]. apply N.eqb_eq, Nat2N.inj in Hl. done.
      - intros (pre & mid & post & Hu & -> & Hc). exists (line_of text pre post). split; [apply list_elem_of_In, elem_of_founds; by exists pre, mid, post|].
        apply andb_true_iff. split; [apply N.eqb_refl|done]. }
    specialize (Hget (N.of_nat n)). rewrite Nat2N.id in Hget. rewrite <- Hex, <- Hcall. unfold found. rewrite list_elem_of_fmap. split.
    + intros ([k f] & Hf & Hin). cbn [snd] in Hf. subst f. pose proof (Hkey _ _ Hin) as Hk. cbn [line] in Hk. subst k. apply bt_get_In in Hin; [|done].
      rewrite Hget in Hin. destruct (existsb (on_line _) _); [|done]. injection Hin as <- <-. done.
    + intros (He & -> & Hc). exists (N.of_nat n, MkLine n (line_text text n) call). split; [done|]. apply bt_get_In; [done|].
      rewrite Hget, He. do 2 f_equal. generalize (existsb (fun f => on_line (N.of_nat n) f && is_call f) (omap id founds)) Hc. intros b Hb. destruct Hb, call, b; intuition.
Qed.
End Found.

(** ** The loop over qualifiers ends within the length of the suffix *)

Lemma drop_while_shrinks {A} (f : A -> bool) (l : list A) : length (drop_while f l) <= length l.
Proof. induction l as [|x l IH]; cbn; [done|]. destruct (f x); cbn; lia. Qed.
Lemma trim_start_shrinks s : length (trim_start s) <= length s.
Proof. apply drop_while_shrinks. Qed.
Lemma parameters_shrink s : forall depth r, parameters_loop depth s = Some r -> length r <= length s.
Proof.
  induction s as [|c s IH]; intros depth r; cbn [parameters_loop]; [done|].
  destruct (c =? chr "(")%N; [intros H%IH; cbn; lia|]. destruct (c =? chr ")")%N; [|intros H%IH; cbn; lia].
  destruct depth as [|[|depth]]; [intros H%IH; cbn; lia| |intros H%IH; cbn; lia]. intros [= <-]. pose proof (trim_start_shrinks s). cbn. lia.
Qed.
Lemma strip_prefix_shrinks p s r : strip_prefix p s = Some r -> length s = length p + length r.
Proof. intros ->%strip_prefix_Some. apply length_app. Qed.
Lemma word_shrinks w s : take_while word_char s = w -> w <> [] -> length (drop_while word_char s) < length s.
Proof. destruct s as [|c s]; [by intros <-|]. cbn. destruct (word_char c); [|by intros <-]. intros _ _. pose proof (drop_while_shrinks word_char s). lia. Qed.

(** More fuel than the length changes nothing, so the answer is the code's. *)
Lemma prototype_fuel fuel : forall suffix, length suffix <= fuel -> prototype_loop fuel suffix = prototype_loop (length suffix) suffix.
Proof.
  induction fuel as [fuel IH] using lt_wf_ind. intros suffix Hf. destruct suffix as [|c s]; [by destruct fuel|].
  destruct fuel as [|fuel]; [cbn in Hf; lia|].
  assert (forall r, length r < length (c :: s) -> prototype_loop fuel r = prototype_loop (length s) r) as Hr.
  { intros r Hr. cbn [length] in Hr, Hf. rewrite (IH fuel) by lia. symmetry.
    destruct (decide (length s = fuel)) as [->|]; [apply IH; lia|apply IH; lia]. }
  assert (length (c :: s) = S (length s)) as Hl by done. revert Hr Hl. generalize (length s). intros k Hr Hl. rewrite Hl. cbn [prototype_loop].
  destruct (strip_prefix (lit "=") (c :: s)); [done|].
  destruct (match strip_prefix (lit "&&") (c :: s) with Some rest => Some rest | None => strip_prefix (lit "&") (c :: s) end) as [rest|] eqn:E.
  - apply Hr. pose proof (trim_start_shrinks rest). destruct (strip_prefix (lit "&&") (c :: s)) as [r|] eqn:E2; [injection E as ->|clear E2; rename E into E2];
      apply strip_prefix_shrinks in E2; [change (length (lit "&&")) with 2 in E2|change (length (lit "&")) with 1 in E2]; lia.
  - destruct (negb (one_of _ _)) eqn:Eq; [done|].
    assert (length (trim_start (drop_while word_char (c :: s))) < length (c :: s)) as Hw.
    { pose proof (trim_start_shrinks (drop_while word_char (c :: s))). enough (length (drop_while word_char (c :: s)) < length (c :: s)) by lia.
      eapply word_shrinks; [done|]. intros Hn. rewrite Hn in Eq. by vm_compute in Eq. }
    destruct (_ && _); [|by apply Hr]. destruct (after_parameter_list _) as [after|] eqn:Ea; [|done]. apply Hr. apply parameters_shrink in Ea. lia.
Qed.

(** C16. The lines found without a grammar are exactly the lines that use the name.
    Whatever the text, masking gives a text of the same bytes with some blanked, line breaks
    kept, and nothing is sliced off a boundary; the lines are in order, and a line is listed
    exactly when the masked text uses the name on it as a whole word, behind its owner where
    one is asked for and not where it is defined; it shows the line of the original text and
    is a call exactly when some such use is followed by arguments. *)
Theorem fallback_lines_exact is_xid_continue text language query
    (Hascii : forall c, is_ascii c = true -> is_xid_continue c = word_char c) (Htext : is_text text)
    (Hne : query_name query <> []) (Hname : is_symbol_identifier is_xid_continue (query_name query) = true) :
  exists source found, mask_non_code text language = Some source /\ Forall2 masked_byte (bytes text) (bytes source)
    /\ matching_lines is_xid_continue text language query = Some found
    /\ StronglySorted lt (map line found)
    /\ forall n p call, MkLine n p call ∈ found <->
         (exists pre mid post, uses is_xid_continue query source pre mid post /\ n = S (newlines pre)) /\ p = line_text text n
         /\ (call = true <-> exists pre mid post, uses is_xid_continue query source pre mid post /\ n = S (newlines pre) /\ follows_call_arguments post = true).
Proof.
  destruct (mask_non_code_text text language Htext) as (source & Hmask & Hts & HF). set (needle := ascii_lower (query_name query)).
  assert (needle <> []) as Hnn by (unfold needle; by destruct (query_name query)).
  assert (Forall (fun c => is_identifier_character is_xid_continue c = true) needle) as Hid.
  { unfold needle, ascii_lower. apply Forall_fmap. apply Forall_forall. intros c Hc. cbn. rewrite ident_lower by done.
    unfold is_symbol_identifier in Hname. rewrite forallb_forall in Hname. by apply Hname, list_elem_of_In. }
  destruct (occurrences_judged is_xid_continue text needle (query_owner query) source _ HF (offsets_occur needle source) []) as (founds & Hloop & Hj).
  rewrite collect_foldl in Hloop. exists source, (map snd (foldl insert_line [] (omap id founds))). split; [done|]. split; [done|]. split.
  - unfold matching_lines. rewrite Hmask. cbn [mbind option_bind]. unfold matching_symbol_lines_in_source. fold needle.
    rewrite bool_decide_eq_false_2 by done. cbn zeta. by rewrite Hloop.
  - apply (found_lines is_xid_continue text query source founds Hj). intros pre mid post [Hocc Hr].
    apply (references_found is_xid_continue needle (query_owner query) source pre mid post); try done. intros c. by apply ident_lower.
Qed.

(** ** An example *)

Definition example_xid (c : char) : bool := word_char c.
Definition example_text : str :=
  lit "fn go() {" ++ [10%N] ++ lit "  go(1); // go" ++ [10%N] ++ lit "  let f = Go;" ++ [10%N] ++ lit "  f(" ++ [34%N] ++ lit "go" ++ [34%N] ++ lit ");" ++ [10%N] ++ lit "}".
Definition example_query : SymbolQuery := MkQuery (lit "go") None.
Definition example_lines : list SymbolLine := [MkLine 2 (lit "go(1); // go") true; MkLine 3 (lit "let f = Go;") false].
Lemma example_text_ok : is_text example_text.
Proof. apply (bool_decide_eq_true_1 _). by vm_compute. Qed.

Lemma fallback_lines_exact_witness :
  matching_lines example_xid example_text (lit "rust") example_query = Some example_lines
  /\ exists source found, mask_non_code example_text (lit "rust") = Some source /\ Forall2 masked_byte (bytes example_text) (bytes source)
     /\ matching_lines example_xid example_text (lit "rust") example_query = Some found
     /\ StronglySorted lt (map line found)
     /\ forall n p call, MkLine n p call ∈ found <->
          (exists pre mid post, uses example_xid example_query source pre mid post /\ n = S (newlines pre)) /\ p = line_text example_text n
          /\ (call = true <-> exists pre mid post, uses example_xid example_query source pre mid post /\ n = S (newlines pre) /\ follows_call_arguments post = true).
Proof.
  split; [by vm_compute|].
  apply (fallback_lines_exact example_xid example_text (lit "rust") example_query); [done|exact example_text_ok|done|by vm_compute].
Defined.
