(* ===== verification/F32.v ===== *)
(** * Single-precision floats of the ranking code.

  An [f32] is its bit pattern, a number below [2^32], as [f32::to_bits] gives it; the
  arithmetic is IEEE 754's, from the Standard Library's [SpecFloat] at 24 bits of
  precision.  Rust leaves the sign and payload of a computed NaN open; here it is the
  quiet NaN with neither.  [f32::total_cmp] is [VectorTopK.total_cmp]. *)
From S2P Require Import Prelude VectorTopK.
From Stdlib Require Import SpecFloat.

Definition f32 : Type := N.

Definition of_bits (bits : f32) : spec_float :=
  let sign := N.testbit bits 31 in
  let exponent := N.land (N.shiftr bits 23) 255 in
  let fraction := N.land bits (2 ^ 23 - 1) in
  if (exponent =? 255)%N then if (fraction =? 0)%N then S754_infinity sign else S754_nan
  else if (exponent =? 0)%N then
    match fraction with N0 => S754_zero sign | Npos m => S754_finite sign m (-149) end
  else
    match (fraction + 2 ^ 23)%N with N0 => S754_zero sign | Npos m => S754_finite sign m (Z.of_N exponent - 150) end.
Definition to_bits (x : spec_float) : f32 :=
  let signed (s : bool) (bits : N) := ((if s then 2 ^ 31 else 0) + bits)%N in
  match x with
  | S754_zero s => signed s 0%N
  | S754_infinity s => signed s 0x7F800000%N
  | S754_nan => 0x7FC00000%N
  | S754_finite s m e =>
    if (N.pos m <? 2 ^ 23)%N then signed s (N.pos m)
    else signed s (N.shiftl (Z.to_N (e + 150)) 23 + (N.pos m - 2 ^ 23))%N
  end.

Definition fadd (a b : f32) : f32 := to_bits (SFadd 24 128 (of_bits a) (of_bits b)).
Definition fmul (a b : f32) : f32 := to_bits (SFmul 24 128 (of_bits a) (of_bits b)).
Definition fdiv (a b : f32) : f32 := to_bits (SFdiv 24 128 (of_bits a) (of_bits b)).
(** [n as f32] *)
Definition of_nat (n : nat) : f32 := to_bits (binary_normalize 24 128 (Z.of_nat n) 0 false).
(** Comparisons are false on a NaN. *)
Definition flt (a b : f32) : bool := SFltb (of_bits a) (of_bits b).
Definition fle (a b : f32) : bool := SFleb (of_bits a) (of_bits b).
Definition is_nan (a : f32) : bool := match of_bits a with S754_nan => true | _ => false end.
(** [f32::max] gives the other argument for a NaN. *)
Definition fmax (a b : f32) : f32 := if is_nan a then b else if is_nan b then a else if flt a b then b else a.
Definition fclamp (x low high : f32) : f32 := if flt x low then low else if flt high x then high else x.

Definition F0 : f32 := 0%N.
Definition F1 : f32 := 0x3F800000%N.
Definition EPSILON : f32 := 0x34000000%N.

Example f32_sum : fadd F1 F1 = of_nat 2.
Proof. by vm_compute. Qed.
(** A conversion, and a division to nearest that multiplies back to one. *)
Example f32_rounds : of_nat (N.to_nat 257) = 0x43808000%N /\ fdiv F1 (of_nat 3) = 0x3EAAAAAB%N /\ fmul (fdiv F1 (of_nat 3)) (of_nat 3) = F1.
Proof. by vm_compute. Qed.
Example f32_extremes : fdiv F1 F0 = 0x7F800000%N /\ is_nan (fdiv F0 F0) = true /\ flt (fdiv F0 F0) F1 = false
  /\ fmul 0x7F7FFFFF%N (of_nat 2) = 0x7F800000%N /\ fdiv 1%N (of_nat 2) = 0%N /\ fmul 0x00800000%N (fdiv F1 (of_nat 2)) = 0x00400000%N.
Proof. by vm_compute. Qed.

(** ** The total order of the patterns *)

Lemma flt_asym a b : flt a b = true -> flt b a = false.
Proof.
  unfold flt, SFltb. destruct (of_bits a) as [[]|[]| |[] m e], (of_bits b) as [[]|[]| |[] n e']; try done; cbn [SFcompare].
  all: rewrite (Z.compare_antisym e e'); destruct (Z.compare_spec e e') as [->|?|?]; cbn [CompOpp]; try done.
  all: rewrite !Pos.compare_cont_spec, (Pos.compare_antisym m n); by destruct (m ?= n)%positive.
Qed.

(** Scores from the highest, then keys from the lowest, as results are sorted. *)
Definition score_then_key_leb (a b : f32 * N) : bool :=
  match total_cmp b.1 a.1 with Lt => true | Eq => (a.2 <=? b.2)%N | Gt => false end.
Lemma score_then_key_alt a b : score_then_key_leb a b = true <->
  (total_key b.1 < total_key a.1)%Z \/ (total_key b.1 = total_key a.1 /\ (a.2 <= b.2)%N).
Proof.
  unfold score_then_key_leb, total_cmp. destruct (Z.compare_spec (total_key b.1) (total_key a.1)) as [H|H|H]; [rewrite N.leb_le|..]; split; try done; try lia; tauto.
Qed.
Lemma score_then_key_total a b : score_then_key_leb a b = true \/ score_then_key_leb b a = true.
Proof. rewrite !score_then_key_alt. lia. Qed.
Lemma score_then_key_trans a b c : score_then_key_leb a b = true -> score_then_key_leb b c = true -> score_then_key_leb a c = true.
Proof. rewrite !score_then_key_alt. lia. Qed.
