(* ===== verification/DenseFusion.v ===== *)
(** * Late dense fusion of the file order: search_fusion.rs, [fuse_dense_file_order].

  Scores are [f32] bit patterns with IEEE arithmetic.  Maps are finite maps; of the file
  entries only the order of the list matters.  An index out of range or a missing vote is
  [None], where the code panics.  [xxh3_64] is the hash of the xxhash crate: files are
  told apart by it, as in the code. *)
From S2P Require Import Prelude Utf8 VectorTopK F32.
From Stdlib Require Import SpecFloat.

(** The fields of a chunk that the passes read. *)
Record IndexedChunk := MkIndexed { file_path : list N; vector_key : N; text : str }.
Definition SOURCE_EXACT_SYMBOL : N := 1.
Definition SOURCE_LEXICAL : N := 4.
Definition SOURCE_LITERAL : N := 8.
Definition SOURCE_PATH : N := 32.
Definition SOURCE_INFERRED_SYMBOL : N := 256.
Record RankedCandidate := MkRanked { chunk : IndexedChunk; score : f32; sources : N }.

Definition has_literal_source (sources : N) : bool := negb (N.land sources SOURCE_LITERAL =? 0)%N.
Definition has_direct_source (sources : N) : bool :=
  has_literal_source sources
  || negb (N.land sources (N.lor (N.lor (N.lor SOURCE_LEXICAL SOURCE_PATH) SOURCE_EXACT_SYMBOL) SOURCE_INFERRED_SYMBOL) =? 0)%N.

(** [1.05f32] *)
Definition DECISIVE_DENSE_LEAD_RATIO : f32 := 0x3F866666%N.
Definition DENSE_RANK_CONSTANT : f32 := of_nat 60.

Record FileEntry := MkFile { fe_file : N; fe_score : f32; fe_unvoted_ratio : f32; fe_eligible : bool; fe_dense : option f32 }.

(** Sorting by a score, ties by a number. *)
Definition by_score {A} (f : A -> f32 * N) (l : list A) : list A := sort_by (fun a b => score_then_key_leb (f a) (f b)) l.
Definition key_of (item : RankedCandidate) : N := vector_key (chunk item).
Definition sort_ranked (ranked : list RankedCandidate) : list RankedCandidate :=
  by_score (fun item => (score item, key_of item)) ranked.

Section Fusion.
Context (xxh3_64 : list N -> N).
Definition path_key (path : list N) : N := xxh3_64 path.
Definition file_of (item : RankedCandidate) : N := path_key (file_path (chunk item)).

Section Files.
Context (dense ratios : gmap N f32) (admits : RankedCandidate -> bool).
Definition better (best : option f32) (found : option f32) : option f32 :=
  match found with
  | Some score => Some (match best with Some best => fmax best score | None => score end)
  | None => best
  end.
(** A round of the first loop. *)
Definition note_candidate (st : gmap N nat * list FileEntry) (item : RankedCandidate) : option (gmap N nat * list FileEntry) :=
  let '(positions, files) := st in
  let file := file_of item in
  let '(positions, files, position) :=
    match positions !! file with
    | Some position => (positions, files, position)
    | None => (<[file := length files]> positions,
               files ++ [MkFile file (score item) (default F1 (ratios !! key_of item)) false None], length files)
    end in
  let eligible := has_direct_source (sources item) && admits item in
  entry ← files !! position;
  Some (positions, <[position := MkFile (fe_file entry) (fe_score entry) (fe_unvoted_ratio entry) (fe_eligible entry || eligible)
                                   (better (fe_dense entry) (dense !! key_of item))]> files).
Fixpoint note_candidates (st : gmap N nat * list FileEntry) (ranked : list RankedCandidate) : option (gmap N nat * list FileEntry) :=
  match ranked with
  | [] => Some st
  | item :: ranked => st ← note_candidate st item; note_candidates st ranked
  end.
End Files.

Definition rank_vote (weight : f32) (rank : nat) : f32 := fdiv weight (fadd (fadd DENSE_RANK_CONSTANT (of_nat rank)) F1).
Definition add_vote (votes : gmap nat f32) (position : nat) (vote : f32) : gmap nat f32 :=
  <[position := fadd (default F0 (votes !! position)) vote]> votes.
Definition eligible_at (files : list FileEntry) (position : nat) : bool :=
  match files !! position with Some file => fe_eligible file | None => false end.
(** The positions that eligible files hold. *)
Definition slots_of (files : list FileEntry) : list nat := filter (fun p => eligible_at files p = true) (seq 0 (length files)).
Definition dense_order (files : list FileEntry) : list (nat * f32) :=
  by_score (fun x => (x.2, N.of_nat x.1)) (omap (fun x => d ← fe_dense x.2; Some (x.1, d)) (imap pair files)).

Definition cast_votes (files : list FileEntry) (by_dense : list (nat * f32)) (standing_weight : f32) (decisive : bool) (leader : nat)
    : gmap nat f32 :=
  let votes := list_to_map (imap (fun rank position => (position, rank_vote F1 rank)) (slots_of files)) in
  let votes :=
    if flt F0 standing_weight then
      foldl (fun votes x => add_vote votes x.2 (rank_vote standing_weight x.1)) votes
        (imap pair (filter (fun p => eligible_at files p = true) (map fst by_dense)))
    else votes in
  if decisive then add_vote votes leader (fdiv F1 (fadd DENSE_RANK_CONSTANT F1)) else votes.

Definition index_of (x : nat) (l : list nat) : option nat := fst <$> list_find (eq x) l.
(** The pinned file is taken back to the position it held. *)
Definition hold_pinned (pinned : option nat) (slots order : list nat) : list nat :=
  match pinned with
  | Some pinned =>
    match index_of pinned slots, index_of pinned order with
    | Some held, Some fused =>
      if held <? fused then let order := delete fused order in take held order ++ pinned :: drop held order else order
    | _, _ => order
    end
  | None => order
  end.
Definition fused_order (slots : list nat) (votes : gmap nat f32) (pinned : option nat) : option (list nat) :=
  voted ← mapM (fun position => vote ← votes !! position; Some (position, vote)) slots;
  Some (hold_pinned pinned slots (map fst (by_score (fun x => (x.2, N.of_nat x.1)) voted))).

(** What a moved file gets: the factor of its scores, that of its ratios, and its slot's ratio. *)
Record Scale := MkScale { score_factor : f32; ratio_factor : option f32; slot_ratio : f32 }.
Definition scale_step (files : list FileEntry) (scale : gmap N Scale) (x : nat * nat) : option (gmap N Scale) :=
  let '(old_position, new_position) := x in
  moved ← files !! old_position;
  slot ← files !! new_position;
  Some (if negb (new_position =? old_position) && flt EPSILON (fe_score moved) then
          <[fe_file moved := MkScale (fdiv (fe_score slot) (fe_score moved))
                              (if flt EPSILON (fe_unvoted_ratio moved) then Some (fdiv (fe_unvoted_ratio slot) (fe_unvoted_ratio moved)) else None)
                              (fe_unvoted_ratio slot)]> scale
        else scale).
Fixpoint scale_of (files : list FileEntry) (scale : gmap N Scale) (moves : list (nat * nat)) : option (gmap N Scale) :=
  match moves with
  | [] => Some scale
  | x :: moves => scale ← scale_step files scale x; scale_of files scale moves
  end.

Definition rescore (factor : f32) (item : RankedCandidate) : RankedCandidate := MkRanked (chunk item) (fmul (score item) factor) (sources item).
Definition moved_ratio (x : Scale) (ratio : f32) : f32 :=
  fclamp (match ratio_factor x with Some factor => fmul ratio factor | None => slot_ratio x end) F0 F1.
(** The last loop; the flag says that a lexical vote applies. *)
Fixpoint apply_scale (scale : gmap N Scale) (applies : bool) (ranked : list RankedCandidate) (ratios : gmap N f32)
    : list RankedCandidate * gmap N f32 :=
  match ranked with
  | [] => ([], ratios)
  | item :: ranked =>
    match scale !! file_of item with
    | Some x =>
      let ratios := if applies then <[key_of item := moved_ratio x (default F1 (ratios !! key_of item))]> ratios else ratios in
      let '(ranked, ratios) := apply_scale scale applies ranked ratios in
      (rescore (score_factor x) item :: ranked, ratios)
    | None => let '(ranked, ratios) := apply_scale scale applies ranked ratios in (item :: ranked, ratios)
    end
  end.

Definition fuse_dense_file_order (ranked : list RankedCandidate) (dense ratios : gmap N f32) (standing_weight : f32) (pinned_file : option N)
    (admits : RankedCandidate -> bool) : option (list RankedCandidate * gmap N f32) :=
  '(positions, files) ← note_candidates dense ratios admits (∅, []) ranked;
  let by_dense := dense_order files in
  match by_dense with
  | (leader, leader_score) :: (_, runner_up_score) :: _ =>
    file ← files !! leader;
    let decisive := fe_eligible file && flt EPSILON runner_up_score && fle DECISIVE_DENSE_LEAD_RATIO (fdiv leader_score runner_up_score) in
    if fle standing_weight F0 && negb decisive then Some (ranked, ratios)
    else
      let slots := slots_of files in
      order ← fused_order slots (cast_votes files by_dense standing_weight decisive leader) (file ← pinned_file; positions !! file);
      scale ← scale_of files ∅ (zip order slots);
      if bool_decide (scale = ∅) then Some (ranked, ratios)
      else
        let '(ranked, ratios) := apply_scale scale (negb (bool_decide (ratios = ∅))) ranked ratios in
        Some (sort_ranked ranked, ratios)
  | _ => Some (ranked, ratios)
  end.
End Fusion.

(** ** Sorting *)

Lemma by_score_sorted {A} (f : A -> f32 * N) l : StronglySorted (fun a b => score_then_key_leb (f a) (f b) = true) (by_score f l).
Proof.
  apply sort_by_sorted; [intros a b; apply score_then_key_total|intros a b c; apply score_then_key_trans].
Qed.

Section Facts.
Context (xxh3_64 : list N -> N).
#[local] Notation file_of := (file_of xxh3_64).

(** ** What the first loop collects *)

(** The files in the order of their first candidates. *)
Definition first_files (ranked : list RankedCandidate) : list N := reverse (remove_dups (reverse (map file_of ranked))).
Definition own (ranked : list RankedCandidate) (file : N) : list RankedCandidate := filter (fun item => file_of item = file) ranked.


Section Files.
Context (dense ratios : gmap N f32) (admits : RankedCandidate -> bool).

(** A file by its candidates: the first gives score and ratio, all of them the rest. *)
Definition entry_of (file : N) (own : list RankedCandidate) : FileEntry :=
  MkFile file (from_option score F0 (head own)) (from_option (fun item => default F1 (ratios !! key_of item)) F1 (head own))
    (existsb (fun item => has_direct_source (sources item) && admits item) own)
    (foldl (fun best item => better best (dense !! key_of item)) None own).
Definition files_of (ranked : list RankedCandidate) : list FileEntry := map (fun file => entry_of file (own ranked file)) (first_files ranked).



End Files.
End Facts.

(** ** Votes and the fused order *)



Definition vote_of (votes : gmap nat f32) (p : nat) : f32 := default F0 (votes !! p).
Definition better_vote (votes : gmap nat f32) (a b : nat) : Prop := score_then_key_leb (vote_of votes a, N.of_nat a) (vote_of votes b, N.of_nat b) = true.




(** ** A decisive leader *)


#[global] Instance better_vote_antisymm votes : AntiSymm (=) (better_vote votes).
Proof. intros a b Ha Hb. unfold better_vote in *. rewrite score_then_key_alt in Ha, Hb. cbn [fst snd] in *. lia. Qed.



(** ** Scales *)



Section Applied.
Context (xxh3_64 : list N -> N).
#[local] Notation file_of := (file_of xxh3_64).



End Applied.

(** ** The fused order of files *)

(** The file that leads the dense order, and whether it does so decisively. *)
Definition lead (files : list FileEntry) : option (nat * bool) :=
  match dense_order files with
  | (leader, leader_score) :: (_, runner_up_score) :: _ =>
    Some (leader, eligible_at files leader && flt EPSILON runner_up_score && fle DECISIVE_DENSE_LEAD_RATIO (fdiv leader_score runner_up_score))
  | _ => None
  end.

Section Theorem_.
Context (xxh3_64 : list N -> N).

Lemma dense_order_sorted files : StronglySorted (fun a b => score_then_key_leb (a.2, N.of_nat a.1) (b.2, N.of_nat b.1) = true) (dense_order files).
Proof. apply by_score_sorted. Qed.



End Theorem_.

(** ** Examples *)

Definition example_hash (path : list N) : N := hd 0%N path.
Definition example_item (path key : N) (s : f32) (mask : N) : RankedCandidate := MkRanked (MkIndexed [path] key []) s mask.
(** Scores 3.0, 2.0, 1.5 and 1.0; the last file has no direct evidence. *)
Definition example_ranked : list RankedCandidate :=
  [example_item 1 10 (of_nat 3) SOURCE_LEXICAL; example_item 2 20 (of_nat 2) SOURCE_LEXICAL;
   example_item 1 30 0x3FC00000%N SOURCE_LEXICAL; example_item 3 40 F1 64%N].
(** Cosines 0.5 and 0.9 for the first two files. *)
Definition example_dense : gmap N f32 := {[ 10%N := 0x3F000000%N; 20%N := 0x3F666666%N ]}.
Definition example_ratios : gmap N f32 := {[ 10%N := 0x3F000000%N ]}.

Lemma example_fused : exists out ratios', fuse_dense_file_order example_hash example_ranked example_dense example_ratios F0 None (fun _ => true) = Some (out, ratios')
  /\ map (fun item => (key_of item, score item)) out = [(20, of_nat 3); (10, of_nat 2); (30, F1); (40, F1)]%N
  /\ ratios' !! 20%N = Some 0x3F000000%N.
Proof. eexists _, _. split; [by vm_compute|]. split; by vm_compute. Qed.


(** The comment says that a decisive leader moves to the first eligible position; when the
    scores of the two places are equal nothing is scaled, and it stays behind. *)
Definition tied_ranked : list RankedCandidate := [example_item 1 10 F1 SOURCE_LEXICAL; example_item 2 20 F1 SOURCE_LEXICAL].
Theorem tied_leader_stays :
  lead (files_of example_hash example_dense ∅ (fun _ => true) tied_ranked) = Some (1, true)
  /\ fuse_dense_file_order example_hash tied_ranked example_dense ∅ F0 None (fun _ => true) = Some (tied_ranked, ∅).
Proof. split; by vm_compute. Qed.
