(* ===== verification/SpanPromotion.v ===== *)
(** * Which chunk shows a ranked position: the span promotions of search.rs and the
  re-keying of ratios in search_fusion.rs, [fuse_rrf_with_context].

  Candidates, sources and maps are those of [DenseFusion].  A swap out of range and a window
  of width zero are [None], where the code panics.  The values of a hash map come in an order
  of their own: [drain] lists the map.  The names a query qualifies and the answer of
  symbols.rs about a chunk are arguments. *)
From S2P Require Import Prelude Utf8 VectorTopK F32 DenseFusion.

Inductive QueryIntent := ExactIdentifier | Path | LiteralOrError | NaturalLanguage | DocsTestsExamples | Mixed.

(** [std::mem::swap] of the chunks of two candidates, and of their sources if asked. *)
Definition take_from (with_sources : bool) (a b : RankedCandidate) : RankedCandidate :=
  MkRanked (chunk b) (score a) (if with_sources then sources b else sources a).
Definition swap_items (with_sources : bool) (i j : nat) (ranked : list RankedCandidate) : option (list RankedCandidate) :=
  a ← ranked !! i;
  b ← ranked !! j;
  if i <? j then Some (<[i := take_from with_sources a b]> (<[j := take_from with_sources b a]> ranked)) else None.

Section Spans.
Context (xxh3_64 : list N -> N).
#[local] Notation file_of := (file_of xxh3_64).

(** ** Pasted errors *)

Definition Entry : Type := nat * option nat.
Definition note_literal (files : gmap N Entry) (index : nat) (item : RankedCandidate) : gmap N Entry :=
  let entry := default (index, None) (files !! file_of item) in
  <[file_of item := if bool_decide (entry.2 = None) && has_literal_source (sources item) then (entry.1, Some index) else entry]> files.
Fixpoint note_literals (files : gmap N Entry) (index : nat) (ranked : list RankedCandidate) : gmap N Entry :=
  match ranked with
  | [] => files
  | item :: ranked => note_literals (note_literal files index item) (S index) ranked
  end.
Fixpoint swap_literals (values : list Entry) (ranked : list RankedCandidate) : option (list RankedCandidate) :=
  match values with
  | [] => Some ranked
  | (best, literal) :: values =>
    match literal with
    | Some literal =>
      if literal =? best then swap_literals values ranked
      else ranked ← swap_items true best literal ranked; swap_literals values ranked
    | None => swap_literals values ranked
    end
  end.
Definition promote_literal_spans (drain : gmap N Entry -> list (N * Entry)) (ranked : list RankedCandidate) : option (list RankedCandidate) :=
  swap_literals (map snd (drain (note_literals ∅ 0 ranked))) ranked.

(** ** Descriptive queries *)

Definition MIN_QUERY_TOKENS : nat := 4.
(** [0.25f32] and [0.75f32] *)
Definition MIN_COVERAGE_GAIN : f32 := 0x3E800000%N.
Definition REPRESENTATIVE_SPAN_MIN_COVERAGE : f32 := 0x3F400000%N.
Definition MAX_CANDIDATES_TO_SCAN : nat := 48.

Definition has_token (text token : list N) : option bool :=
  if negb (length token <=? length text) then Some false
  else if bool_decide (token = []) then None
  else Some (existsb (fun start => eq_ignore_ascii_case (take (length token) (drop start text)) token) (seq 0 (length text - length token + 1))).
Definition local_term_coverage (query_tokens : list str) (text : str) : option f32 :=
  if bool_decide (query_tokens = []) then Some F0
  else
    found ← mapM (fun token => has_token (bytes text) (bytes token)) query_tokens;
    Some (fdiv (of_nat (length (filter (fun b => b = true) found))) (of_nat (length query_tokens))).
Fixpoint best_span (query_tokens : list str) (first_path : N) (best : nat * f32) (items : list (nat * RankedCandidate)) : option (nat * f32) :=
  match items with
  | [] => Some best
  | (index, item) :: items =>
    if negb (file_of item =? first_path)%N || negb (has_direct_source (sources item)) then best_span query_tokens first_path best items
    else
      coverage ← local_term_coverage query_tokens (text (chunk item));
      best_span query_tokens first_path (if flt best.2 coverage then (index, coverage) else best) items
  end.
Definition promote_representative_span (ranked : list RankedCandidate) (query_tokens : list str) (min_coverage : f32) : option (list RankedCandidate) :=
  match ranked with
  | [] => Some ranked
  | first :: _ =>
    if (length query_tokens <? MIN_QUERY_TOKENS) || negb (has_direct_source (sources first)) then Some ranked
    else
      first_coverage ← local_term_coverage query_tokens (text (chunk first));
      best ← best_span query_tokens (file_of first) (0, first_coverage) (imap pair (take MAX_CANDIDATES_TO_SCAN ranked));
      let '(best_index, best_coverage) := best in
      if (best_index =? 0) || flt best_coverage min_coverage || flt best_coverage (fadd first_coverage MIN_COVERAGE_GAIN) then Some ranked
      else swap_items false 0 best_index ranked
  end.

(** ** Qualified names *)

Section Names.
Context (chunk_defines_exact_name : IndexedChunk -> str -> bool).
Fixpoint promote_names (ranked : list RankedCandidate) (first_path : N) (names : list str) : option (list RankedCandidate) :=
  match names with
  | [] => Some ranked
  | name :: names =>
    first ← ranked !! 0;
    if chunk_defines_exact_name (chunk first) name then Some ranked
    else
      match list_find (fun item => (file_of item =? first_path)%N && negb (N.land (sources item) SOURCE_EXACT_SYMBOL =? 0)%N
                                   && chunk_defines_exact_name (chunk item) name = true) ranked with
      | Some (best_index, _) => swap_items false 0 best_index ranked
      | None => promote_names ranked first_path names
      end
  end.
(** [promote_qualified_symbol_span]; [names] are the query's [qualified_symbol_leaf_names]. *)
Definition promote_qualified_symbol_span (ranked : list RankedCandidate) (names : list str) : option (list RankedCandidate) :=
  match ranked with
  | [] => Some ranked
  | first :: _ => promote_names ranked (file_of first) names
  end.

(** ** The promotions in their order, and the ratios after them *)

Definition rekey_step (ratios : gmap N f32) (x : N * option f32) : gmap N f32 :=
  match x.2 with Some ratio => <[x.1 := ratio]> ratios | None => delete x.1 ratios end.
Definition rekey (scored_chunks : list N) (ranked : list RankedCandidate) (ratios : gmap N f32) : gmap N f32 :=
  let swapped := map (fun x => (key_of x.2, ratios !! x.1)) (filter (fun x => x.1 <> key_of x.2) (zip scored_chunks ranked)) in
  foldl rekey_step ratios swapped.

Definition descriptive (intent : QueryIntent) (lower : str) : bool :=
  match intent with NaturalLanguage | DocsTestsExamples | Mixed => true | _ => false end && negb (starts_with (lit "how ") lower).
Definition promote_spans (drain : gmap N Entry -> list (N * Entry)) (pasted_source pasted_error : bool) (intent : QueryIntent) (lower : str)
    (names primary_tokens : list str) (ranked : list RankedCandidate) (ratios : gmap N f32) : option (list RankedCandidate * gmap N f32) :=
  let scored_chunks := if bool_decide (ratios = ∅) then [] else map key_of ranked in
  ranked ← if pasted_source then Some ranked else promote_qualified_symbol_span ranked names;
  ranked ← if pasted_error then promote_literal_spans drain ranked else Some ranked;
  ranked ← if descriptive intent lower then promote_representative_span ranked primary_tokens REPRESENTATIVE_SPAN_MIN_COVERAGE else Some ranked;
  Some (ranked, rekey scored_chunks ranked ratios).
End Names.
End Spans.

(** ** Swaps keep places *)

Section Facts.
Context (xxh3_64 : list N -> N).
#[local] Notation file_of := (file_of xxh3_64).

(** The position keeps its score and its file. *)
Definition same_place (a b : RankedCandidate) : Prop := score a = score b /\ file_of a = file_of b.
(** What a position shows: the chunk and what matched it. *)
Definition evidence (x : RankedCandidate) : IndexedChunk * N := (chunk x, sources x).
(** Every position keeps its place, and the chunks are the same. *)
Definition respanned (before after : list RankedCandidate) : Prop := Forall2 same_place before after /\ map chunk after ≡ₚ map chunk before.
#[local] Instance same_place_preorder : PreOrder same_place.
Proof. split; [by intros a|]. intros a b c [H1 H2] [H3 H4]. split; congruence. Qed.
Lemma respanned_refl l : respanned l l.
Proof. by split. Qed.
Lemma respanned_trans l1 l2 l3 : respanned l1 l2 -> respanned l2 l3 -> respanned l1 l3.
Proof. intros [H1 H2] [H3 H4]. split; [by etransitivity|by etransitivity]. Qed.
Lemma respanned_lookup l l' i b : respanned l l' -> l' !! i = Some b -> exists a, l !! i = Some a /\ same_place a b.
Proof. intros [H _] Hi. destruct (Forall2_lookup_r _ _ _ _ _ H Hi) as (a & Ha & Hs). by exists a. Qed.
Lemma respanned_lookup_l l l' i a : respanned l l' -> l !! i = Some a -> exists b, l' !! i = Some b /\ same_place a b.
Proof. intros [H _] Hi. destruct (Forall2_lookup_l _ _ _ _ _ H Hi) as (b & Hb & Hs). by exists b. Qed.

Lemma swap_perm {A} (l : list A) i j a b : l !! i = Some a -> l !! j = Some b -> i < j -> <[i := b]> (<[j := a]> l) ≡ₚ l.
Proof.
  intros Ha Hb Hlt. assert (exists l1 l2 l3, l = l1 ++ a :: l2 ++ b :: l3 /\ length l1 = i /\ j = i + S (length l2)) as (l1 & l2 & l3 & -> & Hi & ->).
  { pose proof (lookup_lt_Some _ _ _ Ha). assert (length (take i l) = i) as Hlen by (rewrite length_take; lia).
    assert (drop (S i) l !! (j - S i) = Some b) as Hb2 by (rewrite lookup_drop; by replace (S i + (j - S i)) with j by lia).
    exists (take i l), (take (j - S i) (drop (S i) l)), (drop (S (j - S i)) (drop (S i) l)). split; [|split; [done|]].
    - by rewrite take_drop_middle, take_drop_middle.
    - pose proof (lookup_lt_Some _ _ _ Hb2). rewrite length_take. lia. }
  subst i. rewrite (insert_app_r_alt l1) by lia. replace (length l1 + S (length l2) - length l1) with (S (length l2)) by lia. cbn [insert list_insert].
  change (list_insert (length l2) a (l2 ++ b :: l3)) with (<[length l2 := a]> (l2 ++ b :: l3)).
  rewrite (insert_app_r_alt l2), Nat.sub_diag by lia. cbn [insert list_insert]. rewrite (insert_app_r_alt l1), Nat.sub_diag by lia. cbn [insert list_insert].
  apply Permutation_app_head. rewrite <- !Permutation_middle. apply Permutation_swap.
Qed.
Lemma swap_items_spec with_sources i j ranked a b : ranked !! i = Some a -> ranked !! j = Some b -> i < j -> file_of a = file_of b ->
  exists out, swap_items with_sources i j ranked = Some out /\ respanned ranked out
    /\ (forall k, k <> i -> k <> j -> out !! k = ranked !! k)
    /\ out !! i = Some (take_from with_sources a b) /\ out !! j = Some (take_from with_sources b a).
Proof.
  intros Ha Hb Hlt Hf. unfold swap_items. rewrite Ha, Hb. cbn [mbind option_bind]. rewrite (proj2 (Nat.ltb_lt i j) Hlt). eexists. split; [done|].
  pose proof (lookup_lt_Some _ _ _ Ha). pose proof (lookup_lt_Some _ _ _ Hb).
  assert (forall k, k <> i -> k <> j -> <[i := take_from with_sources a b]> (<[j := take_from with_sources b a]> ranked) !! k = ranked !! k) as Hk.
  { intros k Hi Hj. by rewrite !list_lookup_insert_ne by done. }
  assert (<[i := take_from with_sources a b]> (<[j := take_from with_sources b a]> ranked) !! i = Some (take_from with_sources a b)) as Hi.
  { rewrite list_lookup_insert_eq; [done|]. by rewrite length_insert. }
  assert (<[i := take_from with_sources a b]> (<[j := take_from with_sources b a]> ranked) !! j = Some (take_from with_sources b a)) as Hj.
  { rewrite list_lookup_insert_ne by lia. by apply list_lookup_insert_eq. }
  split; [|by split; [|split]]. split.
  - apply Forall2_same_length_lookup. split; [by rewrite !length_insert|]. intros k x y Hx Hy.
    destruct (decide (k = i)) as [->|Hni]; [|destruct (decide (k = j)) as [->|Hnj]].
    + rewrite Hi in Hy. rewrite Ha in Hx. simplify_eq. split; [done|]. exact Hf.
    + rewrite Hj in Hy. rewrite Hb in Hx. simplify_eq. split; [done|]. symmetry. exact Hf.
    + rewrite Hk in Hy by done. rewrite Hx in Hy. simplify_eq. done.
  - rewrite !list_fmap_insert. cbn [take_from chunk]. apply swap_perm; [by rewrite list_lookup_fmap, Ha|by rewrite list_lookup_fmap, Hb|done].
Qed.

(** ** The promotions *)

(** The first chunk and the one at [j] exchange places, the sources stay; nothing moves
    when [j] is 0. *)
Definition fronted (j : nat) (before after : list RankedCandidate) : Prop :=
  respanned before after /\ map sources after = map sources before
  /\ forall k, chunk <$> after !! k = chunk <$> before !! (if decide (k = 0) then j else if decide (k = j) then 0 else k).
Lemma fronted_refl l : fronted 0 l l.
Proof. split; [apply respanned_refl|]. split; [done|]. intros k. by repeat case_decide; subst. Qed.
Lemma swap_fronted j l a b : l !! 0 = Some a -> l !! j = Some b -> 0 < j -> file_of a = file_of b ->
  exists out, swap_items false 0 j l = Some out /\ fronted j l out.
Proof.
  intros Ha Hb Hlt Hf. destruct (swap_items_spec false 0 j l a b Ha Hb Hlt Hf) as (out & H & Hr & Hk & H0 & Hj).
  exists out. split; [done|]. split; [done|]. split.
  - apply list_eq. intros k. rewrite !list_lookup_fmap.
    destruct (decide (k = 0)) as [->|]; [by rewrite H0, Ha|]. destruct (decide (k = j)) as [->|]; [by rewrite Hj, Hb|]. by rewrite Hk.
  - intros k. case_decide; [subst; by rewrite H0, Hb|]. case_decide; [subst; by rewrite Hj, Ha|]. by rewrite Hk.
Qed.

(** A candidate of the file that matched an exact symbol and defines the name. *)
Definition name_match (defines : IndexedChunk -> str -> bool) (file : N) (name : str) (item : RankedCandidate) : Prop :=
  file_of item = file /\ N.land (sources item) SOURCE_EXACT_SYMBOL <> 0%N /\ defines (chunk item) name = true.
(** A chunk brought to the front defines a name the first one does not; and when any match
    of its file defines some name, so does the chunk in front. *)
Definition shows_name (defines : IndexedChunk -> str -> bool) (names : list str) (before after : list RankedCandidate) : Prop :=
  exists j, fronted j before after
    /\ (j <> 0 -> exists first b name, before !! 0 = Some first /\ before !! j = Some b /\ name ∈ names
          /\ name_match defines (file_of first) name b /\ defines (chunk first) name = false)
    /\ forall first b name, before !! 0 = Some first -> b ∈ before -> name ∈ names -> name_match defines (file_of first) name b ->
         exists shown name', after !! 0 = Some shown /\ name' ∈ names /\ defines (chunk shown) name' = true.

Lemma names_shown defines first rest : forall names done_, (forall name b, name ∈ done_ -> b ∈ first :: rest -> ~ name_match defines (file_of first) name b) ->
  exists out, promote_names xxh3_64 defines (first :: rest) (file_of first) names = Some out /\ shows_name defines (done_ ++ names) (first :: rest) out.
Proof.
  induction names as [|name names IH]; intros done_ Hdone; cbn [promote_names].
  { exists (first :: rest). split; [done|]. exists 0. split; [apply fronted_refl|]. split; [done|]. rewrite app_nil_r.
    intros first' b name [= <-] Hb Hn Hm. by destruct (Hdone name b Hn Hb). }
  cbn [lookup list_lookup mbind option_bind]. destruct (defines (chunk first) name) eqn:Ed.
  { exists (first :: rest). split; [done|]. exists 0. split; [apply fronted_refl|]. split; [done|].
    intros _ _ _ _ _ _ _. exists first, name. split; [done|]. split; [|done]. apply elem_of_app. right. by left. }
  destruct (list_find _ (first :: rest)) as [[i b]|] eqn:E.
  - apply list_find_Some in E as (Hi & Hp & _). apply andb_true_iff in Hp as [Hp Hd]. apply andb_true_iff in Hp as [Hp%N.eqb_eq Hs].
    destruct i as [|i]; [cbn in Hi; simplify_eq; congruence|].
    destruct (swap_fronted (S i) (first :: rest) first b eq_refl Hi ltac:(lia) (eq_sym Hp)) as (out & H & Hfr).
    exists out. split; [done|]. exists (S i). split; [done|]. assert (name ∈ done_ ++ name :: names) as Hin by (apply elem_of_app; right; by left).
    split.
    + intros _. exists first, b, name. split; [done|]. split; [done|]. split; [done|]. split; [|done]. split; [done|]. split; [|done].
      by apply negb_true_iff, N.eqb_neq in Hs.
    + intros _ _ _ _ _ _ _. destruct Hfr as (_ & _ & Hk). specialize (Hk 0). cbn in Hi. rewrite decide_True in Hk by done. cbn in Hk. rewrite Hi in Hk. cbn in Hk.
      destruct (out !! 0) as [shown|] eqn:Eo; [|done]. exists shown, name. split; [done|]. split; [done|]. injection Hk as ->. done.
  - apply list_find_None in E. destruct (IH (done_ ++ [name])) as (out & Hout & Hs).
    + intros n b [Hn|Hn%list_elem_of_singleton]%elem_of_app Hb; [by apply Hdone|subst n]. intros (Hf & Hx & Hd). rewrite Forall_forall in E.
      apply (E b Hb). rewrite Hf, N.eqb_refl, Hd, (proj2 (N.eqb_neq _ _) Hx). done.
    + exists out. split; [done|]. by rewrite <- app_assoc in Hs.
Qed.
Lemma qualified_spec defines names ranked :
  exists out, promote_qualified_symbol_span xxh3_64 defines ranked names = Some out /\ shows_name defines names ranked out.
Proof.
  destruct ranked as [|first rest]; cbn [promote_qualified_symbol_span].
  { exists []. split; [done|]. exists 0. split; [apply fronted_refl|]. done. }
  apply (names_shown defines first rest names []). by intros ? ? ?%not_elem_of_nil.
Qed.

(** The coverage of a text: the share of the tokens that occur in it, up to ASCII case. *)
Definition occurs (token text : str) : Prop :=
  exists before found after, bytes text = before ++ found ++ after /\ ascii_lower found = ascii_lower (bytes token).
Definition coverage_is (query_tokens : list str) (text : str) (c : f32) : Prop :=
  exists marks, Forall2 (fun token mark => mark = true <-> occurs token text) query_tokens marks
    /\ c = match query_tokens with
           | [] => F0
           | _ => fdiv (of_nat (length (filter (fun b => b = true) marks))) (of_nat (length query_tokens))
           end.

Lemma has_token_occurs token text : token <> [] ->
  exists mark, has_token (bytes text) (bytes token) = Some mark /\ (mark = true <-> occurs token text).
Proof.
  intros Ht. assert (bytes token <> []) as Hb.
  { destruct token as [|c token]; [done|]. intros Hb. apply (f_equal length) in Hb. unfold bytes in Hb. cbn [mbind list_bind] in Hb.
    rewrite length_app in Hb. cbn [length] in Hb. unfold encode_utf8 in Hb. repeat case_match; cbn [length] in Hb; lia. }
  unfold has_token, occurs. rewrite bool_decide_eq_false_2 by done. destruct (Nat.leb_spec (length (bytes token)) (length (bytes text))) as [Hle|Hgt]; cbn [negb].
  2:{ exists false. split; [done|]. split; [done|]. intros (u & v & w & E & Hv). apply (f_equal length) in Hv, E. unfold ascii_lower in Hv.
    rewrite !length_map in Hv. rewrite !length_app in E. lia. }
  eexists. split; [done|]. rewrite existsb_exists. split.
  - intros (k & _ & Hk%bool_decide_eq_true). exists (take k (bytes text)), (take (length (bytes token)) (drop k (bytes text))), (drop (length (bytes token)) (drop k (bytes text))).
    by rewrite !take_drop.
  - intros (u & v & w & E & Hv). assert (length v = length (bytes token)) as Hl by (apply (f_equal length) in Hv; unfold ascii_lower in Hv; by rewrite !length_map in Hv).
    exists (length u). split.
    + apply in_seq. apply (f_equal length) in E. rewrite !length_app in E. lia.
    + apply bool_decide_eq_true. by rewrite E, drop_app_length, <- Hl, take_app_length.
Qed.
Lemma coverage_Some query_tokens text : Forall (fun token => token <> []) query_tokens -> is_Some (local_term_coverage query_tokens text).
Proof.
  intros H. unfold local_term_coverage. case_bool_decide; [by eexists|].
  assert (is_Some (mapM (fun token => has_token (bytes text) (bytes token)) query_tokens)) as [found ->]; [|by eexists].
  apply mapM_is_Some. eapply Forall_impl; [exact H|]. intros token Ht. destruct (has_token_occurs token text Ht) as (mark & Hm & _). by exists mark.
Qed.
Lemma coverage_exact query_tokens text c : Forall (fun token => token <> []) query_tokens ->
  local_term_coverage query_tokens text = Some c <-> coverage_is query_tokens text c.
Proof.
  intros Ht. assert (exists marks, mapM (fun token => has_token (bytes text) (bytes token)) query_tokens = Some marks
    /\ Forall2 (fun token mark => mark = true <-> occurs token text) query_tokens marks) as (marks & Hm & Hf).
  { induction Ht as [|token tokens Hx _ (marks & Hm & Hf)]; [by exists []|]. destruct (has_token_occurs token text Hx) as (mark & Hk & Ho).
    exists (mark :: marks). cbn. rewrite Hk. cbn. rewrite Hm. by split; [|constructor]. }
  assert (forall marks', Forall2 (fun token mark => mark = true <-> occurs token text) query_tokens marks' -> marks' = marks) as Huniq.
  { clear Ht Hm. intros ms Hms. revert ms Hms. induction Hf as [|token mark tokens marks Hx _ IH]; intros ms Hms; inversion Hms as [|? m ? ms' Hy Hms']; [done|]. subst.
    f_equal; [destruct m, mark; tauto || (exfalso; destruct Hx, Hy; intuition discriminate)|by apply IH]. }
  unfold local_term_coverage, coverage_is. rewrite Hm. split.
  - intros H. exists marks. split; [done|]. destruct query_tokens; [by injection H|]. rewrite bool_decide_eq_false_2 in H by done. by injection H.
  - intros (ms & Hms%Huniq & ->). subst ms. by destruct query_tokens.
Qed.

(** The coverage of a candidate of the file that a direct source matched. *)
Definition covers (coverage : str -> f32 -> Prop) (file : N) (item : RankedCandidate) (c : f32) : Prop :=
  file_of item = file /\ has_direct_source (sources item) = true /\ coverage (text (chunk item)) c.
#[local] Notation computed query_tokens := (fun text c => local_term_coverage query_tokens text = Some c).

Lemma best_span_spec query_tokens file : Forall (fun token => token <> []) query_tokens -> forall items best,
  exists best', best_span xxh3_64 query_tokens file best items = Some best'
    /\ (best' = best \/ exists x, (best'.1, x) ∈ items /\ covers (computed query_tokens) file x best'.2).
Proof.
  intros Ht. induction items as [|[i x] items IH]; intros best; cbn [best_span]; [by exists best; split; [|left]|].
  assert (forall best, exists best', best_span xxh3_64 query_tokens file best items = Some best'
    /\ (best' = best \/ exists y, (best'.1, y) ∈ (i, x) :: items /\ covers (computed query_tokens) file y best'.2)) as Hskip.
  { intros b. destruct (IH b) as (b' & -> & [->|(y & Hy & Hc)]); [exists b; by split; [|left]|].
    exists b'. split; [done|]. right. exists y. split; [by right|done]. }
  destruct (N.eqb_spec (file_of x) file) as [Ef|]; cbn [negb orb]; [|apply Hskip].
  destruct (has_direct_source (sources x)) eqn:Es; cbn [negb]; [|apply Hskip].
  destruct (coverage_Some query_tokens (text (chunk x)) Ht) as [coverage Hc]. rewrite Hc. cbn [mbind option_bind].
  destruct (flt best.2 coverage); [|apply Hskip]. destruct (Hskip (i, coverage)) as (b' & -> & Hb). exists b'. split; [done|]. right.
  destruct Hb as [->|Hb]; [|done]. exists x. split; [by left|done].
Qed.
(** A candidate that covers more than every other one wins. *)
Lemma best_span_winner query_tokens file i x c : Forall (fun token => token <> []) query_tokens ->
  covers (computed query_tokens) file x c -> forall items best,
  (forall j y c', (j, y) ∈ items -> covers (computed query_tokens) file y c' -> (j, y) = (i, x) \/ flt c' c = true) ->
  best = (i, c) \/ (flt best.2 c = true /\ (i, x) ∈ items) ->
  best_span xxh3_64 query_tokens file best items = Some (i, c).
Proof.
  intros Ht Hx. assert (flt c c = false) as Hirr.
  { destruct (flt c c) eqn:E; [|done]. by rewrite (flt_asym c c E) in E. }
  induction items as [|[j y] items IH]; intros best Hlose Hbest; cbn [best_span].
  { destruct Hbest as [->|[_ Hin]]; [done|by apply not_elem_of_nil in Hin]. }
  assert (forall b, b = (i, c) \/ (flt b.2 c = true /\ (i, x) ∈ items) ->
    best_span xxh3_64 query_tokens file b items = Some (i, c)) as Hgo.
  { intros b Hb. apply IH; [|done]. intros k z c' Hz. apply Hlose. by right. }
  assert (~ (exists c', covers (computed query_tokens) file y c') -> best_span xxh3_64 query_tokens file best items = Some (i, c)) as Hskip.
  { intros Hno. apply Hgo. destruct Hbest as [->|[Hlt Hin]]; [by left|right]. split; [done|].
    apply elem_of_cons in Hin as [[= <- <-]|Hin]; [|done]. destruct Hno. by exists c. }
  destruct (N.eqb_spec (file_of y) file) as [Ef|Ef]; cbn [negb orb]; [|apply Hskip; by intros (? & ? & _)].
  destruct (has_direct_source (sources y)) eqn:Es; cbn [negb]; [|apply Hskip; intros (? & _ & ? & _); congruence].
  destruct (coverage_Some query_tokens (text (chunk y)) Ht) as [cy Hc]. rewrite Hc. cbn [mbind option_bind].
  assert (covers (computed query_tokens) file y cy) as Hy by done.
  apply Hgo. destruct Hbest as [->|[Hlt Hin]]; cbn [snd].
  - destruct (Hlose j y cy ltac:(by left) Hy) as [[= -> ->]|Hcy].
    + assert (cy = c) as -> by (destruct Hx as (_ & _ & Hx); congruence). rewrite Hirr. by left.
    + rewrite (flt_asym _ _ Hcy). by left.
  - apply elem_of_cons in Hin as [[= <- <-]|Hin].
    + assert (cy = c) as -> by (destruct Hx as (_ & _ & Hx); congruence). rewrite Hlt. by left.
    + destruct (flt best.2 cy); [|by right]. destruct (Hlose j y cy ltac:(by left) Hy) as [[= -> ->]|Hcy].
      * assert (cy = c) as -> by (destruct Hx as (_ & _ & Hx); congruence). by left.
      * right. by split.
Qed.

(** A chunk brought to the front covers enough of the tokens, and more than the first did by
    the gain asked for; one that does, and covers more than every other candidate of the
    file among the scanned ones, is brought there. *)
Definition shows_coverage (coverage : str -> f32 -> Prop) (query_tokens : list str) (min_coverage : f32) (before after : list RankedCandidate) : Prop :=
  exists j, fronted j before after /\
    let enough c0 c := flt c min_coverage = false /\ flt c (fadd c0 MIN_COVERAGE_GAIN) = false in
    forall first c0, before !! 0 = Some first -> coverage (text (chunk first)) c0 ->
      (j <> 0 -> 4 <= length query_tokens /\ has_direct_source (sources first) = true
         /\ j < 48 /\ exists x c, before !! j = Some x /\ covers coverage (file_of first) x c /\ enough c0 c)
      /\ forall i x c, 4 <= length query_tokens -> has_direct_source (sources first) = true ->
           i <> 0 -> i < 48 -> before !! i = Some x -> covers coverage (file_of first) x c -> enough c0 c ->
           (forall k y c', k <> i -> k < 48 -> before !! k = Some y -> covers coverage (file_of first) y c' -> flt c' c = true) ->
           j = i.
Lemma shows_coverage_ext coverage coverage' query_tokens min_coverage before after : (forall text c, coverage text c <-> coverage' text c) ->
  shows_coverage coverage query_tokens min_coverage before after -> shows_coverage coverage' query_tokens min_coverage before after.
Proof.
  intros He (j & Hj & H). exists j. split; [done|]. cbv zeta in H |- *. intros first c0 Hf Hc0. apply He in Hc0. destruct (H first c0 Hf Hc0) as [Hgot Hbest]. split.
  - intros Hj0. destruct (Hgot Hj0) as (? & ? & ? & x & c & Hx & (? & ? & Hc) & Hen). apply He in Hc. split_and!; [done..|]. by exists x, c.
  - intros i x c Hl Hd Hi Hlt Hx (? & ? & Hc) Hen Hall. apply He in Hc. apply (Hbest i x c); [done..|]. intros k y c' Hk Hkl Hy (? & ? & Hc'). apply He in Hc'.
    by apply (Hall k y c').
Qed.

Lemma representative_spec ranked query_tokens min_coverage : Forall (fun token => token <> []) query_tokens ->
  exists out, promote_representative_span xxh3_64 ranked query_tokens min_coverage = Some out /\ shows_coverage (computed query_tokens) query_tokens min_coverage ranked out.
Proof.
  intros Ht. unfold promote_representative_span, MIN_QUERY_TOKENS, MAX_CANDIDATES_TO_SCAN. destruct ranked as [|first rest].
  { exists []. split; [done|]. exists 0. by split; [apply fronted_refl|]. }
  destruct (length query_tokens <? 4) eqn:El; cbn [orb].
  { apply Nat.ltb_lt in El. exists (first :: rest). split; [done|]. exists 0. split; [apply fronted_refl|]. cbv zeta. intros ? ? ? ?. split; [done|]. intros. lia. }
  apply Nat.ltb_ge in El. destruct (has_direct_source (sources first)) eqn:Es; cbn [negb].
  2:{ exists (first :: rest). split; [done|]. exists 0. split; [apply fronted_refl|]. cbv zeta. intros first' c0 [= <-] _. split; [done|]. intros. congruence. }
  destruct (coverage_Some query_tokens (text (chunk first)) Ht) as [c0 Hc0]. rewrite Hc0. cbn [mbind option_bind].
  set (items := imap pair (take 48 (first :: rest))).
  assert (forall i x, (i, x) ∈ items <-> i < 48 /\ (first :: rest) !! i = Some x) as Hitems.
  { intros i x. unfold items. rewrite list_elem_of_lookup.
    transitivity (take 48 (first :: rest) !! i = Some x); [|rewrite lookup_take_Some; tauto]. split.
    - intros [j Hj]. rewrite list_lookup_imap in Hj. destruct (take _ _ !! j) as [y|] eqn:E; [|done]. by injection Hj as -> ->.
    - intros Hi. exists i. by rewrite list_lookup_imap, Hi. }
  destruct (best_span_spec query_tokens (file_of first) Ht items (0, c0)) as ([j c] & Hbest & Hcov). rewrite Hbest. cbn [mbind option_bind].
  assert (forall i x c', i <> 0 -> i < 48 -> (first :: rest) !! i = Some x -> covers (computed query_tokens) (file_of first) x c' ->
    (forall k y c'', k <> i -> k < 48 -> (first :: rest) !! k = Some y -> covers (computed query_tokens) (file_of first) y c'' -> flt c'' c' = true) ->
    (j, c) = (i, c')) as Hwin.
  { intros i x c' Hi Hlt Hx Hc' Hall. apply (inj Some). rewrite <- Hbest. apply (best_span_winner query_tokens (file_of first) i x c' Ht Hc').
    - intros k y c'' [Hk Hy]%Hitems Hcy. destruct (decide (k = i)) as [->|]; [left; congruence|right; by apply (Hall k y)].
    - right. split; [apply (Hall 0 first); [done|lia|done|done]|by apply Hitems]. }
  assert (j = 0 \/ flt c min_coverage = true \/ flt c (fadd c0 MIN_COVERAGE_GAIN) = true ->
    shows_coverage (computed query_tokens) query_tokens min_coverage (first :: rest) (first :: rest)) as Hstay.
  { intros Hno. exists 0. split; [apply fronted_refl|]. cbv zeta. intros first' c0' [= <-] Hc0'. split; [done|].
    intros i x c' _ _ Hi Hlt Hx Hc' [He1 He2] Hall. specialize (Hwin i x c' Hi Hlt Hx Hc' Hall). assert (c0' = c0) as -> by congruence.
    destruct Hno as [?|[?|?]]; congruence. }
  destruct (Nat.eqb_spec j 0) as [Hj|Hj]; cbn [orb]; [eexists; split; [done|apply Hstay; by left]|].
  destruct (flt c min_coverage) eqn:E1; cbn [orb]; [eexists; split; [done|apply Hstay; by right; left]|].
  destruct (flt c (fadd c0 MIN_COVERAGE_GAIN)) eqn:E2; [eexists; split; [done|apply Hstay; by right; right]|].
  destruct Hcov as [[= -> _]|(b & [Hlt Hb]%Hitems & Hcb)]; [done|]. cbn [fst snd] in *.
  destruct (swap_fronted j (first :: rest) first b eq_refl Hb ltac:(lia)) as (out & H & Hfr); [by destruct Hcb as [-> _]|].
  exists out. split; [done|]. exists j. split; [done|]. cbv zeta. intros first' c0' [= <-] Hc0'. assert (c0' = c0) as -> by congruence. split.
  - intros _. split; [done|]. split; [done|]. split; [done|]. by exists b, c.
  - intros i x c' _ _ Hi Hil Hx Hc' _ Hall. specialize (Hwin i x c' Hi Hil Hx Hc' Hall). congruence.
Qed.

(** ** Literal matches *)

Lemma swap_evidence i j l out : swap_items true i j l = Some out -> map evidence out ≡ₚ map evidence l.
Proof.
  unfold swap_items. destruct (l !! i) as [a|] eqn:Ha; [|done]. destruct (l !! j) as [b|] eqn:Hb; [|done]. cbn [mbind option_bind].
  destruct (Nat.ltb_spec i j); [|done]. intros [= <-]. rewrite !list_fmap_insert. cbn [take_from evidence chunk sources].
  apply (swap_perm (map evidence l) i j (evidence a) (evidence b)); [by rewrite list_lookup_fmap, Ha|by rewrite list_lookup_fmap, Hb|done].
Qed.
Lemma swap_literals_evidence values : forall l out, swap_literals values l = Some out -> map evidence out ≡ₚ map evidence l.
Proof.
  induction values as [|[best [i|]] values IH]; intros l out; cbn [swap_literals]; [by intros [= ->]| |apply IH].
  destruct (i =? best); [apply IH|]. destruct (swap_items true best i l) as [l'|] eqn:E; [|done]. cbn [mbind option_bind].
  intros H%IH. rewrite H. by eapply swap_evidence.
Qed.

Definition first_index (f : RankedCandidate -> bool) (l : list RankedCandidate) : option nat := fst <$> list_find (fun x => f x = true) l.
Lemma first_index_snoc f l x : first_index f (l ++ [x]) = match first_index f l with Some i => Some i | None => if f x then Some (length l) else None end.
Proof.
  unfold first_index. assert (forall o : option (nat * RankedCandidate), fst <$> (prod_map S id <$> o) = S <$> (fst <$> o)) as Hs by (by intros [[]|]).
  induction l as [|y l IH]; cbn [app list_find length].
  - destruct (decide (f x = true)) as [->|H]; [done|]. by destruct (f x).
  - destruct (decide (f y = true)); [done|]. rewrite !Hs, IH. destruct (list_find _ l) as [[j w]|]; [done|]. cbn. by destruct (f x).
Qed.
Definition of_file (file : N) (item : RankedCandidate) : bool := (file_of item =? file)%N.
Definition literal_of (file : N) (item : RankedCandidate) : bool := of_file file item && has_literal_source (sources item).
Definition literals_of (ranked : list RankedCandidate) (file : N) : option Entry :=
  match first_index (of_file file) ranked with Some best => Some (best, first_index (literal_of file) ranked) | None => None end.
Lemma first_index_Some f l i : first_index f l = Some i -> exists x, l !! i = Some x /\ f x = true /\ forall j y, l !! j = Some y -> j < i -> f y = false.
Proof.
  unfold first_index. destruct (list_find _ l) as [[j x]|] eqn:E; [|done]. cbn. intros [= <-]. apply list_find_Some in E as (Hj & Hx & Hb).
  exists x. split; [done|]. split; [done|]. intros k y Hk Hlt. specialize (Hb k y Hk Hlt). by destruct (f y).
Qed.
Lemma first_index_None f l : first_index f l = None -> Forall (fun x => f x = false) l.
Proof.
  unfold first_index. destruct (list_find _ l) as [[j x]|] eqn:E; [done|]. intros _. apply list_find_None in E. eapply Forall_impl; [exact E|].
  cbn. intros x Hx. by destruct (f x).
Qed.
Lemma note_literals_spec ranked : forall seen files, (forall file, files !! file = literals_of seen file) ->
  forall file, note_literals xxh3_64 files (length seen) ranked !! file = literals_of (seen ++ ranked) file.
Proof.
  induction ranked as [|item ranked IH]; intros seen files H file; cbn [note_literals]; [by rewrite app_nil_r|].
  replace (S (length seen)) with (length (seen ++ [item])) by (rewrite length_app; cbn; lia). rewrite (IH (seen ++ [item])); [by rewrite <- app_assoc|].
  clear file. intros file. unfold note_literal. unfold literals_of at 1. rewrite !first_index_snoc. destruct (decide (file_of item = file)) as [<-|Hne].
  - rewrite lookup_insert_eq, H. unfold literals_of, literal_of, of_file. rewrite N.eqb_refl. cbn [andb].
    destruct (first_index (fun item0 => _ =? _)%N seen) as [best|] eqn:E; cbn [default from_option fst snd].
    + unfold id. destruct (first_index (fun item0 => _ && _) seen) as [l|] eqn:El; cbn [fst snd]; [by rewrite bool_decide_eq_false_2|].
      rewrite bool_decide_eq_true_2 by done. by destruct (has_literal_source (sources item)).
    + assert (first_index (fun item0 => (file_of item0 =? file_of item)%N && has_literal_source (sources item0)) seen = None) as ->.
      { unfold first_index. destruct (list_find _ seen) as [[j x]|] eqn:El; [|done]. apply list_find_Some in El as (Hj & Hx & _).
        apply first_index_None in E. rewrite Forall_lookup in E. specialize (E j x Hj). cbn in E. rewrite E in Hx. done. }
      cbn [fst snd]. rewrite bool_decide_eq_true_2 by done. by destruct (has_literal_source (sources item)).
  - rewrite lookup_insert_ne, H by done. unfold literals_of, literal_of, of_file. rewrite (proj2 (N.eqb_neq (file_of item) file)) by done. cbn [andb].
    destruct (first_index (fun item0 => _ =? _)%N seen); [|done]. by destruct (first_index (fun item0 => _ && _) seen).
Qed.

(** The swaps of a drained map: a listed file's first candidate takes the sources found. *)
Definition well_noted (ranked : list RankedCandidate) (x : N * Entry) : Prop :=
  exists first literal, ranked !! x.2.1 = Some first /\ file_of first = x.1 /\
    match x.2.2 with Some l => x.2.1 <= l /\ ranked !! l = Some literal /\ file_of literal = x.1 | None => literal = first end.
Lemma swap_literals_spec ranked drained : NoDup (map fst drained) -> Forall (well_noted ranked) drained -> forall current, respanned ranked current ->
  (forall i x, ranked !! i = Some x -> file_of x ∈ map fst drained -> current !! i = Some x) ->
  exists out, swap_literals (map snd drained) current = Some out /\ respanned ranked out
    /\ (forall i x, ranked !! i = Some x -> file_of x ∉ map fst drained -> out !! i = current !! i)
    /\ forall file best literal, (file, (best, literal)) ∈ drained ->
         (evidence <$> out !! best) = evidence <$> ranked !! (match literal with Some l => l | None => best end).
Proof.
  induction drained as [|[file [best literal]] drained IH]; intros Hn Hw current Hr Hsame; cbn [map snd swap_literals].
  { exists current. split; [done|]. split; [done|]. split; [done|]. intros ? ? ? H. by apply elem_of_nil in H. }
  cbn [map fst] in Hn, Hsame. apply NoDup_cons in Hn as [Hnot Hn]. apply Forall_cons in Hw as [(first & lit_ & Hb & Hf & Hl) Hw]. cbn [fst snd] in *.
  assert (current !! best = Some first) as Hcb by (apply Hsame; [done|rewrite Hf; by left]).
  assert (exists next, match literal with Some literal => if literal =? best then Some current else swap_items true best literal current | None => Some current end = Some next
    /\ respanned ranked next /\ (forall i x, ranked !! i = Some x -> file_of x <> file -> next !! i = current !! i)
    /\ (evidence <$> next !! best) = evidence <$> ranked !! (match literal with Some l => l | None => best end)) as (next & Hnext & Hrn & Hkeep & Hbest).
  { destruct literal as [l|]; [|exists current; rewrite Hcb, Hb; by repeat split; try apply Hr].
    destruct Hl as (Hle & Hlit & Hfl). destruct (Nat.eqb_spec l best) as [->|Hne]; [exists current; rewrite Hcb, Hb; by repeat split; try apply Hr|].
    assert (current !! l = Some lit_) as Hcl by (apply Hsame; [done|rewrite Hfl; by left]).
    destruct (swap_items_spec true best l current first lit_ Hcb Hcl ltac:(lia)) as (next & H & Hrn & Hk & Hi & _); [congruence|].
    exists next. split; [done|]. split; [by eapply respanned_trans|]. split.
    - intros i x Hx Hfx. apply Hk; intros ->; congruence.
    - by rewrite Hi, Hlit. }
  destruct (IH Hn Hw next Hrn) as (out & Hout & Hro & Hother & Hlist).
  { intros i x Hx Hin. rewrite (Hkeep i x Hx); [apply Hsame; [done|rewrite elem_of_cons; by right]|]. intros Heq. apply Hnot. by rewrite Heq in Hin. }
  exists out. split; [destruct literal as [l|]; [destruct (l =? best)|]; cbn in Hnext; simplify_eq; by rewrite ?Hnext|]. split; [done|]. split.
  - intros i x Hx Hin. apply not_elem_of_cons in Hin as [Hne Hin]. rewrite (Hother i x Hx Hin). by apply (Hkeep i x).
  - intros f b l [[= -> -> ->]|Hin]%elem_of_cons; [|by eapply Hlist]. rewrite <- Hbest. f_equal. apply (Hother _ first Hb). by rewrite Hf.
Qed.

(** The candidate that shows its file is the first of it. *)
Definition leads (ranked : list RankedCandidate) (i : nat) (file : N) : Prop := first_index (of_file file) ranked = Some i.
Lemma leads_respanned l l' i file : respanned l l' -> leads l' i file -> leads l i file.
Proof.
  intros [H _]. unfold leads, first_index. revert i. induction H as [|a b l l' [_ Hab] _ IH]; intros i; [done|]. cbn [list_find].
  assert (of_file file b = of_file file a) as Heq by (unfold of_file; by rewrite Hab).
  destruct (decide (of_file file b = true)) as [Hy|Hy], (decide (of_file file a = true)) as [Hz|Hz]; [done|congruence|congruence|].
  destruct (list_find _ l') as [[j x]|]; [|done]. cbn. intros [= <-]. specialize (IH j eq_refl). destruct (list_find _ l) as [[k y]|]; [|done]. cbn in *. congruence.
Qed.

(** The first candidate of each file shows the first literal match of the file, chunk and
    sources, and what it showed takes that place. *)
Definition shows_literal (before after : list RankedCandidate) : Prop :=
  respanned before after /\ map evidence after ≡ₚ map evidence before
  /\ forall i file, leads before i file ->
       evidence <$> after !! i = evidence <$> before !! (default i (first_index (literal_of file) before)).
Lemma literal_spans drain ranked : (forall files, drain files ≡ₚ map_to_list files) ->
  exists out, promote_literal_spans xxh3_64 drain ranked = Some out /\ shows_literal ranked out.
Proof.
  intros Hd. unfold promote_literal_spans. set (files := note_literals xxh3_64 ∅ 0 ranked).
  assert (forall file, files !! file = literals_of ranked file) as Hfiles by (intros file; apply (note_literals_spec ranked [] ∅); intros f; apply lookup_empty).
  assert (forall file entry, (file, entry) ∈ drain files <-> literals_of ranked file = Some entry) as Hin.
  { intros file entry. rewrite (Hd files), elem_of_map_to_list. by rewrite Hfiles. }
  destruct (swap_literals_spec ranked (drain files)) with (current := ranked) as (out & Hout & Hr & _ & Hlist).
  - rewrite (Hd files). apply NoDup_fst_map_to_list.
  - apply Forall_forall. intros [file [best literal]] Hx%Hin. unfold literals_of in Hx. destruct (first_index (of_file file) ranked) as [b|] eqn:Eb; [|done].
    injection Hx as -> Hx. apply first_index_Some in Eb as (first & Hb & Hf & Hbefore). unfold well_noted. cbn [fst snd]. apply N.eqb_eq in Hf.
    destruct literal as [l|]; [|by exists first, first]. apply first_index_Some in Hx as (item & Hl & Hlit & _). apply andb_true_iff in Hlit as [Hlf _].
    exists first, item. split; [done|]. split; [done|]. split; [|split; [done|by apply N.eqb_eq]].
    destruct (decide (best <= l)) as [|Hgt]; [done|]. rewrite (Hbefore l item Hl ltac:(lia)) in Hlf. done.
  - apply respanned_refl.
  - done.
  - exists out. split; [done|]. split; [done|]. split; [by eapply swap_literals_evidence|]. intros i file Hlead. unfold leads in Hlead.
    assert (literals_of ranked file = Some (i, first_index (literal_of file) ranked)) as Hx by (unfold literals_of; by rewrite Hlead).
    apply Hin, Hlist in Hx. rewrite Hx. by destruct (first_index _ ranked).
Qed.

Lemma literal_leads l l' i file : shows_literal l l' -> leads l i file ->
  exists item, l' !! i = Some item /\ has_literal_source (sources item) = existsb (literal_of file) l.
Proof.
  intros (Hr & _ & Hlist) Hlead. specialize (Hlist i file Hlead). apply first_index_Some in Hlead as (first & Hi & Hf & _).
  destruct (respanned_lookup_l _ _ _ _ Hr Hi) as (item & Hitem & _). exists item. split; [done|]. rewrite Hitem in Hlist.
  destruct (first_index (literal_of file) l) as [k|] eqn:El; cbn [default from_option] in Hlist; unfold id in Hlist.
  - apply first_index_Some in El as (y & Hy & Hlit & _). rewrite Hy in Hlist. injection Hlist as _ ->. transitivity true.
    + by apply andb_true_iff in Hlit as [_ Hlit].
    + symmetry. apply existsb_exists. exists y. split; [by eapply list_elem_of_In, list_elem_of_lookup_2|done].
  - rewrite Hi in Hlist. injection Hlist as _ ->. apply first_index_None in El. transitivity false.
    + rewrite Forall_lookup in El. specialize (El i first Hi). unfold literal_of in El. by rewrite Hf in El.
    + symmetry. apply not_true_iff_false. rewrite existsb_exists. intros (y & Hy%list_elem_of_In & Ht). rewrite Forall_forall in El. specialize (El y Hy). congruence.
Qed.

(** ** Ratios follow positions *)

Lemma rekey_fold swapped : NoDup (map fst swapped) -> forall (ratios : gmap N f32),
  (forall k o, (k, o) ∈ swapped -> foldl rekey_step ratios swapped !! k = o)
  /\ forall k, k ∉ map fst swapped -> foldl rekey_step ratios swapped !! k = ratios !! k.
Proof.
  induction swapped as [|[k o] swapped IH]; intros Hn ratios; cbn [foldl]; [split; [|done]; intros ? ? H; by apply elem_of_nil in H|].
  cbn [map fst] in *. apply NoDup_cons in Hn as [Hnot Hn]. destruct (IH Hn (rekey_step ratios (k, o))) as [Ha Hb]. split.
  - intros k' o' [[= -> ->]|Hin]%elem_of_cons; [|by apply Ha]. rewrite Hb by done. unfold rekey_step. cbn [fst snd].
    destruct o; [apply lookup_insert_eq|apply lookup_delete_eq].
  - intros k' [Hne Hin]%not_elem_of_cons. rewrite Hb by done. unfold rekey_step. cbn [fst snd]. destruct o; [by rewrite lookup_insert_ne|by rewrite lookup_delete_ne].
Qed.
Lemma rekey_spec ranked out ratios : NoDup (map key_of ranked) -> respanned ranked out ->
  forall i a b, ranked !! i = Some a -> out !! i = Some b -> rekey (map key_of ranked) out ratios !! key_of b = ratios !! key_of a.
Proof.
  intros Hn [Hplaces Hperm] i a b Ha Hb. unfold rekey. set (moved := filter (fun x => x.1 <> key_of x.2) (zip (map key_of ranked) out)).
  assert (NoDup (map key_of out)) as Hno.
  { unfold key_of in *. rewrite <- (map_map chunk vector_key) in Hn |- *. by rewrite Hperm. }
  assert (forall x, x ∈ moved -> exists j, map key_of ranked !! j = Some x.1 /\ out !! j = Some x.2 /\ x.1 <> key_of x.2) as Hmoved.
  { intros x [Hne Hx]%list_elem_of_filter. apply list_elem_of_lookup in Hx as [j Hj]. exists j. destruct x as [k c]. apply lookup_zip_Some in Hj as [H1 H2]. done. }
  assert (forall j x, out !! j = Some x -> key_of x = key_of b -> j = i) as Hinj.
  { intros j x Hj Hk. eapply (NoDup_lookup (map key_of out)); [done|by rewrite list_lookup_fmap, Hj|rewrite list_lookup_fmap, Hb; cbn; congruence]. }
  assert (NoDup (map fst (map (fun x => (key_of x.2, ratios !! x.1)) moved))) as Hnm.
  { rewrite map_map. cbn [fst]. clear Hmoved. unfold moved. clear -Hno. revert Hno. generalize (map key_of ranked). induction out as [|c out IH]; intros keys Hno; [destruct keys; constructor|].
    destruct keys as [|k keys]; [constructor|]. cbn [map] in Hno. apply NoDup_cons in Hno as [Hc Hno]. cbn [zip zip_with]. rewrite filter_cons.
    destruct (decide _); cbn [map snd]; [|by apply IH]. constructor; [|by apply IH]. intros (x & Hk & Hx)%list_elem_of_fmap.
    apply list_elem_of_filter in Hx as [_ Hx]. destruct x as [k' c']. apply elem_of_zip_r in Hx. apply Hc. rewrite Hk. apply list_elem_of_fmap. by exists c'. }
  destruct (rekey_fold _ Hnm ratios) as [Hin Hout]. destruct (decide (key_of a = key_of b)) as [Heq|Hne].
  - rewrite Hout, Heq; [done|]. rewrite map_map. intros (x & Hk & Hx)%list_elem_of_fmap. cbn in Hk. destruct (Hmoved x Hx) as (j & H1 & H2 & H3).
    assert (j = i) as -> by (eapply Hinj; [done|congruence]). rewrite list_lookup_fmap, Ha in H1. cbn in H1. congruence.
  - apply Hin. apply list_elem_of_fmap. exists (key_of a, b). split; [done|]. apply list_elem_of_filter. split; [done|].
    apply list_elem_of_lookup. exists i. apply lookup_zip_Some. split; [by rewrite list_lookup_fmap, Ha|done].
Qed.

Lemma same_literals l l' file : respanned l l' -> map sources l' = map sources l -> existsb (literal_of file) l' = existsb (literal_of file) l.
Proof.
  intros [H _]. induction H as [|a b l l' [_ Hf] _ IH]; [done|]. cbn [map existsb]. intros [= Hs Hrest]. rewrite IH by done. f_equal.
  unfold literal_of, of_file. by rewrite Hs, Hf.
Qed.
Lemma same_sources l l' i (item : RankedCandidate) : map sources l' = map sources l -> l !! i = Some item -> exists item', l' !! i = Some item' /\ sources item' = sources item.
Proof.
  intros H Hi. assert (map sources l' !! i = Some (sources item)) as Hl by (by rewrite H, list_lookup_fmap, Hi).
  rewrite list_lookup_fmap in Hl. destruct (l' !! i) as [item'|]; [|done]. exists item'. split; [done|]. by injection Hl.
Qed.

(** A query that asks for a description, and not how something is done. *)
Definition asks_description (intent : QueryIntent) (lower : str) : Prop :=
  (intent = NaturalLanguage \/ intent = DocsTestsExamples \/ intent = Mixed) /\ ~ exists rest, lower = lit "how " ++ rest.
Lemma descriptive_spec intent lower : descriptive intent lower = true <-> asks_description intent lower.
Proof.
  unfold descriptive, asks_description. rewrite andb_true_iff, negb_true_iff, <- starts_with_spec, not_true_iff_false.
  destruct intent; naive_solver.
Qed.

(** C15. Choosing the chunks that show the results leaves the ranking alone, and chooses
    what each promotion asks for.  For any query, any answers of symbols.rs and any order of
    the hash map, nothing panics when the query's tokens are not empty; every position keeps
    its score and its file, the chunks are the same ones, and the ratio of a position follows
    it to the chunk now shown there.  A chunk of the first file that defines a qualified name
    comes to the first position, without its sources; then, after a pasted error, the first
    candidate of each file shows the first candidate marked as a literal match, chunk and
    sources together; then, for a descriptive query, the first position shows a chunk that
    covers clearly more of the query's words.  So after a pasted error the first candidate of
    each file is marked as a literal match exactly when some candidate of the file was, and it
    shows a chunk so marked unless a promotion that leaves the sources behind moved it (see
    [qualified_name_undoes_literal_span]). *)
Theorem spans_keep_positions defines drain pasted_source pasted_error intent lower names primary_tokens ranked ratios
    (Hdrain : forall files, drain files ≡ₚ map_to_list files) (Htokens : Forall (fun token => token <> []) primary_tokens)
    (Hkeys : NoDup (map key_of ranked)) :
  exists named literal out ratios', promote_spans xxh3_64 defines drain pasted_source pasted_error intent lower names primary_tokens ranked ratios = Some (out, ratios')
    /\ Forall2 same_place ranked out /\ map chunk out ≡ₚ map chunk ranked
    /\ (forall i a b, ranked !! i = Some a -> out !! i = Some b -> ratios' !! key_of b = ratios !! key_of a)
    /\ (if pasted_source then named = ranked else shows_name defines names ranked named)
    /\ (if pasted_error then shows_literal named literal else literal = named)
    /\ (asks_description intent lower -> shows_coverage (coverage_is primary_tokens) primary_tokens REPRESENTATIVE_SPAN_MIN_COVERAGE literal out)
    /\ (~ asks_description intent lower -> out = literal)
    /\ (pasted_error = true -> forall i file, leads out i file ->
          exists item, out !! i = Some item /\ has_literal_source (sources item) = existsb (literal_of file) ranked).
Proof.
  unfold promote_spans.
  assert (exists r1, (if pasted_source then Some ranked else promote_qualified_symbol_span xxh3_64 defines ranked names) = Some r1
    /\ (if pasted_source then r1 = ranked else shows_name defines names ranked r1)) as (r1 & -> & H1)
    by (destruct pasted_source; [by exists ranked|apply qualified_spec]).
  assert (respanned ranked r1 /\ map sources r1 = map sources ranked) as [Hr1 Hs1].
  { destruct pasted_source; [subst r1; by split; [apply respanned_refl|]|]. by destruct H1 as (j & (? & ? & _) & _). }
  cbn [mbind option_bind].
  assert (exists r2, (if pasted_error then promote_literal_spans xxh3_64 drain r1 else Some r1) = Some r2
    /\ (if pasted_error then shows_literal r1 r2 else r2 = r1)) as (r2 & -> & H2) by (destruct pasted_error; [by apply literal_spans|by exists r1]).
  assert (respanned r1 r2) as Hr2 by (destruct pasted_error; [apply H2|subst r2; apply respanned_refl]).
  cbn [mbind option_bind].
  assert (exists r3, (if descriptive intent lower then promote_representative_span xxh3_64 r2 primary_tokens REPRESENTATIVE_SPAN_MIN_COVERAGE else Some r2) = Some r3
    /\ (if descriptive intent lower then shows_coverage (computed primary_tokens) primary_tokens REPRESENTATIVE_SPAN_MIN_COVERAGE r2 r3 else r3 = r2)) as (r3 & -> & H3)
    by (destruct (descriptive intent lower); [by apply representative_spec|by exists r2]).
  assert (respanned r2 r3 /\ map sources r3 = map sources r2) as [Hr3 Hs3].
  { destruct (descriptive intent lower); [|subst r3; by split; [apply respanned_refl|]]. by destruct H3 as (j & (? & ? & _) & _). }
  cbn [mbind option_bind]. assert (respanned ranked r3) as Hr by (eapply respanned_trans; [exact Hr1|by eapply respanned_trans]).
  eexists r1, r2, r3, _. split; [done|]. split; [apply Hr|]. split; [apply Hr|]. split; [|do 2 (split; [done|]); split; [|split]].
  - intros i a b Ha Hb. case_bool_decide as He; [subst ratios; cbn; by rewrite !lookup_empty|]. by eapply rekey_spec.
  - intros Ha%descriptive_spec. rewrite Ha in H3. eapply shows_coverage_ext; [|exact H3]. intros text c. by apply coverage_exact.
  - intros Ha. destruct (descriptive intent lower) eqn:E; [|done]. by destruct Ha; apply descriptive_spec.
  - intros -> i file Hlead. destruct (literal_leads r1 r2 i file H2) as (item & Hi & Hl).
    { eapply leads_respanned; [exact Hr2|]. by eapply leads_respanned. }
    destruct (same_sources r2 r3 i item Hs3 Hi) as (item' & Hi' & Hs). exists item'. split; [done|]. rewrite Hs, Hl. by apply same_literals.
Qed.
End Facts.

(** ** Examples *)

Definition spans_hash (path : list N) : N := hd 0%N path.
Definition spans_item (key : N) (s : f32) (mask : N) : RankedCandidate := MkRanked (MkIndexed [1%N] key (lit "fn go")) s mask.
Definition spans_ranked : list RankedCandidate := [spans_item 10 (of_nat 2) SOURCE_LEXICAL; spans_item 20 F1 13%N].
Definition spans_defines (c : IndexedChunk) (name : str) : bool := (vector_key c =? 20)%N.
Definition spans_ratios : gmap N f32 := {[ 10%N := F1 ]}.

Lemma spans_keep_positions_witness :
  (exists out, promote_spans spans_hash spans_defines map_to_list false false Mixed (lit "how go") [lit "go"] [lit "go"] spans_ranked spans_ratios = Some out
     /\ map key_of out.1 = [20%N; 10%N] /\ out.2 !! 20%N = Some F1)
  /\ exists out ratios', promote_spans spans_hash spans_defines map_to_list true true LiteralOrError (lit "error") [] [lit "go"] spans_ranked spans_ratios = Some (out, ratios')
       /\ Forall2 (same_place spans_hash) spans_ranked out /\ map evidence out ≡ₚ map evidence spans_ranked
       /\ evidence <$> out !! 0 = evidence <$> spans_ranked !! 1.
Proof.
  split; [eexists; split; [by vm_compute|]; split; by vm_compute|].
  destruct (spans_keep_positions spans_hash spans_defines map_to_list true true LiteralOrError (lit "error") [] [lit "go"] spans_ranked spans_ratios)
    as (named & literal & out & ratios' & H & Hf & _ & _ & -> & (_ & Hperm & Hfirst) & _ & Hrest & _).
  - done.
  - by repeat constructor.
  - apply (bool_decide_eq_true_1 _). by vm_compute.
  - rewrite Hrest in H, Hf by by intros [[?|[?|?]] _]. exists literal, ratios'. split; [done|]. split; [done|]. split; [done|]. rewrite (Hfirst 0 1%N) by by vm_compute. by vm_compute.
Defined.

(** The promotion of a qualified name moves a chunk without its sources, so the promotion of
    literal matches, which goes by the sources, takes it back: the chunk without the message
    text leads, marked as a literal match. *)
Theorem qualified_name_undoes_literal_span :
  exists out, promote_spans spans_hash spans_defines map_to_list false true LiteralOrError (lit "error: a::go") [lit "go"] [lit "go"] spans_ranked ∅ = Some (out, ∅)
    /\ map (fun item => (key_of item, has_literal_source (sources item))) spans_ranked = [(10%N, false); (20%N, true)]
    /\ map (fun item => (key_of item, has_literal_source (sources item))) out = [(10%N, true); (20%N, false)].
Proof. eexists. split; [by vm_compute|]. split; by vm_compute. Qed.
